(* ===== verification/_CoqProject ===== *)
-Q . S2P
Prelude.v
Checked.v
Bits.v
GolombRice.v
Field.v
Serialization.v
UniPoly.v
EqPoly.v
MultiPoly.v
SplitEq.v
OffsetWindow.v
AffineIntervals.v
AffineSums.v
AffineLow.v
AffineHigh.v
AffineRows.v
AffineAligned.v
AffineExact.v
Cyclotomic.v
RingEval.v
ResidueKernel.v
Decomposition.v
Gadget.v
ModField.v
Montgomery.v
NttMath.v
Ntt.v
NttTables.v
Capacity.v
Garner.v
CrtRepr.v
IntPoly.v
CrtLimbs.v
CrtConvert.v
CrtElems.v
CrtLut.v
CrtExact.v
CrtOps.v
CrtMatVec.v
CrtProduct.v
CrtTail.v
Transcript.v
Grinding.v
GrindingReplay.v
Sumcheck.v
Mle.v
Hypercube.v
PhysicalL2.v
LimbGram.v
DigitRange.v
Stage1.v
NormStage.v
NormValue.v
NormCert.v
BatchedSumcheck.v
ChallengeConfig.v
SparseChallenge.v
Xof.v
PositionSample.v
OpNorm.v
Sampler.v
FoldDraw.v
Spectrum.v
TrigBounds.v
OpNormSound.v
FoldNorm.v
