(* ===== verification/Prelude.v ===== *)
(** * Akita: a verification development for the lattice commitment scheme

    The repository implements Akita, a transparent polynomial commitment
    scheme over power-of-two cyclotomic rings: a witness is committed through
    gadget-decomposed ring vectors, folded level by level with short
    challenges, and every level is discharged by sumchecks under a
    Fiat-Shamir transcript with proof-of-work grinding.  This library models
    the algebra, the codecs, the transcript, the challenge sampler and the
    sumcheck protocols of that program as executable definitions, and proves
    what makes them correct.

    ** Conventions

    A Rust function that can return an error or panic is a function into
    [outcome E A] (this file): [Ok], [Err e] or [Panic], sequenced with the
    notation [let* x := m in k].  A method on [&mut self] takes the state and
    returns the new one.  A machine integer is a [Z] with its wrap-around or
    its overflow panic written out; [usize] is 64 bits wide.  [BuildMode]
    says whether overflow checks and debug assertions are compiled in; the
    theorems hold in both modes unless they say otherwise.  Loops are folds
    over the ranges of the code; the unbounded ones (rejection sampling,
    nonce search, root search, probing) take fuel, and the theorems about
    them either give a sufficient fuel or speak of every fuel on which the
    search ends.

    Code outside the repository is a class with laws: the fields of
    [jolt_field] (class [Field] with its laws [FieldLaws], in the file Field), the
    duplex sponge of [spongefish] (Transcript), the permutation
    [keccak::f1600] (Xof), and the unreduced accumulators, the allocator, the
    order that an unstable sort gives to equal keys ([UnstableSort]) and the
    thread pool, which only chooses a schedule ([FoldSchedule]).  Each class has an
    instance, the integers modulo a concrete prime among them, at which the
    witnesses of the theorems are evaluated.

    ** The parts of the program and the files that model them

    - Errors and integers.  [Checked]: [akita-error], the protocol error and
      the checked [usize] formulas.
    - Codecs.  [Bits] is the abstract bit stream; [GolombRice] models
      [akita-types/golomb_rice.rs], the codec of the terminal response;
      [Serialization] models [akita-serialization], the little-endian codec
      traits, as the class [LawfulCodec], which every codec of the
      development discharges.
    - Field layer.  [Field] is the interface; [ModField] shows that the
      integers modulo an odd prime implement it.
    - Polynomials ([akita-algebra]).  [UniPoly] (round polynomials and their
      compressed form), [EqPoly] (equality tables in all their builds),
      [MultiPoly] (multilinear evaluation and folding, the range check),
      [SplitEq] (the Gruen split equality state machine).
    - Rings ([akita-algebra/ring]).  [Cyclotomic] (arithmetic in
      [F[X]/(X^D + 1)]), [RingEval] (evaluation at a scalar), [ResidueKernel]
      (functionals of the residues modulo the relation polynomial),
      [Decomposition] and [Gadget] (balanced digits of coefficients and of
      ring elements).
    - Transforms ([akita-algebra/ntt]).  [Montgomery] (coefficients at 16 and
      32 bits), [NttMath] (reference semantics), [Ntt] (the loops),
      [NttTables] (the twiddle construction and the theorems on the whole).
    - Residue numbers ([akita-algebra/ntt/crt.rs],
      [akita-algebra/ring/crt_ntt_repr]).  [Capacity] (multi-limb capacity
      arithmetic), [Garner] (mixed-radix reconstruction), [CrtRepr]
      (parameter sets, lookup tables, conversions, limb operations and the
      matrix-vector product, on the scalar kernel plan), [CrtTail] (the
      16-bit tail prime).  [IntPoly] and [CrtLimbs] give a limb its meaning
      as an integer polynomial modulo the prime; [CrtConvert], [CrtElems],
      [CrtLut], [CrtExact] and [CrtOps] are the theorems on conversions,
      tables, reconstruction and operations, [CrtMatVec] and [CrtProduct]
      those on products.
    - Transcript ([akita-transcript]).  [Transcript] (framing, instance
      binding, squeezes, the proof-of-work transition), [Grinding] (policy,
      sites, priced runs and the plan) and [GrindingReplay] (the adapter both
      sides run the protocol on, over the packed nonce stream).
    - Challenges ([akita-challenges]).  [ChallengeConfig] (families and
      policies), [SparseChallenge] (one challenge and the batch of a round),
      [Xof] (the SHAKE256 stream of a coordinate), [PositionSample]
      (Fisher-Yates over two data structures), [OpNorm] (the integer
      operator-norm predicate), [Sampler] (the draws), [FoldDraw] (the draw
      of a round, live or previewed).  [Spectrum], [TrigBounds], [OpNormSound]
      and [FoldNorm] are the real analysis behind the predicate.
    - Sumcheck ([akita-sumcheck]).  [Sumcheck] (messages, provers, verifiers,
      standard and equality-factored), [BatchedSumcheck] (instances of
      different sizes under one challenge sequence).  [Mle] and [Hypercube]
      hold the multilinear extensions and sums that their instances are about.
    - The digit range proof ([akita-types/proof/stage1.rs],
      [akita-verifier/stages/stage1.rs]).  [DigitRange] (the topology of roots,
      leaves and product stages), [Stage1] (the verifier).
    - The physical L2 norm proof ([akita-types/sis/physical_l2.rs],
      [akita-verifier/stages/physical_l2_norm.rs]).  [PhysicalL2] (profiles,
      limb geometry, proof shapes), [LimbGram] (the integer arithmetic),
      [NormStage] (the verifier), [NormValue] and [NormCert] (its soundness).
    - Offset equality windows ([akita-algebra/offset_eq.rs]).  [OffsetWindow]
      (equality at an index, the two-table window and its interval fill),
      [AffineIntervals] (the contraction of digit-innermost affine intervals
      with its bit-aligned, row and carry-bucketed kernels).  [AffineSums] has
      the sums in a commutative monoid and the laws of the outer weights
      ([AffineWeightLaws]); [AffineLow], [AffineHigh], [AffineRows] and
      [AffineAligned] are the correctness of the parts, [AffineExact] of the
      whole.

    The parts meet as they do in the code.  The transcript is a class: the
    sumcheck drivers, the fold draw and the replay adapter are proved against
    it, and the sponge-backed transcript and the adapter implement it.  The
    sumcheck instances are classes too: a stage verifier is an instance, and
    the soundness of its stage applies the generic theorem to it.  The codecs
    share [LawfulCodec]; the decomposition feeds [Gadget]; the replay adapter
    consumes a validated plan of [Grinding]; the samplers stack from the byte
    stream up to the batch of a round.

    ** What the theorems show

    - Sumcheck: an honest prover is accepted, with the challenges of the
      verifier's own transcript ([*_completeness]); an accepted proof is for a
      true claim unless some round polynomial, which differs from the true
      one, agrees with it at the challenge, or, in the standard sumcheck, an
      empty round message, which the code accepts, replaced a nonzero running
      claim by zero ([*_soundness]).  The event is
      explicit, so no probability is needed; with a bound on the degree a
      challenge hits it for at most that many field elements.
    - Stages: an accepted range proof means that every entry of the table is a
      balanced digit, an accepted norm proof that the squared norm of the
      response is the claimed integer, again up to explicit lucky challenges
      (and, for the norm, a claim dropped by an empty message).
    - Challenges: the draw is a function of seed and coordinate, the preview
      predicts the live draw, the position samplers agree and are bijective on
      draw sequences, the stream is SHAKE256, the ladder states the exact
      entropy of its families, and a challenge kept under the rejection policy
      stretches no real ring element by more than the threshold.
    - Transcript: framing and fold payloads are injective, byte
      squeezes are the successive blocks of the sponge of the history, on
      both sides and in previews, the nonce search returns the least witness,
      plan and replay agree between both sides, and a prover that keeps
      grinding succeeds when a witness exists.
    - Equality windows: a window agrees with the scalar equality primitive at
      every index, and the affine interval evaluator returns the documented
      sum exactly on the inputs its documentation admits, whichever kernel it
      selects and however the fold is split, and an error on all others.
    - Algebra: the ring laws, the transforms as products of negacyclic
      polynomials with their round trip, Montgomery arithmetic without
      overflow, equality tables entry by entry, the split equality state as a
      refinement of the folded table.
    - Residue numbers: the capacity check is exact, Garner reconstruction is
      total and returns the centered integer of the residues, and whenever
      the capacity supports the size the integer matrix-vector product is the
      schoolbook product in the ring, with and without the tail prime.
    - Residue kernels: the kernel of a residue functional is the functional of
      the product in the ring, for dense and sparse multipliers alike.
    - Codecs: round trips, exactness (a byte string decodes iff it is the
      encoding of a valid value) and canonicity, for the terminal codec under
      the quotient caps that keep its codes within 64 bits.
    - Gadget decomposition: within the asserted budget and away from the edge
      of [i128], digits are bounded and recompose to the coefficient, at
      machine widths.

    ** Fuel and bounds

    The byte cursors of a stream are given one step per byte they still have
    to copy, which is enough.  The rejection loop of a draw, which ends with
    probability one only, takes fuel and is a panic of the model when it runs
    out: the theorems on draws hold for every fuel.
    The nonce search runs over the 32-bit nonces the code iterates over, so
    its fuel is the code's own bound.  The root search of the twiddle tables
    tries the candidates below the prime, which is proved to succeed.  Probing
    in the position table is bounded by the capacity, which is proved to be
    enough because the table is never full.  The carry loops, the Euclidean
    inverse and the width search of the residue numbers have fuels proved
    sufficient.  The Machin and Taylor sums of the
    operator-norm tables stop at the term counts of the code; the error bounds
    in [TrigBounds] are for exactly those counts.

    ** Not modelled

    - SIMD kernels (NEON, AVX2, AVX-512, IFMA52): intrinsics selected at run
      time beside the portable routines that are modelled here.
    - Delayed-reduction accumulators: thin wrappers of external accumulator
      types whose code is not in the repository.
    - Floating point: the SIS estimator, the support-size estimate of a
      challenge family and encoding statistics.
    - Logging, profiling, benches, examples and scripts, which have no effect
      on a proof; random sampling of test data.
    - The prover's witness generation, schedules and their generated tables,
      setup files, and the multi-level orchestration of the verifier: they
      work over the layout and schedule types, of which only the parts the
      modelled stages read are here.  The stages they call are modelled.
    - The tensor-product row evaluators, which specialise the affine interval
      evaluator to structured weights; the tables of concrete transform primes
      and the kernels that only SIMD plans enable.

    ** This file

    The shared prelude: the outcome monad and its loop combinators, machine
    integers on [Z], bit-level helpers, and the generic list lemmas and
    tactics that the component files use. *)

From Stdlib Require Export ZArith Lia String List Ring Ring_theory.
From Stdlib Require Export Sorted.
From stdpp Require Export base list numbers.
From stdpp Require sorting.

#[global] Open Scope Z_scope.

(** * Outcomes of a computation

    A Rust function that returns [Result<A, E>] and may also panic (slice
    indexing out of range, [unwrap] on [None], shift by the full width) has
    three outcomes.  [Panic] is a value of the model, so that "never panics"
    is a statement that can be proved. *)

Inductive outcome (E A : Type) : Type :=
  | Ok (a : A)
  | Err (e : E)
  | Panic.
Arguments Ok {E A} a.
Arguments Err {E A} e.
Arguments Panic {E A}.

Definition obind {E A B} (m : outcome E A) (k : A -> outcome E B) : outcome E B :=
  match m with
  | Ok a => k a
  | Err e => Err e
  | Panic => Panic
  end.

Definition omapr {E A B} (f : A -> B) (m : outcome E A) : outcome E B :=
  obind m (fun a => Ok (f a)).

(** [Result::map_err] *)
Definition omap_err {E E' A} (f : E -> E') (m : outcome E A) : outcome E' A :=
  match m with
  | Ok a => Ok a
  | Err e => Err (f e)
  | Panic => Panic
  end.

(** [Option::ok_or] *)
Definition ok_or {E A} (o : option A) (e : E) : outcome E A :=
  match o with Some a => Ok a | None => Err e end.

(** [Option::unwrap], slice indexing and the like: panic on [None]. *)
Definition unwrap {E A} (o : option A) : outcome E A :=
  match o with Some a => Ok a | None => Panic end.

Declare Scope akita_scope.
Delimit Scope akita_scope with akita.

Notation "'let*' x := m 'in' k" := (obind m (fun x => k))
  (at level 10, x pattern, m at level 100, k at level 200,
   format "'[hv' 'let*'  x  :=  m  'in'  '//' k ']'") : akita_scope.
Notation "'guard*' b 'else' e 'in' k" := (if b then k else Err e)
  (at level 10, b at level 100, e at level 100, k at level 200,
   format "'[hv' 'guard*'  b  'else'  e  'in'  '//' k ']'") : akita_scope.
#[global] Open Scope akita_scope.

(** A [for] loop over a list of items with a mutable state and early return. *)
Fixpoint ofold {E S A} (f : S -> A -> outcome E S) (l : list A) (s : S) : outcome E S :=
  match l with
  | [] => Ok s
  | a :: l => let* s' := f s a in ofold f l s'
  end.

(** [iter().map(f).collect::<Result<Vec<_>, _>>()] *)
Fixpoint omapM {E A B} (f : A -> outcome E B) (l : list A) : outcome E (list B) :=
  match l with
  | [] => Ok []
  | a :: l => let* b := f a in let* bs := omapM f l in Ok (b :: bs)
  end.

(** The values a loop variable takes in [for i in 0..n]. *)
Definition range (n : Z) : list Z := seqZ 0 n.

Definition len {A} (l : list A) : Z := Z.of_nat (length l).

(** [iter().enumerate()] *)
Definition enumerate {A} (l : list A) : list (Z * A) := zip (range (len l)) l.

(** Slice indexing [l[i]] with a machine-integer index. *)
Definition index {A} (l : list A) (i : Z) : option A :=
  if 0 <=? i then l !! Z.to_nat i else None.

(** Indexed assignment [l[i] = x]; panics when [i] is out of range. *)
Definition store {E A} (l : list A) (i : Z) (x : A) : outcome E (list A) :=
  if (0 <=? i) && (i <? len l) then Ok (<[Z.to_nat i := x]> l) else Panic.

(** [l[i] = f(l[i])], as in [l[i] += v]. *)
Definition update {E A} (l : list A) (i : Z) (f : A -> A) : outcome E (list A) :=
  let* x := unwrap (index l i) in store l i (f x).

(** [dst.iter_mut().zip(src)], each entry of [dst] replaced by [f d s]. *)
Fixpoint zip_update {A B} (f : A -> B -> A) (dst : list A) (src : list B) : list A :=
  match dst, src with
  | d :: dst, s :: src => f d s :: zip_update f dst src
  | _, _ => dst
  end.

(** [split_at] and [split_at_mut]: panic past the end. *)
Definition split_at {E A} (l : list A) (k : Z) : outcome E (list A * list A) :=
  if (0 <=? k) && (k <=? len l) then Ok (take (Z.to_nat k) l, drop (Z.to_nat k) l) else Panic.

(** The slice cut into parts of [k] items, the last one possibly shorter; a
    list of [n] items has at most [n] parts. *)
Fixpoint chunks_fuel {A} (fuel k : nat) (l : list A) : list (list A) :=
  match fuel, l with
  | O, _ | _, [] => []
  | S fuel, _ => take k l :: chunks_fuel fuel k (drop k l)
  end.
Definition chunks_of {A} (k : nat) (l : list A) : list (list A) := chunks_fuel (length l) k l.

(** [assert!] *)
Definition assert {E} (b : bool) : outcome E unit := if b then Ok tt else Panic.

(** [debug_assertions] of the build. *)
Class BuildMode := debug_assertions : bool.
Definition debug_assert {E} (b : bool) `{BuildMode} : outcome E unit :=
  if debug_assertions && negb b then Panic else Ok tt.

(** The slice [l[a..b]] of [l.get(a..b)]. *)
Definition slice {A} (l : list A) (a b : Z) : option (list A) :=
  if (0 <=? a) && (a <=? b) && (b <=? len l)
  then Some (take (Z.to_nat (b - a)) (drop (Z.to_nat a) l))
  else None.

(** [sort_unstable_by_key]: a sorted permutation; the order among equal keys is
    not specified. *)
Class UnstableSort := {
  sort_by_key : forall {T}, (T -> Z) -> list T -> list T;
  sort_perm T (key : T -> Z) l : sort_by_key key l ≡ₚ l;
  sort_sorted T (key : T -> Z) l : StronglySorted (fun a b => key a <= key b) (sort_by_key key l);
}.

(** The merge sort of stdpp is one. *)
Module Merge_sort_env.
#[export] Program Instance merge_sort_by_key : UnstableSort :=
  {| sort_by_key T key l := @sorting.merge_sort T (fun a b => key a <= key b) (fun a b => Z.le_dec (key a) (key b)) l |}.
Next Obligation. intros. apply sorting.merge_sort_Permutation. Qed.
Next Obligation.
  intros. apply sorting.StronglySorted_merge_sort.
  - intros a b c. apply Z.le_trans.
  - intros a b. apply Z.le_ge_cases.
Qed.
End Merge_sort_env.

(** * Tactics *)

Tactic Notation "inv" hyp(H) := inversion H; clear H; subst.

(** Destructs the scrutinee of an [if]/[match] in the goal or a hypothesis. *)
Ltac break_match :=
  match goal with
  | |- context [if ?b then _ else _] => destruct b eqn:?
  | |- context [match ?x with _ => _ end] => destruct x eqn:?
  | H : context [if ?b then _ else _] |- _ => destruct b eqn:?
  | H : context [match ?x with _ => _ end] |- _ => destruct x eqn:?
  end.

(** Turns boolean integer tests in the context into propositions. *)
Ltac bool_prop :=
  repeat match goal with
  | H : (_ && _)%bool = true |- _ => apply andb_true_iff in H as [? ?]
  | H : (_ && _)%bool = false |- _ => apply andb_false_iff in H as [H|H]
  | H : (_ || _)%bool = true |- _ => apply orb_true_iff in H as [H|H]
  | H : (_ || _)%bool = false |- _ => apply orb_false_iff in H as [? ?]
  | H : negb _ = true |- _ => apply negb_true_iff in H
  | H : negb _ = false |- _ => apply negb_false_iff in H
  | H : (_ =? _) = true |- _ => apply Z.eqb_eq in H
  | H : (_ =? _) = false |- _ => apply Z.eqb_neq in H
  | H : (_ <=? _) = true |- _ => apply Z.leb_le in H
  | H : (_ <=? _) = false |- _ => apply Z.leb_gt in H
  | H : (_ <? _) = true |- _ => apply Z.ltb_lt in H
  | H : (_ <? _) = false |- _ => apply Z.ltb_ge in H
  end.

(** Decides every boolean integer test of the goal. *)
Ltac case_Z :=
  repeat match goal with
  | |- context [?a =? ?b] => destruct (Z.eqb_spec a b)
  | |- context [?a <=? ?b] => destruct (Z.leb_spec a b)
  | |- context [?a <? ?b] => destruct (Z.ltb_spec a b)
  end; cbn [andb orb negb]; try lia.

(** [lia] with quotients and remainders by constants. *)
Ltac div_lia := Z.to_euclidean_division_equations; lia.

(** Inverts a successful bind in a hypothesis. *)
Ltac obind_inv H :=
  match type of H with
  | obind ?m _ = Ok _ =>
      let E := fresh "E" in
      destruct m eqn:E; cbn [obind] in H; [| discriminate H | discriminate H]
  end.

(** * Laws of the outcome monad *)

Section outcome_laws.
Context {E : Type}.

Lemma obind_Ok {A B} (m : outcome E A) (k : A -> outcome E B) b :
  obind m k = Ok b <-> exists a, m = Ok a /\ k a = Ok b.
Proof.
  split.
  - destruct m; cbn; try discriminate. eauto.
  - intros (a & -> & H). exact H.
Qed.

Lemma ofold_app {S A} (f : S -> A -> outcome E S) l1 l2 s :
  ofold f (l1 ++ l2) s = let* s' := ofold f l1 s in ofold f l2 s'.
Proof.
  revert s; induction l1 as [|a l1 IH]; intros s; [done|].
  cbn. destruct (f s a); cbn; auto.
Qed.

(** Loop rule: an invariant preserved by every iteration holds at the end. *)
Lemma ofold_inv {S A} (I : S -> Prop) (f : S -> A -> outcome E S) l s s' :
  (forall s a s', a ∈ l -> I s -> f s a = Ok s' -> I s') ->
  I s -> ofold f l s = Ok s' -> I s'.
Proof.
  revert s; induction l as [|a l IH]; cbn; intros s Hf Hs H.
  - by injection H as <-.
  - obind_inv H. eapply IH; [..|exact H].
    + intros; eapply Hf; eauto. by right.
    + eapply Hf; eauto. by left.
Qed.

Lemma omapM_Forall2 {A B} (f : A -> outcome E B) l bs :
  omapM f l = Ok bs <-> Forall2 (fun a b => f a = Ok b) l bs.
Proof.
  revert bs; induction l as [|a l IH]; intros bs; cbn.
  - split; [intros [= <-]; constructor | inversion 1; done].
  - split.
    + intros H. obind_inv H. obind_inv H. injection H as <-.
      constructor; [done | by apply IH].
    + inversion 1 as [|? b ? bs' Ha Hl]; subst. rewrite Ha; cbn.
      apply IH in Hl. by rewrite Hl.
Qed.

Lemma omapM_length {A B} (f : A -> outcome E B) l bs :
  omapM f l = Ok bs -> length bs = length l.
Proof. intros H%omapM_Forall2. symmetry. by eapply Forall2_length. Qed.

Lemma omapM_pure {A B} (f : A -> B) (l : list A) :
  omapM (E := E) (fun a => Ok (f a)) l = Ok (map f l).
Proof. induction l as [|a l IH]; cbn; [done|]. by rewrite IH. Qed.

Lemma ofold_pure {S A} (f : S -> A -> S) (l : list A) s :
  ofold (E := E) (fun s a => Ok (f s a)) l s = Ok (foldl f s l).
Proof. revert s; induction l as [|a l IH]; intros s; cbn; auto. Qed.
End outcome_laws.

(** * Indexed access *)

Lemma len_app {A} (l1 l2 : list A) : len (l1 ++ l2) = len l1 + len l2.
Proof. unfold len. rewrite length_app. lia. Qed.

Lemma len_cons {A} (a : A) l : len (a :: l) = len l + 1.
Proof. unfold len. cbn [length]. lia. Qed.

Lemma len_nonneg {A} (l : list A) : 0 <= len l.
Proof. unfold len. lia. Qed.

Lemma len_replicate {A} (a : A) n : 0 <= n -> len (replicate (Z.to_nat n) a) = n.
Proof. unfold len. rewrite length_replicate. lia. Qed.

Lemma length_range n : length (range n) = Z.to_nat n.
Proof. apply length_seqZ. Qed.

Lemma len_range n : 0 <= n -> len (range n) = n.
Proof. unfold len. rewrite length_range. lia. Qed.

Lemma elem_of_range n i : i ∈ range n <-> 0 <= i < n.
Proof. unfold range. rewrite elem_of_seqZ. lia. Qed.

Lemma range_S n : 0 <= n -> range (n + 1) = range n ++ [n].
Proof.
  intros. unfold range. replace (n + 1) with (Z.of_nat (S (Z.to_nat n))) by lia.
  rewrite seqZ_S. do 2 f_equal; lia.
Qed.

(** Loop rule for [for i in 0..n], with termination: an invariant that every
    iteration re-establishes makes the loop return. *)
Lemma ofold_range {E S} (I : Z -> S -> Prop) (f : S -> Z -> outcome E S) n s :
  0 <= n -> I 0 s ->
  (forall i s, 0 <= i < n -> I i s -> exists s', f s i = Ok s' /\ I (i + 1) s') ->
  exists s', ofold f (range n) s = Ok s' /\ I n s'.
Proof.
  intros Hn H0 Hf. revert Hf. pattern n. apply natlike_ind; [|clear n Hn|done].
  - intros _. by exists s.
  - intros n Hn IH Hf. destruct IH as (s1 & Hs1 & I1); [intros; apply Hf; [lia|done]|].
    destruct (Hf n s1) as (s2 & Hs2 & I2); [lia|done|]. exists s2.
    rewrite <-Z.add_1_r, range_S, ofold_app, Hs1 by done. cbn. by rewrite Hs2.
Qed.

Lemma index_nat {A} (l : list A) (i : nat) : index l (Z.of_nat i) = l !! i.
Proof.
  unfold index. destruct (Z.leb_spec 0 (Z.of_nat i)); [|lia]. by rewrite Nat2Z.id.
Qed.

Lemma index_Some_len {A} (l : list A) i a : index l i = Some a -> 0 <= i < len l.
Proof.
  unfold index. destruct (Z.leb_spec 0 i); [|done]. intros Hl%lookup_lt_Some.
  unfold len. lia.
Qed.

Lemma index_is_Some {A} (l : list A) i : 0 <= i < len l -> exists a, index l i = Some a.
Proof.
  unfold index, len. intros Hi. destruct (Z.leb_spec 0 i); [|lia].
  apply lookup_lt_is_Some_2. lia.
Qed.

Lemma index_middle {A} (l1 l2 : list A) a i :
  i = len l1 -> index (l1 ++ a :: l2) i = Some a.
Proof. intros ->. unfold len. rewrite index_nat. by apply list_lookup_middle. Qed.

Lemma index_head {A} (l : list A) a : index (a :: l) 0 = Some a.
Proof. done. Qed.

Lemma store_middle {E A} (l1 l2 : list A) a x i :
  i = len l1 -> store (E := E) (l1 ++ a :: l2) i x = Ok (l1 ++ x :: l2).
Proof.
  intros ->. unfold store. rewrite len_app, len_cons.
  pose proof (len_nonneg l1). pose proof (len_nonneg l2). case_Z.
  unfold len. rewrite Nat2Z.id. by rewrite list.insert_app_r_alt, Nat.sub_diag by done.
Qed.

Lemma store_head {E A} (l : list A) a x : store (E := E) (a :: l) 0 x = Ok (x :: l).
Proof. by apply (store_middle []). Qed.

Lemma length_zip_update {A B} (f : A -> B -> A) dst src : length (zip_update f dst src) = length dst.
Proof. revert src; induction dst as [|a dst IH]; intros [|b src]; cbn; auto. Qed.

Lemma split_at_Ok {E A} (l : list A) k : 0 <= k <= len l ->
  split_at (E := E) l k = Ok (take (Z.to_nat k) l, drop (Z.to_nat k) l).
Proof. intros Hk. unfold split_at. by case_Z. Qed.

Lemma len_take_Z {A} (l : list A) k : 0 <= k <= len l -> len (take (Z.to_nat k) l) = k.
Proof. unfold len. intros Hk. rewrite length_take. lia. Qed.

Lemma len_drop_Z {A} (l : list A) k : 0 <= k <= len l -> len (drop (Z.to_nat k) l) = len l - k.
Proof. unfold len. intros Hk. rewrite length_drop. lia. Qed.

(** Masking with all ones below [k]. *)
Lemma land_low i k : 0 <= k -> Z.land i (2 ^ k - 1) = i mod 2 ^ k.
Proof. intros Hk. rewrite <-Z.land_ones by done. by rewrite Z.ones_equiv, Z.sub_1_r. Qed.

Lemma chunks_fuel_concat {A} fuel k (l : list A) :
  (0 < k)%nat -> (length l <= fuel)%nat -> concat (chunks_fuel fuel k l) = l.
Proof.
  intros Hk. revert l; induction fuel as [|fuel IH]; intros l Hl.
  - by apply Nat.le_0_r, nil_length_inv in Hl as ->.
  - destruct l as [|a l]; [done|].
    change (concat (chunks_fuel (S fuel) k (a :: l)))
      with (take k (a :: l) ++ concat (chunks_fuel fuel k (drop k (a :: l)))).
    rewrite IH by (rewrite length_drop; cbn in *; lia). apply take_drop.
Qed.

Lemma chunks_of_concat {A} k (l : list A) : (0 < k)%nat -> concat (chunks_of k l) = l.
Proof. intros. by apply chunks_fuel_concat. Qed.

(** A loop over consecutive indices whose iterations keep the invariant or fail. *)
Lemma ofold_seqZ_try {E T} (I : Z -> T -> Prop) (Q : E -> Prop) (f : T -> Z -> outcome E T) a n s :
  0 <= n -> I a s ->
  (forall i s, a <= i < a + n -> I i s ->
     (exists s', f s i = Ok s' /\ I (i + 1) s') \/ exists e, f s i = Err e /\ Q e) ->
  (exists s', ofold f (seqZ a n) s = Ok s' /\ I (a + n) s') \/ exists e, ofold f (seqZ a n) s = Err e /\ Q e.
Proof.
  intros Hn. rewrite <-(Z2Nat.id n) by done. generalize (Z.to_nat n) as k. clear n Hn.
  intros k. revert a s. induction k as [|k IH]; intros a s Hs Hf.
  - left. exists s. cbn. by rewrite Z.add_0_r.
  - rewrite seqZ_cons by lia. cbn [ofold]. replace (Z.pred (Z.of_nat (S k))) with (Z.of_nat k) by lia.
    destruct (Hf a s ltac:(lia) Hs) as [(s' & -> & Hs')|(e & -> & HQ)]; cbn [obind]; [|right; by exists e].
    replace (a + Z.of_nat (S k)) with (Z.succ a + Z.of_nat k) by lia. apply IH; [done|].
    intros i s'' Hi. apply Hf. lia.
Qed.

Lemma ofold_seqZ {E T} (I : Z -> T -> Prop) (f : T -> Z -> outcome E T) a n s :
  0 <= n -> I a s -> (forall i s, a <= i < a + n -> I i s -> exists s', f s i = Ok s' /\ I (i + 1) s') ->
  exists s', ofold f (seqZ a n) s = Ok s' /\ I (a + n) s'.
Proof.
  intros Hn Hs Hf. destruct (ofold_seqZ_try I (fun _ => False) f a n s Hn Hs) as [?|(? & _ & [])]; [|done].
  intros i s' Hi HI. left. by apply Hf.
Qed.

Lemma index_insert {A} (l : list A) i j x :
  0 <= i < len l -> index (<[Z.to_nat i := x]> l) j = if j =? i then Some x else index l j.
Proof.
  intros Hi. unfold index, len in *. destruct (Z.leb_spec 0 j); [|by destruct (Z.eqb_spec j i); [lia|]].
  destruct (Z.eqb_spec j i) as [->|Hne]; [apply list_lookup_insert_eq; lia|].
  apply list_lookup_insert_ne. lia.
Qed.

Lemma store_insert {E A} (l : list A) i x : 0 <= i < len l -> store (E := E) l i x = Ok (<[Z.to_nat i := x]> l).
Proof.
  intros Hi. unfold store, len in *. destruct (Z.leb_spec 0 i); [|lia]. by destruct (Z.ltb_spec i (Z.of_nat (length l))); [|lia].
Qed.

Lemma enumerate_snoc {A} (l : list A) x : enumerate (l ++ [x]) = enumerate l ++ [(len l, x)].
Proof.
  unfold enumerate. rewrite len_app. change (len [x]) with 1. rewrite range_S by apply len_nonneg.
  change [(len l, x)] with (zip_with pair [len l] [x]). apply zip_with_app. rewrite length_range. unfold len. lia.
Qed.

Lemma take_enumerate {A} (a b : list A) : take (length a) (enumerate (a ++ b)) = enumerate a.
Proof.
  induction b as [|x b IH] using rev_ind.
  - rewrite app_nil_r, take_ge; [done|]. unfold enumerate. rewrite length_zip_with, length_range. unfold len. lia.
  - rewrite app_assoc, enumerate_snoc, take_app_le; [done|].
    unfold enumerate. rewrite length_zip_with, length_range, length_app. unfold len. rewrite length_app. lia.
Qed.

Lemma take_index {A} (l : list A) k x :
  index l k = Some x -> take (Z.to_nat (k + 1)) l = take (Z.to_nat k) l ++ [x].
Proof.
  intros Hx. pose proof (index_Some_len _ _ _ Hx). unfold index in Hx. destruct (0 <=? k); [|done].
  replace (Z.to_nat (k + 1)) with (S (Z.to_nat k)) by lia. by apply take_S_r.
Qed.

(** All parts of a multiple of [k] items are full. *)
Lemma chunks_fuel_full {A} fuel k (l : list A) m :
  length l = (m * k)%nat -> Forall (fun part => length part = k) (chunks_fuel fuel k l).
Proof.
  revert l m; induction fuel as [|fuel IH]; intros l m Hl; [by destruct l; constructor|].
  destruct l as [|a l]; [constructor|]. destruct m as [|m]; [done|]. constructor.
  - rewrite length_take, Hl. lia.
  - apply (IH _ m). rewrite length_drop, Hl. lia.
Qed.

(** * Machine integers

    A [w]-bit unsigned integer is a [Z] in [[0, 2^w)], a signed one a [Z] in
    [[-2^(w-1), 2^(w-1))]; wrap-around is written where the code wraps and
    the [checked_*] operations return [None] where the code's do. *)

Definition uwrap (w z : Z) : Z := z mod 2 ^ w.
Definition swrap (w z : Z) : Z :=
  (z + 2 ^ (w - 1)) mod 2 ^ w - 2 ^ (w - 1).

Definition in_u (w z : Z) : Prop := 0 <= z < 2 ^ w.
Definition in_s (w z : Z) : Prop := - 2 ^ (w - 1) <= z < 2 ^ (w - 1).

Definition checked_u (w z : Z) : option Z :=
  if (0 <=? z) && (z <? 2 ^ w) then Some z else None.

(** The result of a checked operation on a signed [w]-bit integer. *)
Definition checked_s (w z : Z) : option Z :=
  if (- 2 ^ (w - 1) <=? z) && (z <? 2 ^ (w - 1)) then Some z else None.

(** [usize] is 64 bits wide on the supported targets. *)
Definition USIZE_BITS : Z := 64.
Definition USIZE_MAX : Z := 2 ^ USIZE_BITS - 1.
Definition usize (z : Z) : option Z := checked_u USIZE_BITS z.
Definition checked_add (a b : Z) : option Z := usize (a + b).
Definition checked_sub (a b : Z) : option Z := usize (a - b).
Definition checked_mul (a b : Z) : option Z := usize (a * b).
Definition saturating_add (a b : Z) : Z := Z.min (a + b) USIZE_MAX.
Definition saturating_mul (a b : Z) : Z := Z.min (a * b) USIZE_MAX.
Definition saturating_sub (a b : Z) : Z := Z.max (a - b) 0.

Lemma checked_u_Some w z r : checked_u w z = Some r <-> in_u w z /\ r = z.
Proof.
  unfold checked_u, in_u. split.
  - destruct (_ && _)%bool eqn:E; intros [= <-]; bool_prop; lia.
  - intros [? ->]. by replace ((0 <=? z) && (z <? 2 ^ w))%bool with true
      by (symmetry; apply andb_true_iff; lia).
Qed.

Lemma checked_u_None w z : checked_u w z = None <-> ~ in_u w z.
Proof.
  unfold checked_u, in_u. destruct (_ && _)%bool eqn:E; bool_prop; split;
    intros; try done; try lia.
Qed.

Lemma checked_u_in w z : in_u w z -> checked_u w z = Some z.
Proof. intros. by apply checked_u_Some. Qed.

Lemma uwrap_id w z : in_u w z -> uwrap w z = z.
Proof. intros. apply Z.mod_small. done. Qed.

Lemma uwrap_in w z : 0 <= w -> in_u w (uwrap w z).
Proof. intros. apply Z.mod_pos_bound. lia. Qed.

Lemma swrap_id w z : 0 < w -> in_s w z -> swrap w z = z.
Proof.
  intros Hw [? ?]. unfold swrap. rewrite Z.mod_small; [lia|].
  replace (2 ^ w) with (2 * 2 ^ (w - 1)); [lia|].
  rewrite <-Z.pow_succ_r by lia. f_equal; lia.
Qed.

Lemma swrap_in w z : 0 < w -> in_s w (swrap w z).
Proof.
  intros Hw. unfold in_s, swrap.
  assert (2 ^ w = 2 * 2 ^ (w - 1)) as Hp
    by (rewrite <-Z.pow_succ_r by lia; f_equal; lia).
  pose proof (Z.mod_pos_bound (z + 2 ^ (w - 1)) (2 ^ w) ltac:(lia)). lia.
Qed.

(** Conversion of a signed value to the unsigned type and back. *)
Lemma swrap_uwrap w z : 0 < w -> in_s w z -> swrap w (uwrap w z) = z.
Proof.
  intros Hw Hz. unfold swrap, uwrap. rewrite Z.add_mod_idemp_l by lia.
  by apply swrap_id.
Qed.

Lemma pow2_to_nat n : Z.to_nat (2 ^ Z.of_nat n) = (2 ^ n)%nat.
Proof.
  change (2 ^ Z.of_nat n) with (Z.of_nat 2 ^ Z.of_nat n).
  by rewrite <-Nat2Z.inj_pow, Nat2Z.id.
Qed.

Lemma pow2_pos w : 0 <= w -> 0 < 2 ^ w.
Proof. lia. Qed.

(** * Little-endian bytes and bits *)

Definition is_byte (b : Z) : Prop := 0 <= b < 256.

(** [to_le_bytes] of an [n]-byte integer. *)
Fixpoint to_le_bytes (n : nat) (z : Z) : list Z :=
  match n with
  | O => []
  | S n => z mod 256 :: to_le_bytes n (z / 256)
  end.

(** [from_le_bytes] *)
Fixpoint from_le_bytes (bs : list Z) : Z :=
  match bs with
  | [] => 0
  | b :: bs => b + 256 * from_le_bytes bs
  end.

Lemma length_to_le_bytes n z : length (to_le_bytes n z) = n.
Proof. revert z; induction n; intros; cbn; auto. Qed.

Lemma to_le_bytes_bytes n z : Forall is_byte (to_le_bytes n z).
Proof.
  revert z; induction n; intros; cbn; constructor; [|done].
  apply Z.mod_pos_bound; lia.
Qed.

Lemma from_to_le_bytes n z :
  from_le_bytes (to_le_bytes n z) = z mod 2 ^ (8 * Z.of_nat n).
Proof.
  revert z; induction n as [|n IH]; intros z.
  - cbn. by rewrite Z.mod_1_r.
  - cbn -[Z.mul Z.of_nat Z.pow]. rewrite IH.
    replace (2 ^ (8 * Z.of_nat (S n))) with (256 * 2 ^ (8 * Z.of_nat n)).
    2:{ replace (8 * Z.of_nat (S n)) with (8 + 8 * Z.of_nat n) by lia.
        rewrite Z.pow_add_r by lia. done. }
    rewrite Z.rem_mul_r by lia. done.
Qed.

Lemma to_from_le_bytes bs :
  Forall is_byte bs -> to_le_bytes (length bs) (from_le_bytes bs) = bs.
Proof.
  induction 1 as [|b bs Hb _ IH]; [done|].
  cbn -[Z.mul]. unfold is_byte in Hb. f_equal.
  - rewrite Z.mul_comm, Z.mod_add by lia. by apply Z.mod_small.
  - rewrite Z.mul_comm, Z.div_add by lia. by rewrite Z.div_small, Z.add_0_l by lia.
Qed.

Lemma from_le_bytes_bound bs :
  Forall is_byte bs -> 0 <= from_le_bytes bs < 2 ^ (8 * len bs).
Proof.
  intros H%to_from_le_bytes. rewrite <-H at 1 2. rewrite from_to_le_bytes.
  apply Z.mod_pos_bound. unfold len. lia.
Qed.

(** Bitwise disjunction stays within a width. *)
Lemma lor_in_u n a b : 0 <= n -> in_u n a -> in_u n b -> in_u n (Z.lor a b).
Proof.
  unfold in_u. intros Hn [Ha Ha'] [Hb Hb'].
  assert (0 <= Z.lor a b) as Hl by (apply Z.lor_nonneg; done). split; [done|].
  destruct (decide (Z.lor a b = 0)) as [->|Hnz]; [lia|].
  apply Z.log2_lt_pow2; [lia|]. rewrite Z.log2_lor by done.
  assert (Hlog : forall x, 0 <= x < 2 ^ n -> x = 0 \/ Z.log2 x < n).
  { intros x Hx. destruct (decide (x = 0)); [by left|]. right.
    apply Z.log2_lt_pow2; lia. }
  pose proof (Z.log2_nonneg a). pose proof (Z.log2_nonneg b).
  destruct (Hlog a ltac:(lia)); destruct (Hlog b ltac:(lia)); subst;
    try done; change (Z.log2 0) with 0 in *; lia.
Qed.
