(* ===== verification/Checked.v ===== *)
(** [akita-error]: the protocol error shared by every crate, and the checked
    [usize] formulas of [akita-error/src/checked.rs].  Every formula is shown
    to return the exact integer result when it is representable and [None]
    exactly otherwise, so no caller can observe a wrapped value. *)

From S2P Require Import Prelude.

(** [AkitaError].  The payload of the three textual variants is the message
    text; formatted arguments of a message are left out of the text. *)
Inductive AkitaError :=
  | InvalidProof
  | InvalidSize (expected actual : Z)
  | InvalidPointDimension (expected actual : Z)
  | InvalidInput (msg : string)
  | UnsupportedSchedule (msg : string)
  | InvalidSetup (msg : string).

Abbreviation result := (outcome AkitaError).

Module checked.

(** [values.into_iter().try_fold(0, usize::checked_add)] *)
Fixpoint sum_from (acc : Z) (values : list Z) : option Z :=
  match values with
  | [] => Some acc
  | v :: values =>
      match checked_add acc v with
      | Some acc' => sum_from acc' values
      | None => None
      end
  end.

Definition sum (values : list Z) : option Z := sum_from 0 values.

(** [factors.into_iter().try_fold(1, usize::checked_mul)] *)
Fixpoint product_from (acc : Z) (factors : list Z) : option Z :=
  match factors with
  | [] => Some acc
  | f :: factors =>
      match checked_mul acc f with
      | Some acc' => product_from acc' factors
      | None => None
      end
  end.

Definition product (factors : list Z) : option Z := product_from 1 factors.

Definition mul_add (lhs rhs addend : Z) : option Z :=
  match checked_mul lhs rhs with
  | Some p => checked_add p addend
  | None => None
  end.

(** [u32::try_from(exponent).ok()?] then [1usize.checked_shl(shift)], which
    is [None] when the shift is at least the width. *)
Definition pow2 (exponent : Z) : option Z :=
  match checked_u 32 exponent with
  | Some shift =>
      if shift <? USIZE_BITS then Some (Z.shiftl 1 shift) else None
  | None => None
  end.

(** [usize::checked_next_power_of_two] *)
Definition checked_next_power_of_two (value : Z) : option Z :=
  if value <=? 1 then Some 1 else usize (2 ^ Z.log2_up value).

(** [trailing_zeros] of a power of two is its binary logarithm. *)
Definition ceil_log2 (value : Z) : option Z :=
  if value =? 0 then None
  else
    match checked_next_power_of_two value with
    | Some p => Some (Z.log2 p)
    | None => None
    end.

Definition range (start len : Z) : option (Z * Z) :=
  match checked_add start len with
  | Some stop => Some (start, stop)
  | None => None
  end.

Definition is_power_of_two (z : Z) : bool :=
  (0 <? z) && (2 ^ Z.log2 z =? z).

Definition align_up (value alignment : Z) : option Z :=
  if negb (is_power_of_two alignment) then None
  else
    let remainder := value mod alignment in
    if remainder =? 0 then Some value
    else checked_add value (alignment - remainder).

Definition checked_div (value divisor : Z) : option Z :=
  if divisor =? 0 then None else Some (value / divisor).

Definition is_multiple_of (value divisor : Z) : bool :=
  if divisor =? 0 then value =? 0 else value mod divisor =? 0.

Definition div_ceil (value divisor : Z) : option Z :=
  match checked_div value divisor with
  | Some quotient =>
      checked_add quotient (if is_multiple_of value divisor then 0 else 1)
  | None => None
  end.

Definition exact_div (value divisor : Z) : option Z :=
  match checked_div value divisor with
  | Some quotient => if is_multiple_of value divisor then Some quotient else None
  | None => None
  end.

(** * Lemmas *)

Definition Zsum (l : list Z) : Z := foldr Z.add 0 l.
Definition Zprod (l : list Z) : Z := foldr Z.mul 1 l.

Lemma Zsum_nonneg l : Forall (in_u USIZE_BITS) l -> 0 <= Zsum l.
Proof. induction 1 as [|v l [? ?] _ IH]; cbn; [lia|]. fold (Zsum l). lia. Qed.

Lemma sum_from_spec acc values :
  in_u USIZE_BITS acc -> Forall (in_u USIZE_BITS) values ->
  sum_from acc values = usize (acc + Zsum values).
Proof.
  intros Ha Hv; revert acc Ha; induction Hv as [|v l Hb Hl IH]; intros acc Ha.
  - cbn. rewrite Z.add_0_r. unfold usize. by rewrite checked_u_in.
  - cbn [sum_from Zsum foldr]. fold (Zsum l).
    pose proof (Zsum_nonneg l Hl) as Hs. unfold in_u in Ha, Hb.
    unfold checked_add, usize. unfold checked_u at 1.
    destruct ((0 <=? acc + v) && _)%bool eqn:E; bool_prop.
    + rewrite IH by (unfold in_u; lia). unfold usize. by rewrite Z.add_assoc.
    + lia.
    + symmetry. apply checked_u_None. unfold in_u. lia.
Qed.

Lemma product_from_zero factors :
  product_from 0 factors = Some 0.
Proof. induction factors as [|f l IH]; [done|]. exact IH. Qed.

Lemma Zprod_nonneg l : Forall (in_u USIZE_BITS) l -> 0 <= Zprod l.
Proof. induction 1 as [|v l [? ?] _ IH]; cbn; [lia|]. fold (Zprod l). nia. Qed.

(** The running product overflows exactly when the full product does,
    unless a later factor is zero. *)
Lemma product_from_spec acc factors :
  0 < acc -> in_u USIZE_BITS acc ->
  Forall (fun f => 0 < f < 2 ^ USIZE_BITS) factors ->
  product_from acc factors = usize (acc * Zprod factors).
Proof.
  intros Ha Hu Hf; revert acc Ha Hu; induction Hf as [|f l Hb Hl IH]; intros acc Ha Hu.
  - cbn. rewrite Z.mul_1_r. unfold usize. by rewrite checked_u_in.
  - cbn [product_from Zprod foldr]. fold (Zprod l).
    assert (1 <= Zprod l) as Hp.
    { clear -Hl. induction Hl as [|? ? ? ? IH]; cbn; [lia|]. fold (Zprod l). nia. }
    unfold checked_mul, usize. unfold checked_u at 1.
    destruct ((0 <=? acc * f) && _)%bool eqn:E; bool_prop.
    + rewrite IH; [|nia|split; lia]. unfold usize. by rewrite Z.mul_assoc.
    + nia.
    + symmetry. apply checked_u_None. unfold in_u. nia.
Qed.

Lemma is_power_of_two_spec z :
  is_power_of_two z = true <-> exists k, 0 <= k /\ z = 2 ^ k.
Proof.
  unfold is_power_of_two. split.
  - intros ?; bool_prop. exists (Z.log2 z). split; [apply Z.log2_nonneg | done].
  - intros (k & Hk & ->). apply andb_true_iff. split; [apply Z.ltb_lt; lia|].
    apply Z.eqb_eq. by rewrite Z.log2_pow2.
Qed.

Lemma usize_Some z r : usize z = Some r <-> in_u USIZE_BITS z /\ r = z.
Proof. apply checked_u_Some. Qed.

(** The iterator formulas are exact: [sum] and, for nonzero factors,
    [product] return the mathematical sum and product when these fit in
    [usize] and [None] otherwise; [mul_add] does the same for
    [lhs * rhs + addend]. *)
Theorem sum_product_exact values factors lhs rhs addend :
  Forall (in_u USIZE_BITS) values ->
  Forall (fun f => 0 < f < 2 ^ USIZE_BITS) factors ->
  in_u USIZE_BITS lhs -> in_u USIZE_BITS rhs -> in_u USIZE_BITS addend ->
  sum values = usize (Zsum values) /\
  product factors = usize (Zprod factors) /\
  mul_add lhs rhs addend = usize (lhs * rhs + addend).
Proof.
  intros Hv Hf Hl Hr Ha. unfold in_u in *. split; [|split].
  - unfold sum. rewrite sum_from_spec; [done|by split|done].
  - unfold product. rewrite product_from_spec; [by rewrite Z.mul_1_l|lia|by split|done].
  - unfold mul_add, checked_mul, checked_add.
    destruct (usize (lhs * rhs)) as [p|] eqn:E; symmetry.
    + by apply usize_Some in E as [_ ->].
    + apply checked_u_None in E. apply checked_u_None. unfold in_u in *. nia.
Qed.

Lemma sum_product_exact_witness :
  sum [2; 3; USIZE_MAX] = None /\ product [2; 3; 5] = Some 30.
Proof.
  destruct (sum_product_exact [2; 3; USIZE_MAX] [2; 3; 5] 4 5 3) as (H1 & H2 & _);
    [repeat constructor; done..|].
  rewrite H1, H2. by split.
Defined.

(** [align_up] succeeds exactly on a power-of-two alignment whose
    rounded value fits in [usize], and then returns the least multiple of
    the alignment that is not below the value. *)
Theorem align_up_least value alignment r :
  in_u USIZE_BITS value ->
  align_up value alignment = Some r <->
  (exists k, 0 <= k /\ alignment = 2 ^ k) /\ in_u USIZE_BITS r /\
  (alignment | r) /\ value <= r < value + alignment.
Proof.
  intros Hv. unfold align_up, in_u in *. rewrite <-is_power_of_two_spec.
  destruct (is_power_of_two alignment) eqn:Ea; cbn [negb];
    [|split; [done | by intros [? _]]].
  assert (0 < alignment) as Hp.
  { apply is_power_of_two_spec in Ea as (k & ? & ->). lia. }
  pose proof (Z.mod_pos_bound value alignment Hp) as Hm.
  pose proof (Z.div_mod value alignment ltac:(lia)) as Hd.
  assert (Huniq : forall a b, (alignment | a) -> (alignment | b) ->
            value <= a < value + alignment -> value <= b < value + alignment -> a = b).
  { intros a b [x ->] [y ->] ? ?. assert (x = y) by nia. by subst. }
  case_Z.
  - split.
    + intros [= <-]. repeat split; try lia. by apply Z.mod_divide; lia.
    + intros (_ & ? & ? & ?). f_equal. apply Huniq; try done; try lia.
      apply Z.mod_divide; lia.
  - assert (alignment | value + (alignment - value mod alignment)) as Hdiv.
    { exists (value / alignment + 1). lia. }
    unfold checked_add. rewrite usize_Some. unfold in_u. split.
    + intros [? ->]. repeat split; try done; lia.
    + intros (_ & ? & ? & ?). assert (r = value + (alignment - value mod alignment)).
      { apply Huniq; try done; lia. }
      lia.
Qed.

Lemma align_up_least_witness : (8 | 16) /\ align_up 9 8 = Some 16.
Proof.
  destruct (align_up_least 9 8 16) as [H _]; [done|].
  destruct (H eq_refl) as (_ & _ & Hd & _). by split.
Defined.

(** [ceil_log2] returns the least [k] with [value <= 2^k], and fails
    exactly on zero and on values above [2^63]; [div_ceil] is the exact
    ceiling and never overflows. *)
Theorem ceil_log2_div_ceil value divisor k :
  in_u USIZE_BITS value -> in_u USIZE_BITS divisor ->
  (ceil_log2 value = Some k <->
     0 < value <= 2 ^ k /\ 0 <= k < USIZE_BITS /\
     forall j, 0 <= j -> value <= 2 ^ j -> k <= j) /\
  (div_ceil value divisor =
     if divisor =? 0 then None else Some (- (- value / divisor))).
Proof.
  intros Hv Hd. unfold in_u in *. split.
  - unfold ceil_log2, checked_next_power_of_two.
    destruct (Z.eqb_spec value 0) as [->|Hnz].
    { split; [done|lia]. }
    destruct (Z.leb_spec value 1) as [H1|H1].
    { assert (value = 1) as -> by lia. cbn. split.
      - intros [= <-]. repeat split; lia.
      - intros (_ & ? & Hmin). f_equal. specialize (Hmin 0). lia. }
    pose proof (Z.log2_up_spec value H1) as [Hlo Hhi].
    pose proof (Z.log2_up_nonneg value) as Hn.
    assert (Hleast : forall j, 0 <= j -> value <= 2 ^ j -> Z.log2_up value <= j).
    { intros j Hj Hle. apply Z.log2_up_le_mono in Hle.
      by rewrite Z.log2_up_pow2 in Hle. }
    destruct (usize (2 ^ Z.log2_up value)) as [p|] eqn:E.
    + apply usize_Some in E as [[_ E] ->]. rewrite Z.log2_pow2 by done.
      apply Z.pow_lt_mono_r_iff in E; [|done..]. split.
      * intros [= <-]. repeat split; try lia; done.
      * intros (? & ? & Hmin). f_equal.
        apply Z.le_antisymm; [apply Hleast; lia | apply Hmin; lia].
    + apply checked_u_None in E. unfold in_u in E. split; [done|].
      intros (? & ? & Hmin). exfalso. apply E. split; [lia|].
      apply Z.pow_lt_mono_r; [done..|].
      pose proof (Hleast k ltac:(lia) ltac:(lia)). lia.
  - unfold div_ceil, checked_div, is_multiple_of, checked_add.
    destruct (Z.eqb_spec divisor 0) as [->|Hnz]; [done|].
    pose proof (Z.div_mod value divisor Hnz) as Hdm.
    pose proof (Z.mod_pos_bound value divisor ltac:(lia)) as Hm.
    assert (Hq : 0 <= value / divisor) by (apply Z.div_pos; lia).
    destruct (Z.eqb_spec (value mod divisor) 0) as [Hz|Hz].
    + rewrite Z.div_opp_l_z by done. rewrite Z.add_0_r, Z.opp_involutive.
      apply usize_Some. split; [|done]. split; [done|]. nia.
    + rewrite Z.div_opp_l_nz by done.
      replace (- (- (value / divisor) - 1)) with (value / divisor + 1) by lia.
      apply usize_Some. split; [|done]. split; [lia|]. nia.
Qed.

Lemma ceil_log2_div_ceil_witness :
  ceil_log2 9 = Some 4 /\ div_ceil USIZE_MAX 2 = Some (2 ^ 63).
Proof.
  destruct (ceil_log2_div_ceil 9 2 4) as [[_ H] _]; [done..|].
  destruct (ceil_log2_div_ceil USIZE_MAX 2 0) as [_ H2]; [done..|].
  split; [|exact H2]. apply H. split; [done|]. split; [done|].
  intros j Hj Hle. apply Z.le_ngt. intros Hlt.
  assert (2 ^ j <= 2 ^ 3) by (apply Z.pow_le_mono_r; lia). lia.
Defined.
End checked.

(** * Guarded computations *)

(** What a guarded computation answers: the value when the guard holds, an
    error otherwise. *)
Definition verdict {T} (b : bool) (v : T) (r : result T) : Prop :=
  if b then r = Ok v else exists e, r = Err e.

Lemma verdict_check {T} c b (v : T) r k : (c = true -> r = k) -> (c = false -> exists e, r = Err e) ->
  (c = true -> verdict b v k) -> verdict (c && b) v r.
Proof. destruct c; cbn [andb]; intros Hk He Hv; [rewrite Hk by done; by apply Hv|by apply He]. Qed.

Lemma ok_or_err {S T} (o : option S) e (k : S -> result T) : (forall x, o = Some x -> exists e', k x = Err e') ->
  exists e', (let* x := ok_or o e in k x) = Err e'.
Proof. intros Hk. destruct o as [x|]; [by apply Hk|by exists e]. Qed.

Lemma verdict_checked {T} z b e (v : T) (r : Z -> result T) : 0 <= z -> (z < 2 ^ 64 -> verdict b v (r z)) ->
  verdict ((z <? 2 ^ 64) && b) v (let* x := ok_or (usize z) e in r x).
Proof.
  intros Hz Hk. apply verdict_check with (k := r z).
  - intros Hc%Z.ltb_lt. unfold usize. by rewrite checked_u_in by (unfold in_u, USIZE_BITS; lia).
  - intros Hc%Z.ltb_ge. unfold usize. rewrite (proj2 (checked_u_None _ _)); [by exists e|]. unfold in_u, USIZE_BITS. lia.
  - intros Hc%Z.ltb_lt. by apply Hk.
Qed.

Lemma verdict_leb {T} a c b (v : T) r k : (a <= c -> verdict b v k) -> (exists e, r = Err e) ->
  verdict ((a <=? c) && b) v (if c <? a then r else k).
Proof.
  intros Hk He. rewrite Z.ltb_antisym. apply verdict_check with (k := k); [by intros ->|by intros ->|].
  intros Hc%Z.leb_le. by apply Hk.
Qed.

Lemma usize_value z x : usize z = Some x -> x = z.
Proof. by intros [_ Hx]%checked.usize_Some. Qed.

(** Past a chain of checked operations that succeeded. *)
Ltac past_checked :=
  repeat first
    [ apply ok_or_err; intros ? ?
    | match goal with
      | Ho : (_ ≫= _) = Some _ |- _ => apply bind_Some in Ho as (? & ? & Ho)
      | Ho : checked_add _ _ = Some _ |- _ => apply usize_value in Ho
      | Ho : checked_mul _ _ = Some _ |- _ => apply usize_value in Ho
      end ].
