(* ===== verification/Bits.v ===== *)
(** Bit streams over byte strings, least-significant bit first: the abstract
    view that the Golomb-Rice bit cursor and bit writer implement. *)

From S2P Require Import Prelude.

(** The eight bits of a byte and the bit stream of a byte string. *)
Definition byte_bits (b : Z) : list bool :=
  (fun i : nat => Z.testbit b (Z.of_nat i)) <$> seq 0 8.

Fixpoint stream (bytes : list Z) : list bool :=
  match bytes with
  | [] => []
  | b :: bytes => byte_bits b ++ stream bytes
  end.

(** The integer of a bit list, and the low [n] bits of an integer. *)
Fixpoint bits_val (l : list bool) : Z :=
  match l with
  | [] => 0
  | b :: l => Z.b2z b + 2 * bits_val l
  end.

Definition to_bits (n : nat) (v : Z) : list bool :=
  (fun i : nat => Z.testbit v (Z.of_nat i)) <$> seq 0 n.

(** The number of leading ones of a bit list. *)
Fixpoint lead_ones (l : list bool) : nat :=
  match l with
  | true :: l => S (lead_ones l)
  | _ => O
  end.

Lemma length_byte_bits b : length (byte_bits b) = 8%nat.
Proof. done. Qed.

Lemma length_stream bytes : length (stream bytes) = (8 * length bytes)%nat.
Proof. induction bytes; [done|]. cbn [stream]. rewrite length_app, IHbytes, length_byte_bits. cbn. lia. Qed.

Lemma stream_app l1 l2 : stream (l1 ++ l2) = stream l1 ++ stream l2.
Proof. induction l1; [done|]. cbn [stream app]. by rewrite IHl1, app_assoc. Qed.

Lemma byte_bits_lookup b i :
  (i < 8)%nat -> byte_bits b !! i = Some (Z.testbit b (Z.of_nat i)).
Proof.
  intros Hi. unfold byte_bits. rewrite list_lookup_fmap, lookup_seq_lt by done. done.
Qed.

Lemma stream_lookup bytes k i :
  (i < 8)%nat ->
  stream bytes !! (8 * k + i)%nat = (fun b => Z.testbit b (Z.of_nat i)) <$> bytes !! k.
Proof.
  intros Hi. revert k; induction bytes as [|b bytes IH]; intros k; [done|].
  cbn [stream]. destruct k as [|k].
  - rewrite lookup_app_l by (rewrite length_byte_bits; lia).
    rewrite Nat.mul_0_r, Nat.add_0_l. by apply byte_bits_lookup.
  - rewrite lookup_app_r by (rewrite length_byte_bits; lia).
    rewrite length_byte_bits. replace (8 * S k + i - 8)%nat with (8 * k + i)%nat by lia.
    apply IH.
Qed.

Lemma stream_drop bytes k : stream (drop k bytes) = drop (8 * k) (stream bytes).
Proof.
  revert k; induction bytes as [|b bytes IH]; intros [|k]; [done..|].
  replace (8 * S k)%nat with (8 + 8 * k)%nat by lia.
  cbn [stream]. rewrite <-drop_drop. cbn [drop]. rewrite IH.
  by rewrite (drop_app_length' (byte_bits b)).
Qed.

Lemma stream_take bytes k : stream (take k bytes) = take (8 * k) (stream bytes).
Proof.
  revert k; induction bytes as [|b bytes IH]; intros [|k]; [done..|].
  replace (8 * S k)%nat with (8 + 8 * k)%nat by lia.
  cbn [take stream]. rewrite IH.
  rewrite take_app_ge by (rewrite length_byte_bits; lia).
  rewrite length_byte_bits. f_equal. f_equal. lia.
Qed.

(** Setting one bit of one byte. *)
Lemma stream_set bytes k i b :
  (i < 8)%nat -> bytes !! k = Some b ->
  stream (<[k := Z.lor b (Z.shiftl 1 (Z.of_nat i))]> bytes) =
  <[(8 * k + i)%nat := true]> (stream bytes).
Proof.
  intros Hi Hk. apply list_eq. intros j.
  replace j with (8 * (j / 8) + j mod 8)%nat
    by (pose proof (Nat.div_mod_eq j 8); lia).
  pose proof (Nat.mod_upper_bound j 8 ltac:(lia)) as Hj.
  generalize dependent (j mod 8)%nat. generalize (j / 8)%nat. clear j. intros jk ji Hj.
  rewrite stream_lookup by done.
  destruct (decide (8 * k + i = 8 * jk + ji)%nat) as [He|He].
  - assert (k = jk) as -> by lia. assert (i = ji) as -> by lia.
    apply lookup_lt_Some in Hk.
    rewrite list_lookup_insert_eq by done. cbn [fmap option_fmap option_map].
    assert (Hl : (8 * jk + ji < length (stream bytes))%nat) by (rewrite length_stream; lia).
    rewrite list_lookup_insert_eq by exact Hl.
    rewrite Z.lor_spec, Z.shiftl_spec, Z.sub_diag by lia.
    by rewrite orb_true_r.
  - rewrite (list_lookup_insert_ne (stream bytes)) by done. rewrite stream_lookup by done.
    destruct (decide (k = jk)) as [->|Hne].
    + rewrite Hk. pose proof (lookup_lt_Some _ _ _ Hk).
      rewrite list_lookup_insert_eq by done. cbn. f_equal.
      rewrite Z.lor_spec. replace (Z.shiftl 1 (Z.of_nat i)) with (2 ^ Z.of_nat i).
      2:{ rewrite Z.shiftl_mul_pow2 by lia. lia. }
      rewrite Z.pow2_bits_false by lia. by rewrite orb_false_r.
    + by rewrite list_lookup_insert_ne by done.
Qed.

Lemma bits_val_bound l : 0 <= bits_val l < 2 ^ len l.
Proof.
  unfold len. induction l as [|b l IH]; cbn [bits_val length]; [cbn; lia|].
  rewrite Nat2Z.inj_succ, Z.pow_succ_r by lia. destruct b; cbn; lia.
Qed.

Lemma bits_val_testbit l (i : nat) :
  Z.testbit (bits_val l) (Z.of_nat i) = default false (l !! i).
Proof.
  revert i; induction l as [|b l IH]; intros i; [by rewrite Z.bits_0|].
  cbn [bits_val]. rewrite Z.add_comm. destruct i as [|i].
  - by destruct b; rewrite ?Z.testbit_odd_0, ?Z.add_0_r, ?Z.testbit_even_0.
  - rewrite Nat2Z.inj_succ. cbn [lookup list_lookup]. rewrite <-IH.
    destruct b; cbn [Z.b2z]; rewrite ?Z.add_0_r.
    + apply Z.testbit_odd_succ; lia.
    + apply Z.testbit_even_succ; lia.
Qed.

Lemma to_bits_S n v : to_bits (S n) v = Z.testbit v 0 :: to_bits n (v / 2).
Proof.
  unfold to_bits. cbn [seq fmap list_fmap]. f_equal.
  rewrite <-fmap_S_seq, <-list_fmap_compose.
  apply list_fmap_ext. intros i x _. cbn -[Z.testbit Z.of_nat].
  rewrite Nat2Z.inj_succ, <-Z.div2_div, Z.div2_spec, Z.shiftr_spec by lia.
  by rewrite Z.add_1_r.
Qed.

Lemma length_to_bits n v : length (to_bits n v) = n.
Proof. unfold to_bits. by rewrite length_fmap, length_seq. Qed.

Lemma bits_val_to_bits n v : bits_val (to_bits n v) = v mod 2 ^ Z.of_nat n.
Proof.
  revert v; induction n as [|n IH]; intros v.
  - cbn. by rewrite Z.mod_1_r.
  - rewrite to_bits_S. cbn [bits_val]. rewrite IH, Z.bit0_odd.
    rewrite Nat2Z.inj_succ, Z.pow_succ_r by lia.
    rewrite Z.rem_mul_r by lia. by rewrite Zmod_odd, Z.add_comm; destruct (Z.odd v); cbn; lia.
Qed.

Lemma to_bits_bits_val l : to_bits (length l) (bits_val l) = l.
Proof.
  apply list_eq. intros i. unfold to_bits. rewrite list_lookup_fmap.
  destruct (decide (i < length l)%nat) as [Hi|Hi].
  - rewrite lookup_seq_lt by done. cbn. rewrite bits_val_testbit.
    by destruct (lookup_lt_is_Some_2 l i Hi) as [b ->].
  - rewrite (lookup_ge_None_2 l i) by lia.
    rewrite (lookup_ge_None_2 (seq 0 _)) by (rewrite length_seq; lia). done.
Qed.

Lemma byte_bits_inj a b : is_byte a -> is_byte b -> byte_bits a = byte_bits b -> a = b.
Proof.
  intros Ha Hb H. apply (f_equal bits_val) in H.
  unfold byte_bits in H. fold (to_bits 8 a) (to_bits 8 b) in H.
  rewrite !bits_val_to_bits in H. unfold is_byte in *.
  by rewrite !Z.mod_small in H by (cbn; lia).
Qed.

(** A byte string is determined by its bit stream. *)
Lemma stream_inj l1 l2 :
  Forall is_byte l1 -> Forall is_byte l2 -> stream l1 = stream l2 -> l1 = l2.
Proof.
  intros H1; revert l2; induction H1 as [|a l1 Ha _ IH]; intros l2 H2 H.
  - by destruct H2.
  - destruct H2 as [|b l2 Hb H2]; [done|]. cbn [stream] in H.
    apply app_inj_1 in H as [Hh Ht]; [|done].
    f_equal; [by apply byte_bits_inj | by apply IH].
Qed.

Lemma lead_ones_replicate q l : lead_ones (replicate q true ++ false :: l) = q.
Proof. induction q; cbn; auto. Qed.

Lemma lead_ones_le l : (lead_ones l <= length l)%nat.
Proof. induction l as [|[] l IH]; cbn; lia. Qed.

(** A list with fewer leading ones than elements has a zero after them. *)
Lemma lead_ones_split l :
  (lead_ones l < length l)%nat ->
  l = replicate (lead_ones l) true ++ false :: drop (S (lead_ones l)) l.
Proof.
  induction l as [|[] l IH]; cbn [lead_ones length]; intros H; [lia|..].
  - cbn [replicate app drop]. f_equal. apply IH. lia.
  - done.
Qed.

Lemma lead_ones_all l : lead_ones l = length l -> l = replicate (length l) true.
Proof.
  induction l as [|[] l IH]; cbn; intros H; [done| |done].
  f_equal. apply IH. lia.
Qed.

Lemma lead_ones_app l1 l2 :
  lead_ones (l1 ++ l2) =
    if decide (lead_ones l1 = length l1) then (length l1 + lead_ones l2)%nat
    else lead_ones l1.
Proof.
  induction l1 as [|[] l1 IH]; cbn [app lead_ones length]; [by case_decide| |by case_decide].
  rewrite IH. repeat case_decide; lia.
Qed.
