(* ===== verification/GolombRice.v ===== *)
(** The canonical Golomb-Rice codec of the terminal tail segment:
    [akita-types/src/golomb_rice.rs] and [tail_golomb_rice_low_bits.rs].

    The bit cursor and writer are modelled on their byte buffers; [rest] and
    [written] give their abstract bit streams.  The byte-wise operations
    refine bit-list specifications, from which follow the round trip, the
    canonicity of accepted encodings and the payload bounds. *)

From S2P Require Import Prelude Bits Checked.

(** Shifts of a [u64] by a [u32] amount: out of range panics. *)
Definition shr64 (x k : Z) : result Z := if k <? 64 then Ok (Z.shiftr x k) else Panic.
Definition shl64 (x k : Z) : result Z :=
  if k <? 64 then Ok (uwrap 64 (Z.shiftl x k)) else Panic.

(** * The bit cursor *)

Record BitReader := { r_bytes : list Z; bit_pos : Z }.

Module BitReader.

Definition new (bytes : list Z) : BitReader := {| r_bytes := bytes; bit_pos := 0 |}.

Definition remaining_bits (r : BitReader) : Z :=
  saturating_sub (saturating_mul (len (r_bytes r)) 8) (bit_pos r).

Definition at_pos (r : BitReader) (pos : Z) : BitReader :=
  {| r_bytes := r_bytes r; bit_pos := pos |}.

Definition read_bit (r : BitReader) : result (bool * BitReader) :=
  if saturating_mul (len (r_bytes r)) 8 <=? bit_pos r then Err InvalidProof
  else
    let byte_idx := bit_pos r / 8 in
    let bit_idx := bit_pos r mod 8 in
    let* byte := ok_or (index (r_bytes r) byte_idx) InvalidProof in
    Ok (Z.land (Z.shiftr byte bit_idx) 1 =? 1, at_pos r (bit_pos r + 1)).

(** [word |= u128::from(byte) << (index * 8)] over the enumerated slice. *)
Fixpoint assemble (bytes : list Z) (i : Z) (word : Z) : Z :=
  match bytes with
  | [] => word
  | byte :: bytes => assemble bytes (i + 1) (Z.lor word (uwrap 128 (Z.shiftl byte (i * 8))))
  end.

Definition read_bits (r : BitReader) (count : Z) : result (Z * BitReader) :=
  if count =? 0 then Ok (0, r)
  else if 63 <? count then Err InvalidProof
  else
    let needed := count in
    if remaining_bits r <? needed then Err InvalidProof
    else
      let* end_bit := ok_or (checked_add (bit_pos r) needed) InvalidProof in
      let byte_start := bit_pos r / 8 in
      let byte_end := (end_bit + 7) / 8 in
      let* bytes := ok_or (slice (r_bytes r) byte_start byte_end) InvalidProof in
      let word := assemble bytes 0 0 in
      let shift := bit_pos r mod 8 in
      let mask := Z.shiftl 1 count - 1 in
      Ok (uwrap 64 (Z.land (Z.shiftr word shift) mask), at_pos r end_bit).

(** [u8::trailing_ones], looking at [n] bits. *)
Fixpoint trailing_ones (n : nat) (x : Z) : Z :=
  match n with
  | O => 0
  | S n => if Z.testbit x 0 then 1 + trailing_ones n (Z.shiftr x 1) else 0
  end.

(** The loop of [read_unary_ones]: every iteration that does not return
    moves the cursor to the next byte boundary, so [fuel] iterations beyond
    the number of bytes left are never taken. *)
Fixpoint read_unary_loop (fuel : nat) (r : BitReader) (max_quotient quotient : Z)
  : result (Z * BitReader) :=
  match fuel with
  | O => Panic
  | S fuel =>
      if remaining_bits r =? 0 then Err InvalidProof
      else
        let byte_index := bit_pos r / 8 in
        let bit_index := bit_pos r mod 8 in
        let* byte := ok_or (index (r_bytes r) byte_index) InvalidProof in
        let available := 8 - bit_index in
        let ones := Z.min (trailing_ones 8 (Z.shiftr byte bit_index)) available in
        let* quotient := ok_or (checked_u 64 (quotient + ones)) InvalidProof in
        if max_quotient <? quotient then Err InvalidProof
        else
          let* pos := ok_or (checked_add (bit_pos r) ones) InvalidProof in
          if ones <? available then
            let* pos' := ok_or (checked_add pos 1) InvalidProof in
            Ok (quotient, at_pos r pos')
          else read_unary_loop fuel (at_pos r pos) max_quotient quotient
  end.

Definition read_unary_ones (r : BitReader) (max_quotient : Z)
  : result (Z * BitReader) :=
  read_unary_loop (S (length (r_bytes r))) r max_quotient 0.
End BitReader.

(** * The bit writer *)

Record BitWriter := { w_bytes : list Z; w_pos : Z }.

Module BitWriter.

Definition default : BitWriter := {| w_bytes := []; w_pos := 0 |}.
Definition finish (w : BitWriter) : list Z := w_bytes w.
Definition bit_len (w : BitWriter) : Z := w_pos w.

Definition write_bit (w : BitWriter) (bit : bool) : result BitWriter :=
  let byte_idx := w_pos w / 8 in
  let bit_idx := w_pos w mod 8 in
  let bytes := if len (w_bytes w) <=? byte_idx then w_bytes w ++ [0] else w_bytes w in
  let* bytes :=
    (if bit then
       let* b := unwrap (index bytes byte_idx) in
       store bytes byte_idx (Z.lor b (Z.shiftl 1 bit_idx))
     else Ok bytes) in
  Ok {| w_bytes := bytes; w_pos := w_pos w + 1 |}.

Definition write_bits (w : BitWriter) (value count : Z) : result BitWriter :=
  ofold (fun w i =>
           let* v := shr64 value i in
           write_bit w (Z.land v 1 =? 1)) (range count) w.
End BitWriter.

(** * Zigzag and the Rice parameters *)

Definition zigzag_range_msg : string := "golomb-rice zigzag width out of range".

Definition zigzag_encode (n width : Z) : result Z :=
  if (width =? 0) || (63 <? width) then Err (InvalidSetup zigzag_range_msg)
  else
    let min := - Z.shiftl 1 (width - 1) in
    let max := Z.shiftl 1 (width - 1) - 1 in
    if (n <? min) || (max <? n) then Err InvalidProof
    else Ok (uwrap 64 (Z.lxor (swrap 64 (Z.shiftl n 1)) (Z.shiftr n 63))).

Definition zigzag_decode (u width : Z) : result Z :=
  if (width =? 0) || (63 <? width) then Err (InvalidSetup zigzag_range_msg)
  else
    let n := Z.lxor (swrap 64 (Z.shiftr u 1)) (- swrap 64 (Z.land u 1)) in
    let min := - Z.shiftl 1 (width - 1) in
    let max := Z.shiftl 1 (width - 1) - 1 in
    if (n <? min) || (max <? n) then Err InvalidProof else Ok n.

(** [u128::leading_zeros] *)
Definition leading_zeros128 (x : Z) : Z := if x =? 0 then 128 else 127 - Z.log2 x.

Definition rice_low_bits_for_cap (scale : Z) : Z :=
  if scale <=? 1 then 0 else 128 - 1 - leading_zeros128 scale.

Definition golomb_rice_zigzag_width (scale : Z) : Z :=
  if scale =? 0 then 1
  else Z.max (saturating_add (saturating_sub 128 (leading_zeros128 scale)) 1) 1.

Definition OFFLINE_RICE_LOW_BITS_DELTA : Z := 2.
Definition cap_rice_low_bits (cap : Z) : Z := rice_low_bits_for_cap cap.
Definition wire_rice_low_bits (cap : Z) : Z :=
  saturating_sub (cap_rice_low_bits cap) OFFLINE_RICE_LOW_BITS_DELTA.

Definition tail_z_planner_bits_per_coord (cap_low_bits : Z) : Z :=
  saturating_add cap_low_bits 2.

(** * Encoding and decoding *)

Definition golomb_rice_encode_one_into (writer : BitWriter) (n rice_low_bits zigzag_w : Z)
  : result BitWriter :=
  let* u := zigzag_encode n zigzag_w in
  let* quotient := (if rice_low_bits =? 0 then Ok u else shr64 u rice_low_bits) in
  let* remainder :=
    (if rice_low_bits =? 0 then Ok 0
     else let* m := shl64 1 rice_low_bits in Ok (Z.land u (m - 1))) in
  let* writer := ofold (fun w (_ : Z) => BitWriter.write_bit w true) (range quotient) writer in
  let* writer := BitWriter.write_bit writer false in
  if rice_low_bits =? 0 then Ok writer
  else BitWriter.write_bits writer remainder rice_low_bits.

Definition golomb_rice_encode_vec (values : list Z) (rice_low_bits zigzag_w : Z)
  : result (list Z) :=
  let* writer :=
    ofold (fun w n => golomb_rice_encode_one_into w n rice_low_bits zigzag_w)
      values BitWriter.default in
  Ok (BitWriter.finish writer).

Definition golomb_rice_decode_one_from
    (reader : BitReader) (rice_low_bits zigzag_w max_quotient : Z)
  : result (Z * BitReader) :=
  let* (quotient, reader) := BitReader.read_unary_ones reader max_quotient in
  let* (u, reader) :=
    (if rice_low_bits =? 0 then Ok (quotient, reader)
     else
       let* (remainder, reader) := BitReader.read_bits reader rice_low_bits in
       let* hi := shl64 quotient rice_low_bits in
       Ok (Z.lor hi remainder, reader)) in
  let* n := zigzag_decode u zigzag_w in
  Ok (n, reader).

Definition golomb_rice_consume_canonical_padding (reader : BitReader) : result BitReader :=
  let bits_after_coords := bit_pos reader in
  let padding_bits := (8 - bits_after_coords mod 8) mod 8 in
  let* reader :=
    ofold (fun r (_ : Z) =>
             let* (bit, r) := BitReader.read_bit r in
             if bit : bool then Err InvalidProof else Ok r)
      (range padding_bits) reader in
  if 0 <? BitReader.remaining_bits reader then Err InvalidProof else Ok reader.

(** The decoder's loop over the coordinates. *)
Fixpoint decode_loop {T} (convert : Z -> result T) (count : nat)
    (rice_low_bits zigzag_w max_quotient : Z) (reader : BitReader)
  : result (list T * BitReader) :=
  match count with
  | O => Ok ([], reader)
  | S count =>
      let* (value, reader) :=
        golomb_rice_decode_one_from reader rice_low_bits zigzag_w max_quotient in
      let* t := convert value in
      let* (ts, reader) :=
        decode_loop convert count rice_low_bits zigzag_w max_quotient reader in
      Ok (t :: ts, reader)
  end.

Section decode.
(** Whether the allocator grants [try_reserve_exact(count)]. *)
Context (reserve_exact : Z -> bool).

Definition golomb_rice_decode_vec {T} (bytes : list Z)
    (count rice_low_bits zigzag_w max_quotient : Z) (convert : Z -> result T)
  : result (list T) :=
  let reader := BitReader.new bytes in
  guard* reserve_exact count else InvalidProof in
  let* (out, reader) :=
    decode_loop convert (Z.to_nat count) rice_low_bits zigzag_w max_quotient reader in
  let* _ := golomb_rice_consume_canonical_padding reader in
  Ok out.
End decode.

(** * Length accounting and admission *)

Definition golomb_rice_bits_for_coord (n rice_low_bits zigzag_w : Z) : result Z :=
  let* writer := golomb_rice_encode_one_into BitWriter.default n rice_low_bits zigzag_w in
  Ok (BitWriter.bit_len writer).

Definition golomb_rice_total_bits (values : list Z) (rice_low_bits zigzag_w : Z) : result Z :=
  ofold (fun acc n =>
           let* bits := golomb_rice_bits_for_coord n rice_low_bits zigzag_w in
           ok_or (checked_add bits acc) (InvalidSetup "golomb-rice total bits overflow"))
    values 0.

Definition golomb_rice_quotient_for_coord (n rice_low_bits zigzag_w : Z) : result Z :=
  let* u := zigzag_encode n zigzag_w in
  if rice_low_bits =? 0 then Ok u else shr64 u rice_low_bits.

Definition golomb_rice_max_quotient_for_cap (cap rice_low_bits zigzag_w : Z) : result Z :=
  let* cap_i64 :=
    ok_or (checked_u 63 cap)
      (InvalidSetup "fold witness linf cap exceeds i64 for golomb quotient bound") in
  golomb_rice_quotient_for_coord cap_i64 rice_low_bits zigzag_w.

Definition golomb_rice_coord_wire_bits (n rice_low_bits zigzag_w : Z) : result Z :=
  let* quotient := golomb_rice_quotient_for_coord n rice_low_bits zigzag_w in
  let* unary := unwrap (checked_add quotient 1) in
  Ok (saturating_add unary rice_low_bits).

Definition golomb_rice_total_wire_bits (values : list Z) (rice_low_bits zigzag_w : Z)
  : result Z :=
  ofold (fun acc n =>
           let* bits := golomb_rice_coord_wire_bits n rice_low_bits zigzag_w in
           ok_or (checked_add bits acc) (InvalidSetup "golomb-rice total wire bits overflow"))
    values 0.

(** [min_by_key] over [0..=low_bits_hi]: the first minimum. *)
Definition sample_optimal_rice_low_bits (values : list Z) (zigzag_w low_bits_hi : Z) : Z :=
  let key k :=
    match golomb_rice_total_bits values k zigzag_w with Ok b => b | _ => USIZE_MAX end in
  foldl (fun best k => if key k <? key best then k else best) 0 (range (low_bits_hi + 1)).

(** All arithmetic is on [u128] ([checked_mul], [isqrt], [checked_shr]) and
    then on [usize]. *)
Definition golomb_rice_l2_planner_payload_bytes (num_values l2_sq_cap rice_low_bits : Z)
  : option Z :=
  match checked_u 128 (num_values * l2_sq_cap) with
  | None => None
  | Some prod =>
      let sum_abs_bound := Z.sqrt prod in
      match checked_u 128 (sum_abs_bound * 2) with
      | None => None
      | Some doubled =>
          if 128 <=? rice_low_bits then None
          else
            let quotient_sum_bound := Z.shiftr doubled rice_low_bits in
            match checked_mul num_values (rice_low_bits + 1), usize quotient_sum_bound with
            | Some fixed_bits, Some quotient_bits =>
                match checked_add fixed_bits quotient_bits with
                | Some b =>
                    match checked_add b 7 with
                    | Some bits => Some (bits / 8)
                    | None => None
                    end
                | None => None
                end
            | _, _ => None
            end
      end
  end.

Definition golomb_rice_values_within_cap (values : list Z) (cap : Z) : result unit :=
  ofold (fun _ n => if cap <? Z.abs n then Err InvalidProof else Ok tt) values tt.

Definition golomb_rice_values_fit_planner_wire_budget
    (values : list Z) (cap rice_low_bits zigzag_w : Z) : result unit :=
  let* budget_bits :=
    ok_or (checked_mul (tail_z_planner_bits_per_coord (cap_rice_low_bits cap)) (len values))
      (InvalidSetup "terminal z planner bit budget overflow") in
  let* total_bits := golomb_rice_total_wire_bits values rice_low_bits zigzag_w in
  if budget_bits <? total_bits
  then Err (InvalidInput "terminal z golomb payload exceeds planner budget")
  else Ok tt.

Definition golomb_rice_flat_admit_terminal_wire_with_caps
    (values : list Z) (coding_scale admissible_cap : Z) : result unit :=
  if (admissible_cap =? 0) && existsb (fun n => negb (n =? 0)) values
  then Err (InvalidInput "golomb-rice encodability check at zero cap")
  else
    let* _ :=
      omap_err (fun _ => InvalidInput "centered coefficient exceeds terminal admission cap")
        (golomb_rice_values_within_cap values admissible_cap) in
    let rice_low_bits := wire_rice_low_bits coding_scale in
    let zigzag_w := golomb_rice_zigzag_width admissible_cap in
    golomb_rice_values_fit_planner_wire_budget values coding_scale rice_low_bits zigzag_w.

Definition golomb_rice_flat_admit_terminal_wire (values : list Z) (cap : Z) : result unit :=
  golomb_rice_flat_admit_terminal_wire_with_caps values cap cap.

(** * The cursor refines the bit stream *)

(** The bits the cursor has not consumed. *)
Definition rest (r : BitReader) : list bool :=
  drop (Z.to_nat (bit_pos r)) (stream (r_bytes r)).

(** A cursor inside a buffer whose bit length fits in [usize]. *)
Definition reader_ok (r : BitReader) : Prop :=
  0 <= bit_pos r <= 8 * len (r_bytes r) /\ 8 * len (r_bytes r) <= USIZE_MAX /\
  Forall is_byte (r_bytes r).

Definition adv (r : BitReader) (n : nat) : BitReader :=
  BitReader.at_pos r (bit_pos r + Z.of_nat n).

Lemma adv_0 r : adv r 0 = r.
Proof. unfold adv, BitReader.at_pos. rewrite Z.add_0_r. by destruct r. Qed.

Lemma adv_adv r m n : adv (adv r m) n = adv r (m + n).
Proof. unfold adv, BitReader.at_pos; cbn. f_equal. lia. Qed.

Lemma rest_length r :
  reader_ok r -> Z.of_nat (length (rest r)) = 8 * len (r_bytes r) - bit_pos r.
Proof.
  intros (H1 & H2 & _). unfold rest. rewrite length_drop, length_stream.
  unfold len in *. lia.
Qed.

Lemma rest_adv r n : reader_ok r -> rest (adv r n) = drop n (rest r).
Proof.
  intros (H1 & _). unfold rest, adv; cbn. rewrite drop_drop. f_equal. lia.
Qed.

Lemma adv_ok r n : reader_ok r -> (n <= length (rest r))%nat -> reader_ok (adv r n).
Proof.
  intros Hr Hn. pose proof (rest_length r Hr). destruct Hr as (H1 & H2 & H3).
  repeat split; cbn; try done; lia.
Qed.

Lemma remaining_bits_spec r :
  reader_ok r -> BitReader.remaining_bits r = Z.of_nat (length (rest r)).
Proof.
  intros Hr. rewrite rest_length by done. destruct Hr as (? & ? & _).
  unfold BitReader.remaining_bits, saturating_sub, saturating_mul. lia.
Qed.

(** The byte under the cursor, shifted to the cursor's bit, shows the stream. *)
Lemma rest_lookup r i :
  reader_ok r ->
  rest r !! i = stream (r_bytes r) !! (Z.to_nat (bit_pos r) + i)%nat.
Proof. intros _. unfold rest. by rewrite lookup_drop. Qed.

Lemma stream_lookup_Z bytes p :
  0 <= p ->
  stream bytes !! Z.to_nat p =
    (fun b => Z.testbit b (p mod 8)) <$> bytes !! Z.to_nat (p / 8).
Proof.
  intros Hp. pose proof (Z.mod_pos_bound p 8 ltac:(lia)).
  replace (Z.to_nat p) with (8 * Z.to_nat (p / 8) + Z.to_nat (p mod 8))%nat
    by (pose proof (Z.div_mod p 8); pose proof (Z.div_pos p 8); lia).
  rewrite stream_lookup by lia. by rewrite Z2Nat.id by lia.
Qed.

Lemma land_1_testbit x k : 0 <= k -> (Z.land (Z.shiftr x k) 1 =? 1) = Z.testbit x k.
Proof.
  intros Hk. change 1 with (Z.ones 1) at 1. rewrite Z.land_ones by lia.
  change (2 ^ 1) with 2. rewrite Zmod_odd.
  rewrite <-Z.bit0_odd, Z.shiftr_spec, Z.add_0_l by lia. by destruct (Z.testbit x k).
Qed.

Lemma read_bit_spec r :
  reader_ok r ->
  BitReader.read_bit r =
    match rest r with [] => Err InvalidProof | b :: _ => Ok (b, adv r 1) end.
Proof.
  intros Hr. pose proof (rest_length r Hr) as Hl. pose proof Hr as (H1 & H2 & _).
  unfold BitReader.read_bit, saturating_mul. rewrite Z.min_l by lia.
  destruct (Z.leb_spec (len (r_bytes r) * 8) (bit_pos r)).
  - destruct (rest r); [done|]. cbn in Hl. lia.
  - destruct (rest r) as [|b l] eqn:Hrest; [cbn in Hl; lia|].
    pose proof (rest_lookup r 0 Hr) as Hb. rewrite Hrest, Nat.add_0_r in Hb.
    rewrite stream_lookup_Z in Hb by lia. cbn in Hb.
    unfold index. replace (0 <=? bit_pos r / 8) with true
      by (symmetry; apply Z.leb_le, Z.div_pos; lia).
    destruct (r_bytes r !! Z.to_nat (bit_pos r / 8)) as [byte|]; [|done].
    cbn in *. rewrite land_1_testbit by (apply Z.mod_pos_bound; lia).
    by injection Hb as <-.
Qed.

Lemma byte_testbit_high b j : is_byte b -> 8 <= j -> Z.testbit b j = false.
Proof.
  intros Hb Hj. unfold is_byte in Hb. destruct (decide (b = 0)) as [->|Hnz]; [apply Z.bits_0|].
  apply Z.bits_above_log2; [lia|].
  assert (Z.log2 b < 8) by (apply Z.log2_lt_pow2; lia). lia.
Qed.

Lemma assemble_testbit bytes i w j :
  0 <= i -> 0 <= j -> Forall is_byte bytes -> 8 * (i + len bytes) <= 128 ->
  Z.testbit (BitReader.assemble bytes i w) j =
    Z.testbit w j || (if j <? 8 * i then false
                      else default false (stream bytes !! Z.to_nat (j - 8 * i))).
Proof.
  intros Hi Hj Hb; revert i w Hi; induction Hb as [|b bytes Hb _ IH]; intros i w Hi Hlen.
  - cbn. by destruct (j <? 8 * i); rewrite orb_false_r.
  - unfold len in Hlen; cbn [length] in Hlen. rewrite Nat2Z.inj_succ in Hlen.
    cbn [BitReader.assemble stream]. rewrite IH by (unfold len; lia).
    rewrite uwrap_id.
    2:{ unfold is_byte in Hb. unfold in_u. rewrite Z.shiftl_mul_pow2 by lia.
        assert (2 ^ (i * 8) * 2 ^ 8 <= 2 ^ 128) by (rewrite <-Z.pow_add_r by lia; apply Z.pow_le_mono_r; lia).
        nia. }
    rewrite Z.lor_spec, Z.shiftl_spec, <-orb_assoc by lia. f_equal.
    destruct (Z.ltb_spec j (8 * i)); destruct (Z.ltb_spec j (8 * (i + 1))); try lia.
    + rewrite Z.testbit_neg_r by lia. done.
    + rewrite orb_false_r, lookup_app_l by (rewrite length_byte_bits; lia).
      rewrite byte_bits_lookup by lia. cbn. f_equal. lia.
    + rewrite byte_testbit_high by (done || lia). cbn [orb].
      rewrite lookup_app_r by (rewrite length_byte_bits; lia).
      rewrite length_byte_bits. f_equal. f_equal. lia.
Qed.

Lemma slice_stream bytes a b l i :
  0 <= a -> slice bytes a b = Some l -> Z.of_nat i < 8 * (b - a) ->
  stream l !! i = stream bytes !! (Z.to_nat (8 * a) + i)%nat.
Proof.
  intros Ha Hs Hi. unfold slice in Hs.
  destruct (_ && _)%bool eqn:E; [|done]. injection Hs as <-. bool_prop.
  rewrite stream_take, stream_drop, lookup_take_lt, lookup_drop by lia.
  f_equal. lia.
Qed.

Lemma read_bits_spec r count :
  reader_ok r -> 0 <= count ->
  BitReader.read_bits r count =
    if count =? 0 then Ok (0, r)
    else if (63 <? count) || (Z.of_nat (length (rest r)) <? count) then Err InvalidProof
    else Ok (bits_val (take (Z.to_nat count) (rest r)), adv r (Z.to_nat count)).
Proof.
  intros Hr Hc. unfold BitReader.read_bits. rewrite remaining_bits_spec by done.
  destruct (Z.eqb_spec count 0); [done|]. destruct (Z.ltb_spec 63 count); [done|].
  cbn [orb]. destruct (Z.ltb_spec (Z.of_nat (length (rest r))) count); [done|].
  pose proof (rest_length r Hr) as Hl. pose proof Hr as (H1 & H2 & Hby).
  unfold checked_add, usize. rewrite checked_u_in by (unfold in_u, USIZE_MAX in *; lia).
  cbn [ok_or obind]. set (pos := bit_pos r) in *.
  pose proof (Z.div_mod pos 8 ltac:(lia)) as Hdm.
  pose proof (Z.mod_pos_bound pos 8 ltac:(lia)) as Hmb.
  pose proof (Z.div_mod (pos + count + 7) 8 ltac:(lia)) as Hdm2.
  pose proof (Z.mod_pos_bound (pos + count + 7) 8 ltac:(lia)) as Hmb2.
  destruct (slice (r_bytes r) (pos / 8) ((pos + count + 7) / 8)) as [l|] eqn:Hs.
  2:{ unfold slice in Hs. destruct (_ && _)%bool eqn:E; [done|]. bool_prop; lia. }
  cbn [ok_or obind]. f_equal. f_equal.
  2:{ unfold adv. f_equal. fold pos. lia. }
  assert (Forall is_byte l /\ len l = (pos + count + 7) / 8 - pos / 8) as [Hlb Hll].
  { unfold slice in Hs. destruct (_ && _)%bool eqn:E; [|done]. injection Hs as <-. bool_prop.
    split; [by apply Forall_take, Forall_drop |]. unfold len in *.
    rewrite length_take, length_drop. lia. }
  rewrite Z.shiftl_1_l. replace (2 ^ count - 1) with (Z.ones count)
    by (rewrite Z.ones_equiv; lia).
  apply Z.bits_inj'. intros j Hj.
  assert (Hin : in_u 64 (Z.land (Z.shiftr (BitReader.assemble l 0 0) (pos mod 8)) (Z.ones count))).
  { rewrite Z.land_ones by lia. unfold in_u.
    pose proof (Z.mod_pos_bound (Z.shiftr (BitReader.assemble l 0 0) (pos mod 8)) (2 ^ count) ltac:(lia)).
    assert (2 ^ count <= 2 ^ 64) by (apply Z.pow_le_mono_r; lia). lia. }
  rewrite uwrap_id by done.
  rewrite Z.land_spec, Z.shiftr_spec, Z.testbit_ones_nonneg by lia.
  rewrite assemble_testbit by (done || lia). rewrite Z.bits_0. cbn [orb].
  pose proof (bits_val_testbit (take (Z.to_nat count) (rest r)) (Z.to_nat j)) as Hbv.
  rewrite Z2Nat.id in Hbv by lia. rewrite Hbv.
  destruct (Z.ltb_spec (j + pos mod 8) (8 * 0)); [lia|].
  destruct (Z.ltb_spec j count).
  - rewrite andb_true_r, lookup_take_lt by lia. rewrite rest_lookup by done.
    rewrite (slice_stream (r_bytes r) (pos / 8) ((pos + count + 7) / 8)) by (done || lia). do 2 f_equal. fold pos. lia.
  - rewrite andb_false_r, lookup_take_ge by lia. done.
Qed.

(** ** Unary runs *)

Lemma trailing_ones_spec n x :
  BitReader.trailing_ones n x = Z.of_nat (lead_ones (to_bits n x)).
Proof.
  revert x; induction n as [|n IH]; intros x; [done|].
  rewrite to_bits_S. cbn [BitReader.trailing_ones lead_ones].
  destruct (Z.testbit x 0); [|done]. rewrite IH. rewrite Z.shiftr_div_pow2 by lia.
  change (2 ^ 1) with 2. lia.
Qed.

Lemma lead_ones_take n l : lead_ones (take n l) = Nat.min n (lead_ones l).
Proof. revert n; induction l as [|[] l IH]; intros [|n]; cbn; auto. Qed.

(** The byte under the cursor shows the next [8 - pos mod 8] stream bits. *)
Lemma rest_chunk r :
  reader_ok r -> rest r <> [] ->
  exists byte,
    index (r_bytes r) (bit_pos r / 8) = Some byte /\
    let available := 8 - bit_pos r mod 8 in
    available <= Z.of_nat (length (rest r)) /\
    take (Z.to_nat available) (to_bits 8 (Z.shiftr byte (bit_pos r mod 8))) =
    take (Z.to_nat available) (rest r).
Proof.
  intros Hr Hne. pose proof (rest_length r Hr) as Hl. pose proof Hr as (H1 & H2 & _).
  assert (Hlt : bit_pos r < 8 * len (r_bytes r)).
  { destruct (rest r); [done|]. cbn in Hl. lia. }
  pose proof (Z.div_mod (bit_pos r) 8 ltac:(lia)) as Hdm.
  pose proof (Z.mod_pos_bound (bit_pos r) 8 ltac:(lia)) as Hmb.
  assert (Hq : 0 <= bit_pos r / 8 < len (r_bytes r)) by lia.
  unfold index. destruct (Z.leb_spec 0 (bit_pos r / 8)); [|lia].
  destruct (lookup_lt_is_Some_2 (r_bytes r) (Z.to_nat (bit_pos r / 8))) as [byte Hb];
    [unfold len in *; lia|].
  exists byte. split; [done|]. cbn zeta. split; [lia|].
  apply list_eq. intros i.
  destruct (decide (i < Z.to_nat (8 - bit_pos r mod 8))%nat) as [Hi|Hi].
  2:{ rewrite !lookup_take_ge by lia. done. }
  rewrite !lookup_take_lt by lia. rewrite rest_lookup by done.
  unfold to_bits. rewrite list_lookup_fmap, lookup_seq_lt by lia.
  replace (Z.to_nat (bit_pos r) + i)%nat
    with (8 * Z.to_nat (bit_pos r / 8) + (Z.to_nat (bit_pos r mod 8) + i))%nat by lia.
  rewrite stream_lookup, Hb by lia. cbn [fmap option_fmap option_map].
  rewrite Z.shiftr_spec by lia. f_equal. f_equal. lia.
Qed.

(** The outcome after [a] ones and the search in the rest. *)
Lemma unary_step r a q max_quotient : (a <= length (rest r))%nat ->
  let more := lead_ones (drop a (rest r)) in
  (if (Nat.leb (length (drop a (rest r))) more || (max_quotient <? q + Z.of_nat a + Z.of_nat more))%bool
   then Err InvalidProof else Ok (q + Z.of_nat a + Z.of_nat more, adv (adv r a) (S more))) =
  (if (Nat.leb (length (rest r)) (a + more) || (max_quotient <? q + Z.of_nat (a + more)))%bool
   then Err InvalidProof else Ok (q + Z.of_nat (a + more), adv r (S (a + more)))).
Proof.
  intros Ha more. rewrite length_drop, adv_adv, Nat.add_succ_r.
  replace (Nat.leb (length (rest r) - a) more) with (Nat.leb (length (rest r)) (a + more))
    by (apply eq_true_iff_eq; rewrite !Nat.leb_le; lia).
  by replace (q + Z.of_nat a + Z.of_nat more) with (q + Z.of_nat (a + more)) by lia.
Qed.

Lemma read_unary_loop_spec fuel r max_quotient q :
  reader_ok r -> 0 <= q -> q + Z.of_nat (length (rest r)) < 2 ^ 64 ->
  len (r_bytes r) - bit_pos r / 8 < Z.of_nat fuel ->
  BitReader.read_unary_loop fuel r max_quotient q =
    if (Nat.leb (length (rest r)) (lead_ones (rest r)) ||
        (max_quotient <? q + Z.of_nat (lead_ones (rest r))))%bool
    then Err InvalidProof
    else Ok (q + Z.of_nat (lead_ones (rest r)), adv r (S (lead_ones (rest r)))).
Proof.
  revert r q; induction fuel as [|fuel IH]; intros r q Hr Hq Hov Hfuel.
  { exfalso. pose proof Hr as (? & _).
    assert (bit_pos r / 8 <= len (r_bytes r)) by (apply Z.div_le_upper_bound; lia). lia. }
  cbn [BitReader.read_unary_loop]. rewrite remaining_bits_spec by done.
  destruct (Z.eqb_spec (Z.of_nat (length (rest r))) 0) as [H0|H0].
  { replace (Nat.leb _ _) with true; [done|]. symmetry; apply Nat.leb_le. lia. }
  destruct (rest_chunk r Hr) as (byte & Hb & Hav & Hchunk).
  { intros E. rewrite E in H0. done. }
  rewrite Hb. cbn [ok_or obind]. rewrite trailing_ones_spec.
  pose proof (Z.mod_pos_bound (bit_pos r) 8 ltac:(lia)) as Hmb.
  set (a := Z.to_nat (8 - bit_pos r mod 8)) in *.
  pose proof (rest_length r Hr) as Hl. pose proof Hr as (H1 & H2 & _).
  assert (Hones : Z.min (Z.of_nat (lead_ones (to_bits 8 (Z.shiftr byte (bit_pos r mod 8)))))
                    (8 - bit_pos r mod 8) = Z.of_nat (lead_ones (take a (rest r)))).
  { rewrite <-Hchunk, lead_ones_take. unfold a. lia. }
  rewrite Hones. set (o := lead_ones (take a (rest r))).
  pose proof (lead_ones_take a (rest r)) as Ho. fold o in Ho.
  pose proof (lead_ones_le (rest r)) as Hle.
  rewrite checked_u_in by (unfold in_u; lia). cbn [ok_or obind].
  destruct (Z.ltb_spec max_quotient (q + Z.of_nat o)) as [Hmx|Hmx].
  { replace (max_quotient <? _) with true by (symmetry; apply Z.ltb_lt; lia).
    by rewrite orb_true_r. }
  unfold checked_add at 1, usize at 1.
  rewrite checked_u_in by (unfold in_u, USIZE_MAX, USIZE_BITS in *; lia). cbn [ok_or obind].
  destruct (Z.ltb_spec (Z.of_nat o) (8 - bit_pos r mod 8)) as [Hlt|Hge].
  - assert (lead_ones (rest r) = o) as -> by lia.
    replace (Nat.leb _ _) with false by (symmetry; apply Nat.leb_gt; lia).
    replace (max_quotient <? _) with false by (symmetry; apply Z.ltb_ge; lia).
    unfold checked_add, usize.
    rewrite checked_u_in by (unfold in_u, USIZE_MAX, USIZE_BITS in *; lia). cbn [ok_or obind orb].
    f_equal. f_equal. unfold adv. f_equal. lia.
  - assert (o = a) as Hoa by lia.
    assert (Hlo : (lead_ones (rest r) = a + lead_ones (drop a (rest r)))%nat).
    { rewrite <-(take_drop a (rest r)) at 1. rewrite lead_ones_app. fold o.
      rewrite length_take, decide_True by lia. lia. }
    fold (adv r o). rewrite Hoa. assert (Hr' : reader_ok (adv r a)) by (apply adv_ok; [done|lia]).
    assert (Hbp : bit_pos (adv r a) = 8 * (bit_pos r / 8 + 1)).
    { unfold adv; cbn. pose proof (Z.div_mod (bit_pos r) 8). lia. }
    rewrite IH; [|done|lia| |].
    + rewrite rest_adv by done. rewrite Hlo. apply unary_step. lia.
    + rewrite rest_adv, length_drop by done. lia.
    + rewrite Hbp. cbn [adv BitReader.at_pos r_bytes].
      rewrite (Z.mul_comm 8), Z.div_mul by lia. lia.
Qed.

Lemma read_unary_ones_spec r max_quotient :
  reader_ok r ->
  BitReader.read_unary_ones r max_quotient =
    if (Nat.leb (length (rest r)) (lead_ones (rest r)) ||
        (max_quotient <? Z.of_nat (lead_ones (rest r))))%bool
    then Err InvalidProof
    else Ok (Z.of_nat (lead_ones (rest r)), adv r (S (lead_ones (rest r)))).
Proof.
  intros Hr. pose proof Hr as (H1 & H2 & _). pose proof (rest_length r Hr).
  unfold BitReader.read_unary_ones. rewrite read_unary_loop_spec; [done|done|lia|..].
  - unfold USIZE_MAX, USIZE_BITS in *. lia.
  - assert (0 <= bit_pos r / 8) by (apply Z.div_pos; lia). unfold len. lia.
Qed.

(** * The writer refines an append-only bit list *)

Definition pad (n : nat) : nat := Nat.modulo (8 - Nat.modulo n 8) 8.

(** The buffer holds exactly [bits], zero-padded to a whole byte. *)
Definition written (w : BitWriter) (bits : list bool) : Prop :=
  w_pos w = len bits /\
  stream (w_bytes w) = bits ++ replicate (pad (length bits)) false /\
  Forall is_byte (w_bytes w).

Lemma written_default : written BitWriter.default [].
Proof. repeat split. constructor. Qed.

Lemma pad_lt n : (pad n < 8)%nat.
Proof. apply Nat.mod_upper_bound. lia. Qed.

Lemma pad_spec n : exists k, (n + pad n = 8 * k)%nat.
Proof.
  unfold pad. pose proof (Nat.div_mod_eq n 8). pose proof (Nat.mod_upper_bound n 8).
  destruct (Nat.eq_dec (Nat.modulo n 8) 0%nat) as [E|E].
  - rewrite E. change (Nat.modulo (8 - 0) 8) with 0%nat. exists (Nat.div n 8). lia.
  - rewrite (Nat.mod_small (8 - Nat.modulo n 8)) by lia. exists (S (Nat.div n 8)). lia.
Qed.

Lemma pad_S n : pad n = (if decide (pad n = 0)%nat then 0 else S (pad (S n)))%nat.
Proof.
  case_decide; [done|].
  destruct (pad_spec n) as [k Hk]. destruct (pad_spec (S n)) as [k' Hk'].
  pose proof (pad_lt n). pose proof (pad_lt (S n)). lia.
Qed.

Lemma pad_aligned n : pad n = 0%nat -> pad (S n) = 7%nat.
Proof.
  destruct (pad_spec n) as [k Hk]. destruct (pad_spec (S n)) as [k' Hk'].
  pose proof (pad_lt n). pose proof (pad_lt (S n)). lia.
Qed.

Lemma lor_byte b i : is_byte b -> 0 <= i < 8 -> is_byte (Z.lor b (Z.shiftl 1 i)).
Proof.
  intros Hb Hi. apply (lor_in_u 8); [lia|done|]. unfold in_u. rewrite Z.shiftl_1_l.
  split; [lia|]. apply Z.pow_lt_mono_r; lia.
Qed.

Lemma insert_replicate_false (l : list bool) k :
  <[length l := true]> (l ++ replicate (S k) false) = (l ++ [true]) ++ replicate k false.
Proof.
  rewrite insert_app_r_alt by lia. rewrite Nat.sub_diag. cbn. by rewrite <-app_assoc.
Qed.

(** The buffer after the conditional push has room for one more bit. *)
Lemma push_room w bits :
  written w bits ->
  let bytes := if len (w_bytes w) <=? w_pos w / 8 then w_bytes w ++ [0] else w_bytes w in
  stream bytes = bits ++ replicate (S (pad (S (length bits)))) false /\
  Forall is_byte bytes /\ w_pos w / 8 < len bytes.
Proof.
  intros (Hp & Hs & Hb) bytes.
  pose proof (f_equal length Hs) as Hlen. rewrite length_stream, length_app, length_replicate in Hlen.
  pose proof (pad_lt (length bits)) as Hpl. pose proof (pad_S (length bits)) as HpS.
  assert (Hdiv : len (w_bytes w) <= w_pos w / 8 <-> pad (length bits) = 0%nat).
  { rewrite Hp. unfold len in *. split; intros H.
    - assert (8 * Z.of_nat (length (w_bytes w)) <= Z.of_nat (length bits)); [|lia].
      etransitivity; [|apply (Z.mul_div_le _ 8); lia]. lia.
    - apply Z.div_le_lower_bound; lia. }
  subst bytes. destruct (Z.leb_spec (len (w_bytes w)) (w_pos w / 8)) as [Hle|Hgt].
  - apply Hdiv in Hle. rewrite pad_aligned by done. rewrite Hle in Hs, Hlen.
    rewrite app_nil_r in Hs. rewrite stream_app, Hs. split; [done|]. split.
    + apply Forall_app; split; [done|]. by repeat constructor.
    + rewrite Hp. unfold len. rewrite length_app. cbn.
      apply Z.div_lt_upper_bound; lia.
  - assert (pad (length bits) <> 0%nat) by (intros H%Hdiv; lia).
    rewrite decide_False in HpS by done. rewrite <-HpS. done.
Qed.

Lemma write_bit_spec w bits b :
  written w bits ->
  exists w', BitWriter.write_bit w b = Ok w' /\ written w' (bits ++ [b]).
Proof.
  intros Hw. pose proof (push_room w bits Hw) as (Hs & Hb & Hlt). destruct Hw as (Hp & _).
  unfold BitWriter.write_bit.
  set (bytes := if len (w_bytes w) <=? w_pos w / 8 then _ else _) in *.
  assert (Hp0 : 0 <= w_pos w) by (rewrite Hp; unfold len; lia).
  pose proof (Z.mod_pos_bound (w_pos w) 8 ltac:(lia)) as Hmb.
  pose proof (Z.div_mod (w_pos w) 8 ltac:(lia)) as Hdm.
  assert (Hq : 0 <= w_pos w / 8) by (apply Z.div_pos; lia).
  assert (Hlen : length (bits ++ [b]) = S (length bits)) by (rewrite length_app; cbn; lia).
  destruct b.
  - unfold index. destruct (Z.leb_spec 0 (w_pos w / 8)); [|lia].
    destruct (lookup_lt_is_Some_2 bytes (Z.to_nat (w_pos w / 8))) as [x Hx];
      [unfold len in *; lia|].
    rewrite Hx. cbn [unwrap obind]. unfold store.
    replace (_ && _)%bool with true
      by (symmetry; apply andb_true_iff; rewrite Z.leb_le, Z.ltb_lt; lia).
    cbn [obind]. eexists; split; [done|]. unfold written. cbn [w_pos w_bytes].
    rewrite Hlen. split; [unfold len in *; lia|]. split.
    + replace (w_pos w mod 8) with (Z.of_nat (Z.to_nat (w_pos w mod 8))) by lia.
      rewrite (stream_set bytes _ _ x) by (done || lia). rewrite Hs.
      replace (8 * Z.to_nat (w_pos w / 8) + Z.to_nat (w_pos w mod 8))%nat
        with (length bits) by (unfold len in *; lia).
      apply insert_replicate_false.
    + apply Forall_insert; [done|]. apply lor_byte; [|done].
      by eapply Forall_lookup_1 in Hx.
  - cbn [obind]. eexists; split; [done|]. unfold written. cbn [w_pos w_bytes].
    rewrite Hlen, Hs. split; [unfold len in *; lia|]. split; [|done].
    rewrite <-app_assoc. done.
Qed.

(** A loop of bit writes appends the bits of its iterations. *)
Lemma write_loop_spec {A} (f : BitWriter -> A -> result BitWriter) (g : A -> bool) l w bits :
  (forall w x, x ∈ l -> f w x = BitWriter.write_bit w (g x)) -> written w bits ->
  exists w', ofold f l w = Ok w' /\ written w' (bits ++ map g l).
Proof.
  revert w bits; induction l as [|x l IH]; intros w bits Hf Hw.
  - exists w. rewrite app_nil_r. done.
  - cbn [ofold map]. rewrite Hf by left.
    destruct (write_bit_spec w bits (g x) Hw) as (w1 & -> & Hw1). cbn [obind].
    destruct (IH w1 (bits ++ [g x])) as (w2 & -> & Hw2); [|done|].
    { intros; apply Hf; by right. }
    exists w2. rewrite <-app_assoc in Hw2. done.
Qed.

Lemma range_nat n : range (Z.of_nat n) = Z.of_nat <$> seq 0 n.
Proof.
  unfold range, seqZ. rewrite Nat2Z.id. apply list_fmap_ext. intros; lia.
Qed.

Lemma write_bits_spec w bits value (count : nat) :
  written w bits -> (count <= 64)%nat ->
  exists w', BitWriter.write_bits w value (Z.of_nat count) = Ok w' /\
             written w' (bits ++ to_bits count value).
Proof.
  intros Hw Hc. unfold BitWriter.write_bits.
  destruct (write_loop_spec
    (fun w i => let* v := shr64 value i in BitWriter.write_bit w (Z.land v 1 =? 1))
    (fun i => Z.testbit value i) (range (Z.of_nat count)) w bits) as (w' & H1 & H2).
  - intros w1 i Hi. rewrite range_nat in Hi. apply list_elem_of_fmap in Hi as (j & -> & Hj).
    apply elem_of_seq in Hj. unfold shr64. destruct (Z.ltb_spec (Z.of_nat j) 64); [|lia].
    cbn [obind]. by rewrite land_1_testbit by lia.
  - done.
  - exists w'. split; [exact H1|]. rewrite range_nat in H2. unfold to_bits.
    rewrite (list_fmap_compose Z.of_nat (fun i => Z.testbit value i)). exact H2.
Qed.

(** * Zigzag *)

(** The interleaving of the signed integers that zigzag computes. *)
Definition zigzag (n : Z) : Z := if 0 <=? n then 2 * n else - 2 * n - 1.

Lemma shiftl1_pow w : 0 < w -> Z.shiftl 1 (w - 1) = 2 ^ (w - 1).
Proof. intros. apply Z.shiftl_1_l. Qed.

Lemma in_s_mono v w n : 0 < v <= w -> in_s v n -> in_s w n.
Proof.
  intros Hv [? ?]. assert (2 ^ (v - 1) <= 2 ^ (w - 1)) by (apply Z.pow_le_mono_r; lia).
  unfold in_s; lia.
Qed.

Lemma zigzag_lxor n : in_s 63 n -> uwrap 64 (Z.lxor (swrap 64 (Z.shiftl n 1)) (Z.shiftr n 63)) = zigzag n.
Proof.
  intros [Hl Hh]. rewrite Z.shiftl_mul_pow2, Z.shiftr_div_pow2 by lia.
  rewrite swrap_id; [|lia|unfold in_s; lia]. unfold zigzag, uwrap.
  destruct (Z.leb_spec 0 n).
  - rewrite (Z.div_small n) by lia. rewrite Z.lxor_0_r. rewrite Z.mod_small; lia.
  - replace (n / 2 ^ 63) with (-1).
    2:{ apply (Z.div_unique_pos _ _ _ (n + 2 ^ 63)); lia. }
    rewrite Z.lxor_m1_r. unfold Z.lnot. rewrite Z.mod_small; lia.
Qed.

Lemma zigzag_encode_spec n w :
  zigzag_encode n w =
    if (w =? 0) || (63 <? w) then Err (InvalidSetup zigzag_range_msg)
    else if (n <? - 2 ^ (w - 1)) || (2 ^ (w - 1) - 1 <? n) then Err InvalidProof
    else Ok (uwrap 64 (Z.lxor (swrap 64 (Z.shiftl n 1)) (Z.shiftr n 63))).
Proof. unfold zigzag_encode. by rewrite Z.shiftl_1_l. Qed.

Lemma zigzag_encode_Ok n w u :
  0 <= w -> zigzag_encode n w = Ok u <-> 0 < w <= 63 /\ in_s w n /\ u = zigzag n.
Proof.
  intros Hw. rewrite zigzag_encode_spec.
  destruct ((w =? 0) || (63 <? w))%bool eqn:E1; bool_prop.
  - split; [done|]. lia.
  - split; [done|]. lia.
  - destruct ((n <? _) || _)%bool eqn:E2; bool_prop;
      [split; [done | unfold in_s; lia]..|].
    assert (in_s w n) by (unfold in_s; lia).
    rewrite zigzag_lxor by (apply (in_s_mono w); [lia | done]).
    split; [intros [= <-]; split; [lia|done] | intros (_ & _ & ->); done].
Qed.

Lemma zigzag_bound w n : 0 < w -> in_s w n -> 0 <= zigzag n < 2 ^ w.
Proof.
  intros Hw [? ?]. assert (2 ^ w = 2 * 2 ^ (w - 1)).
  { rewrite <-Z.pow_succ_r by lia. f_equal. lia. }
  unfold zigzag. case_Z.
Qed.

(** The signed value of a zigzag code. *)
Definition unzigzag (u : Z) : Z := if Z.even u then u / 2 else - (u / 2) - 1.

Lemma unzigzag_zigzag n : unzigzag (zigzag n) = n.
Proof.
  unfold zigzag, unzigzag. destruct (Z.leb_spec 0 n).
  - rewrite Z.even_mul. cbn [Z.even orb]. rewrite Z.mul_comm, Z.div_mul; lia.
  - replace (-2 * n - 1) with (1 + 2 * (- n - 1)) by lia.
    rewrite Z.even_add_mul_2. cbn [Z.even].
    rewrite Z.mul_comm, Z.div_add by lia. change (1 / 2) with 0. lia.
Qed.

Lemma zigzag_unzigzag u : 0 <= u -> zigzag (unzigzag u) = u.
Proof.
  intros Hu. unfold zigzag, unzigzag. pose proof (Z.div_mod u 2 ltac:(lia)) as Hd.
  rewrite Zmod_even in Hd. assert (0 <= u / 2) by (apply Z.div_pos; lia).
  destruct (Z.even u); case_Z.
Qed.

Lemma zigzag_decode_lxor u :
  in_u 64 u -> Z.lxor (swrap 64 (Z.shiftr u 1)) (- swrap 64 (Z.land u 1)) = unzigzag u.
Proof.
  intros [Hl Hh]. rewrite Z.shiftr_div_pow2 by lia. change (2 ^ 1) with 2.
  change 1 with (Z.ones 1). rewrite Z.land_ones by lia. change (2 ^ 1) with 2.
  assert (0 <= u / 2 < 2 ^ 63).
  { split; [apply Z.div_pos; lia | apply Z.div_lt_upper_bound; lia]. }
  rewrite !swrap_id; [|lia| |lia|unfold in_s; lia].
  2:{ unfold in_s. pose proof (Z.mod_pos_bound u 2). lia. }
  rewrite Zmod_even. unfold unzigzag. destruct (Z.even u).
  - apply Z.lxor_0_r.
  - change (- (1)) with (-1). rewrite Z.lxor_m1_r. unfold Z.lnot. lia.
Qed.

Lemma zigzag_decode_Ok u w n :
  0 <= w -> in_u 64 u ->
  zigzag_decode u w = Ok n <-> 0 < w <= 63 /\ in_s w n /\ n = unzigzag u.
Proof.
  intros Hw Hu. unfold zigzag_decode. rewrite zigzag_decode_lxor, Z.shiftl_1_l by done.
  destruct ((w =? 0) || (63 <? w))%bool eqn:E1; bool_prop; [split; [done|lia]..|].
  destruct ((unzigzag u <? _) || _)%bool eqn:E2; bool_prop.
  1,2: split; [done | intros (_ & Hs & ->); unfold in_s in Hs; lia].
  split; [intros [= <-]; unfold in_s; repeat split; lia | by intros (_ & _ & ->)].
Qed.

(** * One coordinate *)

(** The code word of a zigzagged value [u]: unary quotient, stop bit and [k]
    remainder bits. *)
Definition code_word (k : nat) (u : Z) : list bool :=
  replicate (Z.to_nat (u / 2 ^ Z.of_nat k)) true ++ false :: to_bits k u.

Lemma length_code_word k u :
  0 <= u -> len (code_word k u) = u / 2 ^ Z.of_nat k + 1 + Z.of_nat k.
Proof.
  intros Hu. unfold len, code_word. rewrite length_app, length_replicate. cbn [length].
  rewrite length_to_bits. assert (0 <= u / 2 ^ Z.of_nat k) by (apply Z.div_pos; lia). lia.
Qed.

Lemma to_bits_mod k u : to_bits k (u mod 2 ^ Z.of_nat k) = to_bits k u.
Proof.
  rewrite <-bits_val_to_bits. rewrite <-(length_to_bits k u) at 1.
  apply to_bits_bits_val.
Qed.

Lemma map_const_replicate {A B} (b : B) (l : list A) :
  map (fun _ => b) l = replicate (length l) b.
Proof. induction l; cbn; f_equal; auto. Qed.

Lemma encode_one_spec w bits n (k : nat) zw :
  written w bits -> (k <= 63)%nat -> 0 <= zw ->
  match zigzag_encode n zw with
  | Ok u => exists w', golomb_rice_encode_one_into w n (Z.of_nat k) zw = Ok w' /\
                       written w' (bits ++ code_word k u)
  | Err e => golomb_rice_encode_one_into w n (Z.of_nat k) zw = Err e
  | Panic => False
  end.
Proof.
  intros Hw Hk Hzw. unfold golomb_rice_encode_one_into.
  destruct (zigzag_encode n zw) as [u|e|] eqn:Ez; [|done|].
  2:{ rewrite zigzag_encode_spec in Ez. repeat break_match; done. }
  apply zigzag_encode_Ok in Ez as (Hzw' & Hs & ->); [|done].
  apply zigzag_bound in Hs; [|lia]. set (u := zigzag n) in *. cbn [obind].
  assert (Hq : (if Z.of_nat k =? 0 then Ok u else shr64 u (Z.of_nat k))
               = Ok (u / 2 ^ Z.of_nat k)).
  { unfold shr64. destruct (Z.eqb_spec (Z.of_nat k) 0) as [->|]; [by rewrite Z.div_1_r|].
    destruct (Z.ltb_spec (Z.of_nat k) 64); [|lia]. by rewrite Z.shiftr_div_pow2 by lia. }
  rewrite Hq. cbn [obind].
  assert (Hr : (if Z.of_nat k =? 0 then Ok 0
                else let* m := shl64 1 (Z.of_nat k) in Ok (Z.land u (m - 1)))
               = Ok (u mod 2 ^ Z.of_nat k)).
  { unfold shl64. destruct (Z.eqb_spec (Z.of_nat k) 0) as [->|]; [by rewrite Z.mod_1_r|].
    destruct (Z.ltb_spec (Z.of_nat k) 64); [|lia]. cbn [obind].
    rewrite Z.shiftl_1_l, uwrap_id.
    - replace (2 ^ Z.of_nat k - 1) with (Z.ones (Z.of_nat k)) by (rewrite Z.ones_equiv; lia).
      by rewrite Z.land_ones by lia.
    - split; [lia|]. apply Z.pow_lt_mono_r; lia. }
  rewrite Hr. cbn [obind].
  destruct (write_loop_spec (fun w (_ : Z) => BitWriter.write_bit w true) (fun _ => true)
              (range (u / 2 ^ Z.of_nat k)) w bits) as (w1 & H1 & Hw1); [done|done|].
  rewrite H1. cbn [obind]. rewrite map_const_replicate, length_range in Hw1.
  destruct (write_bit_spec _ _ false Hw1) as (w2 & H2 & Hw2). rewrite H2. cbn [obind].
  rewrite <-!app_assoc in Hw2. cbn [app] in Hw2.
  destruct (Z.eqb_spec (Z.of_nat k) 0) as [H0|H0].
  - assert (k = 0)%nat as -> by lia. exists w2. split; [done|]. exact Hw2.
  - destruct (write_bits_spec w2 _ (u mod 2 ^ Z.of_nat k) k Hw2) as (w3 & H3 & Hw3); [lia|].
    exists w3. split; [exact H3|]. rewrite to_bits_mod in Hw3.
    unfold code_word. rewrite <-!app_assoc in Hw3. exact Hw3.
Qed.

Lemma lor_shifted q k x :
  0 <= k -> 0 <= q -> 0 <= x < 2 ^ k -> Z.lor (q * 2 ^ k) x = q * 2 ^ k + x.
Proof.
  intros Hk Hq Hx. rewrite <-Z.add_lor_land.
  replace (Z.land (q * 2 ^ k) x) with 0; [lia|]. symmetry.
  apply Z.bits_inj'. intros j Hj. rewrite Z.land_spec, Z.bits_0.
  destruct (decide (j < k)).
  - by rewrite Z.mul_pow2_bits_low.
  - destruct (decide (x = 0)) as [->|]; [by rewrite Z.bits_0, andb_false_r|].
    rewrite (Z.bits_above_log2 x); [by rewrite andb_false_r|lia|].
    apply Z.lt_le_trans with k; [|lia]. apply Z.log2_lt_pow2; lia.
Qed.

(** The remainder step of the decoder, on the stream. *)
Lemma decode_low_spec r q (k : nat) :
  reader_ok r -> (k <= 63)%nat -> 0 <= q -> (q + 1) * 2 ^ Z.of_nat k <= 2 ^ 64 ->
  (if Z.of_nat k =? 0 then Ok (q, r)
   else
     let* (remainder, r) := BitReader.read_bits r (Z.of_nat k) in
     let* hi := shl64 q (Z.of_nat k) in
     Ok (Z.lor hi remainder, r)) =
  if Nat.ltb (length (rest r)) k then Err InvalidProof
  else Ok (q * 2 ^ Z.of_nat k + bits_val (take k (rest r)), adv r k).
Proof.
  intros Hr Hk Hq Hmax. rewrite read_bits_spec by (done || lia).
  destruct (Z.eqb_spec (Z.of_nat k) 0) as [H0|H0].
  { assert (k = 0)%nat as -> by lia. destruct (Nat.ltb_spec (length (rest r)) 0); [lia|].
    rewrite adv_0, take_0. do 2 f_equal. cbn. lia. }
  destruct (Z.ltb_spec 63 (Z.of_nat k)); [lia|]. cbn [orb].
  destruct (Z.ltb_spec (Z.of_nat (length (rest r))) (Z.of_nat k)) as [Hl|Hl].
  { replace (Nat.ltb _ _) with true by (symmetry; apply Nat.ltb_lt; lia). done. }
  replace (Nat.ltb _ _) with false by (symmetry; apply Nat.ltb_ge; lia).
  cbn [obind]. unfold shl64. destruct (Z.ltb_spec (Z.of_nat k) 64); [|lia].
  cbn [obind]. rewrite Nat2Z.id, Z.shiftl_mul_pow2 by lia.
  rewrite uwrap_id by (unfold in_u; nia). do 2 f_equal. apply lor_shifted; [lia..|].
  pose proof (bits_val_bound (take k (rest r))) as Hb. unfold len in Hb.
  rewrite length_take in Hb. replace (Nat.min k (length (rest r))) with k in Hb by lia. done.
Qed.

Lemma rest_code_word_lead k u tail l :
  l = code_word k u ++ tail -> 0 <= u ->
  lead_ones l = Z.to_nat (u / 2 ^ Z.of_nat k) /\ (lead_ones l < length l)%nat.
Proof.
  intros -> Hu. unfold code_word. rewrite <-app_assoc. cbn [app].
  rewrite lead_ones_replicate, length_app, length_replicate. cbn. lia.
Qed.

Lemma code_word_parts k q l :
  0 <= q -> (k <= length l)%nat ->
  let u := q * 2 ^ Z.of_nat k + bits_val (take k l) in
  u / 2 ^ Z.of_nat k = q /\ 0 <= u < (q + 1) * 2 ^ Z.of_nat k /\
  code_word k u = replicate (Z.to_nat q) true ++ false :: take k l.
Proof.
  intros Hq Hl u. pose proof (bits_val_bound (take k l)) as Hb. unfold len in Hb.
  rewrite length_take in Hb. replace (Nat.min k (length l)) with k in Hb by lia.
  assert (Hd : u / 2 ^ Z.of_nat k = q).
  { subst u. rewrite Z.add_comm, Z.div_add, Z.div_small by lia. lia. }
  split; [done|]. split; [subst u; nia|]. unfold code_word. rewrite Hd. do 2 f_equal.
  rewrite <-to_bits_mod. subst u. rewrite Z.add_comm, Z.mod_add, Z.mod_small by lia.
  rewrite <-(to_bits_bits_val (take k l)) at 2. f_equal. rewrite length_take. lia.
Qed.

(** A code word within the quotient bound is read back, whatever the bound. *)
Lemma decode_one_complete r (k : nat) zw max_quotient n u tail :
  reader_ok r -> (k <= 63)%nat -> 0 <= zw -> rest r = code_word k u ++ tail -> 0 <= u ->
  u / 2 ^ Z.of_nat k <= max_quotient -> zigzag_encode n zw = Ok u ->
  golomb_rice_decode_one_from r (Z.of_nat k) zw max_quotient = Ok (n, adv r (length (code_word k u))).
Proof.
  intros Hr Hk Hzw Hrest Hu Hq Hz. unfold golomb_rice_decode_one_from.
  rewrite read_unary_ones_spec by done.
  destruct (rest_code_word_lead k u tail _ Hrest Hu) as [Hlead Hlt].
  rewrite Hlead in *. assert (0 <= u / 2 ^ Z.of_nat k) by (apply Z.div_pos; lia).
  set (q := u / 2 ^ Z.of_nat k) in *.
  replace (Nat.leb _ _) with false by (symmetry; apply Nat.leb_gt; lia).
  rewrite Z2Nat.id by done.
  replace (max_quotient <? q) with false by (symmetry; apply Z.ltb_ge; lia).
  cbn [orb obind]. assert (Hr1 : reader_ok (adv r (S (Z.to_nat q)))) by (apply adv_ok; [done|lia]).
  assert (Hz64 : zigzag_encode n zw = Ok u) by done. apply zigzag_encode_Ok in Hz as (Hz1 & Hz2 & Huz); [|done].
  pose proof (zigzag_bound zw n ltac:(lia) Hz2) as Hzb. assert (2 ^ zw <= 2 ^ 63) by (apply Z.pow_le_mono_r; lia).
  assert (2 ^ Z.of_nat k <= 2 ^ 63) by (apply Z.pow_le_mono_r; lia).
  assert (q * 2 ^ Z.of_nat k <= u) by (subst q; pose proof (Z.mul_div_le u (2 ^ Z.of_nat k)); lia).
  rewrite decode_low_spec by (done || nia). rewrite rest_adv by done.
  assert (Hl : drop (S (Z.to_nat q)) (rest r) = to_bits k u ++ tail).
  { rewrite Hrest. unfold code_word. fold q. rewrite <-app_assoc. cbn [app].
    rewrite drop_app_ge by (rewrite length_replicate; lia).
    rewrite length_replicate, Nat.sub_succ_l, Nat.sub_diag by lia. done. }
  rewrite Hl. destruct (Nat.ltb_spec (length (to_bits k u ++ tail)) k) as [Hb|_].
  { rewrite length_app, length_to_bits in Hb. lia. }
  rewrite take_app_length' by (by rewrite length_to_bits). cbn [obind].
  rewrite bits_val_to_bits.
  replace (q * 2 ^ Z.of_nat k + u mod 2 ^ Z.of_nat k) with u
    by (subst q; pose proof (Z.div_mod u (2 ^ Z.of_nat k)); lia).
  subst u.
  assert (Hu64 : in_u 64 (zigzag n)).
  { unfold in_u. lia. }
  rewrite (proj2 (zigzag_decode_Ok (zigzag n) zw n Hzw Hu64))
    by (by rewrite unzigzag_zigzag).
  cbn [obind]. do 2 f_equal. rewrite adv_adv. f_equal.
  unfold code_word. rewrite length_app, length_replicate. cbn [length].
  rewrite length_to_bits. fold q. lia.
Qed.

Lemma decode_one_spec r (k : nat) zw max_quotient :
  reader_ok r -> (k <= 63)%nat -> 0 <= zw -> (max_quotient + 1) * 2 ^ Z.of_nat k <= 2 ^ 64 ->
  forall n r', golomb_rice_decode_one_from r (Z.of_nat k) zw max_quotient = Ok (n, r') <->
    exists u tail, rest r = code_word k u ++ tail /\ 0 <= u /\
      u / 2 ^ Z.of_nat k <= max_quotient /\
      zigzag_encode n zw = Ok u /\ r' = adv r (length (code_word k u)).
Proof.
  intros Hr Hk Hzw Hmax n r'. split.
  - unfold golomb_rice_decode_one_from. rewrite read_unary_ones_spec by done. set (q := lead_ones (rest r)). destruct (_ || _)%bool eqn:E; [done|].
    apply orb_false_iff in E as [E1 E2]. apply Nat.leb_gt in E1. apply Z.ltb_ge in E2.
    cbn [obind]. assert (Hr1 : reader_ok (adv r (S q))) by (apply adv_ok; [done|lia]).
    rewrite decode_low_spec by (done || nia). rewrite rest_adv by done.
    set (l := drop (S q) (rest r)). destruct (Nat.ltb_spec (length l) k) as [|Hlk]; [done|].
    cbn [obind]. destruct (code_word_parts k (Z.of_nat q) l) as (Hd & Hb & Hc); [lia|done|].
    set (u := Z.of_nat q * 2 ^ Z.of_nat k + bits_val (take k l)) in *.
    intros H. obind_inv H. injection H as -> <-.
    apply zigzag_decode_Ok in E as (Hz1 & Hz2 & ->); [|done|unfold in_u; nia].
    exists u, (drop k l). split.
    { rewrite Hc, <-app_assoc. cbn [app]. rewrite take_drop, Nat2Z.id.
      by apply lead_ones_split. }
    split; [lia|]. split; [lia|]. split.
    + apply zigzag_encode_Ok; [done|]. rewrite zigzag_unzigzag by lia. done.
    + rewrite adv_adv. f_equal. rewrite Hc, length_app, length_replicate. cbn [length].
      rewrite length_take. lia.
  - intros (u & tail & Hrest & Hu & Hq & Hz & ->). by apply (decode_one_complete r k zw max_quotient n u tail).
Qed.

(** * Vectors *)

(** The concatenated code words of a coefficient vector. *)
Definition code_words (k : nat) (values : list Z) : list bool :=
  concat (map (fun n => code_word k (zigzag n)) values).

Lemma encode_loop_spec (k : nat) zw values w bits :
  (k <= 63)%nat -> 0 <= zw -> written w bits ->
  (0 < zw <= 63 /\ Forall (in_s zw) values \/ values = []) ->
  exists w', ofold (fun w n => golomb_rice_encode_one_into w n (Z.of_nat k) zw) values w = Ok w' /\
             written w' (bits ++ code_words k values).
Proof.
  intros Hk Hzw Hw [[Hz Hv] | ->]; [|exists w; cbn; by rewrite app_nil_r].
  revert w bits Hw; induction Hv as [|n values Hn _ IH]; intros w bits Hw.
  - exists w. cbn. by rewrite app_nil_r.
  - pose proof (encode_one_spec w bits n k zw Hw Hk Hzw) as H.
    rewrite (proj2 (zigzag_encode_Ok n zw (zigzag n) Hzw)) in H by done.
    destruct H as (w1 & H1 & Hw1). cbn [ofold]. rewrite H1. cbn [obind].
    destruct (IH w1 _ Hw1) as (w2 & H2 & Hw2). exists w2. split; [exact H2|].
    by rewrite <-app_assoc in Hw2.
Qed.

Lemma encode_loop_Ok_range k zw values w w' :
  0 <= k -> 0 <= zw ->
  ofold (fun w n => golomb_rice_encode_one_into w n k zw) values w = Ok w' ->
  values = [] \/ (0 < zw <= 63 /\ k <= 63 /\ Forall (in_s zw) values).
Proof.
  intros Hk Hzw; revert w; induction values as [|n values IH]; intros w H; [by left|right].
  cbn [ofold] in H. obind_inv H. apply IH in H.
  unfold golomb_rice_encode_one_into in E. obind_inv E.
  apply zigzag_encode_Ok in E0 as (Hz & Hn & _); [|done].
  split; [done|]. split.
  - obind_inv E. unfold shr64 in E0. destruct (Z.eqb_spec k 0); [lia|].
    destruct (Z.ltb_spec k 64); [lia|done].
  - constructor; [done|]. destruct H as [->|(_ & _ & H)]; [constructor | done].
Qed.

(** Encoding writes the canonical padded stream of the code words. *)
Lemma encode_vec_spec k zw values bytes :
  0 <= k -> 0 <= zw ->
  golomb_rice_encode_vec values k zw = Ok bytes <->
  (values = [] \/ (0 < zw <= 63 /\ k <= 63 /\ Forall (in_s zw) values)) /\
  Forall is_byte bytes /\
  let bits := code_words (Z.to_nat k) values in
  stream bytes = bits ++ replicate (pad (length bits)) false.
Proof.
  intros Hk Hzw. unfold golomb_rice_encode_vec. split.
  - intros H. obind_inv H. injection H as <-.
    pose proof (encode_loop_Ok_range k zw values _ _ Hk Hzw E) as Hrange. split; [done|].
    destruct (decide (values = [])) as [->|Hne].
    { cbn in E. injection E as <-. split; [constructor | done]. }
    destruct Hrange as [?|(Hz & Hk' & Hv)]; [done|].
    destruct (encode_loop_spec (Z.to_nat k) zw values _ [] ltac:(lia) Hzw written_default)
      as (w' & H1 & (_ & Hs & Hb)); [by left|].
    rewrite Z2Nat.id in H1 by done. rewrite E in H1. injection H1 as <-. done.
  - intros (Hrange & Hb & Hs). cbn zeta in Hs.
    assert (Hex : exists w', ofold (fun w n => golomb_rice_encode_one_into w n k zw) values
                    BitWriter.default = Ok w' /\ written w' (code_words (Z.to_nat k) values)).
    { destruct Hrange as [->|(Hz & Hk' & Hv)].
      - exists BitWriter.default. split; [done | apply written_default].
      - destruct (encode_loop_spec (Z.to_nat k) zw values _ [] ltac:(lia) Hzw written_default)
          as (w' & H1 & H2); [by left|].
        rewrite Z2Nat.id in H1 by done. by exists w'. }
    destruct Hex as (w' & -> & (_ & Hs' & Hb')). cbn [obind]. f_equal.
    apply stream_inj; [done..|]. unfold BitWriter.finish. by rewrite Hs, Hs'.
Qed.

Lemma decode_loop_complete (k : nat) zw max_quotient values r tail :
  reader_ok r -> (k <= 63)%nat -> 0 <= zw -> rest r = code_words k values ++ tail ->
  Forall (fun n => zigzag_encode n zw = Ok (zigzag n) /\ zigzag n / 2 ^ Z.of_nat k <= max_quotient) values ->
  decode_loop Ok (length values) (Z.of_nat k) zw max_quotient r = Ok (values, adv r (length (code_words k values))).
Proof.
  intros Hr Hk Hzw Hrest Hv; revert r Hr Hrest; induction Hv as [|n values [Hz Hq] Hv IH]; intros r Hr Hrest.
  { cbn. by rewrite adv_0. }
  cbn [decode_loop length code_words map concat] in *. fold (code_words k values) in *. rewrite <-app_assoc in Hrest.
  rewrite (decode_one_complete r k zw max_quotient n (zigzag n) (code_words k values ++ tail)); try done.
  2:{ apply zigzag_encode_Ok in Hz as (? & ? & _); [|done]. destruct (zigzag_bound zw n); [lia|done|done]. }
  assert (Hr1 : reader_ok (adv r (length (code_word k (zigzag n))))).
  { apply adv_ok; [done|]. rewrite Hrest, length_app. lia. }
  cbn [obind]. rewrite (IH _ Hr1) by (by rewrite rest_adv, Hrest, drop_app_length by done).
  cbn [obind]. by rewrite length_app, adv_adv.
Qed.

Lemma decode_loop_spec (k : nat) zw max_quotient values r :
  reader_ok r -> (k <= 63)%nat -> 0 <= zw -> (max_quotient + 1) * 2 ^ Z.of_nat k <= 2 ^ 64 ->
  forall r',
  decode_loop Ok (length values) (Z.of_nat k) zw max_quotient r = Ok (values, r') <->
  (exists tail, rest r = code_words k values ++ tail) /\
  Forall (fun n => zigzag_encode n zw = Ok (zigzag n) /\
                   zigzag n / 2 ^ Z.of_nat k <= max_quotient) values /\
  r' = adv r (length (code_words k values)).
Proof.
  intros Hr Hk Hzw Hmax; revert r Hr; induction values as [|n values IH]; intros r Hr r'.
  { cbn. rewrite adv_0. split.
    - intros [= <-]. split; [by exists (rest r)|]. by split; [constructor|].
    - by intros (_ & _ & ->). }
  cbn [decode_loop length code_words map concat]. fold (code_words k values). split.
  - intros H. obind_inv H. destruct a as [n' r1]. cbn [obind] in H. obind_inv H.
    destruct a as [ts r2]. cbn [obind] in H. injection H as -> -> ->.
    apply (decode_one_spec r k zw max_quotient Hr Hk Hzw Hmax) in E
      as (u & tail & Hrest & Hu & Hq & Hz & ->).
    pose proof Hz as Hz'. apply zigzag_encode_Ok in Hz' as (_ & _ & ->); [|done].
    assert (Hlen : (length (code_word k (zigzag n)) <= length (rest r))%nat)
      by (rewrite Hrest, length_app; lia).
    apply IH in E0 as ((tail' & Ht) & Hv & ->); [|by apply adv_ok].
    rewrite rest_adv in Ht by done. split.
    + exists tail'. rewrite Hrest in Ht |- *. rewrite drop_app_length in Ht.
      by rewrite Ht, app_assoc.
    + split; [by constructor|]. by rewrite adv_adv, length_app.
  - intros ((tail & Hrest) & Hv & ->). by apply (decode_loop_complete k zw max_quotient (n :: values) r tail).
Qed.

Lemma padding_loop_spec n r :
  reader_ok r ->
  forall r',
  ofold (fun r (_ : Z) =>
           let* (bit, r) := BitReader.read_bit r in
           if bit : bool then Err InvalidProof else Ok r) n r = Ok r' <->
  (exists tail, rest r = replicate (length n) false ++ tail) /\ r' = adv r (length n).
Proof.
  intros Hr r'. revert r Hr; induction n as [|i n IH]; intros r Hr; cbn [ofold length].
  { rewrite adv_0. split; [intros [= <-]; split; [by exists (rest r) | done] | by intros (_ & ->)]. }
  rewrite read_bit_spec by done. destruct (rest r) as [|[] l] eqn:E; cbn [obind].
  - split; [done | by intros ((tail & ?) & _)].
  - split; [done | by intros ((tail & ?) & _)].
  - assert (Hr1 : reader_ok (adv r 1)) by (apply adv_ok; [done|rewrite E; cbn; lia]).
    rewrite IH by done. rewrite rest_adv, E, adv_adv by done.
    change (drop 1 (false :: l)) with l. cbn [replicate app].
    split; intros ((tail & Ht) & ->); (split; [|done]); exists tail; [by rewrite Ht|].
    by injection Ht.
Qed.

Lemma padding_spec r :
  reader_ok r ->
  (exists r', golomb_rice_consume_canonical_padding r = Ok r') <->
  rest r = replicate (pad (Z.to_nat (bit_pos r))) false.
Proof.
  intros Hr. pose proof (rest_length r Hr) as Hl. pose proof Hr as (H1 & H2 & _).
  unfold golomb_rice_consume_canonical_padding.
  assert (Hp : (8 - bit_pos r mod 8) mod 8 = Z.of_nat (pad (Z.to_nat (bit_pos r)))).
  { unfold pad. rewrite Nat2Z.inj_mod, Nat2Z.inj_sub, Nat2Z.inj_mod.
    - by rewrite Z2Nat.id by lia.
    - pose proof (Nat.mod_upper_bound (Z.to_nat (bit_pos r)) 8). lia. }
  rewrite Hp. set (p := pad (Z.to_nat (bit_pos r))) in *. rewrite range_nat. split.
  - intros (r' & H). obind_inv H. apply padding_loop_spec in E as ((tail & Ht) & ->); [|done].
    rewrite length_fmap, length_seq in *.
    assert (reader_ok (adv r p)).
    { apply adv_ok; [done|]. rewrite Ht, length_app, length_replicate. lia. }
    rewrite remaining_bits_spec, rest_adv, Ht in H by done.
    rewrite drop_app_length' in H by (by rewrite length_replicate).
    destruct tail; [by rewrite Ht, app_nil_r|]. done.
  - intros Hrest. exists (adv r p).
    rewrite (proj2 (padding_loop_spec (Z.of_nat <$> seq 0 p) r Hr (adv r p))).
    + cbn [obind]. assert (reader_ok (adv r p)).
      { apply adv_ok; [done|]. rewrite Hrest, length_replicate. lia. }
      rewrite remaining_bits_spec, rest_adv, Hrest by done.
      by rewrite drop_ge by (rewrite length_replicate; lia).
    + rewrite length_fmap, length_seq. split; [|done]. exists []. by rewrite app_nil_r.
Qed.

(** ** The decoder accepts exactly the canonical encodings *)

Lemma decode_vec_complete reserve bytes (k : nat) zw max_quotient values :
  Forall is_byte bytes -> 8 * len bytes <= USIZE_MAX -> (k <= 63)%nat -> 0 <= zw -> reserve (len values) = true ->
  stream bytes = code_words k values ++ replicate (pad (length (code_words k values))) false ->
  Forall (fun n => zigzag_encode n zw = Ok (zigzag n) /\ zigzag n / 2 ^ Z.of_nat k <= max_quotient) values ->
  golomb_rice_decode_vec reserve bytes (len values) (Z.of_nat k) zw max_quotient Ok = Ok values.
Proof.
  intros Hb Hsmall Hk Hzw Hres Hs Hv. unfold golomb_rice_decode_vec. rewrite Hres.
  assert (Hr : reader_ok (BitReader.new bytes)).
  { split; cbn; [unfold len; lia|]. by split. }
  assert (Hr0 : rest (BitReader.new bytes) = stream bytes) by done.
  replace (Z.to_nat (len values)) with (length values) by (unfold len; lia).
  set (n := length (code_words k values)) in *.
  assert (Hpos : bit_pos (adv (BitReader.new bytes) n) = Z.of_nat n) by done.
  rewrite (decode_loop_complete k zw max_quotient values (BitReader.new bytes) (replicate (pad n) false)) by (done || by rewrite Hr0, Hs).
  fold n. cbn [obind]. assert (Hr1 : reader_ok (adv (BitReader.new bytes) n)).
  { apply adv_ok; [done|]. rewrite Hr0, Hs, length_app. lia. }
  destruct (proj2 (padding_spec _ Hr1)) as [r' ->]; [|done].
  rewrite rest_adv, Hr0, Hpos, Nat2Z.id, Hs by done. unfold n. by rewrite drop_app_length.
Qed.

Lemma decode_vec_spec reserve bytes (k : nat) zw max_quotient values :
  Forall is_byte bytes -> 8 * len bytes <= USIZE_MAX -> (k <= 63)%nat -> 0 <= zw ->
  (max_quotient + 1) * 2 ^ Z.of_nat k <= 2 ^ 64 ->
  golomb_rice_decode_vec reserve bytes (len values) (Z.of_nat k) zw max_quotient Ok = Ok values <->
  reserve (len values) = true /\
  stream bytes = code_words k values ++ replicate (pad (length (code_words k values))) false /\
  Forall (fun n => zigzag_encode n zw = Ok (zigzag n) /\
                   zigzag n / 2 ^ Z.of_nat k <= max_quotient) values.
Proof.
  intros Hb Hsmall Hk Hzw Hmax. split; [|intros (Hres & Hs & Hv); by apply decode_vec_complete].
  unfold golomb_rice_decode_vec. destruct (reserve (len values)); [|done].
  assert (Hr : reader_ok (BitReader.new bytes)).
  { split; cbn; [unfold len; lia|]. by split. }
  assert (Hr0 : rest (BitReader.new bytes) = stream bytes) by done.
  replace (Z.to_nat (len values)) with (length values) by (unfold len; lia).
  set (n := length (code_words k values)).
  assert (Hpos : bit_pos (adv (BitReader.new bytes) n) = Z.of_nat n) by done.
  intros H. obind_inv H. destruct a as [out r1]. cbn [obind] in H. obind_inv H.
  injection H as ->. apply decode_loop_spec in E as ((tail & Ht) & Hv & ->); [|done..].
  split; [done|]. split; [|done]. rewrite Hr0 in Ht. fold n in E0.
  assert (Hr1 : reader_ok (adv (BitReader.new bytes) n)).
  { apply adv_ok; [done|]. rewrite Hr0, Ht, length_app. lia. }
  pose proof (proj1 (padding_spec _ Hr1) (ex_intro _ _ E0)) as Hpad.
  rewrite rest_adv, Hr0, Hpos, Nat2Z.id, Ht in Hpad by done.
  unfold n in Hpad. rewrite drop_app_length in Hpad. by rewrite Ht, Hpad.
Qed.

(** ** The quotient bound of a cap *)

Lemma quotient_for_coord_Ok n k zw q :
  0 <= k -> 0 <= zw ->
  golomb_rice_quotient_for_coord n k zw = Ok q <->
  zigzag_encode n zw = Ok (zigzag n) /\ k <= 63 /\ q = zigzag n / 2 ^ k \/
  k = 0 /\ zigzag_encode n zw = Ok (zigzag n) /\ q = zigzag n.
Proof.
  intros Hk Hzw. unfold golomb_rice_quotient_for_coord.
  destruct (zigzag_encode n zw) as [u| |] eqn:E; cbn [obind];
    [|split; [done | by intros [(? & _)|(_ & ? & _)]]..].
  pose proof (proj1 (zigzag_encode_Ok n zw u Hzw) E) as (_ & _ & ->). unfold shr64.
  destruct (Z.eqb_spec k 0) as [->|Hnz].
  - rewrite Z.div_1_r. split; [intros [= <-]; by right | by intros [(_ & _ & ->)|(_ & _ & ->)]].
  - rewrite Z.shiftr_div_pow2 by done. destruct (Z.ltb_spec k 64).
    + split; [intros [= <-]; left; split; [done|split; [lia|done]] |
              intros [(_ & _ & ->)|(? & _)]; [done|lia]].
    + split; [done|]. intros [(_ & ? & _)|(? & _)]; lia.
Qed.

Lemma quotient_for_coord_div n k zw q :
  0 <= k -> 0 <= zw -> golomb_rice_quotient_for_coord n k zw = Ok q ->
  zigzag_encode n zw = Ok (zigzag n) /\ k <= 63 /\ q = zigzag n / 2 ^ k.
Proof.
  intros Hk Hzw [(? & ? & ->)|(-> & ? & ->)]%quotient_for_coord_Ok; [done| |done..].
  rewrite Z.div_1_r. split; [done|split; [lia|done]].
Qed.

Lemma zigzag_cap n cap : Z.abs n <= cap -> zigzag n <= zigzag cap.
Proof. intros. unfold zigzag. case_Z. Qed.

Lemma max_quotient_cap cap k zw mq :
  0 <= cap -> 0 <= k -> 0 <= zw -> golomb_rice_max_quotient_for_cap cap k zw = Ok mq ->
  k <= 63 /\ (mq + 1) * 2 ^ k <= 2 ^ 64 /\
  forall n, Z.abs n <= cap -> zigzag n / 2 ^ k <= mq.
Proof.
  intros Hcap Hk Hzw H. unfold golomb_rice_max_quotient_for_cap in H. obind_inv H.
  unfold ok_or in E. destruct (checked_u 63 cap) as [c|] eqn:Ec; [|done].
  injection E as <-. apply checked_u_Some in Ec as [_ ->].
  apply quotient_for_coord_div in H as (Hz & Hk' & ->); [|done..].
  apply zigzag_encode_Ok in Hz as (Hw & Hs & _); [|done].
  apply zigzag_bound in Hs; [|lia].
  assert (2 ^ zw <= 2 ^ 63) by (apply Z.pow_le_mono_r; lia).
  assert (2 ^ k <= 2 ^ 63) by (apply Z.pow_le_mono_r; lia).
  split; [done|]. split.
  - pose proof (Z.mul_div_le (zigzag cap) (2 ^ k) ltac:(lia)). lia.
  - intros n Hn. apply Z.div_le_mono; [lia|]. by apply zigzag_cap.
Qed.

(** ** Length accounting *)

Definition total_len (k : Z) (values : list Z) : Z :=
  len (code_words (Z.to_nat k) values).

Lemma code_words_app k l1 l2 : code_words k (l1 ++ l2) = code_words k l1 ++ code_words k l2.
Proof. unfold code_words. by rewrite map_app, concat_app. Qed.

Lemma zigzag_nonneg n : 0 <= zigzag n.
Proof. unfold zigzag. case_Z. Qed.

Lemma total_len_cons k n values :
  0 <= k -> total_len k (n :: values) = zigzag n / 2 ^ k + 1 + k + total_len k values.
Proof.
  intros Hk. unfold total_len, len.
  change (code_words ?k (n :: values)) with (code_word k (zigzag n) ++ code_words k values).
  rewrite length_app, Nat2Z.inj_add. f_equal.
  fold (len (code_word (Z.to_nat k) (zigzag n))).
  rewrite length_code_word by apply zigzag_nonneg. by rewrite Z2Nat.id by done.
Qed.

Lemma total_len_nonneg k values : 0 <= total_len k values.
Proof. unfold total_len, len. lia. Qed.

Lemma payload_len k zw values bytes :
  0 <= k -> 0 <= zw -> golomb_rice_encode_vec values k zw = Ok bytes ->
  len bytes = (total_len k values + 7) / 8.
Proof.
  intros Hk Hzw (_ & _ & Hs)%encode_vec_spec; [|done..]. cbn zeta in Hs.
  apply (f_equal length) in Hs. rewrite length_stream, length_app, length_replicate in Hs.
  unfold total_len, len in *. set (n := length (code_words (Z.to_nat k) values)) in *.
  pose proof (pad_lt n). apply (Z.div_unique_pos _ _ _ (7 - Z.of_nat (pad n))); lia.
Qed.

(** A fold that adds one checked term per coordinate. *)
Lemma checked_total_spec (f : Z -> result Z) (g : Z -> Z) msg values acc :
  Forall (fun n => f n = Ok (g n) /\ 0 <= g n) values -> 0 <= acc ->
  acc + checked.Zsum (map g values) <= USIZE_MAX ->
  ofold (fun acc n => let* b := f n in ok_or (checked_add b acc) (InvalidSetup msg))
    values acc = Ok (acc + checked.Zsum (map g values)).
Proof.
  intros H; revert acc; induction H as [|n values [Hf Hg] Hv IH]; intros acc Ha Hs.
  { cbn. f_equal. lia. }
  assert (0 <= checked.Zsum (map g values)).
  { clear -Hv. induction Hv as [|? ? [_ ?] _ IH]; cbn; [done|].
    fold (checked.Zsum (map g l)). lia. }
  cbn [map checked.Zsum foldr] in *. fold (checked.Zsum (map g values)) in *.
  cbn [ofold]. rewrite Hf. cbn [obind]. unfold checked_add, usize.
  rewrite checked_u_in by (unfold in_u, USIZE_MAX, USIZE_BITS in *; lia). cbn [ok_or obind].
  rewrite IH by lia. f_equal. lia.
Qed.

Lemma total_len_sum k values :
  0 <= k -> total_len k values =
    checked.Zsum (map (fun n => zigzag n / 2 ^ k + 1 + k) values).
Proof.
  intros Hk. induction values as [|n values IH]; [done|].
  rewrite total_len_cons by done. cbn [map checked.Zsum foldr].
  fold (checked.Zsum (map (fun n => zigzag n / 2 ^ k + 1 + k) values)). lia.
Qed.

Lemma coord_wire_bits_Ok n k zw :
  0 <= k <= 63 -> 0 < zw <= 63 -> in_s zw n ->
  golomb_rice_coord_wire_bits n k zw = Ok (zigzag n / 2 ^ k + 1 + k).
Proof.
  intros Hk Hzw Hn. unfold golomb_rice_coord_wire_bits.
  rewrite (proj2 (quotient_for_coord_Ok n k zw (zigzag n / 2 ^ k) ltac:(lia) ltac:(lia))).
  2:{ left. split; [|split; [lia|done]]. by apply zigzag_encode_Ok; [lia|]. }
  cbn [obind]. pose proof (zigzag_bound zw n ltac:(lia) Hn).
  assert (2 ^ zw <= 2 ^ 63) by (apply Z.pow_le_mono_r; lia).
  assert (0 <= zigzag n / 2 ^ k <= 2 ^ 63).
  { split; [apply Z.div_pos; lia|]. apply Z.div_le_upper_bound; [lia|].
    assert (1 <= 2 ^ k) by lia. nia. }
  unfold checked_add, usize. rewrite checked_u_in by (unfold in_u, USIZE_BITS; lia).
  cbn [unwrap obind]. unfold saturating_add, USIZE_MAX, USIZE_BITS. f_equal. lia.
Qed.

Lemma bits_for_coord_Ok n k zw :
  0 <= k <= 63 -> 0 < zw <= 63 -> in_s zw n ->
  golomb_rice_bits_for_coord n k zw = Ok (zigzag n / 2 ^ k + 1 + k).
Proof.
  intros Hk Hzw Hn. unfold golomb_rice_bits_for_coord.
  pose proof (encode_one_spec _ [] n (Z.to_nat k) zw written_default) as H.
  rewrite (proj2 (zigzag_encode_Ok n zw (zigzag n) ltac:(lia))) in H by done.
  destruct H as (w' & H & (Hp & _)); [lia..|]. rewrite Z2Nat.id in H by lia.
  rewrite H. cbn [obind]. unfold BitWriter.bit_len. rewrite Hp.
  cbn [app]. rewrite length_code_word by apply zigzag_nonneg. by rewrite Z2Nat.id by lia.
Qed.

(** ** Cauchy-Schwarz for the planner's L2 estimate *)

Definition sum_abs (l : list Z) : Z := checked.Zsum (map Z.abs l).
Definition sum_sq (l : list Z) : Z := checked.Zsum (map (fun z => z * z) l).

Lemma sum_sq_shift x l :
  0 <= sum_sq l - 2 * x * sum_abs l + len l * (x * x).
Proof.
  unfold len. induction l as [|z l IH]; [cbn; lia|].
  unfold sum_sq, sum_abs in *. cbn [map checked.Zsum foldr length] in *.
  fold (checked.Zsum (map Z.abs l)) (checked.Zsum (map (fun z => z * z) l)) in *.
  pose proof (Z.square_nonneg (Z.abs z - x)). pose proof (Z.abs_square z). lia.
Qed.

Lemma cauchy_schwarz l : sum_abs l * sum_abs l <= len l * sum_sq l.
Proof.
  unfold len. induction l as [|z l IH]; [cbn; lia|].
  pose proof (sum_sq_shift (Z.abs z) l) as Hx. unfold len in Hx.
  unfold sum_sq, sum_abs in *. cbn [map checked.Zsum foldr length] in *.
  fold (checked.Zsum (map Z.abs l)) (checked.Zsum (map (fun z => z * z) l)) in *.
  pose proof (Z.abs_square z). nia.
Qed.

Lemma total_len_bound k values :
  0 <= k -> total_len k values <= len values * (k + 1) + 2 * sum_abs values / 2 ^ k.
Proof.
  intros Hk. unfold len. induction values as [|n values IH].
  - unfold total_len. cbn. apply Z.div_pos; lia.
  - rewrite total_len_cons by done. unfold sum_abs in *. cbn [map checked.Zsum foldr length].
    fold (checked.Zsum (map Z.abs values)).
    set (s := checked.Zsum (map Z.abs values)) in *.
    assert (zigzag n / 2 ^ k <= 2 * Z.abs n / 2 ^ k).
    { apply Z.div_le_mono; [lia|]. unfold zigzag. case_Z. }
    assert (2 * Z.abs n / 2 ^ k + 2 * s / 2 ^ k <= 2 * (Z.abs n + s) / 2 ^ k).
    { apply Z.div_le_lower_bound; [lia|].
      pose proof (Z.mul_div_le (2 * Z.abs n) (2 ^ k) ltac:(lia)).
      pose proof (Z.mul_div_le (2 * s) (2 ^ k) ltac:(lia)). lia. }
    lia.
Qed.

(** * Properties *)



(** C36: the decoder accepts only canonical payloads: for every Rice parameter
    up to 63 and every quotient cap whose codes fit 64 bits,
    [(mq + 1) * 2^k <= 2^64], among them each cap that
    [golomb_rice_max_quotient_for_cap] returns, whatever bytes decode to a
    vector are exactly the bytes the encoder produces for it, so no two
    distinct payloads decode to the same coefficients. *)
Theorem golomb_rice_decode_canonical reserve k zw mq values bytes :
  0 <= k <= 63 -> 0 <= zw ->
  ((mq + 1) * 2 ^ k <= 2 ^ 64 \/ exists cap, 0 <= cap /\ golomb_rice_max_quotient_for_cap cap k zw = Ok mq) ->
  Forall is_byte bytes -> 8 * len bytes <= USIZE_MAX ->
  golomb_rice_decode_vec reserve bytes (len values) k zw mq Ok = Ok values ->
  golomb_rice_encode_vec values k zw = Ok bytes.
Proof.
  intros Hk Hzw Hcap Hb Hsmall Hdec.
  assert (Hmax : (mq + 1) * 2 ^ k <= 2 ^ 64).
  { destruct Hcap as [|(cap & Hc & Hmq)]; [done|]. by apply max_quotient_cap in Hmq as (_ & ? & _); [|lia..]. }
  rewrite <-(Z2Nat.id k) in Hmax, Hdec by lia.
  apply decode_vec_spec in Hdec as (_ & Hs & Hv); [|done|done|lia|done|done].
  apply encode_vec_spec; [lia|done|]. split; [|done].
  destruct values as [|n values]; [by left|right].
  assert (Hw : 0 < zw <= 63).
  { inversion Hv as [|? ? [Hz _] _]; subst. by apply zigzag_encode_Ok in Hz as (? & _). }
  split; [done|]. split; [lia|]. rewrite Forall_forall in Hv |- *. intros m [Hz _]%Hv. by apply zigzag_encode_Ok in Hz as (_ & ? & _).
Qed.

Lemma golomb_rice_decode_canonical_witness :
  exists bytes, golomb_rice_encode_vec [3; -5] 2 8 = Ok bytes.
Proof.
  eexists. apply (golomb_rice_decode_canonical (fun _ => true) 2 8 3 [3; -5] [185; 0]);
    [lia|lia|left; lia|repeat constructor; lia|vm_compute; discriminate|vm_compute; reflexivity].
Defined.

(** Past that bound the shift of the quotient drops its high bits: nine bytes
    decode to the coefficient whose canonical payload has eight. *)
Example wide_quotient_not_canonical :
  golomb_rice_decode_vec (fun _ => true) [111; 0; 0; 0; 0; 0; 0; 0; 0] 1 62 63 4 Ok = Ok [-2] /\
  golomb_rice_encode_vec [-2] 62 63 = Ok [6; 0; 0; 0; 0; 0; 0; 0].
Proof. split; vm_compute; reflexivity. Qed.

(** the closed-form wire-bit count, the count of the bits actually
    written and the payload length agree for every encodable vector. *)
Theorem golomb_rice_wire_bits_exact k zw values bytes :
  0 <= k -> 0 <= zw -> golomb_rice_encode_vec values k zw = Ok bytes ->
  8 * len bytes <= USIZE_MAX ->
  exists bits,
    golomb_rice_total_wire_bits values k zw = Ok bits /\
    golomb_rice_total_bits values k zw = Ok bits /\
    len bytes = (bits + 7) / 8.
Proof.
  intros Hk Hzw He Hsmall. exists (total_len k values).
  pose proof (payload_len k zw values bytes Hk Hzw He) as Hlen.
  apply encode_vec_spec in He as (Hrange & _); [|done..].
  assert (Htot : total_len k values <= USIZE_MAX).
  { pose proof (Z.div_mod (total_len k values + 7) 8 ltac:(lia)).
    pose proof (Z.mod_pos_bound (total_len k values + 7) 8 ltac:(lia)). lia. }
  destruct Hrange as [->|(Hz & Hk' & Hv)]; [done|].
  rewrite total_len_sum in * by done.
  set (g := fun n => zigzag n / 2 ^ k + 1 + k) in *.
  assert (Hg : forall n, 0 <= g n).
  { intros n. subst g. cbn beta. assert (0 <= zigzag n / 2 ^ k); [|lia].
    apply Z.div_pos; [apply zigzag_nonneg | lia]. }
  split; [|split; [|done]];
    [unfold golomb_rice_total_wire_bits | unfold golomb_rice_total_bits];
    (erewrite checked_total_spec; [rewrite Z.add_0_l; reflexivity| |lia|lia]);
    rewrite Forall_forall in Hv |- *; intros n Hn%Hv; (split; [|apply Hg]).
  - by apply coord_wire_bits_Ok.
  - by apply bits_for_coord_Ok.
Qed.

Lemma golomb_rice_wire_bits_exact_witness :
  exists bits, golomb_rice_total_wire_bits [3; -5] 2 8 = Ok bits.
Proof.
  destruct (golomb_rice_wire_bits_exact 2 8 [3; -5] [185; 0]) as (b & Hb & _);
    [lia|lia|vm_compute; reflexivity|vm_compute; discriminate|]. by exists b.
Defined.

(** the planner's L2 payload estimate is an upper bound: no vector whose
    squared norm is within [l2_sq_cap] encodes to more bytes. *)
Theorem golomb_rice_l2_estimate_sound k zw values l2_sq_cap bytes est :
  0 <= k -> 0 <= zw -> sum_sq values <= l2_sq_cap ->
  golomb_rice_encode_vec values k zw = Ok bytes ->
  golomb_rice_l2_planner_payload_bytes (len values) l2_sq_cap k = Some est ->
  len bytes <= est.
Proof.
  intros Hk Hzw Hl2 He Hest. rewrite (payload_len k zw values bytes) by done.
  unfold golomb_rice_l2_planner_payload_bytes in Hest.
  destruct (checked_u 128 (len values * l2_sq_cap)) as [p|] eqn:Ep; [|done].
  apply checked_u_Some in Ep as [[Hp0 _] ->].
  destruct (checked_u 128 _) as [d|] eqn:Ed; [|done].
  apply checked_u_Some in Ed as [_ ->]. destruct (128 <=? k); [done|].
  unfold checked_mul, checked_add in Hest.
  destruct (usize (len values * (k + 1))) as [f|] eqn:Ef; [|done].
  destruct (usize (Z.shiftr _ k)) as [q|] eqn:Eq; [|done].
  destruct (usize (f + q)) as [b|] eqn:Eb; [|done].
  destruct (usize (b + 7)) as [c|] eqn:Ec; [|done]. injection Hest as <-.
  apply checked.usize_Some in Ef as [_ ->], Eq as [_ ->], Eb as [_ ->], Ec as [_ ->].
  apply Z.div_le_mono; [lia|]. rewrite Z.shiftr_div_pow2 by done.
  pose proof (total_len_bound k values Hk) as Hb.
  assert (2 * sum_abs values / 2 ^ k <= Z.sqrt (len values * l2_sq_cap) * 2 / 2 ^ k); [|lia].
  apply Z.div_le_mono; [lia|].
  assert (Hs : sum_abs values <= Z.sqrt (len values * l2_sq_cap)); [|lia].
  apply Z.sqrt_le_square; [done| |].
  - clear. unfold sum_abs. induction values as [|z l IH]; [done|].
    cbn [map checked.Zsum foldr]. fold (checked.Zsum (map Z.abs l)). lia.
  - etransitivity; [apply cauchy_schwarz|]. apply Z.mul_le_mono_nonneg_l; [unfold len; lia|done].
Qed.

Lemma golomb_rice_l2_estimate_sound_witness : len [185; 0] <= 2.
Proof.
  apply (golomb_rice_l2_estimate_sound 2 8 [3; -5] 34 [185; 0] 2);
    [lia|lia|vm_compute; discriminate|vm_compute; reflexivity|vm_compute; reflexivity].
Defined.

(** admission is sufficient for transmission: a coefficient vector that
    passes the terminal wire check encodes, at the public Rice parameters,
    within the planner's bit budget. *)
Theorem golomb_rice_admitted_encodes values coding_scale admissible_cap :
  0 <= coding_scale < 2 ^ 64 -> 0 <= admissible_cap ->
  golomb_rice_flat_admit_terminal_wire_with_caps values coding_scale admissible_cap = Ok tt ->
  exists bytes,
    golomb_rice_encode_vec values (wire_rice_low_bits coding_scale)
      (golomb_rice_zigzag_width admissible_cap) = Ok bytes /\
    len bytes <= (tail_z_planner_bits_per_coord (cap_rice_low_bits coding_scale)
                  * len values + 7) / 8.
Proof.
  intros Hscale Hcap. unfold golomb_rice_flat_admit_terminal_wire_with_caps.
  destruct (_ && _)%bool; [done|]. destruct (omap_err _ _); cbn [obind]; [|done..].
  set (k := wire_rice_low_bits coding_scale). set (zw := golomb_rice_zigzag_width admissible_cap).
  unfold golomb_rice_values_fit_planner_wire_budget. intros H. obind_inv H. obind_inv H.
  destruct (Z.ltb_spec a0 a1) as [|Hle]; [done|]. clear H a.
  unfold ok_or in E. destruct (checked_mul _ _) as [bud|] eqn:Eb; [|done].
  injection E as <-. apply checked.usize_Some in Eb as [_ ->].
  assert (Hk : 0 <= k) by (subst k; unfold wire_rice_low_bits, saturating_sub; lia).
  assert (Hzw : 0 <= zw).
  { subst zw. unfold golomb_rice_zigzag_width. case_Z. }
  assert (Hloop : forall acc tot, 0 <= acc ->
    ofold (fun acc n => let* bits := golomb_rice_coord_wire_bits n k zw in
             ok_or (checked_add bits acc) (InvalidSetup "golomb-rice total wire bits overflow"))
      values acc = Ok tot ->
    (values = [] \/ (0 < zw <= 63 /\ k <= 63 /\ Forall (in_s zw) values)) /\
    acc + total_len k values <= tot).
  { clear -Hk Hzw. induction values as [|n values IH]; intros acc tot Hacc H.
    { cbn in H. injection H as <-. split; [by left|]. change (total_len k []) with 0. lia. }
    cbn [ofold] in H. obind_inv H. obind_inv E.
    unfold ok_or in E. destruct (checked_add a0 acc) as [s|] eqn:Es; [|done].
    injection E as <-. apply checked.usize_Some in Es as [[Hs0 _] ->].
    apply IH in H as [Hr Ht]; [|done].
    assert (Hq : 0 < zw <= 63 /\ k <= 63 /\ in_s zw n).
    { unfold golomb_rice_coord_wire_bits in E0. obind_inv E0.
      apply quotient_for_coord_div in E as (Hz & ? & _); [|done..].
      by apply zigzag_encode_Ok in Hz as (? & ? & _). }
    destruct Hq as (Hz & Hk' & Hn). rewrite coord_wire_bits_Ok in E0 by done.
    injection E0 as <-. rewrite total_len_cons by done. split; [right|lia].
    split; [done|split; [done|]]. constructor; [done|]. by destruct Hr as [->|(_ & _ & ?)]. }
  apply Hloop in E0 as [Hr Ht]; [|done].
  assert (Hex : exists bytes, golomb_rice_encode_vec values k zw = Ok bytes).
  { unfold golomb_rice_encode_vec. destruct Hr as [->|(Hz & Hk' & Hv)]; [by eexists|].
    destruct (encode_loop_spec (Z.to_nat k) zw values _ [] ltac:(lia) Hzw written_default)
      as (w' & H1 & _); [by left|]. rewrite Z2Nat.id in H1 by done. rewrite H1. by eexists. }
  destruct Hex as [bytes He]. exists bytes. split; [done|].
  rewrite (payload_len k zw values bytes) by done. apply Z.div_le_mono; [lia|].
  fold k. unfold tail_z_planner_bits_per_coord in *. lia.
Qed.

Lemma golomb_rice_admitted_encodes_witness :
  exists bytes, golomb_rice_encode_vec [3; 0] (wire_rice_low_bits 8)
                  (golomb_rice_zigzag_width 8) = Ok bytes.
Proof.
  destruct (golomb_rice_admitted_encodes [3; 0] 8 8) as (b & Hb & _);
    [lia|lia|vm_compute; reflexivity|]. by exists b.
Defined.
