(* ===== verification/Field.v ===== *)
(** The interface of the field arithmetic that the program takes from the
    external [jolt_field] crate: operations, the documented laws that the
    protocol code relies on, and the canonical integer encoding.  The
    component files are parametric in it; [F97] is a concrete instance, so
    every theorem stated over the interface can be evaluated. *)

From S2P Require Import Prelude.

(** [jolt_field::Field] together with [Ring::from_u64], [half] and [mul_add]. *)
Class Field (E : Type) := {
  fzero : E;
  fone : E;
  fadd : E -> E -> E;
  fmul : E -> E -> E;
  fsub : E -> E -> E;
  fneg : E -> E;
  finverse : E -> option E;
  feqb : E -> E -> bool;
  from_u64 : Z -> E;
  fhalf : E -> E;
  fmul_add : E -> E -> E -> E;
}.

Declare Scope field_scope.
Delimit Scope field_scope with F.
Notation "0" := fzero : field_scope.
Notation "1" := fone : field_scope.
Infix "+" := fadd : field_scope.
Infix "*" := fmul : field_scope.
Infix "-" := fsub : field_scope.
Notation "- x" := (fneg x) : field_scope.

(** The laws: a commutative ring with partial inverses of exactly the nonzero
    elements, decidable equality, the canonical map from the integers and
    division by two and fused multiplication. *)
Class FieldLaws (E : Type) `{Field E} := {
  field_ring : ring_theory fzero fone fadd fmul fsub fneg (@eq E);
  fone_neq_zero : fone <> fzero;
  finverse_zero : finverse fzero = None;
  finverse_spec a : a <> fzero -> exists b, finverse a = Some b /\ fmul a b = fone;
  feqb_spec a b : feqb a b = true <-> a = b;
  from_u64_0 : from_u64 0 = fzero;
  from_u64_succ n : 0 <= n -> from_u64 (n + 1) = fadd (from_u64 n) fone;
  fhalf_spec a : fadd (fhalf a) (fhalf a) = a;
  fmul_add_spec a b c : fmul_add a b c = fadd (fmul a b) c;
}.

(** [jolt_field::CanonicalEncoding] of a prime field with modulus [modulus]. *)
Class CanonicalEncoding (E : Type) := {
  modulus : Z;
  to_canonical : E -> Z;
  from_u128_checked : Z -> option E;
  from_u128_reduced : Z -> E;
}.

Arguments modulus E {_}.

Class CanonicalLaws (E : Type) `{CanonicalEncoding E} := {
  modulus_pos : 0 < modulus E;
  to_canonical_range e : 0 <= to_canonical e < modulus E;
  from_checked_spec v e :
    0 <= v -> from_u128_checked v = Some e <-> v < modulus E /\ to_canonical e = v;
  from_checked_None v : 0 <= v -> from_u128_checked v = None <-> modulus E <= v;
  from_reduced_spec v : 0 <= v -> to_canonical (from_u128_reduced v) = v mod modulus E;
  to_canonical_inj a b : to_canonical a = to_canonical b -> a = b;
}.

(** * Derived operations *)

Section field_lemmas.
Context {E : Type} `{FieldLaws E}.
Add Ring Ering : (field_ring (E := E)).
Local Open Scope field_scope.

Definition fsum (l : list E) : E := foldr fadd 0 l.
Definition fprod (l : list E) : E := foldr fmul 1 l.
Fixpoint fpow (x : E) (n : nat) : E :=
  match n with O => 1 | S n => x * fpow x n end.

Lemma fsum_cons a l : fsum (a :: l) = a + fsum l. Proof. done. Qed.
Lemma fprod_cons a l : fprod (a :: l) = a * fprod l. Proof. done. Qed.

Lemma fsum_app l1 l2 : fsum (l1 ++ l2) = fsum l1 + fsum l2.
Proof.
  induction l1 as [|a l1 IH]; [change (fsum l2 = 0 + fsum l2); ring|].
  cbn [app]. rewrite !fsum_cons, IH. ring.
Qed.

Lemma fprod_app l1 l2 : fprod (l1 ++ l2) = fprod l1 * fprod l2.
Proof.
  induction l1 as [|a l1 IH]; [change (fprod l2 = 1 * fprod l2); ring|].
  cbn [app]. rewrite !fprod_cons, IH. ring.
Qed.

Lemma fsum_map_add {A} (f g : A -> E) l :
  fsum (map (fun x => f x + g x) l) = fsum (map f l) + fsum (map g l).
Proof.
  induction l as [|a l IH]; [change (0 = 0 + 0); ring|].
  cbn [map]. rewrite !fsum_cons, IH. ring.
Qed.

Lemma fsum_map_mul {A} c (f : A -> E) l :
  fsum (map (fun x => c * f x) l) = c * fsum (map f l).
Proof.
  induction l as [|a l IH]; [change (0 = c * 0); ring|].
  cbn [map]. rewrite !fsum_cons, IH. ring.
Qed.

Lemma fsum_replicate_zero n : fsum (replicate n 0) = 0.
Proof. induction n as [|n IH]; [done|]. cbn [replicate]. rewrite fsum_cons, IH. ring. Qed.

Lemma fold_add_fsum l a : foldl fadd a l = a + fsum l.
Proof.
  revert a; induction l as [|b l IH]; intros a; [change (a = a + 0); ring|].
  cbn [foldl]. rewrite IH, fsum_cons. ring.
Qed.

Lemma fold_mul_fprod l a : foldl fmul a l = a * fprod l.
Proof.
  revert a; induction l as [|b l IH]; intros a; [change (a = a * 1); ring|].
  cbn [foldl]. rewrite IH, fprod_cons. ring.
Qed.

(** Cancellation by a nonzero factor. *)
Lemma fmul_cancel a b c : a <> 0 -> a * b = a * c -> b = c.
Proof.
  intros Ha He. destruct (finverse_spec a Ha) as (i & _ & Hi).
  transitivity (a * i * b); [rewrite Hi; ring|].
  transitivity (i * (a * b)); [ring|]. rewrite He.
  transitivity (a * i * c); [ring|]. rewrite Hi; ring.
Qed.

Lemma fmul_eq_zero a b : a * b = 0 -> a = 0 \/ b = 0.
Proof.
  intros Hab. destruct (feqb a 0) eqn:Ea; [left; by apply feqb_spec|right].
  assert (a <> 0) as Ha by (intros ->; rewrite (proj2 (feqb_spec 0 0) eq_refl) in Ea; done).
  apply (fmul_cancel a); [done|]. rewrite Hab. ring.
Qed.

Lemma finverse_Some a b : finverse a = Some b -> a * b = 1 /\ a <> 0.
Proof.
  intros Hb. assert (a <> 0) as Ha by (intros ->; by rewrite finverse_zero in Hb).
  split; [|done]. destruct (finverse_spec a Ha) as (b' & Hb' & ?).
  rewrite Hb in Hb'. by injection Hb' as ->.
Qed.

Lemma feqb_refl a : feqb a a = true.
Proof. by apply feqb_spec. Qed.

Lemma feqb_neq a b : feqb a b = false <-> a <> b.
Proof.
  rewrite <-feqb_spec. by destruct (feqb a b).
Qed.

#[export] Instance field_eq_dec : EqDecision E.
Proof.
  intros a b. destruct (feqb a b) eqn:Eq.
  - left. by apply feqb_spec.
  - right. by apply feqb_neq.
Defined.

Lemma fpow_add x m n : fpow x (m + n) = fpow x m * fpow x n.
Proof. induction m as [|m IH]; cbn; [ring|]. rewrite IH. ring. Qed.
End field_lemmas.

(** * A concrete instance: the integers modulo 97 *)

Module F97.
Definition p : Z := 97.
Record t := mk { val : Z; val_ok : ((0 <=? val) && (val <? p))%bool = true }.

Lemma of_Z_ok z : ((0 <=? z mod p) && (z mod p <? p))%bool = true.
Proof.
  pose proof (Z.mod_pos_bound z p ltac:(done)).
  apply andb_true_iff. rewrite Z.leb_le, Z.ltb_lt. done.
Qed.
(** The range proof of a computed residue reduces to [eq_refl]. *)
Definition norm {b : bool} : b = true -> b = true :=
  match b with true => fun _ => eq_refl | false => fun h => h end.
Definition of_Z (z : Z) : t := mk (z mod p) (norm (of_Z_ok z)).

Lemma val_inj a b : val a = val b -> a = b.
Proof.
  destruct a as [a Ha], b as [b Hb]; cbn; intros <-. f_equal.
  apply (Eqdep_dec.UIP_dec Bool.bool_dec).
Qed.
Lemma val_range a : 0 <= val a < p.
Proof. destruct a as [a Ha]; cbn. bool_prop. lia. Qed.
Lemma of_Z_val a : of_Z (val a) = a.
Proof. apply val_inj. cbn. apply Z.mod_small, val_range. Qed.

Definition inverse (a : t) : option t :=
  if val a =? 0 then None else Some (of_Z (val a ^ (p - 2))).

#[global] Instance field : Field t := {
  fzero := of_Z 0;
  fone := of_Z 1;
  fadd a b := of_Z (val a + val b);
  fmul a b := of_Z (val a * val b);
  fsub a b := of_Z (val a - val b);
  fneg a := of_Z (- val a);
  finverse := inverse;
  feqb a b := val a =? val b;
  from_u64 := of_Z;
  fhalf a := of_Z (val a * 49);
  fmul_add a b c := of_Z (val a * val b + val c);
}.

#[global] Instance canonical : CanonicalEncoding t := {
  modulus := p;
  to_canonical := val;
  from_u128_checked v := if v <? p then Some (of_Z v) else None;
  from_u128_reduced := of_Z;
}.

(** Every nonzero residue has the computed inverse, by evaluation. *)
Lemma inverses_checked :
  forallb (fun a => (a =? 0) || (a * (a ^ (p - 2) mod p) mod p =? 1)) (seqZ 0 p) = true.
Proof. vm_compute. reflexivity. Qed.

Ltac to_mod :=
  apply val_inj; cbn [val of_Z fadd fmul fsub fneg fzero fone field fhalf from_u64];
  repeat first [ rewrite Z.add_mod_idemp_l by done | rewrite Z.add_mod_idemp_r by done
               | rewrite Z.mul_mod_idemp_l by done | rewrite Z.mul_mod_idemp_r by done ].

#[global] Instance laws : FieldLaws t.
Proof.
  constructor.
  - constructor; intros; to_mod.
    + apply Z.mod_small, val_range.
    + f_equal; lia.
    + f_equal; lia.
    + rewrite Z.mul_1_l. apply Z.mod_small, val_range.
    + f_equal; lia.
    + f_equal; lia.
    + f_equal; lia.
    + f_equal; lia.
    + f_equal; lia.
  - intros H%(f_equal val). done.
  - done.
  - intros a Ha. cbn [finverse field]. unfold inverse.
    destruct (Z.eqb_spec (val a) 0) as [H0|H0].
    { exfalso. apply Ha, val_inj. by rewrite H0. }
    eexists; split; [done|]. apply val_inj. cbn [val of_Z fmul field fone].
    pose proof inverses_checked as Hi. rewrite forallb_forall in Hi.
    specialize (Hi (val a)). rewrite Z.mul_mod_idemp_r in Hi |- * by done.
    assert (In (val a) (seqZ 0 p)) as Hin.
    { apply list_elem_of_In, elem_of_seqZ. pose proof (val_range a). lia. }
    specialize (Hi Hin). bool_prop; [done|]. by rewrite Hi.
  - intros a b. cbn [feqb field]. rewrite Z.eqb_eq. split; [apply val_inj | by intros ->].
  - done.
  - intros n Hn. to_mod. done.
  - intros a. to_mod. rewrite <-(of_Z_val a) at 3. cbn.
    replace (val a * 49 + val a * 49) with (val a + val a * p) by (unfold p; lia).
    by rewrite Z.mod_add by done.
  - intros a b c. cbn [fmul_add field]. to_mod. done.
Qed.

#[global] Instance canonical_laws : CanonicalLaws t.
Proof.
  constructor; cbn [modulus to_canonical from_u128_checked from_u128_reduced canonical].
  - done.
  - apply val_range.
  - intros v e Hv. destruct (Z.ltb_spec v p).
    + split; [intros [= <-]; split; [done | by apply Z.mod_small] |].
      intros (_ & <-). by rewrite of_Z_val.
    + split; [done | lia].
  - intros v Hv. destruct (Z.ltb_spec v p); split; (done || lia).
  - done.
  - apply val_inj.
Qed.
End F97.
