(* ===== verification/Serialization.v ===== *)
(** [akita-serialization]: the little-endian codec traits, their primitive,
    [Vec] and field-element implementations, and the interface
    [LawfulCodec] (round trip, size, canonicity, validity) that every
    implementation in the development discharges.

    The writer is a byte vector ([Vec<u8>]), which never fails; the reader is
    the list of bytes that are left. *)

From S2P Require Import Prelude Field.

Definition DEFAULT_MAX_SEQUENCE_LEN : Z := Z.shiftl 1 25.

Inductive Compress := CompressYes | CompressNo.
Inductive Validate := ValidateYes | ValidateNo.

(** [SerializationError]; [IoError] stands for an [UnexpectedEof]. *)
Inductive SerializationError :=
  | IoError
  | InvalidData (msg : string)
  | UnexpectedData
  | LengthLimitExceeded (len max : Z).

Abbreviation sresult := (outcome SerializationError).

#[export] Instance Validate_eq_dec : EqDecision Validate.
Proof. solve_decision. Defined.

(** * The traits *)

Class Valid (A : Type) := check : A -> sresult unit.

Class AkitaSerialize (A : Type) := {
  serialize_with_mode : A -> Compress -> sresult (list Z);
  serialized_size : A -> Compress -> Z;
}.

Class AkitaDeserialize (A Ctx : Type) :=
  deserialize_with_mode : list Z -> Compress -> Validate -> Ctx -> sresult (A * list Z).

(** [Valid::batch_check], and [check] of a sequence. *)
Definition batch_check {A} `{Valid A} (batch : list A) : sresult unit :=
  ofold (fun _ item => check item) batch tt.

(** Whether the allocator grants [Vec::try_reserve_exact(n)]: a service of the
    environment, so a parameter of the decoders that use it. *)
Class Allocator := reserve_exact : Z -> bool.

(** The provided methods of the two traits. *)
Definition serialize_compressed {A} `{AkitaSerialize A} (a : A) := serialize_with_mode a CompressYes.
Definition serialize_uncompressed {A} `{AkitaSerialize A} (a : A) := serialize_with_mode a CompressNo.
Definition compressed_size {A} `{AkitaSerialize A} (a : A) := serialized_size a CompressYes.
Definition uncompressed_size {A} `{AkitaSerialize A} (a : A) := serialized_size a CompressNo.

(** [deserialize_exact_with_mode]: the cursor must end at the last byte. *)
Definition deserialize_exact_with_mode {A Ctx} `{AkitaDeserialize A Ctx}
    (bytes : list Z) (compress : Compress) (validate : Validate) (ctx : Ctx) : sresult A :=
  let* (value, rest) := deserialize_with_mode bytes compress validate ctx in
  if negb (len bytes - len rest =? len bytes) then Err UnexpectedData else Ok value.

Definition deserialize_compressed_exact {A Ctx} `{AkitaDeserialize A Ctx}
    (bytes : list Z) (ctx : Ctx) : sresult A :=
  deserialize_exact_with_mode bytes CompressYes ValidateYes ctx.

(** [Read::read_exact] into an [n]-byte buffer. *)
Definition read_exact (n : nat) (input : list Z) : sresult (list Z * list Z) :=
  if Nat.leb n (length input) then Ok (take n input, drop n input) else Err IoError.

(** [if matches!(validate, Validate::Yes) { out.check()?; } Ok(out)] *)
Definition checked_out {A} `{Valid A} (validate : Validate) (out : A) : sresult A :=
  match validate with
  | ValidateYes => let* _ := check out in Ok out
  | ValidateNo => Ok out
  end.

(** Reading [n] items in sequence. *)
Fixpoint read_items {A Ctx} `{AkitaDeserialize A Ctx} (compress : Compress)
    (validate : Validate) (ctxs : list Ctx) (input : list Z) : sresult (list A * list Z) :=
  match ctxs with
  | [] => Ok ([], input)
  | ctx :: ctxs =>
      let* (item, input) := deserialize_with_mode input compress validate ctx in
      let* (items, input) := read_items compress validate ctxs input in
      Ok (item :: items, input)
  end.

(** Writing items in sequence. *)
Fixpoint write_items {A} `{AkitaSerialize A} (items : list A) (compress : Compress)
  : sresult (list Z) :=
  match items with
  | [] => Ok []
  | item :: items =>
      let* b := serialize_with_mode item compress in
      let* bs := write_items items compress in
      Ok (b ++ bs)
  end.

Definition items_size {A} `{AkitaSerialize A} (items : list A) (compress : Compress) : Z :=
  foldr (fun item acc => serialized_size item compress + acc) 0 items.

(** * Primitive implementations *)

(** An unsigned [n]-byte integer.  The wrapper types keep one implementation
    of the traits per Rust type. *)
Record uint (n : nat) := U { u_val : Z }.
Record sint (n : nat) := S_ { s_val : Z }.
Arguments U {n}. Arguments u_val {n}. Arguments S_ {n}. Arguments s_val {n}.

Abbreviation u8 := (uint 1).
Abbreviation u16 := (uint 2).
Abbreviation u32 := (uint 4).
Abbreviation u64 := (uint 8).
Abbreviation u128 := (uint 16).

#[export] Instance uint_Valid n : Valid (uint n) := fun _ => Ok tt.
#[export] Instance uint_Serialize n : AkitaSerialize (uint n) := {
  serialize_with_mode x _ := Ok (to_le_bytes n (u_val x));
  serialized_size _ _ := Z.of_nat n;
}.
#[export] Instance uint_Deserialize n : AkitaDeserialize (uint n) unit :=
  fun input _ _ _ =>
    let* (bytes, rest) := read_exact n input in
    Ok (U (from_le_bytes bytes), rest).

Definition sint_bits (n : nat) : Z := 8 * Z.of_nat n.

#[export] Instance sint_Valid n : Valid (sint n) := fun _ => Ok tt.
#[export] Instance sint_Serialize n : AkitaSerialize (sint n) := {
  serialize_with_mode x _ := Ok (to_le_bytes n (uwrap (sint_bits n) (s_val x)));
  serialized_size _ _ := Z.of_nat n;
}.
#[export] Instance sint_Deserialize n : AkitaDeserialize (sint n) unit :=
  fun input _ _ _ =>
    let* (bytes, rest) := read_exact n input in
    Ok (S_ (swrap (sint_bits n) (from_le_bytes bytes)), rest).

(** [usize] travels as a [u64]. *)
Record usize_t := Usize { usize_val : Z }.

#[export] Instance usize_Valid : Valid usize_t := fun _ => Ok tt.
#[export] Instance usize_Serialize : AkitaSerialize usize_t := {
  serialize_with_mode x c := serialize_with_mode (U (n := 8) (uwrap 64 (usize_val x))) c;
  serialized_size _ _ := 8;
}.
#[export] Instance usize_Deserialize : AkitaDeserialize usize_t unit :=
  fun input c v _ =>
    let* (val, rest) := deserialize_with_mode (A := u64) input c v tt in
    let* x := ok_or (usize (u_val val)) (LengthLimitExceeded (u_val val) USIZE_MAX) in
    Ok (Usize x, rest).

#[export] Instance bool_Valid : Valid bool := fun _ => Ok tt.
#[export] Instance bool_Serialize : AkitaSerialize bool := {
  serialize_with_mode x _ := Ok [if x : bool then 1 else 0];
  serialized_size _ _ := 1;
}.
#[export] Instance bool_Deserialize : AkitaDeserialize bool unit :=
  fun input _ _ _ =>
    let* (bytes, rest) := read_exact 1 input in
    match bytes with
    | [byte] =>
        if byte =? 0 then Ok (false, rest)
        else if byte =? 1 then Ok (true, rest)
        else Err (InvalidData "Invalid bool value")
    | _ => Panic
    end.

(** * Vectors *)

Definition checked_vec_len (len : Z) (validate : Validate) : sresult Z :=
  let* len_usize := ok_or (usize len) (LengthLimitExceeded len USIZE_MAX) in
  if bool_decide (validate = ValidateYes) && (DEFAULT_MAX_SEQUENCE_LEN <? len_usize)
  then Err (LengthLimitExceeded len DEFAULT_MAX_SEQUENCE_LEN)
  else Ok len_usize.

#[export] Instance list_Valid {A} `{Valid A} : Valid (list A) := batch_check.

#[export] Instance list_Serialize {A} `{AkitaSerialize A} : AkitaSerialize (list A) := {
  serialize_with_mode items c :=
    let* n := serialize_with_mode (U (n := 8) (uwrap 64 (len items))) c in
    let* bs := write_items items c in
    Ok (n ++ bs);
  serialized_size items c := 8 + items_size items c;
}.

#[export] Instance list_Deserialize {A} `{AkitaDeserialize A unit}
  : AkitaDeserialize (list A) unit :=
  fun input c v _ =>
    let* (encoded_len, input) := deserialize_with_mode (A := u64) input c v tt in
    let* n := checked_vec_len (u_val encoded_len) v in
    read_items c v (replicate (Z.to_nat n) tt) input.

(** * Field elements *)

(** A prime-field element ([Fp32], [Fp64], [Fp128]); [n] is the byte width of
    its modulus type. *)
Record fp (n : nat) (E : Type) := Fp { fp_val : E }.
Arguments Fp {n E}. Arguments fp_val {n E}.

Definition fp_name (n : nat) : string :=
  match n with 4%nat => "Fp32" | 8%nat => "Fp64" | _ => "Fp128" end.
Definition out_of_range (n : nat) : SerializationError :=
  InvalidData (String.append (fp_name n) " out of range").

Section prime_field.
Context {E : Type} `{CanonicalEncoding E} {n : nat}.

#[export] Instance fp_Valid : Valid (fp n E) := fun x =>
  if to_canonical (fp_val x) <? modulus E then Ok tt else Err (out_of_range n).

#[export] Instance fp_Serialize : AkitaSerialize (fp n E) := {
  serialize_with_mode x _ :=
    serialize_with_mode (U (n := n) (to_canonical (fp_val x))) CompressNo;
  serialized_size _ _ := Z.of_nat n;
}.

#[export] Instance fp_Deserialize : AkitaDeserialize (fp n E) unit := fun input _ v _ =>
  let* (value, rest) := deserialize_with_mode (A := uint n) input CompressNo v tt in
  let value := u_val value in
  if bool_decide (v = ValidateYes) && (modulus E <=? value) then Err (out_of_range n)
  else
    match v with
    | ValidateYes =>
        let* e := ok_or (from_u128_checked value) (out_of_range n) in Ok (Fp e, rest)
    | ValidateNo => Ok (Fp (from_u128_reduced value), rest)
    end.
End prime_field.

(** An extension-field element of degree [d] ([FpExt2], [FpExt4], [FpExt8]):
    [d] coefficients in sequence and a validity check at the end. *)
Record ext (d : nat) (E : Type) := Ext { ext_coeffs : list E }.
Arguments Ext {d E}. Arguments ext_coeffs {d E}.

Section extension_field.
Context {E : Type} `{Valid E, AkitaSerialize E, AkitaDeserialize E unit} {d : nat}.

#[export] Instance ext_Valid : Valid (ext d E) := fun x => batch_check (ext_coeffs x).

#[export] Instance ext_Serialize : AkitaSerialize (ext d E) := {
  serialize_with_mode x c := write_items (ext_coeffs x) c;
  serialized_size x c := items_size (ext_coeffs x) c;
}.

#[export] Instance ext_Deserialize : AkitaDeserialize (ext d E) unit := fun input c v _ =>
  let* (coefficients, rest) := read_items c v (replicate d tt) input in
  let* value := checked_out v (Ext coefficients) in
  Ok (value, rest).
End extension_field.

(** * The codec interface

    [codec_wf ctx a] says that [a] has the shape described by the context
    (and, under validation, passes [check]). *)

Class LawfulCodec (A Ctx : Type)
    `{Valid A, AkitaSerialize A, AkitaDeserialize A Ctx} := {
  codec_wf : Validate -> Ctx -> A -> Prop;
  (** Serializing a well-formed value succeeds and has the announced size. *)
  codec_total v ctx a c :
    codec_wf v ctx a -> exists bs, serialize_with_mode a c = Ok bs /\
      Forall is_byte bs /\ len bs = serialized_size a c;
  (** Decoding inverts encoding and leaves the following bytes untouched. *)
  codec_roundtrip v ctx a c bs rest :
    codec_wf v ctx a -> serialize_with_mode a c = Ok bs ->
    deserialize_with_mode (bs ++ rest) c v ctx = Ok (a, rest);
  (** A validated decode yields a well-formed value whose encoding is exactly
      the consumed prefix: encodings are canonical. *)
  codec_canonical ctx a c input rest :
    Forall is_byte input ->
    deserialize_with_mode input c ValidateYes ctx = Ok (a, rest) ->
    codec_wf ValidateYes ctx a /\ check a = Ok tt /\
    exists bs, serialize_with_mode a c = Ok bs /\ input = bs ++ rest;
}.

Lemma Ok_inj {E A} (a b : A) : Ok (E := E) a = Ok b -> a = b.
Proof. congruence. Qed.

(** * Sequences of lawful items *)

Section items.
Context {A Ctx : Type} `{LawfulCodec A Ctx}.

Lemma batch_check_Ok (l : list A) :
  batch_check l = Ok tt <-> Forall (fun a => check a = Ok tt) l.
Proof.
  unfold batch_check. induction l as [|a l IH]; cbn [ofold]; [done|].
  rewrite Forall_cons_iff, <-IH. split.
  - intros Hb. obind_inv Hb. by destruct a0.
  - intros [-> ?]. done.
Qed.

Lemma write_items_total v ctxs items c :
  Forall2 (codec_wf v) ctxs items ->
  exists bs, write_items items c = Ok bs /\ Forall is_byte bs /\ len bs = items_size items c.
Proof.
  induction 1 as [|ctx item ctxs items Hi _ (bs & Hw & Hb & Hl)]; cbn [write_items items_size foldr].
  - exists []. by repeat split.
  - destruct (codec_total v ctx item c Hi) as (b & -> & Hb1 & Hl1). rewrite Hw.
    exists (b ++ bs). split; [done|]. split; [by apply Forall_app|].
    fold (items_size items c). unfold len in *. rewrite length_app. lia.
Qed.

Lemma read_items_roundtrip v ctxs items c bs rest :
  Forall2 (codec_wf v) ctxs items -> write_items items c = Ok bs ->
  read_items c v ctxs (bs ++ rest) = Ok (items, rest).
Proof.
  intros Hf; revert bs; induction Hf as [|ctx item ctxs items Hi _ IH]; intros bs Hw.
  - cbn in Hw. by injection Hw as <-.
  - cbn [write_items] in Hw. obind_inv Hw. obind_inv Hw. injection Hw as <-.
    cbn [read_items]. rewrite <-app_assoc.
    rewrite (codec_roundtrip v ctx item c a (a0 ++ rest)) by done. cbn [obind].
    by rewrite IH.
Qed.

Lemma read_items_canonical ctxs items c input rest :
  Forall is_byte input -> read_items c ValidateYes ctxs input = Ok (items, rest) ->
  Forall2 (codec_wf ValidateYes) ctxs items /\
  Forall (fun a => check a = Ok tt) items /\
  exists bs, write_items items c = Ok bs /\ input = bs ++ rest.
Proof.
  revert input items; induction ctxs as [|ctx ctxs IH]; intros input items Hb Hr.
  - cbn in Hr. injection Hr as <- <-. split; [constructor|]. split; [constructor|].
    by exists [].
  - cbn [read_items] in Hr. obind_inv Hr. destruct a as [a input1]. cbn [obind] in Hr.
    obind_inv Hr. destruct a0 as [as_ input2]. cbn [obind] in Hr. injection Hr as <- <-.
    apply codec_canonical in E as (Hw & Hc & b & Hs & ->); [|done].
    apply Forall_app in Hb as [_ Hb].
    apply IH in E0 as (Hws & Hcs & bs & Hss & ->); [|done].
    split; [by constructor|]. split; [by constructor|].
    exists (b ++ bs). cbn [write_items]. rewrite Hs, Hss. by rewrite app_assoc.
Qed.

(** A headerless container: its items in sequence, then a validity check. *)
Lemma headerless_roundtrip {B} `{Valid B} (mk : list A -> B) v ctxs items c bs rest :
  Forall2 (codec_wf v) ctxs items -> (v = ValidateYes -> check (mk items) = Ok tt) ->
  write_items items c = Ok bs ->
  (let* (l, r) := read_items c v ctxs (bs ++ rest) in
   let* out := checked_out v (mk l) in Ok (out, r)) = Ok (mk items, rest).
Proof.
  intros Hw Hc Hs. rewrite (read_items_roundtrip v ctxs items c bs rest Hw Hs). cbn [obind].
  destruct v; cbn [checked_out]; [by rewrite Hc | done].
Qed.

Lemma headerless_canonical {B} `{Valid B} (mk : list A -> B) ctxs c input b rest :
  Forall is_byte input ->
  (let* (l, r) := read_items c ValidateYes ctxs input in
   let* out := checked_out ValidateYes (mk l) in Ok (out, r)) = Ok (b, rest) ->
  exists items, b = mk items /\ Forall2 (codec_wf ValidateYes) ctxs items /\
    check (mk items) = Ok tt /\
    exists bs, write_items items c = Ok bs /\ input = bs ++ rest.
Proof.
  intros Hb Hd. obind_inv Hd. destruct a as [l r]. cbn [obind checked_out] in Hd.
  obind_inv Hd. obind_inv E0. destruct a0. injection E0 as <-. injection Hd as <- ->.
  apply read_items_canonical in E as (Hw & _ & Hbs); [|done]. by exists l.
Qed.

Lemma Forall2_replicate_l {B} (P : B -> A -> Prop) b n items :
  Forall2 P (replicate n b) items <-> length items = n /\ Forall (P b) items.
Proof.
  split.
  - intros Hf. pose proof (Forall2_length Hf) as Hl. rewrite length_replicate in Hl.
    split; [done|]. revert items Hf Hl. induction n as [|n IH]; intros items Hf Hl;
      inversion Hf; subst; constructor; [done|]. by apply IH; [|cbn in Hl; lia].
  - intros [<- Hf]. induction Hf; cbn; by constructor.
Qed.
End items.

(** * Lawful instances *)

Lemma read_exact_app n bs rest :
  length bs = n -> read_exact n (bs ++ rest) = Ok (bs, rest).
Proof.
  intros <-. unfold read_exact. rewrite length_app.
  replace (Nat.leb _ _) with true by (symmetry; apply Nat.leb_le; lia).
  by rewrite take_app_length, drop_app_length.
Qed.

Lemma read_exact_Ok n input bs rest :
  read_exact n input = Ok (bs, rest) -> input = bs ++ rest /\ length bs = n.
Proof.
  unfold read_exact. destruct (Nat.leb_spec n (length input)); [|done].
  intros [= <- <-]. rewrite take_drop, length_take. split; [done|lia].
Qed.

#[export, refine] Instance uint_Lawful n : LawfulCodec (uint n) unit := {
  codec_wf _ _ x := in_u (8 * Z.of_nat n) (u_val x);
}.
Proof.
  - intros v ctx [x] c Hx. eexists; split; [done|]. split; [apply to_le_bytes_bytes|].
    unfold len. by rewrite length_to_le_bytes.
  - intros v ctx [x] c bs rest Hx [= <-]. unfold deserialize_with_mode, uint_Deserialize.
    rewrite read_exact_app by apply length_to_le_bytes. cbn [obind u_val].
    rewrite from_to_le_bytes, Z.mod_small by done. done.
  - intros ctx [x] c input rest Hb Hd. unfold deserialize_with_mode, uint_Deserialize in Hd.
    obind_inv Hd. destruct a as [bs r].
    injection Hd as <- <-. apply read_exact_Ok in E as [-> Hl].
    apply Forall_app in Hb as [Hb _]. pose proof (from_le_bytes_bound bs Hb) as Hr.
    cbn in *. unfold len in Hr. rewrite Hl in Hr. split; [done|]. split; [done|].
    exists bs. split; [|done]. f_equal. rewrite <-Hl. by apply to_from_le_bytes.
Defined.

Lemma uwrap_swrap w z : 0 < w -> in_u w z -> uwrap w (swrap w z) = z.
Proof.
  intros Hw Hz. unfold uwrap, swrap. rewrite Zminus_mod_idemp_l.
  replace (z + 2 ^ (w - 1) - 2 ^ (w - 1)) with z by lia. by apply Z.mod_small.
Qed.

#[export, refine] Instance sint_Lawful n : LawfulCodec (sint (S n)) unit := {
  codec_wf _ _ x := in_s (sint_bits (S n)) (s_val x);
}.
Proof.
  - intros v ctx [x] c Hx. eexists; split; [done|]. split; [apply to_le_bytes_bytes|].
    unfold len. by rewrite length_to_le_bytes.
  - intros v ctx [x] c bs rest Hx Hs. apply Ok_inj in Hs as <-.
    unfold deserialize_with_mode, sint_Deserialize.
    rewrite read_exact_app by apply length_to_le_bytes. cbn [obind s_val].
    rewrite from_to_le_bytes. fold (sint_bits (S n)). fold (uwrap (sint_bits (S n)) (uwrap (sint_bits (S n)) x)).
    rewrite uwrap_id by (apply uwrap_in; unfold sint_bits; lia).
    rewrite swrap_uwrap by (done || unfold sint_bits; lia). done.
  - intros ctx [x] c input rest Hb Hd. unfold deserialize_with_mode, sint_Deserialize in Hd.
    obind_inv Hd. destruct a as [bs r].
    injection Hd as <- <-. apply read_exact_Ok in E as [-> Hl].
    apply Forall_app in Hb as [Hb _]. pose proof (from_le_bytes_bound bs Hb) as Hr.
    unfold len in Hr. rewrite Hl in Hr. fold (sint_bits (S n)) in Hr.
    cbn [s_val]. split; [apply swrap_in; unfold sint_bits; lia|]. split; [done|].
    exists bs. split; [|done]. unfold serialize_with_mode, sint_Serialize. cbn [s_val].
    rewrite uwrap_swrap by (done || unfold sint_bits; lia). f_equal. rewrite <-Hl at 1.
    by apply to_from_le_bytes.
Defined.

#[export, refine] Instance usize_Lawful : LawfulCodec usize_t unit := {
  codec_wf _ _ x := in_u 64 (usize_val x);
}.
Proof.
  - intros v ctx [x] c Hx. eexists; split; [done|]. split; [apply to_le_bytes_bytes|done].
  - intros v ctx [x] c bs rest Hx Hs. unfold deserialize_with_mode, usize_Deserialize.
    cbn [usize_val] in Hx. unfold serialize_with_mode, usize_Serialize in Hs. cbn [usize_val] in Hs.
    rewrite uwrap_id in Hs by done.
    rewrite (codec_roundtrip (LawfulCodec := uint_Lawful 8) v tt (U x) c bs rest Hx Hs). cbn [obind u_val].
    unfold usize. by rewrite checked_u_in.
  - intros ctx [x] c input rest Hb Hd. unfold deserialize_with_mode, usize_Deserialize in Hd.
    obind_inv Hd. destruct a as [[y] r]. cbn [obind] in Hd. obind_inv Hd. injection Hd as -> ->.
    apply (codec_canonical (A := u64)) in E as (Hw & _ & bs & Hs & ->); [|done].
    unfold ok_or in E0. destruct (usize _) eqn:Eu; [|done]. injection E0 as ->.
    apply checked_u_Some in Eu as [Hu ->]. cbn [u_val] in *.
    split; [done|]. split; [done|]. exists bs. split; [|done].
    unfold serialize_with_mode, usize_Serialize. cbn [usize_val]. by rewrite uwrap_id.
Defined.

#[export, refine] Instance bool_Lawful : LawfulCodec bool unit := {
  codec_wf _ _ _ := True;
}.
Proof.
  - intros v ctx [] c _; eexists; (split; [done|]); split; [by repeat constructor|done
                                                           |by repeat constructor|done].
  - by intros v ctx [] c bs rest _ [= <-].
  - intros ctx b c input rest Hb Hd. unfold deserialize_with_mode, bool_Deserialize in Hd.
    obind_inv Hd. destruct a as [bs r]. apply read_exact_Ok in E as [-> Hl].
    destruct bs as [|byte [|]]; [done| |done]. cbn [obind] in Hd.
    destruct (Z.eqb_spec byte 0) as [->|]; [injection Hd as <- <-|].
    { split; [done|]. split; [done|]. by exists [0]. }
    destruct (Z.eqb_spec byte 1) as [->|]; [injection Hd as <- <-|done].
    split; [done|]. split; [done|]. by exists [1].
Defined.

(** ** Vectors *)

Lemma checked_vec_len_Ok n v m :
  checked_vec_len n v = Ok m <->
  m = n /\ in_u 64 n /\ (v = ValidateYes -> n <= DEFAULT_MAX_SEQUENCE_LEN).
Proof.
  unfold checked_vec_len. unfold ok_or. destruct (usize n) as [x|] eqn:E; cbn [obind].
  - apply checked_u_Some in E as [Hn ->]. destruct v;
      [rewrite bool_decide_eq_true_2 by done | rewrite bool_decide_eq_false_2 by done];
      cbn [andb]; [destruct (Z.ltb_spec DEFAULT_MAX_SEQUENCE_LEN n)|].
    + split; [done|]. intros (_ & _ & Hle). specialize (Hle eq_refl). lia.
    + split; [intros [= <-]; split; [done|]; by split; [|intros _; lia] | by intros (-> & _)].
    + split; [intros [= <-]; split; [done|]; by split | by intros (-> & _)].
  - apply checked_u_None in E. split; [done | by intros (_ & ? & _)].
Qed.

Lemma Forall2_unit_replicate {A} (P : unit -> A -> Prop) (items : list A) :
  Forall (P tt) items -> Forall2 P (replicate (length items) tt) items.
Proof. intros. by apply Forall2_replicate_l. Qed.

Section list_codec.
Context {A : Type} `{LawfulCodec A unit}.

#[export, refine] Instance list_Lawful : LawfulCodec (list A) unit := {
  codec_wf v _ items :=
    len items < 2 ^ 64 /\
    (v = ValidateYes -> len items <= DEFAULT_MAX_SEQUENCE_LEN) /\
    Forall (codec_wf v tt) items;
}.
Proof.
  - intros v ctx items c (Hl & _ & Hi). unfold serialize_with_mode, list_Serialize.
    cbn [serialize_with_mode uint_Serialize obind].
    destruct (write_items_total v (replicate (length items) tt) items c) as (bs & -> & Hb & Hs);
      [by apply Forall2_unit_replicate|]. cbn [obind].
    eexists; split; [done|]. split; [by apply Forall_app; split; [apply to_le_bytes_bytes|]|].
    unfold len in *. rewrite length_app, length_to_le_bytes.
    cbn [serialized_size]. lia.
  - intros v ctx items c bs rest (Hl & Hmax & Hi) Hs.
    unfold serialize_with_mode, list_Serialize in Hs. obind_inv Hs. obind_inv Hs.
    apply Ok_inj in Hs as <-. unfold deserialize_with_mode, list_Deserialize.
    assert (Hu : in_u 64 (len items)) by (split; [unfold len; lia | done]).
    rewrite uwrap_id in E by done. rewrite <-app_assoc.
    rewrite (codec_roundtrip (LawfulCodec := uint_Lawful 8) v tt (U (len items)) c a (a0 ++ rest) Hu E).
    cbn [obind u_val]. rewrite (proj2 (checked_vec_len_Ok (len items) v (len items)));
      [|by (split; [done|]; split)]. cbn [obind].
    replace (Z.to_nat (len items)) with (length items) by (unfold len; lia).
    apply read_items_roundtrip; [by apply Forall2_unit_replicate | done].
  - intros ctx items c input rest Hb Hd. unfold deserialize_with_mode, list_Deserialize in Hd.
    obind_inv Hd. destruct a as [[n] input1]. cbn [obind] in Hd. obind_inv Hd.
    apply checked_vec_len_Ok in E0 as (-> & Hu & Hmax). cbn [u_val] in *.
    apply (codec_canonical (LawfulCodec := uint_Lawful 8)) in E as (_ & _ & b & Hs & ->); [|done].
    apply Forall_app in Hb as [_ Hb].
    apply read_items_canonical in Hd as (Hw & Hc & bs & Hws & ->); [|done].
    apply Forall2_replicate_l in Hw as [Hlen Hw].
    assert (Hln : len items = n) by (unfold len, in_u in *; lia). rewrite Hln.
    split; [split; [apply Hu|]; by split|]. split; [by apply batch_check_Ok|].
    exists (b ++ bs). split; [|by rewrite app_assoc].
    unfold serialize_with_mode, list_Serialize. rewrite Hln, uwrap_id by done.
    rewrite Hs. cbn [obind]. by rewrite Hws.
Defined.
End list_codec.

(** ** Field elements *)

Section field_codec.
Context {E : Type} `{CanonicalLaws E} (n : nat) (Hmod : modulus E <= 2 ^ (8 * Z.of_nat n)).

Lemma fp_check_Ok (x : fp n E) : check x = Ok tt.
Proof.
  unfold check, fp_Valid. pose proof (to_canonical_range (fp_val x)).
  by destruct (Z.ltb_spec (to_canonical (fp_val x)) (modulus E)); [|lia].
Qed.

Lemma fp_wf_uint (e : E) : in_u (8 * Z.of_nat n) (to_canonical e).
Proof. pose proof (to_canonical_range e). unfold in_u. lia. Qed.

#[export, refine] Instance fp_Lawful : LawfulCodec (fp n E) unit := {
  codec_wf _ _ _ := True;
}.
Proof.
  - intros v ctx [e] c _.
    destruct (codec_total (LawfulCodec := uint_Lawful n) v tt (U (to_canonical e)) CompressNo)
      as (bs & Hs & Hb & Hl); [apply fp_wf_uint|]. by exists bs.
  - intros v ctx [e] c bs rest _ Hs. unfold deserialize_with_mode, fp_Deserialize.
    rewrite (codec_roundtrip (LawfulCodec := uint_Lawful n) v tt (U (to_canonical e))
               CompressNo bs rest (fp_wf_uint e) Hs). cbn [obind u_val].
    pose proof (to_canonical_range e) as [Hlo Hhi].
    destruct (Z.leb_spec (modulus E) (to_canonical e)); [lia|]. rewrite andb_false_r.
    destruct v.
    + rewrite (proj2 (from_checked_spec _ e Hlo)); done.
    + do 2 f_equal. f_equal. apply to_canonical_inj.
      rewrite from_reduced_spec by done. by apply Z.mod_small.
  - intros ctx [e] c input rest Hb Hd. unfold deserialize_with_mode, fp_Deserialize in Hd.
    obind_inv Hd. destruct a as [[z] r]. cbn [obind u_val] in Hd.
    destruct (_ && _)%bool; [done|]. obind_inv Hd. injection Hd as -> ->.
    apply (codec_canonical (LawfulCodec := uint_Lawful n)) in E0 as (Hw & _ & bs & Hs & ->); [|done].
    unfold ok_or in E1. destruct (from_u128_checked z) as [e'|] eqn:Ez; [|done].
    injection E1 as ->. apply from_checked_spec in Ez as [_ Hz]; [|apply Hw].
    split; [done|]. split; [apply fp_check_Ok|]. exists bs. split; [|done].
    unfold serialize_with_mode, fp_Serialize. cbn [fp_val]. by rewrite Hz.
Defined.
End field_codec.

Section ext_codec.
Context {E : Type} `{LawfulCodec E unit} (d : nat).

(** Under validation the final check must succeed as well; it does for
    lawful coefficients that were themselves decoded. *)
#[export, refine] Instance ext_Lawful : LawfulCodec (ext d E) unit := {
  codec_wf v _ x :=
    length (ext_coeffs x) = d /\ Forall (codec_wf v tt) (ext_coeffs x) /\
    (v = ValidateYes -> check x = Ok tt);
}.
Proof.
  - intros v ctx [l] c (Hl & Hi & _). cbn [ext_coeffs] in *.
    apply (write_items_total v (replicate d tt)). by apply Forall2_replicate_l.
  - intros v ctx [l] c bs rest (Hl & Hi & Hc) Hs. cbn [ext_coeffs] in *.
    apply (headerless_roundtrip Ext); [by apply Forall2_replicate_l|done..].
  - intros ctx a c input rest Hb Hd.
    apply (headerless_canonical Ext) in Hd as (l & -> & Hw & Hc & Hbs); [|done].
    by apply Forall2_replicate_l in Hw as [Hl Hw].
Defined.
End ext_codec.

(** * Properties *)

(** for every lawful type, exact validated decoding is the inverse of
    encoding: a complete artifact decodes to [a] exactly when [a] is
    well-formed and the artifact is the encoding of [a]; trailing bytes and
    alternative encodings are rejected. *)
Theorem deserialize_exact_iff {A Ctx} `{LawfulCodec A Ctx} (bytes : list Z) (ctx : Ctx) (a : A) :
  Forall is_byte bytes ->
  deserialize_compressed_exact bytes ctx = Ok a <->
  codec_wf ValidateYes ctx a /\ serialize_compressed a = Ok bytes.
Proof.
  intros Hb. unfold deserialize_compressed_exact, deserialize_exact_with_mode, serialize_compressed.
  split.
  - intros Hd. obind_inv Hd. destruct a0 as [a' rest]. cbn [obind] in Hd.
    destruct (Z.eqb_spec (len bytes - len rest) (len bytes)) as [He|]; [|done].
    injection Hd as ->. apply codec_canonical in E as (Hw & _ & bs & Hs & ->); [|done].
    split; [done|]. destruct rest; [by rewrite app_nil_r|]. unfold len in He. cbn in He. lia.
  - intros [Hw Hs].
    pose proof (codec_roundtrip ValidateYes ctx a CompressYes bytes [] Hw Hs) as Hd.
    rewrite app_nil_r in Hd. rewrite Hd. cbn [obind]. unfold len. cbn [length].
    by rewrite Z.sub_0_r, Z.eqb_refl.
Qed.

Lemma deserialize_exact_iff_witness :
  deserialize_compressed_exact [2; 0; 0; 0; 0; 0; 0; 0; 1; 0] tt = Ok [true; false].
Proof.
  apply (deserialize_exact_iff (A := list bool) [2; 0; 0; 0; 0; 0; 0; 0; 1; 0] tt [true; false]).
  - repeat constructor; lia.
  - split; [|reflexivity]. split; [done|]. split; [intros _; vm_compute; discriminate|].
    repeat constructor.
Defined.

(** vectors of field elements: every vector up to the sequence limit
    survives a validated round trip with any bytes following it, its encoding
    has the announced size, and whatever the validated decoder accepts is in
    canonical range and re-encodes to the bytes consumed. *)
Theorem field_vec_codec {E} `{CanonicalLaws E} (n : nat) (values : list (fp n E)) rest :
  modulus E <= 2 ^ (8 * Z.of_nat n) -> len values <= DEFAULT_MAX_SEQUENCE_LEN ->
  (exists bytes, serialize_compressed values = Ok bytes /\
     len bytes = compressed_size values /\
     deserialize_with_mode (bytes ++ rest) CompressYes ValidateYes tt = Ok (values, rest)) /\
  (forall input values' rest', Forall is_byte input ->
     deserialize_with_mode (A := list (fp n E)) input CompressYes ValidateYes tt
       = Ok (values', rest') ->
     exists bytes, serialize_compressed values' = Ok bytes /\ input = bytes ++ rest').
Proof.
  intros Hmod Hlen. pose proof (fp_Lawful n Hmod) as Hfp. split.
  - assert (Hw : codec_wf (LawfulCodec := list_Lawful (H2 := fp_Lawful n Hmod)) ValidateYes tt values).
    { split; [unfold DEFAULT_MAX_SEQUENCE_LEN in Hlen; change (Z.shiftl 1 25) with (2 ^ 25) in Hlen; lia|].
      split; [done|]. by apply Forall_forall. }
    destruct (codec_total ValidateYes tt values CompressYes Hw) as (bytes & Hs & _ & Hl).
    exists bytes. split; [exact Hs|]. split; [exact Hl|].
    exact (codec_roundtrip ValidateYes tt values CompressYes bytes rest Hw Hs).
  - intros input values' rest' Hb Hd.
    apply (codec_canonical (LawfulCodec := list_Lawful (H2 := fp_Lawful n Hmod))) in Hd
      as (_ & _ & Hx); done.
Qed.

Lemma field_vec_codec_witness :
  exists bytes, serialize_compressed [Fp (n := 4) (F97.of_Z 5)] = Ok bytes.
Proof.
  destruct (field_vec_codec 4 [Fp (F97.of_Z 5)] []) as [(b & Hb & _) _];
    [vm_compute; discriminate|vm_compute; discriminate|]. by exists b.
Defined.
