(* ===== verification/UniPoly.v ===== *)
(** [akita-algebra/src/uni_poly.rs]: dense and compressed univariate
    polynomials over a field, their evaluation, the recovery of the omitted
    linear term, interpolation from equispaced points, and their codecs. *)

From S2P Require Import Prelude Field Serialization.
Local Open Scope field_scope.

Record UniPoly (E : Type) := { coeffs : list E }.
Arguments coeffs {E}. Arguments Build_UniPoly {E}.
Record CompressedUniPoly (E : Type) := { coeffs_except_linear_term : list E }.
Arguments coeffs_except_linear_term {E}. Arguments Build_CompressedUniPoly {E}.

Module UniPoly.
Section ops.
Context {E : Type} `{Field E}.

Definition from_coeffs (l : list E) : UniPoly E := {| coeffs := l |}.

Definition degree (p : UniPoly E) : Z := saturating_sub (len (coeffs p)) 1.

(** Horner's rule over the reversed coefficients. *)
Definition evaluate (p : UniPoly E) (x : E) : E :=
  foldl (fun acc c => acc * x + c) 0 (rev (coeffs p)).

Definition compress (p : UniPoly E) : CompressedUniPoly E :=
  match coeffs p with
  | [] => {| coeffs_except_linear_term := [] |}
  | [c0] => {| coeffs_except_linear_term := [c0] |}
  | c0 :: _ :: rest => {| coeffs_except_linear_term := c0 :: rest |}
  end.

(** One pass of the forward-difference table:
    [table[j] = table[j + 1] - table[j]] for increasing [j], then [pop]. *)
Fixpoint diff_row (table : list E) : list E :=
  match table with
  | a :: ((b :: _) as tl) => (b - a) :: diff_row tl
  | _ => []
  end.

(** [deltas]: the heads of the successive rows, [n - 1] passes. *)
Fixpoint delta_loop (n : nat) (table : list E) : list E :=
  match n with
  | O => []
  | S n =>
      let table := diff_row table in
      match table with
      | [] => []
      | d :: _ => d :: delta_loop n table
      end
  end.

(** The divided differences: [delta_k / k!] with a running factorial. *)
Fixpoint divided_loop {Er : Type} (k : Z) (factorial : E) (deltas : list E)
  : outcome Er (list E) :=
  match deltas with
  | [] => Ok []
  | delta_k :: deltas =>
      let factorial := factorial * from_u64 k in
      let* inv := unwrap (finverse factorial) in
      let* rest := divided_loop (k + 1)%Z factorial deltas in
      Ok (delta_k * inv :: rest)
  end.

(** [coeffs * (X - shift) + d], the inner loop of the Newton expansion. *)
Fixpoint newton_step (prev : E) (shift : E) (cs : list E) : list E :=
  match cs with
  | [] => [prev]
  | c :: cs => (prev - shift * c) :: newton_step c shift cs
  end.

(** The outer loop, [k] from [n - 2] down to [0]. *)
Fixpoint newton_expand (ks : list (Z * E)) (cs : list E) : list E :=
  match ks with
  | [] => cs
  | (k, d) :: ks => newton_expand ks (newton_step d (from_u64 k) cs)
  end.

(** [while coeffs.len() > 1 && last.is_zero() { pop }] *)
Fixpoint trim_rev (l : list E) : list E :=
  match l with
  | c :: ((_ :: _) as tl) => if feqb c 0 then trim_rev tl else l
  | _ => l
  end.
Definition trim (l : list E) : list E := rev (trim_rev (rev l)).

Definition from_evals {Er : Type} (evals : list E) : outcome Er (UniPoly E) :=
  match evals with
  | [] => Ok (from_coeffs [])
  | [e] => Ok (from_coeffs [e])
  | e0 :: _ =>
      let n := length evals in
      let deltas := delta_loop (n - 1) evals in
      let* tail := divided_loop 1 1 deltas in
      let divided_diffs := e0 :: tail in
      match rev (zip (seqZ 0 (Z.of_nat n)) divided_diffs) with
      | [] => Panic
      | (_, top) :: ks => Ok (from_coeffs (trim (newton_expand ks [top])))
      end
  end.
End ops.
End UniPoly.

Module CompressedUniPoly.
Section ops.
Context {E : Type} `{Field E}.

Definition degree (p : CompressedUniPoly E) : Z :=
  let len := len (coeffs_except_linear_term p) in
  if len <=? 1 then 0%Z else len.

Definition recover_linear_term (p : CompressedUniPoly E) (hint : E) : E :=
  match coeffs_except_linear_term p with
  | [] => 0
  | c0 :: rest => foldl (fun linear c => linear - c) (hint - c0 - c0) rest
  end.

Definition decompress (p : CompressedUniPoly E) (hint : E) : UniPoly E :=
  match coeffs_except_linear_term p with
  | [] => UniPoly.from_coeffs []
  | c0 :: rest => UniPoly.from_coeffs (c0 :: recover_linear_term p hint :: rest)
  end.

(** [acc] and [pow] of the evaluation loop. *)
Definition eval_from_hint (p : CompressedUniPoly E) (hint x : E) : E :=
  match coeffs_except_linear_term p with
  | [] => 0
  | c0 :: rest =>
      let linear := recover_linear_term p hint in
      fst (foldl (fun '(acc, pow) c => (acc + c * pow, pow * x))
             (c0 + x * linear, x * x) rest)
  end.
End ops.
End CompressedUniPoly.

(** ** Codecs: [UniPoly] is length-prefixed, [CompressedUniPoly] headerless *)

Section codecs.
Context {E : Type} `{Valid E, AkitaSerialize E, AkitaDeserialize E unit, Allocator}.

#[export] Instance UniPoly_Valid : Valid (UniPoly E) := fun p => check (coeffs p).
#[export] Instance UniPoly_Serialize : AkitaSerialize (UniPoly E) := {
  serialize_with_mode p c := serialize_with_mode (coeffs p) c;
  serialized_size p c := serialized_size (coeffs p) c;
}.
#[export] Instance UniPoly_Deserialize : AkitaDeserialize (UniPoly E) unit :=
  fun input c v _ =>
    let* (cs, rest) := deserialize_with_mode (A := list E) input c v tt in
    let* out := checked_out v {| coeffs := cs |} in
    Ok (out, rest).

#[export] Instance CompressedUniPoly_Valid : Valid (CompressedUniPoly E) :=
  fun p => check (coeffs_except_linear_term p).
#[export] Instance CompressedUniPoly_Serialize : AkitaSerialize (CompressedUniPoly E) := {
  serialize_with_mode p c := write_items (coeffs_except_linear_term p) c;
  serialized_size p c := items_size (coeffs_except_linear_term p) c;
}.
(** The context is the number of coefficients to read. *)
#[export] Instance CompressedUniPoly_Deserialize : AkitaDeserialize (CompressedUniPoly E) Z :=
  fun input c v degree =>
    if negb (reserve_exact degree)
    then Err (InvalidData "compressed polynomial allocation failed")
    else
      let* (cs, rest) := read_items c v (replicate (Z.to_nat degree) tt) input in
      let* out := checked_out v {| coeffs_except_linear_term := cs |} in
      Ok (out, rest).
End codecs.

(** * Evaluation *)

Section eval_lemmas.
Context {E : Type} `{FieldLaws E}.
Add Ring Ering : (field_ring (E := E)).

(** The reference value of a coefficient list: [c0 + x (c1 + x (...))]. *)
Fixpoint peval (l : list E) (x : E) : E :=
  match l with
  | [] => 0
  | c :: l => c + x * peval l x
  end.

Lemma horner_app l c x acc :
  foldl (fun acc c => acc * x + c) acc (l ++ [c])
  = foldl (fun acc c => acc * x + c) acc l * x + c.
Proof. by rewrite foldl_app. Qed.

Lemma evaluate_peval p x : UniPoly.evaluate p x = peval (coeffs p) x.
Proof.
  unfold UniPoly.evaluate. induction (coeffs p) as [|c l IH]; [done|].
  cbn [rev peval]. rewrite horner_app, IH. ring.
Qed.

Lemma peval_app l1 l2 x : peval (l1 ++ l2) x = peval l1 x + fpow x (length l1) * peval l2 x.
Proof.
  induction l1 as [|c l1 IH]; cbn [peval app length fpow]; [ring|]. rewrite IH. ring.
Qed.

Lemma peval_at_0 c l : peval (c :: l) 0 = c.
Proof. cbn [peval]. ring. Qed.

Lemma peval_at_1 l : peval l 1 = fsum l.
Proof.
  induction l as [|c l IH]; [done|]. cbn [peval]. rewrite IH, fsum_cons. ring.
Qed.

Lemma foldl_sub l a : foldl (fun linear c => linear - c) a l = a - fsum l.
Proof.
  revert a; induction l as [|c l IH]; intros a; cbn [foldl].
  - change (a = a - 0). ring.
  - rewrite IH, fsum_cons. ring.
Qed.

Lemma recover_linear_term_eq c0 rest hint :
  CompressedUniPoly.recover_linear_term {| coeffs_except_linear_term := c0 :: rest |} hint
  = hint - c0 - c0 - fsum rest.
Proof. cbn. apply foldl_sub. Qed.

Lemma pow_loop l acc pow x :
  foldl (fun '(acc, pow) c => (acc + c * pow, pow * x)) (acc, pow) l
  = (acc + pow * peval l x, pow * fpow x (length l)).
Proof.
  revert acc pow; induction l as [|c l IH]; intros acc pow; cbn [foldl peval length fpow].
  - f_equal; ring.
  - rewrite IH. f_equal; ring.
Qed.

Lemma eval_from_hint_decompress p hint x :
  CompressedUniPoly.eval_from_hint p hint x
  = peval (coeffs (CompressedUniPoly.decompress p hint)) x.
Proof.
  destruct p as [[|c0 rest]]; [done|]. unfold CompressedUniPoly.eval_from_hint.
  cbn [coeffs_except_linear_term CompressedUniPoly.decompress UniPoly.from_coeffs coeffs].
  rewrite pow_loop. cbn [fst peval]. ring.
Qed.

(** The recovered polynomial has the hinted sum over [{0, 1}]. *)
Lemma decompress_sum p hint :
  coeffs_except_linear_term p <> [] ->
  let g := CompressedUniPoly.decompress p hint in
  peval (coeffs g) 0 + peval (coeffs g) 1 = hint.
Proof.
  destruct p as [[|c0 rest]]; [done|]. intros _.
  cbn [CompressedUniPoly.decompress coeffs_except_linear_term UniPoly.from_coeffs coeffs].
  rewrite peval_at_0, peval_at_1, !fsum_cons, recover_linear_term_eq. ring.
Qed.

Lemma compress_value g x :
  let hint := UniPoly.evaluate g 0 + UniPoly.evaluate g 1 in
  peval (coeffs (CompressedUniPoly.decompress (UniPoly.compress g) hint)) x
  = UniPoly.evaluate g x.
Proof.
  intros hint. subst hint. rewrite !evaluate_peval.
  destruct g as [[|c0 [|c1 rest]]]; [done|..];
    cbn [UniPoly.compress CompressedUniPoly.decompress coeffs coeffs_except_linear_term
         UniPoly.from_coeffs]; rewrite recover_linear_term_eq, peval_at_0, peval_at_1, !fsum_cons;
    cbn [peval].
  - change (fsum []) with (0 : E). ring.
  - ring.
Qed.

(** compression loses nothing that the sumcheck hint does not restore:
    evaluating the compressed message at any point, with the hint
    [g(0) + g(1)], gives the value of the original polynomial, and
    decompression gives a polynomial with the same values. *)
Theorem compress_eval_from_hint g x :
  let hint := UniPoly.evaluate g 0 + UniPoly.evaluate g 1 in
  CompressedUniPoly.eval_from_hint (UniPoly.compress g) hint x = UniPoly.evaluate g x /\
  UniPoly.evaluate (CompressedUniPoly.decompress (UniPoly.compress g) hint) x
    = UniPoly.evaluate g x.
Proof.
  intros hint. rewrite eval_from_hint_decompress.
  rewrite (evaluate_peval (CompressedUniPoly.decompress _ _)).
  split; apply compress_value.
Qed.

(** on a nonempty message the recovered polynomial always meets the
    hint, [g(0) + g(1) = hint], which is what makes the verifier's claim
    update sound; an empty message instead yields the zero polynomial
    whatever the hint is. *)
Theorem recover_meets_hint p hint :
  let g := CompressedUniPoly.decompress p hint in
  UniPoly.evaluate g 0 + UniPoly.evaluate g 1 =
    match coeffs_except_linear_term p with [] => 0 | _ => hint end.
Proof.
  intros g. rewrite !evaluate_peval. destruct p as [[|c0 rest]].
  - subst g. cbn. ring.
  - by apply decompress_sum.
Qed.
End eval_lemmas.

Lemma compress_eval_from_hint_witness :
  CompressedUniPoly.eval_from_hint (UniPoly.compress {| coeffs := map F97.of_Z [3; 5; 11]%Z |})
    (F97.of_Z 22) (F97.of_Z 4) = F97.of_Z 5.
Proof.
  pose proof (compress_eval_from_hint (E := F97.t) {| coeffs := map F97.of_Z [3; 5; 11]%Z |}
                (F97.of_Z 4)) as [Hc _].
  transitivity (UniPoly.evaluate {| coeffs := map F97.of_Z [3; 5; 11]%Z |} (F97.of_Z 4)).
  - etransitivity; [|exact Hc]. reflexivity.
  - apply F97.val_inj. reflexivity.
Defined.

Lemma recover_meets_hint_witness :
  let g := CompressedUniPoly.decompress {| coeffs_except_linear_term := [F97.of_Z 3] |} (F97.of_Z 50) in
  UniPoly.evaluate g (F97.of_Z 0) + UniPoly.evaluate g (F97.of_Z 1) = F97.of_Z 50.
Proof.
  exact (recover_meets_hint (E := F97.t) {| coeffs_except_linear_term := [F97.of_Z 3] |} (F97.of_Z 50)).
Defined.

(** * Interpolation from equispaced points *)

Section interpolation.
Context {E : Type} `{FieldLaws E}.
Add Ring Ering2 : (field_ring (E := E)).

Definition fnat (n : nat) : E := from_u64 (Z.of_nat n).

Lemma fnat_S n : fnat (S n) = fnat n + 1.
Proof.
  unfold fnat. rewrite Nat2Z.inj_succ. unfold Z.succ. apply from_u64_succ. lia.
Qed.

Lemma fnat_0 : fnat 0 = 0.
Proof. apply from_u64_0. Qed.

Lemma fnat_add m n : fnat (m + n) = fnat m + fnat n.
Proof.
  induction m as [|m IH]; [rewrite fnat_0; cbn [Nat.add]; ring|].
  cbn [Nat.add]. rewrite !fnat_S, IH. ring.
Qed.

Lemma fnat_mul m n : fnat (m * n) = fnat m * fnat n.
Proof.
  induction m as [|m IH]; [rewrite fnat_0; cbn [Nat.mul]; rewrite fnat_0; ring|].
  cbn [Nat.mul]. rewrite fnat_add, fnat_S, IH. ring.
Qed.

Fixpoint binom (n k : nat) : nat :=
  match k, n with
  | O, _ => 1
  | S _, O => 0
  | S k', S n' => binom n' k' + binom n' k
  end.

Lemma binom_absorb n k :
  (binom n k * n = binom n k * k + S k * binom n (S k))%nat.
Proof.
  revert k; induction n as [|n IH]; intros k.
  - destruct k; cbn; lia.
  - destruct k as [|k].
    + pose proof (IH 0%nat) as H1. cbn [binom] in *. destruct n; cbn [binom] in *; nia.
    + pose proof (IH k) as H1. pose proof (IH (S k)) as H2.
      change (binom (S n) (S k)) with (binom n k + binom n (S k))%nat.
      change (binom (S n) (S (S k))) with (binom n (S k) + binom n (S (S k)))%nat. nia.
Qed.

(** [sum_j binom(i, k + j) * ds_j] *)
Fixpoint bsum (ds : list E) (i k : nat) : E :=
  match ds with
  | [] => 0
  | d :: ds => fnat (binom i k) * d + bsum ds i (S k)
  end.

Lemma bsum_pascal ds i k : bsum ds (S i) (S k) = bsum ds i k + bsum ds i (S k).
Proof.
  revert k; induction ds as [|d ds IH]; intros k; cbn [bsum]; [ring|].
  rewrite IH. change (binom (S i) (S k)) with (binom i k + binom i (S k))%nat.
  rewrite fnat_add. ring.
Qed.

Lemma bsum_0 ds k : bsum ds 0 (S k) = 0.
Proof.
  revert k; induction ds as [|d ds IH]; intros k; cbn [bsum]; [done|].
  rewrite IH. cbn [binom]. rewrite fnat_0. ring.
Qed.

Lemma diff_row_length t : length (UniPoly.diff_row t) = Nat.pred (length t).
Proof.
  induction t as [|a [|b t] IH]; [done..|].
  cbn [UniPoly.diff_row length] in *. by rewrite IH.
Qed.

Lemma diff_row_lookup t i a b :
  t !! i = Some a -> t !! S i = Some b -> UniPoly.diff_row t !! i = Some (b - a).
Proof.
  revert i; induction t as [|x [|y t] IH]; intros i Ha Hb; [done|done|].
  destruct i as [|i]; cbn in *; [congruence|]. by apply IH.
Qed.

Lemma delta_loop_length h t : length (UniPoly.delta_loop (length t) (h :: t)) = length t.
Proof.
  remember (length t) as n eqn:Hn. revert h t Hn; induction n as [|n IH]; intros h t Hn; [done|].
  destruct t as [|b t]; [done|].
  change (UniPoly.delta_loop (S n) (h :: b :: t))
    with (b - h :: UniPoly.delta_loop n (b - h :: UniPoly.diff_row (b :: t))).
  cbn [length]. f_equal. apply IH. rewrite diff_row_length. cbn in *. lia.
Qed.

(** Newton's forward-difference formula. *)
Lemma newton_forward i h t d :
  (h :: t) !! i = Some d ->
  d = bsum (h :: UniPoly.delta_loop (length t) (h :: t)) i 0.
Proof.
  revert h t d; induction i as [|i IH]; intros h t d Hd.
  - cbn in Hd. injection Hd as <-. cbn [bsum]. rewrite bsum_0. cbn [binom].
    rewrite fnat_S, fnat_0. ring.
  - assert (Hlt : (S i < length (h :: t))%nat) by (by eapply lookup_lt_Some).
    destruct (lookup_lt_is_Some_2 (h :: t) i) as [a Ha]; [lia|].
    pose proof (diff_row_lookup _ _ _ _ Ha Hd) as Hdiff.
    pose proof (diff_row_length (h :: t)) as Hlen.
    destruct t as [|b t]; [cbn in Hlt; lia|].
    change (UniPoly.diff_row (h :: b :: t)) with (b - h :: UniPoly.diff_row (b :: t)) in Hdiff.
    apply IH in Hdiff, Ha. cbn [length] in Ha |- *.
    pose proof (diff_row_length (b :: t)) as Hl2. cbn [length Nat.pred] in Hl2.
    rewrite Hl2 in Hdiff.
    change (UniPoly.delta_loop (S (length t)) (h :: b :: t))
      with (b - h :: UniPoly.delta_loop (length t) (b - h :: UniPoly.diff_row (b :: t))) in Ha |- *.
    set (ds := b - h :: UniPoly.delta_loop (length t) (b - h :: UniPoly.diff_row (b :: t))) in *.
    cbn [bsum] in Ha |- *. rewrite bsum_pascal, <-Hdiff.
    replace d with (a + (d - a)) by ring. rewrite Ha at 1.
    destruct i; cbn [binom]; ring.
Qed.

(** The nested Newton form and its expansion. *)
Fixpoint nest (ds : list E) (k : nat) (x : E) : E :=
  match ds with
  | [] => 0
  | d :: ds => d + (x - fnat k) * nest ds (S k) x
  end.

Lemma nest_snoc_zero l k x : nest (l ++ [0]) k x = nest l k x.
Proof. revert k; induction l as [|d l IH]; intros k; cbn [app nest]; [ring|]. by rewrite IH. Qed.

Lemma newton_step_value prev s cs x :
  peval (UniPoly.newton_step prev s cs) x = prev + (x - s) * peval cs x.
Proof.
  revert prev; induction cs as [|c cs IH]; intros prev; cbn [UniPoly.newton_step peval]; [ring|].
  rewrite IH. ring.
Qed.

Lemma newton_expand_app ks1 ks2 cs :
  UniPoly.newton_expand (ks1 ++ ks2) cs
  = UniPoly.newton_expand ks2 (UniPoly.newton_expand ks1 cs).
Proof. revert cs; induction ks1 as [|[k d] ks IH]; intros cs; [done|]. apply IH. Qed.

Lemma seqZ_nat k n : seqZ (Z.of_nat k) (Z.of_nat n) = Z.of_nat <$> seq k n.
Proof.
  revert k; induction n as [|n IH]; intros k; [done|].
  rewrite Nat2Z.inj_succ, seqZ_cons by lia. cbn [seq fmap list_fmap]. f_equal.
  rewrite <-IH. f_equal; lia.
Qed.

Lemma newton_expand_value ds k x cs :
  peval (UniPoly.newton_expand (rev (zip (Z.of_nat <$> seq k (length ds)) ds)) cs) x
  = nest (ds ++ [peval cs x]) k x.
Proof.
  revert k; induction ds as [|d ds IH]; intros k; cbn [length seq fmap list_fmap zip zip_with rev app nest].
  - cbn. ring.
  - rewrite newton_expand_app. cbn [UniPoly.newton_expand]. rewrite newton_step_value.
    rewrite IH. done.
Qed.

(** The divided differences times the falling factorials. *)
Lemma divided_loop_value {Er : Type} ds k dds (i : nat) :
  UniPoly.divided_loop (Er := Er) (Z.of_nat (S k)) (fnat (fact k)) ds = Ok dds ->
  length dds = length ds /\
  fnat (fact (S k)) * fnat (binom i (S k)) * nest dds (S k) (fnat i) = bsum ds i (S k).
Proof.
  revert k dds; induction ds as [|d ds IH]; intros k dds Hd.
  - cbn in Hd. injection Hd as <-. cbn. split; [done|ring].
  - cbn [UniPoly.divided_loop] in Hd.
    replace (fnat (fact k) * from_u64 (Z.of_nat (S k))) with (fnat (fact (S k))) in Hd
      by (change (fact (S k)) with (S k * fact k)%nat; rewrite fnat_mul; unfold fnat; ring).
    destruct (finverse (fnat (fact (S k)))) as [inv|] eqn:Ei; [|done].
    apply finverse_Some in Ei as [Ei _]. cbn [unwrap obind] in Hd. obind_inv Hd.
    injection Hd as <-. replace (Z.of_nat (S k) + 1)%Z with (Z.of_nat (S (S k))) in E0 by lia.
    apply IH in E0 as [Hl Hn]. cbn [length nest bsum]. split; [by f_equal|].
    rewrite <-Hn. change (fact (S (S k))) with (S (S k) * fact (S k))%nat.
    rewrite fnat_mul. pose proof (f_equal fnat (binom_absorb i (S k))) as Hb.
    rewrite fnat_add, !fnat_mul in Hb.
    set (F := fnat (fact (S k))) in *. set (B := fnat (binom i (S k))) in *.
    set (N := nest a (S (S k)) (fnat i)) in *.
    transitivity (F * inv * B * d + F * (B * fnat i - B * fnat (S k)) * N); [ring|].
    rewrite Ei, Hb. ring.
Qed.

Lemma trim_rev_value l x :
  peval (rev (UniPoly.trim_rev l)) x = peval (rev l) x.
Proof.
  induction l as [|c [|d l] IH]; [done|done|].
  change (UniPoly.trim_rev (c :: d :: l))
    with (if feqb c 0 then UniPoly.trim_rev (d :: l) else c :: d :: l).
  destruct (feqb c 0) eqn:Ec; [|done]. apply feqb_spec in Ec as ->. rewrite IH.
  change (rev (0 :: d :: l)) with (rev (d :: l) ++ [0]).
  rewrite peval_app. cbn [peval]. ring.
Qed.

Lemma newton_step_length prev s cs :
  length (UniPoly.newton_step prev s cs) = S (length cs).
Proof.
  revert prev; induction cs as [|c cs IH]; intros prev; cbn [UniPoly.newton_step length]; auto.
Qed.

Lemma newton_expand_length ks cs :
  length (UniPoly.newton_expand ks cs) = (length ks + length cs)%nat.
Proof.
  revert cs; induction ks as [|[k d] ks IH]; intros cs; [done|].
  cbn [UniPoly.newton_expand length]. rewrite IH, newton_step_length. lia.
Qed.

Lemma trim_length l : (length (UniPoly.trim l) <= length l)%nat.
Proof.
  unfold UniPoly.trim. rewrite length_rev, <-(length_rev l).
  induction (rev l) as [|c [|d l'] IH]; [done|done|].
  change (UniPoly.trim_rev (c :: d :: l'))
    with (if feqb c 0 then UniPoly.trim_rev (d :: l') else c :: d :: l').
  destruct (feqb c 0); [|done]. cbn [length] in *. lia.
Qed.

Lemma from_evals_length {Er : Type} evals p :
  UniPoly.from_evals (Er := Er) evals = Ok p -> (length (coeffs p) <= length evals)%nat.
Proof.
  destruct evals as [|e0 [|e1 evals]]; [by intros [= <-]..|].
  unfold UniPoly.from_evals. intros Hp. obind_inv Hp. cbn zeta in Hp.
  destruct (rev (zip _ (e0 :: a))) as [|[k top] ks] eqn:Er'; [done|].
  apply (f_equal length) in Er'. rewrite length_rev, length_zip_with, length_seqZ in Er'.
  injection Hp as <-. cbn [UniPoly.from_coeffs coeffs].
  etransitivity; [apply trim_length|]. rewrite newton_expand_length. cbn [length] in *. lia.
Qed.

(** Nonzero small integers make every factorial invertible. *)
Lemma divided_loop_total {Er : Type} ds k :
  fnat (fact k) <> 0 -> (forall j, (1 <= j <= k + length ds)%nat -> fnat j <> 0) ->
  exists dds, UniPoly.divided_loop (Er := Er) (Z.of_nat (S k)) (fnat (fact k)) ds = Ok dds.
Proof.
  revert k; induction ds as [|d ds IH]; intros k Hk Hj; [by eexists|].
  cbn [UniPoly.divided_loop length] in *.
  replace (fnat (fact k) * from_u64 (Z.of_nat (S k))) with (fnat (fact (S k)))
    by (change (fact (S k)) with (S k * fact k)%nat; rewrite fnat_mul; unfold fnat; ring).
  assert (Hf : fnat (fact (S k)) <> 0).
  { change (fact (S k)) with (S k * fact k)%nat. rewrite fnat_mul.
    intros [Hz|Hz]%fmul_eq_zero; [by apply (Hj (S k)); [lia|]|done]. }
  destruct (finverse_spec _ Hf) as (inv & -> & _). cbn [unwrap obind].
  destruct (IH (S k) Hf) as [dds Hd]; [intros; apply Hj; lia|].
  replace (Z.of_nat (S k) + 1)%Z with (Z.of_nat (S (S k))) by lia.
  rewrite Hd. by eexists.
Qed.

Lemma from_evals_total {Er : Type} evals :
  (forall k, (1 <= k < length evals)%nat -> fnat k <> 0) ->
  exists p, UniPoly.from_evals (Er := Er) evals = Ok p.
Proof.
  intros Hj. destruct evals as [|e0 [|e1 evals]]; [by eexists..|].
  unfold UniPoly.from_evals.
  assert (Hl : length (UniPoly.delta_loop (length (e0 :: e1 :: evals) - 1) (e0 :: e1 :: evals))
               = length (e1 :: evals)).
  { replace (length (e0 :: e1 :: evals) - 1)%nat with (length (e1 :: evals))
      by (cbn [length]; lia). apply delta_loop_length. }
  destruct (divided_loop_total (Er := Er)
              (UniPoly.delta_loop (length (e0 :: e1 :: evals) - 1) (e0 :: e1 :: evals)) 0)
    as [dds Hd].
  { cbn [fact]. rewrite fnat_S, fnat_0. intros Hc. apply fone_neq_zero.
    rewrite <-Hc. ring. }
  { intros j Hjj. apply Hj. rewrite Hl in Hjj. cbn [length] in *. lia. }
  replace (fnat (fact 0)) with (1 : E) in Hd by (cbn; rewrite fnat_S, fnat_0; ring).
  change (Z.of_nat 1) with 1%Z in Hd. cbv zeta. rewrite Hd. cbn [obind].
  destruct (rev (zip _ (e0 :: dds))) as [|[k top] ks] eqn:Er'; [|by eexists].
  apply (f_equal length) in Er'. rewrite length_rev, length_zip_with, length_seqZ in Er'.
  cbn [length] in Er'. lia.
Qed.

Lemma from_evals_value {Er : Type} evals p (i : nat) v :
  UniPoly.from_evals (Er := Er) evals = Ok p -> evals !! i = Some v ->
  UniPoly.evaluate p (from_u64 (Z.of_nat i)) = v.
Proof.
  intros Hp Hv. rewrite evaluate_peval.
  destruct evals as [|e0 [|e1 evals]]; [done|..].
  { injection Hp as <-. destruct i; [|done]. injection Hv as <-. cbn. ring. }
  unfold UniPoly.from_evals in Hp. obind_inv Hp.
  set (ds := UniPoly.delta_loop _ _) in *. rename a into dds.
  assert (Hlen : length ds = length (e1 :: evals)).
  { subst ds. replace (length (e0 :: e1 :: evals) - 1)%nat with (length (e1 :: evals))
      by (cbn; lia). apply delta_loop_length. }
  pose proof (divided_loop_value (Er := Er) ds 0 dds i) as Hdl.
  replace (fnat (fact 0)) with (1 : E) in Hdl by (cbn; rewrite fnat_S, fnat_0; ring).
  destruct (Hdl E0) as [Hl Hb].
  assert (Hv' : v = peval (UniPoly.newton_expand (rev (zip (Z.of_nat <$> seq 0 (length (e0 :: dds))) (e0 :: dds))) []) (fnat i)).
  { rewrite newton_expand_value.
    cbn [peval]. rewrite nest_snoc_zero. cbn [nest]. rewrite fnat_0.
    pose proof (newton_forward i e0 (e1 :: evals) v Hv) as Hnf.
    replace (length (e1 :: evals)) with (length (e0 :: e1 :: evals) - 1)%nat in Hnf by (cbn; lia).
    fold ds in Hnf. rewrite Hnf. cbn [bsum]. rewrite <-Hb.
    destruct i as [|i]; cbn [binom]; change (fact 1) with 1%nat.
    - rewrite !fnat_S, !fnat_0. ring.
    - replace (binom i 0 + binom i 1)%nat with (S i).
      2:{ pose proof (binom_absorb i 0). destruct i; cbn [binom] in *; lia. }
      rewrite (fnat_S 0), fnat_0. ring. }
  rewrite Hv'. clear Hv'. cbn zeta in Hp.
  replace (seqZ 0 (Z.of_nat (length (e0 :: e1 :: evals))))
    with (Z.of_nat <$> seq 0 (length (e0 :: dds))) in Hp.
  2:{ rewrite <-seqZ_nat. f_equal. cbn [length] in *. lia. }
  destruct (rev (zip _ (e0 :: dds))) as [|[k top] ks] eqn:Er'; [done|].
  injection Hp as <-. cbn [UniPoly.from_coeffs coeffs UniPoly.newton_expand UniPoly.newton_step].
  unfold UniPoly.trim. by rewrite trim_rev_value, rev_involutive.
Qed.

(** interpolation: when [1, ..., n - 1] are nonzero in the field,
    [from_evals] on [n] values does not panic and returns a polynomial with at
    most [n] coefficients that takes the given values at [0, 1, ..., n - 1]. *)
Theorem from_evals_interpolates {Er : Type} evals :
  (forall k, (1 <= k < length evals)%nat -> from_u64 (Z.of_nat k) <> 0) ->
  exists p, UniPoly.from_evals (Er := Er) evals = Ok p /\
    (length (coeffs p) <= length evals)%nat /\
    forall (i : nat) v, evals !! i = Some v ->
      UniPoly.evaluate p (from_u64 (Z.of_nat i)) = v.
Proof.
  intros Hk. destruct (from_evals_total (Er := Er) evals Hk) as [p Hp].
  exists p. split; [done|]. split; [by eapply from_evals_length|].
  intros. by eapply from_evals_value.
Qed.
End interpolation.

Lemma from_evals_interpolates_witness :
  exists p, UniPoly.from_evals (Er := unit) (map F97.of_Z [3; 5; 11]%Z) = Ok p /\
            UniPoly.evaluate p (from_u64 2) = F97.of_Z 11.
Proof.
  destruct (from_evals_interpolates (E := F97.t) (Er := unit) (map F97.of_Z [3; 5; 11]%Z))
    as (p & Hp & _ & Hv).
  - intros k Hk Hc. apply (f_equal F97.val) in Hc. cbn in Hk.
    destruct k as [|[|[|k]]]; [lia|vm_compute in Hc; discriminate Hc..|lia].
  - exists p. split; [exact Hp|]. exact (Hv 2%nat _ eq_refl).
Defined.

(** ** Lawful codecs *)

Section lawful.
Context {E : Type} `{LawfulCodec E unit, Allocator}.

#[export, refine] Instance CompressedUniPoly_Lawful : LawfulCodec (CompressedUniPoly E) Z := {
  codec_wf v degree p :=
    reserve_exact degree = true /\
    length (coeffs_except_linear_term p) = Z.to_nat degree /\
    Forall (codec_wf v tt) (coeffs_except_linear_term p) /\
    (v = ValidateYes -> check p = Ok tt);
}.
Proof.
  - intros v n [l] c (_ & _ & Hi & _). cbn [coeffs_except_linear_term] in *.
    apply (write_items_total v (replicate (length l) tt)). by apply Forall2_unit_replicate.
  - intros v n [l] c bs rest (Ha & Hl & Hi & Hc) Hs.
    unfold deserialize_with_mode, CompressedUniPoly_Deserialize. rewrite Ha. cbn [negb].
    apply (headerless_roundtrip Build_CompressedUniPoly); [by apply Forall2_replicate_l|done..].
  - intros n a c input rest Hb Hd.
    unfold deserialize_with_mode, CompressedUniPoly_Deserialize in Hd.
    destruct (reserve_exact n) eqn:Ha; cbn [negb] in Hd; [|done].
    apply (headerless_canonical Build_CompressedUniPoly) in Hd as (l & -> & Hw & Hc & Hbs); [|done].
    by apply Forall2_replicate_l in Hw as [Hl Hw].
Defined.

#[export, refine] Instance UniPoly_Lawful : LawfulCodec (UniPoly E) unit := {
  codec_wf v ctx p :=
    codec_wf v ctx (coeffs p) /\ (v = ValidateYes -> check p = Ok tt);
}.
Proof.
  - intros v ctx [l] c [Hw _]. exact (codec_total v ctx l c Hw).
  - intros v ctx [l] c bs rest [Hw Hc] Hs. destruct ctx.
    unfold deserialize_with_mode, UniPoly_Deserialize.
    rewrite (codec_roundtrip v tt l c bs rest Hw Hs). cbn [obind].
    destruct v; cbn [checked_out]; [by rewrite Hc | done].
  - intros ctx [l] c input rest Hb Hd. destruct ctx.
    unfold deserialize_with_mode, UniPoly_Deserialize in Hd.
    obind_inv Hd. destruct a as [l' r]. cbn [obind checked_out] in Hd. obind_inv Hd.
    obind_inv E1. injection E1 as <-. injection Hd as -> ->.
    apply codec_canonical in E0 as (Hw & Hc & bs & Hs & ->); [|done].
    split; [by split|]. split; [done|]. by exists bs.
Defined.
End lawful.

(** * Roots *)

Section roots.
Context {E : Type} `{FieldLaws E}.
Add Ring Ering3 : (field_ring (E := E)).

(** Synthetic division by [X - a]. *)
Fixpoint quotient (l : list E) (a : E) : list E :=
  match l with
  | [] => []
  | [_] => []
  | _ :: tl => peval tl a :: quotient tl a
  end.

Lemma quotient_length l a : length (quotient l a) = Nat.pred (length l).
Proof.
  induction l as [|c [|d l] IH]; [done..|]. cbn [quotient length] in *. by rewrite IH.
Qed.

Lemma quotient_spec l a x : peval l x = (x - a) * peval (quotient l a) x + peval l a.
Proof.
  induction l as [|c [|d l] IH]; [cbn; ring..|].
  change (quotient (c :: d :: l) a) with (peval (d :: l) a :: quotient (d :: l) a).
  change (peval (c :: d :: l) x) with (c + x * peval (d :: l) x). rewrite IH.
  change (peval (c :: d :: l) a) with (c + a * peval (d :: l) a).
  change (peval (peval (d :: l) a :: quotient (d :: l) a) x)
    with (peval (d :: l) a + x * peval (quotient (d :: l) a) x).
  ring.
Qed.

(** A polynomial with as many distinct roots as coefficients vanishes. *)
Lemma roots_bound l roots :
  NoDup roots -> (length l <= length roots)%nat ->
  (forall a, a ∈ roots -> peval l a = 0) -> forall x, peval l x = 0.
Proof.
  revert l; induction roots as [|a roots IH]; intros l Hnd Hlen Hroots x.
  { destruct l; [done|cbn in Hlen; lia]. }
  apply list.NoDup_cons in Hnd as [Ha Hnd].
  rewrite (quotient_spec l a), (Hroots a) by left.
  rewrite (IH (quotient l a)); [ring|done| |].
  - rewrite quotient_length. cbn in Hlen. lia.
  - intros b Hb. pose proof (Hroots b ltac:(by right)) as H0b.
    rewrite (quotient_spec l a), (Hroots a) in H0b by left.
    destruct (fmul_eq_zero (b - a) (peval (quotient l a) b)) as [Hz|]; [|exfalso|done].
    + rewrite <-H0b. ring.
    + apply Ha. replace a with (a + (b - a)) by (rewrite Hz; ring).
      by replace (a + (b - a)) with b by ring.
Qed.

(** Coefficientwise difference, padded with zeros. *)
Fixpoint psub (l1 l2 : list E) : list E :=
  match l1, l2 with
  | [], l2 => map fneg l2
  | l1, [] => l1
  | a :: l1, b :: l2 => (a - b) :: psub l1 l2
  end.

Lemma peval_neg l x : peval (map fneg l) x = - peval l x.
Proof. induction l as [|c l IH]; cbn [map peval]; [ring|]. rewrite IH. ring. Qed.

Lemma psub_eval l1 l2 x : peval (psub l1 l2) x = peval l1 x - peval l2 x.
Proof.
  revert l2; induction l1 as [|a l1 IH]; intros [|b l2].
  - cbn. ring.
  - cbn [psub]. rewrite peval_neg. cbn [peval]. ring.
  - cbn. ring.
  - cbn [psub peval]. rewrite IH. ring.
Qed.

Lemma psub_length l1 l2 : length (psub l1 l2) = Nat.max (length l1) (length l2).
Proof.
  revert l2; induction l1 as [|a l1 IH]; intros [|b l2]; cbn [psub length]; auto.
  - rewrite length_map. cbn. lia.
  - rewrite IH. lia.
Qed.

(** Two polynomials that agree on enough distinct points agree everywhere. *)
Lemma agreement_bound l1 l2 points :
  NoDup points -> (length l1 <= length points)%nat -> (length l2 <= length points)%nat ->
  (forall a, a ∈ points -> peval l1 a = peval l2 a) -> forall x, peval l1 x = peval l2 x.
Proof.
  intros Hnd H1 H2 Hp x.
  assert (Hz : peval (psub l1 l2) x = 0).
  { apply (roots_bound _ points Hnd).
    - rewrite psub_length. lia.
    - intros a Ha. rewrite psub_eval, Hp by done. ring. }
  rewrite psub_eval in Hz. transitivity (peval l1 x - peval l2 x + peval l2 x); [ring|].
  rewrite Hz. ring.
Qed.
End roots.
