(* ===== verification/EqPoly.v ===== *)
(** [akita-algebra/src/eq_poly.rs]: the equality polynomial, its materialized
    tables (serial in-place, parallel, mapped and cached construction), prefix
    sums and the split representation.

    The allocator, the element size and the rayon configuration are services
    of the environment: parameters of the definitions that use them. *)

From S2P Require Import Prelude Checked Field Serialization.
Local Open Scope field_scope.

Definition MAX_MATERIALIZED_EQ_TABLE_BYTES : Z := Z.shiftl 1 30.

(** [size_of::<E>()], the [parallel] feature and [rayon::current_num_threads()]. *)
Class EqRuntime (E : Type) := {
  size_of : Z;
  parallel : bool;
  current_num_threads : Z;
}.
Arguments size_of E {_}. Arguments parallel E {_}. Arguments current_num_threads E {_}.

Module EqPolynomial.

Section ops.
Context {E : Type} `{Field E, EqRuntime E, Allocator}.

Definition split_lagrange_parent (value coordinate : E) : E * E :=
  let right := value * coordinate in
  let left := value - right in
  (left, right).

Definition table_len (num_vars : Z) : result Z :=
  ok_or (checked.pow2 num_vars) (InvalidInput "eq table dimension overflow").

Definition check_element_budget (label : string) (len : Z) : result unit :=
  let elem_size := Z.max (size_of E) 1 in
  let* bytes := ok_or (checked_mul len elem_size)
                  (InvalidInput (String.append label " byte-size overflow")) in
  if (MAX_MATERIALIZED_EQ_TABLE_BYTES <? bytes)%Z
  then Err (InvalidInput (String.append label " exceeding equality-table budget"))
  else Ok tt.

Definition materialized_table_len (label : string) (num_vars : Z) : result Z :=
  let* len := table_len num_vars in
  let* _ := check_element_budget label len in
  Ok len.

Definition zero_vec (label : string) (len : Z) : result (list E) :=
  if reserve_exact len then Ok (replicate (Z.to_nat len) 0)
  else Err (InvalidInput (String.append label " allocation failed")).

Definition mle (x y : list E) : result E :=
  if negb (len x =? len y)%Z then Err (InvalidSize (len x) (len y))
  else Ok (foldl fmul 1 (map (fun '(x_i, y_i) => x_i * y_i + (1 - x_i) * (1 - y_i)) (zip x y))).

Definition zero_selector (r : list E) : E :=
  foldl (fun acc r_i => acc * (1 - r_i)) 1 r.

(** The two writes of one parent, [evals[2p] = left; evals[2p+1] = right]. *)
Definition expand_parent (map : E -> E) (coordinate : E) (evals : list E) (parent : Z)
  : result (list E) :=
  let* value := unwrap (index evals parent) in
  let (left, right) := split_lagrange_parent value coordinate in
  let* evals := store evals (2 * parent) (map left) in
  store evals (2 * parent + 1) (map right).

(** [for parent in (0..len).rev()] *)
Definition expand_layer (map : E -> E) (coordinate : E) (len : Z) (evals : list E)
  : result (list E) :=
  ofold (expand_parent map coordinate) (rev (range len)) evals.

Definition fill_serial_with_final_map (evals : list E) (r : list E) (initial : E)
    (map : E -> E) : result (list E) :=
  if negb (len evals =? 2 ^ len r)%Z then Panic
  else
    match r with
    | [] => store evals 0 (map initial)
    | r0 :: rest =>
        let* evals := store evals 0 initial in
        let* (evals, n) :=
          ofold (fun '(evals, n) coordinate =>
                   let* evals := expand_layer (fun v => v) coordinate n evals in
                   Ok (evals, (n * 2)%Z)) (rev rest) (evals, 1%Z) in
        expand_layer map r0 n evals
    end.

Definition evals_serial_with_final_map (label : string) (r : list E) (initial : E)
    (map : E -> E) : result (list E) :=
  let* size := materialized_table_len label (len r) in
  let* evals := zero_vec label size in
  fill_serial_with_final_map evals r initial map.

Definition unwrap_or_one (scaling_factor : option E) : E :=
  match scaling_factor with Some s => s | None => 1 end.

Definition evals_serial (r : list E) (scaling_factor : option E) : result (list E) :=
  evals_serial_with_final_map "eq evaluation table" r (unwrap_or_one scaling_factor)
    (fun value => value).

(** One parallel layer: [split_at_mut(size)] twice, then the zipped update. *)
Definition parallel_layer (r_i : E) (size : Z) (evals : list E) : result (list E) :=
  if (2 * size <=? len evals)%Z then
    let left := take (Z.to_nat size) evals in
    let rest := drop (Z.to_nat (2 * size)) evals in
    let pairs := map (fun x => split_lagrange_parent x r_i) left in
    Ok (map fst pairs ++ map snd pairs ++ rest)
  else Panic.

Definition evals_parallel (r : list E) (scaling_factor : option E) : result (list E) :=
  let* final_size := materialized_table_len "eq evaluation table" (len r) in
  let* evals := zero_vec "eq evaluation table" final_size in
  let* evals := store evals 0 (unwrap_or_one scaling_factor) in
  let* (evals, _) :=
    ofold (fun '(evals, size) r_i =>
             let* evals := parallel_layer r_i size evals in
             Ok (evals, (size * 2)%Z)) r (evals, 1%Z) in
  Ok evals.

Definition evals_with_scaling (r : list E) (scaling_factor : option E) : result (list E) :=
  if parallel E && (16 <? len r)%Z then evals_parallel r scaling_factor
  else evals_serial r scaling_factor.

Definition evals (r : list E) : result (list E) := evals_with_scaling r None.

(** [par_chunks_mut(slab_len).zip(outer)]: disjoint slabs, each filled from
    its seed; entries past the zipped slabs keep their value. *)
Fixpoint fill_slabs (slab_len : nat) (low : list E) (map : E -> E) (outer : list E)
    (out : list E) : result (list E) :=
  match outer, out with
  | [], _ => Ok out
  | _, [] => Ok []
  | initial :: outer, _ =>
      let* slab := fill_serial_with_final_map (take slab_len out) low initial map in
      let* rest := fill_slabs slab_len low map outer (drop slab_len out) in
      Ok (slab ++ rest)
  end.

Definition evals_mapped_parallel_slabs (r : list E) (map : E -> E) : result (list E) :=
  let label := "mapped eq evaluation table"%string in
  let* final_size := materialized_table_len label (len r) in
  let target_tasks := Z.max (saturating_mul (current_num_threads E) 4) 1 in
  let target_outer_vars := Z.log2 target_tasks in
  let outer_vars := Z.min target_outer_vars (saturating_sub (len r) 8) in
  if negb (0 <? outer_vars)%Z then Panic
  else
    let low_vars := (len r - outer_vars)%Z in
    let* slab_len := unwrap (checked.pow2 low_vars) in
    let* outer := evals_serial (drop (Z.to_nat low_vars) r) None in
    let* out := zero_vec label final_size in
    fill_slabs (Z.to_nat slab_len) (take (Z.to_nat low_vars) r) map outer out.

Definition evals_mapped (r : list E) (map : E -> E) : result (list E) :=
  let serial := evals_serial_with_final_map "mapped eq evaluation table" r 1 map in
  if parallel E && (1 <? current_num_threads E)%Z then
    if (len r <? 14)%Z then serial
    else if ((14 <=? len r) && (len r <=? 16))%Z then evals_mapped_parallel_slabs r map
    else let* out := evals r in Ok (List.map map out)
  else serial.

Definition prefix_sum (r : list E) (n : Z) : result E :=
  let* table_len := table_len (len r) in
  if (table_len <? n)%Z then Err (InvalidSize table_len n)
  else if (n =? table_len)%Z then Ok 1
  else
    let* (below, _) :=
      ofold (fun '(below, equal_prefix) bit =>
               let* r_bit := unwrap (index r bit) in
               let (left, right) := split_lagrange_parent equal_prefix r_bit in
               if Z.testbit n bit then Ok (below + left, right) else Ok (below, left))
        (rev (range (len r))) (0, 1) in
    Ok below.

(** The inner loop of the cached construction: from layer [j] to layer [j + 1]. *)
Definition cached_layer (t : E) (prev : list E) (next : list E) (prev_len : Z)
  : result (list E) :=
  ofold (fun next i =>
           let* value := unwrap (index prev i) in
           let (left, right) := split_lagrange_parent value t in
           let* next := store next (2 * i) left in
           store next (2 * i + 1) right) (rev (range prev_len)) next.

(** The body of the loop over [j]. *)
Definition cached_step (r : list E) (result : list (list E)) (j : Z) : outcome AkitaError (list (list E)) :=
  let idx := (len r - 1 - j)%Z in
  let* t := unwrap (index r idx) in
  let* prev := unwrap (index result j) in
  let* next := unwrap (index result (j + 1)) in
  let* next := cached_layer t prev next (2 ^ j) in
  store result (j + 1) next.

Definition evals_cached_with_scaling (r : list E) (scaling_factor : option E)
  : result (list (list E)) :=
  let* final_len := table_len (len r) in
  let* total_len :=
    ok_or (match checked_mul final_len 2 with
           | Some len => checked_sub len 1
           | None => None
           end) (InvalidInput "cached eq table total length overflow") in
  let* _ := check_element_budget "cached eq tables" total_len in
  let* (result, _) :=
    ofold (fun '(result, layer_len) _ =>
             let* layer := zero_vec "cached eq table layer" layer_len in
             Ok (result ++ [layer], saturating_mul layer_len 2))
      (range (len r + 1)) ([], 1%Z) in
  let* layer0 := unwrap (index result 0) in
  let* layer0 := store layer0 0 (unwrap_or_one scaling_factor) in
  let* result := store result 0 layer0 in
  ofold (cached_step r) (range (len r)) result.

Definition evals_cached (r : list E) : result (list (list E)) :=
  evals_cached_with_scaling r None.
End ops.

End EqPolynomial.

(** The split representation: [e_in] over the low half of the variables,
    [e_out] over the high half. *)
Record SplitEqEvals (E : Type) := { e_out : list E; e_in : list E }.
Arguments e_out {E}. Arguments e_in {E}.

Module SplitEqEvals.

Section ops.
Context {E : Type} `{Field E, EqRuntime E, Allocator}.

Definition new (point : list E) : result (SplitEqEvals E) :=
  let m := (length point / 2)%nat in
  let* e_in := EqPolynomial.evals (take m point) in
  let* e_out := EqPolynomial.evals (drop m point) in
  Ok {| e_out := e_out; e_in := e_in |}.

Definition in_len (s : SplitEqEvals E) : Z := len (e_in s).
Definition out_len (s : SplitEqEvals E) : Z := len (e_out s).
Definition table_size (s : SplitEqEvals E) : Z := (len (e_in s) * len (e_out s))%Z.
Definition is_empty (s : SplitEqEvals E) : bool := (in_len s =? 0)%Z || (out_len s =? 0)%Z.

Definition eval_at (s : SplitEqEvals E) (i : Z) : result E :=
  if (table_size s <=? i)%Z then Err (InvalidInput "split equality index")
  else
    let in_len := in_len s in
    let* o := unwrap (index (e_out s) (i / in_len)) in
    let* i := unwrap (index (e_in s) (i mod in_len)) in
    Ok (o * i).
End ops.

End SplitEqEvals.

Module EqPrefix.

Section ops.
Context {E : Type} `{Field E, EqRuntime E, Allocator}.

(** [EqPolynomial::evals_prefix] *)
Definition evals_prefix (r : list E) (n : Z) : result (list E) :=
  let* split := SplitEqEvals.new r in
  if (SplitEqEvals.table_size split <? n)%Z then Err (InvalidSize (SplitEqEvals.table_size split) n)
  else omapM (SplitEqEvals.eval_at split) (range n).
End ops.

End EqPrefix.

(** * The reference table *)

Section tables.
Context {E : Type} `{FieldLaws E}.
Add Ring Ering : (field_ring (E := E)).
Import EqPolynomial.

(** One doubling step of a table, with a map on the produced entries. *)
Definition layer (m : E -> E) (c : E) (tbl : list E) : list E :=
  flat_map (fun v => [m (v - v * c); m (v * c)]) tbl.

(** The table [s * eq(r, x)] in little-endian order of [x]. *)
Fixpoint eqt (r : list E) (s : E) : list E :=
  match r with
  | [] => [s]
  | c :: r => layer (fun v => v) c (eqt r s)
  end.

(** [eq(r, bits of i)] *)
Fixpoint eq_at (r : list E) (i : Z) : E :=
  match r with
  | [] => 1
  | c :: r => (if Z.odd i then c else 1 - c) * eq_at r (i / 2)
  end.

(** The boolean vector of an index, as field elements. *)
Definition bits_of (n : nat) (i : Z) : list E :=
  map (fun k => if Z.testbit i k then 1 else 0) (range (Z.of_nat n)).

Lemma layer_cons m c v tbl :
  layer m c (v :: tbl) = m (v - v * c) :: m (v * c) :: layer m c tbl.
Proof. done. Qed.

Lemma length_layer m c tbl : length (layer m c tbl) = (2 * length tbl)%nat.
Proof. induction tbl as [|v tbl IH]; [done|]. rewrite layer_cons. cbn [length]. lia. Qed.

Lemma layer_app m c t1 t2 : layer m c (t1 ++ t2) = layer m c t1 ++ layer m c t2.
Proof. apply flat_map_app. Qed.

Lemma layer_map m c tbl : layer m c tbl = map m (layer (fun v => v) c tbl).
Proof. induction tbl as [|v tbl IH]; [done|]. rewrite !layer_cons. cbn [map]. by rewrite IH. Qed.

Lemma length_eqt r s : length (eqt r s) = (2 ^ length r)%nat.
Proof.
  induction r as [|c r IH]; [done|]. cbn [eqt length]. rewrite length_layer, IH.
  cbn [Nat.pow]. lia.
Qed.

Lemma len_eqt r s : len (eqt r s) = (2 ^ len r)%Z.
Proof. unfold len. rewrite length_eqt, Nat2Z.inj_pow. done. Qed.

Lemma layer_lookup m c tbl (i : nat) v :
  tbl !! i = Some v ->
  layer m c tbl !! (2 * i)%nat = Some (m (v - v * c)) /\
  layer m c tbl !! (2 * i + 1)%nat = Some (m (v * c)).
Proof.
  revert i; induction tbl as [|w tbl IH]; intros i Hv; [done|].
  destruct i as [|i]; [by injection Hv as ->|].
  replace (2 * S i)%nat with (S (S (2 * i))) by lia.
  replace (S (S (2 * i)) + 1)%nat with (S (S (2 * i + 1))) by lia.
  rewrite layer_cons. by apply IH.
Qed.

Lemma eqt_lookup r s (i : nat) :
  (i < 2 ^ length r)%nat -> eqt r s !! i = Some (s * eq_at r (Z.of_nat i)).
Proof.
  revert i; induction r as [|c r IH]; intros i Hi.
  - cbn in Hi. replace i with 0%nat by lia. cbn. f_equal. ring.
  - cbn [length Nat.pow] in Hi. cbn [eqt eq_at].
    destruct (Nat.Even_or_Odd i) as [[k ->]|[k ->]].
    + destruct (layer_lookup (fun v => v) c (eqt r s) k (s * eq_at r (Z.of_nat k))) as [-> _];
        [apply IH; lia|].
      replace (Z.odd (Z.of_nat (2 * k))) with false
        by (rewrite Nat2Z.inj_mul, Z.odd_mul; done).
      replace (Z.of_nat (2 * k) / 2)%Z with (Z.of_nat k) by div_lia. f_equal. ring.
    + destruct (layer_lookup (fun v => v) c (eqt r s) k (s * eq_at r (Z.of_nat k))) as [_ ->];
        [apply IH; lia|].
      replace (Z.odd (Z.of_nat (2 * k + 1))) with true
        by (rewrite Nat2Z.inj_add, Nat2Z.inj_mul, Z.odd_add, Z.odd_mul; done).
      replace (Z.of_nat (2 * k + 1) / 2)%Z with (Z.of_nat k) by div_lia. f_equal. ring.
Qed.

Lemma bits_of_S n i :
  bits_of (S n) i = (if Z.odd i then 1 else 0) :: bits_of n (i / 2).
Proof.
  unfold bits_of, range. rewrite Nat2Z.inj_succ, seqZ_cons by lia.
  cbn [map]. rewrite Z.bit0_odd. f_equal.
  replace (Z.pred (Z.succ (Z.of_nat n))) with (Z.of_nat n) by lia.
  replace (Z.succ 0) with (1 + 0)%Z by lia. rewrite <-fmap_add_seqZ. change (@fmap list _ ?A ?B ?f ?l) with (map f l).
  rewrite map_map. apply map_ext_in. intros k Hk.
  apply list_elem_of_In, elem_of_seqZ in Hk. destruct Hk as [Hk _].
  change 2%Z with (2 ^ 1)%Z at 1. rewrite <-Z.shiftr_div_pow2 by lia.
  rewrite Z.shiftr_spec by done. by rewrite Z.add_comm.
Qed.

Lemma length_bits_of n i : length (bits_of n i) = n.
Proof. unfold bits_of, range. rewrite length_map, length_seqZ. lia. Qed.

Lemma mle_factor_bit c (b : bool) :
  c * (if b then 1 else 0) + (1 - c) * (1 - (if b then 1 else 0)) = if b then c else 1 - c.
Proof. destruct b; ring. Qed.

Lemma mle_bits_value r i :
  foldl fmul 1 (map (fun '(x_i, y_i) => x_i * y_i + (1 - x_i) * (1 - y_i))
                  (zip r (bits_of (length r) i))) = eq_at r i.
Proof.
  rewrite fold_mul_fprod.
  assert (Hg : fprod (map (fun '(x_i, y_i) => x_i * y_i + (1 - x_i) * (1 - y_i))
                        (zip r (bits_of (length r) i))) = eq_at r i).
  { revert i; induction r as [|c r IH]; intros i; [done|].
    cbn [length]. rewrite bits_of_S. cbn [zip zip_with map].
    rewrite fprod_cons, IH, mle_factor_bit. done. }
  rewrite Hg. ring.
Qed.

(** The other decomposition: appending a high variable doubles the table. *)
Lemma layer_split_comm t c tbl :
  layer (fun v => v) c (map (fun v => v - v * t) tbl ++ map (fun v => v * t) tbl)
  = map (fun v => v - v * t) (layer (fun v => v) c tbl)
    ++ map (fun v => v * t) (layer (fun v => v) c tbl).
Proof.
  rewrite layer_app. f_equal.
  - induction tbl as [|v tbl IH]; [done|]. cbn [map]. rewrite !layer_cons. cbn [map].
    rewrite IH. f_equal; [ring|]. f_equal. ring.
  - induction tbl as [|v tbl IH]; [done|]. cbn [map]. rewrite !layer_cons. cbn [map].
    rewrite IH. f_equal; [ring|]. f_equal. ring.
Qed.

Lemma eqt_snoc p t s :
  eqt (p ++ [t]) s = map (fun v => v - v * t) (eqt p s) ++ map (fun v => v * t) (eqt p s).
Proof.
  induction p as [|c p IH]; [done|]. cbn [app eqt]. by rewrite IH, layer_split_comm.
Qed.

Lemma eqt_scale p a s : map (fun v => v * a) (eqt p s) = eqt p (s * a).
Proof.
  induction p as [|c p IH]; [done|]. cbn [eqt]. rewrite <-IH.
  clear IH. induction (eqt p s) as [|v tbl IHt]; [done|]. cbn [map]. rewrite !layer_cons. cbn [map].
  rewrite IHt. f_equal; [ring|]. f_equal. ring.
Qed.

Lemma eqt_snoc_halves p t s : eqt (p ++ [t]) s = eqt p (s - s * t) ++ eqt p (s * t).
Proof.
  rewrite eqt_snoc. rewrite <-(eqt_scale p t s). f_equal.
  replace (s - s * t) with (s * (1 - t)) by ring. rewrite <-eqt_scale.
  apply map_ext. intros. ring.
Qed.

Lemma fsum_layer c tbl : fsum (layer (fun v => v) c tbl) = fsum tbl.
Proof.
  induction tbl as [|v tbl IH]; [done|]. rewrite layer_cons, !fsum_cons, IH. ring.
Qed.

Lemma fsum_eqt r s : fsum (eqt r s) = s.
Proof.
  induction r as [|c r IH]; [change (s + 0 = s); ring|]. cbn [eqt]. by rewrite fsum_layer.
Qed.

Lemma eq_at_app lo hi i :
  eq_at (lo ++ hi) i = eq_at lo (i mod 2 ^ len lo) * eq_at hi (i / 2 ^ len lo).
Proof.
  revert i; induction lo as [|c lo IH]; intros i; cbn [app eq_at].
  - change (len []) with 0%Z. rewrite Z.pow_0_r, Z.div_1_r. ring.
  - rewrite IH. unfold len. cbn [length]. rewrite Nat2Z.inj_succ, Z.pow_succ_r by lia.
    set (n := (2 ^ Z.of_nat (length lo))%Z). assert (0 < n)%Z by (apply pow2_pos; lia).
    rewrite Z.rem_mul_r by lia.
    replace (Z.odd (i mod 2 + 2 * (i / 2 mod n))) with (Z.odd i).
    2:{ rewrite Z.odd_add, Z.odd_mul, xorb_false_r, Zmod_odd. by destruct (Z.odd i). }
    replace ((i mod 2 + 2 * (i / 2 mod n)) / 2)%Z with (i / 2 mod n)%Z by div_lia.
    rewrite <-Z.div_div by lia. ring.
Qed.
End tables.

(** * The in-place loops build the reference tables *)

Section refinement.
Context {E : Type} `{FieldLaws E}.
Add Ring Ering2 : (field_ring (E := E)).
Import EqPolynomial.

(** The loop over the parents in decreasing order never reads an entry it has
    overwritten: every parent sits at or below its children. *)
Lemma expand_loop m c tbl X R :
  length X = length tbl ->
  ofold (expand_parent m c) (rev (range (len tbl))) (tbl ++ X ++ R) = Ok (layer m c tbl ++ R).
Proof.
  revert X R; induction tbl as [|v tbl IH] using rev_ind; intros X R HX.
  { destruct X; [done|discriminate HX]. }
  rewrite length_app in HX. cbn [length] in HX.
  rewrite len_app. change (len [v]) with 1%Z. rewrite range_S by apply len_nonneg.
  rewrite rev_app_distr. cbn [rev app ofold].
  assert (exists Y a b, (tbl ++ [v]) ++ X = (tbl ++ Y) ++ [a; b] /\ length Y = length tbl)
    as (Y & a & b & HY & HlY).
  { destruct (@exists_last _ (v :: X)) as (Z1 & b & HZ); [done|].
    destruct (@exists_last _ Z1) as (Y & a & ->).
    { intros ->. apply (f_equal length) in HZ. cbn in HZ. lia. }
    exists Y, a, b. rewrite <-!app_assoc. cbn [app].
    rewrite HZ, <-app_assoc. split; [done|].
    apply (f_equal length) in HZ. rewrite !length_app in HZ. cbn [length] in HZ. lia. }
  unfold expand_parent at 1.
  replace (index ((tbl ++ [v]) ++ X ++ R) (len tbl)) with (Some v)
    by (symmetry; rewrite <-app_assoc; by apply index_middle).
  cbn [unwrap obind split_lagrange_parent].
  rewrite app_assoc, HY, <-(app_assoc _ [a; b]). cbn [app].
  rewrite store_middle by (rewrite len_app; unfold len; lia). cbn [obind].
  replace ((tbl ++ Y) ++ m (v - v * c) :: b :: R) with (((tbl ++ Y) ++ [m (v - v * c)]) ++ b :: R)
    by (by rewrite <-app_assoc).
  rewrite store_middle by (rewrite !len_app; unfold len; cbn [length]; lia). cbn [obind].
  rewrite <-!app_assoc. cbn [app]. rewrite IH by done.
  rewrite layer_app, <-app_assoc. done.
Qed.

Lemma expand_layer_spec m c tbl X R :
  length X = length tbl ->
  expand_layer m c (len tbl) (tbl ++ X ++ R) = Ok (layer m c tbl ++ R).
Proof. apply expand_loop. Qed.

Lemma expand_layer_room m c tbl R :
  (length tbl <= length R)%nat ->
  expand_layer m c (len tbl) (tbl ++ R) = Ok (layer m c tbl ++ drop (length tbl) R).
Proof.
  intros Hl. rewrite <-(take_drop (length tbl) R) at 1. apply expand_layer_spec.
  rewrite length_take. lia.
Qed.

Definition serial_loop (evals : list E) (n : Z) (cs : list E) : result (list E * Z) :=
  ofold (fun '(evals, n) coordinate =>
           let* evals := expand_layer (fun v => v) coordinate n evals in
           Ok (evals, (n * 2)%Z)) cs (evals, n).

Lemma serial_loop_spec rest s R :
  (2 ^ length rest <= S (length R))%nat ->
  serial_loop (s :: R) 1 (rev rest)
  = Ok (eqt rest s ++ drop (2 ^ length rest - 1) R, len (eqt rest s)).
Proof.
  induction rest as [|c rest IH]; intros Hl; [done|].
  cbn [length Nat.pow] in Hl. cbn [rev]. unfold serial_loop in *.
  assert (1 <= 2 ^ length rest)%nat by (apply (Nat.pow_le_mono_r 2 0); lia).
  rewrite ofold_app, IH by lia. cbn [obind ofold].
  rewrite expand_layer_room by (rewrite length_drop, length_eqt; lia). cbn [obind eqt].
  rewrite drop_drop, length_eqt. do 3 f_equal.
  - f_equal. cbn [length Nat.pow]. lia.
  - unfold len. rewrite length_layer. lia.
Qed.

Lemma fill_serial_spec evals r s m :
  len evals = (2 ^ len r)%Z ->
  fill_serial_with_final_map evals r s m = Ok (map m (eqt r s)).
Proof.
  intros Hl. unfold fill_serial_with_final_map. rewrite Hl, Z.eqb_refl. cbn [negb].
  assert (Hn : length evals = (2 ^ length r)%nat).
  { apply Nat2Z.inj. unfold len in Hl. by rewrite Nat2Z.inj_pow. }
  destruct evals as [|e evals].
  { cbn in Hn. pose proof (Nat.pow_nonzero 2 (length r)). lia. }
  destruct r as [|r0 rest].
  { cbn in Hn. destruct evals; [done|cbn in Hn; lia]. }
  rewrite store_head. cbn [obind].
  cbn [length Nat.pow] in Hn.
  assert (1 <= 2 ^ length rest)%nat by (apply (Nat.pow_le_mono_r 2 0); lia).
  pose proof (serial_loop_spec rest s evals ltac:(lia)) as Hloop.
  unfold serial_loop in Hloop. rewrite Hloop. cbn [obind].
  rewrite expand_layer_room by (rewrite length_drop, length_eqt; lia).
  rewrite drop_drop, drop_ge by (rewrite length_eqt; lia).
  rewrite app_nil_r. cbn [eqt]. by rewrite <-layer_map.
Qed.

Lemma parallel_layer_spec c p s R :
  (length (eqt p s) <= length R)%nat ->
  parallel_layer c (len (eqt p s)) (eqt p s ++ R)
  = Ok (eqt (p ++ [c]) s ++ drop (length (eqt p s)) R).
Proof.
  intros Hroom. unfold parallel_layer.
  replace (2 * len (eqt p s) <=? len (eqt p s ++ R))%Z with true
    by (symmetry; apply Z.leb_le; rewrite len_app; unfold len; lia).
  replace (Z.to_nat (len (eqt p s))) with (length (eqt p s)) by (unfold len; lia).
  rewrite take_app_length, !map_map.
  replace (Z.to_nat (2 * len (eqt p s))) with (length (eqt p s) + length (eqt p s))%nat
    by (unfold len; lia).
  rewrite drop_app_add, eqt_snoc, <-app_assoc. done.
Qed.

(** The parallel layers double the table from the low variable up. *)
Lemma parallel_loop_spec r p s R :
  (2 ^ length (p ++ r) = 2 ^ length p + length R)%nat ->
  ofold (fun '(evals, size) r_i =>
           let* evals := parallel_layer r_i size evals in
           Ok (evals, (size * 2)%Z)) r (eqt p s ++ R, len (eqt p s))
  = Ok (eqt (p ++ r) s, len (eqt (p ++ r) s)).
Proof.
  revert p R; induction r as [|c r IH]; intros p R Hl.
  { rewrite app_nil_r in *. destruct R; [|cbn in Hl; lia]. cbn [ofold].
    by rewrite app_nil_r. }
  cbn [ofold].
  rewrite length_app in Hl. cbn [length] in Hl. rewrite Nat.pow_add_r in Hl. cbn [Nat.pow] in Hl.
  assert (1 <= 2 ^ length r)%nat by (apply (Nat.pow_le_mono_r 2 0); lia).
  rewrite parallel_layer_spec by (rewrite length_eqt; nia). cbn [obind].
  replace (len (eqt p s) * 2)%Z with (len (eqt (p ++ [c]) s)).
  2:{ rewrite !len_eqt, len_app. change (len [c]) with 1%Z.
      rewrite Z.pow_add_r by (pose proof (len_nonneg p); lia). lia. }
  rewrite IH; [by rewrite <-!app_assoc|].
  rewrite <-app_assoc. cbn [app]. rewrite !length_app, length_drop, length_eqt.
  cbn [length]. rewrite !Nat.pow_add_r. cbn [Nat.pow]. nia.
Qed.
End refinement.

(** * The public constructors *)

Section constructors.
Context {E : Type} `{FieldLaws E, EqRuntime E, Allocator}.
Add Ring Ering3 : (field_ring (E := E)).
Import EqPolynomial.

(** Whether a table over [n] variables is within the memory budget. *)
Definition fits (entries : Z) : bool :=
  (entries * Z.max (size_of E) 1 <=? MAX_MATERIALIZED_EQ_TABLE_BYTES)%Z.

Lemma table_len_spec n :
  (0 <= n)%Z -> table_len n = if (n <? 64)%Z then Ok (2 ^ n)%Z
                              else Err (InvalidInput "eq table dimension overflow").
Proof.
  intros Hn. unfold table_len, checked.pow2, checked_u, USIZE_BITS.
  destruct (Z.ltb_spec n 64).
  - replace ((0 <=? n) && (n <? 2 ^ 32))%Z%bool with true
      by (symmetry; apply andb_true_iff; rewrite Z.leb_le, Z.ltb_lt; lia).
    destruct (Z.ltb_spec n 64); [|lia]. cbn [ok_or]. by rewrite Z.shiftl_1_l.
  - destruct (_ && _)%bool; [|done]. destruct (Z.ltb_spec n 64); [lia|done].
Qed.

Lemma check_element_budget_spec label n :
  (0 <= n)%Z ->
  match check_element_budget label n with
  | Ok _ => fits n = true
  | Err _ => fits n = false
  | Panic => False
  end.
Proof.
  intros Hn. unfold check_element_budget, fits.
  destruct (checked_mul n (Z.max (size_of E) 1)) as [b|] eqn:Hb; unfold checked_mul in Hb.
  - apply checked_u_Some in Hb as [_ ->]. cbn [ok_or obind].
    destruct (Z.ltb_spec MAX_MATERIALIZED_EQ_TABLE_BYTES (n * Z.max (size_of E) 1)).
    + by apply Z.leb_gt.
    + by apply Z.leb_le.
  - apply checked_u_None in Hb. cbn [ok_or obind]. apply Z.leb_gt.
    unfold in_u, USIZE_BITS in Hb. change MAX_MATERIALIZED_EQ_TABLE_BYTES with (2 ^ 30)%Z. nia.
Qed.

Lemma materialized_spec label n :
  (0 <= n)%Z ->
  match materialized_table_len label n with
  | Ok l => l = (2 ^ n)%Z /\ (n < 64)%Z /\ fits (2 ^ n) = true
  | Err _ => (n < 64)%Z -> fits (2 ^ n) = false
  | Panic => False
  end.
Proof.
  intros Hn. unfold materialized_table_len. rewrite table_len_spec by done.
  destruct (Z.ltb_spec n 64); cbn [obind]; [|intros; lia].
  pose proof (check_element_budget_spec label (2 ^ n) ltac:(lia)) as Hc.
  by destruct (check_element_budget label (2 ^ n)); cbn [obind].
Qed.

(** The outcome of building a table of [m]-mapped entries. *)
Definition table_outcome (m : E -> E) (r : list E) (s : E) (out : result (list E)) : Prop :=
  match out with
  | Ok tbl => tbl = map m (eqt r s) /\ fits (2 ^ len r) = true
  | Err _ => (len r < 64)%Z -> fits (2 ^ len r) && reserve_exact (2 ^ len r) = false
  | Panic => False
  end.

Lemma serial_outcome label r s m :
  table_outcome m r s (evals_serial_with_final_map label r s m).
Proof.
  unfold evals_serial_with_final_map.
  pose proof (materialized_spec label (len r) (len_nonneg r)) as Hm.
  destruct (materialized_table_len label (len r)) as [l|e|]; cbn [obind table_outcome];
    [|intros; by rewrite Hm|done].
  destruct Hm as (-> & _ & Hfits). unfold zero_vec.
  destruct (reserve_exact (2 ^ len r)) eqn:Ha; cbn [obind table_outcome]; [|intros; by rewrite Hfits].
  by rewrite fill_serial_spec by (rewrite len_replicate; lia).
Qed.

Lemma parallel_eq_serial r s : evals_parallel r s = evals_serial r s.
Proof.
  unfold evals_parallel, evals_serial, evals_serial_with_final_map.
  pose proof (materialized_spec "eq evaluation table" (len r) (len_nonneg r)) as Hm.
  destruct (materialized_table_len _ (len r)) as [l|e|]; cbn [obind]; [|done..].
  destruct Hm as (-> & _ & _). unfold zero_vec. destruct (reserve_exact (2 ^ len r)); [|done].
  cbn [obind]. rewrite fill_serial_spec by (rewrite len_replicate; lia). rewrite map_id.
  assert (Hn : Z.to_nat (2 ^ len r) = S (Nat.pred (2 ^ length r))).
  { unfold len. pose proof (Nat.pow_nonzero 2 (length r)).
    rewrite pow2_to_nat. lia. }
  rewrite Hn. cbn [replicate]. rewrite store_head. cbn [obind].
  pose proof (parallel_loop_spec r [] (unwrap_or_one s)
                (replicate (Nat.pred (2 ^ length r)) 0)) as Hp.
  cbn [eqt app] in Hp. change (len [unwrap_or_one s]) with 1%Z in Hp.
  rewrite Hp; [done|]. rewrite length_replicate. pose proof (Nat.pow_nonzero 2 (length r)).
  cbn. lia.
Qed.

Lemma evals_with_scaling_outcome r s :
  table_outcome (fun v => v) r (unwrap_or_one s) (evals_with_scaling r s).
Proof.
  unfold evals_with_scaling. rewrite parallel_eq_serial.
  destruct (_ && _)%bool; apply serial_outcome.
Qed.

(** C30: [evals_with_scaling] (serial or parallel, whichever the configuration
    picks) never panics; when it succeeds the table has [2^n] entries, entry
    [i] is the scale times [mle(r, bits of i)] with bit [k] of [i] paired with
    [r[k]], and the entries add up to the scale; it fails only when the table
    is over budget or the allocator refuses it. *)
Theorem evals_with_scaling_table r s :
  match evals_with_scaling r s with
  | Ok tbl =>
      len tbl = (2 ^ len r)%Z /\ fsum tbl = unwrap_or_one s /\
      forall i : nat, (i < 2 ^ length r)%nat ->
        exists e, mle r (bits_of (length r) (Z.of_nat i)) = Ok e /\
                  tbl !! i = Some (unwrap_or_one s * e)
  | Err _ => (len r < 64)%Z -> fits (2 ^ len r) && reserve_exact (2 ^ len r) = false
  | Panic => False
  end.
Proof.
  pose proof (evals_with_scaling_outcome r s) as Ho.
  destruct (evals_with_scaling r s) as [tbl|e|]; [|done..]. destruct Ho as [-> _].
  rewrite map_id. split; [apply len_eqt|]. split; [apply fsum_eqt|].
  intros i Hi. exists (eq_at r (Z.of_nat i)). split; [|by apply eqt_lookup].
  unfold mle, len. rewrite length_bits_of, Z.eqb_refl. cbn [negb]. by rewrite mle_bits_value.
Qed.

(** ** Mapped tables *)

Lemma fill_slabs_spec (low : list E) m outer out :
  length out = (length outer * 2 ^ length low)%nat ->
  fill_slabs (2 ^ length low) low m outer out
  = Ok (map m (flat_map (eqt low) outer)).
Proof.
  revert out; induction outer as [|s outer IH]; intros out Hl.
  { destruct out; [done|discriminate Hl]. }
  cbn [length Nat.mul] in Hl. pose proof (Nat.pow_nonzero 2 (length low)).
  destruct out as [|o out]; [cbn in Hl; lia|]. cbn [fill_slabs].
  rewrite fill_serial_spec.
  2:{ unfold len. rewrite length_take, Hl. change 2%Z with (Z.of_nat 2).
      rewrite <-Nat2Z.inj_pow. f_equal. lia. }
  cbn [obind]. rewrite IH by (rewrite length_drop, Hl; lia). cbn [obind flat_map].
  by rewrite map_app.
Qed.

(** Seeding the low tables with the entries of the high table. *)
Lemma eqt_app lo hi s : eqt (lo ++ hi) s = flat_map (eqt lo) (eqt hi s).
Proof.
  revert lo s; induction hi as [|c hi IH]; intros lo s.
  - rewrite app_nil_r. cbn. by rewrite app_nil_r.
  - change (lo ++ c :: hi) with (lo ++ [c] ++ hi). rewrite app_assoc, IH. cbn [eqt].
    induction (eqt hi s) as [|v tbl IHt]; [done|].
    cbn [flat_map]. rewrite layer_cons. cbn [flat_map].
    by rewrite IHt, eqt_snoc_halves, app_assoc.
Qed.

Lemma outcome_granted m r s (out : result (list E)) :
  table_outcome m r s out -> (len r < 64)%Z -> fits (2 ^ len r) = true ->
  reserve_exact (2 ^ len r) = true -> out = Ok (map m (eqt r s)).
Proof.
  intros Ho Hn Hf Ha. destruct out as [tbl|e|]; [by destruct Ho as [-> _]| |done].
  specialize (Ho Hn). by rewrite Hf, Ha in Ho.
Qed.

Lemma fits_mono a b : (0 <= a <= b)%Z -> fits b = true -> fits a = true.
Proof. unfold fits. rewrite !Z.leb_le. nia. Qed.

Lemma slabs_outcome r m :
  (1 < current_num_threads E)%Z -> (14 <= len r <= 16)%Z -> fits (2 ^ len r) = true ->
  (forall n, (0 <= n <= 2 ^ len r)%Z -> reserve_exact n = true) ->
  evals_mapped_parallel_slabs r m = Ok (map m (eqt r 1)).
Proof.
  intros Ht Hr Hf Ha. unfold evals_mapped_parallel_slabs.
  pose proof (materialized_spec "mapped eq evaluation table" (len r) (len_nonneg r)) as Hm.
  destruct (materialized_table_len _ (len r)) as [l|e|]; cbn [obind]; [|rewrite Hm in Hf; done || lia|done].
  destruct Hm as (-> & _ & _).
  set (target := Z.max _ 1).
  assert (8 <= target)%Z.
  { subst target. unfold saturating_mul, USIZE_MAX, USIZE_BITS. lia. }
  assert (Hlog : (3 <= Z.log2 target)%Z) by (apply (Z.log2_le_mono 8); done).
  set (ov := Z.min (Z.log2 target) _).
  assert (Hov : (0 < ov <= 8)%Z) by (subst ov; unfold saturating_sub; lia).
  destruct (Z.ltb_spec 0 ov); [|lia]. cbn [negb].
  set (lv := (len r - ov)%Z). assert (Hlv : (0 <= lv <= len r)%Z) by lia.
  pose proof (table_len_spec lv ltac:(lia)) as Htl. unfold table_len in Htl.
  destruct (Z.ltb_spec lv 64); [|lia].
  destruct (checked.pow2 lv) as [sl|]; [|done]. injection Htl as ->. cbn [unwrap obind].
  set (k := Z.to_nat lv).
  assert (Hk : length (take k r) = k) by (rewrite length_take; subst k; unfold len in *; lia).
  assert (Hd : len (drop k r) = ov) by (unfold len in *; rewrite length_drop; lia).
  unfold evals_serial.
  change (unwrap_or_one None) with (1 : E).
  rewrite (outcome_granted (fun v => v) (drop k r) 1 _ (serial_outcome _ _ _ _)).
  2: lia.
  2:{ rewrite Hd. apply (fits_mono _ (2 ^ len r)); [|done]. split; [lia|].
      apply Z.pow_le_mono_r; lia. }
  2:{ rewrite Hd. apply Ha. split; [lia|]. apply Z.pow_le_mono_r; lia. }
  cbn [obind]. unfold zero_vec. rewrite Ha by lia. cbn [obind]. rewrite map_id.
  replace (Z.to_nat (2 ^ lv)) with (2 ^ length (take k r))%nat
    by (rewrite Hk, <-pow2_to_nat; subst k; do 2 f_equal; lia).
  rewrite fill_slabs_spec; [by rewrite <-eqt_app, take_drop|].
  rewrite length_replicate, length_eqt, length_drop, Hk, <-Nat.pow_add_r, <-pow2_to_nat.
  do 2 f_equal. unfold len in *. lia.
Qed.

(** every execution path of [evals_mapped] (serial with the fused map,
    parallel slabs seeded from the high variables, parallel table followed by
    a parallel map) produces the map of the ordinary equality table, and the
    parallel and serial builders agree on every input, errors included. *)
Theorem evals_mapped_paths r m :
  evals_parallel r None = evals_serial r None /\
  ((len r < 64)%Z -> fits (2 ^ len r) = true ->
   (forall n, (0 <= n <= 2 ^ len r)%Z -> reserve_exact n = true) ->
   exists tbl, evals r = Ok tbl /\ evals_mapped r m = Ok (map m tbl)).
Proof.
  split; [apply parallel_eq_serial|]. intros Hn Hf Ha.
  assert (Hr : reserve_exact (2 ^ len r) = true) by (apply Ha; lia).
  pose proof (outcome_granted _ _ _ _ (evals_with_scaling_outcome r None) Hn Hf Hr) as He.
  pose proof (outcome_granted _ _ _ _
                (serial_outcome "mapped eq evaluation table" r 1 m) Hn Hf Hr) as Hs.
  rewrite map_id in He. exists (eqt r 1). split; [exact He|]. unfold evals_mapped.
  destruct (parallel E && (1 <? current_num_threads E)%Z) eqn:Hp; [|exact Hs].
  bool_prop. destruct (Z.ltb_spec (len r) 14); [exact Hs|].
  destruct (Z.leb_spec 14 (len r)); [|lia]. destruct (Z.leb_spec (len r) 16); cbn [andb].
  - by apply slabs_outcome.
  - unfold evals. rewrite He. done.
Qed.

(** ** Prefix sums *)

Lemma prefix_loop_spec p q n b e :
  (0 <= n)%Z ->
  exists e',
  ofold (fun '(below, equal_prefix) bit =>
           let* r_bit := unwrap (index (p ++ q) bit) in
           let (left, right) := split_lagrange_parent equal_prefix r_bit in
           if Z.testbit n bit then Ok (below + left, right) else Ok (below, left))
    (rev (range (len p))) (b, e)
  = Ok (E := AkitaError) (b + fsum (take (Z.to_nat (n mod 2 ^ len p)) (eqt p e)), e').
Proof.
  intros Hn. revert q b e; induction p as [|t p IH] using rev_ind; intros q b e.
  { exists e. cbn [ofold]. change (len []) with 0%Z. rewrite Z.pow_0_r, Z.mod_1_r.
    cbn [rev range seqZ ofold]. do 2 f_equal. change (b = b + 0). ring. }
  rewrite len_app. change (len [t]) with 1%Z. pose proof (len_nonneg p).
  rewrite range_S by done. rewrite rev_app_distr. cbn [rev app ofold].
  rewrite <-app_assoc. cbn [app]. rewrite index_middle by done. cbn [unwrap obind].
  unfold split_lagrange_parent at 1.
  assert (Hmod : (n mod 2 ^ (len p + 1) = (if Z.testbit n (len p) then 2 ^ len p else 0)
                                          + n mod 2 ^ len p)%Z).
  { rewrite Z.pow_add_r, Z.pow_1_r by lia. rewrite Z.rem_mul_r by lia.
    rewrite <-Z.testbit_spec' by lia. destruct (Z.testbit n (len p)); unfold Z.b2z; ring. }
  pose proof (Z.mod_pos_bound n (2 ^ len p) ltac:(lia)) as Hb.
  rewrite Hmod, eqt_snoc_halves.
  assert (Hlen : forall v, length (eqt p v) = Z.to_nat (2 ^ len p)).
  { intros v. pose proof (len_eqt p v) as Hl. unfold len in Hl at 1. lia. }
  destruct (Z.testbit n (len p)).
  - destruct (IH (t :: q) (b + (e - e * t)) (e * t)) as [e' He']. exists e'. cbn [obind]. rewrite He'.
    do 2 f_equal. rewrite take_app, Hlen, (take_ge (eqt p (e - e * t))) by (rewrite Hlen; lia).
    replace (Z.to_nat (2 ^ len p + n mod 2 ^ len p) - Z.to_nat (2 ^ len p))%nat
      with (Z.to_nat (n mod 2 ^ len p)) by lia.
    rewrite fsum_app, fsum_eqt. ring.
  - destruct (IH (t :: q) b (e - e * t)) as [e' He']. exists e'. cbn [obind]. rewrite He'.
    do 2 f_equal. rewrite take_app, Hlen, Z.add_0_l.
    replace (Z.to_nat (n mod 2 ^ len p) - Z.to_nat (2 ^ len p))%nat with 0%nat by lia.
    by rewrite take_0, app_nil_r.
Qed.

(** [prefix_sum r n] is the sum of the first [n] entries of the equality
    table, for every [n] up to the table length and in one pass over the
    coordinates; larger [n] is an [InvalidSize] error and a table length that
    does not fit a [usize] an [InvalidInput] error. *)
Theorem prefix_sum_spec r n :
  (0 <= n)%Z ->
  prefix_sum r n =
    if (len r <? 64)%Z then
      if (n <=? 2 ^ len r)%Z then Ok (fsum (take (Z.to_nat n) (eqt r 1)))
      else Err (InvalidSize (2 ^ len r) n)
    else Err (InvalidInput "eq table dimension overflow").
Proof.
  intros Hn. unfold prefix_sum. rewrite table_len_spec by apply len_nonneg.
  destruct (Z.ltb_spec (len r) 64); cbn [obind]; [|done].
  destruct (Z.ltb_spec (2 ^ len r) n); destruct (Z.leb_spec n (2 ^ len r)); try lia; [done|].
  destruct (Z.eqb_spec n (2 ^ len r)) as [->|].
  - rewrite take_ge, fsum_eqt; [done|]. pose proof (len_eqt r 1) as Hl. unfold len in *. lia.
  - destruct (prefix_loop_spec r [] n 0 1 Hn) as [e' He']. rewrite app_nil_r in He'.
    rewrite He'. cbn [obind]. rewrite Z.mod_small by lia. f_equal. ring.
Qed.

(** ** The split representation *)

Lemma eqt_index r s i :
  (0 <= i < 2 ^ len r)%Z -> index (eqt r s) i = Some (s * eq_at r i).
Proof.
  intros Hi. replace i with (Z.of_nat (Z.to_nat i)) by lia. rewrite index_nat.
  apply eqt_lookup. rewrite <-pow2_to_nat. unfold len in Hi. lia.
Qed.

Lemma take_eqt r n :
  (0 <= n <= 2 ^ len r)%Z -> map (eq_at r) (range n) = take (Z.to_nat n) (eqt r 1).
Proof.
  intros Hn. apply list_eq. intros i.
  destruct (decide (i < Z.to_nat n)%nat) as [Hi|Hi].
  - rewrite lookup_take_lt by done.
    rewrite eqt_lookup by (rewrite <-pow2_to_nat; unfold len in Hn; lia).
    change (map (eq_at r) (range n)) with (eq_at r <$> range n).
    rewrite list_lookup_fmap. unfold range. rewrite lookup_seqZ_lt by lia.
    cbn [fmap option_fmap option_map]. rewrite Z.add_0_l. f_equal. ring.
  - rewrite lookup_take_ge by lia. apply lookup_ge_None_2.
    rewrite length_map, length_range. lia.
Qed.

Lemma split_new_spec r s :
  SplitEqEvals.new r = Ok s ->
  e_in s = eqt (take (length r / 2) r) 1 /\ e_out s = eqt (drop (length r / 2) r) 1.
Proof.
  unfold SplitEqEvals.new, evals. intros Hs. obind_inv Hs. obind_inv Hs. injection Hs as <-.
  cbn [e_in e_out].
  pose proof (evals_with_scaling_outcome (take (length r / 2) r) None) as Hlo.
  pose proof (evals_with_scaling_outcome (drop (length r / 2) r) None) as Hhi.
  rewrite E0 in Hlo. rewrite E1 in Hhi. destruct Hlo as [-> _], Hhi as [-> _].
  by rewrite !map_id.
Qed.

Lemma split_sizes r s :
  SplitEqEvals.new r = Ok s ->
  len (e_in s) = (2 ^ len (take (length r / 2) r))%Z /\
  SplitEqEvals.table_size s = (2 ^ len r)%Z.
Proof.
  intros [Hi Ho]%split_new_spec. unfold SplitEqEvals.table_size. rewrite Hi, Ho, !len_eqt.
  split; [done|]. rewrite <-Z.pow_add_r by apply len_nonneg. f_equal.
  by rewrite <-len_app, take_drop.
Qed.

Lemma eval_at_spec r s i :
  SplitEqEvals.new r = Ok s -> (0 <= i < 2 ^ len r)%Z ->
  SplitEqEvals.eval_at s i = Ok (eq_at r i).
Proof.
  intros Hs Hi. pose proof (split_sizes _ _ Hs) as [Hin Hsz].
  apply split_new_spec in Hs as [He Ho]. unfold SplitEqEvals.eval_at, SplitEqEvals.in_len.
  rewrite Hsz. destruct (Z.leb_spec (2 ^ len r) i); [lia|].
  set (lo := take (length r / 2) r) in *. set (hi := drop (length r / 2) r) in *.
  assert (Hr : r = lo ++ hi) by (symmetry; apply take_drop).
  assert (Hp : (0 < 2 ^ len lo)%Z) by (apply pow2_pos, len_nonneg).
  rewrite Hin, He, Ho. rewrite Hr, len_app, Z.pow_add_r in Hi by apply len_nonneg.
  rewrite !eqt_index; cycle 1.
  { by apply Z.mod_pos_bound. }
  { split; [apply Z.div_pos; lia|]. apply Z.div_lt_upper_bound; lia. }
  cbn [unwrap obind]. rewrite Hr, eq_at_app. f_equal. ring.
Qed.

(** the split representation stores two half tables whose products are
    exactly the entries of the equality table: [eval_at] returns entry [i]
    for every index below [2^n] and an error above, and [evals_prefix]
    returns the first [n] entries or an [InvalidSize] error. *)
Theorem split_eq_factorization r s :
  SplitEqEvals.new r = Ok s ->
  (forall i, (0 <= i < 2 ^ len r)%Z -> SplitEqEvals.eval_at s i = Ok (eq_at r i)) /\
  (forall i, (2 ^ len r <= i)%Z -> exists e, SplitEqEvals.eval_at s i = Err e) /\
  (forall n, (0 <= n)%Z ->
     EqPrefix.evals_prefix r n =
       if (n <=? 2 ^ len r)%Z then Ok (take (Z.to_nat n) (eqt r 1))
       else Err (InvalidSize (2 ^ len r) n)).
Proof.
  intros Hs. pose proof (split_sizes _ _ Hs) as [_ Hsz].
  split; [intros; by apply eval_at_spec|]. split.
  - intros i Hi. unfold SplitEqEvals.eval_at. rewrite Hsz.
    destruct (Z.leb_spec (2 ^ len r) i); [by eexists|lia].
  - intros n Hn. unfold EqPrefix.evals_prefix. rewrite Hs. cbn [obind]. rewrite Hsz.
    destruct (Z.ltb_spec (2 ^ len r) n); destruct (Z.leb_spec n (2 ^ len r)); try lia; [done|].
    rewrite <-take_eqt by lia. apply omapM_Forall2.
    apply Forall2_fmap_r. apply Forall_Forall2_diag. apply Forall_forall.
    intros i Hi%list_elem_of_In%elem_of_range. apply eval_at_spec; [done|lia].
Qed.

(** ** Cached suffix tables *)

Lemma cached_loop t p q X R :
  length X = (2 * length p)%nat ->
  ofold (fun next i =>
           let* value := unwrap (index (p ++ q) i) in
           let (left, right) := split_lagrange_parent value t in
           let* next := store next (2 * i) left in
           store next (2 * i + 1) right) (rev (range (len p))) (X ++ R)
  = Ok (E := AkitaError) (layer (fun v => v) t p ++ R).
Proof.
  revert q X R; induction p as [|v p IH] using rev_ind; intros q X R HX.
  { destruct X; [done|discriminate HX]. }
  rewrite len_app. change (len [v]) with 1%Z. rewrite range_S by apply len_nonneg.
  rewrite rev_app_distr. cbn [rev app ofold]. rewrite <-app_assoc. cbn [app].
  rewrite index_middle by done. cbn [unwrap obind]. unfold split_lagrange_parent at 1.
  rewrite length_app in HX. cbn [length] in HX.
  destruct (@exists_last _ X) as (X1 & b & ->); [intros ->; cbn in HX; lia|].
  rewrite length_app in HX. cbn [length] in HX.
  destruct (@exists_last _ X1) as (Y & a & ->); [intros ->; cbn in HX; lia|].
  rewrite length_app in HX. cbn [length] in HX. rewrite <-!app_assoc. cbn [app].
  rewrite store_middle by (unfold len; lia). cbn [obind].
  replace (Y ++ (v - v * t) :: b :: R) with ((Y ++ [v - v * t]) ++ b :: R)
    by (by rewrite <-app_assoc).
  rewrite store_middle by (rewrite len_app; unfold len; cbn [length]; lia). cbn [obind].
  rewrite <-!app_assoc. cbn [app]. rewrite IH by lia.
  rewrite layer_app, <-app_assoc. done.
Qed.

Lemma cached_layer_spec t prev next :
  length next = (2 * length prev)%nat ->
  cached_layer t prev next (len prev) = Ok (layer (fun v => v) t prev).
Proof.
  intros Hl. pose proof (cached_loop t prev [] next [] Hl) as Hc.
  rewrite !app_nil_r in Hc. exact Hc.
Qed.

(** The tables of the suffixes [r[n - j ..]] for [j] in the given range. *)
Definition suffix_tables (r : list E) (s : E) (n : nat) : list (list E) :=
  map (fun j => eqt (drop (length r - j) r) s) (seq 0 n).
Definition zero_layers (a n : nat) : list (list E) :=
  map (fun j => replicate (2 ^ j) 0) (seq a n).

Lemma zero_layers_loop n a acc :
  (forall j, (a <= j < a + n)%nat -> reserve_exact (2 ^ Z.of_nat j) = true) ->
  (a + n <= 64)%nat -> 
  forall l, length l = n ->
  exists last,
  ofold (fun '(result, layer_len) (_ : Z) =>
           let* layer := zero_vec "cached eq table layer" layer_len in
           Ok (result ++ [layer], saturating_mul layer_len 2)) l (acc, (2 ^ Z.of_nat a)%Z)
  = Ok (acc ++ zero_layers a n, last).
Proof.
  revert a acc; induction n as [|n IH]; intros a acc Ha Hn l Hl.
  { destruct l; [|discriminate Hl]. eexists. cbn. by rewrite app_nil_r. }
  destruct l as [|x l]; [discriminate Hl|]. cbn [ofold]. unfold zero_vec at 1.
  rewrite Ha by lia. cbn [obind]. rewrite pow2_to_nat.
  replace (saturating_mul (2 ^ Z.of_nat a) 2) with (if decide (n = 0)%nat then saturating_mul (2 ^ Z.of_nat a) 2 else 2 ^ Z.of_nat (S a))%Z.
  2:{ destruct (decide (n = 0%nat)); [done|]. unfold saturating_mul, USIZE_MAX, USIZE_BITS.
      rewrite Nat2Z.inj_succ, Z.pow_succ_r by lia.
      assert (2 ^ Z.of_nat a <= 2 ^ 62)%Z by (apply Z.pow_le_mono_r; lia). lia. }
  destruct (decide (n = 0%nat)) as [->|].
  { destruct l; [|discriminate Hl]. eexists. cbn. done. }
  destruct (IH (S a) (acc ++ [replicate (2 ^ a) 0])) with (l := l) as [last Hlast];
    [intros; apply Ha; lia|lia|by injection Hl|].
  exists last. rewrite Hlast. by rewrite <-app_assoc.
Qed.

Lemma suffix_step r s (j : nat) t :
  (j < length r)%nat -> r !! (length r - 1 - j)%nat = Some t ->
  layer (fun v => v) t (eqt (drop (length r - j) r) s) = eqt (drop (length r - S j) r) s.
Proof.
  intros Hj Ht. replace (length r - 1 - j)%nat with (length r - S j)%nat in Ht by lia.
  rewrite (drop_S _ _ _ Ht). cbn [eqt]. do 3 f_equal. lia.
Qed.

Lemma cached_fill_loop r s k :
  (k <= length r)%nat ->
  ofold (cached_step r) (range (Z.of_nat k))
    (suffix_tables r s 1 ++ zero_layers 1 (length r))
  = Ok (suffix_tables r s (S k) ++ zero_layers (S k) (length r - k)).
Proof.
  induction k as [|k IH]; intros Hk; [by rewrite Nat.sub_0_r|].
  rewrite Nat2Z.inj_succ. unfold Z.succ. rewrite range_S, ofold_app, IH by lia.
  cbn [obind ofold]. unfold cached_step. cbv zeta.
  replace (len r - 1 - Z.of_nat k)%Z with (Z.of_nat (length r - 1 - k)) by (unfold len; lia).
  rewrite index_nat. destruct (lookup_lt_is_Some_2 r (length r - 1 - k)) as [t Ht]; [lia|].
  rewrite Ht. cbn [unwrap obind].
  assert (Hsuf : suffix_tables r s (S k) = suffix_tables r s k ++ [eqt (drop (length r - k) r) s]).
  { unfold suffix_tables. rewrite seq_S, map_app. done. }
  assert (Hlen : forall m, len (suffix_tables r s m) = Z.of_nat m).
  { intros m. unfold len, suffix_tables. by rewrite length_map, length_seq. }
  rewrite Hsuf at 1. rewrite <-app_assoc. cbn [app]. rewrite index_middle by (by rewrite Hlen).
  cbn [unwrap obind].
  assert (Hz : zero_layers (S k) (length r - k)
               = replicate (2 ^ S k) 0 :: zero_layers (S (S k)) (length r - S k)).
  { replace (length r - k)%nat with (S (length r - S k)) by lia. done. }
  rewrite Hz, index_middle by (rewrite Hlen; lia). cbn [unwrap obind].
  replace (2 ^ Z.of_nat k)%Z with (len (eqt (drop (length r - k) r) s)).
  2:{ rewrite len_eqt. unfold len. rewrite length_drop. do 2 f_equal. lia. }
  rewrite cached_layer_spec.
  2:{ rewrite length_replicate, length_eqt, length_drop.
      replace (length r - (length r - k))%nat with k by lia. cbn [Nat.pow]. lia. }
  cbn [obind]. rewrite store_middle by (rewrite Hlen; lia). rewrite suffix_step by (done || lia).
  replace (suffix_tables r s (S (S k)))
    with (suffix_tables r s (S k) ++ [eqt (drop (length r - S k) r) s])
    by (unfold suffix_tables; rewrite (seq_S (S k)), map_app; done).
  by rewrite <-app_assoc.
Qed.

Lemma fits_small n : (0 <= n)%Z -> fits n = true -> (n <= 2 ^ 30)%Z.
Proof.
  unfold fits. rewrite Z.leb_le. change MAX_MATERIALIZED_EQ_TABLE_BYTES with (2 ^ 30)%Z. nia.
Qed.

Lemma budget_granted label n :
  (0 <= n)%Z -> fits n = true -> check_element_budget label n = Ok tt.
Proof.
  intros Hn Hf. pose proof (check_element_budget_spec label n Hn) as Hc.
  destruct (check_element_budget label n) as [[]|e|]; [done|by rewrite Hf in Hc|done].
Qed.

Lemma evals_cached_granted r s :
  fits (2 ^ (len r + 1) - 1) = true ->
  (forall n, (0 <= n <= 2 ^ len r)%Z -> reserve_exact n = true) ->
  evals_cached_with_scaling r s = Ok (suffix_tables r (unwrap_or_one s) (S (length r))).
Proof.
  intros Hf Ha. pose proof (len_nonneg r) as Hr0.
  assert (Hpos : (0 < 2 ^ (len r + 1))%Z) by (apply pow2_pos; lia).
  pose proof (fits_small (2 ^ (len r + 1) - 1) ltac:(lia) Hf) as Hsmall.
  assert (Hlt : (len r < 40)%Z).
  { destruct (Z.lt_ge_cases (len r) 40) as [|Hge]; [done|].
    assert (2 ^ 41 <= 2 ^ (len r + 1))%Z by (apply Z.pow_le_mono_r; lia). lia. }
  assert (Hp : (2 ^ (len r + 1) = 2 ^ len r * 2)%Z) by (rewrite Z.pow_add_r by lia; done).
  assert (0 < 2 ^ len r)%Z by (by apply pow2_pos).
  unfold evals_cached_with_scaling. rewrite table_len_spec by done.
  destruct (Z.ltb_spec (len r) 64); [|lia]. cbn [obind].
  unfold checked_mul, checked_sub, usize.
  rewrite checked_u_in by (unfold in_u, USIZE_BITS; lia).
  rewrite checked_u_in by (unfold in_u, USIZE_BITS; lia).
  cbn [ok_or obind]. rewrite <-Hp, budget_granted by (done || lia). cbn [obind].
  destruct (zero_layers_loop (S (length r)) 0 [])
    with (l := range (len r + 1)) as [last Hlast].
  { intros j Hj. apply Ha. split; [lia|]. apply Z.pow_le_mono_r; unfold len; lia. }
  { unfold len in Hlt. lia. }
  { rewrite length_range. unfold len. lia. }
  change (2 ^ Z.of_nat 0)%Z with 1%Z in Hlast. rewrite Hlast.
  change (zero_layers 0 (S (length r))) with ([0] :: zero_layers 1 (length r)).
  cbn [obind app]. rewrite index_head. cbn [unwrap obind].
  rewrite !store_head. cbn [obind]. rewrite store_head. cbn [obind].
  pose proof (cached_fill_loop r (unwrap_or_one s) (length r) ltac:(lia)) as Hfill.
  change (Z.of_nat (length r)) with (len r) in Hfill.
  replace (suffix_tables r (unwrap_or_one s) 1) with [[unwrap_or_one s]] in Hfill
    by (unfold suffix_tables; cbn; rewrite Nat.sub_0_r, drop_all; done).
  cbn [app] in Hfill. rewrite Hfill, Nat.sub_diag. cbn. by rewrite app_nil_r.
Qed.

(** [evals_cached_with_scaling] returns one table per layer, and layer [j]
    is the (scaled) equality table of the last [j] coordinates [r[n - j ..]],
    the suffix and not the prefix of length [j]; the last layer is the whole
    table.  It does so whenever the summed layers are within budget and the
    allocator grants them. *)
Theorem evals_cached_suffixes r s :
  fits (2 ^ (len r + 1) - 1) = true ->
  (forall n, (0 <= n <= 2 ^ len r)%Z -> reserve_exact n = true) ->
  exists tables,
    evals_cached_with_scaling r s = Ok tables /\ length tables = S (length r) /\
    forall j : nat, (j <= length r)%nat ->
      tables !! j = Some (eqt (drop (length r - j) r) (unwrap_or_one s)).
Proof.
  intros Hf Ha. exists (suffix_tables r (unwrap_or_one s) (S (length r))).
  split; [by apply evals_cached_granted|]. split.
  - unfold suffix_tables. by rewrite length_map, length_seq.
  - intros j Hj. unfold suffix_tables.
    change (@map nat (list E)) with (@fmap list _ nat (list E)).
    rewrite list_lookup_fmap, lookup_seq_lt by lia. done.
Qed.
End constructors.

(** * Evaluation at concrete inputs *)

Module F97_env.
#[export] Instance runtime : EqRuntime F97.t :=
  {| size_of := 8; parallel := true; current_num_threads := 4 |}.
#[export] Instance allocator : Allocator := fun _ => true.
End F97_env.
Import F97_env.

Lemma evals_with_scaling_table_witness :
  EqPolynomial.evals_with_scaling (map F97.of_Z [3; 5]%Z) None
  = Ok (map F97.of_Z [8; -12; -10; 15]%Z) /\
  exists e, EqPolynomial.mle (map F97.of_Z [3; 5]%Z) (bits_of 2 3) = Ok e.
Proof.
  split; [vm_compute; reflexivity|].
  pose proof (evals_with_scaling_table (E := F97.t) (map F97.of_Z [3; 5]%Z) None) as Hw.
  destruct (EqPolynomial.evals_with_scaling (map F97.of_Z [3; 5]%Z) None) as [tbl|e|] eqn:He;
    [|vm_compute in He; discriminate He..].
  destruct Hw as (_ & _ & Hw). destruct (Hw 3%nat ltac:(cbn; lia)) as (e & Hm & _).
  exists e. exact Hm.
Defined.

Lemma evals_mapped_paths_witness :
  exists tbl, EqPolynomial.evals (map F97.of_Z [3; 5]%Z) = Ok tbl /\
    EqPolynomial.evals_mapped (map F97.of_Z [3; 5]%Z) (fun x => x * x) = Ok (map (fun x => x * x) tbl).
Proof.
  apply (evals_mapped_paths (E := F97.t) (map F97.of_Z [3; 5]%Z) (fun x => x * x));
    [reflexivity|reflexivity|done].
Defined.

Lemma prefix_sum_spec_witness :
  EqPolynomial.prefix_sum (map F97.of_Z [3; 5]%Z) 3 = Ok (F97.of_Z (-14)).
Proof.
  rewrite (prefix_sum_spec (E := F97.t) (map F97.of_Z [3; 5]%Z) 3) by lia.
  vm_compute. reflexivity.
Defined.

Lemma split_eq_factorization_witness :
  exists s, SplitEqEvals.new (map F97.of_Z [3; 5; 7]%Z) = Ok s /\
    SplitEqEvals.eval_at s 6 = Ok (eq_at (map F97.of_Z [3; 5; 7]%Z) 6).
Proof.
  destruct (SplitEqEvals.new (map F97.of_Z [3; 5; 7]%Z)) as [s|e|] eqn:Hs;
    [|vm_compute in Hs; discriminate Hs..].
  exists s. split; [reflexivity|].
  apply (split_eq_factorization (E := F97.t) (map F97.of_Z [3; 5; 7]%Z) s Hs).
  vm_compute. split; congruence.
Defined.

Lemma evals_cached_suffixes_witness :
  exists tables, EqPolynomial.evals_cached_with_scaling (map F97.of_Z [3; 5]%Z) None = Ok tables /\
    tables !! 1%nat = Some (eqt [F97.of_Z 5] (F97.of_Z 1)).
Proof.
  destruct (evals_cached_suffixes (E := F97.t) (map F97.of_Z [3; 5]%Z) None)
    as (tables & Ht & _ & Hj); [reflexivity|done|].
  exists tables. split; [exact Ht|]. apply (Hj 1%nat). cbn. lia.
Defined.
