(* ===== verification/MultiPoly.v ===== *)
(** [akita-algebra/src/poly.rs]: fixed-size coefficient containers, the
    range-check polynomial, evaluation of a multilinear table and in-place
    folding. *)

From S2P Require Import Prelude Checked Field Serialization UniPoly EqPoly.
Local Open Scope field_scope.

(** [jolt_field]: [Ring::from_i64] and [Fold::fold_one] (with its precomputed
    context), operations of the external field crate. *)
Class RingI64 (E : Type) := from_i64 : Z -> E.
Class Fold (E : Type) := fold_one : E -> E -> E -> E.
Class FoldLaws (E : Type) `{Field E, Fold E} :=
  fold_one_spec r lhs rhs : fold_one r lhs rhs = lhs + r * (rhs - lhs).

(** [jolt_field::Ring::from_i64]: the canonical map from the integers. *)
Class RingI64Laws (F : Type) `{Field F, RingI64 F} := {
  from_i64_0 : from_i64 0%Z = (0 : F);
  from_i64_succ z : (- 2 ^ 63 <= z)%Z -> (z + 1 < 2 ^ 63)%Z -> from_i64 (z + 1)%Z = (from_i64 z + 1 : F);
}.

(** [Poly<F, D>]: exactly [D] coefficients. *)
Record Poly (D : nat) (E : Type) := { poly_coeffs : list E }.
Arguments poly_coeffs {D E}. Arguments Build_Poly {D E}.

Module Poly.

Section ops.
Context {E : Type} `{Field E} {D : nat}.

Definition zero : Poly D E := {| poly_coeffs := replicate D 0 |}.
Definition add (a b : Poly D E) : Poly D E :=
  {| poly_coeffs := zip_with fadd (poly_coeffs a) (poly_coeffs b) |}.
Definition sub (a b : Poly D E) : Poly D E :=
  {| poly_coeffs := zip_with fsub (poly_coeffs a) (poly_coeffs b) |}.
Definition neg (a : Poly D E) : Poly D E := {| poly_coeffs := map fneg (poly_coeffs a) |}.
End ops.

End Poly.

Section codec.
Context {E : Type} `{Valid E, AkitaSerialize E, AkitaDeserialize E unit} {D : nat}.

#[export] Instance Poly_Valid : Valid (Poly D E) := fun p => batch_check (poly_coeffs p).
#[export] Instance Poly_Serialize : AkitaSerialize (Poly D E) := {
  serialize_with_mode p c := write_items (poly_coeffs p) c;
  serialized_size p c := items_size (poly_coeffs p) c;
}.
#[export] Instance Poly_Deserialize : AkitaDeserialize (Poly D E) unit := fun input c v _ =>
  let* (coeffs, rest) := read_items c v (replicate D tt) input in
  let* out := checked_out v {| poly_coeffs := coeffs |} in
  Ok (out, rest).
End codec.

Section ops.
Context {E : Type} `{Field E, EqRuntime E, Allocator, RingI64 E, Fold E}.

(** [for k in -half..half { acc *= w - from_i64(k) }] *)
Definition range_check_eval (w : E) (b : Z) : E :=
  let half := (b / 2)%Z in
  foldl (fun acc k => acc * (w - from_i64 k)) 1 (seqZ (- half) (half + half)).

Fixpoint multilinear_eval_ref_rev (evals : list E) (rev_point : list E) : result E :=
  match rev_point with
  | [] => if (len evals =? 1)%Z then unwrap (index evals 0) else Panic
  | r :: rest =>
      let half := (length evals / 2)%nat in
      let* lo := multilinear_eval_ref_rev (take half evals) rest in
      let* hi := multilinear_eval_ref_rev (drop half evals) rest in
      Ok (lo + r * (hi - lo))
  end.

(** [split_last] takes the coordinates from the end of the point. *)
Definition multilinear_eval_ref (evals : list E) (point : list E) : result E :=
  multilinear_eval_ref_rev evals (rev point).

Definition multilinear_eval (evals : list E) (point : list E) : result E :=
  let* point_len := ok_or (checked_u 32 (len point)) (InvalidSize 64 (len point)) in
  let* expected := ok_or (if (point_len <? 64)%Z then Some (2 ^ point_len)%Z else None)
                     (InvalidSize USIZE_MAX (len evals)) in
  if negb (checked.is_power_of_two (len evals)) then Err (InvalidSize expected (len evals))
  else if negb (len evals =? expected)%Z then Err (InvalidSize expected (len evals))
  else if parallel E && (14 <? len point)%Z && (len evals <=? DEFAULT_MAX_SEQUENCE_LEN)%Z then
    let* eq_table := EqPolynomial.evals_parallel point None in
    Ok (foldl (fun acc '(e, eq) => acc + e * eq) 0 (zip evals eq_table))
  else multilinear_eval_ref evals point.

(** The serial in-place loop: output [target] only clobbers an entry at or
    below the ones still to be read. *)
Definition fold_step (r : E) (evals : list E) (target : Z) : result (list E) :=
  let source := (2 * target)%Z in
  let* lhs := unwrap (index evals source) in
  let rhs := match index evals (source + 1) with Some v => v | None => 0 end in
  store evals target (fold_one r lhs rhs).

Definition fold_evals_in_place (evals : list E) (r : E) : result (list E) :=
  if (len evals =? 0)%Z then Panic
  else
    let next_len := ((len evals + 1) / 2)%Z in
    if parallel E && (4096 <=? next_len)%Z then
      omapM (fun target =>
               let* lhs := unwrap (index evals (2 * target)) in
               let rhs := match index evals (2 * target + 1) with Some v => v | None => 0 end in
               Ok (fold_one r lhs rhs)) (range next_len)
    else
      let* evals := ofold (fold_step r) (range next_len) evals in
      Ok (take (Z.to_nat next_len) evals).
End ops.

(** * Multilinear evaluation *)

Section mle.
Context {E : Type} `{FieldLaws E}.
Add Ring Ering : (field_ring (E := E)).

(** [sum_i evals[i] * eq(point, bits of i)], zero beyond the table. *)
Definition dot (l1 l2 : list E) : E := fsum (zip_with fmul l1 l2).
Definition mle_value (evals : list E) (point : list E) : E := dot evals (eqt point 1).

Lemma dot_cons a b l1 l2 : dot (a :: l1) (b :: l2) = a * b + dot l1 l2.
Proof. done. Qed.

Lemma dot_nil_l l : dot [] l = 0. Proof. done. Qed.
Lemma dot_nil_r l : dot l [] = 0. Proof. by destruct l. Qed.

Lemma dot_app a1 a2 b1 b2 :
  length a1 = length b1 -> dot (a1 ++ a2) (b1 ++ b2) = dot a1 b1 + dot a2 b2.
Proof.
  revert b1; induction a1 as [|a a1 IH]; intros [|b b1] Hl; try discriminate Hl.
  - cbn [app]. rewrite dot_nil_l. ring.
  - cbn [app]. rewrite !dot_cons, IH by (by injection Hl). ring.
Qed.

Lemma dot_scale l tbl s : dot l (map (fun v => v * s) tbl) = dot l tbl * s.
Proof.
  revert tbl; induction l as [|a l IH]; intros [|b tbl]; cbn [map];
    rewrite ?dot_nil_l, ?dot_nil_r, ?dot_cons, ?IH; ring.
Qed.

Lemma dot_eqt_scale l point s : dot l (eqt point s) = mle_value l point * s.
Proof.
  unfold mle_value. rewrite <-dot_scale, eqt_scale. do 2 f_equal. ring.
Qed.

Lemma dot_fold l tbl a :
  foldl (fun acc '(e, eq) => acc + e * eq) a (zip l tbl) = a + dot l tbl.
Proof.
  revert tbl a; induction l as [|e l IH]; intros [|x tbl] a;
    rewrite ?dot_nil_l, ?dot_nil_r; try (cbn; ring).
  cbn [zip zip_with foldl]. rewrite IH, dot_cons. ring.
Qed.

Lemma multilinear_eval_ref_spec evals point :
  length evals = (2 ^ length point)%nat ->
  multilinear_eval_ref evals point = Ok (mle_value evals point).
Proof.
  unfold multilinear_eval_ref.
  revert evals; induction point as [|r point IH] using rev_ind; intros evals Hl.
  - destruct evals as [|e [|]]; try discriminate Hl. transitivity (Ok (E := AkitaError) e); [done|].
    f_equal. unfold mle_value. change (e = e * 1 + 0). ring.
  - rewrite rev_app_distr. cbn [rev app multilinear_eval_ref_rev].
    rewrite length_app in Hl. cbn [length] in Hl. rewrite Nat.pow_add_r in Hl.
    cbn [Nat.pow] in Hl.
    replace (length evals / 2)%nat with (2 ^ length point)%nat
      by (rewrite Hl; rewrite Nat.mul_1_r, Nat.div_mul; lia).
    rewrite IH by (rewrite length_take; lia). cbn [obind].
    rewrite IH by (rewrite length_drop; lia). cbn [obind]. f_equal.
    replace (mle_value evals (point ++ [r]))
      with (dot (take (2 ^ length point) evals ++ drop (2 ^ length point) evals)
              (eqt (point ++ [r]) 1)) by (by rewrite take_drop).
    rewrite eqt_snoc_halves, dot_app by (rewrite length_take, length_eqt; lia).
    rewrite !dot_eqt_scale. ring.
Qed.
End mle.

(** * Folding *)

Section folding.
Context {E : Type} `{FieldLaws E, EqRuntime E, Allocator, RingI64 E, !Fold E, !FoldLaws E}.
Add Ring Ering2 : (field_ring (E := E)).

(** Binding the first variable: pairs are interpolated, a missing final entry
    counts as zero. *)
Fixpoint fold_pairs (r : E) (l : list E) : list E :=
  match l with
  | [] => []
  | [a] => [a + r * (0 - a)]
  | a :: b :: l => (a + r * (b - a)) :: fold_pairs r l
  end.

Lemma list_pair_ind {A} (P : list A -> Prop) :
  P [] -> (forall a, P [a]) -> (forall a b l, P l -> P (a :: b :: l)) -> forall l, P l.
Proof.
  intros H0' H1' Hs. fix IH 1. intros [|a [|b l]]; [done|done|]. apply Hs, IH.
Qed.

Lemma length_fold_pairs r l : length (fold_pairs r l) = ((length l + 1) / 2)%nat.
Proof.
  induction l as [| |a b l IH] using list_pair_ind; [done..|].
  cbn [fold_pairs length]. rewrite IH.
  replace (S (S (length l)) + 1)%nat with (length l + 1 + 1 * 2)%nat by lia.
  rewrite Nat.div_add by lia. lia.
Qed.

Definition pair_at (r : E) (l : list E) (t : nat) : option E :=
  match l !! (2 * t)%nat with
  | Some a => Some (a + r * (default 0 (l !! (2 * t + 1)%nat) - a))
  | None => None
  end.

Lemma fold_pairs_lookup r l t : fold_pairs r l !! t = pair_at r l t.
Proof.
  unfold pair_at. revert t; induction l as [| |a b l IH] using list_pair_ind; intros t;
    [done|by destruct t as [|[|t]]|].
  destruct t as [|t]; [done|]. cbn [fold_pairs lookup list_lookup].
  replace (2 * S t)%nat with (S (S (2 * t))) by lia.
  replace (S (S (2 * t)) + 1)%nat with (S (S (2 * t + 1))) by lia.
  cbn [lookup list_lookup]. apply IH.
Qed.

Lemma index_plus1 {A} (l : list A) (t : nat) :
  index l (2 * Z.of_nat t + 1) = l !! (2 * t + 1)%nat.
Proof.
  replace (2 * Z.of_nat t + 1)%Z with (Z.of_nat (2 * t + 1)) by lia. apply index_nat.
Qed.

Lemma index_twice {A} (l : list A) (t : nat) : index l (2 * Z.of_nat t) = l !! (2 * t)%nat.
Proof.
  replace (2 * Z.of_nat t)%Z with (Z.of_nat (2 * t)) by lia. apply index_nat.
Qed.

(** After [k] steps the first [k] entries are the folded pairs and the rest is
    as it was. *)
Lemma fold_loop_spec r l (k : nat) :
  (k <= (length l + 1) / 2)%nat ->
  ofold (fold_step r) (range (Z.of_nat k)) l
  = Ok (take k (fold_pairs r l) ++ drop k l).
Proof.
  induction k as [|k IH]; intros Hk; [by rewrite drop_0|].
  assert (Hk' : (2 * k < length l)%nat).
  { assert (2 * S k <= length l + 1)%nat; [|lia].
    etransitivity; [apply Nat.mul_le_mono_l, Hk|]. apply Nat.Div0.mul_div_le. }
  rewrite Nat2Z.inj_succ. unfold Z.succ. rewrite range_S, ofold_app, IH by lia.
  cbn [obind ofold]. unfold fold_step. cbv zeta.
  pose proof (length_fold_pairs r l) as Hfl.
  assert (Hpre : length (take k (fold_pairs r l)) = k) by (rewrite length_take; lia).
  assert (Hlk : forall i, (k <= i)%nat -> (take k (fold_pairs r l) ++ drop k l) !! i = l !! i).
  { intros i Hi. rewrite lookup_app_r by lia. rewrite Hpre, lookup_drop. f_equal. lia. }
  rewrite index_twice, index_plus1, !Hlk by lia.
  destruct (lookup_lt_is_Some_2 l (2 * k) Hk') as [a Ha]. rewrite Ha. cbn [unwrap obind].
  destruct (lookup_lt_is_Some_2 l k) as [b Hb]; [lia|].
  rewrite (drop_S _ _ _ Hb), store_middle by (unfold len; lia). cbn [obind].
  assert (Hp : fold_pairs r l !! k
               = Some (fold_one r a (match l !! (2 * k + 1)%nat with Some v => v | None => 0 end))).
  { rewrite fold_pairs_lookup. unfold pair_at. rewrite Ha, fold_one_spec.
    by destruct (l !! (2 * k + 1)%nat). }
  by rewrite (take_S_r _ _ _ Hp), <-app_assoc.
Qed.

(** Both paths compute the folded pairs. *)
Lemma fold_evals_spec r l :
  l <> [] -> fold_evals_in_place l r = Ok (fold_pairs r l).
Proof.
  intros Hne. unfold fold_evals_in_place.
  destruct (Z.eqb_spec (len l) 0) as [He|_].
  { destruct l; [done|]. unfold len in He. cbn in He. lia. }
  assert (Hn : ((len l + 1) / 2 = Z.of_nat ((length l + 1) / 2))%Z).
  { unfold len. rewrite Nat2Z.inj_div. f_equal. lia. }
  rewrite Hn. destruct (_ && _)%bool.
  - apply omapM_Forall2. apply Forall2_same_length_lookup. split.
    { by rewrite length_range, Nat2Z.id, length_fold_pairs. }
    intros i t v Hi Hv.
    apply lookup_seqZ in Hi as [-> Hi]. rewrite Z.add_0_l, index_twice, index_plus1.
    rewrite fold_pairs_lookup in Hv. unfold pair_at in Hv.
    destruct (l !! (2 * i)%nat); [|done]. apply (inj Some) in Hv as <-. cbn [unwrap obind].
    cbv zeta. rewrite fold_one_spec. destruct (l !! (2 * i + 1)%nat) eqn:Hx; rewrite ?Hx; done.
  - rewrite fold_loop_spec by lia. cbn [obind]. rewrite Nat2Z.id.
    rewrite <-(length_fold_pairs r l), (take_ge (fold_pairs r l)), take_app_length by lia. done.
Qed.

(** Folding the table of [eq] multiplies the scale by one factor. *)
Lemma fold_pairs_eqt x c r s :
  fold_pairs x (eqt (c :: r) s) = eqt r (s * (c * x + (1 - c) * (1 - x))).
Proof.
  rewrite <-eqt_scale. cbn [eqt].
  induction (eqt r s) as [|v tbl IH]; [done|]. rewrite layer_cons. cbn [fold_pairs map].
  rewrite IH. f_equal. ring.
Qed.

Lemma dot_layer x l tbl :
  dot l (layer (fun v => v) x tbl) = dot (fold_pairs x l) tbl.
Proof.
  revert tbl; induction l as [|a|a b l IH] using list_pair_ind; intros [|v tbl];
    rewrite ?layer_cons; cbn [fold_pairs]; rewrite ?dot_nil_r, ?dot_cons, ?dot_nil_l;
    [done..|ring|done|].
  rewrite IH. ring.
Qed.

Lemma mle_fold l x r : mle_value l (x :: r) = mle_value (fold_pairs x l) r.
Proof. unfold mle_value. cbn [eqt]. apply dot_layer. Qed.

(** Folding by all coordinates leaves the value at the point. *)
Fixpoint fold_all (evals : list E) (point : list E) : result (list E) :=
  match point with
  | [] => Ok evals
  | r :: point => let* evals := fold_evals_in_place evals r in fold_all evals point
  end.

(** folding a nonempty evaluation prefix variable by variable (in place
    or with the parallel destination, with implicit zero padding at every odd
    length) never panics and ends, when the point covers the table, in the
    single value of the multilinear extension at the point. *)
Theorem fold_evals_value evals point :
  evals <> [] -> (length evals <= 2 ^ length point)%nat ->
  fold_all evals point = Ok [mle_value evals point].
Proof.
  revert evals; induction point as [|x point IH]; intros evals Hne Hl.
  - cbn in Hl. destruct evals as [|e [|]]; [done| |cbn in Hl; lia].
    cbn. do 2 f_equal. unfold mle_value. change (e = e * 1 + 0). ring.
  - cbn [fold_all]. rewrite fold_evals_spec by done. cbn [obind].
    rewrite IH, mle_fold; [done| |].
    + intros Hc. apply (f_equal length) in Hc. rewrite length_fold_pairs in Hc.
      destruct evals as [|a l]; [done|]. cbn [length] in Hc.
      assert (1 <= (S (length l) + 1) / 2)%nat by (apply Nat.div_le_lower_bound; lia).
      change (length (@nil E)) with 0%nat in Hc. lia.
    + rewrite length_fold_pairs. cbn [length Nat.pow] in Hl.
      apply Nat.lt_succ_r, Nat.Div0.div_lt_upper_bound. lia.
Qed.

(** [multilinear_eval] returns the value of the multilinear extension on
    its recursive path and on its parallel table path, and an [InvalidSize]
    error when the table is not [2^n] long. *)
Theorem multilinear_eval_value evals point :
  (len point < 64)%Z ->
  (parallel E = false \/ fits (2 ^ len point) && reserve_exact (2 ^ len point) = true) ->
  multilinear_eval evals point =
    if (len evals =? 2 ^ len point)%Z then Ok (mle_value evals point)
    else Err (InvalidSize (2 ^ len point) (len evals)).
Proof.
  intros Hn Hpar. pose proof (len_nonneg point). unfold multilinear_eval, checked_u.
  replace ((0 <=? len point) && (len point <? 2 ^ 32))%Z%bool with true
    by (symmetry; apply andb_true_iff; rewrite Z.leb_le, Z.ltb_lt; lia).
  cbn [ok_or obind]. destruct (Z.ltb_spec (len point) 64); [|lia]. cbn [ok_or obind].
  destruct (Z.eqb_spec (len evals) (2 ^ len point)) as [He|He]; cbn [negb].
  2:{ by destruct (checked.is_power_of_two (len evals)). }
  assert (checked.is_power_of_two (len evals) = true) as ->.
  { unfold checked.is_power_of_two. rewrite He, Z.log2_pow2, Z.eqb_refl, andb_true_r by done.
    apply Z.ltb_lt. lia. }
  cbn [negb]. destruct (_ && _ && _)%bool eqn:Hb.
  - bool_prop. destruct Hpar as [Hpar|Hpar]; [congruence|]. bool_prop.
    rewrite parallel_eq_serial. unfold EqPolynomial.evals_serial. change (EqPolynomial.unwrap_or_one None) with (1 : E).
    rewrite (outcome_granted (fun v => v) point 1 _ (serial_outcome _ _ _ _)) by done.
    cbn [obind]. rewrite map_id, dot_fold. unfold mle_value. f_equal. ring.
  - apply multilinear_eval_ref_spec. rewrite <-pow2_to_nat. unfold len in *. lia.
Qed.

Lemma fprod_zero l : fprod l = 0 -> exists a, a ∈ l /\ a = 0.
Proof.
  induction l as [|a l IH]; [intros Hc; by apply fone_neq_zero in Hc|].
  rewrite fprod_cons. intros [->|Hz]%fmul_eq_zero; [exists 0; by split; [left|]|].
  destruct (IH Hz) as (b & Hb & Hb0). exists b. by split; [right|].
Qed.

Lemma fprod_zero_in l : 0 ∈ l -> fprod l = 0.
Proof.
  induction l as [|a l IH]; [by intros ?%elem_of_nil|]. rewrite fprod_cons.
  intros [<-|Hl]%elem_of_cons; [ring|]. rewrite IH by done. ring.
Qed.

(** The range-check polynomial vanishes at [w] exactly when [w] is one of
    the balanced digits [-b/2, ..., b/2 - 1]. *)
Theorem range_check_zero_iff w b :
  (0 <= b)%Z ->
  range_check_eval w b = 0 <->
  exists k, (- (b / 2) <= k < b / 2)%Z /\ w = from_i64 k.
Proof.
  intros Hb. assert (0 <= b / 2)%Z by (apply Z.div_pos; lia). unfold range_check_eval.
  assert (Hf : forall ks a, foldl (fun acc k => acc * (w - from_i64 k)) a ks
                            = a * fprod (map (fun k => w - from_i64 k) ks)).
  { induction ks as [|k ks IH]; intros a; [change (a = a * 1); ring|].
    cbn [foldl map]. rewrite IH, fprod_cons. ring. }
  rewrite Hf. replace (1 * fprod (map (fun k => w - from_i64 k) (seqZ (- (b / 2)) (b / 2 + b / 2))))
    with (fprod (map (fun k => w - from_i64 k) (seqZ (- (b / 2)) (b / 2 + b / 2)))) by ring.
  split.
  - intros (a & Ha & ->)%fprod_zero. apply list_elem_of_In, in_map_iff in Ha as (k & Hk & Hin).
    apply list_elem_of_In, elem_of_seqZ in Hin. exists k. split; [lia|].
    transitivity (w - from_i64 k + from_i64 k); [ring|]. rewrite Hk. ring.
  - intros (k & Hk & ->). apply fprod_zero_in. apply list_elem_of_In, in_map_iff.
    exists k. split; [ring|]. apply list_elem_of_In, elem_of_seqZ. lia.
Qed.
End folding.

(** [from_i64] on integers of half the width. *)
Section from_i64.
Context {E : Type} `{FieldLaws E, !RingI64 E, !RingI64Laws E}.
Add Ring Ering_i64 : (field_ring (E := E)).

Definition half_width (z : Z) : Prop := (- 2 ^ 62 <= z < 2 ^ 62)%Z.

Lemma from_i64_one : from_i64 1%Z = (1 : E).
Proof. change 1%Z with (0 + 1)%Z. rewrite from_i64_succ, from_i64_0 by lia. ring. Qed.

Lemma from_i64_add_pos a k : half_width a -> (0 <= k < 2 ^ 62)%Z -> from_i64 (a + k)%Z = (from_i64 a + from_i64 k : E).
Proof.
  unfold half_width. intros Ha [Hk Hlt]. revert Hlt. pattern k. apply natlike_ind; [..|exact Hk].
  - intros _. rewrite Z.add_0_r, from_i64_0. ring.
  - intros z Hz IH Hlt. unfold Z.succ. rewrite Z.add_assoc, !from_i64_succ, IH by lia. ring.
Qed.

Lemma from_i64_neg k : half_width k -> from_i64 (- k)%Z = (- from_i64 k : E).
Proof.
  unfold half_width. intros Hk.
  assert (Hpos : forall z, (0 <= z <= 2 ^ 62)%Z -> from_i64 (- z)%Z = (- from_i64 z : E)).
  { clear k Hk. intros z [Hz Hlt]. revert Hlt. pattern z. apply natlike_ind; [..|exact Hz].
    - intros _. rewrite Z.opp_0, from_i64_0. ring.
    - intros y Hy IH Hlt. unfold Z.succ in *. rewrite from_i64_succ by lia.
      assert (Hs : from_i64 (- (y + 1) + 1)%Z = (from_i64 (- (y + 1))%Z + 1 : E)) by (apply from_i64_succ; lia).
      replace (- (y + 1) + 1)%Z with (- y)%Z in Hs by lia. rewrite IH in Hs by lia.
      transitivity (from_i64 (- (y + 1))%Z + 1 - 1 : E); [ring|]. rewrite <-Hs. ring. }
  destruct (Z.leb_spec 0 k) as [Hle|Hgt]; [apply Hpos; lia|].
  pose proof (Hpos (- k)%Z ltac:(lia)) as Hn. rewrite Z.opp_involutive in Hn. rewrite Hn. ring.
Qed.

Lemma from_i64_mul_pos a k : (0 <= k)%Z -> (Z.abs a * k < 2 ^ 61)%Z -> half_width a -> (k < 2 ^ 62)%Z ->
  from_i64 (a * k)%Z = (from_i64 a * from_i64 k : E).
Proof.
  intros Hk. pattern k. apply natlike_ind; [..|exact Hk].
  - intros _ _ _. rewrite Z.mul_0_r, from_i64_0. ring.
  - intros z Hz IH Hlt Ha Hb. unfold half_width in Ha. unfold Z.succ in *. rewrite Z.mul_add_distr_l, Z.mul_1_r.
    rewrite from_i64_succ by lia. destruct (Z.leb_spec 0 a).
    + rewrite (Z.add_comm (a * z)), from_i64_add_pos, IH by (unfold half_width; nia). ring.
    + assert (Hs : from_i64 (a * z)%Z = (from_i64 (a * z + a)%Z + from_i64 (- a)%Z : E)).
      { rewrite <-from_i64_add_pos by (unfold half_width; nia). f_equal. lia. }
      rewrite from_i64_neg in Hs by done. rewrite IH in Hs by (unfold half_width; nia).
      transitivity (from_i64 (a * z + a)%Z + - from_i64 a + from_i64 a : E); [ring|]. rewrite <-Hs. ring.
Qed.
End from_i64.

(** * Evaluation at concrete inputs *)

Module F97_fold.
#[export] Instance ringi64 : RingI64 F97.t := F97.of_Z.
#[export] Instance fold : Fold F97.t := fun r lhs rhs => lhs + r * (rhs - lhs).
#[export] Instance fold_laws : FoldLaws F97.t := fun _ _ _ => eq_refl.
#[export] Instance ringi64_laws : RingI64Laws F97.t.
Proof.
  split; [done|]. intros z _ _. apply F97.val_inj. unfold from_i64, ringi64. cbn.
  by rewrite Z.add_mod_idemp_l by done.
Qed.
End F97_fold.
Import F97_env F97_fold.

Lemma fold_evals_value_witness :
  fold_all (map F97.of_Z [3; 5; 7]%Z) (map F97.of_Z [2; 4]%Z)
  = Ok [F97.of_Z (-49)].
Proof.
  rewrite (fold_evals_value (E := F97.t) (map F97.of_Z [3; 5; 7]%Z) (map F97.of_Z [2; 4]%Z));
    [vm_compute; reflexivity|discriminate|cbn; lia].
Defined.

Lemma multilinear_eval_value_witness :
  multilinear_eval (map F97.of_Z [3; 5; 7; 9]%Z) (map F97.of_Z [2; 4]%Z) = Ok (F97.of_Z 23).
Proof.
  rewrite (multilinear_eval_value (E := F97.t) (map F97.of_Z [3; 5; 7; 9]%Z)
             (map F97.of_Z [2; 4]%Z)); [vm_compute; reflexivity|reflexivity|right; reflexivity].
Defined.

Lemma range_check_zero_iff_witness :
  range_check_eval (F97.of_Z (-2)) 4 = 0 /\ (exists k, (-2 <= k < 2)%Z /\ F97.of_Z (-2) = from_i64 k).
Proof.
  pose proof (range_check_zero_iff (E := F97.t) (F97.of_Z (-2)) 4 ltac:(lia)) as Hw.
  assert (Hk : exists k, (-2 <= k < 2)%Z /\ F97.of_Z (-2) = from_i64 k)
    by (exists (-2)%Z; split; [lia|reflexivity]).
  split; [apply Hw; exact Hk|exact Hk].
Defined.
