(* ===== verification/SplitEq.v ===== *)
(** [akita-algebra/src/split_eq.rs]: the Gruen / Dao-Thaler split equality
    polynomial, a state machine advanced by one [bind] per sumcheck round. *)

From S2P Require Import Prelude Checked Field Serialization UniPoly EqPoly MultiPoly.
Local Open Scope field_scope.

Record GruenSplitEq (E : Type) := {
  tau : list E;
  current_round : Z;
  current_scalar : E;
  E_first : list (list E);
  E_second : list (list E);
}.
Arguments tau {E}. Arguments current_round {E}. Arguments current_scalar {E}.
Arguments E_first {E}. Arguments E_second {E}.

Module GruenSplitEq.

Section ops.
Context {E : Type} `{Field E, EqRuntime E, Allocator}.

Definition with_initial_scalar (tau : list E) (initial_scalar : E) : result (GruenSplitEq E) :=
  let n := length tau in
  if Nat.eqb n 0 then Err (InvalidSize 1 0)
  else
    let m := ((n - 1) / 2)%nat in
    let split := (1 + m)%nat in
    let first_half := take m (drop 1 tau) in
    let second_half := drop split tau in
    let* E_first := EqPolynomial.evals_cached first_half in
    let* E_second := EqPolynomial.evals_cached second_half in
    Ok {| tau := tau; current_round := 0; current_scalar := initial_scalar;
          E_first := E_first; E_second := E_second |}.

Definition new (tau : list E) : result (GruenSplitEq E) := with_initial_scalar tau 1.

Definition current_tau (g : GruenSplitEq E) : result E :=
  unwrap (index (tau g) (current_round g)).

(** [last().expect(..)] on both stacks of tables. *)
Definition remaining_eq_tables (g : GruenSplitEq E) : result (list E * list E) :=
  let* e_first := unwrap (index (E_first g) (len (E_first g) - 1)) in
  let* e_second := unwrap (index (E_second g) (len (E_second g) - 1)) in
  Ok (e_first, e_second).

(** The documented index split of the remaining factor:
    [E_first[j & (len - 1)] * E_second[j >> trailing_zeros(len)]]. *)
Definition eq_remaining (g : GruenSplitEq E) (j : Z) : result E :=
  let* (e_first, e_second) := remaining_eq_tables g in
  let* lo := unwrap (index e_first (Z.land j (len e_first - 1))) in
  let* hi := unwrap (index e_second (Z.shiftr j (Z.log2 (len e_first)))) in
  Ok (lo * hi).

Definition bind (g : GruenSplitEq E) (r : E) : result (GruenSplitEq E) :=
  let* tau_k := unwrap (index (tau g) (current_round g)) in
  let scalar := current_scalar g * (tau_k * r + (1 - tau_k) * (1 - r)) in
  let g' first second :=
    {| tau := tau g; current_round := current_round g + 1; current_scalar := scalar;
       E_first := first; E_second := second |} in
  Ok (if (1 <? len (E_first g))%Z then g' (removelast (E_first g)) (E_second g)
      else if (1 <? len (E_second g))%Z then g' (E_first g) (removelast (E_second g))
      else g' (E_first g) (E_second g)).

Definition linear_factor_evals (g : GruenSplitEq E) : result (E * E) :=
  let* t := current_tau g in
  let l_at_1 := current_scalar g * t in
  let l_at_0 := current_scalar g - l_at_1 in
  Ok (l_at_0, l_at_1).

Definition can_recover_linear_q_term_from_claim (g : GruenSplitEq E) : result bool :=
  let* (_, l_at_1) := linear_factor_evals g in
  Ok (match finverse l_at_1 with Some _ => true | None => false end).

(** [coeffs[i] += c * a; coeffs[i + 1] += c * b] for increasing [i], on a
    zeroed vector: [carry] is the value already accumulated at [i]. *)
Fixpoint mul_linear (carry a b : E) (cs : list E) : list E :=
  match cs with
  | [] => [carry]
  | c :: cs => (carry + c * a) :: mul_linear (0 + c * b) a b cs
  end.

Definition gruen_mul (g : GruenSplitEq E) (q_poly : UniPoly E) : result (UniPoly E) :=
  let* (l_at_0, l_at_1) := linear_factor_evals g in
  let slope := l_at_1 - l_at_0 in
  Ok (UniPoly.from_coeffs (mul_linear 0 l_at_0 slope (coeffs q_poly))).

(** [None] of the source is the inner option. *)
Definition try_gruen_poly_from_coeffs_except_linear (g : GruenSplitEq E)
    (q_coeffs_except_linear : list E) (s_0_plus_s_1 : E) : result (option (UniPoly E)) :=
  match q_coeffs_except_linear with
  | [] => Ok (Some (UniPoly.from_coeffs [0]))
  | q_at_0 :: rest =>
      let* (l_at_0, l_at_1) := linear_factor_evals g in
      if feqb l_at_0 0 && feqb l_at_1 0 then Ok (Some (UniPoly.from_coeffs [0]))
      else
        match finverse l_at_1 with
        | None => Ok None
        | Some l_at_1_inv =>
            let q_at_1 := (s_0_plus_s_1 - l_at_0 * q_at_0) * l_at_1_inv in
            let sum_except_linear := foldl fadd 0 q_coeffs_except_linear in
            let q_linear := q_at_1 - sum_except_linear in
            let* s := gruen_mul g (UniPoly.from_coeffs (q_at_0 :: q_linear :: rest)) in
            Ok (Some s)
        end
  end.

Definition try_gruen_poly_deg_3 (g : GruenSplitEq E) (q_constant q_quadratic_coeff s_0_plus_s_1 : E)
  : result (option (UniPoly E)) :=
  let* (l_at_0, l_at_1) := linear_factor_evals g in
  if feqb l_at_0 0 && feqb l_at_1 0 then Ok (Some (UniPoly.from_coeffs [0]))
  else
    match finverse l_at_1 with
    | None => Ok None
    | Some l_at_1_inv =>
        let slope := l_at_1 - l_at_0 in
        let l_at_2 := l_at_1 + slope in
        let l_at_3 := l_at_2 + slope in
        let q_at_0 := q_constant in
        let s_at_0 := l_at_0 * q_at_0 in
        let s_at_1 := s_0_plus_s_1 - s_at_0 in
        let q_at_1 := s_at_1 * l_at_1_inv in
        let twice_q_quadratic := q_quadratic_coeff + q_quadratic_coeff in
        let q_at_2 := q_at_1 + q_at_1 - q_at_0 + twice_q_quadratic in
        let q_at_3 := q_at_2 + q_at_1 - q_at_0 + twice_q_quadratic + twice_q_quadratic in
        let* s := UniPoly.from_evals [s_at_0; s_at_1; l_at_2 * q_at_2; l_at_3 * q_at_3] in
        Ok (Some s)
    end.

(** The rounds of a sumcheck: one [bind] per challenge. *)
Definition binds (g : GruenSplitEq E) (rs : list E) : result (GruenSplitEq E) :=
  ofold bind rs g.
End ops.

End GruenSplitEq.

(** * The invariant of the rounds *)

Section invariant.
Context {E : Type} `{FieldLaws E, EqRuntime E, Allocator}.
Add Ring Ering : (field_ring (E := E)).
Import GruenSplitEq.

(** One factor of [eq]. *)
Definition eq1 (t r : E) : E := t * r + (1 - t) * (1 - r).

(** [prod_k eq(t_k, r_k)] over the shorter of the two lists. *)
Definition eq_prod (ts rs : list E) : E := fprod (zip_with eq1 ts rs).

(** The two halves of the remaining variables. *)
Definition first_half (tau : list E) : list E :=
  take ((length tau - 1) / 2) (drop 1 tau).
Definition second_half (tau : list E) : list E := drop (1 + (length tau - 1) / 2) tau.

(** The stack of tables after [k] pops. *)
Definition stack (half : list E) (k : nat) : list (list E) :=
  suffix_tables half 1 (S (length half - k)).

(** The state after binding the challenges [rs]. *)
Definition after (tau : list E) (c : E) (rs : list E) : GruenSplitEq E :=
  {| tau := tau;
     current_round := len rs;
     current_scalar := c * eq_prod tau rs;
     E_first := stack (first_half tau) (length rs);
     E_second := stack (second_half tau) (length rs - length (first_half tau)) |}.

Lemma halves t0 rest : first_half (t0 :: rest) ++ second_half (t0 :: rest) = rest.
Proof.
  unfold first_half, second_half.
  replace (length (t0 :: rest) - 1)%nat with (length rest) by (cbn [length]; lia).
  apply (take_drop (length rest / 2) rest).
Qed.

Lemma stack_length half k : length (stack half k) = S (length half - k).
Proof. unfold stack, suffix_tables. by rewrite length_map, length_seq. Qed.

Lemma stack_last half k :
  index (stack half k) (len (stack half k) - 1) = Some (eqt (drop k half) 1).
Proof.
  unfold len. rewrite stack_length.
  replace (Z.of_nat (S (length half - k)) - 1)%Z with (Z.of_nat (length half - k)) by lia.
  rewrite index_nat. unfold stack, suffix_tables.
  change (@map nat (list E)) with (@fmap list _ nat (list E)).
  rewrite list_lookup_fmap, lookup_seq_lt by lia. cbn [fmap option_fmap option_map Nat.add].
  do 2 f_equal. destruct (decide (k <= length half)%nat).
  - f_equal. lia.
  - rewrite !drop_ge by lia. done.
Qed.

Lemma stack_pop half k :
  (k < length half)%nat -> removelast (stack half k) = stack half (S k).
Proof.
  intros Hk. unfold stack, suffix_tables.
  replace (S (length half - k))%nat with (S (S (length half - S k))) by lia.
  rewrite seq_S, map_app. cbn [map]. by rewrite removelast_last.
Qed.

Lemma eq_prod_snoc ts rs r t :
  ts !! length rs = Some t -> eq_prod ts (rs ++ [r]) = eq_prod ts rs * eq1 t r.
Proof.
  unfold eq_prod. revert ts; induction rs as [|r0 rs IH]; intros [|t0 ts] Ht; [done| |done|].
  - injection Ht as ->. assert (Hz : zip_with eq1 ts [] = []) by (by destruct ts).
    cbn [app zip_with]. rewrite Hz. change (eq1 t r * 1 = 1 * eq1 t r). ring.
  - cbn [app zip_with length] in *. rewrite !fprod_cons, IH by done. ring.
Qed.

Lemma bind_after tau c rs r :
  (length rs < length tau)%nat ->
  bind (after tau c rs) r = Ok (after tau c (rs ++ [r])).
Proof.
  intros Hlt. unfold bind. cbn [SplitEq.tau current_round after].
  unfold len at 1. rewrite index_nat.
  destruct (lookup_lt_is_Some_2 tau (length rs) Hlt) as [t Ht]. rewrite Ht. cbn [unwrap obind].
  f_equal. cbn [E_first E_second current_scalar after].
  assert (Hl : forall h k, len (stack h k) = Z.of_nat (S (length h - k)))
    by (intros; unfold len; by rewrite stack_length).
  rewrite !Hl.
  assert (Hs : c * eq_prod tau (rs ++ [r])
               = c * eq_prod tau rs * (t * r + (1 - t) * (1 - r))).
  { rewrite (eq_prod_snoc _ _ _ _ Ht). unfold eq1. ring. }
  unfold after. rewrite Hs, len_app, length_app. cbn [length].
  change (len [r]) with 1%Z. rewrite !Nat.add_1_r.
  destruct (Z.ltb_spec 1 (Z.of_nat (S (length (first_half tau) - length rs)))).
  - rewrite stack_pop by lia. f_equal.
    replace (S (length rs) - length (first_half tau))%nat
      with (length rs - length (first_half tau))%nat by lia. done.
  - assert (Hf : stack (first_half tau) (S (length rs)) = stack (first_half tau) (length rs)).
    { unfold stack. do 2 f_equal. lia. }
    rewrite Hf.
    destruct (Z.ltb_spec 1 (Z.of_nat (S (length (second_half tau)
                                        - (length rs - length (first_half tau)))))).
    + rewrite stack_pop by lia. f_equal. f_equal. lia.
    + f_equal. unfold stack. do 2 f_equal. lia.
Qed.

Lemma binds_after tau c rs rs0 :
  (length rs0 + length rs <= length tau)%nat ->
  binds (after tau c rs0) rs = Ok (after tau c (rs0 ++ rs)).
Proof.
  unfold binds. revert rs0; induction rs as [|r rs IH]; intros rs0 Hl; cbn [ofold].
  - by rewrite app_nil_r.
  - cbn [length] in Hl. rewrite bind_after by lia. cbn [obind].
    rewrite IH by (rewrite length_app; cbn [length]; lia). by rewrite <-app_assoc.
Qed.

(** The budget that makes the constructor succeed. *)
Definition granted (tau : list E) : Prop :=
  fits (2 ^ len tau) = true /\ forall n, (0 <= n <= 2 ^ len tau)%Z -> reserve_exact n = true.

Lemma half_granted tau half :
  granted tau -> (len half < len tau)%Z ->
  EqPolynomial.evals_cached half = Ok (stack half 0).
Proof.
  intros [Hf Ha] Hl. pose proof (len_nonneg half).
  assert (Hp : (2 ^ (len half + 1) <= 2 ^ len tau)%Z) by (apply Z.pow_le_mono_r; lia).
  assert (Hq : (2 ^ len half <= 2 ^ (len half + 1))%Z) by (apply Z.pow_le_mono_r; lia).
  assert (0 < 2 ^ (len half + 1))%Z by (apply pow2_pos; lia).
  unfold EqPolynomial.evals_cached. rewrite evals_cached_granted.
  - unfold stack. by rewrite Nat.sub_0_r.
  - apply (fits_mono _ (2 ^ len tau)); [lia|done].
  - intros n Hn. apply Ha. lia.
Qed.

Lemma new_after tau c :
  tau <> [] -> granted tau -> with_initial_scalar tau c = Ok (after tau c []).
Proof.
  intros Hne Hg. destruct tau as [|t0 rest]; [done|]. unfold with_initial_scalar.
  change (Nat.eqb (length (t0 :: rest)) 0) with false. cbv zeta iota.
  fold (first_half (t0 :: rest)). fold (second_half (t0 :: rest)).
  assert (Hlens : (length (first_half (t0 :: rest)) + length (second_half (t0 :: rest))
                   = length rest)%nat) by (rewrite <-length_app, halves; done).
  rewrite !(half_granted (t0 :: rest)) by (done || (unfold len; cbn [length]; lia)).
  cbn [obind]. unfold after. f_equal. f_equal.
  unfold eq_prod. change (c = c * 1). ring.
Qed.

Lemma eq_remaining_after tau c rs j :
  tau <> [] -> (0 <= j < 2 ^ (len tau - 1 - len rs))%Z -> (length rs < length tau)%nat ->
  eq_remaining (after tau c rs) j = Ok (eq_at (drop (S (length rs)) tau) j).
Proof.
  intros Hne Hj Hlt. destruct tau as [|t0 rest]; [done|].
  unfold eq_remaining, remaining_eq_tables. cbn [E_first E_second after].
  rewrite !stack_last. cbn [unwrap obind].
  set (lo := drop (length rs) (first_half (t0 :: rest))).
  set (hi := drop (length rs - length (first_half (t0 :: rest))) (second_half (t0 :: rest))).
  assert (Hr : drop (length rs) rest = lo ++ hi).
  { subst lo hi. rewrite <-drop_app. by rewrite halves. }
  assert (Hlen : len (lo ++ hi) = (len (t0 :: rest) - 1 - len rs)%Z).
  { rewrite <-Hr. unfold len. rewrite length_drop. cbn [length] in *. lia. }
  rewrite <-Hlen, len_app, Z.pow_add_r in Hj by apply len_nonneg.
  pose proof (len_nonneg lo) as Hlo0. pose proof (len_nonneg hi) as Hhi0.
  assert (0 < 2 ^ len lo)%Z by (by apply pow2_pos).
  rewrite len_eqt, Z.log2_pow2 by done.
  replace (2 ^ len lo - 1)%Z with (Z.ones (len lo)) by (rewrite Z.ones_equiv; lia).
  rewrite Z.land_ones, Z.shiftr_div_pow2 by done.
  rewrite !eqt_index; cycle 1.
  { split; [apply Z.div_pos; lia|]. apply Z.div_lt_upper_bound; lia. }
  { by apply Z.mod_pos_bound. }
  cbn [unwrap obind drop]. rewrite Hr, eq_at_app. f_equal. ring.
Qed.

(** The equality table folded by the challenges so far. *)
Lemma fold_all_eqt tau rs c :
  (length rs <= length tau)%nat ->
  foldl (fun tbl r => fold_pairs r tbl) (eqt tau c) rs
  = eqt (drop (length rs) tau) (c * eq_prod tau rs).
Proof.
  revert tau c; induction rs as [|r rs IH]; intros tau c Hl.
  - cbn [foldl length drop]. f_equal. unfold eq_prod. destruct tau; change (c = c * 1); ring.
  - destruct tau as [|t tau]; [cbn in Hl; lia|]. cbn [foldl length drop].
    rewrite fold_pairs_eqt, IH by (cbn in Hl; lia). f_equal.
    unfold eq_prod. cbn [zip_with]. rewrite fprod_cons. unfold eq1. ring.
Qed.

(** C32: the split state simulates folding the full equality table: after any
    challenges [rs] (fewer than the variables) every entry pair of the folded
    table is the running scalar times the linear factor of the current
    variable times the product of two cached table entries. *)
Theorem gruen_refines_folded_table tau c rs :
  tau <> [] -> granted tau -> (length rs < length tau)%nat ->
  exists g0 g t,
    with_initial_scalar tau c = Ok g0 /\ binds g0 rs = Ok g /\ current_tau g = Ok t /\
    let folded := foldl (fun tbl r => fold_pairs r tbl) (eqt tau c) rs in
    forall j, (0 <= j < 2 ^ (len tau - 1 - len rs))%Z ->
      exists e, eq_remaining g j = Ok e /\
        index folded (2 * j) = Some (current_scalar g * (1 - t) * e) /\
        index folded (2 * j + 1) = Some (current_scalar g * t * e).
Proof.
  intros Hne Hg Hlt. destruct (lookup_lt_is_Some_2 tau (length rs) Hlt) as [t Ht].
  exists (after tau c []), (after tau c rs), t.
  split; [by apply new_after|]. split; [apply (binds_after tau c rs []); cbn; lia|].
  split. { unfold current_tau. cbn. unfold len. by rewrite index_nat, Ht. }
  intros folded j Hj. exists (eq_at (drop (S (length rs)) tau) j).
  split; [by apply eq_remaining_after|]. subst folded. rewrite fold_all_eqt by lia.
  rewrite (drop_S _ _ _ Ht). cbn [eqt current_scalar after].
  assert (Hlen : (len (drop (S (length rs)) tau) = len tau - 1 - len rs)%Z)
    by (unfold len; rewrite length_drop; lia).
  pose proof (eqt_index (drop (S (length rs)) tau) (c * eq_prod tau rs) j
                ltac:(by rewrite Hlen)) as Hi.
  replace j with (Z.of_nat (Z.to_nat j)) in Hi |- * by lia.
  rewrite index_nat in Hi. rewrite index_twice, index_plus1.
  destruct (layer_lookup (fun v => v) t _ _ _ Hi) as [-> ->]. split; f_equal; ring.
Qed.
End invariant.

(** * Round polynomials *)

Section round_polys.
Context {E : Type} `{FieldLaws E}.
Add Ring Ering2 : (field_ring (E := E)).
Import GruenSplitEq.

(** The linear factor [l(x) = scalar * eq(tau_current, x)]. *)
Definition linear (g : GruenSplitEq E) (t x : E) : E := current_scalar g * eq1 t x.

Lemma linear_factor_spec g t :
  current_tau g = Ok t -> linear_factor_evals g = Ok (linear g t 0, linear g t 1).
Proof.
  intros Ht. unfold linear_factor_evals. rewrite Ht. cbn [obind]. unfold linear, eq1.
  do 2 f_equal; ring.
Qed.

Lemma mul_linear_value carry a b cs x :
  peval (mul_linear carry a b cs) x = carry + (a + b * x) * peval cs x.
Proof.
  revert carry; induction cs as [|c cs IH]; intros carry; cbn [mul_linear peval]; [ring|].
  rewrite IH. ring.
Qed.

Lemma mul_linear_length carry a b cs : length (mul_linear carry a b cs) = S (length cs).
Proof. revert carry; induction cs as [|c cs IH]; intros carry; cbn; auto. Qed.

Lemma gruen_mul_value g t q :
  current_tau g = Ok t ->
  exists s, gruen_mul g q = Ok s /\ length (coeffs s) = S (length (coeffs q)) /\
    forall x, UniPoly.evaluate s x = linear g t x * UniPoly.evaluate q x.
Proof.
  intros Ht. unfold gruen_mul. rewrite (linear_factor_spec g t Ht). cbn [obind].
  eexists; split; [done|]. split; [apply mul_linear_length|]. intros x.
  rewrite !evaluate_peval. cbn [UniPoly.from_coeffs coeffs]. rewrite mul_linear_value.
  unfold linear, eq1. ring.
Qed.

Lemma feqb_false_iff (a b : E) : feqb a b = false <-> a <> b.
Proof. apply feqb_neq. Qed.

Lemma finverse_None (a : E) : finverse a = None -> a = 0.
Proof.
  intros Hn. destruct (feqb a 0) eqn:Ea; [by apply feqb_spec|].
  apply feqb_neq in Ea. destruct (finverse_spec a Ea) as (b & Hb & _). congruence.
Qed.

(** The value [q(1)] recovered from the claim. *)
Lemma recovered_value (l0 l1 inv q0 qv claim : E) :
  l1 * inv = 1 -> claim = l0 * q0 + l1 * qv -> (claim - l0 * q0) * inv = qv.
Proof. intros Hi ->. transitivity (l1 * inv * qv); [ring|]. rewrite Hi. ring. Qed.

Lemma linear_zero g t x : linear g t 0 = 0 -> linear g t 1 = 0 -> linear g t x = 0.
Proof.
  intros Hz Ho. transitivity (linear g t 0 + x * (linear g t 1 - linear g t 0)).
  - unfold linear, eq1. ring.
  - rewrite Hz, Ho. ring.
Qed.

(** the omitted linear coefficient: given all coefficients of the inner
    polynomial [q] except the linear one and the claim [s(0) + s(1)] for
    [s = l * q], the recovery returns a polynomial with the values of
    [l * q] everywhere, and returns [None] exactly when [l(1) = 0] and
    [l(0) <> 0], where the claim does not determine the coefficient. *)
Theorem gruen_recovers_linear_term g t q0 q1 rest :
  current_tau g = Ok t ->
  let q := UniPoly.from_coeffs (q0 :: q1 :: rest) in
  let claim := linear g t 0 * UniPoly.evaluate q 0 + linear g t 1 * UniPoly.evaluate q 1 in
  match try_gruen_poly_from_coeffs_except_linear g (q0 :: rest) claim with
  | Ok (Some s) => forall x, UniPoly.evaluate s x = linear g t x * UniPoly.evaluate q x
  | Ok None => linear g t 1 = 0 /\ linear g t 0 <> 0
  | _ => False
  end.
Proof.
  intros Ht q claim. unfold try_gruen_poly_from_coeffs_except_linear.
  rewrite (linear_factor_spec g t Ht). cbn [obind].
  destruct (feqb (linear g t 0) 0 && feqb (linear g t 1) 0)%bool eqn:Hz.
  { apply andb_true_iff in Hz as [Hz0%feqb_spec Hz1%feqb_spec]. intros x.
    rewrite (linear_zero g t x Hz0 Hz1), !evaluate_peval. cbn. ring. }
  destruct (finverse (linear g t 1)) as [inv|] eqn:Hi.
  - apply finverse_Some in Hi as [Hi _].
    assert (Hq0 : UniPoly.evaluate q 0 = q0) by (rewrite evaluate_peval; apply peval_at_0).
    rewrite (recovered_value (linear g t 0) (linear g t 1) inv q0 (UniPoly.evaluate q 1) claim Hi)
      by (subst claim; by rewrite Hq0).
    rewrite fold_add_fsum.
    replace (UniPoly.evaluate q 1 - (0 + fsum (q0 :: rest))) with q1.
    2:{ rewrite evaluate_peval, peval_at_1. subst q. cbn [UniPoly.from_coeffs coeffs].
        rewrite !fsum_cons. ring. }
    destruct (gruen_mul_value g t q Ht) as (s & Hs & _ & Hv). fold q. rewrite Hs. exact Hv.
  - apply finverse_None in Hi. split; [done|]. intros H0'.
    rewrite Hi, H0', !feqb_refl in Hz. done.
Qed.

Lemma peval_3 (a b c x : E) : peval [a; b; c] x = a + x * (b + x * c).
Proof. cbn. ring. Qed.

(** Small integers are distinct when their differences are nonzero. *)
Lemma small_nats_distinct n :
  (forall k, (1 <= k < n)%nat -> fnat (E := E) k <> 0) -> NoDup (map fnat (seq 0 n)).
Proof.
  intros Hk. change (map fnat (seq 0 n)) with (fnat (E := E) <$> seq 0 n).
  apply NoDup_fmap_2_strong; [|apply NoDup_seq].
  assert (Hlt : forall i j, (i < j < n)%nat -> fnat (E := E) i <> fnat j).
  { intros i j Hij Heq. apply (Hk (j - i)%nat); [lia|].
    replace j with (i + (j - i))%nat in Heq by lia. rewrite fnat_add in Heq.
    transitivity (fnat i + fnat (j - i) - fnat (E := E) i); [ring|]. rewrite <-Heq. ring. }
  intros i j Hi%elem_of_seq Hj%elem_of_seq Heq.
  destruct (Nat.lt_trichotomy i j) as [Hl|[He|Hl]]; [|done|].
  - by destruct (Hlt i j ltac:(lia)).
  - by destruct (Hlt j i ltac:(lia)).
Qed.

(** The degree-3 specialisation: with [q = c + d X + e X^2] and the claim
    [s(0) + s(1)], it interpolates the same cubic [l * q] from its values at
    [0, 1, 2, 3] without a division by zero when 1, 2 and 3 are nonzero in
    the field. *)
Theorem gruen_deg_3_spec g t c d e :
  current_tau g = Ok t ->
  (forall k, (1 <= k < 4)%nat -> from_u64 (E := E) (Z.of_nat k) <> 0) ->
  let q := UniPoly.from_coeffs [c; d; e] in
  let claim := linear g t 0 * UniPoly.evaluate q 0 + linear g t 1 * UniPoly.evaluate q 1 in
  match try_gruen_poly_deg_3 g c e claim with
  | Ok (Some s) => forall x, UniPoly.evaluate s x = linear g t x * UniPoly.evaluate q x
  | Ok None => linear g t 1 = 0 /\ linear g t 0 <> 0
  | _ => False
  end.
Proof.
  intros Ht Hk q claim. unfold try_gruen_poly_deg_3.
  rewrite (linear_factor_spec g t Ht). cbn [obind].
  destruct (feqb (linear g t 0) 0 && feqb (linear g t 1) 0)%bool eqn:Hz.
  { apply andb_true_iff in Hz as [Hz0%feqb_spec Hz1%feqb_spec]. intros x.
    rewrite (linear_zero g t x Hz0 Hz1), !evaluate_peval. cbn. ring. }
  destruct (finverse (linear g t 1)) as [inv|] eqn:Hi.
  2:{ apply finverse_None in Hi. split; [done|]. intros H0'.
      rewrite Hi, H0', !feqb_refl in Hz. done. }
  apply finverse_Some in Hi as [Hi _].
  assert (Hq : forall x, UniPoly.evaluate q x = c + x * (d + x * e))
    by (intros; rewrite evaluate_peval; apply peval_3).
  assert (Hq1 : (claim - linear g t 0 * c) * inv = c + 1 * (d + 1 * e)).
  { rewrite (recovered_value _ _ _ _ (UniPoly.evaluate q 1) _ Hi); [by rewrite Hq|].
    subst claim. rewrite (Hq 0). ring. }
  match goal with |- context [UniPoly.from_evals ?l] => set (evals := l) end.
  destruct (from_evals_total (Er := AkitaError) evals) as [s Hs];
    [intros k Hkk; apply Hk; exact Hkk|].
  rewrite Hs. cbn [obind]. intros x.
  destruct (gruen_mul_value g t q Ht) as (s' & _ & Hl' & Hv'). rewrite <-Hv', !evaluate_peval.
  apply (agreement_bound _ _ (map fnat (seq 0 4))).
  - apply small_nats_distinct. intros; by apply Hk.
  - rewrite length_map, length_seq. by apply (from_evals_length _ _ Hs).
  - rewrite length_map, length_seq, Hl'. cbn. lia.
  - intros a Ha. apply list_elem_of_In, in_map_iff in Ha as (i & <- & Hin). apply in_seq in Hin.
    rewrite <-!evaluate_peval, Hv', Hq.
    assert (Hval : forall v, evals !! i = Some v -> UniPoly.evaluate s (fnat i) = v)
      by (intros v; by apply (from_evals_value _ _ _ _ Hs)).
    subst evals. destruct i as [|[|[|[|i]]]]; [..|lia];
      rewrite (Hval _ eq_refl), ?Hq1, ?fnat_S, fnat_0.
    + unfold linear, eq1. ring.
    + subst claim. rewrite !Hq. unfold linear, eq1. ring.
    + unfold linear, eq1. ring.
    + unfold linear, eq1. ring.
Qed.
End round_polys.

(** * Evaluation at concrete inputs *)

Import F97_env F97_fold.

Lemma gruen_refines_folded_table_witness :
  exists g0 g, GruenSplitEq.with_initial_scalar (map F97.of_Z [2; 3; 5; 7]%Z) (F97.of_Z 11) = Ok g0 /\
    GruenSplitEq.binds g0 [F97.of_Z 4; F97.of_Z 6] = Ok g /\
    GruenSplitEq.eq_remaining g 1 = Ok (F97.of_Z 7).
Proof.
  destruct (gruen_refines_folded_table (E := F97.t) (map F97.of_Z [2; 3; 5; 7]%Z) (F97.of_Z 11)
              [F97.of_Z 4; F97.of_Z 6]) as (g0 & g & t & Hg0 & Hg & _ & Hj);
    [discriminate|split; [reflexivity|done]|cbn; lia|].
  exists g0, g. split; [exact Hg0|]. split; [exact Hg|].
  destruct (Hj 1%Z ltac:(vm_compute; split; congruence)) as (e & He & _).
  assert (Hc : GruenSplitEq.with_initial_scalar (map F97.of_Z [2; 3; 5; 7]%Z) (F97.of_Z 11) = Ok g0)
    by exact Hg0.
  vm_compute in Hc. injection Hc as <-. vm_compute in Hg. injection Hg as <-.
  vm_compute. reflexivity.
Defined.

Definition F97_gruen : GruenSplitEq F97.t :=
  {| tau := [F97.of_Z 5]; current_round := 0; current_scalar := F97.of_Z 3;
     E_first := [[F97.of_Z 1]]; E_second := [[F97.of_Z 1]] |}.

Lemma gruen_recovers_linear_term_witness :
  GruenSplitEq.current_tau F97_gruen = Ok (F97.of_Z 5) /\
  exists s, GruenSplitEq.try_gruen_poly_from_coeffs_except_linear F97_gruen
    [F97.of_Z 2] (F97.of_Z (-12 * 2 + 15 * 9)) = Ok (Some s) /\ UniPoly.evaluate s 0 = F97.of_Z (-24).
Proof.
  pose proof (gruen_recovers_linear_term (E := F97.t) F97_gruen (F97.of_Z 5) (F97.of_Z 2)
                (F97.of_Z 7) [] eq_refl) as Hw.
  split; [reflexivity|]. cbn zeta in Hw.
  match type of Hw with context [GruenSplitEq.try_gruen_poly_from_coeffs_except_linear _ _ ?c] =>
    replace c with (F97.of_Z (-12 * 2 + 15 * 9)) in Hw by (vm_compute; reflexivity) end.
  destruct (GruenSplitEq.try_gruen_poly_from_coeffs_except_linear F97_gruen
    [F97.of_Z 2] (F97.of_Z (-12 * 2 + 15 * 9))) as [[s|]|e|] eqn:He; [|vm_compute in He; discriminate He..].
  exists s. split; [reflexivity|]. rewrite Hw. vm_compute. reflexivity.
Defined.

Lemma gruen_deg_3_spec_witness :
  exists s, GruenSplitEq.try_gruen_poly_deg_3 F97_gruen (F97.of_Z 2) (F97.of_Z 4)
    (F97.of_Z (-12 * 2 + 15 * 13)) = Ok (Some s) /\ UniPoly.evaluate s 0 = F97.of_Z (-24).
Proof.
  pose proof (gruen_deg_3_spec (E := F97.t) F97_gruen (F97.of_Z 5) (F97.of_Z 2)
                (F97.of_Z 7) (F97.of_Z 4) eq_refl) as Hw.
  cbn zeta in Hw.
  match type of Hw with context [GruenSplitEq.try_gruen_poly_deg_3 _ _ _ ?c] =>
    replace c with (F97.of_Z (-12 * 2 + 15 * 13)) in Hw by (vm_compute; reflexivity) end.
  destruct (GruenSplitEq.try_gruen_poly_deg_3 F97_gruen (F97.of_Z 2) (F97.of_Z 4)
    (F97.of_Z (-12 * 2 + 15 * 13))) as [[s|]|e|] eqn:He; [|vm_compute in He; discriminate He..].
  exists s. split; [reflexivity|]. rewrite Hw; [vm_compute; reflexivity|].
  intros k Hk Hc. apply (f_equal F97.val) in Hc.
  destruct k as [|[|[|[|k]]]]; [lia|vm_compute in Hc; discriminate Hc..|lia].
Defined.
