(* ===== verification/OffsetWindow.v ===== *)
(** [akita-algebra/src/offset_eq.rs], the equality windows: the scalar equality
    primitive [eq_eval_at_index], the bounded two-table evaluator
    [OffsetEqWindow] with its interval fill, and the window that is built only
    when enough evaluations pay for its tables. *)

From S2P Require Import Prelude Checked Field Serialization EqPoly.
Local Open Scope field_scope.

(** * Definitions *)

Definition OFFSET_EQ_LOW_BITS_CAP : Z := 16.
Definition OFFSET_EQ_HIGH_BITS_CAP : Z := 16.

Section scalar.
Context {E : Type} `{Field E}.

Definition is_zero (e : E) : bool := feqb e 0.

Definition eq_bit (acc : E) (index : Z) (term : Z * E) : E :=
  let '(bit_idx, r_t) := term in
  let bit := if (bit_idx <? USIZE_BITS)%Z then Z.land (Z.shiftr index bit_idx) 1 else 0%Z in
  acc * (if (bit =? 1)%Z then r_t else 1 - r_t).

Definition eq_eval_at_index (x_challenges : list E) (index : Z) : E :=
  if (len x_challenges <? USIZE_BITS)%Z && (Z.shiftl 1 (len x_challenges) <=? index)%Z then 0
  else foldl (fun acc term => eq_bit acc index term) 1 (enumerate x_challenges).
End scalar.

Record OffsetEqWindow (E : Type) := {
  low_bits : Z;
  low_mask : Z;
  eq_low : list E;
  eq_high : option (list E);
  high_challenges : list E;
}.
Arguments low_bits {E}. Arguments low_mask {E}. Arguments eq_low {E}.
Arguments eq_high {E}. Arguments high_challenges {E}.

Module OffsetEqWindow.
Section ops.
Context {E : Type} `{Field E, EqRuntime E, Allocator}.

Definition split_low_bits (challenge_count low_bits_cap : Z) : Z :=
  let low_cap := Z.min low_bits_cap OFFSET_EQ_LOW_BITS_CAP in
  if (challenge_count <=? low_cap + OFFSET_EQ_HIGH_BITS_CAP)%Z
  then Z.min (Z.max ((challenge_count + 1) / 2)
                    (saturating_sub challenge_count OFFSET_EQ_HIGH_BITS_CAP)) low_cap
  else Z.min challenge_count low_cap.

Definition with_low_bits (challenges : list E) (low_bits_cap : Z) : result (OffsetEqWindow E) :=
  let low_bits := split_low_bits (len challenges) low_bits_cap in
  let* (low_challenges, high_challenges) := split_at challenges low_bits in
  let* eq_low := EqPolynomial.evals low_challenges in
  let low_mask := if (low_bits =? 0)%Z then 0%Z else (Z.shiftl 1 low_bits - 1)%Z in
  let* eq_high :=
    if (len high_challenges <=? OFFSET_EQ_HIGH_BITS_CAP)%Z
    then let* table := EqPolynomial.evals high_challenges in Ok (Some table)
    else Ok None in
  Ok {| low_bits := low_bits; low_mask := low_mask; eq_low := eq_low; eq_high := eq_high;
        high_challenges := high_challenges |}.

Definition new (challenges : list E) : result (OffsetEqWindow E) :=
  with_low_bits challenges OFFSET_EQ_LOW_BITS_CAP.

Definition new_if_amortized (challenges : list E) (evaluation_count : Z)
  : result (option (OffsetEqWindow E)) :=
  if (len challenges =? 0)%Z then Ok None
  else
    let low_bits := split_low_bits (len challenges) OFFSET_EQ_LOW_BITS_CAP in
    let high_bits := (len challenges - low_bits)%Z in
    let* low_len := ok_or (checked.pow2 low_bits) (InvalidInput "eq table dimension overflow") in
    let* high_len :=
      if (high_bits <=? OFFSET_EQ_HIGH_BITS_CAP)%Z
      then ok_or (checked.pow2 high_bits) (InvalidInput "eq table dimension overflow")
      else Ok 0%Z in
    let* materialized_values :=
      ok_or (checked.sum [low_len; high_len]) (InvalidInput "eq table dimension overflow") in
    if (evaluation_count <? materialized_values)%Z then Ok None
    else let* w := new challenges in Ok (Some w).

Definition variable_count (w : OffsetEqWindow E) : Z :=
  (low_bits w + len (high_challenges w))%Z.

(** [table.get(i).copied().unwrap_or_else(F::zero)] *)
Definition get_or_zero (table : list E) (i : Z) : E :=
  match index table i with Some v => v | None => 0 end.

Definition eval (w : OffsetEqWindow E) (index : Z) : E :=
  let low := Z.land index (low_mask w) in
  let eq_low := get_or_zero (eq_low w) low in
  if is_zero eq_low then 0
  else
    let high := Z.shiftr index (low_bits w) in
    let eq_high :=
      match eq_high w with
      | Some table => get_or_zero table high
      | None => eq_eval_at_index (high_challenges w) high
      end in
    eq_low * eq_high.

(** [copy_from_slice] *)
Definition copy_from_slice (destination source : list E) : result (list E) :=
  if (len destination =? len source)%Z then Ok source else Panic.

(** The [while] loop over the rest of the output; every pass writes at least
    one entry.  The new contents of [output] are returned. *)
Fixpoint fill_loop (fuel : nat) (w : OffsetEqWindow E) (eq_high : list E) (start : Z) (output : list E)
  : result (list E) :=
  match output, fuel with
  | [], _ => Ok []
  | _, O => Panic
  | _, S fuel =>
      let low := Z.land start (low_mask w) in
      let* available_low := ok_or (checked_sub (len (eq_low w)) low) InvalidProof in
      let take := Z.min available_low (len output) in
      let* low_end := ok_or (checked_add low take) InvalidProof in
      let* low_values := ok_or (slice (eq_low w) low low_end) InvalidProof in
      let* (destination, tail) :=
        if (take <=? len output)%Z then split_at output take else Err InvalidProof in
      let high := Z.shiftr start (low_bits w) in
      match index eq_high high with
      | None => Ok (replicate (length destination) 0 ++ replicate (length tail) 0)
      | Some scale =>
          let* destination :=
            if is_zero scale then Ok (replicate (length destination) 0)
            else if feqb scale 1 then copy_from_slice destination low_values
            else Ok (zip_update (fun _ low_value => low_value * scale) destination low_values) in
          let* start := ok_or (checked_add start take) (InvalidInput "equality interval overflow") in
          let* tail := fill_loop fuel w eq_high start tail in
          Ok (destination ++ tail)
      end
  end.

Definition fill_bounded_high_interval (w : OffsetEqWindow E) (start : Z) (output eq_high : list E)
  : result (list E) :=
  fill_loop (length output) w eq_high start output.

Definition PARALLEL_THRESHOLD : Z := Z.shiftl 1 14.

(** The chunks are disjoint slices of the output, filled by independent tasks. *)
Definition fill_chunk (w : OffsetEqWindow E) (start : Z) (eq_high : list E) (c : Z * list E)
  : result (list E) :=
  let '(chunk_index, chunk) := c in
  let* chunk_start :=
    ok_or match checked_mul chunk_index PARALLEL_THRESHOLD with
          | Some offset => checked_add start offset
          | None => None
          end (InvalidInput "equality interval overflow") in
  fill_bounded_high_interval w chunk_start chunk eq_high.

Definition fill_interval (w : OffsetEqWindow E) (start : Z) (output : list E) : result (list E) :=
  let* _ := ok_or (checked_add start (len output)) (InvalidInput "equality interval overflow") in
  match eq_high w with
  | Some eq_high =>
      if (PARALLEL_THRESHOLD <=? len output)%Z then
        let* parts := omapM (fill_chunk w start eq_high)
                        (enumerate (chunks_of (Z.to_nat PARALLEL_THRESHOLD) output)) in
        Ok (concat parts)
      else fill_bounded_high_interval w start output eq_high
  | None => Ok (map (fun '(offset, _) => eval w (start + offset)) (enumerate output))
  end.
End ops.
End OffsetEqWindow.

(** [AmortizedOffsetEq] *)
Record AmortizedOffsetEq (E : Type) := {
  challenges : list E;
  window : option (OffsetEqWindow E);
}.
Arguments challenges {E}. Arguments window {E}.

Module AmortizedOffsetEq.
Section ops.
Context {E : Type} `{Field E, EqRuntime E, Allocator}.

Definition new (challenges : list E) : AmortizedOffsetEq E :=
  {| challenges := challenges; window := None |}.

Definition prepare_for_product (s : AmortizedOffsetEq E) (families rows carries : Z)
  : result (AmortizedOffsetEq E) :=
  match window s with
  | Some _ => Ok s
  | None =>
      let* evaluations := ok_or (checked.product [families; rows; carries])
                            (InvalidInput "affine high work overflow") in
      let* w := OffsetEqWindow.new_if_amortized (challenges s) evaluations in
      Ok {| challenges := challenges s; window := w |}
  end.

Definition eval (s : AmortizedOffsetEq E) (index : Z) : E :=
  match window s with
  | None => eq_eval_at_index (challenges s) index
  | Some w => OffsetEqWindow.eval w index
  end.
End ops.
End AmortizedOffsetEq.

(** * Correctness

    [eq_index ch i] is the equality polynomial of the point [ch] at the bits of
    the index [i], zero outside the domain. *)

Section reference.
Context {E : Type} `{FieldLaws E}.
Add Ring Ering : (field_ring (E := E)).

Definition eq_index (ch : list E) (i : Z) : E := if (i <? 2 ^ len ch)%Z then eq_at ch i else 0.

Lemma is_zero_spec (e : E) : is_zero e = true <-> e = 0.
Proof. apply feqb_spec. Qed.

Lemma is_zero_false (e : E) : is_zero e = false <-> e <> 0.
Proof. apply feqb_neq. Qed.

Lemma eq_index_app lo hi i : (0 <= i)%Z ->
  eq_index (lo ++ hi) i = eq_at lo (i mod 2 ^ len lo) * eq_index hi (i / 2 ^ len lo).
Proof.
  intros Hi. unfold eq_index. rewrite len_app, Z.pow_add_r by apply len_nonneg.
  assert (Hp : (0 < 2 ^ len lo)%Z) by apply pow2_pos, len_nonneg.
  assert (Hiff : (i <? 2 ^ len lo * 2 ^ len hi)%Z = (i / 2 ^ len lo <? 2 ^ len hi)%Z).
  { apply eq_true_iff_eq. rewrite !Z.ltb_lt. split; intros Hlt.
    - apply Z.div_lt_upper_bound; lia.
    - pose proof (Z_div_mod_eq_full i (2 ^ len lo)). pose proof (Z.mod_pos_bound i (2 ^ len lo) Hp). nia. }
  rewrite Hiff. destruct (_ <? 2 ^ len hi)%Z; [apply eq_at_app|ring].
Qed.

(** ** The scalar primitive *)

Lemma eq_bits_fold ch i k acc : (0 <= k)%Z -> (0 <= i < 2 ^ 64)%Z ->
  foldl (fun a term => eq_bit a i term) acc (zip (seqZ k (len ch)) ch) = acc * eq_at ch (i / 2 ^ k).
Proof.
  intros Hk Hi. revert k acc Hk; induction ch as [|c ch IH]; intros k acc Hk; cbn [eq_at].
  - change (zip (seqZ k (len [])) []) with (@nil (Z * E)). cbn [foldl]. ring.
  - rewrite len_cons, seqZ_cons by (pose proof (len_nonneg ch); lia). cbn [zip zip_with foldl].
    replace (Z.pred (len ch + 1)) with (len ch) by lia. fold (zip (seqZ (Z.succ k) (len ch)) ch).
    rewrite IH by lia. rewrite Z.pow_succ_r, (Z.mul_comm 2), <-Z.div_div by lia.
    assert (Hb : eq_bit acc i (k, c) = acc * (if Z.odd (i / 2 ^ k) then c else 1 - c)); [|rewrite Hb; ring].
    unfold eq_bit, USIZE_BITS. destruct (Z.ltb_spec k 64).
    + change 1%Z with (Z.ones 1) at 1. rewrite Z.land_ones, Z.shiftr_div_pow2, Z.pow_1_r, Zmod_odd by lia.
      by destruct (Z.odd _).
    + rewrite Z.div_small; [done|]. split; [lia|]. apply Z.lt_le_trans with (2 ^ 64)%Z; [lia|].
      apply Z.pow_le_mono_r; lia.
Qed.

Lemma eq_eval_spec ch i : (0 <= i < 2 ^ 64)%Z -> eq_eval_at_index ch i = eq_index ch i.
Proof.
  intros Hi. unfold eq_eval_at_index, eq_index, enumerate, range, USIZE_BITS. rewrite eq_bits_fold by lia.
  rewrite Z.pow_0_r, Z.div_1_r, Z.shiftl_1_l.
  destruct (Z.ltb_spec i (2 ^ len ch)), (Z.leb_spec (2 ^ len ch) i), (Z.ltb_spec (len ch) 64); cbn [andb];
    try lia; try ring.
  assert (2 ^ 64 <= 2 ^ len ch)%Z by (apply Z.pow_le_mono_r; lia). lia.
Qed.
End reference.

(** ** The window *)

Section window.
Context {E : Type} `{FieldLaws E, EqRuntime E, Allocator}.
Add Ring Ering2 : (field_ring (E := E)).
Import OffsetEqWindow.

(** The tables of a window over the point [ch]. *)
Record window_of (ch : list E) (w : OffsetEqWindow E) : Prop := {
  w_split : ch = take (Z.to_nat (low_bits w)) ch ++ high_challenges w;
  w_bits : low_bits w = len (take (Z.to_nat (low_bits w)) ch);
  w_cap : (low_bits w <= 16)%Z;
  w_mask : low_mask w = (2 ^ low_bits w - 1)%Z;
  w_low : eq_low w = eqt (take (Z.to_nat (low_bits w)) ch) 1;
  w_high : eq_high w = None \/ eq_high w = Some (eqt (high_challenges w) 1);
}.

Lemma split_low_range n cap : (0 <= n)%Z -> (0 <= cap)%Z ->
  (0 <= split_low_bits n cap <= n)%Z /\ (split_low_bits n cap <= 16)%Z.
Proof.
  intros Hn Hc. unfold split_low_bits, saturating_sub, OFFSET_EQ_LOW_BITS_CAP, OFFSET_EQ_HIGH_BITS_CAP.
  destruct (Z.leb_spec n (Z.min cap 16 + 16)); div_lia.
Qed.

Lemma evals_eqt r tbl : EqPolynomial.evals r = Ok tbl -> tbl = eqt r 1.
Proof.
  intros Ht. unfold EqPolynomial.evals in Ht. pose proof (evals_with_scaling_outcome r None) as Ho.
  rewrite Ht in Ho. destruct Ho as [-> _]. by rewrite map_id.
Qed.

Lemma evals_no_panic r : EqPolynomial.evals r <> Panic.
Proof.
  unfold EqPolynomial.evals. pose proof (evals_with_scaling_outcome r None) as Ho.
  by destruct (EqPolynomial.evals_with_scaling r None).
Qed.

(** Enough memory for the two tables of a window. *)
Definition tables_granted : Prop :=
  forall n, (0 <= n <= 2 ^ 16)%Z -> fits n = true /\ reserve_exact n = true.

Lemma evals_granted r : (len r <= 16)%Z -> tables_granted -> EqPolynomial.evals r = Ok (eqt r 1).
Proof.
  intros Hr Hg. pose proof (evals_with_scaling_outcome r None) as Ho. unfold EqPolynomial.evals.
  pose proof (len_nonneg r). destruct (Hg (2 ^ len r)%Z) as [Hf Ha].
  { split; [lia|]. apply Z.pow_le_mono_r; lia. }
  destruct (EqPolynomial.evals_with_scaling r None) as [tbl|e|]; cbn [table_outcome] in Ho; [|exfalso|done].
  - destruct Ho as [-> _]. by rewrite map_id.
  - rewrite Hf, Ha in Ho. discriminate Ho; lia.
Qed.

Lemma window_parts ch k tbl tbl_hi : (0 <= k <= len ch)%Z -> (k <= 16)%Z ->
  tbl = eqt (take (Z.to_nat k) ch) 1 ->
  tbl_hi = None \/ tbl_hi = Some (eqt (drop (Z.to_nat k) ch) 1) ->
  window_of ch {| low_bits := k; low_mask := if (k =? 0)%Z then 0%Z else (Z.shiftl 1 k - 1)%Z;
                  eq_low := tbl; eq_high := tbl_hi; high_challenges := drop (Z.to_nat k) ch |}.
Proof.
  intros Hk Hc Ht Hh. constructor; cbn [low_bits low_mask eq_low eq_high high_challenges]; [| |done| |done|done].
  - by rewrite take_drop.
  - by rewrite len_take_Z.
  - rewrite Z.shiftl_1_l. by destruct (Z.eqb_spec k 0) as [->|].
Qed.

Lemma with_low_bits_of ch cap w : (0 <= cap)%Z -> with_low_bits ch cap = Ok w -> window_of ch w.
Proof.
  intros Hc. unfold with_low_bits. pose proof (split_low_range (len ch) cap (len_nonneg ch) Hc) as [Hr Hs].
  set (k := split_low_bits (len ch) cap) in *. rewrite split_at_Ok by done. cbn [obind]. intros Hw.
  obind_inv Hw. apply evals_eqt in E0. obind_inv Hw. injection Hw as <-. apply window_parts; [done..|].
  destruct (_ <=? _)%Z; [|left; congruence]. obind_inv E1. injection E1 as <-. right. f_equal. by apply evals_eqt.
Qed.

Lemma with_low_bits_granted ch cap : (0 <= cap)%Z -> tables_granted ->
  exists w, with_low_bits ch cap = Ok w /\ window_of ch w.
Proof.
  intros Hc Hg. pose proof (split_low_range (len ch) cap (len_nonneg ch) Hc) as [Hr Hs].
  destruct (with_low_bits ch cap) as [w|e|] eqn:Ew; [exists w; split; [done|by eapply with_low_bits_of]|exfalso..];
    unfold with_low_bits in Ew; rewrite split_at_Ok in Ew by done; cbn [obind] in Ew;
    rewrite evals_granted in Ew by (rewrite ?len_take_Z; done); cbn [obind] in Ew;
    destruct (Z.leb_spec (len (drop (Z.to_nat (split_low_bits (len ch) cap)) ch)) OFFSET_EQ_HIGH_BITS_CAP);
    try (rewrite evals_granted in Ew by done); discriminate Ew.
Qed.

Lemma variable_count_spec ch w : window_of ch w -> variable_count w = len ch.
Proof.
  intros Hw. unfold variable_count. rewrite (w_bits _ _ Hw), <-len_app. f_equal. symmetry. apply Hw.
Qed.

Lemma get_or_zero_eqt r i : (0 <= i)%Z -> get_or_zero (eqt r 1) i = eq_index r i.
Proof.
  intros Hi. unfold get_or_zero, eq_index. destruct (Z.ltb_spec i (2 ^ len r)).
  - rewrite eqt_index by lia. ring.
  - destruct (index (eqt r 1) i) as [v|] eqn:Ev; [|done]. apply index_Some_len in Ev. rewrite len_eqt in Ev. lia.
Qed.

Lemma window_bits_nonneg ch w : window_of ch w -> (0 <= low_bits w)%Z.
Proof. intros Hw. rewrite (w_bits _ _ Hw). apply len_nonneg. Qed.

Lemma window_eval_spec ch w i : window_of ch w -> (0 <= i < 2 ^ 64)%Z -> eval w i = eq_index ch i.
Proof.
  intros Hw Hi. pose proof (window_bits_nonneg _ _ Hw) as Hb. unfold eval.
  rewrite (w_mask _ _ Hw), land_low, Z.shiftr_div_pow2 by done.
  rewrite (w_split _ _ Hw), eq_index_app, <-(w_bits _ _ Hw), (w_low _ _ Hw) by lia.
  assert (Hp : (0 < 2 ^ low_bits w)%Z) by by apply pow2_pos.
  pose proof (Z.mod_pos_bound i _ Hp) as Hm. rewrite get_or_zero_eqt by lia.
  unfold eq_index at 1 2. rewrite <-(w_bits _ _ Hw), (proj2 (Z.ltb_lt _ _)) by lia.
  assert (Hq : (0 <= i / 2 ^ low_bits w < 2 ^ 64)%Z).
  { split; [apply Z.div_pos; lia|]. apply Z.le_lt_trans with i; [apply Z.div_le_upper_bound; nia|lia]. }
  assert (Hhi : match eq_high w with
                | Some table => get_or_zero table (i / 2 ^ low_bits w)
                | None => eq_eval_at_index (high_challenges w) (i / 2 ^ low_bits w)
                end = eq_index (high_challenges w) (i / 2 ^ low_bits w)).
  { destruct (w_high _ _ Hw) as [-> | ->]; [by apply eq_eval_spec|apply get_or_zero_eqt; lia]. }
  rewrite Hhi. destruct (is_zero _) eqn:Hz; [|done]. apply is_zero_spec in Hz. rewrite Hz. ring.
Qed.

(** ** The interval fill *)

Definition eq_interval (ch : list E) (start n : Z) : list E := map (eq_index ch) (seqZ start n).

Lemma eq_interval_app ch start m n : (0 <= m)%Z -> (0 <= n)%Z ->
  eq_interval ch start (m + n) = eq_interval ch start m ++ eq_interval ch (start + m) n.
Proof. intros Hm Hn. unfold eq_interval. by rewrite seqZ_app, map_app. Qed.

Lemma slice_eqt r a b : (0 <= a <= b)%Z -> (b <= 2 ^ len r)%Z ->
  slice (eqt r 1) a b = Some (map (eq_at r) (seqZ a (b - a))).
Proof.
  intros Ha Hb. unfold slice. rewrite len_eqt.
  rewrite (proj2 (Z.leb_le 0 a)), (proj2 (Z.leb_le a b)), (proj2 (Z.leb_le b _)) by lia. cbn [andb]. f_equal.
  pose proof (take_eqt r b ltac:(lia)) as Ht. rewrite take_drop_commute.
  replace (Z.to_nat a + Z.to_nat (b - a))%nat with (Z.to_nat b) by lia. rewrite <-Ht. unfold range.
  replace b with (a + (b - a))%Z at 1 by lia. rewrite seqZ_app, map_app by lia.
  rewrite drop_app_length'; [done|]. rewrite length_map, length_seqZ. lia.
Qed.

(** One block: [n] indices from [start] that share the high part [h]. *)
Lemma block_values lo hi start n : (0 <= start)%Z -> (start mod 2 ^ len lo + n <= 2 ^ len lo)%Z ->
  eq_interval (lo ++ hi) start n
  = map (fun v => v * eq_index hi (start / 2 ^ len lo)) (map (eq_at lo) (seqZ (start mod 2 ^ len lo) n)).
Proof.
  intros Hs Hn. unfold eq_interval. rewrite map_map.
  assert (Hp : (0 < 2 ^ len lo)%Z) by apply pow2_pos, len_nonneg.
  set (m := (start mod 2 ^ len lo)%Z) in *. set (h := (start / 2 ^ len lo)%Z) in *.
  assert (Hst : start = (2 ^ len lo * h + m)%Z) by apply Z_div_mod_eq_full.
  rewrite Hst, <-fmap_add_seqZ. change (@fmap list _ Z Z) with (@map Z Z). rewrite map_map. apply map_ext_in.
  intros i Hi%list_elem_of_In%elem_of_seqZ. pose proof (Z.mod_pos_bound start _ Hp) as Hmr. fold m in Hmr.
  assert (0 <= h)%Z by (apply Z.div_pos; lia).
  rewrite eq_index_app by nia. rewrite (Z.mul_comm (2 ^ len lo)), (Z.add_comm _ i), Z.mod_add, Z.div_add by lia.
  by rewrite Z.mod_small, Z.div_small, Z.add_0_l by lia.
Qed.

Lemma zeros_map {A} (l : list A) : map (fun _ => 0 : E) l = replicate (length l) 0.
Proof. induction l as [|a l IH]; cbn; [done|]. by f_equal. Qed.

Lemma zip_update_scale (l1 l2 : list E) c : length l1 = length l2 ->
  zip_update (fun _ v => v * c) l1 l2 = map (fun v => v * c) l2.
Proof. revert l2; induction l1 as [|a l1 IH]; intros [|b l2] Hl; cbn in *; try done. f_equal. apply IH. lia. Qed.

Lemma eq_interval_outside ch start n : (0 <= n)%Z -> (2 ^ len ch <= start)%Z ->
  eq_interval ch start n = replicate (Z.to_nat n) 0.
Proof.
  intros Hn Hs. unfold eq_interval.
  rewrite (map_ext_in _ (fun _ => 0)), zeros_map, length_seqZ; [done|].
  intros i Hi%list_elem_of_In%elem_of_seqZ. unfold eq_index. by rewrite (proj2 (Z.ltb_ge _ _)) by lia.
Qed.

(** What one pass writes to its part of the output. *)
Lemma fill_values lo hi start dst : (0 <= start)%Z -> (start mod 2 ^ len lo + len dst <= 2 ^ len lo)%Z ->
  let h := eq_index hi (start / 2 ^ len lo) in
  let vs := map (eq_at lo) (seqZ (start mod 2 ^ len lo) (len dst)) in
  (if is_zero h then Ok (replicate (length dst) 0)
   else if feqb h 1 then copy_from_slice dst vs
   else Ok (zip_update (fun _ v => v * h) dst vs)) = Ok (eq_interval (lo ++ hi) start (len dst)).
Proof.
  intros Hs Hn h vs. rewrite block_values by done. fold h. fold vs.
  assert (Hl : length vs = length dst) by (subst vs; rewrite length_map, length_seqZ; unfold len; lia).
  destruct (is_zero h) eqn:Hz.
  - apply is_zero_spec in Hz. rewrite Hz. f_equal. rewrite <-Hl, <-zeros_map. apply map_ext. intros. ring.
  - destruct (feqb h 1) eqn:Hone.
    + apply feqb_spec in Hone. rewrite Hone. unfold copy_from_slice, len. rewrite Hl, Z.eqb_refl. f_equal.
      rewrite <-(map_id vs) at 1. apply map_ext. intros. ring.
    + f_equal. by apply zip_update_scale.
Qed.

Lemma checked_add_Ok {A} a b (e : AkitaError) (k : Z -> result A) : in_u USIZE_BITS (a + b) ->
  (let* x := ok_or (checked_add a b) e in k x) = k (a + b)%Z.
Proof. intros Hr. unfold checked_add, usize. by rewrite checked_u_in. Qed.

Lemma checked_sub_Ok {A} a b (e : AkitaError) (k : Z -> result A) : in_u USIZE_BITS (a - b) ->
  (let* x := ok_or (checked_sub a b) e in k x) = k (a - b)%Z.
Proof. intros Hr. unfold checked_sub, usize. by rewrite checked_u_in. Qed.

Lemma fill_loop_spec' ch w hi_table fuel start output :
  window_of ch w -> eq_high w = Some hi_table ->
  (length output <= fuel)%nat -> (0 <= start)%Z -> (start + len output < 2 ^ 64)%Z ->
  fill_loop fuel w hi_table start output = Ok (eq_interval ch start (len output)).
Proof.
  intros Hw Hh. pose proof (w_cap _ _ Hw) as Hb. assert (hi_table = eqt (high_challenges w) 1) as -> by (destruct (w_high _ _ Hw); congruence).
  pose proof (window_bits_nonneg _ _ Hw) as Hb0.
  set (lo := take (Z.to_nat (low_bits w)) ch). assert (Hbl : low_bits w = len lo) by apply Hw.
  assert (Hch : ch = lo ++ high_challenges w) by apply Hw.
  assert (Hp : (0 < 2 ^ len lo <= 2 ^ 16)%Z).
  { rewrite <-Hbl. split; [by apply pow2_pos|]. apply Z.pow_le_mono_r; lia. }
  revert start output; induction fuel as [|fuel IH]; intros start [|x xs] Hf Hs Hr;
    try (cbn in Hf; lia); try done.
  set (out := x :: xs) in *. assert (Hlo : (0 < len out)%Z) by (unfold out; rewrite len_cons; pose proof (len_nonneg xs); lia).
  cbn [fill_loop]. fold out. rewrite (w_mask _ _ Hw), land_low, Z.shiftr_div_pow2, (w_low _ _ Hw) by lia.
  fold lo. rewrite len_eqt, Hbl. set (m := (start mod 2 ^ len lo)%Z).
  assert (Hm : (0 <= m < 2 ^ len lo)%Z) by (apply Z.mod_pos_bound; lia).
  rewrite checked_sub_Ok by (unfold in_u, USIZE_BITS; lia). cbv zeta.
  set (t := Z.min (2 ^ len lo - m) (len out)). assert (Ht : (0 < t <= len out)%Z) by lia.
  rewrite checked_add_Ok by (unfold in_u, USIZE_BITS; lia). rewrite slice_eqt by lia. cbn [ok_or obind].
  rewrite (proj2 (Z.leb_le t _)), split_at_Ok by lia. cbn [obind].
  pose proof (len_take_Z out t ltac:(lia)) as Hlt. pose proof (len_drop_Z out t ltac:(lia)) as Hld.
  set (dst := take (Z.to_nat t) out) in *. set (tl := drop (Z.to_nat t) out) in *.
  replace (m + t - m)%Z with (len dst) by lia.
  assert (Hsum : len out = (len dst + len tl)%Z) by lia.
  assert (Hq : (0 <= start / 2 ^ len lo)%Z) by (apply Z.div_pos; lia).
  destruct (index (eqt (high_challenges w) 1) (start / 2 ^ len lo)) as [scale|] eqn:Hi.
  - apply index_Some_len in Hi as Hil. rewrite len_eqt in Hil. rewrite eqt_index in Hi by lia. injection Hi as <-.
    assert (Hsc : 1 * eq_at (high_challenges w) (start / 2 ^ len lo) = eq_index (high_challenges w) (start / 2 ^ len lo)).
    { unfold eq_index. rewrite (proj2 (Z.ltb_lt _ _)) by lia. ring. }
    rewrite Hsc, fill_values by (fold m; lia). cbn [obind]. rewrite checked_add_Ok by (unfold in_u, USIZE_BITS; lia).
    rewrite IH; [|subst tl; rewrite length_drop; lia|lia|lia].
    cbn [obind]. rewrite <-Hch, Hsum, eq_interval_app, Hlt by apply len_nonneg. done.
  - rewrite Hsum, <-replicate_add. f_equal. symmetry.
    rewrite eq_interval_outside; [f_equal; unfold len; lia|pose proof (len_nonneg dst); pose proof (len_nonneg tl); lia|].
    assert (Hge : (2 ^ len (high_challenges w) <= start / 2 ^ len lo)%Z).
    { destruct (Z.lt_ge_cases (start / 2 ^ len lo) (2 ^ len (high_challenges w))) as [Hlt'|]; [|done].
      by rewrite eqt_index in Hi by lia. }
    rewrite Hch, len_app, Z.pow_add_r by apply len_nonneg. pose proof (Z_div_mod_eq_full start (2 ^ len lo)). nia.
Qed.


#[local] Opaque PARALLEL_THRESHOLD.
Lemma chunk_threshold_range : (0 < PARALLEL_THRESHOLD < 2 ^ 64)%Z.
Proof. done. Qed.

Lemma fill_chunk_spec ch w hi_table start c chunk :
  window_of ch w -> eq_high w = Some hi_table -> (0 <= c)%Z -> (0 <= start)%Z ->
  (start + c * PARALLEL_THRESHOLD + len chunk < 2 ^ 64)%Z ->
  fill_chunk w start hi_table (c, chunk) = Ok (eq_interval ch (start + c * PARALLEL_THRESHOLD) (len chunk)).
Proof.
  intros Hw Hh Hc Hs Hr. unfold fill_chunk. pose proof chunk_threshold_range. pose proof (len_nonneg chunk).
  assert (0 <= c * PARALLEL_THRESHOLD)%Z by nia.
  unfold checked_mul, checked_add, usize.
  rewrite checked_u_in by (unfold in_u, USIZE_BITS; lia). rewrite checked_u_in by (unfold in_u, USIZE_BITS; lia).
  cbn [ok_or obind]. unfold fill_bounded_high_interval. eapply fill_loop_spec'; eauto; lia.
Qed.

Lemma chunks_interval ch w hi_table start fuel l c :
  window_of ch w -> eq_high w = Some hi_table -> (length l <= fuel)%nat -> (0 <= c)%Z -> (0 <= start)%Z ->
  (start + c * PARALLEL_THRESHOLD + len l < 2 ^ 64)%Z ->
  let cs := chunks_fuel fuel (Z.to_nat PARALLEL_THRESHOLD) l in
  exists parts, omapM (fill_chunk w start hi_table) (zip (seqZ c (len cs)) cs) = Ok parts /\
                concat parts = eq_interval ch (start + c * PARALLEL_THRESHOLD) (len l).
Proof.
  intros Hw Hh. pose proof chunk_threshold_range as HP. revert l c.
  induction fuel as [|fuel IH]; intros [|x xs] c Hf; try (cbn in Hf; lia); try (by exists []).
  intros Hc Hs Hr. set (l := x :: xs) in *. cbv zeta.
  set (K := PARALLEL_THRESHOLD) in *. set (tl := drop (Z.to_nat K) l). set (hd := take (Z.to_nat K) l).
  change (chunks_fuel (S fuel) (Z.to_nat K) l) with (hd :: chunks_fuel fuel (Z.to_nat K) tl).
  assert (Hlen : len l = (len hd + len tl)%Z) by (unfold hd, tl; by rewrite <-len_app, take_drop).
  pose proof (len_nonneg hd). pose proof (len_nonneg tl).
  rewrite len_cons, seqZ_cons by (pose proof (len_nonneg (chunks_fuel fuel (Z.to_nat K) tl)); lia).
  cbn [zip zip_with omapM]. rewrite (fill_chunk_spec ch) by (done || lia). cbn [obind]. fold K.
  replace (Z.pred (len (chunks_fuel fuel (Z.to_nat K) tl) + 1)) with (len (chunks_fuel fuel (Z.to_nat K) tl)) by lia.
  destruct (decide (len l <= K)%Z) as [Hle|Hgt].
  - assert (Htl : tl = []) by (apply drop_ge; unfold len in Hle; lia).
    rewrite Htl. replace (chunks_fuel fuel (Z.to_nat K) (@nil E)) with (@nil (list E)) by by destruct fuel.
    exists [eq_interval ch (start + c * K) (len hd)]. split; [done|]. cbn [concat]. rewrite app_nil_r.
    f_equal. rewrite Hlen, Htl. change (len (@nil E)) with 0%Z. lia.
  - assert (Hhd : len hd = K) by (apply len_take_Z; lia).
    destruct (IH tl (Z.succ c)) as (parts & Hp & Hcat); [|lia|done|lia|].
    { subst tl. rewrite length_drop. unfold l, len in *. cbn [length] in *. lia. }
    cbv zeta in Hp. fold (zip (seqZ (Z.succ c) (len (chunks_fuel fuel (Z.to_nat K) tl))) (chunks_fuel fuel (Z.to_nat K) tl)).
    rewrite Hp. cbn [obind]. eexists. split; [done|]. cbn [concat]. rewrite Hcat, Hlen, eq_interval_app by done.
    do 2 f_equal. lia.
Qed.

Lemma eval_map ch w start (l : list E) : window_of ch w -> (0 <= start)%Z -> (start + len l < 2 ^ 64)%Z ->
  map (fun '(offset, _) => eval w (start + offset)) (enumerate l) = eq_interval ch start (len l).
Proof.
  intros Hw Hs Hr. unfold enumerate, eq_interval.
  transitivity (map (fun offset => eval w (start + offset)) (map fst (zip (range (len l)) l))).
  { rewrite map_map. by apply map_ext_in; intros [??] _. }
  change (map fst (zip (range (len l)) l)) with (zip (range (len l)) l).*1. rewrite fst_zip by (rewrite length_range; unfold len; lia).
  replace (seqZ start (len l)) with (Z.add start <$> seqZ 0 (len l)) by (rewrite fmap_add_seqZ; f_equal; lia). change (@fmap list _ Z Z) with (@map Z Z).
  rewrite map_map. apply map_ext_in. intros i Hi%list_elem_of_In%elem_of_range. by apply window_eval_spec; [|lia].
Qed.

Lemma fill_interval_spec ch w start output : window_of ch w -> (0 <= start)%Z ->
  fill_interval w start output =
    if (start + len output <? 2 ^ 64)%Z then Ok (eq_interval ch start (len output))
    else Err (InvalidInput "equality interval overflow").
Proof.
  intros Hw Hs. unfold fill_interval. pose proof (len_nonneg output) as Hl.
  destruct (Z.ltb_spec (start + len output) (2 ^ 64)) as [Hr|Hr].
  - rewrite checked_add_Ok by (unfold in_u, USIZE_BITS; lia).
    destruct (eq_high w) as [hi_table|] eqn:Hh; [|f_equal; by apply eval_map].
    destruct (PARALLEL_THRESHOLD <=? len output)%Z.
    + pose proof (chunks_interval ch w hi_table start (length output) output 0 Hw Hh) as Hc.
      unfold chunks_of, enumerate, range. destruct Hc as (parts & Hp & Hcat); [lia..|].
      rewrite Hp. cbn [obind]. rewrite Hcat. do 2 f_equal. lia.
    + unfold fill_bounded_high_interval. by eapply fill_loop_spec'.
  - unfold checked_add, usize. rewrite (proj2 (checked_u_None _ _)); [done|]. unfold in_u, USIZE_BITS. lia.
Qed.

Lemma eq_interval_scalar ch start n : (0 <= start)%Z -> (start + n <= 2 ^ 64)%Z ->
  eq_interval ch start n = map (eq_eval_at_index ch) (seqZ start n).
Proof.
  intros Hs Hn. apply map_ext_in. intros i Hi%list_elem_of_In%elem_of_seqZ. symmetry. apply eq_eval_spec. lia.
Qed.

(** C31: an equality window stands for its point.  Construction never panics,
    and fails only when a table of at most [2^16] entries is refused; the
    window then has the arity of the point, [eval] agrees with the scalar
    primitive [eq_eval_at_index] at every [usize] index, inside or outside the
    domain, and [fill_interval] (sequential, chunked or on demand) writes
    exactly the scalar values of the interval, or reports the overflow of its
    end. *)
Theorem offset_window_exact ch cap : (0 <= cap)%Z ->
  match with_low_bits ch cap with
  | Ok w =>
      variable_count w = len ch /\
      (forall i, (0 <= i < 2 ^ 64)%Z -> eval w i = eq_eval_at_index ch i) /\
      (forall start output, (0 <= start)%Z ->
         fill_interval w start output =
           if (start + len output <? 2 ^ 64)%Z
           then Ok (map (eq_eval_at_index ch) (seqZ start (len output)))
           else Err (InvalidInput "equality interval overflow"))
  | Err _ => ~ tables_granted
  | Panic => False
  end.
Proof.
  intros Hc. destruct (with_low_bits ch cap) as [w|e|] eqn:Hw.
  - apply with_low_bits_of in Hw; [|done]. split; [by apply variable_count_spec|]. split.
    + intros i Hi. rewrite eq_eval_spec by done. by apply window_eval_spec.
    + intros start output Hs. rewrite (fill_interval_spec ch) by done.
      destruct (Z.ltb_spec (start + len output) (2 ^ 64)); [|done]. by rewrite eq_interval_scalar by lia.
  - intros Hg. destruct (with_low_bits_granted ch cap Hc Hg) as (w & Hw' & _). by rewrite Hw in Hw'.
  - revert Hw. unfold with_low_bits. pose proof (split_low_range (len ch) cap (len_nonneg ch) Hc) as [Hr _].
    rewrite split_at_Ok by done. cbn [obind]. pose proof evals_no_panic as Hn.
    destruct (EqPolynomial.evals (take _ ch)) eqn:E1; cbn [obind]; [|done|by apply Hn in E1].
    destruct (_ <=? _)%Z; [|done].
    destruct (EqPolynomial.evals (drop _ ch)) eqn:E2; cbn [obind]; [done|done|by apply Hn in E2].
Qed.

(** ** The amortized window *)

Definition amortized_of (ch : list E) (s : AmortizedOffsetEq E) : Prop :=
  challenges s = ch /\ match window s with Some w => window_of ch w | None => True end.

Lemma amortized_new ch : amortized_of ch (AmortizedOffsetEq.new ch).
Proof. done. Qed.

Lemma amortized_eval ch s i : amortized_of ch s -> (0 <= i < 2 ^ 64)%Z -> AmortizedOffsetEq.eval s i = eq_index ch i.
Proof.
  intros [<- Hw] Hi. unfold AmortizedOffsetEq.eval. destruct (window s) as [w|]; [by apply window_eval_spec|].
  by apply eq_eval_spec.
Qed.

Lemma new_if_amortized_spec ch count : tables_granted ->
  exists o, new_if_amortized ch count = Ok o /\ match o with Some w => window_of ch w | None => True end.
Proof.
  intros Hg. unfold new_if_amortized. destruct (len ch =? 0)%Z; [by exists None|].
  pose proof (split_low_range (len ch) OFFSET_EQ_LOW_BITS_CAP (len_nonneg ch) ltac:(done)) as [Hr Hs].
  set (k := split_low_bits (len ch) OFFSET_EQ_LOW_BITS_CAP) in *. clearbody k. cbv zeta.
  assert (Hpow : forall n, (0 <= n <= 16)%Z -> checked.pow2 n = Some (2 ^ n)%Z).
  { intros n Hn. unfold checked.pow2. rewrite checked_u_in by (unfold in_u; lia).
    by rewrite (proj2 (Z.ltb_lt n USIZE_BITS)), Z.shiftl_1_l by (unfold USIZE_BITS; lia). }
  rewrite Hpow by lia. cbn [ok_or obind].
  assert (Hhigh : exists h, (if (len ch - k <=? OFFSET_EQ_HIGH_BITS_CAP)%Z
                   then ok_or (checked.pow2 (len ch - k)) (InvalidInput "eq table dimension overflow")
                   else Ok 0%Z) = Ok h /\ (0 <= h <= 2 ^ 16)%Z).
  { destruct (Z.leb_spec (len ch - k) OFFSET_EQ_HIGH_BITS_CAP) as [Hle|]; [|by exists 0%Z].
    unfold OFFSET_EQ_HIGH_BITS_CAP in Hle. rewrite Hpow by lia. eexists. split; [done|].
    split; [lia|]. apply Z.pow_le_mono_r; lia. }
  destruct Hhigh as (h & -> & Hh). cbn [obind].
  assert (Hk : (0 <= 2 ^ k <= 2 ^ 16)%Z) by (split; [lia|apply Z.pow_le_mono_r; lia]).
  unfold checked.sum. cbn [checked.sum_from]. unfold checked_add, usize.
  rewrite !checked_u_in by (unfold in_u, USIZE_BITS; lia). cbn [ok_or obind].
  destruct (_ <? _)%Z; [by exists None|]. unfold new.
  destruct (with_low_bits_granted ch OFFSET_EQ_LOW_BITS_CAP ltac:(done) Hg) as (w & -> & Hw).
  by exists (Some w).
Qed.

Lemma prepare_spec' ch s f r c : amortized_of ch s -> tables_granted ->
  (exists n, checked.product [f; r; c] = Some n) ->
  exists s', AmortizedOffsetEq.prepare_for_product s f r c = Ok s' /\ amortized_of ch s'.
Proof.
  intros [Hch Hw] Hg [n Hn]. unfold AmortizedOffsetEq.prepare_for_product.
  destruct (window s) eqn:Ew; [exists s; split; [done|]; split; [done|]; by rewrite Ew|].
  rewrite Hn. cbn [ok_or obind]. rewrite Hch.
  destruct (new_if_amortized_spec ch n Hg) as (o & -> & Ho). eexists. split; [done|]. by split.
Qed.
End window.

(** * Evaluation at a concrete point *)

Import EqPoly.F97_env.

Lemma offset_window_exact_witness :
  exists w, OffsetEqWindow.new (map F97.of_Z [3; 5; 7]%Z) = Ok w /\
    OffsetEqWindow.eval w 6 = eq_eval_at_index (map F97.of_Z [3; 5; 7]%Z) 6 /\
    OffsetEqWindow.fill_interval w 5 (replicate 5 (F97.of_Z 1))
      = Ok (map (eq_eval_at_index (map F97.of_Z [3; 5; 7]%Z)) (seqZ 5 5)).
Proof.
  pose proof (offset_window_exact (map F97.of_Z [3; 5; 7]%Z) OFFSET_EQ_LOW_BITS_CAP ltac:(done)) as Ho.
  unfold OffsetEqWindow.new.
  destruct (OffsetEqWindow.with_low_bits (map F97.of_Z [3; 5; 7]%Z) OFFSET_EQ_LOW_BITS_CAP) as [w|e|] eqn:Ew;
    [|exfalso; vm_compute in Ew; discriminate Ew|done].
  exists w. split; [done|]. destruct Ho as (_ & He & Hf). split; [by apply He|]. by rewrite Hf.
Defined.
