(* ===== verification/AffineIntervals.v ===== *)
(** [akita-algebra/src/offset_eq.rs], the affine interval evaluator: the
    contraction of a digit-innermost affine interval of equality addresses
    against factored outer weights, with its three kernels (bit-aligned,
    row by row, carry-bucketed) and the dense and geometric low summaries.

    The outer weights are an interface ([AffineWeight]) and so is the access to
    them ([AffineWeightSource]).  The order among equal keys of
    [sort_unstable_by_key] and the splitting of the parallel fold are left to
    parameters with the documented laws. *)

From S2P Require Import Prelude Checked Field Serialization EqPoly OffsetWindow.
Local Open Scope Z_scope.

Definition MAX_COMPACT_STRIDE_TERMS : Z := Z.shiftl 1 28.

(** [AffineWeight<F>] *)
Class AffineWeight (E A : Type) := {
  zero_like : A -> A;
  add_scaled : A -> A -> E -> A;
  add : A -> A -> A;
  add_scalar : A -> E -> result A;
  multiply : A -> A -> A;
}.

(** [impl AffineWeight<F> for F] *)
#[export] Instance AffineWeight_field {E} `{Field E} : AffineWeight E E := {
  zero_like _ := fzero;
  add_scaled self factor scale := (self + factor * scale)%F;
  add self factor := (self + factor)%F;
  add_scalar self scale := Ok (self + scale)%F;
  multiply self rhs := (self * rhs)%F;
}.

(** [AffineWeightSource<F, A>]: the callback of [with_weight] is applied to
    the weight that is returned here. *)
Record AffineWeightSource (A : Type) := {
  source_len : Z;
  with_weight : Z -> option A;
}.
Arguments source_len {A}. Arguments with_weight {A}.

(** [impl AffineWeightSource for H: AsRef<[A]>] *)
Definition slice_source {A} (l : list A) : AffineWeightSource A :=
  {| source_len := len l; with_weight := index l |}.

Record AffineWeightProduct (A : Type) := { outer : list A; inner : list A; product_len : Z }.
Arguments outer {A}. Arguments inner {A}. Arguments product_len {A}.

Module AffineWeightProduct.
Definition new {A} (outer inner : list A) : result (AffineWeightProduct A) :=
  let* n := ok_or (checked_mul (len outer) (len inner)) (InvalidInput "affine weight product overflow") in
  Ok {| outer := outer; inner := inner; product_len := n |}.

Definition source {E A} `{AffineWeight E A} (p : AffineWeightProduct A) : AffineWeightSource A :=
  {| source_len := product_len p;
     with_weight i :=
       if len (inner p) =? 0 then None
       else
         o ← index (outer p) (i / len (inner p));
         n ← index (inner p) (i mod len (inner p));
         Some (multiply o n) |}.
End AffineWeightProduct.

Record AffineAddress (E : Type) := { first : Z; scale : option E }.
Arguments first {E}. Arguments scale {E}.

(** The consecutive parts of [0..n] that [cfg_fold_reduce!] folds apart. *)
Class FoldSchedule := {
  task_parts : Z -> list (list Z);
  task_parts_cover n : concat (task_parts n) = range n;
}.

(** [cfg_fold_reduce!(0..n, identity, fold, reduce)] *)
Definition fold_reduce {Er S} `{FoldSchedule} (n : Z) (identity : outcome Er S)
    (fold : S -> Z -> outcome Er S) (reduce : S -> S -> outcome Er S) : outcome Er S :=
  let* parts := omapM (fun tasks => let* s := identity in ofold fold tasks s) (task_parts n) in
  let* s := identity in
  ofold reduce parts s.

Section ops.
Context {E A : Type} `{Field E, EqRuntime E, Allocator, AffineWeight E A, UnstableSort, FoldSchedule}.

(** [get_mut(i).ok_or(e)?] followed by an update of the entry *)
Definition update_at {T} (l : list T) (i : Z) (e : AkitaError) (f : T -> T) : result (list T) :=
  match index l i with
  | Some x => Ok (<[Z.to_nat i := f x]> l)
  | None => Err e
  end.

Section kernel.
Context (outer_stride digit_stride : Z) (digit_weights : list E)
        (high_weights : AffineWeightSource A) (low_weights : list A) (base_scales : list E).

(** ** The bit-aligned kernel *)

Definition aligned_digit (low_challenges : list E) (base_low : Z) (evaluations : list E) (term : Z * E)
  : result (list E) :=
  let '(digit, digit_weight) := term in
  let* shifted := ok_or (offset ← checked_mul digit digit_stride; checked_add base_low offset)
                    (InvalidInput "affine digit offset overflow") in
  let carry := shifted / outer_stride in
  let low_index := Z.land shifted (outer_stride - 1) in
  update_at evaluations carry (InvalidInput "affine aligned digit carry exceeds one")
    (fun e => e + digit_weight * eq_eval_at_index low_challenges low_index)%F.

Definition aligned_outer (high_window : OffsetEqWindow E) (base_high carry outer_start : Z)
    (acc : A) (outer : Z) : result A :=
  let* high_index := ok_or (base ← checked_add base_high carry; checked_add base (outer - outer_start))
                       (InvalidInput "affine high address overflow") in
  let eq_high := OffsetEqWindow.eval high_window high_index in
  if is_zero eq_high then Ok acc
  else
    let* weight := ok_or (with_weight high_weights outer) (InvalidInput "affine high factor out of range") in
    Ok (add_scaled acc weight eq_high).

Definition aligned_carry (high_window : OffsetEqWindow E) (template : A) (base_index base_high outer_start live_len : Z)
    (out : A) (term : Z * E) : result A :=
  let '(carry, digit_evaluation) := term in
  let digit_evaluation :=
    match index base_scales base_index with Some scale => (digit_evaluation * scale)%F | None => digit_evaluation end in
  if is_zero digit_evaluation then Ok out
  else
    let* outer_evaluation :=
      ofold (aligned_outer high_window base_high carry outer_start) (seqZ outer_start live_len) (zero_like template) in
    Ok (add_scaled out outer_evaluation digit_evaluation).

Definition aligned_base (low_challenges : list E) (high_window : OffsetEqWindow E) (template : A)
    (outer_start live_len : Z) (out : A) (term : Z * Z) : result A :=
  let '(base_index, base_offset) := term in
  let base_low := Z.land base_offset (outer_stride - 1) in
  let* digit_evaluations :=
    ofold (aligned_digit low_challenges base_low) (enumerate digit_weights) [fzero; fzero] in
  let base_high := Z.shiftr base_offset (Z.log2 outer_stride) in
  ofold (aligned_carry high_window template base_index base_high outer_start live_len)
    (enumerate digit_evaluations) out.

(** [trailing_zeros] of a power of two is its logarithm. *)
Definition try_eval_bit_aligned_digit_intervals (challenges : list E) (base_offsets : list Z)
    (outer_start live_len : Z) : result (option A) :=
  if negb (len low_weights =? 0) || negb (checked.is_power_of_two outer_stride) then Ok None
  else
    let low_bits := Z.log2 outer_stride in
    if len challenges <? low_bits then Ok None
    else
      let* work := ok_or (rows ← checked_mul live_len 2; terms ← checked_add rows (len digit_weights);
                          checked_mul (len base_offsets) terms)
                     (InvalidInput "affine aligned work overflow") in
      if MAX_COMPACT_STRIDE_TERMS <? work then Err (InvalidSize MAX_COMPACT_STRIDE_TERMS work)
      else
        let* (low_challenges, high_challenges) := split_at challenges low_bits in
        let* high_window := OffsetEqWindow.new high_challenges in
        let* weight := ok_or (with_weight high_weights outer_start) (InvalidInput "affine high factor out of range") in
        let template := zero_like weight in
        let* _ := ok_or (checked_add outer_start live_len) (InvalidInput "affine outer window overflow") in
        let* out := ofold (aligned_base low_challenges high_window template outer_start live_len)
                      (enumerate base_offsets) (zero_like template) in
        Ok (Some out).

(** ** The geometric low summaries *)

(** [rpow[k] = rpow[k - 1] * r] from [rpow[0] = 1], [n] further entries *)
Fixpoint power_table (r acc : E) (n : nat) : list E :=
  match n with O => [acc] | S n => acc :: power_table r (acc * r)%F n end.

(** [prefix[u + 1] = prefix[u] + rpow[u] * eq_low[u]] *)
Fixpoint prefix_table (acc : E) (rpow eq_low : list E) : list E :=
  match rpow, eq_low with
  | p :: rpow, e :: eq_low => acc :: prefix_table (acc + p * e)%F rpow eq_low
  | _, _ => [acc]
  end.

Definition geometric_low (rpow rinvpow prefix : list E) (d0 : E) (address_low low_len low_start : Z)
    (summaries : list A) (low : Z) : result (list A) :=
  let delta := len digit_weights in
  let* low_factor := ok_or (index low_weights low) (InvalidInput "affine low factor out of range") in
  let* start := ok_or (shift ← checked_mul outer_stride (low - low_start); checked_add address_low shift)
                  (InvalidInput "affine low address overflow") in
  let carry := start / low_len in
  let s := Z.land start (low_len - 1) in
  let count1 := Z.min delta (low_len - s) in
  let* hi := unwrap (index prefix (s + count1)) in
  let* lo := unwrap (index prefix s) in
  let* anchor := unwrap (index rinvpow s) in
  let val := (d0 * anchor * (hi - lo))%F in
  let* summaries := update_at summaries carry (InvalidInput "affine carry out of range")
                      (fun summary => add_scaled summary low_factor val) in
  if count1 <? delta then
    let* seg := unwrap (index prefix (delta - count1)) in
    let* power := unwrap (index rpow count1) in
    let val := (d0 * power * seg)%F in
    let* carry := ok_or (checked_add carry 1) (InvalidInput "affine carry overflow") in
    update_at summaries carry (InvalidInput "affine carry out of range")
      (fun summary => add_scaled summary low_factor val)
  else Ok summaries.

Definition saturating_mul_usize (a b : Z) : Z := Z.min (2 ^ USIZE_BITS - 1) (a * b).

Definition geometric_ratio (d0 : E) : option E :=
  match digit_weights with
  | _ :: d1 :: _ => d0_inv ← finverse d0; Some (d1 * d0_inv)%F
  | _ => Some fone
  end.

Definition build_geometric_low_summaries (template : A) (eq_low : list E)
    (address_low low_len low_start low_end carry_count : Z) : result (option (list A)) :=
  let delta := len digit_weights in
  if (delta =? 0) || (low_len <? delta) || negb (len eq_low =? low_len)
     || (saturating_mul_usize (saturating_sub low_end low_start) delta <? low_len)
  then Ok None
  else
    let* d0 := unwrap (index digit_weights 0) in
    if is_zero d0 then Ok None
    else
      match geometric_ratio d0 with
      | None => Ok None
      | Some r =>
          if is_zero r then Ok None
          else
            let rpow := power_table r fone (Z.to_nat low_len) in
            if negb (forallb (fun '(k, weight) =>
                        match index rpow k with Some p => feqb weight (d0 * p)%F | None => false end)
                      (enumerate digit_weights))
            then Ok None
            else
              match finverse r with
              | None => Ok None
              | Some r_inv =>
                  let rinvpow := power_table r_inv fone (Z.to_nat low_len - 1) in
                  let prefix := prefix_table fzero rpow eq_low in
                  let* summaries :=
                    ofold (geometric_low rpow rinvpow prefix d0 address_low low_len low_start)
                      (seqZ low_start (low_end - low_start))
                      (replicate (Z.to_nat carry_count) (zero_like template)) in
                  Ok (Some summaries)
              end
      end.

(** ** The dense low summaries *)

Definition identity_digit (summaries : list A) (term : Z * E) : result (list A) :=
  let '(digit, digit_weight) := term in
  let* carry := ok_or (checked_mul digit_stride digit) (InvalidInput "affine digit offset overflow") in
  match index summaries carry with
  | None => Err (InvalidInput "affine carry out of range")
  | Some summary =>
      let* summary := add_scalar summary digit_weight in
      Ok (<[Z.to_nat carry := summary]> summaries)
  end.

Definition dense_digit (low_challenges : list E) (eq_low_table : option (list E)) (address_low low_len low_delta : Z)
    (low_factor : A) (summaries : list A) (term : Z * E) : result (list A) :=
  let '(digit, digit_weight) := term in
  let* digit_offset := ok_or (checked_mul digit_stride digit) (InvalidInput "affine digit offset overflow") in
  let* shifted := ok_or (value ← checked_add address_low low_delta; checked_add value digit_offset)
                    (InvalidInput "affine low address overflow") in
  let carry := shifted / low_len in
  let low_index := Z.land shifted (low_len - 1) in
  let* eq_low :=
    match eq_low_table with
    | Some table => ok_or (index table low_index) (InvalidInput "affine low index out of range")
    | None => Ok (eq_eval_at_index low_challenges low_index)
    end in
  update_at summaries carry (InvalidInput "affine carry out of range")
    (fun summary => add_scaled summary low_factor (digit_weight * eq_low)%F).

Definition dense_low (low_challenges : list E) (eq_low_table : option (list E)) (address_low low_len low_start : Z)
    (summaries : list A) (low : Z) : result (list A) :=
  let* low_factor := ok_or (index low_weights low) (InvalidInput "affine low factor out of range") in
  let* low_delta := ok_or (checked_mul outer_stride (low - low_start)) (InvalidInput "affine low address overflow") in
  ofold (dense_digit low_challenges eq_low_table address_low low_len low_delta low_factor)
    (enumerate digit_weights) summaries.

Definition build_affine_low_summaries (template : A) (low_challenges : list E) (eq_low_table : option (list E))
    (address_low low_len low_start low_end carry_count : Z) : result (list A) :=
  let summaries := replicate (Z.to_nat carry_count) (zero_like template) in
  if len low_weights =? 0 then
    if negb (low_len =? 1) || negb (len low_challenges =? 0) || negb (address_low =? 0)
       || negb (low_start =? 0) || negb (low_end =? 1)
    then Err (InvalidInput "affine identity low factor requires the unit low domain")
    else ofold identity_digit (enumerate digit_weights) summaries
  else
    let* geometric :=
      if digit_stride =? 1 then
        match eq_low_table with
        | Some table =>
            build_geometric_low_summaries template table address_low low_len low_start low_end carry_count
        | None => Ok None
        end
      else Ok None in
    match geometric with
    | Some summaries => Ok summaries
    | None =>
        ofold (dense_low low_challenges eq_low_table address_low low_len low_start)
          (seqZ low_start (low_end - low_start)) summaries
    end.

(** ** The carry-bucketed kernel *)

Definition FAST_HIGH_ROWS_MIN : Z := 8.
Definition PARALLEL_HIGH_ROWS_MIN : Z := Z.shiftl 1 12.

(** [1usize.checked_shl(s as u32)] *)
Definition checked_shl1 (s : Z) : option Z := if uwrap 32 s <? USIZE_BITS then Some (Z.shiftl 1 (uwrap 32 s)) else None.

Definition bucketed_high_rows_plan (total_rows carry_count high_challenge_count : Z) : result (option Z) :=
  if (total_rows <? FAST_HIGH_ROWS_MIN) || (carry_count =? 0) then Ok None
  else
    let* window := ok_or (checked.checked_next_power_of_two carry_count) (InvalidInput "affine bucket window overflow") in
    let window_bits := Z.log2 window in
    if OFFSET_EQ_LOW_BITS_CAP <? window_bits then Ok None
    else
      match checked_sub high_challenge_count window_bits with
      | None => Ok None
      | Some split_bits =>
          if 2 * OFFSET_EQ_HIGH_BITS_CAP <? split_bits then Ok None
          else
            let split_low_bits := split_bits / 2 in
            let split_high_bits := split_bits - split_low_bits in
            let* split_entries := ok_or (low ← checked_shl1 split_low_bits; high ← checked_shl1 split_high_bits;
                                         checked_add low high)
                                    (InvalidInput "affine split table work overflow") in
            let* fallback_work := ok_or (checked_mul total_rows carry_count) (InvalidInput "affine fallback work overflow") in
            let* bucket_work := ok_or (rows ← checked_mul total_rows 2; combine ← checked_mul carry_count window;
                                       work ← checked_add rows combine; allocation ← checked_mul window 3;
                                       work ← checked_add work allocation; checked_add work split_entries)
                                  (InvalidInput "affine bucket work overflow") in
            if fallback_work <=? bucket_work then Ok None
            else if MAX_COMPACT_STRIDE_TERMS <? bucket_work
            then Err (InvalidSize MAX_COMPACT_STRIDE_TERMS bucket_work)
            else Ok (Some window)
      end.

Definition eval_high (split_high : SplitEqEvals E) (high_domain block : Z) : result E :=
  if block <? high_domain then SplitEqEvals.eval_at split_high block else Ok fzero.

(** [base_scale.map_or(v, |base_scale| v * base_scale)] *)
Definition scaled_by (base_scale : option E) (v : E) : E :=
  match base_scale with Some s => (v * s)%F | None => v end.

Definition bucket_row (split_high : SplitEqEvals E) (high_domain window first_high : Z) (base_scale : option E) (h0 : Z)
    (buckets : list A * list A) (row : Z) : result (list A * list A) :=
  let '(bucket0, bucket1) := buckets in
  let* high_index := ok_or (checked_add first_high row) (InvalidInput "affine high index overflow") in
  let* address_high := ok_or (shift ← checked_mul outer_stride row; checked_add h0 shift)
                         (InvalidInput "affine high address overflow") in
  let low_pos := Z.land address_high (window - 1) in
  let block := Z.shiftr address_high (Z.log2 window) in
  let* eq_block0 := eval_high split_high high_domain block in
  let* next := ok_or (checked_add block 1) (InvalidInput "affine high block overflow") in
  let* eq_block1 := eval_high split_high high_domain next in
  let eq_block0 := scaled_by base_scale eq_block0 in
  let eq_block1 := scaled_by base_scale eq_block1 in
  let* high_factor := ok_or (with_weight high_weights high_index) (InvalidInput "affine high factor out of range") in
  let* bucket0 := update bucket0 low_pos (fun slot => add_scaled slot high_factor eq_block0) in
  let* bucket1 := update bucket1 low_pos (fun slot => add_scaled slot high_factor eq_block1) in
  Ok (bucket0, bucket1).

Definition bucket_address (split_high : SplitEqEvals E) (high_domain window low_bits first_high rows : Z)
    (buckets : list A * list A) (address : AffineAddress E) : result (list A * list A) :=
  let h0 := Z.shiftr (first address) low_bits in
  ofold (bucket_row split_high high_domain window first_high (scale address) h0) (range rows) buckets.

Definition bucket_task (split_high : SplitEqEvals E) (high_domain window low_bits first_high rows addresses_per_task : Z)
    (addresses : list (AffineAddress E)) (buckets : list A * list A) (task : Z) : result (list A * list A) :=
  let* start := ok_or (checked_mul task addresses_per_task) (InvalidInput "affine task range overflow") in
  let* stop := ok_or (stop ← checked_add start addresses_per_task; Some (Z.min stop (len addresses)))
                 (InvalidInput "affine task range overflow") in
  let* addresses := ok_or (slice addresses start stop) (InvalidInput "affine task range invalid") in
  ofold (bucket_address split_high high_domain window low_bits first_high rows) addresses buckets.

Definition add_buckets (lhs rhs : list A * list A) : result (list A * list A) :=
  Ok (zip_update add lhs.1 rhs.1, zip_update add lhs.2 rhs.2).

(** [Σ_pos bucket[pos] * eq_low_hi[(pos + carry) mod window]] *)
Definition combine_pos (bucket0 bucket1 : list A) (eq_low_hi : list E) (window carry : Z) (phi : A) (pos : Z) : result A :=
  let shifted := pos + carry in
  if shifted <? window then
    let* b := unwrap (index bucket0 pos) in
    let* e := unwrap (index eq_low_hi shifted) in
    Ok (add_scaled phi b e)
  else
    let* b := unwrap (index bucket1 pos) in
    let* e := unwrap (index eq_low_hi (shifted - window)) in
    Ok (add_scaled phi b e).

Definition combine_carry (template : A) (bucket0 bucket1 : list A) (eq_low_hi : list E) (window : Z)
    (out : A) (term : Z * A) : result A :=
  let '(carry, summary) := term in
  let* phi := ofold (combine_pos bucket0 bucket1 eq_low_hi window carry) (range window) (zero_like template) in
  Ok (add out (multiply phi summary)).

(** [Some out] when the rows were handled. *)
Definition accumulate_high_rows_bucketed (out : A) (high_challenges : list E) (addresses : list (AffineAddress E))
    (low_bits first_high rows : Z) (summaries : list A) : result (option A) :=
  let carry_count := len summaries in
  let* total_rows := ok_or (checked_mul rows (len addresses)) (InvalidInput "affine high row count overflow") in
  let* plan := bucketed_high_rows_plan total_rows carry_count (len high_challenges) in
  match plan with
  | None => Ok None
  | Some window =>
      let* template := ok_or (index summaries 0) (InvalidInput "affine summaries empty") in
      let window_bits := Z.log2 window in
      let* (low_hi, high_hi) := split_at high_challenges window_bits in
      let* eq_low_hi := EqPolynomial.evals low_hi in
      let* split_high := SplitEqEvals.new high_hi in
      let high_domain := if USIZE_BITS <=? len high_hi then 2 ^ USIZE_BITS - 1 else Z.shiftl 1 (len high_hi) in
      let task_count := if PARALLEL_HIGH_ROWS_MIN <=? total_rows then len addresses else 1 in
      let addresses_per_task := (len addresses + task_count - 1) / task_count in
      let zeros := replicate (Z.to_nat window) (zero_like template) in
      let* (bucket0, bucket1) :=
        fold_reduce task_count (Ok (zeros, zeros))
          (bucket_task split_high high_domain window low_bits first_high rows addresses_per_task addresses)
          add_buckets in
      let* out := ofold (combine_carry template bucket0 bucket1 eq_low_hi window) (enumerate summaries) out in
      Ok (Some out)
  end.

(** ** The row-by-row kernel *)

Definition row_carry (high_equality : AmortizedOffsetEq E) (high_factor : A) (base_scale : option E) (address_high : Z)
    (out : A) (term : Z * A) : result A :=
  let '(carry, summary) := term in
  let* high := ok_or (checked_add address_high carry) (InvalidInput "affine high address overflow") in
  let eq_high := AmortizedOffsetEq.eval high_equality high in
  if is_zero eq_high then Ok out
  else Ok (add_scaled out (multiply high_factor summary) (scaled_by base_scale eq_high)).

Definition row_address_of (low_len first_address row : Z) : result Z :=
  let* shift := ok_or (stride ← checked_mul outer_stride low_len; checked_mul stride row)
                  (InvalidInput "affine high address overflow") in
  ok_or (checked_add first_address shift) (InvalidInput "affine high address overflow").

Definition accumulate_row (high_equality : AmortizedOffsetEq E) (low_bits low_len first_high : Z) (summaries : list A)
    (address : AffineAddress E) (out : A) (row : Z) : result A :=
  let* high_index := ok_or (checked_add first_high row) (InvalidInput "affine high index overflow") in
  let* row_address := row_address_of low_len (first address) row in
  let address_high := Z.shiftr row_address low_bits in
  let* high_factor := ok_or (with_weight high_weights high_index) (InvalidInput "affine high factor out of range") in
  ofold (row_carry high_equality high_factor (scale address) address_high) (enumerate summaries) out.

Definition group_carry_count (low_len address_low low_start low_end : Z) : result Z :=
  let* low_steps := ok_or (span ← checked_sub low_end low_start; checked_sub span 1)
                      (InvalidInput "affine low span is empty") in
  let* digit_steps := ok_or (checked_sub (len digit_weights) 1) (InvalidInput "affine digit span is empty") in
  let* reach := ok_or (checked_mul outer_stride low_steps) (InvalidInput "affine carry span overflow") in
  let* max_carry_numerator :=
    ok_or (value ← checked_add address_low reach; digit_span ← checked_mul digit_stride digit_steps;
           checked_add value digit_span)
      (InvalidInput "affine carry span overflow") in
  ok_or (carry ← checked.checked_div max_carry_numerator low_len; checked_add carry 1)
    (InvalidInput "affine carry count overflow").

(** The closure [accumulate_group]; the amortized window is part of its state. *)
Definition accumulate_group (template : A) (low_challenges high_challenges : list E) (eq_low_table : option (list E))
    (low_len first_high low_start low_end rows : Z) (state : A * AmortizedOffsetEq E)
    (address_low : Z) (addresses : list (AffineAddress E)) : result (A * AmortizedOffsetEq E) :=
  let '(out, high_equality) := state in
  let* carry_count := group_carry_count low_len address_low low_start low_end in
  let* summaries := build_affine_low_summaries template low_challenges eq_low_table address_low low_len
                      low_start low_end carry_count in
  let* bucketed := accumulate_high_rows_bucketed out high_challenges addresses (len low_challenges)
                     first_high rows summaries in
  match bucketed with
  | Some out => Ok (out, high_equality)
  | None =>
      let* high_equality :=
        AmortizedOffsetEq.prepare_for_product high_equality (len addresses) rows (len summaries) in
      let* out :=
        ofold (fun out address =>
                 ofold (accumulate_row high_equality (len low_challenges) low_len first_high summaries address)
                   (range rows) out)
          addresses out in
      Ok (out, high_equality)
  end.

(** The number of leading entries that satisfy [p]: [partition_point] of a
    partitioned slice. *)
Fixpoint partition_point {T} (p : T -> bool) (l : list T) : Z :=
  match l with
  | [] => 0
  | a :: l => if p a then 1 + partition_point p l else 0
  end.

(** The [while] loop over the groups of equal low residue; a group has at
    least one address. *)
Fixpoint group_loop (fuel : nat) (low_len : Z)
    (group : A * AmortizedOffsetEq E -> Z -> list (AffineAddress E) -> result (A * AmortizedOffsetEq E))
    (state : A * AmortizedOffsetEq E) (addresses : list (AffineAddress E)) : result (A * AmortizedOffsetEq E) :=
  match addresses, fuel with
  | [], _ => Ok state
  | _, O => Panic
  | address :: _, S fuel =>
      let address_low := Z.land (first address) (low_len - 1) in
      let group_len := partition_point (fun address => Z.land (first address) (low_len - 1) =? address_low) addresses in
      let* (members, rest) := split_at addresses group_len in
      let* state := group state address_low members in
      group_loop fuel low_len group state rest
  end.

Definition base_addresses (base_offsets : list Z) (address_delta : Z) : result (list (AffineAddress E)) :=
  omapM (fun '(base_index, base_offset) =>
           let* first := ok_or (checked_add base_offset address_delta) (InvalidInput "affine row address overflow") in
           Ok {| first := first; scale := index base_scales base_index |})
    (enumerate base_offsets).

Definition accumulate_affine_rows (out : A) (low_challenges high_challenges : list E) (base_offsets : list Z)
    (outer_start first_high low_start low_end rows : Z) : result A :=
  let low_len := Z.max (len low_weights) 1 in
  let* row_outer := ok_or (base ← checked_mul first_high low_len; checked_add base low_start)
                      (InvalidInput "affine row address overflow") in
  let* local_outer := ok_or (checked_sub row_outer outer_start) (InvalidInput "affine row precedes outer window") in
  let* address_delta := ok_or (checked_mul outer_stride local_outer) (InvalidInput "affine row address overflow") in
  let* weight := ok_or (with_weight high_weights first_high) (InvalidInput "affine high factor out of range") in
  let template := zero_like weight in
  let* eq_low_table :=
    if len low_weights =? 0 then Ok None
    else if len low_challenges <=? OFFSET_EQ_LOW_BITS_CAP
    then let* table := EqPolynomial.evals low_challenges in Ok (Some table)
    else Ok None in
  let group := accumulate_group template low_challenges high_challenges eq_low_table low_len
                 first_high low_start low_end rows in
  let state := (out, AmortizedOffsetEq.new high_challenges) in
  if len base_offsets =? 1 then
    let* base_offset := unwrap (index base_offsets 0) in
    let* first_address := ok_or (checked_add base_offset address_delta) (InvalidInput "affine row address overflow") in
    let* (out, _) := group state (Z.land first_address (low_len - 1))
                       [{| first := first_address; scale := index base_scales 0 |}] in
    Ok out
  else
    let* addresses := base_addresses base_offsets address_delta in
    let addresses := sort_by_key (fun address => Z.land (first address) (low_len - 1)) addresses in
    let* (out, _) := group_loop (length addresses) low_len group state addresses in
    Ok out.

(** ** The evaluator *)

(** The exact window cut into an unaligned first row, full rows and an
    unaligned last row. *)
Definition eval_rows (template : A) (challenges : list E) (base_offsets : list Z)
    (outer_start outer_end low_len low_bits carry_count : Z) : result A :=
  let cursor := outer_start in
  let* prefix_end :=
    if checked.is_multiple_of cursor low_len then Ok cursor
    else
      let* boundary := ok_or (checked_add cursor (low_len - cursor mod low_len)) (InvalidInput "affine row boundary overflow") in
      Ok (Z.min outer_end boundary) in
  let suffix_start := outer_end - outer_end mod low_len in
  let full_start := prefix_end in
  let full_end := Z.min (Z.max suffix_start full_start) outer_end in
  let prefix_span := prefix_end - cursor in
  let full_rows := saturating_sub full_end prefix_end / low_len in
  let* cursor := ok_or (covered ← checked_mul full_rows low_len; checked_add prefix_end covered)
                   (InvalidInput "affine full-row coverage overflow") in
  let suffix_span := outer_end - cursor in
  let* summarized_low := ok_or (span ← checked_add prefix_span suffix_span;
                                checked_add span (if full_rows =? 0 then 0 else low_len))
                           (InvalidInput "affine low work overflow") in
  let* row_count := ok_or (rows ← checked_add (Z.b2z (negb (prefix_span =? 0))) full_rows;
                           checked_add rows (Z.b2z (negb (suffix_span =? 0))))
                      (InvalidInput "affine row work overflow") in
  let* work_per_family := ok_or (low_work ← checked_mul (len digit_weights) summarized_low;
                                 high_work ← checked_mul row_count carry_count;
                                 checked_add low_work high_work)
                            (InvalidInput "affine work overflow") in
  let* work := ok_or (checked_mul work_per_family (len base_offsets)) (InvalidInput "affine family work overflow") in
  if MAX_COMPACT_STRIDE_TERMS <? work then Err (InvalidSize MAX_COMPACT_STRIDE_TERMS work)
  else
    let* (low_challenges, high_challenges) := split_at challenges low_bits in
    let rows_from out first_high low_start low_end rows :=
      accumulate_affine_rows out low_challenges high_challenges base_offsets outer_start
        first_high low_start low_end rows in
    let out := zero_like template in
    let* out := if prefix_span =? 0 then Ok out
                else rows_from out (outer_start / low_len) (outer_start mod low_len)
                       (outer_start mod low_len + prefix_span) 1 in
    let* out := if full_rows =? 0 then Ok out
                else rows_from out (full_start / low_len) 0 low_len full_rows in
    if suffix_span =? 0 then Ok out
    else rows_from out (cursor / low_len) 0 suffix_span 1.

Definition check_base_address (challenges : list E) (address_span : Z) (_ : unit) (base_offset : Z) : result unit :=
  let* max_address := ok_or (checked_add base_offset address_span) (InvalidInput "affine address overflow") in
  if (len challenges <? USIZE_BITS) && (Z.shiftl 1 (len challenges) <=? max_address)
  then Err (InvalidSize (len challenges + 1) (len challenges))
  else Ok tt.

Definition eval_affine_digit_intervals (challenges : list E) (base_offsets : list Z) (outer_start live_len : Z) : result A :=
  let* template :=
    match with_weight high_weights 0, low_weights with
    | Some weight, _ => Ok (zero_like weight)
    | None, weight :: _ => Ok (zero_like weight)
    | None, [] => Err (InvalidInput "affine factors must be non-empty")
    end in
  if (live_len =? 0) || (len base_offsets =? 0) then Ok (zero_like template)
  else if negb (len base_scales =? 0) && negb (len base_scales =? len base_offsets)
  then Err (InvalidSize (len base_offsets) (len base_scales))
  else
    let low_len := Z.max (len low_weights) 1 in
    let* digit_span := ok_or (count ← checked_sub (len digit_weights) 1; checked_mul count digit_stride)
                         (InvalidInput "affine digit span overflow") in
    if negb (checked.is_power_of_two low_len) || (len digit_weights =? 0) || (digit_stride =? 0)
       || (outer_stride <=? digit_span)
    then Err (InvalidInput "affine digit geometry requires power-of-two low length and an outer stride covering every strided digit")
    else
      let low_bits := Z.log2 low_len in
      if len challenges <? low_bits then Err (InvalidSize low_bits (len challenges))
      else
        let* outer_end := ok_or (checked_add outer_start live_len) (InvalidInput "affine outer window overflow") in
        let* outer_capacity := ok_or (checked_mul (source_len high_weights) low_len)
                                 (InvalidInput "affine outer capacity overflow") in
        if outer_capacity <? outer_end then Err (InvalidSize outer_capacity outer_end)
        else
          let* carry_count := ok_or (checked_add outer_stride 1) (InvalidInput "affine carry count overflow") in
          let* address_span := ok_or (delta ← checked_mul outer_stride (live_len - 1); checked_add delta digit_span)
                                 (InvalidInput "affine address overflow") in
          let* _ := ofold (check_base_address challenges address_span) base_offsets tt in
          let* aligned := try_eval_bit_aligned_digit_intervals challenges base_offsets outer_start live_len in
          match aligned with
          | Some value => Ok value
          | None => eval_rows template challenges base_offsets outer_start outer_end low_len low_bits carry_count
          end.
End kernel.
End ops.
