(* ===== verification/AffineSums.v ===== *)
(** Sums in a commutative monoid, and the laws of the outer weights of an
    affine interval.  A table of buckets is described by the terms that were
    added to it: [scattered] says that every additive reading of the table is
    the same reading of its terms. *)

From S2P Require Import Prelude Checked Field Serialization EqPoly OffsetWindow AffineIntervals.
From Stdlib Require Import Permutation.
Local Open Scope Z_scope.

(** * Sums in a commutative monoid *)

Class AddMonoid (M : Type) := {
  mzero : M;
  madd : M -> M -> M;
  madd_0_l x : madd mzero x = x;
  madd_comm x y : madd x y = madd y x;
  madd_assoc x y z : madd x (madd y z) = madd (madd x y) z;
}.

Declare Scope monoid_scope.
Delimit Scope monoid_scope with M.
Infix "+" := madd : monoid_scope.

Section sums.
Context {M : Type} `{AddMonoid M}.

Lemma madd_0_r x : (x + mzero)%M = x.
Proof. by rewrite madd_comm, madd_0_l. Qed.

Lemma madd_swap x y z : (x + (y + z))%M = (y + (x + z))%M.
Proof. by rewrite !madd_assoc, (madd_comm x y). Qed.

Definition asum {T} (f : T -> M) (l : list T) : M := foldr (fun t acc => (f t + acc)%M) mzero l.

Lemma asum_cons {T} (f : T -> M) t l : asum f (t :: l) = (f t + asum f l)%M.
Proof. done. Qed.

Lemma asum_nil {T} (f : T -> M) : asum f [] = mzero.
Proof. done. Qed.

Lemma asum_one {T} (f : T -> M) t : asum f [t] = f t.
Proof. unfold asum. cbn. apply madd_0_r. Qed.

Lemma asum_app {T} (f : T -> M) l1 l2 : asum f (l1 ++ l2) = (asum f l1 + asum f l2)%M.
Proof.
  induction l1 as [|t l1 IH]; cbn [app]; [by rewrite asum_nil, madd_0_l|].
  by rewrite !asum_cons, IH, madd_assoc.
Qed.

Lemma asum_ext {T} (f g : T -> M) l : (forall t, t ∈ l -> f t = g t) -> asum f l = asum g l.
Proof.
  induction l as [|t l IH]; intros Hfg; [done|]. rewrite !asum_cons, Hfg by by left.
  f_equal. apply IH. intros. apply Hfg. by right.
Qed.

Lemma asum_add {T} (f g : T -> M) l : asum (fun t => (f t + g t)%M) l = (asum f l + asum g l)%M.
Proof.
  induction l as [|t l IH]; [by rewrite !asum_nil, madd_0_l|].
  rewrite !asum_cons, IH, <-!madd_assoc. f_equal. apply madd_swap.
Qed.

Lemma asum_zero {T} (l : list T) : asum (fun _ => mzero) l = mzero.
Proof. induction l as [|t l IH]; [done|]. by rewrite asum_cons, IH, madd_0_l. Qed.

Lemma asum_map {S T} (h : S -> T) (f : T -> M) l : asum f (map h l) = asum (fun s => f (h s)) l.
Proof. induction l as [|s l IH]; [done|]. cbn [map]. by rewrite !asum_cons, IH. Qed.

Lemma asum_flat_map {S T} (h : S -> list T) (f : T -> M) l :
  asum f (flat_map h l) = asum (fun s => asum f (h s)) l.
Proof. induction l as [|s l IH]; [done|]. cbn [flat_map]. by rewrite asum_app, asum_cons, IH. Qed.

Lemma asum_concat {T} (f : T -> M) ls : asum f (concat ls) = asum (asum f) ls.
Proof. induction ls as [|l ls IH]; [done|]. cbn [concat]. by rewrite asum_app, asum_cons, IH. Qed.

Lemma asum_swap {S T} (f : S -> T -> M) l m :
  asum (fun s => asum (f s) m) l = asum (fun t => asum (fun s => f s t) l) m.
Proof.
  induction l as [|s l IH]; [by rewrite asum_nil, (asum_ext _ (fun _ => mzero)), asum_zero|].
  rewrite asum_cons, IH, <-asum_add. done.
Qed.

Lemma asum_perm {T} (f : T -> M) l1 l2 : l1 ≡ₚ l2 -> asum f l1 = asum f l2.
Proof.
  induction 1 as [|t l1 l2 _ IH|s t l|l1 l2 l3 _ IH1 _ IH2]; [done|by rewrite !asum_cons, IH| |by rewrite IH1].
  rewrite !asum_cons. apply madd_swap.
Qed.

(** A loop that adds one value per item. *)
Lemma ofold_asum {Er T} (step : M -> T -> outcome Er M) f l s :
  (forall s t, t ∈ l -> step s t = Ok (s + f t)%M) -> ofold step l s = Ok (s + asum f l)%M.
Proof.
  revert s; induction l as [|t l IH]; intros s Hf; cbn [ofold]; [by rewrite asum_nil, madd_0_r|].
  rewrite Hf by by left. cbn [obind]. rewrite IH by (intros; apply Hf; by right).
  by rewrite asum_cons, madd_assoc.
Qed.
End sums.

(** * Additive maps and scattered tables *)

Section scatter.
Context {M N : Type} `{AddMonoid M, AddMonoid N}.

Definition additive (g : M -> N) : Prop := g mzero = mzero /\ forall x y, g (x + y)%M = (g x + g y)%M.

Lemma additive_asum {T} (g : M -> N) (f : T -> M) l : additive g -> g (asum f l) = asum (fun t => g (f t)) l.
Proof.
  intros [H0' Ha]. induction l as [|t l IH]; [done|]. by rewrite !asum_cons, Ha, IH.
Qed.

(** The reading of a table from position [j]. *)
Fixpoint esum (phi : Z -> M -> N) (j : Z) (s : list M) : N :=
  match s with [] => mzero | x :: s => (phi j x + esum phi (j + 1) s)%M end.

Lemma esum_from (phi : Z -> M -> N) j s :
  asum (fun '(k, v) => phi k v) (zip (seqZ j (len s)) s) = esum phi j s.
Proof.
  revert j; induction s as [|x s IH]; intros j; [done|].
  rewrite len_cons, seqZ_cons by (pose proof (len_nonneg s); lia).
  cbn [zip zip_with esum]. replace (Z.pred (len s + 1)) with (len s) by lia. rewrite asum_cons. f_equal. apply IH.
Qed.

Lemma asum_enumerate (phi : Z -> M -> N) s :
  asum (fun '(k, v) => phi k v) (enumerate s) = esum phi 0 s.
Proof. apply esum_from. Qed.

Definition reading (phi : Z -> M -> N) : Prop := forall k, additive (phi k).

Definition scattered (s : list M) (terms : list (Z * M)) : Prop :=
  forall phi, reading phi -> esum phi 0 s = asum (fun '(k, v) => phi k v) terms.

(** A table of [n] entries that holds the terms. *)
Definition holds (n : Z) (terms : list (Z * M)) (s : list M) : Prop := len s = n /\ scattered s terms.

Lemma esum_zeros phi j n : reading phi -> esum phi j (replicate n mzero) = mzero.
Proof.
  intros Hr. revert j; induction n as [|n IH]; intros j; cbn [replicate esum]; [done|].
  rewrite IH, (proj1 (Hr j)). apply madd_0_l.
Qed.

Lemma holds_zeros n : 0 <= n -> holds n [] (replicate (Z.to_nat n) mzero).
Proof. intros Hn. split; [by apply len_replicate|]. intros phi Hr. by apply esum_zeros. Qed.

Lemma esum_insert phi j s (i : nat) x v : reading phi -> s !! i = Some x ->
  esum phi j (<[i := (x + v)%M]> s) = (esum phi j s + phi (j + Z.of_nat i)%Z v)%M.
Proof.
  intros Hr. revert j i; induction s as [|y s IH]; intros j [|i] Hx; try done.
  - injection Hx as ->. cbn [insert list_insert esum].
    rewrite (proj2 (Hr j)), Z.add_0_r, <-!madd_assoc. f_equal. apply madd_comm.
  - change (<[S i := (x + v)%M]> (y :: s)) with (y :: <[i := (x + v)%M]> s). cbn [esum].
    rewrite (IH _ i) by done. replace (j + 1 + Z.of_nat i) with (j + Z.of_nat (S i)) by lia. apply madd_assoc.
Qed.

Lemma holds_insert n terms s k x v : holds n terms s -> index s k = Some x ->
  holds n (terms ++ [(k, v)]) (<[Z.to_nat k := (x + v)%M]> s).
Proof.
  intros [Hl Hs] Hx. pose proof (index_Some_len _ _ _ Hx) as Hk. split.
  - unfold len. by rewrite length_insert.
  - intros phi Hr. unfold index in Hx. rewrite (proj2 (Z.leb_le 0 k)) in Hx by lia.
    rewrite (esum_insert _ _ _ _ x), Hs, asum_app, asum_one by done. by rewrite Z.add_0_l, Z2Nat.id by lia.
Qed.

Lemma esum_zip_add phi j s1 s2 : reading phi -> length s1 = length s2 ->
  esum phi j (zip_update madd s1 s2) = (esum phi j s1 + esum phi j s2)%M.
Proof.
  intros Hr. revert j s2; induction s1 as [|x s1 IH]; intros j [|y s2] Hl; try done; cbn [zip_update esum].
  - symmetry. apply madd_0_l.
  - rewrite IH by (cbn in Hl; lia). rewrite (proj2 (Hr j)), <-!madd_assoc. f_equal. apply madd_swap.
Qed.

Lemma holds_zip_add n t1 t2 s1 s2 : holds n t1 s1 -> holds n t2 s2 -> holds n (t1 ++ t2) (zip_update madd s1 s2).
Proof.
  intros [L1 S1] [L2 S2]. split; [unfold len; by rewrite length_zip_update|].
  intros phi Hr. rewrite esum_zip_add, S1, S2, asum_app by (done || unfold len in *; lia). done.
Qed.

(** The terms matter up to their readings. *)
Lemma holds_terms n t1 t2 s : holds n t1 s ->
  (forall phi, reading phi -> asum (fun '(k, v) => phi k v) t1 = asum (fun '(k, v) => phi k v) t2) -> holds n t2 s.
Proof. intros [Hl Hs] Ht. split; [done|]. intros phi Hr. by rewrite Hs, Ht. Qed.
End scatter.

(** ** Loops over tables *)

Lemma elem_of_enumerate {T} (l : list T) i x : (i, x) ∈ enumerate l <-> index l i = Some x.
Proof.
  unfold enumerate, range. rewrite list_elem_of_lookup. split.
  - intros (k & Hk). apply lookup_zip_Some in Hk as [Hr Hx]. apply lookup_seqZ in Hr as [-> Hk].
    rewrite Z.add_0_l, index_nat. done.
  - intros Hx. pose proof (index_Some_len _ _ _ Hx) as Hi. exists (Z.to_nat i). apply lookup_zip_Some. split.
    + apply lookup_seqZ. split; lia.
    + rewrite <-index_nat, Z2Nat.id by lia. done.
Qed.

Lemma asum_enumerate_fst {T M} `{AddMonoid M} (f : Z -> M) (l : list T) :
  asum (fun t => f t.1) (enumerate l) = asum f (range (len l)).
Proof.
  rewrite <-(asum_map fst f). change (map fst (enumerate l)) with (enumerate l).*1. unfold enumerate.
  by rewrite fst_zip by (rewrite length_range; unfold len; lia).
Qed.

Lemma asum_shift {M} `{AddMonoid M} (f : Z -> M) a n : asum f (seqZ a n) = asum (fun k => f (a + k)%Z) (range n).
Proof.
  unfold range. replace (seqZ a n) with (map (Z.add a) (seqZ 0 n)); [apply asum_map|].
  change (map (Z.add a)) with (fmap (M := list) (Z.add a)). by rewrite fmap_add_seqZ, Z.add_0_r.
Qed.

Lemma asum_range_split {M} `{AddMonoid M} (f : Z -> M) m n : 0 <= m <= n ->
  asum f (range n) = (asum f (range m) + asum (fun k => f (m + k)%Z) (range (n - m)))%M.
Proof.
  intros Hm. unfold range at 1 2. replace n with (m + (n - m)) at 1 by lia.
  rewrite seqZ_app, asum_app, Z.add_0_l by lia. f_equal. apply asum_shift.
Qed.

Lemma update_at_Ok {T} (l : list T) i e f x : index l i = Some x ->
  update_at l i e f = Ok (<[Z.to_nat i := f x]> l).
Proof. intros Hx. unfold update_at. by rewrite Hx. Qed.

Lemma flat_map_single {S T} (f : S -> T) l : flat_map (fun t => [f t]) l = map f l.
Proof. induction l as [|t l IH]; [done|]. change (f t :: flat_map (fun t => [f t]) l = f t :: map f l). by rewrite IH. Qed.

(** A loop whose every pass adds the terms of its item. *)
Lemma ofold_terms {Er S T X} (I : list X -> S -> Prop) (step : S -> T -> outcome Er S) (f : T -> list X) l terms s :
  I terms s ->
  (forall terms s t, t ∈ l -> I terms s -> exists s', step s t = Ok s' /\ I (terms ++ f t) s') ->
  exists s', ofold step l s = Ok s' /\ I (terms ++ flat_map f l) s'.
Proof.
  revert terms s; induction l as [|t l IH]; intros terms s Hs Hstep; cbn [ofold flat_map].
  - exists s. by rewrite app_nil_r.
  - destruct (Hstep terms s t) as (s1 & -> & H1); [by left|done|]. cbn [obind].
    destruct (IH (terms ++ f t) s1) as (s' & Hf & Hi); [done|intros; apply Hstep; [by right|done]|].
    exists s'. by rewrite app_assoc.
Qed.

(** * The laws of the outer weights *)

#[export] Program Instance field_monoid {E} `{FieldLaws E} : AddMonoid E :=
  { mzero := fzero; madd := fadd }.
Next Obligation. intros E F L x. pose proof (field_ring (E := E)) as R. apply (Radd_0_l R). Qed.
Next Obligation. intros E F L x y. pose proof (field_ring (E := E)) as R. apply (Radd_comm R). Qed.
Next Obligation. intros E F L x y z. pose proof (field_ring (E := E)) as R. apply (Radd_assoc R). Qed.

(** What the evaluator relies on: the weights form an algebra over the field. *)
Class AffineWeightLaws (E A : Type) `{FieldLaws E, AffineWeight E A} := {
  aw_monoid :: AddMonoid A;
  aw_scale : A -> E -> A;
  aw_one : A;
  scale_add_l (x y : A) s : aw_scale (x + y)%M s = (aw_scale x s + aw_scale y s)%M;
  scale_add_r x (s t : E) : aw_scale x (s + t)%F = (aw_scale x s + aw_scale x t)%M;
  scale_mul x (s t : E) : aw_scale x (s * t)%F = aw_scale (aw_scale x s) t;
  scale_1 x : aw_scale x fone = x;
  scale_0 x : aw_scale x fzero = mzero;
  multiply_add_l (x y z : A) : multiply (x + y)%M z = (multiply x z + multiply y z)%M;
  multiply_add_r (x y z : A) : multiply x (y + z)%M = (multiply x y + multiply x z)%M;
  multiply_scale_l x y s : multiply (aw_scale x s) y = aw_scale (multiply x y) s;
  multiply_scale_r x y s : multiply x (aw_scale y s) = aw_scale (multiply x y) s;
  multiply_one x : multiply x aw_one = x;
  zero_like_spec x : zero_like x = mzero;
  add_scaled_spec x f s : add_scaled x f s = (x + aw_scale f s)%M;
  add_spec x y : add x y = (x + y)%M;
  add_scalar_spec x s : add_scalar x s = Ok (x + aw_scale aw_one s)%M;
}.

Section field_weights.
Context {E : Type} `{FieldLaws E}.
Add Ring Ering : (field_ring (E := E)).

#[export] Instance field_weight_laws : AffineWeightLaws E E.
Proof.
  refine {| aw_monoid := field_monoid; aw_scale := fmul; aw_one := fone |}; cbn; intros; first [ring|f_equal; ring].
Qed.
End field_weights.

Section laws.
Context {E A : Type} `{AffineWeightLaws E A}.
Add Ring Ering2 : (field_ring (E := E)).

Lemma scale_zero (s : E) : aw_scale (mzero : A) s = mzero.
Proof. rewrite <-(scale_0 (zero_like mzero : A)), <-scale_mul. f_equal. ring. Qed.

Lemma multiply_zero_l (y : A) : multiply mzero y = mzero.
Proof. by rewrite <-(scale_0 (mzero : A)), multiply_scale_l, !scale_0. Qed.

Lemma multiply_zero_r (x : A) : multiply x mzero = mzero.
Proof. by rewrite <-(scale_0 (mzero : A)), multiply_scale_r, !scale_0. Qed.

Lemma additive_scale (s : E) : additive (M := A) (N := A) (fun x => aw_scale x s).
Proof. split; [apply scale_zero|]. intros. apply scale_add_l. Qed.

Lemma additive_scale_r (x : A) : additive (M := E) (N := A) (aw_scale x).
Proof. split; [apply scale_0|]. intros. apply scale_add_r. Qed.

Lemma additive_multiply (x : A) : additive (M := A) (N := A) (multiply x).
Proof. split; [apply multiply_zero_r|]. intros. apply multiply_add_r. Qed.

Lemma additive_multiply_l (y : A) : additive (M := A) (N := A) (fun x => multiply x y).
Proof. split; [apply multiply_zero_l|]. intros. apply multiply_add_l. Qed.

Lemma scale_comm (x : A) s t : aw_scale (aw_scale x s) t = aw_scale (aw_scale x t) s.
Proof. rewrite <-!scale_mul. f_equal. ring. Qed.
End laws.
