(* ===== verification/AffineLow.v ===== *)
(** The low summaries of an affine interval: the dense, the identity and the
    geometric kernels all produce the table of the same terms, one per low
    position and digit, bucketed by the carry into the high address. *)

From S2P Require Import Prelude Checked Field Serialization EqPoly OffsetWindow AffineIntervals AffineSums.
Local Open Scope Z_scope.

Lemma usize_add a b : 0 <= a + b < 2 ^ 64 -> checked_add a b = Some (a + b).
Proof. intros Hr. unfold checked_add, usize. by apply checked_u_in. Qed.

Lemma usize_mul a b : 0 <= a * b < 2 ^ 64 -> checked_mul a b = Some (a * b).
Proof. intros Hr. unfold checked_mul, usize. by apply checked_u_in. Qed.

Lemma usize_sub a b : 0 <= a - b < 2 ^ 64 -> checked_sub a b = Some (a - b).
Proof. intros Hr. unfold checked_sub, usize. by apply checked_u_in. Qed.

(** Discharges the range conditions of checked operations. *)
Ltac usize_ok :=
  repeat (first [rewrite usize_add by lia|rewrite usize_mul by lia|rewrite usize_sub by lia];
          cbn [mbind option_bind ok_or obind]).

Section low.
Context {E A : Type} `{AffineWeightLaws E A}.
Add Ring Ering : (field_ring (E := E)).
Context (outer_stride digit_stride : Z) (digit_weights : list E) (low_weights : list A) (lo : list E).

Let low_len : Z := Z.max (len low_weights) 1.
Let nd : Z := len digit_weights.

Context (Hlen : low_len = 2 ^ len lo) (Hds : 0 < digit_stride) (Hnd : 0 < nd)
        (Hspan : digit_stride * (nd - 1) < outer_stride).

(** The low weight, one when there is no low factor. *)
Definition low_factor (low : Z) : A :=
  match low_weights with [] => aw_one | _ => match index low_weights low with Some w => w | None => mzero end end.

Definition low_address (al ls low d : Z) : Z := al + outer_stride * (low - ls) + digit_stride * d.

Definition low_term (al ls low : Z) (term : Z * E) : Z * A :=
  let x := low_address al ls low term.1 in
  (x / low_len, aw_scale (low_factor low) (term.2 * eq_at lo (x mod low_len))%F).

Definition low_terms (al ls le : Z) : list (Z * A) :=
  flat_map (fun low => map (low_term al ls low) (enumerate digit_weights)) (seqZ ls (le - ls)).

(** The carries a group can reach. *)
Definition reach (al ls le : Z) : Z := al + outer_stride * (le - ls - 1) + digit_stride * (nd - 1).

Lemma low_len_pos : 0 < low_len.
Proof. subst low_len. lia. Qed.

Lemma stride_pos : 0 < outer_stride.
Proof. assert (0 <= digit_stride * (nd - 1)) by nia. lia. Qed.

Context (al ls le : Z) (Hal : 0 <= al < low_len) (Hle : 0 <= ls < le) (Hll : le <= low_len)
        (Hreach : reach al ls le < 2 ^ 64).

Let carries : Z := reach al ls le / low_len + 1.

Lemma address_range low d : ls <= low < le -> 0 <= d < nd -> 0 <= low_address al ls low d <= reach al ls le.
Proof.
  intros Hlow Hd. unfold low_address, reach. pose proof stride_pos.
  assert (outer_stride * (low - ls) <= outer_stride * (le - ls - 1)) by (apply Z.mul_le_mono_nonneg_l; lia).
  assert (digit_stride * d <= digit_stride * (nd - 1)) by (apply Z.mul_le_mono_nonneg_l; lia).
  assert (0 <= outer_stride * (low - ls)) by nia. assert (0 <= digit_stride * d) by nia. lia.
Qed.

Lemma address_parts low d : ls <= low < le -> 0 <= d < nd ->
  0 <= outer_stride * (low - ls) /\ 0 <= digit_stride * d /\ 0 <= low_address al ls low d <= reach al ls le.
Proof.
  intros Hlow Hd. split; [pose proof stride_pos; nia|]. split; [nia|]. by apply address_range.
Qed.

Lemma carry_range x : 0 <= x <= reach al ls le -> 0 <= x / low_len < carries.
Proof.
  intros Hx. subst carries. pose proof low_len_pos. split; [apply Z.div_pos; lia|].
  assert (x / low_len <= reach al ls le / low_len) by (apply Z.div_le_mono; lia). lia.
Qed.

Lemma slot_exists terms s x : holds (N := A) carries terms s -> 0 <= x <= reach al ls le ->
  exists v : A, index s (x / low_len) = Some v.
Proof. intros [Hl _] Hx. apply index_is_Some. rewrite Hl. by apply carry_range. Qed.

Lemma land_low_len x : Z.land x (low_len - 1) = x mod low_len.
Proof. rewrite Hlen. apply land_low, len_nonneg. Qed.

Lemma low_factor_index low : low_weights <> [] -> ls <= low < le -> index low_weights low = Some (low_factor low).
Proof.
  intros Hne Hlow. destruct (index_is_Some low_weights low) as [w Hw].
  { subst low_len. destruct low_weights; [done|]. rewrite len_cons in *. pose proof (len_nonneg l). lia. }
  unfold low_factor. rewrite Hw. by destruct low_weights.
Qed.

(** ** The dense summaries *)

Definition table_of (table : option (list E)) : Prop := table = None \/ table = Some (eqt lo 1%F).

Lemma table_value table x : table_of table -> 0 <= x < 2 ^ 64 ->
  match table with
  | Some table => ok_or (index table (x mod low_len)) (InvalidInput "affine low index out of range")
  | None => Ok (eq_eval_at_index lo (x mod low_len))
  end = Ok (eq_at lo (x mod low_len)).
Proof.
  intros Ht Hx. pose proof (Z.mod_pos_bound x low_len low_len_pos) as Hm.
  assert (x mod low_len < 2 ^ 64) by (pose proof (Z.mod_le x low_len); lia).
  destruct Ht as [-> | ->].
  - rewrite eq_eval_spec by lia. unfold eq_index. by rewrite (proj2 (Z.ltb_lt _ _)) by lia.
  - rewrite eqt_index by lia. cbn [ok_or]. f_equal. ring.
Qed.

Lemma dense_digit_spec table low terms s d w : table_of table -> ls <= low < le -> index digit_weights d = Some w ->
  holds (N := A) carries terms s ->
  exists s', dense_digit digit_stride lo table al low_len (outer_stride * (low - ls)) (low_factor low) s (d, w) = Ok s' /\
             holds (N := A) carries (terms ++ [low_term al ls low (d, w)]) s'.
Proof.
  intros Ht Hlow Hw Hs. pose proof (index_Some_len _ _ _ Hw) as Hd.
  pose proof (address_parts low d Hlow Hd) as (Ho & Hdd & Hx). unfold low_address in Hx.
  unfold dense_digit. usize_ok. rewrite land_low_len, table_value by (done || lia). cbn [obind].
  destruct (slot_exists _ _ _ Hs Hx) as [v Hv]. rewrite (update_at_Ok _ _ _ _ v) by done.
  eexists. split; [done|]. rewrite add_scaled_spec. by apply holds_insert.
Qed.

Lemma dense_low_spec table low terms s : table_of table -> low_weights <> [] -> ls <= low < le ->
  holds (N := A) carries terms s ->
  exists s', dense_low outer_stride digit_stride digit_weights low_weights lo table al low_len ls s low = Ok s' /\
             holds (N := A) carries (terms ++ map (low_term al ls low) (enumerate digit_weights)) s'.
Proof.
  intros Ht Hne Hlow Hs. unfold dense_low. rewrite low_factor_index by done. cbn [ok_or obind].
  pose proof (address_parts low 0 Hlow ltac:(lia)) as (Ho & _ & Hx). unfold low_address in Hx. usize_ok.
  rewrite <-flat_map_single.
  apply (ofold_terms (holds (N := A) carries)); [done|]. intros ts s1 [d w] Hin%elem_of_enumerate Hs1.
  by apply dense_digit_spec.
Qed.

Lemma carries_nonneg : 0 <= carries.
Proof. pose proof (carry_range (reach al ls le)) as Hc. pose proof (address_range ls 0 ltac:(lia) ltac:(lia)). lia. Qed.

Lemma dense_spec table : table_of table -> low_weights <> [] ->
  exists s, ofold (dense_low outer_stride digit_stride digit_weights low_weights lo table al low_len ls)
              (seqZ ls (le - ls)) (replicate (Z.to_nat carries) mzero) = Ok s /\
            holds (N := A) carries (low_terms al ls le) s.
Proof.
  intros Ht Hne.
  apply (ofold_terms (holds (N := A) carries) _ (fun low => map (low_term al ls low) (enumerate digit_weights)) _ []).
  - apply holds_zeros, carries_nonneg.
  - intros terms s low Hin%elem_of_seqZ Hs. apply dense_low_spec; [done..|lia|done].
Qed.

(** ** The identity low factor *)

Lemma identity_spec : low_weights = [] ->
  exists s, ofold (identity_digit digit_stride) (enumerate digit_weights) (replicate (Z.to_nat carries) mzero) = Ok s /\
            holds (N := A) carries (low_terms al ls le) s.
Proof.
  intros Hnil. assert (Hs1 : low_len = 1) by (subst low_len; by rewrite Hnil).
  assert (Hlo : lo = []).
  { destruct lo as [|c lo']; [done|]. exfalso. rewrite Hs1, len_cons, Z.pow_add_r in Hlen by (pose proof (len_nonneg lo'); lia).
    pose proof (pow2_pos (len lo') (len_nonneg lo')). lia. }
  destruct (ofold_terms (holds (N := A) carries) (identity_digit digit_stride)
              (fun t => [low_term al ls ls t]) (enumerate digit_weights) [] (replicate (Z.to_nat carries) mzero))
    as (s & Hs & Hh).
  - apply holds_zeros, carries_nonneg.
  - intros terms s [d w] Hin%elem_of_enumerate Hs. pose proof (index_Some_len _ _ _ Hin) as Hd.
    pose proof (address_parts ls d ltac:(lia) Hd) as (_ & Hdd & Hx). unfold low_address in Hx.
    replace (al + outer_stride * (ls - ls) + digit_stride * d) with (digit_stride * d) in Hx by lia.
    unfold identity_digit. usize_ok. destruct (slot_exists _ _ _ Hs Hx) as [v Hv]. rewrite Hs1, Z.div_1_r in Hv.
    rewrite Hv, add_scalar_spec. cbn [obind]. eexists. split; [done|].
    replace (low_term al ls ls (d, w)) with (digit_stride * d, aw_scale (A := A) aw_one w).
    { by apply holds_insert. }
    unfold low_term, low_address, low_factor. cbn [fst snd]. rewrite Hnil, Hlo, Hs1, Z.div_1_r. f_equal; [lia|].
    f_equal. cbn [eq_at]. ring.
  - exists s. split; [done|]. cbn [app] in Hh. unfold low_terms. replace (le - ls) with 1 by lia.
    change (seqZ ls 1) with [0 + ls]%Z. cbn [flat_map]. rewrite app_nil_r, Z.add_0_l. by rewrite <-flat_map_single.
Qed.

(** ** The geometric summaries *)

Lemma index_S {T} (x : T) l k : 0 <= k -> index (x :: l) (k + 1) = index l k.
Proof. intros Hk. unfold index. case_Z. by replace (Z.to_nat (k + 1)) with (S (Z.to_nat k)) by lia. Qed.

Lemma power_table_index (r acc : E) n k : 0 <= k <= Z.of_nat n ->
  index (power_table r acc n) k = Some (acc * fpow r (Z.to_nat k))%F.
Proof.
  revert acc k; induction n as [|n IH]; intros acc k Hk; cbn [power_table].
  - replace k with 0 by lia. rewrite index_head. f_equal. change (acc = acc * 1)%F. ring.
  - destruct (decide (k = 0)) as [->|]; [rewrite index_head; f_equal; change (acc = acc * 1)%F; ring|].
    replace k with (k - 1 + 1) at 1 by lia. rewrite index_S, IH by lia. f_equal.
    replace (Z.to_nat k) with (S (Z.to_nat (k - 1))) by lia. cbn [fpow]. ring.
Qed.

Lemma prefix_table_index acc ps es k : 0 <= k <= Z.of_nat (Nat.min (length ps) (length es)) ->
  index (prefix_table acc ps es) k
  = Some (acc + asum (fun u => (nth (Z.to_nat u) ps 0%F * nth (Z.to_nat u) es 0%F)%F) (range k))%F.
Proof.
  revert acc es k; induction ps as [|p ps IH]; intros acc [|e es] k Hk; cbn [prefix_table length Nat.min] in *;
    try (replace k with 0 by lia; rewrite index_head; f_equal; change (acc = acc + 0)%F; ring).
  destruct (decide (k = 0)) as [->|]; [rewrite index_head; f_equal; change (acc = acc + 0)%F; ring|].
  replace k with (k - 1 + 1) at 1 by lia. rewrite index_S, IH by lia. f_equal.
  rewrite (asum_range_split _ 1 k) by lia. change (range 1) with [0]. rewrite asum_one.
  rewrite (asum_ext (fun k0 => (nth (Z.to_nat (1 + k0)) (p :: ps) 0 * nth (Z.to_nat (1 + k0)) (e :: es) 0)%F)
             (fun u => (nth (Z.to_nat u) ps 0 * nth (Z.to_nat u) es 0)%F)).
  - change (@madd E _) with fadd. change (nth (Z.to_nat 0) (p :: ps) 0%F) with p.
    change (nth (Z.to_nat 0) (e :: es) 0%F) with e. ring.
  - intros u Hu%elem_of_range. by replace (Z.to_nat (1 + u)) with (S (Z.to_nat u)) by lia.
Qed.

Section geometric.
Context (r r_inv d0 : E) (Hinv : (r * r_inv)%F = 1%F) (Hstride : digit_stride = 1) (Hdelta : nd <= low_len)
        (Hgeo : forall d w, index digit_weights d = Some w -> w = (d0 * fpow r (Z.to_nat d))%F)
        (Hne : low_weights <> []).

Definition psum (t : Z) : E := asum (fun u => (fpow r (Z.to_nat u) * eq_at lo u)%F) (range t).

Let rpow := power_table r 1%F (Z.to_nat low_len).
Let rinvpow := power_table r_inv 1%F (Z.to_nat low_len - 1).
Let prefix := prefix_table 0%F rpow (eqt lo 1%F).

Lemma rpow_index k : 0 <= k <= low_len -> index rpow k = Some (fpow r (Z.to_nat k)).
Proof. intros Hk. unfold rpow. rewrite power_table_index by lia. f_equal. ring. Qed.

Lemma rinvpow_index k : 0 <= k < low_len -> index rinvpow k = Some (fpow r_inv (Z.to_nat k)).
Proof. intros Hk. unfold rinvpow. rewrite power_table_index by lia. f_equal. ring. Qed.

Lemma length_power_table (q acc : E) n : length (power_table q acc n) = S n.
Proof. revert acc; induction n as [|n IH]; intros acc; cbn [power_table length]; [done|]. by rewrite IH. Qed.

Lemma prefix_index t : 0 <= t <= low_len -> index prefix t = Some (psum t).
Proof.
  intros Ht. unfold prefix. pose proof (len_eqt lo (1%F : E)) as Hl. rewrite <-Hlen in Hl. unfold len in Hl.
  rewrite prefix_table_index by (unfold rpow; rewrite length_power_table; lia). f_equal. unfold psum.
  rewrite (asum_ext _ (fun u => (fpow r (Z.to_nat u) * eq_at lo u)%F)); [ring|].
  intros u Hu%elem_of_range. pose proof (rpow_index u ltac:(lia)) as Hp.
  pose proof (eqt_index lo (1%F : E) u ltac:(lia)) as He. unfold index in Hp, He.
  rewrite (proj2 (Z.leb_le 0 u)) in Hp, He by lia.
  rewrite (nth_lookup_Some _ _ _ _ Hp), (nth_lookup_Some _ _ _ _ He). ring.
Qed.

Lemma additive_fmul (c : E) : additive (M := E) (N := E) (fmul c).
Proof. split; [change (c * 0 = 0)%F; ring|]. intros x y. change (c * (x + y) = c * x + c * y)%F. ring. Qed.

Lemma fpow_cancel n : (fpow r n * fpow r_inv n)%F = 1%F.
Proof.
  induction n as [|n IH]; cbn [fpow]; [ring|]. transitivity ((r * r_inv) * (fpow r n * fpow r_inv n))%F; [ring|].
  rewrite IH, Hinv. ring.
Qed.

(** The prefix difference at [s], anchored, is the window of digits at [s]. *)
Lemma window_sum s c : 0 <= s -> 0 <= c ->
  (d0 * fpow r_inv (Z.to_nat s) * (psum (s + c) - psum s))%F
  = asum (fun d => (d0 * fpow r (Z.to_nat d) * eq_at lo (s + d))%F) (range c).
Proof.
  intros Hs Hc. unfold psum at 1. rewrite (asum_range_split _ s (s + c)) by lia. fold (psum s).
  replace (s + c - s) with c by lia. change (@madd E _) with fadd.
  set (w := asum _ (range c)). transitivity (d0 * fpow r_inv (Z.to_nat s) * w)%F; [ring|]. subst w.
  rewrite (additive_asum _ _ _ (additive_fmul _)). apply asum_ext. intros d Hd%elem_of_range.
  replace (Z.to_nat (s + d)) with (Z.to_nat s + Z.to_nat d)%nat by lia. rewrite fpow_add.
  transitivity ((fpow r (Z.to_nat s) * fpow r_inv (Z.to_nat s)) * (d0 * fpow r (Z.to_nat d) * eq_at lo (s + d)))%F;
    [ring|]. rewrite fpow_cancel. ring.
Qed.

Lemma wrapped_window_sum c n : 0 <= c ->
  (d0 * fpow r (Z.to_nat c) * psum n)%F
  = asum (fun d => (d0 * fpow r (Z.to_nat (c + d)) * eq_at lo d)%F) (range n).
Proof.
  intros Hc. unfold psum. rewrite (additive_asum _ _ _ (additive_fmul _)). apply asum_ext.
  intros d Hd%elem_of_range. replace (Z.to_nat (c + d)) with (Z.to_nat c + Z.to_nat d)%nat by lia. rewrite fpow_add. ring.
Qed.

(** The terms of one low position, first the digits within the block of the
    window's start, then those that wrap into the next block. *)
Definition geometric_terms (low : Z) : list (Z * A) :=
  let start := al + outer_stride * (low - ls) in
  let s := start mod low_len in
  let c := Z.min nd (low_len - s) in
  (start / low_len, aw_scale (low_factor low) (d0 * fpow r_inv (Z.to_nat s) * (psum (s + c) - psum s))%F)
  :: (if c <? nd then [(start / low_len + 1, aw_scale (low_factor low) (d0 * fpow r (Z.to_nat c) * psum (nd - c))%F)]
      else []).

Lemma geometric_reading low (phi : Z -> A -> A) : ls <= low < le -> reading phi ->
  asum (fun '(k, v) => phi k v) (geometric_terms low)
  = asum (fun '(k, v) => phi k v) (map (low_term al ls low) (enumerate digit_weights)).
Proof.
  intros Hlow Hr. symmetry. rewrite asum_map.
  set (G := fun d => let x := low_address al ls low d in
    phi (x / low_len) (aw_scale (low_factor low) (d0 * fpow r (Z.to_nat d) * eq_at lo (x mod low_len))%F)).
  rewrite (asum_ext _ (fun t => G t.1)).
  2:{ intros [d w] Hin%elem_of_enumerate. subst G. cbn [fst snd low_term]. by rewrite (Hgeo d w Hin). }
  rewrite asum_enumerate_fst. symmetry. fold nd. subst G. unfold geometric_terms, low_address. cbv zeta. rewrite Hstride.
  set (start := al + outer_stride * (low - ls)). set (s := start mod low_len). set (c := Z.min nd (low_len - s)).
  pose proof low_len_pos as Hp. pose proof (Z.mod_pos_bound start low_len Hp) as Hs. fold s in Hs.
  pose proof (Z_div_mod_eq_full start low_len) as Hd. fold s in Hd.
  rewrite (asum_range_split _ c nd) by lia. rewrite asum_cons. f_equal.
  - rewrite window_sum by lia.
    assert (Hadd : additive (M := E) (N := A) (fun x => phi (start / low_len) (aw_scale (low_factor low) x))).
    { split; [rewrite (proj1 (additive_scale_r (E := E) (low_factor low))); apply Hr|].
      intros x y. rewrite (proj2 (additive_scale_r (E := E) (low_factor low))). apply Hr. }
    rewrite (additive_asum _ _ _ Hadd). apply asum_ext. intros d Hdr%elem_of_range.
    replace (start + 1 * d) with (s + d + start / low_len * low_len) by lia.
    rewrite Z.div_add, Z.mod_add, (Z.div_small (s + d)), (Z.mod_small (s + d)), Z.add_0_l by lia. done.
  - destruct (Z.ltb_spec c nd) as [Hc|Hc].
    + assert (Hsc : s + c = low_len) by lia. rewrite asum_one, wrapped_window_sum by lia.
      assert (Hadd : additive (M := E) (N := A) (fun x => phi (start / low_len + 1) (aw_scale (low_factor low) x))).
      { split; [rewrite (proj1 (additive_scale_r (E := E) (low_factor low))); apply Hr|].
        intros x y. rewrite (proj2 (additive_scale_r (E := E) (low_factor low))). apply Hr. }
      rewrite (additive_asum _ _ _ Hadd). apply asum_ext. intros d Hdr%elem_of_range.
      replace (start + 1 * (c + d)) with (d + (start / low_len + 1) * low_len) by lia.
      by rewrite Z.div_add, Z.mod_add, (Z.div_small d), (Z.mod_small d), Z.add_0_l by lia.
    + replace (nd - c) with 0 by lia. done.
Qed.

Lemma geometric_low_spec low terms s : ls <= low < le -> holds (N := A) carries terms s ->
  exists s', geometric_low outer_stride digit_weights low_weights rpow rinvpow prefix d0 al low_len ls s low = Ok s' /\
             holds (N := A) carries (terms ++ geometric_terms low) s'.
Proof.
  intros Hlow Hs. unfold geometric_low. rewrite low_factor_index by done. cbn [ok_or obind].
  destruct (address_parts low 0 Hlow ltac:(lia)) as (Ho & _ & Hx). unfold low_address in Hx. usize_ok.
  rewrite Z.mul_0_r, Z.add_0_r in Hx. unfold geometric_terms. fold nd.
  set (start := al + outer_stride * (low - ls)) in *. rewrite land_low_len. cbv zeta.
  set (q := start mod low_len). set (c := Z.min nd (low_len - q)).
  pose proof low_len_pos as Hp. pose proof (Z.mod_pos_bound start low_len Hp) as Hq. fold q in Hq.
  rewrite !prefix_index, rinvpow_index by lia. cbn [unwrap obind].
  destruct (slot_exists _ _ _ Hs Hx) as [v Hv]. rewrite (update_at_Ok _ _ _ _ v) by done. cbn [obind].
  rewrite add_scaled_spec. eapply (holds_insert (N := A)) in Hv; [|exact Hs].
  destruct (Z.ltb_spec c nd) as [Hc|Hc]; [|eexists; split; [done|exact Hv]].
  rewrite rpow_index by lia. cbn [unwrap obind].
  pose proof (Z_div_mod_eq_full start low_len) as Hdm. fold q in Hdm.
  destruct (address_parts low (nd - 1) Hlow ltac:(lia)) as (_ & _ & Hx1). unfold low_address in Hx1. fold start in Hx1.
  assert (Hnext : (start + digit_stride * (nd - 1)) / low_len = start / low_len + 1).
  { rewrite Hstride. replace (start + 1 * (nd - 1)) with (nd - 1 - c + (start / low_len + 1) * low_len) by lia.
    rewrite Z.div_add, Z.div_small by lia. lia. }
  assert (0 <= start / low_len <= start) by (split; [apply Z.div_pos; lia|apply Z.div_le_upper_bound; nia]).
  assert (start < 2 ^ 64 - 1) by (rewrite Hstride in Hx1; lia). usize_ok.
  destruct (slot_exists _ _ _ Hv Hx1) as [v1 Hv1]. rewrite Hnext in Hv1.
  rewrite (update_at_Ok _ _ _ _ v1) by done. eexists. split; [done|]. rewrite add_scaled_spec.
  eapply (holds_insert (N := A)) in Hv1; [|exact Hv]. rewrite <-app_assoc in Hv1. exact Hv1.
Qed.

Lemma geometric_spec :
  exists s, ofold (geometric_low outer_stride digit_weights low_weights rpow rinvpow prefix d0 al low_len ls)
              (seqZ ls (le - ls)) (replicate (Z.to_nat carries) mzero) = Ok s /\
            holds (N := A) carries (low_terms al ls le) s.
Proof.
  destruct (ofold_terms (holds (N := A) carries)
              (geometric_low outer_stride digit_weights low_weights rpow rinvpow prefix d0 al low_len ls)
              geometric_terms (seqZ ls (le - ls)) [] (replicate (Z.to_nat carries) mzero)) as (s & Hs & Hh).
  - apply holds_zeros, carries_nonneg.
  - intros terms s low Hin%elem_of_seqZ Hs. apply geometric_low_spec; [lia|done].
  - exists s. split; [done|]. eapply holds_terms; [exact Hh|]. intros phi Hr. cbn [app].
    unfold low_terms. rewrite !asum_flat_map. apply asum_ext. intros low Hin%elem_of_seqZ.
    apply geometric_reading; [lia|done].
Qed.
End geometric.

(** ** The selection of a kernel *)

Lemma geometric_checked (r d0 : E) :
  forallb (fun '(k, weight) =>
             match index (power_table r 1%F (Z.to_nat low_len)) k with
             | Some p => feqb weight (d0 * p)%F
             | None => false
             end) (enumerate digit_weights) = true ->
  nd <= low_len ->
  forall d w, index digit_weights d = Some w -> w = (d0 * fpow r (Z.to_nat d))%F.
Proof.
  intros Hf Hdelta d w Hw. rewrite forallb_forall in Hf. pose proof (index_Some_len _ _ _ Hw) as Hd. fold nd in Hd.
  specialize (Hf (d, w)). cbn beta iota in Hf. rewrite rpow_index in Hf by lia.
  apply feqb_spec, Hf, list_elem_of_In. by apply elem_of_enumerate.
Qed.

Lemma build_geometric_spec template : digit_stride = 1 -> low_weights <> [] ->
  build_geometric_low_summaries outer_stride digit_weights low_weights template (eqt lo 1%F) al low_len ls le carries
    = Ok None \/
  exists s, build_geometric_low_summaries outer_stride digit_weights low_weights template (eqt lo 1%F)
              al low_len ls le carries = Ok (Some s) /\ holds (N := A) carries (low_terms al ls le) s.
Proof.
  intros Hstride Hne. unfold build_geometric_low_summaries.
  destruct (_ || _)%bool eqn:Hg; [by left|].
  destruct (index_is_Some digit_weights 0) as [d0 Hd0]; [fold nd; lia|]. rewrite Hd0. cbn [unwrap obind].
  destruct (is_zero d0); [by left|]. destruct (geometric_ratio digit_weights d0) as [r|]; [|by left].
  destruct (is_zero r); [by left|]. destruct (forallb _ _) eqn:Hf; cbn [negb]; [|by left].
  destruct (finverse r) as [r_inv|] eqn:Hi; [|by left]. right. bool_prop.
  apply finverse_Some in Hi as [Hi _]. assert (Hdelta : nd <= low_len) by (unfold nd; lia).
  pose proof (geometric_checked r d0 Hf Hdelta) as Hgeo. rewrite zero_like_spec.
  destruct (geometric_spec r r_inv d0 Hi Hstride Hdelta Hgeo Hne) as (s & -> & Hs).
  by exists s.
Qed.

Lemma low_summaries_spec template table : table_of table ->
  exists s, build_affine_low_summaries outer_stride digit_stride digit_weights low_weights template lo table
              al low_len ls le carries = Ok s /\ holds (N := A) carries (low_terms al ls le) s.
Proof.
  intros Ht. unfold build_affine_low_summaries. rewrite zero_like_spec.
  destruct (decide (low_weights = [])) as [Hnil|Hne].
  - destruct (identity_spec Hnil) as (s & Hs & Hh). exists s. split; [|done].
    assert (Hone : low_len = 1) by (unfold low_len; by rewrite Hnil).
    assert (Hl : len lo = 0).
    { pose proof (len_nonneg lo). destruct (decide (len lo = 0)); [done|].
      assert (2 ^ 1 <= 2 ^ len lo) by (apply Z.pow_le_mono_r; lia). lia. }
    rewrite Hs, Hnil, Hl, Hone. replace al with 0 by lia. replace ls with 0 by lia. by replace le with 1 by lia.
  - assert (Hz : (len low_weights =? 0) = false).
    { apply Z.eqb_neq. destruct low_weights; [done|]. rewrite len_cons. pose proof (len_nonneg l). lia. }
    rewrite Hz. destruct (dense_spec table Ht Hne) as (s & Hs & Hh).
    destruct (Z.eqb_spec digit_stride 1) as [Hstride|]; [|exists s; by rewrite Hs].
    destruct Ht as [-> | ->]; [exists s; by rewrite Hs|].
    destruct (build_geometric_spec template Hstride Hne) as [-> | (s' & -> & Hh')]; cbn [obind].
    + exists s. by rewrite Hs.
    + by exists s'.
Qed.
End low.
