(* ===== verification/AffineHigh.v ===== *)
(** The high rows of an affine interval: the row-by-row kernel and the
    carry-bucketed kernel both contract the rows of a group of addresses
    against the low summaries, whatever way the parallel fold is split. *)

From S2P Require Import Prelude Checked Field Serialization EqPoly OffsetWindow AffineIntervals AffineSums AffineLow.
Local Open Scope Z_scope.

(** ** The plan of the bucketed kernel *)

Lemma next_power_two n : 0 < n -> n <= 2 ^ 32 ->
  checked.checked_next_power_of_two n = Some (2 ^ Z.log2_up n).
Proof.
  intros Hn Hb. unfold checked.checked_next_power_of_two. destruct (Z.leb_spec n 1).
  - by replace n with 1 by lia.
  - unfold usize. rewrite checked_u_in; [done|]. unfold in_u, USIZE_BITS. split; [lia|].
    pose proof (Z.log2_up_le_mono n (2 ^ 32) Hb) as Hl. rewrite Z.log2_up_pow2 in Hl by lia.
    apply Z.pow_lt_mono_r; lia.
Qed.

Lemma shl1_small s : 0 <= s < 64 -> checked_shl1 s = Some (2 ^ s).
Proof.
  intros Hs. unfold checked_shl1, uwrap, USIZE_BITS. rewrite Z.mod_small by lia.
  by rewrite (proj2 (Z.ltb_lt s 64)), Z.shiftl_1_l by lia.
Qed.

(** The window the plan grants. *)
Record planned (total_rows cc n window : Z) : Prop := {
  plan_pow : exists b, 0 < b <= 16 /\ b <= n /\ n - b <= 32 /\ window = 2 ^ b;
  plan_covers : cc <= window;
}.

Lemma plan_spec total_rows cc n : 0 <= total_rows -> 0 <= n -> 0 < cc -> total_rows * cc <= 2 ^ 28 ->
  bucketed_high_rows_plan total_rows cc n = Ok None \/
  exists window, bucketed_high_rows_plan total_rows cc n = Ok (Some window) /\ planned total_rows cc n window.
Proof.
  intros Ht Hn Hc Hw. unfold bucketed_high_rows_plan, FAST_HIGH_ROWS_MIN, MAX_COMPACT_STRIDE_TERMS.
  destruct (Z.ltb_spec total_rows 8); [by left|]. destruct (Z.eqb_spec cc 0); [lia|]. cbn [orb].
  assert (Hcb : cc <= 2 ^ 28) by nia. rewrite next_power_two by lia. cbn [ok_or obind].
  set (b := Z.log2_up cc). assert (Hb : 0 <= b) by apply Z.log2_up_nonneg. rewrite Z.log2_pow2 by done.
  unfold OFFSET_EQ_LOW_BITS_CAP, OFFSET_EQ_HIGH_BITS_CAP. destruct (Z.ltb_spec 16 b) as [|Hb16]; [by left|].
  destruct (checked_sub n b) as [split_bits|] eqn:Es; [|by left].
  apply checked_u_Some in Es as [Hr ->]. unfold in_u in Hr. change (2 * 16) with 32.
  destruct (Z.ltb_spec 32 (n - b)) as [|H32]; [by left|].
  assert (Hlow : 0 <= (n - b) / 2 <= 16) by div_lia. assert (Hhigh : 0 <= n - b - (n - b) / 2 <= 16) by div_lia.
  rewrite !shl1_small by lia. cbn [mbind option_bind].
  assert (Hp : forall k, 0 <= k <= 16 -> 0 < 2 ^ k <= 2 ^ 16).
  { intros k Hk. split; [apply pow2_pos; lia|apply Z.pow_le_mono_r; lia]. }
  pose proof (Hp _ Hlow). pose proof (Hp _ Hhigh). pose proof (Hp b ltac:(lia)) as Hpb.
  assert (Hcw : cc <= 2 ^ b).
  { destruct (decide (cc = 1)) as [->|]; [done|]. apply Z.log2_up_spec. lia. }
  assert (Htb : total_rows <= 2 ^ 28) by nia. assert (0 <= total_rows * cc) by nia. assert (0 <= cc * 2 ^ b <= 2 ^ 32) by nia.
  usize_ok. destruct (Z.leb_spec (total_rows * cc)
    (total_rows * 2 + cc * 2 ^ b + 2 ^ b * 3 + (2 ^ ((n - b) / 2) + 2 ^ (n - b - (n - b) / 2)))) as [|Hlt]; [by left|].
  change (Z.shiftl 1 28) with (2 ^ 28).
  destruct (Z.ltb_spec (2 ^ 28) (total_rows * 2 + cc * 2 ^ b + 2 ^ b * 3 + (2 ^ ((n - b) / 2) + 2 ^ (n - b - (n - b) / 2))));
    [lia|]. right. eexists. split; [done|]. split; [|done]. exists b. repeat split; try lia.
  destruct (decide (b = 0)) as [Hb0|]; [|lia]. rewrite Hb0 in Hcw. change (2 ^ 0) with 1 in Hcw. nia.
Qed.

Section high.
Context {E A : Type} `{AffineWeightLaws E A, EqRuntime E, Allocator, FoldSchedule}.
Add Ring Ering : (field_ring (E := E)).
Context (outer_stride : Z) (high_weights : AffineWeightSource A) (weights : list A) (hi : list E).

(** The source serves the weights of a list. *)
Record source_of (source : AffineWeightSource A) (l : list A) : Prop := {
  so_len : source_len source = len l;
  so_weight i : 0 <= i -> with_weight source i = index l i;
}.

Context (Hsource : source_of high_weights weights) (Hos : 0 < outer_stride) (Hgranted : tables_granted (E := E)).

Definition high_weight (i : Z) : A := match index weights i with Some w => w | None => mzero end.

Lemma weight_at i : 0 <= i < len weights -> with_weight high_weights i = Some (high_weight i).
Proof.
  intros Hi. rewrite (so_weight _ _ Hsource) by lia. unfold high_weight.
  destruct (index_is_Some weights i Hi) as [w Hw]. by rewrite Hw.
Qed.

Context (low_bits first_high rows : Z) (terms : list (Z * A)) (summaries : list A).
Let low_len : Z := 2 ^ low_bits.
Let carry_count : Z := len summaries.
Context (Hlb : 0 <= low_bits) (Hsum : scattered (N := A) summaries terms) (Hcc : 0 < carry_count)
        (Hfh : 0 <= first_high) (Hrows : 0 <= rows) (Hfit : first_high + rows <= len weights)
        (Hwl : len weights < 2 ^ 64) (Hblock : outer_stride * 2 ^ low_bits < 2 ^ 64).

Definition address_high (address : AffineAddress E) (row : Z) : Z := first address / low_len + outer_stride * row.

(** The rows of the address stay below the end of the address space. *)
Definition in_space (address : AffineAddress E) : Prop :=
  0 <= first address /\ first address + outer_stride * low_len * Z.max 0 (rows - 1) < 2 ^ 64 /\
  forall row, 0 <= row < rows -> address_high address row + carry_count <= 2 ^ 64.

(** What one row adds for one carry. *)
Definition row_part (address : AffineAddress E) (row : Z) (k : Z) (v : A) : A :=
  aw_scale (multiply (high_weight (first_high + row)) v)
    (scaled_by (scale address) (eq_index hi (address_high address row + k))).

Definition row_value (address : AffineAddress E) (row : Z) : A :=
  asum (fun '(k, v) => row_part address row k v) terms.

Definition group_value (addresses : list (AffineAddress E)) : A :=
  asum (fun address => asum (row_value address) (range rows)) addresses.

Lemma row_part_reading address row : reading (M := A) (N := A) (row_part address row).
Proof.
  intros k. unfold row_part. split.
  - rewrite (proj1 (additive_multiply _)). apply scale_zero.
  - intros x y. by rewrite multiply_add_r, scale_add_l.
Qed.

Lemma row_value_summaries address row :
  asum (fun '(k, v) => row_part address row k v) (enumerate summaries) = row_value address row.
Proof. rewrite asum_enumerate. apply Hsum, row_part_reading. Qed.

Lemma low_len_positive : 0 < low_len.
Proof. by apply pow2_pos. Qed.

Lemma address_high_nonneg address row : 0 <= first address -> 0 <= row -> 0 <= address_high address row.
Proof.
  intros Hf Hr. unfold address_high. pose proof low_len_positive.
  assert (0 <= first address / low_len) by (apply Z.div_pos; lia). nia.
Qed.

Lemma scaled_by_zero o : scaled_by o (0%F : E) = 0%F.
Proof. destruct o as [s|]; cbn; [ring|done]. Qed.

(** ** Row by row *)

Lemma row_carry_spec heq address row out k v : amortized_of hi heq -> in_space address -> 0 <= row < rows ->
  (k, v) ∈ enumerate summaries ->
  row_carry heq (high_weight (first_high + row)) (scale address) (address_high address row) out (k, v)
  = Ok (out + row_part address row k v)%M.
Proof.
  intros Ha (Hf & _ & Hs) Hr Hin%elem_of_enumerate%index_Some_len. fold carry_count in Hin.
  specialize (Hs row Hr). pose proof (address_high_nonneg address row Hf ltac:(lia)) as Hh.
  unfold row_carry, row_part. usize_ok. rewrite (amortized_eval hi) by (done || lia).
  destruct (is_zero _) eqn:Hz; [|by rewrite add_scaled_spec].
  apply is_zero_spec in Hz. by rewrite Hz, scaled_by_zero, scale_0, madd_0_r.
Qed.

Lemma row_address_spec address row : in_space address -> 0 <= row < rows ->
  exists a, row_address_of outer_stride low_len (first address) row = Ok a /\
            Z.shiftr a low_bits = address_high address row.
Proof.
  intros (Hf & Hs & _) Hr. pose proof low_len_positive as Hp. unfold row_address_of.
  assert (0 < outer_stride * low_len) by nia.
  assert (0 <= outer_stride * low_len * row <= outer_stride * low_len * Z.max 0 (rows - 1)).
  { split; [nia|]. apply Z.mul_le_mono_nonneg_l; lia. }
  fold low_len in Hblock. usize_ok. eexists. split; [done|].
  rewrite Z.shiftr_div_pow2 by done. fold low_len. unfold address_high.
  replace (first address + outer_stride * low_len * row) with (first address + outer_stride * row * low_len) by lia.
  rewrite Z.div_add by lia. done.
Qed.

Lemma accumulate_row_spec heq address out row : amortized_of hi heq -> in_space address -> 0 <= row < rows ->
  accumulate_row outer_stride high_weights heq low_bits low_len first_high summaries address out row
  = Ok (out + row_value address row)%M.
Proof.
  intros Ha Hs Hr. unfold accumulate_row. usize_ok.
  destruct (row_address_spec address row Hs Hr) as (a & -> & Hah). cbn [obind]. rewrite weight_at by lia.
  cbn [ok_or obind]. rewrite Hah, <-row_value_summaries. apply ofold_asum.
  intros s [k v] Hin. by apply row_carry_spec.
Qed.

Lemma rows_spec heq addresses out : amortized_of hi heq -> Forall in_space addresses ->
  ofold (fun out address =>
           ofold (accumulate_row outer_stride high_weights heq low_bits low_len first_high summaries address)
             (range rows) out) addresses out
  = Ok (out + group_value addresses)%M.
Proof.
  intros Ha Hs. apply ofold_asum. intros s address Hin. apply ofold_asum. intros s' row Hr%elem_of_range.
  apply accumulate_row_spec; [done| |done]. rewrite Forall_forall in Hs. by apply Hs, list_elem_of_In.
Qed.

(** ** The buckets *)

Lemma update_Ok {Er T} (l : list T) i f x : index l i = Some x ->
  update (E := Er) l i f = Ok (<[Z.to_nat i := f x]> l).
Proof.
  intros Hx. unfold update. rewrite Hx. cbn [unwrap obind]. unfold store.
  pose proof (index_Some_len _ _ _ Hx). by case_Z.
Qed.

Context (window_bits : Z) (Hwb : 0 < window_bits <= 16) (Hwn : window_bits <= len hi) (Hsplit : len hi - window_bits <= 32).
Let window : Z := 2 ^ window_bits.
Context (Hcover : carry_count <= window).
Let low_hi : list E := take (Z.to_nat window_bits) hi.
Let high_hi : list E := drop (Z.to_nat window_bits) hi.

Lemma window_pos : 2 <= window.
Proof. unfold window. change 2 with (2 ^ 1) at 1. apply Z.pow_le_mono_r; lia. Qed.

Lemma low_hi_len : 2 ^ len low_hi = window.
Proof. unfold low_hi. by rewrite len_take_Z by lia. Qed.

Lemma split_granted : exists split, SplitEqEvals.new high_hi = Ok split.
Proof.
  unfold SplitEqEvals.new. pose proof (len_drop_Z hi window_bits ltac:(lia)) as Hl. fold high_hi in Hl.
  unfold len in Hl at 1. assert (Hlen : Z.of_nat (length high_hi) <= 32) by (unfold len in *; lia).
  pose proof (Nat.div_mod (length high_hi) 2 ltac:(lia)) as Hd.
  pose proof (Nat.mod_upper_bound (length high_hi) 2 ltac:(lia)) as Hm.
  rewrite !evals_granted; [by eexists|..]; try done.
  - unfold len. rewrite length_drop. lia.
  - unfold len. rewrite length_take. lia.
Qed.

Context (split : SplitEqEvals E) (Hsp : SplitEqEvals.new high_hi = Ok split).
Let high_domain : Z := if USIZE_BITS <=? len high_hi then 2 ^ USIZE_BITS - 1 else Z.shiftl 1 (len high_hi).

Lemma eval_high_spec block : 0 <= block -> eval_high split high_domain block = Ok (eq_index high_hi block).
Proof.
  intros Hb. unfold eval_high, high_domain, eq_index. pose proof (len_drop_Z hi window_bits ltac:(lia)) as Hl.
  fold high_hi in Hl. rewrite (proj2 (Z.leb_gt USIZE_BITS _)), Z.shiftl_1_l by (unfold USIZE_BITS; lia).
  destruct (Z.ltb_spec block (2 ^ len high_hi)); [|done]. by apply eval_at_spec.
Qed.

(** What a row adds to the two buckets. *)
Definition row_terms (address : AffineAddress E) (row : Z) : (Z * A) * (Z * A) :=
  let h := address_high address row in
  let part block := aw_scale (high_weight (first_high + row)) (scaled_by (scale address) (eq_index high_hi block)) in
  ((h mod window, part (h / window)), (h mod window, part (h / window + 1))).

Definition buckets_hold (ts : list ((Z * A) * (Z * A))) (b : list A * list A) : Prop :=
  holds (N := A) window (map fst ts) b.1 /\ holds (N := A) window (map snd ts) b.2.

Lemma bucket_row_spec address row ts b : in_space address -> 0 <= row < rows -> buckets_hold ts b ->
  exists b', bucket_row outer_stride high_weights split high_domain window first_high (scale address)
               (Z.shiftr (first address) low_bits) b row = Ok b' /\ buckets_hold (ts ++ [row_terms address row]) b'.
Proof.
  intros (Hf & _ & Hs) Hr [Hb0 Hb1]. destruct b as [b0 b1]. cbn [fst snd] in *. unfold bucket_row.
  specialize (Hs row Hr). rewrite Z.shiftr_div_pow2 by done. fold low_len.
  pose proof (address_high_nonneg address row Hf ltac:(lia)) as Hh. pose proof low_len_positive.
  assert (0 <= outer_stride * row) by nia. assert (0 <= first address / low_len) by (apply Z.div_pos; lia).
  unfold address_high in Hs, Hh. usize_ok. fold (address_high address row) in *.
  set (h := address_high address row) in *. unfold window at 1 2 3 4. rewrite land_low, Z.log2_pow2, Z.shiftr_div_pow2 by lia.
  fold window. pose proof window_pos as Hwp. pose proof (Z.mod_pos_bound h window ltac:(lia)) as Hm.
  assert (Hq : 0 <= h / window <= h / 2).
  { split; [apply Z.div_pos; lia|]. apply Z.div_le_compat_l; lia. }
  assert (h / 2 < 2 ^ 63) by (apply Z.div_lt_upper_bound; lia).
  rewrite eval_high_spec by lia. cbn [obind]. usize_ok. rewrite eval_high_spec by lia. cbn [obind].
  rewrite weight_at by lia. cbn [ok_or obind].
  destruct (index_is_Some b0 (h mod window)) as [v0 Hv0]; [by rewrite (proj1 Hb0)|].
  destruct (index_is_Some b1 (h mod window)) as [v1 Hv1]; [by rewrite (proj1 Hb1)|].
  rewrite (update_Ok _ _ _ v0), (update_Ok _ _ _ v1) by done. cbn [obind]. eexists. split; [done|].
  rewrite !add_scaled_spec. split; cbn [fst snd]; rewrite map_app; by apply holds_insert.
Qed.

Definition address_terms (address : AffineAddress E) : list ((Z * A) * (Z * A)) :=
  map (row_terms address) (range rows).

Lemma bucket_address_spec address ts b : in_space address -> buckets_hold ts b ->
  exists b', bucket_address outer_stride high_weights split high_domain window low_bits first_high rows b address
             = Ok b' /\ buckets_hold (ts ++ address_terms address) b'.
Proof.
  intros Hs Hb. unfold bucket_address, address_terms. rewrite <-flat_map_single.
  apply (ofold_terms buckets_hold); [done|]. intros ts' b' row Hr%elem_of_range Hb'. by apply bucket_row_spec.
Qed.

Definition task_slice (addresses : list (AffineAddress E)) (per_task task : Z) : list (AffineAddress E) :=
  let start := task * per_task in
  take (Z.to_nat (Z.min (start + per_task) (len addresses) - start)) (drop (Z.to_nat start) addresses).

Lemma bucket_task_spec addresses per_task task ts b : Forall in_space addresses ->
  0 <= task -> 0 <= per_task -> task * per_task <= len addresses -> len addresses + per_task < 2 ^ 64 ->
  buckets_hold ts b ->
  exists b', bucket_task outer_stride high_weights split high_domain window low_bits first_high rows per_task addresses b task
             = Ok b' /\ buckets_hold (ts ++ flat_map address_terms (task_slice addresses per_task task)) b'.
Proof.
  intros Hs Ht Hp Hle Hb Hh. unfold bucket_task. pose proof (len_nonneg addresses).
  assert (0 <= task * per_task) by nia. usize_ok. unfold slice.
  rewrite (proj2 (Z.leb_le 0 _)), (proj2 (Z.leb_le (task * per_task) _)), (proj2 (Z.leb_le _ (len addresses))) by lia.
  cbn [andb ok_or obind]. fold (task_slice addresses per_task task).
  apply (ofold_terms buckets_hold); [done|]. intros ts' b' address Hin Hb'. apply bucket_address_spec; [|done].
  rewrite Forall_forall in Hs. apply Hs, list_elem_of_In. apply list.elem_of_take in Hin as (i & Hi & _).
  apply list_elem_of_lookup. exists (Z.to_nat (task * per_task) + i)%nat. by rewrite <-lookup_drop.
Qed.

(** ** The parallel fold *)

Lemma fold_parts {Er S X} (I : list X -> S -> Prop) (fold : S -> Z -> outcome Er S) f s0 parts :
  I [] s0 ->
  (forall ts s t, t ∈ concat parts -> I ts s -> exists s', fold s t = Ok s' /\ I (ts ++ f t) s') ->
  exists ss, omapM (fun tasks => ofold fold tasks s0) parts = Ok ss /\
             Forall2 (fun tasks s => I (flat_map f tasks) s) parts ss.
Proof.
  intros Hinit. induction parts as [|tasks parts IH]; intros Hstep; cbn [omapM]; [by exists []|].
  destruct (ofold_terms I fold f tasks [] s0 Hinit) as (s & -> & Hs).
  { intros. apply Hstep; [|done]. cbn [concat]. apply elem_of_app. by left. }
  cbn [obind]. destruct IH as (ss & -> & Hss).
  { intros. apply Hstep; [|done]. cbn [concat]. apply elem_of_app. by right. }
  exists (s :: ss). split; [done|]. by constructor.
Qed.

Lemma reduce_parts {Er S X} (I : list X -> S -> Prop) (reduce : S -> S -> outcome Er S) f parts ss ts s :
  (forall t1 t2 s1 s2, I t1 s1 -> I t2 s2 -> exists s', reduce s1 s2 = Ok s' /\ I (t1 ++ t2) s') ->
  I ts s -> Forall2 (fun (tasks : list Z) s => I (flat_map f tasks) s) parts ss ->
  exists s', ofold reduce ss s = Ok s' /\ I (ts ++ flat_map f (concat parts)) s'.
Proof.
  intros Hred Hs Hf. revert ts s Hs. induction Hf as [|tasks s1 parts ss H1' _ IH]; intros ts s Hs; cbn [ofold concat].
  - exists s. cbn [flat_map]. by rewrite app_nil_r.
  - destruct (Hred _ _ _ _ Hs H1') as (s2 & -> & H2'). cbn [obind]. destruct (IH _ _ H2') as (s' & Ho & Hi).
    exists s'. split; [done|]. by rewrite flat_map_app, app_assoc.
Qed.

Lemma fold_reduce_spec {Er S X} (I : list X -> S -> Prop) n s0 (fold : S -> Z -> outcome Er S) reduce f :
  I [] s0 ->
  (forall ts s t, 0 <= t < n -> I ts s -> exists s', fold s t = Ok s' /\ I (ts ++ f t) s') ->
  (forall t1 t2 s1 s2, I t1 s1 -> I t2 s2 -> exists s', reduce s1 s2 = Ok s' /\ I (t1 ++ t2) s') ->
  exists s, fold_reduce n (Ok s0) fold reduce = Ok s /\ I (flat_map f (range n)) s.
Proof.
  intros Hinit Hstep Hred. unfold fold_reduce. cbn [obind].
  destruct (fold_parts I fold f s0 (task_parts n) Hinit) as (ss & -> & Hss).
  { intros ts s t Hin. rewrite task_parts_cover in Hin. apply elem_of_range in Hin. by apply Hstep. }
  cbn [obind]. destruct (reduce_parts I reduce f _ _ [] s0 Hred Hinit Hss) as (s & Ho & Hi).
  exists s. rewrite task_parts_cover in Hi. done.
Qed.

Lemma one_per_task (addresses : list (AffineAddress E)) :
  flat_map (task_slice addresses 1) (range (len addresses)) = addresses.
Proof.
  enough (Hgen : forall pre post, addresses = pre ++ post ->
            flat_map (task_slice addresses 1) (seqZ (len pre) (len post)) = post) by apply (Hgen [] addresses eq_refl).
  intros pre post. revert pre. induction post as [|a post IH]; intros pre Ha; [done|].
  rewrite len_cons, seqZ_cons by (pose proof (len_nonneg post); lia). cbn [flat_map].
  replace (Z.pred (len post + 1)) with (len post) by lia.
  specialize (IH (pre ++ [a])). rewrite len_app in IH. change (len [a]) with 1 in IH.
  replace (Z.succ (len pre)) with (len pre + 1) by lia. rewrite IH by (by rewrite <-app_assoc). clear IH.
  unfold task_slice. rewrite Z.mul_1_r, Ha, len_app, len_cons.
  replace (Z.min (len pre + 1) (len pre + (len post + 1)) - len pre) with 1 by (pose proof (len_nonneg post); lia).
  unfold len. rewrite Nat2Z.id, drop_app_length. done.
Qed.

Lemma tasks_cover (addresses : list (AffineAddress E)) (parallel : bool) : 0 < len addresses ->
  let tasks := if parallel then len addresses else 1 in
  let per_task := (len addresses + tasks - 1) / tasks in
  0 <= per_task <= len addresses /\ (forall t, 0 <= t < tasks -> t * per_task <= len addresses) /\
  flat_map (task_slice addresses per_task) (range tasks) = addresses.
Proof.
  intros Hn. cbv zeta. destruct parallel.
  - replace ((len addresses + len addresses - 1) / len addresses) with 1.
    2:{ apply (Z.div_unique _ _ _ (len addresses - 1)); lia. }
    split; [lia|]. split; [lia|apply one_per_task].
  - replace ((len addresses + 1 - 1) / 1) with (len addresses) by (rewrite Z.div_1_r; lia).
    split; [lia|]. split; [intros; nia|]. change (range 1) with [0]. cbn [flat_map]. rewrite app_nil_r.
    unfold task_slice. rewrite Z.mul_0_l, Z.add_0_l, Z.min_id, Z.sub_0_r. change (drop (Z.to_nat 0) addresses) with addresses.
    rewrite take_ge by (unfold len; lia). done.
Qed.

Lemma flat_map_flat_map {S T U} (f : S -> list T) (g : T -> list U) l :
  flat_map g (flat_map f l) = flat_map (fun s => flat_map g (f s)) l.
Proof. induction l as [|s l IH]; [done|]. cbn [flat_map]. by rewrite flat_map_app, IH. Qed.

Lemma zip_update_ext {S T} (f g : S -> T -> S) l1 l2 : (forall x y, f x y = g x y) ->
  zip_update f l1 l2 = zip_update g l1 l2.
Proof. intros Hfg. revert l2; induction l1 as [|x l1 IH]; intros [|y l2]; cbn [zip_update]; try done. by rewrite Hfg, IH. Qed.

Lemma buckets_spec addresses (parallel : bool) : Forall in_space addresses -> 0 < len addresses < 2 ^ 63 ->
  let tasks := if parallel then len addresses else 1 in
  let per_task := (len addresses + tasks - 1) / tasks in
  let zeros := replicate (Z.to_nat window) (mzero : A) in
  exists b, fold_reduce tasks (Ok (zeros, zeros))
              (bucket_task outer_stride high_weights split high_domain window low_bits first_high rows per_task addresses)
              add_buckets = Ok b /\ buckets_hold (flat_map address_terms addresses) b.
Proof.
  intros Hs Hn tasks per_task zeros. destruct (tasks_cover addresses parallel ltac:(lia)) as (Hp & Ht & Hc).
  fold tasks per_task in Hp, Ht, Hc.
  destruct (fold_reduce_spec buckets_hold tasks (zeros, zeros)
    (bucket_task outer_stride high_weights split high_domain window low_bits first_high rows per_task addresses)
    add_buckets (fun t => flat_map address_terms (task_slice addresses per_task t))) as (b & Hb & Hh).
  - pose proof window_pos. split; apply holds_zeros; lia.
  - intros ts s t Htr Hi. apply bucket_task_spec; try done; [lia|lia|by apply Ht|lia].
  - intros t1 t2 [a1 b1] [a2 b2] [Ha1 Hb1] [Ha2 Hb2]. eexists. split; [done|].
    split; cbn [fst snd] in *; rewrite map_app.
    + rewrite <-(zip_update_ext madd add) by (intros; symmetry; apply add_spec). by apply holds_zip_add.
    + rewrite <-(zip_update_ext madd add) by (intros; symmetry; apply add_spec). by apply holds_zip_add.
  - exists b. split; [done|]. by rewrite <-flat_map_flat_map, Hc in Hh.
Qed.

(** ** The combination with the summaries *)

Lemma asum_table (phi : Z -> A -> A) (s : list A) :
  asum (fun k => phi k (match index s k with Some v => v | None => mzero end)) (range (len s)) = esum phi 0 s.
Proof.
  rewrite <-asum_enumerate, <-(asum_enumerate_fst _ s). apply asum_ext.
  intros [k v] Hin%elem_of_enumerate. cbn [fst]. by rewrite Hin.
Qed.

Definition near (carry pos : Z) (v : A) : A :=
  if pos + carry <? window then aw_scale v (eq_at low_hi (pos + carry)) else mzero.
Definition far (carry pos : Z) (v : A) : A :=
  if pos + carry <? window then mzero else aw_scale v (eq_at low_hi (pos + carry - window)).

Lemma near_reading carry : reading (M := A) (N := A) (near carry).
Proof.
  intros pos. unfold near. destruct (_ <? _); split; [apply scale_zero|intros; apply scale_add_l|done|intros; by rewrite madd_0_l].
Qed.

Lemma far_reading carry : reading (M := A) (N := A) (far carry).
Proof.
  intros pos. unfold far. destruct (_ <? _); split; [done|intros; by rewrite madd_0_l|apply scale_zero|intros; apply scale_add_l].
Qed.

Lemma row_terms_value address row carry : in_space address -> 0 <= row < rows -> 0 <= carry < carry_count ->
  ((fun '(k, v) => near carry k v) (row_terms address row).1 + (fun '(k, v) => far carry k v) (row_terms address row).2)%M
  = aw_scale (high_weight (first_high + row)) (scaled_by (scale address) (eq_index hi (address_high address row + carry))).
Proof.
  intros (Hf & _ & _) Hr Hc. unfold row_terms, near, far. cbn [fst snd].
  pose proof (address_high_nonneg address row Hf ltac:(lia)) as Hh. set (h := address_high address row) in *.
  pose proof window_pos as Hw. pose proof (Z.mod_pos_bound h window ltac:(lia)) as Hm.
  pose proof (Z_div_mod_eq_full h window) as Hd. set (p := h mod window) in *. set (q := h / window) in *.
  assert (Hhi : hi = low_hi ++ high_hi) by (symmetry; apply take_drop).
  rewrite Hhi, eq_index_app, low_hi_len by lia.
  assert (Hs : forall (o : option E) (a b : E), aw_scale (aw_scale (high_weight (first_high + row)) (scaled_by o b)) a
                 = aw_scale (high_weight (first_high + row)) (scaled_by o (a * b)%F)).
  { intros o a b. rewrite <-scale_mul. f_equal. destruct o as [o|]; cbn [scaled_by]; ring. }
  destruct (Z.ltb_spec (p + carry) window) as [Hlt|Hge].
  - rewrite madd_0_r, Hs. replace (h + carry) with (p + carry + q * window) by lia.
    rewrite Z.div_add, Z.mod_add, (Z.div_small (p + carry)), (Z.mod_small (p + carry)), Z.add_0_l by lia. done.
  - rewrite madd_0_l, Hs. replace (h + carry) with (p + carry - window + (q + 1) * window) by lia.
    rewrite Z.div_add, Z.mod_add, (Z.div_small (p + carry - window)), (Z.mod_small (p + carry - window)), Z.add_0_l by lia. done.
Qed.

Lemma combine_pos_spec b0 b1 carry : len b0 = window -> len b1 = window -> 0 <= carry < carry_count ->
  ofold (E := AkitaError) (combine_pos b0 b1 (eqt low_hi 1%F) window carry) (range window) (mzero : A)
  = Ok (esum (near carry) 0 b0 + esum (far carry) 0 b1)%M.
Proof.
  intros L0 L1 Hc. rewrite (ofold_asum _ (fun pos =>
    (near carry pos (match index b0 pos with Some v => v | None => mzero end)
     + far carry pos (match index b1 pos with Some v => v | None => mzero end))%M)).
  - rewrite madd_0_l, asum_add. rewrite <-L0 at 1. rewrite asum_table. rewrite <-L1 at 1. by rewrite asum_table.
  - intros phi pos Hp%elem_of_range. unfold combine_pos, near, far.
    destruct (index_is_Some b0 pos ltac:(lia)) as [v0 Hv0]. destruct (index_is_Some b1 pos ltac:(lia)) as [v1 Hv1].
    rewrite Hv0, Hv1. destruct (Z.ltb_spec (pos + carry) window).
    + cbn [unwrap obind]. rewrite eqt_index by (rewrite low_hi_len; lia). cbn [unwrap obind].
      rewrite add_scaled_spec, madd_0_r. do 3 f_equal. ring.
    + cbn [unwrap obind]. rewrite eqt_index by (rewrite low_hi_len; lia). cbn [unwrap obind].
      rewrite add_scaled_spec, madd_0_l. do 3 f_equal. ring.
Qed.

Lemma buckets_value addresses b carry : Forall in_space addresses -> 0 <= carry < carry_count ->
  buckets_hold (flat_map address_terms addresses) b ->
  (esum (near carry) 0 b.1 + esum (far carry) 0 b.2)%M
  = asum (fun address => asum (fun row => aw_scale (high_weight (first_high + row))
      (scaled_by (scale address) (eq_index hi (address_high address row + carry)))) (range rows)) addresses.
Proof.
  intros Hs Hc [[_ H0'] [_ H1']]. rewrite H0' by apply near_reading. rewrite H1' by apply far_reading.
  rewrite !asum_map, <-asum_add, asum_flat_map. apply asum_ext. intros address Hin.
  unfold address_terms. rewrite asum_map. apply asum_ext. intros row Hr%elem_of_range.
  apply row_terms_value; [|done..]. rewrite Forall_forall in Hs. by apply Hs, list_elem_of_In.
Qed.

Lemma combined_value addresses b out template : Forall in_space addresses ->
  zero_like template = (mzero : A) -> buckets_hold (flat_map address_terms addresses) b ->
  ofold (combine_carry template b.1 b.2 (eqt low_hi 1%F) window) (enumerate summaries) out
  = Ok (out + group_value addresses)%M.
Proof.
  intros Hs Ht Hb. pose proof Hb as [[L0 _] [L1 _]].
  rewrite (ofold_asum _ (fun '(k, v) => asum (fun address => asum (fun row => row_part address row k v) (range rows)) addresses)).
  - do 2 f_equal. rewrite (asum_ext _ (fun t => asum (fun address => asum (fun row => row_part address row t.1 t.2) (range rows)) addresses))
      by by intros [].
    rewrite asum_swap. apply asum_ext. intros address Hin. rewrite asum_swap. apply asum_ext. intros row Hr.
    rewrite <-row_value_summaries. apply asum_ext. by intros [].
  - intros acc [k v] Hin%elem_of_enumerate%index_Some_len. unfold combine_carry. rewrite Ht, combine_pos_spec by done.
    cbn [obind]. rewrite add_spec, (buckets_value addresses) by done. do 2 f_equal.
    rewrite (additive_asum _ _ _ (additive_multiply_l v)). apply asum_ext. intros address _.
    rewrite (additive_asum _ _ _ (additive_multiply_l v)). apply asum_ext. intros row _.
    apply multiply_scale_l.
Qed.
End high.

(** * The bucketed kernel as a whole *)

Section bucketed.
Context {E A : Type} `{AffineWeightLaws E A, EqRuntime E, Allocator, FoldSchedule}.
Context (outer_stride : Z) (high_weights : AffineWeightSource A) (weights : list A) (hi : list E)
        (Hsource : source_of high_weights weights) (Hos : 0 < outer_stride) (Hgranted : tables_granted (E := E))
        (low_bits first_high rows : Z) (terms : list (Z * A)) (summaries : list A)
        (Hlb : 0 <= low_bits) (Hsum : scattered (N := A) summaries terms) (Hcc : 0 < len summaries)
        (Hfh : 0 <= first_high) (Hrows : 0 <= rows) (Hfit : first_high + rows <= len weights)
        (Hwl : len weights < 2 ^ 64) (addresses : list (AffineAddress E))
        (Hspace : Forall (in_space outer_stride low_bits rows summaries) addresses)
        (Hwork : rows * len addresses * len summaries <= 2 ^ 28).

Lemma bucketed_spec out :
  let value := group_value outer_stride weights hi low_bits first_high rows terms addresses in
  accumulate_high_rows_bucketed outer_stride high_weights out hi addresses low_bits first_high rows summaries = Ok None \/
  accumulate_high_rows_bucketed outer_stride high_weights out hi addresses low_bits first_high rows summaries
    = Ok (Some (out + value)%M).
Proof.
  intros value. unfold accumulate_high_rows_bucketed. pose proof (len_nonneg addresses) as Hn.
  assert (Htot : 0 <= rows * len addresses <= 2 ^ 28) by nia. usize_ok.
  destruct (plan_spec (rows * len addresses) (len summaries) (len hi)) as [-> | (window & Hplan & [(b & Hb & Hbn & Hs & ->) Hcov])];
    [lia|apply len_nonneg|done|lia|by left|]. right. rewrite Hplan. cbn [obind].
  assert (Hpos : 0 < len addresses).
  { destruct (decide (len addresses = 0)) as [Hz|]; [|lia]. rewrite Hz, Z.mul_0_r in Hplan. discriminate Hplan. }
  destruct (index_is_Some summaries 0 ltac:(lia)) as [template Htm]. rewrite Htm. cbn [ok_or obind].
  rewrite Z.log2_pow2, split_at_Ok by lia. cbn [obind]. rewrite zero_like_spec.
  rewrite evals_granted by (rewrite ?len_take_Z; done || lia). cbn [obind].
  edestruct (split_granted (A := A)) as [split Hsp]; [exact weights|exact Hgranted|exact summaries|exact Hlb|exact Hb|exact Hbn|exact Hs|]. rewrite Hsp. cbn [obind].
  assert (Hlen : len addresses < 2 ^ 63).
  { destruct (decide (rows = 0)) as [Hr0|]; [rewrite Hr0 in Hplan; discriminate Hplan|nia]. }
  destruct (buckets_spec outer_stride high_weights weights hi Hsource Hos low_bits first_high rows summaries
              Hlb Hcc Hfh Hfit Hwl b Hb Hbn Hs Hcov split Hsp addresses
              (PARALLEL_HIGH_ROWS_MIN <=? rows * len addresses) Hspace ltac:(lia)) as ([b0 b1] & Hf & Hh).
  rewrite Hf. cbn [obind].
  pose proof (combined_value outer_stride weights hi Hos low_bits first_high rows terms summaries Hlb Hsum
                b Hb Hbn Hcov addresses (b0, b1) out template Hspace (zero_like_spec _) Hh) as Hc.
  cbn [fst snd] in Hc. rewrite Hc. done.
Qed.
End bucketed.
