(* ===== verification/AffineRows.v ===== *)
(** The documented sum of an affine interval ([affine_reference]), and the row
    kernels: the cut of the outer window into an unaligned first row, full
    rows and an unaligned last row computes it ([eval_rows_spec]). *)

From S2P Require Import Prelude Checked Field Serialization EqPoly OffsetWindow.
From S2P Require Import AffineIntervals AffineSums AffineLow AffineHigh.
Local Open Scope Z_scope.

Ltac prod_nonneg := apply Z.mul_nonneg_nonneg; lia.

Lemma split_app {T} (l1 l2 : list T) : split_at (E := AkitaError) (l1 ++ l2) (len l1) = Ok (l1, l2).
Proof.
  rewrite split_at_Ok by (rewrite len_app; pose proof (len_nonneg l1); pose proof (len_nonneg l2); lia).
  unfold len. by rewrite Nat2Z.id, take_app_length, drop_app_length.
Qed.

(** * The reference *)

Section reference.
Context {E A : Type} `{AffineWeightLaws E A}.

(** [high[i / Q] * low[i % Q]], with one for an absent low factor *)
Definition outer_weight (weights low_weights : list A) (i : Z) : A :=
  let q := Z.max (len low_weights) 1 in
  multiply (high_weight weights (i / q)) (low_factor low_weights (i mod q)).

(** One base, one outer index: the sum over the digits. *)
Definition digit_sum (challenges : list E) (outer_stride digit_stride : Z) (digit_weights : list E)
    (weights low_weights : list A) (outer_start base : Z) (base_scale : option E) (i : Z) : A :=
  asum (fun t => aw_scale (outer_weight weights low_weights i)
          (scaled_by base_scale (t.2 * eq_index challenges (base + outer_stride * (i - outer_start) + digit_stride * t.1))%F))
    (enumerate digit_weights).

Definition affine_reference (challenges : list E) (base_offsets : list Z) (outer_start live_len outer_stride digit_stride : Z)
    (digit_weights : list E) (weights low_weights : list A) (base_scales : list E) : A :=
  asum (fun t => asum (digit_sum challenges outer_stride digit_stride digit_weights weights low_weights outer_start
                         t.2 (index base_scales t.1)) (seqZ outer_start live_len))
    (enumerate base_offsets).
End reference.

Section exact.
Context {E A : Type} `{AffineWeightLaws E A, EqRuntime E, Allocator, FoldSchedule, UnstableSort}.
Add Ring Ering : (field_ring (E := E)).
Context (outer_stride digit_stride : Z) (digit_weights : list E) (high_weights : AffineWeightSource A)
        (weights low_weights : list A) (base_scales : list E) (lo hi : list E) (outer_start : Z).

Let low_len : Z := Z.max (len low_weights) 1.
Let nd : Z := len digit_weights.
Let challenges : list E := lo ++ hi.

Context (Hsource : source_of high_weights weights) (Hgranted : tables_granted (E := E))
        (Hlen : low_len = 2 ^ len lo) (Hds : 0 < digit_stride) (Hnd : 0 < nd)
        (Hspan : digit_stride * (nd - 1) < outer_stride) (Hstart : 0 <= outer_start)
        (Hwl : len weights < 2 ^ 64) (Hblock : outer_stride * low_len < 2 ^ 64).

Lemma os_pos : 0 < outer_stride.
Proof. assert (0 <= digit_stride * (nd - 1)) by nia. lia. Qed.

Lemma row_len_pos : 0 < low_len.
Proof. unfold low_len. lia. Qed.

Abbreviation digit_sum_at := (digit_sum challenges outer_stride digit_stride digit_weights weights low_weights outer_start).

(** ** One row of one address *)

Section group.
Context (first_high rows ls le : Z) (Hfh : 0 <= first_high) (Hrows : 0 < rows) (Hfit : first_high + rows <= len weights)
        (Hls : 0 <= ls < le) (Hle : le <= low_len) (Hbefore : outer_start <= first_high * low_len + ls).

(** The terms of an address, by its low residue. *)
Definition address_low (address : AffineAddress E) : Z := first address mod low_len.
Definition terms_at (al : Z) : list (Z * A) :=
  low_terms outer_stride digit_stride digit_weights low_weights lo al ls le.
Definition carries_at (al : Z) : Z := reach outer_stride digit_stride digit_weights al ls le / low_len + 1.

(** The address starts at the base [base] of the interval. *)
Definition starts_at (address : AffineAddress E) (base : Z) : Prop :=
  first address = base + outer_stride * (first_high * low_len + ls - outer_start).

Definition last_address (base : Z) : Z :=
  base + outer_stride * ((first_high + rows - 1) * low_len + le - 1 - outer_start) + digit_stride * (nd - 1).

Definition well_placed (address : AffineAddress E) : Prop :=
  exists base, 0 <= base /\ starts_at address base /\ last_address base < 2 ^ 64.

Lemma address_nonneg address : well_placed address -> 0 <= first address.
Proof. intros (base & Hb & Hs & _). unfold starts_at in Hs. pose proof os_pos. nia. Qed.

(** The address of a row, a low position and a digit, split at the low bits. *)
Lemma split_address address row low d x : 0 <= first address ->
  x = low_address outer_stride digit_stride (address_low address) ls low d ->
  (first address + outer_stride * low_len * row + outer_stride * (low - ls) + digit_stride * d)
  = x + (first address / low_len + outer_stride * row) * low_len.
Proof.
  intros Hf ->. unfold low_address, address_low. pose proof (Z_div_mod_eq_full (first address) low_len). lia.
Qed.

Lemma row_sum address base row : starts_at address base -> 0 <= base -> 0 <= row ->
  row_value outer_stride weights hi (len lo) first_high (terms_at (address_low address)) address row
  = asum (fun low => digit_sum_at base (scale address) ((first_high + row) * low_len + low)) (seqZ ls (le - ls)).
Proof.
  intros Hs Hb Hr. unfold row_value, terms_at, low_terms. rewrite asum_flat_map. apply asum_ext.
  intros low Hlow%elem_of_seqZ. rewrite asum_map. unfold digit_sum. apply asum_ext. intros [d w] Hd%elem_of_enumerate%index_Some_len.
  cbn [low_term fst snd]. fold low_len. pose proof row_len_pos as Hq. pose proof os_pos as Ho. fold nd in Hd.
  set (x := low_address outer_stride digit_stride (address_low address) ls low d).
  assert (Hf : 0 <= first address) by (unfold starts_at in Hs; nia).
  pose proof (split_address address row low d x Hf eq_refl) as Hx.
  assert (Hx0 : 0 <= x).
  { subst x. unfold low_address, address_low. pose proof (Z.mod_pos_bound (first address) low_len Hq). nia. }
  unfold row_part, address_high. rewrite <-Hlen. rewrite multiply_scale_r.
  unfold outer_weight. fold low_len.
  replace ((first_high + row) * low_len + low) with (low + (first_high + row) * low_len) by lia.
  rewrite Z.div_add, Z.mod_add, (Z.div_small low), (Z.mod_small low), Z.add_0_l, <-scale_mul by lia. f_equal.
  replace (base + outer_stride * (low + (first_high + row) * low_len - outer_start) + digit_stride * d)
    with (x + (first address / low_len + outer_stride * row) * low_len).
  2:{ rewrite <-Hx. unfold starts_at in Hs. rewrite Hs. lia. }
  assert (0 <= first address / low_len) by (apply Z.div_pos; lia).
  unfold challenges. rewrite eq_index_app, <-Hlen by nia. rewrite Z.div_add, Z.mod_add by lia.
  rewrite (Z.add_comm (x / low_len)). destruct (scale address) as [s|]; cbn [scaled_by]; ring.
Qed.

(** The rows and the low positions enumerate an interval of outer indices. *)
Lemma rows_interval (f : Z -> A) : rows = 1 \/ (ls = 0 /\ le = low_len) ->
  asum (fun row => asum (fun low => f ((first_high + row) * low_len + low)) (seqZ ls (le - ls))) (range rows)
  = asum f (seqZ (first_high * low_len + ls) (rows * (le - ls))).
Proof.
  intros [Hone|[-> ->]].
  - rewrite Hone. change (range 1) with [0]. rewrite asum_one, Z.mul_1_l, !asum_shift. apply asum_ext.
    intros k _. f_equal. lia.
  - rewrite Z.sub_0_r, Z.add_0_r. generalize rows at 1 2, Hrows. intros n Hn. pattern n.
    apply natlike_ind; [done| |lia]. intros m Hm IH. unfold Z.succ. rewrite range_S, asum_app, IH, asum_one by done.
    replace ((m + 1) * low_len) with (m * low_len + low_len) by lia. pose proof row_len_pos.
    rewrite seqZ_app, asum_app by nia. f_equal. rewrite !asum_shift. apply asum_ext. intros k _. f_equal. lia.
Qed.

(** ** One group of addresses *)

Lemma reach_top address base : starts_at address base -> 0 <= base ->
  reach outer_stride digit_stride digit_weights (address_low address) ls le
    + (first address / low_len + outer_stride * (rows - 1)) * low_len = last_address base.
Proof.
  intros Hs Hb. unfold reach, address_low, last_address. fold nd.
  pose proof (Z_div_mod_eq_full (first address) low_len). unfold starts_at in Hs. nia.
Qed.

Lemma placed_range address : well_placed address ->
  let al := address_low address in
  0 <= al < low_len /\ 0 <= reach outer_stride digit_stride digit_weights al ls le < 2 ^ 64 /\
  0 < carries_at al <= outer_stride + 1.
Proof.
  intros Hw. pose proof (address_nonneg _ Hw) as Hf. destruct Hw as (base & Hb & Hs & Hl).
  pose proof (reach_top _ _ Hs Hb) as Ht. cbv zeta. pose proof row_len_pos as Hq. pose proof os_pos as Ho.
  pose proof (Z.mod_pos_bound (first address) low_len Hq) as Hal. fold (address_low address) in Hal.
  assert (0 <= first address / low_len) by (apply Z.div_pos; lia).
  assert (Hr : 0 <= reach outer_stride digit_stride digit_weights (address_low address) ls le).
  { unfold reach. fold nd. assert (0 <= outer_stride * (le - ls - 1)) by prod_nonneg. assert (0 <= digit_stride * (nd - 1)) by prod_nonneg. lia. }
  assert (0 <= outer_stride * (rows - 1)) by prod_nonneg.
  assert (0 <= (first address / low_len + outer_stride * (rows - 1)) * low_len) by prod_nonneg.
  split; [done|]. split; [lia|]. unfold carries_at.
  assert (Hd : 0 <= reach outer_stride digit_stride digit_weights (address_low address) ls le / low_len <= outer_stride).
  { split; [apply Z.div_pos; lia|]. apply Z.lt_succ_r, Z.div_lt_upper_bound; [lia|]. unfold reach. fold nd.
    assert (outer_stride * (le - ls - 1) <= outer_stride * (low_len - 1)) by (apply Z.mul_le_mono_nonneg_l; lia). lia. }
  lia.
Qed.

Lemma placed_space address (summaries : list A) : well_placed address -> len summaries = carries_at (address_low address) ->
  in_space outer_stride (len lo) rows summaries address.
Proof.
  intros Hw Hl. pose proof (address_nonneg _ Hw) as Hf. pose proof (placed_range _ Hw) as (Hal & Hr & _).
  destruct Hw as (base & Hb & Hs & Hlast). pose proof (reach_top _ _ Hs Hb) as Ht.
  pose proof row_len_pos as Hq. pose proof os_pos as Ho. pose proof (Z_div_mod_eq_full (first address) low_len) as Hd.
  fold (address_low address) in Hd. unfold reach in *. fold nd in Ht, Hr.
  assert (0 <= outer_stride * (le - ls - 1)) by prod_nonneg. assert (0 <= digit_stride * (nd - 1)) by prod_nonneg.
  split; [done|]. rewrite <-Hlen. split.
  - replace (Z.max 0 (rows - 1)) with (rows - 1) by lia. lia.
  - intros row Hrow. rewrite Hl. unfold address_high, carries_at. rewrite <-Hlen. unfold reach. fold nd.
    set (top := address_low address + outer_stride * (le - ls - 1) + digit_stride * (nd - 1)) in *.
    set (q := first address / low_len) in *.
    assert (Htq : (q + outer_stride * (rows - 1)) + top / low_len = last_address base / low_len).
    { rewrite <-Ht, Z.div_add by lia. lia. }
    assert (last_address base / low_len < 2 ^ 64) by (apply Z.div_lt_upper_bound; lia).
    assert (outer_stride * row <= outer_stride * (rows - 1)) by (apply Z.mul_le_mono_nonneg_l; lia). lia.
Qed.

Lemma product_three a b c : 0 <= a -> 0 <= b -> 0 <= c -> a * b < 2 ^ 64 -> a * b * c < 2 ^ 64 -> a < 2 ^ 64 ->
  exists n, checked.product [a; b; c] = Some n.
Proof.
  intros Ha Hb Hc Hab Habc Ha'. exists (a * b * c). unfold checked.product. cbn [checked.product_from].
  rewrite usize_mul by lia. rewrite Z.mul_1_l, usize_mul by nia. by rewrite usize_mul by nia.
Qed.

Lemma carry_count_spec al : 0 <= al -> reach outer_stride digit_stride digit_weights al ls le < 2 ^ 64 ->
  carries_at al <= outer_stride + 1 -> outer_stride + 1 < 2 ^ 64 -> low_len < 2 ^ 64 ->
  group_carry_count outer_stride digit_stride digit_weights low_len al ls le = Ok (carries_at al).
Proof.
  intros Hal Hr Hc Ho Hll. unfold group_carry_count, carries_at. pose proof os_pos. pose proof row_len_pos.
  fold nd. assert (nd - 1 < 2 ^ 64) by nia. unfold reach in *. fold nd in Hr.
  assert (0 <= outer_stride * (le - ls - 1)) by prod_nonneg. assert (0 <= digit_stride * (nd - 1)) by prod_nonneg.
  unfold carries_at, reach in Hc. fold nd in Hc. usize_ok.
  replace (le - ls - 1) with (le - ls - 1) in * by lia.
  unfold checked.checked_div. destruct (Z.eqb_spec low_len 0); [lia|]. cbn [mbind option_bind].
  assert (0 <= (al + outer_stride * (le - ls - 1) + digit_stride * (nd - 1)) / low_len) by (apply Z.div_pos; lia).
  by usize_ok.
Qed.

Context (table : option (list E)) (Htable : table_of lo table) (Hos : outer_stride + 1 < 2 ^ 64) (Hll : low_len < 2 ^ 64).

Definition address_value (address : AffineAddress E) : A :=
  asum (row_value outer_stride weights hi (len lo) first_high (terms_at (address_low address)) address) (range rows).

Lemma accumulate_group_spec template out heq al addresses : amortized_of hi heq -> Forall well_placed addresses ->
  Forall (fun address => address_low address = al) addresses -> 0 < len addresses ->
  rows * len addresses * (outer_stride + 1) <= 2 ^ 28 ->
  exists heq', accumulate_group outer_stride digit_stride digit_weights high_weights low_weights
      template lo hi table low_len first_high ls le rows (out, heq) al addresses
    = Ok ((out + asum address_value addresses)%M, heq') /\ amortized_of hi heq'.
Proof.
  intros Ha Hp Hal Hn Hw. unfold accumulate_group.
  assert (Hrange : 0 <= al < low_len /\ 0 <= reach outer_stride digit_stride digit_weights al ls le < 2 ^ 64 /\
                   0 < carries_at al <= outer_stride + 1).
  { destruct addresses as [|a rest]; [by cbn in Hn|]. inversion Hp as [|?? Hpa _]. inversion Hal as [|?? Hla _]. subst.
    by apply placed_range. }
  destruct Hrange as (Hal0 & Hr & Hc). rewrite carry_count_spec by lia. cbn [obind].
  destruct (low_summaries_spec outer_stride digit_stride digit_weights low_weights lo Hlen Hds Hnd Hspan
              al ls le Hal0 Hls Hle ltac:(lia) template table Htable) as (summaries & Hsum & [Hl Hsc]).
  fold low_len in Hsum, Hl. fold (carries_at al) in Hsum, Hl. rewrite Hsum. cbn [obind]. fold (terms_at al) in Hsc.
  assert (Hspace : Forall (in_space outer_stride (len lo) rows summaries) addresses).
  { apply Forall_forall. intros a Hin. rewrite Forall_forall in Hp, Hal. apply placed_space; [by apply Hp|].
    by rewrite (Hal a Hin). }
  assert (Hwork : rows * len addresses * len summaries <= 2 ^ 28).
  { rewrite Hl. assert (0 <= rows * len addresses) by nia. nia. }
  assert (Hvalue : group_value outer_stride weights hi (len lo) first_high rows (terms_at al) addresses
                   = asum address_value addresses).
  { apply asum_ext. intros a Hin. unfold address_value. rewrite Forall_forall in Hal.
    by rewrite (Hal a) by by apply list_elem_of_In. }
  destruct (bucketed_spec outer_stride high_weights weights hi Hsource os_pos Hgranted (len lo) first_high rows
              (terms_at al) summaries (len_nonneg lo) Hsc ltac:(lia) Hfh ltac:(lia) Hfit Hwl addresses Hspace Hwork out)
    as [-> | ->]; cbn [obind].
  - destruct (prepare_spec' hi heq (len addresses) rows (len summaries) Ha Hgranted) as (heq' & -> & Ha').
    { apply product_three; nia. }
    cbn [obind]. exists heq'. split; [|done]. rewrite <-Hvalue.
    pose proof (rows_spec outer_stride high_weights weights hi Hsource os_pos (len lo) first_high rows
               (terms_at al) summaries) as Hrs. rewrite <-Hlen in Hrs. rewrite Hrs by (done || lia || apply len_nonneg). done.
  - exists heq. by rewrite Hvalue.
Qed.

(** ** The groups of equal low residue *)

Lemma partition_point_spec {T} (p : T -> bool) l :
  0 <= partition_point p l <= len l /\ Forall (fun x => p x = true) (take (Z.to_nat (partition_point p l)) l).
Proof.
  induction l as [|x l [IHr IHf]]; cbn [partition_point]; [done|]. rewrite len_cons. pose proof (len_nonneg l).
  destruct (p x) eqn:Hp; [|split; [lia|constructor]]. split; [lia|].
  replace (Z.to_nat (1 + partition_point p l)) with (S (Z.to_nat (partition_point p l))) by lia. by constructor.
Qed.

Lemma land_q x : Z.land x (low_len - 1) = x mod low_len.
Proof. rewrite Hlen. apply land_low, len_nonneg. Qed.

Lemma group_loop_cons fuel q (group : A * AmortizedOffsetEq E -> Z -> list (AffineAddress E) -> result (A * AmortizedOffsetEq E))
    state a rest :
  group_loop (S fuel) q group state (a :: rest)
  = let al := Z.land (first a) (q - 1) in
    let* (members, rest') := split_at (a :: rest)
      (partition_point (fun address => Z.land (first address) (q - 1) =? al) (a :: rest)) in
    let* state := group state al members in
    group_loop fuel q group state rest'.
Proof. done. Qed.

Lemma group_loop_spec template fuel out heq addresses : amortized_of hi heq -> Forall well_placed addresses ->
  (length addresses <= fuel)%nat -> rows * len addresses * (outer_stride + 1) <= 2 ^ 28 ->
  exists heq', group_loop fuel low_len
      (accumulate_group outer_stride digit_stride digit_weights high_weights low_weights
         template lo hi table low_len first_high ls le rows) (out, heq) addresses
    = Ok ((out + asum address_value addresses)%M, heq') /\ amortized_of hi heq'.
Proof.
  revert out heq addresses; induction fuel as [|fuel IH]; intros out heq [|a rest] Ha Hp Hf Hw;
    try (exists heq; cbn [group_loop]; by rewrite asum_nil, madd_0_r); try (cbn in Hf; lia).
  rewrite group_loop_cons. cbv zeta. set (addresses := a :: rest) in *.
  set (p := fun address : AffineAddress E => Z.land (first address) (low_len - 1) =? Z.land (first a) (low_len - 1)).
  destruct (partition_point_spec p addresses) as [Hr Hall]. set (n := partition_point p addresses) in *.
  assert (Hn : 0 < n).
  { subst n addresses. cbn [partition_point]. unfold p at 1. rewrite Z.eqb_refl.
    pose proof (proj1 (partition_point_spec p rest)). lia. }
  rewrite split_at_Ok by done. cbn [obind]. pose proof (len_take_Z addresses n Hr) as Hlt.
  pose proof (len_drop_Z addresses n Hr) as Hld. pose proof os_pos.
  assert (Hle1 : rows * n * (outer_stride + 1) <= 2 ^ 28) by (assert (0 <= rows * (outer_stride + 1)) by nia; nia).
  assert (Hle2 : rows * (len addresses - n) * (outer_stride + 1) <= 2 ^ 28)
    by (assert (0 <= rows * (outer_stride + 1)) by nia; nia).
  destruct (accumulate_group_spec template out heq (Z.land (first a) (low_len - 1)) (take (Z.to_nat n) addresses))
    as (heq1 & Hg & Ha1); [done|by apply Forall_take| |lia|by rewrite Hlt|].
  { eapply Forall_impl; [|exact Hall]. intros x Hx%Z.eqb_eq. unfold address_low. by rewrite <-land_q. }
  rewrite Hg. cbn [obind].
  destruct (IH (out + asum address_value (take (Z.to_nat n) addresses))%M heq1 (drop (Z.to_nat n) addresses))
    as (heq' & Ho & Ha'); [done|by apply Forall_drop| |by rewrite Hld|].
  { rewrite length_drop. unfold addresses in *. cbn [length] in *. lia. }
  exists heq'. split; [|done]. rewrite Ho, <-madd_assoc, <-asum_app. unfold addresses. by rewrite take_drop.
Qed.

Lemma address_value_sum address base : starts_at address base -> 0 <= base ->
  rows = 1 \/ (ls = 0 /\ le = low_len) ->
  address_value address
  = asum (digit_sum_at base (scale address)) (seqZ (first_high * low_len + ls) (rows * (le - ls))).
Proof.
  intros Hs Hb Hshape. rewrite <-rows_interval by done. apply asum_ext. intros row Hr%elem_of_range.
  apply row_sum; [done..|lia].
Qed.
End group.

(** ** The rows of all bases *)

Context (base_offsets : list Z) (Hos : outer_stride + 1 < 2 ^ 64) (Hll : low_len < 2 ^ 64).

(** What the outer indices [a .. a + n] contribute. *)
Definition partial_sum (a n : Z) : A :=
  asum (fun t => asum (digit_sum_at t.2 (index base_scales t.1)) (seqZ a n)) (enumerate base_offsets).

Lemma partial_sum_app a m n : 0 <= m -> 0 <= n -> partial_sum a (m + n) = (partial_sum a m + partial_sum (a + m) n)%M.
Proof.
  intros Hm Hn. unfold partial_sum. rewrite <-asum_add. apply asum_ext. intros t _. by rewrite seqZ_app, asum_app.
Qed.

Section rows.
Context (first_high rows ls le : Z) (Hfh : 0 <= first_high) (Hrows : 0 < rows) (Hfit : first_high + rows <= len weights)
        (Hls : 0 <= ls < le) (Hle : le <= low_len) (Hbefore : outer_start <= first_high * low_len + ls)
        (Hshape : rows = 1 \/ (ls = 0 /\ le = low_len))
        (Hbases : Forall (fun base => 0 <= base /\ last_address first_high rows le base < 2 ^ 64) base_offsets)
        (Hend : (first_high + rows - 1) * low_len + le < 2 ^ 64)
        (Hwork : rows * len base_offsets * (outer_stride + 1) <= 2 ^ 28).

Let delta : Z := outer_stride * (first_high * low_len + ls - outer_start).

Definition address_of (t : Z * Z) : AffineAddress E := {| first := t.2 + delta; scale := index base_scales t.1 |}.

Lemma delta_range base : base ∈ base_offsets -> 0 <= delta /\ 0 <= base /\ base + delta < 2 ^ 64.
Proof.
  intros Hin. assert (Hb : 0 <= base /\ last_address first_high rows le base < 2 ^ 64).
  { rewrite Forall_forall in Hbases. by apply Hbases, list_elem_of_In. }
  unfold last_address in Hb. fold nd in Hb. pose proof os_pos. pose proof row_len_pos.
  assert (Hd : 0 <= delta) by (unfold delta; prod_nonneg). assert (0 <= digit_stride * (nd - 1)) by prod_nonneg.
  assert (Hmono : first_high * low_len + ls - outer_start <= (first_high + rows - 1) * low_len + le - 1 - outer_start).
  { assert (0 <= (rows - 1) * low_len) by prod_nonneg. lia. }
  pose proof (Z.mul_le_mono_nonneg_l _ _ outer_stride ltac:(lia) Hmono). unfold delta in Hd |- *. lia.
Qed.

Lemma elem_of_bases t : t ∈ enumerate base_offsets -> t.2 ∈ base_offsets.
Proof.
  destruct t as [i base]. intros Hin%elem_of_enumerate. cbn [snd]. apply list_elem_of_lookup.
  pose proof (index_Some_len _ _ _ Hin) as Hi. unfold index in Hin. rewrite (proj2 (Z.leb_le 0 i)) in Hin by lia. eauto.
Qed.

Lemma address_placed t : t ∈ enumerate base_offsets -> well_placed first_high rows ls le (address_of t).
Proof.
  intros Hin%elem_of_bases. exists t.2. rewrite Forall_forall in Hbases.
  pose proof (Hbases t.2 (proj1 (list_elem_of_In _ _) Hin)) as [Hb Hl]. by split; [|split].
Qed.

Lemma base_addresses_spec : base_addresses base_scales base_offsets delta = Ok (map address_of (enumerate base_offsets)).
Proof.
  unfold base_addresses. apply omapM_Forall2. rewrite <-(map_id (enumerate base_offsets)) at 1.
  apply Forall2_fmap. apply Forall_Forall2_diag. apply list.Forall_forall. intros [i base] Hin.
  pose proof (delta_range base (elem_of_bases _ Hin)) as (? & ? & ?). usize_ok. done.
Qed.

Lemma addresses_value l : l ≡ₚ map address_of (enumerate base_offsets) ->
  asum (address_value first_high rows ls le) l = partial_sum (first_high * low_len + ls) (rows * (le - ls)).
Proof.
  intros Hperm. rewrite (asum_perm _ _ _ Hperm), asum_map. apply asum_ext. intros t Hin.
  pose proof (delta_range t.2 (elem_of_bases _ Hin)) as (_ & Hb & _). by apply address_value_sum.
Qed.

Lemma placed_perm l : l ≡ₚ map address_of (enumerate base_offsets) ->
  Forall (well_placed first_high rows ls le) l /\ len l = len base_offsets.
Proof.
  intros Hperm. split.
  - rewrite Hperm. apply Forall_fmap, list.Forall_forall. intros t Hin. by apply address_placed.
  - unfold len. rewrite Hperm, length_map. unfold enumerate. rewrite length_zip_with, length_range. unfold len. lia.
Qed.

Lemma rows_table : exists table,
  (if len low_weights =? 0 then Ok None
   else if len lo <=? OFFSET_EQ_LOW_BITS_CAP
   then let* table := EqPolynomial.evals lo in Ok (Some table)
   else Ok None) = Ok table /\ table_of lo table.
Proof.
  destruct (len low_weights =? 0); [exists None; split; [done|by left]|].
  destruct (Z.leb_spec (len lo) OFFSET_EQ_LOW_BITS_CAP) as [Hc|]; [|exists None; split; [done|by left]].
  rewrite evals_granted by done. eexists. split; [done|]. by right.
Qed.

Lemma accumulate_rows_spec out : 0 < len base_offsets ->
  accumulate_affine_rows outer_stride digit_stride digit_weights high_weights low_weights base_scales
    out lo hi base_offsets outer_start first_high ls le rows
  = Ok (out + partial_sum (first_high * low_len + ls) (rows * (le - ls)))%M.
Proof.
  intros Hn. unfold accumulate_affine_rows. fold low_len. pose proof row_len_pos. pose proof os_pos.
  destruct (index_is_Some base_offsets 0 ltac:(lia)) as [base0 Hb0].
  assert (Hin0 : (0, base0) ∈ enumerate base_offsets) by by apply elem_of_enumerate.
  pose proof (delta_range base0 (elem_of_bases _ Hin0)) as (Hd & Hbn & Hfirst).
  assert (0 <= first_high * low_len) by prod_nonneg.
  assert (Hro : first_high * low_len + ls < 2 ^ 64).
  { assert (0 <= (rows - 1) * low_len) by prod_nonneg. lia. }
  usize_ok. fold delta. usize_ok.
  rewrite (weight_at high_weights weights Hsource) by lia. cbn [ok_or obind].
  destruct rows_table as (table & Ht & Htable). rewrite Ht. cbn [obind].
  destruct (Z.eqb_spec (len base_offsets) 1) as [Hone|Hmany].
  - rewrite Hb0. cbn [unwrap obind]. usize_ok.
    assert (Hperm : [address_of (0, base0)] ≡ₚ map address_of (enumerate base_offsets)).
    { destruct base_offsets as [|b [|b' rest]]; [done| |rewrite !len_cons in Hone; pose proof (len_nonneg rest); lia].
      rewrite index_head in Hb0. injection Hb0 as ->. done. }
    destruct (placed_perm _ Hperm) as [Hp Hl].
    destruct (accumulate_group_spec first_high rows ls le Hfh Hrows Hfit Hls Hle Hbefore table Htable Hos Hll
      (zero_like (high_weight weights first_high)) out (AmortizedOffsetEq.new hi) (Z.land (base0 + delta) (low_len - 1))
      [address_of (0, base0)] (amortized_new hi) Hp) as (heq' & Hg & _); [|done|by rewrite Hl|].
    { constructor; [|constructor]. unfold address_low. cbn [first address_of snd]. by rewrite land_q. }
    unfold address_of in Hg at 1. cbn [fst snd] in Hg. rewrite Hg. cbn [obind]. by rewrite (addresses_value _ Hperm).
  - rewrite base_addresses_spec. cbn [obind].
    set (key := fun address : AffineAddress E => Z.land (first address) (low_len - 1)).
    pose proof (sort_perm _ key (map address_of (enumerate base_offsets))) as Hperm.
    destruct (placed_perm _ Hperm) as [Hp Hl].
    destruct (group_loop_spec first_high rows ls le Hfh Hrows Hfit Hls Hle Hbefore table Htable Hos Hll
      (zero_like (high_weight weights first_high)) _ out (AmortizedOffsetEq.new hi) _ (amortized_new hi) Hp (le_n _))
      as (heq' & Hg & _); [by rewrite Hl|].
    rewrite Hg. cbn [obind]. by rewrite (addresses_value _ Hperm).
Qed.
End rows.

(** ** The cut of the window into rows *)

Section window.
Context (live_len : Z) (Hlive : 0 < live_len) (Hcap : outer_start + live_len <= len weights * low_len)
        (Hend : outer_start + live_len < 2 ^ 64) (Hbases0 : 0 < len base_offsets).

Definition prefix_of : Z :=
  if outer_start mod low_len =? 0 then 0 else Z.min live_len (low_len - outer_start mod low_len).
Definition full_of : Z := (live_len - prefix_of) / low_len.
Definition suffix_of : Z := live_len - prefix_of - full_of * low_len.

Definition row_count : Z := Z.b2z (negb (prefix_of =? 0)) + full_of + Z.b2z (negb (suffix_of =? 0)).

(** The work of the row kernels: the low summaries and the rows times carries. *)
Definition rows_work : Z :=
  (nd * (prefix_of + suffix_of + (if full_of =? 0 then 0 else low_len)) + row_count * (outer_stride + 1)) * len base_offsets.

Definition span_fits (base : Z) : Prop :=
  0 <= base /\ base + outer_stride * (live_len - 1) + digit_stride * (nd - 1) < 2 ^ 64.

Context (Hspans : Forall span_fits base_offsets) (Hwork : rows_work <= 2 ^ 28).

Lemma prefix_facts : 0 <= prefix_of <= live_len /\
  (prefix_of = live_len \/ (outer_start + prefix_of) mod low_len = 0) /\
  (prefix_of <> 0 -> outer_start mod low_len + prefix_of <= low_len).
Proof.
  pose proof row_len_pos as Hq. pose proof (Z.mod_pos_bound outer_start low_len Hq) as Hm. unfold prefix_of.
  destruct (Z.eqb_spec (outer_start mod low_len) 0) as [Hz|Hz].
  - split; [lia|]. split; [right; by rewrite Z.add_0_r|done].
  - split; [lia|]. split; [|lia]. destruct (decide (live_len <= low_len - outer_start mod low_len)); [left; lia|right].
    rewrite Z.min_r by lia. replace (outer_start + (low_len - outer_start mod low_len)) with ((outer_start / low_len + 1) * low_len).
    + by apply Z.mod_mul; lia.
    + pose proof (Z_div_mod_eq_full outer_start low_len). lia.
Qed.

Lemma cut_facts : 0 <= full_of /\ 0 <= suffix_of < low_len /\ 0 <= full_of * low_len /\
  prefix_of + full_of * low_len + suffix_of = live_len /\ (prefix_of = live_len -> full_of = 0).
Proof.
  pose proof row_len_pos as Hq. destruct prefix_facts as (Hp & _). unfold suffix_of, full_of.
  pose proof (Z_div_mod_eq_full (live_len - prefix_of) low_len) as Hd.
  pose proof (Z.mod_pos_bound (live_len - prefix_of) low_len Hq) as Hm.
  assert (0 <= (live_len - prefix_of) / low_len) by (apply Z.div_pos; lia).
  split; [done|]. split; [lia|]. split; [prod_nonneg|]. split; [lia|]. intros ->. rewrite Z.sub_diag. apply Z.div_0_l. lia.
Qed.

(** One call of the row kernel, for the outer indices [a .. a + n]. *)
Lemma part_spec out a n first_high ls le rows :
  0 <= first_high -> 0 < rows -> 0 <= ls < le -> le <= low_len -> rows = 1 \/ (ls = 0 /\ le = low_len) ->
  first_high * low_len + ls = a -> rows * (le - ls) = n -> outer_start <= a -> a + n <= outer_start + live_len ->
  rows <= row_count ->
  accumulate_affine_rows outer_stride digit_stride digit_weights high_weights low_weights base_scales
    out lo hi base_offsets outer_start first_high ls le rows
  = Ok (out + partial_sum a n)%M.
Proof.
  intros Hfh Hrows Hls Hle Hshape Ha Hn Hsa Hend' Hrc. pose proof row_len_pos as Hq. pose proof os_pos as Ho.
  assert (Hlast : (first_high + rows - 1) * low_len + le = a + n).
  { destruct Hshape as [-> | [-> ->]]; lia. }
  rewrite <-Ha, <-Hn. apply accumulate_rows_spec; try done.
  - assert ((first_high + rows - 1) * low_len < len weights * low_len) by lia.
    assert (first_high + rows - 1 < len weights) by (apply (Z.mul_lt_mono_pos_r low_len); lia). lia.
  - lia.
  - eapply Forall_impl; [|exact Hspans]. intros base [Hb Hs]. split; [done|]. unfold last_address. fold nd.
    assert (Hmono : (first_high + rows - 1) * low_len + le - 1 - outer_start <= live_len - 1) by lia.
    pose proof (Z.mul_le_mono_nonneg_l _ _ outer_stride ltac:(lia) Hmono). lia.
  - lia.
  - unfold rows_work in Hwork. destruct cut_facts as (Hf & Hsu & _). destruct prefix_facts as (Hp & _).
    assert (0 <= nd * (prefix_of + suffix_of + (if full_of =? 0 then 0 else low_len))).
    { destruct (full_of =? 0); prod_nonneg. }
    assert (Hm : rows * (outer_stride + 1) <= row_count * (outer_stride + 1)) by (apply Z.mul_le_mono_nonneg_r; lia).
    assert (rows * (outer_stride + 1) * len base_offsets
            <= (nd * (prefix_of + suffix_of + (if full_of =? 0 then 0 else low_len)) + row_count * (outer_stride + 1)) * len base_offsets)
      by (apply Z.mul_le_mono_nonneg_r; lia). lia.
Qed.

Lemma prefix_end_spec :
  (if checked.is_multiple_of outer_start low_len then Ok outer_start
   else
     let* boundary := ok_or (checked_add outer_start (low_len - outer_start mod low_len))
                        (InvalidInput "affine row boundary overflow") in
     Ok (Z.min (outer_start + live_len) boundary))
  = if outer_start + (low_len - outer_start mod low_len) <? 2 ^ 64 then Ok (outer_start + prefix_of)
    else if outer_start mod low_len =? 0 then Ok outer_start else Err (InvalidInput "affine row boundary overflow").
Proof.
  pose proof row_len_pos as Hq. pose proof (Z.mod_pos_bound outer_start low_len Hq) as Hm.
  unfold checked.is_multiple_of, prefix_of. rewrite (proj2 (Z.eqb_neq low_len 0)) by lia.
  destruct (Z.eqb_spec (outer_start mod low_len) 0) as [Hz|Hz].
  - rewrite Z.add_0_r. by destruct (_ <? _).
  - destruct (Z.ltb_spec (outer_start + (low_len - outer_start mod low_len)) (2 ^ 64)) as [Hlt|Hge].
    + usize_ok. f_equal. lia.
    + unfold checked_add, usize. rewrite (proj2 (checked_u_None _ _)); [done|]. unfold in_u, USIZE_BITS. lia.
Qed.

Lemma full_rows_spec (e := outer_start + live_len) (p := outer_start + prefix_of) :
  saturating_sub (Z.min (Z.max (e - e mod low_len) p) e) p / low_len = full_of.
Proof.
  pose proof row_len_pos as Hq. destruct prefix_facts as (Hp & Hal & _). unfold saturating_sub, full_of.
  pose proof (Z.mod_pos_bound e low_len Hq) as Hm. replace (live_len - prefix_of) with (e - p) by lia.
  destruct Hal as [Heq|Hz].
  - replace p with e by lia. rewrite Z.sub_diag.
    replace (Z.max (Z.min (Z.max (e - e mod low_len) e) e - e) 0) with 0 by lia. done.
  - fold p in Hz. pose proof (Z_div_mod_eq_full e low_len) as He. pose proof (Z_div_mod_eq_full p low_len) as Hpd.
    rewrite Hz in Hpd. assert (Hle : p <= e - e mod low_len).
    { assert (p / low_len <= e / low_len) by (apply Z.div_le_mono; lia).
      assert (low_len * (p / low_len) <= low_len * (e / low_len)) by (apply Z.mul_le_mono_nonneg_l; lia). lia. }
    replace (Z.max (Z.min (Z.max (e - e mod low_len) p) e - p) 0) with (e - e mod low_len - p) by lia.
    replace (e - p) with (e mod low_len + (e / low_len - p / low_len) * low_len) by lia.
    replace (e - e mod low_len - p) with ((e / low_len - p / low_len) * low_len) by lia.
    rewrite Z.div_add, Z.div_mul, (Z.div_small (e mod low_len)) by lia. lia.
Qed.

Lemma rows_work_parts : 0 <= prefix_of + suffix_of + (if full_of =? 0 then 0 else low_len) <= 2 ^ 28 /\ 0 <= row_count <= 2 ^ 28 /\
  0 <= nd * (prefix_of + suffix_of + (if full_of =? 0 then 0 else low_len)) <= 2 ^ 28 /\
  0 <= row_count * (outer_stride + 1) <= 2 ^ 28 /\
  nd * (prefix_of + suffix_of + (if full_of =? 0 then 0 else low_len)) + row_count * (outer_stride + 1) <= 2 ^ 28.
Proof.
  pose proof row_len_pos. pose proof os_pos. destruct cut_facts as (Hf & Hs & _). destruct prefix_facts as (Hp & _).
  assert (Hsl : 0 <= prefix_of + suffix_of + (if full_of =? 0 then 0 else low_len)) by (destruct (full_of =? 0); lia).
  assert (Hrc : 0 <= row_count) by (unfold row_count; destruct (prefix_of =? 0), (suffix_of =? 0); cbn; lia).
  assert (0 <= nd * (prefix_of + suffix_of + (if full_of =? 0 then 0 else low_len))) by prod_nonneg.
  assert (0 <= row_count * (outer_stride + 1)) by prod_nonneg.
  unfold rows_work in Hwork.
  set (w := nd * (prefix_of + suffix_of + (if full_of =? 0 then 0 else low_len)) + row_count * (outer_stride + 1)) in *.
  assert (w * 1 <= w * len base_offsets) by (apply Z.mul_le_mono_nonneg_l; lia).
  assert (Hs1 : 1 * (prefix_of + suffix_of + (if full_of =? 0 then 0 else low_len))
          <= nd * (prefix_of + suffix_of + (if full_of =? 0 then 0 else low_len))) by (apply Z.mul_le_mono_nonneg_r; lia).
  assert (row_count * 1 <= row_count * (outer_stride + 1)) by (apply Z.mul_le_mono_nonneg_l; lia). lia.
Qed.

Lemma prefix_call out :
  (if prefix_of =? 0 then Ok out
   else accumulate_affine_rows outer_stride digit_stride digit_weights high_weights low_weights base_scales
          out lo hi base_offsets outer_start (outer_start / low_len) (outer_start mod low_len)
          (outer_start mod low_len + prefix_of) 1)
  = Ok (out + partial_sum outer_start prefix_of)%M.
Proof.
  destruct (Z.eqb_spec prefix_of 0) as [->|Hnz].
  - unfold partial_sum. rewrite (asum_ext _ (fun _ => mzero)), asum_zero by done. by rewrite madd_0_r.
  - pose proof row_len_pos as Hq. destruct prefix_facts as (Hp & _ & Hle). specialize (Hle Hnz).
    pose proof (Z.mod_pos_bound outer_start low_len Hq). pose proof (Z_div_mod_eq_full outer_start low_len).
    apply part_spec; try first [lia|apply Z.div_pos; lia].
    unfold row_count. destruct (Z.eqb_spec prefix_of 0); [lia|]. destruct cut_facts as (Hf & _).
    destruct (suffix_of =? 0); cbn [negb Z.b2z]; lia.
Qed.

Lemma full_call out :
  (if full_of =? 0 then Ok out
   else accumulate_affine_rows outer_stride digit_stride digit_weights high_weights low_weights base_scales
          out lo hi base_offsets outer_start ((outer_start + prefix_of) / low_len) 0 low_len full_of)
  = Ok (out + partial_sum (outer_start + prefix_of) (full_of * low_len))%M.
Proof.
  destruct (Z.eqb_spec full_of 0) as [->|Hnz].
  - unfold partial_sum. rewrite (asum_ext _ (fun _ => mzero)), asum_zero by done. by rewrite madd_0_r.
  - pose proof row_len_pos as Hq. destruct prefix_facts as (Hp & Hal & _). destruct cut_facts as (Hf & Hs & Hfl & Hsum & Hpl).
    destruct Hal as [Heq|Hz]; [by apply Hpl in Heq|].
    pose proof (Z_div_mod_eq_full (outer_start + prefix_of) low_len) as Hd. rewrite Hz in Hd.
    apply part_spec; try first [lia|apply Z.div_pos; lia].
    unfold row_count. destruct (prefix_of =? 0), (suffix_of =? 0); cbn [negb Z.b2z]; lia.
Qed.

Lemma suffix_call out (cursor := outer_start + prefix_of + full_of * low_len) :
  (if suffix_of =? 0 then Ok out
   else accumulate_affine_rows outer_stride digit_stride digit_weights high_weights low_weights base_scales
          out lo hi base_offsets outer_start (cursor / low_len) 0 suffix_of 1)
  = Ok (out + partial_sum cursor suffix_of)%M.
Proof.
  destruct (Z.eqb_spec suffix_of 0) as [->|Hnz].
  - unfold partial_sum. rewrite (asum_ext _ (fun _ => mzero)), asum_zero by done. by rewrite madd_0_r.
  - pose proof row_len_pos as Hq. destruct prefix_facts as (Hp & Hal & _). destruct cut_facts as (Hf & Hs & Hfl & Hsum & Hpl).
    assert (Hz : cursor mod low_len = 0).
    { unfold cursor. rewrite Z.mod_add by lia. destruct Hal as [Heq|]; [|done]. specialize (Hpl Heq). lia. }
    pose proof (Z_div_mod_eq_full cursor low_len) as Hd. rewrite Hz in Hd.
    apply part_spec; try first [unfold cursor in *; lia|apply Z.div_pos; unfold cursor; lia].
    unfold row_count. destruct (Z.eqb_spec suffix_of 0); [lia|]. destruct (prefix_of =? 0); cbn [negb Z.b2z]; lia.
Qed.

Lemma eval_rows_spec template : len weights * low_len < 2 ^ 64 -> zero_like template = (mzero : A) ->
  eval_rows outer_stride digit_stride digit_weights high_weights low_weights base_scales template challenges base_offsets
    outer_start (outer_start + live_len) low_len (len lo) (outer_stride + 1)
  = Ok (partial_sum outer_start live_len).
Proof.
  intros Hroom Htm. pose proof row_len_pos as Hq. pose proof (Z.mod_pos_bound outer_start low_len Hq) as Hm.
  assert (Hnext : outer_start + (low_len - outer_start mod low_len) < 2 ^ 64).
  { pose proof (Z_div_mod_eq_full outer_start low_len) as Hd.
    assert (Hq1 : outer_start / low_len < len weights) by (apply Z.div_lt_upper_bound; lia).
    assert ((outer_start / low_len + 1) * low_len <= len weights * low_len) by (apply Z.mul_le_mono_nonneg_r; lia). lia. }
  unfold eval_rows. rewrite prefix_end_spec, (proj2 (Z.ltb_lt _ _)) by lia. cbn [obind]. cbv zeta.
  rewrite full_rows_spec. destruct prefix_facts as (Hp & _). destruct cut_facts as (Hf & Hs & Hfl & Hsum & _).
  replace (outer_start + prefix_of - outer_start) with prefix_of by lia. usize_ok.
  replace (outer_start + live_len - (outer_start + prefix_of + full_of * low_len)) with suffix_of by lia.
  destruct rows_work_parts as (Hsl & Hrc & Hw1 & Hw2 & Hw3). usize_ok.
  assert (Hb : forall b, 0 <= Z.b2z b <= 1) by (intros []; cbn; lia).
  pose proof (Hb (negb (prefix_of =? 0))). pose proof (Hb (negb (suffix_of =? 0))).
  unfold row_count in Hrc. usize_ok. fold row_count. fold nd. usize_ok.
  assert (0 <= rows_work) by (unfold rows_work; prod_nonneg). unfold rows_work in *. usize_ok.
  rewrite (proj2 (Z.ltb_ge MAX_COMPACT_STRIDE_TERMS _)) by done.
  unfold challenges. rewrite split_app. cbn [obind]. rewrite Htm.
  rewrite prefix_call. cbn [obind]. rewrite full_call. cbn [obind]. rewrite suffix_call, madd_0_l.
  rewrite <-partial_sum_app by lia.
  replace (outer_start + prefix_of + full_of * low_len) with (outer_start + (prefix_of + full_of * low_len)) by lia.
  rewrite <-partial_sum_app by lia. do 2 f_equal. lia.
Qed.
End window.

End exact.
