(* ===== verification/AffineAligned.v ===== *)
(** The bit-aligned kernel of the affine interval evaluator: with a
    power-of-two outer stride and no low factor the digits and the outer
    indices separate, and the product of the two contractions is the
    documented sum ([try_aligned_spec]). *)

From S2P Require Import Prelude Checked Field Serialization EqPoly OffsetWindow.
From S2P Require Import AffineIntervals AffineSums AffineLow AffineHigh AffineRows.
Local Open Scope Z_scope.


(** * The bit-aligned kernel *)

Section aligned.
Context {E A : Type} `{AffineWeightLaws E A, EqRuntime E, Allocator}.
Add Ring Ering2 : (field_ring (E := E)).
Context (outer_stride digit_stride : Z) (digit_weights : list E) (high_weights : AffineWeightSource A)
        (weights : list A) (base_scales : list E) (lo hi : list E) (outer_start live_len : Z).

Let nd : Z := len digit_weights.

Context (Hsource : source_of high_weights weights) (Hgranted : tables_granted (E := E))
        (Hstride : outer_stride = 2 ^ len lo) (Hds : 0 < digit_stride) (Hnd : 0 < nd)
        (Hspan : digit_stride * (nd - 1) < outer_stride) (Hstart : 0 <= outer_start) (Hlive : 0 < live_len)
        (Hcap : outer_start + live_len <= len weights) (Hwl : len weights < 2 ^ 64)
        (window : OffsetEqWindow E) (Hwindow : window_of hi window).

Lemma stride_positive : 0 < outer_stride.
Proof. rewrite Hstride. apply pow2_pos, len_nonneg. Qed.

(** The address stays in the address space. *)
Definition base_fits (base : Z) : Prop :=
  0 <= base /\ base + outer_stride * (live_len - 1) + digit_stride * (nd - 1) < 2 ^ 64.

Section base.
Context (base : Z) (Hbase : base_fits base).

Let bl : Z := base mod outer_stride.
Let bh : Z := base / outer_stride.

Lemma base_split : base = outer_stride * bh + bl /\ 0 <= bl < outer_stride /\ 0 <= bh.
Proof.
  pose proof stride_positive. destruct Hbase as [Hb _]. split; [apply Z_div_mod_eq_full|].
  split; [apply Z.mod_pos_bound; lia|apply Z.div_pos; lia].
Qed.

Definition aligned_term (t : Z * E) : Z * E :=
  let x := bl + digit_stride * t.1 in (x / outer_stride, (t.2 * eq_at lo (x mod outer_stride))%F).

Lemma aligned_offset d : 0 <= d < nd -> 0 <= digit_stride * d < 2 ^ 64 /\ 0 <= bl + digit_stride * d < 2 ^ 64 /\
  0 <= (bl + digit_stride * d) / outer_stride < 2.
Proof.
  intros Hd. pose proof stride_positive. destruct base_split as (Hb & Hbl & Hbh). destruct Hbase as [_ Hfit].
  assert (0 <= digit_stride * d) by prod_nonneg.
  assert (digit_stride * d <= digit_stride * (nd - 1)) by (apply Z.mul_le_mono_nonneg_l; lia).
  assert (0 <= outer_stride * (live_len - 1)) by prod_nonneg. assert (0 <= outer_stride * bh) by prod_nonneg.
  split; [lia|]. split; [lia|]. split; [apply Z.div_pos; lia|apply Z.div_lt_upper_bound; lia].
Qed.

(** A nonzero entry belongs to a carry that some digit has. *)
Definition inhabited (terms : list (Z * E)) (s : list E) : Prop :=
  forall k v, index s k = Some v -> v <> 0%F -> exists t, t ∈ terms /\ t.1 = k.

Definition digit_table (terms : list (Z * E)) (s : list E) : Prop :=
  holds (M := E) (N := A) 2 terms s /\ inhabited terms s.

Lemma inhabited_insert terms s k v x : index s k = Some x -> inhabited terms s ->
  inhabited (terms ++ [(k, v)]) (<[Z.to_nat k := (x + v)%F]> s).
Proof.
  intros Hx Hi j y Hy Hne. pose proof (index_Some_len _ _ _ Hx) as Hk. pose proof (index_Some_len _ _ _ Hy) as Hj.
  destruct (decide (j = k)) as [->|Hjk].
  - exists (k, v). split; [apply elem_of_app; right; by left|done].
  - destruct (Hi j y) as (t & Ht & <-); [|done|exists t; split; [apply elem_of_app; by left|done]].
    unfold index in Hy |- *. rewrite (proj2 (Z.leb_le 0 j)) in Hy |- * by lia.
    by rewrite list_lookup_insert_ne in Hy by lia.
Qed.

Lemma aligned_digit_spec s terms d w : index digit_weights d = Some w -> digit_table terms s ->
  exists s', aligned_digit outer_stride digit_stride lo bl s (d, w) = Ok s' /\
             digit_table (terms ++ [aligned_term (d, w)]) s'.
Proof.
  intros Hw [Hs Hi]. pose proof (index_Some_len _ _ _ Hw) as Hd. fold nd in Hd.
  destruct (aligned_offset d Hd) as (Ho & Hx & Hc). unfold aligned_digit. cbv beta iota.
  assert (Hcomm : d * digit_stride = digit_stride * d) by lia. usize_ok. rewrite Hcomm. usize_ok.
  rewrite Hstride, land_low, <-Hstride by apply len_nonneg.
  destruct (index_is_Some s ((bl + digit_stride * d) / outer_stride)) as [v Hv]; [by rewrite (proj1 Hs)|].
  pose proof stride_positive as Hp. pose proof (Z.mod_pos_bound (bl + digit_stride * d) outer_stride Hp) as Hm.
  assert ((bl + digit_stride * d) mod outer_stride <= bl + digit_stride * d) by (apply Z.mod_le; lia).
  rewrite (update_at_Ok _ _ _ _ v) by done. eexists. split; [done|].
  rewrite eq_eval_spec by lia. unfold eq_index. rewrite (proj2 (Z.ltb_lt _ _)) by lia.
  split; [exact (holds_insert (M := E) (N := A) 2 terms s _ v _ Hs Hv)|by apply inhabited_insert].
Qed.

Lemma aligned_digits : exists s,
  ofold (aligned_digit outer_stride digit_stride lo bl) (enumerate digit_weights) [fzero; fzero] = Ok s /\
  digit_table (map aligned_term (enumerate digit_weights)) s.
Proof.
  rewrite <-flat_map_single. apply (ofold_terms digit_table _ (fun t => [aligned_term t]) _ []).
  - split; [pose proof (holds_zeros (M := E) (N := A) 2 ltac:(lia)) as Hz; exact Hz|]. intros k v Hv Hne. exfalso. apply Hne.
    pose proof (index_Some_len _ _ _ Hv) as Hk. change (len [fzero : E; fzero]) with 2 in Hk.
    assert (k = 0 \/ k = 1) as [-> | ->] by lia; by injection Hv as <-.
  - intros terms s [d w] Hin%elem_of_enumerate Hs. by apply aligned_digit_spec.
Qed.

(** The outer contraction of one carry class. *)
Definition outer_sum (k : Z) : A :=
  asum (fun outer => aw_scale (high_weight weights outer) (eq_index hi (bh + k + (outer - outer_start))))
    (seqZ outer_start live_len).

Lemma aligned_outer_spec d : 0 <= d < nd -> let k := (bl + digit_stride * d) / outer_stride in
  ofold (aligned_outer high_weights window bh k outer_start) (seqZ outer_start live_len) (mzero : A) = Ok (outer_sum k).
Proof.
  intros Hd k. rewrite (ofold_asum _ (fun outer => aw_scale (high_weight weights outer) (eq_index hi (bh + k + (outer - outer_start))))).
  - by rewrite madd_0_l.
  - intros acc outer Hin%elem_of_seqZ. unfold aligned_outer. destruct base_split as (Hb & Hbl & Hbh).
    destruct Hbase as [_ Hfit]. pose proof stride_positive. destruct (aligned_offset d Hd) as (Ho & Hx & Hc). fold k in Hc.
    assert (Hhigh : bh + k + (outer - outer_start) < 2 ^ 64).
    { apply Z.le_lt_trans with (bh + k + (live_len - 1)); [lia|].
      apply Z.le_lt_trans with ((base + outer_stride * (live_len - 1) + digit_stride * d) / outer_stride).
      - replace (base + outer_stride * (live_len - 1) + digit_stride * d)
          with (bl + digit_stride * d + (bh + (live_len - 1)) * outer_stride) by lia.
        rewrite Z.div_add by lia. fold k. lia.
      - assert (digit_stride * d <= digit_stride * (nd - 1)) by (apply Z.mul_le_mono_nonneg_l; lia).
        apply Z.div_lt_upper_bound; lia. }
    usize_ok. rewrite (window_eval_spec hi) by (done || lia).
    destruct (is_zero _) eqn:Hz.
    + apply is_zero_spec in Hz. by rewrite Hz, scale_0, madd_0_r.
    + rewrite (weight_at high_weights weights Hsource) by lia. cbn [ok_or obind]. by rewrite add_scaled_spec.
Qed.

Context (base_index : Z).

Definition carry_part (k : Z) (e : E) : A := aw_scale (outer_sum k) (scaled_by (index base_scales base_index) e).

Lemma carry_reading : reading (M := E) (N := A) carry_part.
Proof.
  intros k. unfold carry_part. split.
  - change (@mzero E _) with (fzero : E). by rewrite scaled_by_zero, scale_0.
  - intros x y. rewrite <-scale_add_r. f_equal. change (@madd E _) with (fadd (E := E)).
    destruct (index base_scales base_index) as [s|]; cbn [scaled_by]; ring.
Qed.

Lemma aligned_carry_spec out s k e : digit_table (map aligned_term (enumerate digit_weights)) s -> index s k = Some e ->
  aligned_carry high_weights base_scales window (mzero : A) base_index bh outer_start live_len out (k, e)
  = Ok (out + carry_part k e)%M.
Proof.
  intros [_ Hi] He. unfold aligned_carry. fold (scaled_by (index base_scales base_index) e).
  destruct (is_zero _) eqn:Hz.
  - apply is_zero_spec in Hz. unfold carry_part. by rewrite Hz, scale_0, madd_0_r.
  - destruct (Hi k e He) as (t & Ht & Hk).
    { intros ->. rewrite scaled_by_zero in Hz. by rewrite (proj2 (is_zero_spec 0%F) eq_refl) in Hz. }
    apply list_elem_of_fmap in Ht as ([d w] & -> & Hin). apply elem_of_enumerate, index_Some_len in Hin. fold nd in Hin.
    cbn [aligned_term fst] in Hk. rewrite <-Hk, zero_like_spec, (aligned_outer_spec d) by done.
    cbn [obind]. by rewrite add_scaled_spec.
Qed.

Lemma digits_value :
  asum (fun '(k, e) => carry_part k e) (map aligned_term (enumerate digit_weights))
  = asum (digit_sum (lo ++ hi) outer_stride digit_stride digit_weights weights [] outer_start base (index base_scales base_index))
      (seqZ outer_start live_len).
Proof.
  rewrite asum_map. unfold digit_sum. rewrite asum_swap. apply asum_ext. intros [d w] Hin%elem_of_enumerate%index_Some_len.
  fold nd in Hin. cbn [aligned_term fst snd]. unfold carry_part, outer_sum.
  rewrite (additive_asum _ _ _ (additive_scale _)). apply asum_ext. intros i Hi%elem_of_seqZ.
  destruct base_split as (Hb & Hbl & Hbh). pose proof stride_positive as Hp.
  destruct (aligned_offset d Hin) as (Ho & Hx & Hc).
  rewrite <-scale_mul. unfold outer_weight. change (Z.max (len []) 1) with 1. rewrite Z.div_1_r. unfold low_factor. rewrite multiply_one. f_equal.
  replace (base + outer_stride * (i - outer_start) + digit_stride * d)
    with (bl + digit_stride * d + (bh + (i - outer_start)) * outer_stride) by lia.
  assert (0 <= (bh + (i - outer_start)) * outer_stride) by prod_nonneg.
  rewrite eq_index_app, <-Hstride, Z.div_add, Z.mod_add by lia.
  replace (bh + (bl + digit_stride * d) / outer_stride + (i - outer_start))
    with ((bl + digit_stride * d) / outer_stride + (bh + (i - outer_start))) by lia.
  destruct (index base_scales base_index) as [s|]; cbn [scaled_by]; ring.
Qed.

Lemma aligned_base_spec out :
  aligned_base outer_stride digit_stride digit_weights high_weights base_scales lo window (mzero : A)
    outer_start live_len out (base_index, base)
  = Ok (out + asum (digit_sum (lo ++ hi) outer_stride digit_stride digit_weights weights [] outer_start base
                      (index base_scales base_index)) (seqZ outer_start live_len))%M.
Proof.
  assert (Hlow : Z.land base (outer_stride - 1) = bl).
  { unfold bl. rewrite Hstride. apply land_low, len_nonneg. }
  assert (Hhigh : Z.shiftr base (Z.log2 outer_stride) = bh).
  { unfold bh. rewrite Hstride, Z.log2_pow2, Z.shiftr_div_pow2 by apply len_nonneg. done. }
  unfold aligned_base. rewrite Hlow, Hhigh.
  destruct aligned_digits as (s & Hs & Ht). rewrite Hs. cbn [obind].
  rewrite (ofold_asum _ (fun '(k, e) => carry_part k e)).
  - rewrite asum_enumerate, (proj2 (proj1 Ht)) by apply carry_reading. by rewrite digits_value.
  - intros acc [k e] Hin%elem_of_enumerate. by eapply aligned_carry_spec.
Qed.
End base.

Lemma try_aligned_spec base_offsets : Forall base_fits base_offsets ->
  len base_offsets * (live_len * 2 + nd) <= 2 ^ 28 -> 0 < len base_offsets -> OffsetEqWindow.new hi = Ok window ->
  try_eval_bit_aligned_digit_intervals outer_stride digit_stride digit_weights high_weights [] base_scales
    (lo ++ hi) base_offsets outer_start live_len
  = Ok (Some (affine_reference (lo ++ hi) base_offsets outer_start live_len outer_stride digit_stride digit_weights
                weights [] base_scales)).
Proof.
  intros Hfit Hwork Hn Hnew. unfold try_eval_bit_aligned_digit_intervals. cbn [negb orb]. fold nd.
  assert (Hpow : checked.is_power_of_two outer_stride = true).
  { unfold checked.is_power_of_two. pose proof stride_positive. rewrite (proj2 (Z.ltb_lt 0 outer_stride)) by done.
    rewrite Hstride, Z.log2_pow2 by apply len_nonneg. apply Z.eqb_refl. }
  rewrite Hpow. cbn [len length negb orb Z.of_nat Z.eqb].
  assert (Hlog : Z.log2 outer_stride = len lo) by (rewrite Hstride; apply Z.log2_pow2, len_nonneg).
  rewrite Hlog, len_app, (proj2 (Z.ltb_ge _ _)) by (pose proof (len_nonneg hi); lia).
  assert (Hrows : 1 * (live_len * 2 + nd) <= len base_offsets * (live_len * 2 + nd)) by (apply Z.mul_le_mono_nonneg_r; lia).
  usize_ok. rewrite (proj2 (Z.ltb_ge MAX_COMPACT_STRIDE_TERMS _)) by done.
  rewrite split_app. cbn [obind]. rewrite Hnew. cbn [obind].
  rewrite (weight_at high_weights weights Hsource) by lia. cbn [ok_or obind]. usize_ok. rewrite !zero_like_spec.
  unfold affine_reference. rewrite (ofold_asum _ (fun t => asum (digit_sum (lo ++ hi) outer_stride digit_stride digit_weights
    weights [] outer_start t.2 (index base_scales t.1)) (seqZ outer_start live_len))).
  - cbn [obind]. by rewrite madd_0_l.
  - intros acc [i base] Hin%elem_of_enumerate. apply aligned_base_spec.
    rewrite Forall_forall in Hfit. apply Hfit, list_elem_of_In.
    pose proof (index_Some_len _ _ _ Hin). unfold index in Hin. rewrite (proj2 (Z.leb_le 0 i)) in Hin by lia.
    apply list_elem_of_lookup. eauto.
Qed.
End aligned.
