(* ===== verification/AffineExact.v ===== *)
(** Exactness of the affine interval evaluator: on every input it returns the
    documented sum when the documented conditions hold, whichever kernel it
    selects, and an error otherwise. *)

From S2P Require Import Prelude Checked Field Serialization EqPoly OffsetWindow.
From S2P Require Import AffineIntervals AffineSums AffineLow AffineHigh AffineRows AffineAligned.
Local Open Scope Z_scope.

(** * The evaluator *)

Section evaluator.
Context {E A : Type} `{AffineWeightLaws E A, EqRuntime E, Allocator, FoldSchedule, UnstableSort}.
Context (outer_stride digit_stride : Z) (digit_weights : list E) (high_weights : AffineWeightSource A)
        (weights low_weights : list A) (base_scales challenges : list E) (base_offsets : list Z)
        (outer_start live_len : Z).

Let low_len : Z := Z.max (len low_weights) 1.
Let nd : Z := len digit_weights.
Let nb : Z := len base_offsets.

(** The bit-aligned kernel applies. *)
Definition bit_aligned : bool :=
  (len low_weights =? 0) && (checked.is_power_of_two outer_stride && (Z.log2 outer_stride <=? len challenges)).

(** The work that the documented cap bounds. *)
Definition affine_work : Z :=
  if bit_aligned then nb * (live_len * 2 + nd)
  else rows_work outer_stride digit_weights low_weights outer_start base_offsets live_len.

Definition base_admitted (base : Z) : bool :=
  let top := base + (outer_stride * (live_len - 1) + digit_stride * (nd - 1)) in
  (top <? 2 ^ 64) && (top <? 2 ^ len challenges).

(** The conditions of the documentation, in the order of the code. *)
Definition affine_admissible : bool :=
  negb ((len weights =? 0) && (len low_weights =? 0)) &&
  ((live_len =? 0) || (nb =? 0) ||
   (((len base_scales =? 0) || (len base_scales =? nb)) &&
    ((0 <? nd) && (checked.is_power_of_two low_len && ((0 <? digit_stride) && (digit_stride * (nd - 1) <? outer_stride))) &&
     ((Z.log2 low_len <=? len challenges) &&
      ((outer_start + live_len <? 2 ^ 64) &&
       ((len weights * low_len <? 2 ^ 64) &&
        ((outer_start + live_len <=? len weights * low_len) &&
         ((outer_stride + 1 <? 2 ^ 64) &&
          (forallb base_admitted base_offsets && (affine_work <=? 2 ^ 28))))))))))%bool.

Context (Hsource : source_of high_weights weights) (Hgranted : tables_granted (E := E))
        (Htyped : Forall (in_u USIZE_BITS) (outer_stride :: digit_stride :: outer_start :: live_len :: base_offsets))
        (Hlow : len low_weights <= 2 ^ 32).

(** ** The work check *)

Let value : A := affine_reference challenges base_offsets outer_start live_len outer_stride digit_stride digit_weights
                   weights low_weights base_scales.

Section admitted.
Context (Hlive : 0 < live_len) (Hnb : 0 < nb) (Hnd : 0 < nd) (Hq : checked.is_power_of_two low_len = true)
        (Hds : 0 < digit_stride) (Hspan : digit_stride * (nd - 1) < outer_stride)
        (Hbits : Z.log2 low_len <= len challenges) (Hend : outer_start + live_len < 2 ^ 64)
        (Hroom : len weights * low_len < 2 ^ 64) (Hcap : outer_start + live_len <= len weights * low_len)
        (Hos : outer_stride + 1 < 2 ^ 64) (Hbases : Forall (fun b => base_admitted b = true) base_offsets).

Lemma typed_start : 0 <= outer_start.
Proof. inversion Htyped as [|?? _ H2']. inversion H2' as [|?? _ H3']. by inversion H3' as [|?? [??] _]. Qed.

Lemma spans_fit : Forall (span_fits outer_stride digit_stride digit_weights live_len) base_offsets.
Proof.
  inversion Htyped as [|?? _ H2']. inversion H2' as [|?? _ H3']. inversion H3' as [|?? _ H4']. inversion H4' as [|?? _ H5'].
  apply list.Forall_forall. intros base Hin. rewrite list.Forall_forall in H5', Hbases. destruct (H5' base Hin) as [Hb _].
  specialize (Hbases base Hin). unfold base_admitted in Hbases. bool_prop. split; [done|]. fold nd. lia.
Qed.

Lemma weights_room : len weights < 2 ^ 64.
Proof. assert (len weights * 1 <= len weights * low_len) by (apply Z.mul_le_mono_nonneg_l; [apply len_nonneg|lia]). lia. Qed.

Lemma split_challenges k : 0 <= k <= len challenges ->
  exists lo hi, challenges = lo ++ hi /\ len lo = k.
Proof.
  intros Hk. exists (take (Z.to_nat k) challenges), (drop (Z.to_nat k) challenges).
  split; [by rewrite take_drop|by apply len_take_Z].
Qed.

Lemma not_aligned : bit_aligned = false ->
  try_eval_bit_aligned_digit_intervals outer_stride digit_stride digit_weights high_weights low_weights base_scales
    challenges base_offsets outer_start live_len = Ok None.
Proof.
  unfold bit_aligned, try_eval_bit_aligned_digit_intervals. destruct (len low_weights =? 0); [|done].
  destruct (checked.is_power_of_two outer_stride); cbn [negb orb andb]; [|done].
  intros Hb%Z.leb_gt. by rewrite (proj2 (Z.ltb_lt _ _) Hb).
Qed.

Lemma aligned_verdict : bit_aligned = true ->
  verdict (nb * (live_len * 2 + nd) <=? 2 ^ 28) (Some value)
    (try_eval_bit_aligned_digit_intervals outer_stride digit_stride digit_weights high_weights low_weights base_scales
       challenges base_offsets outer_start live_len).
Proof.
  unfold bit_aligned. intros (Hl%Z.eqb_eq & (Hp & Hb%Z.leb_le)%andb_true_iff)%andb_true_iff.
  pose proof (Z.log2_nonneg outer_stride) as Hlog. destruct (split_challenges (Z.log2 outer_stride) ltac:(lia)) as (lo & hi & Hch & Hlo).
  assert (Hnil : low_weights = []) by (destruct low_weights; [done|]; rewrite len_cons in Hl; pose proof (len_nonneg l); lia).
  destruct (with_low_bits_granted hi OFFSET_EQ_LOW_BITS_CAP ltac:(done) Hgranted) as (w & Hw & Hwo).
  destruct (Z.leb_spec (nb * (live_len * 2 + nd)) (2 ^ 28)) as [Hwork|Hwork]; cbn [verdict].
  - unfold value. rewrite Hch, Hnil. apply (try_aligned_spec _ _ _ _ _ _ _ _ _ _ Hsource) with (window := w); try done.
    + unfold checked.is_power_of_two in Hp. bool_prop. congruence.
    + apply typed_start.
    + unfold low_len in Hcap. rewrite Hnil in Hcap. change (Z.max (len []) 1) with 1 in Hcap. lia.
    + apply weights_room.
    + apply spans_fit.
  - unfold try_eval_bit_aligned_digit_intervals. rewrite Hnil, Hp. cbn [len length negb orb Z.of_nat Z.eqb].
    rewrite (proj2 (Z.ltb_ge _ _)) by lia. past_checked. subst. fold nb nd.
    rewrite (proj2 (Z.ltb_lt MAX_COMPACT_STRIDE_TERMS _)); [by eexists|]. done.
Qed.

Lemma rows_small (lo : list E) : low_len = 2 ^ len lo ->
  rows_work outer_stride digit_weights low_weights outer_start base_offsets live_len <= 2 ^ 28 ->
  outer_stride * low_len < 2 ^ 64.
Proof.
  intros Hlo Hwork. unfold low_len in Hlo.
  destruct (cut_facts digit_weights low_weights lo outer_start Hlo live_len Hlive) as (Hf & Hs & _ & Hsum & _).
  destruct (prefix_facts digit_weights low_weights lo outer_start Hlo live_len Hlive) as (Hp & _).
  unfold rows_work in Hwork. cbv zeta in Hwork. fold low_len in Hwork, Hs, Hsum. fold nd nb in Hwork.
  assert (Hrc : 1 <= row_count low_weights outer_start live_len).
  { unfold row_count. destruct (Z.eqb_spec (prefix_of low_weights outer_start live_len) 0) as [Hp0|],
      (Z.eqb_spec (suffix_of low_weights outer_start live_len) 0) as [Hs0|]; cbn [negb Z.b2z]; lia. }
  set (low_part := nd * _) in Hwork.
  assert (Hpart : 0 <= low_part).
  { subst low_part. destruct (full_of low_weights outer_start live_len =? 0); unfold low_len; prod_nonneg. }
  assert (Hstride : 0 <= outer_stride + 1) by (inversion Htyped as [|?? [??] _]; lia).
  assert (1 * (outer_stride + 1) <= row_count low_weights outer_start live_len * (outer_stride + 1))
    by (apply Z.mul_le_mono_nonneg_r; lia).
  assert ((outer_stride + 1) * 1 <= (low_part + row_count low_weights outer_start live_len * (outer_stride + 1)) * nb)
    by (apply Z.mul_le_mono_nonneg; lia).
  assert (outer_stride * low_len <= 2 ^ 28 * 2 ^ 32); [|lia].
  apply Z.le_trans with (2 ^ 28 * low_len); [apply Z.mul_le_mono_nonneg_r|apply Z.mul_le_mono_nonneg_l]; unfold low_len; lia.
Qed.

Lemma boundary_room : outer_start + (low_len - outer_start mod low_len) < 2 ^ 64.
Proof.
  assert (Hqp : 0 < low_len) by (unfold low_len; lia). pose proof (Z.mod_pos_bound outer_start low_len Hqp).
  pose proof (Z_div_mod_eq_full outer_start low_len) as Hd.
  assert (Hq1 : outer_start / low_len < len weights) by (apply Z.div_lt_upper_bound; lia).
  assert ((outer_start / low_len + 1) * low_len <= len weights * low_len) by (apply Z.mul_le_mono_nonneg_r; lia). lia.
Qed.

Lemma rows_verdict template : zero_like template = (mzero : A) ->
  verdict (rows_work outer_stride digit_weights low_weights outer_start base_offsets live_len <=? 2 ^ 28) value
    (eval_rows outer_stride digit_stride digit_weights high_weights low_weights base_scales template challenges base_offsets
       outer_start (outer_start + live_len) low_len (Z.log2 low_len) (outer_stride + 1)).
Proof.
  intros Htm. pose proof (Z.log2_nonneg low_len) as Hlog.
  destruct (split_challenges (Z.log2 low_len) ltac:(lia)) as (lo & hi & Hch & Hlo).
  assert (Hq2 : low_len = 2 ^ len lo) by (unfold checked.is_power_of_two in Hq; bool_prop; congruence).
  assert (low_len < 2 ^ 64) by (unfold low_len; lia).
  destruct (Z.leb_spec (rows_work outer_stride digit_weights low_weights outer_start base_offsets live_len) (2 ^ 28))
    as [Hwork|Hwork]; cbn [verdict].
  - unfold value. rewrite Hch, <-Hlo. pose proof (rows_small lo Hq2 Hwork).
    apply (eval_rows_spec _ _ _ _ _ _ _ _ _ _ Hsource Hgranted Hq2); try done;
      first [apply typed_start|apply weights_room|apply spans_fit].
  - unfold eval_rows. pose proof boundary_room as Hb. rewrite (prefix_end_spec digit_weights low_weights lo) by (done || apply typed_start).
    fold low_len. rewrite (proj2 (Z.ltb_lt _ _) Hb). cbn [obind]. cbv zeta.
    unfold low_len. rewrite (full_rows_spec digit_weights low_weights lo) by done. fold low_len.
    past_checked. subst. fold nd nb.
    rewrite (proj2 (Z.ltb_lt MAX_COMPACT_STRIDE_TERMS _)); [by eexists|].
    eapply Z.lt_le_trans; [exact Hwork|]. unfold rows_work. cbv zeta. apply Z.eq_le_incl. fold low_len nd nb.
    unfold row_count.
    replace (outer_start + prefix_of low_weights outer_start live_len - outer_start) with (prefix_of low_weights outer_start live_len) by lia.
    unfold suffix_of. fold low_len. set (p := prefix_of _ _ _).
    replace (outer_start + live_len - (outer_start + p + full_of low_weights outer_start live_len * low_len))
      with (live_len - p - full_of low_weights outer_start live_len * low_len) by lia.
    done.
Qed.

Lemma work_verdict template : zero_like template = (mzero : A) ->
  verdict (affine_work <=? 2 ^ 28) value
    (let* aligned := try_eval_bit_aligned_digit_intervals outer_stride digit_stride digit_weights high_weights low_weights
                       base_scales challenges base_offsets outer_start live_len in
     match aligned with
     | Some value => Ok value
     | None => eval_rows outer_stride digit_stride digit_weights high_weights low_weights base_scales template challenges
                 base_offsets outer_start (outer_start + live_len) low_len (Z.log2 low_len) (outer_stride + 1)
     end).
Proof.
  intros Htm. unfold affine_work. destruct bit_aligned eqn:Hal.
  - pose proof (aligned_verdict Hal) as Hv. destruct (_ <=? _); cbn [verdict] in *; [by rewrite Hv|].
    destruct Hv as [e He]. rewrite He. by exists e.
  - rewrite not_aligned by done. by apply rows_verdict.
Qed.
End admitted.

(** ** The checks before the work check *)

Lemma base_check span base : in_u USIZE_BITS base -> 0 <= span ->
  verdict ((base + span <? 2 ^ 64) && (base + span <? 2 ^ len challenges)) tt
    (check_base_address challenges span tt base).
Proof.
  intros [Hb _] Hs. unfold check_base_address, checked_add.
  destruct (Z.ltb_spec (base + span) (2 ^ 64)) as [Hlt|Hge]; cbn [andb].
  - unfold usize. rewrite checked_u_in by (unfold in_u, USIZE_BITS; lia). cbn [ok_or obind]. rewrite Z.shiftl_1_l. unfold USIZE_BITS.
    destruct (Z.ltb_spec (base + span) (2 ^ len challenges)) as [Hl|Hl], (Z.ltb_spec (len challenges) 64) as [Hc|Hc];
      cbn [andb verdict]; try done.
    + by rewrite (proj2 (Z.leb_gt _ _)) by done.
    + rewrite (proj2 (Z.leb_le _ _)) by done. by eexists.
    + exfalso. assert (2 ^ 64 <= 2 ^ len challenges) by (apply Z.pow_le_mono_r; lia). lia.
  - unfold usize. rewrite (proj2 (checked_u_None _ _)); [by eexists|]. unfold in_u, USIZE_BITS. lia.
Qed.

Lemma bases_check span bases : Forall (in_u USIZE_BITS) bases -> 0 <= span ->
  verdict (forallb (fun base => (base + span <? 2 ^ 64) && (base + span <? 2 ^ len challenges)) bases) tt
    (ofold (check_base_address challenges span) bases tt).
Proof.
  intros Hb Hs. induction Hb as [|base bases Hbase _ IH]; [done|]. cbn [forallb ofold].
  apply verdict_check with (k := ofold (check_base_address challenges span) bases tt); [| |done];
    intros Hc; pose proof (base_check span base Hbase Hs) as Hv; rewrite Hc in Hv; cbn [verdict] in Hv.
  - by rewrite Hv.
  - destruct Hv as [e ->]. by exists e.
Qed.

Lemma bases_verdict {T} b (v : T) (k : result T) : 0 < live_len -> 0 < nb -> 0 < nd -> 0 < digit_stride ->
  digit_stride * (nd - 1) < outer_stride ->
  (Forall (fun base => base_admitted base = true) base_offsets -> verdict b v k) ->
  verdict (forallb base_admitted base_offsets && b) v
    (let* address_span := ok_or (delta ← checked_mul outer_stride (live_len - 1); checked_add delta ((nd - 1) * digit_stride))
                            (InvalidInput "affine address overflow") in
     let* _ := ofold (check_base_address challenges address_span) base_offsets tt in k).
Proof.
  intros Hlive Hnb Hnd Hds Hspan Hk. set (span := outer_stride * (live_len - 1) + digit_stride * (nd - 1)).
  inversion Htyped as [|?? [Ho1 Ho2] H2']. inversion H2' as [|?? _ H3']. inversion H3' as [|?? _ H4'].
  inversion H4' as [|?? _ Htb]. subst.
  assert (0 <= digit_stride * (nd - 1)) by prod_nonneg. assert (0 <= outer_stride * (live_len - 1)) by prod_nonneg.
  assert (0 <= span) by lia. assert (Hcomm : (nd - 1) * digit_stride = digit_stride * (nd - 1)) by lia. rewrite Hcomm.
  pose proof (bases_check span base_offsets Htb ltac:(done)) as Hv.
  change (forallb _ base_offsets) with (forallb base_admitted base_offsets) in Hv.
  apply verdict_check with (k := k).
  - intros Hc. rewrite Hc in Hv. cbn [verdict] in Hv. destruct (index_is_Some base_offsets 0 ltac:(unfold nb in Hnb; lia)) as [b0 Hb0].
    assert (span < 2 ^ 64).
    { destruct base_offsets as [|b1 l]; [done|]. inversion Htb as [|?? [Hb1 _] _]. cbn [forallb] in Hc. unfold base_admitted in Hc.
      bool_prop. unfold span. lia. }
    unfold span in *. usize_ok. by rewrite Hv.
  - intros Hc. rewrite Hc in Hv. destruct Hv as [e He]. past_checked. subst. fold span. rewrite He. by exists e.
  - intros Hc. apply Hk. apply List.Forall_forall. by apply forallb_forall.
Qed.

Lemma template_spec : (len weights =? 0) && (len low_weights =? 0) = false ->
  exists template, match with_weight high_weights 0, low_weights with
                   | Some weight, _ => Ok (zero_like weight)
                   | None, weight :: _ => Ok (zero_like weight)
                   | None, [] => Err (InvalidInput "affine factors must be non-empty")
                   end = Ok template /\ template = (mzero : A).
Proof.
  intros Hne. rewrite (so_weight _ _ Hsource) by done. destruct weights as [|w ws], low_weights as [|l ls]; try done;
    rewrite ?index_head; eexists; (split; [done|apply zero_like_spec]).
Qed.

Lemma no_terms : live_len = 0 \/ nb = 0 -> value = mzero.
Proof.
  intros [Hz | Hz]; unfold value, affine_reference.
  - rewrite Hz, (asum_ext _ (fun _ => mzero)), asum_zero by done. done.
  - destruct base_offsets as [|b l]; [done|]. unfold nb in Hz. rewrite len_cons in Hz. pose proof (len_nonneg l). lia.
Qed.

Lemma geometry_verdict {T} (v : T) b (r : Z -> result T) :
  ((0 <? nd) && (checked.is_power_of_two low_len && ((0 <? digit_stride) && (digit_stride * (nd - 1) <? outer_stride))) = true ->
   verdict b v (r ((nd - 1) * digit_stride))) ->
  verdict ((0 <? nd) && (checked.is_power_of_two low_len && ((0 <? digit_stride) && (digit_stride * (nd - 1) <? outer_stride))) && b) v
    (let* digit_span := ok_or (count ← checked_sub nd 1; checked_mul count digit_stride) (InvalidInput "affine digit span overflow") in
     if negb (checked.is_power_of_two low_len) || (nd =? 0) || (digit_stride =? 0) || (outer_stride <=? digit_span)
     then Err (InvalidInput "affine digit geometry requires power-of-two low length and an outer stride covering every strided digit")
     else r digit_span).
Proof.
  intros Hk. inversion Htyped as [|?? [Ho1 Ho2] H2']. inversion H2' as [|?? [Hd1 Hd2] _]. subst. unfold USIZE_BITS in *.
  apply verdict_check with (k := r ((nd - 1) * digit_stride)); [| |done].
  - intros Hc. bool_prop. assert (Hcomm : (nd - 1) * digit_stride = digit_stride * (nd - 1)) by lia. rewrite Hcomm.
    assert (0 <= digit_stride * (nd - 1)) by prod_nonneg. assert (1 * (nd - 1) <= digit_stride * (nd - 1)) by (apply Z.mul_le_mono_nonneg_r; lia).
    usize_ok. rewrite Hcomm. usize_ok. replace (checked.is_power_of_two low_len) with true by done.
    rewrite (proj2 (Z.eqb_neq nd 0)), (proj2 (Z.eqb_neq digit_stride 0)), (proj2 (Z.leb_gt _ _)) by lia. done.
  - intros Hc. apply ok_or_err. intros x (count & Hcount & Hx)%bind_Some. apply usize_value in Hx.
    apply checked.usize_Some in Hcount as [[Hn _] ->]. subst x.
    destruct (checked.is_power_of_two low_len); [|by eexists]. cbn [negb orb andb] in *.
    rewrite (proj2 (Z.ltb_lt 0 nd)) in Hc by lia. cbn [andb] in Hc.
    destruct (Z.eqb_spec nd 0); [by eexists|]. destruct (Z.eqb_spec digit_stride 0); [by eexists|]. cbn [orb].
    rewrite (proj2 (Z.ltb_lt 0 digit_stride)) in Hc by lia. cbn [andb] in Hc. apply Z.ltb_ge in Hc.
    rewrite (proj2 (Z.leb_le _ _)) by lia. by eexists.
Qed.

(** C17: the affine interval evaluator is exact: on inputs of machine width it
    returns the documented sum over the bases, the outer indices and the
    digits exactly when the inputs meet the documented conditions and the work
    is within its cap, whichever kernel it selects, and it returns an error
    otherwise. *)
Theorem affine_intervals_exact :
  let computed := eval_affine_digit_intervals outer_stride digit_stride digit_weights high_weights low_weights base_scales
                    challenges base_offsets outer_start live_len in
  if affine_admissible
  then computed = Ok (affine_reference challenges base_offsets outer_start live_len outer_stride digit_stride digit_weights
                        weights low_weights base_scales)
  else exists e, computed = Err e.
Proof.
  cbv zeta. change (verdict affine_admissible value (eval_affine_digit_intervals outer_stride digit_stride digit_weights
    high_weights low_weights base_scales challenges base_offsets outer_start live_len)).
  unfold affine_admissible, eval_affine_digit_intervals.
  destruct ((len weights =? 0) && (len low_weights =? 0)) eqn:Hne; cbn [negb andb].
  { apply andb_true_iff in Hne as [Hw%Z.eqb_eq Hl%Z.eqb_eq]. rewrite (so_weight _ _ Hsource) by done.
    destruct weights as [|x ws]; [|rewrite len_cons in Hw; pose proof (len_nonneg ws); lia].
    destruct low_weights as [|x ls]; [by eexists|rewrite len_cons in Hl; pose proof (len_nonneg ls); lia]. }
  destruct (template_spec Hne) as (template & -> & _). cbn [obind]. fold nb.
  destruct ((live_len =? 0) || (nb =? 0)) eqn:Hz; cbn [orb].
  { unfold verdict. rewrite zero_like_spec, no_terms; [done|]. apply orb_true_iff in Hz as [Hz%Z.eqb_eq | Hz%Z.eqb_eq]; auto. }
  apply orb_false_iff in Hz as [Hlive%Z.eqb_neq Hnb%Z.eqb_neq]. cbv zeta. fold low_len nd.
  eapply verdict_check; [intros Hc; rewrite <-negb_orb, Hc; reflexivity|intros Hc; rewrite <-negb_orb, Hc; by eexists|intros _].
  apply geometry_verdict. intros Hgeom.
  apply andb_true_iff in Hgeom as [Hnd%Z.ltb_lt (Hq & (Hds%Z.ltb_lt & Hspan%Z.ltb_lt)%andb_true_iff)%andb_true_iff].
  apply verdict_leb; [intros Hbits|by eexists].
  inversion Htyped as [|?? [Ho1 _] H2']. inversion H2' as [|?? _ H3']. inversion H3' as [|?? [Hs1 _] H4'].
  inversion H4' as [|?? [Hl1 _] _]. subst.
  apply verdict_checked; [lia|intros Hend].
  rewrite (so_len _ _ Hsource). apply verdict_checked; [apply Z.mul_nonneg_nonneg; [apply len_nonneg|unfold low_len; lia]|intros Hroom].
  apply verdict_leb; [intros Hcap|by eexists].
  apply verdict_checked; [lia|intros Hos].
  pose proof (len_nonneg base_offsets) as Hnb0. fold nb in Hnb0.
  apply bases_verdict; [lia..|]. intros Hbases.
  apply work_verdict; [lia|unfold nb in *; lia|done..|apply zero_like_spec].
Qed.
End evaluator.

(** * The outer-product source

    [AffineWeightProduct] reads the table of the products, outer index first. *)

Section product.
Context {E A : Type} `{AffineWeight E A}.

Definition product_table (outer inner : list A) : list A := flat_map (fun o => map (multiply o) inner) outer.

Lemma len_product_table outer inner : len (product_table outer inner) = len outer * len inner.
Proof.
  induction outer as [|o outer IH]; [done|]. unfold product_table in *. cbn [flat_map].
  rewrite len_app, IH, len_cons. unfold len at 1. rewrite length_map. fold (len inner). lia.
Qed.

Lemma index_nonneg {T} (l : list T) i : 0 <= i -> index l i = l !! Z.to_nat i.
Proof. intros Hi. unfold index. by rewrite (proj2 (Z.leb_le 0 i)). Qed.

Lemma index_product_table outer inner i : 0 <= i -> 0 < len inner ->
  index (product_table outer inner) i
  = (o ← index outer (i / len inner); n ← index inner (i mod len inner); Some (multiply o n)).
Proof.
  intros Hi Hn. assert (Hnil : forall T j, index (@nil T) j = None) by (intros T j; unfold index; by destruct (0 <=? j)).
  revert i Hi; induction outer as [|o outer IH]; intros i Hi; [change (product_table [] inner) with (@nil A); by rewrite !Hnil|].
  unfold product_table. cbn [flat_map]. fold (product_table outer inner).
  assert (Hl : len (map (multiply o) inner) = len inner) by (unfold len; by rewrite length_map).
  destruct (Z.lt_ge_cases i (len inner)) as [Hlt|Hge].
  - rewrite Z.div_small, Z.mod_small by lia. rewrite index_head. cbn [mbind option_bind].
    rewrite !index_nonneg, lookup_app_l by (unfold len in *; lia). change (map (multiply o)) with (fmap (M := list) (multiply o)).
    rewrite list_lookup_fmap. by destruct (inner !! _).
  - rewrite index_nonneg, lookup_app_r by (unfold len in *; lia).
    replace (Z.to_nat i - length (map (multiply o) inner))%nat with (Z.to_nat (i - len inner)) by (unfold len in *; lia).
    rewrite <-index_nonneg, IH by lia. pose proof (Z.div_pos (i - len inner) (len inner) ltac:(lia) Hn) as Hq.
    assert (Hdiv : i / len inner = (i - len inner) / len inner + 1) by (rewrite <-(Z.div_add (i - len inner) 1) by lia; f_equal; lia).
    assert (Hmod : i mod len inner = (i - len inner) mod len inner) by (rewrite <-(Z.mod_add (i - len inner) 1) by lia; f_equal; lia).
    rewrite Hdiv, Hmod.
    rewrite (index_nonneg (o :: outer)), (index_nonneg outer) by lia.
    by replace (Z.to_nat ((i - len inner) / len inner + 1)) with (S (Z.to_nat ((i - len inner) / len inner))) by lia.
Qed.

Lemma product_source_of outer inner p : AffineWeightProduct.new outer inner = Ok p ->
  source_of (AffineWeightProduct.source p) (product_table outer inner).
Proof.
  unfold AffineWeightProduct.new. destruct (checked_mul (len outer) (len inner)) as [n|] eqn:Hn; [|done].
  cbn [ok_or obind]. intros [= <-]. apply usize_value in Hn. split; cbn [AffineWeightProduct.source source_len with_weight product_len
    AffineIntervals.outer AffineIntervals.inner]; [by rewrite len_product_table|].
  intros i Hi. pose proof (len_nonneg inner). destruct (Z.eqb_spec (len inner) 0) as [Hz|Hz].
  - rewrite index_nonneg by done. symmetry. apply lookup_ge_None. pose proof (len_product_table outer inner) as Hl.
    rewrite Hz in Hl. unfold len in Hl. lia.
  - by rewrite index_product_table by lia.
Qed.
End product.

(** * Evaluation at a concrete interval *)

Module Whole_fold_env.
#[export] Program Instance whole_fold : FoldSchedule := {| task_parts n := [range n] |}.
Next Obligation. intros. cbn. apply app_nil_r. Qed.
End Whole_fold_env.

Import EqPoly.F97_env Merge_sort_env Whole_fold_env.

Local Ltac typed := repeat first [apply Forall_nil_2|apply Forall_cons_2]; unfold in_u, USIZE_BITS; lia.

Lemma affine_intervals_exact_witness :
  let z := map F97.of_Z in
  let aligned := eval_affine_digit_intervals 4 1 (z [2; 3]) (slice_source (z [5; 6; 7; 8])) [] [] (z [3; 5; 7; 11; 13]) [1; 9] 1 3 in
  let rows := eval_affine_digit_intervals 3 1 (z [1; 2; 4]) (slice_source (z [5; 6; 7])) (z [8; 9]) (z [2; 3]) (z [3; 5; 7; 11; 13]) [1; 4] 1 5 in
  aligned = Ok (affine_reference (z [3; 5; 7; 11; 13]) [1; 9] 1 3 4 1 (z [2; 3]) (z [5; 6; 7; 8]) [] []) /\
  rows = Ok (affine_reference (z [3; 5; 7; 11; 13]) [1; 4] 1 5 3 1 (z [1; 2; 4]) (z [5; 6; 7]) (z [8; 9]) (z [2; 3])) /\
  exists e, eval_affine_digit_intervals 2 1 (z [1; 2; 4]) (slice_source (z [5; 6; 7])) (z [8; 9]) [] (z [3; 5; 7; 11; 13]) [1; 4] 1 5 = Err e.
Proof.
  cbv zeta.
  assert (Hs : forall l : list F97.t, source_of (slice_source l) l) by (intros l; by split).
  assert (Hg : tables_granted (E := F97.t)).
  { intros n Hn. split; [|done]. unfold fits, MAX_MATERIALIZED_EQ_TABLE_BYTES. change (size_of F97.t) with 8. apply Z.leb_le. change (Z.shiftl 1 30) with (2 ^ 30). lia. }
  split; [|split].
  - exact (affine_intervals_exact 4 1 (map F97.of_Z [2; 3]) _ (map F97.of_Z [5; 6; 7; 8]) [] [] (map F97.of_Z [3; 5; 7; 11; 13])
             [1; 9] 1 3 (Hs _) Hg ltac:(typed) ltac:(done)).
  - exact (affine_intervals_exact 3 1 (map F97.of_Z [1; 2; 4]) _ (map F97.of_Z [5; 6; 7]) (map F97.of_Z [8; 9]) (map F97.of_Z [2; 3])
             (map F97.of_Z [3; 5; 7; 11; 13]) [1; 4] 1 5 (Hs _) Hg ltac:(typed) ltac:(done)).
  - exact (affine_intervals_exact 2 1 (map F97.of_Z [1; 2; 4]) _ (map F97.of_Z [5; 6; 7]) (map F97.of_Z [8; 9]) []
             (map F97.of_Z [3; 5; 7; 11; 13]) [1; 4] 1 5 (Hs _) Hg ltac:(typed) ltac:(done)).
Defined.
