(* ===== verification/Cyclotomic.v ===== *)
(** [akita-algebra/src/ring/cyclotomic.rs], [cyclotomic/traits.rs]: the ring
    [F[X]/(X^D + 1)] in coefficient form, its fused in-place operations, its
    automorphisms and its codec.

    A [[F; D]] array is a list of length [D]; every indexed access is checked,
    so an access out of range is a panic of the model. *)

From S2P Require Import Prelude Field Serialization.

Record CyclotomicRing (E : Type) := { ring_coeffs : list E }.
Arguments ring_coeffs {E}. Arguments Build_CyclotomicRing {E}.

Module CyclotomicRing.

Section ops.
Context {E : Type} `{Field E}.
Variable D : Z.
Abbreviation ring := (CyclotomicRing E).
Abbreviation Ring := Build_CyclotomicRing.
Context {Er : Type}.
Abbreviation out := (outcome Er).

Definition zeros : list E := replicate (Z.to_nat D) fzero.

Definition from_coefficients (coeffs : list E) : ring := Ring coeffs.

(** Zero-padded when shorter than [D], cut when longer. *)
Definition from_slice (slice : list E) : ring :=
  let n := Z.to_nat (Z.min (len slice) D) in
  Ring (take n slice ++ drop n zeros).

Definition zero : ring := Ring zeros.

Definition one : out ring := let* c := store zeros 0 fone in Ok (Ring c).

Definition x : out ring :=
  let* _ := assert (2 <=? D) in
  let* c := store zeros 1 fone in Ok (Ring c).

Definition scale (self : ring) (k : E) : ring := Ring (map (fun c => fmul c k) (ring_coeffs self)).

Definition scale_accumulate_into (self dst : ring) (k : E) : ring :=
  Ring (zip_update (fun d s => fmul_add s k d) (ring_coeffs dst) (ring_coeffs self)).

Definition add_assign (self rhs : ring) : ring :=
  Ring (zip_update fadd (ring_coeffs self) (ring_coeffs rhs)).
Definition sub_assign (self rhs : ring) : ring :=
  Ring (zip_update fsub (ring_coeffs self) (ring_coeffs rhs)).
Definition neg (self : ring) : ring := Ring (map fneg (ring_coeffs self)).

(** [out[idx] += v] below [D], [out[idx - D] -= v] from [D] on. *)
Definition signed_add (o : list E) (idx : Z) (v : E) : out (list E) :=
  if idx <? D then update o idx (fun c => fadd c v)
  else update o (idx - D) (fun c => fsub c v).

(** [sigma_k : X -> X^k]. *)
Definition sigma (self : ring) (k : Z) : out ring :=
  let* _ := assert (0 <? D) in
  let two_d := 2 * D in
  let k_mod := k mod two_d in
  let* _ := assert (k_mod mod 2 =? 1) in
  let* o := ofold (fun o '(j, coeff) => signed_add o ((j * k_mod) mod two_d) coeff)
              (zip (range (len (ring_coeffs self))) (ring_coeffs self)) zeros in
  Ok (Ring o).

Definition sigma_m1 (self : ring) : out ring :=
  let* _ := assert (0 <? D) in sigma self (2 * D - 1).

(** Multiplication by [X^k]; [% (D << 1)] panics when [D] is zero. *)
Definition negacyclic_shift (self : ring) (k : Z) : out ring :=
  let* _ := assert (0 <? D) in
  let k := k mod (2 * D) in
  if k =? 0 then Ok self
  else
    let global_neg := D <=? k in
    let shift := k mod D in
    if shift =? 0 then Ok (neg self)
    else
      let* o := ofold (fun o i =>
                  let target := i + shift in
                  let wrap_neg := D <=? target in
                  let* c := unwrap (index (ring_coeffs self) i) in
                  let coeff := if xorb global_neg wrap_neg then fneg c else c in
                  if target <? D then store o target coeff else store o (target - D) coeff)
                (range D) zeros in
      Ok (Ring o).

Definition mul_by_monomial_sum_into (self dst : ring) (nonzero_positions : list Z) : out ring :=
  ofold (fun dst k => let* s := negacyclic_shift self k in Ok (add_assign dst s))
    nonzero_positions dst.
Definition mul_by_monomial_sum (self : ring) (nonzero_positions : list Z) : out ring :=
  mul_by_monomial_sum_into self zero nonzero_positions.

(** The common shape of the fused shifts: [direct] on the coefficients that
    stay below [D] and [wrapped] on those that wrap. *)
Definition shift_into `{BuildMode} (direct wrapped : E -> E -> E) (self dst : ring) (k : Z)
  : out ring :=
  let* _ := debug_assert (k <? D) in
  let* (lo, hi) := split_at (ring_coeffs dst) k in
  let* (self_lo, self_hi) := split_at (ring_coeffs self) (D - k) in
  Ok (Ring (zip_update wrapped lo self_hi ++ zip_update direct hi self_lo)).

Definition shift_accumulate_into `{BuildMode} : ring -> ring -> Z -> out ring :=
  shift_into fadd fsub.
Definition shift_sub_into `{BuildMode} : ring -> ring -> Z -> out ring := shift_into fsub fadd.
Definition shift_scale_accumulate_into `{BuildMode} (self dst : ring) (k : Z) (scale : E)
  : out ring :=
  shift_into (fun d s => fmul_add s scale d) (fun d s => fsub d (fmul s scale)) self dst k.

Definition mul_accumulate_sparse_rhs_into `{BuildMode} (self rhs dst : ring) : out ring :=
  ofold (fun dst '(pos, coeff) =>
           if feqb coeff fzero then Ok dst
           else if feqb coeff fone then shift_accumulate_into self dst pos
           else if feqb coeff (fneg fone) then shift_sub_into self dst pos
           else shift_scale_accumulate_into self dst pos coeff)
    (zip (range (len (ring_coeffs rhs))) (ring_coeffs rhs)) dst.

Definition mul_accumulate_into (self rhs dst : ring) : out ring :=
  ofold (fun dst i =>
           let* ai := unwrap (index (ring_coeffs self) i) in
           if feqb ai fzero then Ok dst
           else
             let* (dst_wrap, dst_direct) := split_at (ring_coeffs dst) i in
             let* (rhs_direct, rhs_wrap) := split_at (ring_coeffs rhs) (D - i) in
             Ok (Ring (zip_update (fun d r => fsub d (fmul ai r)) dst_wrap rhs_wrap ++
                       zip_update (fun d r => fadd d (fmul ai r)) dst_direct rhs_direct)))
    (range D) dst.

Definition is_zero (self : ring) : bool := forallb (fun c => feqb c fzero) (ring_coeffs self).
Definition hamming_weight (self : ring) : Z :=
  len (List.filter (fun c => negb (feqb c fzero)) (ring_coeffs self)).

(** Schoolbook negacyclic convolution. *)
Definition mul (self rhs : ring) : out ring :=
  let* o := ofold (fun o i =>
              ofold (fun o j =>
                let* a := unwrap (index (ring_coeffs self) i) in
                let* b := unwrap (index (ring_coeffs rhs) j) in
                signed_add o (i + j) (fmul a b)) (range D) o) (range D) zeros in
  Ok (Ring o).

Definition sum (l : list ring) : ring := foldl add_assign zero l.
Definition product (l : list ring) : out ring := let* o := one in ofold mul l o.

Definition ring_from_u64 (v : Z) : ring := from_slice [from_u64 v].
End ops.
End CyclotomicRing.

(** * Sums over exponents *)

Section sums.
Context {E : Type} `{FieldLaws E}.
Add Ring Ering : (field_ring (E := E)).
Local Open Scope field_scope.

Definition sumZ (n : Z) (f : Z -> E) : E := fsum (map f (range n)).

Lemma sumZ_ext n f g : (forall i, (0 <= i < n)%Z -> f i = g i) -> sumZ n f = sumZ n g.
Proof.
  intros Hfg. unfold sumZ. f_equal. apply map_ext_in. intros i Hi.
  apply Hfg. by apply elem_of_range, list_elem_of_In.
Qed.

Lemma sumZ_add n f g : sumZ n (fun i => f i + g i) = sumZ n f + sumZ n g.
Proof. apply fsum_map_add. Qed.

Lemma sumZ_mul n c f : sumZ n (fun i => c * f i) = c * sumZ n f.
Proof. apply fsum_map_mul. Qed.

Lemma sumZ_mul_r n c f : sumZ n (fun i => f i * c) = sumZ n f * c.
Proof.
  transitivity (c * sumZ n f); [|ring]. rewrite <-sumZ_mul. apply sumZ_ext. intros; ring.
Qed.

Lemma sumZ_zero n f : (forall i, (0 <= i < n)%Z -> f i = 0) -> sumZ n f = 0.
Proof.
  intros Hf. transitivity (sumZ n (fun _ => 0 * 0)); [apply sumZ_ext; intros; rewrite Hf by done; ring|].
  rewrite sumZ_mul. ring.
Qed.

Lemma sumZ_swap n m (f : Z -> Z -> E) :
  sumZ n (fun i => sumZ m (f i)) = sumZ m (fun j => sumZ n (fun i => f i j)).
Proof.
  unfold sumZ at 1 4. generalize (range n) as l. intros l.
  induction l as [|i l IH]; cbn [map].
  - symmetry. apply sumZ_zero. done.
  - rewrite fsum_cons, IH. rewrite <-sumZ_add. apply sumZ_ext. intros j _.
    by rewrite fsum_cons.
Qed.

Lemma sumZ_S n f : (0 <= n)%Z -> sumZ (n + 1) f = sumZ n f + f n.
Proof.
  intros Hn. unfold sumZ. rewrite range_S, map_app, fsum_app by done. cbn [map].
  rewrite fsum_cons. change (fsum []) with (0 : E). ring.
Qed.

Lemma sumZ_single n m f :
  (0 <= m < n)%Z -> (forall i, (0 <= i < n)%Z -> i <> m -> f i = 0) -> sumZ n f = f m.
Proof.
  intros Hm Hf. replace n with (Z.of_nat (Z.to_nat n)) in * by lia.
  induction (Z.to_nat n) as [|k IH]; [lia|]. rewrite Nat2Z.inj_succ in *. unfold Z.succ in *.
  rewrite sumZ_S by lia. destruct (decide (m = Z.of_nat k)) as [->|Hne].
  - rewrite sumZ_zero; [ring|]. intros i Hi. apply Hf; lia.
  - rewrite IH by (try lia; intros; apply Hf; lia). rewrite (Hf (Z.of_nat k)) by lia. ring.
Qed.

(** Coefficients by position; 0 outside. *)
Definition get (l : list E) (k : Z) : E := default 0 (index l k).

Lemma list_eq_get (l1 l2 : list E) :
  len l1 = len l2 -> (forall k, (0 <= k < len l1)%Z -> get l1 k = get l2 k) -> l1 = l2.
Proof.
  intros Hl Hg. apply list_eq_same_length with (length l1); [unfold len in Hl; lia|done|].
  intros i x y Hi Hx Hy. specialize (Hg (Z.of_nat i) ltac:(unfold len; lia)).
  unfold get in Hg. rewrite !index_nat, Hx, Hy in Hg. exact Hg.
Qed.

Lemma index_get (l : list E) k : (0 <= k < len l)%Z -> index l k = Some (get l k).
Proof. intros [a Ha]%index_is_Some. unfold get. by rewrite Ha. Qed.

Lemma get_store {Er} (l : list E) k v :
  (0 <= k < len l)%Z ->
  exists l', store (E := Er) l k v = Ok l' /\ len l' = len l /\
    forall c, get l' c = if (c =? k)%Z then v else get l c.
Proof.
  intros Hk. unfold store. case_Z; cbn [andb]. eexists; split; [done|]. split.
  { unfold len. by rewrite length_insert. }
  intros c. unfold get, index. destruct (Z.eqb_spec c k) as [->|Hne].
  - case_Z. rewrite list_lookup_insert_eq; [done|unfold len in *; lia].
  - case_Z; [|done]. rewrite list_lookup_insert_ne; [done|lia].
Qed.

Lemma get_update {Er} (l : list E) k f :
  (0 <= k < len l)%Z ->
  exists l', update (E := Er) l k f = Ok l' /\ len l' = len l /\
    forall c, get l' c = if (c =? k)%Z then f (get l k) else get l c.
Proof.
  intros Hk. unfold update. rewrite index_get by done. cbn [unwrap obind]. by apply get_store.
Qed.

Lemma get_zeros D k : get (CyclotomicRing.zeros D) k = 0.
Proof.
  unfold get, index, CyclotomicRing.zeros. case_Z; [|done].
  destruct (replicate _ _ !! _) as [y|] eqn:Hy; [|done]. by apply lookup_replicate in Hy as [-> _].
Qed.

Lemma len_zeros D : (0 <= D)%Z -> len (CyclotomicRing.zeros (E := E) D) = D.
Proof. apply len_replicate. Qed.

Lemma get_map f (l : list E) k : (0 <= k < len l)%Z -> get (map f l) k = f (get l k).
Proof.
  intros Hk. unfold get, index, len in *. case_Z.
  change (map f l) with (f <$> l). rewrite list_lookup_fmap.
  destruct (lookup_lt_is_Some_2 l (Z.to_nat k)) as [y Hy]; [lia|]. by rewrite Hy.
Qed.

Lemma get_app (l1 l2 : list E) k :
  (0 <= k)%Z -> get (l1 ++ l2) k = if (k <? len l1)%Z then get l1 k else get l2 (k - len l1).
Proof.
  intros Hk. unfold get, index, len. destruct (Z.leb_spec 0 k); [|lia].
  destruct (Z.ltb_spec k (Z.of_nat (length l1))).
  - by rewrite lookup_app_l by lia.
  - rewrite lookup_app_r by lia. case_Z. do 2 f_equal. lia.
Qed.

Lemma get_take n (l : list E) k : (0 <= k < n)%Z -> get (take (Z.to_nat n) l) k = get l k.
Proof. intros Hk. unfold get, index. case_Z. rewrite lookup_take_lt; [done|lia]. Qed.

Lemma get_drop n (l : list E) k :
  (0 <= k)%Z -> (0 <= n)%Z -> get (drop (Z.to_nat n) l) k = get l (n + k).
Proof. intros Hk Hn. unfold get, index. case_Z. rewrite lookup_drop. do 2 f_equal. lia. Qed.

Lemma zip_update_len {B} (f : E -> B -> E) d s : len (zip_update f d s) = len d.
Proof.
  unfold len. f_equal. revert s; induction d as [|a d IH]; intros [|b s]; cbn; auto.
Qed.

Lemma get_zip_update (f : E -> E -> E) d s k :
  len s = len d -> (0 <= k < len d)%Z -> get (zip_update f d s) k = f (get d k) (get s k).
Proof.
  intros Hl Hk. unfold get, index, len in *. case_Z.
  replace (Z.of_nat (length d)) with (Z.of_nat (length s)) in Hk by lia.
  assert (Hk' : (Z.to_nat k < length d)%nat) by lia. clear Hk.
  generalize dependent (Z.to_nat k). revert s Hl.
  induction d as [|a d IH]; intros [|b s] Hl i Hi; cbn [length] in *; try lia.
  destruct i as [|i]; [done|]. cbn. apply IH; lia.
Qed.
End sums.

(** * Monomials of the ring and accumulation loops *)

Section monomials.
Context {E : Type} `{FieldLaws E}.
Add Ring Ering2 : (field_ring (E := E)).
Local Open Scope field_scope.
Variable D : Z.
Hypothesis D_pos : (0 < D)%Z.

(** [(-1)^q] *)
Definition sgn (q : Z) : E := if Z.even q then 1 else - (1).

Lemma sgn_add p q : sgn (p + q) = sgn p * sgn q.
Proof.
  unfold sgn. rewrite Z.even_add. destruct (Z.even p), (Z.even q); cbn [Bool.eqb]; ring.
Qed.

Lemma sgn_square p : sgn p * sgn p = 1.
Proof. unfold sgn. destruct (Z.even p); ring. Qed.

(** Coefficient [c] of [X^n], for any integer [n], in [F[X]/(X^D + 1)]. *)
Definition mono (n c : Z) : E := if (c =? n mod D)%Z then sgn (n / D) else 0.

Lemma mono_euclid q r c : mono (D * q + r) c = sgn q * mono r c.
Proof.
  unfold mono. rewrite (Z.mul_comm D q), Z.add_comm, Z.mod_add, Z.div_add, Z.add_comm by lia.
  destruct (_ =? _)%Z; [apply sgn_add|ring].
Qed.

Lemma mono_mod_2D n c : mono (n mod (2 * D)) c = mono n c.
Proof.
  rewrite (Z.div_mod n (2 * D)) at 2 by lia.
  replace (2 * D * (n / (2 * D)) + n mod (2 * D))%Z
    with (D * (2 * (n / (2 * D))) + n mod (2 * D))%Z by lia.
  rewrite mono_euclid. unfold sgn. rewrite Z.even_mul. cbn [Z.even orb]. ring.
Qed.

Lemma mono_small r c : (0 <= r < D)%Z -> mono r c = if (c =? r)%Z then 1 else 0.
Proof. intros Hr. unfold mono. rewrite Z.mod_small, Z.div_small by done. done. Qed.

Lemma mono_wrapped r c : (0 <= r < D)%Z -> mono (r + D) c = if (c =? r)%Z then - (1) else 0.
Proof.
  intros Hr. replace (r + D)%Z with (D * 1 + r)%Z by lia.
  rewrite mono_euclid, mono_small by done. change (sgn 1) with (- (1) : E).
  destruct (_ =? _)%Z; ring.
Qed.

Lemma mono_select n (f : Z -> E) : sumZ D (fun m => mono n m * f m) = sgn (n / D) * f (n mod D)%Z.
Proof.
  rewrite (sumZ_single D (n mod D)%Z).
  - unfold mono. by rewrite Z.eqb_refl.
  - by apply Z.mod_pos_bound.
  - intros i _ Hne. unfold mono. destruct (Z.eqb_spec i (n mod D)%Z); [done|ring].
Qed.

Lemma mono_mul n k c : sumZ D (fun m => mono n m * mono (m + k) c) = mono (n + k) c.
Proof.
  rewrite mono_select, <-mono_euclid. f_equal. rewrite (Z.div_mod n D) at 3 by lia. lia.
Qed.

Lemma mono_expand (f : Z -> E) c : (0 <= c < D)%Z -> sumZ D (fun j => f j * mono j c) = f c.
Proof.
  intros Hc. rewrite (sumZ_single D c).
  - rewrite mono_small, Z.eqb_refl by done. ring.
  - done.
  - intros i Hi Hne. rewrite mono_small by done. destruct (Z.eqb_spec c i); [lia|ring].
Qed.

(** A computation that adds [delta c] to every coefficient [c]. *)
Definition adds {Er} (m : list E -> outcome Er (list E)) (delta : Z -> E) : Prop :=
  forall o, len o = D -> exists o', m o = Ok o' /\ len o' = D /\
    forall c, (0 <= c < D)%Z -> get o' c = get o c + delta c.

Lemma adds_ext {Er} (m : list E -> outcome Er (list E)) d1 d2 :
  adds m d1 -> (forall c, (0 <= c < D)%Z -> d1 c = d2 c) -> adds m d2.
Proof.
  intros Hm Hd o Ho. destruct (Hm o Ho) as (o' & Ho' & Hl & Hg). exists o'. split; [done|].
  split; [done|]. intros c Hc. by rewrite Hg, Hd.
Qed.

Lemma adds_loop {Er A} (m : list E -> A -> outcome Er (list E)) (l : list A) (delta : A -> Z -> E) :
  (forall a, a ∈ l -> adds (fun o => m o a) (delta a)) ->
  adds (fun o => ofold m l o) (fun c => fsum (map (fun a => delta a c) l)).
Proof.
  induction l as [|a l IH]; intros Hm o Ho; cbn [ofold].
  - exists o. split; [done|]. split; [done|]. intros c _. cbn. change (get o c = get o c + 0). ring.
  - destruct (Hm a ltac:(by left) o Ho) as (o1 & Ho1 & Hl1 & Hg1). rewrite Ho1. cbn [obind].
    destruct (IH (fun b Hb => Hm b ltac:(by right)) o1 Hl1) as (o2 & Ho2 & Hl2 & Hg2).
    exists o2. split; [done|]. split; [done|]. intros c Hc. rewrite Hg2, Hg1 by done.
    cbn [map]. rewrite fsum_cons. ring.
Qed.

Lemma adds_range {Er} (m : list E -> Z -> outcome Er (list E)) n (delta : Z -> Z -> E) :
  (forall i, (0 <= i < n)%Z -> adds (fun o => m o i) (delta i)) ->
  adds (fun o => ofold m (range n) o) (fun c => sumZ n (fun i => delta i c)).
Proof. intros Hm. apply adds_loop. intros i Hi%elem_of_range. by apply Hm. Qed.

Lemma elem_of_zip_range {A} (l : list A) i a :
  (i, a) ∈ zip (range (len l)) l -> (0 <= i < len l)%Z /\ index l i = Some a.
Proof.
  intros [k Hk]%list_elem_of_lookup. apply lookup_zip_Some in Hk as [Hi Ha].
  unfold range in Hi. apply lookup_seqZ in Hi as [-> Hi]. rewrite Z.add_0_l, index_nat.
  split; [lia|done].
Qed.

Lemma map_zip_range {A B} (f : Z -> A -> B) (g : Z -> B) (l : list A) :
  (forall i a, index l i = Some a -> f i a = g i) ->
  map (fun '(i, a) => f i a) (zip (range (len l)) l) = map g (range (len l)).
Proof.
  intros Hfg. apply list_eq. intros k.
  change (map (fun '(i, a) => f i a) (zip (range (len l)) l))
    with ((fun '(i, a) => f i a) <$> zip (range (len l)) l).
  change (map g (range (len l))) with (g <$> range (len l)). rewrite !list_lookup_fmap.
  destruct (l !! k) as [a|] eqn:Hk.
  - assert (Hlt : (Z.of_nat k < len l)%Z) by (apply lookup_lt_Some in Hk; unfold len; lia).
    assert (Hr : range (len l) !! k = Some (Z.of_nat k))
      by (unfold range; rewrite lookup_seqZ_lt by done; f_equal; lia).
    rewrite Hr. rewrite (proj2 (lookup_zip_Some (range (len l)) l k (Z.of_nat k) a) (conj Hr Hk)).
    cbn. f_equal. apply Hfg. by rewrite index_nat.
  - apply lookup_ge_None in Hk. rewrite !(proj2 (lookup_ge_None _ _)); [done|..].
    + rewrite length_range. unfold len. lia.
    + rewrite length_zip, length_range. unfold len. lia.
Qed.

Lemma adds_zip_range {Er} (m : list E -> Z * E -> outcome Er (list E)) (l : list E)
    (delta : Z -> Z -> E) :
  len l = D ->
  (forall i, (0 <= i < D)%Z -> adds (fun o => m o (i, get l i)) (delta i)) ->
  adds (fun o => ofold m (zip (range (len l)) l) o) (fun c => sumZ D (fun i => delta i c)).
Proof.
  intros Hl Hm.
  eapply adds_ext; [apply (adds_loop m _ (fun '(i, _) => delta i))|].
  - intros [i a] [Hi Ha]%elem_of_zip_range. rewrite index_get in Ha by done.
    injection Ha as <-. apply Hm. by rewrite <-Hl.
  - intros c _. cbn beta. unfold sumZ. rewrite <-Hl. f_equal.
    rewrite <-(map_zip_range (fun i _ => delta i c) (fun i => delta i c)) by done.
    apply map_ext. by intros [i a].
Qed.

Lemma adds_signed {Er} n v :
  (0 <= n < 2 * D)%Z ->
  adds (Er := Er) (fun o => CyclotomicRing.signed_add D o n v) (fun c => v * mono n c).
Proof.
  intros Hn o Ho. unfold CyclotomicRing.signed_add. destruct (Z.ltb_spec n D).
  - destruct (get_update (Er := Er) o n (fun c => c + v) ltac:(lia)) as (o' & -> & Hl & Hg).
    exists o'. split; [done|]. split; [lia|]. intros c Hc. rewrite Hg, mono_small by lia.
    destruct (Z.eqb_spec c n) as [->|]; ring.
  - destruct (get_update (Er := Er) o (n - D)%Z (fun c => c - v) ltac:(lia)) as (o' & -> & Hl & Hg).
    exists o'. split; [done|]. split; [lia|]. intros c Hc. rewrite Hg.
    replace (mono n c) with (mono (n - D + D) c) by (f_equal; lia). rewrite mono_wrapped by lia.
    destruct (Z.eqb_spec c (n - D)%Z) as [->|]; ring.
Qed.

(** Running such a computation on zeros gives the coefficients themselves. *)
Lemma adds_zeros {Er} (m : list E -> outcome Er (list E)) delta :
  adds m delta ->
  exists o, m (CyclotomicRing.zeros D) = Ok o /\ len o = D /\
    forall c, (0 <= c < D)%Z -> get o c = delta c.
Proof.
  intros Hm. destruct (Hm (CyclotomicRing.zeros D)) as (o & Ho & Hl & Hg); [apply len_zeros; lia|].
  exists o. split; [done|]. split; [done|]. intros c Hc. rewrite Hg, get_zeros by done. ring.
Qed.
End monomials.

(** * The ring operations *)

Section ring_spec.
Context {E : Type} `{FieldLaws E}.
Add Ring Ering3 : (field_ring (E := E)).
Local Open Scope field_scope.
Variable D : Z.
Hypothesis D_pos : (0 < D)%Z.
Abbreviation ring := (CyclotomicRing E).
Abbreviation mono := (mono D).

(** A ring element: exactly [D] coefficients. *)
Definition wf (a : ring) : Prop := len (ring_coeffs a) = D.
Definition coef (a : ring) (c : Z) : E := get (ring_coeffs a) c.

Lemma ring_ext (a b : ring) :
  wf a -> wf b -> (forall c, (0 <= c < D)%Z -> coef a c = coef b c) -> a = b.
Proof.
  unfold wf, coef. destruct a as [a], b as [b]; cbn [ring_coeffs]. intros Ha Hb He. f_equal.
  apply list_eq_get; [lia|]. rewrite Ha. exact He.
Qed.

(** The product, by its coefficients. *)
Definition mul_coef (f g : Z -> E) (c : Z) : E :=
  sumZ D (fun i => sumZ D (fun j => f i * g j * mono (i + j) c)).

Lemma mul_spec {Er} a b :
  wf a -> wf b ->
  exists r, CyclotomicRing.mul (Er := Er) D a b = Ok r /\ wf r /\
    forall c, (0 <= c < D)%Z -> coef r c = mul_coef (coef a) (coef b) c.
Proof.
  intros Ha Hb. unfold CyclotomicRing.mul.
  edestruct (adds_zeros (Er := Er) D D_pos) as (o & Ho & Hl & Hg); [|rewrite Ho; cbn [obind]].
  { apply (adds_range D). intros i Hi. apply (adds_range D). intros j Hj.
    intros o Hlo. rewrite !index_get by (unfold wf in *; lia). cbn [unwrap obind].
    apply (adds_signed D D_pos); [lia|done]. }
  exists (Build_CyclotomicRing o). split; [done|]. split; [exact Hl|]. exact Hg.
Qed.

Lemma mul_coef_ext f f' g g' c :
  (forall i, (0 <= i < D)%Z -> f i = f' i) -> (forall i, (0 <= i < D)%Z -> g i = g' i) ->
  mul_coef f g c = mul_coef f' g' c.
Proof.
  intros Hf Hg. apply sumZ_ext. intros i Hi. apply sumZ_ext. intros j Hj. by rewrite Hf, Hg.
Qed.

Lemma mul_coef_comm f g c : mul_coef f g c = mul_coef g f c.
Proof.
  unfold mul_coef. rewrite sumZ_swap. apply sumZ_ext. intros i _. apply sumZ_ext. intros j _.
  rewrite Z.add_comm. ring.
Qed.

(** Multiplying a combination of monomials. *)
Lemma mul_coef_combo n (f : Z -> E) (e : Z -> Z) g c :
  mul_coef (fun m => sumZ n (fun i => f i * mono (e i) m)) g c
  = sumZ n (fun i => sumZ D (fun j => f i * g j * mono (e i + j) c)).
Proof.
  unfold mul_coef.
  transitivity (sumZ D (fun m => sumZ n (fun i => sumZ D (fun j =>
      f i * g j * (mono (e i) m * mono (m + j) c))))).
  - apply sumZ_ext. intros m _. rewrite sumZ_swap. apply sumZ_ext. intros j _.
    rewrite <-!sumZ_mul_r. apply sumZ_ext. intros; ring.
  - rewrite sumZ_swap. apply sumZ_ext. intros i _. rewrite sumZ_swap. apply sumZ_ext. intros j _.
    rewrite sumZ_mul, mono_mul by done. done.
Qed.

Lemma mul_coef_triple f g h c :
  mul_coef (mul_coef f g) h c
  = sumZ D (fun i => sumZ D (fun j => sumZ D (fun k => f i * g j * h k * mono (i + j + k) c))).
Proof.
  transitivity (sumZ D (fun i =>
    mul_coef (fun m => sumZ D (fun j => f i * g j * mono (i + j) m)) h c)).
  - unfold mul_coef. symmetry. rewrite sumZ_swap. apply sumZ_ext. intros m _.
    rewrite sumZ_swap. apply sumZ_ext. intros k _. by rewrite <-!sumZ_mul_r.
  - apply sumZ_ext. intros i _.
    exact (mul_coef_combo D (fun j => f i * g j) (fun j => i + j)%Z h c).
Qed.

Lemma mul_coef_assoc f g h c :
  mul_coef (mul_coef f g) h c = mul_coef f (mul_coef g h) c.
Proof.
  rewrite (mul_coef_comm f), !mul_coef_triple, (sumZ_swap D D).
  apply sumZ_ext. intros j _. rewrite sumZ_swap. apply sumZ_ext. intros k _.
  apply sumZ_ext. intros i _. replace (j + k + i)%Z with (i + j + k)%Z by lia. ring.
Qed.

Lemma mul_coef_mono n g c :
  (0 <= c < D)%Z -> mul_coef (mono n) g c = sumZ D (fun j => g j * mono (n + j) c).
Proof.
  intros Hc. rewrite <-(mul_coef_ext (fun m => sumZ 1 (fun _ => 1 * mono n m)) (mono n) g g c).
  - rewrite (mul_coef_combo 1 (fun _ => 1) (fun _ => n)).
    change (sumZ D (fun j => 1 * g j * mono (n + j) c) + 0 = sumZ D (fun j => g j * mono (n + j) c)).
    transitivity (sumZ D (fun j => 1 * g j * mono (n + j) c)); [ring|]. apply sumZ_ext. intros; ring.
  - intros i _. change (1 * mono n i + 0 = mono n i). ring.
  - done.
Qed.

Lemma mul_coef_add f f' g c :
  mul_coef (fun i => f i + f' i) g c = mul_coef f g c + mul_coef f' g c.
Proof.
  unfold mul_coef. rewrite <-sumZ_add. apply sumZ_ext. intros i _.
  rewrite <-sumZ_add. apply sumZ_ext. intros; ring.
Qed.

(** The additive operations. *)
Lemma zero_spec : wf (CyclotomicRing.zero D) /\ forall c, coef (CyclotomicRing.zero D) c = 0.
Proof. split; [apply len_zeros; lia|]. intros c. apply get_zeros. Qed.

Lemma add_spec a b :
  wf a -> wf b -> wf (CyclotomicRing.add_assign a b) /\
  forall c, (0 <= c < D)%Z -> coef (CyclotomicRing.add_assign a b) c = coef a c + coef b c.
Proof.
  unfold wf, coef. intros Ha Hb. cbn [CyclotomicRing.add_assign ring_coeffs].
  rewrite zip_update_len. split; [done|]. intros c Hc. apply get_zip_update; lia.
Qed.

Lemma sub_spec a b :
  wf a -> wf b -> wf (CyclotomicRing.sub_assign a b) /\
  forall c, (0 <= c < D)%Z -> coef (CyclotomicRing.sub_assign a b) c = coef a c - coef b c.
Proof.
  unfold wf, coef. intros Ha Hb. cbn [CyclotomicRing.sub_assign ring_coeffs].
  rewrite zip_update_len. split; [done|]. intros c Hc. apply get_zip_update; lia.
Qed.

Lemma neg_spec a :
  wf a -> wf (CyclotomicRing.neg a) /\
  forall c, (0 <= c < D)%Z -> coef (CyclotomicRing.neg a) c = - coef a c.
Proof.
  unfold wf, coef. intros Ha. cbn [CyclotomicRing.neg ring_coeffs].
  split; [unfold len in *; by rewrite length_map|]. intros c Hc. apply get_map. lia.
Qed.

Lemma one_spec {Er} :
  exists r, CyclotomicRing.one (Er := Er) D = Ok r /\ wf r /\
    forall c, (0 <= c < D)%Z -> coef r c = mono 0 c.
Proof.
  unfold CyclotomicRing.one.
  destruct (get_store (Er := Er) (CyclotomicRing.zeros (E := E) D) 0 1) as (o & -> & Hl & Hg).
  { rewrite len_zeros by lia. lia. }
  rewrite len_zeros in Hl by lia. exists (Build_CyclotomicRing o). split; [done|]. split; [done|].
  intros c Hc. unfold coef. cbn [ring_coeffs]. by rewrite Hg, get_zeros, mono_small by lia.
Qed.
End ring_spec.

(** * Products of ring elements *)

Section products.
Context {E : Type} `{FieldLaws E}.
Add Ring Ering4 : (field_ring (E := E)).
Local Open Scope field_scope.
Variable D : Z.
Hypothesis D_pos : (0 < D)%Z.
Context {Er : Type}.
Abbreviation ring := (CyclotomicRing E).
Abbreviation mono := (mono D).
Abbreviation wf := (wf D).
Abbreviation mul := (CyclotomicRing.mul (Er := Er) D).
Abbreviation shift := (CyclotomicRing.negacyclic_shift (Er := Er) D).

(** Two computations of ring elements with the same coefficients are equal. *)
Definition computes (m : outcome Er ring) (f : Z -> E) : Prop :=
  exists r, m = Ok r /\ wf r /\ forall c, (0 <= c < D)%Z -> coef r c = f c.

Lemma computes_unique m1 m2 f1 f2 :
  computes m1 f1 -> computes m2 f2 -> (forall c, (0 <= c < D)%Z -> f1 c = f2 c) -> m1 = m2.
Proof.
  intros (r1 & -> & Hw1 & Hr1) (r2 & -> & Hw2 & Hr2) Hf. f_equal.
  apply (ring_ext D); [done..|]. intros c Hc. by rewrite Hr1, Hr2, Hf.
Qed.

Lemma computes_mul a b f g :
  wf a -> wf b -> (forall c, (0 <= c < D)%Z -> coef a c = f c) ->
  (forall c, (0 <= c < D)%Z -> coef b c = g c) -> computes (mul a b) (mul_coef D f g).
Proof.
  intros Ha Hb Hf Hg. destruct (mul_spec D D_pos (Er := Er) a b Ha Hb) as (r & Hr & Hw & Hc).
  exists r. split; [done|]. split; [done|]. intros c Hcc. rewrite Hc by done.
  by apply mul_coef_ext.
Qed.

Lemma computes_bind_mul m1 m2 f g :
  computes m1 f -> computes m2 g ->
  computes (let* a := m1 in let* b := m2 in mul a b) (mul_coef D f g).
Proof.
  intros (a & -> & Ha & Hf) (b & -> & Hb & Hg). cbn [obind]. by apply computes_mul.
Qed.

Lemma computes_Ok a : wf a -> computes (Ok a) (coef a).
Proof. intros Ha. by exists a. Qed.

Lemma computes_one : computes (CyclotomicRing.one D) (mono 0).
Proof. apply one_spec; done. Qed.

Lemma computes_add m1 m2 f g :
  computes m1 f -> computes m2 g ->
  computes (let* a := m1 in let* b := m2 in Ok (CyclotomicRing.add_assign a b)) (fun c => f c + g c).
Proof.
  intros (a & -> & Ha & Hf) (b & -> & Hb & Hg). cbn [obind].
  destruct (add_spec D a b Ha Hb) as [Hw Hc]. eexists; split; [done|]. split; [done|].
  intros c Hcc. by rewrite Hc, Hf, Hg.
Qed.

(** ** Shifts *)

(** Where coefficient [i] of the shifted element goes, and its sign. *)
Definition target (k i : Z) : Z :=
  if (i + k mod D <? D)%Z then (i + k mod D)%Z else (i + k mod D - D)%Z.
Definition negated (k i : Z) : bool := xorb (D <=? k)%Z (D <=? i + k mod D)%Z.

Lemma target_range k i : (0 <= i < D)%Z -> (0 <= target k i < D)%Z.
Proof.
  pose proof (Z.mod_pos_bound k D D_pos). unfold target. destruct (Z.ltb_spec (i + k mod D) D); lia.
Qed.

Lemma shift_mono k i c :
  (0 <= k < 2 * D)%Z -> (0 <= i < D)%Z ->
  mono (i + k) c = if (c =? target k i)%Z then (if negated k i then - (1) else 1) else 0.
Proof.
  intros Hk Hi. pose proof (Z.mod_pos_bound k D D_pos) as Hs.
  pose proof (Z.div_mod k D ltac:(lia)) as Hkd. unfold target, negated.
  set (s := (k mod D)%Z) in *. set (q := (k / D)%Z) in *.
  assert (Hq : (q = 0 \/ q = 1)%Z) by nia.
  replace (i + k)%Z with (D * q + (i + s))%Z by lia. rewrite mono_euclid by done.
  assert (Hkq : (D <=? k)%Z = (q =? 1)%Z) by (destruct Hq as [-> | ->]; case_Z).
  rewrite Hkq. clear Hkq Hkd.
  destruct (Z.ltb_spec (i + s) D); destruct (Z.leb_spec D (i + s)); try lia.
  - rewrite mono_small by lia. destruct Hq as [-> | ->];
      [change (sgn 0) with (1 : E)|change (sgn 1) with (- (1) : E)]; destruct (_ =? _)%Z; cbn; ring.
  - replace (i + s)%Z with (i + s - D + D)%Z at 1 by lia. rewrite mono_wrapped by lia.
    destruct Hq as [-> | ->];
      [change (sgn 0) with (1 : E)|change (sgn 1) with (- (1) : E)]; destruct (_ =? _)%Z; cbn; ring.
Qed.

Lemma target_inj k i j :
  (0 <= i < D)%Z -> (0 <= j < D)%Z -> target k i = target k j -> i = j.
Proof.
  unfold target. intros Hi Hj. pose proof (Z.mod_pos_bound k D D_pos).
  destruct (Z.ltb_spec (i + k mod D) D), (Z.ltb_spec (j + k mod D) D); lia.
Qed.

(** The loop of [negacyclic_shift], by its first [n] iterations. *)
Lemma shift_loop a k n :
  wf a -> (0 <= k < 2 * D)%Z -> (0 <= n <= D)%Z ->
  exists o,
    ofold (E := Er) (fun o i =>
      let* c := unwrap (index (ring_coeffs a) i) in
      let coeff := if xorb (D <=? k)%Z (D <=? i + k mod D)%Z then - c else c in
      if (i + k mod D <? D)%Z then store o (i + k mod D)%Z coeff
      else store o (i + k mod D - D)%Z coeff)
      (range n) (CyclotomicRing.zeros D) = Ok o /\ len o = D /\
    forall c, (0 <= c < D)%Z -> get o c = sumZ n (fun i => coef a i * mono (i + k) c).
Proof.
  intros Ha Hk Hn. replace n with (Z.of_nat (Z.to_nat n)) in * by lia.
  induction (Z.to_nat n) as [|m IH].
  { exists (CyclotomicRing.zeros D). split; [done|]. split; [apply len_zeros; lia|].
    intros c _. apply get_zeros. }
  destruct IH as (o & Ho & Hl & Hg); [lia|]. rewrite Nat2Z.inj_succ in *. unfold Z.succ in *.
  rewrite range_S, ofold_app, Ho by lia. cbn [obind ofold].
  rewrite index_get by (unfold Cyclotomic.wf in Ha; lia). cbn [unwrap obind].
  fold (coef a (Z.of_nat m)). set (i := Z.of_nat m) in *.
  set (v := if xorb (D <=? k)%Z (D <=? i + k mod D)%Z then - coef a i else coef a i).
  pose proof (target_range k i ltac:(lia)) as Ht.
  destruct (get_store (Er := Er) o (target k i) v ltac:(lia)) as (o' & Ho' & Hl' & Hg').
  exists o'. split. { unfold target in Ho'. destruct (i + k mod D <? D)%Z; by rewrite Ho'. }
  split; [lia|]. intros c Hc. rewrite sumZ_S by lia. rewrite Hg', Hg, shift_mono by lia.
  destruct (Z.eqb_spec c (target k i)) as [->|]; [|ring].
  rewrite sumZ_zero; [subst v; unfold negated; destruct (xorb _ _); ring|].
  intros j Hj. rewrite shift_mono by lia.
  destruct (Z.eqb_spec (target k i) (target k j)) as [He|]; [|ring].
  apply target_inj in He; lia.
Qed.

Lemma computes_shift a k :
  wf a -> computes (shift a k) (fun c => sumZ D (fun i => coef a i * mono (i + k) c)).
Proof.
  intros Ha. unfold CyclotomicRing.negacyclic_shift. unfold assert.
  destruct (Z.ltb_spec 0 D); [|lia]. cbn [obind].
  pose proof (Z.mod_pos_bound k (2 * D) ltac:(lia)) as Hk'. set (k' := (k mod (2 * D))%Z) in *.
  assert (Hm : forall c, sumZ D (fun i => coef a i * mono (i + k') c)
                 = sumZ D (fun i => coef a i * mono (i + k) c)).
  { intros c. apply sumZ_ext. intros i _. f_equal. rewrite <-(mono_mod_2D D D_pos (i + k')).
    subst k'. rewrite Z.add_mod_idemp_r by lia. by apply mono_mod_2D. }
  destruct (Z.eqb_spec k' 0) as [H0'|Hne].
  { exists a. split; [done|]. split; [done|]. intros c Hc. rewrite <-Hm, H0'.
    rewrite <-(mono_expand D (coef a) c Hc) at 1. apply sumZ_ext. intros i _. by rewrite Z.add_0_r. }
  destruct (Z.eqb_spec (k' mod D) 0) as [Hd|Hd].
  { destruct (neg_spec D a Ha) as [Hw Hc']. exists (CyclotomicRing.neg a). split; [done|].
    split; [done|]. intros c Hc. rewrite Hc', <-Hm by done.
    assert (Hkd : k' = D).
    { pose proof (Z.div_mod k' D ltac:(lia)) as Hdm. rewrite Hd in Hdm.
      assert (0 < k' / D < 2)%Z by nia. assert (k' / D = 1)%Z as Hq by lia.
      rewrite Hq in Hdm. lia. }
    rewrite Hkd.
    rewrite <-(mono_expand D (coef a) c Hc) at 1. transitivity ((- (1)) * sumZ D (fun i => coef a i * mono i c)); [ring|].
    rewrite <-sumZ_mul. apply sumZ_ext. intros i _.
    replace (i + D)%Z with (D * 1 + i)%Z by lia. rewrite mono_euclid by done.
    change (sgn 1) with (- (1) : E). ring. }
  destruct (shift_loop a k' D Ha ltac:(lia) ltac:(lia)) as (o & Ho & Hl & Hg). cbv zeta in Ho |- *.
  rewrite Ho. cbn [obind]. eexists; split; [done|]. split; [exact Hl|].
  intros c Hc. unfold coef at 1. cbn [ring_coeffs]. by rewrite Hg, Hm.
Qed.

(** ** Automorphisms *)

Definition sigma_coef (k : Z) (f : Z -> E) (c : Z) : E := sumZ D (fun j => f j * mono (j * k) c).

Lemma odd_mod_2D k : Z.odd k = true -> (k mod (2 * D) mod 2 =? 1)%Z = true.
Proof.
  intros Hk. apply Z.eqb_eq. rewrite Z.odd_spec in Hk. destruct Hk as [h ->].
  rewrite (Z.mul_comm 2 D).
  rewrite (Z.mod_eq (2 * h + 1) (D * 2)) by lia.
  replace (2 * h + 1 - D * 2 * ((2 * h + 1) / (D * 2)))%Z
    with (1 + (h - D * ((2 * h + 1) / (D * 2))) * 2)%Z by lia.
  by rewrite Z.mod_add by lia.
Qed.

Lemma computes_sigma a k :
  wf a -> Z.odd k = true ->
  computes (CyclotomicRing.sigma D a k) (sigma_coef k (coef a)).
Proof.
  intros Ha Hk. unfold CyclotomicRing.sigma, assert. destruct (Z.ltb_spec 0 D); [|lia].
  cbn [obind]. rewrite odd_mod_2D by done. cbn [obind].
  edestruct (adds_zeros (Er := Er) D D_pos) as (o & Ho & Hl & Hg);
    [|rewrite Ho; cbn [obind]].
  { apply (adds_zip_range D) with (delta := fun j c => coef a j * mono (j * k) c); [done|].
    intros j Hj. eapply adds_ext; [apply (adds_signed D D_pos)|].
    - apply Z.mod_pos_bound. lia.
    - intros c _. cbn beta. rewrite mono_mod_2D by done. rewrite <-(mono_mod_2D D D_pos (j * k)).
      rewrite <-Z.mul_mod_idemp_r by lia. by rewrite mono_mod_2D by done. }
  exists (Build_CyclotomicRing o). split; [done|]. split; [exact Hl|]. exact Hg.
Qed.

Lemma mono_pow n k c :
  Z.odd k = true -> sumZ D (fun m => mono n m * mono (m * k) c) = mono (n * k) c.
Proof.
  intros Hk. rewrite (mono_select D D_pos n (fun m => mono (m * k) c)).
  rewrite (Z.div_mod n D) at 3 by lia.
  replace ((D * (n / D) + n mod D) * k)%Z with (D * (n / D * k) + n mod D * k)%Z by lia.
  rewrite mono_euclid by done. f_equal. unfold sgn. rewrite Z.even_mul.
  rewrite <-(Z.negb_odd k), Hk. cbn [negb]. by rewrite orb_false_r.
Qed.

Lemma sigma_coef_mul k f g c :
  Z.odd k = true ->
  sigma_coef k (mul_coef D f g) c = mul_coef D (sigma_coef k f) (sigma_coef k g) c.
Proof.
  intros Hk.
  transitivity (sumZ D (fun i => sumZ D (fun j => f i * g j * mono ((i + j) * k) c))).
  - unfold sigma_coef, mul_coef.
    transitivity (sumZ D (fun m => sumZ D (fun i => sumZ D (fun j =>
        f i * g j * (mono (i + j) m * mono (m * k) c))))).
    + apply sumZ_ext. intros m _. rewrite <-sumZ_mul_r. apply sumZ_ext. intros i _.
      rewrite <-sumZ_mul_r. apply sumZ_ext. intros; ring.
    + rewrite sumZ_swap. apply sumZ_ext. intros i _. rewrite sumZ_swap. apply sumZ_ext. intros j _.
      by rewrite sumZ_mul, mono_pow by done.
  - unfold sigma_coef. rewrite (mul_coef_combo D D_pos). apply sumZ_ext. intros i _.
    transitivity (sumZ D (fun m => sumZ D (fun j => f i * g j * (mono (j * k) m * mono (m + i * k) c)))).
    + rewrite sumZ_swap. apply sumZ_ext. intros j _. rewrite sumZ_mul, (mono_mul D D_pos).
      do 2 f_equal. lia.
    + apply sumZ_ext. intros m _. rewrite (Z.add_comm m).
      transitivity (f i * mono (i * k + m) c * sumZ D (fun j => g j * mono (j * k) m)); [|ring].
      rewrite <-sumZ_mul. apply sumZ_ext. intros; ring.
Qed.

Lemma sigma_coef_sigma j k f c :
  Z.odd k = true -> sigma_coef k (sigma_coef j f) c = sigma_coef (j * k) f c.
Proof.
  intros Hk. unfold sigma_coef.
  transitivity (sumZ D (fun m => sumZ D (fun i => f i * (mono (i * j) m * mono (m * k) c)))).
  - apply sumZ_ext. intros m _. rewrite <-sumZ_mul_r. apply sumZ_ext. intros; ring.
  - rewrite sumZ_swap. apply sumZ_ext. intros i _. rewrite sumZ_mul, mono_pow by done.
    do 2 f_equal. lia.
Qed.

(** ** Fused shifts *)

(** The two halves updated in place, as one list. *)
Lemma halves_spec (direct wrapped : E -> E -> E) (d s : list E) k c :
  len d = D -> len s = D -> (0 <= k < D)%Z -> (0 <= c < D)%Z ->
  let o := zip_update wrapped (take (Z.to_nat k) d) (drop (Z.to_nat (D - k)) s) ++
           zip_update direct (drop (Z.to_nat k) d) (take (Z.to_nat (D - k)) s) in
  len o = D /\
  get o c = if (c <? k)%Z then wrapped (get d c) (get s (c - k + D)) else direct (get d c) (get s (c - k)).
Proof.
  intros Hd Hs Hk Hc o. subst o. rewrite len_app, !zip_update_len, len_take_Z, len_drop_Z by lia.
  split; [lia|]. rewrite get_app, zip_update_len, len_take_Z by lia.
  destruct (Z.ltb_spec c k).
  - rewrite get_zip_update; rewrite ?len_take_Z, ?len_drop_Z by lia; try lia.
    rewrite get_take, get_drop by lia. do 2 f_equal. lia.
  - rewrite get_zip_update; rewrite ?len_take_Z, ?len_drop_Z by lia; try lia.
    rewrite get_take, get_drop by lia. do 2 f_equal; lia.
Qed.

Lemma shifted_coef f k c :
  (0 <= k < D)%Z -> (0 <= c < D)%Z ->
  sumZ D (fun i => f i * mono (i + k) c)
  = if (c <? k)%Z then - f (c - k + D)%Z else f (c - k)%Z.
Proof.
  intros Hk Hc.
  assert (Hi : forall i, (0 <= i < D)%Z -> mono (i + k) c
             = if (i + k =? c)%Z then 1 else if (i + k =? c + D)%Z then - (1) else 0).
  { intros i Hi. destruct (Z.ltb_spec (i + k) D).
    - rewrite mono_small by lia. destruct (Z.eqb_spec c (i + k)), (Z.eqb_spec (i + k) c),
        (Z.eqb_spec (i + k) (c + D)); try lia; done.
    - replace (i + k)%Z with (i + k - D + D)%Z at 1 by lia. rewrite mono_wrapped by lia.
      destruct (Z.eqb_spec c (i + k - D)), (Z.eqb_spec (i + k) c),
        (Z.eqb_spec (i + k) (c + D)); try lia; done. }
  destruct (Z.ltb_spec c k).
  - rewrite (sumZ_single D (c - k + D)%Z); [|lia|].
    + rewrite Hi by lia. case_Z. ring.
    + intros i Hi' Hne. rewrite Hi by lia. case_Z. ring.
  - rewrite (sumZ_single D (c - k)%Z); [|lia|].
    + rewrite Hi by lia. case_Z. ring.
    + intros i Hi' Hne. rewrite Hi by lia. case_Z. ring.
Qed.

(** [dst += u * self * X^k] in any of the fused forms. *)
Lemma shift_into_spec `{BuildMode} direct wrapped u a dst k :
  (forall d s, direct d s = d + u * s) -> (forall d s, wrapped d s = d - u * s) ->
  wf a -> wf dst -> (0 <= k < D)%Z ->
  computes (CyclotomicRing.shift_into D direct wrapped a dst k)
    (fun c => coef dst c + u * sumZ D (fun i => coef a i * mono (i + k) c)).
Proof.
  intros Hdir Hwrap Ha Hd Hk. unfold Cyclotomic.wf in Ha, Hd.
  unfold CyclotomicRing.shift_into, debug_assert.
  destruct (Z.ltb_spec k D); [|lia]. cbn [negb]. rewrite andb_false_r. cbn [obind].
  rewrite split_at_Ok by lia. cbn [obind]. rewrite split_at_Ok by lia. cbn [obind].
  eexists; split; [done|].
  split; [exact (proj1 (halves_spec direct wrapped _ _ k 0 Hd Ha Hk ltac:(lia)))|].
  intros c Hc. unfold coef at 1. cbn [ring_coeffs].
  rewrite (proj2 (halves_spec direct wrapped _ _ k c Hd Ha Hk Hc)), shifted_coef by done.
  unfold coef. destruct (c <? k)%Z; [rewrite Hwrap; ring|by rewrite Hdir].
Qed.
End products.

(** * The theorems *)

Section theorems.
Context {E : Type} `{FieldLaws E}.
Add Ring Ering5 : (field_ring (E := E)).
Local Open Scope field_scope.
Variable D : Z.
Hypothesis D_pos : (0 < D)%Z.
Context {Er : Type}.
Abbreviation ring := (CyclotomicRing E).
Abbreviation mono := (mono D).
Abbreviation wf := (wf D).
Abbreviation mul := (CyclotomicRing.mul (Er := Er) D).
Abbreviation computes := (computes D (Er := Er)).
Abbreviation add := CyclotomicRing.add_assign.

Lemma computes_fold {A} (m : ring -> A -> outcome Er ring) (delta : A -> Z -> E) l dst :
  (forall a dst, a ∈ l -> wf dst -> computes (m dst a) (fun c => coef dst c + delta a c)) ->
  wf dst ->
  computes (ofold m l dst) (fun c => coef dst c + fsum (map (fun a => delta a c) l)).
Proof.
  revert dst; induction l as [|a l IH]; intros dst Hm Hd; cbn [ofold].
  - exists dst. split; [done|]. split; [done|]. intros c _. cbn. change (coef dst c = coef dst c + 0). ring.
  - destruct (Hm a dst ltac:(by left) Hd) as (d1 & -> & Hw & Hc). cbn [obind].
    destruct (IH d1 (fun b d Hb => Hm b d ltac:(by right)) Hw) as (d2 & -> & Hw2 & Hc2).
    exists d2. split; [done|]. split; [done|]. intros c Hcc. rewrite Hc2, Hc by done.
    cbn [map]. rewrite fsum_cons. ring.
Qed.

Lemma mul_coef_rows f g c :
  mul_coef D f g c = sumZ D (fun i => f i * sumZ D (fun j => g j * mono (j + i) c)).
Proof.
  apply sumZ_ext. intros i _. rewrite <-sumZ_mul. apply sumZ_ext. intros j _.
  rewrite Z.add_comm. ring.
Qed.

(** [dst + a * b] *)
Lemma computes_mul_add a b dst :
  wf a -> wf b -> wf dst ->
  computes (let* r := mul a b in Ok (add dst r)) (fun c => coef dst c + mul_coef D (coef a) (coef b) c).
Proof.
  intros Ha Hb Hd. destruct (mul_spec D D_pos (Er := Er) a b Ha Hb) as (r & -> & Hw & Hr).
  cbn [obind]. destruct (add_spec D dst r Hd Hw) as [Hw' Hc]. eexists; split; [done|].
  split; [done|]. intros c Hcc. by rewrite Hc, Hr.
Qed.

Lemma mul_accumulate_step a b dst i :
  wf a -> wf b -> wf dst -> (0 <= i < D)%Z ->
  computes (let* ai := unwrap (index (ring_coeffs a) i) in
            if feqb ai 0 then Ok dst
            else
              let* (dst_wrap, dst_direct) := split_at (ring_coeffs dst) i in
              let* (rhs_direct, rhs_wrap) := split_at (ring_coeffs b) (D - i) in
              Ok (Build_CyclotomicRing
                    (zip_update (fun d r => d - ai * r) dst_wrap rhs_wrap ++
                     zip_update (fun d r => d + ai * r) dst_direct rhs_direct)))
    (fun c => coef dst c + coef a i * sumZ D (fun j => coef b j * mono (j + i) c)).
Proof.
  intros Ha Hb Hd Hi. rewrite index_get by (unfold Cyclotomic.wf in *; lia). cbn [unwrap obind].
  fold (coef a i). destruct (feqb (coef a i) 0) eqn:Hz.
  - apply feqb_spec in Hz. exists dst. split; [done|]. split; [done|]. intros c _. rewrite Hz. ring.
  - destruct (shift_into_spec (Er := Er) D D_pos (H1 := false) (fun d r => d + coef a i * r)
                (fun d r => d - coef a i * r) (coef a i) b dst i
                (fun _ _ => eq_refl) (fun _ _ => eq_refl) Hb Hd Hi) as (r & Hr & Hw & Hc).
    exists r. split; [exact Hr|]. by split.
Qed.

Abbreviation shift := (CyclotomicRing.negacyclic_shift (Er := Er) D).
Abbreviation one := (CyclotomicRing.one (E := E) (Er := Er) D).

Lemma mul_comm a b : wf a -> wf b -> mul a b = mul b a.
Proof.
  intros Ha Hb. apply (computes_unique D _ _ (mul_coef D (coef a) (coef b)) (mul_coef D (coef b) (coef a)));
    [by apply computes_mul..|]. intros; apply mul_coef_comm.
Qed.

Lemma mul_assoc a b c :
  wf a -> wf b -> wf c -> (let* r := mul a b in mul r c) = (let* r := mul b c in mul a r).
Proof.
  intros Ha Hb Hc.
  destruct (mul_spec D D_pos (Er := Er) a b Ha Hb) as (ab & -> & Wab & Cab).
  destruct (mul_spec D D_pos (Er := Er) b c Hb Hc) as (bc & -> & Wbc & Cbc). cbn [obind].
  eapply (computes_unique D);
    [exact (computes_mul D D_pos _ _ _ _ Wab Hc Cab (fun _ _ => eq_refl))
    |exact (computes_mul D D_pos _ _ _ _ Ha Wbc (fun _ _ => eq_refl) Cbc)|].
  intros; by apply mul_coef_assoc.
Qed.

Lemma mul_add_distr a b c :
  wf a -> wf b -> wf c ->
  mul (add a b) c = (let* x := mul a c in let* y := mul b c in Ok (add x y)).
Proof.
  intros Ha Hb Hc. destruct (add_spec D a b Ha Hb) as [Ws Cs].
  eapply (computes_unique D);
    [exact (computes_mul D D_pos _ _ _ _ Ws Hc Cs (fun _ _ => eq_refl))
    |apply (computes_add D); apply (computes_mul D D_pos); done|].
  intros; apply mul_coef_add.
Qed.

Lemma one_mul a : wf a -> (let* u := one in mul u a) = Ok a.
Proof.
  intros Ha. pose proof (computes_Ok D (Er := Er) a Ha) as Ca.
  eapply (computes_unique D);
    [exact (computes_bind_mul D D_pos _ _ _ _ (computes_one D D_pos) Ca)|exact Ca|].
  intros c Hc. rewrite mul_coef_mono by done. by apply mono_expand.
Qed.

Lemma shift_is_mul a k :
  wf a -> shift a k = (let* u := one in let* xk := shift u k in mul xk a).
Proof.
  intros Ha. destruct (computes_one D D_pos (Er := Er)) as (u & Hu & Wu & Cu).
  rewrite Hu. cbn [obind].
  eapply (computes_unique D);
    [exact (computes_shift D D_pos a k Ha)
    |exact (computes_bind_mul D D_pos _ _ _ _ (computes_shift D D_pos (Er := Er) u k Wu)
              (computes_Ok D a Ha))|].
  intros c Hc. cbn beta.
  transitivity (mul_coef D (mono k) (coef a) c).
  - rewrite mul_coef_mono by done. apply sumZ_ext. intros i _. by rewrite Z.add_comm.
  - apply mul_coef_ext; [|done]. intros i Hi.
    transitivity (sumZ D (fun j => mono 0 j * mono (j + k) i)); [by rewrite mono_mul|].
    apply sumZ_ext. intros j Hj. by rewrite Cu.
Qed.

Lemma shift_shift a k l : wf a -> (let* s := shift a k in shift s l) = shift a (k + l).
Proof.
  intros Ha. destruct (computes_shift D D_pos (Er := Er) a k Ha) as (s & -> & Ws & Cs).
  cbn [obind].
  eapply (computes_unique D); [exact (computes_shift D D_pos s l Ws)|exact (computes_shift D D_pos a _ Ha)|].
  intros c Hc. cbn beta.
  transitivity (sumZ D (fun m => sumZ D (fun i => coef a i * (mono (i + k) m * mono (m + l) c)))).
  - apply sumZ_ext. intros m Hm. rewrite Cs by done. rewrite <-sumZ_mul_r.
    apply sumZ_ext. intros; ring.
  - rewrite sumZ_swap. apply sumZ_ext. intros i _. rewrite sumZ_mul, mono_mul by done.
    do 2 f_equal. lia.
Qed.

Lemma shift_D a : wf a -> shift a D = Ok (CyclotomicRing.neg a).
Proof.
  intros Ha. destruct (neg_spec D a Ha) as [Wn Cn].
  eapply (computes_unique D); [exact (computes_shift D D_pos a D Ha)|exact (computes_Ok D _ Wn)|].
  intros c Hc. rewrite Cn by done. rewrite <-(mono_expand D (coef a) c Hc).
  transitivity (- (1) * sumZ D (fun i => coef a i * mono i c)); [|ring].
  rewrite <-sumZ_mul. apply sumZ_ext. intros i _.
  replace (i + D)%Z with (D * 1 + i)%Z by lia. rewrite mono_euclid by done.
  change (sgn 1) with (- (1) : E). ring.
Qed.

(** C19: negacyclic multiplication makes the coefficient arrays a commutative
    ring with [X^D = -1], and never panics on arrays of length [D]: it is
    commutative, associative, distributes over addition, has the computed one
    as unit, and shifting by [k] is multiplication by [X^k], with shifts
    composing additively and the shift by [D] being negation. *)
Theorem cyclotomic_ring_laws a b c k l :
  wf a -> wf b -> wf c ->
  (exists r, mul a b = Ok r /\ wf r) /\
  mul a b = mul b a /\
  (let* r := mul a b in mul r c) = (let* r := mul b c in mul a r) /\
  mul (add a b) c = (let* x := mul a c in let* y := mul b c in Ok (add x y)) /\
  (let* u := one in mul u a) = Ok a /\
  shift a k = (let* u := one in let* xk := shift u k in mul xk a) /\
  (let* s := shift a k in shift s l) = shift a (k + l) /\
  shift a D = Ok (CyclotomicRing.neg a).
Proof.
  intros Ha Hb Hc. repeat split.
  - destruct (mul_spec D D_pos (Er := Er) a b Ha Hb) as (ab & Hab & Wab & _). by exists ab.
  - by apply mul_comm.
  - by apply mul_assoc.
  - by apply mul_add_distr.
  - by apply one_mul.
  - by apply shift_is_mul.
  - by apply shift_shift.
  - by apply shift_D.
Qed.

(** the fused multiply-accumulate routines, dense and sparse, and in
    every build mode, compute [dst + self * rhs] exactly as the schoolbook
    product does, without panicking. *)
Theorem fused_products_agree `{BuildMode} a b dst :
  wf a -> wf b -> wf dst ->
  CyclotomicRing.mul_accumulate_into (Er := Er) D a b dst
    = (let* r := mul a b in Ok (add dst r)) /\
  CyclotomicRing.mul_accumulate_sparse_rhs_into (Er := Er) D a b dst
    = (let* r := mul a b in Ok (add dst r)) /\
  exists r, mul a b = Ok r /\ wf (add dst r).
Proof.
  intros Ha Hb Hd. pose proof (computes_mul_add a b dst Ha Hb Hd) as Hm. split; [|split].
  - eapply (computes_unique D); [|exact Hm|].
    + apply (computes_fold _ (fun i c => coef a i * sumZ D (fun j => coef b j * mono (j + i) c)));
        [|done].
      intros i d Hi%elem_of_range Hwd. by apply mul_accumulate_step.
    + intros c _. cbn beta. f_equal. by rewrite mul_coef_rows.
  - eapply (computes_unique D); [|exact Hm|].
    + apply (computes_fold _ (fun '(p, v) c => v * sumZ D (fun j => coef a j * mono (j + p) c)));
        [|done].
      intros [p v] d [Hp Hv]%elem_of_zip_range Hwd.
      assert (Hpd : (0 <= p < D)%Z) by (unfold Cyclotomic.wf in *; lia).
      destruct (feqb v 0) eqn:E0; [apply feqb_spec in E0 as ->|destruct (feqb v 1) eqn:E1;
        [apply feqb_spec in E1 as ->|destruct (feqb v (- (1))) eqn:E2; [apply feqb_spec in E2 as ->|]]].
      * exists d. split; [done|]. split; [done|]. intros; ring.
      * apply shift_into_spec; try done; intros; ring.
      * apply shift_into_spec; try done; intros; ring.
      * apply shift_into_spec; try done; intros; [rewrite fmul_add_spec|]; ring.
    + intros c _. cbn beta. f_equal. rewrite mul_coef_comm, mul_coef_rows.
      transitivity (fsum (map (fun i => coef b i * sumZ D (fun j => coef a j * mono (j + i) c))
                            (range (len (ring_coeffs b))))); [|by rewrite Hb].
      rewrite <-(map_zip_range (fun p v => v * sumZ D (fun j => coef a j * mono (j + p) c))).
      * f_equal. apply map_ext. by intros [p v].
      * intros i v Hi. unfold coef at 2, get. by rewrite Hi.
  - destruct (mul_spec D D_pos (Er := Er) a b Ha Hb) as (r & Hr & Hw & _).
    exists r. split; [done|]. by apply add_spec.
Qed.

Abbreviation sigma := (CyclotomicRing.sigma (Er := Er) D).

Lemma sigma_mul a b k :
  wf a -> wf b -> Z.odd k = true ->
  (let* ab := mul a b in sigma ab k) = (let* x := sigma a k in let* y := sigma b k in mul x y).
Proof.
  intros Ha Hb Hk. destruct (mul_spec D D_pos (Er := Er) a b Ha Hb) as (ab & -> & Wab & Cab).
  cbn [obind].
  eapply (computes_unique D);
    [exact (computes_sigma D D_pos ab k Wab Hk)
    |exact (computes_bind_mul D D_pos _ _ _ _ (computes_sigma D D_pos a k Ha Hk)
              (computes_sigma D D_pos b k Hb Hk))|].
  intros c Hc. rewrite <-sigma_coef_mul by done. apply sumZ_ext. intros i Hi. by rewrite Cab.
Qed.

Lemma sigma_add a b k :
  wf a -> wf b -> Z.odd k = true ->
  sigma (add a b) k = (let* x := sigma a k in let* y := sigma b k in Ok (add x y)).
Proof.
  intros Ha Hb Hk. destruct (add_spec D a b Ha Hb) as [Ws Cs].
  eapply (computes_unique D);
    [exact (computes_sigma D D_pos _ k Ws Hk)
    |exact (computes_add D _ _ _ _ (computes_sigma D D_pos a k Ha Hk) (computes_sigma D D_pos b k Hb Hk))|].
  intros c Hc. unfold sigma_coef. rewrite <-sumZ_add. apply sumZ_ext. intros i Hi.
  rewrite Cs by done. ring.
Qed.

Lemma sigma_sigma a j k :
  wf a -> Z.odd j = true -> Z.odd k = true ->
  (let* x := sigma a j in sigma x k) = sigma a (j * k).
Proof.
  intros Ha Hj Hk. assert (Hjk : Z.odd (j * k) = true) by (by rewrite Z.odd_mul, Hj, Hk).
  destruct (computes_sigma D D_pos (Er := Er) a j Ha Hj) as (x & -> & Wx & Cx). cbn [obind].
  eapply (computes_unique D);
    [exact (computes_sigma D D_pos x k Wx Hk)|exact (computes_sigma D D_pos a _ Ha Hjk)|].
  intros c Hc. rewrite <-sigma_coef_sigma by done. apply sumZ_ext. intros i Hi. by rewrite Cx.
Qed.

(** Exponents that are 1 modulo [2D] change nothing. *)
Lemma sigma_identity a q : wf a -> sigma a (1 + 2 * D * q) = Ok a.
Proof.
  intros Ha.
  assert (Hodd : Z.odd (1 + 2 * D * q) = true).
  { rewrite Z.odd_add, <-Z.mul_assoc, Z.odd_mul. done. }
  eapply (computes_unique D);
    [exact (computes_sigma D D_pos a _ Ha Hodd)|exact (computes_Ok D a Ha)|].
  intros c Hc. rewrite <-(mono_expand D (coef a) c Hc). apply sumZ_ext. intros i _. f_equal.
  replace (i * (1 + 2 * D * q))%Z with (D * (2 * (i * q)) + i)%Z by lia.
  rewrite mono_euclid by done. unfold sgn. rewrite Z.even_mul. cbn [Z.even orb]. ring.
Qed.

Lemma sigma_m1_eq a : CyclotomicRing.sigma_m1 (Er := Er) D a = sigma a (2 * D - 1).
Proof.
  unfold CyclotomicRing.sigma_m1, assert. by destruct (Z.ltb_spec 0 D); [|lia].
Qed.

Lemma sigma_even a k : Z.odd k = false -> sigma a k = Panic.
Proof.
  intros Hk. unfold CyclotomicRing.sigma, assert. destruct (Z.ltb_spec 0 D); [|lia]. cbn [obind].
  replace (k mod (2 * D) mod 2 =? 1)%Z with false; [done|].
  symmetry. apply Z.eqb_neq. rewrite <-Z.negb_even, negb_false_iff, Z.even_spec in Hk.
  destruct Hk as [h ->]. rewrite (Z.mod_eq (2 * h) (2 * D)) by lia.
  replace (2 * h - 2 * D * (2 * h / (2 * D)))%Z with ((h - D * (2 * h / (2 * D))) * 2)%Z by lia.
  by rewrite Z.mod_mul by lia.
Qed.

(** [sigma_k] for odd [k] is a ring endomorphism computed without panic:
    it respects products and sums, [sigma_k] after [sigma_j] is
    [sigma_(j k)], exponents only matter modulo [2D], [sigma_m1] is its own
    inverse; an even [k] panics. *)
Theorem sigma_endomorphism a b j k q :
  wf a -> wf b -> Z.odd j = true -> Z.odd k = true ->
  (exists r, sigma a k = Ok r /\ wf r) /\
  (let* ab := mul a b in sigma ab k) = (let* x := sigma a k in let* y := sigma b k in mul x y) /\
  sigma (add a b) k = (let* x := sigma a k in let* y := sigma b k in Ok (add x y)) /\
  (let* x := sigma a j in sigma x k) = sigma a (j * k) /\
  sigma a (1 + 2 * D * q) = Ok a /\
  (let* x := CyclotomicRing.sigma_m1 (Er := Er) D a in CyclotomicRing.sigma_m1 D x) = Ok a /\
  sigma a (k + 1) = Panic.
Proof.
  intros Ha Hb Hj Hk. split; [|repeat split].
  - destruct (computes_sigma D D_pos (Er := Er) a k Ha Hk) as (r & Hr & Wr & _). by exists r.
  - by apply sigma_mul.
  - by apply sigma_add.
  - by apply sigma_sigma.
  - by apply sigma_identity.
  - assert (Hodd : Z.odd (2 * D - 1) = true) by (by rewrite Z.odd_sub, Z.odd_mul).
    rewrite sigma_m1_eq. transitivity (let* x := sigma a (2 * D - 1) in sigma x (2 * D - 1)).
    { destruct (sigma a (2 * D - 1)); [|done..]. apply sigma_m1_eq. }
    rewrite sigma_sigma by done.
    replace ((2 * D - 1) * (2 * D - 1))%Z with (1 + 2 * D * (2 * D - 2))%Z by lia.
    by apply sigma_identity.
  - apply sigma_even. by rewrite Z.odd_add, Hk.
Qed.
End theorems.

(** * Codec *)

Section codec.
Context {E : Type} `{Valid E, AkitaSerialize E, AkitaDeserialize E unit}.
(** [D], a constant parameter of the type. *)
Variable D : Z.

#[local] Instance CyclotomicRing_Valid : Valid (CyclotomicRing E) := fun r => check (ring_coeffs r).
#[local] Instance CyclotomicRing_Serialize : AkitaSerialize (CyclotomicRing E) := {
  serialize_with_mode r c := write_items (ring_coeffs r) c;
  serialized_size r c := items_size (ring_coeffs r) c;
}.
#[local] Instance CyclotomicRing_Deserialize : AkitaDeserialize (CyclotomicRing E) unit :=
  fun input c v _ =>
    let* (cs, rest) := read_items c v (replicate (Z.to_nat D) tt) input in
    let* out := checked_out v {| ring_coeffs := cs |} in
    Ok (out, rest).

Context `{!LawfulCodec E unit}.

#[local, refine] Instance CyclotomicRing_Lawful : LawfulCodec (CyclotomicRing E) unit := {
  codec_wf v _ r :=
    length (ring_coeffs r) = Z.to_nat D /\ Forall (codec_wf v tt) (ring_coeffs r) /\
    (v = ValidateYes -> check r = Ok tt);
}.
Proof.
  - intros v n [l] c (Hl & Hi & _). cbn [ring_coeffs] in *.
    apply (write_items_total v (replicate (length l) tt)). by apply Forall2_unit_replicate.
  - intros v n [l] c bs rest (Hl & Hi & Hc) Hs. unfold deserialize_with_mode, CyclotomicRing_Deserialize.
    apply (headerless_roundtrip Build_CyclotomicRing); [by apply Forall2_replicate_l|done..].
  - intros n a c input rest Hb Hd. unfold deserialize_with_mode, CyclotomicRing_Deserialize in Hd.
    apply (headerless_canonical Build_CyclotomicRing) in Hd as (l & -> & Hw & Hc & Hbs); [|done].
    by apply Forall2_replicate_l in Hw as [Hl Hw].
Defined.
End codec.

(** * Evaluation at concrete inputs: degree 4 over the integers modulo 97 *)

Definition ring97 (l : list Z) : CyclotomicRing F97.t := {| ring_coeffs := map F97.of_Z l |}.

Lemma cyclotomic_ring_laws_witness :
  let a := ring97 [1; 2; 3; 4]%Z in
  let b := ring97 [0; 1; 0; 5]%Z in
  CyclotomicRing.mul (Er := unit) 4 a b = Ok (ring97 [-14; -14; -18; 8]%Z) /\
  CyclotomicRing.mul (Er := unit) 4 b a = Ok (ring97 [-14; -14; -18; 8]%Z) /\
  CyclotomicRing.negacyclic_shift (Er := unit) 4 a 4 = Ok (CyclotomicRing.neg a).
Proof.
  intros a b. assert (Hm : CyclotomicRing.mul (Er := unit) 4 a b = Ok (ring97 [-14; -14; -18; 8]%Z))
    by reflexivity.
  split; [exact Hm|].
  destruct (cyclotomic_ring_laws (E := F97.t) 4 eq_refl (Er := unit) a b b 1 2
              eq_refl eq_refl eq_refl) as (_ & Hc & _ & _ & _ & _ & _ & HD).
  split; [rewrite <-Hc; exact Hm|exact HD].
Defined.

Lemma fused_products_agree_witness :
  let a := ring97 [1; 2; 3; 4]%Z in
  let b := ring97 [0; 1; -1; 5]%Z in
  let dst := ring97 [9; 9; 9; 9]%Z in
  CyclotomicRing.mul_accumulate_into (Er := unit) 4 a b dst
    = CyclotomicRing.mul_accumulate_sparse_rhs_into (H0 := true) 4 a b dst.
Proof.
  intros a b dst.
  destruct (fused_products_agree (E := F97.t) 4 eq_refl (Er := unit) (H1 := true) a b dst
              eq_refl eq_refl eq_refl) as (H1 & H2 & _).
  etransitivity; [exact H1|symmetry; exact H2].
Defined.

Lemma sigma_endomorphism_witness :
  let a := ring97 [1; 2; 3; 4]%Z in
  CyclotomicRing.sigma (Er := unit) 4 a 3 = Ok (ring97 [1; 4; -3; 2]%Z) /\
  CyclotomicRing.sigma (Er := unit) 4 a 4 = Panic.
Proof.
  intros a. split; [reflexivity|].
  destruct (sigma_endomorphism (E := F97.t) 4 eq_refl (Er := unit) a a 5 3 0
              eq_refl eq_refl eq_refl eq_refl) as (_ & _ & _ & _ & _ & _ & Hp).
  exact Hp.
Defined.
