(* ===== verification/RingEval.v ===== *)
(** [akita-algebra/src/ring/eval.rs] and [fft.rs::field_pow]: evaluation of
    ring elements at a scalar, at precomputed powers in an extension field,
    and the multilinear extension of a power sequence. *)

From S2P Require Import Prelude Field Checked MultiPoly Cyclotomic.
Local Open Scope field_scope.

(** [jolt_field::ExtField::mul_base]: multiplication by a base-field scalar. *)
Class MulBase (F E : Type) := {
  mul_base : E -> F -> E;
  embed : F -> E;
}.

(** It is multiplication by the image of a ring homomorphism. *)
Class MulBaseLaws (F E : Type) `{Field F, Field E, MulBase F E} := {
  mul_base_spec (e : E) (f : F) : mul_base e f = e * embed f;
  embed_zero : embed (0 : F) = (0 : E);
  embed_one : embed (1 : F) = (1 : E);
  embed_add (a b : F) : embed (a + b) = embed a + embed b;
  embed_mul (a b : F) : embed (a * b) = embed a * embed b;
  embed_neg (a : F) : embed (- a) = - embed a;
}.

Section ops.
Context {E : Type} `{Field E}.

(** The loop of [field_pow]; an exponent of [n] bits needs [n] rounds. *)
Fixpoint field_pow_loop (fuel : nat) (result b : E) (exp : Z) : E :=
  match fuel with
  | O => result
  | S fuel =>
      if (0 <? exp)%Z
      then field_pow_loop fuel (if (Z.land exp 1 =? 1)%Z then result * b else result) (b * b)
             (Z.shiftr exp 1)
      else result
  end.
Definition field_pow (base : E) (exp : Z) : E := field_pow_loop 64 1 base exp.

Fixpoint fill_powers (n : nat) (power alpha : E) : list E :=
  match n with O => [] | S n => power :: fill_powers n (power * alpha) alpha end.
Definition scalar_powers (alpha : E) (len : Z) : list E := fill_powers (Z.to_nat len) 1 alpha.

Definition scalar_powers_with_stride (alpha : E) (stride len : Z) : result (list E) :=
  if (len <=? 1)%Z then Ok (scalar_powers alpha len)
  else
    let* exponent := ok_or (checked_u 64 stride) (InvalidInput "power stride does not fit u64") in
    Ok (scalar_powers (field_pow alpha exponent) len).

Definition evaluate_power_sequence_mle (base : E) (point : list E) : E :=
  fst (foldl (fun '(evaluation, bit_power) coordinate =>
                (evaluation * ((1 - coordinate) + coordinate * bit_power), bit_power * bit_power))
         (1, base) point).

Definition eval_ring_at (r : CyclotomicRing E) (alpha : E) : E :=
  fst (foldl (fun '(acc, power) coeff => (acc + coeff * power, power * alpha))
         (0, 1) (ring_coeffs r)).
End ops.

Section ext_ops.
Context {F E : Type} `{Field F, Field E, MulBase F E, BuildMode}.

Definition eval_flat_ring_at_pows {Er} (coeffs : list F) (alpha_pows : list E) : outcome Er E :=
  let* _ := debug_assert (len alpha_pows =? len coeffs)%Z in
  Ok (foldl (fun acc '(coeff, alpha_pow) => acc + mul_base alpha_pow coeff)
        0 (zip coeffs alpha_pows)).

Definition eval_ring_at_pows {Er} (D : Z) (r : CyclotomicRing F) (alpha_pows : list E) : outcome Er E :=
  let* _ := debug_assert (len alpha_pows =? D)%Z in
  eval_flat_ring_at_pows (ring_coeffs r) alpha_pows.
End ext_ops.

(** * Evaluation is a ring homomorphism *)

Section hom.
Context {F E : Type} `{FieldLaws F, !Field E, !FieldLaws E, !MulBase F E, !MulBaseLaws F E}.
Add Ring Fring : (field_ring (E := F)).
Add Ring Ering : (field_ring (E := E)).
Variable D : Z.
Hypothesis D_pos : (0 < D)%Z.

Definition powZ (alpha : E) (n : Z) : E := fpow alpha (Z.to_nat n).

Lemma powZ_add alpha m n : (0 <= m)%Z -> (0 <= n)%Z -> powZ alpha (m + n) = powZ alpha m * powZ alpha n.
Proof. intros Hm Hn. unfold powZ. by rewrite Z2Nat.inj_add, fpow_add by done. Qed.

Lemma powZ_1 alpha : powZ alpha 1 = alpha.
Proof. unfold powZ. change (alpha * 1 = alpha). ring. Qed.

Lemma embed_sum n (f : Z -> F) : embed (sumZ n f) = sumZ n (fun i => embed (f i)).
Proof.
  unfold sumZ. induction (range n) as [|i l IH]; cbn [map].
  - apply embed_zero.
  - by rewrite !fsum_cons, embed_add, IH.
Qed.

(** The value of the coefficients [f] at [alpha]. *)
Definition ev (alpha : E) (f : Z -> F) : E := sumZ D (fun c => embed (f c) * powZ alpha c).

(** For a root of [X^D + 1] the value of a monomial is a power. *)
Lemma ev_mono alpha n :
  powZ alpha D = - (1) -> (0 <= n)%Z -> ev alpha (mono D n) = powZ alpha n.
Proof.
  intros Hroot Hn.
  assert (Hq : forall q, (0 <= q)%Z -> powZ alpha (D * q) = embed (sgn q)).
  { intros q Hq. replace q with (Z.of_nat (Z.to_nat q)) by lia.
    induction (Z.to_nat q) as [|k IH].
    - rewrite Z.mul_0_r. change ((1 : E) = embed 1). by rewrite embed_one.
    - rewrite Nat2Z.inj_succ. unfold Z.succ. rewrite Z.mul_add_distr_l, powZ_add by lia.
      rewrite IH, Z.mul_1_r, Hroot, sgn_add, embed_mul.
      change (sgn 1) with (- (1) : F). by rewrite embed_neg, embed_one. }
  unfold ev. rewrite (sumZ_single D (n mod D)%Z).
  - unfold mono. rewrite Z.eqb_refl, <-Hq by (apply Z.div_pos; lia).
    rewrite <-powZ_add, <-Z.div_mod; [done|lia| |].
    + apply Z.mul_nonneg_nonneg; [lia|]. apply Z.div_pos; lia.
    + by apply Z.mod_pos_bound.
  - by apply Z.mod_pos_bound.
  - intros i _ Hi. unfold mono. destruct (Z.eqb_spec i (n mod D)%Z); [done|].
    rewrite embed_zero. ring.
Qed.

Lemma ev_mul alpha f g :
  powZ alpha D = - (1) -> ev alpha (mul_coef D f g) = ev alpha f * ev alpha g.
Proof.
  intros Hroot.
  transitivity (sumZ D (fun i => sumZ D (fun j => embed (f i * g j) * powZ alpha (i + j)))).
  - unfold ev, mul_coef.
    transitivity (sumZ D (fun c => sumZ D (fun i => sumZ D (fun j =>
        embed (f i * g j) * (embed (mono D (i + j) c) * powZ alpha c))))).
    + apply sumZ_ext. intros c _. rewrite embed_sum, <-sumZ_mul_r. apply sumZ_ext. intros i _.
      rewrite embed_sum, <-sumZ_mul_r. apply sumZ_ext. intros j _. rewrite embed_mul. ring.
    + rewrite sumZ_swap. apply sumZ_ext. intros i Hi. rewrite sumZ_swap. apply sumZ_ext. intros j Hj.
      rewrite sumZ_mul. f_equal. apply ev_mono; [done|lia].
  - unfold ev. rewrite <-sumZ_mul_r. apply sumZ_ext. intros i Hi. rewrite <-sumZ_mul.
    apply sumZ_ext. intros j Hj. rewrite embed_mul, powZ_add by lia. ring.
Qed.

Lemma ev_add alpha f g : ev alpha (fun c => f c + g c) = ev alpha f + ev alpha g.
Proof.
  unfold ev. rewrite <-sumZ_add. apply sumZ_ext. intros. rewrite embed_add. ring.
Qed.

Lemma fill_powers_spec n power alpha :
  length (fill_powers n power alpha) = n /\
  forall i, (i < n)%nat -> fill_powers n power alpha !! i = Some (power * fpow alpha i).
Proof.
  revert power; induction n as [|n IH]; intros power; cbn [fill_powers length].
  - split; [done|]. intros i Hi; lia.
  - destruct (IH (power * alpha)) as [Hl Hi]. split; [by rewrite Hl|].
    intros [|i] Hlt; cbn; [f_equal; ring|]. rewrite Hi by lia. f_equal. ring.
Qed.

Lemma scalar_powers_len alpha n : (0 <= n)%Z -> len (scalar_powers alpha n) = n.
Proof.
  intros Hn. unfold len, scalar_powers. destruct (fill_powers_spec (Z.to_nat n) 1 alpha) as [-> _]. lia.
Qed.

Lemma scalar_powers_get alpha n i :
  (0 <= i < n)%Z -> get (scalar_powers alpha n) i = powZ alpha i.
Proof.
  intros Hi. unfold get, index, scalar_powers. destruct (Z.leb_spec 0 i); [|lia].
  destruct (fill_powers_spec (Z.to_nat n) 1 alpha) as [_ Hs]. rewrite Hs by lia. cbn.
  unfold powZ. ring.
Qed.

(** The accumulation over coefficients and powers, by position. *)
Lemma eval_loop_spec (cs : list F) (pows : list E) :
  len cs = D -> len pows = D ->
  foldl (fun acc '(coeff, alpha_pow) => acc + mul_base alpha_pow coeff) 0 (zip cs pows)
  = sumZ D (fun c => embed (get cs c) * get pows c).
Proof.
  intros Hc Hp. transitivity (fsum (map (fun '(f, p) => embed f * p) (zip cs pows))).
  { transitivity (0 + fsum (map (fun '(f, p) => embed f * p) (zip cs pows))); [|ring].
    generalize (0 : E). induction (zip cs pows) as [|[f p] l IH]; intros a; cbn [foldl map].
    - change (a = a + 0). ring.
    - rewrite IH, fsum_cons, mul_base_spec. ring. }
  unfold sumZ. f_equal. apply list_eq_same_length with (Z.to_nat D).
  - rewrite length_map, length_range. lia.
  - rewrite length_map, length_zip. unfold len in *. lia.
  - intros i x y Hi Hx Hy.
    change (map (fun '(f, p) => embed f * p) (zip cs pows))
      with ((fun '(f, p) => embed f * p) <$> zip cs pows) in Hx.
    apply list_lookup_fmap_Some in Hx as ([f p] & -> & Hz). apply lookup_zip_Some in Hz as [Hf Hpp].
    change (map (fun c => embed (get cs c) * get pows c) (range D))
      with ((fun c => embed (get cs c) * get pows c) <$> range D) in Hy.
    apply list_lookup_fmap_Some in Hy as (k & -> & Hk). unfold range in Hk.
    apply lookup_seqZ in Hk as [-> Hk]. rewrite Z.add_0_l. unfold get. by rewrite !index_nat, Hf, Hpp.
Qed.

Lemma eval_at_powers `{BuildMode} {Er} r alpha :
  wf D r ->
  eval_ring_at_pows (Er := Er) D r (scalar_powers alpha D) = Ok (ev alpha (coef r)).
Proof.
  intros Hr. unfold eval_ring_at_pows, eval_flat_ring_at_pows, debug_assert.
  rewrite scalar_powers_len by lia. rewrite Hr, Z.eqb_refl. cbn [negb].
  rewrite andb_false_r. cbn [obind]. f_equal.
  rewrite eval_loop_spec; [|done|apply scalar_powers_len; lia].
  apply sumZ_ext. intros c Hc. by rewrite scalar_powers_get.
Qed.

(** for a root [alpha] of [X^D + 1] in an extension field, evaluation of
    ring elements at the precomputed powers of [alpha] is a ring homomorphism:
    it sends the negacyclic product to the product of the values and sums to
    sums, and never panics, in any build. *)
Theorem eval_ring_homomorphism `{BuildMode} {Er} a b r alpha va vb :
  wf D a -> wf D b -> powZ alpha D = - (1) ->
  CyclotomicRing.mul (Er := Er) D a b = Ok r ->
  eval_ring_at_pows (Er := Er) D a (scalar_powers alpha D) = Ok va ->
  eval_ring_at_pows (Er := Er) D b (scalar_powers alpha D) = Ok vb ->
  eval_ring_at_pows (Er := Er) D r (scalar_powers alpha D) = Ok (va * vb) /\
  eval_ring_at_pows (Er := Er) D (CyclotomicRing.add_assign a b) (scalar_powers alpha D)
    = Ok (va + vb).
Proof.
  intros Ha Hb Hroot Hr Hva Hvb.
  destruct (mul_spec D D_pos (Er := Er) a b Ha Hb) as (r' & Hr' & Wr & Cr).
  rewrite Hr in Hr'. injection Hr' as <-. destruct (add_spec D a b Ha Hb) as [Ws Cs].
  rewrite eval_at_powers in Hva, Hvb by done. injection Hva as <-. injection Hvb as <-.
  rewrite !eval_at_powers by done. rewrite <-ev_mul, <-ev_add by done.
  split; f_equal; apply sumZ_ext; intros c Hc; by rewrite ?Cr, ?Cs.
Qed.
End hom.

(** * Powers and their multilinear extension *)

Section powers.
Context {E : Type} `{FieldLaws E}.
Add Ring Ering2 : (field_ring (E := E)).

Lemma fpow_square (b : E) n : fpow (b * b) n = fpow b (2 * n).
Proof.
  induction n as [|n IH]; [done|]. replace (2 * S n)%nat with (S (S (2 * n))) by lia.
  cbn [fpow]. rewrite IH. ring.
Qed.

Lemma field_pow_loop_spec fuel result (b : E) exp :
  (0 <= exp < 2 ^ Z.of_nat fuel)%Z ->
  field_pow_loop fuel result b exp = result * powZ b exp.
Proof.
  revert result b exp; induction fuel as [|fuel IH]; intros result b exp Hexp.
  - change (2 ^ Z.of_nat 0)%Z with 1%Z in Hexp. replace exp with 0%Z by lia.
    cbn [field_pow_loop]. change (result = result * 1). ring.
  - rewrite Nat2Z.inj_succ, Z.pow_succ_r in Hexp by lia. cbn [field_pow_loop].
    destruct (Z.ltb_spec 0 exp) as [Hp|Hp].
    2:{ replace exp with 0%Z by lia. change (result = result * 1). ring. }
    rewrite Z.shiftr_div_pow2, Z.pow_1_r by lia. pose proof (Z.div_mod exp 2 ltac:(lia)) as Hdm.
    pose proof (Z.mod_pos_bound exp 2 ltac:(lia)) as Hm.
    rewrite IH by lia. unfold powZ. rewrite fpow_square.
    change 1%Z with (Z.ones 1) at 1. rewrite Z.land_ones, Z.pow_1_r by lia.
    replace (Z.to_nat exp) with (2 * Z.to_nat (exp / 2) + Z.to_nat (exp mod 2))%nat by lia.
    rewrite fpow_add. destruct (Z.eqb_spec (exp mod 2) 1) as [->|Hne].
    + change (fpow b (Z.to_nat 1)) with (b * 1). ring.
    + replace (exp mod 2)%Z with 0%Z by lia. change (fpow b (Z.to_nat 0)) with (1 : E). ring.
Qed.

Lemma powZ_mul (b : E) m n : (0 <= m)%Z -> (0 <= n)%Z -> powZ (powZ b m) n = powZ b (m * n).
Proof.
  intros Hm Hn. replace n with (Z.of_nat (Z.to_nat n)) by lia.
  induction (Z.to_nat n) as [|k IH]; [by rewrite Z.mul_0_r|].
  rewrite Nat2Z.inj_succ. unfold Z.succ. rewrite Z.mul_add_distr_l, !powZ_add, IH by lia.
  by rewrite powZ_1, Z.mul_1_r.
Qed.

(** [prod_i ((1 - x_i) + x_i * b^(2^i))] *)
Fixpoint power_product (b : E) (point : list E) : E :=
  match point with [] => 1 | x :: point => ((1 - x) + x * b) * power_product (b * b) point end.

Lemma power_loop point e b :
  fst (foldl (fun '(evaluation, bit_power) coordinate =>
                (evaluation * ((1 - coordinate) + coordinate * bit_power), bit_power * bit_power))
         (e, b) point) = e * power_product b point.
Proof.
  revert e b; induction point as [|x point IH]; intros e b; cbn [foldl power_product]; [cbn; ring|].
  rewrite IH. ring.
Qed.

Lemma fold_powers x n p b :
  fold_pairs x (fill_powers (2 * n) p b) = fill_powers n (p * ((1 - x) + x * b)) (b * b).
Proof.
  revert p; induction n as [|n IH]; intros p; [done|].
  replace (2 * S n)%nat with (S (S (2 * n))) by lia. cbn [fill_powers fold_pairs].
  rewrite IH. f_equal; [ring|]. f_equal. ring.
Qed.

Lemma mle_powers point p b :
  mle_value (fill_powers (2 ^ length point) p b) point = p * power_product b point.
Proof.
  revert p b; induction point as [|x point IH]; intros p b.
  - cbn. unfold mle_value, dot. cbn. ring.
  - cbn [length power_product]. rewrite Nat.pow_succ_r', mle_fold, fold_powers, IH. ring.
Qed.

(** the linear-time evaluation of a power sequence equals the multilinear
    extension of the materialized table of [2^n] powers at the point, for a
    point of any length; and a strided table holds exactly every
    [stride]-th power for every stride that fits a [u64], its first power
    being computed by repeated squaring. *)
Theorem power_sequence_value base point stride n i :
  (0 <= stride < 2 ^ 64)%Z -> (0 <= i < n)%Z ->
  evaluate_power_sequence_mle base point
    = mle_value (scalar_powers base (2 ^ len point)) point /\
  exists table, scalar_powers_with_stride base stride n = Ok table /\ len table = n /\
    get table i = powZ base (stride * i).
Proof.
  intros Hs Hi. split.
  { unfold evaluate_power_sequence_mle. rewrite power_loop. unfold scalar_powers, len.
    by rewrite pow2_to_nat, mle_powers. }
  unfold scalar_powers_with_stride. destruct (Z.leb_spec n 1) as [Hn|Hn].
  - exists (scalar_powers base n). split; [done|]. split; [apply scalar_powers_len; lia|].
    rewrite scalar_powers_get by lia. f_equal. nia.
  - unfold checked_u. destruct (Z.leb_spec 0 stride); [|lia]. destruct (Z.ltb_spec stride (2 ^ 64)); [|lia].
    cbn [andb ok_or obind]. eexists; split; [done|]. split; [apply scalar_powers_len; lia|].
    rewrite scalar_powers_get by lia. unfold field_pow. rewrite field_pow_loop_spec by done.
    transitivity (powZ (powZ base stride) i); [f_equal; ring|]. apply powZ_mul; lia.
Qed.
End powers.

(** * Evaluation at concrete inputs *)

#[export] Instance mul_base97 : MulBase F97.t F97.t := { mul_base e f := e * f; embed f := f }.
#[export] Instance mul_base97_laws : MulBaseLaws F97.t F97.t.
Proof. by constructor. Qed.

(** 33 is a root of [X^4 + 1] modulo 97. *)
Lemma eval_ring_homomorphism_witness :
  let a := ring97 [1; 2; 3; 4]%Z in
  let b := ring97 [0; 1; 0; 5]%Z in
  let alpha := F97.of_Z 33 in
  powZ alpha 4 = - (1) /\
  exists va vb,
    eval_ring_at_pows (H2 := true) (Er := unit) 4 (ring97 [-14; -14; -18; 8]%Z) (scalar_powers alpha 4)
      = Ok (va * vb).
Proof.
  intros a b alpha. assert (Hroot : powZ alpha 4 = - (1)) by reflexivity.
  split; [exact Hroot|].
  assert (Hm : CyclotomicRing.mul (Er := unit) 4 a b = Ok (ring97 [-14; -14; -18; 8]%Z))
    by reflexivity.
  destruct (eval_ring_at_pows (Er := unit) (H2 := true) 4 a (scalar_powers alpha 4)) as [va|e|] eqn:Ha;
    [|vm_compute in Ha; discriminate Ha..].
  destruct (eval_ring_at_pows (Er := unit) (H2 := true) 4 b (scalar_powers alpha 4)) as [vb|e|] eqn:Hb;
    [|vm_compute in Hb; discriminate Hb..].
  exists va, vb.
  destruct (eval_ring_homomorphism (E := F97.t) 4 eq_refl (H1 := true) (Er := unit) a b
              (ring97 [-14; -14; -18; 8]%Z) alpha va vb eq_refl eq_refl Hroot Hm Ha Hb) as [Hv _].
  exact Hv.
Defined.

Lemma power_sequence_value_witness :
  let base := F97.of_Z 5 in
  let point := map F97.of_Z [2; 7]%Z in
  evaluate_power_sequence_mle base point = mle_value (map F97.of_Z [1; 5; 25; 28]%Z) point /\
  exists table, scalar_powers_with_stride base 3 4 = Ok table /\ get table 2 = F97.of_Z 8.
Proof.
  intros base point.
  destruct (power_sequence_value (E := F97.t) base point 3 4 2) as [Hm (table & Ht & _ & Hg)];
    [lia|lia|].
  split; [etransitivity; [exact Hm|reflexivity]|].
  exists table. split; [exact Ht|]. rewrite Hg. reflexivity.
Defined.
