(* ===== verification/ResidueKernel.v ===== *)
(** [akita-algebra/src/ring/residue.rs]: the coefficient functionals of reduced
    negacyclic relations.  Entry [j] of the kernel of a multiplier [A] at
    [alpha] is the value at [alpha] of [A(X) X^j mod (X^d + 1)], computed by a
    linear recurrence that never divides by [alpha^d + 1]. *)

From S2P Require Import Prelude Checked Field Serialization EqPoly MultiPoly Cyclotomic RingEval.
Local Open Scope field_scope.

(** * Definitions *)

Record ResidueKernelPoint (E : Type) := {
  alpha : E;
  powers : list E;
  modulus_evaluation : E;
}.
Arguments alpha {E}. Arguments powers {E}. Arguments modulus_evaluation {E}.

Module ResidueKernelPoint.
Section ops.
Context {E : Type} `{Field E, Allocator}.

Definition new (alpha : E) (dimension : Z) : result (ResidueKernelPoint E) :=
  if (dimension =? 0)%Z || negb (checked.is_power_of_two dimension)
  then Err (InvalidInput "residue-kernel dimension must be a nonzero power of two")
  else if negb (reserve_exact dimension) then Err (InvalidInput "residue-kernel allocation failed")
  else
    let '(powers, power) :=
      foldl (fun '(powers, power) _ => (powers ++ [power], power * alpha)) ([], 1) (range dimension) in
    Ok {| alpha := alpha; powers := powers; modulus_evaluation := power + 1 |}.

Definition dimension (self : ResidueKernelPoint E) : Z := len (powers self).

Section kernel.
Context {W : Type} (multiply : E -> W -> E).

(** The entries after the first: every one is computed from the one before and
    the weight that wraps around. *)
Fixpoint fill_tail (self : ResidueKernelPoint E) (current : E) (tail : list E) (wrap_weights : list W) : list E :=
  match tail, wrap_weights with
  | _ :: tail, wrap_weight :: wrap_weights =>
      let current := alpha self * current - multiply (modulus_evaluation self) wrap_weight in
      current :: fill_tail self current tail wrap_weights
  | tail, _ => tail
  end.

Definition kernel_with_into (self : ResidueKernelPoint E) (weights : list W) (output : list E) : result (list E) :=
  if negb (len weights =? dimension self)%Z || negb (len output =? dimension self)%Z
  then Err (InvalidInput "residue-kernel buffers do not match the prepared dimension")
  else
    let current := foldl (fun sum '(weight, power) => sum + multiply power weight) 0 (zip weights (powers self)) in
    match output with
    | [] => Err (InvalidInput "residue-kernel output is empty")
    | _ :: tail =>
        Ok (current :: fill_tail self current tail (take (Z.to_nat (dimension self - 1)) (reverse weights)))
    end.

Definition kernel_with (self : ResidueKernelPoint E) (weights : list W) : result (list E) :=
  if negb (reserve_exact (dimension self)) then Err (InvalidInput "residue-kernel allocation failed")
  else kernel_with_into self weights (replicate (Z.to_nat (dimension self)) 0).
End kernel.

Definition kernel {F} `{MulBase F E} (self : ResidueKernelPoint E) (coefficients : list F) : result (list E) :=
  kernel_with mul_base self coefficients.

Definition field_kernel (self : ResidueKernelPoint E) (weights : list E) : result (list E) :=
  kernel_with fmul self weights.

Definition field_kernel_into (self : ResidueKernelPoint E) (weights output : list E) : result (list E) :=
  kernel_with_into fmul self weights output.

(** The checks on one entry of the sorted terms. *)
Definition sparse_check (self : ResidueKernelPoint E) (terms : list (Z * E)) (_ : unit) (entry : Z * (Z * E)) : result unit :=
  let '(index', (position, weight)) := entry in
  if (dimension self <=? position)%Z then Err (InvalidInput "sparse residue-kernel position is out of range")
  else if feqb weight 0 then Err (InvalidInput "sparse residue-kernel weights must be nonzero")
  else if (index' =? 0)%Z then Ok tt
  else
    let* previous := unwrap (index terms (index' - 1)) in
    if (fst previous =? position)%Z then Err (InvalidInput "sparse residue-kernel positions must be unique")
    else Ok tt.

Definition sparse_step (self : ResidueKernelPoint E) (terms : list (Z * E)) (state : E * Z * list E) (wrap_position : Z)
  : result (E * Z * list E) :=
  let '(current, reverse_term_index, kernel) := state in
  let* (reverse_term_index, wrap_weight) :=
    if (reverse_term_index =? 0)%Z then Ok (reverse_term_index, 0)
    else
      let* (position, weight) := unwrap (index terms (reverse_term_index - 1)) in
      if (position =? wrap_position)%Z then Ok ((reverse_term_index - 1)%Z, weight) else Ok (reverse_term_index, 0) in
  let current := alpha self * current - modulus_evaluation self * wrap_weight in
  Ok (current, reverse_term_index, kernel ++ [current]).

Definition sparse_kernel `{UnstableSort} (self : ResidueKernelPoint E) (terms : list (Z * E)) : result (list E) :=
  let terms := sort_by_key fst terms in
  let* _ := ofold (sparse_check self terms) (enumerate terms) tt in
  let* current :=
    ofold (fun sum '(position, weight) =>
             let* power := unwrap (index (powers self) position) in Ok (sum + weight * power)) terms 0 in
  if negb (reserve_exact (dimension self)) then Err (InvalidInput "residue-kernel allocation failed")
  else
    let* (_, kernel) :=
      ofold (sparse_step self terms) (reverse (seqZ 1 (dimension self - 1))) (current, len terms, [current]) in
    Ok kernel.
End ops.
End ResidueKernelPoint.

Section entry.
Context {E : Type} `{Field E, Allocator}.

Definition residue_kernel {F} `{MulBase F E} (coefficients : list F) (alpha : E) : result (list E) :=
  let* point := ResidueKernelPoint.new alpha (len coefficients) in
  ResidueKernelPoint.kernel point coefficients.

Definition sparse_residue_kernel `{UnstableSort} (dimension : Z) (terms : list (Z * E)) (alpha : E) : result (list E) :=
  let* point := ResidueKernelPoint.new alpha dimension in
  ResidueKernelPoint.sparse_kernel point terms.

Definition terminal_residue_kernel (equality_weights : list E) (alpha : E) : result (list E) :=
  let* point := ResidueKernelPoint.new alpha (len equality_weights) in
  ResidueKernelPoint.field_kernel point equality_weights.
End entry.

(** * The dense recurrence *)

Section dense.
Context {E : Type} `{FieldLaws E, Allocator}.
Add Ring Ering : (field_ring (E := E)).
Context (a : E) (d : Z) (Hd : (0 < d)%Z).

(** [X^n mod (X^d + 1)] at [a] *)
Definition reduced_power (n : Z) : E := sgn (n / d) * powZ a (n mod d).

Lemma reduced_small n : (0 <= n < d)%Z -> reduced_power n = powZ a n.
Proof. intros Hn. unfold reduced_power. rewrite Z.div_small, Z.mod_small by done. change (sgn 0) with (1 : E). ring. Qed.

Lemma reduced_wrapped n : (0 <= n < d)%Z -> reduced_power (n + d) = - powZ a n.
Proof.
  intros Hn. unfold reduced_power. replace (n + d)%Z with (n + 1 * d)%Z by lia.
  rewrite Z.div_add, Z.mod_add, Z.div_small, Z.mod_small by lia. change (sgn (0 + 1)) with (- (1) : E). ring.
Qed.

Lemma powZ_succ n : (0 <= n)%Z -> powZ a (n + 1) = a * powZ a n.
Proof. intros Hn. unfold powZ. replace (Z.to_nat (n + 1)) with (S (Z.to_nat n)) by lia. done. Qed.

(** Multiplying by [a] shifts the power, up to a multiple of [a^d + 1]. *)
Lemma reduced_step n : (0 <= n < 2 * d - 1)%Z ->
  a * reduced_power n = reduced_power (n + 1) + (if (n =? d - 1)%Z then powZ a d + 1 else 0).
Proof.
  intros Hn. destruct (Z.eqb_spec n (d - 1)) as [->|Hne].
  - rewrite reduced_small by lia. replace (d - 1 + 1)%Z with (0 + d)%Z by lia.
    rewrite reduced_wrapped, <-powZ_succ by lia. replace (d - 1 + 1)%Z with d by lia. change (powZ a 0) with (1 : E). ring.
  - destruct (Z.lt_ge_cases n d).
    + rewrite !reduced_small, powZ_succ by lia. ring.
    + replace n with ((n - d) + d)%Z by lia. replace ((n - d) + d + 1)%Z with ((n - d + 1) + d)%Z by lia.
      rewrite !reduced_wrapped, powZ_succ by lia. ring.
Qed.

(** Entry [j] of the kernel of the weights [ws]. *)
Definition kernel_entry (ws : list E) (j : Z) : E := sumZ d (fun c => get ws c * reduced_power (c + j)).

Lemma kernel_entry_step ws j : (0 <= j < d - 1)%Z ->
  kernel_entry ws (j + 1) = a * kernel_entry ws j - (powZ a d + 1) * get ws (d - 1 - j).
Proof.
  intros Hj. unfold kernel_entry. rewrite <-sumZ_mul.
  assert (Hw : sumZ d (fun c => get ws c * (if (c + j =? d - 1)%Z then powZ a d + 1 else 0))
               = (powZ a d + 1) * get ws (d - 1 - j)).
  { rewrite (sumZ_single d (d - 1 - j)) by
      (first [lia|intros i Hi Hne; destruct (Z.eqb_spec (i + j) (d - 1)); [lia|ring]]).
    rewrite (proj2 (Z.eqb_eq _ _)) by lia. ring. }
  rewrite <-Hw. transitivity (sumZ d (fun c => get ws c * reduced_power (c + (j + 1)))
    + sumZ d (fun c => get ws c * (if (c + j =? d - 1)%Z then powZ a d + 1 else 0))
    - sumZ d (fun c => get ws c * (if (c + j =? d - 1)%Z then powZ a d + 1 else 0))); [ring|].
  f_equal. rewrite <-sumZ_add. apply sumZ_ext. intros c Hc.
  transitivity (get ws c * (a * reduced_power (c + j))); [|ring]. rewrite reduced_step by lia.
  rewrite Z.add_assoc. ring.
Qed.

(** ** The prepared point *)

Record point_at (p : ResidueKernelPoint E) : Prop := {
  pa_alpha : alpha p = a;
  pa_powers : powers p = scalar_powers a d;
  pa_modulus : modulus_evaluation p = powZ a d + 1;
}.

Lemma powers_loop (n : nat) ps x : 
  foldl (fun '(powers, power) _ => (powers ++ [power], power * a)) (ps, x) (seqZ (Z.of_nat 0) (Z.of_nat n))
  = (ps ++ fill_powers n x a, x * fpow a n).
Proof.
  generalize (Z.of_nat 0) as k. revert ps x; induction n as [|n IH]; intros ps x k.
  - cbn. rewrite app_nil_r. assert (x * 1 = x) as -> by ring. done.
  - rewrite Nat2Z.inj_succ, seqZ_cons by lia. replace (Z.pred (Z.succ (Z.of_nat n))) with (Z.of_nat n) by lia.
    cbn [foldl fill_powers fpow]. rewrite IH, <-app_assoc. assert (x * (a * fpow a n) = x * a * fpow a n) as -> by ring. done.
Qed.

Lemma new_spec : checked.is_power_of_two d = true -> reserve_exact d = true ->
  exists p, ResidueKernelPoint.new a d = Ok p /\ point_at p.
Proof.
  intros Hp Hr. unfold ResidueKernelPoint.new. rewrite Hp, Hr, (proj2 (Z.eqb_neq _ _)) by lia. cbn [negb orb].
  unfold range. pose proof (powers_loop (Z.to_nat d) [] 1) as Hl. rewrite Z2Nat.id in Hl by lia.
  change (Z.of_nat 0) with 0%Z in Hl. rewrite Hl. eexists. split; [done|]. split; [done|done|]. cbn [modulus_evaluation].
  unfold powZ. ring.
Qed.

Section weights.
Context {W : Type} (multiply : E -> W -> E) (emb : W -> E) (Hm : forall e w, multiply e w = e * emb w).

Lemma tail_spec p ws tail wraps j : point_at p -> (0 <= j)%Z -> (j + len tail <= d - 1)%Z ->
  map emb wraps = map (fun k => get ws (d - 1 - k)) (seqZ j (len tail)) ->
  ResidueKernelPoint.fill_tail multiply p (kernel_entry ws j) tail wraps
  = map (kernel_entry ws) (seqZ (j + 1) (len tail)).
Proof.
  intros Hp. revert wraps j; induction tail as [|t tail IH]; intros wraps j Hj Hl Hw; [done|].
  pose proof (len_nonneg tail). rewrite len_cons, seqZ_cons in * by lia.
  replace (Z.pred (len tail + 1)) with (len tail) in * by lia.
  destruct wraps as [|w wraps]; [done|]. injection Hw as Hw0 Hw. cbn [ResidueKernelPoint.fill_tail map].
  rewrite Hm, Hw0, (pa_alpha p), (pa_modulus p), <-kernel_entry_step by (done || lia). f_equal.
  unfold Z.succ in *. apply IH; [lia|lia|done].
Qed.

Lemma point_dimension p : point_at p -> ResidueKernelPoint.dimension p = d.
Proof. intros Hp. unfold ResidueKernelPoint.dimension. rewrite (pa_powers p) by done. apply scalar_powers_len. lia. Qed.

Lemma len_map {S T} (f : S -> T) l : len (map f l) = len l.
Proof. unfold len. by rewrite length_map. Qed.

Lemma first_entry p weights : point_at p -> len weights = d ->
  foldl (fun sum '(weight, power) => sum + multiply power weight) 0 (zip weights (powers p))
  = kernel_entry (map emb weights) 0.
Proof.
  intros Hp Hl. rewrite (pa_powers p) by done.
  pose (base := {| mul_base := fmul; embed := fun e : E => e |}).
  assert (Hlaws : MulBaseLaws E E) by by constructor.
  pose proof (eval_loop_spec d Hd (map emb weights) (scalar_powers a d)) as Hs.
  rewrite len_map, scalar_powers_len in Hs by lia. specialize (Hs Hl eq_refl).
  transitivity (foldl (fun acc '(coeff, alpha_pow) => acc + alpha_pow * coeff) 0 (zip (map emb weights) (scalar_powers a d))).
  - clear Hs Hl. generalize (0 : E) (scalar_powers a d). induction weights as [|w ws IH]; intros e [|q qs]; try done.
    cbn [zip zip_with map foldl]. rewrite Hm. apply IH.
  - etransitivity; [exact Hs|]. apply sumZ_ext. intros c Hc. rewrite scalar_powers_get, Z.add_0_r, reduced_small by done. done.
Qed.

Lemma wrap_weights_spec weights : len weights = d ->
  map emb (take (Z.to_nat (d - 1)) (reverse weights))
  = map (fun k => get (map emb weights) (d - 1 - k)) (seqZ 0 (d - 1)).
Proof.
  intros Hl. apply list_eq_same_length with (Z.to_nat (d - 1)).
  - by rewrite length_map, length_seqZ.
  - rewrite length_map, length_take, length_reverse. unfold len in Hl. lia.
  - intros i x y Hi Hx Hy.
    change (map emb) with (fmap (M := list) emb) in Hx. rewrite list_lookup_fmap, lookup_take_lt in Hx by lia.
    unfold len in Hl. rewrite reverse_lookup in Hx by lia.
    change (map (fun k => get (map emb weights) (d - 1 - k)%Z)) with (fmap (M := list) (fun k => get (map emb weights) (d - 1 - k)%Z)) in Hy.
    rewrite list_lookup_fmap, lookup_seqZ_lt in Hy by lia. cbn in Hy. injection Hy as <-.
    unfold get, index. rewrite (proj2 (Z.leb_le _ _)) by lia. change (map emb) with (fmap (M := list) emb).
    rewrite list_lookup_fmap. replace (Z.to_nat (d - 1 - (0 + Z.of_nat i))) with (length weights - S i)%nat by lia.
    destruct (weights !! _); [|done]. by injection Hx as <-.
Qed.

Lemma kernel_into_spec p weights output : point_at p -> len weights = d -> len output = d ->
  ResidueKernelPoint.kernel_with_into multiply p weights output = Ok (map (kernel_entry (map emb weights)) (range d)).
Proof.
  intros Hp Hw Ho. unfold ResidueKernelPoint.kernel_with_into. rewrite point_dimension, Hw, Ho, Z.eqb_refl by done. cbn [negb orb].
  rewrite first_entry by done. destruct output as [|o tail]; [change (len (@nil E)) with 0%Z in Ho; lia|]. rewrite len_cons in Ho.
  f_equal. unfold range. rewrite seqZ_cons by lia. cbn [map]. f_equal. replace (Z.pred d) with (len tail) by lia.
  apply (tail_spec p (map emb weights) tail _ 0); [done|lia|lia|]. replace (len tail) with (d - 1)%Z by lia.
  by apply wrap_weights_spec.
Qed.

Lemma kernel_with_spec p weights : point_at p -> reserve_exact d = true -> len weights = d ->
  ResidueKernelPoint.kernel_with multiply p weights = Ok (map (kernel_entry (map emb weights)) (range d)).
Proof.
  intros Hp Hr Hw. unfold ResidueKernelPoint.kernel_with. rewrite point_dimension, Hr by done. cbn [negb].
  apply kernel_into_spec; [done..|apply len_replicate; lia].
Qed.
End weights.

Lemma get_range_map (f : Z -> E) j : (0 <= j < d)%Z -> get (map f (range d)) j = f j.
Proof.
  intros Hj. unfold get, index, range. rewrite (proj2 (Z.leb_le 0 j)) by lia.
  change (map f) with (fmap (M := list) f). rewrite list_lookup_fmap, lookup_seqZ_lt by lia. cbn. f_equal. lia.
Qed.

(** The weights enter through their positions. *)
Lemma kernel_entry_ext ws ws' j : (forall c, (0 <= c < d)%Z -> get ws c = get ws' c) ->
  kernel_entry ws j = kernel_entry ws' j.
Proof. intros Hw. apply sumZ_ext. intros c Hc. by rewrite Hw. Qed.
End dense.

(** * The kernel contracts a product *)

Section product.
Context {F E : Type} `{FieldLaws F, !Field E, !FieldLaws E, !MulBase F E, !MulBaseLaws F E, Allocator, BuildMode}.
Add Ring Fring : (field_ring (E := F)).
Add Ring Ering2 : (field_ring (E := E)).
Context (D : Z) (HD : (0 < D)%Z).

Lemma embed_sgn q : embed (sgn q : F) = (sgn q : E).
Proof. unfold sgn. destruct (Z.even q); [apply embed_one|]. by rewrite embed_neg, embed_one. Qed.

Lemma ev_mono_reduced alpha n : ev D alpha (mono D n : Z -> F) = reduced_power alpha D n.
Proof.
  unfold ev. rewrite (sumZ_single D (n mod D)).
  - unfold mono. rewrite Z.eqb_refl, embed_sgn. done.
  - by apply Z.mod_pos_bound.
  - intros i _ Hi. unfold mono. destruct (Z.eqb_spec i (n mod D)%Z); [done|]. rewrite embed_zero. ring.
Qed.

(** The value of a product is the pairing of the kernel with the other factor. *)
Lemma ev_product alpha (f g : Z -> F) :
  ev D alpha (mul_coef D f g)
  = sumZ D (fun j => embed (g j) * sumZ D (fun i => embed (f i) * reduced_power alpha D (i + j))).
Proof.
  transitivity (sumZ D (fun c => sumZ D (fun i => sumZ D (fun j =>
      embed (f i * g j) * (embed (mono D (i + j) c) * powZ alpha c))))).
  { unfold ev, mul_coef. apply sumZ_ext. intros c _. rewrite embed_sum, <-sumZ_mul_r. apply sumZ_ext. intros i _.
    rewrite embed_sum, <-sumZ_mul_r. apply sumZ_ext. intros j _. rewrite embed_mul. ring. }
  rewrite sumZ_swap. transitivity (sumZ D (fun i => sumZ D (fun j => embed (f i * g j) * reduced_power alpha D (i + j)))).
  { apply sumZ_ext. intros i _. rewrite sumZ_swap. apply sumZ_ext. intros j _. rewrite sumZ_mul. f_equal. apply ev_mono_reduced. }
  rewrite sumZ_swap. apply sumZ_ext. intros j _. rewrite <-sumZ_mul. apply sumZ_ext. intros i _. rewrite embed_mul. ring.
Qed.

(** C20: the residue kernel of a multiplier [a] exists for every power-of-two
    dimension and every point, roots of [X^D + 1] included, and contracts
    products: the value at the point of the negacyclic product of [a] with any
    [w] is the inner product of the kernel with the coefficients of [w]. *)
Theorem residue_kernel_product (a w : CyclotomicRing F) (alpha : E) :
  checked.is_power_of_two D = true -> reserve_exact D = true -> wf D a -> wf D w ->
  exists kernel product, residue_kernel (ring_coeffs a) alpha = Ok kernel /\ len kernel = D /\
    CyclotomicRing.mul (Er := AkitaError) D a w = Ok product /\
    eval_ring_at_pows (Er := AkitaError) D product (scalar_powers alpha D)
    = eval_flat_ring_at_pows (ring_coeffs w) kernel.
Proof.
  intros Hp Hr Ha Hw. destruct (mul_spec D HD (Er := AkitaError) a w Ha Hw) as (r & Hr' & Wr & Cr).
  destruct (new_spec alpha D HD Hp Hr) as (p & Hnew & Hpt).
  exists (map (kernel_entry alpha D (map embed (ring_coeffs a))) (range D)), r.
  assert (Hlen : len (map (kernel_entry alpha D (map embed (ring_coeffs a))) (range D)) = D)
    by (rewrite len_map; unfold len; rewrite length_range; lia).
  split.
  { unfold residue_kernel. rewrite Ha, Hnew. cbn [obind]. unfold ResidueKernelPoint.kernel.
    by apply (kernel_with_spec alpha D HD mul_base embed mul_base_spec). }
  split; [done|]. split; [done|]. rewrite eval_at_powers by done. unfold eval_flat_ring_at_pows, debug_assert.
  rewrite Hlen, Hw, Z.eqb_refl. cbn [negb]. rewrite andb_false_r. cbn [obind]. f_equal.
  rewrite (eval_loop_spec D HD) by done.
  transitivity (ev D alpha (mul_coef D (coef a) (coef w))); [apply sumZ_ext; intros; by rewrite Cr|].
  rewrite ev_product. apply sumZ_ext. intros j Hj. f_equal. rewrite get_range_map by done.
  apply sumZ_ext. intros i Hi. f_equal. unfold coef, get, index. rewrite (proj2 (Z.leb_le 0 i)) by lia.
  change (map embed) with (fmap (M := list) (embed (F := F) (E := E))). rewrite list_lookup_fmap.
  destruct (ring_coeffs a !! Z.to_nat i); [done|]. cbn. first [apply embed_zero|symmetry; apply embed_zero].
Qed.
End product.

(** * The sparse recurrence *)

Section sparse.
Context {E : Type} `{FieldLaws E, Allocator}.
Add Ring Ering3 : (field_ring (E := E)).
Context (a : E) (d : Z) (Hd : (0 < d)%Z).

(** The dense weights that a list of terms stands for. *)
Definition sparse_weight (terms : list (Z * E)) (c : Z) : E := fsum (map (fun t => if (t.1 =? c)%Z then t.2 else 0) terms).
Definition scatter (terms : list (Z * E)) : list E := map (sparse_weight terms) (range d).

(** In range, nonzero, no position twice. *)
Definition term_ok (t : Z * E) : bool := (t.1 <? d)%Z && negb (feqb t.2 0).
Definition sparse_admissible (terms : list (Z * E)) : bool :=
  forallb term_ok terms && bool_decide (NoDup (terms.*1)).

Lemma fsum_perm (l1 l2 : list E) : l1 ≡ₚ l2 -> fsum l1 = fsum l2.
Proof.
  induction 1 as [|x l1 l2 _ IH|x y l|l1 l2 l3 _ IH1 _ IH2]; [done|by rewrite !fsum_cons, IH| |by rewrite IH1].
  rewrite !fsum_cons. ring.
Qed.

Lemma sparse_weight_perm l1 l2 c : l1 ≡ₚ l2 -> sparse_weight l1 c = sparse_weight l2 c.
Proof. intros Hp. apply fsum_perm. by apply (fmap_Permutation (fun t : Z * E => if (t.1 =? c)%Z then t.2 else 0)). Qed.

Lemma admissible_perm l1 l2 : l1 ≡ₚ l2 -> sparse_admissible l1 = sparse_admissible l2.
Proof.
  intros Hp. unfold sparse_admissible. f_equal.
  - apply eq_true_iff_eq. rewrite !forallb_True, !Is_true_true || rewrite !forallb_forall.
    split; intros Hf t Ht; apply Hf; [by apply (Permutation_in t (Permutation_sym Hp))|by apply (Permutation_in t Hp)].
  - apply bool_decide_ext. by rewrite Hp.
Qed.

Lemma scatter_sum terms (g : Z -> E) : Forall (fun t => 0 <= t.1 < d)%Z terms ->
  sumZ d (fun c => sparse_weight terms c * g c) = fsum (map (fun t => t.2 * g t.1) terms).
Proof.
  induction 1 as [|[q w] terms Hq _ IH]; cbn [map].
  - apply sumZ_zero. intros i _. change (0 * g i = 0). ring.
  - rewrite fsum_cons, <-IH. cbn [fst snd] in *.
    assert (Hone : sumZ d (fun c => (if (q =? c)%Z then w else 0) * g c) = w * g q).
    { rewrite (sumZ_single d q) by (first [done|intros i _ Hi; rewrite (proj2 (Z.eqb_neq _ _)) by done; ring]).
      by rewrite Z.eqb_refl. }
    rewrite <-Hone, <-sumZ_add. apply sumZ_ext. intros c _. unfold sparse_weight. cbn [map]. rewrite fsum_cons.
    cbn [fst snd]. ring.
Qed.

(** ** The checks *)

Fixpoint sparse_ok (previous : option Z) (terms : list (Z * E)) : bool :=
  match terms with
  | [] => true
  | t :: terms =>
      term_ok t && (negb (bool_decide (previous = Some t.1)) && sparse_ok (Some t.1) terms)
  end.

Definition position_before (l : list (Z * E)) : option Z := match reverse l with [] => None | t :: _ => Some t.1 end.

Lemma position_before_snoc l t : position_before (l ++ [t]) = Some t.1.
Proof. unfold position_before. by rewrite reverse_snoc. Qed.

Lemma check_step p terms l1 t : terms = l1 ++ [t] ++ drop (length l1 + 1) terms -> point_at a d p ->
  verdict (term_ok t && negb (bool_decide (position_before l1 = Some t.1))) tt
    (ResidueKernelPoint.sparse_check p terms tt (len l1, t)).
Proof.
  intros Ht Hp. destruct t as [q w]. unfold ResidueKernelPoint.sparse_check, term_ok. cbn [fst snd].
  rewrite (point_dimension a d Hd) by done. destruct (Z.ltb_spec q d), (Z.leb_spec d q); try lia; cbn [andb];
    [|by eexists]. destruct (feqb w 0); cbn [negb andb]; [by eexists|].
  destruct l1 as [|x l1 _] using rev_ind; [done|]. rewrite position_before_snoc.
  rewrite len_app. change (len [x]) with 1%Z. pose proof (len_nonneg l1). rewrite (proj2 (Z.eqb_neq _ _)) by lia.
  replace (len l1 + 1 - 1)%Z with (len l1) by lia. rewrite Ht, <-app_assoc. cbn [app]. rewrite index_middle by done. cbn [unwrap obind].
  destruct (Z.eqb_spec x.1 q) as [->|Hne].
  - rewrite bool_decide_true by done. by eexists.
  - rewrite bool_decide_false by congruence. done.
Qed.

Lemma check_spec p l1 l2 : point_at a d p ->
  verdict (sparse_ok (position_before l1) l2) tt
    (ofold (ResidueKernelPoint.sparse_check p (l1 ++ l2)) (zip (seqZ (len l1) (len l2)) l2) tt).
Proof.
  intros Hp. revert l1; induction l2 as [|t l2 IH]; intros l1; [done|].
  rewrite len_cons, seqZ_cons by (pose proof (len_nonneg l2); lia). cbn [zip zip_with ofold sparse_ok].
  replace (Z.pred (len l2 + 1)) with (len l2) by lia. rewrite andb_assoc.
  pose proof (check_step p (l1 ++ t :: l2) l1 t) as Hs.
  destruct (term_ok t && negb (bool_decide (position_before l1 = Some t.1))); cbn [andb verdict] in *.
  - rewrite Hs; [|rewrite drop_app_ge by lia; replace (length l1 + 1 - length l1)%nat with 1%nat by lia; done|done].
    cbn [obind]. specialize (IH (l1 ++ [t])). rewrite position_before_snoc, len_app, <-app_assoc in IH. exact IH.
  - destruct Hs as [e He]; [rewrite drop_app_ge by lia; replace (length l1 + 1 - length l1)%nat with 1%nat by lia; done|done|].
    rewrite He. by exists e.
Qed.

Definition below (q : Z) (terms : list (Z * E)) : Prop := Forall (fun t => t.1 <= q)%Z terms.
Definition above (q : Z) (terms : list (Z * E)) : Prop := Forall (fun t => q < t.1)%Z terms.

Lemma ok_sorted previous l : StronglySorted (fun s t => s.1 <= t.1)%Z l ->
  (forall q, previous = Some q -> Forall (fun t => q <= t.1)%Z l) ->
  sparse_ok previous l = true <->
  Forall (fun t => term_ok t = true) l /\ NoDup (l.*1) /\ (forall q, previous = Some q -> above q l).
Proof.
  intros Hs. revert previous; induction Hs as [|t l Hs IH Hle]; intros previous Hq; cbn [sparse_ok].
  - split; [intros _; split; [constructor|]; split; [constructor|]; intros; constructor|done].
  - rewrite !andb_true_iff, negb_true_iff, bool_decide_eq_false, IH by by intros q [= <-].
    rewrite Forall_cons_iff, fmap_cons, list.NoDup_cons. split.
    + intros (Ht & Hp & Hf & Hn & Ha). specialize (Ha _ eq_refl). split; [done|]. split.
      * split; [|done]. intros (s & Heq & Hin)%list_elem_of_fmap. unfold above in Ha. rewrite list.Forall_forall in Ha.
        specialize (Ha s Hin). lia.
      * intros q ->. specialize (Hq q eq_refl). apply Forall_cons_iff in Hq as [Hq _]. constructor.
        { assert (q <> t.1) by congruence. lia. }
        unfold above in Ha. eapply Forall_impl; [|exact Ha]. cbn. intros s Hst. lia.
    + intros ([Ht Hf] & [Hni Hn] & Ha). split; [done|]. split.
      * intros ->. specialize (Ha _ eq_refl). apply Forall_cons_iff in Ha as [Ha _]. lia.
      * split; [done|]. split; [done|]. intros q [= <-]. unfold above. rewrite list.Forall_forall in *. intros s Hin.
        specialize (Hle s Hin). assert (s.1 <> t.1); [|lia]. intros Heq. apply Hni. rewrite <-Heq. by apply list_elem_of_fmap_2.
Qed.

(** ** The recurrence over the sorted terms *)

Definition strictly (terms : list (Z * E)) : Prop := StronglySorted (fun s t => s.1 < t.1)%Z terms.

Lemma strictly_sorted l : StronglySorted (fun s t => s.1 <= t.1)%Z l -> NoDup (l.*1) -> strictly l.
Proof.
  induction 1 as [|t l Hs IH Hle]; [constructor|]. rewrite fmap_cons, list.NoDup_cons. intros [Hni Hn].
  constructor; [by apply IH|]. rewrite list.Forall_forall in *. intros s Hin. specialize (Hle s Hin).
  assert (s.1 <> t.1); [|lia]. intros Heq. apply Hni. rewrite <-Heq. by apply list_elem_of_fmap_2.
Qed.

Lemma sparse_weight_app l1 l2 c : sparse_weight (l1 ++ l2) c = sparse_weight l1 c + sparse_weight l2 c.
Proof. unfold sparse_weight. by rewrite map_app, fsum_app. Qed.

Lemma sparse_weight_absent l c : Forall (fun t => t.1 <> c) l -> sparse_weight l c = 0.
Proof.
  induction 1 as [|t l Ht _ IH]; [done|]. unfold sparse_weight in *. cbn [map].
  rewrite fsum_cons, IH, (proj2 (Z.eqb_neq _ _)) by done. ring.
Qed.

Lemma sparse_weight_one t c : sparse_weight [t] c = if (t.1 =? c)%Z then t.2 else 0.
Proof. unfold sparse_weight. cbn [map]. rewrite fsum_cons. change (fsum []) with (0 : E). ring. Qed.

Lemma strictly_snoc l t : strictly (l ++ [t]) -> Forall (fun s => s.1 < t.1)%Z l.
Proof.
  induction l as [|x l IH]; intros Hs; [constructor|]. inversion Hs as [|?? Hl Hx]; subst. constructor; [|by apply IH].
  apply Forall_app in Hx as [_ Hx]. by inversion Hx.
Qed.

Lemma strictly_app_l l1 l2 : strictly (l1 ++ l2) -> strictly l1.
Proof.
  induction l1 as [|x l1 IH]; intros Hs; [constructor|]. inversion Hs as [|?? Hl Hx]; subst. constructor; [by apply IH|].
  by apply Forall_app in Hx as [Hx _].
Qed.

(** One step at the wrap position [q]. *)
Lemma sparse_step_spec p l1 l2 q current kernel : point_at a d p -> strictly (l1 ++ l2) -> below q l1 -> above q l2 ->
  exists l1' l2', l1 ++ l2 = l1' ++ l2' /\ below (q - 1) l1' /\ above (q - 1) l2' /\
    ResidueKernelPoint.sparse_step p (l1 ++ l2) (current, len l1, kernel) q
    = let current' := a * current - (powZ a d + 1) * sparse_weight (l1 ++ l2) q in
      Ok (current', len l1', kernel ++ [current']).
Proof.
  intros Hp Hs Hb Ha. unfold ResidueKernelPoint.sparse_step. rewrite (pa_alpha a d p), (pa_modulus a d p) by done.
  assert (Habs : forall l, above q l -> sparse_weight l q = 0).
  { intros l Hl. apply sparse_weight_absent. eapply Forall_impl; [|exact Hl]. cbn. intros. lia. }
  destruct l1 as [|t l1 _] using rev_ind.
  - exists [], l2. split; [done|]. split; [constructor|]. split; [eapply Forall_impl; [|exact Ha]; cbn; intros; lia|].
    change (len (@nil (Z * E)) =? 0)%Z with true. cbn [obind app]. by rewrite Habs.
  - rewrite len_app. change (len [t]) with 1%Z. pose proof (len_nonneg l1). rewrite (proj2 (Z.eqb_neq _ _)) by lia.
    replace (len l1 + 1 - 1)%Z with (len l1) by lia. rewrite <-app_assoc in *. cbn [app] in *.
    rewrite index_middle by done. cbn [unwrap obind]. destruct t as [position weight].
    apply Forall_app in Hb as [Hb1 Hb2]. inversion Hb2 as [|?? Hpos _]; subst. cbn [fst] in Hpos.
    assert (Hlt : Forall (fun s => s.1 < position)%Z l1).
    { change (Forall (fun s => s.1 < (position, weight).1)%Z l1). apply strictly_snoc.
      apply (strictly_app_l _ l2). by rewrite <-app_assoc. }
    assert (Hw : sparse_weight (l1 ++ (position, weight) :: l2) q = if (position =? q)%Z then weight else 0).
    { rewrite sparse_weight_app. change ((position, weight) :: l2) with ([(position, weight)] ++ l2).
      rewrite sparse_weight_app, sparse_weight_one, (Habs l2) by done. cbn [fst snd].
      rewrite sparse_weight_absent; [ring|]. eapply Forall_impl; [|exact Hlt]. cbn. intros. lia. }
    rewrite Hw. destruct (Z.eqb_spec position q) as [->|Hne]; cbn [obind].
    + exists l1, ((q, weight) :: l2). split; [done|]. split; [eapply Forall_impl; [|exact Hlt]; cbn; intros; lia|].
      split; [|done]. constructor; [cbn; lia|]. eapply Forall_impl; [|exact Ha]. cbn. intros. lia.
    + exists (l1 ++ [(position, weight)]), l2. split; [by rewrite <-app_assoc|]. split.
      { apply Forall_app. split; [eapply Forall_impl; [|exact Hlt]; cbn; intros; lia|]. constructor; [cbn; lia|constructor]. }
      split; [eapply Forall_impl; [|exact Ha]; cbn; intros; lia|]. rewrite len_app. done.
Qed.

Lemma sparse_terms_loop p terms (n : nat) l1 l2 kernel : point_at a d p -> strictly terms -> (Z.of_nat n <= d - 1)%Z ->
  terms = l1 ++ l2 -> below (Z.of_nat n) l1 -> above (Z.of_nat n) l2 ->
  exists state, ofold (ResidueKernelPoint.sparse_step p terms) (reverse (seqZ 1 (Z.of_nat n)))
      (kernel_entry a d (scatter terms) (d - 1 - Z.of_nat n), len l1, kernel)
    = Ok (state, kernel ++ map (kernel_entry a d (scatter terms)) (seqZ (d - Z.of_nat n) (Z.of_nat n))).
Proof.
  intros Hp Hs. revert l1 l2 kernel; induction n as [|n IH]; intros l1 l2 kernel Hn Ht Hb Ha.
  - eexists. cbn. by rewrite app_nil_r.
  - replace (Z.of_nat (S n)) with (Z.of_nat n + 1)%Z in * by lia.
    rewrite seqZ_app, reverse_app by lia.
    assert (Hlast : reverse (seqZ (1 + Z.of_nat n) 1) = [(Z.of_nat n + 1)%Z]) by (rewrite Z.add_comm; done).
    rewrite Hlast. cbn [app ofold].
    destruct (sparse_step_spec p l1 l2 (Z.of_nat n + 1) (kernel_entry a d (scatter terms) (d - 1 - (Z.of_nat n + 1))) kernel)
      as (l1' & l2' & Heq & Hb' & Ha' & Hstep); [done|by rewrite <-Ht|done|done|].
    rewrite <-Ht in Hstep, Heq. rewrite Hstep. cbn [obind]. replace (Z.of_nat n + 1 - 1)%Z with (Z.of_nat n) in Hb', Ha' by lia.
    assert (Hget : sparse_weight terms (Z.of_nat n + 1) = get (scatter terms) (d - 1 - (d - 1 - (Z.of_nat n + 1)))).
    { unfold scatter. rewrite get_range_map by lia. f_equal. lia. }
    rewrite Hget, <-(kernel_entry_step a d Hd) by lia.
    replace (d - 1 - (Z.of_nat n + 1) + 1)%Z with (d - 1 - Z.of_nat n)%Z by lia.
    destruct (IH l1' l2' (kernel ++ [kernel_entry a d (scatter terms) (d - 1 - Z.of_nat n)]) ltac:(lia) Heq Hb' Ha') as [st Hst].
    exists st. rewrite Hst. f_equal. f_equal. rewrite <-app_assoc. cbn [app]. f_equal.
    rewrite (seqZ_cons (d - (Z.of_nat n + 1))) by lia. cbn [map]. f_equal; [f_equal; lia|].
    f_equal. f_equal; lia.
Qed.

Lemma first_sparse p terms e : point_at a d p -> Forall (fun t => 0 <= t.1 < d)%Z terms ->
  ofold (fun sum '(position, weight) =>
           let* power := unwrap (index (powers p) position) in Ok (sum + weight * power)) terms e
  = (Ok (e + fsum (map (fun t => t.2 * powZ a t.1) terms)) : result E).
Proof.
  intros Hp Ht. revert e; induction Ht as [|[q w] terms Hq _ IH]; intros e; cbn [ofold map].
  - f_equal. change (e = e + 0). ring.
  - rewrite (pa_powers a d p) by done. cbn [fst] in Hq.
    assert (Hi : index (scalar_powers a d) q = Some (powZ a q)).
    { rewrite index_get by (rewrite scalar_powers_len; lia). by rewrite scalar_powers_get. }
    rewrite Hi. cbn [unwrap obind]. rewrite (pa_powers a d p) in IH by done. rewrite IH. f_equal. rewrite fsum_cons. cbn [fst snd]. ring.
Qed.
End sparse.

(** * The sparse kernel is the dense kernel of the scattered weights *)

Section sparse_exact.
Context {E : Type} `{FieldLaws E, Allocator, UnstableSort}.
Add Ring Ering4 : (field_ring (E := E)).

Lemma terminal_spec ws (a : E) : checked.is_power_of_two (len ws) = true -> reserve_exact (len ws) = true ->
  terminal_residue_kernel ws a = Ok (map (kernel_entry a (len ws) ws) (range (len ws))).
Proof.
  intros Hp Hr. assert (Hd : (0 < len ws)%Z) by (unfold checked.is_power_of_two in Hp; bool_prop; lia).
  destruct (new_spec a (len ws) Hd Hp Hr) as (p & Hnew & Hpt). unfold terminal_residue_kernel. rewrite Hnew. cbn [obind].
  pose proof (kernel_with_spec a (len ws) Hd fmul (fun e : E => e) (fun _ _ => eq_refl) p ws Hpt Hr eq_refl) as Hk.
  rewrite map_id in Hk. exact Hk.
Qed.

Lemma len_scatter d terms : (0 <= d)%Z -> len (scatter d terms : list E) = d.
Proof. intros Hd. unfold scatter, len. rewrite length_map, length_range. lia. Qed.

Lemma sorted_terms_spec (a : E) d p terms : (0 < d)%Z -> point_at a d p -> reserve_exact d = true ->
  strictly terms -> Forall (fun t => 0 <= t.1 < d)%Z terms ->
  (let* current :=
     ofold (fun sum '(position, weight) =>
              let* power := unwrap (index (powers p) position) in Ok (sum + weight * power)) terms 0 in
   if negb (reserve_exact (ResidueKernelPoint.dimension p)) then Err (InvalidInput "residue-kernel allocation failed")
   else
     let* (_, kernel) :=
       ofold (ResidueKernelPoint.sparse_step p terms) (reverse (seqZ 1 (ResidueKernelPoint.dimension p - 1)))
         (current, len terms, [current]) in
     Ok kernel)
  = Ok (map (kernel_entry a d (scatter d terms)) (range d)).
Proof.
  intros Hd Hp Hr Hs Ht. rewrite (first_sparse a d) by done. cbn [obind].
  rewrite (point_dimension a d Hd), Hr by done. cbn [negb].
  assert (Hfirst : 0 + fsum (map (fun t => t.2 * powZ a t.1) terms) = kernel_entry a d (scatter d terms) (d - 1 - Z.of_nat (Z.to_nat (d - 1)))).
  { rewrite <-(scatter_sum d terms (fun c => powZ a c)) by done. unfold kernel_entry.
    transitivity (sumZ d (fun c => sparse_weight terms c * powZ a c)); [ring|]. apply sumZ_ext. intros c Hc.
    unfold scatter. rewrite get_range_map by lia. replace (c + (d - 1 - Z.of_nat (Z.to_nat (d - 1))))%Z with c by lia.
    by rewrite reduced_small. }
  destruct (sparse_terms_loop a d Hd p terms (Z.to_nat (d - 1)) terms [] [kernel_entry a d (scatter d terms) (d - 1 - Z.of_nat (Z.to_nat (d - 1)))])
    as [st Hst]; [done|done|lia|by rewrite app_nil_r| |constructor|].
  { eapply Forall_impl; [|exact Ht]. cbn. intros. lia. }
  rewrite <-Hfirst in Hst. rewrite Z2Nat.id in Hst by lia. rewrite Hfirst in Hst |- *. rewrite Hst. cbn [obind].
  destruct st as [c r]. f_equal. unfold range. rewrite (seqZ_cons 0) by lia. cbn [map app]. f_equal; [f_equal; lia|].
  f_equal. f_equal; lia.
Qed.

(** C21: the sparse recurrence accepts exactly the terms with nonzero weights at
    distinct positions below a power-of-two dimension, in whatever order they
    come, and returns on them the dense kernel of the weights they stand for;
    on anything else it returns an error. *)
Theorem sparse_kernel_exact (d : Z) (terms : list (Z * E)) (a : E) :
  Forall (fun t => 0 <= t.1)%Z terms -> reserve_exact d = true ->
  if checked.is_power_of_two d && sparse_admissible d terms
  then exists kernel, sparse_residue_kernel d terms a = Ok kernel /\
         terminal_residue_kernel (scatter d terms) a = Ok kernel
  else exists e, sparse_residue_kernel d terms a = Err e.
Proof.
  intros Hn Hr. destruct (checked.is_power_of_two d) eqn:Hp; cbn [andb].
  2:{ unfold sparse_residue_kernel, ResidueKernelPoint.new. rewrite Hp, orb_true_r. by eexists. }
  assert (Hd : (0 < d)%Z) by (unfold checked.is_power_of_two in Hp; bool_prop; lia).
  destruct (new_spec a d Hd Hp Hr) as (p & Hnew & Hpt). unfold sparse_residue_kernel. rewrite Hnew. cbn [obind].
  unfold ResidueKernelPoint.sparse_kernel. pose proof (sort_perm _ (fst (B := E)) terms) as Hperm.
  pose proof (sort_sorted _ (fst (B := E)) terms) as Hsorted. set (sorted := sort_by_key fst terms) in *.
  pose proof (check_spec a d Hd p [] sorted Hpt) as Hc. cbn [app] in Hc. change (position_before []) with (@None Z) in Hc.
  change (zip (seqZ (len []) (len sorted)) sorted) with (enumerate sorted) in Hc.
  pose proof (ok_sorted d None sorted Hsorted ltac:(done)) as Hok.
  assert (Hadm : sparse_ok d None sorted = sparse_admissible d terms).
  { rewrite <-(admissible_perm d sorted terms Hperm). apply eq_true_iff_eq. rewrite Hok. unfold sparse_admissible.
    rewrite andb_true_iff, bool_decide_eq_true, forallb_forall, List.Forall_forall.
    split; [intros (Hf & Hnd & _); by split|intros (Hf & Hnd); split; [done|]; by split]. }
  rewrite Hadm in Hc. destruct (sparse_admissible d terms) eqn:Had; cbn [verdict] in Hc.
  - rewrite Hc. cbn [obind]. apply Hok in Hadm as (Hf & Hnd & _).
    exists (map (kernel_entry a d (scatter d terms)) (range d)).
    assert (Hsc : scatter d sorted = scatter d terms).
    { apply map_ext. intros c. by apply sparse_weight_perm. }
    split.
    + rewrite (sorted_terms_spec a d); [by rewrite Hsc|done|done|done|by apply strictly_sorted|].
      apply list.Forall_forall. intros t Hin. rewrite list.Forall_forall in Hf, Hn.
      specialize (Hf t Hin). rewrite Hperm in Hin. specialize (Hn t Hin). unfold term_ok in Hf. bool_prop. lia.
    + pose proof (terminal_spec (scatter d terms) a) as Ht. rewrite len_scatter in Ht by lia. by apply Ht.
  - destruct Hc as [e He]. rewrite He. by exists e.
Qed.
End sparse_exact.

(** * Evaluation at concrete inputs *)

Import EqPoly.F97_env Merge_sort_env.

Lemma residue_kernel_product_witness :
  exists kernel product,
    residue_kernel (ring_coeffs (ring97 [1; 2; 3; 4]%Z)) (F97.of_Z 33) = Ok kernel /\ len kernel = 4%Z /\
    CyclotomicRing.mul (Er := AkitaError) 4 (ring97 [1; 2; 3; 4]%Z) (ring97 [0; 1; 0; 5]%Z) = Ok product /\
    eval_ring_at_pows (H2 := true) (Er := AkitaError) 4 product (scalar_powers (F97.of_Z 33) 4)
    = eval_flat_ring_at_pows (H2 := true) (ring_coeffs (ring97 [0; 1; 0; 5]%Z)) kernel.
Proof. by apply (residue_kernel_product (H2 := true) 4 eq_refl). Defined.

Lemma sparse_kernel_exact_witness :
  exists kernel,
    sparse_residue_kernel 4 [(3, F97.of_Z 7); (1, F97.of_Z 96)]%Z (F97.of_Z 5) = Ok kernel /\
    terminal_residue_kernel (scatter 4 [(3, F97.of_Z 7); (1, F97.of_Z 96)]%Z) (F97.of_Z 5) = Ok kernel.
Proof.
  assert (Ht : Forall (fun t => 0 <= t.1)%Z [(3%Z, F97.of_Z 7); (1%Z, F97.of_Z 96)]) by (repeat constructor; done).
  exact (sparse_kernel_exact 4 _ (F97.of_Z 5) Ht eq_refl).
Defined.
