(* ===== verification/Decomposition.v ===== *)
(** [akita-algebra/src/ring/cyclotomic/decomposition.rs]: balanced base-[2^k]
    decomposition of field coefficients into signed digits, its native-width
    fast path, and gadget recomposition.

    [u128] and [i128] arithmetic is at its width: an overflow panics in a
    build with overflow checks (as [debug_assertions] builds have) and wraps
    otherwise.  The architecture-specific SIMD routes compute what the
    portable route computes on the same output and are not modelled. *)

From S2P Require Import Prelude Field Cyclotomic.

Definition I128_MAX : Z := 2 ^ 127 - 1.
Definition U128_MAX : Z := 2 ^ 128 - 1.

Section scalar.
Context {Er : Type} `{BuildMode}.
Abbreviation out := (outcome Er).

(** The result of an [i128] or [u128] operation. *)
Definition i128 (z : Z) : out Z :=
  if (- 2 ^ 127 <=? z) && (z <? 2 ^ 127) then Ok z
  else if debug_assertions then Panic else Ok (swrap 128 z).
Definition u128 (z : Z) : out Z :=
  if (0 <=? z) && (z <? 2 ^ 128) then Ok z
  else if debug_assertions then Panic else Ok (uwrap 128 z).

(** [128 - leading_zeros] *)
Definition bit_length (z : Z) : Z := if z <=? 0 then 0 else Z.log2 z + 1.

Definition u32_saturating_mul (a b : Z) : Z := Z.min (a * b) (2 ^ 32 - 1).

Definition decompose_centering_threshold (levels log_basis q : Z) : Z :=
  let half_q := q / 2 in
  let field_bits := bit_length (Z.max (q - 1) 0) in
  let total_decomp_bits := u32_saturating_mul (uwrap 32 levels) log_basis in
  if total_decomp_bits =? field_bits then
    let b := 2 ^ log_basis in
    let b_k_minus_1 := if 128 <=? total_decomp_bits then U128_MAX else 2 ^ total_decomp_bits - 1 in
    let t_k := (b / 2 - 1) * (b_k_minus_1 / (b - 1)) in
    Z.min t_k half_q
  else half_q.

Definition center_for_decomposition (canonical q threshold log_basis : Z) : out (Z * option Z) :=
  if canonical <=? threshold then Ok (swrap 128 canonical, None)
  else
    let* diff := u128 (q - canonical) in
    if diff <=? I128_MAX then Ok (- diff, None)
    else
      let b_u := 2 ^ log_basis in
      let mask_u := b_u - 1 in
      let half_b_u := Z.shiftr b_u 1 in
      let r := Z.land (uwrap 128 (canonical - q)) mask_u in
      let balanced := if half_b_u <=? r then r - b_u else r in
      let* diff_adj := if 0 <=? balanced then u128 (diff + balanced) else u128 (diff - (- balanced)) in
      let* _ := debug_assert (Z.land diff_adj mask_u =? 0) in
      let c_prime := - (Z.shiftr diff_adj log_basis) in
      Ok (c_prime, Some balanced).

(** One digit: [d = c & mask], balanced, and the carry [(c - d) >> log_basis]. *)
Definition digit_step (mask half_b b log_basis c : Z) : out (Z * Z) :=
  let d := Z.land c mask in
  let balanced := if half_b <=? d then d - b else d in
  let* s := i128 (c - balanced) in
  Ok (Z.shiftr s log_basis, balanced).

Definition peel_first_balanced_digit (canonical q threshold mask half_b b log_basis : Z)
  : out (Z * Z) :=
  let* (c, first_digit) := center_for_decomposition canonical q threshold log_basis in
  match first_digit with
  | Some d0 => Ok (c, d0)
  | None => digit_step mask half_b b log_basis c
  end.

(** The carry of the route without overflow. *)
Definition centered (q threshold canonical : Z) : out Z :=
  if threshold <? canonical
  then let* diff := u128 (q - canonical) in Ok (- (swrap 128 diff))
  else Ok (swrap 128 canonical).

(** ** Native-width extraction *)

Definition center_u64 (q threshold canonical : Z) : Z :=
  if threshold <? canonical then - (q - canonical) else canonical.

Definition extract_i64 (mask half_b b log_basis carry : Z) : Z * Z :=
  let raw := Z.land carry mask in
  if half_b <=? raw then (Z.shiftr carry log_basis + 1, swrap 8 (raw - b))
  else (Z.shiftr carry log_basis, swrap 8 raw).
End scalar.

(** * Parameters *)

Record BalancedDecomposePow2Params := {
  levels : Z;
  log_basis : Z;
  q : Z;
  threshold : Z;
  half_b : Z;
  b : Z;
  mask : Z;
  overflow_possible : bool;
}.

Definition params_new {Er} (levels log_basis q : Z) : outcome Er BalancedDecomposePow2Params :=
  let* _ := assert ((0 <? log_basis) && (log_basis <=? 16)) in
  let* _ := assert (u32_saturating_mul (uwrap 32 levels) log_basis <=? 128 + log_basis) in
  let half_b := 2 ^ (log_basis - 1) in
  let b := half_b * 2 in
  let threshold := decompose_centering_threshold levels log_basis q in
  Ok {| levels := levels; log_basis := log_basis; q := q; threshold := threshold; half_b := half_b;
        b := b; mask := b - 1; overflow_possible := I128_MAX <? Z.max (q - threshold) 0 |}.

(** * Digit planes *)

Section planes.
Context {Er : Type} `{BuildMode}.
Abbreviation out := (outcome Er).

(** One plane of a block of lanes: each lane extracts a digit, stores it at
    its column and keeps its new carry. *)
Definition lanes_plane (step : Z -> out (Z * Z)) (convert : Z -> Z) (offset : Z)
    (carries : list Z) (o : list Z) : out (list Z * list Z) :=
  ofold (fun '(carries, o) '(lane, c) =>
           let* (c, digit) := step c in
           let* o := store o (offset + lane) (convert digit) in
           Ok (carries ++ [c], o))
    (zip (range (len carries)) carries) ([], o).

(** All planes [first .. first + n) of a block based at column [base]. *)
Definition lanes_planes (step : Z -> out (Z * Z)) (convert : Z -> Z) (width base : Z)
    (planes : list Z) (carries : list Z) (o : list Z) : out (list Z) :=
  let* (_, o) := ofold (fun '(carries, o) plane =>
                   lanes_plane step convert (plane * width + base) carries o) planes (carries, o) in
  Ok o.

(** [(0..bulk_end).step_by(k)] and the remaining single columns. *)
Definition blocks (k width : Z) : list (Z * Z) :=
  let bulk_end := width - width mod k in
  map (fun i => (k * i, k)) (range (bulk_end / k)) ++
  map (fun i => (bulk_end + i, 1)) (range (width mod k)).

Context {F : Type} `{CanonicalEncoding F}.

(** [coefficients[base + lane]] for the lanes of a block. *)
Definition load (coefficients : list F) (base lanes : Z) : out (list F) :=
  omapM (fun lane => unwrap (index coefficients (base + lane))) (range lanes).

Definition signed_block (p : BalancedDecomposePow2Params) (convert : Z -> Z)
    (coefficients : list F) (o : list Z) (block : Z * Z) : out (list Z) :=
  let '(base, lanes) := block in
  let width := len coefficients in
  let step := digit_step (mask p) (half_b p) (b p) (log_basis p) in
  let* xs := load coefficients base lanes in
  if overflow_possible p then
    let* firsts := omapM (fun x => peel_first_balanced_digit (to_canonical x) (q p) (threshold p)
                                     (mask p) (half_b p) (b p) (log_basis p)) xs in
    let* o := ofold (fun o '(lane, d) => store o (base + lane) (convert d))
                (zip (range lanes) (map snd firsts)) o in
    lanes_planes step convert width base (seqZ 1 (len o / width - 1)) (map fst firsts) o
  else
    let* carries := omapM (fun x => centered (q p) (threshold p) (to_canonical x)) xs in
    lanes_planes step convert width base (range (len o / width)) carries o.

(** [balanced_decompose_coefficients_pow2_signed_into_with_params]; [bits] is
    the width of the digit type. *)
Definition balanced_decompose_coefficients_pow2_signed_into_with_params (bits : Z)
    (coefficients : list F) (o : list Z) (p : BalancedDecomposePow2Params) : out (list Z) :=
  let width := len coefficients in
  let* _ := debug_assert (len o =? width * levels p) in
  let* _ := debug_assert (log_basis p <=? bits) in
  if (width =? 0) || (levels p =? 0) then Ok o
  else
    let* _ := assert (negb (overflow_possible p) || (width <=? len o)) in
    ofold (signed_block p (swrap bits) coefficients) (blocks 3 width) o.
End planes.

(** [canonical_u64_slice]: the stored canonical words of a slice, when the
    external field type exposes them. *)
Class CanonicalSlices (F : Type) := canonical_u64_slice : list F -> option (list Z).
Class CanonicalSlicesLaws (F : Type) `{CanonicalEncoding F, CanonicalSlices F} : Prop :=
  canonical_u64_spec l ws : canonical_u64_slice l = Some ws -> ws = map to_canonical l.

Section coefficients.
Context {Er : Type} `{BuildMode} {F : Type} `{CanonicalEncoding F, CanonicalSlices F}.
Abbreviation out := (outcome Er).

Definition checked_expected_len (n levels : Z) : out Z := unwrap (checked_mul n levels).

Definition u64_block (q threshold log_basis : Z) (words : list Z) (o : list Z) (block : Z * Z)
  : out (list Z) :=
  let '(base, lanes) := block in
  let width := len words in
  let half_b := 2 ^ (log_basis - 1) in
  let b := half_b * 2 in
  let mask := b - 1 in
  let* xs := omapM (fun lane => unwrap (index words (base + lane))) (range lanes) in
  let carries := map (center_u64 q threshold) xs in
  lanes_planes (fun c => Ok (extract_i64 mask half_b b log_basis c)) (fun d => d) width base
    (range (len o / width)) carries o.

(** [None] is the [false] of the source: the output is untouched. *)
Definition try_balanced_decompose_coefficients_pow2_i8_u64_into (coefficients : list F) (o : list Z)
    (levels log_basis q threshold : Z) : out (option (list Z)) :=
  let* expected_len := checked_expected_len (len coefficients) levels in
  let* _ := assert (len o =? expected_len) in
  let* _ := assert ((1 <=? log_basis) && (log_basis <=? 8)) in
  if (len coefficients =? 0) || (levels =? 0) then Ok (Some o)
  else
    match canonical_u64_slice coefficients with
    | None => Ok None
    | Some words =>
        if negb (q <? 2 ^ 64) || negb (threshold <? 2 ^ 64) then Ok None
        else if (2 ^ 63 - 1 <? threshold) || (2 ^ 63 - 1 <? Z.max (q - threshold) 0) then Ok None
        else
          let* o := ofold (u64_block q threshold log_basis words) (blocks 4 (len words)) o in
          Ok (Some o)
    end.

(** The entry point of the [i8] decomposition on the portable route: the source
    tries a NEON or AVX2 kernel before it, on targets that have one and, for
    AVX2, when detection at run time finds it.  Those kernels are intrinsics
    and are not modelled; on any other target, and when they decline, the code
    runs what stands here. *)
Definition balanced_decompose_coefficients_pow2_i8_into (coefficients : list F) (o : list Z)
    (p : BalancedDecomposePow2Params) : out (list Z) :=
  let* expected_len := checked_expected_len (len coefficients) (levels p) in
  let* _ := assert (len o =? expected_len) in
  let* _ := assert (log_basis p <=? 8) in
  if (len coefficients =? 0) || (levels p =? 0) then Ok o
  else
    let* fast := try_balanced_decompose_coefficients_pow2_i8_u64_into coefficients o (levels p)
                   (log_basis p) (q p) (threshold p) in
    match fast with
    | Some o => Ok o
    | None => balanced_decompose_coefficients_pow2_signed_into_with_params 8 coefficients o p
    end.
End coefficients.

(** * Balanced digits of an integer *)

Section balanced.
Variable lb : Z.
Hypothesis lb_pos : 1 <= lb.
Abbreviation base := (2 ^ lb).
Abbreviation half := (2 ^ (lb - 1)).

Lemma base_half : base = 2 * half.
Proof. rewrite <-Z.pow_succ_r by lia. f_equal. lia. Qed.

Lemma half_pos : 1 <= half.
Proof. pose proof (pow2_pos (lb - 1)). lia. Qed.

(** The digit in [[-half, half)] and the carry. *)
Definition dig (z : Z) : Z := (z + half) mod base - half.
Definition nxt (z : Z) : Z := (z + half) / base.

Fixpoint carry (n : nat) (z : Z) : Z := match n with O => z | S n => carry n (nxt z) end.
Definition digit (n : nat) (z : Z) : Z := dig (carry n z).

(** [sum_(k < n) d_k * base^k] *)
Fixpoint recompose (ds : list Z) : Z :=
  match ds with [] => 0 | d :: ds => d + base * recompose ds end.
Definition digits (n : nat) (z : Z) : list Z := map (fun k => digit k z) (seq 0 n).

Lemma dig_nxt z : dig z + base * nxt z = z.
Proof.
  pose proof base_half. pose proof half_pos. unfold dig, nxt.
  pose proof (Z.div_mod (z + half) base ltac:(lia)). lia.
Qed.

Lemma dig_range z : - half <= dig z < half.
Proof.
  pose proof base_half. pose proof half_pos. unfold dig.
  pose proof (Z.mod_pos_bound (z + half) base ltac:(lia)). lia.
Qed.

Lemma carry_S n z : carry (S n) z = nxt (carry n z).
Proof. revert z; induction n as [|n IH]; intros z; [done|]. apply IH. Qed.

Lemma digits_S n z : digits (S n) z = dig z :: digits n (nxt z).
Proof.
  unfold digits. cbn [seq map]. f_equal. rewrite <-seq_shift, map_map. done.
Qed.

Lemma recompose_digits n z : recompose (digits n z) + base ^ Z.of_nat n * carry n z = z.
Proof.
  revert z; induction n as [|n IH]; intros z.
  - change (0 + 1 * z = z). lia.
  - rewrite digits_S, Nat2Z.inj_succ, Z.pow_succ_r by lia. cbn [recompose carry].
    specialize (IH (nxt z)). pose proof (dig_nxt z). nia.
Qed.

(** The number of all-ones digits: [(base^n - 1) / (base - 1)]. *)
Fixpoint ones (n : nat) : Z := match n with O => 0 | S n => base * ones n + 1 end.

Lemma ones_pow n : (base - 1) * ones n = base ^ Z.of_nat n - 1.
Proof.
  induction n as [|n IH]; [cbn; lia|].
  rewrite Nat2Z.inj_succ, Z.pow_succ_r by lia. cbn [ones]. nia.
Qed.

Lemma ones_nonneg n : 0 <= ones n.
Proof. pose proof base_half. pose proof half_pos. induction n; cbn [ones]; nia. Qed.

(** Values within reach of [n] digits leave no carry. *)
Lemma carry_zero n z : - (half * ones n) <= z <= (half - 1) * ones n -> carry n z = 0.
Proof.
  pose proof base_half as Hb. pose proof half_pos as Hh.
  revert z; induction n as [|n IH]; intros z Hz; cbn [ones] in Hz.
  - cbn. lia.
  - cbn [carry]. apply IH. unfold nxt. pose proof (ones_nonneg n). split.
    + apply Z.div_le_lower_bound; [lia|]. nia.
    + apply Z.lt_succ_r, Z.div_lt_upper_bound; [lia|]. nia.
Qed.

(** ** The machine steps *)

Lemma land_mask c : Z.land c (base - 1) = c mod base.
Proof. rewrite <-Z.land_ones by lia. by rewrite Z.ones_equiv. Qed.

Lemma balanced_mod c : (if half <=? c mod base then c mod base - base else c mod base) = dig c.
Proof.
  pose proof base_half as Hb. pose proof half_pos as Hh. unfold dig.
  pose proof (Z.mod_pos_bound c base ltac:(lia)) as Hm.
  pose proof (Z.div_mod c base ltac:(lia)) as Hd.
  destruct (Z.leb_spec half (c mod base)).
  - rewrite <-(Z.mod_unique_pos (c + half) base (c / base + 1) (c mod base - half)); lia.
  - rewrite <-(Z.mod_unique_pos (c + half) base (c / base) (c mod base + half)); lia.
Qed.

Lemma sub_shift c : Z.shiftr (c - dig c) lb = nxt c.
Proof.
  pose proof half_pos. pose proof base_half.
  rewrite Z.shiftr_div_pow2 by lia. pose proof (dig_nxt c).
  replace (c - dig c) with (nxt c * base) by lia. apply Z.div_mul. lia.
Qed.

(** Carries from which no step overflows. *)
Definition safe (c : Z) : Prop := - 2 ^ 127 <= c < 2 ^ 127 - half.

Lemma sub_fits {Er} `{BuildMode} c :
  lb <= 126 -> safe c -> i128 (Er := Er) (c - dig c) = Ok (c - dig c).
Proof.
  intros Hlb [Hl Hu]. pose proof (dig_nxt c) as Hn. pose proof (dig_range c) as Hr.
  pose proof base_half as Hb. pose proof half_pos as Hh. unfold i128.
  assert (Hlow : - 2 ^ 127 <= c - dig c).
  { replace (c - dig c) with (base * nxt c) by lia.
    assert (Hp : 2 ^ 127 = base * 2 ^ (127 - lb)) by (rewrite <-Z.pow_add_r by lia; f_equal; lia).
    rewrite Hp in *. assert (- 2 ^ (127 - lb) <= nxt c); [|nia].
    unfold nxt. apply Z.div_le_lower_bound; lia. }
  destruct (Z.leb_spec (- 2 ^ 127) (c - dig c)); [|lia].
  by destruct (Z.ltb_spec (c - dig c) (2 ^ 127)); [|lia].
Qed.

Lemma digit_step_safe {Er} `{BuildMode} c :
  lb <= 126 -> safe c -> digit_step (Er := Er) (base - 1) half base lb c = Ok (nxt c, dig c).
Proof.
  intros Hlb Hs. unfold digit_step. cbv zeta. rewrite land_mask, balanced_mod, sub_fits by done.
  cbn [obind]. by rewrite sub_shift.
Qed.

Lemma safe_nxt c : lb <= 126 -> safe c -> safe (nxt c).
Proof.
  intros Hlb [Hl Hu]. pose proof base_half as Hb. pose proof half_pos as Hh.
  assert (Hh' : half <= 2 ^ 125) by (apply Z.pow_le_mono_r; lia).
  unfold safe, nxt. split.
  - apply Z.div_le_lower_bound; [lia|]. nia.
  - apply Z.div_lt_upper_bound; [lia|].
    assert (2 ^ 127 < base * (2 ^ 127 - half)); [|lia].
    assert (2 <= base) by lia. change (2 ^ 127) with (4 * 2 ^ 125) in *. nia.
Qed.

Lemma extract_i64_spec c :
  lb <= 8 -> extract_i64 (base - 1) half base lb c = (nxt c, dig c).
Proof.
  intros Hlb. unfold extract_i64. cbv zeta. rewrite land_mask.
  pose proof (balanced_mod c) as Hd. pose proof (dig_range c) as Hr. pose proof (dig_nxt c) as Hn.
  pose proof base_half as Hb. pose proof half_pos as Hh.
  assert (Hh' : half <= 2 ^ 7) by (apply Z.pow_le_mono_r; lia).
  rewrite Z.shiftr_div_pow2 by lia. pose proof (Z.div_mod c base ltac:(lia)) as Hdm.
  destruct (Z.leb_spec half (c mod base)); rewrite Hd, swrap_id by (lia || split; lia); f_equal; nia.
Qed.
End balanced.

(** * Centering and coverage *)

Lemma cast_i128 z : - 2 ^ 127 <= z < 2 ^ 127 -> swrap 128 z = z.
Proof. intros Hz. apply swrap_id; [lia|]. exact Hz. Qed.

Lemma u128_Ok {Er} `{BuildMode} z : 0 <= z < 2 ^ 128 -> u128 (Er := Er) z = Ok z.
Proof.
  intros [H1 H2]. unfold u128. destruct (Z.leb_spec 0 z); [|lia].
  by destruct (Z.ltb_spec z (2 ^ 128)); [|lia].
Qed.

Section centering.
Variables lb k q : Z.
Hypothesis lb_range : 1 <= lb <= 126.
Hypothesis k_range : 0 <= k < 2 ^ 32.
Hypothesis total_range : k * lb <= 128 + lb.
Hypothesis q_range : 1 < q < 2 ^ 128.
Abbreviation base := (2 ^ lb).
Abbreviation half := (2 ^ (lb - 1)).
Abbreviation T := (decompose_centering_threshold k lb q).
Abbreviation fb := (bit_length (q - 1)).

Lemma fb_spec : 1 <= fb <= 128 /\ 2 ^ (fb - 1) < q <= 2 ^ fb.
Proof.
  unfold bit_length. destruct (Z.leb_spec (q - 1) 0); [lia|].
  pose proof (Z.log2_spec (q - 1) ltac:(lia)) as [H1 H2]. pose proof (Z.log2_nonneg (q - 1)).
  assert (Z.log2 (q - 1) < 128) by (apply Z.log2_lt_pow2; lia).
  rewrite Z.add_simpl_r. unfold Z.succ in H2. lia.
Qed.

Lemma ones_div n : ones lb n = (base ^ Z.of_nat n - 1) / (base - 1).
Proof.
  pose proof (base_half lb ltac:(lia)). pose proof (half_pos lb ltac:(lia)).
  rewrite <-(ones_pow lb ltac:(lia)), Z.mul_comm, Z.div_mul; lia.
Qed.

Lemma base_pow : base ^ k = 2 ^ (k * lb).
Proof. rewrite <-Z.pow_mul_r by lia. f_equal. lia. Qed.

(** The threshold, with the machine widths resolved. *)
Lemma threshold_eq :
  T = if k * lb =? fb then Z.min ((half - 1) * ones lb (Z.to_nat k)) (q / 2) else q / 2.
Proof.
  pose proof fb_spec as [Hf _]. pose proof (base_half lb ltac:(lia)) as Hb.
  unfold decompose_centering_threshold. rewrite Z.max_l by lia. rewrite uwrap_id by (split; lia).
  unfold u32_saturating_mul. rewrite Z.min_l by lia. destruct (Z.eqb_spec (k * lb) fb) as [He|]; [|done].
  f_equal. f_equal.
  - replace (base / 2) with half; [done|]. rewrite Hb, Z.mul_comm, Z.div_mul; lia.
  - rewrite ones_div, Z2Nat.id, base_pow by lia. f_equal.
    destruct (Z.leb_spec 128 (k * lb)); [|done]. replace (k * lb) with 128 by lia. done.
Qed.

Lemma threshold_range : 0 <= T <= q / 2.
Proof.
  rewrite threshold_eq. pose proof (half_pos lb ltac:(lia)).
  pose proof (ones_nonneg lb ltac:(lia) (Z.to_nat k)).
  assert (0 <= q / 2) by (apply Z.div_pos; lia).
  destruct (_ =? _); nia.
Qed.

(** The integer that is decomposed: [x] or [x - q]. *)
Definition center (x : Z) : Z := if x <=? T then x else x - q.

Lemma center_mod x : center x mod q = x mod q.
Proof.
  unfold center. destruct (x <=? T); [done|].
  replace (x - q) with (x + (-1) * q) by lia. apply Z.mod_add. lia.
Qed.

(** Enough digits: every centered value is within reach. *)
Lemma center_reach x :
  fb <= k * lb -> (2 <= lb \/ k * lb = fb) -> 0 <= x < q -> carry lb (Z.to_nat k) (center x) = 0.
Proof.
  intros Hfb Hlb Hx. apply carry_zero; [lia|]. pose proof fb_spec as [_ Hq].
  pose proof (ones_pow lb ltac:(lia) (Z.to_nat k)) as Ho. rewrite Z2Nat.id, base_pow in Ho by lia.
  pose proof (ones_nonneg lb ltac:(lia) (Z.to_nat k)) as Hon.
  pose proof (base_half lb ltac:(lia)) as Hb. pose proof (half_pos lb ltac:(lia)) as Hh.
  pose proof (Z.div_mod q 2 ltac:(lia)) as Hdm. pose proof (Z.mod_pos_bound q 2 ltac:(lia)) as Hm.
  unfold center. rewrite threshold_eq. set (N := ones lb (Z.to_nat k)) in *.
  destruct (Z.eqb_spec (k * lb) fb) as [He|Hne].
  - rewrite He in Ho. assert (q - 1 <= (base - 1) * N) by lia.
    assert ((base - 1) * N = (half - 1) * N + half * N) by (rewrite Hb; ring).
    assert (half * N = (half - 1) * N + N) by ring. assert (0 <= (half - 1) * N) by nia.
    destruct (Z.leb_spec x (Z.min ((half - 1) * N) (q / 2))); lia.
  - assert (2 ^ (fb + 1) <= 2 ^ (k * lb)) by (apply Z.pow_le_mono_r; lia).
    rewrite Z.pow_add_r in * by (pose proof fb_spec; lia). change (2 ^ 1) with 2 in *.
    assert (Hh2 : 2 <= half).
    { replace half with (2 * 2 ^ (lb - 2)) by (rewrite <-Z.pow_succ_r by lia; f_equal; lia).
      pose proof (pow2_pos (lb - 2) ltac:(lia)). lia. }
    assert (2 * q - 1 <= (base - 1) * N) by lia.
    assert ((base - 1) * N <= 3 * ((half - 1) * N)) by nia.
    assert (0 <= half * N /\ (half - 1) * N <= half * N) by nia.
    destruct (Z.leb_spec x (q / 2)); lia.
Qed.

(** ** The machine routes to the centered value *)

Hypothesis no_edge : T + half < 2 ^ 127.

Lemma half_small : half <= 2 ^ 125.
Proof. apply Z.pow_le_mono_r; lia. Qed.

Lemma centered_spec {Er} `{BuildMode} x :
  q - T <= I128_MAX -> 0 <= x < q ->
  centered (Er := Er) q T x = Ok (center x) /\ safe lb (center x).
Proof.
  intros Hov Hx. pose proof threshold_range. pose proof half_small. unfold I128_MAX in Hov.
  unfold centered, center, safe. rewrite Z.ltb_antisym. destruct (Z.leb_spec x T); cbn [negb].
  - rewrite cast_i128 by lia. split; [done|lia].
  - rewrite u128_Ok by lia. cbn [obind]. rewrite cast_i128 by lia. split; [f_equal; lia|].
    pose proof (half_pos lb ltac:(lia)). lia.
Qed.

(** When the centered interval does not fit, the threshold leaves room for the
    first digit. *)
Lemma half_le_threshold : I128_MAX < q - T -> half <= T + 2.
Proof.
  unfold I128_MAX. pose proof half_small. pose proof threshold_range as Ht. intros Hov.
  assert (Hq : 2 ^ 127 <= q) by lia.
  rewrite threshold_eq in *. pose proof (half_pos lb ltac:(lia)).
  assert (2 ^ 126 <= q / 2) by (apply Z.div_le_lower_bound; lia).
  destruct (Z.eqb_spec (k * lb) fb) as [He|]; [|lia].
  pose proof fb_spec as [Hfb1 [_ Hfb2]].
  assert (fb = 127 \/ fb = 128) as Hfb.
  { assert (127 <= fb); [|lia]. apply (Z.pow_le_mono_r_iff 2); lia. }
  assert (Hk : 2 <= k) by nia.
  assert (Hon : 1 <= ones lb (Z.to_nat k - 1)).
  { replace (Z.to_nat k - 1)%nat with (S (Z.to_nat k - 2)) by lia. cbn [ones].
    pose proof (ones_nonneg lb ltac:(lia) (Z.to_nat k - 2)). nia. }
  assert (Ho : 2 * half + 1 <= ones lb (Z.to_nat k)).
  { replace (Z.to_nat k) with (S (Z.to_nat k - 1)) by lia. cbn [ones].
    rewrite (base_half lb) by lia. nia. }
  nia.
Qed.

Lemma dig_land z : Z.land (uwrap 128 z) (base - 1) = z mod base.
Proof.
  rewrite land_mask by lia. unfold uwrap. apply Z.mod_mod_divide.
  exists (2 ^ (128 - lb)). rewrite <-Z.pow_add_r by lia. f_equal. lia.
Qed.

Lemma peel_spec {Er} `{BuildMode} x :
  I128_MAX < q - T -> 0 <= x < q ->
  peel_first_balanced_digit (Er := Er) x q T (base - 1) half base lb
    = Ok (nxt lb (center x), dig lb (center x)) /\ safe lb (nxt lb (center x)).
Proof.
  intros Hov Hx. pose proof threshold_range as Ht. pose proof half_small as Hhs.
  pose proof (base_half lb ltac:(lia)) as Hb. pose proof (half_pos lb ltac:(lia)) as Hh.
  pose proof (half_le_threshold Hov) as Hht.
  unfold peel_first_balanced_digit, center_for_decomposition, center.
  destruct (Z.leb_spec x T).
  - rewrite cast_i128 by lia. cbn [obind]. assert (safe lb x) by (unfold safe; lia).
    split; [by apply digit_step_safe; [lia..|]|]. by apply safe_nxt; [lia..|].
  - rewrite u128_Ok by lia. cbn [obind]. destruct (Z.leb_spec (q - x) I128_MAX) as [Hd|Hd].
    + cbn [obind]. replace (- (q - x)) with (x - q) by lia.
      assert (safe lb (x - q)) by (unfold safe, I128_MAX in *; lia).
      split; [by apply digit_step_safe; [lia..|]|]. by apply safe_nxt; [lia..|].
    + set (z := x - q). assert (Hz : z = x - q) by done. clearbody z. unfold I128_MAX in Hd. cbv zeta. rewrite Z.shiftr_div_pow2 by lia.
      replace (base / 2 ^ 1) with half by (rewrite Hb, Z.pow_1_r, Z.mul_comm, Z.div_mul; lia).
      rewrite dig_land, balanced_mod by lia. pose proof (dig_range lb ltac:(lia) z) as Hr.
      pose proof (dig_nxt lb ltac:(lia) z) as Hn.
      assert (Hadj : (if 0 <=? dig lb z then u128 (Er := Er) (q - x + dig lb z)
                      else u128 (q - x - - dig lb z)) = Ok (- nxt lb z * base)).
      { replace (q - x - - dig lb z) with (q - x + dig lb z) by lia.
        destruct (0 <=? dig lb z); rewrite u128_Ok by lia; f_equal; lia. }
      rewrite Hadj. cbn [obind].
      replace (Z.land (- nxt lb z * base) (base - 1)) with 0
        by (rewrite land_mask by lia; symmetry; apply Z.mod_mul; lia).
      unfold debug_assert. cbn [Z.eqb negb]. rewrite andb_false_r. cbn [obind].
      rewrite Z.shiftr_div_pow2, Z.div_mul by lia. split; [f_equal; f_equal; lia|].
      split; [|unfold nxt; apply Z.lt_le_trans with 0; [apply Z.div_lt_upper_bound; lia|lia]].
      unfold nxt. apply Z.div_le_lower_bound; [lia|]. nia.
Qed.
End centering.

(** * Writing digit planes *)

Section writing.
Context {Er : Type} `{BuildMode}.

Lemma index_store (o : list Z) k v :
  0 <= k < len o ->
  exists o', store (E := Er) o k v = Ok o' /\ len o' = len o /\
    forall p, index o' p = if p =? k then Some v else index o p.
Proof.
  intros Hk. unfold store. case_Z; cbn [andb]. eexists; split; [done|]. split.
  { unfold len. by rewrite length_insert. }
  intros p. unfold index. destruct (Z.eqb_spec p k) as [->|Hne]; case_Z; try done.
  - rewrite list_lookup_insert_eq; [done|unfold len in *; lia].
  - rewrite list_lookup_insert_ne; [done|lia].
Qed.

(** [o'] is [o] with [v p] at the positions [p] of [w]. *)
Definition written (w : Z -> bool) (v : Z -> Z) (o o' : list Z) : Prop :=
  len o' = len o /\ forall p, 0 <= p < len o -> index o' p = if w p then Some (v p) else index o p.

Lemma written_all w v o o' n :
  written w v o o' -> len o = n -> (forall p, 0 <= p < n -> w p = true) -> o' = map v (range n).
Proof.
  intros [Hl Hw] Hn Hall. apply list_eq. intros i.
  destruct (decide (Z.of_nat i < n)) as [Hi|Hi].
  - change (map v (range n)) with (v <$> range n). rewrite list_lookup_fmap.
    unfold range. rewrite lookup_seqZ_lt by lia. cbn. rewrite <-index_nat, Hw by lia.
    by rewrite Hall by lia.
  - rewrite !(proj2 (lookup_ge_None _ _)); [done|..].
    + rewrite length_map, length_range. unfold len in *. lia.
    + unfold len in *. lia.
Qed.

Lemma written_trans w1 w2 v o1 o2 o3 :
  written w1 v o1 o2 -> written w2 v o2 o3 -> written (fun p => w1 p || w2 p) v o1 o3.
Proof.
  intros [Hl1 H1] [Hl2 H2]. split; [lia|]. intros p Hp. rewrite H2, H1 by lia.
  by destruct (w1 p), (w2 p).
Qed.

Lemma written_ext w1 w2 v1 v2 o o' :
  written w1 v1 o o' ->
  (forall p, 0 <= p < len o -> w1 p = w2 p /\ (w1 p = true -> v1 p = v2 p)) ->
  written w2 v2 o o'.
Proof.
  intros [Hl H1] He. split; [done|]. intros p Hp. rewrite H1 by done.
  destruct (He p Hp) as [<- Hv]. destruct (w1 p); [by rewrite Hv|done].
Qed.

Lemma written_fold {A} (f : list Z -> A -> outcome Er (list Z)) (w : A -> Z -> bool) v n l o :
  (forall a o, a ∈ l -> len o = n -> exists o', f o a = Ok o' /\ written (w a) v o o') ->
  len o = n ->
  exists o', ofold f l o = Ok o' /\ written (fun p => existsb (fun a => w a p) l) v o o'.
Proof.
  revert o; induction l as [|a l IH]; intros o Hf Ho; cbn [ofold existsb].
  - exists o. split; [done|]. by split.
  - destruct (Hf a o ltac:(by left) Ho) as (o1 & -> & Hw1). cbn [obind].
    destruct (IH o1 (fun b o Hb => Hf b o ltac:(by right)) ltac:(destruct Hw1; lia)) as (o2 & -> & Hw2).
    exists o2. split; [done|]. by apply written_trans with o1.
Qed.

(** A step that succeeds on the carries satisfying [P]. *)
Variable step : Z -> outcome Er (Z * Z).
Variables (next out_digit : Z -> Z) (P : Z -> Prop) (convert : Z -> Z).
Hypothesis step_spec : forall c, P c -> step c = Ok (next c, out_digit c) /\ P (next c).

Fixpoint iterate (n : nat) (c : Z) : Z := match n with O => c | S n => iterate n (next c) end.

Lemma P_iterate n c : P c -> P (iterate n c).
Proof. revert c; induction n as [|n IH]; intros c Hc; [done|]. by apply IH, step_spec. Qed.

Lemma iterate_S n c : iterate (S n) c = next (iterate n c).
Proof. revert c; induction n as [|n IH]; intros c; [done|]. apply IH. Qed.

Lemma lanes_plane_spec offset cs o :
  Forall P cs -> 0 <= offset -> offset + len cs <= len o ->
  exists o', lanes_plane step convert offset cs o = Ok (map next cs, o') /\
    written (fun p => (offset <=? p) && (p <? offset + len cs))
      (fun p => convert (out_digit (default 0 (index cs (p - offset))))) o o'.
Proof.
  unfold lanes_plane. intros HP Ho Hlen.
  cut (forall acc s, 0 <= s -> offset + s + len cs <= len o ->
         exists o', ofold (fun '(carries, o) '(lane, c) =>
                      let* (c, digit) := step c in
                      let* o := store o (offset + lane) (convert digit) in
                      Ok (carries ++ [c], o)) (zip (seqZ s (len cs)) cs) (acc, o)
                    = Ok (acc ++ map next cs, o') /\
           written (fun p => (offset + s <=? p) && (p <? offset + s + len cs))
             (fun p => convert (out_digit (default 0 (index cs (p - offset - s))))) o o').
  { intros Hcut. destruct (Hcut [] 0 ltac:(lia) ltac:(lia)) as (o' & Ho' & Hw). exists o'.
    split; [exact Ho'|]. eapply written_ext; [exact Hw|]. intros p _. cbn beta.
    rewrite Z.add_0_r, Z.sub_0_r. by split. }
  clear Hlen. revert o. induction HP as [|c cs Hc HP IH]; intros o acc s Hs Hlen.
  - exists o. cbn. rewrite app_nil_r. split; [done|]. split; [done|]. intros p Hp.
    change (len []) with 0. destruct (Z.leb_spec (offset + s) p), (Z.ltb_spec p (offset + s + 0));
      cbn [andb]; try done; lia.
  - rewrite len_cons in *. pose proof (len_nonneg cs). rewrite seqZ_cons by lia.
    replace (Z.pred (len cs + 1)) with (len cs) by lia. unfold Z.succ. cbn [zip zip_with ofold].
    destruct (step_spec c Hc) as [-> _]. cbn [obind].
    destruct (index_store o (offset + s) (convert (out_digit c)) ltac:(lia)) as (o1 & -> & Hl1 & H1).
    cbn [obind]. destruct (IH o1 (acc ++ [next c]) (s + 1) ltac:(lia) ltac:(lia)) as (o2 & -> & Hl2 & H2).
    exists o2. rewrite <-app_assoc. split; [done|]. split; [lia|]. intros p Hp. rewrite H2, H1 by lia.
    destruct (Z.eqb_spec p (offset + s)) as [->|Hne].
    + replace ((offset + (s + 1) <=? offset + s)) with false by (symmetry; apply Z.leb_gt; lia).
      cbn [andb]. rewrite Z.leb_refl. destruct (Z.ltb_spec (offset + s) (offset + s + (len cs + 1))); [|lia].
      cbn [andb]. by replace (offset + s - offset - s) with 0 by lia.
    + destruct (Z.leb_spec (offset + (s + 1)) p), (Z.ltb_spec p (offset + (s + 1) + len cs)),
        (Z.leb_spec (offset + s) p), (Z.ltb_spec p (offset + s + (len cs + 1)));
        cbn [andb]; try lia; try done.
      do 3 f_equal. unfold index. case_Z. replace (Z.to_nat (p - offset - s)) with (S (Z.to_nat (p - offset - (s + 1)))) by lia.
      done.
Qed.

(** Position [p] of the planes lies in column [p mod width] of plane
    [p / width]. *)
Definition in_block (width base lanes first n p : Z) : bool :=
  (base <=? p mod width) && (p mod width <? base + lanes) &&
  (first <=? p / width) && (p / width <? first + n).

Lemma plane_position width base lanes plane p :
  0 < width -> 0 <= base -> base + lanes <= width ->
  ((plane * width + base <=? p) && (p <? plane * width + base + lanes))
  = in_block width base lanes plane 1 p.
Proof.
  intros Hw Hb Hl. unfold in_block. pose proof (Z.div_mod p width ltac:(lia)) as Hd.
  pose proof (Z.mod_pos_bound p width Hw) as Hm.
  apply eq_true_iff_eq. rewrite !andb_true_iff, !Z.leb_le, !Z.ltb_lt. split.
  - intros [H1 H2]. assert (p / width = plane).
    { symmetry. apply Z.div_unique with (p - plane * width); lia. }
    nia.
  - intros (((H1 & H2) & H3) & H4). assert (p / width = plane) by lia. nia.
Qed.

Lemma lanes_planes_spec width base first n cs o :
  Forall P cs -> 0 < width -> 0 <= base -> base + len cs <= width -> 0 <= first -> 0 <= n ->
  (first + n) * width <= len o ->
  exists o', lanes_planes step convert width base (seqZ first n) cs o = Ok o' /\
    written (in_block width base (len cs) first n)
      (fun p => convert (out_digit (iterate (Z.to_nat (p / width - first))
                                      (default 0 (index cs (p mod width - base)))))) o o'.
Proof.
  intros HP Hw Hb Hlanes Hf Hn Hlen. unfold lanes_planes.
  replace n with (Z.of_nat (Z.to_nat n)) in * by lia. revert first cs o HP Hlanes Hf Hlen.
  induction (Z.to_nat n) as [|m IH]; intros first cs o HP Hlanes Hf Hlen.
  - exists o. split; [done|]. split; [done|]. intros p Hp. unfold in_block.
    change (Z.of_nat 0) with 0.
    destruct (Z.leb_spec first (p / width)), (Z.ltb_spec (p / width) (first + 0));
      rewrite ?andb_false_r; try done; lia.
  - rewrite Nat2Z.inj_succ in *. rewrite seqZ_cons, Z.pred_succ by lia. cbn [ofold].
    destruct (lanes_plane_spec (first * width + base) cs o HP ltac:(nia) ltac:(nia))
      as (o1 & -> & Hw1). cbn [obind].
    destruct (IH ltac:(lia) (Z.succ first) (map next cs) o1) as (o2 & Ho2 & Hw2).
    { apply Forall_map. eapply Forall_impl; [|exact HP]. intros c Hc. by apply step_spec. }
    { unfold len in *. by rewrite length_map. } { lia. } { destruct Hw1. lia. }
    rewrite Ho2. exists o2. split; [done|].
    assert (Hlm : len (map next cs) = len cs) by (unfold len; by rewrite length_map).
    set (v := fun p => convert (out_digit (iterate (Z.to_nat (p / width - first))
                                             (default 0 (index cs (p mod width - base)))))).
    eapply written_ext with (v1 := v);
      [eapply written_trans with (o2 := o1);
        [eapply written_ext; [exact Hw1|]|eapply written_ext; [exact Hw2|]]|].
    + intros p Hp. split; [by apply plane_position|]. rewrite plane_position by done.
      unfold in_block. intros Hin. bool_prop. subst v. cbn beta.
      assert (Hpw : p / width = first) by lia. rewrite Hpw, Z.sub_diag. cbn [Z.to_nat iterate].
      pose proof (Z.div_mod p width ltac:(lia)) as Hdm. rewrite Hpw in Hdm.
      replace (p - (first * width + base)) with (p mod width - base) by lia. done.
    + intros p Hp. split; [reflexivity|]. rewrite Hlm. unfold in_block. intros Hin. bool_prop.
      subst v. cbn beta.
      replace (Z.to_nat (p / width - first)) with (S (Z.to_nat (p / width - Z.succ first))) by lia.
      do 2 f_equal. cbn [iterate]. f_equal. unfold index. case_Z.
      change (map next cs) with (next <$> cs). rewrite list_lookup_fmap.
      destruct (cs !! Z.to_nat (p mod width - base)) eqn:Hx; [done|].
      apply lookup_ge_None in Hx. unfold len in *. lia.
    + intros p Hp. split; [|done]. rewrite Hlm. unfold in_block.
      destruct (_ <=? _), (_ <? _); cbn [andb orb]; [|done..]. case_Z; done.
Qed.
End writing.

(** * The decomposition routines write the balanced digits *)

Lemma iterate_carry lb n z : iterate (nxt lb) n z = carry lb n z.
Proof. revert z; induction n as [|n IH]; intros z; [done|]. apply IH. Qed.

Lemma omapM_Ok {Er A B} (f : A -> outcome Er B) (g : A -> B) l :
  (forall a, a ∈ l -> f a = Ok (g a)) -> omapM f l = Ok (map g l).
Proof.
  induction l as [|a l IH]; intros Hf; cbn [omapM map]; [done|].
  rewrite Hf by (by left). cbn [obind]. rewrite IH by (intros; apply Hf; by right). done.
Qed.

Lemma load_loop {Er A} (l : list A) base s n :
  0 <= base -> 0 <= s -> base + s + Z.of_nat n <= len l ->
  omapM (E := Er) (fun lane => unwrap (index l (base + lane))) (seqZ s (Z.of_nat n))
  = Ok (take n (drop (Z.to_nat (base + s)) l)).
Proof.
  intros Hb. revert s; induction n as [|n IH]; intros s Hs Hl; [done|].
  rewrite Nat2Z.inj_succ in *. rewrite seqZ_cons, Z.pred_succ by lia. cbn [omapM].
  destruct (index_is_Some l (base + s) ltac:(lia)) as [a Ha]. rewrite Ha. cbn [unwrap obind].
  rewrite IH by lia. cbn [obind]. unfold index in Ha.
  destruct (Z.leb_spec 0 (base + s)); [|lia]. rewrite (drop_S _ _ _ Ha). cbn [take].
  do 4 f_equal. lia.
Qed.

Lemma load_spec {Er A} (l : list A) base lanes :
  0 <= base -> 0 <= lanes -> base + lanes <= len l ->
  omapM (E := Er) (fun lane => unwrap (index l (base + lane))) (range lanes)
  = Ok (take (Z.to_nat lanes) (drop (Z.to_nat base) l)).
Proof.
  intros Hb Hn Hl. unfold range. rewrite <-(Z2Nat.id lanes) at 1 by done.
  rewrite load_loop by lia. by rewrite Z.add_0_r.
Qed.

Lemma index_block {A} (l : list A) base lanes j :
  0 <= base -> base <= j < base + lanes -> 
  index (take (Z.to_nat lanes) (drop (Z.to_nat base) l)) (j - base) = index l j.
Proof.
  intros Hb Hj. unfold index. case_Z. rewrite lookup_take_lt, lookup_drop by lia. f_equal. lia.
Qed.

Lemma blocks_spec k width :
  0 < k -> 0 <= width ->
  (forall base lanes, (base, lanes) ∈ blocks k width ->
     0 <= base /\ 0 < lanes /\ base + lanes <= width) /\
  (forall j, 0 <= j < width ->
     existsb (fun '(base, lanes) => (base <=? j) && (j <? base + lanes)) (blocks k width) = true).
Proof.
  intros Hk Hw. pose proof (Z.div_mod width k ltac:(lia)) as Hd.
  pose proof (Z.mod_pos_bound width k Hk) as Hm.
  assert (Hq : (width - width mod k) / k = width / k).
  { replace (width - width mod k) with (width / k * k) by lia. apply Z.div_mul. lia. }
  assert (0 <= width / k) by (apply Z.div_pos; lia).
  unfold blocks. cbv zeta. rewrite Hq. split.
  - intros base lanes [Hin|Hin]%elem_of_app; apply list_elem_of_In, in_map_iff in Hin as (i & [= <- <-] & Hi);
      apply list_elem_of_In, elem_of_range in Hi; nia.
  - intros j Hj. apply existsb_exists. destruct (Z.lt_ge_cases j (width - width mod k)).
    + exists (k * (j / k), k). pose proof (Z.div_mod j k ltac:(lia)). pose proof (Z.mod_pos_bound j k Hk).
      split; [|apply andb_true_iff; lia]. apply in_app_iff. left. apply in_map_iff. exists (j / k).
      split; [done|]. apply list_elem_of_In, elem_of_range. split; [apply Z.div_pos; lia|].
      apply Z.div_lt_upper_bound; lia.
    + exists (j, 1). split; [|apply andb_true_iff; lia]. apply in_app_iff. right. apply in_map_iff.
      exists (j - (width - width mod k)). split; [f_equal; lia|].
      apply list_elem_of_In, elem_of_range. lia.
Qed.

Lemma existsb_pointwise {A} (f g : A -> bool) l :
  (forall a, f a = g a) -> existsb f l = existsb g l.
Proof. intros Hfg. induction l as [|a l IH]; [done|]. cbn. by rewrite Hfg, IH. Qed.

(** Blocks over all columns and planes cover every position. *)
Lemma blocks_cover k width n p :
  0 < k -> 0 < width -> 0 <= p < n * width ->
  existsb (fun '(base, lanes) => in_block width base lanes 0 n p) (blocks k width) = true.
Proof.
  intros Hk Hw Hp. pose proof (Z.mod_pos_bound p width Hw) as Hm.
  destruct (blocks_spec k width Hk ltac:(lia)) as [_ Hc]. specialize (Hc (p mod width) Hm).
  apply existsb_exists in Hc as ([base lanes] & Hin & Hb). apply existsb_exists.
  exists (base, lanes). split; [done|]. unfold in_block. rewrite Hb. cbn [andb].
  assert (0 <= p / width) by (apply Z.div_pos; lia).
  assert (p / width < 0 + n) by (apply Z.div_lt_upper_bound; lia).
  apply andb_true_iff. lia.
Qed.

Lemma stores_loop {Er} (convert : Z -> Z) base s ds (o : list Z) :
  0 <= base -> 0 <= s -> base + s + len ds <= len o ->
  exists o', ofold (E := Er) (fun o '(lane, d) => store o (base + lane) (convert d))
               (zip (seqZ s (len ds)) ds) o = Ok o' /\
    written (fun p => (base + s <=? p) && (p <? base + s + len ds))
      (fun p => convert (default 0 (index ds (p - base - s)))) o o'.
Proof.
  intros Hb. revert s o; induction ds as [|d ds IH]; intros s o Hs Hl.
  - exists o. split; [done|]. split; [done|]. intros p Hp. change (len []) with 0.
    destruct (Z.leb_spec (base + s) p), (Z.ltb_spec p (base + s + 0)); try done; lia.
  - rewrite len_cons in *. pose proof (len_nonneg ds). rewrite seqZ_cons by lia.
    replace (Z.pred (len ds + 1)) with (len ds) by lia. unfold Z.succ. cbn [zip zip_with ofold].
    destruct (index_store (Er := Er) o (base + s) (convert d) ltac:(lia)) as (o1 & -> & Hl1 & H1).
    cbn [obind]. destruct (IH (s + 1) o1 ltac:(lia) ltac:(lia)) as (o2 & -> & Hl2 & H2).
    exists o2. split; [done|]. split; [lia|]. intros p Hp. rewrite H2, H1 by lia.
    destruct (Z.eqb_spec p (base + s)) as [->|Hne].
    + replace (base + (s + 1) <=? base + s) with false by (symmetry; apply Z.leb_gt; lia).
      cbn [andb]. rewrite Z.leb_refl. destruct (Z.ltb_spec (base + s) (base + s + (len ds + 1))); [|lia].
      cbn [andb]. by replace (base + s - base - s) with 0 by lia.
    + destruct (Z.leb_spec (base + (s + 1)) p), (Z.ltb_spec p (base + (s + 1) + len ds)),
        (Z.leb_spec (base + s) p), (Z.ltb_spec p (base + s + (len ds + 1)));
        cbn [andb]; try lia; try done.
      do 3 f_equal. unfold index. case_Z.
      by replace (Z.to_nat (p - base - s)) with (S (Z.to_nat (p - base - (s + 1)))) by lia.
Qed.

Section routines.
Context {Er : Type} `{BuildMode} {F : Type} `{CanonicalEncoding F, !CanonicalLaws F}.
Variables lb k : Z.
Abbreviation qm := (modulus F).
Abbreviation T := (decompose_centering_threshold k lb qm).
Hypothesis lb_range : 1 <= lb <= 16.
Hypothesis k_range : 0 <= k.
Hypothesis total_range : k * lb <= 128 + lb.
Hypothesis q_range : 1 < qm < 2 ^ 128.
Hypothesis no_edge : T + 2 ^ (lb - 1) < 2 ^ 127.

Definition the_params : BalancedDecomposePow2Params :=
  {| levels := k; log_basis := lb; q := qm; threshold := T; half_b := 2 ^ (lb - 1); b := 2 ^ lb;
     mask := 2 ^ lb - 1; overflow_possible := I128_MAX <? qm - T |}.

Lemma k_small : 0 <= k < 2 ^ 32.
Proof. nia. Qed.

Lemma params_new_spec : params_new (Er := Er) k lb qm = Ok the_params.
Proof.
  pose proof k_small. unfold params_new, assert, u32_saturating_mul.
  rewrite uwrap_id by (split; lia). rewrite Z.min_l by nia.
  destruct (Z.ltb_spec 0 lb); [|lia]. destruct (Z.leb_spec lb 16); [|lia].
  destruct (Z.leb_spec (k * lb) (128 + lb)); [|lia]. cbn [andb obind].
  pose proof (threshold_range lb k qm ltac:(lia) k_small total_range q_range) as Ht.
  assert (qm / 2 <= qm) by (apply Z.div_le_upper_bound; lia).
  rewrite Z.max_l by lia. unfold the_params. by rewrite (base_half lb), (Z.mul_comm 2) by lia.
Qed.

(** The centered integers of the coefficients. *)
Definition centers (coefficients : list F) : list Z :=
  map (fun x => center lb k qm (to_canonical x)) coefficients.

(** Position [p] of the planes: digit [p / width] of column [p mod width]. *)
Definition plane_digit (coefficients : list F) (p : Z) : Z :=
  digit lb (Z.to_nat (p / len coefficients))
    (default 0 (index (centers coefficients) (p mod len coefficients))).

Definition plane_digits (coefficients : list F) : list Z :=
  map (plane_digit coefficients) (range (k * len coefficients)).

Lemma len_centers coefficients : len (centers coefficients) = len coefficients.
Proof. unfold len, centers. by rewrite length_map. Qed.

(** The centered values of a block of lanes. *)
Lemma block_index cs base lanes j :
  0 <= base -> base <= j < base + lanes ->
  index (map (fun x => center lb k qm (to_canonical x)) (take (Z.to_nat lanes) (drop (Z.to_nat base) cs)))
    (j - base) = index (centers cs) j.
Proof.
  intros Hb Hj. unfold centers. rewrite <-(index_block (map _ cs) base lanes) by done.
  change (map (fun x => center lb k qm (to_canonical x))) with (fmap (M := list) (fun x : F => center lb k qm (to_canonical x))).
  by rewrite fmap_take, fmap_drop.
Qed.

Lemma block_len (cs : list F) base lanes :
  0 <= base -> 0 <= lanes -> base + lanes <= len cs ->
  len (take (Z.to_nat lanes) (drop (Z.to_nat base) cs)) = lanes.
Proof. unfold len. intros. rewrite length_take, length_drop. lia. Qed.

Lemma planes_count (o : list Z) w : 0 < w -> len o = k * w -> len o / w = k.
Proof. intros Hw ->. apply Z.div_mul. lia. Qed.

(** The step of the routines on carries that cannot overflow. *)
Lemma step_safe c :
  safe lb c ->
  digit_step (Er := Er) (mask the_params) (half_b the_params) (b the_params) (log_basis the_params) c
    = Ok (nxt lb c, dig lb c) /\ safe lb (nxt lb c).
Proof.
  intros Hc. split; [apply digit_step_safe; [lia..|done]|apply safe_nxt; [lia..|done]].
Qed.

Lemma canonical_range (x : F) : 0 <= to_canonical x < qm.
Proof. apply to_canonical_range. Qed.

Lemma center_machine (x : F) :
  qm - T <= I128_MAX ->
  centered (Er := Er) qm T (to_canonical x) = Ok (center lb k qm (to_canonical x)) /\
  safe lb (center lb k qm (to_canonical x)).
Proof.
  intros Hov. pose proof k_small. pose proof (canonical_range x).
  apply centered_spec with (Er := Er); lia || done.
Qed.

Lemma peel_machine (x : F) :
  I128_MAX < qm - T ->
  peel_first_balanced_digit (Er := Er) (to_canonical x) qm T (2 ^ lb - 1) (2 ^ (lb - 1)) (2 ^ lb) lb
    = Ok (nxt lb (center lb k qm (to_canonical x)), dig lb (center lb k qm (to_canonical x))) /\
  safe lb (nxt lb (center lb k qm (to_canonical x))).
Proof.
  intros Hov. pose proof k_small. pose proof (canonical_range x).
  apply peel_spec with (Er := Er); lia || done.
Qed.

(** What a block writes, in both routes: the digits of its columns. *)
Definition block_writes (cs : list F) (block : Z * Z) (p : Z) : bool :=
  let '(base, lanes) := block in in_block (len cs) base lanes 0 k p.

Lemma index_map {A B} (f : A -> B) l j : index (map f l) j = f <$> index l j.
Proof.
  unfold index. destruct (0 <=? j); [|done]. change (map f l) with (f <$> l).
  apply list_lookup_fmap.
Qed.

Lemma center_at cs j :
  0 <= j < len cs -> exists z, index (centers cs) j = Some z /\
    forall base lanes, 0 <= base -> base <= j < base + lanes ->
      index (map (fun x => center lb k qm (to_canonical x))
               (take (Z.to_nat lanes) (drop (Z.to_nat base) cs))) (j - base) = Some z.
Proof.
  intros Hj. destruct (index_is_Some (centers cs) j) as [z Hz]; [by rewrite len_centers|].
  exists z. split; [done|]. intros base lanes Hb Hl. by rewrite block_index.
Qed.

Lemma no_overflow_block convert cs o base lanes :
  qm - T <= I128_MAX ->
  (forall d, - 2 ^ (lb - 1) <= d < 2 ^ (lb - 1) -> convert d = d) ->
  0 <= base -> 0 < lanes -> base + lanes <= len cs -> len o = k * len cs ->
  exists o', signed_block (Er := Er) the_params convert cs o (base, lanes) = Ok o' /\
    written (block_writes cs (base, lanes)) (plane_digit cs) o o'.
Proof.
  intros Hov Hconv Hb Hl Hlen Ho. unfold signed_block, load.
  rewrite load_spec by lia. cbn [obind overflow_possible the_params].
  destruct (Z.ltb_spec I128_MAX (qm - T)); [lia|].
  set (blk := take _ _). cbn [Decomposition.q threshold the_params].
  rewrite (omapM_Ok _ (fun x => center lb k qm (to_canonical x))).
  2:{ intros x _. by apply center_machine. }
  cbn [obind]. rewrite (planes_count o (len cs)) by lia.
  destruct (lanes_planes_spec (Er := Er) _ (nxt lb) (dig lb) (safe lb) convert step_safe (len cs) base 0 k
              (map (fun x => center lb k qm (to_canonical x)) blk) o) as (o' & Ho' & Hw); try lia.
  { apply Forall_map, Forall_true. intros x. by apply center_machine. }
  { unfold len at 1. rewrite length_map. fold (len blk). subst blk. rewrite block_len by lia. lia. }
  exists o'. split; [exact Ho'|]. eapply written_ext; [exact Hw|]. intros p Hp. cbn beta.
  assert (Hll : len (map (fun x => center lb k qm (to_canonical x)) blk) = lanes).
  { unfold len at 1. rewrite length_map. fold (len blk). subst blk. by rewrite block_len by lia. }
  rewrite Hll. split; [done|]. unfold in_block. intros Hin. bool_prop.
  destruct (center_at cs (p mod len cs) ltac:(lia)) as (z & Hz & Hzb).
  subst blk. rewrite Hzb by lia. cbn [default from_option id]. rewrite iterate_carry, Z.sub_0_r.
  rewrite Hconv by (apply dig_range; lia). unfold plane_digit. by rewrite Hz.
Qed.

Lemma in_block_range n base lanes first planes p :
  in_block n base lanes first planes p = true ->
  base <= p mod n < base + lanes /\ first <= p / n < first + planes.
Proof. intros Hin. unfold in_block in Hin. bool_prop. lia. Qed.

(** A block of [planes] planes is its first plane and the others. *)
Lemma in_block_split n base lanes planes p : 0 <= p -> 0 < n -> 0 < planes ->
  in_block n base lanes 0 1 p || in_block n base lanes 1 (planes - 1) p = in_block n base lanes 0 planes p.
Proof.
  intros Hp Hn Hk. unfold in_block. assert (0 <= p / n) by (apply Z.div_pos; lia).
  destruct (_ <=? _), (_ <? _); cbn [andb orb]; [|done..].
  destruct (Z.leb_spec 0 (p / n)), (Z.ltb_spec (p / n) (0 + 1)), (Z.leb_spec 1 (p / n)),
    (Z.ltb_spec (p / n) (1 + (planes - 1))), (Z.ltb_spec (p / n) (0 + planes)); cbn; lia || done.
Qed.

Lemma overflow_block convert cs o base lanes :
  I128_MAX < qm - T -> 0 < k ->
  (forall d, - 2 ^ (lb - 1) <= d < 2 ^ (lb - 1) -> convert d = d) ->
  0 <= base -> 0 < lanes -> base + lanes <= len cs -> len o = k * len cs ->
  exists o', signed_block (Er := Er) the_params convert cs o (base, lanes) = Ok o' /\
    written (block_writes cs (base, lanes)) (plane_digit cs) o o'.
Proof.
  intros Hov Hk Hconv Hb Hl Hlen Ho. unfold signed_block, load.
  rewrite load_spec by lia. cbn [obind overflow_possible the_params].
  destruct (Z.ltb_spec I128_MAX (qm - T)); [|lia].
  set (blk := take _ _). cbn [Decomposition.q threshold log_basis mask half_b b the_params].
  pose (zs := map (fun x => center lb k qm (to_canonical x)) blk).
  assert (Hlz : len zs = lanes)
    by (unfold len, zs; rewrite length_map; fold (len blk); subst blk; by rewrite block_len by lia).
  rewrite (omapM_Ok _ (fun x => (nxt lb (center lb k qm (to_canonical x)),
                                 dig lb (center lb k qm (to_canonical x))))) by (intros x _; by apply peel_machine).
  cbn [obind]. rewrite !map_map. cbn [fst snd].
  rewrite <-(map_map (fun x => center lb k qm (to_canonical x)) (dig lb)).
  rewrite <-(map_map (fun x => center lb k qm (to_canonical x)) (nxt lb)). fold zs.
  assert (Hld : len (map (dig lb) zs) = lanes) by (unfold len; rewrite length_map; exact Hlz).
  assert (Hln : len (map (nxt lb) zs) = lanes) by (unfold len; rewrite length_map; exact Hlz).
  destruct (stores_loop (Er := Er) convert base 0 (map (dig lb) zs) o) as (o1 & Ho1 & Hw1);
    [lia|lia|rewrite Hld; nia|].
  rewrite Hld in Ho1. unfold range. rewrite Ho1. cbn [obind].
  rewrite (planes_count o1 (len cs)) by (destruct Hw1; lia).
  destruct (lanes_planes_spec (Er := Er) _ (nxt lb) (dig lb) (safe lb) convert step_safe (len cs) base 1 (k - 1)
              (map (nxt lb) zs) o1) as (o2 & Ho2 & Hw2); try lia.
  { subst zs. rewrite map_map. apply Forall_map, Forall_true. intros x. by apply peel_machine. }
  { destruct Hw1. nia. }
  exists o2. split; [exact Ho2|].
  assert (Hval : forall p, base <= p mod len cs < base + lanes -> exists z,
            index zs (p mod len cs - base) = Some z /\
            plane_digit cs p = digit lb (Z.to_nat (p / len cs)) z).
  { intros p Hin. destruct (center_at cs (p mod len cs) ltac:(lia)) as (z & Hz & Hzb).
    exists z. split; [by apply Hzb|]. unfold plane_digit. by rewrite Hz. }
  apply (written_ext (fun p => in_block (len cs) base lanes 0 1 p || in_block (len cs) base lanes 1 (k - 1) p)
           _ (plane_digit cs)); [eapply (written_trans _ _ _ o o1 o2)|].
  - eapply written_ext; [exact Hw1|]. intros p Hpp. cbn beta. rewrite Hld, Z.add_0_r.
    pose proof (plane_position (len cs) base lanes 0 p ltac:(lia) Hb Hlen) as Hpl.
    rewrite Z.mul_0_l, Z.add_0_l in Hpl. rewrite Hpl. split; [done|].
    intros [Hc Hpq]%in_block_range. destruct (Hval p Hc) as (z & Hz & ->).
    assert (Hp0 : p / len cs = 0) by lia. rewrite Z.sub_0_r.
    assert (Hpm : p mod len cs = p) by (pose proof (Z.div_mod p (len cs) ltac:(lia)); lia).
    rewrite Hpm in Hz. rewrite index_map, Hz, Hp0. cbn. apply Hconv, dig_range. lia.
  - eapply written_ext; [exact Hw2|]. intros p Hpp. cbn beta. rewrite Hln. split; [done|].
    intros [Hc Hpq]%in_block_range. destruct (Hval p Hc) as (z & Hz & ->).
    rewrite index_map, Hz. cbn. rewrite iterate_carry, Hconv by (apply dig_range; lia).
    unfold digit. by replace (Z.to_nat (p / len cs)) with (S (Z.to_nat (p / len cs - 1))) by lia.
  - intros p Hpp. split; [|done]. apply in_block_split; lia.
Qed.

(** ** The portable routine *)

Lemma signed_into_spec bits cs o :
  lb <= bits -> len o = k * len cs ->
  balanced_decompose_coefficients_pow2_signed_into_with_params (Er := Er) bits cs o the_params
    = Ok (plane_digits cs).
Proof.
  intros Hbits Ho. unfold balanced_decompose_coefficients_pow2_signed_into_with_params, debug_assert, assert.
  cbn [levels log_basis the_params]. pose proof (len_nonneg cs) as Hlc.
  rewrite Ho, (Z.mul_comm k), Z.eqb_refl. cbn [negb]. rewrite andb_false_r. cbn [obind].
  destruct (Z.leb_spec lb bits); [|lia]. cbn [negb]. rewrite andb_false_r. cbn [obind].
  assert (Hempty : len cs * k = 0 -> o = plane_digits cs).
  { intros Hz. unfold plane_digits. rewrite (Z.mul_comm k), Hz. destruct o; [done|].
    rewrite len_cons in Ho. pose proof (len_nonneg o). lia. }
  destruct (Z.eqb_spec (len cs) 0) as [Hz|Hz]; [cbn; f_equal; apply Hempty; nia|].
  destruct (Z.eqb_spec k 0) as [Hk|Hk]; [cbn; f_equal; apply Hempty; nia|].
  cbn [orb overflow_possible the_params].
  replace (len cs <=? len cs * k) with true by (symmetry; apply Z.leb_le; nia).
  rewrite orb_true_r. cbn [obind].
  assert (Hconv : forall d, - 2 ^ (lb - 1) <= d < 2 ^ (lb - 1) -> swrap bits d = d).
  { intros d Hd. apply swrap_id; [lia|].
    assert (2 ^ (lb - 1) <= 2 ^ (bits - 1)) by (apply Z.pow_le_mono_r; lia). split; lia. }
  destruct (written_fold (Er := Er) (signed_block the_params (swrap bits) cs) (block_writes cs)
              (plane_digit cs) (k * len cs) (blocks 3 (len cs)) o) as (o' & -> & Hw); [|done|].
  - intros [base lanes] o1 Hin Ho1.
    destruct (blocks_spec 3 (len cs) ltac:(lia) ltac:(lia)) as [Hbl _].
    destruct (Hbl base lanes Hin) as (? & ? & ?).
    destruct (Z.le_gt_cases (qm - T) I128_MAX).
    + by apply no_overflow_block.
    + apply overflow_block; lia || done.
  - f_equal. unfold plane_digits. eapply written_all; [exact Hw|done|].
    intros p Hp. cbn beta. rewrite <-(blocks_cover 3 (len cs) k p ltac:(lia) ltac:(lia) Hp).
    apply existsb_pointwise. by intros [base lanes].
Qed.

(** ** The native-width route *)

Context `{!CanonicalSlices F, !CanonicalSlicesLaws F}.

Lemma u64_block_spec cs o base lanes :
  lb <= 8 -> 0 <= base -> 0 < lanes -> base + lanes <= len cs -> len o = k * len cs ->
  exists o', u64_block (Er := Er) qm T lb (map to_canonical cs) o (base, lanes) = Ok o' /\
    written (block_writes cs (base, lanes)) (plane_digit cs) o o'.
Proof.
  intros Hlb Hb Hl Hlen Ho. unfold u64_block.
  assert (Hlw : len (map to_canonical cs) = len cs) by (unfold len; by rewrite length_map).
  rewrite load_spec by lia. cbn [obind]. rewrite Hlw, (planes_count o (len cs)) by lia.
  change (map to_canonical cs) with (to_canonical <$> cs). rewrite <-fmap_drop, <-fmap_take.
  set (blk := take _ _). change (to_canonical <$> blk) with (map to_canonical blk). rewrite map_map.
  assert (Hc : map (fun x : F => center_u64 qm T (to_canonical x)) blk
               = map (fun x => center lb k qm (to_canonical x)) blk).
  { apply map_ext. intros x. unfold center_u64, center. rewrite Z.ltb_antisym.
    destruct (_ <=? _); cbn [negb]; lia. }
  rewrite Hc. clear Hc. set (zs := map _ blk).
  assert (Hlz : len zs = lanes)
    by (unfold len, zs; rewrite length_map; fold (len blk); subst blk; by rewrite block_len by lia).
  replace (2 ^ (lb - 1) * 2) with (2 ^ lb) by (rewrite (base_half lb) by lia; lia).
  destruct (lanes_planes_spec (Er := Er) (fun c => Ok (extract_i64 (2 ^ lb - 1) (2 ^ (lb - 1)) (2 ^ lb) lb c))
              (nxt lb) (dig lb) (fun _ => True) (fun d => d)) with (width := len cs) (base := base)
    (first := 0) (n := k) (cs := zs) (o := o) as (o' & Ho' & Hw); try lia.
  { intros c _. split; [|done]. f_equal. apply extract_i64_spec; lia. }
  { by apply Forall_true. }
  exists o'. split; [exact Ho'|]. eapply written_ext; [exact Hw|]. intros p Hp. cbn beta.
  rewrite Hlz. split; [done|]. unfold in_block. intros Hin. bool_prop.
  destruct (center_at cs (p mod len cs) ltac:(lia)) as (z & Hz & Hzb).
  subst zs blk. rewrite Hzb by lia. cbn [default from_option id]. rewrite iterate_carry, Z.sub_0_r.
  unfold plane_digit. by rewrite Hz.
Qed.

(** The entry point, whichever of the portable routes it takes. *)
Lemma i8_into_spec cs o :
  lb <= 8 -> len o = k * len cs -> k * len cs < 2 ^ 64 ->
  balanced_decompose_coefficients_pow2_i8_into (Er := Er) cs o the_params = Ok (plane_digits cs).
Proof.
  intros Hlb Ho Hfit. pose proof (len_nonneg cs) as Hlc.
  unfold balanced_decompose_coefficients_pow2_i8_into, checked_expected_len, checked_mul, usize, assert.
  cbn [levels log_basis Decomposition.q threshold the_params].
  rewrite checked_u_in by (unfold USIZE_BITS; split; nia). cbn [unwrap obind].
  rewrite (Z.mul_comm (len cs)), Ho, Z.eqb_refl. cbn [obind].
  destruct (Z.leb_spec lb 8); [|lia]. cbn [obind].
  assert (Hempty : len cs * k = 0 -> o = plane_digits cs).
  { intros Hz. unfold plane_digits. rewrite (Z.mul_comm k), Hz. destruct o; [done|].
    rewrite len_cons in Ho. pose proof (len_nonneg o). lia. }
  destruct (Z.eqb_spec (len cs) 0) as [Hz|Hz]; [cbn; f_equal; apply Hempty; nia|].
  destruct (Z.eqb_spec k 0) as [Hk|Hk]; [cbn; f_equal; apply Hempty; nia|]. cbn [orb].
  unfold try_balanced_decompose_coefficients_pow2_i8_u64_into, checked_expected_len, checked_mul, usize, assert.
  rewrite checked_u_in by (unfold USIZE_BITS; split; nia). cbn [unwrap obind].
  rewrite (Z.mul_comm (len cs)), Ho, Z.eqb_refl. cbn [obind].
  destruct (Z.leb_spec 1 lb); [|lia]. destruct (Z.leb_spec lb 8); [|lia]. cbn [andb obind].
  destruct (Z.eqb_spec (len cs) 0); [lia|]. destruct (Z.eqb_spec k 0); [lia|]. cbn [orb].
  destruct (canonical_u64_slice cs) as [ws|] eqn:Hws; [|cbn [obind]; by apply signed_into_spec].
  destruct (negb (qm <? 2 ^ 64) || negb (T <? 2 ^ 64)); [cbn [obind]; by apply signed_into_spec|].
  destruct (_ || _); [cbn [obind]; by apply signed_into_spec|].
  apply canonical_u64_spec in Hws as ->.
  assert (Hlw : len (map to_canonical cs) = len cs) by (unfold len; by rewrite length_map).
  rewrite Hlw.
  destruct (written_fold (Er := Er) (u64_block qm T lb (map to_canonical cs)) (block_writes cs)
              (plane_digit cs) (k * len cs) (blocks 4 (len cs)) o) as (o' & -> & Hw); [|done|].
  - intros [base lanes] o1 Hin Ho1.
    destruct (blocks_spec 4 (len cs) ltac:(lia) ltac:(lia)) as [Hbl _].
    destruct (Hbl base lanes Hin) as (? & ? & ?). by apply u64_block_spec.
  - cbn [obind]. f_equal. unfold plane_digits. eapply written_all; [exact Hw|done|].
    intros p Hp. cbn beta. rewrite <-(blocks_cover 4 (len cs) k p ltac:(lia) ltac:(lia) Hp).
    apply existsb_pointwise. by intros [base lanes].
Qed.

(** ** What the planes hold *)

(** The digits of column [j], least significant first. *)
Definition column (out : list Z) (width j : Z) : list (option Z) :=
  map (fun l => index out (l * width + j)) (range k).

Lemma plane_digits_at cs n j x :
  index cs j = Some x -> 0 <= n < k ->
  index (plane_digits cs) (n * len cs + j)
  = Some (digit lb (Z.to_nat n) (center lb k qm (to_canonical x))).
Proof.
  intros Hx Hn. pose proof (index_Some_len _ _ _ Hx) as Hj.
  assert (Hp : 0 <= n * len cs + j < k * len cs) by nia.
  unfold plane_digits. rewrite index_map. replace (n * len cs + j) with (j + n * len cs) in * by lia.
  unfold index at 1, range. destruct (Z.leb_spec 0 (j + n * len cs)); [|lia].
  rewrite lookup_seqZ_lt by lia. cbn. f_equal. unfold plane_digit.
  replace (0 + Z.of_nat (Z.to_nat (j + n * len cs))) with (j + n * len cs) by lia.
  rewrite Z.div_add, Z.mod_add, Z.div_small, Z.mod_small by lia.
  unfold centers. by rewrite index_map, Hx.
Qed.

Lemma column_digits cs j x :
  index cs j = Some x ->
  column (plane_digits cs) (len cs) j
  = map Some (digits lb (Z.to_nat k) (center lb k qm (to_canonical x))).
Proof.
  intros Hx. unfold column, digits, range. rewrite map_map. apply list_eq. intros i.
  change (map (fun l => index (plane_digits cs) (l * len cs + j)) (seqZ 0 k))
    with ((fun l => index (plane_digits cs) (l * len cs + j)) <$> seqZ 0 k).
  change (map (fun n => Some (digit lb n (center lb k qm (to_canonical x)))) (seq 0 (Z.to_nat k)))
    with ((fun n => Some (digit lb n (center lb k qm (to_canonical x)))) <$> seq 0 (Z.to_nat k)).
  rewrite !list_lookup_fmap. destruct (decide (Z.of_nat i < k)) as [Hi|Hi].
  - rewrite lookup_seqZ_lt by lia. rewrite lookup_seq_lt by lia. cbn. f_equal.
    rewrite (plane_digits_at cs _ j x) by (done || lia). do 2 f_equal. lia.
  - rewrite !(proj2 (lookup_ge_None _ _)); [done|..].
    + rewrite length_seq. lia.
    + rewrite length_seqZ. lia.
Qed.

Lemma digits_correct x :
  Forall (fun d => - 2 ^ (lb - 1) <= d < 2 ^ (lb - 1)) (digits lb (Z.to_nat k) (center lb k qm x)) /\
  (bit_length (qm - 1) <= k * lb -> (2 <= lb \/ k * lb = bit_length (qm - 1)) -> 0 <= x < qm ->
   recompose lb (digits lb (Z.to_nat k) (center lb k qm x)) mod qm = x).
Proof.
  split.
  - apply Forall_map, Forall_true. intros n. apply dig_range. lia.
  - intros Hfb Hlb Hx. pose proof k_small.
    pose proof (recompose_digits lb ltac:(lia) (Z.to_nat k) (center lb k qm x)) as Hr.
    rewrite center_reach in Hr by (lia || done).
    replace (recompose lb _) with (center lb k qm x) by lia.
    rewrite center_mod by (lia || done). by apply Z.mod_small.
Qed.

(** the flat decomposition, portable or native-width and for output of
    the announced length, never panics and writes, for every coefficient, the
    same [k] digits in [[-b/2, b/2)], which recompose to the coefficient
    modulo the field characteristic whenever the digits are enough:
    [k * log_basis] reaches the bit length of the modulus, and [log_basis] is
    at least 2 or the two are equal.  The hypothesis on the threshold excludes
    the values from which the first carry overflows an [i128]. *)
Theorem flat_decomposition_correct cs o j x :
  lb <= 8 -> len o = k * len cs -> k * len cs < 2 ^ 64 -> index cs j = Some x ->
  exists out ds,
    (let* p := params_new k lb qm in
     balanced_decompose_coefficients_pow2_i8_into (Er := Er) cs o p) = Ok out /\
    balanced_decompose_coefficients_pow2_signed_into_with_params (Er := Er) 8 cs o the_params = Ok out /\
    column out (len cs) j = map Some ds /\
    Forall (fun d => - 2 ^ (lb - 1) <= d < 2 ^ (lb - 1)) ds /\
    (bit_length (qm - 1) <= k * lb -> (2 <= lb \/ k * lb = bit_length (qm - 1)) ->
     recompose lb ds mod qm = to_canonical x).
Proof.
  intros Hlb Ho Hfit Hx. exists (plane_digits cs), (digits lb (Z.to_nat k) (center lb k qm (to_canonical x))).
  destruct (digits_correct (to_canonical x)) as [Hr Hv].
  rewrite params_new_spec. cbn [obind].
  split; [by apply i8_into_spec|]. split; [by apply signed_into_spec|].
  split; [by apply column_digits|]. split; [done|]. intros. apply Hv; [done..|apply canonical_range].
Qed.
End routines.

(** * Witnesses *)

Module F97_slices.
#[export] Instance mode : BuildMode := true.
#[export] Instance slices : CanonicalSlices F97.t := fun l => Some (map F97.val l).
#[export] Instance slices_laws : CanonicalSlicesLaws F97.t.
Proof. by intros l ws [= <-]. Qed.
End F97_slices.

Section witnesses.
Import F97_slices.

Lemma flat_decomposition_correct_witness :
  exists out ds,
    (let* p := params_new 2 4 97 in
     balanced_decompose_coefficients_pow2_i8_into (Er := unit) (map F97.of_Z [3; 40; 96]%Z)
       [0; 0; 0; 0; 0; 0] p) = Ok out /\
    balanced_decompose_coefficients_pow2_signed_into_with_params (Er := unit) 8
      (map F97.of_Z [3; 40; 96]%Z) [0; 0; 0; 0; 0; 0] (the_params (F := F97.t) 4 2) = Ok out /\
    column 2 out 3 1 = map Some ds /\
    Forall (fun d => - 2 ^ (4 - 1) <= d < 2 ^ (4 - 1)) ds /\
    (bit_length (97 - 1) <= 2 * 4 -> (2 <= 4 \/ 2 * 4 = bit_length (97 - 1)) ->
     recompose 4 ds mod 97 = 40).
Proof.
  assert (He : decompose_centering_threshold 2 4 97 + 2 ^ (4 - 1) < 2 ^ 127) by reflexivity.
  assert (Hx : index (map F97.of_Z [3; 40; 96]%Z) 1 = Some (F97.of_Z 40)) by reflexivity.
  exact (flat_decomposition_correct (Er := unit) (F := F97.t) 4 2 ltac:(lia) ltac:(lia) ltac:(lia)
           (conj eq_refl eq_refl) He (map F97.of_Z [3; 40; 96]%Z) [0; 0; 0; 0; 0; 0] 1 (F97.of_Z 40)
           ltac:(lia) eq_refl eq_refl Hx).
Defined.

(** For a modulus next to [2^128] the symmetric threshold is not far enough
    from [i128::MAX]: subtracting a negative first digit overflows. *)
Definition prime128_offset275 : CanonicalEncoding Z := {|
  modulus := 2 ^ 128 - 275;
  to_canonical z := z;
  from_u128_checked v := if v <? 2 ^ 128 - 275 then Some v else None;
  from_u128_reduced v := v mod (2 ^ 128 - 275);
|}.

Lemma first_carry_overflows :
  let decompose (debug : bool) :=
    let* p := params_new 13 10 (2 ^ 128 - 275) in
    balanced_decompose_coefficients_pow2_signed_into_with_params (Er := unit)
      (H := debug) (H0 := prime128_offset275) 16 [2 ^ 127 - 138] (replicate 13 0) p in
  decompose true = Panic /\
  exists out, decompose false = Ok out /\ recompose 10 out mod (2 ^ 128 - 275) <> 2 ^ 127 - 138.
Proof. split; [vm_compute; reflexivity|]. eexists. split; [vm_compute; reflexivity|]. by vm_compute. Qed.
End witnesses.
