(* ===== verification/Gadget.v ===== *)
(** [akita-algebra/src/ring/cyclotomic/decomposition.rs], the operations on
    ring elements: gadget decomposition into digit planes (field elements,
    signed integers, and the variant whose last plane carries the remainder),
    recomposition, and the centered norm.  The scalar steps and the flat
    routines are those of the file Decomposition. *)

From S2P Require Import Prelude Field Cyclotomic Decomposition.

(** [F::from_i64] of the external field. *)
Class FromI64 (F : Type) := from_i64 : Z -> F.

(** [1u128 << k] *)
Definition u128_one_shl {Er} `{BuildMode} (k : Z) : outcome Er Z :=
  if k <? 128 then Ok (2 ^ k) else if debug_assertions then Panic else Ok (2 ^ (k mod 128)).
(** [1i128 << k] for [k < 128]. *)
Definition i128_one_shl (k : Z) : Z := swrap 128 (2 ^ k).

Section gadget.
Context {Er : Type} `{BuildMode} {F : Type} `{Field F, CanonicalEncoding F}.
Variable D : Z.
Abbreviation out := (outcome Er).
Abbreviation ring := (CyclotomicRing F).
Abbreviation Ring := Build_CyclotomicRing.

(** [(-F::one()).to_u128_checked().expect(..) + 1] *)
Definition field_modulus : out Z := u128 (to_canonical (fneg (E := F) fone) + 1).

Definition balanced_digit_to_field (digit q : Z) : out F :=
  if 0 <=? digit then Ok (from_u128_reduced (uwrap 128 digit))
  else
    let* n := i128 (- digit) in
    let* v := u128 (q - uwrap 128 n) in Ok (from_u128_reduced v).

(** [plane.coeffs[i] = balanced_digit_to_field(digit, q)] *)
Definition put_digit (q i : Z) (plane : ring) (digit : Z) : out ring :=
  let* v := balanced_digit_to_field digit q in
  let* cs := store (ring_coeffs plane) i v in Ok (Ring cs).

(** The inner loop over the planes, for coefficient [i]. *)
Definition digit_column (step : Z -> out (Z * Z)) (q i : Z) (planes : list ring) (c : Z)
  : out (list ring) :=
  let* (_, done) := ofold (fun '(c, done) plane =>
                      let* (c, balanced) := step c in
                      let* plane := put_digit q i plane balanced in
                      Ok (c, done ++ [plane])) planes (c, []) in
  Ok done.

Definition check_digits (levels log_basis : Z) : out unit :=
  let* _ := assert ((0 <? log_basis) && (log_basis <? 128)) in
  assert (u32_saturating_mul (uwrap 32 levels) log_basis <=? 128 + log_basis).

Definition balanced_decompose_pow2_into (self : ring) (o : list ring) (log_basis : Z)
  : out (list ring) :=
  let levels := len o in
  let* _ := check_digits levels log_basis in
  let half_b := 2 ^ (log_basis - 1) in
  let b := swrap 128 (half_b * 2) in
  let* mask := i128 (b - 1) in
  let* q := field_modulus in
  let threshold := decompose_centering_threshold levels log_basis q in
  let overflow_possible := I128_MAX <? Z.max (q - threshold) 0 in
  let o := map (fun _ => CyclotomicRing.zero D) o in
  let step := digit_step mask half_b b log_basis in
  if overflow_possible then
    match o with
    | [] => Panic
    | first_plane :: remaining =>
        let* (first_plane, remaining) :=
          ofold (fun '(first_plane, remaining) i =>
            let* x := unwrap (index (ring_coeffs self) i) in
            let* (c, d0) := peel_first_balanced_digit (to_canonical x) q threshold mask half_b b log_basis in
            let* first_plane := put_digit q i first_plane d0 in
            let* remaining := digit_column step q i remaining c in
            Ok (first_plane, remaining)) (range D) (first_plane, remaining) in
        Ok (first_plane :: remaining)
    end
  else
    ofold (fun o i =>
      let* x := unwrap (index (ring_coeffs self) i) in
      let* c := centered q threshold (to_canonical x) in
      digit_column step q i o c) (range D) o.

Definition balanced_decompose_pow2 (self : ring) (levels log_basis : Z) : out (list ring) :=
  let* _ := check_digits levels log_basis in
  balanced_decompose_pow2_into self (replicate (Z.to_nat levels) (CyclotomicRing.zero D)) log_basis.

(** [acc += digit * power; power *= b] over the planes. *)
Definition recompose_coeff {P} (value : P -> out F) (b : F) (parts : list P) : out F :=
  let* (acc, _) := ofold (fun '(acc, power) part =>
                     let* v := value part in
                     Ok (fadd acc (fmul v power), fmul power b)) parts (fzero, fone) in
  Ok acc.

Definition gadget_recompose_pow2 (parts : list ring) (log_basis : Z) : out ring :=
  match parts with
  | [] => Ok (CyclotomicRing.zero D)
  | first :: rest =>
      let* _ := assert ((0 <? log_basis) && (log_basis <=? 128)) in
      match rest with
      | [] => Ok first
      | _ =>
          let* b := u128_one_shl log_basis in
          let* coeffs := omapM (fun i =>
                           recompose_coeff (fun part => unwrap (index (ring_coeffs part) i))
                             (from_u128_reduced b) parts) (range D) in
          Ok (Ring coeffs)
      end
  end.

(** [coeff_norm_sq] *)
Definition centered_square (q half_q : Z) (coeff : F) : out Z :=
  let canonical := to_canonical coeff in
  let* c := if half_q <? canonical
            then let* d := u128 (q - canonical) in i128 (- swrap 128 d)
            else Ok (swrap 128 canonical) in
  Ok (Z.min (Z.abs c * Z.abs c) U128_MAX).

Definition coeff_norm_sq (self : ring) : out Z :=
  let* q := field_modulus in
  let half_q := q / 2 in
  ofold (fun acc coeff =>
           let* s := centered_square q half_q coeff in
           Ok (Z.min (acc + s) U128_MAX)) (ring_coeffs self) 0.

(** ** The last digit carries the remainder *)

(** [rem_euclid] and the truncating division of Rust. *)
Definition rem_euclid (a b : Z) : Z := a mod Z.abs b.

(** The step of a plane that is not the last. *)
Definition carry_step (b half_b c : Z) : out (Z * Z) :=
  let d := rem_euclid c b in
  let* digit := if half_b <=? d then i128 (d - b) else Ok d in
  let* s := i128 (c - digit) in
  Ok (Z.quot s b, digit).

Definition carry_column (levels b half_b q i : Z) (planes : list ring) (c : Z) : out (list ring) :=
  let* (_, done) :=
    ofold (fun '(c, done) '(plane_idx, plane) =>
             let* (c, balanced) :=
               if plane_idx + 1 =? levels then Ok (c, c) else carry_step b half_b c in
             let* plane := put_digit q i plane balanced in
             Ok (c, done ++ [plane])) (zip (range (len planes)) planes) (c, []) in
  Ok done.

Definition balanced_decompose_pow2_with_carry_into (self : ring) (o : list ring) (log_basis : Z)
  : out (list ring) :=
  let levels := len o in
  let* _ := assert (0 <? levels) in
  let* _ := assert ((0 <? log_basis) && (log_basis <=? 128)) in
  let* _ := assert (u32_saturating_mul (uwrap 32 (levels - 1)) log_basis <? 128) in
  let '(b, half_b) :=
    if levels =? 1 then (0, 0)
    else let b := i128_one_shl log_basis in (b, Z.quot b 2) in
  let* q := field_modulus in
  let half_q := q / 2 in
  ofold (fun o i =>
    let* x := unwrap (index (ring_coeffs self) i) in
    let* c := centered q half_q (to_canonical x) in
    carry_column levels b half_b q i o c) (range D) o.

Definition balanced_decompose_pow2_with_carry (self : ring) (levels log_basis : Z) : out (list ring) :=
  balanced_decompose_pow2_with_carry_into self
    (replicate (Z.to_nat levels) (CyclotomicRing.zero D)) log_basis.

(** ** Signed digit planes *)

(** [out.as_flattened_mut()]: the planes as one slice, and the slice back as
    planes of [D] digits. *)
Definition as_planes (levels : Z) (flat : list Z) : list (list Z) :=
  map (fun k => take (Z.to_nat D) (drop (Z.to_nat (k * D)) flat)) (range levels).

Context `{CanonicalSlices F, FromI64 F}.

Definition balanced_decompose_pow2_i8_into_with_params (self : ring) (o : list (list Z))
    (p : BalancedDecomposePow2Params) : out (list (list Z)) :=
  let* _ := assert (log_basis p <=? 8) in
  let* flat := balanced_decompose_coefficients_pow2_i8_into (ring_coeffs self) (concat o) p in
  Ok (as_planes (len o) flat).

Definition balanced_decompose_pow2_i8_into_with_modulus (self : ring) (o : list (list Z))
    (log_basis q : Z) : out (list (list Z)) :=
  let* p := params_new (len o) log_basis q in
  balanced_decompose_pow2_i8_into_with_params self o p.

Definition balanced_decompose_pow2_i8_into (self : ring) (o : list (list Z)) (log_basis : Z)
  : out (list (list Z)) :=
  let levels := len o in
  let* _ := assert ((0 <? log_basis) && (log_basis <=? 8)) in
  let* _ := assert (u32_saturating_mul (uwrap 32 levels) log_basis <=? 128 + log_basis) in
  let* q := field_modulus in
  balanced_decompose_pow2_i8_into_with_modulus self o log_basis q.

Definition balanced_decompose_pow2_i16_into (self : ring) (o : list (list Z)) (log_basis : Z)
  : out (list (list Z)) :=
  let* q := field_modulus in
  let* p := params_new (len o) log_basis q in
  let* flat := balanced_decompose_coefficients_pow2_signed_into_with_params 16
                 (ring_coeffs self) (concat o) p in
  Ok (as_planes (len o) flat).

Definition zero_planes (levels : Z) : list (list Z) :=
  replicate (Z.to_nat levels) (replicate (Z.to_nat D) 0).

Definition balanced_decompose_pow2_i8 (self : ring) (levels log_basis : Z) : out (list (list Z)) :=
  balanced_decompose_pow2_i8_into self (zero_planes levels) log_basis.

Definition balanced_decompose_pow2_i16 (self : ring) (levels log_basis : Z) : out (list (list Z)) :=
  balanced_decompose_pow2_i16_into self (zero_planes levels) log_basis.

Definition gadget_recompose_pow2_i8 (digits : list (list Z)) (log_basis : Z) : out ring :=
  match digits with
  | [] => Ok (CyclotomicRing.zero D)
  | first :: rest =>
      let* _ := assert ((0 <? log_basis) && (log_basis <=? 128)) in
      match rest with
      | [] =>
          let* coeffs := omapM (fun i => let* d := unwrap (index first i) in Ok (from_i64 d)) (range D) in
          Ok (Ring coeffs)
      | _ =>
          let* b := u128_one_shl log_basis in
          let* coeffs := omapM (fun i =>
                           recompose_coeff (fun plane => let* d := unwrap (index plane i) in Ok (from_i64 d))
                             (from_u128_reduced b) digits) (range D) in
          Ok (Ring coeffs)
      end
  end.
End gadget.

(** * Canonical values and the field operations *)

(** The encoding of a prime field reads the field operations modulo [q]. *)
Class CanonicalFieldLaws (F : Type) `{Field F, CanonicalEncoding F} : Prop := {
  canonical_field_laws :: CanonicalLaws F;
  modulus_gt_1 : 1 < modulus F;
  to_canonical_one : to_canonical (fone (E := F)) = 1;
  to_canonical_add a b : to_canonical (fadd a b) = (to_canonical a + to_canonical b) mod modulus F;
  to_canonical_mul a b : to_canonical (fmul a b) = (to_canonical a * to_canonical b) mod modulus F;
}.
Class FromI64Laws (F : Type) `{CanonicalEncoding F, FromI64 F} : Prop :=
  from_i64_spec z : - 2 ^ 63 <= z < 2 ^ 63 -> to_canonical (from_i64 z) = z mod modulus F.

Section canonical_values.
Context {F : Type} `{FieldLaws F, CanonicalEncoding F, !CanonicalFieldLaws F}.
Abbreviation qm := (modulus F).
Add Ring Fring : (field_ring (E := F)).

Lemma qm_pos : 1 < qm.
Proof. apply modulus_gt_1. Qed.

Lemma canonical_small (x : F) : to_canonical x mod qm = to_canonical x.
Proof. apply Z.mod_small, to_canonical_range. Qed.

Lemma to_canonical_zero : to_canonical (fzero (E := F)) = 0.
Proof.
  pose proof (to_canonical_add (F := F) fzero fzero) as Hz.
  replace (fadd (E := F) fzero fzero) with (fzero (E := F)) in Hz by ring.
  pose proof (to_canonical_range (E := F) fzero).
  destruct (Z.lt_ge_cases (to_canonical (fzero (E := F)) + to_canonical (fzero (E := F))) qm).
  - rewrite Z.mod_small in Hz by lia. lia.
  - rewrite <-(Z.mod_unique_pos _ qm 1 (2 * to_canonical (fzero (E := F)) - qm)) in Hz; lia.
Qed.

Lemma to_canonical_minus_one : to_canonical (fneg (E := F) fone) = qm - 1.
Proof.
  pose proof qm_pos. pose proof (to_canonical_add (F := F) (fneg fone) fone) as Hz.
  replace (fadd (E := F) (fneg fone) fone) with (fzero (E := F)) in Hz by ring.
  rewrite to_canonical_zero, to_canonical_one in Hz.
  pose proof (to_canonical_range (E := F) (fneg fone)).
  destruct (Z.lt_ge_cases (to_canonical (fneg (E := F) fone) + 1) qm); [|lia].
  rewrite Z.mod_small in Hz by lia. lia.
Qed.

Lemma field_modulus_spec {Er} `{BuildMode} : qm < 2 ^ 128 -> field_modulus (Er := Er) (F := F) = Ok qm.
Proof.
  intros Hq. pose proof qm_pos. unfold field_modulus. rewrite to_canonical_minus_one.
  rewrite u128_Ok by lia. f_equal. lia.
Qed.

Lemma center_bounded lb k (x : F) : - qm <= center lb k qm (to_canonical x) <= qm.
Proof.
  pose proof (to_canonical_range x). unfold center. destruct (_ <=? _); lia.
Qed.

(** The field element of a signed digit. *)
Definition to_field (d : Z) : F := from_u128_reduced (if 0 <=? d then d else qm + d).

Lemma to_field_spec d : - qm <= d -> to_canonical (to_field d) = d mod qm.
Proof.
  pose proof qm_pos. intros Hd. unfold to_field.
  destruct (Z.leb_spec 0 d); rewrite from_reduced_spec by lia; [done|].
  replace (qm + d) with (d + 1 * qm) by ring. by rewrite Z.mod_add by lia.
Qed.

Lemma digit_to_field_spec {Er} `{BuildMode} d :
  qm < 2 ^ 128 -> - qm <= d < 2 ^ 127 -> - 2 ^ 127 < d ->
  balanced_digit_to_field (Er := Er) (F := F) d qm = Ok (to_field d).
Proof.
  intros Hq Hd Hlow. unfold balanced_digit_to_field, to_field. destruct (Z.leb_spec 0 d).
  - by rewrite uwrap_id by (split; lia).
  - unfold i128. destruct (Z.leb_spec (- 2 ^ 127) (- d)); [|lia].
    destruct (Z.ltb_spec (- d) (2 ^ 127)); [|lia]. cbn [andb obind].
    rewrite uwrap_id by (split; lia). rewrite u128_Ok by lia. cbn [obind]. do 2 f_equal. lia.
Qed.

(** ** Recomposition of one coefficient *)

Section recompose.
Context {Er : Type} {P : Type} (value : P -> outcome Er F) (lb : Z).
Abbreviation b := (from_u128_reduced (E := F) (2 ^ lb)).

Lemma recompose_loop parts ds acc power :
  Forall2 (fun part d => exists v, value part = Ok v /\ to_canonical v = d mod qm) parts ds ->
  exists acc' power',
    ofold (fun '(acc, power) part =>
             let* v := value part in
             Ok (fadd acc (fmul v power), fmul power b)) parts (acc, power) = Ok (acc', power') /\
    to_canonical acc' = (to_canonical acc + to_canonical power * recompose lb ds) mod qm.
Proof.
  pose proof qm_pos. intros Hp. revert acc power.
  induction Hp as [|part d parts ds (v & Hv & Hd) _ IH]; intros acc power.
  - exists acc, power. split; [done|]. cbn. rewrite Z.mul_0_r, Z.add_0_r. by rewrite canonical_small.
  - cbn [ofold]. rewrite Hv. cbn [obind].
    destruct (IH (fadd acc (fmul v power)) (fmul power b)) as (acc' & power' & -> & Ha).
    exists acc', power'. split; [done|]. rewrite Ha. cbn [recompose].
    rewrite to_canonical_add, !to_canonical_mul, Hd, from_reduced_spec by (apply Z.pow_nonneg; lia).
    rewrite Z.mul_mod_idemp_l, Z.mul_mod_idemp_r, Z.add_mod_idemp_r by lia.
    rewrite Z.add_mod_idemp_l by lia. rewrite Z.add_mod, Z.mul_mod_idemp_l by lia.
    rewrite <-Z.add_mod by lia. f_equal. ring.
Qed.

Lemma recompose_coeff_spec parts ds x :
  Forall2 (fun part d => exists v, value part = Ok v /\ to_canonical v = d mod qm) parts ds ->
  recompose lb ds mod qm = to_canonical x ->
  recompose_coeff value b parts = Ok x.
Proof.
  intros Hp Hx. destruct (recompose_loop parts ds fzero fone Hp) as (acc & power & Hf & Ha).
  unfold recompose_coeff. rewrite Hf. cbn [obind]. f_equal. apply to_canonical_inj.
  rewrite Ha, to_canonical_zero, to_canonical_one. by rewrite Z.add_0_l, Z.mul_1_l.
Qed.
End recompose.
End canonical_values.

(** * Columns of digits *)

Lemma nxt_shrinks lb m c : 1 <= lb -> 0 <= m -> - m <= c <= m -> - m <= nxt lb c <= m.
Proof.
  intros Hlb Hm Hc. pose proof (base_half lb Hlb). pose proof (half_pos lb Hlb). unfold nxt. split.
  - apply Z.div_le_lower_bound; [lia|]. nia.
  - apply Z.lt_succ_r, Z.div_lt_upper_bound; [lia|]. nia.
Qed.

Lemma dig_shrinks lb m c : 1 <= lb -> 0 <= m -> - m <= c <= m -> - m <= dig lb c <= m.
Proof.
  intros Hlb Hm Hc. pose proof (base_half lb Hlb). pose proof (half_pos lb Hlb).
  pose proof (dig_nxt lb Hlb c). pose proof (dig_range lb Hlb c).
  destruct (Z.lt_trichotomy (nxt lb c) 0) as [|[|]]; nia.
Qed.

Lemma carry_bounded lb m n c : 1 <= lb -> 0 <= m -> - m <= c <= m -> - m <= carry lb n c.
Proof.
  intros Hlb Hm. revert c; induction n as [|n IH]; intros c Hc; [apply Hc|].
  apply (IH (nxt lb c)). by apply nxt_shrinks.
Qed.

Lemma digit_bounded lb m n c : 1 <= lb -> 0 <= m -> - m <= c <= m -> - m <= digit lb n c.
Proof.
  intros Hlb Hm. revert c; induction n as [|n IH]; intros c Hc.
  - by apply dig_shrinks.
  - apply (IH (nxt lb c)). by apply nxt_shrinks.
Qed.

Section columns.
Context {Er : Type} `{BuildMode} {F : Type} `{FieldLaws F, CanonicalEncoding F, !CanonicalFieldLaws F}.
Variables D lb : Z.
Abbreviation qm := (modulus F).
Abbreviation ring := (CyclotomicRing F).
Abbreviation Ring := Build_CyclotomicRing.
Hypothesis lb_range : 1 <= lb <= 126.
Hypothesis q_small : qm < 2 ^ 128.

Definition set_coeff (i : Z) (plane : ring) (v : F) : ring :=
  Ring (<[Z.to_nat i := v]> (ring_coeffs plane)).
Definition wide (plane : ring) : Prop := len (ring_coeffs plane) = D.

Lemma put_digit_spec i plane d :
  0 <= i < D -> wide plane -> - qm <= d < 2 ^ 127 -> - 2 ^ 127 < d ->
  put_digit (Er := Er) qm i plane d = Ok (set_coeff i plane (to_field d)).
Proof.
  intros Hi Hp Hd Hl. unfold put_digit. rewrite digit_to_field_spec by done. cbn [obind].
  unfold store. rewrite Hp. case_Z; done.
Qed.

(** Carries whose digits fit. *)
Definition fits (c : Z) : Prop := safe lb c /\ - qm <= c <= qm.

Lemma fits_step c :
  fits c ->
  digit_step (Er := Er) (2 ^ lb - 1) (2 ^ (lb - 1)) (2 ^ lb) lb c = Ok (nxt lb c, dig lb c) /\
  fits (nxt lb c) /\ - qm <= dig lb c < 2 ^ 127 /\ - 2 ^ 127 < dig lb c.
Proof.
  intros [Hs Hq]. pose proof (qm_pos (F := F)). pose proof (dig_range lb ltac:(lia) c).
  assert (2 ^ (lb - 1) <= 2 ^ 125) by (apply Z.pow_le_mono_r; lia).
  split; [apply digit_step_safe; [lia..|done]|]. split; [split|].
  - by apply safe_nxt; [lia..|].
  - apply nxt_shrinks; lia.
  - assert (- qm <= dig lb c <= qm) by (apply dig_shrinks; lia). lia.
Qed.

Lemma digit_column_loop i planes c done :
  0 <= i < D -> Forall wide planes -> fits c ->
  exists c', ofold (fun '(c, done) plane =>
     let* (c, balanced) := digit_step (Er := Er) (2 ^ lb - 1) (2 ^ (lb - 1)) (2 ^ lb) lb c in
     let* plane := put_digit qm i plane balanced in
     Ok (c, done ++ [plane])) planes (c, done)
  = Ok (c', done ++ imap (fun n p => set_coeff i p (to_field (digit lb n c))) planes).
Proof.
  intros Hi Hw. revert c done. induction Hw as [|p planes Hp _ IH]; intros c done Hc.
  - exists c. cbn. by rewrite app_nil_r.
  - cbn [ofold]. destruct (fits_step c Hc) as (-> & Hn & Hd & Hl). cbn [obind].
    rewrite put_digit_spec by done. cbn [obind].
    destruct (IH (nxt lb c) (done ++ [set_coeff i p (to_field (dig lb c))]) Hn) as [c' ->].
    exists c'. by rewrite <-app_assoc.
Qed.

Lemma digit_column_spec i planes c :
  0 <= i < D -> Forall wide planes -> fits c ->
  digit_column (Er := Er) (digit_step (2 ^ lb - 1) (2 ^ (lb - 1)) (2 ^ lb) lb) qm i planes c
  = Ok (imap (fun n p => set_coeff i p (to_field (digit lb n c))) planes).
Proof.
  intros Hi Hw Hc. unfold digit_column.
  destruct (digit_column_loop i planes c [] Hi Hw Hc) as [c' ->]. done.
Qed.

(** The digits of the variant with a final remainder. *)
Definition carry_digit (levels : Z) (n : nat) (c : Z) : Z :=
  if Z.of_nat n + 1 =? levels then carry lb n c else digit lb n c.

Lemma carry_step_spec c :
  fits c -> carry_step (Er := Er) (2 ^ lb) (2 ^ (lb - 1)) c = Ok (nxt lb c, dig lb c).
Proof.
  intros Hc. destruct (fits_step c Hc) as (_ & _ & Hd & Hl). unfold carry_step, rem_euclid.
  pose proof (base_half lb ltac:(lia)). pose proof (half_pos lb ltac:(lia)).
  rewrite Z.abs_eq by lia. pose proof (balanced_mod lb ltac:(lia) c) as Hbm.
  assert (Hdig : (if 2 ^ (lb - 1) <=? c mod 2 ^ lb then i128 (Er := Er) (c mod 2 ^ lb - 2 ^ lb)
                  else Ok (c mod 2 ^ lb)) = Ok (dig lb c)).
  { destruct (_ <=? _); rewrite Hbm; [|done]. unfold i128.
    destruct (Z.leb_spec (- 2 ^ 127) (dig lb c)); [|lia].
    by destruct (Z.ltb_spec (dig lb c) (2 ^ 127)); [|lia]. }
  cbv zeta. rewrite Hdig. cbn [obind]. rewrite (sub_fits lb ltac:(lia)) by (lia || apply Hc).
  cbn [obind]. pose proof (dig_nxt lb ltac:(lia) c).
  replace (c - dig lb c) with (nxt lb c * 2 ^ lb) by lia. by rewrite Z.quot_mul by lia.
Qed.

Lemma carry_column_loop i levels s planes c done :
  0 <= i < D -> Forall wide planes -> fits c -> - 2 ^ 127 < c -> s + len planes = levels ->
  exists c', ofold (fun '(c, done) '(plane_idx, plane) =>
     let* (c, balanced) :=
       if plane_idx + 1 =? levels then Ok (c, c) else carry_step (Er := Er) (2 ^ lb) (2 ^ (lb - 1)) c in
     let* plane := put_digit qm i plane balanced in
     Ok (c, done ++ [plane])) (zip (seqZ s (len planes)) planes) (c, done)
  = Ok (c', done ++ imap (fun n p => set_coeff i p (to_field (carry_digit (levels - s) n c))) planes).
Proof.
  intros Hi Hw. revert s c done. induction Hw as [|p planes Hp Hw IH]; intros s c done Hc Hl Hlev.
  - exists c. cbn. by rewrite app_nil_r.
  - rewrite len_cons in *. pose proof (len_nonneg planes). rewrite seqZ_cons by lia.
    replace (Z.pred (len planes + 1)) with (len planes) by lia. unfold Z.succ. cbn [zip zip_with ofold].
    destruct (fits_step c Hc) as (_ & Hn & Hd & Hdl). pose proof (qm_pos (F := F)).
    destruct (Z.eqb_spec (s + 1) levels) as [He|He].
    + cbn [obind]. rewrite put_digit_spec; [|done|done|destruct Hc as [[] ?]|done];
        [|pose proof (half_pos lb ltac:(lia)); lia].
      cbn [obind]. destruct planes; [|rewrite len_cons in *; pose proof (len_nonneg planes); lia].
      exists c. cbn [imap]. unfold carry_digit.
      by destruct (Z.eqb_spec (Z.of_nat 0 + 1) (levels - s)); [|lia].
    + rewrite carry_step_spec by done. cbn [obind]. rewrite put_digit_spec by done. cbn [obind].
      destruct (IH (s + 1) (nxt lb c) (done ++ [set_coeff i p (to_field (dig lb c))]) Hn) as [c' ->];
        [|lia|].
      { destruct Hc as [[] ?]. pose proof (half_pos lb ltac:(lia)).
        pose proof (nxt_shrinks lb (2 ^ 127 - 1) c ltac:(lia) ltac:(lia) ltac:(lia)). lia. }
      exists c'. rewrite <-app_assoc. do 3 f_equal. cbn. f_equal.
      * unfold carry_digit. destruct (Z.eqb_spec (Z.of_nat 0 + 1) (levels - s)); [lia|done].
      * apply imap_ext. intros n p' _. cbn. do 2 f_equal. unfold carry_digit.
        by destruct (Z.eqb_spec (Z.of_nat (S n) + 1) (levels - s)),
             (Z.eqb_spec (Z.of_nat n + 1) (levels - (s + 1))); try lia.
Qed.

Lemma carry_column_spec i planes c :
  0 <= i < D -> Forall wide planes -> fits c -> - 2 ^ 127 < c ->
  carry_column (Er := Er) (len planes) (2 ^ lb) (2 ^ (lb - 1)) qm i planes c
  = Ok (imap (fun n p => set_coeff i p (to_field (carry_digit (len planes) n c))) planes).
Proof.
  intros Hi Hw Hc Hl. unfold carry_column, range.
  destruct (carry_column_loop i (len planes) 0 planes c [] Hi Hw Hc Hl) as [c' ->]; [lia|].
  cbn [obind app]. by rewrite Z.sub_0_r.
Qed.

(** ** All coefficients *)

Definition digit_planes (g : nat -> F -> F) (cs : list F) (k : Z) : list ring :=
  map (fun n => Ring (map (g n) cs)) (seq 0 (Z.to_nat k)).

Lemma insert_front (g : F -> F) (cs zs : list F) m x :
  cs !! m = Some x -> length zs = length cs ->
  <[m := g x]> (take m (map g cs) ++ drop m zs) = take (S m) (map g cs) ++ drop (S m) zs.
Proof.
  intros Hx Hl. pose proof (lookup_lt_Some _ _ _ Hx).
  destruct (lookup_lt_is_Some_2 zs m ltac:(lia)) as [z Hz].
  assert (Ht : length (take m (map g cs)) = m) by (rewrite length_take, length_map; lia).
  rewrite insert_app_r_alt by lia. rewrite Ht, Nat.sub_diag.
  rewrite (drop_S zs z m Hz). cbn [insert list_insert].
  rewrite (take_S_r (map g cs) m (g x)), <-app_assoc; [done|].
  change (map g cs) with (g <$> cs). by rewrite list_lookup_fmap, Hx.
Qed.

Lemma imap_twice {A B C} (f : nat -> B -> C) (h : nat -> A -> B) l :
  imap f (imap h l) = imap (fun n a => f n (h n a)) l.
Proof.
  apply list_eq. intros i. rewrite !list_lookup_imap. by destruct (l !! i).
Qed.

Lemma imap_unchanged {A} (f : nat -> A -> A) l : (forall n a, f n a = a) -> imap f l = l.
Proof.
  intros Hf. apply list_eq. intros i. rewrite list_lookup_imap.
  destruct (l !! i); cbn; [by rewrite Hf|done].
Qed.

Lemma Forall_imap {A B} (P : B -> Prop) (f : nat -> A -> B) l :
  Forall (fun a => forall n, P (f n a)) l -> Forall P (imap f l).
Proof.
  rewrite !Forall_lookup. intros Hl i b Hi. rewrite list_lookup_imap in Hi.
  destruct (l !! i) as [a|] eqn:Ha; [|done]. cbn in Hi. injection Hi as <-. by eapply Hl.
Qed.

Lemma fill_loop (col : list ring -> Z -> outcome Er (list ring)) g cs k (o : list ring) :
  len o = k -> Forall wide o ->
  (forall i planes x, len planes = k -> Forall wide planes -> index cs i = Some x ->
     col planes i = Ok (imap (fun n p => set_coeff i p (g n x)) planes)) ->
  0 <= D -> len cs = D ->
  ofold col (range D) o = Ok (digit_planes g cs k).
Proof.
  intros <- Hwide Hcol HD Hcs.
  assert (Hm : forall m : nat, Z.of_nat m <= D ->
    ofold col (range (Z.of_nat m)) o
    = Ok (imap (fun n p => Ring (take m (map (g n) cs) ++ drop m (ring_coeffs p))) o)).
  { induction m as [|m IH]; intros Hle.
    - cbn [Z.of_nat range ofold]. f_equal. symmetry. apply imap_unchanged. by intros n [].
    - rewrite Nat2Z.inj_succ. unfold Z.succ. rewrite range_S by lia.
      rewrite ofold_app, IH by lia. cbn [obind ofold].
      destruct (index_is_Some cs (Z.of_nat m) ltac:(lia)) as [x Hx].
      rewrite (Hcol _ _ x); [| | |exact Hx].
      + cbn [obind]. rewrite imap_twice. f_equal. apply imap_ext. intros n p Hp. unfold set_coeff. cbn.
        rewrite Nat2Z.id. f_equal. rewrite index_nat in Hx. apply insert_front; [done|].
        rewrite Forall_lookup in Hwide. specialize (Hwide _ _ Hp). unfold wide, len in *. lia.
      + unfold len. by rewrite length_imap.
      + apply Forall_imap. revert Hwide. apply Forall_impl. intros p Hp n. unfold wide, len in *. cbn.
        rewrite length_app, length_take, length_drop, length_map. lia. }
  specialize (Hm (Z.to_nat D) ltac:(lia)). rewrite Z2Nat.id in Hm by lia. rewrite Hm.
  f_equal. unfold digit_planes, len. rewrite Nat2Z.id.
  transitivity (imap (fun n _ => Ring (map (g n) cs)) o); [|apply imap_seq_0]. apply imap_ext. intros n p Hp. f_equal.
  rewrite Forall_lookup in Hwide. specialize (Hwide _ _ Hp).
  rewrite take_ge by (rewrite length_map; unfold len in *; lia).
  rewrite drop_ge by (unfold wide, len in *; lia). apply app_nil_r.
Qed.

Lemma zeroed_wide (o : list ring) : 0 <= D -> Forall wide (map (fun _ => CyclotomicRing.zero D) o).
Proof. intros HD. apply Forall_map, Forall_true. intros _. by apply len_zeros. Qed.

(** The loop that treats the first plane apart, as a loop over all planes. *)
Lemma first_plane_loop {S A} (body : S * list S -> A -> outcome Er (S * list S)) l f r :
  (let* (f, r) := ofold body l (f, r) in Ok (f :: r))
  = ofold (fun planes i =>
             match planes with
             | [] => Panic
             | f :: r => let* (f, r) := body (f, r) i in Ok (f :: r)
             end) l (f :: r).
Proof.
  revert f r; induction l as [|a l IH]; intros f r; [done|]. cbn [ofold].
  destruct (body (f, r) a) as [[f' r']|e|]; cbn [obind]; [apply IH|done..].
Qed.

(** ** Decomposition *)

Section levels.
Variable k : Z.
Abbreviation T := (decompose_centering_threshold k lb qm).
Hypothesis k_pos : 0 < k.
Hypothesis total_range : k * lb <= 128 + lb.
Hypothesis no_edge : T + 2 ^ (lb - 1) < 2 ^ 127.
Hypothesis D_pos : 0 <= D.

Definition center_digit (n : nat) (x : F) : F :=
  to_field (digit lb n (center lb k qm (to_canonical x))).

Lemma levels_u32 : 0 <= k < 2 ^ 32.
Proof. assert (k * 1 <= k * lb) by (apply Z.mul_le_mono_nonneg_l; lia). lia. Qed.

Lemma q_range : 1 < qm < 2 ^ 128.
Proof. pose proof (qm_pos (F := F)). lia. Qed.

Lemma plain_column planes i (self : ring) x :
  qm - T <= I128_MAX -> Forall wide planes -> wide self -> index (ring_coeffs self) i = Some x ->
  (let* x := unwrap (index (ring_coeffs self) i) in
   let* c := centered (Er := Er) qm T (to_canonical x) in
   digit_column (digit_step (2 ^ lb - 1) (2 ^ (lb - 1)) (2 ^ lb) lb) qm i planes c)
  = Ok (imap (fun n p => set_coeff i p (center_digit n x)) planes).
Proof.
  intros Hov Hp Hs Hx. pose proof (qm_pos (F := F)). pose proof (index_Some_len _ _ _ Hx).
  rewrite Hx. cbn [unwrap obind]. pose proof (to_canonical_range x).
  destruct (centered_spec lb k qm lb_range levels_u32 total_range q_range no_edge (Er := Er)
              (to_canonical x) Hov (to_canonical_range x)) as [-> Hsafe].
  cbn [obind]. unfold wide in Hs. apply digit_column_spec; [lia|done|].
  split; [done|apply center_bounded].
Qed.

Lemma peeled_column first planes i (self : ring) x :
  I128_MAX < qm - T -> wide first -> Forall wide planes -> wide self ->
  index (ring_coeffs self) i = Some x ->
  (let* (first, remaining) :=
     (let* x := unwrap (index (ring_coeffs self) i) in
      let* (c, d0) := peel_first_balanced_digit (Er := Er) (to_canonical x) qm T (2 ^ lb - 1) (2 ^ (lb - 1))
                        (2 ^ lb) lb in
      let* first := put_digit qm i first d0 in
      let* remaining := digit_column (digit_step (2 ^ lb - 1) (2 ^ (lb - 1)) (2 ^ lb) lb) qm i planes c in
      Ok (first, remaining)) in
   Ok (first :: remaining))
  = Ok (imap (fun n p => set_coeff i p (center_digit n x)) (first :: planes)).
Proof.
  intros Hov Hf Hp Hs Hx. pose proof (qm_pos (F := F)). pose proof (index_Some_len _ _ _ Hx).
  rewrite Hx. cbn [unwrap obind]. pose proof (to_canonical_range x).
  destruct (peel_spec lb k qm lb_range levels_u32 total_range q_range no_edge (Er := Er)
              (to_canonical x) Hov (to_canonical_range x)) as [-> Hsafe].
  cbn [obind]. unfold wide in Hs. set (c := center _ _ _ _) in *.
  assert (Hc : - qm <= c <= qm) by apply center_bounded.
  assert (Hd : - qm <= dig lb c <= qm) by (apply dig_shrinks; lia).
  pose proof (dig_range lb ltac:(lia) c). assert (2 ^ (lb - 1) <= 2 ^ 125) by (apply Z.pow_le_mono_r; lia).
  rewrite put_digit_spec by (done || lia). cbn [obind].
  rewrite digit_column_spec; [done|lia|done|]. split; [done|]. apply nxt_shrinks; lia.
Qed.

Lemma check_digits_spec : check_digits (Er := Er) k lb = Ok tt.
Proof.
  unfold check_digits, assert, u32_saturating_mul. pose proof levels_u32. rewrite uwrap_id by (split; lia).
  rewrite Z.min_l by lia. destruct (Z.ltb_spec 0 lb), (Z.ltb_spec lb 128); try lia.
  cbn [andb obind]. destruct (Z.leb_spec (k * lb) (128 + lb)); [done|lia].
Qed.

Lemma decompose_into_spec (self : ring) (o : list ring) :
  wide self -> len o = k ->
  balanced_decompose_pow2_into (Er := Er) D self o lb
  = Ok (digit_planes center_digit (ring_coeffs self) k).
Proof.
  intros Hs Ho. pose proof (qm_pos (F := F)) as Hq1. pose proof (base_half lb ltac:(lia)) as Hb.
  pose proof (half_pos lb ltac:(lia)). assert (2 ^ (lb - 1) <= 2 ^ 125) by (apply Z.pow_le_mono_r; lia).
  pose proof (threshold_range lb k qm lb_range levels_u32 total_range q_range) as Ht.
  assert (qm / 2 <= qm) by (apply Z.div_le_upper_bound; lia).
  unfold balanced_decompose_pow2_into. cbv zeta. rewrite Ho, check_digits_spec. cbn [obind].
  rewrite (Z.mul_comm _ 2), <-Hb, cast_i128 by lia.
  unfold i128. destruct (Z.leb_spec (- 2 ^ 127) (2 ^ lb - 1)), (Z.ltb_spec (2 ^ lb - 1) (2 ^ 127)); try lia.
  cbn [andb obind]. rewrite field_modulus_spec by done. cbn [obind]. rewrite Z.max_l by lia.
  destruct (Z.ltb_spec I128_MAX (qm - T)).
  - destruct o as [|p0 o]; [change (len []) with 0 in Ho; lia|]. cbn [map].
    match goal with |- context [ofold ?body _ (CyclotomicRing.zero D, _)] =>
      pose proof (first_plane_loop body (range D) (CyclotomicRing.zero D)
                    (map (fun _ => CyclotomicRing.zero D) o)) as Hl end.
    rewrite Hl. apply (fill_loop _ _ _ k (map (fun _ => CyclotomicRing.zero D) (p0 :: o)));
      [unfold len in *; by rewrite length_map|by apply zeroed_wide| |done|exact Hs].
    intros i [|f r] x Hlen Hw Hx; [change (len []) with 0 in Hlen; lia|].
    apply Forall_cons_1 in Hw as [Hw1 Hw2]. by apply (peeled_column f r i self x).
  - apply fill_loop; [unfold len in *; by rewrite length_map|by apply zeroed_wide| |done|exact Hs]. intros i planes x _ Hw Hx.
    by apply (plain_column planes i self x).
Qed.
End levels.

Lemma with_carry_into_spec k (self : ring) (o : list ring) :
  0 < k -> (k - 1) * lb < 128 -> qm / 2 + 2 ^ (lb - 1) < 2 ^ 127 -> 0 <= D ->
  wide self -> len o = k -> Forall wide o ->
  balanced_decompose_pow2_with_carry_into (Er := Er) D self o lb
  = Ok (digit_planes (fun n x => to_field (carry_digit k n
          (if to_canonical x <=? qm / 2 then to_canonical x else to_canonical x - qm)))
        (ring_coeffs self) k).
Proof.
  intros Hk Htot Hedge HD Hs Ho How. pose proof (qm_pos (F := F)) as Hq1.
  pose proof (base_half lb ltac:(lia)) as Hb. pose proof (half_pos lb ltac:(lia)).
  assert (2 ^ (lb - 1) <= 2 ^ 125) by (apply Z.pow_le_mono_r; lia).
  pose proof (Z.div_mod qm 2 ltac:(lia)). pose proof (Z.mod_pos_bound qm 2 ltac:(lia)).
  unfold balanced_decompose_pow2_with_carry_into, assert, u32_saturating_mul. cbv zeta. rewrite Ho.
  destruct (Z.ltb_spec 0 k), (Z.ltb_spec 0 lb), (Z.leb_spec lb 128); try lia. cbn [andb obind].
  assert ((k - 1) * 1 <= (k - 1) * lb) by (apply Z.mul_le_mono_nonneg_l; lia).
  rewrite uwrap_id by (split; lia). rewrite Z.min_l by lia.
  destruct (Z.ltb_spec ((k - 1) * lb) 128); [|lia]. cbn [obind].
  set (bs := if k =? 1 then _ else _).
  assert (Hbs : exists b h, bs = (b, h) /\ (k = 1 \/ b = 2 ^ lb /\ h = 2 ^ (lb - 1))).
  { subst bs. destruct (Z.eqb_spec k 1); [eauto|]. eexists _, _. split; [done|]. right.
    unfold i128_one_shl. rewrite cast_i128 by lia. split; [done|].
    rewrite Z.quot_div_nonneg by lia. rewrite Hb, Z.mul_comm. apply Z.div_mul. lia. }
  destruct Hbs as (b & h & -> & Hbh). rewrite field_modulus_spec by done. cbn [obind].
  apply fill_loop; [done|done| |done|exact Hs]. intros i planes x Hlen Hw Hx.
  rewrite Hx. cbn [unwrap obind]. pose proof (to_canonical_range x). pose proof (index_Some_len _ _ _ Hx).
  unfold wide in Hs. unfold centered. rewrite Z.ltb_antisym.
  set (c := if to_canonical x <=? qm / 2 then to_canonical x else to_canonical x - qm).
  assert (Hc : (if negb (to_canonical x <=? qm / 2)
                then let* diff := u128 (Er := Er) (qm - to_canonical x) in Ok (- swrap 128 diff)
                else Ok (swrap 128 (to_canonical x))) = Ok c /\ - (qm / 2) <= c <= qm / 2).
  { subst c. destruct (Z.leb_spec (to_canonical x) (qm / 2)); cbn [negb].
    - rewrite cast_i128 by lia. split; [done|lia].
    - rewrite u128_Ok by lia. cbn [obind]. rewrite cast_i128 by lia. split; [f_equal|]; lia. }
  destruct Hc as [-> Hcb]. cbn [obind].
  assert (Hfit : fits c) by (split; [unfold safe|]; lia).
  assert (Hcol := carry_column_spec i planes c ltac:(lia) Hw Hfit ltac:(lia)).
  rewrite Hlen in Hcol. destruct Hbh as [->|[-> ->]]; [|exact Hcol].
  rewrite <-Hcol. destruct planes as [|p [|p' planes]]; rewrite ?len_cons in Hlen; [done|done|].
  pose proof (len_nonneg planes). lia.
Qed.

(** ** Recomposition *)

Lemma omapM_range {A} (f : Z -> outcome Er A) (l : list A) :
  (forall i a, index l i = Some a -> f i = Ok a) -> omapM f (range (len l)) = Ok l.
Proof.
  intros Hf. unfold range.
  enough (Hs : forall s, (forall i a, index l i = Some a -> f (s + i) = Ok a) -> omapM f (seqZ s (len l)) = Ok l)
    by (by apply Hs).
  clear Hf. induction l as [|a l IH]; intros s Hf; [done|].
  rewrite len_cons. pose proof (len_nonneg l). rewrite seqZ_cons by lia.
  replace (Z.pred (len l + 1)) with (len l) by lia. cbn [omapM].
  pose proof (Hf 0 a (index_head l a)) as H0f. rewrite Z.add_0_r in H0f. rewrite H0f. cbn [obind].
  rewrite IH; [done|]. intros i b Hi. pose proof (index_Some_len _ _ _ Hi).
  replace (Z.succ s + i) with (s + (i + 1)) by lia. apply Hf. unfold index in *.
  destruct (Z.leb_spec 0 i), (Z.leb_spec 0 (i + 1)); try lia.
  replace (Z.to_nat (i + 1)) with (S (Z.to_nat i)) by lia. exact Hi.
Qed.

(** Each part gives the digits of coefficient [x]. *)
Lemma digits_of_parts {P} (value : P -> outcome Er F) (part : nat -> P) (dg : nat -> Z) K :
  (forall n, exists v, value (part n) = Ok v /\ to_canonical v = dg n mod qm) ->
  Forall2 (fun part d => exists v, value part = Ok v /\ to_canonical v = d mod qm)
    (map part (seq 0 K)) (map dg (seq 0 K)).
Proof.
  intros Hv. apply (Forall2_fmap part dg). apply Forall_Forall2_diag, Forall_true. exact Hv.
Qed.

Lemma one_shl_spec : u128_one_shl (Er := Er) lb = Ok (2 ^ lb).
Proof. unfold u128_one_shl. by destruct (Z.ltb_spec lb 128); [|lia]. Qed.

Lemma recompose_planes (dg : nat -> F -> Z) cs k :
  0 < k -> len cs = D -> (forall n x, - qm <= dg n x) ->
  (forall i x, index cs i = Some x ->
     recompose lb (map (fun n => dg n x) (seq 0 (Z.to_nat k))) mod qm = to_canonical x) ->
  gadget_recompose_pow2 (Er := Er) D (digit_planes (fun n x => to_field (dg n x)) cs k) lb = Ok (Ring cs).
Proof.
  intros Hk Hcs Hdg Hrec. unfold digit_planes. set (part := fun n => Ring _). unfold gadget_recompose_pow2, assert.
  destruct (Z.to_nat k) as [|[|K]] eqn:HK; [lia| |].
  - cbn [seq map]. destruct (Z.ltb_spec 0 lb), (Z.leb_spec lb 128); try lia. cbn [andb obind].
    subst part. cbv beta. do 2 f_equal. apply list_eq. intros i. change (map (fun x => to_field (dg 0%nat x)) cs)
      with ((fun x => to_field (dg 0%nat x)) <$> cs). rewrite list_lookup_fmap.
    destruct (cs !! i) as [x|] eqn:Hx; [|done]. cbn. f_equal. apply to_canonical_inj.
    rewrite to_field_spec by done. specialize (Hrec (Z.of_nat i) x). rewrite index_nat in Hrec.
    rewrite <-Hrec by done. cbn. f_equal. lia.
  - destruct (Z.ltb_spec 0 lb), (Z.leb_spec lb 128); try lia.
    cbn [seq map andb obind]. rewrite one_shl_spec. cbn [obind].
    change (part 0%nat :: part 1%nat :: map part (seq 2 K)) with (map part (seq 0 (S (S K)))).
    rewrite <-Hcs. rewrite omapM_range; [done|]. intros i x Hx.
    apply (recompose_coeff_spec _ lb) with (ds := map (fun n => dg n x) (seq 0 (S (S K))));
      [|by apply (Hrec i)].
    apply digits_of_parts. intros n. exists (to_field (dg n x)). split; [|by apply to_field_spec].
    subst part. cbn [ring_coeffs]. by rewrite index_map, Hx.
Qed.

Lemma recompose_snoc ds c : recompose lb (ds ++ [c]) = recompose lb ds + (2 ^ lb) ^ len ds * c.
Proof.
  induction ds as [|d ds IH].
  { change (c + 2 ^ lb * 0 = 0 + 1 * c). lia. }
  cbn [app recompose]. rewrite IH, len_cons.
  rewrite Z.add_1_r, Z.pow_succ_r by apply len_nonneg. ring.
Qed.

(** With the remainder in the last digit nothing is lost. *)
Lemma recompose_carry_digits k z :
  0 < k -> recompose lb (map (fun n => carry_digit k n z) (seq 0 (Z.to_nat k))) = z.
Proof.
  intros Hk. replace (Z.to_nat k) with (Z.to_nat k - 1 + 1)%nat by lia.
  rewrite seq_app, map_app. cbn [seq map]. rewrite recompose_snoc.
  rewrite (map_ext_in _ (fun n => digit lb n z)).
  - unfold carry_digit. rewrite Nat.add_0_l.
    destruct (Z.eqb_spec (Z.of_nat (Z.to_nat k - 1) + 1) k); [|lia].
    unfold len. rewrite length_map, length_seq. apply recompose_digits. lia.
  - intros n [_ Hn]%in_seq. unfold carry_digit. by destruct (Z.eqb_spec (Z.of_nat n + 1) k); [lia|].
Qed.

(** ** Signed planes *)

Lemma recompose_signed_planes `{CanonicalSlices F, FromI64 F, !FromI64Laws F} (dg : nat -> F -> Z) cs k :
  0 < k -> len cs = D -> (forall n x, - 2 ^ 63 <= dg n x < 2 ^ 63) ->
  (forall i x, index cs i = Some x ->
     recompose lb (map (fun n => dg n x) (seq 0 (Z.to_nat k))) mod qm = to_canonical x) ->
  gadget_recompose_pow2_i8 (Er := Er) D (map (fun n => map (dg n) cs) (seq 0 (Z.to_nat k))) lb
  = Ok (Ring cs).
Proof.
  intros Hk Hcs Hdg Hrec. unfold gadget_recompose_pow2_i8, assert.
  destruct (Z.ltb_spec 0 lb), (Z.leb_spec lb 128); try lia. set (part := fun n => map _ cs).
  assert (Hval : forall i x n, index cs i = Some x ->
    exists v, (let* d := unwrap (E := Er) (index (part n) i) in Ok (from_i64 d)) = Ok v /\
              to_canonical v = dg n x mod qm).
  { intros i x n Hx. exists (from_i64 (dg n x)). split; [|by apply from_i64_spec].
    subst part. cbv beta. by rewrite index_map, Hx. }
  destruct (Z.to_nat k) as [|[|K]] eqn:HK; [lia| |]; cbn [seq map andb obind].
  - rewrite <-Hcs, omapM_range; [done|]. intros i x Hx.
    destruct (Hval i x 0%nat Hx) as (v & -> & Hv). f_equal. apply to_canonical_inj.
    rewrite Hv, <-(Hrec i x Hx). cbn. f_equal. lia.
  - rewrite one_shl_spec. cbn [obind].
    change (part 0%nat :: part 1%nat :: map part (seq 2 K)) with (map part (seq 0 (S (S K)))).
    rewrite <-Hcs, omapM_range; [done|]. intros i x Hx.
    apply (recompose_coeff_spec _ lb) with (ds := map (fun n => dg n x) (seq 0 (S (S K))));
      [|by apply (Hrec i)].
    apply digits_of_parts. intros n. by apply Hval.
Qed.
End columns.

Lemma as_planes_digits {F : Type} `{CanonicalEncoding F} lb k (cs : list F) :
  1 <= lb <= 16 -> 0 < len cs ->
  as_planes (len cs) k (plane_digits lb k cs)
  = map (fun n => map (fun x => digit lb n (center lb k (modulus F) (to_canonical x))) cs) (seq 0 (Z.to_nat k)).
Proof.
  intros Hlb Hl. unfold as_planes. apply list_eq. intros n.
  change (map (fun n => map (fun x => digit lb n (center lb k (modulus F) (to_canonical x))) cs))
    with (fmap (M := list) (fun n => map (fun x => digit lb n (center lb k (modulus F) (to_canonical x))) cs)).
  change (map (fun m => take (Z.to_nat (len cs)) (drop (Z.to_nat (m * len cs)) (plane_digits lb k cs))))
    with (fmap (M := list) (fun m => take (Z.to_nat (len cs)) (drop (Z.to_nat (m * len cs)) (plane_digits lb k cs)))).
  rewrite !list_lookup_fmap. destruct (decide (Z.of_nat n < k)).
  2:{ rewrite !(proj2 (lookup_ge_None _ _)); [done| |]; [rewrite length_seq|rewrite length_range]; lia. }
  unfold range. rewrite lookup_seqZ_lt, lookup_seq_lt by lia. cbn [fmap option_fmap option_map].
  f_equal. replace (0 + Z.of_nat n) with (Z.of_nat n) by lia. rewrite Nat.add_0_l. apply list_eq. intros j.
  change (map (fun x => digit lb n (center lb k (modulus F) (to_canonical x))) cs)
    with ((fun x => digit lb n (center lb k (modulus F) (to_canonical x))) <$> cs).
  rewrite list_lookup_fmap. destruct (cs !! j) as [x|] eqn:Hx.
  - pose proof (lookup_lt_Some _ _ _ Hx). unfold len in *.
    rewrite lookup_take_lt, lookup_drop by lia.
    pose proof (plane_digits_at lb k Hlb cs (Z.of_nat n) (Z.of_nat j) x) as Hp.
    rewrite index_nat in Hp. specialize (Hp Hx ltac:(lia)). unfold len in Hp.
    replace (Z.of_nat n * Z.of_nat (length cs) + Z.of_nat j)
      with (Z.of_nat (Z.to_nat (Z.of_nat n * Z.of_nat (length cs)) + j)) in Hp by lia.
    rewrite index_nat in Hp. rewrite Hp, Nat2Z.id. done.
  - apply lookup_ge_None in Hx. apply lookup_ge_None. rewrite length_take. unfold len. lia.
Qed.

(** * Round trips *)

Section round_trips.
Context {Er : Type} `{BuildMode} {F : Type} `{FieldLaws F, CanonicalEncoding F, !CanonicalFieldLaws F}.
Context `{CanonicalSlices F, !CanonicalSlicesLaws F, FromI64 F, !FromI64Laws F}.
Variables D lb k : Z.
Abbreviation qm := (modulus F).
Abbreviation ring := (CyclotomicRing F).
Abbreviation T := (decompose_centering_threshold k lb qm).
Hypothesis D_pos : 0 <= D.
Hypothesis k_pos : 0 < k.
Hypothesis q_small : qm < 2 ^ 128.

(** The digits suffice for the field. *)
Definition enough_digits : Prop :=
  bit_length (qm - 1) <= k * lb /\ (2 <= lb \/ k * lb = bit_length (qm - 1)).

Lemma center_digits_recompose (x : F) :
  1 <= lb <= 126 -> k * lb <= 128 + lb -> enough_digits ->
  recompose lb (digits lb (Z.to_nat k) (center lb k qm (to_canonical x))) mod qm = to_canonical x.
Proof.
  intros Hlb Htot [Hfb Hl]. pose proof (qm_pos (F := F)).
  pose proof (levels_u32 lb Hlb k k_pos Htot) as Hk.
  pose proof (to_canonical_range x) as Hx.
  pose proof (recompose_digits lb ltac:(lia) (Z.to_nat k) (center lb k qm (to_canonical x))) as Hr.
  rewrite center_reach in Hr by (lia || done).
  replace (recompose lb _) with (center lb k qm (to_canonical x)) by lia.
  rewrite center_mod by (lia || done). by apply Z.mod_small.
Qed.

(** A field element that is a digit in [[-b/2, b/2)]. *)
Definition is_digit (x : F) : Prop :=
  exists d, - 2 ^ (lb - 1) <= d < 2 ^ (lb - 1) /\ to_canonical x = d mod qm.

Lemma digit_plane_ok (g : F -> F) (cs : list F) :
  len cs = D -> (forall x, is_digit (g x)) ->
  len (ring_coeffs (Build_CyclotomicRing (map g cs))) = D /\
  Forall is_digit (ring_coeffs (Build_CyclotomicRing (map g cs))).
Proof.
  intros Hl Hg. split; [by unfold len; cbn; rewrite length_map|]. cbn.
  apply Forall_map, Forall_true. exact Hg.
Qed.

Lemma center_digit_is_digit n x :
  1 <= lb <= 126 -> is_digit (center_digit (F := F) lb k n x).
Proof.
  intros Hlb. pose proof (qm_pos (F := F)). pose proof (center_bounded lb k x) as Hc.
  exists (digit lb n (center lb k qm (to_canonical x))).
  split; [apply dig_range; lia|]. apply to_field_spec. apply digit_bounded; lia.
Qed.

(** C18: balanced gadget decomposition and recomposition, on ring elements.
    Let the modulus be below [2^128], the base from [2^1] to [2^126], and the
    digits enough: they cover [q - 1], in base [2] exactly.  Within the budget
    the function asserts, [levels * log_basis <= 128 + log_basis], and if the
    centering threshold plus half a base stays below [2^127] (past that edge
    the first carry can overflow), [balanced_decompose_pow2] returns [levels]
    planes of [D] digits in [[-b/2, b/2)], and [gadget_recompose_pow2] gives
    back the ring element.  Past the budget it panics.  The documentation of
    the function announces the panic already past [levels * log_basis = 128];
    between the two bounds the code decomposes and the round trip holds. *)
Theorem gadget_round_trip (self : ring) :
  1 <= lb <= 126 -> len (ring_coeffs self) = D -> enough_digits ->
  (k * lb <= 128 + lb -> T + 2 ^ (lb - 1) < 2 ^ 127 ->
   exists planes,
     balanced_decompose_pow2 (Er := Er) D self k lb = Ok planes /\ len planes = k /\
     Forall (fun p => len (ring_coeffs p) = D /\ Forall is_digit (ring_coeffs p)) planes /\
     gadget_recompose_pow2 (Er := Er) D planes lb = Ok self) /\
  (128 + lb < k * lb -> k < 2 ^ 32 -> balanced_decompose_pow2 (Er := Er) D self k lb = Panic).
Proof.
  intros Hlb Hself Henough. split.
  2:{ intros Htot Hk. unfold balanced_decompose_pow2, check_digits, assert, u32_saturating_mul.
      rewrite uwrap_id by (split; lia). destruct (Z.ltb_spec 0 lb), (Z.ltb_spec lb 128); try lia. cbn [andb obind].
      destruct (Z.leb_spec (Z.min (k * lb) (2 ^ 32 - 1)) (128 + lb)) as [Hm|]; [lia|done]. }
  intros Htot Hedge. exists (digit_planes (center_digit lb k) (ring_coeffs self) k).
  split; [|split; [|split]].
  - unfold balanced_decompose_pow2. rewrite check_digits_spec by done. cbn [obind].
    apply decompose_into_spec; [done..|]. by apply len_replicate, Z.lt_le_incl.
  - unfold len, digit_planes. rewrite length_map, length_seq. lia.
  - apply Forall_map, Forall_true. intros n. apply digit_plane_ok; [done|].
    intros x. by apply center_digit_is_digit.
  - destruct self as [cs]. apply recompose_planes; [done..| |].
    + intros n x. pose proof (center_bounded lb k x). pose proof (qm_pos (F := F)).
      by apply digit_bounded; lia.
    + intros i x _. by apply center_digits_recompose.
Qed.

(** the decomposition whose last plane carries the remainder loses
    nothing, whatever the number of levels: all planes but the last hold
    digits in [[-b/2, b/2)] and recomposition gives back the ring element. *)
Theorem carry_round_trip (self : ring) :
  1 <= lb <= 126 -> (k - 1) * lb < 128 -> qm / 2 + 2 ^ (lb - 1) < 2 ^ 127 ->
  len (ring_coeffs self) = D ->
  exists planes last,
    balanced_decompose_pow2_with_carry (Er := Er) D self k lb = Ok (planes ++ [last]) /\
    len planes = k - 1 /\
    Forall (fun p => len (ring_coeffs p) = D /\ Forall is_digit (ring_coeffs p)) planes /\
    gadget_recompose_pow2 (Er := Er) D (planes ++ [last]) lb = Ok self.
Proof.
  intros Hlb Htot Hedge Hself. pose proof (qm_pos (F := F)) as Hq.
  set (c := fun x : F => if to_canonical x <=? qm / 2 then to_canonical x else to_canonical x - qm).
  assert (Hc : forall x, - qm <= c x <= qm).
  { intros x. pose proof (to_canonical_range x). subst c. cbv beta. destruct (_ <=? _); lia. }
  set (g := fun n x => to_field (F := F) (carry_digit lb k n (c x))).
  assert (Hs : digit_planes g (ring_coeffs self) k
               = digit_planes g (ring_coeffs self) (k - 1) ++
                 [Build_CyclotomicRing (map (g (Z.to_nat (k - 1))) (ring_coeffs self))]).
  { unfold digit_planes. replace (Z.to_nat k) with (Z.to_nat (k - 1) + 1)%nat by lia.
    by rewrite seq_app, map_app. }
  exists (digit_planes g (ring_coeffs self) (k - 1)),
    (Build_CyclotomicRing (map (g (Z.to_nat (k - 1))) (ring_coeffs self))).
  rewrite <-Hs. split; [|split; [|split]].
  - apply with_carry_into_spec; try done.
    + by apply len_replicate, Z.lt_le_incl.
    + apply Forall_replicate. by apply len_zeros.
  - unfold len, digit_planes. rewrite length_map, length_seq. lia.
  - apply Forall_map, Forall_forall. intros n Hn%in_seq. apply digit_plane_ok; [done|].
    intros x. exists (digit lb n (c x)). split; [apply dig_range; lia|].
    subst g. cbv beta. unfold carry_digit. destruct (Z.eqb_spec (Z.of_nat n + 1) k); [lia|].
    apply to_field_spec. apply digit_bounded; lia || apply Hc.
  - destruct self as [cs]. apply recompose_planes; try done.
    + intros n x. unfold carry_digit. destruct (_ =? _); [|apply digit_bounded; lia || apply Hc].
      apply carry_bounded; lia || apply Hc.
    + intros i x _. rewrite recompose_carry_digits by lia. subst c. cbv beta.
      pose proof (to_canonical_range x). destruct (_ <=? _); [by apply Z.mod_small|].
      replace (to_canonical x - qm) with (to_canonical x + (-1) * qm) by lia.
      rewrite Z.mod_add by lia. by apply Z.mod_small.
Qed.

Lemma signed_zero_planes : len (concat (zero_planes D k)) = k * D.
Proof.
  unfold zero_planes. assert (Hn : forall n, len (concat (replicate n (replicate (Z.to_nat D) 0))) = Z.of_nat n * D).
  { induction n as [|n IH]; [done|]. cbn [replicate concat]. rewrite len_app, IH, len_replicate by done. lia. }
  rewrite Hn. lia.
Qed.

Lemma i8_entry_spec (self : ring) :
  1 <= lb <= 8 -> k * lb <= 128 + lb -> T + 2 ^ (lb - 1) < 2 ^ 127 -> len (ring_coeffs self) = D ->
  k * D < 2 ^ 64 ->
  balanced_decompose_pow2_i8 (Er := Er) D self k lb
  = Ok (as_planes D k (plane_digits lb k (ring_coeffs self))).
Proof.
  intros Hlb Htot Hedge Hself Hfit. pose proof (qm_pos (F := F)) as Hq.
  assert (Hlk : len (zero_planes D k) = k) by (by apply len_replicate, Z.lt_le_incl).
  assert (Hzl : len (concat (zero_planes D k)) = k * len (ring_coeffs self))
    by (rewrite signed_zero_planes, Hself; done).
  unfold balanced_decompose_pow2_i8, balanced_decompose_pow2_i8_into.
  pose proof (check_digits_spec lb ltac:(lia) k k_pos Htot (Er := Er)) as Hchk.
  unfold check_digits in Hchk. destruct (Z.ltb_spec 0 lb), (Z.ltb_spec lb 128); try lia.
  cbn [andb obind assert] in Hchk. rewrite Hlk. destruct (Z.leb_spec lb 8); [|lia].
  cbn [andb obind assert]. rewrite Hchk. cbn [obind]. rewrite field_modulus_spec by done. cbn [obind].
  unfold balanced_decompose_pow2_i8_into_with_modulus, balanced_decompose_pow2_i8_into_with_params.
  rewrite Hlk, params_new_spec by (done || lia). cbn [obind log_basis the_params].
  destruct (Z.leb_spec lb 8); [|lia]. cbn [assert obind].
  rewrite i8_into_spec by (done || lia || rewrite Hself; done). done.
Qed.

(** the signed digit planes, on the portable route.  Let the modulus be
    below [2^128], the base at most [2^16], the budget within [levels *
    log_basis <= 128 + log_basis], the centering threshold plus half a base
    below [2^127], [D] positive and the planes addressable.  Then the [i16]
    decomposition of a ring element returns [levels] planes of [D] digits in
    [[-b/2, b/2)]; up to base [2^8] the [i8] decomposition returns the same
    planes; and if the digits are enough for the field, recomposition from
    the [i8] planes gives back the ring element. *)
Theorem signed_planes_round_trip (self : ring) :
  1 <= lb <= 16 -> k * lb <= 128 + lb -> T + 2 ^ (lb - 1) < 2 ^ 127 -> len (ring_coeffs self) = D ->
  0 < D -> k * D < 2 ^ 64 ->
  exists planes,
    balanced_decompose_pow2_i16 (Er := Er) D self k lb = Ok planes /\ len planes = k /\
    Forall (fun p => len p = D /\ Forall (fun d => - 2 ^ (lb - 1) <= d < 2 ^ (lb - 1)) p) planes /\
    (lb <= 8 ->
     balanced_decompose_pow2_i8 (Er := Er) D self k lb = Ok planes /\
     (enough_digits -> gadget_recompose_pow2_i8 (Er := Er) D planes lb = Ok self)).
Proof.
  intros Hlb Htot Hedge Hself HD Hfit. pose proof (qm_pos (F := F)) as Hq.
  set (dg := fun n (x : F) => digit lb n (center lb k qm (to_canonical x))).
  assert (Hdg : forall n x, - 2 ^ (lb - 1) <= dg n x < 2 ^ (lb - 1)) by (intros n x; apply dig_range; lia).
  assert (Hsplit : as_planes D k (plane_digits lb k (ring_coeffs self))
                   = map (fun n => map (dg n) (ring_coeffs self)) (seq 0 (Z.to_nat k))).
  { pose proof (as_planes_digits lb k (ring_coeffs self) Hlb) as Hp. rewrite Hself in Hp. by apply Hp. }
  assert (Hzl : len (concat (zero_planes D k)) = k * len (ring_coeffs self))
    by (rewrite signed_zero_planes, Hself; done).
  assert (Hlk : len (zero_planes D k) = k) by (by apply len_replicate, Z.lt_le_incl).
  exists (map (fun n => map (dg n) (ring_coeffs self)) (seq 0 (Z.to_nat k))). split; [|split; [|split]].
  - unfold balanced_decompose_pow2_i16, balanced_decompose_pow2_i16_into.
    rewrite field_modulus_spec by done. cbn [obind]. rewrite Hlk, params_new_spec by (done || lia).
    cbn [obind]. rewrite signed_into_spec by (done || lia). cbn [obind]. by rewrite Hsplit.
  - unfold len. rewrite length_map, length_seq. lia.
  - apply Forall_map, Forall_true. intros n. split; [by unfold len; rewrite length_map|].
    apply Forall_map, Forall_true. intros x. apply Hdg.
  - intros Hlb8. split.
    + by rewrite i8_entry_spec, Hsplit by (done || lia).
    + intros Henough. destruct self as [cs]. apply (recompose_signed_planes D lb); [lia|done|done|lia|done| |].
      * intros n x. specialize (Hdg n x).
        assert (2 ^ (lb - 1) <= 2 ^ 63) by (apply Z.pow_le_mono_r; lia). lia.
      * intros i x _. by apply center_digits_recompose; [lia| |].
Qed.

(** ** The centered norm *)

Definition center_half (x : F) : Z :=
  if to_canonical x <=? qm / 2 then to_canonical x else to_canonical x - qm.

Definition sum_squares (l : list F) : Z := foldr (fun x s => center_half x * center_half x + s) 0 l.

Lemma centered_square_spec x :
  centered_square (Er := Er) qm (qm / 2) x = Ok (Z.min (center_half x * center_half x) U128_MAX).
Proof.
  pose proof (qm_pos (F := F)). pose proof (to_canonical_range x).
  pose proof (Z.div_mod qm 2 ltac:(lia)). pose proof (Z.mod_pos_bound qm 2 ltac:(lia)).
  unfold centered_square, center_half. rewrite Z.ltb_antisym.
  destruct (Z.leb_spec (to_canonical x) (qm / 2)); cbn [negb].
  - rewrite cast_i128 by lia. cbn [obind]. do 2 f_equal. nia.
  - rewrite u128_Ok by lia. cbn [obind]. rewrite cast_i128 by lia. unfold i128.
    destruct (Z.leb_spec (- 2 ^ 127) (- (qm - to_canonical x))); [|lia].
    destruct (Z.ltb_spec (- (qm - to_canonical x)) (2 ^ 127)); [|lia]. cbn [andb obind]. do 2 f_equal. nia.
Qed.

Lemma norm_loop l acc :
  0 <= acc ->
  ofold (fun acc coeff => let* s := centered_square (Er := Er) qm (qm / 2) coeff in
                          Ok (Z.min (acc + s) U128_MAX)) l (Z.min acc U128_MAX)
  = Ok (Z.min (acc + sum_squares l) U128_MAX).
Proof.
  revert acc; induction l as [|x l IH]; intros acc Hacc; [cbn; by rewrite Z.add_0_r|].
  cbn [ofold sum_squares foldr]. fold (sum_squares l). rewrite centered_square_spec. cbn [obind].
  assert (0 <= center_half x * center_half x) by nia. unfold U128_MAX in *.
  replace (Z.min (Z.min acc _ + Z.min (center_half x * center_half x) _) _)
    with (Z.min (acc + center_half x * center_half x) (2 ^ 128 - 1)) by lia.
  rewrite IH by lia. do 2 f_equal. lia.
Qed.

Lemma digit_square x :
  1 <= lb -> 2 ^ (lb - 1) <= qm / 2 -> is_digit x -> center_half x * center_half x <= 2 ^ (lb - 1) * 2 ^ (lb - 1).
Proof.
  intros Hlb Hsmall (d & Hd & Hx). pose proof (qm_pos (F := F)). pose proof (half_pos lb Hlb).
  pose proof (Z.div_mod qm 2 ltac:(lia)). pose proof (Z.mod_pos_bound qm 2 ltac:(lia)).
  assert (Hc : center_half x = d \/ center_half x = - d).
  { unfold center_half. rewrite Hx. destruct (Z.lt_ge_cases d 0).
    - rewrite <-(Z.mod_unique_pos d qm (-1) (d + qm)) by lia. destruct (Z.leb_spec (d + qm) (qm / 2)); lia.
    - rewrite Z.mod_small by lia. destruct (Z.leb_spec d (qm / 2)); lia. }
  destruct Hc as [-> | ->]; nia.
Qed.

(** [coeff_norm_sq] is the saturated sum of the squared centered
    coefficients; a plane of digits of a base below the modulus has squared
    norm at most [D * (b/2)^2]. *)
Theorem coeff_norm_sq_spec (self : ring) :
  coeff_norm_sq (Er := Er) self = Ok (Z.min (sum_squares (ring_coeffs self)) U128_MAX) /\
  (1 <= lb -> 2 ^ (lb - 1) <= qm / 2 -> Forall is_digit (ring_coeffs self) ->
   sum_squares (ring_coeffs self) <= len (ring_coeffs self) * (2 ^ (lb - 1) * 2 ^ (lb - 1))).
Proof.
  split.
  - unfold coeff_norm_sq. rewrite field_modulus_spec by done. cbn [obind].
    pose proof (norm_loop (ring_coeffs self) 0 ltac:(done)) as Hn. by rewrite Z.add_0_l in Hn.
  - intros Hlb Hsmall Hd. induction Hd as [|x l Hx _ IH]; [done|].
    cbn [sum_squares foldr]. fold (sum_squares l). rewrite len_cons.
    pose proof (digit_square x Hlb Hsmall Hx). lia.
Qed.
End round_trips.

(** * Witnesses *)

Module F97_gadget.
#[export] Instance from_i64_97 : FromI64 F97.t := F97.of_Z.
#[export] Instance from_i64_laws : FromI64Laws F97.t.
Proof. done. Qed.
#[export] Instance canonical_field : CanonicalFieldLaws F97.t.
Proof. split; [apply _|done..]. Qed.
Definition sample : CyclotomicRing F97.t := {| ring_coeffs := map F97.of_Z [3; 40; 96; 51]%Z |}.
End F97_gadget.

Section witnesses.
Import F97_slices F97_gadget.

Lemma gadget_round_trip_witness :
  exists planes,
    balanced_decompose_pow2 (Er := unit) 4 sample 2 4 = Ok planes /\ len planes = 2 /\
    Forall (fun p => len (ring_coeffs p) = 4 /\ Forall (is_digit 4) (ring_coeffs p)) planes /\
    gadget_recompose_pow2 (Er := unit) 4 planes 4 = Ok sample.
Proof.
  apply (gadget_round_trip (Er := unit) (F := F97.t) 4 4 2); try done; try lia. split; [done|left; lia].
Defined.

Lemma carry_round_trip_witness :
  exists planes last,
    balanced_decompose_pow2_with_carry (Er := unit) 4 sample 2 4 = Ok (planes ++ [last]) /\
    len planes = 1 /\
    Forall (fun p => len (ring_coeffs p) = 4 /\ Forall (is_digit 4) (ring_coeffs p)) planes /\
    gadget_recompose_pow2 (Er := unit) 4 (planes ++ [last]) 4 = Ok sample.
Proof. apply (carry_round_trip (Er := unit) (F := F97.t) 4 4 2); try done; lia. Defined.

Lemma signed_planes_round_trip_witness :
  exists planes,
    balanced_decompose_pow2_i16 (Er := unit) 4 sample 2 4 = Ok planes /\ len planes = 2 /\
    Forall (fun p => len p = 4 /\ Forall (fun d => - 2 ^ (4 - 1) <= d < 2 ^ (4 - 1)) p) planes /\
    (4 <= 8 ->
     balanced_decompose_pow2_i8 (Er := unit) 4 sample 2 4 = Ok planes /\
     (enough_digits (F := F97.t) 4 2 -> gadget_recompose_pow2_i8 (Er := unit) 4 planes 4 = Ok sample)).
Proof. apply (signed_planes_round_trip (Er := unit) (F := F97.t) 4 4 2); try done; lia. Defined.

Lemma coeff_norm_sq_spec_witness :
  coeff_norm_sq (Er := unit) sample = Ok 3726 /\
  (1 <= 8 -> 2 ^ (8 - 1) <= 97 / 2 -> Forall (is_digit 8) (ring_coeffs sample) ->
   sum_squares (ring_coeffs sample) <= 4 * (2 ^ (8 - 1) * 2 ^ (8 - 1))).
Proof. exact (coeff_norm_sq_spec (Er := unit) (F := F97.t) 8 eq_refl sample). Defined.
End witnesses.
