(* ===== verification/ModField.v ===== *)
(** The prime fields [Z/q], as instances of the external field interfaces of
    the file Field: every law the component files assume of a prime field is
    proved here for the integers modulo an odd prime.  They are the reference
    semantics of the modular transforms. *)

From Stdlib Require Import Zmod.
From S2P Require Import Prelude Field UniPoly Decomposition Gadget.

Class OddPrime (q : Z) : Prop := {
  oddprime_prime : Z.prime q;
  oddprime_odd : Z.odd q = true;
}.

Section instances.
Variable q : Z.
Abbreviation zq := (Zmod.Zmod q).

#[export] Instance zmod_field : Field zq := {
  fzero := Zmod.zero;
  fone := Zmod.one;
  fadd := Zmod.add;
  fmul := Zmod.mul;
  fsub := Zmod.sub;
  fneg := Zmod.opp;
  finverse a := if Zmod.eqb a Zmod.zero then None else Some (Zmod.inv a);
  feqb := Zmod.eqb (m := q);
  from_u64 := Zmod.of_Z q;
  fhalf a := Zmod.mul a (Zmod.of_Z q ((q + 1) / 2));
  fmul_add a b c := Zmod.add (Zmod.mul a b) c;
}.

#[export] Instance zmod_canonical : CanonicalEncoding zq := {
  modulus := q;
  to_canonical := Zmod.to_Z (m := q);
  from_u128_checked v := if v <? q then Some (Zmod.of_Z q v) else None;
  from_u128_reduced := Zmod.of_Z q;
}.

#[export] Instance zmod_slices : CanonicalSlices zq := fun _ => None.
#[export] Instance zmod_from_i64 : FromI64 zq := Zmod.of_Z q.

Context `{OddPrime q}.

Lemma q_gt_2 : 2 < q.
Proof.
  destruct oddprime_prime as [H1 _]. pose proof oddprime_odd as Ho.
  assert (q <> 2) by (intros ->; done). lia.
Qed.

Lemma of_Z_to_Z (a : zq) : Zmod.of_Z q (Zmod.to_Z a) = a.
Proof. apply Zmod.of_Z_to_Z. Qed.

Lemma to_Z_of_Z z : Zmod.to_Z (Zmod.of_Z q z) = z mod q.
Proof. apply Zmod.to_Z_of_Z. Qed.

Lemma to_Z_bounds (a : zq) : 0 <= Zmod.to_Z a < q.
Proof. pose proof (Zmod.to_Z_range a). pose proof q_gt_2. lia. Qed.

Lemma of_Z_eq z w : Zmod.of_Z q z = Zmod.of_Z q w <-> z mod q = w mod q.
Proof. rewrite <-Zmod.to_Z_inj_iff, !to_Z_of_Z. done. Qed.

Lemma of_Z_add z w : Zmod.of_Z q (z + w) = Zmod.add (Zmod.of_Z q z) (Zmod.of_Z q w).
Proof. apply Zmod.to_Z_inj. rewrite Zmod.to_Z_add, !to_Z_of_Z. symmetry. by rewrite Zplus_mod_idemp_l, Zplus_mod_idemp_r. Qed.
Lemma of_Z_mul z w : Zmod.of_Z q (z * w) = Zmod.mul (Zmod.of_Z q z) (Zmod.of_Z q w).
Proof. apply Zmod.to_Z_inj. rewrite Zmod.to_Z_mul, !to_Z_of_Z. symmetry. by rewrite Zmult_mod_idemp_l, Zmult_mod_idemp_r. Qed.
Lemma of_Z_sub z w : Zmod.of_Z q (z - w) = Zmod.sub (Zmod.of_Z q z) (Zmod.of_Z q w).
Proof. apply Zmod.to_Z_inj. rewrite Zmod.to_Z_sub, !to_Z_of_Z. symmetry. by rewrite Zminus_mod_idemp_l, Zminus_mod_idemp_r. Qed.

#[export] Instance zmod_field_laws : FieldLaws zq.
Proof.
  pose proof q_gt_2 as Hq.
  constructor.
  - apply Zmod.ring_theory.
  - intros He. assert (Zmod.to_Z (@Zmod.one q) = Zmod.to_Z (@Zmod.zero q)) as Hz by exact (f_equal _ He).
    rewrite Zmod.to_Z_0, Zmod.to_Z_1_pos in Hz; lia.
  - cbn. by rewrite Zmod.eqb_refl.
  - intros a Ha. cbn in *. destruct (Zmod.eqb_spec a Zmod.zero) as [|Hn]; [done|].
    eexists. split; [done|]. by apply Zmod.mul_inv_same_r_prime; [apply oddprime_prime|].
  - intros a b. cbn. destruct (Zmod.eqb_spec a b); by split.
  - done.
  - intros n Hn. cbn. by rewrite of_Z_add.
  - intros a. cbn. rewrite <-(of_Z_to_Z a) at 3. rewrite <-(of_Z_to_Z a) at 1 2. rewrite <-!of_Z_mul, <-of_Z_add.
    apply of_Z_eq. pose proof oddprime_odd as Ho. apply Z.odd_spec in Ho as [k Hk].
    assert (Hd : (q + 1) / 2 = k + 1).
    { replace (q + 1) with ((k + 1) * 2) by lia. by apply Z.div_mul. }
    rewrite Hd. set (z := Zmod.to_Z a).
    replace (z * (k + 1) + z * (k + 1)) with (z + z * q) by (rewrite Hk; ring). by apply Z.mod_add; lia.
  - done.
Qed.

#[export] Instance zmod_canonical_laws : CanonicalLaws zq.
Proof.
  pose proof q_gt_2. constructor; cbn [modulus to_canonical from_u128_checked from_u128_reduced zmod_canonical].
  - lia.
  - apply to_Z_bounds.
  - intros v e Hv. destruct (Z.ltb_spec v q).
    + split; [intros [= <-]; split; [done|]; rewrite to_Z_of_Z; by apply Z.mod_small|].
      intros (_ & <-). by rewrite of_Z_to_Z.
    + split; [done|lia].
  - intros v Hv. destruct (Z.ltb_spec v q); split; (done || lia).
  - intros v Hv. apply to_Z_of_Z.
  - apply Zmod.to_Z_inj.
Qed.

#[export] Instance zmod_canonical_field : CanonicalFieldLaws zq.
Proof.
  pose proof q_gt_2. constructor; cbn.
  - apply _.
  - lia.
  - apply Zmod.to_Z_1_pos. lia.
  - intros a b. apply Zmod.to_Z_add.
  - intros a b. apply Zmod.to_Z_mul.
Qed.

#[export] Instance zmod_slices_laws : CanonicalSlicesLaws zq.
Proof. intros l ws. done. Qed.

#[export] Instance zmod_from_i64_laws : FromI64Laws zq.
Proof. intros z _. apply to_Z_of_Z. Qed.
End instances.
