(* ===== verification/Montgomery.v ===== *)
(** [akita-algebra/src/ntt/prime.rs]: Montgomery arithmetic for the NTT
    primes, generic over the coefficient width [R_LOG] (16 for [i16], 32 for
    [i32]).  A coefficient is the [Z] of its signed machine value; every
    wrapping operation wraps at its width. *)

From S2P Require Import Prelude.

(** * Width operations ([PrimeWidth]) *)

Section width.
Variable R_LOG : Z.

Definition wide_mul (a b : Z) : Z := swrap (2 * R_LOG) (a * b).
Definition truncate (w : Z) : Z := swrap R_LOG w.
Definition wide_shift (w : Z) : Z := swrap R_LOG (Z.shiftr w R_LOG).
Definition wide_sub (a b : Z) : Z := swrap (2 * R_LOG) (a - b).
Definition wrapping_add (a b : Z) : Z := swrap R_LOG (a + b).
Definition wrapping_sub (a b : Z) : Z := swrap R_LOG (a - b).
Definition wrapping_mul (a b : Z) : Z := swrap R_LOG (a * b).
Definition wrapping_neg (a : Z) : Z := swrap R_LOG (- a).
Definition sign_mask (a : Z) : Z := Z.shiftr a (R_LOG - 1).
Definition bitand (a b : Z) : Z := Z.land a b.
Definition from_i64 (v : Z) : Z := swrap R_LOG v.

Record NttPrime := {
  p : Z;
  pinv : Z;
  mont : Z;
  montsq : Z;
}.

(** ** Constants *)

(** [x * (2 - p * x)] in wrapping [i64] arithmetic. *)
Definition newton_step (p x : Z) : Z := swrap 64 (x * swrap 64 (2 - swrap 64 (p * x))).

Definition center_const (p x : Z) : Z :=
  let half := Z.quot p 2 in from_i64 (if half <? x then x - p else x).

Definition compute {Er} `{BuildMode} (p : Z) : outcome Er NttPrime :=
  let* _ := debug_assert ((1 <? p) && (Z.rem p 2 =? 1)) in
  let* _ := assert (negb (p =? 0)) in
  let pinv := from_i64 (Nat.iter 5 (newton_step p) 1) in
  let r_mod_p := Z.rem (2 ^ R_LOG) p in
  let rsq_mod_p := Z.rem (2 ^ (2 * R_LOG)) p in
  Ok {| p := p; pinv := pinv; mont := center_const p r_mod_p; montsq := center_const p rsq_mod_p |}.

(** ** Arithmetic *)

Variable self : NttPrime.

Definition mont_mul_raw (a b : Z) : Z :=
  let c := wide_mul a b in
  let t := wrapping_mul (truncate c) (pinv self) in
  let tp := wide_mul t (p self) in
  wide_shift (wide_sub c tp).

Definition mul (a b : Z) : Z := mont_mul_raw a b.

(** The width of the branchless selections: [i32] for [i16], else [i64]. *)
Definition select_bits : Z := if R_LOG =? 16 then 32 else 64.

Definition csubp (a : Z) : Z :=
  let diff := a - p self in
  let mask := Z.shiftr diff (select_bits - 1) in
  from_i64 (diff + Z.land mask (p self)).

Definition caddp (a : Z) : Z :=
  let mask := Z.shiftr a (select_bits - 1) in
  from_i64 (a + Z.land mask (p self)).

Definition reduce_range (a : Z) : Z := caddp (csubp a).
Definition normalize (a : Z) : Z := csubp (caddp a).
Definition from_canonical (a : Z) : Z := mont_mul_raw a (montsq self).
Definition to_canonical (a : Z) : Z := normalize (mont_mul_raw a (from_i64 1)).

Definition center (a : Z) : Z :=
  let mask_neg := sign_mask a in
  let canonical := wrapping_add a (bitand mask_neg (p self)) in
  let half := from_i64 (Z.quot (p self) 2) in
  let needs_sub := sign_mask (wrapping_sub half canonical) in
  wrapping_add canonical (bitand needs_sub (wrapping_neg (p self))).

(** ** Slices *)

Definition pointwise_mul {Er} (o lhs rhs : list Z) : outcome Er (list Z) :=
  let* _ := assert (len o =? len lhs) in
  let* _ := assert (len lhs =? len rhs) in
  Ok (zip_with mul lhs rhs).

Definition scale_in_place (coeffs : list Z) (scalar : Z) : list Z := map (fun c => mul c scalar) coeffs.
Definition reduce_range_in_place (coeffs : list Z) : list Z := map reduce_range coeffs.
Definition center_slice (coeffs : list Z) : list Z := map center coeffs.
End width.

(** * Congruences *)

Definition cong (n a b : Z) : Prop := (n | a - b).

Lemma cong_refl n a : cong n a a.
Proof. exists 0. lia. Qed.
Lemma cong_sym n a b : cong n a b -> cong n b a.
Proof. intros [k Hk]. exists (- k). lia. Qed.
Lemma cong_trans n a b c : cong n a b -> cong n b c -> cong n a c.
Proof. intros [k Hk] [l Hl]. exists (k + l). lia. Qed.

#[export] Instance cong_equiv n : Equivalence (cong n).
Proof. split; [exact (cong_refl n)|exact (cong_sym n)|exact (cong_trans n)]. Qed.
#[export] Instance cong_add_proper n : Proper (cong n ==> cong n ==> cong n) Z.add.
Proof. intros a b [k Hk] c d [l Hl]. exists (k + l). lia. Qed.
#[export] Instance cong_sub_proper n : Proper (cong n ==> cong n ==> cong n) Z.sub.
Proof. intros a b [k Hk] c d [l Hl]. exists (k - l). lia. Qed.
#[export] Instance cong_mul_proper n : Proper (cong n ==> cong n ==> cong n) Z.mul.
Proof.
  intros a b [k Hk] c d [l Hl]. exists (k * c + b * l).
  replace (a * c - b * d) with ((a - b) * c + b * (c - d)) by ring. rewrite Hk, Hl. ring.
Qed.
#[export] Instance cong_opp_proper n : Proper (cong n ==> cong n) Z.opp.
Proof. intros a b [k Hk]. exists (- k). lia. Qed.

Lemma cong_mod n a b : n <> 0 -> cong n a b -> a mod n = b mod n.
Proof.
  intros Hn [k Hk]. replace a with (b + k * n) by lia. by apply Z.mod_add.
Qed.
Lemma mod_cong n a : n <> 0 -> cong n (a mod n) a.
Proof. intros Hn. exists (- (a / n)). pose proof (Z.div_mod a n Hn). lia. Qed.

(** Equal residues in a window shorter than the modulus. *)
Lemma cong_eq n a b : cong n a b -> Z.abs (a - b) < n -> a = b.
Proof. intros [k Hk] Hlt. assert (k = 0) by nia. lia. Qed.

Lemma cong_cancel n c a b : Z.gcd c n = 1 -> cong n (c * a) (c * b) -> cong n a b.
Proof.
  intros Hg [k Hk]. apply (Z.gauss n c (a - b)); [exists k; lia|]. by rewrite Z.gcd_comm.
Qed.

Lemma cong_dvd m n a b : (m | n) -> cong n a b -> cong m a b.
Proof. intros Hmn Hc. unfold cong in *. by transitivity n. Qed.

Lemma swrap_cong w z : 0 < w -> cong (2 ^ w) (swrap w z) z.
Proof.
  intros Hw. pose proof (pow2_pos w ltac:(lia)). exists (- ((z + 2 ^ (w - 1)) / 2 ^ w)).
  unfold swrap. pose proof (Z.div_mod (z + 2 ^ (w - 1)) (2 ^ w) ltac:(lia)). lia.
Qed.

(** * Newton's iteration *)

Lemma newton_step_spec q x j :
  0 <= j -> 2 * j <= 64 -> cong (2 ^ j) (q * x) 1 -> cong (2 ^ (2 * j)) (q * newton_step q x) 1.
Proof.
  intros Hj H64 [m Hm].
  assert (Hdvd : (2 ^ (2 * j) | 2 ^ 64)).
  { exists (2 ^ (64 - 2 * j)). rewrite <-Z.pow_add_r by lia. f_equal. lia. }
  assert (Hs : cong (2 ^ (2 * j)) (q * newton_step q x) (q * (x * (2 - q * x)))).
  { apply (cong_dvd _ (2 ^ 64)); [done|]. unfold newton_step.
    rewrite (swrap_cong 64 (x * _)) by lia. rewrite (swrap_cong 64 (2 - _)) by lia.
    by rewrite (swrap_cong 64 (q * x)) by lia. }
  rewrite Hs. exists (- (m * m)). replace (2 * j) with (j + j) by lia.
  rewrite Z.pow_add_r by lia.
  replace (q * (x * (2 - q * x)) - 1) with (- ((q * x - 1) * (q * x - 1))) by ring. rewrite Hm. ring.
Qed.

Lemma newton_inverse q : Z.odd q = true -> cong (2 ^ 32) (q * Nat.iter 5 (newton_step q) 1) 1.
Proof.
  intros Hodd. cbn [Nat.iter nat_rect].
  apply (newton_step_spec _ _ 16); [lia..|]. apply (newton_step_spec _ _ 8); [lia..|].
  apply (newton_step_spec _ _ 4); [lia..|]. apply (newton_step_spec _ _ 2); [lia..|].
  apply (newton_step_spec _ _ 1); [lia..|].
  apply Z.odd_spec in Hodd as [k Hk]. exists k. lia.
Qed.

(** * Constants *)

(** What [compute] promises of its constants. *)
Record well_formed (R_LOG : Z) (P : NttPrime) : Prop := {
  wf_width : R_LOG = 16 \/ R_LOG = 32;
  wf_range : 1 < p P < 2 ^ (R_LOG - 2);
  wf_odd : p P = 2 * (p P / 2) + 1;
  wf_pinv : cong (2 ^ R_LOG) (p P * pinv P) 1;
  wf_mont : cong (p P) (mont P) (2 ^ R_LOG) /\ - (p P / 2) <= mont P <= p P / 2;
  wf_montsq : cong (p P) (montsq P) (2 ^ R_LOG * 2 ^ R_LOG) /\ - (p P / 2) <= montsq P <= p P / 2;
}.

Section constants.
Context {Er : Type} `{BuildMode}.
Variables R_LOG q : Z.
Abbreviation R := (2 ^ R_LOG).
Hypothesis width : R_LOG = 16 \/ R_LOG = 32.
Hypothesis q_range : 1 < q < 2 ^ (R_LOG - 2).
Hypothesis q_odd : Z.odd q = true.

Lemma odd_half : q = 2 * (q / 2) + 1.
Proof.
  apply Z.odd_spec in q_odd as [k ->]. replace (2 * k + 1) with (1 + k * 2) at 2 by lia.
  rewrite Z.div_add by lia. change (1 / 2) with 0. lia.
Qed.

Lemma center_const_spec x :
  0 <= x < q -> cong q (center_const R_LOG q x) x /\ - (q / 2) <= center_const R_LOG q x <= q / 2.
Proof.
  intros Hx. pose proof odd_half. unfold center_const. rewrite Z.quot_div_nonneg by lia.
  assert (2 ^ (R_LOG - 2) <= 2 ^ (R_LOG - 1)) by (apply Z.pow_le_mono_r; lia).
  unfold from_i64. rewrite swrap_id; [|lia|split; destruct (Z.ltb_spec (q / 2) x); lia].
  destruct (Z.ltb_spec (q / 2) x); (split; [|lia]); [exists (-1); lia|exists 0; lia].
Qed.

Lemma compute_spec :
  exists P, compute (Er := Er) R_LOG q = Ok P /\ p P = q /\ well_formed R_LOG P.
Proof.
  pose proof odd_half as Hh. unfold compute, debug_assert.
  assert (Hr : Z.rem q 2 = 1).
  { rewrite Z.rem_mod_nonneg by lia. pose proof (Z.div_mod q 2 ltac:(lia)). lia. }
  rewrite Hr. destruct (Z.ltb_spec 1 q); [|lia]. cbn [andb negb Z.eqb Pos.eqb].
  rewrite andb_false_r. cbn [obind]. destruct (Z.eqb_spec q 0); [lia|]. cbn [negb assert obind].
  rewrite !Z.rem_mod_nonneg by (lia || apply Z.pow_nonneg; lia).
  eexists. split; [reflexivity|]. split; [done|]. pose proof (newton_inverse q q_odd) as Hinv.
  set (x5 := Nat.iter 5 (newton_step q) 1) in *. clearbody x5.
  constructor; cbn [p pinv mont montsq]; try done.
  - unfold from_i64. rewrite swrap_cong by lia. apply (cong_dvd _ (2 ^ 32)); [|done].
    destruct width as [-> | ->]; [by exists (2 ^ 16)|by exists 1].
  - destruct (center_const_spec (R mod q)) as [Hc Hb]; [apply Z.mod_pos_bound; lia|].
    split; [|done]. by rewrite Hc, mod_cong by lia.
  - destruct (center_const_spec (2 ^ (2 * R_LOG) mod q)) as [Hc Hb]; [apply Z.mod_pos_bound; lia|].
    split; [|done]. rewrite Hc, mod_cong by lia. replace (2 * R_LOG) with (R_LOG + R_LOG) by lia.
    by rewrite Z.pow_add_r by lia.
Qed.
End constants.

(** * Arithmetic *)

Section arithmetic.
Variable R_LOG : Z.
Variable P : NttPrime.
Hypothesis P_ok : well_formed R_LOG P.
Abbreviation R := (2 ^ R_LOG).
Abbreviation q := (p P).

Lemma R_facts : 2 ^ 16 <= R /\ R = 2 * 2 ^ (R_LOG - 1) /\ 2 ^ (R_LOG - 1) = 2 * 2 ^ (R_LOG - 2) /\
  2 ^ (2 * R_LOG - 1) = 2 ^ (R_LOG - 1) * R /\ 2 ^ (R_LOG - 2) <= 2 ^ 30 /\ 0 < R_LOG.
Proof. destruct (wf_width _ _ P_ok) as [-> | ->]; done. Qed.

Lemma q_coprime : Z.gcd R q = 1.
Proof.
  destruct (wf_pinv _ _ P_ok) as [k Hk]. apply Z.bezout_1_gcd. exists (- k), (pinv P). lia.
Qed.

(** ** Multiplication *)

Lemma mont_mul_core a b :
  in_s R_LOG a -> in_s R_LOG b -> Z.abs (a * b) <= q * 2 ^ (R_LOG - 1) - 1 ->
  cong q (mont_mul_raw R_LOG P a b * R) (a * b) /\ - q < mont_mul_raw R_LOG P a b < q.
Proof.
  pose proof R_facts as (HR1 & HR2 & HR3 & HR4 & HR5 & HR6). pose proof (wf_range _ _ P_ok) as Hq.
  intros Ha Hb Hab. unfold in_s in Ha, Hb. pose proof (wf_pinv _ _ P_ok) as Hpi.
  unfold mont_mul_raw, wide_mul, wrapping_mul, truncate, wide_sub, wide_shift.
  set (c := a * b) in *. rewrite (swrap_id (2 * R_LOG) c) by (lia || split; nia).
  set (t := swrap R_LOG (swrap R_LOG c * pinv P)).
  assert (Ht : in_s R_LOG t) by (apply swrap_in; lia).
  assert (Htc : cong R t (c * pinv P)).
  { unfold t. rewrite swrap_cong by lia. by rewrite (swrap_cong R_LOG c) by lia. }
  unfold in_s in Ht. clearbody t. rewrite (swrap_id (2 * R_LOG) (t * q)) by (lia || split; nia).
  assert (Hdvd : cong R (c - t * q) 0).
  { rewrite Htc. replace (c - c * pinv P * q) with (c - c * (q * pinv P)) by ring.
    rewrite Hpi. exists 0. ring. }
  destruct Hdvd as [r Hr]. rewrite Z.sub_0_r in Hr.
  rewrite (swrap_id (2 * R_LOG) (c - t * q)) by (lia || split; nia).
  rewrite Hr, Z.shiftr_div_pow2, Z.div_mul by lia.
  assert (Hrb : - q < r < q) by nia.
  rewrite swrap_id by (lia || split; lia). split; [|done].
  rewrite <-Hr. exists (- t). ring.
Qed.

(** The case of a factor below the modulus. *)
Lemma mont_mul_spec a b :
  in_s R_LOG a -> - q < b < q ->
  cong q (mont_mul_raw R_LOG P a b * R) (a * b) /\ - q < mont_mul_raw R_LOG P a b < q.
Proof.
  pose proof R_facts as (HR1 & HR2 & HR3 & HR4 & HR5 & HR6). pose proof (wf_range _ _ P_ok) as Hq.
  intros Ha Hb. apply mont_mul_core; [done|unfold in_s; lia|]. unfold in_s in Ha.
  rewrite Z.abs_mul. assert (Z.abs a <= 2 ^ (R_LOG - 1)) by lia. assert (Z.abs b <= q - 1) by lia. nia.
Qed.

Lemma mont_cancel x y : cong q (x * R) (y * R) -> cong q x y.
Proof. intros Hc. apply (cong_cancel q R); [apply q_coprime|]. by rewrite !(Z.mul_comm R). Qed.

(** ** Selections *)

Lemma shiftr_sign z n : 0 <= n -> - 2 ^ n <= z < 2 ^ n -> Z.shiftr z n = if z <? 0 then -1 else 0.
Proof.
  intros Hn Hz. rewrite Z.shiftr_div_pow2 by done. destruct (Z.ltb_spec z 0).
  - symmetry. apply (Z.div_unique _ _ _ (z + 2 ^ n)); lia.
  - apply Z.div_small. lia.
Qed.

Lemma select_sign z : - 2 ^ R_LOG <= z < 2 ^ R_LOG ->
  Z.shiftr z (select_bits R_LOG - 1) = if z <? 0 then -1 else 0.
Proof.
  intros Hz. unfold select_bits in *; destruct (wf_width _ _ P_ok) as [He|He]; rewrite He in *; apply shiftr_sign; cbn; lia.
Qed.

Lemma csubp_spec a : in_s R_LOG a -> csubp R_LOG P a = if a <? q then a else a - q.
Proof.
  pose proof R_facts as (HR1 & HR2 & HR3 & HR4 & HR5 & HR6). pose proof (wf_range _ _ P_ok) as Hq.
  unfold in_s. intros Ha. unfold csubp. cbv zeta. rewrite select_sign by lia. unfold from_i64.
  destruct (Z.ltb_spec (a - q) 0), (Z.ltb_spec a q); try lia.
  - rewrite Z.land_m1_l, swrap_id by (lia || split; lia). lia.
  - rewrite Z.land_0_l, swrap_id by (lia || split; lia). lia.
Qed.

Lemma caddp_spec a : in_s R_LOG a -> caddp R_LOG P a = if a <? 0 then a + q else a.
Proof.
  pose proof R_facts as (HR1 & HR2 & HR3 & HR4 & HR5 & HR6). pose proof (wf_range _ _ P_ok) as Hq.
  unfold in_s. intros Ha. unfold caddp. cbv zeta. rewrite select_sign by lia. unfold from_i64.
  destruct (Z.ltb_spec a 0).
  - rewrite Z.land_m1_l, swrap_id by (lia || split; lia). lia.
  - rewrite Z.land_0_l, swrap_id by (lia || split; lia). lia.
Qed.

Lemma in_width a : - 2 * q <= a <= 2 * q -> in_s R_LOG a.
Proof.
  pose proof R_facts as (HR1 & HR2 & HR3 & HR4 & HR5 & HR6). pose proof (wf_range _ _ P_ok) as Hq.
  unfold in_s. lia.
Qed.

Lemma reduce_range_spec a :
  - 2 * q < a < 2 * q -> cong q (reduce_range R_LOG P a) a /\ - q < reduce_range R_LOG P a < q.
Proof.
  pose proof (wf_range _ _ P_ok) as Hq. intros Ha. unfold reduce_range.
  rewrite csubp_spec by (apply in_width; lia).
  rewrite caddp_spec by (apply in_width; destruct (Z.ltb_spec a q); lia).
  destruct (Z.ltb_spec a q).
  - destruct (Z.ltb_spec a 0); split; try lia; [exists 1|exists 0]; lia.
  - destruct (Z.ltb_spec (a - q) 0); split; try lia; exists (-1); lia.
Qed.

Lemma normalize_spec a : - q < a < q -> normalize R_LOG P a = a mod q.
Proof.
  pose proof (wf_range _ _ P_ok) as Hq. intros Ha. unfold normalize.
  rewrite caddp_spec by (apply in_width; lia).
  rewrite csubp_spec by (apply in_width; destruct (Z.ltb_spec a 0); lia).
  destruct (Z.ltb_spec a 0).
  - destruct (Z.ltb_spec (a + q) q); [|lia]. apply (Z.mod_unique_pos _ _ (-1)); lia.
  - destruct (Z.ltb_spec a q); [|lia]. symmetry. by apply Z.mod_small.
Qed.

Lemma center_spec a :
  - q < a < q -> cong q (center R_LOG P a) a /\ - (q / 2) <= center R_LOG P a <= q / 2.
Proof.
  pose proof R_facts as (HR1 & HR2 & HR3 & HR4 & HR5 & HR6). pose proof (wf_range _ _ P_ok) as Hq.
  pose proof (wf_odd _ _ P_ok) as Hodd. intros Ha.
  unfold center, wrapping_add, wrapping_sub, wrapping_neg, sign_mask, bitand, from_i64. cbv zeta.
  rewrite Z.quot_div_nonneg by lia. rewrite (shiftr_sign a) by lia.
  assert (Hc : swrap R_LOG (a + Z.land (if a <? 0 then -1 else 0) q) = a mod q).
  { destruct (Z.ltb_spec a 0).
    - rewrite Z.land_m1_l, swrap_id by (lia || split; lia). apply (Z.mod_unique_pos _ _ (-1)); lia.
    - rewrite Z.land_0_l, swrap_id by (lia || split; lia). rewrite Z.mod_small by lia. lia. }
  rewrite Hc. pose proof (Z.mod_pos_bound a q ltac:(lia)) as Hm. pose proof (mod_cong q a ltac:(lia)) as Hmc.
  set (m := a mod q) in *. clearbody m.
  rewrite (swrap_id R_LOG (q / 2)) by (lia || split; lia).
  rewrite (swrap_id R_LOG (q / 2 - m)) by (lia || split; lia). rewrite shiftr_sign by lia.
  rewrite (swrap_id R_LOG (- q)) by (lia || split; lia).
  destruct (Z.ltb_spec (q / 2 - m) 0).
  - rewrite Z.land_m1_l, swrap_id by (lia || split; lia). split; [|lia].
    rewrite <-Hmc. exists (-1). lia.
  - rewrite Z.land_0_l, swrap_id by (lia || split; lia). split; [|lia]. rewrite Z.add_0_r. done.
Qed.

(** ** Montgomery form *)

(** [m] stands for [x]. *)
Definition stands (m x : Z) : Prop := cong q m (x * R) /\ - q < m < q.

Lemma stands_mul m1 m2 x1 x2 : stands m1 x1 -> stands m2 x2 -> stands (mul R_LOG P m1 m2) (x1 * x2).
Proof.
  intros [H1 B1] [H2 B2]. destruct (mont_mul_spec m1 m2) as [Hc Hb]; [apply in_width; lia|done|].
  split; [|done]. apply mont_cancel. unfold mul. rewrite Hc, H1, H2. by replace (x1 * x2 * R * R) with (x1 * R * (x2 * R)) by ring.
Qed.

(** A factor of twice the size, as the butterflies multiply differences. *)
Lemma stands_mul_wide m1 m2 x1 x2 :
  cong q m1 (x1 * R) -> in_s R_LOG m1 -> stands m2 x2 -> stands (mul R_LOG P m1 m2) (x1 * x2).
Proof.
  intros H1 B1 [H2 B2]. destruct (mont_mul_spec m1 m2 B1 B2) as [Hc Hb].
  split; [|done]. apply mont_cancel. unfold mul. rewrite Hc, H1, H2. by replace (x1 * x2 * R * R) with (x1 * R * (x2 * R)) by ring.
Qed.

Lemma wrapping_add_small a b : - q < a < q -> - q < b < q -> wrapping_add R_LOG a b = a + b.
Proof.
  intros. unfold wrapping_add. pose proof R_facts. apply swrap_id; [lia|]. apply in_width. lia.
Qed.
Lemma wrapping_sub_small a b : - q < a < q -> - q < b < q -> wrapping_sub R_LOG a b = a - b.
Proof.
  intros. unfold wrapping_sub. pose proof R_facts. apply swrap_id; [lia|]. apply in_width. lia.
Qed.

Lemma stands_add m1 m2 x1 x2 :
  stands m1 x1 -> stands m2 x2 -> stands (reduce_range R_LOG P (wrapping_add R_LOG m1 m2)) (x1 + x2).
Proof.
  intros [H1 B1] [H2 B2]. rewrite wrapping_add_small by done.
  destruct (reduce_range_spec (m1 + m2)) as [Hc Hb]; [lia|]. split; [|done].
  rewrite Hc, H1, H2. by replace ((x1 + x2) * R) with (x1 * R + x2 * R) by ring.
Qed.

Lemma stands_sub m1 m2 x1 x2 :
  stands m1 x1 -> stands m2 x2 -> stands (reduce_range R_LOG P (wrapping_sub R_LOG m1 m2)) (x1 - x2).
Proof.
  intros [H1 B1] [H2 B2]. rewrite wrapping_sub_small by done.
  destruct (reduce_range_spec (m1 - m2)) as [Hc Hb]; [lia|]. split; [|done].
  rewrite Hc, H1, H2. by replace ((x1 - x2) * R) with (x1 * R - x2 * R) by ring.
Qed.

Lemma stands_from_canonical a : in_s R_LOG a -> stands (from_canonical R_LOG P a) a.
Proof.
  intros Ha. pose proof (wf_range _ _ P_ok). pose proof (wf_odd _ _ P_ok).
  destruct (wf_montsq _ _ P_ok) as [Hs Hb].
  destruct (mont_mul_spec a (montsq P)) as [Hc Hr]; [done|lia|]. split; [|done].
  apply mont_cancel. unfold from_canonical. rewrite Hc, Hs. by rewrite Z.mul_assoc.
Qed.

Lemma to_canonical_stands m x : stands m x -> to_canonical R_LOG P m = x mod q.
Proof.
  intros [Hm Hb]. pose proof (wf_range _ _ P_ok). pose proof R_facts as (HR1 & HR2 & HR3 & HR4 & HR5 & HR6).
  unfold to_canonical, from_i64. rewrite (swrap_id R_LOG 1) by (lia || split; lia).
  destruct (mont_mul_spec m 1) as [Hc Hr]; [apply in_width; lia|lia|].
  rewrite normalize_spec by done. apply cong_mod; [lia|]. apply mont_cancel.
  by rewrite Hc, Z.mul_1_r.
Qed.

Lemma stands_cong m x y : stands m x -> cong q x y -> stands m y.
Proof. intros [H1 H2] Hxy. split; [|done]. by rewrite H1, Hxy. Qed.
End arithmetic.

(** Montgomery arithmetic is arithmetic modulo the prime, at both widths
    and for every odd modulus below [2^(w-2)]: [compute] succeeds; conversion
    out of the Montgomery domain undoes conversion into it; products, and sums
    and differences after [reduce_range], are those of the residues, with every
    intermediate value in [(-p, p)] and no wrap-around; [center] returns the
    representative of least absolute value. *)
Theorem montgomery_arithmetic {Er} `{BuildMode} R_LOG q a b :
  (R_LOG = 16 \/ R_LOG = 32) -> 1 < q < 2 ^ (R_LOG - 2) -> Z.odd q = true -> 0 <= a < q -> 0 <= b < q ->
  exists P, compute (Er := Er) R_LOG q = Ok P /\
    let from := from_canonical R_LOG P in
    let to := to_canonical R_LOG P in
    (forall m, In m [from a; from b; mul R_LOG P (from a) (from b);
                     reduce_range R_LOG P (wrapping_add R_LOG (from a) (from b))] -> - q < m < q) /\
    to (from a) = a /\
    to (mul R_LOG P (from a) (from b)) = (a * b) mod q /\
    to (reduce_range R_LOG P (wrapping_add R_LOG (from a) (from b))) = (a + b) mod q /\
    to (reduce_range R_LOG P (wrapping_sub R_LOG (from a) (from b))) = (a - b) mod q /\
    cong q (center R_LOG P a) a /\ - (q / 2) <= center R_LOG P a <= q / 2.
Proof.
  intros Hw Hq Hodd Ha Hb. destruct (compute_spec (Er := Er) R_LOG q Hw Hq Hodd) as (P & HP & <- & Hok).
  exists P. split; [done|]. cbv zeta.
  assert (Sa : stands R_LOG P (from_canonical R_LOG P a) a)
    by (apply stands_from_canonical, (in_width R_LOG P Hok); [done|lia]).
  assert (Sb : stands R_LOG P (from_canonical R_LOG P b) b)
    by (apply stands_from_canonical, (in_width R_LOG P Hok); [done|lia]).
  pose proof (stands_mul R_LOG P Hok _ _ _ _ Sa Sb) as Sm.
  pose proof (stands_add R_LOG P Hok _ _ _ _ Sa Sb) as Sp.
  pose proof (stands_sub R_LOG P Hok _ _ _ _ Sa Sb) as Ss.
  split; [|split; [|split; [|split; [|split]]]].
  - intros m [<-|[<-|[<-|[<-|[]]]]]; [apply Sa|apply Sb|apply Sm|apply Sp].
  - rewrite (to_canonical_stands R_LOG P Hok _ a Sa). by apply Z.mod_small.
  - by apply to_canonical_stands.
  - by apply to_canonical_stands.
  - by apply to_canonical_stands.
  - apply center_spec; [done|lia].
Qed.

Section witnesses.
#[local] Instance mode : BuildMode := true.

Lemma montgomery_arithmetic_witness :
  exists P, compute (Er := unit) 16 12289 = Ok P /\
    let from := from_canonical 16 P in
    let to := to_canonical 16 P in
    (forall m, In m [from 7; from 12000; mul 16 P (from 7) (from 12000);
                     reduce_range 16 P (wrapping_add 16 (from 7) (from 12000))] -> - 12289 < m < 12289) /\
    to (from 7) = 7 /\
    to (mul 16 P (from 7) (from 12000)) = 10266 /\
    to (reduce_range 16 P (wrapping_add 16 (from 7) (from 12000))) = 12007 /\
    to (reduce_range 16 P (wrapping_sub 16 (from 7) (from 12000))) = 296 /\
    cong 12289 (center 16 P 7) 7 /\ - 6144 <= center 16 P 7 <= 6144.
Proof.
  exact (montgomery_arithmetic (Er := unit) 16 12289 7 12000 (or_introl eq_refl) (conj eq_refl eq_refl)
           eq_refl ltac:(lia) ltac:(lia)).
Defined.
End witnesses.
