(* ===== verification/NttMath.v ===== *)
(** Reference semantics of the number theoretic transforms over a field: the
    recursive radix-2 transforms, the points they evaluate at, their inverse
    and the products they compute.  The file Ntt refines the loops of the code
    to these definitions. *)

From S2P Require Import Prelude Field UniPoly Cyclotomic RingEval.
Local Open Scope field_scope.

Section transforms.
Context {E : Type} `{FieldLaws E}.
Add Ring Ering : (field_ring (E := E)).

Definition vadd : list E -> list E -> list E := zip_with fadd.
Definition vsub : list E -> list E -> list E := zip_with fsub.
Definition vmul : list E -> list E -> list E := zip_with fmul.

(** [x_j * c * w^j] *)
Fixpoint twist_from (c w : E) (l : list E) : list E :=
  match l with [] => [] | x :: l => x * c :: twist_from (c * w) w l end.
Definition twist (w : E) (l : list E) : list E := twist_from 1 w l.
Definition scale (a : E) (l : list E) : list E := map (fmul a) l.

Lemma length_twist_from c w l : length (twist_from c w l) = length l.
Proof. revert c; induction l; intros c; cbn; auto. Qed.

Lemma peval_vadd u v x : length u = length v -> peval (vadd u v) x = peval u x + peval v x.
Proof.
  revert v; induction u as [|a u IH]; intros [|b v] Hl; try done; cbn; [ring|].
  injection Hl as Hl. fold (vadd u v). rewrite IH by done. ring.
Qed.

Lemma peval_vsub u v x : length u = length v -> peval (vsub u v) x = peval u x - peval v x.
Proof.
  revert v; induction u as [|a u IH]; intros [|b v] Hl; try done; cbn; [ring|].
  injection Hl as Hl. fold (vsub u v). rewrite IH by done. ring.
Qed.

Lemma peval_twist_from c w l x : peval (twist_from c w l) x = c * peval l (w * x).
Proof. revert c; induction l as [|a l IH]; intros c; cbn; [ring|]. rewrite IH. ring. Qed.

Lemma peval_twist w l x : peval (twist w l) x = peval l (w * x).
Proof. unfold twist. rewrite peval_twist_from. ring. Qed.

Lemma twist_from_twice c w c' w' l :
  twist_from c w (twist_from c' w' l) = twist_from (c' * c) (w' * w) l.
Proof.
  revert c c'; induction l as [|a l IH]; intros c c'; [done|]. cbn. rewrite IH. f_equal; [ring|].
  f_equal. ring.
Qed.

Lemma twist_from_1 l : twist_from 1 1 l = l.
Proof.
  induction l as [|a l IH]; [done|]. cbn. replace (1 * 1 : E) with (1 : E) by ring. rewrite IH.
  f_equal. ring.
Qed.

Lemma twist_inverse w w' l : w' * w = 1 -> twist w (twist w' l) = l.
Proof.
  intros Hw. unfold twist. rewrite twist_from_twice, Hw. replace (1 * 1 : E) with (1 : E) by ring.
  apply twist_from_1.
Qed.

Lemma twist_scale a w l : twist w (scale a l) = scale a (twist w l).
Proof.
  unfold twist, scale. generalize (1 : E). induction l as [|b l IH]; intros c; [done|].
  cbn. rewrite IH. f_equal. ring.
Qed.

Lemma vmul_powers c w e :
  vmul e (twist_from c w (replicate (length e) 1)) = twist_from c w e.
Proof.
  revert c; induction e as [|x e IH]; intros c; [done|]. cbn. f_equal; [ring|]. apply IH.
Qed.

Lemma halves_sum a u v :
  length u = length v -> vadd (scale a (vadd u v)) (scale a (vsub u v)) = scale (a + a) u /\
  vsub (scale a (vadd u v)) (scale a (vsub u v)) = scale (a + a) v.
Proof.
  revert v; induction u as [|x u IH]; intros [|y v] Hl; try done. injection Hl as Hl.
  destruct (IH v Hl) as [H1 H2]. unfold vadd, vsub, scale in *. cbn. rewrite H1, H2.
  split; f_equal; ring.
Qed.

Variables om omi : nat -> E.

Fixpoint fwd (k : nat) (xs : list E) : list E :=
  match k with
  | O => xs
  | S k =>
      let u := take (2 ^ k) xs in
      let v := drop (2 ^ k) xs in
      fwd k (vadd u v) ++ fwd k (twist (om k) (vsub u v))
  end.

Fixpoint inv (k : nat) (ys : list E) : list E :=
  match k with
  | O => ys
  | S k =>
      let u := inv k (take (2 ^ k) ys) in
      let v := twist (omi k) (inv k (drop (2 ^ k) ys)) in
      vadd u v ++ vsub u v
  end.

(** The points the forward transform evaluates at, in its output order. *)
Fixpoint points (k : nat) : list E :=
  match k with O => [1] | S k => points k ++ map (fmul (om k)) (points k) end.

Fixpoint two_pow (k : nat) : E := match k with O => 1 | S k => two_pow k + two_pow k end.

Lemma length_halves {A} k (xs : list A) :
  length xs = (2 ^ S k)%nat -> length (take (2 ^ k) xs) = (2 ^ k)%nat /\ length (drop (2 ^ k) xs) = (2 ^ k)%nat.
Proof. intros Hl. cbn in Hl. rewrite length_take, length_drop. lia. Qed.

Lemma length_zip_halves (f : E -> E -> E) u v n : length u = n -> length v = n -> length (zip_with f u v) = n.
Proof. intros Hu Hv. rewrite length_zip_with. lia. Qed.

Lemma length_fwd k xs : length xs = (2 ^ k)%nat -> length (fwd k xs) = (2 ^ k)%nat.
Proof.
  revert xs; induction k as [|k IH]; intros xs Hl; [done|].
  destruct (length_halves k xs Hl) as [Hu Hv]. cbn [fwd]. unfold vadd, vsub, twist.
  rewrite length_app, !IH; [cbn; lia|..]; rewrite ?length_twist_from; by apply length_zip_halves.
Qed.

Lemma length_inv k ys : length ys = (2 ^ k)%nat -> length (inv k ys) = (2 ^ k)%nat.
Proof.
  revert ys; induction k as [|k IH]; intros ys Hl; [done|].
  destruct (length_halves k ys Hl) as [Hu Hv]. cbn [inv]. unfold vadd, vsub, twist.
  rewrite length_app, !(length_zip_halves _ _ _ (2 ^ k)); [cbn; lia|..];
    rewrite ?length_twist_from; by apply IH.
Qed.

(** ** Evaluation *)

Section evaluation.
Variable K : nat.
Hypothesis om_root : forall s, (s < K)%nat -> fpow (om s) (2 ^ s) = - (1).

Lemma fpow_mul_base x y n : fpow (x * y) n = fpow x n * fpow y n.
Proof. induction n as [|n IH]; cbn; [ring|]. rewrite IH. ring. Qed.

Lemma fpow_double x n : fpow x (2 * n) = fpow x n * fpow x n.
Proof. replace (2 * n)%nat with (n + n)%nat by lia. apply fpow_add. Qed.

Lemma points_root k y : (k <= K)%nat -> y ∈ points k -> fpow y (2 ^ k) = 1.
Proof.
  revert y; induction k as [|k IH]; intros y Hk Hy; cbn [points] in Hy.
  - apply list_elem_of_singleton in Hy as ->. cbn. ring.
  - change (2 ^ S k)%nat with (2 * 2 ^ k)%nat. rewrite fpow_double. apply elem_of_app in Hy as [Hy|Hy].
    + rewrite IH by (lia || done). ring.
    + apply (list_elem_of_fmap_1 (fmul (om k))) in Hy as (z & -> & Hz).
      rewrite fpow_mul_base, om_root, (IH z) by (lia || done). ring.
Qed.

Lemma peval_halves k xs x :
  length xs = (2 ^ S k)%nat ->
  peval xs x = peval (take (2 ^ k) xs) x + fpow x (2 ^ k) * peval (drop (2 ^ k) xs) x.
Proof.
  intros Hl. destruct (length_halves k xs Hl) as [Hu _].
  rewrite <-(take_drop (2 ^ k) xs) at 1. by rewrite peval_app, Hu.
Qed.

(** The forward transform evaluates at the points. *)
Lemma fwd_eval k xs :
  (k <= K)%nat -> length xs = (2 ^ k)%nat -> fwd k xs = map (peval xs) (points k).
Proof.
  revert xs; induction k as [|k IH]; intros xs Hk Hl.
  - destruct xs as [|x [|]]; try done. cbn. f_equal. ring.
  - destruct (length_halves k xs Hl) as [Hu Hv]. cbn [fwd points]. rewrite map_app, map_map.
    f_equal; (rewrite IH; [|lia|]); try (unfold twist; rewrite ?length_twist_from; by apply length_zip_halves).
    + apply map_ext_in. intros y Hy%list_elem_of_In. rewrite peval_vadd by lia.
      rewrite (peval_halves k xs) by done. rewrite (points_root k y) by (lia || done). ring.
    + apply map_ext_in. intros y Hy%list_elem_of_In. rewrite peval_twist, peval_vsub by lia.
      rewrite (peval_halves k xs) by done. rewrite fpow_mul_base, om_root, (points_root k y) by (lia || done).
      ring.
Qed.

(** ** Inversion *)

Hypothesis om_inv : forall s, (s < K)%nat -> om s * omi s = 1.

Lemma inv_scale k a ys : inv k (scale a ys) = scale a (inv k ys).
Proof.
  revert ys; induction k as [|k IH]; intros ys; [done|]. cbn [inv].
  assert (Hz : forall u v, vadd (scale a u) (scale a v) = scale a (vadd u v) /\
                           vsub (scale a u) (scale a v) = scale a (vsub u v)).
  { intros u. induction u as [|x u IHu]; intros [|y v]; try done. destruct (IHu v) as [H1 H2].
    unfold vadd, vsub, scale in *. cbn. rewrite H1, H2. split; f_equal; ring. }
  unfold scale at 1 2 3 4. change (map (fmul a)) with (fmap (M := list) (fmul a)).
  rewrite <-fmap_take, <-fmap_drop. change (fmap (M := list) (fmul a)) with (scale a).
  rewrite !IH, twist_scale. destruct (Hz (inv k (take (2 ^ k) ys)) (twist (omi k) (inv k (drop (2 ^ k) ys)))) as [-> ->].
  unfold scale. by rewrite map_app.
Qed.

Lemma inv_fwd k xs :
  (k <= K)%nat -> length xs = (2 ^ k)%nat -> inv k (fwd k xs) = scale (two_pow k) xs.
Proof.
  revert xs; induction k as [|k IH]; intros xs Hk Hl.
  - cbn. destruct xs as [|x [|]]; try done. cbn. f_equal. ring.
  - destruct (length_halves k xs Hl) as [Hu Hv]. cbn [fwd inv two_pow].
    set (u := take (2 ^ k) xs) in *. set (v := drop (2 ^ k) xs) in *.
    assert (H1 : length (vadd u v) = (2 ^ k)%nat) by (by apply length_zip_halves).
    assert (H2 : length (twist (om k) (vsub u v)) = (2 ^ k)%nat)
      by (unfold twist; rewrite length_twist_from; by apply length_zip_halves).
    rewrite take_app_length' by (symmetry; by apply length_fwd). rewrite drop_app_length' by (symmetry; by apply length_fwd).
    rewrite !IH by (lia || done). rewrite twist_scale, twist_inverse by (apply om_inv; lia).
    destruct (halves_sum (two_pow k) u v) as (-> & ->); [lia|].
    unfold scale. rewrite <-map_app. subst u v. by rewrite take_drop.
Qed.

(** ** Negacyclic products *)

#[local] Instance self_base : MulBase E E := { mul_base := fmul; embed f := f }.
#[local] Instance self_base_laws : MulBaseLaws E E.
Proof. by constructor. Qed.

Lemma ev_peval l x : ev (len l) x (get l) = peval l x.
Proof.
  unfold ev, len. cbn [embed self_base]. induction l as [|a l IH] using rev_ind; [done|].
  rewrite length_app, Nat2Z.inj_add. change (Z.of_nat (length [a])) with 1%Z.
  rewrite sumZ_S by lia. rewrite peval_app, <-IH. f_equal.
  - apply sumZ_ext. intros c Hc. f_equal. rewrite get_app by (unfold len; rewrite ?length_app; lia).
    unfold len. by destruct (Z.ltb_spec c (Z.of_nat (length l))); [|lia].
  - unfold get, index. destruct (Z.leb_spec 0 (Z.of_nat (length l))); [|lia].
    rewrite Nat2Z.id, lookup_app_r, Nat.sub_diag by lia. unfold powZ. rewrite Nat2Z.id. cbn. ring.
Qed.

Variable psi : E.
Hypothesis psi_root : fpow psi (2 ^ K) = - (1).
Abbreviation D := (Z.of_nat (2 ^ K)).

(** The twisted transform turns the product of the ring [E[X]/(X^D + 1)] into
    the pointwise product. *)
Lemma fwd_negacyclic {Er} (a b r : CyclotomicRing E) :
  wf D a -> wf D b -> CyclotomicRing.mul (Er := Er) D a b = Ok r ->
  fwd K (twist psi (ring_coeffs r))
  = vmul (fwd K (twist psi (ring_coeffs a))) (fwd K (twist psi (ring_coeffs b))).
Proof.
  intros Ha Hb Hr. assert (HD : (0 < D)%Z) by (pose proof (Nat.pow_nonzero 2 K); lia).
  destruct (mul_spec D HD (Er := Er) a b Ha Hb) as (r' & Hr' & Wr & Cr).
  rewrite Hr in Hr'. injection Hr' as <-. unfold wf, len in *.
  rewrite !fwd_eval by (unfold twist; rewrite ?length_twist_from; lia).
  assert (Hp : forall c : CyclotomicRing E, wf D c ->
            map (peval (twist psi (ring_coeffs c))) (points K)
            = map (fun y => ev D (psi * y) (coef c)) (points K)).
  { intros c Hc. apply map_ext. intros y. rewrite peval_twist. unfold coef.
    rewrite <-ev_peval. by rewrite Hc. }
  rewrite !Hp by (unfold wf, len; lia). clear Hp.
  assert (Hroot : forall y, y ∈ points K -> powZ (psi * y) D = - (1)).
  { intros y Hy. unfold powZ. rewrite Nat2Z.id, fpow_mul_base, psi_root, points_root by (lia || done). ring. }
  induction (points K) as [|y ys IH]; [done|]. cbn [map]. unfold vmul. cbn [zip_with]. f_equal.
  - rewrite <-(ev_mul D HD _ (coef a) (coef b)) by (apply Hroot; left).
    unfold ev. apply sumZ_ext. intros c Hc. f_equal. by apply Cr.
  - apply IH. intros z Hz. apply Hroot. by right.
Qed.
End evaluation.
End transforms.
