(* ===== verification/Ntt.v ===== *)
(** [akita-algebra/src/ntt/butterfly.rs]: the negacyclic and cyclic number
    theoretic transforms over Montgomery coefficients, scalar kernels, with
    their twiddle tables.  [NttKernelPlan] is the scalar plan; the SIMD
    kernels and the table [psi_pows_r2] that only they read are not modelled.
    A [[T; D]] array is a list of length [D]. *)

From Stdlib Require Import Zmod.
From S2P Require Import Prelude Field UniPoly Cyclotomic ModField Montgomery NttMath.

(** * Scalar helpers *)

Section scalar.
Context {Er : Type} `{BuildMode}.
Abbreviation out := (outcome Er).

(** The result of an [i64] operation. *)
Definition i64 (z : Z) : out Z :=
  if (- 2 ^ 63 <=? z) && (z <? 2 ^ 63) then Ok z
  else if debug_assertions then Panic else Ok (swrap 64 z).

(** [a * b % modulus] *)
Definition mul_rem (a b modulus : Z) : out Z :=
  let* c := i64 (a * b) in
  let* _ := assert (negb (modulus =? 0)) in
  Ok (Z.rem c modulus).

(** The loop of [pow_mod]; [exp] has 63 bits. *)
Fixpoint pow_mod_loop (fuel : nat) (result base exp modulus : Z) : out Z :=
  match fuel with
  | O => Ok result
  | S fuel =>
      if 0 <? exp then
        let* result := if Z.land exp 1 =? 1 then mul_rem result base modulus else Ok result in
        let* base := mul_rem base base modulus in
        pow_mod_loop fuel result base (Z.shiftr exp 1) modulus
      else Ok result
  end.

Definition pow_mod (base exp modulus : Z) : out Z :=
  let* _ := assert (negb (modulus =? 0)) in
  pow_mod_loop 63 1 (Z.rem base modulus) exp modulus.

(** [for a in 2..p] *)
Fixpoint root_search (fuel : nat) (a half exp p d : Z) : out Z :=
  match fuel with
  | O => Panic
  | S fuel =>
      let* r := pow_mod a half p in
      if r =? p - 1 then
        let* psi := pow_mod a exp p in
        let* check := pow_mod psi d p in
        let* _ := debug_assert (check =? p - 1) in
        Ok psi
      else root_search fuel (a + 1) half exp p d
  end.

Definition find_primitive_root_2d (p d : Z) : out Z :=
  let half := Z.quot (p - 1) 2 in
  let* _ := assert (negb (d =? 0)) in
  let exp := Z.quot (p - 1) (2 * d) in
  root_search (Z.to_nat (p - 2)) 2 half exp p d.

Definition is_power_of_two (d : Z) : bool := (0 <? d) && (d =? 2 ^ Z.log2 d).
End scalar.

(** * Twiddle tables *)

Record NttTwiddles := {
  fwd_wlen : list Z;
  inv_wlen : list Z;
  num_stages : Z;
  psi_pows : list Z;
  psi_inv_pows : list Z;
  d_inv : Z;
  d_inv_psi_inv : list Z;
  fwd_twiddles : list Z;
  inv_twiddles : list Z;
}.

Section transform.
Context {Er : Type} `{BuildMode}.
Abbreviation out := (outcome Er).
Variables R_LOG D : Z.
Variable prime : NttPrime.
Abbreviation mulP := (Montgomery.mul R_LOG prime).
Abbreviation from_canonicalP := (from_canonical R_LOG prime).
Abbreviation reduceP := (reduce_range R_LOG prime).
Abbreviation zeros := (replicate (Z.to_nat D) 0).

(** The powers of [psi] and of its inverse. *)
Definition psi_step (p psi psi_inv : Z) (st : list Z * list Z * Z * Z) (i : Z)
  : out (list Z * list Z * Z * Z) :=
  let '(psi_pows, psi_inv_pows, cur, cur_inv) := st in
  let* psi_pows := store psi_pows i (from_canonicalP (from_i64 R_LOG cur)) in
  let* psi_inv_pows := store psi_inv_pows i (from_canonicalP (from_i64 R_LOG cur_inv)) in
  let* cur := mul_rem cur psi p in
  let* cur_inv := mul_rem cur_inv psi_inv p in
  Ok (psi_pows, psi_inv_pows, cur, cur_inv).

(** [while len < D]: the stage roots. *)
Fixpoint stage_roots (fuel : nat) (p omega omega_inv len stage : Z) (fwd_wlen inv_wlen : list Z)
  : out (list Z * list Z * Z) :=
  match fuel with
  | O => Panic
  | S fuel =>
      if len <? D then
        let exp := D / (2 * len) in
        let* r := pow_mod omega exp p in
        let* fwd_wlen := store fwd_wlen stage (from_canonicalP (from_i64 R_LOG r)) in
        let* r := pow_mod omega_inv exp p in
        let* inv_wlen := store inv_wlen stage (from_canonicalP (from_i64 R_LOG r)) in
        stage_roots fuel p omega omega_inv (len * 2) (stage + 1) fwd_wlen inv_wlen
      else Ok (fwd_wlen, inv_wlen, stage)
  end.

(** The twiddles of stage [s]. *)
Definition stage_twiddles (one : Z) (wlens inv_wlens : list Z) (st : list Z * list Z) (s : Z)
  : out (list Z * list Z) :=
  let len := 2 ^ s in
  let base := len - 1 in
  let* w := unwrap (index wlens s) in
  let* w' := unwrap (index inv_wlens s) in
  let* (fwd, inv, _, _) :=
    ofold (fun '(fwd, inv, w_fwd, w_inv) j =>
             let* fwd := store fwd (base + j) w_fwd in
             let* inv := store inv (base + j) w_inv in
             Ok (fwd, inv, mulP w_fwd w, mulP w_inv w'))
      (range len) (fst st, snd st, one, one) in
  Ok (fwd, inv).

Definition compute_twiddles : out NttTwiddles :=
  let* _ := assert (is_power_of_two D) in
  let p := p prime in
  let* _ := assert (Z.rem (p - 1) (2 * D) =? 0) in
  let* psi := find_primitive_root_2d p D in
  let* omega := mul_rem psi psi p in
  let* omega_inv := pow_mod omega (p - 2) p in
  let* psi_inv := pow_mod psi (p - 2) p in
  let* (psi_pows, psi_inv_pows, _, _) :=
    ofold (psi_step p psi psi_inv) (range D) (zeros, zeros, 1, 1) in
  let* (fwd_wlen, inv_wlen, num_stages) := stage_roots 64 p omega omega_inv 1 0 zeros zeros in
  let* d_inv_canonical := pow_mod D (p - 2) p in
  let d_inv := from_canonicalP (from_i64 R_LOG d_inv_canonical) in
  let* d_inv_psi_inv :=
    ofold (fun o i =>
             let* x := unwrap (index psi_inv_pows i) in
             store o i (mulP d_inv x)) (range D) zeros in
  let one := from_canonicalP (from_i64 R_LOG 1) in
  let* (fwd_twiddles, inv_twiddles) :=
    ofold (stage_twiddles one fwd_wlen inv_wlen) (range num_stages) (zeros, zeros) in
  Ok {| fwd_wlen := fwd_wlen; inv_wlen := inv_wlen; num_stages := num_stages; psi_pows := psi_pows;
        psi_inv_pows := psi_inv_pows; d_inv := d_inv; d_inv_psi_inv := d_inv_psi_inv;
        fwd_twiddles := fwd_twiddles; inv_twiddles := inv_twiddles |}.

(** * Transforms *)

Variable tw : NttTwiddles.

(** One butterfly of the forward transform, at [start + j]. *)
Definition fwd_butterfly (len start : Z) (a : list Z) (j : Z) : out (list Z) :=
  let* w := unwrap (index (fwd_twiddles tw) (len - 1 + j)) in
  let* u := unwrap (index a (start + j)) in
  let* v := unwrap (index a (start + j + len)) in
  let sum := wrapping_add R_LOG u v in
  let diff := wrapping_sub R_LOG u v in
  let* a := store a (start + j) (reduceP sum) in
  store a (start + j + len) (mulP diff w).

Definition inv_butterfly (len start : Z) (a : list Z) (j : Z) : out (list Z) :=
  let* w := unwrap (index (inv_twiddles tw) (len - 1 + j)) in
  let* u := unwrap (index a (start + j)) in
  let* x := unwrap (index a (start + j + len)) in
  let v := mulP x w in
  let sum := wrapping_add R_LOG u v in
  let diff := wrapping_sub R_LOG u v in
  let* a := store a (start + j) (reduceP sum) in
  store a (start + j + len) (reduceP diff).

(** [while start < D { for j in 0..len { .. } start += 2 * len }] *)
Fixpoint block_loop (butterfly : Z -> Z -> list Z -> Z -> out (list Z)) (fuel : nat) (len start : Z)
    (a : list Z) : out (list Z) :=
  match fuel with
  | O => Panic
  | S fuel =>
      if start <? D then
        let* a := ofold (butterfly len start) (range len) a in
        block_loop butterfly fuel len (start + 2 * len) a
      else Ok a
  end.

Abbreviation block_fuel := (S (Z.to_nat D)).

(** [let mut len = D / 2; while len > 0 { .. len /= 2 }] *)
Fixpoint fwd_stages (fuel : nat) (len : Z) (a : list Z) : out (list Z) :=
  match fuel with
  | O => Panic
  | S fuel =>
      if 0 <? len then
        let* a := block_loop fwd_butterfly block_fuel len 0 a in
        fwd_stages fuel (len / 2) a
      else Ok a
  end.

(** [let mut len = 1; while len < D { .. len *= 2 }] *)
Fixpoint inv_stages (fuel : nat) (len : Z) (a : list Z) : out (list Z) :=
  match fuel with
  | O => Panic
  | S fuel =>
      if len <? D then
        let* a := block_loop inv_butterfly block_fuel len 0 a in
        inv_stages fuel (len * 2) a
      else Ok a
  end.

Definition forward_ntt_cyclic (a : list Z) : out (list Z) :=
  let* a := fwd_stages 65 (D / 2) a in
  Ok (reduce_range_in_place R_LOG prime a).

Definition forward_ntt (a : list Z) : out (list Z) :=
  let a := zip_update mulP a (psi_pows tw) in
  let* a := fwd_stages 65 (D / 2) a in
  Ok (reduce_range_in_place R_LOG prime a).

Definition inverse_ntt_cyclic (a : list Z) : out (list Z) :=
  let* a := inv_stages 65 1 a in
  Ok (map (fun c => mulP c (d_inv tw)) a).

Definition inverse_ntt (a : list Z) : out (list Z) :=
  let* a := inv_stages 65 1 a in
  Ok (zip_update mulP a (d_inv_psi_inv tw)).
End transform.

(** * Loops over raw coefficients *)

(** ** One block: pairs at distance [half] *)

Section pairs.
Context {Er : Type}.
Variables half start : Z.
Variable X : Z -> Z -> Z -> Z.
Variable Y : Z -> Z -> Z -> Z.

Fixpoint pairs (f : Z -> Z -> Z -> Z) (j : Z) (u v : list Z) : list Z :=
  match u, v with
  | x :: u, y :: v => f j x y :: pairs f (j + 1) u v
  | _, _ => []
  end.

Lemma length_pairs f j u v : length u = length v -> length (pairs f j u v) = length u.
Proof. revert j v; induction u as [|x u IH]; intros j [|y v] Hl; try done. cbn in *. f_equal. apply IH. lia. Qed.

Variable body : list Z -> Z -> outcome Er (list Z).
Hypothesis body_spec : forall a j x y,
  0 <= j < half -> index a (start + j) = Some x -> index a (start + j + half) = Some y ->
  body a j = (let* a := store a (start + j) (X j x y) in store a (start + j + half) (Y j x y)).

Lemma pair_loop pre post u v u1 v1 :
  len pre = start -> len u1 + len u = half -> len v1 = len u1 -> length v = length u ->
  ofold body (seqZ (len u1) (len u)) (pre ++ u1 ++ u ++ v1 ++ v ++ post)
  = Ok (pre ++ u1 ++ pairs X (len u1) u v ++ v1 ++ pairs Y (len u1) u v ++ post).
Proof.
  intros Hpre. revert v u1 v1. induction u as [|x u IH]; intros [|y v] u1 v1 Hu Hv Hl; try done.
  pose proof (len_nonneg u1). pose proof (len_nonneg u). rewrite len_cons in *.
  rewrite seqZ_cons by lia. replace (Z.pred (len u + 1)) with (len u) by lia. cbn [ofold].
  assert (Hx : index (pre ++ u1 ++ (x :: u) ++ v1 ++ (y :: v) ++ post) (start + len u1) = Some x).
  { rewrite app_assoc. apply index_middle. rewrite len_app. lia. }
  assert (Hy : index (pre ++ u1 ++ (x :: u) ++ v1 ++ (y :: v) ++ post) (start + len u1 + half) = Some y).
  { rewrite !app_assoc. rewrite <-(app_assoc _ (y :: v)). apply index_middle. rewrite !len_app, len_cons. lia. }
  rewrite (body_spec _ _ x y) by (done || lia).
  assert (Hs : store (E := Er) (pre ++ u1 ++ (x :: u) ++ v1 ++ (y :: v) ++ post) (start + len u1) (X (len u1) x y)
               = Ok (pre ++ u1 ++ (X (len u1) x y :: u) ++ v1 ++ (y :: v) ++ post)).
  { rewrite (app_assoc pre u1). cbn [app]. rewrite store_middle by (rewrite len_app; lia). by rewrite <-app_assoc. }
  rewrite Hs. cbn [obind].
  assert (Hs' : store (E := Er) (pre ++ u1 ++ (X (len u1) x y :: u) ++ v1 ++ (y :: v) ++ post) (start + len u1 + half)
                  (Y (len u1) x y)
                = Ok (pre ++ (u1 ++ [X (len u1) x y]) ++ u ++ (v1 ++ [Y (len u1) x y]) ++ v ++ post)).
  { replace (pre ++ u1 ++ (X (len u1) x y :: u) ++ v1 ++ (y :: v) ++ post)
      with ((pre ++ u1 ++ (X (len u1) x y :: u) ++ v1) ++ y :: v ++ post) by (by rewrite <-!app_assoc).
    rewrite store_middle by (rewrite !len_app, len_cons; lia). by rewrite <-!app_assoc. }
  rewrite Hs'. cbn [obind]. specialize (IH v (u1 ++ [X (len u1) x y]) (v1 ++ [Y (len u1) x y])).
  rewrite !len_app in IH. change (len [X (len u1) x y]) with 1 in IH. change (len [Y (len u1) x y]) with 1 in IH.
  cbn [length] in Hl. unfold Z.succ. rewrite IH by lia. cbn [pairs app]. by rewrite <-!app_assoc.
Qed.

(** A block of two halves. *)
Definition block_map (b : list Z) : list Z :=
  let u := take (Z.to_nat half) b in
  let v := drop (Z.to_nat half) b in
  pairs X 0 u v ++ pairs Y 0 u v.

Lemma block_body pre b post :
  0 <= half -> len pre = start -> len b = 2 * half ->
  ofold body (range half) (pre ++ b ++ post) = Ok (pre ++ block_map b ++ post).
Proof.
  intros Hh Hpre Hb. unfold block_map. set (u := take _ b). set (v := drop _ b).
  assert (Hu : len u = half) by (unfold u, len in *; rewrite length_take; lia).
  assert (Hv : length v = length u) by (unfold u, v, len in *; rewrite length_take, length_drop; lia).
  assert (Hu0 : len (@nil Z) + len u = half) by (rewrite Hu; done).
  pose proof (pair_loop pre post u v [] [] Hpre Hu0 eq_refl Hv) as Hp.
  cbn [app] in Hp. change (len []) with 0 in Hp. rewrite Hu in Hp. unfold range.
  replace (pre ++ b ++ post) with (pre ++ u ++ v ++ post).
  - rewrite Hp. by rewrite <-app_assoc.
  - unfold u, v. by rewrite (app_assoc (take _ b)), take_drop.
Qed.

Lemma length_block_map b :
  0 <= half -> len b = 2 * half -> len (block_map b) = 2 * half.
Proof.
  intros Hh Hb. unfold block_map, len in *. rewrite length_app, !length_pairs;
    rewrite ?length_take, ?length_drop; lia.
Qed.
End pairs.

(** ** All blocks of a stage *)

Section stage.
Context {Er : Type}.
Variables (D half : Z) (butterfly : Z -> Z -> list Z -> Z -> outcome Er (list Z)) (f : list Z -> list Z).
Hypothesis half_pos : 0 < half.
Hypothesis body_ok : forall pre b post,
  len b = 2 * half -> ofold (butterfly half (len pre)) (range half) (pre ++ b ++ post) = Ok (pre ++ f b ++ post).
Hypothesis f_len : forall b, len b = 2 * half -> len (f b) = 2 * half.

Lemma block_loop_spec fuel pre bs :
  Forall (fun b => len b = 2 * half) bs -> len pre + len (concat bs) = D -> (length bs < fuel)%nat ->
  block_loop D butterfly fuel half (len pre) (pre ++ concat bs) = Ok (pre ++ concat (map f bs)).
Proof.
  intros Hbs. revert fuel pre. induction Hbs as [|b bs Hb _ IH]; intros [|fuel] pre HD Hf; try (cbn in Hf; lia).
  - cbn [concat map block_loop]. change (len (concat [])) with 0 in HD.
    destruct (Z.ltb_spec (len pre) D); [lia|done].
  - cbn [concat map block_loop] in *. rewrite len_app in HD. pose proof (len_nonneg (concat bs)).
    destruct (Z.ltb_spec (len pre) D); [|lia]. rewrite body_ok by done. cbn [obind].
    rewrite app_assoc. replace (len pre + 2 * half) with (len (pre ++ f b)) by (rewrite len_app, f_len; done).
    rewrite IH; [by rewrite <-app_assoc|rewrite len_app, f_len; lia|cbn in Hf; lia].
Qed.
End stage.

(** ** Chunks *)

Fixpoint chunks (n m : nat) (xs : list Z) : list (list Z) :=
  match m with O => [] | S m => take n xs :: chunks n m (drop n xs) end.

Lemma concat_chunks n m xs : length xs = (m * n)%nat -> concat (chunks n m xs) = xs.
Proof.
  revert xs; induction m as [|m IH]; intros xs Hl; [by destruct xs|].
  cbn [chunks concat]. rewrite IH; [apply take_drop|]. rewrite length_drop. lia.
Qed.

Lemma chunks_len n m xs : length xs = (m * n)%nat -> Forall (fun b => len b = Z.of_nat n) (chunks n m xs).
Proof.
  revert xs; induction m as [|m IH]; intros xs Hl; constructor.
  - unfold len. rewrite length_take. lia.
  - apply IH. rewrite length_drop. lia.
Qed.

Lemma length_chunks n m xs : length (chunks n m xs) = m.
Proof. revert xs; induction m as [|m IH]; intros xs; cbn; auto. Qed.

(** Chunks of the double size, halved. *)
Lemma chunks_halve {A} (h : list Z -> list A) n m xs :
  concat (map h (chunks n (2 * m) xs))
  = concat (map (fun b => h (take n b) ++ h (drop n b)) (chunks (2 * n) m xs)).
Proof.
  revert xs; induction m as [|m IH]; intros xs; [done|].
  replace (2 * S m)%nat with (S (S (2 * m))) by lia. cbn [chunks map concat].
  rewrite drop_drop. replace (n + n)%nat with (2 * n)%nat by lia. rewrite IH, app_assoc. f_equal. f_equal.
  - f_equal. rewrite take_take. f_equal. lia.
  - f_equal. rewrite take_drop_commute. f_equal. f_equal. lia.
Qed.

Lemma chunks_concat n bs :
  Forall (fun b => len b = Z.of_nat n) bs -> chunks n (length bs) (concat bs) = bs.
Proof.
  intros Hbs. induction Hbs as [|b bs Hb _ IH]; [done|]. cbn [length chunks concat].
  unfold len in Hb. rewrite take_app_length', drop_app_length' by lia. by rewrite IH.
Qed.

(** * The transforms, recursively *)

Section recursive.
Context {Er : Type} `{BuildMode}.
Variable R_LOG : Z.
Variable prime : NttPrime.
Variable tw : NttTwiddles.
Variable K : nat.
Abbreviation D := (Z.of_nat (2 ^ K)).
Abbreviation pow2 k := (Z.of_nat (2 ^ k)).
Abbreviation mulP := (Montgomery.mul R_LOG prime).
Abbreviation reduceP := (reduce_range R_LOG prime).
Hypothesis fwd_len : len (fwd_twiddles tw) = D.
Hypothesis inv_len : len (inv_twiddles tw) = D.

Definition fwd_tw (half j : Z) : Z := default 0 (index (fwd_twiddles tw) (half - 1 + j)).
Definition inv_tw (half j : Z) : Z := default 0 (index (inv_twiddles tw) (half - 1 + j)).

Definition fwd_lo (j x y : Z) : Z := reduceP (wrapping_add R_LOG x y).
Definition fwd_hi (half j x y : Z) : Z := mulP (wrapping_sub R_LOG x y) (fwd_tw half j).
Definition inv_lo (half j x y : Z) : Z := reduceP (wrapping_add R_LOG x (mulP y (inv_tw half j))).
Definition inv_hi (half j x y : Z) : Z := reduceP (wrapping_sub R_LOG x (mulP y (inv_tw half j))).

Definition fwd_block (k : nat) : list Z -> list Z := block_map (pow2 k) fwd_lo (fwd_hi (pow2 k)).
Definition inv_block (k : nat) : list Z -> list Z := block_map (pow2 k) (inv_lo (pow2 k)) (inv_hi (pow2 k)).

Fixpoint rfwd (k : nat) (b : list Z) : list Z :=
  match k with
  | O => b
  | S k => let b := fwd_block k b in rfwd k (take (2 ^ k) b) ++ rfwd k (drop (2 ^ k) b)
  end.

Fixpoint rinv (k : nat) (b : list Z) : list Z :=
  match k with
  | O => b
  | S k => inv_block k (rinv k (take (2 ^ k) b) ++ rinv k (drop (2 ^ k) b))
  end.

Lemma pow2_S k : pow2 (S k) = 2 * pow2 k.
Proof. cbn. lia. Qed.
Lemma pow2_pos_nat k : 0 < pow2 k.
Proof. pose proof (Nat.pow_nonzero 2 k). lia. Qed.
Lemma pow2_le k : (k <= K)%nat -> pow2 k <= D.
Proof. intros Hk. pose proof (Nat.pow_le_mono_r 2 k K ltac:(lia) Hk). lia. Qed.

Lemma fwd_body k pre b post :
  (k < K)%nat -> len b = 2 * pow2 k ->
  ofold (fwd_butterfly (Er := Er) R_LOG prime tw (pow2 k) (len pre)) (range (pow2 k)) (pre ++ b ++ post)
  = Ok (pre ++ fwd_block k b ++ post).
Proof.
  intros Hk Hb. pose proof (pow2_pos_nat k). pose proof (pow2_le (S k) Hk) as Hle. rewrite pow2_S in Hle.
  unfold fwd_block. apply (block_body (pow2 k) (len pre)); [|lia|done|done].
  intros a j x y Hj Hx Hy. unfold fwd_butterfly, fwd_lo, fwd_hi, fwd_tw.
  destruct (index_is_Some (fwd_twiddles tw) (pow2 k - 1 + j)) as [w Hw]; [lia|].
  rewrite Hw, Hx, Hy. done.
Qed.

Lemma inv_body k pre b post :
  (k < K)%nat -> len b = 2 * pow2 k ->
  ofold (inv_butterfly (Er := Er) R_LOG prime tw (pow2 k) (len pre)) (range (pow2 k)) (pre ++ b ++ post)
  = Ok (pre ++ inv_block k b ++ post).
Proof.
  intros Hk Hb. pose proof (pow2_pos_nat k). pose proof (pow2_le (S k) Hk) as Hle. rewrite pow2_S in Hle.
  unfold inv_block. apply (block_body (pow2 k) (len pre)); [|lia|done|done].
  intros a j x y Hj Hx Hy. unfold inv_butterfly, inv_lo, inv_hi, inv_tw.
  destruct (index_is_Some (inv_twiddles tw) (pow2 k - 1 + j)) as [w Hw]; [lia|].
  rewrite Hw, Hx, Hy. done.
Qed.

Lemma fwd_block_len k b : len b = 2 * pow2 k -> len (fwd_block k b) = 2 * pow2 k.
Proof. apply length_block_map. lia. Qed.
Lemma inv_block_len k b : len b = 2 * pow2 k -> len (inv_block k b) = 2 * pow2 k.
Proof. apply length_block_map. lia. Qed.

(** One stage over the whole array. *)
Lemma stage_spec butterfly f k m xs :
  (forall pre b post, len b = 2 * pow2 k ->
     ofold (butterfly (pow2 k) (len pre)) (range (pow2 k)) (pre ++ b ++ post) = Ok (E := Er) (pre ++ f b ++ post)) ->
  (forall b, len b = 2 * pow2 k -> len (f b) = 2 * pow2 k) ->
  length xs = (m * 2 ^ S k)%nat -> len xs = D ->
  block_loop D butterfly (S (Z.to_nat D)) (pow2 k) 0 xs = Ok (concat (map f (chunks (2 ^ S k) m xs))).
Proof.
  intros Hbody Hf Hl HD. pose proof (pow2_pos_nat k).
  rewrite <-(concat_chunks (2 ^ S k) m xs Hl) at 1.
  pose proof (block_loop_spec D (pow2 k) butterfly f ltac:(lia) Hbody Hf (S (Z.to_nat D)) []
                (chunks (2 ^ S k) m xs)) as Hs.
  cbn [app] in Hs. change (len []) with 0 in Hs. apply Hs.
  - eapply Forall_impl; [|by apply chunks_len]. intros b Hb. cbn beta. rewrite <-pow2_S. exact Hb.
  - rewrite concat_chunks by done. lia.
  - rewrite length_chunks. unfold len in HD. pose proof (Nat.pow_nonzero 2 (S k)). nia.
Qed.

Lemma concat_map_len (f : list Z -> list Z) n bs :
  Forall (fun b => len b = n) bs -> (forall b, len b = n -> len (f b) = n) ->
  len (concat (map f bs)) = Z.of_nat (length bs) * n.
Proof.
  intros Hbs Hf. induction Hbs as [|b bs Hb _ IH]; [done|]. cbn [map concat length].
  rewrite len_app, IH, Hf by done. lia.
Qed.

Lemma fwd_stages_spec k m xs fuel :
  (k <= K)%nat -> length xs = (m * 2 ^ k)%nat -> len xs = D -> (k < fuel)%nat ->
  fwd_stages (Er := Er) R_LOG D prime tw fuel (pow2 k / 2) xs
  = Ok (concat (map (rfwd k) (chunks (2 ^ k) m xs))).
Proof.
  revert m xs fuel; induction k as [|k IH]; intros m xs [|fuel] Hk Hl HD Hf; try lia.
  - change (pow2 0 / 2) with 0. cbn [fwd_stages Z.ltb Z.compare]. f_equal. cbn [rfwd].
    rewrite map_id. by rewrite concat_chunks.
  - assert (Hh : pow2 (S k) / 2 = pow2 k) by (rewrite pow2_S, Z.mul_comm; by apply Z.div_mul).
    rewrite Hh. cbn [fwd_stages]. pose proof (pow2_pos_nat k). destruct (Z.ltb_spec 0 (pow2 k)); [|lia].
    rewrite (stage_spec _ (fwd_block k) k m) by (intros; apply fwd_body || apply fwd_block_len || idtac; lia || done).
    cbn [obind]. set (bs := chunks (2 ^ S k) m xs).
    assert (Hbs : Forall (fun b => len b = 2 * pow2 k) bs).
    { rewrite <-pow2_S. by apply chunks_len. }
    assert (Hys : len (concat (map (fwd_block k) bs)) = Z.of_nat m * (2 * pow2 k)).
    { rewrite (concat_map_len _ (2 * pow2 k)); [|done|apply fwd_block_len].
      unfold bs. by rewrite length_chunks. }
    rewrite (IH (2 * m)%nat); [|lia| |unfold len in *; cbn in Hl; lia|lia].
    2:{ unfold len in Hys. lia. }
    f_equal. rewrite chunks_halve. change (2 * 2 ^ k)%nat with (2 ^ S k)%nat.
    assert (Hc : chunks (2 ^ S k) m (concat (map (fwd_block k) bs)) = map (fwd_block k) bs).
    { assert (Hm : length (map (fwd_block k) bs) = m) by (unfold bs; by rewrite length_map, length_chunks).
      rewrite <-Hm at 1. apply chunks_concat. apply Forall_map. eapply Forall_impl; [|exact Hbs].
      intros b Hb. rewrite fwd_block_len by done. cbn. lia. }
    rewrite Hc, map_map. done.
Qed.

Lemma rinv_len k b : len b = pow2 k -> len (rinv k b) = pow2 k.
Proof.
  revert b; induction k as [|k IH]; intros b Hb; [done|]. cbn [rinv]. rewrite pow2_S in *.
  apply inv_block_len. rewrite len_app, !IH; unfold len in *; rewrite ?length_take, ?length_drop; lia.
Qed.

Lemma inv_stages_spec i k xs fuel :
  K = (k + i)%nat -> len xs = D -> (i < fuel)%nat ->
  inv_stages (Er := Er) R_LOG D prime tw fuel (pow2 k)
    (concat (map (rinv k) (chunks (2 ^ k) (2 ^ i) xs)))
  = Ok (rinv K xs).
Proof.
  revert k fuel; induction i as [|i IH]; intros k [|fuel] HK HD Hf; try lia.
  - rewrite Nat.add_0_r in HK. subst k. cbn [Nat.pow chunks map concat inv_stages].
    destruct (Z.ltb_spec D D); [lia|]. rewrite app_nil_r, take_ge by (unfold len in HD; lia). done.
  - cbn [inv_stages]. assert (Hlt : pow2 k < D).
    { pose proof (Nat.pow_lt_mono_r 2 k K ltac:(lia) ltac:(lia)). lia. }
    destruct (Z.ltb_spec (pow2 k) D); [|lia].
    change (2 ^ S i)%nat with (2 * 2 ^ i)%nat. rewrite chunks_halve. change (2 * 2 ^ k)%nat with (2 ^ S k)%nat.
    set (bs := chunks (2 ^ S k) (2 ^ i) xs). set (h := fun b => rinv k (take (2 ^ k) b) ++ rinv k (drop (2 ^ k) b)).
    assert (Hl : length xs = (2 ^ i * 2 ^ S k)%nat).
    { unfold len in HD. rewrite <-Nat.pow_add_r. replace (i + S k)%nat with K by lia. lia. }
    assert (Hbs : Forall (fun b => len b = 2 * pow2 k) bs) by (rewrite <-pow2_S; by apply chunks_len).
    assert (Hh : forall b, len b = 2 * pow2 k -> len (h b) = 2 * pow2 k).
    { intros b Hb. unfold h. rewrite len_app, !rinv_len; unfold len in *; rewrite ?length_take, ?length_drop; lia. }
    assert (Hys : len (concat (map h bs)) = D).
    { rewrite (concat_map_len _ (2 * pow2 k)) by done. unfold bs. rewrite length_chunks.
      unfold len in HD. rewrite <-HD, Hl. cbn. lia. }
    assert (Hc : chunks (2 ^ S k) (2 ^ i) (concat (map h bs)) = map h bs).
    { assert (Hm : length (map h bs) = (2 ^ i)%nat) by (unfold bs; by rewrite length_map, length_chunks).
      rewrite <-Hm at 1. apply chunks_concat. apply Forall_map. eapply Forall_impl; [|exact Hbs].
      intros b Hb. rewrite Hh by done. cbn. lia. }
    rewrite (stage_spec _ (inv_block k) k (2 ^ i)); [|intros; apply inv_body; lia || done|apply inv_block_len| |done].
    2:{ unfold len in Hys, HD. lia. }
    cbn [obind]. rewrite Hc, map_map. rewrite <-(IH (S k) fuel) by (lia || done).
    rewrite pow2_S, (Z.mul_comm 2). done.
Qed.
End recursive.

(** * Coefficients as field elements *)

Section represent.
Variable R_LOG : Z.
Variable prime : NttPrime.
Hypothesis prime_ok : well_formed R_LOG prime.
Context `{OddPrime (p prime)}.
Abbreviation q := (p prime).
Abbreviation zq := (Zmod.Zmod (p prime)).
Abbreviation mulP := (Montgomery.mul R_LOG prime).
Abbreviation reduceP := (reduce_range R_LOG prime).

(** [m] is the Montgomery form of the field element [e], in [(-q, q)]. *)
Definition rep (m : Z) (e : zq) : Prop := stands R_LOG prime m (Zmod.to_Z e).
Abbreviation reps := (Forall2 rep).

Lemma rep_of_Z m x : stands R_LOG prime m x -> rep m (Zmod.of_Z q x).
Proof.
  intros Hm. eapply stands_cong; [exact Hm|]. rewrite to_Z_of_Z. symmetry. apply mod_cong.
  pose proof (wf_range _ _ prime_ok). lia.
Qed.

Lemma cong_to_Z x (e : zq) : Zmod.of_Z q x = e -> cong q x (Zmod.to_Z e).
Proof.
  intros <-. rewrite to_Z_of_Z. symmetry. apply mod_cong. pose proof (wf_range _ _ prime_ok). lia.
Qed.

Lemma rep_from_canonical a : in_s R_LOG a -> rep (from_canonical R_LOG prime a) (Zmod.of_Z q a).
Proof. intros Ha. apply rep_of_Z. by apply stands_from_canonical. Qed.

Lemma rep_to_canonical m e : rep m e -> to_canonical R_LOG prime m = Zmod.to_Z e.
Proof.
  intros Hm. rewrite (to_canonical_stands R_LOG prime prime_ok m _ Hm).
  apply Z.mod_small. by apply to_Z_bounds.
Qed.

Lemma rep_mul m1 m2 e1 e2 : rep m1 e1 -> rep m2 e2 -> rep (mulP m1 m2) (fmul e1 e2).
Proof.
  intros H1 H2. eapply stands_cong; [by apply stands_mul|]. apply cong_to_Z.
  by rewrite of_Z_mul, !of_Z_to_Z.
Qed.

Lemma rep_add m1 m2 e1 e2 : rep m1 e1 -> rep m2 e2 -> rep (reduceP (wrapping_add R_LOG m1 m2)) (fadd e1 e2).
Proof.
  intros H1 H2. eapply stands_cong; [by apply stands_add|]. apply cong_to_Z.
  by rewrite of_Z_add, !of_Z_to_Z.
Qed.

Lemma rep_sub m1 m2 e1 e2 : rep m1 e1 -> rep m2 e2 -> rep (reduceP (wrapping_sub R_LOG m1 m2)) (fsub e1 e2).
Proof.
  intros H1 H2. eapply stands_cong; [by apply stands_sub|]. apply cong_to_Z.
  by rewrite of_Z_sub, !of_Z_to_Z.
Qed.

(** The product of an unreduced difference. *)
Lemma rep_mul_sub m1 m2 w e1 e2 ew :
  rep m1 e1 -> rep m2 e2 -> rep w ew -> rep (mulP (wrapping_sub R_LOG m1 m2) w) (fmul (fsub e1 e2) ew).
Proof.
  intros [H1 B1] [H2 B2] Hw.
  assert (Hd : wrapping_sub R_LOG m1 m2 = m1 - m2) by (by apply (wrapping_sub_small R_LOG prime)).
  eapply stands_cong; [eapply (stands_mul_wide R_LOG prime prime_ok _ w (Zmod.to_Z e1 - Zmod.to_Z e2)); [| |exact Hw]|].
  - rewrite Hd, H1, H2. replace ((Zmod.to_Z e1 - Zmod.to_Z e2) * 2 ^ R_LOG)
      with (Zmod.to_Z e1 * 2 ^ R_LOG - Zmod.to_Z e2 * 2 ^ R_LOG) by ring. reflexivity.
  - rewrite Hd. apply (in_width R_LOG prime prime_ok). lia.
  - apply cong_to_Z. by rewrite of_Z_mul, of_Z_sub, !of_Z_to_Z.
Qed.

Lemma rep_reduce m e : rep m e -> rep (reduceP m) e.
Proof.
  intros [H1 B1]. destruct (reduce_range_spec R_LOG prime prime_ok m) as [Hc Hb]; [lia|].
  split; [by rewrite Hc|done].
Qed.

Lemma reps_zip_update a b ea eb :
  reps a ea -> reps b eb -> length a = length b -> reps (zip_update mulP a b) (vmul ea eb).
Proof.
  intros Ha. revert b eb. induction Ha as [|x e a ea Hx _ IH]; intros b eb Hb Hl.
  - inversion Hb; subst; constructor.
  - inversion Hb as [|y f b' eb' Hy Hb']; subst; [done|]. cbn. constructor; [by apply rep_mul|].
    apply IH; [done|]. cbn in Hl. lia.
Qed.

(** ** Butterflies *)

Variable tw : NttTwiddles.
Variable K : nat.
Abbreviation D := (Z.of_nat (2 ^ K)).
Abbreviation pow2 k := (Z.of_nat (2 ^ k)).
Variables om omi : nat -> zq.
Variables psi psi_inv dinv : zq.

(** What the twiddle tables hold. *)
Record tables : Prop := {
  tab_fwd_len : len (fwd_twiddles tw) = D;
  tab_inv_len : len (inv_twiddles tw) = D;
  tab_fwd s i : (s < K)%nat -> (i < 2 ^ s)%nat -> rep (fwd_tw tw (pow2 s) (Z.of_nat i)) (fpow (om s) i);
  tab_inv s i : (s < K)%nat -> (i < 2 ^ s)%nat -> rep (inv_tw tw (pow2 s) (Z.of_nat i)) (fpow (omi s) i);
  tab_psi : reps (psi_pows tw) (twist psi (replicate (2 ^ K) fone));
  tab_dinv : rep (d_inv tw) dinv;
  tab_dpsi : reps (d_inv_psi_inv tw) (twist_from dinv psi_inv (replicate (2 ^ K) fone));
}.
Hypothesis tab : tables.

Lemma reps_fwd_lo j u v eu ev :
  reps u eu -> reps v ev -> reps (pairs (fwd_lo R_LOG prime) j u v) (vadd eu ev).
Proof.
  intros Hu. revert j v ev. induction Hu as [|x e u eu Hx _ IH]; intros j v ev Hv; [constructor|].
  inversion Hv as [|y f v' ev' Hy Hv']; subst; [constructor|]. cbn. constructor; [by apply rep_add|].
  by apply IH.
Qed.

Lemma reps_fwd_hi s i u v eu ev :
  (s < K)%nat -> reps u eu -> reps v ev -> (i + length u <= 2 ^ s)%nat ->
  reps (pairs (fwd_hi R_LOG prime tw (pow2 s)) (Z.of_nat i) u v)
    (twist_from (fpow (om s) i) (om s) (vsub eu ev)).
Proof.
  intros Hs Hu. revert i v ev. induction Hu as [|x e u eu Hx _ IH]; intros i v ev Hv Hl; [constructor|].
  inversion Hv as [|y f v' ev' Hy Hv']; subst; [constructor|]. cbn [length] in Hl. cbn. constructor.
  - apply rep_mul_sub; [done..|]. apply (tab_fwd tab); lia.
  - replace (Z.of_nat i + 1) with (Z.of_nat (S i)) by lia.
    replace (Zmod.mul (fpow (om s) i) (om s)) with (fpow (om s) (S i)) by apply Zmod.mul_comm.
    apply IH; [done|lia].
Qed.

Lemma reps_inv_pairs s i u v eu ev :
  (s < K)%nat -> reps u eu -> reps v ev -> (i + length v <= 2 ^ s)%nat ->
  reps (pairs (inv_lo R_LOG prime tw (pow2 s)) (Z.of_nat i) u v)
    (vadd eu (twist_from (fpow (omi s) i) (omi s) ev)) /\
  reps (pairs (inv_hi R_LOG prime tw (pow2 s)) (Z.of_nat i) u v)
    (vsub eu (twist_from (fpow (omi s) i) (omi s) ev)).
Proof.
  intros Hs Hu. revert i v ev. induction Hu as [|x e u eu Hx _ IH]; intros i v ev Hv Hl; [split; constructor|].
  inversion Hv as [|y f v' ev' Hy Hv']; subst; [split; constructor|]. cbn [length] in Hl.
  destruct (IH (S i) v' ev' Hv') as [H1 H2]; [lia|].
  replace (Z.of_nat (S i)) with (Z.of_nat i + 1) in H1, H2 by lia.
  replace (fpow (omi s) (S i)) with (fmul (fpow (omi s) i) (omi s)) in H1, H2 by apply Zmod.mul_comm.
  assert (Hyw : rep (mulP y (inv_tw tw (pow2 s) (Z.of_nat i))) (fmul f (fpow (omi s) i))).
  { apply rep_mul; [done|]. apply (tab_inv tab); lia. }
  cbn. split; constructor; try done; [by apply rep_add|by apply rep_sub].
Qed.

Lemma reps_length a e : reps a e -> length a = length e.
Proof. apply Forall2_length. Qed.

Lemma fwd_block_reps k b e :
  (k < K)%nat -> reps b e -> length b = (2 ^ S k)%nat ->
  reps (take (2 ^ k) (fwd_block R_LOG prime tw k b)) (vadd (take (2 ^ k) e) (drop (2 ^ k) e)) /\
  reps (drop (2 ^ k) (fwd_block R_LOG prime tw k b)) (twist (om k) (vsub (take (2 ^ k) e) (drop (2 ^ k) e))).
Proof.
  intros Hk Hb Hl. unfold fwd_block, block_map. rewrite Nat2Z.id.
  destruct (length_halves k b Hl) as [Hu Hv].
  assert (Hlo : length (pairs (fwd_lo R_LOG prime) 0 (take (2 ^ k) b) (drop (2 ^ k) b)) = (2 ^ k)%nat)
    by (rewrite length_pairs; lia).
  rewrite take_app_length', drop_app_length' by lia. split.
  - apply reps_fwd_lo; [by apply Forall2_take|by apply Forall2_drop].
  - apply (reps_fwd_hi k 0); [done|by apply Forall2_take|by apply Forall2_drop|lia].
Qed.

Lemma reps_rfwd k b e :
  (k <= K)%nat -> reps b e -> length b = (2 ^ k)%nat -> reps (rfwd R_LOG prime tw k b) (fwd om k e).
Proof.
  revert b e; induction k as [|k IH]; intros b e Hk Hb Hl; [done|]. cbn [rfwd fwd].
  destruct (fwd_block_reps k b e Hk Hb Hl) as [H1 H2].
  destruct (length_halves k b Hl) as [Hu Hv]. pose proof (reps_length _ _ Hb) as Hle.
  destruct (length_halves k e ltac:(lia)) as [Hu' Hv'].
  apply Forall2_app; apply IH; try done; try lia.
  - rewrite (reps_length _ _ H1). unfold vadd. apply (length_zip_halves (E := zq)); lia.
  - rewrite (reps_length _ _ H2). unfold twist. rewrite length_twist_from. unfold vsub.
    apply (length_zip_halves (E := zq)); lia.
Qed.

Lemma length_rinv k b : length b = (2 ^ k)%nat -> length (rinv R_LOG prime tw k b) = (2 ^ k)%nat.
Proof. intros Hb. pose proof (rinv_len R_LOG prime tw K k b) as Hl. unfold len in Hl. lia. Qed.

Lemma reps_rinv k b e :
  (k <= K)%nat -> reps b e -> length b = (2 ^ k)%nat -> reps (rinv R_LOG prime tw k b) (inv omi k e).
Proof.
  revert b e; induction k as [|k IH]; intros b e Hk Hb Hl; [done|]. cbn [rinv inv].
  destruct (length_halves k b Hl) as [Hu Hv].
  assert (H1 : reps (rinv R_LOG prime tw k (take (2 ^ k) b)) (inv omi k (take (2 ^ k) e)))
    by (apply IH; [lia|by apply Forall2_take|done]).
  assert (H2 : reps (rinv R_LOG prime tw k (drop (2 ^ k) b)) (inv omi k (drop (2 ^ k) e)))
    by (apply IH; [lia|by apply Forall2_drop|done]).
  unfold inv_block, block_map. rewrite Nat2Z.id.
  rewrite take_app_length', drop_app_length' by (rewrite length_rinv; done).
  destruct (reps_inv_pairs k 0 _ _ _ _ Hk H1 H2) as [Ha Hs]; [rewrite length_rinv by done; lia|].
  by apply Forall2_app.
Qed.

(** ** The four transforms *)

Hypothesis K_small : (K < 64)%nat.

Lemma tables_psi_len : length (psi_pows tw) = (2 ^ K)%nat.
Proof. rewrite (reps_length _ _ (tab_psi tab)). unfold twist. by rewrite length_twist_from, length_replicate. Qed.
Lemma tables_dpsi_len : length (d_inv_psi_inv tw) = (2 ^ K)%nat.
Proof. rewrite (reps_length _ _ (tab_dpsi tab)). by rewrite length_twist_from, length_replicate. Qed.

Lemma reps_reduce a e : reps a e -> reps (reduce_range_in_place R_LOG prime a) e.
Proof. intros Ha. induction Ha; cbn; constructor; [by apply rep_reduce|done]. Qed.

Lemma fwd_stages_reps `{BuildMode} {Er} a e :
  reps a e -> length a = (2 ^ K)%nat ->
  exists a', fwd_stages (Er := Er) R_LOG D prime tw 65 (D / 2) a = Ok a' /\ reps a' (fwd om K e).
Proof.
  intros Ha Hl. eexists. split.
  - apply (fwd_stages_spec R_LOG prime tw K (tab_fwd_len tab) K 1 a 65); unfold len; lia.
  - cbn [chunks map concat]. rewrite app_nil_r, take_ge by lia. by apply reps_rfwd.
Qed.

Lemma inv_stages_reps `{BuildMode} {Er} a e :
  reps a e -> length a = (2 ^ K)%nat ->
  exists a', inv_stages (Er := Er) R_LOG D prime tw 65 1 a = Ok a' /\ reps a' (inv omi K e) /\
    length a' = (2 ^ K)%nat.
Proof.
  intros Ha Hl. exists (rinv R_LOG prime tw K a). split; [|split].
  - assert (Hla : len a = D) by (unfold len; lia).
    pose proof (inv_stages_spec (Er := Er) R_LOG prime tw K (tab_inv_len tab) K 0 a 65 eq_refl Hla ltac:(lia)) as Hs.
    change (2 ^ 0)%nat with 1%nat in Hs. rewrite <-Hs. f_equal.
    assert (Hid : map (rinv R_LOG prime tw 0) (chunks 1 (2 ^ K) a) = chunks 1 (2 ^ K) a) by apply map_id.
    rewrite Hid, concat_chunks by lia. done.
  - by apply reps_rinv.
  - by apply length_rinv.
Qed.

Lemma forward_ntt_reps `{BuildMode} {Er} a e :
  reps a e -> length a = (2 ^ K)%nat ->
  exists a', forward_ntt (Er := Er) R_LOG D prime tw a = Ok a' /\ reps a' (fwd om K (twist psi e)).
Proof.
  intros Ha Hl. pose proof (reps_length _ _ Ha) as Hle.
  assert (Ht : reps (zip_update mulP a (psi_pows tw)) (twist psi e)).
  { pose proof (reps_zip_update _ _ _ _ Ha (tab_psi tab)) as Hz. unfold twist in *.
    specialize (Hz ltac:(by rewrite tables_psi_len)). rewrite <-Hl, Hle, vmul_powers in Hz. exact Hz. }
  destruct (fwd_stages_reps (Er := Er) _ _ Ht) as (a' & Ha' & Hr); [by rewrite length_zip_update|].
  unfold forward_ntt. rewrite Ha'. cbn [obind]. eexists. split; [done|]. by apply reps_reduce.
Qed.

Lemma forward_cyclic_reps `{BuildMode} {Er} a e :
  reps a e -> length a = (2 ^ K)%nat ->
  exists a', forward_ntt_cyclic (Er := Er) R_LOG D prime tw a = Ok a' /\ reps a' (fwd om K e).
Proof.
  intros Ha Hl. destruct (fwd_stages_reps (Er := Er) _ _ Ha Hl) as (a' & Ha' & Hr).
  unfold forward_ntt_cyclic. rewrite Ha'. cbn [obind]. eexists. split; [done|]. by apply reps_reduce.
Qed.

Lemma inverse_ntt_reps `{BuildMode} {Er} a e :
  reps a e -> length a = (2 ^ K)%nat ->
  exists a', inverse_ntt (Er := Er) R_LOG D prime tw a = Ok a' /\
    reps a' (twist_from dinv psi_inv (inv omi K e)).
Proof.
  intros Ha Hl. destruct (inv_stages_reps (Er := Er) _ _ Ha Hl) as (b & Hb & Hr & Hlb).
  unfold inverse_ntt. rewrite Hb. cbn [obind]. eexists. split; [done|].
  pose proof (reps_zip_update _ _ _ _ Hr (tab_dpsi tab)) as Hz.
  specialize (Hz ltac:(by rewrite tables_dpsi_len)).
  rewrite <-Hlb, (reps_length _ _ Hr), vmul_powers in Hz. exact Hz.
Qed.

Lemma inverse_cyclic_reps `{BuildMode} {Er} a e :
  reps a e -> length a = (2 ^ K)%nat ->
  exists a', inverse_ntt_cyclic (Er := Er) R_LOG D prime tw a = Ok a' /\
    reps a' (scale dinv (inv omi K e)).
Proof.
  intros Ha Hl. destruct (inv_stages_reps (Er := Er) _ _ Ha Hl) as (b & Hb & Hr & Hlb).
  unfold inverse_ntt_cyclic. rewrite Hb. cbn [obind]. eexists. split; [done|].
  clear Ha Hb Hl Hlb. unfold scale. induction Hr as [|x f b fs Hx _ IH]; cbn; constructor; [|done].
  replace (Zmod.mul dinv f) with (fmul f dinv) by apply Zmod.mul_comm.
  apply rep_mul; [done|apply (tab_dinv tab)].
Qed.

(** ** What the roots satisfy *)

Record roots : Prop := {
  root_psi : fpow psi (2 ^ K) = fneg fone;
  root_psi_inv : fmul psi psi_inv = fone;
  root_om s : (s < K)%nat -> fpow (om s) (2 ^ s) = fneg fone;
  root_omi s : (s < K)%nat -> fmul (om s) (omi s) = fone;
  root_dinv : fmul dinv (two_pow K) = fone;
}.
Hypothesis rts : roots.

Add Ring zqring : (field_ring (E := zq)).

Lemma untwist e : length e = (2 ^ K)%nat ->
  twist_from dinv psi_inv (scale (two_pow K) (twist psi e)) = e.
Proof.
  intros Hl. rewrite <-twist_scale. unfold twist. rewrite twist_from_twice, (root_psi_inv rts).
  replace (fmul fone dinv) with dinv by ring.
  assert (Hs : forall l, twist_from dinv fone (scale (two_pow K) l) = l).
  { induction l as [|x l IH]; [done|]. cbn [scale map twist_from].
    replace (fmul dinv fone) with dinv by ring. fold (scale (two_pow K) l). rewrite IH. f_equal.
    transitivity (fmul (fmul dinv (two_pow K)) x); [ring|]. rewrite (root_dinv rts). ring. }
  apply Hs.
Qed.

Lemma unscale (l : list zq) : scale dinv (scale (two_pow K) l) = l.
Proof.
  induction l as [|x l IH]; [done|]. cbn [scale map]. fold (scale (two_pow K) l). fold (scale dinv (scale (two_pow K) l)).
  rewrite IH. f_equal. transitivity (fmul (fmul dinv (two_pow K)) x); [ring|]. rewrite (root_dinv rts). ring.
Qed.

Lemma round_trip_reps `{BuildMode} {Er} a e :
  reps a e -> length a = (2 ^ K)%nat ->
  exists f b, forward_ntt (Er := Er) R_LOG D prime tw a = Ok f /\
    inverse_ntt (Er := Er) R_LOG D prime tw f = Ok b /\ reps b e.
Proof.
  intros Ha Hl. destruct (forward_ntt_reps (Er := Er) a e Ha Hl) as (f & Hf & Rf).
  pose proof (reps_length _ _ Ha) as Hle.
  assert (Hlt : length (twist psi e) = (2 ^ K)%nat) by (unfold twist; rewrite length_twist_from; lia).
  destruct (inverse_ntt_reps (Er := Er) f _ Rf) as (b & Hb & Rb).
  { rewrite (reps_length _ _ Rf). by apply length_fwd. }
  exists f, b. split; [done|]. split; [done|].
  rewrite (inv_fwd om omi K) in Rb by (apply rts || lia || done). rewrite untwist in Rb by lia. done.
Qed.

Lemma round_trip_cyclic_reps `{BuildMode} {Er} a e :
  reps a e -> length a = (2 ^ K)%nat ->
  exists f b, forward_ntt_cyclic (Er := Er) R_LOG D prime tw a = Ok f /\
    inverse_ntt_cyclic (Er := Er) R_LOG D prime tw f = Ok b /\ reps b e.
Proof.
  intros Ha Hl. destruct (forward_cyclic_reps (Er := Er) a e Ha Hl) as (f & Hf & Rf).
  pose proof (reps_length _ _ Ha) as Hle.
  destruct (inverse_cyclic_reps (Er := Er) f _ Rf) as (b & Hb & Rb).
  { rewrite (reps_length _ _ Rf). apply length_fwd. lia. }
  exists f, b. split; [done|]. split; [done|].
  rewrite (inv_fwd om omi K) in Rb by (apply rts || lia || done).
  by rewrite unscale in Rb.
Qed.

Lemma product_reps `{BuildMode} {Er} a b (ra rb r : CyclotomicRing zq) o :
  reps a (ring_coeffs ra) -> reps b (ring_coeffs rb) -> wf D ra -> wf D rb -> len o = D ->
  CyclotomicRing.mul (Er := Er) D ra rb = Ok r -> wf D r ->
  exists fa fb pr c,
    forward_ntt (Er := Er) R_LOG D prime tw a = Ok fa /\
    forward_ntt (Er := Er) R_LOG D prime tw b = Ok fb /\
    pointwise_mul (Er := Er) R_LOG prime o fa fb = Ok pr /\
    inverse_ntt (Er := Er) R_LOG D prime tw pr = Ok c /\ reps c (ring_coeffs r).
Proof.
  intros Ha Hb Wa Wb Ho Hr Wr. unfold wf, len in *.
  destruct (forward_ntt_reps (Er := Er) a _ Ha) as (fa & Hfa & Rfa); [rewrite (reps_length _ _ Ha); lia|].
  destruct (forward_ntt_reps (Er := Er) b _ Hb) as (fb & Hfb & Rfb); [rewrite (reps_length _ _ Hb); lia|].
  assert (Hla : length fa = (2 ^ K)%nat).
  { rewrite (reps_length _ _ Rfa). apply length_fwd. unfold twist. rewrite length_twist_from. lia. }
  assert (Hlb : length fb = (2 ^ K)%nat).
  { rewrite (reps_length _ _ Rfb). apply length_fwd. unfold twist. rewrite length_twist_from. lia. }
  assert (Hpr : reps (zip_with (Montgomery.mul R_LOG prime) fa fb) (fwd om K (twist psi (ring_coeffs r)))).
  { rewrite (fwd_negacyclic om K (root_om rts) psi (root_psi rts) (Er := Er) ra rb r) by (unfold wf, len; lia || done).
    unfold vmul. clear -Rfa Rfb prime_ok. revert fb Rfb. generalize (fwd om K (twist psi (ring_coeffs rb))).
    induction Rfa as [|x e fa es Hx _ IH]; intros l fb Rfb; [constructor|].
    inversion Rfb; subst; [constructor|]. cbn. constructor; [by apply rep_mul|]. by apply IH. }
  destruct (inverse_ntt_reps (Er := Er) _ _ Hpr) as (c & Hc & Rc); [rewrite length_zip_with; lia|].
  exists fa, fb, (zip_with (Montgomery.mul R_LOG prime) fa fb), c. do 2 (split; [done|]). split; [|split; [done|]].
  - unfold pointwise_mul, len. rewrite Ho, Hla, Hlb, Z.eqb_refl. done.
  - rewrite (inv_fwd om omi K) in Rc by (apply rts || lia || (unfold twist; rewrite length_twist_from; lia)).
    rewrite untwist in Rc by lia. done.
Qed.
End represent.
