(* ===== verification/NttTables.v ===== *)
(** [NttTwiddles::compute] of [akita-algebra/src/ntt/butterfly.rs]: the root
    search succeeds for every prime [q] with [2D | q - 1], and the tables hold
    the powers the transforms rely on; with that, the theorems on the
    transforms as the code runs them. *)

From Stdlib Require Import Zmod.
From S2P Require Import Prelude Field UniPoly Cyclotomic ModField Montgomery NttMath Ntt.

(** * Modular exponentiation *)

Section pow_mod.
Context {Er : Type} `{BuildMode}.
Variable m : Z.
Hypothesis m_range : 1 < m < 2 ^ 31.

Lemma mul_rem_spec a b : 0 <= a < m -> 0 <= b < m -> mul_rem (Er := Er) a b m = Ok ((a * b) mod m).
Proof.
  intros Ha Hb. assert (Hab : 0 <= a * b <= 2 ^ 31 * 2 ^ 31) by nia. unfold mul_rem, i64.
  destruct (Z.leb_spec (- 2 ^ 63) (a * b)); [|lia]. destruct (Z.ltb_spec (a * b) (2 ^ 63)); [|lia].
  cbn [andb obind]. destruct (Z.eqb_spec m 0); [lia|]. cbn [negb assert obind].
  by rewrite Z.rem_mod_nonneg by lia.
Qed.

Lemma cong_pow n a b k : cong n a b -> 0 <= k -> cong n (a ^ k) (b ^ k).
Proof.
  intros Hab Hk. replace k with (Z.of_nat (Z.to_nat k)) by lia. induction (Z.to_nat k) as [|j IH]; [done|].
  rewrite Nat2Z.inj_succ, !Z.pow_succ_r by lia. by apply cong_mul_proper.
Qed.

Lemma pow_mod_loop_spec fuel r b e :
  0 <= r < m -> 0 <= b < m -> 0 <= e < 2 ^ Z.of_nat fuel ->
  pow_mod_loop (Er := Er) fuel r b e m = Ok ((r * b ^ e) mod m).
Proof.
  revert r b e; induction fuel as [|fuel IH]; intros r b e Hr Hb He.
  - cbn in He. replace e with 0 by lia. cbn. by rewrite Z.mul_1_r, Z.mod_small.
  - cbn [pow_mod_loop]. rewrite Nat2Z.inj_succ, Z.pow_succ_r in He by lia.
    destruct (Z.ltb_spec 0 e).
    2:{ replace e with 0 by lia. by rewrite Z.pow_0_r, Z.mul_1_r, Z.mod_small. }
    change 1 with (Z.ones 1) at 1. rewrite Z.land_ones by lia. change (2 ^ 1) with 2. rewrite Z.shiftr_div_pow2, Z.pow_1_r by lia.
    pose proof (Z.div_mod e 2 ltac:(lia)) as Hd. pose proof (Z.mod_pos_bound e 2 ltac:(lia)) as Hm.
    set (r' := if e mod 2 =? 1 then (r * b) mod m else r).
    assert (Hr' : (if e mod 2 =? 1 then mul_rem (Er := Er) r b m else Ok r) = Ok r' /\ 0 <= r' < m /\
                  cong m r' (r * b ^ (e mod 2))).
    { unfold r'. destruct (Z.eqb_spec (e mod 2) 1) as [Ho|Ho].
      - rewrite mul_rem_spec by done. split; [done|]. split; [apply Z.mod_pos_bound; lia|].
        rewrite Ho, Z.pow_1_r. apply mod_cong. lia.
      - replace (e mod 2) with 0 by lia. rewrite Z.pow_0_r, Z.mul_1_r. done. }
    destruct Hr' as (-> & Hrr & Hrc). cbn [obind]. rewrite mul_rem_spec by done. cbn [obind].
    rewrite IH; [|done|apply Z.mod_pos_bound; lia|lia]. f_equal. apply cong_mod; [lia|].
    assert (H0d : 0 <= e / 2) by (apply Z.div_pos; lia).
    assert (Hp : cong m (((b * b) mod m) ^ (e / 2)) ((b * b) ^ (e / 2)))
      by (apply cong_pow; [apply mod_cong; lia|done]).
    assert (Hbe : b ^ e = (b * b) ^ (e / 2) * b ^ (e mod 2)).
    { rewrite <-(Z.pow_2_r b), <-Z.pow_mul_r, <-Z.pow_add_r by lia. f_equal. lia. }
    rewrite Hrc, Hp, Hbe.
    replace (r * b ^ (e mod 2) * (b * b) ^ (e / 2)) with (r * ((b * b) ^ (e / 2) * b ^ (e mod 2))) by ring.
    reflexivity.
Qed.

Lemma pow_mod_spec b e :
  0 <= b -> 0 <= e < 2 ^ 63 -> pow_mod (Er := Er) b e m = Ok (b ^ e mod m).
Proof.
  intros Hb He. unfold pow_mod. destruct (Z.eqb_spec m 0); [lia|]. cbn [negb assert obind].
  rewrite Z.rem_mod_nonneg by lia. rewrite pow_mod_loop_spec by (lia || done || apply Z.mod_pos_bound; lia).
  f_equal. rewrite Z.mul_1_l. apply cong_mod; [lia|]. apply cong_pow; [|lia]. apply mod_cong. lia.
Qed.
End pow_mod.

(** * The primitive root *)

Section root.
Variable q : Z.
Context `{OddPrime q}.
Abbreviation zq := (Zmod.Zmod q).
Add Ring zqring : (field_ring (E := zq)).

Lemma q_big : 2 < q.
Proof. by apply q_gt_2. Qed.

Lemma of_Z_pow z k : 0 <= k -> Zmod.of_Z q (z ^ k) = fpow (Zmod.of_Z q z : zq) (Z.to_nat k).
Proof.
  intros Hk. replace (z ^ k) with (z ^ Z.of_nat (Z.to_nat k)) by (f_equal; lia).
  induction (Z.to_nat k) as [|j IH]; [done|]. rewrite Nat2Z.inj_succ, Z.pow_succ_r by lia.
  cbn [fpow]. by rewrite of_Z_mul, IH.
Qed.

Lemma of_Z_minus_one z : 0 <= z < q -> Zmod.of_Z q z = (fneg fone : zq) <-> z = q - 1.
Proof.
  intros Hz. assert (Hm : (fneg fone : zq) = Zmod.of_Z q (q - 1)).
  { rewrite of_Z_sub. assert (Hq0 : Zmod.of_Z q q = (fzero : zq)).
    { change (Zmod.of_Z q q = Zmod.of_Z q 0). apply (of_Z_eq q). by rewrite Z.mod_same by (pose proof q_big; lia). }
    rewrite Hq0. change ((fneg fone : zq) = fsub fzero fone). ring. }
  rewrite Hm, of_Z_eq by done. rewrite !Z.mod_small by (pose proof q_big; lia). done.
Qed.

Definition half : Z := (q - 1) / 2.

Lemma half_spec : q - 1 = 2 * half /\ 1 <= half.
Proof.
  pose proof q_big. pose proof (oddprime_odd (q := q)) as Ho. apply Z.odd_spec in Ho as [k Hk].
  unfold half. rewrite Hk. replace (2 * k + 1 - 1) with (k * 2) by lia. rewrite Z.div_mul by lia. lia.
Qed.

(** Half powers of nonzero residues are [1] or [-1]. *)
Lemma half_power a :
  0 < a < q -> a ^ half mod q = q - 1 \/ fpow (Zmod.of_Z q a : zq) (Z.to_nat half) = fone.
Proof.
  intros Ha. pose proof half_spec as [Hh1 Hh2]. pose proof q_big.
  set (x := fpow (Zmod.of_Z q a : zq) (Z.to_nat half)).
  assert (Hx2 : fmul x x = fone).
  { unfold x. rewrite <-fpow_double. replace (2 * Z.to_nat half)%nat with (Z.to_nat (q - 1)) by lia.
    rewrite <-of_Z_pow by lia. change (fone : zq) with (Zmod.of_Z q 1). apply (of_Z_eq q).
    rewrite Z.mod_1_l by lia. apply Z.fermat_nz; [apply oddprime_prime|]. rewrite Z.mod_small by lia. lia. }
  destruct (fmul_eq_zero (fsub x fone) (fadd x fone)) as [Hz|Hz].
  - transitivity (fsub (fmul x x) fone : zq); [ring|]. rewrite Hx2. ring.
  - right. transitivity (fadd (fsub x fone) fone : zq); [ring|]. rewrite Hz. ring.
  - left. assert (Hb : 0 <= a ^ half mod q < q) by (apply Z.mod_pos_bound; lia).
    apply (of_Z_minus_one (a ^ half mod q) Hb).
    transitivity x.
    + unfold x. rewrite <-of_Z_pow by lia. apply (of_Z_eq q). by apply Z.mod_mod; lia.
    + transitivity (fsub (fadd x fone) fone : zq); [ring|]. rewrite Hz. ring.
Qed.

(** Quadratic non-residues exist: otherwise [X^half - 1] has too many roots. *)
Lemma non_residue : exists a, 2 <= a < q /\ a ^ half mod q = q - 1.
Proof.
  pose proof half_spec as [Hh1 Hh2]. pose proof q_big.
  destruct (decide (Exists (fun a => a ^ half mod q = q - 1) (seqZ 2 (q - 2)))) as [He|He].
  { apply Exists_exists in He as (a & Ha & Hp). exists a. split; [|done]. apply list_elem_of_In, elem_of_seqZ in Ha. lia. }
  exfalso. assert (Hall : forall a, 0 < a < q -> fpow (Zmod.of_Z q a : zq) (Z.to_nat half) = fone).
  { intros a Ha. destruct (half_power a Ha) as [Hm|]; [|done]. exfalso.
    destruct (decide (a = 1)) as [->|Hne].
    - rewrite Z.pow_1_l, Z.mod_1_l in Hm by lia. lia.
    - apply He, Exists_exists. exists a. split; [apply list_elem_of_In, elem_of_seqZ; lia|done]. }
  set (l := (fneg fone : zq) :: replicate (Z.to_nat half - 1) fzero ++ [fone]).
  assert (Hl : forall x, peval l x = fsub (fpow x (Z.to_nat half)) fone).
  { intros x. unfold l. cbn [peval]. rewrite peval_app, length_replicate.
    assert (Hz : peval (replicate (Z.to_nat half - 1) (fzero : zq)) x = fzero).
    { induction (Z.to_nat half - 1)%nat as [|n IH]; [done|]. cbn [replicate peval]. rewrite IH. ring. }
    rewrite Hz. replace (Z.to_nat half) with (S (Z.to_nat half - 1)) at 2 by lia. cbn [peval fpow]. ring. }
  assert (Hl0 : peval l fzero = fzero).
  { apply (roots_bound l (map (Zmod.of_Z q) (seqZ 1 (q - 1)))).
    - apply (NoDup_fmap_2_strong (Zmod.of_Z q)); [|apply NoDup_seqZ].
      intros x y Hx%elem_of_seqZ Hy%elem_of_seqZ Hxy. apply (of_Z_eq q) in Hxy.
      by rewrite !Z.mod_small in Hxy by lia.
    - unfold l. cbn [length]. rewrite length_app, length_replicate, length_map, length_seqZ. cbn. lia.
    - intros x Hx. apply (list_elem_of_fmap_1 (Zmod.of_Z q)) in Hx as (a & -> & Ha%elem_of_seqZ).
      rewrite Hl, Hall by lia. ring. }
  rewrite Hl in Hl0. replace (Z.to_nat half) with (S (Z.to_nat half - 1)) in Hl0 by lia. cbn [fpow] in Hl0.
  apply (fone_neq_zero (E := zq)). transitivity (fneg (fsub (fmul fzero (fpow fzero (Z.to_nat half - 1))) fone) : zq);
    [ring|]. rewrite Hl0. ring.
Qed.
End root.

(** * Arrays filled from the front *)

Definition padded (l : list Z) (n : nat) : list Z := l ++ replicate (n - length l) 0.

Lemma length_padded l n : (length l <= n)%nat -> length (padded l n) = n.
Proof. intros Hl. unfold padded. rewrite length_app, length_replicate. lia. Qed.

Lemma store_padded {Er} l n x i :
  (length l < n)%nat -> i = len l -> store (E := Er) (padded l n) i x = Ok (padded (l ++ [x]) n).
Proof.
  intros Hl ->. unfold padded. replace (n - length l)%nat with (S (n - length (l ++ [x])))
    by (rewrite length_app; cbn; lia).
  cbn [replicate]. rewrite store_middle by done. by rewrite <-app_assoc.
Qed.

Lemma padded_nil n : padded [] n = replicate n 0.
Proof. unfold padded. by rewrite Nat.sub_0_r. Qed.

Lemma padded_full l n : length l = n -> padded l n = l.
Proof. intros <-. unfold padded. rewrite Nat.sub_diag. apply app_nil_r. Qed.

(** * The tables *)

Section tables.
Context {Er : Type} `{BuildMode}.
Variable R_LOG : Z.
Variable prime : NttPrime.
Hypothesis prime_ok : well_formed R_LOG prime.
Abbreviation q := (p prime).
Context `{OddPrime (p prime)}.
Abbreviation zq := (Zmod.Zmod (p prime)).
Variable K : nat.
Abbreviation N := (2 ^ K)%nat.
Abbreviation D := (Z.of_nat (2 ^ K)).
Hypothesis D_divides : (2 * D | q - 1).
Abbreviation from z := (from_canonical R_LOG prime (from_i64 R_LOG z)).
Abbreviation mulP := (Montgomery.mul R_LOG prime).
Abbreviation rep := (rep R_LOG prime).
Abbreviation reps := (Forall2 (Ntt.rep R_LOG prime)).
Add Ring zqring2 : (field_ring (E := zq)).

Lemma q_width : 2 < q < 2 ^ 30 /\ in_s R_LOG q.
Proof.
  pose proof (wf_range _ _ prime_ok). pose proof (R_facts R_LOG prime prime_ok) as (? & ? & ? & ? & ? & ?).
  pose proof (q_big q). unfold in_s. lia.
Qed.

Lemma D_small : 0 < D /\ 2 * D < q.
Proof.
  pose proof q_width as [Hq _]. destruct D_divides as [k Hk]. pose proof (Nat.pow_nonzero 2 K ltac:(lia)).
  assert (0 < D) by lia. assert (0 < k) by nia. split; [done|]. nia.
Qed.

Lemma q_pow_range : 1 < q < 2 ^ 31.
Proof. pose proof q_width as [Hq _]. lia. Qed.

Lemma from_rep z e : 0 <= z < q -> Zmod.of_Z q z = e -> rep (from z) e.
Proof.
  intros Hz <-. pose proof q_width as [Hq Hin]. pose proof (R_facts R_LOG prime prime_ok) as (? & ? & ? & ? & ? & ?).
  unfold in_s in Hin. unfold from_i64. rewrite swrap_id by (lia || split; lia).
  apply rep_from_canonical; [done|]. unfold in_s. lia.
Qed.

(** ** The root *)

Lemma root_search_spec fuel a exp :
  2 <= a -> a + Z.of_nat fuel <= q -> 0 <= exp -> exp * D = half q ->
  (exists a', a <= a' < a + Z.of_nat fuel /\ a' ^ half q mod q = q - 1) ->
  exists psi, root_search (Er := Er) fuel a (half q) exp q D = Ok psi /\ 0 <= psi < q /\
    fpow (Zmod.of_Z q psi : zq) N = fneg fone.
Proof.
  pose proof q_width as [Hq _]. pose proof q_pow_range as Hq31. pose proof D_small. pose proof (half_spec q) as [Hh1 Hh2].
  intros Ha Hfuel Hexp Hdiv. assert (exp <= half q) by nia. revert a Ha Hfuel. induction fuel as [|fuel IH]; intros a Ha Hfuel (a' & Ha' & Hp); [lia|].
  cbn [root_search]. rewrite pow_mod_spec by (done || lia). cbn [obind].
  destruct (Z.eqb_spec (a ^ half q mod q) (q - 1)) as [He|Hne].
  - rewrite pow_mod_spec by (done || lia). cbn [obind]. assert (Hpsi : 0 <= a ^ exp mod q < q) by (apply Z.mod_pos_bound; lia).
    rewrite pow_mod_spec by (done || lia). cbn [obind].
    assert (Hval : (a ^ exp mod q) ^ D mod q = q - 1).
    { rewrite <-He. apply cong_mod; [lia|]. rewrite <-Hdiv, Z.pow_mul_r by lia. apply cong_pow; [|lia]. apply mod_cong. lia. }
    rewrite Hval, Z.eqb_refl. unfold debug_assert. cbn [negb]. rewrite andb_false_r. cbn [obind].
    eexists. split; [done|]. split; [done|]. rewrite <-(Nat2Z.id N), <-of_Z_pow by lia.
    rewrite <-(proj2 (of_Z_minus_one q ((a ^ exp mod q) ^ D mod q) ltac:(apply Z.mod_pos_bound; lia)) Hval).
    apply (of_Z_eq q). by rewrite Z.mod_mod by lia.
  - destruct (decide (a' = a)) as [->|]; [done|]. apply IH; [lia|lia|]. exists a'. split; [lia|done].
Qed.

Lemma find_root_spec :
  exists psi, find_primitive_root_2d (Er := Er) q D = Ok psi /\ 0 <= psi < q /\
    fpow (Zmod.of_Z q psi : zq) N = fneg fone.
Proof.
  pose proof q_width as [Hq _]. pose proof D_small. pose proof (half_spec q) as [Hh1 Hh2].
  unfold find_primitive_root_2d. destruct (Z.eqb_spec D 0); [lia|]. cbn [negb assert obind].
  rewrite !Z.quot_div_nonneg by lia. fold (half q). destruct D_divides as [k Hk].
  assert (Hexp : (q - 1) / (2 * D) = k) by (rewrite Hk; apply Z.div_mul; lia). rewrite Hexp.
  destruct (non_residue q) as (a & Ha & Hp).
  apply root_search_spec; [lia|lia|nia|lia|]. exists a. split; [lia|done].
Qed.

(** ** Inverses *)

Lemma inverse_spec z :
  0 < z < q -> exists w, pow_mod (Er := Er) z (q - 2) q = Ok w /\ 0 <= w < q /\
    fmul (Zmod.of_Z q z : zq) (Zmod.of_Z q w) = fone.
Proof.
  intros Hz. pose proof q_width as [Hq _]. pose proof q_pow_range.
  rewrite pow_mod_spec by (done || lia). eexists. split; [done|].
  split; [apply Z.mod_pos_bound; lia|]. change (fone : zq) with (Zmod.of_Z q 1).
  change (Zmod.mul (Zmod.of_Z q z) (Zmod.of_Z q (z ^ (q - 2) mod q)) = Zmod.of_Z q 1).
  rewrite <-of_Z_mul by done. apply (of_Z_eq q). rewrite Z.mul_mod_idemp_r by lia.
  rewrite <-Z.pow_succ_r by lia. replace (Z.succ (q - 2)) with (q - 1) by lia.
  rewrite Z.mod_1_l by lia. apply Z.fermat_nz; [apply oddprime_prime|]. rewrite Z.mod_small; lia.
Qed.

(** ** The loops *)

Definition pows (c w : zq) (n : nat) : list zq := map (fun i => fmul c (fpow w i)) (seq 0 n).

Lemma pows_S c w n : pows c w (S n) = pows c w n ++ [fmul c (fpow w n)].
Proof. unfold pows. by rewrite seq_S, map_app. Qed.

Lemma length_pows c w n : length (pows c w n) = n.
Proof. unfold pows. by rewrite length_map, length_seq. Qed.

Lemma twist_ones c w n : twist_from c w (replicate n (fone : zq)) = pows c w n.
Proof.
  revert c; induction n as [|n IH]; intros c; [done|]. cbn [replicate twist_from]. rewrite IH.
  unfold pows. cbn [seq map]. f_equal; [cbn [fpow]; ring|]. rewrite <-seq_shift, map_map.
  apply map_ext. intros i. cbn [fpow]. ring.
Qed.

Lemma zeros_padded : replicate (Z.to_nat D) 0 = padded [] N.
Proof. by rewrite padded_nil, Nat2Z.id. Qed.

(** A loop variable that steps through the powers of [x]. *)
Lemma power_step x cur i :
  0 <= x < q -> 0 <= cur < q -> 0 <= i -> Zmod.of_Z q cur = fpow (Zmod.of_Z q x : zq) (Z.to_nat i) ->
  exists cur', mul_rem (Er := Er) cur x q = Ok cur' /\ 0 <= cur' < q /\
    Zmod.of_Z q cur' = fpow (Zmod.of_Z q x : zq) (Z.to_nat (i + 1)).
Proof.
  intros Hx Hc Hi He. pose proof q_pow_range. exists ((cur * x) mod q).
  split; [by apply mul_rem_spec|]. split; [apply Z.mod_pos_bound; lia|].
  replace (Z.to_nat (i + 1)) with (S (Z.to_nat i)) by lia. cbn [fpow]. rewrite <-He.
  change (Zmod.of_Z q ((cur * x) mod q) = Zmod.mul (Zmod.of_Z q x) (Zmod.of_Z q cur)).
  rewrite <-of_Z_mul. apply (of_Z_eq q). rewrite Z.mod_mod, Z.mul_comm by lia. done.
Qed.

Lemma store_rep l (es : list zq) i z e :
  reps l es -> len l = i -> i < D -> 0 <= z < q -> Zmod.of_Z q z = e ->
  store (E := Er) (padded l N) i (from z) = Ok (padded (l ++ [from z]) N) /\
  reps (l ++ [from z]) (es ++ [e]) /\ len (l ++ [from z]) = i + 1.
Proof.
  intros Hr Hl Hi Hz He. split; [|split].
  - apply store_padded; [unfold len in Hl; lia|done].
  - apply Forall2_app; [done|]. constructor; [by apply from_rep|constructor].
  - rewrite len_app, Hl. done.
Qed.

Lemma psi_loop x y :
  0 <= x < q -> 0 <= y < q ->
  exists a b c d,
    ofold (psi_step (Er := Er) R_LOG prime q x y) (range D) (replicate (Z.to_nat D) 0, replicate (Z.to_nat D) 0, 1, 1)
      = Ok (a, b, c, d) /\
    reps a (pows fone (Zmod.of_Z q x) N) /\ reps b (pows fone (Zmod.of_Z q y) N).
Proof.
  intros Hx Hy. pose proof q_width as [Hq _].
  destruct (ofold_range (E := Er) (fun i '(a, b, c, d) => exists la lb,
      (a = padded la N /\ reps la (pows fone (Zmod.of_Z q x) (Z.to_nat i)) /\ len la = i) /\
      (b = padded lb N /\ reps lb (pows fone (Zmod.of_Z q y) (Z.to_nat i)) /\ len lb = i) /\
      (0 <= c < q /\ Zmod.of_Z q c = fpow (Zmod.of_Z q x : zq) (Z.to_nat i)) /\
      (0 <= d < q /\ Zmod.of_Z q d = fpow (Zmod.of_Z q y : zq) (Z.to_nat i)))
      (psi_step (Er := Er) R_LOG prime q x y) D (replicate (Z.to_nat D) 0, replicate (Z.to_nat D) 0, 1, 1))
    as ([[[a b] c] d] & Hs & Hi); [lia| | |].
  - rewrite zeros_padded. exists [], []. unfold len. cbn.
    repeat split; try constructor; lia.
  - intros i [[[a b] c] d] Hi (la & lb & (-> & Ra & La) & (-> & Rb & Lb) & (Bc & Ec) & (Bd & Ed)).
    unfold psi_step.
    destruct (store_rep la _ i c _ Ra La ltac:(lia) Bc Ec) as (-> & Ra' & La'). cbn [obind].
    destruct (store_rep lb _ i d _ Rb Lb ltac:(lia) Bd Ed) as (-> & Rb' & Lb'). cbn [obind].
    destruct (power_step x c i) as (c' & -> & Bc' & Ec'); [done..|lia|done|]. cbn [obind].
    destruct (power_step y d i) as (d' & -> & Bd' & Ed'); [done..|lia|done|]. cbn [obind].
    eexists. split; [done|]. exists (la ++ [from c]), (lb ++ [from d]).
    assert (Hone : forall e : zq, fmul fone e = e) by (intros; ring).
    replace (Z.to_nat (i + 1)) with (S (Z.to_nat i)) in * by lia. rewrite !pows_S, !Hone. done.
  - destruct Hi as (la & lb & (-> & Ra & La) & (-> & Rb & Lb) & _). unfold len in *.
    rewrite !padded_full in Hs by lia. rewrite Nat2Z.id in *. eauto 10.
Qed.

(** The table of scaled inverse powers. *)
Lemma dpsi_loop l (di : Z) (d w : zq) :
  rep di d -> reps l (pows fone w N) ->
  exists o,
    ofold (fun o i => let* x := unwrap (E := Er) (index l i) in store o i (mulP di x)) (range D)
      (replicate (Z.to_nat D) 0) = Ok o /\ reps o (pows d w N).
Proof.
  intros Hd Hl. assert (Hn : length l = N) by (rewrite (Forall2_length Hl); apply length_pows).
  destruct (ofold_range (E := Er) (fun i o => exists lo, o = padded lo N /\
      reps lo (pows d w (Z.to_nat i)) /\ len lo = i)
      (fun o i => let* x := unwrap (E := Er) (index l i) in store o i (mulP di x)) D (replicate (Z.to_nat D) 0))
    as (o & Hs & Hi); [lia| | |].
  - rewrite zeros_padded. exists []. repeat split; constructor.
  - intros i o Hi (lo & -> & Ro & Lo). destruct (index_is_Some l i) as [x Hx]; [unfold len; lia|].
    rewrite Hx. cbn [unwrap obind]. rewrite store_padded by (unfold len in *; lia).
    eexists. split; [done|]. exists (lo ++ [mulP di x]). split; [done|]. rewrite len_app, Lo. split; [|done].
    replace (Z.to_nat (i + 1)) with (S (Z.to_nat i)) by lia. rewrite pows_S. apply Forall2_app; [done|].
    constructor; [|constructor]. apply rep_mul; [done..|].
    assert (Hi' : i = Z.of_nat (Z.to_nat i)) by lia. rewrite Hi', index_nat in Hx.
    destruct (Forall2_lookup_l _ _ _ _ _ Hl Hx) as (e & He & Hr). unfold pows in He.
    rewrite list_lookup_fmap, lookup_seq_lt in He by lia. injection He as <-.
    replace (fpow w (Z.to_nat i)) with (fmul fone (fpow w (0 + Z.to_nat i))) by (cbn [plus]; ring). done.
  - destruct Hi as (lo & -> & Ro & Lo). unfold len in *. rewrite padded_full in Hs by lia.
    rewrite Nat2Z.id in *. eauto.
Qed.

Definition stage_om (omega : zq) (s : nat) : zq := fpow omega (2 ^ (K - 1 - s)).

Lemma K_lt_D : Z.of_nat K < D.
Proof. pose proof (Nat.pow_gt_lin_r 2 K ltac:(lia)). lia. Qed.

Lemma K_30 : (K < 30)%nat.
Proof.
  pose proof D_small. pose proof q_width as [Hq _]. destruct (Nat.lt_ge_cases K 30) as [|Hk]; [done|].
  pose proof (Nat.pow_le_mono_r 2 30 K ltac:(lia) Hk) as Hp. apply inj_le in Hp.
  rewrite Nat2Z.inj_pow in Hp. change (Z.of_nat 2 ^ Z.of_nat 30) with (2 ^ 30) in Hp. lia.
Qed.

Lemma stage_power z s :
  0 <= z < q -> (s < K)%nat ->
  exists r, pow_mod (Er := Er) z (D / (2 * 2 ^ Z.of_nat s)) q = Ok r /\ 0 <= r < q /\
    Zmod.of_Z q r = stage_om (Zmod.of_Z q z) s.
Proof.
  intros Hz Hs. pose proof q_width as [Hq _]. pose proof q_pow_range. pose proof D_small.
  assert (He : D / (2 * 2 ^ Z.of_nat s) = Z.of_nat (2 ^ (K - 1 - s))).
  { rewrite !Nat2Z.inj_pow. change (Z.of_nat 2) with 2. rewrite <-Z.pow_succ_r by lia.
    replace (Z.of_nat K) with (Z.of_nat (K - 1 - s) + Z.succ (Z.of_nat s)) by lia.
    rewrite Z.pow_add_r by lia. apply Z.div_mul. lia. }
  pose proof (Nat.pow_le_mono_r 2 (K - 1 - s) K ltac:(lia) ltac:(lia)).
  rewrite He, pow_mod_spec by (done || lia). eexists. split; [done|]. split; [apply Z.mod_pos_bound; lia|].
  unfold stage_om. pose proof (of_Z_pow q z (Z.of_nat (2 ^ (K - 1 - s))) ltac:(lia)) as Ht.
  rewrite Nat2Z.id in Ht. rewrite <-Ht.
  apply (of_Z_eq q). by rewrite Z.mod_mod by lia.
Qed.

Definition stage_list (omega : zq) (s : nat) : list zq := map (stage_om omega) (seq 0 s).

Lemma stage_roots_spec x y fuel s lf li :
  0 <= x < q -> 0 <= y < q -> (s <= K < fuel + s)%nat ->
  reps lf (stage_list (Zmod.of_Z q x) s) -> reps li (stage_list (Zmod.of_Z q y) s) ->
  len lf = Z.of_nat s -> len li = Z.of_nat s ->
  exists f i,
    stage_roots (Er := Er) R_LOG D prime fuel q x y (2 ^ Z.of_nat s) (Z.of_nat s) (padded lf N) (padded li N)
      = Ok (padded f N, padded i N, Z.of_nat K) /\
    reps f (stage_list (Zmod.of_Z q x) K) /\ reps i (stage_list (Zmod.of_Z q y) K).
Proof.
  intros Hx Hy. revert s lf li. induction fuel as [|fuel IH]; intros s lf li Hs Rf Ri Lf Li; [lia|].
  cbn [stage_roots]. pose proof K_lt_D. destruct (Z.ltb_spec (2 ^ Z.of_nat s) D) as [Hlt|Hge].
  - assert (s < K)%nat.
    { destruct (Nat.eq_dec s K) as [->|]; [|lia]. rewrite Nat2Z.inj_pow in Hlt.
      change (Z.of_nat 2) with 2 in Hlt. lia. }
    destruct (stage_power x s Hx) as (rx & -> & Bx & Ex); [done|]. cbn [obind].
    destruct (store_rep lf _ (Z.of_nat s) rx _ Rf Lf ltac:(lia) Bx Ex) as (-> & Rf' & Lf'). cbn [obind].
    destruct (stage_power y s Hy) as (ry & -> & By & Ey); [done|]. cbn [obind].
    destruct (store_rep li _ (Z.of_nat s) ry _ Ri Li ltac:(lia) By Ey) as (-> & Ri' & Li'). cbn [obind].
    replace (2 ^ Z.of_nat s * 2) with (2 ^ Z.of_nat (S s)) by (rewrite Nat2Z.inj_succ, Z.pow_succ_r; lia).
    replace (Z.of_nat s + 1) with (Z.of_nat (S s)) in * by lia.
    apply IH; [lia| | |done..]; unfold stage_list; by rewrite seq_S, map_app.
  - assert (s = K) as ->.
    { destruct (Nat.eq_dec s K) as [|]; [done|]. exfalso.
      pose proof (Nat.pow_lt_mono_r 2 s K ltac:(lia) ltac:(lia)) as Hp. apply inj_lt in Hp.
      rewrite !Nat2Z.inj_pow in Hp. rewrite Nat2Z.inj_pow in Hge. change (Z.of_nat 2) with 2 in *. lia. }
    eauto.
Qed.

(** The first [s] blocks of a twiddle table. *)
Definition stage_table (omega : zq) (s : nat) : list zq :=
  concat (map (fun t => pows fone (stage_om omega t) (2 ^ t)) (seq 0 s)).

Lemma stage_table_S omega s :
  stage_table omega (S s) = stage_table omega s ++ pows fone (stage_om omega s) (2 ^ s).
Proof. unfold stage_table. rewrite seq_S, map_app, concat_app. cbn. by rewrite app_nil_r. Qed.

Lemma length_stage_table omega s : (length (stage_table omega s) + 1 = 2 ^ s)%nat.
Proof.
  induction s as [|s IH]; [done|]. rewrite stage_table_S, length_app, length_pows. cbn [Nat.pow]. lia.
Qed.

Lemma stage_table_lookup omega n s i :
  (s < n)%nat -> (i < 2 ^ s)%nat ->
  stage_table omega n !! (2 ^ s - 1 + i)%nat = Some (fpow (stage_om omega s) i).
Proof.
  intros Hs Hi. induction n as [|n IH]; [lia|]. rewrite stage_table_S.
  pose proof (length_stage_table omega n). destruct (Nat.eq_dec s n) as [->|Hne].
  - rewrite lookup_app_r by lia. unfold pows. rewrite list_lookup_fmap, lookup_seq_lt by lia. cbn.
    replace (2 ^ n - 1 + i - length (stage_table omega n))%nat with i by lia.
    f_equal. change (fmul fone (fpow (stage_om omega n) i) = fpow (stage_om omega n) i). ring.
  - rewrite lookup_app_l; [apply IH; lia|].
    pose proof (Nat.pow_le_mono_r 2 (S s) n ltac:(lia) ltac:(lia)) as Hp. cbn [Nat.pow] in Hp. lia.
Qed.

Lemma index_padded (l : list Z) (es : list zq) s e :
  reps l es -> es !! s = Some e -> exists w, index (padded l N) (Z.of_nat s) = Some w /\ rep w e.
Proof.
  intros Hl He. destruct (Forall2_lookup_r _ _ _ _ _ Hl He) as (w & Hw & Hr). exists w.
  split; [|done]. rewrite index_nat. unfold padded. by apply lookup_app_l_Some.
Qed.

Lemma stage_list_lookup omega n s : (s < n)%nat -> stage_list omega n !! s = Some (stage_om omega s).
Proof. intros Hs. unfold stage_list. by rewrite list_lookup_fmap, lookup_seq_lt. Qed.

Lemma power_rep m w (e : zq) j :
  0 <= j -> rep m (fpow e (Z.to_nat j)) -> rep w e -> rep (mulP m w) (fpow e (Z.to_nat (j + 1))).
Proof.
  intros Hj Hm Hw. replace (fpow e (Z.to_nat (j + 1))) with (fmul (fpow e (Z.to_nat j)) e).
  - by apply rep_mul.
  - replace (Z.to_nat (j + 1)) with (S (Z.to_nat j)) by lia. cbn [fpow]. ring.
Qed.

Lemma store_power base la m (e : zq) j s :
  0 <= j < 2 ^ Z.of_nat s -> (s < K)%nat -> (length base + 1 = 2 ^ s)%nat ->
  reps la (pows fone e (Z.to_nat j)) -> len la = j -> rep m (fpow e (Z.to_nat j)) ->
  store (E := Er) (padded (base ++ la) N) (2 ^ Z.of_nat s - 1 + j) m = Ok (padded (base ++ la ++ [m]) N) /\
  reps (la ++ [m]) (pows fone e (Z.to_nat (j + 1))) /\ len (la ++ [m]) = j + 1.
Proof.
  intros Hj Hs Hb Ra La Hm. pose proof (Nat.pow_le_mono_r 2 (S s) K ltac:(lia) ltac:(lia)) as Hp.
  cbn [Nat.pow] in Hp. assert (Hb2 : 2 ^ Z.of_nat s = Z.of_nat (2 ^ s)) by (rewrite Nat2Z.inj_pow; done).
  split; [|split].
  - rewrite app_assoc. apply store_padded; unfold len in *; rewrite length_app; lia.
  - replace (Z.to_nat (j + 1)) with (S (Z.to_nat j)) by lia. rewrite pows_S. apply Forall2_app; [done|].
    constructor; [|constructor]. replace (fmul fone (fpow e (Z.to_nat j))) with (fpow e (Z.to_nat j)) by ring. done.
  - rewrite len_app, La. done.
Qed.

Lemma stage_twiddles_spec one wl wl' (x y : zq) s lf li :
  rep one fone -> reps wl (stage_list x K) -> reps wl' (stage_list y K) -> (s < K)%nat ->
  reps lf (stage_table x s) -> reps li (stage_table y s) ->
  exists f i,
    stage_twiddles (Er := Er) R_LOG prime one (padded wl N) (padded wl' N) (padded lf N, padded li N) (Z.of_nat s)
      = Ok (padded f N, padded i N) /\
    reps f (stage_table x (S s)) /\ reps i (stage_table y (S s)).
Proof.
  intros H1 Hw Hw' Hs Rf Ri. unfold stage_twiddles. cbn [fst snd].
  destruct (index_padded _ _ s _ Hw (stage_list_lookup x K s Hs)) as (w & -> & Rw).
  destruct (index_padded _ _ s _ Hw' (stage_list_lookup y K s Hs)) as (w' & -> & Rw'). cbn [unwrap obind].
  pose proof (length_stage_table x s) as Lx. rewrite <-(Forall2_length Rf) in Lx.
  pose proof (length_stage_table y s) as Ly. rewrite <-(Forall2_length Ri) in Ly.
  match goal with |- context [ofold ?g ?r ?st] =>
    destruct (ofold_range (E := Er) (fun j '(f, i, mf, mi) => exists la lb,
      (f = padded (lf ++ la) N /\ reps la (pows fone (stage_om x s) (Z.to_nat j)) /\ len la = j) /\
      (i = padded (li ++ lb) N /\ reps lb (pows fone (stage_om y s) (Z.to_nat j)) /\ len lb = j) /\
      rep mf (fpow (stage_om x s) (Z.to_nat j)) /\ rep mi (fpow (stage_om y s) (Z.to_nat j)))
      g (2 ^ Z.of_nat s) st) as ([[[f i] mf] mi] & -> & Hi)
  end.
  - lia.
  - exists [], []. rewrite !app_nil_r. cbn. repeat split; try constructor; done || apply H1.
  - intros j [[[f i] mf] mi] Hj (la & lb & (-> & Ra & La) & (-> & Rb & Lb) & Rmf & Rmi).
    destruct (store_power lf la mf _ j s Hj Hs Lx Ra La Rmf) as (-> & Ra' & La'). cbn [obind].
    destruct (store_power li lb mi _ j s Hj Hs Ly Rb Lb Rmi) as (-> & Rb' & Lb'). cbn [obind].
    eexists. split; [done|]. exists (la ++ [mf]), (lb ++ [mi]).
    split; [done|]. split; [done|]. split; (apply power_rep; [lia|done..]).
  - destruct Hi as (la & lb & (-> & Ra & _) & (-> & Rb & _) & _). cbn [obind].
    exists (lf ++ la), (li ++ lb). split; [done|].
    replace (Z.to_nat (2 ^ Z.of_nat s)) with (2 ^ s)%nat in *
      by (rewrite <-(Nat2Z.id (2 ^ s)), Nat2Z.inj_pow; done).
    rewrite !stage_table_S. split; by apply Forall2_app.
Qed.

Lemma stages_loop one wl wl' (x y : zq) :
  rep one fone -> reps wl (stage_list x K) -> reps wl' (stage_list y K) ->
  exists f i,
    ofold (stage_twiddles (Er := Er) R_LOG prime one (padded wl N) (padded wl' N)) (range (Z.of_nat K))
      (replicate (Z.to_nat D) 0, replicate (Z.to_nat D) 0) = Ok (padded f N, padded i N) /\
    reps f (stage_table x K) /\ reps i (stage_table y K).
Proof.
  intros H1 Hw Hw'. rewrite zeros_padded.
  destruct (ofold_range (E := Er) (fun s '(f, i) => exists lf li, f = padded lf N /\ i = padded li N /\
      reps lf (stage_table x (Z.to_nat s)) /\ reps li (stage_table y (Z.to_nat s)))
      (stage_twiddles (Er := Er) R_LOG prime one (padded wl N) (padded wl' N)) (Z.of_nat K)
      (padded [] N, padded [] N)) as ([f i] & Hr & lf & li & -> & -> & Rf & Ri).
  - lia.
  - exists [], []. repeat split; constructor.
  - intros s [f i] Hs (lf & li & -> & -> & Rf & Ri).
    destruct (stage_twiddles_spec one wl wl' x y (Z.to_nat s) lf li H1 Hw Hw' ltac:(lia) Rf Ri)
      as (f & i & Hst & Rf' & Ri').
    rewrite Z2Nat.id in Hst by lia. eexists. split; [exact Hst|]. exists f, i.
    replace (Z.to_nat (s + 1)) with (S (Z.to_nat s)) by lia. done.
  - rewrite Nat2Z.id in *. eauto.
Qed.

(** ** What [compute_twiddles] returns *)

Lemma fpow_pow (x : zq) m n : fpow (fpow x m) n = fpow x (m * n).
Proof.
  induction n as [|n IH]; [by rewrite Nat.mul_0_r|]. rewrite Nat.mul_succ_r, Nat.add_comm, fpow_add.
  cbn [fpow]. by rewrite IH.
Qed.

Lemma fpow_one n : fpow (fone : zq) n = fone.
Proof. induction n as [|n IH]; [done|]. cbn [fpow]. rewrite IH. ring. Qed.

Lemma of_Z_two_pow k : Zmod.of_Z q (Z.of_nat (2 ^ k)) = two_pow k.
Proof.
  induction k as [|k IH]; [done|]. replace (2 ^ S k)%nat with (2 ^ k + 2 ^ k)%nat by (cbn; lia).
  cbn [two_pow]. by rewrite Nat2Z.inj_add, of_Z_add, IH.
Qed.

Lemma nonzero_root x e n : 0 <= x < q -> (0 < n)%nat -> Zmod.of_Z q x = e -> fpow (e : zq) n <> fzero -> 0 < x.
Proof.
  intros Hx Hn He Hp. destruct (decide (x = 0)) as [->|]; [|lia]. exfalso. apply Hp. subst e.
  destruct n as [|n]; [lia|]. cbn [fpow]. change (fmul fzero (fpow fzero n) = (fzero : zq)). ring.
Qed.

Lemma stage_root_neg (psi : zq) s :
  fpow psi N = fneg fone -> (s < K)%nat -> fpow (stage_om (fmul psi psi) s) (2 ^ s) = fneg fone.
Proof.
  intros Hpsi Hs. unfold stage_om. rewrite fpow_pow, fpow_mul_base, <-fpow_double, <-Hpsi. f_equal.
  rewrite <-Nat.pow_add_r. replace (K - 1 - s + s)%nat with (K - 1)%nat by lia.
  replace K with (S (K - 1)) at 2 by lia. done.
Qed.

Lemma stage_table_rep f (x : zq) s i :
  reps f (stage_table x K) -> (s < K)%nat -> (i < 2 ^ s)%nat ->
  rep (default 0 (index (padded f N) (Z.of_nat (2 ^ s) - 1 + Z.of_nat i))) (fpow (stage_om x s) i).
Proof.
  intros Hf Hs Hi.
  replace (Z.of_nat (2 ^ s) - 1 + Z.of_nat i) with (Z.of_nat (2 ^ s - 1 + i)) by lia.
  destruct (index_padded _ _ _ _ Hf (stage_table_lookup x K s i Hs Hi)) as (w & -> & Hw). done.
Qed.

(** The integers [compute_twiddles] works with. *)
Record constants (z zi w wi di : Z) : Prop := {
  cs_range : Forall (fun x => 0 <= x < q) [z; zi; w; wi; di];
  cs_root : find_primitive_root_2d (Er := Er) q D = Ok z;
  cs_w : mul_rem (Er := Er) z z q = Ok w;
  cs_wi : pow_mod (Er := Er) w (q - 2) q = Ok wi;
  cs_zi : pow_mod (Er := Er) z (q - 2) q = Ok zi;
  cs_di : pow_mod (Er := Er) D (q - 2) q = Ok di;
  cs_eroot : fpow (Zmod.of_Z q z : zq) N = fneg fone;
  cs_ew : Zmod.of_Z q w = (fmul (Zmod.of_Z q z) (Zmod.of_Z q z) : zq);
  cs_ezi : fmul (Zmod.of_Z q z) (Zmod.of_Z q zi) = (fone : zq);
  cs_ewi : fmul (Zmod.of_Z q w) (Zmod.of_Z q wi) = (fone : zq);
  cs_edi : fmul (Zmod.of_Z q D) (Zmod.of_Z q di) = (fone : zq);
}.

Lemma constants_exist : exists z zi w wi di, constants z zi w wi di.
Proof.
  pose proof q_width as [Hq _]. pose proof q_pow_range. pose proof D_small as [HD0 HD].
  destruct find_root_spec as (z & Hz & Bz & Rz).
  assert (Hm1 : fneg fone <> (fzero : zq)).
  { intros He. apply (fone_neq_zero (E := zq)). transitivity (fneg (fneg fone) : zq); [ring|]. rewrite He. ring. }
  assert (Pz : 0 < z).
  { pose proof (Nat.pow_nonzero 2 K ltac:(lia)). apply (nonzero_root z (Zmod.of_Z q z) N Bz); [lia|done|]. by rewrite Rz. }
  assert (Hom : mul_rem (Er := Er) z z q = Ok ((z * z) mod q)) by (by apply mul_rem_spec).
  set (w := (z * z) mod q) in *. assert (Bw : 0 <= w < q) by (apply Z.mod_pos_bound; lia).
  assert (Ew : Zmod.of_Z q w = (fmul (Zmod.of_Z q z) (Zmod.of_Z q z) : zq)).
  { change (Zmod.of_Z q w = Zmod.mul (Zmod.of_Z q z) (Zmod.of_Z q z)). rewrite <-of_Z_mul. apply (of_Z_eq q).
    unfold w. by rewrite Z.mod_mod by lia. }
  destruct (inverse_spec z) as (zi & Hzi & Bzi & Ezi); [lia|].
  assert (Pw : 0 < w).
  { apply (nonzero_root w (Zmod.of_Z q w) 1 Bw); [lia|done|]. rewrite Ew. cbn [fpow]. set (x := Zmod.of_Z q z : zq) in *.
    set (y := Zmod.of_Z q zi : zq) in *. intros Hw0. apply (fone_neq_zero (E := zq)).
    transitivity (fmul (fmul x y) (fmul x y) : zq); [rewrite Ezi; ring|].
    transitivity (fmul (fmul (fmul x x) fone) (fmul y y) : zq); [ring|]. rewrite Hw0. ring. }
  destruct (inverse_spec w) as (wi & Hwi & Bwi & Ewi); [lia|].
  destruct (inverse_spec D) as (di & Hdi & Bdi & Edi); [lia|].
  exists z, zi, w, wi, di. constructor; try done. repeat constructor; lia.
Qed.

Lemma constants_roots z zi w wi di :
  constants z zi w wi di ->
  roots prime K (stage_om (Zmod.of_Z q w)) (stage_om (Zmod.of_Z q wi)) (Zmod.of_Z q z) (Zmod.of_Z q zi)
    (Zmod.of_Z q di).
Proof.
  intros [_ _ _ _ _ _ Rz Ew Ezi Ewi Edi]. constructor; try done.
  - intros s Hs. rewrite Ew. by apply stage_root_neg.
  - intros s Hs. unfold stage_om. by rewrite <-fpow_mul_base, Ewi, fpow_one.
  - rewrite <-of_Z_two_pow, <-Edi. ring.
Qed.

(** [compute_twiddles] returns, and its tables hold what the transforms read. *)
Lemma compute_twiddles_spec :
  exists tw om omi psi psi_inv dinv,
    compute_twiddles (Er := Er) R_LOG D prime = Ok tw /\
    tables R_LOG prime tw K om omi psi psi_inv dinv /\ roots prime K om omi psi psi_inv dinv.
Proof.
  pose proof q_width as [Hq _]. pose proof D_small as [HD0 HD]. pose proof K_30 as HK.
  assert (Hone : rep (from 1) fone) by (apply from_rep; [lia|done]).
  destruct constants_exist as (z & zi & w & wi & di & C). pose proof (constants_roots _ _ _ _ _ C) as Rts.
  destruct C as [Bs Hz Hom Hwi Hzi Hdi _ _ _ _ _].
  apply Forall_cons_1 in Bs as [Bz Bs]. apply Forall_cons_1 in Bs as [Bzi Bs].
  apply Forall_cons_1 in Bs as [Bw Bs]. apply Forall_cons_1 in Bs as [Bwi Bs]. apply Forall_cons_1 in Bs as [Bdi _].
  destruct (psi_loop z zi Bz Bzi) as (pp & pip & c & d & Hpsi & Rpp & Rpip).
  destruct (stage_roots_spec w wi 64 0 [] [] Bw Bwi) as (rf & ri & Hst & Rrf & Rri); try done; [lia|constructor..|].
  change (2 ^ Z.of_nat 0) with 1 in Hst. change (Z.of_nat 0) with 0 in Hst. rewrite <-zeros_padded in Hst.
  assert (Rdi : rep (from di) (Zmod.of_Z q di)) by (by apply from_rep).
  destruct (dpsi_loop pip (from di) _ _ Rdi Rpip) as (dp & Hdp & Rdp).
  destruct (stages_loop (from 1) rf ri _ _ Hone Rrf Rri) as (tf & ti & Htw & Rtf & Rti).
  assert (Hp2 : is_power_of_two D = true).
  { unfold is_power_of_two. rewrite Nat2Z.inj_pow in *. change (Z.of_nat 2) with 2 in *.
    rewrite Z.log2_pow2, Z.eqb_refl by lia. destruct (Z.ltb_spec 0 (2 ^ Z.of_nat K)); [done|lia]. }
  assert (Hrem : Z.rem (q - 1) (2 * D) = 0) by (rewrite Z.rem_mod_nonneg by lia; by apply Z.mod_divide; [lia|]).
  eexists _, _, _, _, _, _. split; [|split; [|exact Rts]].
  - unfold compute_twiddles. rewrite Hp2, Hrem. cbn [Z.eqb assert obind].
    rewrite Hz. cbn [obind]. rewrite Hom. cbn [obind]. rewrite Hwi.
    cbn [obind]. rewrite Hzi. cbn [obind]. rewrite Hpsi. cbn [obind]. rewrite Hst. cbn [obind]. rewrite Hdi.
    cbn [obind]. rewrite Hdp. cbn [obind]. rewrite Htw. done.
  - assert (Hl : forall f (x : zq), reps f (stage_table x K) -> len (padded f N) = D).
    { intros f x Hf. unfold len. rewrite length_padded; [done|]. rewrite (Forall2_length Hf).
      pose proof (length_stage_table x K). lia. }
    constructor; cbn; try (by eapply Hl); try (intros; by apply stage_table_rep); try done.
    + unfold twist. by rewrite twist_ones.
    + by rewrite twist_ones.
Qed.

Lemma reps_from a :
  Forall (fun x => 0 <= x < q) a -> reps (map (fun x => from x) a) (map (Zmod.of_Z q) a).
Proof. intros Ha. induction Ha as [|x a Hx _ IH]; cbn; constructor; [by apply from_rep|done]. Qed.

Lemma reps_to a e : reps a e -> map (to_canonical R_LOG prime) a = map (Zmod.to_Z (m := q)) e.
Proof. intros Ha. induction Ha as [|x f a e Hx _ IH]; cbn; [done|]. by rewrite IH, (rep_to_canonical _ _ prime_ok _ _ Hx). Qed.

Lemma to_Z_canonical a :
  Forall (fun x => 0 <= x < q) a -> map (Zmod.to_Z (m := q)) (map (Zmod.of_Z q) a) = a.
Proof.
  intros Ha. induction Ha as [|x a Hx _ IH]; [done|]. cbn [map]. rewrite IH, to_Z_of_Z. f_equal. by apply Z.mod_small.
Qed.
End tables.

Lemma tables_spec {Er} `{BuildMode} R_LOG q K `{OddPrime q} :
  (R_LOG = 16 \/ R_LOG = 32) -> q < 2 ^ (R_LOG - 2) -> (2 * Z.of_nat (2 ^ K) | q - 1) ->
  exists P tw, compute (Er := Er) R_LOG q = Ok P /\
    compute_twiddles (Er := Er) R_LOG (Z.of_nat (2 ^ K)) P = Ok tw /\ p P = q /\ well_formed R_LOG P /\
    (K < 30)%nat /\
    exists om omi psi psi_inv dinv,
      tables R_LOG P tw K om omi psi psi_inv dinv /\ roots P K om omi psi psi_inv dinv.
Proof.
  intros HR Hq Hd. pose proof (q_gt_2 q) as H2. pose proof (oddprime_odd (q := q)) as Ho.
  destruct (compute_spec (Er := Er) R_LOG q HR ltac:(lia) Ho) as (P & HP & <- & Hok).
  destruct (compute_twiddles_spec (Er := Er) R_LOG P Hok K Hd) as (tw & om & omi & psi & pi & di & Htw & T & R).
  exists P, tw. do 4 (split; [done|]).
  split; [by eapply K_30|]. eauto 10.
Qed.

(** C27: For every odd prime below [2^(w-2)] with [2D | q - 1], the constants
    and twiddle tables are computed without a panic, the transforms run to
    completion on every canonical input, and the inverse transform undoes the
    forward one, negacyclic and cyclic. *)
Theorem ntt_round_trip {Er} `{BuildMode} R_LOG q K `{OddPrime q} a :
  (R_LOG = 16 \/ R_LOG = 32) -> q < 2 ^ (R_LOG - 2) -> (2 * Z.of_nat (2 ^ K) | q - 1) ->
  Forall (fun x => 0 <= x < q) a -> length a = (2 ^ K)%nat ->
  exists P tw, compute (Er := Er) R_LOG q = Ok P /\
    compute_twiddles (Er := Er) R_LOG (Z.of_nat (2 ^ K)) P = Ok tw /\
    let input := map (fun x => from_canonical R_LOG P (from_i64 R_LOG x)) a in
    let run f g := obind (f R_LOG (Z.of_nat (2 ^ K)) P tw input) (g R_LOG (Z.of_nat (2 ^ K)) P tw) in
    exists b c, run (forward_ntt (Er := Er)) inverse_ntt = Ok b /\
      run (forward_ntt_cyclic (Er := Er)) inverse_ntt_cyclic = Ok c /\
      map (to_canonical R_LOG P) b = a /\ map (to_canonical R_LOG P) c = a.
Proof.
  intros HR Hq Hd Ha Hl.
  destruct (tables_spec (Er := Er) R_LOG q K HR Hq Hd) as (P & tw & Hp & Htw & <- & Hok & HK & om & omi & psi & pi & di & T & R).
  exists P, tw. do 2 (split; [done|]). cbv zeta. pose proof (reps_from R_LOG P Hok a Ha) as Hr.
  assert (Hli : length (map (fun x => from_canonical R_LOG P (from_i64 R_LOG x)) a) = (2 ^ K)%nat) by (by rewrite length_map).
  assert (HK64 : (K < 64)%nat) by lia.
  destruct (round_trip_reps R_LOG P Hok tw K om omi psi pi di T HK64 R (Er := Er) _ _ Hr Hli) as (f & b & -> & Hb & Rb).
  destruct (round_trip_cyclic_reps R_LOG P Hok tw K om omi psi pi di T HK64 R (Er := Er) _ _ Hr Hli) as (g & c & -> & Hc & Rc).
  exists b, c. cbn [obind]. split; [done|]. split; [done|].
  by rewrite (reps_to R_LOG P Hok _ _ Rb), (reps_to R_LOG P Hok _ _ Rc), (to_Z_canonical P _ Ha).
Qed.

(** C26: The forward transforms of two canonical coefficient arrays, multiplied
    pointwise and transformed back, are the coefficients of the schoolbook
    product of [CyclotomicRing] over [Z/q]: the Montgomery butterflies
    compute multiplication modulo [X^D + 1]. *)
Theorem negacyclic_product {Er} `{BuildMode} R_LOG q K `{OddPrime q} a b :
  (R_LOG = 16 \/ R_LOG = 32) -> q < 2 ^ (R_LOG - 2) -> (2 * Z.of_nat (2 ^ K) | q - 1) ->
  Forall (fun x => 0 <= x < q) a -> Forall (fun x => 0 <= x < q) b ->
  length a = (2 ^ K)%nat -> length b = (2 ^ K)%nat ->
  exists P tw, compute (Er := Er) R_LOG q = Ok P /\
    compute_twiddles (Er := Er) R_LOG (Z.of_nat (2 ^ K)) P = Ok tw /\
    let from := map (fun x => from_canonical R_LOG P (from_i64 R_LOG x)) in
    let D := Z.of_nat (2 ^ K) in
    exists fa fb fc c r,
      forward_ntt (Er := Er) R_LOG D P tw (from a) = Ok fa /\
      forward_ntt (Er := Er) R_LOG D P tw (from b) = Ok fb /\
      pointwise_mul (Er := Er) R_LOG P fa fa fb = Ok fc /\
      inverse_ntt (Er := Er) R_LOG D P tw fc = Ok c /\
      CyclotomicRing.mul (Er := Er) D (CyclotomicRing.from_coefficients (map (Zmod.of_Z q) a)) (CyclotomicRing.from_coefficients (map (Zmod.of_Z q) b)) = Ok r /\
      map (to_canonical R_LOG P) c = map (Zmod.to_Z (m := q)) (ring_coeffs r).
Proof.
  intros HR Hq Hd Ha Hb Hla Hlb.
  destruct (tables_spec (Er := Er) R_LOG q K HR Hq Hd) as (P & tw & Hp & Htw & <- & Hok & HK & om & omi & psi & pi & di & T & R).
  exists P, tw. do 2 (split; [done|]). cbv zeta.
  pose proof (reps_from R_LOG P Hok a Ha) as Ra. pose proof (reps_from R_LOG P Hok b Hb) as Rb.
  assert (HK64 : (K < 64)%nat) by lia. pose proof (Nat.pow_nonzero 2 K ltac:(lia)) as HN.
  assert (HD : 0 < Z.of_nat (2 ^ K)) by lia.
  assert (Wa : wf (Z.of_nat (2 ^ K)) (CyclotomicRing.from_coefficients (map (Zmod.of_Z (p P)) a))) by (unfold wf, len; cbn; rewrite length_map; lia).
  assert (Wb : wf (Z.of_nat (2 ^ K)) (CyclotomicRing.from_coefficients (map (Zmod.of_Z (p P)) b))) by (unfold wf, len; cbn; rewrite length_map; lia).
  destruct (mul_spec _ HD (Er := Er) _ _ Wa Wb) as (r & Hr & Wr & _).
  destruct (forward_ntt_reps R_LOG P Hok tw K om omi psi pi di T HK64 (Er := Er) _ _ Ra) as (fa & Hfa & Rfa);
    [by rewrite length_map|].
  assert (Hlf : len fa = Z.of_nat (2 ^ K)).
  { unfold len. rewrite (Forall2_length Rfa). f_equal. apply length_fwd. unfold twist.
    by rewrite length_twist_from, length_map. }
  destruct (product_reps R_LOG P Hok tw K om omi psi pi di T HK64 R (Er := Er) _ _
    (CyclotomicRing.from_coefficients (map (Zmod.of_Z (p P)) a)) (CyclotomicRing.from_coefficients (map (Zmod.of_Z (p P)) b))
    r fa Ra Rb Wa Wb Hlf Hr Wr)
    as (fa' & fb & fc & c & Hfa' & Hfb & Hfc & Hc & Rc).
  rewrite Hfa in Hfa'. injection Hfa' as <-. exists fa, fb, fc, c, r. repeat split; try done.
  by apply reps_to.
Qed.

(** ** Witnesses *)

Lemma prime_by_trial q :
  1 < q -> forallb (fun n => negb (q mod n =? 0)) (seqZ 2 (q - 2)) = true -> Z.prime q.
Proof.
  intros Hq Ht. split; [done|]. intros n Hn Hd. rewrite forallb_forall in Ht.
  specialize (Ht n ltac:(apply list_elem_of_In, elem_of_seqZ; lia)).
  apply Z.mod_divide in Hd; [|lia]. by rewrite Hd in Ht.
Qed.

Section witnesses.
#[local] Instance mode : BuildMode := true.
#[local] Instance odd_prime_97 : OddPrime 97.
Proof. split; [by apply prime_by_trial|done]. Qed.

Lemma ntt_round_trip_witness :
  exists P tw, compute (Er := unit) 16 97 = Ok P /\ compute_twiddles (Er := unit) 16 4 P = Ok tw /\
    let input := map (fun x => from_canonical 16 P (from_i64 16 x)) [5; 96; 0; 33] in
    exists b c, obind (forward_ntt (Er := unit) 16 4 P tw input) (inverse_ntt 16 4 P tw) = Ok b /\
      obind (forward_ntt_cyclic (Er := unit) 16 4 P tw input) (inverse_ntt_cyclic 16 4 P tw) = Ok c /\
      map (to_canonical 16 P) b = [5; 96; 0; 33] /\ map (to_canonical 16 P) c = [5; 96; 0; 33].
Proof.
  apply (ntt_round_trip (Er := unit) 16 97 2 [5; 96; 0; 33]);
    [by left|lia|exists 12; reflexivity|repeat constructor; lia|reflexivity].
Defined.

Lemma negacyclic_product_witness :
  exists P tw, compute (Er := unit) 16 97 = Ok P /\ compute_twiddles (Er := unit) 16 4 P = Ok tw /\
    exists fa fb fc c r,
      forward_ntt (Er := unit) 16 4 P tw (map (fun x => from_canonical 16 P (from_i64 16 x)) [5; 96; 0; 33]) = Ok fa /\
      forward_ntt (Er := unit) 16 4 P tw (map (fun x => from_canonical 16 P (from_i64 16 x)) [0; 2; 1; 50]) = Ok fb /\
      pointwise_mul (Er := unit) 16 P fa fa fb = Ok fc /\ inverse_ntt (Er := unit) 16 4 P tw fc = Ok c /\
      CyclotomicRing.mul (Er := unit) 4 (CyclotomicRing.from_coefficients (map (Zmod.of_Z 97) [5; 96; 0; 33]))
        (CyclotomicRing.from_coefficients (map (Zmod.of_Z 97) [0; 2; 1; 50])) = Ok r /\
      map (to_canonical 16 P) c = map (Zmod.to_Z (m := 97)) (ring_coeffs r).
Proof.
  apply (negacyclic_product (Er := unit) 16 97 2 [5; 96; 0; 33] [0; 2; 1; 50]);
    [by left|lia|exists 12; reflexivity|repeat constructor; lia|repeat constructor; lia|reflexivity..].
Defined.
End witnesses.
