(* ===== verification/Capacity.v ===== *)
(** [SmallNat] and [CrtCapacity] of [akita-algebra/src/ntt/crt.rs]: the exact
    capacity of a residue profile, in multi-limb arithmetic. *)

From S2P Require Import Prelude Checked Decomposition.

(** * Small naturals ([SmallNat]): little-endian [u32] limbs *)

Module SmallNat.
Record t := mk { limbs : list Z }.

Section ops.
Context {Er : Type} `{BuildMode}.
Abbreviation out := (outcome Er).

Definition one : t := mk [1].

(** [while value != 0 { push(value as u32); value >>= 32 }] *)
Fixpoint split_limbs (fuel : nat) (value : Z) : out (list Z) :=
  match fuel with
  | O => Panic
  | S fuel =>
      if value =? 0 then Ok []
      else let* rest := split_limbs fuel (Z.shiftr value 32) in Ok (uwrap 32 value :: rest)
  end.

(** One product of the inner loop: [out[i + j] += lhs * rhs], with carry. *)
Definition mul_digit (lhs i : Z) (st : list Z * Z) (jr : Z * Z) : out (list Z * Z) :=
  let '(o, carry) := st in
  let '(j, rhs) := jr in
  let* x := unwrap (index o (i + j)) in
  let* accum := u128 (x + lhs * rhs + carry) in
  let* o := store o (i + j) (uwrap 32 accum) in
  Ok (o, Z.shiftr accum 32).

(** [while carry != 0] *)
Fixpoint carry_loop (fuel : nat) (o : list Z) (carry idx : Z) : out (list Z) :=
  match fuel with
  | O => Panic
  | S fuel =>
      if carry =? 0 then Ok o
      else
        let o := if idx =? len o then o ++ [0] else o in
        let* x := unwrap (index o idx) in
        let* accum := u128 (x + carry) in
        let* o := store o idx (uwrap 32 accum) in
        carry_loop fuel o (Z.shiftr accum 32) (idx + 1)
  end.

(** The product of the whole right operand by one limb of the left one. *)
Definition mul_row (rhs_limbs : list Z) (o : list Z) (il : Z * Z) : out (list Z) :=
  let '(i, lhs) := il in
  let* (o, carry) := ofold (mul_digit lhs i) (enumerate rhs_limbs) (o, 0) in
  carry_loop (S (length o)) o carry (i + len rhs_limbs).

(** [while out.len() > 1 && out.last() == Some(&0) { out.pop(); }], on the
    reversed limbs. *)
Fixpoint pop_zeros (l : list Z) : list Z :=
  match l with
  | x :: (_ :: _) as rest => if x =? 0 then pop_zeros rest else l
  | _ => l
  end.

Definition mul_u128 (self : t) (rhs : Z) : out t :=
  if rhs =? 0 then Ok (mk [0])
  else
    let* rhs_limbs := split_limbs 5 rhs in
    let zeros := replicate (length (limbs self) + length rhs_limbs) 0 in
    let* o := ofold (mul_row rhs_limbs) (enumerate (limbs self)) zeros in
    Ok (mk (reverse (pop_zeros (reverse o)))).
End ops.

(** The order of [Iterator::cmp]. *)
Fixpoint lex_cmp (a b : list Z) : comparison :=
  match a, b with
  | [], [] => Eq
  | [], _ :: _ => Lt
  | _ :: _, [] => Gt
  | x :: a, y :: b => match x ?= y with Eq => lex_cmp a b | c => c end
  end.

Definition cmp (self other : t) : comparison :=
  match len (limbs self) ?= len (limbs other) with
  | Eq => lex_cmp (reverse (limbs self)) (reverse (limbs other))
  | ordering => ordering
  end.

Definition lt (self other : t) : bool := match cmp self other with Lt => true | _ => false end.
End SmallNat.

(** * Capacity *)

Module CrtCapacity.
Record t := mk { product : SmallNat.t }.

Section ops.
Context {Er : Type} `{BuildMode}.
Abbreviation out := (outcome Er).

Definition from_prime_moduli (primes : list Z) : out t :=
  let* product := ofold SmallNat.mul_u128 primes SmallNat.one in Ok (mk product).

Definition with_prime_modulus (self : t) (prime : Z) : out t :=
  let* product := SmallNat.mul_u128 (product self) prime in Ok (mk product).

Definition supports_modulus (self : t) (width ring_dimension modulus rhs_abs_bound : Z) : out bool :=
  let required := SmallNat.one in
  let* required := SmallNat.mul_u128 required 2 in
  let* required := SmallNat.mul_u128 required width in
  let* required := SmallNat.mul_u128 required ring_dimension in
  let* required := SmallNat.mul_u128 required (modulus / 2) in
  let* required := SmallNat.mul_u128 required rhs_abs_bound in
  Ok (SmallNat.lt required (product self)).

(** [while self.supports_modulus(high, ..)]; the flag is the early return of
    [usize::MAX]. *)
Fixpoint double_width (fuel : nat) (supports : Z -> out bool) (low high : Z) : out (Z * Z * bool) :=
  match fuel with
  | O => Panic
  | S fuel =>
      let* ok := supports high in
      if ok then
        let low := high in
        match checked_mul high 2 with
        | Some next => double_width fuel supports low next
        | None =>
            let* ok := supports USIZE_MAX in
            if ok then Ok (low, high, true) else Ok (low, USIZE_MAX, false)
        end
      else Ok (low, high, false)
  end.

(** [while low + 1 < high] *)
Fixpoint bisect_width (fuel : nat) (supports : Z -> out bool) (low high : Z) : out Z :=
  match fuel with
  | O => Panic
  | S fuel =>
      if low + 1 <? high then
        let mid := low + (high - low) / 2 in
        let* ok := supports mid in
        if ok then bisect_width fuel supports mid high else bisect_width fuel supports low mid
      else Ok low
  end.

Definition max_safe_width_for_modulus (self : t) (ring_dimension modulus rhs_abs_bound : Z) : out (option Z) :=
  if rhs_abs_bound =? 0 then Ok (Some USIZE_MAX)
  else
    let supports w := supports_modulus self w ring_dimension modulus rhs_abs_bound in
    let* hopeless :=
      if (modulus <=? 1) || (ring_dimension =? 0) then Ok true else omapr negb (supports 1) in
    if (hopeless : bool) then Ok None
    else
      let* (low, high, all) := double_width 64 supports 1 2 in
      if (all : bool) then Ok (Some USIZE_MAX)
      else omapr Some (bisect_width 65 supports low high).
End ops.
End CrtCapacity.

(** * Values of limbs *)

Abbreviation u32 := (in_u 32).

Fixpoint lval (l : list Z) : Z := match l with [] => 0 | x :: l => x + 2 ^ 32 * lval l end.

Lemma pow32_S n : 0 <= n -> 2 ^ (32 * (n + 1)) = 2 ^ 32 * 2 ^ (32 * n).
Proof. intros Hn. rewrite <-Z.pow_add_r by lia. f_equal. lia. Qed.

Lemma lval_app a b : lval (a ++ b) = lval a + 2 ^ (32 * len a) * lval b.
Proof.
  induction a as [|x a IH]; [change (len (@nil Z)) with 0; cbn [lval app]; lia|].
  cbn [lval app]. rewrite IH, len_cons, pow32_S by apply len_nonneg. lia.
Qed.

Lemma lval_bound l : Forall u32 l -> 0 <= lval l < 2 ^ (32 * len l).
Proof.
  induction 1 as [|x l Hx _ IH]; [done|]. cbn [lval].
  rewrite len_cons, pow32_S by apply len_nonneg. unfold in_u in Hx. lia.
Qed.

Lemma lval_zeros n : lval (replicate n 0) = 0.
Proof. induction n as [|n IH]; [done|]. cbn [replicate lval]. lia. Qed.

Lemma Forall_zeros n : Forall u32 (replicate n 0).
Proof. induction n; constructor; [done|assumption]. Qed.

Lemma split_32 z : 0 <= z -> z = uwrap 32 z + 2 ^ 32 * Z.shiftr z 32 /\ in_u 32 (uwrap 32 z).
Proof.
  intros Hz. split; [|by apply uwrap_in]. rewrite Z.shiftr_div_pow2 by lia. unfold uwrap.
  pose proof (Z.div_mod z (2 ^ 32) ltac:(lia)). lia.
Qed.

(** ** Products *)

Section products.
Context {Er : Type} `{BuildMode}.

Lemma split_limbs_spec fuel value :
  0 <= value < 2 ^ (32 * Z.of_nat fuel) ->
  exists l, SmallNat.split_limbs (Er := Er) (S fuel) value = Ok l /\ Forall u32 l /\ lval l = value.
Proof.
  revert value; induction fuel as [|fuel IH]; intros value Hv.
  - cbn in Hv. replace value with 0 by lia. exists []. done.
  - cbn [SmallNat.split_limbs]. destruct (Z.eqb_spec value 0) as [->|Hne]; [by exists []|].
    destruct (split_32 value) as [He Hu]; [lia|]. rewrite Nat2Z.inj_succ in Hv. unfold Z.succ in Hv.
    rewrite pow32_S in Hv by lia. unfold in_u in Hu.
    destruct (IH (Z.shiftr value 32)) as (l & Hl & Fl & Vl); [lia|].
    exists (uwrap 32 value :: l). cbn [SmallNat.split_limbs] in Hl. rewrite Hl. cbn [obind lval].
    split; [done|]. split; [by constructor|]. lia.
Qed.

Lemma row_loop lhs i rs :
  u32 lhs -> Forall u32 rs -> forall pre mid post j carry,
  len pre = i + j -> length mid = length rs -> Forall u32 mid -> u32 carry ->
  exists mid' c', ofold (SmallNat.mul_digit (Er := Er) lhs i) (zip (seqZ j (len rs)) rs) (pre ++ mid ++ post, carry)
      = Ok (pre ++ mid' ++ post, c') /\
    length mid' = length mid /\ Forall u32 mid' /\ u32 c' /\
    lval mid' + 2 ^ (32 * len rs) * c' = lval mid + lhs * lval rs + carry.
Proof.
  intros Hlhs Hrs. induction Hrs as [|r rs Hr _ IH]; intros pre [|x mid] post j carry Hpre Hl Hmid Hc; try done.
  - exists [], carry. do 4 (split; [done|]). change (2 ^ (32 * len (@nil Z))) with 1. cbn [lval]. lia.
  - apply Forall_cons_iff in Hmid as [Hx Hmid]. pose proof (len_nonneg rs).
    rewrite len_cons, seqZ_cons by lia. replace (Z.pred (len rs + 1)) with (len rs) by lia.
    cbn [zip zip_with ofold SmallNat.mul_digit app]. rewrite index_middle by lia. cbn [unwrap obind].
    unfold in_u in *. assert (Hacc : 0 <= x + lhs * r + carry < 2 ^ 64) by nia.
    rewrite u128_Ok by lia. cbn [obind]. rewrite store_middle by lia. cbn [obind].
    destruct (split_32 (x + lhs * r + carry)) as [He Hu]; [lia|].
    set (y := uwrap 32 _) in *. set (c := Z.shiftr _ 32) in *. unfold in_u in Hu. clearbody y c.
    destruct (IH (pre ++ [y]) mid post (j + 1) c) as (mid' & c' & Hf & Hl' & Hm' & Hc' & Hv);
      [rewrite len_app; change (len [y]) with 1; lia|cbn in Hl; lia|done|lia|].
    exists (y :: mid'), c'. unfold Z.succ. rewrite <-!app_assoc in Hf. cbn [app] in Hf. rewrite Hf.
    split; [done|]. cbn [length lval]. split; [cbn; lia|]. split; [by constructor|]. split; [done|].
    rewrite pow32_S by lia. nia.
Qed.

Lemma carry_store hd m c fuel :
  u32 c -> (2 <= fuel)%nat ->
  SmallNat.carry_loop (Er := Er) fuel (hd ++ replicate (S m) 0) c (len hd) = Ok (hd ++ c :: replicate m 0).
Proof.
  intros Hc Hf. destruct fuel as [|[|fuel]]; [lia..|]. cbn [SmallNat.carry_loop].
  destruct (Z.eqb_spec c 0) as [->|]; [done|]. cbn [replicate].
  destruct (Z.eqb_spec (len hd) (len (hd ++ 0 :: replicate m 0))) as [He|_].
  { rewrite len_app, len_cons in He. pose proof (len_nonneg (replicate m 0)). lia. }
  rewrite index_middle by done. unfold in_u in Hc. cbn [unwrap obind]. rewrite Z.add_0_l, u128_Ok by lia.
  cbn [obind]. rewrite uwrap_id by done. rewrite store_middle by done. cbn [obind].
  rewrite Z.shiftr_div_pow2, Z.div_small by lia. done.
Qed.

Lemma mul_row_spec rs (i : nat) lhs hd m :
  length hd = (i + length rs)%nat -> u32 lhs -> Forall u32 rs -> Forall u32 hd ->
  exists hd', SmallNat.mul_row (Er := Er) rs (hd ++ replicate (S m) 0) (Z.of_nat i, lhs) = Ok (hd' ++ replicate m 0) /\
    length hd' = S (length hd) /\ Forall u32 hd' /\
    lval hd' = lval hd + 2 ^ (32 * Z.of_nat i) * (lhs * lval rs).
Proof.
  intros Hl Hlhs Hrs Hhd. set (lo := take i hd). set (mid := drop i hd).
  assert (Ehd : hd = lo ++ mid) by (unfold lo, mid; by rewrite take_drop).
  assert (Llo : length lo = i) by (unfold lo; rewrite length_take; lia).
  assert (Lmid : length mid = length rs) by (unfold mid; rewrite length_drop; lia).
  rewrite Ehd in Hhd. apply Forall_app in Hhd as [Flo Fmid]. rewrite Ehd.
  destruct (row_loop lhs (Z.of_nat i) rs Hlhs Hrs lo mid (replicate (S m) 0) 0 0) as
    (mid' & c & Hf & Lm' & Fm' & Hc & Hv); [unfold len; lia|done|done|done|].
  unfold SmallNat.mul_row. rewrite <-app_assoc. unfold enumerate, range. rewrite Hf. cbn [obind].
  exists ((lo ++ mid') ++ [c]).
  replace (Z.of_nat i + len rs) with (len (lo ++ mid')) by (unfold len; rewrite length_app; lia).
  rewrite app_assoc, carry_store by (done || (rewrite length_app; cbn; lia)).
  split; [by rewrite <-(app_assoc (lo ++ mid'))|]. rewrite !length_app. cbn [length].
  split; [lia|]. split; [by repeat apply Forall_app_2; [..|by constructor]|].
  rewrite !lval_app, len_app. unfold len in *. rewrite Lm', Lmid, Llo in *. cbn [lval].
  replace (32 * (Z.of_nat i + Z.of_nat (length rs))) with (32 * Z.of_nat i + 32 * Z.of_nat (length rs)) by ring.
  rewrite Z.pow_add_r by lia. set (P := 2 ^ (32 * Z.of_nat i)) in *. set (Q := 2 ^ (32 * Z.of_nat (length rs))) in *.
  transitivity (lval lo + P * (lval mid' + Q * c)); [ring|]. rewrite Hv. ring.
Qed.

Lemma rows_loop rs : Forall u32 rs -> forall ls (i : nat) hd m,
  length hd = (i + length rs)%nat -> m = length ls -> Forall u32 ls -> Forall u32 hd ->
  exists o, ofold (SmallNat.mul_row (Er := Er) rs) (zip (seqZ (Z.of_nat i) (len ls)) ls) (hd ++ replicate m 0) = Ok o /\
    length o = (length hd + length ls)%nat /\ Forall u32 o /\
    lval o = lval hd + 2 ^ (32 * Z.of_nat i) * (lval ls * lval rs).
Proof.
  intros Hrs. induction ls as [|l ls IH]; intros i hd m Hl -> Hls Hhd.
  - exists hd. cbn [length replicate lval]. rewrite app_nil_r. split; [done|]. split; [lia|]. split; [done|]. lia.
  - apply Forall_cons_iff in Hls as [Hx Hls]. pose proof (len_nonneg ls).
    rewrite len_cons, seqZ_cons by lia. replace (Z.pred (len ls + 1)) with (len ls) by lia.
    cbn [zip zip_with ofold length].
    destruct (mul_row_spec rs i l hd (length ls) Hl Hx Hrs Hhd) as (hd' & -> & Hl' & Hf' & Hv').
    cbn [obind]. destruct (IH (S i) hd' (length ls)) as (o & Ho & Hlo & Hfo & Hvo); [lia|done..|].
    replace (Z.succ (Z.of_nat i)) with (Z.of_nat (S i)) by lia. exists o. split; [exact Ho|].
    split; [lia|]. split; [done|]. rewrite Hvo, Hv'. cbn [lval].
    replace (32 * Z.of_nat (S i)) with (32 * (Z.of_nat i + 1)) by lia. rewrite pow32_S by lia. ring.
Qed.

(** No leading zero limb. *)
Definition normal (l : list Z) : Prop :=
  Forall u32 l /\ l <> [] /\ (length l = 1%nat \/ 2 ^ (32 * (len l - 1)) <= lval l).

Lemma pop_zeros_spec l :
  Forall u32 l -> l <> [] ->
  normal (reverse (SmallNat.pop_zeros l)) /\ lval (reverse (SmallNat.pop_zeros l)) = lval (reverse l).
Proof.
  induction l as [|x [|y l] IH]; intros Hf Hne; [done|cbn; split; [split; [done|split; [done|by left]]|done]|].
  apply Forall_cons_iff in Hf as [Hx Hf]. change (SmallNat.pop_zeros (x :: y :: l))
    with (if x =? 0 then SmallNat.pop_zeros (y :: l) else x :: y :: l).
  destruct (Z.eqb_spec x 0) as [->|Hx0].
  - destruct (IH Hf) as [Hn Hv]; [done|]. split; [done|]. rewrite Hv, (reverse_cons (y :: l)), lval_app. cbn [lval]. lia.
  - split; [|done]. split; [by apply Forall_reverse; constructor|]. split; [by intros He%(f_equal length); rewrite length_reverse in He|].
    right. rewrite (reverse_cons (y :: l)), lval_app. unfold len. rewrite length_app, !length_reverse.
    change (length [x]) with 1%nat. replace (Z.of_nat (length (y :: l) + 1) - 1) with (Z.of_nat (length (y :: l))) by lia.
    cbn [lval]. unfold in_u in Hx. pose proof (lval_bound (reverse (y :: l)) ltac:(by apply Forall_reverse)).
    pose proof (pow2_pos (32 * Z.of_nat (length (y :: l))) ltac:(lia)). nia.
Qed.

Lemma mul_u128_spec self rhs :
  normal (SmallNat.limbs self) -> 0 <= rhs < 2 ^ 128 ->
  exists r, SmallNat.mul_u128 (Er := Er) self rhs = Ok r /\ normal (SmallNat.limbs r) /\
    lval (SmallNat.limbs r) = lval (SmallNat.limbs self) * rhs.
Proof.
  intros (Hf & Hne & _) Hr. unfold SmallNat.mul_u128. destruct (Z.eqb_spec rhs 0) as [->|Hr0].
  { eexists. split; [done|]. cbn. split; [|lia]. split; [by repeat constructor|]. split; [done|by left]. }
  destruct (split_limbs_spec 4 rhs) as (rs & -> & Frs & Vrs); [lia|]. cbn [obind].
  destruct (rows_loop rs Frs (SmallNat.limbs self) 0 (replicate (length rs) 0) (length (SmallNat.limbs self)))
    as (o & Ho & Lo & Fo & Vo); [by rewrite length_replicate|done|done|apply Forall_zeros|].
  rewrite Nat.add_comm, replicate_add. unfold enumerate, range. change (Z.of_nat 0) with 0 in Ho. rewrite Ho. cbn [obind].
  eexists. split; [done|]. cbn [SmallNat.limbs].
  assert (Hro : reverse o <> []).
  { intros He%(f_equal length). rewrite length_reverse, Lo in He. destruct (SmallNat.limbs self); [done|]. cbn in He. lia. }
  destruct (pop_zeros_spec (reverse o) ltac:(by apply Forall_reverse) Hro) as [Hn Hv]. split; [done|].
  rewrite Hv, reverse_involutive, Vo, lval_zeros, Vrs. cbn. lia.
Qed.
End products.

(** ** Order *)

Lemma lex_cmp_spec a b :
  length a = length b -> Forall u32 a -> Forall u32 b ->
  SmallNat.lex_cmp a b = (lval (reverse a) ?= lval (reverse b)).
Proof.
  intros Hl Ha. revert b Hl. induction Ha as [|x a Hx Fa IH]; intros [|y b] Hl Hb; try done.
  apply Forall_cons_iff in Hb as [Hy Fb]. cbn [SmallNat.lex_cmp].
  rewrite !reverse_cons, !lval_app. unfold len. rewrite !length_reverse. cbn [lval]. injection Hl as Hl. rewrite <-Hl.
  pose proof (lval_bound (reverse a) ltac:(by apply Forall_reverse)) as Ba.
  pose proof (lval_bound (reverse b) ltac:(by apply Forall_reverse)) as Bb.
  unfold len in Ba, Bb. rewrite length_reverse in Ba, Bb. rewrite <-Hl in Bb.
  destruct (Z.compare_spec x y) as [->|Hlt|Hgt].
  - rewrite IH by done. symmetry. rewrite !(Z.add_comm (lval _)). apply Zcompare_plus_compat.
  - symmetry. apply Z.compare_lt_iff. nia.
  - symmetry. apply Z.compare_gt_iff. nia.
Qed.

Lemma cmp_spec a b :
  normal (SmallNat.limbs a) -> normal (SmallNat.limbs b) ->
  SmallNat.cmp a b = (lval (SmallNat.limbs a) ?= lval (SmallNat.limbs b)).
Proof.
  intros (Fa & Na & Ta) (Fb & Nb & Tb). unfold SmallNat.cmp. destruct a as [a], b as [b]; cbn [SmallNat.limbs] in *.
  pose proof (lval_bound a Fa) as Ba. pose proof (lval_bound b Fb) as Bb.
  assert (H1 : forall l : list Z, l <> [] -> 1 <= len l) by (intros [|? l] ?; [done|unfold len; cbn; lia]).
  pose proof (H1 a Na). pose proof (H1 b Nb).
  destruct (Z.compare_spec (len a) (len b)) as [He|Hlt|Hgt].
  - rewrite lex_cmp_spec by (rewrite ?length_reverse; unfold len in He; lia || by apply Forall_reverse).
    by rewrite !reverse_involutive.
  - symmetry. apply Z.compare_lt_iff. destruct Tb as [Tb|Tb]; [unfold len in *; lia|].
    pose proof (Z.pow_le_mono_r 2 (32 * len a) (32 * (len b - 1)) ltac:(lia) ltac:(lia)). lia.
  - symmetry. apply Z.compare_gt_iff. destruct Ta as [Ta|Ta]; [unfold len in *; lia|].
    pose proof (Z.pow_le_mono_r 2 (32 * len b) (32 * (len a - 1)) ltac:(lia) ltac:(lia)). lia.
Qed.

(** * The capacity predicate *)

Section capacity.
Context {Er : Type} `{BuildMode}.

(** [c] holds the product [n]. *)
Definition holds (s : SmallNat.t) (n : Z) : Prop := normal (SmallNat.limbs s) /\ lval (SmallNat.limbs s) = n.

Lemma holds_one : holds SmallNat.one 1.
Proof. split; [|done]. split; [by repeat constructor|]. split; [done|by left]. Qed.

Lemma holds_mul s n m : holds s n -> in_u 128 m ->
  exists r, SmallNat.mul_u128 (Er := Er) s m = Ok r /\ holds r (n * m).
Proof.
  intros [Hn <-] Hm. destruct (mul_u128_spec (Er := Er) s m Hn Hm) as (r & -> & Hr & Hv).
  by exists r.
Qed.

Lemma holds_product ms s n : holds s n -> Forall (in_u 128) ms ->
  exists r, ofold (SmallNat.mul_u128 (Er := Er)) ms s = Ok r /\ holds r (n * checked.Zprod ms).
Proof.
  intros Hs Hms. revert s n Hs. induction Hms as [|m ms Hm _ IH]; intros s n Hs.
  - exists s. cbn [checked.Zprod foldr]. by rewrite Z.mul_1_r.
  - destruct (holds_mul s n m Hs Hm) as (r & Hr & Hhr). cbn [ofold]. rewrite Hr. cbn [obind].
    destruct (IH r (n * m) Hhr) as (r' & -> & Hr'). exists r'. split; [done|].
    cbn [checked.Zprod foldr] in *. by rewrite Z.mul_assoc.
Qed.

Lemma holds_lt a b n m : holds a n -> holds b m -> SmallNat.lt a b = (n <? m).
Proof. intros [Na <-] [Nb <-]. unfold SmallNat.lt. rewrite cmp_spec by done. done. Qed.

Definition capacity (c : CrtCapacity.t) (n : Z) : Prop := holds (CrtCapacity.product c) n.

Lemma from_prime_moduli_spec ms : Forall (in_u 128) ms ->
  exists c, CrtCapacity.from_prime_moduli (Er := Er) ms = Ok c /\ capacity c (checked.Zprod ms).
Proof.
  intros Hms. destruct (holds_product ms _ 1 holds_one Hms) as (r & Hr & Hh).
  unfold CrtCapacity.from_prime_moduli. rewrite Hr. rewrite Z.mul_1_l in Hh. by eexists.
Qed.

Lemma with_prime_modulus_spec c n m : capacity c n -> in_u 128 m ->
  exists c', CrtCapacity.with_prime_modulus (Er := Er) c m = Ok c' /\ capacity c' (n * m).
Proof.
  intros Hc Hm. destruct (holds_mul _ _ _ Hc Hm) as (r & Hr & Hh).
  unfold CrtCapacity.with_prime_modulus. rewrite Hr. by eexists.
Qed.

Lemma in_u_128 w z : w <= 128 -> in_u w z -> in_u 128 z.
Proof. intros Hw [H0 H1]. split; [done|]. pose proof (Z.pow_le_mono_r 2 w 128). lia. Qed.

Lemma supports_spec c n width D q b :
  capacity c n -> in_u 64 width -> in_u 64 D -> in_u 128 q -> in_u 64 b ->
  CrtCapacity.supports_modulus (Er := Er) c width D q b = Ok (2 * width * D * (q / 2) * b <? n).
Proof.
  intros Hc Hw HD Hq Hb. unfold CrtCapacity.supports_modulus.
  assert (Hq2 : in_u 128 (q / 2)) by (unfold in_u in *; pose proof (Z.div_lt_upper_bound q 2 (2 ^ 128)); pose proof (Z.div_pos q 2); lia).
  destruct (holds_mul SmallNat.one 1 2 holds_one ltac:(done)) as (r1 & -> & H1). cbn [obind].
  destruct (holds_mul r1 _ width H1 ltac:(by eapply in_u_128; [|exact Hw])) as (r2 & -> & H2). cbn [obind].
  destruct (holds_mul r2 _ D H2 ltac:(by eapply in_u_128; [|exact HD])) as (r3 & -> & H3). cbn [obind].
  destruct (holds_mul r3 _ _ H3 Hq2) as (r4 & -> & H4). cbn [obind].
  destruct (holds_mul r4 _ b H4 ltac:(by eapply in_u_128; [|exact Hb])) as (r5 & -> & H5). cbn [obind].
  f_equal. rewrite (holds_lt _ _ _ _ H5 Hc). do 2 f_equal.
Qed.

(** ** The width search *)

Section search.
Variables (f : Z -> bool) (supports : Z -> outcome Er bool).
Hypothesis supports_f : forall w, 1 <= w <= USIZE_MAX -> supports w = Ok (f w).

Lemma double_spec fuel k low :
  (1 <= k <= 63)%nat -> (64 - k <= fuel)%nat -> 1 <= low < 2 ^ Z.of_nat k -> f low = true ->
  exists l h all, CrtCapacity.double_width fuel supports low (2 ^ Z.of_nat k) = Ok (l, h, all) /\
    if (all : bool) then f USIZE_MAX = true else 1 <= l < h /\ h <= USIZE_MAX /\ f l = true /\ f h = false.
Proof.
  revert k low; induction fuel as [|fuel IH]; intros k low Hk Hf Hl Hlow; [lia|].
  cbn [CrtCapacity.double_width].
  assert (Hp : 2 ^ Z.of_nat k <= 2 ^ 63) by (apply Z.pow_le_mono_r; lia).
  assert (Hmax : USIZE_MAX = 2 ^ 64 - 1) by done.
  rewrite supports_f by lia. cbn [obind]. destruct (f (2 ^ Z.of_nat k)) eqn:Eh.
  2:{ exists low, (2 ^ Z.of_nat k), false. split; [done|]. repeat split; (done || lia). }
  unfold checked_mul, usize, checked_u. destruct (decide (k = 63%nat)) as [->|Hne].
  - change ((0 <=? 2 ^ Z.of_nat 63 * 2) && (2 ^ Z.of_nat 63 * 2 <? 2 ^ USIZE_BITS)) with false.
    cbv iota. rewrite supports_f by lia. cbn [obind]. destruct (f USIZE_MAX) eqn:Em.
    + by eexists _, _, true.
    + eexists _, _, false. split; [done|]. repeat split; (done || lia).
  - assert (Hs : 2 ^ Z.of_nat k * 2 = 2 ^ Z.of_nat (S k)).
    { rewrite Nat2Z.inj_succ, Z.pow_succ_r by lia. lia. }
    assert (Hs63 : 2 ^ Z.of_nat (S k) <= 2 ^ 63) by (apply Z.pow_le_mono_r; lia).
    assert (Hfit : (0 <=? 2 ^ Z.of_nat k * 2) && (2 ^ Z.of_nat k * 2 <? 2 ^ USIZE_BITS) = true).
    { unfold USIZE_BITS. apply andb_true_iff. rewrite Z.leb_le, Z.ltb_lt. lia. }
    rewrite Hfit, Hs. apply IH; [lia|lia| |done]. pose proof (pow2_pos (Z.of_nat k)). lia.
Qed.

Lemma bisect_spec fuel m low high :
  (m < fuel)%nat -> 1 <= low < high -> high <= USIZE_MAX -> high - low <= 2 ^ Z.of_nat m ->
  f low = true -> f high = false ->
  exists w, CrtCapacity.bisect_width fuel supports low high = Ok w /\ low <= w < high /\
    f w = true /\ f (w + 1) = false.
Proof.
  revert m low high; induction fuel as [|fuel IH]; intros m low high Hm Hl Hh Hd Hlow Hhigh; [lia|].
  cbn [CrtCapacity.bisect_width]. destruct (Z.ltb_spec (low + 1) high).
  2:{ exists low. replace high with (low + 1) in * by lia. repeat split; (done || lia). }
  destruct m as [|m]; [cbn in Hd; lia|]. rewrite Nat2Z.inj_succ, Z.pow_succ_r in Hd by lia.
  assert (Hmid : low < low + (high - low) / 2 < high /\ (high - low) / 2 <= 2 ^ Z.of_nat m /\
                 high - (low + (high - low) / 2) <= 2 ^ Z.of_nat m) by div_lia.
  set (mid := low + (high - low) / 2) in *. rewrite supports_f by lia. cbn [obind].
  destruct (f mid) eqn:Em.
  - destruct (IH m mid high) as (w & -> & Hw & H1 & H2); [lia|lia|lia|lia|done|done|]. exists w. repeat split; (done || lia).
  - destruct (IH m low mid) as (w & -> & Hw & H1 & H2); [lia|lia|lia|lia|done|done|]. exists w. repeat split; (done || lia).
Qed.

Lemma widest_spec : f 1 = true ->
  exists l h all, CrtCapacity.double_width 64 supports 1 2 = Ok (l, h, all) /\
    if (all : bool) then f USIZE_MAX = true
    else exists w, CrtCapacity.bisect_width 65 supports l h = Ok w /\ 1 <= w < USIZE_MAX /\ f w = true /\ f (w + 1) = false.
Proof.
  intros H1. destruct (double_spec 64 1 1) as (l & h & all & Hd & Hr); [lia|lia|done|done|]. exists l, h, all.
  split; [exact Hd|]. destruct all; [done|]. destruct Hr as (Hl & Hh & Fl & Fh).
  assert (HM : USIZE_MAX = 2 ^ 64 - 1) by done.
  destruct (bisect_spec 65 64 l h) as (w & Hw & Hb & Fw & Fw'); [lia|lia|lia|lia|done|done|].
  exists w. repeat split; (done || lia).
Qed.
End search.
End capacity.

(** * Theorems *)

Lemma width_monotone c n w w' : 0 <= c -> w' <= w -> (c * w <? n) = true -> (c * w' <? n) = true.
Proof. rewrite !Z.ltb_lt. intros. nia. Qed.

(** The multi-limb capacity arithmetic is exact: a profile supports a
    width exactly when [2 * width * D * floor(q / 2) * bound] is below the
    product of its primes, and the width search returns the largest supported
    [usize], so that a width is supported iff it is at most the result; it
    returns nothing only when no positive width is supported or the modulus
    or the dimension is degenerate. *)
Theorem crt_capacity_exact {Er} `{BuildMode} primes D q b :
  Forall (fun p => 0 < p < 2 ^ 128) primes -> in_u 64 D -> in_u 128 q -> in_u 64 b ->
  exists c r,
    CrtCapacity.from_prime_moduli (Er := Er) primes = Ok c /\
    CrtCapacity.max_safe_width_for_modulus (Er := Er) c D q b = Ok r /\
    let exact w := 2 * w * D * (q / 2) * b <? checked.Zprod primes in
    (forall w, in_u 64 w -> CrtCapacity.supports_modulus (Er := Er) c w D q b = Ok (exact w)) /\
    match r with
    | Some widest => forall w, in_u 64 w -> exact w = (w <=? widest)
    | None => q <= 1 \/ D = 0 \/ forall w, 1 <= w -> exact w = false
    end.
Proof.
  intros Hp HD Hq Hb.
  destruct (from_prime_moduli_spec (Er := Er) primes) as (c & Hc & Cc).
  { eapply list.Forall_impl; [exact Hp|]. unfold in_u. cbn beta. lia. }
  assert (Hpos : 0 < checked.Zprod primes).
  { clear Hc Cc. induction Hp as [|p l Hp0 _ IH]; [done|]. cbn [checked.Zprod foldr]. fold (checked.Zprod l). nia. }
  set (exact w := 2 * w * D * (q / 2) * b <? checked.Zprod primes).
  assert (Hex : forall w, in_u 64 w -> CrtCapacity.supports_modulus (Er := Er) c w D q b = Ok (exact w))
    by (intros w Hw; by apply supports_spec).
  assert (HM : USIZE_MAX = 2 ^ 64 - 1) by done. unfold in_u in *.
  assert (Hmono : forall w w', w' <= w -> exact w = true -> exact w' = true).
  { intros w w' Hw. unfold exact. replace (2 * w * D * (q / 2) * b) with (2 * D * (q / 2) * b * w) by ring.
    replace (2 * w' * D * (q / 2) * b) with (2 * D * (q / 2) * b * w') by ring.
    apply width_monotone; [|done]. pose proof (Z.div_pos q 2 ltac:(lia) ltac:(lia)). nia. }
  assert (Hall : exact USIZE_MAX = true -> forall w, 0 <= w < 2 ^ 64 -> exact w = (w <=? USIZE_MAX)).
  { intros He w Hw. destruct (Z.leb_spec w USIZE_MAX); [|lia]. by apply (Hmono USIZE_MAX). }
  exists c. unfold CrtCapacity.max_safe_width_for_modulus. destruct (Z.eqb_spec b 0) as [->|Hb0].
  { eexists. split; [done|]. split; [done|]. split; [done|]. apply Hall. unfold exact. apply Z.ltb_lt. lia. }
  destruct (Z.leb_spec q 1) as [Hq1|Hq1].
  { eexists. split; [done|]. split; [done|]. split; [done|]. by left. }
  destruct (Z.eqb_spec D 0) as [HD0|HD0].
  { eexists. split; [done|]. split; [done|]. split; [done|]. right; by left. }
  cbn [orb]. rewrite Hex by lia. cbn [omapr]. destruct (exact 1) eqn:E1; cbn [negb obind].
  2:{ eexists. split; [done|]. split; [done|]. split; [done|]. do 2 right. intros w Hw.
      destruct (exact w) eqn:Ew; [|done]. by rewrite (Hmono w 1 Hw Ew) in E1. }
  destruct (widest_spec exact (fun w => CrtCapacity.supports_modulus (Er := Er) c w D q b)) as (l & h & all & -> & Hw);
    [intros w Hw; apply Hex; lia|done|]. cbn [obind]. destruct all.
  { eexists. split; [done|]. split; [done|]. split; [done|]. by apply Hall. }
  destruct Hw as (w & -> & Bw & Ew & Ew'). cbn [omapr]. eexists. split; [done|]. split; [done|]. split; [done|].
  intros w' Hw'. destruct (Z.leb_spec w' w); [by apply (Hmono w)|].
  destruct (exact w') eqn:E'; [|done]. rewrite (Hmono w' (w + 1)) in Ew'; [done|lia|done].
Qed.

Section witnesses.
#[local] Instance mode : BuildMode := true.

(** The moduli of the profile [Q32], extended by the tail prime. *)
Lemma crt_capacity_exact_witness :
  exists c r, CrtCapacity.from_prime_moduli (Er := unit) [1073692673; 1073668097; 12289] = Ok c /\
    CrtCapacity.max_safe_width_for_modulus (Er := unit) c 128 (2 ^ 32 - 99) 32768 = Ok r /\
    (forall w, in_u 64 w -> CrtCapacity.supports_modulus (Er := unit) c w 128 (2 ^ 32 - 99) 32768
       = Ok (2 * w * 128 * ((2 ^ 32 - 99) / 2) * 32768 <? checked.Zprod [1073692673; 1073668097; 12289])) /\
    match r with
    | Some widest => forall w, in_u 64 w ->
        (2 * w * 128 * ((2 ^ 32 - 99) / 2) * 32768 <? checked.Zprod [1073692673; 1073668097; 12289]) = (w <=? widest)
    | None => 2 ^ 32 - 99 <= 1 \/ 128 = 0 \/ forall w, 1 <= w ->
        (2 * w * 128 * ((2 ^ 32 - 99) / 2) * 32768 <? checked.Zprod [1073692673; 1073668097; 12289]) = false
    end.
Proof.
  apply (crt_capacity_exact (Er := unit) [1073692673; 1073668097; 12289] 128 (2 ^ 32 - 99) 32768);
    [repeat constructor; lia|done..].
Defined.

Example q32_tail_width :
  (let* c := CrtCapacity.from_prime_moduli (Er := unit) [1073692673; 1073668097; 12289] in
   CrtCapacity.max_safe_width_for_modulus c 128 (2 ^ 32 - 99) 32768) = Ok (Some 786406).
Proof. vm_compute. reflexivity. Qed.
End witnesses.
