(* ===== verification/Garner.v ===== *)
(** Garner reconstruction of [akita-algebra/src/ntt/crt.rs]: modular inverses,
    the table of inverses, centered mixed-radix digits. *)

From Stdlib Require Import Zmod.
From S2P Require Import Prelude Checked Decomposition Montgomery.

(** * Garner reconstruction *)

(** [rem_euclid] on [i128]: a zero modulus panics. *)
Definition rem_euclid_i128 {Er} (value modulus : Z) : outcome Er Z :=
  let* _ := assert (negb (modulus =? 0)) in Ok (value mod Z.abs modulus).

Definition center_mod {Er} `{BuildMode} (value modulus : Z) : outcome Er Z :=
  let* value := rem_euclid_i128 value modulus in
  if Z.quot modulus 2 <? value then i128 (value - modulus) else Ok value.

(** The loop of [modular_inverse]. *)
Fixpoint euclid_loop {Er} `{BuildMode} (fuel : nat) (old_remainder remainder old_coefficient coefficient : Z)
    : outcome Er (Z * Z) :=
  match fuel with
  | O => Panic
  | S fuel =>
      if remainder =? 0 then Ok (old_remainder, old_coefficient)
      else
        let* quotient := i128 (Z.quot old_remainder remainder) in
        let* qr := i128 (quotient * remainder) in
        let* r := i128 (old_remainder - qr) in
        let* qc := i128 (quotient * coefficient) in
        let* c := i128 (old_coefficient - qc) in
        euclid_loop fuel remainder r coefficient c
  end.

Definition modular_inverse `{BuildMode} (value modulus : Z) : result Z :=
  let* (old_remainder, old_coefficient) := euclid_loop 131 modulus value 0 1 in
  if negb (old_remainder =? 1) then Err (InvalidSetup "CRT primes are not pairwise coprime")
  else
    let* r := rem_euclid_i128 old_coefficient modulus in
    Ok (uwrap 64 r).

Module GarnerData.
Record t := mk { gamma : list (list Z) }.

Section ops.
Context `{BuildMode}.

(** [gamma[i][j] = modular_inverse(moduli[j] % pi, pi)?] *)
Definition set_entry (moduli : list Z) (i pi : Z) (gamma : list (list Z)) (j : Z) : result (list (list Z)) :=
  let* pj := unwrap (index moduli j) in
  let* _ := assert (negb (pi =? 0)) in
  let* inverse := modular_inverse (Z.rem pj pi) pi in
  let* row := unwrap (index gamma i) in
  let* row := store row j inverse in
  store gamma i row.

Definition set_row (moduli : list Z) (gamma : list (list Z)) (i : Z) : result (list (list Z)) :=
  let* pi := unwrap (index moduli i) in
  ofold (set_entry moduli i pi) (range i) gamma.

Definition try_from_moduli (moduli : list Z) : result t :=
  let K := len moduli in
  let zeros := replicate (length moduli) (replicate (length moduli) 0) in
  let* gamma := ofold (set_row moduli) (seqZ 1 (K - 1)) zeros in
  Ok (mk gamma).

(** [.expect("CRT primes must be pairwise coprime")] *)
Definition compute {Er} (primes : list NttPrime) : outcome Er t :=
  match try_from_moduli (map (fun prime => uwrap 64 (p prime)) primes) with
  | Ok data => Ok data
  | _ => Panic
  end.

(** Removing one earlier digit from the residue. *)
Definition mix_step {Er} (self : t) (idx modulus : Z) (digit : Z) (pd : Z * Z) : outcome Er Z :=
  let '(prior, prior_digit) := pd in
  let* d := i128 (digit - prior_digit) in
  let* digit := rem_euclid_i128 d modulus in
  let* row := unwrap (index (gamma self) idx) in
  let* g := unwrap (index row prior) in
  let* m := i128 (digit * g) in
  rem_euclid_i128 m modulus.

Definition mix_digit {Er} (self : t) (residues moduli : list Z) (digits : list Z) (idx : Z) : outcome Er (list Z) :=
  let* modulus := unwrap (index moduli idx) in
  let* residue := unwrap (index residues idx) in
  let* digit := rem_euclid_i128 residue modulus in
  let* digit := ofold (mix_step self idx modulus) (take (Z.to_nat idx) (enumerate digits)) digit in
  let* d := center_mod digit modulus in
  store digits idx d.

Definition centered_mixed_radix {Er} (self : t) (residues moduli : list Z) : outcome Er (list Z) :=
  let K := len moduli in
  let digits := replicate (length moduli) 0 in
  if K =? 0 then Ok digits
  else
    let* first_modulus := unwrap (index moduli 0) in
    let* r0 := unwrap (index residues 0) in
    let* d0 := center_mod r0 first_modulus in
    let* digits := store digits 0 d0 in
    ofold (mix_digit self residues moduli) (seqZ 1 (K - 1)) digits.
End ops.
End GarnerData.

(** * Modular inverses *)

Lemma i128_fits_ok {Er} `{BuildMode} z : - 2 ^ 127 <= z < 2 ^ 127 -> i128 (Er := Er) z = Ok z.
Proof.
  intros Hz. unfold i128. destruct (Z.leb_spec (- 2 ^ 127) z), (Z.ltb_spec z (2 ^ 127)); try lia. done.
Qed.

Lemma rem_euclid_Ok {Er} value modulus : 0 < modulus -> rem_euclid_i128 (Er := Er) value modulus = Ok (value mod modulus).
Proof.
  intros Hm. unfold rem_euclid_i128. destruct (Z.eqb_spec modulus 0); [lia|]. cbn [negb assert obind].
  by rewrite Z.abs_eq by lia.
Qed.

Section inverse.
Context `{BuildMode}.
Variables m v : Z.
Hypothesis m_range : 0 < m < 2 ^ 64.

(** Between two iterations: both remainders are multiples of [v], their
    greatest common divisor is kept and the coefficients alternate in sign. *)
Record euclid_inv (old_r r old_c c : Z) : Prop := {
  ei_range : 0 <= old_r < 2 ^ 64 /\ 0 <= r < 2 ^ 64;
  ei_old : cong m old_r (v * old_c);
  ei_cur : cong m r (v * c);
  ei_gcd : Z.gcd old_r r = Z.gcd m v;
  ei_sign : exists s, 0 <= s * c /\ 0 <= - s * old_c /\ s * c * old_r + - s * old_c * r = m /\ (s = 1 \/ s = -1);
}.

Lemma euclid_step fuel old_r r old_c c :
  euclid_inv old_r r old_c c -> 0 < r ->
  euclid_loop (Er := AkitaError) (S fuel) old_r r old_c c
    = euclid_loop fuel r (old_r mod r) c (old_c - old_r / r * c) /\
  euclid_inv r (old_r mod r) c (old_c - old_r / r * c).
Proof.
  intros [[Ho Hr] Co Cc Hg (s & Hc & Hoc & Hdet & Hs)] Hpos.
  pose proof (Z.div_mod old_r r ltac:(lia)) as Hdm. pose proof (Z.mod_pos_bound old_r r Hpos) as Hm.
  pose proof (Z.div_pos old_r r ltac:(lia) Hpos) as Hq. set (q := old_r / r) in *. set (r' := old_r mod r) in *.
  assert (Hdet' : - s * (old_c - q * c) * r + s * c * r' = m) by nia.
  assert (Hqc : 0 <= q * (s * c) <= m) by nia.
  assert (Hocm : - s * old_c <= m) by nia.
  split.
  - cbn [euclid_loop]. destruct (Z.eqb_spec r 0); [lia|]. rewrite Z.quot_div_nonneg by lia. fold q.
    assert (q <= old_r) by nia. rewrite i128_fits_ok by lia. cbn [obind].
    rewrite (i128_fits_ok (q * r)) by lia. cbn [obind]. rewrite (i128_fits_ok (old_r - q * r)) by lia. cbn [obind].
    assert (- m <= q * c <= m) by (destruct Hs as [-> | ->]; lia).
    assert (- m <= old_c <= m) by (destruct Hs as [-> | ->]; lia).
    rewrite (i128_fits_ok (q * c)) by lia. cbn [obind]. rewrite (i128_fits_ok (old_c - q * c)) by lia. cbn [obind].
    f_equal. lia.
  - constructor; [lia|done| |rewrite <-Hg|].
    + replace r' with (old_r - q * r) by lia. rewrite Co, Cc. exists 0. ring.
    + unfold r'. rewrite Z.gcd_comm, Z.gcd_mod by lia. apply Z.gcd_comm.
    + exists (- s). repeat split; nia.
Qed.

Lemma euclid_spec n fuel old_r r old_c c :
  (2 * n < fuel)%nat -> r < 2 ^ Z.of_nat n -> euclid_inv old_r r old_c c ->
  exists x, euclid_loop (Er := AkitaError) fuel old_r r old_c c = Ok (Z.gcd m v, x) /\ cong m (Z.gcd m v) (v * x).
Proof.
  assert (Hend : forall fuel old_r old_c c, euclid_inv old_r 0 old_c c ->
    exists x, euclid_loop (Er := AkitaError) (S fuel) old_r 0 old_c c = Ok (Z.gcd m v, x) /\ cong m (Z.gcd m v) (v * x)).
  { intros fl o oc c' [Ho Co _ Hg _]. rewrite Z.gcd_0_r, Z.abs_eq in Hg by lia. exists oc. rewrite <-Hg. done. }
  revert fuel old_r r old_c c; induction n as [|n IH]; intros fuel old_r r old_c c Hf Hr Hi;
    pose proof (ei_range _ _ _ _ Hi) as [_ Hr0]; (destruct fuel as [|fuel]; [lia|]).
  - cbn in Hr. replace r with 0 in * by lia. by apply Hend.
  - destruct (decide (r = 0)) as [->|Hne]; [by apply Hend|].
    destruct (euclid_step fuel _ _ _ _ Hi) as [-> Hi']; [lia|]. destruct fuel as [|fuel]; [lia|].
    pose proof (Z.mod_pos_bound old_r r ltac:(lia)) as Hb.
    destruct (decide (old_r mod r = 0)) as [He|Hne']; [rewrite He in *; by apply Hend|].
    destruct (euclid_step fuel _ _ _ _ Hi') as [-> Hi'']; [lia|]. apply IH; [lia| |done].
    rewrite Nat2Z.inj_succ, Z.pow_succ_r in Hr by lia.
    pose proof (Z.div_mod r (old_r mod r) ltac:(lia)). pose proof (Z.mod_pos_bound r (old_r mod r) ltac:(lia)).
    assert (1 <= r / (old_r mod r)) by (apply Z.div_le_lower_bound; lia). nia.
Qed.

Hypothesis v_range : 0 <= v < 2 ^ 64.

Lemma modular_inverse_spec :
  if Z.gcd v m =? 1
  then exists x, modular_inverse v m = Ok x /\ 0 <= x < m /\ cong m (v * x) 1
  else modular_inverse v m = Err (InvalidSetup "CRT primes are not pairwise coprime").
Proof.
  destruct (euclid_spec 64 131 m v 0 1) as (x & Hx & Cx); [lia|exact (proj2 v_range)| |].
  { constructor; [lia|exists 1; ring|exists 0; ring|done|]. exists 1. lia. }
  unfold modular_inverse. rewrite Hx. cbn [obind]. rewrite (Z.gcd_comm v m).
  destruct (Z.eqb_spec (Z.gcd m v) 1) as [Hg|]; [|done]. cbn [negb].
  rewrite rem_euclid_Ok by lia. cbn [obind]. pose proof (Z.mod_pos_bound x m ltac:(lia)).
  rewrite uwrap_id by (unfold in_u; lia). eexists. split; [done|]. split; [lia|].
  rewrite <-Hg, Cx. by rewrite mod_cong by lia.
Qed.
End inverse.

(** * Garner's algorithm *)

(** Replacing an entry of a table. *)
Definition entry (g : list (list Z)) (i j : Z) : option Z := index g i ≫= fun row => index row j.
Definition square (n : nat) (g : list (list Z)) : Prop := length g = n /\ Forall (fun row => length row = n) g.

Section table.
Context `{BuildMode}.
Variable ms : list Z.
Hypothesis ms_range : Forall (fun m => 1 < m < 2 ^ 63) ms.
Abbreviation K := (length ms).

Definition coprime_before (i : Z) : Prop :=
  forall i' j pi pj, 0 <= j < i' -> i' < i -> index ms i' = Some pi -> index ms j = Some pj -> Z.gcd pj pi = 1.
Definition coprime_moduli : Prop := coprime_before (len ms).

Definition good_entry (g : list (list Z)) (i j : Z) : Prop :=
  forall pi pj, index ms i = Some pi -> index ms j = Some pj ->
  exists x, entry g i j = Some x /\ 0 <= x < pi /\ cong pi (pj * x) 1.

Definition rows_good (i : Z) (g : list (list Z)) : Prop :=
  square K g /\ coprime_before i /\ forall i' j, 0 <= j < i' -> i' < i -> good_entry g i' j.

Lemma modulus_range i m : index ms i = Some m -> 1 < m < 2 ^ 63.
Proof.
  intros Hm. unfold index in Hm. destruct (0 <=? i); [|done]. by apply (list.Forall_lookup_1 _ _ _ _ ms_range) in Hm.
Qed.

Lemma set_entry_spec i pi g j :
  0 <= j < i -> index ms i = Some pi -> square K g ->
  (exists g' pj, GarnerData.set_entry ms i pi g j = Ok g' /\ square K g' /\ index ms j = Some pj /\ Z.gcd pj pi = 1 /\
     good_entry g' i j /\ forall i' j', (i', j') <> (i, j) -> entry g' i' j' = entry g i' j') \/
  exists e, GarnerData.set_entry ms i pi g j = Err e /\ ~ coprime_moduli.
Proof.
  intros Hj Hpi [Hsq Hrows]. pose proof (index_Some_len _ _ _ Hpi) as Hi.
  destruct (index_is_Some ms j) as [pj Hpj]; [lia|].
  pose proof (modulus_range _ _ Hpi) as Bi. pose proof (modulus_range _ _ Hpj) as Bj.
  assert (E63 : 2 ^ 63 < 2 ^ 64) by done.
  unfold GarnerData.set_entry. rewrite Hpj. cbn [unwrap obind]. destruct (Z.eqb_spec pi 0); [lia|].
  cbn [negb assert obind]. rewrite Z.rem_mod_nonneg by lia. pose proof (Z.mod_pos_bound pj pi ltac:(lia)).
  pose proof (modular_inverse_spec pi (pj mod pi) ltac:(lia) ltac:(lia)) as Hinv.
  rewrite Z.gcd_mod, Z.gcd_comm in Hinv by lia. destruct (Z.eqb_spec (Z.gcd pj pi) 1) as [Hg|Hg].
  2:{ right. rewrite Hinv. eexists. split; [done|]. intros Hc. apply Hg. apply (Hc i j); (done || lia). }
  left. destruct Hinv as (x & -> & Bx & Cx). cbn [obind].
  destruct (index_is_Some g i) as [row Hrow]; [unfold len in *; lia|]. rewrite Hrow. cbn [unwrap obind].
  assert (Lrow : length row = K).
  { unfold index in Hrow. destruct (0 <=? i); [|done]. by apply (list.Forall_lookup_1 _ _ _ _ Hrows) in Hrow. }
  rewrite store_insert by (unfold len in *; lia). cbn [obind]. rewrite store_insert by (unfold len in *; lia).
  exists (<[Z.to_nat i:=<[Z.to_nat j:=x]> row]> g), pj. split; [done|].
  assert (Hent : forall i' j', entry (<[Z.to_nat i:=<[Z.to_nat j:=x]> row]> g) i' j'
                               = if (i' =? i) && (j' =? j) then Some x else entry g i' j').
  { intros i' j'. unfold entry. rewrite index_insert by (unfold len in *; lia).
    destruct (Z.eqb_spec i' i) as [->|]; cbn [andb mbind option_bind]; [|done].
    rewrite index_insert by (unfold len in *; lia). by rewrite Hrow. }
  split; [split; [by rewrite length_insert|]|].
  { apply list.Forall_insert; [done|]. by rewrite length_insert. }
  do 2 (split; [done|]). split.
  - intros pi' pj' Hpi' Hpj'. rewrite Hpi in Hpi'. rewrite Hpj in Hpj'. injection Hpi' as <-. injection Hpj' as <-.
    exists x. rewrite Hent, !Z.eqb_refl. split; [done|]. split; [done|]. rewrite <-Cx. by rewrite mod_cong by lia.
  - intros i' j' Hne. rewrite Hent. destruct (Z.eqb_spec i' i) as [->|], (Z.eqb_spec j' j) as [->|]; done.
Qed.

Lemma set_row_spec g i :
  1 <= i < len ms -> rows_good i g ->
  (exists g', GarnerData.set_row ms g i = Ok g' /\ rows_good (i + 1) g') \/
  exists e, GarnerData.set_row ms g i = Err e /\ ~ coprime_moduli.
Proof.
  intros Hi (Hsq & Hcop & Hgood). destruct (index_is_Some ms i) as [pi Hpi]; [lia|].
  unfold GarnerData.set_row. rewrite Hpi. cbn [unwrap obind]. unfold range.
  set (I := fun j g' => square K g' /\
    (forall j' pj, 0 <= j' < j -> index ms j' = Some pj -> Z.gcd pj pi = 1 /\ good_entry g' i j') /\
    forall i' j', i' <> i -> entry g' i' j' = entry g i' j').
  destruct (ofold_seqZ_try I (fun _ => ~ coprime_moduli) (GarnerData.set_entry ms i pi) 0 i g)
    as [(g' & -> & Hs' & Hrow & Hold)|(e & -> & Hc)]; [lia| | |left|right; by exists e].
  - split; [done|]. split; [lia|done].
  - intros j g1 Hj (Hs1 & Hr1 & Ho1).
    destruct (set_entry_spec i pi g1 j ltac:(lia) Hpi Hs1) as [(g2 & pj & -> & Hs2 & Hpj & Hg & Hnew & Hsame)|He]; [left|by right].
    exists g2. split; [done|]. split; [done|]. split.
    + intros j' pj' Hj' Hpj'. destruct (decide (j' = j)) as [->|Hne].
      { rewrite Hpj in Hpj'. by injection Hpj' as <-. }
      destruct (Hr1 j' pj' ltac:(lia) Hpj') as [Hg' He']. split; [done|].
      intros p1 p2 H1 H2. rewrite Hsame by congruence. by apply He'.
    + intros i' j' Hne. rewrite Hsame by congruence. by apply Ho1.
  - exists g'. split; [done|]. split; [done|]. split.
    + intros i' j p1 p2 Hj Hi' H1 H2. destruct (decide (i' = i)) as [->|Hne]; [|apply (Hcop i' j); (done || lia)].
      rewrite Hpi in H1. injection H1 as <-. by apply (Hrow j p2 ltac:(lia) H2).
    + intros i' j Hj Hi' p1 p2 H1 H2. destruct (decide (i' = i)) as [->|Hne].
      { destruct (Hrow j p2 ltac:(lia) H2) as [_ He]. by apply He. }
      rewrite Hold by done. apply (Hgood i' j); (done || lia).
Qed.

(** The table of inverses exists exactly for pairwise coprime moduli. *)
Lemma try_from_moduli_spec : ms <> [] ->
  (exists data, GarnerData.try_from_moduli ms = Ok data /\ rows_good (len ms) (GarnerData.gamma data)) \/
  exists e, GarnerData.try_from_moduli ms = Err e /\ ~ coprime_moduli.
Proof.
  intros Hne. assert (Hl : 1 <= len ms) by (destruct ms; [done|unfold len; cbn; lia]).
  unfold GarnerData.try_from_moduli.
  destruct (ofold_seqZ_try rows_good (fun _ => ~ coprime_moduli) (GarnerData.set_row ms) 1 (len ms - 1)
    (replicate K (replicate K 0))) as [(g & -> & Hg)|(e & -> & Hc)]; [lia| | |left|right; by exists e].
  - split; [|split; [intros i j pi pj; lia|intros i j; lia]]. split; [by rewrite length_replicate|].
    apply Forall_replicate. by rewrite length_replicate.
  - intros i g Hi. apply set_row_spec. lia.
  - exists (GarnerData.mk g). split; [done|]. replace (1 + (len ms - 1)) with (len ms) in Hg by lia. done.
Qed.
End table.

(** ** Mixed-radix digits *)

(** The integer of the digits [ds] over the radices [ms]. *)
Fixpoint mixed (ms ds : list Z) : Z :=
  match ms, ds with m :: ms, d :: ds => d + m * mixed ms ds | _, _ => 0 end.

Lemma Zprod_app a b : checked.Zprod (a ++ b) = checked.Zprod a * checked.Zprod b.
Proof. unfold checked.Zprod. induction a as [|x a IH]; cbn [app foldr]; [ring|]. rewrite IH. ring. Qed.

Lemma mixed_snoc ms ds m d : length ms = length ds -> mixed (ms ++ [m]) (ds ++ [d]) = mixed ms ds + checked.Zprod ms * d.
Proof.
  revert ds; induction ms as [|x ms IH]; intros [|y ds] Hl; try done.
  - cbn [app mixed checked.Zprod foldr]. lia.
  - cbn [app mixed checked.Zprod foldr]. rewrite IH by (cbn in Hl; lia). unfold checked.Zprod. ring.
Qed.

Definition balanced_digit (m d : Z) : Prop := - (m / 2) <= d <= m / 2.

Lemma mixed_bound ms ds :
  Forall (fun m => 1 < m /\ Z.odd m = true) ms -> Forall2 balanced_digit ms ds ->
  1 <= checked.Zprod ms /\ 2 * Z.abs (mixed ms ds) < checked.Zprod ms.
Proof.
  intros Hm Hd. revert Hm. induction Hd as [|m d ms ds Hd _ IH]; intros Hm; [done|].
  apply Forall_cons_iff in Hm as [[Hm1 Ho] Hm]. destruct (IH Hm) as [IH1 IH2].
  cbn [mixed checked.Zprod foldr]. fold (checked.Zprod ms). unfold balanced_digit in Hd.
  apply Z.odd_spec in Ho as [k ->].
  replace ((2 * k + 1) / 2) with k in Hd by (Z.to_euclidean_division_equations; lia). split; [nia|].
  assert (2 * Z.abs (mixed ms ds) <= checked.Zprod ms - 1) by lia.
  rewrite <-(Z.abs_eq 2) at 1 by lia. rewrite <-Z.abs_mul. nia.
Qed.

Lemma center_mod_spec {Er} `{BuildMode} v m :
  1 < m < 2 ^ 63 -> Z.odd m = true ->
  exists c, center_mod (Er := Er) v m = Ok c /\ cong m c v /\ balanced_digit m c.
Proof.
  intros Hm Ho. unfold center_mod, balanced_digit. rewrite rem_euclid_Ok by lia. cbn [obind].
  pose proof (Z.mod_pos_bound v m ltac:(lia)). rewrite Z.quot_div_nonneg by lia.
  apply Z.odd_spec in Ho as [k Hk].
  assert (m / 2 = k) by (rewrite Hk; Z.to_euclidean_division_equations; lia).
  destruct (Z.ltb_spec (m / 2) (v mod m)).
  - rewrite i128_fits_ok by lia. eexists. split; [done|]. split; [|lia].
    apply (cong_trans _ _ (v mod m)); [exists (-1); lia|apply mod_cong; lia].
  - eexists. split; [done|]. split; [by apply mod_cong; lia|lia].
Qed.

Section digits.
Context {Er : Type} `{BuildMode}.
Variables (ms rs : list Z) (data : GarnerData.t).
Hypothesis ms_range : Forall (fun m => 1 < m < 2 ^ 63) ms.
Hypothesis ms_odd : Forall (fun m => Z.odd m = true) ms.
Hypothesis rs_length : length rs = length ms.
Hypothesis data_ok : rows_good ms (len ms) (GarnerData.gamma data).
Abbreviation prefix k := (take (Z.to_nat k) ms).

Lemma modulus_odd i m : index ms i = Some m -> Z.odd m = true.
Proof.
  intros Hm. unfold index in Hm. destruct (0 <=? i); [|done]. by apply (list.Forall_lookup_1 _ _ _ _ ms_odd) in Hm.
Qed.

Lemma length_prefix k : 0 <= k <= len ms -> length (prefix k) = Z.to_nat k.
Proof. intros Hk. rewrite length_take. unfold len in Hk. lia. Qed.

(** The digit left of residue [r] at position [k] after the digits [ds]. *)
Lemma mix_loop k m ds r :
  0 <= k -> index ms k = Some m -> len ds <= k -> Forall2 balanced_digit (prefix (len ds)) ds ->
  exists t, ofold (GarnerData.mix_step (Er := Er) data k m) (enumerate ds) (r mod m) = Ok t /\ 0 <= t < m /\
    cong m (t * checked.Zprod (prefix (len ds))) (r - mixed (prefix (len ds)) ds).
Proof.
  intros Hk Hm. pose proof (modulus_range ms ms_range k m Hm) as Bm. pose proof (index_Some_len _ _ _ Hm).
  induction ds as [|d ds IH] using rev_ind; intros Hl Hd.
  - eexists. split; [done|]. split; [apply Z.mod_pos_bound; lia|]. change (len (@nil Z)) with 0. cbn [Z.to_nat take mixed checked.Zprod foldr].
    rewrite Z.mul_1_r, Z.sub_0_r. apply mod_cong. lia.
  - rewrite len_app in *. change (len [d]) with 1 in *. pose proof (len_nonneg ds).
    destruct (index_is_Some ms (len ds)) as [pj Hpj]; [lia|]. pose proof (modulus_range ms ms_range _ _ Hpj) as Bj.
    rewrite (take_index _ _ _ Hpj) in *. pose proof (length_prefix (len ds) ltac:(lia)) as Hlp.
    assert (Elen : length (prefix (len ds)) = length ds) by (unfold len in *; lia).
    apply Forall2_app_inv in Hd as [Hds Hd]; [|done]. apply Forall2_cons_iff in Hd as [Hd _].
    destruct IH as (t & Ht & Bt & Ct); [lia|done|].
    rewrite enumerate_snoc, ofold_app, Ht. cbn [obind ofold GarnerData.mix_step].
    destruct data_ok as (_ & _ & Hg). destruct (Hg k (len ds) ltac:(lia) ltac:(lia) m pj Hm Hpj) as (x & Hx & Bx & Cx).
    unfold entry in Hx. apply bind_Some in Hx as (row & Hrow & Hx). unfold balanced_digit in Hd.
    assert (pj / 2 <= pj) by (apply Z.div_le_upper_bound; lia).
    rewrite i128_fits_ok by lia. cbn [obind]. rewrite rem_euclid_Ok by lia. cbn [obind]. rewrite Hrow. cbn [unwrap obind].
    rewrite Hx. cbn [unwrap obind]. pose proof (Z.mod_pos_bound (t - d) m ltac:(lia)).
    assert (0 <= (t - d) mod m * x < 2 ^ 126) by nia. rewrite i128_fits_ok by lia. cbn [obind].
    rewrite rem_euclid_Ok by lia. cbn [obind]. eexists. split; [done|]. split; [apply Z.mod_pos_bound; lia|].
    rewrite Zprod_app, mixed_snoc by done. set (P := checked.Zprod (prefix (len ds))) in *.
    change (checked.Zprod [pj]) with (pj * 1). rewrite mod_cong, mod_cong by lia.
    replace ((t - d) * x * (P * (pj * 1))) with (((t * P) - P * d) * (pj * x)) by ring.
    rewrite Ct, Cx. exists 0. ring.
Qed.

(** The digits found before position [k]. *)
Definition digits_ok (k : Z) (digits : list Z) : Prop :=
  exists ds, len ds = k /\ digits = ds ++ replicate (length ms - length ds) 0 /\
    Forall2 balanced_digit (prefix k) ds /\
    forall i m r, 0 <= i < k -> index ms i = Some m -> index rs i = Some r -> cong m (mixed (prefix k) ds) r.

Lemma prefix_divides i k m : 0 <= i < k -> index ms i = Some m -> cong m (checked.Zprod (prefix k)) 0.
Proof.
  intros Hi Hm. assert (Hin : In m (prefix k)).
  { apply list_elem_of_In, list_elem_of_lookup. exists (Z.to_nat i). rewrite lookup_take_lt by lia.
    unfold index in Hm. by destruct (0 <=? i). }
  induction (prefix k) as [|x l IH]; [done|]. cbn [checked.Zprod foldr]. fold (checked.Zprod l).
  destruct Hin as [->|Hin]; [exists (checked.Zprod l); ring|]. rewrite (IH Hin). exists 0. ring.
Qed.

Lemma extend_digits k m r ds d :
  0 <= k -> index ms k = Some m -> index rs k = Some r -> len ds = k -> Forall2 balanced_digit (prefix k) ds ->
  (forall i m r, 0 <= i < k -> index ms i = Some m -> index rs i = Some r -> cong m (mixed (prefix k) ds) r) ->
  balanced_digit m d -> cong m (d * checked.Zprod (prefix k)) (r - mixed (prefix k) ds) ->
  digits_ok (k + 1) (ds ++ d :: replicate (length ms - S (length ds)) 0).
Proof.
  intros Hk Hm Hr Hl Hb Hc Hd Cd. pose proof (index_Some_len _ _ _ Hm). exists (ds ++ [d]).
  rewrite len_app, length_app, (take_index _ _ _ Hm). change (len [d]) with 1. cbn [length]. split; [lia|].
  split; [rewrite <-app_assoc; cbn [app]; by rewrite Nat.add_comm|].
  split; [apply Forall2_app; [done|]; constructor; [done|constructor]|].
  assert (Elen : length (prefix k) = length ds) by (rewrite length_prefix by lia; unfold len in Hl; lia).
  intros i m' r' Hi Hm' Hr'. rewrite mixed_snoc by done. destruct (decide (i = k)) as [->|Hne].
  - rewrite Hm in Hm'. rewrite Hr in Hr'. injection Hm' as <-. injection Hr' as <-.
    rewrite (Z.mul_comm _ d), Cd. exists 0. ring.
  - rewrite (Hc i m' r') by (done || lia). rewrite (prefix_divides i k m') by (done || lia). exists 0. ring.
Qed.

Lemma mix_digit_spec k digits :
  0 <= k < len ms -> digits_ok k digits ->
  exists digits', GarnerData.mix_digit (Er := Er) data rs ms digits k = Ok digits' /\ digits_ok (k + 1) digits'.
Proof.
  intros Hk (ds & Hl & -> & Hb & Hc). destruct (index_is_Some ms k) as [m Hm]; [done|].
  destruct (index_is_Some rs k) as [r Hr]; [unfold len in *; lia|]. pose proof (modulus_range ms ms_range k m Hm) as Bm.
  unfold GarnerData.mix_digit. rewrite Hm, Hr. cbn [unwrap obind]. rewrite rem_euclid_Ok by lia. cbn [obind].
  replace (Z.to_nat k) with (length ds) by (unfold len in Hl; lia). rewrite take_enumerate.
  destruct (mix_loop k m ds r ltac:(lia) Hm ltac:(lia)) as (t & -> & Bt & Ct); [by rewrite Hl|]. cbn [obind].
  destruct (center_mod_spec (Er := Er) t m Bm (modulus_odd _ _ Hm)) as (d & -> & Cd & Bd). cbn [obind].
  replace (length ms - length ds)%nat with (S (length ms - S (length ds))) by (unfold len in *; lia).
  cbn [replicate]. rewrite store_middle by lia. eexists. split; [done|].
  apply (extend_digits k m r); try done; [lia|]. rewrite Cd. by rewrite Hl in Ct.
Qed.

Lemma centered_mixed_radix_spec : ms <> [] ->
  exists ds, GarnerData.centered_mixed_radix (Er := Er) data rs ms = Ok ds /\ Forall2 balanced_digit ms ds /\
    forall i m r, index ms i = Some m -> index rs i = Some r -> cong m (mixed ms ds) r.
Proof.
  intros Hne. assert (Hl : 1 <= len ms) by (destruct ms; [done|unfold len; cbn; lia]).
  destruct (index_is_Some ms 0) as [m Hm]; [lia|]. destruct (index_is_Some rs 0) as [r Hr]; [unfold len in *; lia|].
  unfold GarnerData.centered_mixed_radix. destruct (Z.eqb_spec (len ms) 0); [lia|]. rewrite Hm, Hr. cbn [unwrap obind].
  destruct (center_mod_spec (Er := Er) r m (modulus_range ms ms_range 0 m Hm) (modulus_odd _ _ Hm)) as (d & -> & Cd & Bd).
  cbn [obind].
  assert (H1 : digits_ok (0 + 1) ([] ++ d :: replicate (length ms - S (length (@nil Z))) 0)).
  { apply (extend_digits 0 m r); try done; [lia|]. change (prefix 0) with (@nil Z).
    cbn [mixed checked.Zprod foldr]. by rewrite Z.mul_1_r, Z.sub_0_r. }
  replace (replicate (length ms) 0) with (0 :: replicate (length ms - 1) 0)
    by (replace (length ms) with (S (length ms - 1)) at 2 by (unfold len in Hl; lia); done).
  rewrite store_head. cbn [obind].
  cbn [app length] in H1.
  destruct (ofold_seqZ digits_ok (GarnerData.mix_digit (Er := Er) data rs ms) 1 (len ms - 1) _ ltac:(lia) H1)
    as (ds' & -> & ds & Hlds & -> & Hb & Hc).
  { intros k digits Hk. apply mix_digit_spec. lia. }
  replace (1 + (len ms - 1)) with (len ms) in * by lia. assert (Hpre : prefix (len ms) = ms) by (apply take_ge; unfold len; lia).
  rewrite Hpre in *. exists ds. split; [|split; [done|]].
  - f_equal. replace (length ms - length ds)%nat with 0%nat by (unfold len in Hlds; lia). apply app_nil_r.
  - intros i m' r' Hm' Hr'. apply (Hc i); try done. pose proof (index_Some_len _ _ _ Hm'). lia.
Qed.

(** Integers that agree modulo every modulus agree modulo the product. *)
Lemma coprime_product x y :
  (forall i m, index ms i = Some m -> cong m x y) -> cong (checked.Zprod ms) x y.
Proof.
  intros Hc. destruct data_ok as (_ & Hcop & _).
  assert (Hpre : forall k, (k <= length ms)%nat ->
    cong (checked.Zprod (take k ms)) x y /\
    forall i m, Z.of_nat k <= i -> index ms i = Some m -> Z.gcd (checked.Zprod (take k ms)) m = 1).
  { induction k as [|k IH]; intros Hk.
    - change (checked.Zprod (take 0 ms)) with 1. split; [exists (x - y); ring|]. intros i m _ _. apply Z.gcd_1_l.
    - destruct IH as [IHc IHg]; [lia|]. destruct (index_is_Some ms (Z.of_nat k)) as [m Hm]; [unfold len; lia|].
      replace (S k) with (Z.to_nat (Z.of_nat k + 1)) by lia. rewrite (take_index _ _ _ Hm), Zprod_app, Nat2Z.id.
      change (checked.Zprod [m]) with (m * 1). rewrite Z.mul_1_r. split.
      + destruct IHc as [u Hu]. destruct (Hc _ _ Hm) as [w Hw]. specialize (IHg _ _ (Z.le_refl _) Hm).
        assert (Hd : (m | checked.Zprod (take k ms) * u)) by (exists w; lia).
        apply Z.gauss in Hd as [z Hz]; [|by rewrite Z.gcd_comm]. exists z. rewrite Hu, Hz. ring.
      + intros i m' Hi Hm'. pose proof (index_Some_len _ _ _ Hm').
        apply Z.coprime_mul_l.
        * apply (IHg i); [lia|done].
        * apply (Hcop i (Z.of_nat k)); (done || lia). }
  destruct (Hpre (length ms) ltac:(lia)) as [Hx _]. by rewrite take_ge in Hx by lia.
Qed.

Lemma reconstruct_unique ds x :
  Forall2 balanced_digit ms ds -> (forall i m r, index ms i = Some m -> index rs i = Some r -> cong m (mixed ms ds) r) ->
  (forall i m r, index ms i = Some m -> index rs i = Some r -> cong m x r) -> 2 * Z.abs x < checked.Zprod ms ->
  mixed ms ds = x.
Proof.
  intros Hb Hv Hx Hs. destruct (mixed_bound ms ds) as [HP Hm]; [|done|].
  { apply list.Forall_forall. intros m Hin. pose proof (proj1 (list.Forall_forall _ _) ms_range m Hin).
    pose proof (proj1 (list.Forall_forall _ _) ms_odd m Hin). cbn beta in *. split; [lia|done]. }
  apply (cong_eq (checked.Zprod ms)); [|lia]. apply coprime_product. intros i m Hi.
  destruct (index_is_Some rs i) as [r Hr]; [apply index_Some_len in Hi; unfold len in *; lia|].
  by rewrite (Hv i m r Hi Hr), (Hx i m r Hi Hr).
Qed.
End digits.

(** * Theorem *)

(** Garner's algorithm is total and exact.  For odd moduli the table of
    inverses is built exactly when they are pairwise coprime, and is an error
    otherwise; with the table, for any residues, the digits computed in
    [i128] are those of the one integer of absolute value below half the
    product that has these residues. *)
Theorem garner_reconstruction {Er} `{BuildMode} moduli :
  moduli <> [] -> Forall (fun m => 1 < m < 2 ^ 63 /\ Z.odd m = true) moduli ->
  match GarnerData.try_from_moduli moduli with
  | Ok data => coprime_moduli moduli /\
      forall residues, length residues = length moduli ->
      exists digits,
        GarnerData.centered_mixed_radix (Er := Er) data residues moduli = Ok digits /\
        let represents x := 2 * Z.abs x < checked.Zprod moduli /\
          forall i m r, index moduli i = Some m -> index residues i = Some r -> cong m x r in
        forall x, represents x <-> x = mixed moduli digits
  | Err _ => ~ coprime_moduli moduli
  | Panic => False
  end.
Proof.
  intros Hne Hm. assert (Hr : Forall (fun m => 1 < m < 2 ^ 63) moduli) by (eapply list.Forall_impl; [exact Hm|]; by intros m []).
  assert (Ho : Forall (fun m => Z.odd m = true) moduli) by (eapply list.Forall_impl; [exact Hm|]; by intros m []).
  destruct (try_from_moduli_spec moduli Hr Hne) as [(data & -> & Hd)|(e & -> & Hc)]; [|done].
  split; [apply Hd|]. intros rs Hl.
  destruct (centered_mixed_radix_spec (Er := Er) moduli rs data Hr Ho Hl Hd Hne) as (ds & Hds & Hb & Hc).
  exists ds. split; [done|]. intros represents x. split.
  - intros [Hx Hcx]. symmetry. by apply (reconstruct_unique moduli rs data Hr Ho Hl Hd).
  - intros ->. split; [|done]. apply mixed_bound; [|done]. eapply list.Forall_impl; [exact Hm|]. intros m [? ?]. split; [lia|done].
Qed.

Section witnesses.
#[local] Instance mode : BuildMode := true.

Lemma garner_reconstruction_witness :
  match GarnerData.try_from_moduli [97; 101; 12289] with
  | Ok data => coprime_moduli [97; 101; 12289] /\
      forall residues, length residues = length [97; 101; 12289] ->
      exists digits,
        GarnerData.centered_mixed_radix (Er := unit) data residues [97; 101; 12289] = Ok digits /\
        forall x, (2 * Z.abs x < checked.Zprod [97; 101; 12289] /\
          forall i m r, index [97; 101; 12289] i = Some m -> index residues i = Some r -> cong m x r) <->
          x = mixed [97; 101; 12289] digits
  | Err _ => ~ coprime_moduli [97; 101; 12289]
  | Panic => False
  end.
Proof. apply (garner_reconstruction (Er := unit) [97; 101; 12289]); [done|repeat constructor; lia]. Defined.
End witnesses.
