(* ===== verification/CrtRepr.v ===== *)
(** [akita-algebra/src/ring/crt_ntt_repr.rs] and its modules [lut], [convert]
    and [ops]: ring elements as residue limbs in the transform domain, on the
    scalar kernel plan.  The number [K] of primes is the length of the
    parameter set, the degree [D] a parameter, an array a list; the SIMD
    branches, selected at run time, are not modelled. *)

From S2P Require Import Prelude Checked Montgomery Ntt Garner Capacity Field Cyclotomic Decomposition Gadget.

(** [Ring::from_i128] of the external field. *)
Class FromI128 (F : Type) := from_i128 : Z -> F.
Class FromI128Laws (F : Type) `{CanonicalEncoding F, FromI128 F} : Prop :=
  from_i128_spec z : in_s 128 z -> to_canonical (from_i128 z) = z mod modulus F.

(** [for (dst, src) in dst.iter_mut().zip(src) { .. }], with a body that can fail. *)
Fixpoint zip_for {E A B} (f : A -> B -> outcome E A) (dst : list A) (src : list B) : outcome E (list A) :=
  match dst, src with
  | a :: dst, b :: src => let* a := f a b in let* dst := zip_for f dst src in Ok (a :: dst)
  | dst, _ => Ok dst
  end.

Definition I32_LAZY_DOT_BATCH : Z := 6.
Definition DIGIT_LUT_LEN : Z := 256.
Definition DIGIT_LUT_OFFSET : Z := DIGIT_LUT_LEN / 2.

Record CrtNttParamSet := { primes : list NttPrime; twiddles : list NttTwiddles; garner : GarnerData.t }.
Record CyclotomicCrtNtt := Limbs { limbs : list (list Z) }.

(** * Reducers and lookup tables ([lut.rs]) *)

Record CenteredPrimeReducer := { reducer_p : Z }.
Record CenteredPrimeWideReducer := { narrow : CenteredPrimeReducer; p_u64 : Z; r64 : Z }.
Record DigitMontLut := { digit_vals : list (list Z); lut_len : Z; digit_offset : Z }.
Record CenteredMontLut := { centered_vals : list (list Z); centered_offset : Z }.

Section lut.
Context {Er : Type} `{BuildMode}.
Abbreviation out := (outcome Er).
Variables R_LOG D : Z.

Definition rem_euclid_i64 (value modulus : Z) : out Z :=
  let* _ := assert (negb (modulus =? 0)) in Ok (value mod Z.abs modulus).

Definition narrow_new (prime : NttPrime) : CenteredPrimeReducer := {| reducer_p := p prime |}.

Definition reduce_i64 (self : CenteredPrimeReducer) (value : Z) : out Z :=
  let* r := rem_euclid_i64 value (reducer_p self) in
  let* r := if Z.quot (reducer_p self) 2 <? r then i64 (r - reducer_p self) else Ok r in
  Ok (Montgomery.from_i64 R_LOG r).

Definition wide_new (prime : NttPrime) : out CenteredPrimeWideReducer :=
  let narrow := narrow_new prime in
  let p_u64 := uwrap 64 (reducer_p narrow) in
  let* _ := assert (negb (p_u64 =? 0)) in
  Ok {| narrow := narrow; p_u64 := p_u64; r64 := swrap 64 (2 ^ 64 mod p_u64) |}.

Definition reduce_i128 (self : CenteredPrimeWideReducer) (value : Z) : out Z :=
  let* _ := assert (negb (p_u64 self =? 0)) in
  let lo := swrap 64 (uwrap 64 value mod p_u64 self) in
  let* hi := rem_euclid_i64 (swrap 64 (Z.shiftr value 64)) (reducer_p (narrow self)) in
  let* product := i64 (hi * r64 self) in
  let* r := i64 (lo + product) in
  reduce_i64 (narrow self) (Z.rem r (reducer_p (narrow self))).

(** ** Balanced digits *)

(** [u64::next_power_of_two] *)
Definition next_power_of_two (v : Z) : out Z :=
  if v <=? 2 ^ 63 then Ok (2 ^ Z.log2_up v) else if debug_assertions then Panic else Ok 0.

Definition new_with_digit_bound (params : CrtNttParamSet) (digit_abs_bound : Z) : out DigitMontLut :=
  let* _ := debug_assert (is_power_of_two digit_abs_bound) in
  let* _ := debug_assert ((1 <=? digit_abs_bound) && (digit_abs_bound <=? DIGIT_LUT_OFFSET)) in
  let* digit_abs_bound := next_power_of_two (Z.max digit_abs_bound 1) in
  let digit_abs_bound := Z.min digit_abs_bound DIGIT_LUT_OFFSET in
  let active := digit_abs_bound * 2 in
  let offset := digit_abs_bound in
  let vals := map (fun prime =>
      map (fun idx => if idx <? active then from_canonical R_LOG prime (Montgomery.from_i64 R_LOG (idx - offset)) else 0)
        (range DIGIT_LUT_LEN)) (primes params) in
  Ok {| digit_vals := vals; lut_len := active; digit_offset := offset |}.

(** [self.len - 1] *)
Definition lut_mask (self : DigitMontLut) : out Z :=
  if 1 <=? lut_len self then Ok (lut_len self - 1) else if debug_assertions then Panic else Ok USIZE_MAX.

Definition digit_get (self : DigitMontLut) (k digit : Z) : out Z :=
  let idx := uwrap 64 (digit + digit_offset self) in
  let* _ := debug_assert (idx <? lut_len self) in
  let* row := unwrap (index (digit_vals self) k) in
  let* mask := lut_mask self in
  unwrap (index row (Z.land idx mask)).

Definition debug_assert_active_digits (self : DigitMontLut) (digits : list Z) : out unit :=
  debug_assert (forallb (fun digit =>
    let idx := digit + digit_offset self in (0 <=? idx) && (idx <? lut_len self)) digits).

Definition fill_limb (self : DigitMontLut) (k : Z) (digits : list Z) : out (list Z) :=
  let* _ := debug_assert_active_digits self digits in
  omapM (digit_get self k) digits.

Definition fill_negacyclic_limb (self : DigitMontLut) (k : Z) (digits : list Z) (params : CrtNttParamSet) : out (list Z) :=
  let* _ := debug_assert_active_digits self digits in
  let* dst := fill_limb self k digits in
  let* prime := unwrap (index (primes params) k) in
  let* tw := unwrap (index (twiddles params) k) in
  forward_ntt R_LOG D prime tw dst.

(** ** Centered coefficients *)

Definition centered_new (params : CrtNttParamSet) (max_abs : Z) : out CenteredMontLut :=
  let max_abs := Z.max max_abs 0 in
  let* vals := omapM (fun prime =>
      let reducer := narrow_new prime in
      omapM (fun v => omapr (from_canonical R_LOG prime) (reduce_i64 reducer v)) (seqZ (- max_abs) (2 * max_abs + 1)))
    (primes params) in
  Ok {| centered_vals := vals; centered_offset := max_abs |}.

Definition centered_get (self : CenteredMontLut) (k coeff : Z) : option Z :=
  idx ← checked_s 32 (coeff + centered_offset self);
  row ← index (centered_vals self) k;
  idx ← usize idx;
  index row idx.

(** An access outside the table is undefined behaviour. *)
Definition centered_get_unchecked (self : CenteredMontLut) (k coeff : Z) : out Z :=
  let* row := unwrap (index (centered_vals self) k) in
  unwrap (index row (coeff + centered_offset self)).
End lut.

(** * Parameter sets ([crt_ntt_repr.rs]) *)

Section params.
Context {Er : Type} `{BuildMode}.
Abbreviation out := (outcome Er).
Variables R_LOG D : Z.

Definition params_new (primes : list NttPrime) : out CrtNttParamSet :=
  let* twiddles := omapM (compute_twiddles R_LOG D) primes in
  let* garner := GarnerData.compute primes in
  Ok {| primes := primes; twiddles := twiddles; garner := garner |}.

Definition crt_capacity (self : CrtNttParamSet) : out CrtCapacity.t :=
  CrtCapacity.from_prime_moduli (map (fun prime => uwrap 128 (p prime)) (primes self)).

(** The scalar plan has no fused dot kernel. *)
Definition uses_lazy_i32_dot (self : CrtNttParamSet) : bool := false.
Definition pointwise_dot_batch_size (self : CrtNttParamSet) : Z :=
  if uses_lazy_i32_dot self then I32_LAZY_DOT_BATCH else 1.

Section reconstruct.
Context {F : Type} `{Field F, FromI64 F, FromI128 F}.

Definition reconstruct_step (ps : list NttPrime) (mixed_radix : list Z) (st : F * F) (i : Z) : out (F * F) :=
  let '(result, partial_product) := st in
  let* d := unwrap (index mixed_radix i) in
  let result := fadd result (fmul (from_i128 d) partial_product) in
  let* prime := unwrap (index ps i) in
  let partial_product := if i + 1 <? len ps then fmul partial_product (from_i64 (p prime)) else partial_product in
  Ok (result, partial_product).

Definition reconstruct_coefficient (ps : list NttPrime) (data : GarnerData.t) (residues : list Z) : out F :=
  let moduli := map (fun prime => uwrap 64 (p prime)) ps in
  let* mixed_radix := GarnerData.centered_mixed_radix data residues moduli in
  let* d := unwrap (index mixed_radix 0) in
  let* prime := unwrap (index ps 0) in
  let* (result, _) := ofold (reconstruct_step ps mixed_radix) (seqZ 1 (len ps - 1))
                        (from_i128 d, from_i64 (p prime)) in
  Ok result.

(** The residues of one coefficient. *)
Definition column (canonical : list (list Z)) (i : Z) : out (list Z) :=
  omapM (fun limb => unwrap (index limb i)) canonical.

Definition reconstruct (ps : list NttPrime) (data : GarnerData.t) (canonical : list (list Z)) : out (list F) :=
  omapM (fun i => let* residues := column canonical i in reconstruct_coefficient ps data residues) (range D).
End reconstruct.

(** * Conversions ([convert.rs]) *)

(** The loop over primes and twiddles, with the index of the limb. *)
Definition each_limb {A} (params : CrtNttParamSet) (f : Z -> NttPrime -> NttTwiddles -> out A) : out (list A) :=
  omapM (fun '(k, (prime, tw)) => f k prime tw) (enumerate (zip (primes params) (twiddles params))).

Definition elem (m : out (list (list Z))) : out CyclotomicCrtNtt := let* limbs := m in Ok (Limbs limbs).
Definition elem_pair (m : out (list (list Z * list Z))) : out (CyclotomicCrtNtt * CyclotomicCrtNtt) :=
  let* pairs := m in Ok (Limbs (map fst pairs), Limbs (map snd pairs)).

(** Coefficients reduced and brought to Montgomery form. *)
Definition to_mont (prime : NttPrime) (reduce : Z -> out Z) (coeffs : list Z) : out (list Z) :=
  omapM (fun c => omapr (from_canonical R_LOG prime) (reduce c)) coeffs.
Definition wide_limb (prime : NttPrime) (centered : list Z) : out (list Z) :=
  let* reducer := wide_new prime in to_mont prime (reduce_i128 R_LOG reducer) centered.
Definition narrow_limb (prime : NttPrime) (coeffs : list Z) : out (list Z) :=
  to_mont prime (reduce_i64 R_LOG (narrow_new prime)) coeffs.
Definition digit_limb (prime : NttPrime) (digits : list Z) : list Z :=
  map (fun digit => from_canonical R_LOG prime (Montgomery.from_i64 R_LOG digit)) digits.

(** One limb in both domains. *)
Definition both (prime : NttPrime) (tw : NttTwiddles) (limb : list Z) : out (list Z * list Z) :=
  let* neg_limb := forward_ntt R_LOG D prime tw limb in
  let* cyc_limb := forward_ntt_cyclic R_LOG D prime tw limb in
  Ok (neg_limb, cyc_limb).

Section field_conversions.
Context {F : Type} `{Field F, CanonicalEncoding F, FromI64 F, FromI128 F}.
Abbreviation ring := (CyclotomicRing F).

(** The centered integer of a canonical value. *)
Definition center_canonical (q canonical : Z) : out Z :=
  if q / 2 <? canonical then let* d := u128 (q - canonical) in i128 (- swrap 128 d) else Ok (swrap 128 canonical).

Definition centered_coefficients_i128 (self : ring) : out (list Z) :=
  let* q := field_modulus (F := F) in
  omapM (fun c => center_canonical q (to_canonical c)) (ring_coeffs self).

Definition from_ring (r : ring) (params : CrtNttParamSet) : out CyclotomicCrtNtt :=
  let* centered_coeffs := centered_coefficients_i128 r in
  elem (each_limb params (fun _ prime tw =>
    let* limb := wide_limb prime centered_coeffs in forward_ntt R_LOG D prime tw limb)).

Definition from_ring_cyclic (r : ring) (params : CrtNttParamSet) : out CyclotomicCrtNtt :=
  let* centered_coeffs := centered_coefficients_i128 r in
  elem (each_limb params (fun _ prime tw =>
    let* limb := wide_limb prime centered_coeffs in forward_ntt_cyclic R_LOG D prime tw limb)).

Definition from_ring_pair_with_params (r : ring) (params : CrtNttParamSet) : out (CyclotomicCrtNtt * CyclotomicCrtNtt) :=
  let* centered_coeffs := centered_coefficients_i128 r in
  elem_pair (each_limb params (fun _ prime tw =>
    let* limb := wide_limb prime centered_coeffs in both prime tw limb)).

Definition from_scalar_with_params (scalar : F) (params : CrtNttParamSet) : out CyclotomicCrtNtt :=
  let* q := field_modulus (F := F) in
  let* centered := center_canonical q (to_canonical scalar) in
  elem (omapM (fun prime =>
    let* reducer := wide_new prime in
    let* r := reduce_i128 R_LOG reducer centered in
    Ok (replicate (Z.to_nat D) (from_canonical R_LOG prime r))) (primes params)).

(** Back to centered residues. *)
Definition limb_residues (prime : NttPrime) (limb : list Z) : list Z :=
  map (fun c => Montgomery.center R_LOG prime (Montgomery.to_canonical R_LOG prime c)) limb.

Definition centered_coefficients_with_params (self : CyclotomicCrtNtt) (params : CrtNttParamSet) : out (list (list Z)) :=
  each_limb params (fun k prime tw =>
    let* limb := unwrap (index (limbs self) k) in
    let* limb := inverse_ntt R_LOG D prime tw limb in
    Ok (limb_residues prime limb)).

Definition centered_cyclic_coefficients_with_params (self : CyclotomicCrtNtt) (params : CrtNttParamSet) : out (list (list Z)) :=
  each_limb params (fun k prime tw =>
    let* limb := unwrap (index (limbs self) k) in
    let* limb := inverse_ntt_cyclic R_LOG D prime tw limb in
    Ok (limb_residues prime limb)).

Definition to_ring (self : CyclotomicCrtNtt) (params : CrtNttParamSet) : out ring :=
  let* canonical := centered_coefficients_with_params self params in
  let* coefficients := reconstruct (primes params) (garner params) canonical in
  Ok (CyclotomicRing.from_coefficients coefficients).

Definition to_ring_cyclic (self : CyclotomicCrtNtt) (params : CrtNttParamSet) : out ring :=
  let* canonical := centered_cyclic_coefficients_with_params self params in
  let* coefficients := reconstruct (primes params) (garner params) canonical in
  Ok (CyclotomicRing.from_coefficients coefficients).
End field_conversions.

(** ** Integer coefficients *)

Definition from_i8_with_params (digits : list Z) (params : CrtNttParamSet) : out CyclotomicCrtNtt :=
  elem (each_limb params (fun _ prime tw => forward_ntt R_LOG D prime tw (digit_limb prime digits))).

Definition from_i8_cyclic (digits : list Z) (params : CrtNttParamSet) : out CyclotomicCrtNtt :=
  elem (each_limb params (fun _ prime tw => forward_ntt_cyclic R_LOG D prime tw (digit_limb prime digits))).

Definition from_i8_with_lut (digits : list Z) (params : CrtNttParamSet) (lut : DigitMontLut) : out CyclotomicCrtNtt :=
  elem (omapM (fun k => fill_negacyclic_limb R_LOG D lut k digits params) (range (len (primes params)))).

Definition from_i8_cyclic_with_lut (digits : list Z) (params : CrtNttParamSet) (lut : DigitMontLut) : out CyclotomicCrtNtt :=
  elem (each_limb params (fun k prime tw =>
    let* limb := fill_limb lut k digits in forward_ntt_cyclic R_LOG D prime tw limb)).

Definition from_centered_i32_with_params (coeffs : list Z) (params : CrtNttParamSet) : out CyclotomicCrtNtt :=
  elem (each_limb params (fun _ prime tw =>
    let* limb := narrow_limb prime coeffs in forward_ntt R_LOG D prime tw limb)).

Definition from_centered_i32_cyclic_with_params (coeffs : list Z) (params : CrtNttParamSet) : out CyclotomicCrtNtt :=
  elem (each_limb params (fun _ prime tw =>
    let* limb := narrow_limb prime coeffs in forward_ntt_cyclic R_LOG D prime tw limb)).

(** [lut.get(k, c).unwrap_or_else(..)] *)
Definition lut_limb (lut : CenteredMontLut) (k : Z) (prime : NttPrime) (coeffs : list Z) : out (list Z) :=
  omapM (fun c =>
    match centered_get lut k c with
    | Some x => Ok x
    | None => omapr (from_canonical R_LOG prime) (reduce_i64 R_LOG (narrow_new prime) c)
    end) coeffs.

Definition from_centered_i32_with_lut (coeffs : list Z) (params : CrtNttParamSet) (lut : CenteredMontLut) : out CyclotomicCrtNtt :=
  elem (each_limb params (fun k prime tw =>
    let* limb := lut_limb lut k prime coeffs in forward_ntt R_LOG D prime tw limb)).

Definition pair_limb (lut : option CenteredMontLut) (unchecked_lut : bool) (k : Z) (prime : NttPrime) (coeffs : list Z)
    : out (list Z) :=
  match lut with
  | Some lut => if unchecked_lut then omapM (centered_get_unchecked lut k) coeffs else lut_limb lut k prime coeffs
  | None => narrow_limb prime coeffs
  end.

Definition from_centered_i32_pair (coeffs : list Z) (params : CrtNttParamSet) (lut : option CenteredMontLut)
    (unchecked_lut : bool) : out (CyclotomicCrtNtt * CyclotomicCrtNtt) :=
  elem_pair (each_limb params (fun k prime tw =>
    let* limb := pair_limb lut unchecked_lut k prime coeffs in both prime tw limb)).

Definition from_centered_i32_pair_with_params coeffs params := from_centered_i32_pair coeffs params None false.
Definition from_centered_i32_pair_with_lut coeffs params lut := from_centered_i32_pair coeffs params (Some lut) false.
Definition from_centered_i32_pair_with_lut_unchecked coeffs params lut := from_centered_i32_pair coeffs params (Some lut) true.

(** [CenteredI16NttConverter], on the lookup strategy. *)
Definition max_abs_digit (rhs : list (list Z)) : Z := foldl (fun m d => Z.max m (Z.abs d)) 0 (concat rhs).
Definition converter_new (params : CrtNttParamSet) (rhs : list (list Z)) : out CenteredMontLut :=
  centered_new R_LOG params (max_abs_digit rhs).
Definition converter_transform (params : CrtNttParamSet) (lut : CenteredMontLut) (coefficients : list Z) : out CyclotomicCrtNtt :=
  from_centered_i32_with_lut coefficients params lut.
End params.

(** * Operations ([ops.rs]) *)

Section ops.
Context {Er : Type} `{BuildMode}.
Abbreviation out := (outcome Er).
Variables R_LOG D : Z.

Definition zero (params : CrtNttParamSet) : CyclotomicCrtNtt :=
  Limbs (replicate (length (primes params)) (replicate (Z.to_nat D) 0)).

(** One coefficient of the multiply-accumulate. *)
Definition mac_at (prime : NttPrime) (lhs rhs : list Z) (acc : list Z) (i : Z) : out (list Z) :=
  let* a := unwrap (index lhs i) in
  let* b := unwrap (index rhs i) in
  let prod := Montgomery.mul R_LOG prime a b in
  let* x := unwrap (index acc i) in
  store acc i (reduce_range R_LOG prime (wrapping_add R_LOG x prod)).

(** [while idx + 4 <= D { for lane in 0..4 { .. } idx += 4; }] *)
Fixpoint mac_quads (fuel : nat) (prime : NttPrime) (lhs rhs : list Z) (idx : Z) (acc : list Z) : out (Z * list Z) :=
  match fuel with
  | O => Panic
  | S fuel =>
      if idx + 4 <=? D then
        let* acc := ofold (fun acc lane => mac_at prime lhs rhs acc (idx + lane)) (range 4) acc in
        mac_quads fuel prime lhs rhs (idx + 4) acc
      else Ok (idx, acc)
  end.

(** [while idx < D { ..; idx += 1; }] *)
Fixpoint mac_tail (fuel : nat) (prime : NttPrime) (lhs rhs : list Z) (idx : Z) (acc : list Z) : out (list Z) :=
  match fuel with
  | O => Panic
  | S fuel =>
      if idx <? D then
        let* acc := mac_at prime lhs rhs acc idx in
        mac_tail fuel prime lhs rhs (idx + 1) acc
      else Ok acc
  end.

Definition add_assign_pointwise_mul_limb (acc lhs rhs : list Z) (prime : NttPrime) : out (list Z) :=
  let fuel := S (Z.to_nat D) in
  let* (idx, acc) := mac_quads fuel prime lhs rhs 0 acc in
  mac_tail fuel prime lhs rhs idx acc.

(** The accumulation into limb [k] of [acc]. *)
Definition mac_limb (lhs : CyclotomicCrtNtt) (rhs_limb : list Z) (prime : NttPrime) (k : Z) (acc : CyclotomicCrtNtt)
    : out CyclotomicCrtNtt :=
  let* acc_limb := unwrap (index (limbs acc) k) in
  let* lhs_limb := unwrap (index (limbs lhs) k) in
  let* limb := add_assign_pointwise_mul_limb acc_limb lhs_limb rhs_limb prime in
  let* limbs := store (limbs acc) k limb in
  Ok (Limbs limbs).

Definition add_assign_pointwise_mul (self lhs rhs : CyclotomicCrtNtt) (params : CrtNttParamSet) : out CyclotomicCrtNtt :=
  ofold (fun self k =>
      let* prime := unwrap (index (primes params) k) in
      let* rhs_limb := unwrap (index (limbs rhs) k) in
      mac_limb lhs rhs_limb prime k self)
    (range (len (primes params))) self.

Definition add_assign_pointwise_dot (self : CyclotomicCrtNtt) (lhs rhs : list CyclotomicCrtNtt) (params : CrtNttParamSet)
    : out CyclotomicCrtNtt :=
  let* _ := assert (len lhs =? len rhs) in
  let* _ := assert (len lhs <=? I32_LAZY_DOT_BATCH) in
  ofold (fun self '(l, r) => add_assign_pointwise_mul self l r params) (zip lhs rhs) self.

(** Limb [k] of a digit column: table lookups and the forward transform. *)
Definition scratch_limb (digits : list Z) (params : CrtNttParamSet) (lut : DigitMontLut) (k : Z) (tw : NttTwiddles)
    : out (NttPrime * list Z) :=
  let* limb := omapM (digit_get lut k) digits in
  let* prime := unwrap (index (primes params) k) in
  let* limb := forward_ntt R_LOG D prime tw limb in
  Ok (prime, limb).

(** The scratch array is returned with the accumulator. *)
Definition add_assign_pointwise_mul_i8_with_lut_scratch (self lhs : CyclotomicCrtNtt) (digits : list Z)
    (params : CrtNttParamSet) (lut : DigitMontLut) : out (CyclotomicCrtNtt * list (list Z)) :=
  ofold (fun '(self, scratch) '(k, tw) =>
      let* (prime, limb) := scratch_limb digits params lut k tw in
      let* self := mac_limb lhs limb prime k self in
      Ok (self, scratch ++ [limb]))
    (enumerate (twiddles params)) (self, []).

Definition add_assign_col_pointwise_mul_i8_multi_with_lut_scratch (accs : list CyclotomicCrtNtt)
    (ntt_mat : list (list CyclotomicCrtNtt)) (col : Z) (digits : list Z) (params : CrtNttParamSet) (lut : DigitMontLut)
    : out (list CyclotomicCrtNtt * list (list Z)) :=
  let* _ := debug_assert (len accs =? len ntt_mat) in
  ofold (fun '(accs, scratch) '(k, tw) =>
      let* (prime, limb) := scratch_limb digits params lut k tw in
      let* accs := zip_for (fun acc mat_row =>
          let* lhs := unwrap (index mat_row col) in mac_limb lhs limb prime k acc) accs ntt_mat in
      Ok (accs, scratch ++ [limb]))
    (enumerate (twiddles params)) (accs, []).

(** ** Limb-wise operations *)

Definition map_limbs (f : NttPrime -> list Z -> list Z -> list Z) (self rhs : CyclotomicCrtNtt) (params : CrtNttParamSet)
    : out CyclotomicCrtNtt :=
  elem (omapM (fun '(k, (a, b)) => let* prime := unwrap (index (primes params) k) in Ok (f prime a b))
         (enumerate (zip (limbs self) (limbs rhs)))).

Definition add_limb (prime : NttPrime) : list Z -> list Z -> list Z :=
  zip_with (fun a b => reduce_range R_LOG prime (wrapping_add R_LOG a b)).
Definition sub_limb (prime : NttPrime) : list Z -> list Z -> list Z :=
  zip_with (fun a b => reduce_range R_LOG prime (wrapping_sub R_LOG a b)).

Definition add_reduced : CyclotomicCrtNtt -> CyclotomicCrtNtt -> CrtNttParamSet -> out CyclotomicCrtNtt := map_limbs add_limb.
Definition add_assign_reduced : CyclotomicCrtNtt -> CyclotomicCrtNtt -> CrtNttParamSet -> out CyclotomicCrtNtt := map_limbs add_limb.
Definition sub_reduced : CyclotomicCrtNtt -> CyclotomicCrtNtt -> CrtNttParamSet -> out CyclotomicCrtNtt := map_limbs sub_limb.

Definition neg_reduced (self : CyclotomicCrtNtt) (params : CrtNttParamSet) : out CyclotomicCrtNtt :=
  elem (omapM (fun '(k, limb) =>
      let* prime := unwrap (index (primes params) k) in
      Ok (map (fun a => reduce_range R_LOG prime (wrapping_neg R_LOG a)) limb)) (enumerate (limbs self))).

Definition pointwise_mul (self rhs : CyclotomicCrtNtt) (params : CrtNttParamSet) : out CyclotomicCrtNtt :=
  elem (omapM (fun '(k, (a, b)) =>
      let* prime := unwrap (index (primes params) k) in
      let* output := Montgomery.pointwise_mul R_LOG prime (replicate (Z.to_nat D) 0) a b in
      Ok (reduce_range_in_place R_LOG prime output)) (enumerate (zip (limbs self) (limbs rhs)))).

(** [D.saturating_sub(1) - j] *)
Definition conjugation_automorphism_ntt (self : CyclotomicCrtNtt) : out CyclotomicCrtNtt :=
  elem (omapM (fun limb => omapM (fun j => unwrap (index limb (saturating_sub D 1 - j))) (range D)) (limbs self)).
End ops.

(** ** Matrix-vector products *)

Section mat_vec.
Context `{BuildMode}.
Variables R_LOG D : Z.

(** [chunks_exact]: a shorter remainder is left out. *)
Definition chunks_exact {A} (k : Z) (l : list A) : list (list A) :=
  List.filter (fun c => len c =? k) (chunks_of (Z.to_nat k) l).

(** One column of the product, added to every row. *)
Definition add_column (matrix : list CyclotomicCrtNtt) (num_cols : Z) (params : CrtNttParamSet) (lut : CenteredMontLut)
    (accumulators : list CyclotomicCrtNtt) (cd : Z * list Z) : result (list CyclotomicCrtNtt) :=
  let '(column, digits) := cd in
  if forallb (fun digit => digit =? 0) digits then Ok accumulators
  else
    let* transformed := converter_transform R_LOG D params lut digits in
    zip_for (fun accumulator row =>
        let* matrix_entry := ok_or (index row column) (InvalidSetup "prepared NTT matrix row is undersized") in
        add_assign_pointwise_mul R_LOG D accumulator matrix_entry transformed params)
      accumulators (chunks_exact num_cols matrix).

Definition mat_vec_i16_ntt (matrix : list CyclotomicCrtNtt) (num_rows num_cols : Z) (rhs : list (list Z))
    (params : CrtNttParamSet) : result (list CyclotomicCrtNtt) :=
  if negb (len rhs =? num_cols) then Err InvalidProof
  else
    let* required := ok_or (checked_mul num_rows num_cols) InvalidProof in
    let* matrix := ok_or (slice matrix 0 required) (InvalidSetup "prepared NTT matrix prefix is undersized") in
    let zeros := replicate (Z.to_nat num_rows) (zero D params) in
    if (num_rows =? 0) || (num_cols =? 0) then Ok zeros
    else
      let* converter := converter_new R_LOG params rhs in
      ofold (add_column matrix num_cols params converter) (enumerate rhs) zeros.

Definition mat_vec_i16 {F} `{Field F, CanonicalEncoding F, FromI64 F, FromI128 F} (matrix : list CyclotomicCrtNtt)
    (num_rows num_cols : Z) (rhs : list (list Z)) (params : CrtNttParamSet) : result (list (CyclotomicRing F)) :=
  let* accumulators := mat_vec_i16_ntt matrix num_rows num_cols rhs params in
  omapM (fun accumulator => to_ring R_LOG D accumulator params) accumulators.
End mat_vec.
