(* ===== verification/IntPoly.v ===== *)
(** Integer polynomials of degree below [D] as coefficient functions: their
    products modulo [X^D - s] for a sign [s], the size of the coefficients of
    a product, and their images under the map of the integers into a field.
    They are the reference semantics of the residue-number representation. *)

From S2P Require Import Prelude Field Cyclotomic.
Local Open Scope Z_scope.

(** * Finite sums *)

Definition zsum (n : Z) (f : Z -> Z) : Z := foldr Z.add 0 (map f (range n)).

Lemma isum_ext n f g : (forall i, 0 <= i < n -> f i = g i) -> zsum n f = zsum n g.
Proof.
  intros Hfg. unfold zsum. f_equal. apply map_ext_in. intros i Hi. apply Hfg. by apply elem_of_range, list_elem_of_In.
Qed.

Lemma zsum_nonpos n f : n <= 0 -> zsum n f = 0.
Proof. intros Hn. unfold zsum, range. by rewrite seqZ_nil by lia. Qed.

Lemma zsum_S n f : 0 <= n -> zsum (n + 1) f = zsum n f + f n.
Proof.
  intros Hn. unfold zsum. rewrite range_S, map_app, foldr_app by done. cbn [map foldr].
  generalize (map f (range n)). intros l. induction l as [|x l IH]; cbn [foldr]; lia.
Qed.

(** Induction on the number of terms. *)
Lemma zsum_ind n f (P : Z -> Z -> Prop) :
  0 <= n -> P 0 0 -> (forall k s, 0 <= k < n -> P k s -> P (k + 1) (s + f k)) -> P n (zsum n f).
Proof.
  intros Hn H0 HS. assert (Hall : forall k, 0 <= k <= n -> P k (zsum k f)); [|apply Hall; lia].
  intros k [Hk Hkn]. revert Hkn. pattern k. apply natlike_ind; [done| |done].
  intros j Hj IH Hjn. rewrite <-Z.add_1_r, zsum_S by done. apply HS; [lia|]. apply IH. lia.
Qed.

Lemma isum_add n f g : 0 <= n -> zsum n (fun i => f i + g i) = zsum n f + zsum n g.
Proof.
  intros Hn. apply (zsum_ind n (fun i => f i + g i) (fun k s => s = zsum k f + zsum k g)); [done|done|].
  intros k s Hk ->. rewrite !zsum_S by lia. lia.
Qed.

Lemma zsum_zero n f : (forall i, 0 <= i < n -> f i = 0) -> zsum n f = 0.
Proof.
  intros Hf. destruct (Z.le_gt_cases n 0); [by apply zsum_nonpos|].
  apply (zsum_ind n f (fun _ s => s = 0)); [lia|done|]. intros k s Hk ->. rewrite Hf by done. done.
Qed.

Lemma zsum_single n m f : 0 <= m < n -> (forall i, 0 <= i < n -> i <> m -> f i = 0) -> zsum n f = f m.
Proof.
  intros Hm Hf. pose proof (zsum_ind n f (fun k s => s = if m <? k then f m else 0)) as Hi.
  cbv beta in Hi. rewrite Hi; [by destruct (Z.ltb_spec m n); [|lia]|lia|by destruct (Z.ltb_spec m 0); [lia|]|].
  intros k s Hk ->. destruct (decide (k = m)) as [->|Hne].
  - destruct (Z.ltb_spec m m), (Z.ltb_spec m (m + 1)); lia.
  - rewrite (Hf k Hk Hne). destruct (Z.ltb_spec m k), (Z.ltb_spec m (k + 1)); lia.
Qed.

Lemma zsum_bound n f M : 0 <= n -> (forall i, 0 <= i < n -> Z.abs (f i) <= M) -> Z.abs (zsum n f) <= n * M.
Proof.
  intros Hn Hf. apply (zsum_ind n f (fun k s => Z.abs s <= k * M)); [done|lia|].
  intros k s Hk Hs. specialize (Hf k Hk). lia.
Qed.

(** * Products modulo [X^D - s] *)

Section products.
Variable D : Z.
Hypothesis D_pos : 0 < D.

(** Coefficient [c] of [X^n], for [0 <= n < 2 D]. *)
Definition wrap (s n c : Z) : Z := if c =? n then 1 else if c + D =? n then s else 0.

Definition conv (s : Z) (f g : Z -> Z) (c : Z) : Z :=
  zsum D (fun i => zsum D (fun j => f i * g j * wrap s (i + j) c)).

Lemma conv_ext s f f' g g' c :
  (forall i, 0 <= i < D -> f i = f' i) -> (forall i, 0 <= i < D -> g i = g' i) -> conv s f g c = conv s f' g' c.
Proof. intros Hf Hg. apply isum_ext. intros i Hi. apply isum_ext. intros j Hj. by rewrite Hf, Hg. Qed.

(** Coefficients of products, by the sizes of the factors. *)
Lemma conv_bound s f g A B c :
  Z.abs s <= 1 -> 0 <= c < D -> 0 <= A -> 0 <= B ->
  (forall i, 0 <= i < D -> Z.abs (f i) <= A) -> (forall i, 0 <= i < D -> Z.abs (g i) <= B) ->
  Z.abs (conv s f g c) <= D * (A * B).
Proof.
  intros Hs Hc HA HB Hf Hg. apply zsum_bound; [lia|]. intros i Hi.
  rewrite (zsum_single D ((c - i) mod D)).
  - pose proof (Z.mod_pos_bound (c - i) D D_pos) as Hm. specialize (Hf i Hi). specialize (Hg _ Hm).
    set (j := (c - i) mod D) in *. assert (Hw : Z.abs (wrap s (i + j) c) <= 1) by (unfold wrap; case_Z).
    rewrite !Z.abs_mul. pose proof (Z.abs_nonneg (f i)). pose proof (Z.abs_nonneg (g j)).
    pose proof (Z.abs_nonneg (wrap s (i + j) c)). assert (Z.abs (f i) * Z.abs (g j) <= A * B) by nia. nia.
  - by apply Z.mod_pos_bound.
  - intros j Hj Hne. assert (Hw : wrap s (i + j) c = 0); [|rewrite Hw; ring]. unfold wrap.
    destruct (Z.eqb_spec c (i + j)) as [->|]; [|destruct (Z.eqb_spec (c + D) (i + j)) as [He|]; [|done]]; exfalso; apply Hne.
    + replace (i + j - i) with j by lia. symmetry. by apply Z.mod_small.
    + replace (c - i) with (j + (-1) * D) by lia. rewrite Z.mod_add by lia. symmetry. by apply Z.mod_small.
Qed.
End products.

(** * Images in a field *)

(** A ring homomorphism from the integers. *)
Class IntHom (E : Type) `{Field E} (phi : Z -> E) : Prop := {
  hom_1 : phi 1 = fone;
  hom_add a b : phi (a + b) = fadd (phi a) (phi b);
  hom_mul a b : phi (a * b) = fmul (phi a) (phi b);
}.

Section images.
Context {E : Type} `{FieldLaws E}.
Add Ring Ering_int : (field_ring (E := E)).
Context (phi : Z -> E) `{!IntHom E phi}.
Local Open Scope field_scope.

Lemma hom_0 : phi 0 = 0.
Proof.
  transitivity (phi (0 + 0)%Z - phi 0); [|rewrite Z.add_0_l; ring]. rewrite (hom_add (phi := phi)). ring.
Qed.

Lemma hom_opp a : phi (- a)%Z = - phi a.
Proof.
  transitivity (phi (- a + a)%Z - phi a); [rewrite (hom_add (phi := phi)); ring|].
  rewrite Z.add_opp_diag_l, hom_0. ring.
Qed.

Lemma hom_sub a b : phi (a - b)%Z = phi a - phi b.
Proof. rewrite <-Z.add_opp_r, (hom_add (phi := phi)), hom_opp. ring. Qed.

Lemma hom_zsum n f : phi (zsum n f) = sumZ n (fun i => phi (f i)).
Proof.
  unfold zsum, sumZ. rewrite <-(map_map f phi). induction (map f (range n)) as [|x l IH]; [apply hom_0|].
  cbn [foldr map]. rewrite (hom_add (phi := phi)), IH. done.
Qed.

Variable D : Z.
Hypothesis D_pos : (0 < D)%Z.

Lemma hom_conv s f g c :
  phi (conv D s f g c) = sumZ D (fun i => sumZ D (fun j => phi (f i) * phi (g j) * phi (wrap D s (i + j) c))).
Proof.
  unfold conv. rewrite hom_zsum. apply sumZ_ext. intros i _. rewrite hom_zsum. apply sumZ_ext. intros j _.
  by rewrite !(hom_mul (phi := phi)).
Qed.

(** Negacyclic products are those of the ring [E[X]/(X^D + 1)]. *)
Lemma hom_conv_ring f g c :
  (0 <= c < D)%Z -> phi (conv D (-1) f g c) = mul_coef D (fun i => phi (f i)) (fun i => phi (g i)) c.
Proof.
  intros Hc. rewrite hom_conv. apply sumZ_ext. intros i Hi. apply sumZ_ext. intros j Hj. f_equal. unfold wrap.
  destruct (Z.lt_ge_cases (i + j) D).
  - rewrite mono_small by lia. destruct (Z.eqb_spec c (i + j)); [apply hom_1|].
    destruct (Z.eqb_spec (c + D) (i + j)) as [He|]; [lia|apply hom_0].
  - replace (i + j)%Z with (i + j - D + D)%Z at 3 by lia. rewrite mono_wrapped by lia.
    destruct (Z.eqb_spec c (i + j)); [lia|].
    destruct (Z.eqb_spec (c + D) (i + j)), (Z.eqb_spec c (i + j - D)); try lia; [|apply hom_0].
    change (phi (- (1))%Z = - (1)). by rewrite hom_opp, (hom_1 (phi := phi)).
Qed.

(** ** Evaluation *)

Definition evp (f : Z -> Z) (x : E) : E := sumZ D (fun i => phi (f i) * fpow x (Z.to_nat i)).

Lemma evp_ext f g x : (forall i, (0 <= i < D)%Z -> f i = g i) -> evp f x = evp g x.
Proof. intros Hfg. apply sumZ_ext. intros i Hi. by rewrite Hfg. Qed.

Lemma evp_add f g x : evp (fun i => f i + g i)%Z x = evp f x + evp g x.
Proof.
  unfold evp. rewrite <-sumZ_add. apply sumZ_ext. intros i _. rewrite (hom_add (phi := phi)). ring.
Qed.

Lemma evp_sub f g x : evp (fun i => f i - g i)%Z x = evp f x - evp g x.
Proof.
  transitivity (evp f x + evp (fun i => - g i)%Z x).
  - rewrite <-evp_add. apply evp_ext. intros; lia.
  - assert (Ho : evp (fun i => - g i)%Z x = - (1) * evp g x); [|rewrite Ho; ring].
    unfold evp. rewrite <-sumZ_mul. apply sumZ_ext. intros i _. rewrite hom_opp. ring.
Qed.

Lemma evp_zero x : evp (fun _ => 0%Z) x = 0.
Proof. apply sumZ_zero. intros i _. rewrite hom_0. ring. Qed.

Lemma evp_const k x : evp (fun i => if (i =? 0)%Z then k else 0%Z) x = phi k.
Proof.
  unfold evp. rewrite (sumZ_single D 0) by (lia || (intros i _ Hi; destruct (Z.eqb_spec i 0); [done|]; rewrite hom_0; ring)).
  change (phi k * 1 = phi k). ring.
Qed.

Lemma wrap_eval s n x :
  (0 <= n < 2 * D)%Z -> fpow x (Z.to_nat D) = phi s ->
  sumZ D (fun c => phi (wrap D s n c) * fpow x (Z.to_nat c)) = fpow x (Z.to_nat n).
Proof.
  intros Hn Hx. unfold wrap. destruct (Z.lt_ge_cases n D).
  - rewrite (sumZ_single D n); [rewrite Z.eqb_refl, (hom_1 (phi := phi)); ring|lia|].
    intros c Hc Hne. destruct (Z.eqb_spec c n); [done|]. destruct (Z.eqb_spec (c + D) n); [lia|]. rewrite hom_0. ring.
  - rewrite (sumZ_single D (n - D)).
    + destruct (Z.eqb_spec (n - D) n); [lia|]. destruct (Z.eqb_spec (n - D + D) n); [|lia].
      rewrite <-Hx, <-fpow_add. f_equal. lia.
    + lia.
    + intros c Hc Hne. destruct (Z.eqb_spec c n); [lia|]. destruct (Z.eqb_spec (c + D) n); [lia|]. rewrite hom_0. ring.
Qed.

(** At a point with [x^D = s], products evaluate to products. *)
Lemma evp_conv s f g x :
  fpow x (Z.to_nat D) = phi s -> evp (conv D s f g) x = evp f x * evp g x.
Proof.
  intros Hx. unfold evp at 1.
  transitivity (sumZ D (fun c => sumZ D (fun i => sumZ D (fun j =>
    (phi (f i) * phi (g j)) * (phi (wrap D s (i + j) c) * fpow x (Z.to_nat c)))))).
  - apply sumZ_ext. intros c _. rewrite hom_conv, <-sumZ_mul_r. apply sumZ_ext. intros i _.
    rewrite <-sumZ_mul_r. apply sumZ_ext. intros j _. ring.
  - rewrite sumZ_swap. unfold evp. rewrite <-sumZ_mul_r. apply sumZ_ext. intros i Hi.
    rewrite sumZ_swap, <-sumZ_mul. apply sumZ_ext. intros j Hj.
    rewrite sumZ_mul, wrap_eval by (done || lia). rewrite Z2Nat.inj_add, fpow_add by lia. ring.
Qed.
End images.
