(* ===== verification/CrtLimbs.v ===== *)
(** One residue limb of the CRT representation: what a limb holds is the list
    of evaluations of an integer polynomial at the points of its transform,
    in Montgomery form.  The transforms, the unrolled multiply-accumulate and
    the pointwise operations of [CrtRepr] act on the polynomials. *)

From Stdlib Require Import Zmod.
From S2P Require Import Prelude Field UniPoly Cyclotomic ModField Montgomery NttMath Ntt NttTables Garner Capacity CrtRepr IntPoly.
Local Open Scope Z_scope.

(** A prime and its prepared tables, for the degree [2^K]. *)
Record ready (R_LOG : Z) (K : nat) (P : NttPrime) (tw : NttTwiddles) : Prop := {
  ready_ok : well_formed R_LOG P;
  ready_prime : Z.prime (p P);
  ready_K : (K < 64)%nat;
  ready_tables : exists om omi psi psi_inv dinv,
    tables R_LOG P tw K om omi psi psi_inv dinv /\ roots P K om omi psi psi_inv dinv;
}.

(** The two transforms; the sign [s] of the ring [X^D = s]. *)
Definition forward {Er} `{BuildMode} (cyc : bool) R_LOG D P tw : list Z -> outcome Er (list Z) :=
  if cyc then forward_ntt_cyclic R_LOG D P tw else forward_ntt R_LOG D P tw.
Definition inverse {Er} `{BuildMode} (cyc : bool) R_LOG D P tw : list Z -> outcome Er (list Z) :=
  if cyc then inverse_ntt_cyclic R_LOG D P tw else inverse_ntt R_LOG D P tw.
Definition ring_sign (cyc : bool) : Z := if cyc then 1 else -1.

Section semantics.
Variables (R_LOG : Z) (K : nat) (P : NttPrime) (tw : NttTwiddles).
Abbreviation q := (p P).
Abbreviation zq := (Zmod.Zmod (p P)).
Abbreviation D := (Z.of_nat (2 ^ K)).

Definition residue (z : Z) : zq := Zmod.of_Z q z.

(** The coefficients of [f], in Montgomery form. *)
Definition residues_of (f : Z -> Z) (a : list Z) : Prop :=
  Forall2 (rep R_LOG P) a (map (fun i => residue (f i)) (range D)).

Definition slot_points (cyc : bool) (om : nat -> zq) (psi : zq) : list zq :=
  if cyc then points om K else map (fmul psi) (points om K).
Definition slots (cyc : bool) (om : nat -> zq) (psi : zq) (f : Z -> Z) : list zq :=
  map (evp residue D f) (slot_points cyc om psi).

(** The limb of [f] in the transform domain. *)
Definition limb_is (cyc : bool) (f : Z -> Z) (limb : list Z) : Prop :=
  forall om omi psi psi_inv dinv,
    tables R_LOG P tw K om omi psi psi_inv dinv -> roots P K om omi psi psi_inv dinv ->
    Forall2 (rep R_LOG P) limb (slots cyc om psi f).
End semantics.

Section limb.
Variables (R_LOG : Z) (K : nat) (P : NttPrime) (tw : NttTwiddles).
Hypothesis rdy : ready R_LOG K P tw.
Abbreviation q := (p P).
Abbreviation zq := (Zmod.Zmod (p P)).
Abbreviation N := (2 ^ K)%nat.
Abbreviation D := (Z.of_nat (2 ^ K)).
Abbreviation reps := (Forall2 (rep R_LOG P)).
Abbreviation limb_is := (limb_is R_LOG K P tw).
Abbreviation residues_of := (residues_of R_LOG K P).
Abbreviation residue := (residue P).

Lemma limb_ok : well_formed R_LOG P.
Proof. apply rdy. Qed.

Lemma ready_odd : OddPrime (p P).
Proof.
  destruct rdy as [Hok Hp _ _]. split; [done|]. rewrite (wf_odd _ _ Hok), Z.add_1_r, Z.odd_succ. by apply Z.even_mul.
Qed.
#[local] Existing Instance ready_odd.
Add Ring zq_limb : (field_ring (E := zq)).

Lemma residue_hom : IntHom zq residue.
Proof. split; [done|apply of_Z_add|apply of_Z_mul]. Qed.
#[local] Existing Instance residue_hom.

Lemma dim_pos : 0 < D.
Proof. pose proof (Nat.pow_nonzero 2 K ltac:(lia)). lia. Qed.

Lemma residue_cong a b : cong q a b -> residue a = residue b.
Proof.
  intros Hc. apply (of_Z_eq q). apply cong_mod; [|done]. pose proof (wf_range _ _ (ready_ok _ _ _ _ rdy)). lia.
Qed.

(** ** Points *)

Lemma peval_evp f x : peval (map (fun i => residue (f i)) (range D)) x = evp residue D f x.
Proof.
  unfold evp, sumZ. pose proof dim_pos as HD. revert HD. generalize D as n. intros n Hn.
  replace n with (Z.of_nat (Z.to_nat n)) by lia. clear Hn. induction (Z.to_nat n) as [|m IH]; [done|].
  rewrite Nat2Z.inj_succ, <-Z.add_1_r, range_S, !map_app, peval_app, fsum_app, IH by lia. cbn [map peval].
  rewrite length_map, length_range, !Nat2Z.id, fsum_cons. change (fsum []) with (fzero : zq). ring.
Qed.

Lemma slot_root cyc om omi psi psi_inv dinv x :
  roots P K om omi psi psi_inv dinv -> In x (slot_points K P cyc om psi) -> fpow x (Z.to_nat D) = residue (ring_sign cyc).
Proof.
  intros Rts Hx. rewrite Nat2Z.id. pose proof (points_root om K (root_om P K _ _ _ _ _ Rts) K) as Hpt.
  destruct cyc; cbn [slot_points ring_sign] in *.
  - rewrite (Hpt x); [done|lia|by apply list_elem_of_In].
  - apply in_map_iff in Hx as (y & <- & Hy). rewrite fpow_mul_base, (root_psi P K _ _ _ _ _ Rts).
    rewrite (Hpt y) by (lia || by apply list_elem_of_In). change (residue (-1)) with (residue (- (1))).
    rewrite (hom_opp residue), (hom_1 (phi := residue)). ring.
Qed.

Lemma slots_fwd cyc om omi psi psi_inv dinv f :
  roots P K om omi psi psi_inv dinv ->
  slots K P cyc om psi f
  = fwd om K (let a := map (fun i => residue (f i)) (range D) in if cyc then a else twist psi a).
Proof.
  intros Rts. assert (Hl : forall a : list zq, a = map (fun i => residue (f i)) (range D) -> length a = N)
    by (intros a ->; rewrite length_map, length_range; lia).
  unfold slots, slot_points. rewrite (fwd_eval om K (root_om P K _ _ _ _ _ Rts)); [|lia|].
  - destruct cyc; cbv zeta; [apply map_ext; intros y; by rewrite peval_evp|].
    rewrite map_map. apply map_ext. intros y. by rewrite peval_twist, peval_evp.
  - destruct cyc; cbv zeta; [by apply Hl|]. unfold twist. rewrite length_twist_from. by apply Hl.
Qed.

Lemma length_reps a e : reps a e -> length a = length e.
Proof. apply Forall2_length. Qed.

Lemma residues_length f a : residues_of f a -> length a = N.
Proof. intros Ha. rewrite (length_reps _ _ Ha), length_map, length_range. lia. Qed.

Lemma limb_length cyc f l : limb_is cyc f l -> length l = N.
Proof.
  intros Hl. destruct (ready_tables _ _ _ _ rdy) as (om & omi & psi & pi & di & T & Rts).
  rewrite (length_reps _ _ (Hl _ _ _ _ _ T Rts)), (slots_fwd _ _ _ _ _ _ _ Rts). apply length_fwd.
  cbv zeta. destruct cyc; unfold twist; rewrite ?length_twist_from, length_map, length_range; lia.
Qed.

Lemma limb_is_ext cyc f g l : (forall i, 0 <= i < D -> f i = g i) -> limb_is cyc f l -> limb_is cyc g l.
Proof.
  intros Hfg Hl om omi psi pi di T Rts. specialize (Hl _ _ _ _ _ T Rts).
  assert (He : slots K P cyc om psi g = slots K P cyc om psi f); [|by rewrite He].
  apply map_ext. intros x. apply evp_ext. intros i Hi. symmetry. by apply Hfg.
Qed.

(** ** Transforms *)

Lemma forward_limb {Er} `{BuildMode} cyc f a :
  residues_of f a -> exists l, forward (Er := Er) cyc R_LOG D P tw a = Ok l /\ limb_is cyc f l.
Proof.
  intros Ha. destruct rdy as [Hok _ HK Htab]. pose proof (residues_length f a Ha) as Hla.
  assert (Hall : forall om omi psi pi di, tables R_LOG P tw K om omi psi pi di -> roots P K om omi psi pi di ->
    exists l, forward (Er := Er) cyc R_LOG D P tw a = Ok l /\ reps l (slots K P cyc om psi f)).
  { intros om omi psi pi di T Rts. rewrite (slots_fwd _ _ _ _ _ _ _ Rts). destruct cyc; cbn [forward].
    - by apply (forward_cyclic_reps R_LOG P Hok tw K om omi psi pi di T HK).
    - by apply (forward_ntt_reps R_LOG P Hok tw K om omi psi pi di T HK). }
  destruct Htab as (om & omi & psi & pi & di & T & Rts). destruct (Hall _ _ _ _ _ T Rts) as (l & Hl & _).
  exists l. split; [done|]. intros om' omi' psi' pi' di' T' Rts'.
  destruct (Hall _ _ _ _ _ T' Rts') as (l' & Hl' & Hr). rewrite Hl in Hl'. by injection Hl' as <-.
Qed.

Lemma inverse_limb {Er} `{BuildMode} cyc f l :
  limb_is cyc f l -> exists c, inverse (Er := Er) cyc R_LOG D P tw l = Ok c /\ residues_of f c.
Proof.
  intros Hl. pose proof (limb_length _ _ _ Hl) as Hll. destruct rdy as [Hok _ HK Htab].
  destruct Htab as (om & omi & psi & pi & di & T & Rts). specialize (Hl _ _ _ _ _ T Rts).
  rewrite (slots_fwd _ _ _ _ _ _ _ Rts) in Hl. unfold CrtLimbs.residues_of.
  set (e := map (fun i => residue (f i)) (range D)) in *.
  assert (He : length e = N) by (unfold e; rewrite length_map, length_range; lia).
  destruct cyc; cbn [inverse].
  - destruct (inverse_cyclic_reps R_LOG P Hok tw K om omi psi pi di T HK (Er := Er) l _ Hl Hll) as (c & Hc & Rc).
    exists c. split; [done|]. cbv zeta in Rc. rewrite (inv_fwd om omi K) in Rc by (apply Rts || lia || done).
    by rewrite (unscale P K om omi psi pi di Rts) in Rc.
  - destruct (inverse_ntt_reps R_LOG P Hok tw K om omi psi pi di T HK (Er := Er) l _ Hl Hll) as (c & Hc & Rc).
    exists c. split; [done|]. cbv zeta in Rc.
    rewrite (inv_fwd om omi K) in Rc by (apply Rts || lia || (unfold twist; rewrite length_twist_from; lia)).
    by rewrite (untwist P K om omi psi pi di Rts) in Rc by lia.
Qed.

(** ** Pointwise operations *)

Lemma reps_zip (fm : Z -> Z -> Z) (fe : zq -> zq -> zq) (pts : list zq) u v a b :
  (forall m1 m2 e1 e2, rep R_LOG P m1 e1 -> rep R_LOG P m2 e2 -> rep R_LOG P (fm m1 m2) (fe e1 e2)) ->
  reps a (map u pts) -> reps b (map v pts) -> reps (zip_with fm a b) (map (fun x => fe (u x) (v x)) pts).
Proof.
  intros Hf. revert a b. induction pts as [|x pts IH]; intros a b Ha Hb; cbn [map] in *.
  - inversion Ha; subst. constructor.
  - inversion Ha; subst. inversion Hb; subst. cbn [zip_with]. constructor; [by apply Hf|]. by apply IH.
Qed.

Lemma reps_map (fm : Z -> Z) (fe : zq -> zq) (pts : list zq) u a :
  (forall m e, rep R_LOG P m e -> rep R_LOG P (fm m) (fe e)) ->
  reps a (map u pts) -> reps (map fm a) (map (fun x => fe (u x)) pts).
Proof.
  intros Hf. revert a. induction pts as [|x pts IH]; intros a Ha; cbn [map] in *; inversion Ha; subst; constructor; auto.
Qed.

Lemma rep_neg m e : rep R_LOG P m e -> rep R_LOG P (reduce_range R_LOG P (wrapping_neg R_LOG m)) (fneg e).
Proof.
  intros Hm. pose proof (ready_ok _ _ _ _ rdy) as Hok.
  assert (H0 : rep R_LOG P 0 (fzero : zq)).
  { split; [exists 0; change (Zmod.to_Z (fzero : zq)) with (Zmod.to_Z (@Zmod.zero q)); rewrite Zmod.to_Z_0; ring|].
    pose proof (wf_range _ _ Hok). lia. }
  replace (wrapping_neg R_LOG m) with (wrapping_sub R_LOG 0 m) by (unfold wrapping_neg, wrapping_sub; f_equal; lia).
  replace (fneg e) with (fsub fzero e : zq) by ring. by apply rep_sub.
Qed.

Lemma limb_zip cyc f g h a b (fm : Z -> Z -> Z) (fe : zq -> zq -> zq) :
  (forall m1 m2 e1 e2, rep R_LOG P m1 e1 -> rep R_LOG P m2 e2 -> rep R_LOG P (fm m1 m2) (fe e1 e2)) ->
  (forall x, fpow x (Z.to_nat D) = residue (ring_sign cyc) -> evp residue D h x = fe (evp residue D f x) (evp residue D g x)) ->
  limb_is cyc f a -> limb_is cyc g b -> limb_is cyc h (zip_with fm a b).
Proof.
  intros Hm He Ha Hb om omi psi pi di T Rts.
  assert (Hs : slots K P cyc om psi h
               = map (fun x => fe (evp residue D f x) (evp residue D g x)) (slot_points K P cyc om psi)).
  { apply map_ext_in. intros x Hx. apply He. by apply (slot_root cyc om omi psi pi di). }
  rewrite Hs. apply reps_zip; [done|by eapply Ha|by eapply Hb].
Qed.

Lemma limb_add cyc f g a b :
  limb_is cyc f a -> limb_is cyc g b -> limb_is cyc (fun i => f i + g i) (add_limb R_LOG P a b).
Proof.
  apply (limb_zip cyc f g _ a b _ fadd); [intros; by apply (rep_add R_LOG P limb_ok)|].
  intros x _. apply evp_add; apply _.
Qed.

Lemma limb_sub cyc f g a b :
  limb_is cyc f a -> limb_is cyc g b -> limb_is cyc (fun i => f i - g i) (sub_limb R_LOG P a b).
Proof.
  apply (limb_zip cyc f g _ a b _ fsub); [intros; by apply (rep_sub R_LOG P limb_ok)|].
  intros x _. apply evp_sub; apply _.
Qed.

Lemma limb_neg cyc f a :
  limb_is cyc f a -> limb_is cyc (fun i => - f i) (map (fun a => reduce_range R_LOG P (wrapping_neg R_LOG a)) a).
Proof.
  intros Ha om omi psi pi di T Rts. specialize (Ha _ _ _ _ _ T Rts).
  assert (Hs : slots K P cyc om psi (fun i => - f i) = map (fun x => fneg (evp residue D f x)) (slot_points K P cyc om psi)).
  { apply map_ext. intros x. transitivity (fsub (evp residue D (fun _ => 0) x) (evp residue D f x)).
    - rewrite <-evp_sub by apply _. apply evp_ext. intros; lia.
    - rewrite evp_zero by apply _. ring. }
  rewrite Hs. apply reps_map; [exact rep_neg|done].
Qed.

Lemma limb_product cyc f g a b :
  limb_is cyc f a -> limb_is cyc g b ->
  limb_is cyc (conv D (ring_sign cyc) f g) (zip_with (Montgomery.mul R_LOG P) a b).
Proof.
  apply (limb_zip cyc f g _ a b _ fmul); [intros; by apply (rep_mul R_LOG P limb_ok)|].
  intros x Hx. by apply evp_conv; [apply _|apply dim_pos|].
Qed.

Lemma limb_mul cyc f g a b :
  limb_is cyc f a -> limb_is cyc g b ->
  limb_is cyc (conv D (ring_sign cyc) f g) (reduce_range_in_place R_LOG P (zip_with (Montgomery.mul R_LOG P) a b)).
Proof.
  intros Ha Hb. pose proof (ready_ok _ _ _ _ rdy) as Hok.
  assert (Hm : limb_is cyc (conv D (ring_sign cyc) f g) (zip_with (Montgomery.mul R_LOG P) a b)).
  { by apply limb_product. }
  intros om omi psi pi di T Rts. specialize (Hm _ _ _ _ _ T Rts). by apply reps_reduce.
Qed.

Lemma limb_const cyc k m : rep R_LOG P m (residue k) -> limb_is cyc (fun i => if i =? 0 then k else 0) (replicate N m).
Proof.
  intros Hm om omi psi pi di T Rts. pose proof (slots_fwd cyc _ _ _ _ _ (fun i => if i =? 0 then k else 0) Rts) as Hf.
  apply (f_equal length) in Hf. rewrite length_fwd in Hf.
  2:{ cbv zeta. destruct cyc; unfold twist; rewrite ?length_twist_from, length_map, length_range; lia. }
  unfold slots in *. rewrite length_map in Hf.
  replace (replicate N m) with (replicate (length (slot_points K P cyc om psi)) m) by (by rewrite Hf). clear Hf.
  induction (slot_points K P cyc om psi) as [|x l IH]; [constructor|]. cbn [length replicate map]. constructor; [|exact IH].
  by rewrite evp_const by (apply _ || apply dim_pos).
Qed.

Lemma limb_zero cyc : limb_is cyc (fun _ => 0) (replicate N 0).
Proof.
  assert (Hr : rep R_LOG P 0 (residue 0)).
  { split; [|pose proof (wf_range _ _ (ready_ok _ _ _ _ rdy)); lia]. unfold residue. rewrite to_Z_of_Z, Z.mod_0_l.
    - exists 0. ring.
    - pose proof (wf_range _ _ (ready_ok _ _ _ _ rdy)). lia. }
  apply (limb_is_ext cyc (fun i => if i =? 0 then 0 else 0)); [intros i _; by destruct (i =? 0)|].
  exact (limb_const cyc 0 0 Hr).
Qed.

(** ** Multiply-accumulate *)

Definition mac (x : Z) (ab : Z * Z) : Z :=
  reduce_range R_LOG P (wrapping_add R_LOG x (Montgomery.mul R_LOG P ab.1 ab.2)).
Definition mac_list (acc l r : list Z) : list Z := zip_with mac acc (zip l r).

Lemma limb_mac cyc f g h acc l r :
  limb_is cyc f acc -> limb_is cyc g l -> limb_is cyc h r ->
  limb_is cyc (fun i => f i + conv D (ring_sign cyc) g h i) (mac_list acc l r).
Proof.
  intros Hacc Hl Hr. pose proof (ready_ok _ _ _ _ rdy) as Hok.
  assert (He : mac_list acc l r = add_limb R_LOG P acc (zip_with (Montgomery.mul R_LOG P) l r)).
  { unfold mac_list, add_limb. clear Hacc Hl Hr. revert l r.
    induction acc as [|x acc' IH]; intros [|a l] [|b r]; try done. cbn. f_equal. apply IH. }
  rewrite He. apply limb_add; [done|]. by apply limb_product.
Qed.

Section loop.
Context {Er : Type} `{BuildMode}.
Variables (n : nat) (acc l r : list Z).
Hypothesis acc_length : length acc = n.
Hypothesis l_length : length l = n.
Hypothesis r_length : length r = n.
Abbreviation final := (mac_list acc l r).
Definition mac_state (i : nat) : list Z := take i final ++ drop i acc.

Lemma final_length : length final = n.
Proof. unfold mac_list. rewrite length_zip_with, length_zip_with. lia. Qed.

Lemma mac_at_state i :
  (i < n)%nat -> mac_at (Er := Er) R_LOG P l r (mac_state i) (Z.of_nat i) = Ok (mac_state (S i)).
Proof.
  intros Hi. pose proof final_length as Hf.
  destruct (lookup_lt_is_Some_2 acc i) as [x Hx]; [lia|]. destruct (lookup_lt_is_Some_2 l i) as [a Ha]; [lia|].
  destruct (lookup_lt_is_Some_2 r i) as [b Hb]; [lia|].
  assert (Hfin : final !! i = Some (mac x (a, b))).
  { unfold mac_list. rewrite lookup_zip_with, Hx. cbn. by rewrite lookup_zip_with, Ha, Hb. }
  assert (Htl : length (take i final) = i) by (rewrite length_take; lia).
  unfold mac_at. rewrite !index_nat, Ha, Hb. cbn [unwrap obind].
  unfold mac_state at 1. rewrite (drop_S _ _ _ Hx). rewrite <-index_nat, index_middle by (unfold len; lia).
  cbn [unwrap obind]. unfold mac_state at 1. rewrite (drop_S _ _ _ Hx). rewrite store_middle by (unfold len; lia).
  unfold mac_state. rewrite (take_S_r _ _ _ Hfin), <-app_assoc. done.
Qed.

Lemma mac_quads_state fuel i :
  (i <= n)%nat -> (n - i < fuel)%nat ->
  exists j, (i <= j <= n)%nat /\ mac_quads (Er := Er) R_LOG (Z.of_nat n) fuel P l r (Z.of_nat i) (mac_state i)
                               = Ok (Z.of_nat j, mac_state j).
Proof.
  revert i; induction fuel as [|fuel IH]; intros i Hi Hf; [lia|]. cbn [mac_quads].
  destruct (Z.leb_spec (Z.of_nat i + 4) (Z.of_nat n)); [|exists i; split; [lia|done]].
  change (range 4) with [0; 1; 2; 3]. cbn [ofold].
  rewrite Z.add_0_r, mac_at_state by lia. cbn [obind].
  replace (Z.of_nat i + 1) with (Z.of_nat (S i)) by lia. rewrite mac_at_state by lia. cbn [obind].
  replace (Z.of_nat i + 2) with (Z.of_nat (S (S i))) by lia. rewrite mac_at_state by lia. cbn [obind].
  replace (Z.of_nat i + 3) with (Z.of_nat (S (S (S i)))) by lia. rewrite mac_at_state by lia. cbn [obind].
  replace (Z.of_nat i + 4) with (Z.of_nat (4 + i)) by lia.
  destruct (IH (4 + i)%nat) as (j & Hj & Hq); [lia|lia|]. exists j. split; [lia|]. exact Hq.
Qed.

Lemma mac_tail_state fuel i :
  (i <= n)%nat -> (n - i < fuel)%nat ->
  mac_tail (Er := Er) R_LOG (Z.of_nat n) fuel P l r (Z.of_nat i) (mac_state i) = Ok final.
Proof.
  revert i; induction fuel as [|fuel IH]; intros i Hi Hf; [lia|]. cbn [mac_tail].
  destruct (Z.ltb_spec (Z.of_nat i) (Z.of_nat n)).
  - rewrite mac_at_state by lia. cbn [obind]. replace (Z.of_nat i + 1) with (Z.of_nat (S i)) by lia. apply IH; lia.
  - pose proof final_length. unfold mac_state. rewrite take_ge, drop_ge, app_nil_r by lia. done.
Qed.

(** The unrolled loop is the pointwise multiply-accumulate. *)
Lemma mac_loop : add_assign_pointwise_mul_limb (Er := Er) R_LOG (Z.of_nat n) acc l r P = Ok final.
Proof.
  unfold add_assign_pointwise_mul_limb. rewrite Nat2Z.id.
  destruct (mac_quads_state (S n) 0 ltac:(lia) ltac:(lia)) as (j & Hj & Hq).
  change (mac_state 0) with acc in Hq. change (Z.of_nat 0) with 0 in Hq. rewrite Hq. cbn [obind].
  apply mac_tail_state; lia.
Qed.
End loop.
End limb.
