(* ===== verification/CrtConvert.v ===== *)
(** Conversions into and out of the CRT representation: the centered
    reducers, the lookup tables and the coefficient loops of [CrtRepr]
    produce the Montgomery residues of the intended integers. *)

From Stdlib Require Import Zmod.
From S2P Require Import Prelude Checked Montgomery Ntt NttTables ModField Garner Capacity Field Cyclotomic Decomposition Gadget CrtRepr IntPoly CrtLimbs.
Local Open Scope Z_scope.

(** The polynomial of a coefficient list. *)
Definition poly (l : list Z) (i : Z) : Z := default 0 (index l i).

Lemma map_lookup {A B} (f : A -> B) l i : map f l !! i = f <$> l !! i.
Proof. apply list_lookup_fmap. Qed.

Lemma poly_range {B} (g : Z -> B) l n : len l = n -> map (fun i => g (poly l i)) (range n) = map g l.
Proof.
  intros <-. apply list_eq_same_length with (length l); [by rewrite length_map|rewrite length_map, length_range; unfold len; lia|].
  intros i x y Hi Hx Hy. rewrite map_lookup in Hx, Hy.
  apply fmap_Some in Hx as (j & Hj & ->). apply fmap_Some in Hy as (z & Hz & ->).
  unfold range in Hj. apply lookup_seqZ in Hj as [-> _]. unfold poly.
  rewrite Z.add_0_l, index_nat, Hz. done.
Qed.

Lemma poly_out l i : len l <= i -> poly l i = 0.
Proof.
  intros Hi. unfold poly. destruct (index l i) as [x|] eqn:Hx; [|done]. apply index_Some_len in Hx. lia.
Qed.

(** * Reducers *)

Section reducers.
Context {Er : Type} `{BuildMode}.
Variables (R_LOG : Z) (P : NttPrime).
Hypothesis P_ok : well_formed R_LOG P.
Abbreviation q := (p P).

Lemma q_bounds : 1 < q < 2 ^ 30 /\ q / 2 < 2 ^ (R_LOG - 1) /\ q = 2 * (q / 2) + 1.
Proof.
  pose proof (wf_range _ _ P_ok). pose proof (R_facts R_LOG P P_ok) as (? & ? & ? & ? & ? & ?).
  pose proof (wf_odd _ _ P_ok). lia.
Qed.

(** A centered residue, as a machine value of the width. *)
Definition centered_residue (value r : Z) : Prop := cong q r value /\ in_s R_LOG r.

Lemma reduce_i64_spec value :
  exists r, reduce_i64 (Er := Er) R_LOG (narrow_new P) value = Ok r /\ centered_residue value r.
Proof.
  pose proof q_bounds as (Hq & Hh & Hodd). pose proof (R_facts R_LOG P P_ok) as (? & ? & ? & ? & ? & ?).
  unfold reduce_i64, rem_euclid_i64, narrow_new; cbn [reducer_p].
  destruct (Z.eqb_spec q 0); [lia|]. cbn [negb assert obind]. rewrite Z.abs_eq by lia.
  pose proof (Z.mod_pos_bound value q ltac:(lia)) as Hm. pose proof (mod_cong q value ltac:(lia)) as Hc.
  rewrite Z.quot_div_nonneg by lia. set (m := value mod q) in *. clearbody m.
  destruct (Z.ltb_spec (q / 2) m).
  - unfold i64. destruct (Z.leb_spec (- 2 ^ 63) (m - q)), (Z.ltb_spec (m - q) (2 ^ 63)); try lia. cbn [andb obind].
    eexists. split; [done|]. unfold Montgomery.from_i64, centered_residue, in_s. rewrite swrap_id by (unfold in_s; lia).
    split; [|lia]. apply (cong_trans _ _ m); [exists (-1); lia|done].
  - cbn [obind]. eexists. split; [done|]. unfold Montgomery.from_i64, centered_residue, in_s.
    rewrite swrap_id by (unfold in_s; lia). split; [done|lia].
Qed.

Lemma split_i128 value : value = uwrap 64 value + Z.shiftr value 64 * 2 ^ 64.
Proof.
  rewrite Z.shiftr_div_pow2 by lia. unfold uwrap. pose proof (Z.div_mod value (2 ^ 64) ltac:(lia)). lia.
Qed.

Lemma wide_spec :
  exists reducer, wide_new (Er := Er) P = Ok reducer /\
    forall value, in_s 128 value ->
    exists r, reduce_i128 (Er := Er) R_LOG reducer value = Ok r /\ centered_residue value r.
Proof.
  pose proof q_bounds as (Hq & Hh & Hodd). unfold wide_new, narrow_new; cbn [reducer_p].
  rewrite uwrap_id by (unfold in_u; lia). destruct (Z.eqb_spec q 0); [lia|]. cbn [negb assert obind].
  eexists. split; [done|]. intros value Hv. unfold reduce_i128; cbn [p_u64 narrow r64 reducer_p].
  destruct (Z.eqb_spec q 0); [lia|]. cbn [negb assert obind].
  pose proof (Z.mod_pos_bound (uwrap 64 value) q ltac:(lia)) as Hlo.
  pose proof (Z.mod_pos_bound (2 ^ 64) q ltac:(lia)) as Hr.
  rewrite !(swrap_id 64 (_ mod q)) by (lia || unfold in_s; lia).
  assert (Hs : in_s 64 (Z.shiftr value 64)).
  { unfold in_s in *. rewrite Z.shiftr_div_pow2 by lia.
    split; [apply Z.div_le_lower_bound; lia|apply Z.div_lt_upper_bound; lia]. }
  rewrite (swrap_id 64 (Z.shiftr value 64)) by (lia || done). unfold rem_euclid_i64.
  destruct (Z.eqb_spec q 0); [lia|]. cbn [negb assert obind]. rewrite Z.abs_eq by lia.
  pose proof (Z.mod_pos_bound (Z.shiftr value 64) q ltac:(lia)) as Hhi.
  set (lo := uwrap 64 value mod q) in *. set (hi := Z.shiftr value 64 mod q) in *. set (r := 2 ^ 64 mod q) in *.
  assert (Hp : 0 <= hi * r < 2 ^ 60) by nia.
  unfold i64 at 1. destruct (Z.leb_spec (- 2 ^ 63) (hi * r)), (Z.ltb_spec (hi * r) (2 ^ 63)); try lia. cbn [andb obind].
  unfold i64 at 1. destruct (Z.leb_spec (- 2 ^ 63) (lo + hi * r)), (Z.ltb_spec (lo + hi * r) (2 ^ 63)); try lia. cbn [andb obind].
  rewrite Z.rem_mod_nonneg by lia. destruct (reduce_i64_spec ((lo + hi * r) mod q)) as (x & Hx & Cx & Bx).
  exists x. split; [done|]. split; [|done]. rewrite Cx. rewrite (split_i128 value) at 1.
  apply (cong_trans _ _ (lo + hi * r)); [by apply mod_cong; lia|]. apply cong_add_proper; [by apply mod_cong; lia|].
  apply cong_mul_proper; apply mod_cong; lia.
Qed.
End reducers.

(** * Limbs of coefficient lists *)

Section limb_conversions.
Context {Er : Type} `{BuildMode}.
Variables (R_LOG : Z) (K : nat) (P : NttPrime) (tw : NttTwiddles).
Hypothesis rdy : ready R_LOG K P tw.
Abbreviation D := (Z.of_nat (2 ^ K)).
Abbreviation q := (p P).
Abbreviation residues_of := (residues_of R_LOG K P).
#[local] Instance odd_prime : OddPrime (p P) := ready_odd _ _ _ _ rdy.

Lemma rep_residue value r : centered_residue R_LOG P value r -> rep R_LOG P (from_canonical R_LOG P r) (residue P value).
Proof.
  intros [Hc Hr]. rewrite <-(residue_cong R_LOG K P tw rdy r value Hc). by apply (rep_from_canonical R_LOG P (limb_ok _ _ _ _ rdy)).
Qed.

Lemma reps_residues coeffs a :
  len coeffs = D -> Forall2 (fun c m => rep R_LOG P m (residue P c)) coeffs a -> residues_of (poly coeffs) a.
Proof.
  intros Hl Ha. unfold CrtLimbs.residues_of. rewrite (poly_range (residue P) coeffs D Hl).
  apply Forall2_flip in Ha. clear Hl. induction Ha; constructor; done.
Qed.

Lemma to_mont_spec reduce coeffs :
  (forall c, In c coeffs -> exists r, reduce c = Ok r /\ centered_residue R_LOG P c r) -> len coeffs = D ->
  exists a, to_mont (Er := Er) R_LOG P reduce coeffs = Ok a /\ residues_of (poly coeffs) a.
Proof.
  intros Hr Hl. assert (Ha : exists a, to_mont (Er := Er) R_LOG P reduce coeffs = Ok a /\
    Forall2 (fun c m => rep R_LOG P m (residue P c)) coeffs a).
  { clear Hl. induction coeffs as [|c l IH]; [exists []; split; [done|constructor]|].
    destruct (Hr c) as (r & Hc & Cr); [by left|]. destruct IH as (a & Ha & Fa); [intros; apply Hr; by right|].
    unfold to_mont in *. cbn [omapM]. rewrite Hc. cbn [omapr obind]. rewrite Ha. cbn [obind].
    eexists. split; [done|]. constructor; [by apply rep_residue|done]. }
  destruct Ha as (a & Ha & Fa). exists a. split; [done|]. by apply reps_residues.
Qed.

Lemma narrow_limb_spec coeffs :
  len coeffs = D -> exists a, narrow_limb (Er := Er) R_LOG P coeffs = Ok a /\ residues_of (poly coeffs) a.
Proof. apply to_mont_spec. intros c _. apply reduce_i64_spec. apply rdy. Qed.

Lemma wide_limb_spec coeffs :
  len coeffs = D -> Forall (in_s 128) coeffs ->
  exists a, wide_limb (Er := Er) R_LOG P coeffs = Ok a /\ residues_of (poly coeffs) a.
Proof.
  intros Hl Hc. destruct (wide_spec (Er := Er) R_LOG P ltac:(apply rdy)) as (reducer & Hw & Hr).
  unfold wide_limb. rewrite Hw. cbn [obind]. apply to_mont_spec; [|done].
  intros c Hin. apply Hr. by apply (proj1 (list.Forall_forall _ _) Hc), list_elem_of_In.
Qed.

Lemma digit_limb_spec digits :
  len digits = D -> Forall (in_s 8) digits -> residues_of (poly digits) (digit_limb R_LOG P digits).
Proof.
  intros Hl Hd. apply reps_residues; [done|]. unfold digit_limb. clear Hl. induction Hd as [|d l Hd _ IH]; constructor; [|done].
  pose proof (R_facts R_LOG P ltac:(apply rdy)) as (? & ? & ? & ? & ? & ?).
  assert (Hs : in_s R_LOG d) by (unfold in_s in *; lia).
  apply rep_residue. unfold Montgomery.from_i64. rewrite swrap_id by (done || lia). by split.
Qed.

(** Reading the residues of a limb back. *)
Lemma limb_residues_spec f c :
  residues_of f c -> length (limb_residues R_LOG P c) = (2 ^ K)%nat /\
  forall i r, index (limb_residues R_LOG P c) i = Some r -> cong q r (f i) /\ - (q / 2) <= r <= q / 2.
Proof.
  intros Hc. unfold limb_residues. split; [rewrite length_map; by apply (residues_length _ _ _ _ _ Hc)|].
  intros i r Hi. pose proof (index_Some_len _ _ _ Hi) as Hb. unfold index in Hi. destruct (Z.leb_spec 0 i); [|done].
  rewrite map_lookup in Hi. apply fmap_Some in Hi as (m & Hm & ->).
  pose proof (Forall2_lookup_l _ _ _ _ _ Hc Hm) as (e & He & Hr).
  rewrite map_lookup in He. apply fmap_Some in He as (j & Hj & ->).
  apply lookup_seqZ in Hj as [-> _]. replace (0 + Z.of_nat (Z.to_nat i)) with i in Hr by lia.
  rewrite (rep_to_canonical R_LOG P (limb_ok _ _ _ _ rdy) _ _ Hr). unfold residue. rewrite to_Z_of_Z.
  pose proof (q_bounds R_LOG P (limb_ok _ _ _ _ rdy)) as (Hq & _). pose proof (Z.mod_pos_bound (f i) q ltac:(lia)).
  destruct (center_spec R_LOG P (limb_ok _ _ _ _ rdy) (f i mod q)) as [Cc Bc]; [lia|]. split; [|done].
  rewrite Cc. apply mod_cong. lia.
Qed.

(** A limb through the inverse transform. *)
Lemma inverse_residues cyc f l :
  limb_is R_LOG K P tw cyc f l ->
  exists rs, (let* c := inverse (Er := Er) cyc R_LOG D P tw l in Ok (limb_residues R_LOG P c)) = Ok rs /\
    length rs = (2 ^ K)%nat /\ forall i r, index rs i = Some r -> cong q r (f i) /\ - (q / 2) <= r <= q / 2.
Proof.
  intros Hl. destruct (inverse_limb (Er := Er) R_LOG K P tw rdy cyc f l Hl) as (c & -> & Hc). cbn [obind].
  eexists. split; [done|]. by apply limb_residues_spec.
Qed.
End limb_conversions.
