(* ===== verification/CrtElems.v ===== *)
(** Elements of the CRT representation: what an element holds is an integer
    polynomial, limb by limb, and the conversions and operations of [CrtRepr]
    compute on it.  Leaving the representation is exact below half the
    product of the primes. *)

From Stdlib Require Import Zmod.
From S2P Require Import Prelude Checked Montgomery Ntt NttTables ModField Garner Capacity Field Cyclotomic Decomposition Gadget CrtRepr IntPoly CrtLimbs CrtConvert.
Local Open Scope Z_scope.

(** * Loops over lists, by position *)

Lemma index_enumerate {A} (l : list A) i k x : index (enumerate l) i = Some (k, x) <-> k = i /\ index l i = Some x.
Proof.
  unfold index, enumerate. destruct (Z.leb_spec 0 i); [|split; [done|by intros []]].
  rewrite lookup_zip_Some. unfold range. rewrite lookup_seqZ. split.
  - intros [[-> _] Hx]. split; [lia|done].
  - intros [-> Hx]. split; [|done]. apply lookup_lt_Some in Hx. unfold len. lia.
Qed.

Lemma index_zip {A B} (a : list A) (b : list B) i x y :
  index (zip a b) i = Some (x, y) <-> index a i = Some x /\ index b i = Some y.
Proof.
  unfold index. destruct (Z.leb_spec 0 i); [apply lookup_zip_Some|]. split; [done|by intros []].
Qed.

Lemma index_same_len {A B} (a : list A) (b : list B) i x : len a = len b -> index a i = Some x -> exists y, index b i = Some y.
Proof. intros Hl Hx. apply index_Some_len in Hx. apply index_is_Some. lia. Qed.

Lemma omapM_index {E A B} (F : A -> outcome E B) (Q : Z -> A -> B -> Prop) l :
  (forall i a, index l i = Some a -> exists b, F a = Ok b /\ Q i a b) ->
  exists bs, omapM F l = Ok bs /\ len bs = len l /\
    forall i a, index l i = Some a -> exists b, index bs i = Some b /\ Q i a b.
Proof.
  intros HF. assert (Ht : exists bs, omapM F l = Ok bs).
  { assert (Hin : forall a, In a l -> exists b, F a = Ok b).
    { intros a Ha. apply list_elem_of_In, list_elem_of_lookup in Ha as (i & Hi).
      destruct (HF (Z.of_nat i) a) as (b & Hb & _); [by rewrite index_nat|by exists b]. }
    clear HF. induction l as [|a l IH]; [by exists []|]. destruct (Hin a) as (b & Hb); [by left|].
    destruct IH as (bs & Hbs); [intros; apply Hin; by right|]. exists (b :: bs). cbn [omapM]. by rewrite Hb, Hbs. }
  destruct Ht as (bs & Hbs). exists bs. split; [done|]. split; [unfold len; by rewrite (omapM_length _ _ _ Hbs)|].
  apply omapM_Forall2 in Hbs. intros i a Hi. destruct (HF i a Hi) as (b & Hb & HQ). unfold index in *.
  destruct (0 <=? i); [|done]. destruct (Forall2_lookup_l _ _ _ _ _ Hbs Hi) as (b' & Hb' & He).
  rewrite Hb in He. injection He as <-. by exists b.
Qed.

Lemma list_eq_index {A} (a b : list A) : len a = len b -> (forall i x, index a i = Some x -> index b i = Some x) -> a = b.
Proof.
  intros Hl Hi. apply list_eq_same_length with (length a); [unfold len in Hl; lia|done|].
  intros i x y _ Hx Hy. rewrite <-index_nat in Hx, Hy. apply Hi in Hx. by rewrite Hx in Hy; injection Hy.
Qed.

Lemma omapM_ext {E A B} (f g : A -> outcome E B) l : (forall a, f a = g a) -> omapM f l = omapM g l.
Proof. intros Hf. induction l as [|a l IH]; [done|]. cbn [omapM]. by rewrite Hf, IH. Qed.

(** * Parameter sets *)

Section elements.
Context {Er : Type} `{BuildMode}.
Variables (R_LOG : Z) (K : nat).
Abbreviation D := (Z.of_nat (2 ^ K)).

Record prepared (params : CrtNttParamSet) : Prop := {
  prep_limbs : Forall2 (ready R_LOG K) (primes params) (twiddles params);
  prep_nonempty : primes params <> [];
  prep_garner : rows_good (map p (primes params)) (len (map p (primes params))) (GarnerData.gamma (garner params));
}.

(** A prime of the given width that has the roots of unity for degree [D]. *)
Definition suitable (P : NttPrime) : Prop := well_formed R_LOG P /\ Z.prime (p P) /\ (2 * D | p P - 1).

Lemma suitable_ready P : suitable P ->
  exists tw, compute_twiddles (Er := Er) R_LOG D P = Ok tw /\ ready R_LOG K P tw.
Proof.
  intros (Hok & Hp & Hd).
  assert (Hodd : OddPrime (p P)).
  { split; [done|]. rewrite (wf_odd _ _ Hok), Z.add_1_r, Z.odd_succ. by apply Z.even_mul. }
  destruct (compute_twiddles_spec (Er := Er) R_LOG P Hok K Hd) as (tw & om & omi & psi & pi & di & Htw & T & Rts).
  exists tw. split; [done|]. constructor; [done|done| |eauto 10].
  pose proof (K_30 R_LOG P Hok K Hd). lia.
Qed.

Lemma moduli_u64 (ps : list NttPrime) : Forall (well_formed R_LOG) ps -> map (fun prime => uwrap 64 (p prime)) ps = map p ps.
Proof.
  intros Hps. apply map_ext_in. intros P HP. apply uwrap_id. apply (proj1 (Forall_forall _ _) Hps) in HP.
  pose proof (q_bounds R_LOG P HP). unfold in_u. lia.
Qed.

Lemma moduli_ok (ps : list NttPrime) : Forall (well_formed R_LOG) ps ->
  Forall (fun m => 1 < m < 2 ^ 63) (map p ps) /\ Forall (fun m => Z.odd m = true) (map p ps).
Proof.
  intros Hps. split; apply Forall_map; eapply list.Forall_impl; try exact Hps; intros P HP; cbn beta.
  - pose proof (q_bounds R_LOG P HP). lia.
  - rewrite (wf_odd _ _ HP), Z.add_1_r, Z.odd_succ. by apply Z.even_mul.
Qed.

Lemma distinct_primes_coprime (ps : list NttPrime) :
  Forall (fun P => Z.prime (p P)) ps -> NoDup (map p ps) -> coprime_moduli (map p ps).
Proof.
  intros Hps Hnd i j pi pj Hj Hi Hpi Hpj. rewrite index_map in Hpi, Hpj.
  apply fmap_Some in Hpi as (Pi & Hi' & ->). apply fmap_Some in Hpj as (Pj & Hj' & ->).
  assert (Hpr : forall i P, index ps i = Some P -> Z.prime (p P)).
  { intros i' P' Hx. unfold index in Hx. destruct (0 <=? i'); [|done]. by apply (list.Forall_lookup_1 _ _ _ _ Hps) in Hx. }
  assert (Hne : p Pj <> p Pi).
  { intros He. assert (Hij : Z.to_nat i = Z.to_nat j); [|lia]. eapply (NoDup_lookup (map p ps)); [done|..].
    - rewrite map_lookup. unfold index in Hi'. destruct (0 <=? i); [|done]. by rewrite Hi'.
    - rewrite map_lookup. unfold index in Hj'. destruct (0 <=? j); [|done]. rewrite Hj'. cbn. by rewrite He. }
  destruct (Hpr _ _ Hj') as [Hj1 _]. destruct (Hpr _ _ Hi') as [Hi1 Hid].
  apply Z.coprime_prime_l; [by eapply Hpr|]. intros Hdvd. apply (Hid (p Pj)); [|done].
  apply Z.divide_pos_le in Hdvd; lia.
Qed.

Lemma crt_params_new_spec (ps : list NttPrime) :
  ps <> [] -> Forall suitable ps -> NoDup (map p ps) ->
  exists params, params_new (Er := Er) R_LOG D ps = Ok params /\ prepared params /\ primes params = ps.
Proof.
  intros Hne Hps Hnd.
  assert (Hwf : Forall (well_formed R_LOG) ps) by (eapply list.Forall_impl; [exact Hps|]; by intros P []).
  assert (Hpr : Forall (fun P => Z.prime (p P)) ps) by (eapply list.Forall_impl; [exact Hps|]; by intros P (_ & ? & _)).
  assert (Htw : exists tws, omapM (compute_twiddles (Er := Er) R_LOG D) ps = Ok tws /\ Forall2 (ready R_LOG K) ps tws).
  { clear Hne Hnd Hwf Hpr. induction Hps as [|P ps HP _ IH]; [by exists []; split; [|constructor]|].
    destruct (suitable_ready P HP) as (tw & Htw & Hr). destruct IH as (tws & Htws & Hrs).
    exists (tw :: tws). cbn [omapM]. rewrite Htw, Htws. split; [done|by constructor]. }
  destruct Htw as (tws & Htws & Hrs). destruct (moduli_ok ps Hwf) as [Hrange Hodd].
  unfold params_new. rewrite Htws. cbn [obind]. unfold GarnerData.compute. rewrite moduli_u64 by done.
  destruct (try_from_moduli_spec (map p ps) Hrange) as [(data & -> & Hd)|(e & _ & Hc)];
    [by destruct ps| |exfalso; apply Hc; by apply distinct_primes_coprime].
  cbn [obind]. eexists. split; [done|]. split; [|done]. by constructor.
Qed.

(** * Elements *)

Variable params : CrtNttParamSet.
Hypothesis prep : prepared params.

(** The element whose limb [k] is that of [h k]. *)
Definition elem_at (cyc : bool) (h : Z -> Z -> Z) (e : CyclotomicCrtNtt) : Prop :=
  len (limbs e) = len (primes params) /\
  forall k P tw, index (primes params) k = Some P -> index (twiddles params) k = Some tw ->
    exists l, index (limbs e) k = Some l /\ limb_is R_LOG K P tw cyc (h k) l.
Definition elem_is (cyc : bool) (f : Z -> Z) : CyclotomicCrtNtt -> Prop := elem_at cyc (fun _ => f).

Lemma len_twiddles : len (twiddles params) = len (primes params).
Proof. unfold len. by rewrite (Forall2_length (prep_limbs _ prep)). Qed.

Lemma prime_ready k P tw :
  index (primes params) k = Some P -> index (twiddles params) k = Some tw -> ready R_LOG K P tw.
Proof.
  intros HP Htw. unfold index in *. destruct (0 <=? k); [|done].
  by apply (Forall2_lookup_lr _ _ _ _ _ _ (prep_limbs _ prep) HP Htw).
Qed.

Lemma twiddle_of k P : index (primes params) k = Some P -> exists tw, index (twiddles params) k = Some tw /\ ready R_LOG K P tw.
Proof.
  intros HP. destruct (index_same_len (primes params) (twiddles params) k P) as (tw & Htw); [by rewrite len_twiddles|done|].
  exists tw. split; [done|]. by eapply prime_ready.
Qed.

Lemma elem_is_ext cyc f g e : (forall i, 0 <= i < D -> f i = g i) -> elem_is cyc f e -> elem_is cyc g e.
Proof.
  intros Hfg [Hl He]. split; [done|]. intros k P tw HP Htw. destruct (He k P tw HP Htw) as (l & Hk & Hlim).
  exists l. split; [done|]. by eapply limb_is_ext.
Qed.

Lemma each_limb_spec {A} (F : Z -> NttPrime -> NttTwiddles -> outcome Er A) (Q : Z -> NttPrime -> NttTwiddles -> A -> Prop) :
  (forall k P tw, index (primes params) k = Some P -> index (twiddles params) k = Some tw -> ready R_LOG K P tw ->
     exists x, F k P tw = Ok x /\ Q k P tw x) ->
  exists xs, each_limb params F = Ok xs /\ len xs = len (primes params) /\
    forall k P tw, index (primes params) k = Some P -> index (twiddles params) k = Some tw ->
      exists x, index xs k = Some x /\ Q k P tw x.
Proof.
  intros HF. unfold each_limb.
  destruct (omapM_index (fun '(k, (prime, tw)) => F k prime tw) (fun i '(k, (P, tw)) x => Q i P tw x)
    (enumerate (zip (primes params) (twiddles params)))) as (xs & Hxs & Hl & Hi).
  - intros i [k [P tw]] [-> [HP Htw]%index_zip]%index_enumerate. apply HF; [done..|]. by eapply prime_ready.
  - exists xs. split; [done|]. split.
    + rewrite Hl. unfold enumerate, len. rewrite !length_zip_with, length_range.
      pose proof len_twiddles as Ht. unfold len in *. lia.
    + intros k P tw HP Htw. apply (Hi k (k, (P, tw))). apply index_enumerate. split; [done|]. by apply index_zip.
Qed.

Lemma elem_each cyc h F :
  (forall k P tw, index (primes params) k = Some P -> index (twiddles params) k = Some tw -> ready R_LOG K P tw ->
     exists l, F k P tw = Ok l /\ limb_is R_LOG K P tw cyc (h k) l) ->
  exists e, elem (Er := Er) (each_limb params F) = Ok e /\ elem_at cyc h e.
Proof.
  intros HF. destruct (each_limb_spec F (fun k P tw l => limb_is R_LOG K P tw cyc (h k) l) HF) as (ls & Hls & Hl & Hi).
  unfold elem. rewrite Hls. cbn [obind]. by exists (Limbs ls).
Qed.

(** ** From integer coefficients *)

Lemma forward_neg a P tw : forward_ntt (Er := Er) R_LOG D P tw a = forward false R_LOG D P tw a.
Proof. done. Qed.
Lemma forward_cyc a P tw : forward_ntt_cyclic (Er := Er) R_LOG D P tw a = forward true R_LOG D P tw a.
Proof. done. Qed.

(** A coefficient loop followed by one of the transforms. *)
Lemma elem_forward cyc f (G : Z -> NttPrime -> outcome Er (list Z)) :
  (forall k P tw, index (primes params) k = Some P -> ready R_LOG K P tw ->
     exists a, G k P = Ok a /\ residues_of R_LOG K P f a) ->
  exists e, elem (each_limb params (fun k P tw => let* a := G k P in forward cyc R_LOG D P tw a)) = Ok e /\ elem_is cyc f e.
Proof.
  intros HG. apply elem_each. intros k P tw HP _ Hr. destruct (HG k P tw HP Hr) as (a & -> & Ha). cbn [obind].
  by apply forward_limb.
Qed.

Lemma elem_both f (G : Z -> NttPrime -> outcome Er (list Z)) :
  (forall k P tw, index (primes params) k = Some P -> ready R_LOG K P tw ->
     exists a, G k P = Ok a /\ residues_of R_LOG K P f a) ->
  exists e e', elem_pair (each_limb params (fun k P tw => let* a := G k P in both R_LOG D P tw a)) = Ok (e, e') /\
    elem_is false f e /\ elem_is true f e'.
Proof.
  intros HG.
  destruct (each_limb_spec (fun k P tw => let* a := G k P in both R_LOG D P tw a)
    (fun _ P tw x => limb_is R_LOG K P tw false f x.1 /\ limb_is R_LOG K P tw true f x.2)) as (ls & Hls & Hl & Hi).
  - intros k P tw HP _ Hr. destruct (HG k P tw HP Hr) as (a & -> & Ha). cbn [obind]. unfold both.
    rewrite forward_neg, forward_cyc.
    destruct (forward_limb (Er := Er) R_LOG K P tw Hr false f a Ha) as (l & -> & Hl).
    destruct (forward_limb (Er := Er) R_LOG K P tw Hr true f a Ha) as (l' & -> & Hl'). cbn [obind]. by exists (l, l').
  - unfold elem_pair. rewrite Hls. cbn [obind]. eexists _, _. split; [done|].
    split; (split; [cbn [limbs]; unfold len in *; by rewrite length_map|]); intros k P tw HP Htw;
      destruct (Hi k P tw HP Htw) as (x & Hx & H1 & H2); cbn [limbs]; rewrite index_map, Hx; cbn; eauto.
Qed.

Section coefficients.
Variable coeffs : list Z.
Hypothesis coeffs_length : len coeffs = D.

Lemma narrow_all k P tw : index (primes params) k = Some P -> ready R_LOG K P tw ->
  exists a, narrow_limb (Er := Er) R_LOG P coeffs = Ok a /\ residues_of R_LOG K P (poly coeffs) a.
Proof. intros _ Hr. by eapply narrow_limb_spec. Qed.

Lemma wide_all k P tw : Forall (in_s 128) coeffs -> index (primes params) k = Some P -> ready R_LOG K P tw ->
  exists a, wide_limb (Er := Er) R_LOG P coeffs = Ok a /\ residues_of R_LOG K P (poly coeffs) a.
Proof. intros Hc _ Hr. by eapply wide_limb_spec. Qed.

Lemma from_i8_spec (cyc : bool) : Forall (in_s 8) coeffs ->
  exists e, (if cyc then from_i8_cyclic (Er := Er) R_LOG D coeffs params else from_i8_with_params R_LOG D coeffs params) = Ok e /\
    elem_is cyc (poly coeffs) e.
Proof.
  intros Hd. destruct (elem_forward cyc (poly coeffs) (fun _ P => Ok (digit_limb R_LOG P coeffs))) as (e & He & Hp).
  - intros k P tw _ Hr. eexists. split; [done|]. by eapply digit_limb_spec.
  - exists e. by destruct cyc.
Qed.

Lemma from_centered_i32_spec (cyc : bool) :
  exists e, (if cyc then from_centered_i32_cyclic_with_params (Er := Er) R_LOG D coeffs params
             else from_centered_i32_with_params R_LOG D coeffs params) = Ok e /\
    elem_is cyc (poly coeffs) e.
Proof.
  destruct (elem_forward cyc (poly coeffs) (fun _ P => narrow_limb R_LOG P coeffs)) as (e & He & Hp); [apply narrow_all|].
  exists e. by destruct cyc.
Qed.
End coefficients.
End elements.
