(* ===== verification/CrtLut.v ===== *)
(** The lookup tables of the CRT conversions hold the values the direct
    conversions compute, on the ranges their callers promise. *)

From Stdlib Require Import Zmod.
From S2P Require Import Prelude Checked Montgomery Ntt Field Cyclotomic Decomposition Gadget CrtRepr IntPoly CrtLimbs CrtConvert CrtElems.
Local Open Scope Z_scope.

Section luts.
Context {Er : Type} `{BuildMode}.
Variables (R_LOG : Z) (K : nat) (params : CrtNttParamSet).
Hypothesis prep : prepared R_LOG K params.
Abbreviation D := (Z.of_nat (2 ^ K)).
Abbreviation elem_is := (elem_is R_LOG K params).

(** * Balanced digits *)

(** The table answers for the digits in [[-b, b)]. *)
Record digit_table (b : Z) (lut : DigitMontLut) : Prop := {
  dt_len : lut_len lut = 2 * b;
  dt_offset : digit_offset lut = b;
  dt_get k P d : index (primes params) k = Some P -> - b <= d < b ->
    digit_get (Er := Er) lut k d = Ok (from_canonical R_LOG P (Montgomery.from_i64 R_LOG d));
}.

Lemma new_with_digit_bound_spec m :
  0 <= m <= 7 -> exists lut, new_with_digit_bound (Er := Er) R_LOG params (2 ^ m) = Ok lut /\ digit_table (2 ^ m) lut.
Proof.
  intros Hm. pose proof (pow2_pos m ltac:(lia)) as Hb. pose proof (Z.pow_le_mono_r 2 m 7 ltac:(lia) ltac:(lia)) as Hb7.
  change (2 ^ 7) with 128 in Hb7. unfold new_with_digit_bound, debug_assert, is_power_of_two, next_power_of_two, DIGIT_LUT_OFFSET, DIGIT_LUT_LEN.
  change (256 / 2) with 128. rewrite Z.log2_pow2, Z.eqb_refl by lia.
  destruct (Z.ltb_spec 0 (2 ^ m)); [|lia]. destruct (Z.leb_spec 1 (2 ^ m)); [|lia]. destruct (Z.leb_spec (2 ^ m) 128); [|lia].
  cbn [andb negb]. rewrite andb_false_r. cbn [obind]. rewrite Z.max_l by lia.
  destruct (Z.leb_spec (2 ^ m) (2 ^ 63)); [|lia]. cbn [obind]. rewrite Z.log2_up_pow2, Z.min_l by lia.
  eexists. split; [done|]. constructor; cbn [lut_len digit_offset digit_vals]; [lia|done|].
  intros k P d HP Hd. unfold digit_get, lut_mask; cbn [lut_len digit_offset digit_vals].
  rewrite uwrap_id by (unfold in_u; lia). unfold debug_assert. destruct (Z.ltb_spec (d + 2 ^ m) (2 ^ m * 2)); [|lia].
  cbn [negb]. rewrite andb_false_r. cbn [obind]. rewrite index_map, HP. cbn [fmap option_fmap option_map unwrap obind].
  destruct (Z.leb_spec 1 (2 ^ m * 2)); [|lia]. cbn [obind].
  replace (2 ^ m * 2) with (2 ^ (m + 1)) at 1 by (rewrite Z.pow_add_r; lia). rewrite land_low by lia.
  rewrite Z.pow_add_r, Z.mod_small by lia. rewrite index_map.
  assert (Hi : index (range 256) (d + 2 ^ m) = Some (d + 2 ^ m)).
  { unfold index, range. destruct (Z.leb_spec 0 (d + 2 ^ m)); [|lia]. rewrite lookup_seqZ. lia. }
  rewrite Hi. cbn [fmap option_fmap option_map unwrap]. destruct (Z.ltb_spec (d + 2 ^ m) (2 ^ m * 2)); [|lia].
  do 3 f_equal. lia.
Qed.

Section digits.
Variables (b : Z) (lut : DigitMontLut) (digits : list Z).
Hypothesis table : digit_table b lut.
Hypothesis b_small : 0 < b <= 128.
Hypothesis digits_length : len digits = D.
Hypothesis digits_range : Forall (fun d => - b <= d < b) digits.

Lemma active_digits : debug_assert_active_digits (Er := Er) lut digits = Ok tt.
Proof.
  unfold debug_assert_active_digits, debug_assert.
  assert (Hall : forallb (fun d => (0 <=? d + digit_offset lut) && (d + digit_offset lut <? lut_len lut)) digits = true).
  { apply forallb_forall. intros d Hd. apply list_elem_of_In in Hd. pose proof (proj1 (list.Forall_forall _ _) digits_range d Hd) as Hr.
    cbn beta in Hr. rewrite (dt_len b lut table), (dt_offset b lut table). apply andb_true_iff. rewrite Z.leb_le, Z.ltb_lt. lia. }
  cbv zeta. rewrite Hall. cbn [negb]. by rewrite andb_false_r.
Qed.

Lemma lookups k P : index (primes params) k = Some P ->
  omapM (digit_get (Er := Er) lut k) digits = Ok (digit_limb R_LOG P digits).
Proof.
  intros HP. pose proof digits_range as Hall. clear digits_length digits_range. unfold digit_limb.
  induction Hall as [|d l Hd _ IH]; [done|]. cbn [omapM map].
  rewrite (dt_get b lut table k P d HP Hd), IH. done.
Qed.

Lemma digits_i8 : Forall (in_s 8) digits.
Proof. eapply list.Forall_impl; [exact digits_range|]. intros d Hd. unfold in_s. cbn beta in Hd. lia. Qed.

Lemma digits_residues k P tw : index (primes params) k = Some P -> ready R_LOG K P tw ->
  residues_of R_LOG K P (poly digits) (digit_limb R_LOG P digits).
Proof. intros _ Hr. eapply digit_limb_spec; [done|done|apply digits_i8]. Qed.

Lemma fill_negacyclic_spec k P tw :
  index (primes params) k = Some P -> index (twiddles params) k = Some tw ->
  exists l, fill_negacyclic_limb (Er := Er) R_LOG D lut k digits params = Ok l /\ limb_is R_LOG K P tw false (poly digits) l.
Proof.
  intros HP Htw. pose proof (prime_ready _ _ _ prep k P tw HP Htw) as Hr.
  unfold fill_negacyclic_limb, fill_limb. rewrite !active_digits. cbn [obind]. rewrite (lookups k P HP). cbn [obind].
  rewrite HP, Htw. cbn [unwrap obind]. apply (forward_limb (Er := Er) R_LOG K P tw Hr false). by eapply digits_residues.
Qed.

Lemma from_i8_with_lut_spec :
  exists e, from_i8_with_lut (Er := Er) R_LOG D digits params lut = Ok e /\ elem_is false (poly digits) e.
Proof.
  unfold from_i8_with_lut, elem.
  destruct (omapM_index (fun k => fill_negacyclic_limb (Er := Er) R_LOG D lut k digits params)
    (fun k _ l => forall P tw, index (primes params) k = Some P -> index (twiddles params) k = Some tw ->
                    limb_is R_LOG K P tw false (poly digits) l) (range (len (primes params)))) as (ls & -> & Hl & Hi).
  - intros i k Hk. unfold index, range in Hk. destruct (Z.leb_spec 0 i); [|done]. apply lookup_seqZ in Hk as [-> Hb].
    replace (0 + Z.of_nat (Z.to_nat i)) with i by lia. destruct (index_is_Some (primes params) i) as [P HP]; [lia|].
    destruct (twiddle_of _ _ _ prep i P HP) as (tw & Htw & _). destruct (fill_negacyclic_spec i P tw HP Htw) as (l & Hl & Hlim).
    exists l. split; [done|]. intros P' tw' HP' Htw'. rewrite HP in HP'. rewrite Htw in Htw'. by injection HP' as <-; injection Htw' as <-.
  - cbn [obind]. eexists. split; [done|]. rewrite len_range in Hl by apply len_nonneg. split; [done|].
    intros k P tw HP Htw. pose proof (index_Some_len _ _ _ HP) as Hk.
    destruct (Hi k k) as (l & Hkl & Hlim); [|exists l; split; [done|by apply Hlim]].
    unfold index, range. destruct (Z.leb_spec 0 k); [|lia]. rewrite lookup_seqZ. lia.
Qed.

Lemma from_i8_cyclic_with_lut_spec :
  exists e, from_i8_cyclic_with_lut (Er := Er) R_LOG D digits params lut = Ok e /\ elem_is true (poly digits) e.
Proof.
  apply (elem_forward R_LOG K params prep true (poly digits) (fun k P => fill_limb lut k digits)).
  intros k P tw HP Hr. unfold fill_limb. rewrite active_digits. cbn [obind]. rewrite (lookups k P HP).
  eexists. split; [done|]. by eapply digits_residues.
Qed.
End digits.

(** * Centered coefficients *)

(** Every entry of the table is the conversion of its coefficient. *)
Definition centered_table (m : Z) (lut : CenteredMontLut) : Prop :=
  centered_offset lut = m /\
  forall k P, index (primes params) k = Some P ->
  exists row, index (centered_vals lut) k = Some row /\ len row = 2 * m + 1 /\
    forall j x, index row j = Some x ->
      omapr (from_canonical R_LOG P) (reduce_i64 (Er := Er) R_LOG (narrow_new P) (j - m)) = Ok x.

Lemma centered_new_spec m : 0 <= m -> exists lut, centered_new (Er := Er) R_LOG params m = Ok lut /\ centered_table m lut.
Proof.
  intros Hm. unfold centered_new. rewrite Z.max_l by lia.
  destruct (omapM_index (fun prime => omapM (fun v => omapr (from_canonical R_LOG prime) (reduce_i64 (Er := Er) R_LOG (narrow_new prime) v))
      (seqZ (- m) (2 * m + 1)))
    (fun _ P row => len row = 2 * m + 1 /\ forall j x, index row j = Some x ->
      omapr (from_canonical R_LOG P) (reduce_i64 (Er := Er) R_LOG (narrow_new P) (j - m)) = Ok x) (primes params))
    as (vals & Hvals & Hl & Hi).
  - intros k P HP. destruct (twiddle_of _ _ _ prep k P HP) as (tw & _ & Hr).
    destruct (omapM_index (fun v => omapr (from_canonical R_LOG P) (reduce_i64 (Er := Er) R_LOG (narrow_new P) v))
      (fun _ v x => omapr (from_canonical R_LOG P) (reduce_i64 (Er := Er) R_LOG (narrow_new P) v) = Ok x) (seqZ (- m) (2 * m + 1)))
      as (row & Hrow & Hlr & Hir).
    + intros i v _. destruct (reduce_i64_spec (Er := Er) R_LOG P ltac:(apply Hr) v) as (r & -> & _). by eexists.
    + exists row. split; [done|]. split; [rewrite Hlr; unfold len; rewrite length_seqZ; lia|].
      intros j x Hj. pose proof (index_Some_len _ _ _ Hj) as Hb. rewrite Hlr in Hb. unfold len in Hb. rewrite length_seqZ in Hb.
      destruct (Hir j (j - m)) as (x' & Hx' & He); [|congruence].
      unfold index. destruct (Z.leb_spec 0 j); [|lia]. rewrite lookup_seqZ. lia.
  - rewrite Hvals. cbn [obind]. eexists. split; [done|]. split; [done|]. exact Hi.
Qed.

Lemma centered_get_spec m lut k P c x :
  centered_table m lut -> index (primes params) k = Some P -> centered_get lut k c = Some x ->
  omapr (from_canonical R_LOG P) (reduce_i64 (Er := Er) R_LOG (narrow_new P) c) = Ok x.
Proof.
  intros [Ho Ht] HP Hx. unfold centered_get in Hx. rewrite Ho in Hx.
  apply bind_Some in Hx as (i & Hi & Hx). apply bind_Some in Hx as (row & Hrow & Hx). apply bind_Some in Hx as (j & Hj & Hx).
  assert (i = c + m) as -> by (unfold checked_s in Hi; destruct (_ && _); congruence).
  apply usize_value in Hj as ->. destruct (Ht k P HP) as (row' & Hrow' & _ & Hall). rewrite Hrow in Hrow'. injection Hrow' as <-.
  apply Hall in Hx. by replace (c + m - m) with c in Hx by lia.
Qed.

(** With or without a table, checked or not, a coefficient loop is the direct
    conversion. *)
Lemma lut_limb_narrow m lut k P coeffs :
  centered_table m lut -> index (primes params) k = Some P ->
  lut_limb (Er := Er) R_LOG lut k P coeffs = narrow_limb R_LOG P coeffs.
Proof.
  intros Ht HP. unfold lut_limb, narrow_limb, to_mont. induction coeffs as [|c l IH]; [done|]. cbn [omapM].
  rewrite IH. destruct (centered_get lut k c) as [x|] eqn:Hx; [|done]. by rewrite (centered_get_spec m lut k P c x Ht HP Hx).
Qed.

Lemma unchecked_limb_narrow m lut k P coeffs :
  centered_table m lut -> index (primes params) k = Some P -> Forall (fun c => - m <= c <= m) coeffs ->
  omapM (centered_get_unchecked (Er := Er) lut k) coeffs = narrow_limb R_LOG P coeffs.
Proof.
  intros [Ho Ht] HP Hc. destruct (Ht k P HP) as (row & Hrow & Hl & Hall).
  unfold narrow_limb, to_mont. induction Hc as [|c l Hc _ IH]; [done|]. cbn [omapM]. rewrite IH.
  unfold centered_get_unchecked at 1. rewrite Hrow, Ho. cbn [unwrap obind].
  destruct (index_is_Some row (c + m)) as [x Hx]; [lia|]. rewrite Hx. cbn [unwrap].
  specialize (Hall _ _ Hx). replace (c + m - m) with c in Hall by lia. by rewrite Hall.
Qed.

Section centered.
Variables (m : Z) (lut : CenteredMontLut) (coeffs : list Z).
Hypothesis table : centered_table m lut.
Hypothesis coeffs_length : len coeffs = D.

Lemma lut_all k P tw : index (primes params) k = Some P -> ready R_LOG K P tw ->
  exists a, lut_limb (Er := Er) R_LOG lut k P coeffs = Ok a /\ residues_of R_LOG K P (poly coeffs) a.
Proof. intros HP Hr. rewrite (lut_limb_narrow m) by done. by eapply narrow_limb_spec. Qed.

Lemma from_centered_i32_with_lut_spec :
  exists e, from_centered_i32_with_lut (Er := Er) R_LOG D coeffs params lut = Ok e /\ elem_is false (poly coeffs) e.
Proof. apply (elem_forward R_LOG K params prep false (poly coeffs) (fun k P => lut_limb R_LOG lut k P coeffs)). apply lut_all. Qed.

(** The pair conversions, in their three modes. *)
Lemma from_centered_i32_pair_spec (o : option CenteredMontLut) (unchecked : bool) :
  o = None \/ o = Some lut -> (unchecked = true -> Forall (fun c => - m <= c <= m) coeffs) ->
  exists e e', from_centered_i32_pair (Er := Er) R_LOG D coeffs params o unchecked = Ok (e, e') /\
    elem_is false (poly coeffs) e /\ elem_is true (poly coeffs) e'.
Proof.
  intros Ho Hu. apply (elem_both R_LOG K params prep (poly coeffs) (fun k P => pair_limb R_LOG o unchecked k P coeffs)).
  intros k P tw HP Hr. destruct Ho as [-> | ->]; cbn [pair_limb]; [by eapply narrow_limb_spec|].
  destruct unchecked; [|by eapply lut_all]. rewrite (unchecked_limb_narrow m lut k P) by auto. by eapply narrow_limb_spec.
Qed.
End centered.

(** The converter of a matrix product. *)
Lemma max_abs_digit_nonneg rhs : 0 <= max_abs_digit rhs.
Proof.
  unfold max_abs_digit. assert (Hg : forall l a, 0 <= a -> 0 <= foldl (fun m d => Z.max m (Z.abs d)) a l); [|by apply Hg].
  induction l as [|d l IH]; intros a Ha; [done|]. apply IH. lia.
Qed.

Lemma converter_spec rhs :
  exists lut, converter_new (Er := Er) R_LOG params rhs = Ok lut /\
    forall digits, len digits = D ->
    exists e, converter_transform (Er := Er) R_LOG D params lut digits = Ok e /\ elem_is false (poly digits) e.
Proof.
  destruct (centered_new_spec (max_abs_digit rhs) (max_abs_digit_nonneg rhs)) as (lut & Hlut & Ht).
  exists lut. split; [done|]. intros digits Hd. by eapply from_centered_i32_with_lut_spec.
Qed.
End luts.
