(* ===== verification/CrtExact.v ===== *)
(** Ring elements through the CRT representation: a ring element enters as
    its centered coefficients, the operations act on integer polynomials, and
    an element whose coefficients are below half the product of the primes
    leaves as the ring element of these integers. *)

From Stdlib Require Import Zmod.
From S2P Require Import Prelude Checked Montgomery Ntt ModField Garner Capacity Field Cyclotomic Decomposition Gadget CrtRepr IntPoly CrtLimbs CrtConvert CrtElems CrtLut.
Local Open Scope Z_scope.

(** * Integers in a prime field *)

Section integers.
Context {F : Type} `{FieldLaws F, CanonicalEncoding F, !CanonicalFieldLaws F}.
Abbreviation qm := (modulus F).

Definition of_int (z : Z) : F := from_u128_reduced (z mod qm).

Lemma of_int_canonical z : to_canonical (of_int z) = z mod qm.
Proof.
  pose proof (qm_pos (F := F)). unfold of_int. assert (0 <= z mod qm < qm) by (apply Z.mod_pos_bound; lia).
  rewrite from_reduced_spec by lia. apply Z.mod_small. lia.
Qed.

Lemma of_int_eq z (x : F) : to_canonical x = z mod qm -> x = of_int z.
Proof. intros Hx. apply to_canonical_inj. by rewrite of_int_canonical. Qed.

#[export] Instance of_int_hom : IntHom F of_int.
Proof.
  pose proof (qm_pos (F := F)). split.
  - symmetry. apply of_int_eq. rewrite to_canonical_one, Z.mod_small by lia. done.
  - intros a b. symmetry. apply of_int_eq. rewrite to_canonical_add, !of_int_canonical. symmetry. by apply Z.add_mod; lia.
  - intros a b. symmetry. apply of_int_eq. rewrite to_canonical_mul, !of_int_canonical. symmetry. by apply Z.mul_mod; lia.
Qed.

Lemma from_i64_int `{FromI64 F, !FromI64Laws F} z : in_s 64 z -> from_i64 z = of_int z.
Proof. intros Hz. apply of_int_eq. by apply from_i64_spec. Qed.

Lemma from_i128_int `{FromI128 F, !FromI128Laws F} z : in_s 128 z -> from_i128 z = of_int z.
Proof. intros Hz. apply of_int_eq. by apply from_i128_spec. Qed.

(** The representative of least absolute value. *)
Definition center_int (x : F) : Z := let c := to_canonical x in if qm / 2 <? c then c - qm else c.

Lemma center_int_spec x : of_int (center_int x) = x /\ Z.abs (center_int x) <= qm / 2.
Proof.
  pose proof (qm_pos (F := F)). pose proof (to_canonical_range x) as Hx. unfold center_int. cbv zeta. split.
  - symmetry. apply of_int_eq. destruct (Z.ltb_spec (qm / 2) (to_canonical x)).
    + replace (to_canonical x - qm) with (to_canonical x + (-1) * qm) by ring. by rewrite Z.mod_add, canonical_small by lia.
    + by rewrite canonical_small.
  - destruct (Z.ltb_spec (qm / 2) (to_canonical x)); [|lia]. Z.to_euclidean_division_equations; lia.
Qed.
End integers.

Section exact.
Context {Er : Type} `{BuildMode}.
Context {F : Type} `{FieldLaws F, CanonicalEncoding F, !CanonicalFieldLaws F}.
Context `{FromI64 F, !FromI64Laws F, FromI128 F, !FromI128Laws F}.
Variables (R_LOG : Z) (K : nat) (params : CrtNttParamSet).
Hypothesis prep : prepared R_LOG K params.
Hypothesis q_small : modulus F < 2 ^ 128.
Abbreviation qm := (modulus F).
Abbreviation D := (Z.of_nat (2 ^ K)).
Abbreviation elem_is := (elem_is R_LOG K params).
Abbreviation ring := (CyclotomicRing F).
Abbreviation moduli := (map p (primes params)).
Add Ring Fring_exact : (field_ring (E := F)).

(** * Entering *)

Lemma center_canonical_spec (x : F) : center_canonical (Er := Er) qm (to_canonical x) = Ok (center_int x).
Proof.
  pose proof (to_canonical_range x) as Hx. unfold center_canonical, center_int. cbv zeta.
  destruct (Z.ltb_spec (qm / 2) (to_canonical x)).
  - rewrite u128_Ok by lia. cbn [obind].
    assert (qm - to_canonical x < 2 ^ 127) by (Z.to_euclidean_division_equations; lia).
    rewrite cast_i128 by lia. rewrite i128_fits_ok by lia. f_equal. lia.
  - rewrite cast_i128; [done|]. split; [lia|]. Z.to_euclidean_division_equations; lia.
Qed.

Definition centered (r : ring) : list Z := map center_int (ring_coeffs r).

Lemma centered_coefficients_spec (r : ring) : centered_coefficients_i128 (Er := Er) r = Ok (centered r).
Proof.
  unfold centered_coefficients_i128. rewrite field_modulus_spec by done. cbn [obind].
  unfold centered. induction (ring_coeffs r) as [|x l IH]; [done|]. cbn [omapM map].
  by rewrite center_canonical_spec, IH.
Qed.

Lemma centered_range (r : ring) : Forall (in_s 128) (centered r).
Proof.
  apply Forall_map, list.Forall_forall. intros x _. destruct (center_int_spec x) as [_ Hb].
  pose proof (qm_pos (F := F)). unfold in_s. assert (qm / 2 < 2 ^ 127) by (apply Z.div_lt_upper_bound; lia). lia.
Qed.

Lemma len_centered (r : ring) : wf D r -> len (centered r) = D.
Proof. unfold wf, len, centered. by rewrite length_map. Qed.

Lemma from_ring_spec (cyc : bool) (r : ring) : wf D r ->
  exists e, (if cyc then from_ring_cyclic (Er := Er) R_LOG D r params else from_ring R_LOG D r params) = Ok e /\
    elem_is cyc (poly (centered r)) e.
Proof.
  intros Hr. destruct (elem_forward (Er := Er) R_LOG K params prep cyc (poly (centered r)) (fun _ P => wide_limb R_LOG P (centered r)))
    as (e & He & Hp).
  - intros k P tw HP Hrd. by eapply wide_all; [apply len_centered|apply centered_range|..].
  - exists e. destruct cyc; unfold from_ring, from_ring_cyclic; rewrite centered_coefficients_spec; done.
Qed.

Lemma from_ring_pair_spec (r : ring) : wf D r ->
  exists e e', from_ring_pair_with_params (Er := Er) R_LOG D r params = Ok (e, e') /\
    elem_is false (poly (centered r)) e /\ elem_is true (poly (centered r)) e'.
Proof.
  intros Hr. unfold from_ring_pair_with_params. rewrite centered_coefficients_spec. cbn [obind].
  apply (elem_both (Er := Er) R_LOG K params prep (poly (centered r)) (fun _ P => wide_limb R_LOG P (centered r))).
  intros k P tw HP Hrd. by eapply wide_all; [apply len_centered|apply centered_range|..].
Qed.

Lemma from_scalar_spec (cyc : bool) (x : F) :
  exists e, from_scalar_with_params (Er := Er) R_LOG D x params = Ok e /\
    elem_is cyc (fun i => if i =? 0 then center_int x else 0) e.
Proof.
  unfold from_scalar_with_params. rewrite field_modulus_spec by done. cbn [obind]. rewrite center_canonical_spec. cbn [obind].
  assert (Hb : in_s 128 (center_int x)).
  { pose proof (proj1 (list.Forall_forall _ _) (centered_range {| ring_coeffs := [x] |}) (center_int x)) as Hc.
    apply Hc. by left. }
  destruct (omapM_index (fun prime => let* reducer := wide_new (Er := Er) prime in
      let* r := reduce_i128 R_LOG reducer (center_int x) in Ok (replicate (Z.to_nat D) (from_canonical R_LOG prime r)))
    (fun _ P l => forall tw, ready R_LOG K P tw -> limb_is R_LOG K P tw cyc (fun i => if i =? 0 then center_int x else 0) l)
    (primes params)) as (ls & Hls & Hl & Hi).
  - intros k P HP. destruct (twiddle_of _ _ _ prep k P HP) as (tw & _ & Hr).
    destruct (wide_spec (Er := Er) R_LOG P ltac:(apply Hr)) as (reducer & -> & Hw). cbn [obind].
    destruct (Hw (center_int x) Hb) as (r & -> & Hres). cbn [obind]. eexists. split; [done|].
    intros tw' Hr'. rewrite Nat2Z.id. apply limb_const; [done|]. by eapply rep_residue.
  - rewrite Hls. unfold elem. cbn [obind]. eexists. split; [done|]. split; [done|].
    intros k P tw HP Htw. destruct (Hi k P HP) as (l & Hk & Hlim). exists l. split; [done|]. apply Hlim.
    by eapply prime_ready.
Qed.

(** * Leaving *)

Lemma moduli_wf : Forall (well_formed R_LOG) (primes params).
Proof.
  pose proof (prep_limbs _ _ _ prep) as Hp. induction Hp as [|P tw ps tws Hr _ IH]; constructor; [apply Hr|done].
Qed.

Lemma reconstruct_loop ds :
  Forall2 balanced_digit moduli ds ->
  exists pp, ofold (reconstruct_step (Er := Er) (primes params) ds) (seqZ 1 (len (primes params) - 1))
      (of_int (poly ds 0), of_int (poly moduli 0)) = Ok (of_int (mixed moduli ds), pp).
Proof.
  intros Hb. pose proof (Forall2_length Hb) as Hl. rewrite length_map in Hl. pose proof (prep_nonempty _ _ _ prep) as Hne.
  destruct (moduli_ok R_LOG (primes params) moduli_wf) as [Hrange _].
  assert (Hn : 1 <= len (primes params)) by (destruct (primes params); [done|unfold len; cbn; lia]).
  set (I := fun i (st : F * F) => st.1 = of_int (mixed (take (Z.to_nat i) moduli) (take (Z.to_nat i) ds)) /\
    (i < len (primes params) -> st.2 = of_int (checked.Zprod (take (Z.to_nat i) moduli)))).
  destruct (ofold_seqZ I (reconstruct_step (Er := Er) (primes params) ds) 1 (len (primes params) - 1)
    (of_int (poly ds 0), of_int (poly moduli 0))) as ([res pp] & -> & Hres & _); [lia| | |].
  - subst I. destruct (primes params) as [|P ps]; [done|]. destruct ds as [|d ds]; [done|].
    change (Z.to_nat 1) with 1%nat. cbn [map take mixed checked.Zprod foldr fst snd]. rewrite !take_0.
    split; [|intros _]; unfold poly; rewrite index_head; cbn [default].
    + f_equal. cbn [mixed id]. ring.
    + f_equal. cbn [id foldr]. ring.
  - intros i [res pp] Hi [Hres Hpp]. cbn [fst snd] in *. unfold reconstruct_step.
    destruct (index_is_Some ds i) as [d Hd]; [unfold len in *; lia|].
    destruct (index_is_Some (primes params) i) as [P HP]; [lia|].
    assert (Hm : index moduli i = Some (p P)) by (by rewrite index_map, HP).
    rewrite Hd, HP. cbn [unwrap obind]. eexists. split; [done|]. subst I. cbn [fst snd].
    rewrite (take_index _ _ _ Hd), (take_index _ _ _ Hm), Zprod_app. change (checked.Zprod [p P]) with (p P * 1).
    rewrite Z.mul_1_r. pose proof (modulus_range _ Hrange i _ Hm) as Bm.
    assert (Bd : in_s 128 d).
    { pose proof (Forall2_lookup_lr _ _ _ (Z.to_nat i) (p P) d Hb) as Hbd. unfold index in Hm, Hd. destruct (0 <=? i); [|done].
      specialize (Hbd Hm Hd). unfold balanced_digit in Hbd. pose proof (Z.div_le_upper_bound (p P) 2 (p P)). unfold in_s. lia. }
    split.
    + rewrite mixed_snoc by (rewrite !length_take, length_map; lia).
      rewrite Hres, (from_i128_int d Bd), Hpp by lia.
      rewrite (hom_add (phi := of_int)), (hom_mul (phi := of_int)). ring.
    + intros Hlt. destruct (Z.ltb_spec (i + 1) (len (primes params))); [|lia].
      rewrite Hpp, from_i64_int by (lia || unfold in_s; lia). by rewrite (hom_mul (phi := of_int)).
  - exists pp. cbn [fst] in Hres. replace (1 + (len (primes params) - 1)) with (len (primes params)) in Hres by lia.
    unfold len in Hres. rewrite Nat2Z.id, !take_ge in Hres by (rewrite ?length_map; lia). by rewrite Hres.
Qed.

Lemma reconstruct_coefficient_spec residues x :
  length residues = length (primes params) ->
  (forall k P r, index (primes params) k = Some P -> index residues k = Some r -> cong (p P) x r) ->
  2 * Z.abs x < checked.Zprod moduli ->
  reconstruct_coefficient (Er := Er) (primes params) (garner params) residues = Ok (of_int x).
Proof.
  intros Hl Hc Hx. destruct (moduli_ok R_LOG (primes params) moduli_wf) as [Hrange Hodd].
  pose proof (prep_nonempty _ _ _ prep) as Hne. pose proof (prep_garner _ _ _ prep) as Hg.
  assert (Hl' : length residues = length moduli) by (by rewrite length_map).
  destruct (centered_mixed_radix_spec (Er := Er) moduli residues (garner params) Hrange Hodd Hl' Hg) as (ds & Hds & Hb & Hv);
    [by destruct (primes params)|].
  assert (Hxm : mixed moduli ds = x).
  { apply (reconstruct_unique moduli residues (garner params) Hrange Hodd Hl' Hg); try done.
    intros k m r Hm Hr. rewrite index_map in Hm. apply fmap_Some in Hm as (P & HP & ->). by apply (Hc k). }
  unfold reconstruct_coefficient. rewrite (moduli_u64 R_LOG _ moduli_wf), Hds. cbn [obind].
  pose proof (Forall2_length Hb) as Hlb. rewrite length_map in Hlb.
  assert (Hn : 1 <= len (primes params)) by (destruct (primes params); [done|unfold len; cbn; lia]).
  destruct (index_is_Some ds 0) as [d Hd]; [unfold len in *; lia|]. destruct (index_is_Some (primes params) 0) as [P HP]; [lia|].
  assert (Hm : index moduli 0 = Some (p P)) by (by rewrite index_map, HP).
  rewrite Hd, HP. cbn [unwrap obind]. pose proof (modulus_range _ Hrange 0 _ Hm) as Bm.
  assert (Bd : in_s 128 d).
  { pose proof (Forall2_lookup_lr _ _ _ (Z.to_nat 0) (p P) d Hb) as Hbd. specialize (Hbd Hm Hd).
    unfold balanced_digit in Hbd. pose proof (Z.div_le_upper_bound (p P) 2 (p P)). unfold in_s. lia. }
  rewrite (from_i128_int d Bd), from_i64_int by (unfold in_s; lia).
  destruct (reconstruct_loop ds Hb) as (pp & Hloop). unfold poly in Hloop. rewrite Hd, Hm in Hloop. cbn [default id] in Hloop.
  unfold len in *. rewrite Hloop. cbn [obind]. by rewrite Hxm.
Qed.

(** The residues of coefficient [j] over all limbs. *)
Definition canonical_of (f : Z -> Z) (canonical : list (list Z)) : Prop :=
  len canonical = len (primes params) /\
  forall k P, index (primes params) k = Some P ->
  exists rs, index canonical k = Some rs /\ length rs = (2 ^ K)%nat /\
    forall i r, index rs i = Some r -> cong (p P) r (f i) /\ - (p P / 2) <= r <= p P / 2.

Lemma column_spec f canonical j :
  canonical_of f canonical -> 0 <= j < D ->
  exists residues, column (Er := Er) canonical j = Ok residues /\ len residues = len (primes params) /\
    forall k P, index (primes params) k = Some P ->
      exists r, index residues k = Some r /\ cong (p P) r (f j) /\ - (p P / 2) <= r <= p P / 2.
Proof.
  intros [Hl Hc] Hj. unfold column.
  destruct (omapM_index (fun limb => unwrap (E := Er) (index limb j)) (fun _ limb r => index limb j = Some r) canonical)
    as (rs & Hrs & Hlr & Hi).
  - intros k limb Hk. destruct (index_same_len canonical (primes params) k limb Hl Hk) as (P & HP).
    destruct (Hc k P HP) as (limb' & Hk' & Hll & _). rewrite Hk in Hk'. injection Hk' as <-.
    destruct (index_is_Some limb j) as [r Hr]; [unfold len; lia|]. exists r. by rewrite Hr.
  - exists rs. split; [done|]. split; [by rewrite Hlr|]. intros k P HP. destruct (Hc k P HP) as (limb & Hk & _ & Hres).
    destruct (Hi k limb Hk) as (r & Hr & Hx). exists r. split; [done|]. by apply Hres.
Qed.

Lemma reconstruct_spec f canonical :
  canonical_of f canonical -> (forall i, 0 <= i < D -> 2 * Z.abs (f i) < checked.Zprod moduli) ->
  reconstruct (Er := Er) D (primes params) (garner params) canonical = Ok (map (fun i => of_int (f i)) (range D)).
Proof.
  intros Hc Hf. unfold reconstruct. assert (Hb : forall i, In i (range D) -> 0 <= i < D).
  { intros i Hi. by apply elem_of_range, list_elem_of_In. }
  induction (range D) as [|i l IH]; [done|]. cbn [omapM map].
  destruct (column_spec f canonical i Hc ltac:(apply Hb; by left)) as (residues & -> & Hl & Hr). cbn [obind].
  rewrite (reconstruct_coefficient_spec residues (f i)); [|unfold len in Hl; lia| |apply Hf, Hb; by left].
  - cbn [obind]. rewrite IH by (intros; apply Hb; by right). done.
  - intros k P r HP Hk. destruct (Hr k P HP) as (r' & Hk' & Hcong & _). rewrite Hk in Hk'. injection Hk' as <-.
    by symmetry.
Qed.

Lemma centered_coefficients_with_params_spec (cyc : bool) f e :
  elem_is cyc f e ->
  exists canonical,
    (if cyc then centered_cyclic_coefficients_with_params (Er := Er) R_LOG D e params
     else centered_coefficients_with_params R_LOG D e params) = Ok canonical /\ canonical_of f canonical.
Proof.
  intros [Hle He].
  destruct (each_limb_spec (Er := Er) R_LOG K params prep
    (fun k prime tw => let* limb := unwrap (index (limbs e) k) in
       let* c := inverse cyc R_LOG D prime tw limb in Ok (limb_residues R_LOG prime c))
    (fun _ P _ rs => length rs = (2 ^ K)%nat /\
       forall i r, index rs i = Some r -> cong (p P) r (f i) /\ - (p P / 2) <= r <= p P / 2)) as (xs & Hxs & Hl & Hi).
  - intros k P tw HP Htw Hr. destruct (He k P tw HP Htw) as (l & -> & Hlim). cbn [unwrap obind].
    by apply (inverse_residues (Er := Er) R_LOG K P tw Hr cyc f l).
  - exists xs. split; [by destruct cyc|]. split; [done|]. intros k P HP.
    destruct (twiddle_of _ _ _ prep k P HP) as (tw & Htw & _). exact (Hi k P tw HP Htw).
Qed.

(** The ring element of an integer polynomial. *)
Definition ring_of (f : Z -> Z) : ring := {| ring_coeffs := map (fun i => of_int (f i)) (range D) |}.

Lemma to_ring_spec (cyc : bool) f e :
  elem_is cyc f e -> (forall i, 0 <= i < D -> 2 * Z.abs (f i) < checked.Zprod moduli) ->
  (if cyc then to_ring_cyclic (Er := Er) R_LOG D e params else to_ring R_LOG D e params) = Ok (ring_of f).
Proof.
  intros He Hf. destruct (centered_coefficients_with_params_spec cyc f e He) as (c & Hc & Hcan).
  destruct cyc; unfold to_ring, to_ring_cyclic; rewrite Hc; cbn [obind]; by rewrite (reconstruct_spec f).
Qed.

Lemma ring_of_wf f : wf D (ring_of f).
Proof. unfold wf, ring_of, len; cbn. rewrite length_map, length_range. lia. Qed.

Lemma ring_of_coef f c : 0 <= c < D -> coef (ring_of f) c = of_int (f c).
Proof.
  intros Hc. unfold coef, ring_of, get; cbn [ring_coeffs]. rewrite index_map. unfold index, range.
  destruct (Z.leb_spec 0 c); [|lia]. rewrite (proj2 (lookup_seqZ 0 D (Z.to_nat c) c)) by lia. done.
Qed.

Lemma ring_of_centered (r : ring) : wf D r -> ring_of (poly (centered r)) = r.
Proof.
  intros Hr. unfold ring_of. rewrite (poly_range of_int) by (by apply len_centered). unfold centered.
  rewrite map_map. destruct r as [l]. cbn [ring_coeffs]. f_equal. rewrite <-(map_id l) at 2.
  apply map_ext. intros x. apply center_int_spec.
Qed.
End exact.
