(* ===== verification/CrtOps.v ===== *)
(** The operations of the CRT representation on integer polynomials: sums,
    differences, products and multiply-accumulate act limb by limb as the
    corresponding operations modulo [X^D + 1], or [X^D - 1] on elements of
    the cyclic domain. *)

From Stdlib Require Import Zmod.
From S2P Require Import Prelude Checked Montgomery Ntt Field Cyclotomic Decomposition Gadget CrtRepr IntPoly CrtLimbs CrtConvert CrtElems CrtLut.
Local Open Scope Z_scope.

Section operations.
Context {Er : Type} `{BuildMode}.
Variables (R_LOG : Z) (K : nat) (params : CrtNttParamSet).
Hypothesis prep : prepared R_LOG K params.
Abbreviation D := (Z.of_nat (2 ^ K)).
Abbreviation elem_at := (elem_at R_LOG K params).
Abbreviation elem_is := (elem_is R_LOG K params).
Abbreviation product cyc := (conv D (ring_sign cyc)).

Lemma elem_at_ext cyc h h' e :
  (forall k i, 0 <= k < len (primes params) -> 0 <= i < D -> h k i = h' k i) -> elem_at cyc h e -> elem_at cyc h' e.
Proof.
  intros Hh [Hl He]. split; [done|]. intros k P tw HP Htw. destruct (He k P tw HP Htw) as (l & Hk & Hlim).
  exists l. split; [done|]. apply (limb_is_ext R_LOG K P tw cyc (h k)); [|done]. intros i Hi. apply Hh; [|done].
  by apply index_Some_len in HP.
Qed.

Lemma crt_zero_spec cyc : elem_is cyc (fun _ => 0) (zero D params).
Proof.
  split; [cbn; unfold len; by rewrite length_replicate|]. intros k P tw HP Htw. pose proof (index_Some_len _ _ _ HP) as Hk.
  exists (replicate (2 ^ K)%nat 0). split; [|by apply limb_zero; eapply prime_ready].
  cbn [zero limbs]. rewrite Nat2Z.id. unfold index. destruct (Z.leb_spec 0 k); [|lia].
  apply lookup_replicate. split; [done|]. unfold len in Hk. lia.
Qed.

(** ** Limb-wise operations *)

Lemma limbwise {A} (l : list A) (F : NttPrime -> A -> outcome Er (list Z)) cyc h :
  len l = len (primes params) ->
  (forall k P tw a, index (primes params) k = Some P -> index (twiddles params) k = Some tw -> index l k = Some a ->
     exists x, F P a = Ok x /\ limb_is R_LOG K P tw cyc (h k) x) ->
  exists e, elem (omapM (fun '(k, a) => let* prime := unwrap (index (primes params) k) in F prime a) (enumerate l)) = Ok e /\
    elem_at cyc h e.
Proof.
  intros Hl HF.
  destruct (omapM_index (fun '(k, a) => let* prime := unwrap (E := Er) (index (primes params) k) in F prime a)
    (fun k _ x => forall P tw, index (primes params) k = Some P -> index (twiddles params) k = Some tw ->
       limb_is R_LOG K P tw cyc (h k) x) (enumerate l)) as (xs & Hxs & Hlx & Hi).
  - intros i [k a] [-> Ha]%index_enumerate. destruct (index_same_len l (primes params) i a Hl Ha) as (P & HP).
    destruct (twiddle_of _ _ _ prep i P HP) as (tw & Htw & _). rewrite HP. cbn [unwrap obind].
    destruct (HF i P tw a HP Htw Ha) as (x & Hx & Hlim). exists x. split; [done|].
    intros P' tw' HP' Htw'. by simplify_eq.
  - unfold elem. rewrite Hxs. cbn [obind]. eexists. split; [done|]. split.
    + cbn [limbs]. rewrite Hlx, <-Hl. unfold enumerate, len. rewrite length_zip_with, length_range. unfold len. lia.
    + intros k P tw HP Htw. destruct (index_same_len (primes params) l k P (eq_sym Hl) HP) as (a & Ha).
      destruct (Hi k (k, a)) as (x & Hx & Hlim); [by apply index_enumerate|]. exists x. split; [done|]. by apply Hlim.
Qed.

Lemma binary_spec cyc f g h a b (F : NttPrime -> list Z -> list Z -> outcome Er (list Z)) :
  (forall k P tw x y, ready R_LOG K P tw -> index (primes params) k = Some P ->
     limb_is R_LOG K P tw cyc f x -> limb_is R_LOG K P tw cyc g y ->
     exists z, F P x y = Ok z /\ limb_is R_LOG K P tw cyc h z) ->
  elem_is cyc f a -> elem_is cyc g b ->
  exists e, elem (omapM (fun '(k, (x, y)) => let* prime := unwrap (index (primes params) k) in F prime x y)
      (enumerate (zip (limbs a) (limbs b)))) = Ok e /\ elem_is cyc h e.
Proof.
  intros HF [La Ha] [Lb Hb].
  destruct (limbwise (zip (limbs a) (limbs b)) (fun P '(x, y) => F P x y) cyc (fun _ => h)) as (e & He & Hp).
  - unfold len in *. rewrite length_zip_with. lia.
  - intros k P tw [x y] HP Htw [Hx Hy]%index_zip. destruct (Ha k P tw HP Htw) as (x' & Hx' & Lx). destruct (Hb k P tw HP Htw) as (y' & Hy' & Ly).
    rewrite Hx in Hx'. rewrite Hy in Hy'. injection Hx' as <-. injection Hy' as <-.
    apply (HF k P tw); [by eapply prime_ready|done..].
  - exists e. split; [|done]. rewrite <-He. unfold elem. f_equal. apply omapM_ext. by intros [k [x y]].
Qed.

Lemma map_limbs_spec cyc f g h a b (F : NttPrime -> list Z -> list Z -> list Z) :
  (forall k P tw x y, ready R_LOG K P tw -> index (primes params) k = Some P ->
     limb_is R_LOG K P tw cyc f x -> limb_is R_LOG K P tw cyc g y -> limb_is R_LOG K P tw cyc h (F P x y)) ->
  elem_is cyc f a -> elem_is cyc g b -> exists e, map_limbs (Er := Er) F a b params = Ok e /\ elem_is cyc h e.
Proof.
  intros HF. apply (binary_spec cyc f g h a b (fun P x y => Ok (F P x y))).
  intros k P tw x y Hr HP Hx Hy. eexists. split; [done|]. by apply (HF k P tw).
Qed.

Lemma add_reduced_spec cyc f g a b : elem_is cyc f a -> elem_is cyc g b ->
  exists e, add_reduced (Er := Er) R_LOG a b params = Ok e /\ elem_is cyc (fun i => f i + g i) e.
Proof. apply map_limbs_spec. intros k P tw x y Hr _ Hx Hy. by eapply limb_add. Qed.

Lemma add_assign_reduced_spec cyc f g a b : elem_is cyc f a -> elem_is cyc g b ->
  exists e, add_assign_reduced (Er := Er) R_LOG a b params = Ok e /\ elem_is cyc (fun i => f i + g i) e.
Proof. apply add_reduced_spec. Qed.

Lemma sub_reduced_spec cyc f g a b : elem_is cyc f a -> elem_is cyc g b ->
  exists e, sub_reduced (Er := Er) R_LOG a b params = Ok e /\ elem_is cyc (fun i => f i - g i) e.
Proof. apply map_limbs_spec. intros k P tw x y Hr _ Hx Hy. by eapply limb_sub. Qed.

Lemma neg_reduced_spec cyc f a : elem_is cyc f a ->
  exists e, neg_reduced (Er := Er) R_LOG a params = Ok e /\ elem_is cyc (fun i => - f i) e.
Proof.
  intros [La Ha]. apply (limbwise (limbs a) (fun P l => Ok (map (fun x => reduce_range R_LOG P (wrapping_neg R_LOG x)) l))
    cyc (fun _ i => - f i) La). intros k P tw l HP Htw Hl. destruct (Ha k P tw HP Htw) as (l' & Hl' & Hlim).
  rewrite Hl in Hl'. injection Hl' as <-. eexists. split; [done|]. apply limb_neg; [|done]. by eapply prime_ready.
Qed.

Lemma pointwise_mul_spec cyc f g a b : elem_is cyc f a -> elem_is cyc g b ->
  exists e, pointwise_mul (Er := Er) R_LOG D a b params = Ok e /\ elem_is cyc (product cyc f g) e.
Proof.
  apply (binary_spec cyc f g (product cyc f g) a b (fun P x y =>
    let* output := Montgomery.pointwise_mul R_LOG P (replicate (Z.to_nat D) 0) x y in
    Ok (reduce_range_in_place R_LOG P output))).
  intros k P tw x y Hr _ Hx Hy. pose proof (limb_length _ _ _ _ Hr _ _ _ Hx) as Lx. pose proof (limb_length _ _ _ _ Hr _ _ _ Hy) as Ly.
  unfold Montgomery.pointwise_mul, len. rewrite length_replicate, Lx, Ly, Nat2Z.id, Z.eqb_refl. cbn [andb assert obind].
  eexists. split; [done|]. by apply limb_mul.
Qed.

(** ** Multiply-accumulate *)

Lemma mac_limb_spec cyc h g g' lhs rhs_limb acc k P tw :
  index (primes params) k = Some P -> index (twiddles params) k = Some tw ->
  elem_at cyc h acc -> elem_is cyc g lhs -> limb_is R_LOG K P tw cyc g' rhs_limb ->
  exists acc', mac_limb (Er := Er) R_LOG D lhs rhs_limb P k acc = Ok acc' /\
    elem_at cyc (fun j i => if j =? k then h k i + product cyc g g' i else h j i) acc'.
Proof.
  intros HP Htw [Lacc Hacc] [Llhs Hlhs] Hr. pose proof (prime_ready _ _ _ prep k P tw HP Htw) as Hrd.
  destruct (Hacc k P tw HP Htw) as (a & Ha & La). destruct (Hlhs k P tw HP Htw) as (l & Hl & Ll).
  unfold mac_limb. rewrite Ha, Hl. cbn [unwrap obind].
  rewrite (mac_loop R_LOG P (2 ^ K) a l rhs_limb) by (by eapply limb_length). cbn [obind].
  pose proof (index_Some_len _ _ _ Ha) as Hk. rewrite store_insert by done. cbn [obind]. eexists. split; [done|].
  split; [cbn [limbs]; unfold len in *; by rewrite length_insert|].
  intros j Pj twj HPj Htwj. cbn [limbs]. rewrite index_insert by done. destruct (Z.eqb_spec j k) as [->|].
  - simplify_eq. eexists. split; [done|]. by apply limb_mac.
  - by apply Hacc.
Qed.

Lemma add_assign_pointwise_mul_spec cyc f g g' acc lhs rhs :
  elem_is cyc f acc -> elem_is cyc g lhs -> elem_is cyc g' rhs ->
  exists acc', add_assign_pointwise_mul (Er := Er) R_LOG D acc lhs rhs params = Ok acc' /\
    elem_is cyc (fun i => f i + product cyc g g' i) acc'.
Proof.
  intros Hacc Hl Hr. unfold add_assign_pointwise_mul.
  destruct (ofold_range (fun n acc => elem_at cyc (fun j i => if j <? n then f i + product cyc g g' i else f i) acc)
    (fun self k => let* prime := unwrap (E := Er) (index (primes params) k) in
      let* rhs_limb := unwrap (index (limbs rhs) k) in mac_limb R_LOG D lhs rhs_limb prime k self)
    (len (primes params)) acc (len_nonneg _)) as (acc' & Hf & Hacc').
  - eapply elem_at_ext; [|exact Hacc]. intros k i [Hk _] _. destruct (Z.ltb_spec k 0); [lia|done].
  - intros k acc1 Hk H1. destruct (index_is_Some (primes params) k Hk) as [P HP].
    destruct (twiddle_of _ _ _ prep k P HP) as (tw & Htw & _). destruct Hr as [_ Hr].
    destruct (Hr k P tw HP Htw) as (l & Hl' & Hlim). rewrite HP, Hl'. cbn [unwrap obind].
    destruct (mac_limb_spec cyc _ g g' lhs l acc1 k P tw HP Htw H1 Hl Hlim) as (acc2 & H2 & He).
    exists acc2. split; [done|]. eapply elem_at_ext; [|exact He]. intros j i _ _. cbn beta.
    destruct (Z.eqb_spec j k) as [->|]; [|by destruct (Z.ltb_spec j k), (Z.ltb_spec j (k + 1)); try lia].
    destruct (Z.ltb_spec k k), (Z.ltb_spec k (k + 1)); lia.
  - exists acc'. split; [done|]. eapply elem_at_ext; [|exact Hacc']. intros k i Hk _. cbn beta.
    destruct (Z.ltb_spec k (len (primes params))); [done|lia].
Qed.
End operations.
