(* ===== verification/CrtMatVec.v ===== *)
(** Matrix-vector products in the CRT representation: every row accumulates
    the products of its entries with the transformed digit columns, so that
    leaving the representation gives the schoolbook products of ring elements
    whenever the parameter set has the capacity. *)

From Stdlib Require Import Zmod.
From S2P Require Import Prelude Checked Montgomery Ntt ModField Garner Capacity Field Cyclotomic Decomposition Gadget CrtRepr IntPoly CrtLimbs CrtConvert CrtElems CrtLut CrtExact CrtOps.
Local Open Scope Z_scope.

(** * Rows and columns *)

Lemma zip_for_lookup {E A B} (f : A -> B -> outcome E A) (Q : nat -> A -> Prop) dst src :
  length dst = length src ->
  (forall i a b, dst !! i = Some a -> src !! i = Some b -> exists c, f a b = Ok c /\ Q i c) ->
  exists cs, zip_for f dst src = Ok cs /\ length cs = length dst /\ forall i c, cs !! i = Some c -> Q i c.
Proof.
  revert Q src; induction dst as [|a dst IH]; intros Q [|b src] Hl Hf; try done; [by exists []|].
  destruct (Hf 0%nat a b eq_refl eq_refl) as (c & Hc & HQ).
  destruct (IH (fun i => Q (S i)) src) as (cs & Hcs & Hlc & Hi); [by injection Hl|intros i; exact (Hf (S i))|].
  exists (c :: cs). cbn [zip_for]. rewrite Hc, Hcs. split; [done|]. split; [cbn; by f_equal|].
  intros [|i] c' Hc'; [by injection Hc' as <-|by apply Hi].
Qed.

Lemma chunks_fuel_lookup {A} fuel k (l : list A) i :
  (0 < k)%nat -> (length l <= fuel)%nat -> (i * k < length l)%nat ->
  chunks_fuel fuel k l !! i = Some (take k (drop (i * k) l)).
Proof.
  intros Hk. revert l i; induction fuel as [|fuel IH]; intros l i Hl Hi; [lia|]. destruct l as [|x l]; [cbn in Hi; lia|].
  cbn [chunks_fuel]. destruct i as [|i]; [done|].
  change ((take k (x :: l) :: chunks_fuel fuel k (drop k (x :: l))) !! S i) with (chunks_fuel fuel k (drop k (x :: l)) !! i).
  rewrite IH by (rewrite length_drop; lia). rewrite drop_drop. do 2 f_equal; lia.
Qed.

Section rows.
Context {A : Type} (rows cols : Z) (l : list A).
Hypothesis cols_pos : 0 < cols.
Hypothesis rows_nonneg : 0 <= rows.
Hypothesis l_length : len l = rows * cols.

Lemma chunks_exact_all : chunks_exact cols l = chunks_of (Z.to_nat cols) l.
Proof.
  unfold chunks_exact, chunks_of. pose proof (chunks_fuel_full (length l) (Z.to_nat cols) l (Z.to_nat rows)) as Hf.
  unfold len in l_length. specialize (Hf ltac:(nia)).
  induction Hf as [|c cs Hc _ IH]; [done|]. cbn [List.filter]. unfold len at 1. rewrite Hc, Z2Nat.id, Z.eqb_refl by lia. by rewrite IH.
Qed.

Lemma chunks_exact_index i : 0 <= i < rows ->
  index (chunks_exact cols l) i = Some (take (Z.to_nat cols) (drop (Z.to_nat (i * cols)) l)).
Proof.
  intros Hi. rewrite chunks_exact_all. unfold index. destruct (Z.leb_spec 0 i); [|lia]. unfold chunks_of.
  unfold len in l_length. rewrite chunks_fuel_lookup by nia. do 3 f_equal. nia.
Qed.

Lemma len_chunks_exact : len (chunks_exact cols l) = rows.
Proof.
  rewrite chunks_exact_all. pose proof (chunks_fuel_full (length l) (Z.to_nat cols) l (Z.to_nat rows)) as Hf.
  unfold len in *. specialize (Hf ltac:(nia)). fold (chunks_of (Z.to_nat cols) l) in Hf.
  pose proof (chunks_of_concat (Z.to_nat cols) l ltac:(lia)) as Hc. rewrite <-Hc in l_length.
  assert (Hl : length (concat (chunks_of (Z.to_nat cols) l)) = (length (chunks_of (Z.to_nat cols) l) * Z.to_nat cols)%nat).
  { clear Hc l_length. induction Hf as [|c cs Hcl _ IH]; [done|]. cbn [concat length]. rewrite length_app, Hcl, IH. lia. }
  nia.
Qed.

Lemma row_of_prefix i j : 0 <= i -> 0 <= j < cols ->
  index (take (Z.to_nat cols) (drop (Z.to_nat (i * cols)) l)) j = index l (i * cols + j).
Proof.
  intros Hi Hj. unfold index. destruct (Z.leb_spec 0 j); [|lia]. destruct (Z.leb_spec 0 (i * cols + j)); [|nia].
  rewrite lookup_take_lt by lia. rewrite lookup_drop. f_equal. nia.
Qed.
End rows.

Lemma matrix_prefix {A} rows cols (matrix prefix : list A) :
  0 <= rows -> 0 < cols -> slice matrix 0 (rows * cols) = Some prefix ->
  len prefix = rows * cols /\ forall i t, 0 <= i < rows -> 0 <= t < cols -> index prefix (i * cols + t) = index matrix (i * cols + t).
Proof.
  intros Hr Hc Hp. unfold slice in Hp.
  destruct ((0 <=? 0) && (0 <=? rows * cols) && (rows * cols <=? len matrix)) eqn:Hb; [|done].
  apply andb_true_iff in Hb as [_ Hb%Z.leb_le]. injection Hp as <-. rewrite Z.sub_0_r. change (Z.to_nat 0) with 0%nat.
  rewrite drop_0. split.
  - unfold len in *. rewrite length_take. nia.
  - intros i t Hi Ht. unfold index. destruct (0 <=? i * cols + t); [|done]. apply lookup_take_lt. nia.
Qed.
Lemma ofold_index {E S A} (I : Z -> S -> Prop) (f : S -> A -> outcome E S) l s :
  I 0 s -> (forall i a s, index l i = Some a -> I i s -> exists s', f s a = Ok s' /\ I (i + 1) s') ->
  exists s', ofold f l s = Ok s' /\ I (len l) s'.
Proof.
  intros H0. induction l as [|x l IH] using rev_ind; intros Hf; [by exists s|].
  rewrite ofold_app, len_app. change (len [x]) with 1. destruct IH as (s1 & -> & H1).
  - intros i a s' Hi HI. apply (Hf i); [|done]. unfold index in *. destruct (0 <=? i); [|done]. by apply lookup_app_l_Some.
  - cbn [obind ofold]. destruct (Hf (len l) x s1) as (s2 & -> & H2); [by apply index_middle|done|]. by exists s2.
Qed.

Lemma len_enumerate {A} (l : list A) : len (enumerate l) = len l.
Proof. unfold enumerate, len. rewrite length_zip_with, length_range. unfold len. lia. Qed.

Lemma ofold_enumerate {E S A} (I : Z -> S -> Prop) (f : S -> Z * A -> outcome E S) l s :
  I 0 s -> (forall i a s, index l i = Some a -> I i s -> exists s', f s (i, a) = Ok s' /\ I (i + 1) s') ->
  exists s', ofold f (enumerate l) s = Ok s' /\ I (len l) s'.
Proof.
  intros H0 Hf. rewrite <-(len_enumerate l). apply ofold_index; [done|].
  intros i [k a] s' [-> Ha]%index_enumerate. by apply Hf.
Qed.

(** * The accumulation *)

Section accumulate.
Context `{BuildMode}.
Variables (R_LOG : Z) (K : nat) (params : CrtNttParamSet).
Hypothesis prep : prepared R_LOG K params.
Abbreviation D := (Z.of_nat (2 ^ K)).
Abbreviation elem_is := (elem_is R_LOG K params).

Variables (rows cols : Z) (A : Z -> Z -> Z -> Z) (matrix : list CyclotomicCrtNtt) (rhs : list (list Z)).
Hypothesis rows_pos : 0 <= rows.
Hypothesis cols_pos : 0 < cols.
Hypothesis rhs_length : len rhs = cols.
Hypothesis digits_length : Forall (fun digits => len digits = D) rhs.

Definition matrix_is : Prop := forall i t, 0 <= i < rows -> 0 <= t < cols ->
  exists e, index matrix (i * cols + t) = Some e /\ elem_is false (A i t) e.
Definition rhs_at (t : Z) : list Z := default [] (index rhs t).

(** Row [i] of the product, after [n] columns. *)
Definition row_sum (n i c : Z) : Z := zsum n (fun t => conv D (-1) (A i t) (poly (rhs_at t)) c).

Definition accumulated (n : Z) (accs : list CyclotomicCrtNtt) : Prop :=
  len accs = rows /\ forall i acc, accs !! i = Some acc -> elem_is false (row_sum n (Z.of_nat i)) acc.

Lemma accumulated_zero : accumulated 0 (replicate (Z.to_nat rows) (zero D params)).
Proof.
  split; [unfold len; rewrite length_replicate; lia|]. intros i acc [-> _]%lookup_replicate. by apply crt_zero_spec.
Qed.

Lemma zero_digits digits c : forallb (fun digit => digit =? 0) digits = true -> poly digits c = 0.
Proof.
  intros Hz. unfold poly. destruct (index digits c) as [d|] eqn:Hd; [|done]. unfold index in Hd.
  destruct (0 <=? c); [|done]. apply list_elem_of_lookup_2, list_elem_of_In in Hd. by apply (proj1 (forallb_forall _ _) Hz) in Hd as ->%Z.eqb_eq.
Qed.

Lemma add_column_spec lut n digits accs :
  matrix_is -> len matrix = rows * cols -> index rhs n = Some digits ->
  (exists e, converter_transform (Er := AkitaError) R_LOG D params lut digits = Ok e /\ elem_is false (poly digits) e) ->
  accumulated n accs ->
  exists accs', add_column R_LOG D matrix cols params lut accs (n, digits) = Ok accs' /\ accumulated (n + 1) accs'.
Proof.
  intros HA Hm Hn (e & He & Hp) [Hl Hacc]. pose proof (index_Some_len _ _ _ Hn) as Bn.
  assert (Hr : rhs_at n = digits) by (unfold rhs_at; by rewrite Hn).
  assert (Hs : forall i c, row_sum (n + 1) i c = row_sum n i c + conv D (-1) (A i n) (poly digits) c).
  { intros i c. unfold row_sum. by rewrite zsum_S, Hr by lia. }
  unfold add_column. destruct (forallb (fun digit => digit =? 0) digits) eqn:Hz.
  - exists accs. split; [done|]. split; [done|]. intros i acc Hi. eapply elem_is_ext; [|by apply Hacc].
    intros c Hc. rewrite Hs. enough (conv D (-1) (A (Z.of_nat i) n) (poly digits) c = 0) by lia.
    apply zsum_zero. intros j _. apply zsum_zero. intros k _. rewrite (zero_digits digits k Hz). ring.
  - rewrite He. cbn [obind].
    destruct (zip_for_lookup (fun accumulator row =>
        let* matrix_entry := ok_or (index row n) (InvalidSetup "prepared NTT matrix row is undersized") in
        add_assign_pointwise_mul R_LOG D accumulator matrix_entry e params)
      (fun i acc => elem_is false (row_sum (n + 1) (Z.of_nat i)) acc) accs (chunks_exact cols matrix)) as (cs & Hcs & Hlc & Hi).
    + pose proof (len_chunks_exact rows cols matrix cols_pos rows_pos Hm) as Hlr. unfold len in *. lia.
    + intros i acc row Hi Hrow. assert (Bi : 0 <= Z.of_nat i < rows).
      { apply lookup_lt_Some in Hi. unfold len in Hl. lia. }
      rewrite <-index_nat, (chunks_exact_index rows cols matrix) in Hrow by done. injection Hrow as <-.
      rewrite row_of_prefix by lia. destruct (HA (Z.of_nat i) n Bi ltac:(lia)) as (m & -> & Hme). cbn [ok_or obind].
      destruct (add_assign_pointwise_mul_spec (Er := AkitaError) R_LOG K params prep false _ _ _ acc m e (Hacc i acc Hi) Hme Hp)
        as (acc' & Hacc' & Hea). exists acc'. split; [done|]. eapply elem_is_ext; [|exact Hea].
      intros c Hc. by rewrite Hs.
    + exists cs. split; [done|]. split; [unfold len in *; lia|exact Hi].
Qed.
End accumulate.

(** * The product *)

Section product.
Context `{BuildMode}.
Variables (R_LOG : Z) (K : nat) (params : CrtNttParamSet).
Hypothesis prep : prepared R_LOG K params.
Abbreviation D := (Z.of_nat (2 ^ K)).

Lemma mat_vec_i16_ntt_spec rows cols A matrix rhs :
  0 <= rows -> 0 <= cols -> rows * cols <= USIZE_MAX -> rows * cols <= len matrix -> len rhs = cols ->
  Forall (fun digits => len digits = D) rhs -> matrix_is R_LOG K params rows cols A matrix ->
  exists accs, mat_vec_i16_ntt R_LOG D matrix rows cols rhs params = Ok accs /\ accumulated R_LOG K params rows A rhs cols accs.
Proof.
  intros Hr Hc Hov Hl Hrhs Hd HA. unfold mat_vec_i16_ntt. rewrite Hrhs, Z.eqb_refl. cbn [negb].
  assert (Hm : checked_mul rows cols = Some (rows * cols)).
  { apply checked_u_Some. split; [|done]. unfold in_u, USIZE_MAX in *. nia. }
  rewrite Hm. cbn [ok_or obind].
  assert (Hs : exists prefix, slice matrix 0 (rows * cols) = Some prefix).
  { unfold slice. destruct (Z.leb_spec 0 (rows * cols)); [|nia]. destruct (Z.leb_spec (rows * cols) (len matrix)); [|lia].
    by eexists. }
  destruct Hs as (prefix & Hp). rewrite Hp. cbn [ok_or obind].
  pose proof (accumulated_zero R_LOG K params prep rows A rhs Hr) as Hz.
  destruct (Z.eqb_spec cols 0) as [->|Hne]; [rewrite orb_true_r; by eexists|].
  assert (Hpre : len prefix = rows * cols /\ matrix_is R_LOG K params rows cols A prefix).
  { destruct (matrix_prefix rows cols matrix prefix Hr ltac:(lia) Hp) as [Hlp Hi].
    split; [done|]. intros i t Hi' Ht. rewrite Hi by done. by apply HA. }
  destruct Hpre as [Hlp HAp]. destruct (Z.eqb_spec rows 0) as [->|Hrne]; cbn [orb].
  { eexists. split; [done|]. by split. }
  destruct (converter_spec (Er := AkitaError) R_LOG K params prep rhs) as (lut & -> & Hlut). cbn [obind].
  replace (accumulated R_LOG K params rows A rhs cols) with (accumulated R_LOG K params rows A rhs (len rhs)) by (by rewrite Hrhs).
  apply (ofold_enumerate (accumulated R_LOG K params rows A rhs)); [done|].
  intros n digits accs Hn Hacc. apply (add_column_spec R_LOG K params prep rows cols A); try done; try lia.
  apply Hlut. unfold index in Hn. destruct (0 <=? n); [|done]. by apply (list.Forall_lookup_1 _ _ _ _ Hd) in Hn.
Qed.
Lemma mat_vec_i16_ntt_err matrix rows cols rhs :
  0 <= rows -> 0 <= cols ->
  (len rhs <> cols \/ USIZE_MAX < rows * cols -> mat_vec_i16_ntt R_LOG D matrix rows cols rhs params = Err InvalidProof) /\
  (len rhs = cols -> rows * cols <= USIZE_MAX -> len matrix < rows * cols ->
   mat_vec_i16_ntt R_LOG D matrix rows cols rhs params = Err (InvalidSetup "prepared NTT matrix prefix is undersized")).
Proof.
  intros Hr Hc. unfold mat_vec_i16_ntt. split.
  - intros He. destruct (Z.eqb_spec (len rhs) cols); [|done]. cbn [negb].
    destruct (checked_mul rows cols) as [x|] eqn:Hx; [|done]. apply checked_u_Some in Hx as [Hx _].
    unfold in_u, USIZE_MAX in *. lia.
  - intros -> Ho Hl. rewrite Z.eqb_refl. cbn [negb].
    assert (Hm : checked_mul rows cols = Some (rows * cols)).
    { apply checked_u_Some. split; [|done]. unfold in_u, USIZE_MAX in *. nia. }
    rewrite Hm. cbn [ok_or obind]. unfold slice. destruct (Z.leb_spec (rows * cols) (len matrix)); [lia|].
    by rewrite andb_false_r.
Qed.
End product.
