(* ===== verification/CrtProduct.v ===== *)
(** What the CRT representation computes, in the ring: conversions round
    trip, pointwise products are ring products, and the integer
    matrix-vector product is the schoolbook product of ring elements, each as
    long as the coefficients stay below half the product of the primes. *)

From Stdlib Require Import Zmod.
From S2P Require Import Prelude Checked Montgomery Ntt NttTables ModField Garner Capacity Field Cyclotomic Decomposition Gadget CrtRepr IntPoly CrtLimbs CrtConvert CrtElems CrtLut CrtExact CrtOps CrtMatVec.
Local Open Scope Z_scope.

(** * Parameter sets from moduli *)

(** Distinct odd primes of the width that have the roots for degree [2^K]. *)
Record good_moduli (R_LOG : Z) (K : nat) (ms : list Z) : Prop := {
  good_width : R_LOG = 16 \/ R_LOG = 32;
  good_nonempty : ms <> [];
  good_distinct : NoDup ms;
  good_primes : Forall (fun q => Z.prime q /\ Z.odd q = true /\ q < 2 ^ (R_LOG - 2) /\ (2 * Z.of_nat (2 ^ K) | q - 1)) ms;
}.

Definition setup {Er} `{BuildMode} (R_LOG D : Z) (ms : list Z) : outcome Er CrtNttParamSet :=
  let* ps := omapM (compute R_LOG) ms in params_new R_LOG D ps.

Lemma good_suitable {Er} `{BuildMode} R_LOG K ms : good_moduli R_LOG K ms ->
  exists ps, omapM (compute (Er := Er) R_LOG) ms = Ok ps /\ Forall (suitable R_LOG K) ps /\ map p ps = ms.
Proof.
  intros [Hw _ _ Hms]. induction Hms as [|q ms (Hp & Hodd & Hq & Hd) _ (ps & Hps & Hs & Hm)]; [by exists []|].
  assert (Hr : 1 < q < 2 ^ (R_LOG - 2)) by (destruct Hp; lia).
  destruct (compute_spec (Er := Er) R_LOG q Hw Hr Hodd) as (P & HP & HPq & Hok).
  exists (P :: ps). cbn [omapM map]. rewrite HP, Hps, HPq, Hm. split; [done|]. split; [|done].
  constructor; [|done]. unfold suitable. by rewrite HPq.
Qed.

Lemma setup_spec {Er} `{BuildMode} R_LOG K ms : good_moduli R_LOG K ms ->
  exists params, setup (Er := Er) R_LOG (Z.of_nat (2 ^ K)) ms = Ok params /\ prepared R_LOG K params /\
    map p (primes params) = ms.
Proof.
  intros Hg. destruct (good_suitable (Er := Er) R_LOG K ms Hg) as (ps & Hps & Hs & Hm). unfold setup. rewrite Hps. cbn [obind].
  destruct (crt_params_new_spec (Er := Er) R_LOG K ps) as (params & Hp & Hpr & <-).
  - intros ->. by apply (good_nonempty _ _ _ Hg).
  - done.
  - rewrite Hm. apply Hg.
  - by exists params.
Qed.

Section ring.
Context `{BuildMode}.
Context {F : Type} `{FieldLaws F, CanonicalEncoding F, !CanonicalFieldLaws F}.
Context `{FromI64 F, !FromI64Laws F, FromI128 F, !FromI128Laws F}.
Variable K : nat.
Abbreviation qm := (modulus F).
Abbreviation D := (Z.of_nat (2 ^ K)).
Abbreviation ring := (CyclotomicRing F).
Abbreviation ring_of := (ring_of (F := F) K).
Add Ring Fring_product : (field_ring (E := F)).

Lemma ring_dim : 0 < D.
Proof. pose proof (Nat.pow_nonzero 2 K ltac:(lia)). lia. Qed.

Lemma coef_centered (a : ring) c : wf D a -> 0 <= c < D -> coef a c = of_int (poly (centered a) c).
Proof. intros Ha Hc. rewrite <-(ring_of_centered K a Ha) at 1. by apply ring_of_coef. Qed.

Lemma centered_bound (a : ring) c : Z.abs (poly (centered a) c) <= qm / 2.
Proof.
  unfold poly, centered. rewrite index_map. destruct (index (ring_coeffs a) c) as [x|]; cbn [fmap option_fmap option_map default id].
  - apply center_int_spec.
  - pose proof (qm_pos (F := F)). pose proof (Z.div_pos qm 2). lia.
Qed.

(** ** The schoolbook product *)

Definition digits_ring (digits : list Z) : ring := {| ring_coeffs := map from_i64 digits |}.
Definition ring_row (row : list ring) (rhs : list (list Z)) : result ring :=
  ofold (fun acc '(a, digits) =>
      let* t := CyclotomicRing.mul D a (digits_ring digits) in Ok (CyclotomicRing.add_assign acc t))
    (zip row rhs) (CyclotomicRing.zero D).
Definition ring_mat_vec (matrix : list ring) (rows cols : Z) (rhs : list (list Z)) : result (list ring) :=
  omapM (fun i => ring_row (take (Z.to_nat cols) (drop (Z.to_nat (i * cols)) matrix)) rhs) (range rows).

Lemma digits_ring_of digits : len digits = D -> Forall (in_s 64) digits -> digits_ring digits = ring_of (poly digits).
Proof.
  intros Hl Hd. unfold digits_ring, CrtExact.ring_of. f_equal. rewrite (poly_range of_int digits D Hl).
  clear Hl. induction Hd as [|d l Hd _ IH]; [done|]. cbn [map]. f_equal; [by apply from_i64_int|exact IH].
Qed.

Lemma ring_of_ext f g : (forall c, 0 <= c < D -> f c = g c) -> ring_of f = ring_of g.
Proof. intros Hfg. unfold CrtExact.ring_of. f_equal. apply map_ext_in. intros c Hc. by rewrite Hfg by (by apply elem_of_range, list_elem_of_In). Qed.

Lemma ring_of_mul {Er} f g : CyclotomicRing.mul (Er := Er) D (ring_of f) (ring_of g) = Ok (ring_of (conv D (-1) f g)).
Proof.
  destruct (mul_spec D ring_dim (Er := Er) (ring_of f) (ring_of g)) as (r & -> & Hw & Hc); [apply ring_of_wf..|].
  f_equal. apply (ring_ext D); [done|apply ring_of_wf|]. intros c Hcc. rewrite Hc, ring_of_coef by done.
  rewrite (hom_conv_ring of_int D ring_dim) by done. apply mul_coef_ext; intros; by apply ring_of_coef.
Qed.

Lemma ring_of_add f g : CyclotomicRing.add_assign (ring_of f) (ring_of g) = ring_of (fun c => f c + g c).
Proof.
  destruct (add_spec D (ring_of f) (ring_of g)) as [Hw Hc]; [apply ring_of_wf..|].
  apply (ring_ext D); [done|apply ring_of_wf|]. intros c Hcc. rewrite Hc, !ring_of_coef by done.
  symmetry. apply (hom_add (phi := of_int)).
Qed.

Lemma ring_of_zero : CyclotomicRing.zero D = ring_of (fun _ => 0).
Proof.
  destruct (Cyclotomic.zero_spec (E := F) D ring_dim) as [Hw Hc]. apply (ring_ext D); [done|apply ring_of_wf|].
  intros c Hcc. rewrite Hc, ring_of_coef by done. symmetry. apply (hom_0 of_int).
Qed.

Definition row_entries (matrix : list ring) (cols i t : Z) : Z -> Z := poly (centered (default (CyclotomicRing.zero D) (index matrix (i * cols + t)))).

Lemma ring_row_pos matrix rows cols rhs i :
  0 < cols -> 0 <= i < rows -> rows * cols <= len matrix -> len rhs = cols ->
  Forall (wf D) matrix -> Forall (fun digits => len digits = D /\ Forall (in_s 64) digits) rhs ->
  ring_row (take (Z.to_nat cols) (drop (Z.to_nat (i * cols)) matrix)) rhs
  = Ok (ring_of (row_sum K (row_entries matrix cols) rhs cols i)).
Proof.
  intros Hc Hi Hl Hr Hm Hd. unfold ring_row. rewrite ring_of_zero.
  set (row := take (Z.to_nat cols) (drop (Z.to_nat (i * cols)) matrix)).
  assert (Hlr : len row = cols) by (unfold row, len in *; rewrite length_take, length_drop; nia).
  destruct (ofold_index (fun n acc => acc = ring_of (row_sum K (row_entries matrix cols) rhs n i))
    (fun acc '(a, digits) => let* t := CyclotomicRing.mul (Er := AkitaError) D a (digits_ring digits) in Ok (CyclotomicRing.add_assign acc t))
    (zip row rhs) (ring_of (fun _ => 0)) eq_refl) as (s & -> & ->).
  - intros n [a digits] acc [Ha Hdg]%index_zip ->. pose proof (index_Some_len _ _ _ Hdg) as Bn.
    unfold row in Ha. rewrite row_of_prefix in Ha by lia. unfold index in Hdg. destruct (0 <=? n) eqn:H0n; [|done].
    pose proof (proj1 (Forall_lookup _ _) Hd _ _ Hdg) as [Hld Hdd].
    assert (Hwa : wf D a).
    { unfold index in Ha. destruct (0 <=? i * cols + n); [|done]. by apply (list.Forall_lookup_1 _ _ _ _ Hm) in Ha. }
    rewrite (digits_ring_of digits Hld Hdd), <-(ring_of_centered K a Hwa), ring_of_mul. cbn [obind]. eexists. split; [done|].
    rewrite ring_of_add. apply ring_of_ext. intros c _. unfold row_sum. rewrite zsum_S by lia.
    unfold rhs_at, row_entries, index. rewrite H0n, Hdg. unfold index in Ha. rewrite Ha. done.
  - do 2 f_equal. f_equal. unfold len in *. rewrite length_zip_with. lia.
Qed.

Lemma ring_row_spec matrix rows cols rhs i :
  0 <= cols -> 0 <= i < rows -> rows * cols <= len matrix -> len rhs = cols ->
  Forall (wf D) matrix -> Forall (fun digits => len digits = D /\ Forall (in_s 64) digits) rhs ->
  ring_row (take (Z.to_nat cols) (drop (Z.to_nat (i * cols)) matrix)) rhs
  = Ok (ring_of (row_sum K (row_entries matrix cols) rhs cols i)).
Proof.
  intros Hc Hi Hl Hr Hm Hd. destruct (Z.eqb_spec cols 0) as [->|Hne]; [|apply (ring_row_pos matrix rows); by try lia].
  destruct rhs; [|by pose proof (len_nonneg rhs); rewrite len_cons in Hr; lia]. unfold ring_row. rewrite ring_of_zero.
  change (Z.to_nat 0) with 0%nat. by rewrite take_0.
Qed.

Lemma ring_mat_vec_spec matrix rows cols rhs :
  0 <= cols -> rows * cols <= len matrix -> len rhs = cols ->
  Forall (wf D) matrix -> Forall (fun digits => len digits = D /\ Forall (in_s 64) digits) rhs ->
  ring_mat_vec matrix rows cols rhs = Ok (map (fun i => ring_of (row_sum K (row_entries matrix cols) rhs cols i)) (range rows)).
Proof.
  intros Hc Hl Hr Hm Hd. apply omapM_Forall2. apply Forall2_fmap_r, Forall_Forall2_diag, list.Forall_forall.
  intros i Hi%elem_of_range. by apply (ring_row_spec matrix rows).
Qed.

(** ** Sizes *)

Lemma row_sum_bound matrix cols rhs b n i c :
  0 <= n -> 0 <= b -> 0 <= c < D -> Forall (fun digits => Forall (fun d => Z.abs d <= b) digits) rhs ->
  Z.abs (row_sum K (row_entries matrix cols) rhs n i c) <= n * (D * (qm / 2 * b)).
Proof.
  intros Hn Hb Hc Hd. apply zsum_bound; [done|]. intros t Ht. pose proof (qm_pos (F := F)).
  apply (conv_bound D ring_dim); [done|done|apply Z.div_pos; lia|done|intros; apply centered_bound|].
  intros j _. unfold poly, rhs_at, index. destruct (0 <=? t); [|by destruct (0 <=? j)].
  destruct (rhs !! Z.to_nat t) as [digits|] eqn:Hdg; cbn [default id]; [|by destruct (0 <=? j)].
  apply (list.Forall_lookup_1 _ _ _ _ Hd) in Hdg. destruct (0 <=? j); [|done].
  destruct (digits !! Z.to_nat j) as [d|] eqn:Hj; cbn [default id]; [|done]. by apply (list.Forall_lookup_1 _ _ _ _ Hdg) in Hj.
Qed.

(** ** Preparing the matrix *)

Hypothesis q_small : qm < 2 ^ 128.
Variables (R_LOG : Z) (ms : list Z).
Hypothesis good : good_moduli R_LOG K ms.
Abbreviation bound := (checked.Zprod ms).

Lemma prepare_matrix params matrix : prepared R_LOG K params -> Forall (wf D) matrix ->
  exists prep, omapM (fun r => from_ring (Er := AkitaError) R_LOG D r params) matrix = Ok prep /\ len prep = len matrix /\
    forall rows cols, 0 <= cols -> rows * cols <= len matrix ->
      matrix_is R_LOG K params rows cols (row_entries matrix cols) prep.
Proof.
  intros Hp Hm.
  destruct (omapM_index (fun r => from_ring (Er := AkitaError) R_LOG D r params)
    (fun _ r e => elem_is R_LOG K params false (poly (centered r)) e) matrix) as (prep & Hprep & Hl & Hi).
  - intros i r Hr. apply (from_ring_spec R_LOG K params Hp q_small false).
    unfold index in Hr. destruct (0 <=? i); [|done]. by apply (list.Forall_lookup_1 _ _ _ _ Hm) in Hr.
  - exists prep. do 2 (split; [done|]). intros rows cols Hc Hlm i t Hbi Hbt.
    destruct (index_is_Some matrix (i * cols + t)) as [r Hr]; [nia|]. destruct (Hi _ _ Hr) as (e & He & Hel).
    exists e. split; [done|]. unfold row_entries. by rewrite Hr.
Qed.

Lemma good_modulus q : In q ms -> 1 < q < 2 ^ 30.
Proof.
  intros Hq. destruct good as [Hw _ _ Hms]. apply (proj1 (Forall_forall _ _) Hms) in Hq as ([Hp _] & _ & Hlt & _).
  split; [lia|]. eapply Z.lt_le_trans; [exact Hlt|]. apply Z.pow_le_mono_r; lia.
Qed.

Lemma bound_pos : 0 < bound.
Proof.
  assert (Hg : forall l, (forall q, In q l -> 1 < q < 2 ^ 30) -> 0 < checked.Zprod l); [|exact (Hg ms good_modulus)].
  induction l as [|q l IH]; intros Hl; [done|]. cbn [checked.Zprod foldr]. fold (checked.Zprod l).
  specialize (IH ltac:(intros; apply Hl; by right)). pose proof (Hl q ltac:(by left)). nia.
Qed.

Lemma dim_width : in_u 64 D.
Proof.
  pose proof ring_dim. assert (Hq : exists q, In q ms).
  { pose proof (good_nonempty _ _ _ good) as Hne. revert Hne. generalize ms. intros [|q l]; [done|]. exists q. by left. }
  destruct Hq as (q & Hq). pose proof (good_modulus q Hq).
  apply (proj1 (Forall_forall _ _) (good_primes _ _ _ good)) in Hq as (_ & _ & _ & Hd%Z.divide_pos_le); [|lia]. unfold in_u. lia.
Qed.

Lemma crt_capacity_value params : map p (primes params) = ms ->
  exists c, crt_capacity (Er := AkitaError) params = Ok c /\ capacity c bound.
Proof.
  intros Hp. assert (Hms : map (fun prime => uwrap 128 (p prime)) (primes params) = ms).
  { rewrite <-Hp. apply map_ext_in. intros P HP. apply uwrap_id.
    pose proof (good_modulus (p P)) as Hq. rewrite <-Hp in Hq. specialize (Hq (in_map p _ _ HP)). unfold in_u. lia. }
  unfold crt_capacity. rewrite Hms. apply from_prime_moduli_spec.
  apply Forall_forall. intros q Hq. pose proof (good_modulus q Hq). unfold in_u. lia.
Qed.

Lemma supports_width c limit w b : capacity c limit -> in_u 64 w -> in_u 64 b ->
  CrtCapacity.supports_modulus (Er := AkitaError) c w D qm b = Ok (2 * w * D * (qm / 2) * b <? limit).
Proof.
  intros Hc Hw Hb. apply supports_spec; [done..|apply dim_width| |done]. pose proof (qm_pos (F := F)). unfold in_u. lia.
Qed.

(** ** The exact product *)

Definition input_digits (b : Z) (rhs : list (list Z)) : Prop :=
  Forall (fun digits => len digits = D /\ Forall (fun d => in_s 16 d /\ Z.abs d <= b) digits) rhs.

Lemma input_digits_lengths b rhs : input_digits b rhs -> Forall (fun digits => len digits = D) rhs.
Proof. intros Hd. eapply list.Forall_impl; [exact Hd|]. by intros d [Hld _]. Qed.

Lemma row_sum_small matrix cols b rhs limit i c :
  0 <= cols -> 0 <= b -> input_digits b rhs -> 2 * cols * D * (qm / 2) * b < limit -> 0 <= c < D ->
  2 * Z.abs (row_sum K (row_entries matrix cols) rhs cols i c) < limit.
Proof.
  intros Hc Hb Hd Hlt Hcc. pose proof (row_sum_bound matrix cols rhs b cols i c Hc Hb Hcc) as Hbd.
  assert (Hdb : Forall (fun digits => Forall (fun d => Z.abs d <= b) digits) rhs).
  { eapply list.Forall_impl; [exact Hd|]. intros d [_ Hdd]. eapply list.Forall_impl; [exact Hdd|]. by intros z [_ ?]. }
  specialize (Hbd Hdb). lia.
Qed.

Lemma ring_mat_vec_value matrix rows cols b rhs :
  0 <= cols -> rows * cols <= len matrix -> len rhs = cols -> Forall (wf D) matrix -> input_digits b rhs ->
  ring_mat_vec matrix rows cols rhs = Ok (map (fun i => ring_of (row_sum K (row_entries matrix cols) rhs cols i)) (range rows)).
Proof.
  intros Hc Hl Hr Hm Hd. apply ring_mat_vec_spec; try done. eapply list.Forall_impl; [exact Hd|].
  intros d [Hld Hdd]. split; [done|]. eapply list.Forall_impl; [exact Hdd|]. intros z [Hz _]. unfold in_s in *. lia.
Qed.

Lemma mat_vec_i16_value params matrix prep rows cols b rhs :
  prepared R_LOG K params -> map p (primes params) = ms ->
  0 <= rows -> 0 <= cols -> 0 <= b -> rows * cols <= USIZE_MAX -> rows * cols <= len matrix -> len rhs = cols ->
  Forall (wf D) matrix -> input_digits b rhs -> len prep = len matrix ->
  matrix_is R_LOG K params rows cols (row_entries matrix cols) prep ->
  2 * cols * D * (qm / 2) * b < bound ->
  mat_vec_i16 R_LOG D prep rows cols rhs params = ring_mat_vec matrix rows cols rhs.
Proof.
  intros Hp Hms Hr Hc Hb Ho Hl Hrl Hm Hd Hlp HA Hcap. rewrite (ring_mat_vec_value matrix rows cols b) by done.
  unfold mat_vec_i16. destruct (mat_vec_i16_ntt_spec R_LOG K params Hp rows cols (row_entries matrix cols) prep rhs)
    as (accs & -> & Hla & Hacc); try done; [by rewrite Hlp|by eapply input_digits_lengths|].
  cbn [obind]. apply omapM_Forall2, Forall2_fmap_r. apply (Forall2_same_length_lookup_2).
  { unfold len in Hla. rewrite length_range. lia. }
  intros i acc k Hi Hk. unfold range in Hk. apply lookup_seqZ in Hk as [-> Hk].
  apply (to_ring_spec R_LOG K params Hp false); [by apply Hacc|]. rewrite Hms. intros c Hcc.
  by apply (row_sum_small matrix cols b).
Qed.

(** C25: The matrix-vector product over the CRT representation is exact, on
    the scalar kernel plan.  Let the field modulus be below [2^128], [D] a
    power of two, the moduli distinct odd primes, at least one, below [2^30]
    for [i32] residues and [2^14] for [i16], with [2 D | q - 1], and the ring
    elements of size [D].  The parameter set is
    built and every ring element of the matrix is transformed.  For [usize]
    dimensions and columns of [D] digits of type [i16] bounded by [b], if the
    capacity of the primes supports the number of columns, the field modulus
    and the bound, then the product returns the schoolbook products modulo
    [X^D + 1] of the prefix of the matrix, and otherwise the error of the
    first failed check: a wrong number of digit columns or an overflowing
    size, or a matrix that is too short.  No input panics. *)
Theorem mat_vec_i16_exact matrix rows cols b rhs :
  in_u 64 rows -> in_u 64 cols -> in_u 64 b -> Forall (wf D) matrix -> input_digits b rhs ->
  exists params capacity prep,
    setup (Er := AkitaError) R_LOG D ms = Ok params /\
    crt_capacity (Er := AkitaError) params = Ok capacity /\
    omapM (fun r => from_ring (Er := AkitaError) R_LOG D r params) matrix = Ok prep /\
    (CrtCapacity.supports_modulus (Er := AkitaError) capacity cols D qm b = Ok true ->
     mat_vec_i16 R_LOG D prep rows cols rhs params =
       if negb (len rhs =? cols) || (USIZE_MAX <? rows * cols) then Err InvalidProof
       else if len matrix <? rows * cols then Err (InvalidSetup "prepared NTT matrix prefix is undersized")
       else ring_mat_vec matrix rows cols rhs).
Proof.
  intros Hr Hc Hb Hm Hd. destruct (setup_spec (Er := AkitaError) R_LOG K ms good) as (params & Hset & Hp & Hms).
  destruct (crt_capacity_value params Hms) as (capacity & Hcap & Hcv). pose proof (supports_width capacity _ cols b Hcv Hc Hb) as Hsup.
  destruct (prepare_matrix params matrix Hp Hm) as (prep & Hprep & Hlp & HA).
  exists params, capacity, prep. do 3 (split; [done|]). rewrite Hsup. intros [= Hlt%Z.ltb_lt].
  unfold in_u in *. destruct (mat_vec_i16_ntt_err R_LOG K params prep rows cols rhs ltac:(lia) ltac:(lia)) as [Herr Hshort].
  destruct (Z.eqb_spec (len rhs) cols) as [Hl|Hne]; cbn [negb orb]; [|unfold mat_vec_i16; by rewrite Herr by auto].
  destruct (Z.ltb_spec USIZE_MAX (rows * cols)); [unfold mat_vec_i16; by rewrite Herr by auto|].
  destruct (Z.ltb_spec (len matrix) (rows * cols)); [unfold mat_vec_i16; by rewrite Hshort by (done || lia)|].
  apply (mat_vec_i16_value params matrix prep rows cols b); try done; try lia. apply HA; lia.
Qed.

(** Ring elements survive the CRT representation, and products in it are
    ring products: for a parameter set over suitable primes, leaving the
    representation undoes entering it, in the negacyclic and the cyclic
    domain, when the modulus of the field is at most the product of the primes, and
    the pointwise product of two transformed elements is their product
    modulo [X^D + 1] when [2 D floor(q / 2)^2] is below the product. *)
Theorem crt_ring_product a b :
  wf D a -> wf D b -> qm <= bound ->
  exists params ea eb ca e,
    setup (Er := AkitaError) R_LOG D ms = Ok params /\
    from_ring (Er := AkitaError) R_LOG D a params = Ok ea /\ to_ring (Er := AkitaError) R_LOG D ea params = Ok a /\
    from_ring_cyclic (Er := AkitaError) R_LOG D a params = Ok ca /\ to_ring_cyclic (Er := AkitaError) R_LOG D ca params = Ok a /\
    from_ring (Er := AkitaError) R_LOG D b params = Ok eb /\
    pointwise_mul (Er := AkitaError) R_LOG D ea eb params = Ok e /\
    (2 * (D * (qm / 2 * (qm / 2))) < bound ->
     to_ring (Er := AkitaError) R_LOG D e params = CyclotomicRing.mul D a b).
Proof.
  intros Ha Hb Hq. destruct (setup_spec (Er := AkitaError) R_LOG K ms good) as (params & Hset & Hp & Hms).
  destruct (from_ring_spec (Er := AkitaError) R_LOG K params Hp q_small false a Ha) as (ea & Hea & Pa).
  destruct (from_ring_spec (Er := AkitaError) R_LOG K params Hp q_small true a Ha) as (ca & Hca & Pc).
  destruct (from_ring_spec (Er := AkitaError) R_LOG K params Hp q_small false b Hb) as (eb & Heb & Pb).
  destruct (pointwise_mul_spec (Er := AkitaError) R_LOG K params Hp false _ _ ea eb Pa Pb) as (e & He & Pe).
  assert (Hodd : Z.odd bound = true).
  { assert (Hg : forall l, (forall q, In q l -> Z.odd q = true) -> Z.odd (checked.Zprod l) = true).
    - induction l as [|q l IH]; intros Hl; [done|]. cbn [checked.Zprod foldr]. fold (checked.Zprod l).
      rewrite Z.odd_mul, IH by (intros; apply Hl; by right). by rewrite Hl by (by left).
    - apply Hg. intros q Hin. by apply (proj1 (Forall_forall _ _) (good_primes _ _ _ good)) in Hin as (_ & ? & _). }
  assert (Hsmall : forall i, 0 <= i < D -> 2 * Z.abs (poly (centered a) i) < checked.Zprod (map p (primes params))).
  { intros i _. rewrite Hms. pose proof (centered_bound a i) as Hc.
    assert (2 * (qm / 2) <= qm) by (pose proof (Z.mul_div_le qm 2); lia).
    assert (2 * Z.abs (poly (centered a) i) <> bound); [|lia]. intros Heq. rewrite <-Heq in Hodd.
    by rewrite Z.odd_mul in Hodd. }
  exists params, ea, eb, ca, e. split; [done|]. split; [done|].
  split; [rewrite (to_ring_spec R_LOG K params Hp false _ ea Pa Hsmall); by rewrite ring_of_centered|].
  split; [done|]. split; [rewrite (to_ring_spec R_LOG K params Hp true _ ca Pc Hsmall); by rewrite ring_of_centered|].
  do 2 (split; [done|]). intros Hlt.
  rewrite (to_ring_spec R_LOG K params Hp false _ e Pe).
  - by rewrite <-(ring_of_centered K a Ha) at 2; rewrite <-(ring_of_centered K b Hb) at 2; rewrite ring_of_mul.
  - intros c Hc. rewrite Hms. pose proof (qm_pos (F := F)).
    pose proof (conv_bound D ring_dim (-1) (poly (centered a)) (poly (centered b)) (qm / 2) (qm / 2) c) as Hcb.
    specialize (Hcb ltac:(done) Hc ltac:(apply Z.div_pos; lia) ltac:(apply Z.div_pos; lia)).
    specialize (Hcb ltac:(intros; apply centered_bound) ltac:(intros; apply centered_bound)).
    change (ring_sign false) with (-1). lia.
Qed.
End ring.



(** * Witnesses *)

Module F97_crt.
#[export] Instance from_i128_97 : FromI128 F97.t := F97.of_Z.
#[export] Instance from_i128_laws : FromI128Laws F97.t.
Proof. done. Qed.
Definition a : CyclotomicRing F97.t := {| ring_coeffs := map F97.of_Z [3; 40; 96; 51]%Z |}.
Definition b : CyclotomicRing F97.t := {| ring_coeffs := map F97.of_Z [48; 0; 7; 95]%Z |}.
Definition moduli : list Z := [193; 97; 41].

Lemma moduli_good : good_moduli 16 2 moduli.
Proof.
  split; [by left|done| |].
  - apply (bool_decide_unpack _). by vm_compute.
  - repeat constructor; try (by apply prime_by_trial); try done; [by exists 24|by exists 12|by exists 5].
Qed.
End F97_crt.

Section witnesses.
Import F97_slices F97_gadget F97_crt.

Lemma mat_vec_i16_exact_witness :
  exists params capacity prep,
    setup (Er := AkitaError) 16 4 moduli = Ok params /\
    crt_capacity (Er := AkitaError) params = Ok capacity /\
    omapM (fun r => from_ring (Er := AkitaError) 16 4 r params) [a; b; b; a] = Ok prep /\
    (CrtCapacity.supports_modulus (Er := AkitaError) capacity 2 4 97 300 = Ok true ->
     mat_vec_i16 (F := F97.t) 16 4 prep 2 2 [[5; -300; 0; 299]; [0; 0; 0; 1]] params =
       if negb (len [[5; -300; 0; 299]; [0; 0; 0; 1]] =? 2) || (USIZE_MAX <? 2 * 2) then Err InvalidProof
       else if len [a; b; b; a] <? 2 * 2 then Err (InvalidSetup "prepared NTT matrix prefix is undersized")
       else ring_mat_vec 2 [a; b; b; a] 2 2 [[5; -300; 0; 299]; [0; 0; 0; 1]]).
Proof.
  apply (mat_vec_i16_exact (F := F97.t) 2 ltac:(done) 16 moduli moduli_good [a; b; b; a] 2 2 300);
    [done..|repeat constructor|repeat constructor; done].
Defined.

Example mat_vec_i16_capacity :
  (let* c := CrtCapacity.from_prime_moduli (Er := AkitaError) moduli in
   CrtCapacity.supports_modulus c 2 4 97 300) = Ok true /\
  omapr (map (fun r => map F97.val (ring_coeffs r)))
    (ring_mat_vec 2 [a; b; b; a] 2 2 [[5; -300; 0; 299]; [0; 0; 0; 1]]) = Ok [[57; 77; 5; 45]; [85; 95; 0; 23]].
Proof. vm_compute. split; reflexivity. Qed.

(** The same product, run through the CRT representation. *)
Example mat_vec_i16_runs :
  (let* params := setup 16 4 moduli in
   let* prep := omapM (fun r => from_ring 16 4 r params) [a; b; b; a] in
   let* rows := mat_vec_i16 (F := F97.t) 16 4 prep 2 2 [[5; -300; 0; 299]; [0; 0; 0; 1]] params in
   Ok (map (fun r => map F97.val (ring_coeffs r)) rows)) = Ok [[57; 77; 5; 45]; [85; 95; 0; 23]].
Proof. vm_compute. reflexivity. Qed.

Lemma crt_ring_product_witness :
  exists params ea eb ca e,
    setup (Er := AkitaError) 16 4 moduli = Ok params /\
    from_ring (Er := AkitaError) 16 4 a params = Ok ea /\ to_ring (Er := AkitaError) 16 4 ea params = Ok a /\
    from_ring_cyclic (Er := AkitaError) 16 4 a params = Ok ca /\ to_ring_cyclic (Er := AkitaError) 16 4 ca params = Ok a /\
    from_ring (Er := AkitaError) 16 4 b params = Ok eb /\
    pointwise_mul (Er := AkitaError) 16 4 ea eb params = Ok e /\
    (2 * (4 * (97 / 2 * (97 / 2))) < checked.Zprod moduli ->
     to_ring (Er := AkitaError) 16 4 e params = CyclotomicRing.mul 4 a b).
Proof. apply (crt_ring_product (F := F97.t) 2 ltac:(done) 16 moduli moduli_good a b); done. Defined.
End witnesses.
