(* ===== verification/CrtTail.v ===== *)
(** [akita-algebra/src/ring/crt_ntt_repr/mixed.rs]: a profile of 30-bit
    primes extended by one 14-bit tail prime, whose residues are kept in a
    second matrix and which multiplies the capacity of the profile. *)

From Stdlib Require Import Zmod.
From S2P Require Import Prelude Checked Montgomery Ntt NttTables ModField Garner Capacity Field Cyclotomic Decomposition Gadget CrtRepr IntPoly CrtLimbs CrtConvert CrtElems CrtLut CrtExact CrtOps CrtMatVec CrtProduct.
Local Open Scope Z_scope.

(** The wide limbs are of type [i32], the tail limb of type [i16]. *)
Abbreviation WIDE := 32.
Abbreviation TAIL := 16.

Record I16TailParams := {
  wide : CrtNttParamSet;
  tail : CrtNttParamSet;
  tail_residue_weight : Z;
  tail_digit_weights : list Z;
}.

Section operations.
Context {Er : Type} `{BuildMode}.
Abbreviation out := (outcome Er).
Variable D : Z.

Definition tail_inverse (tail_modulus : Z) (prime : NttPrime) : out Z :=
  let* r := rem_euclid_i64 (p prime) tail_modulus in
  match modular_inverse (uwrap 64 r) (uwrap 64 tail_modulus) with Ok g => Ok (swrap 64 g) | _ => Panic end.

(** One iteration of [for i in (0..K).rev()]. *)
Definition weight_step (tail_modulus : Z) (tail_gamma : list Z) (st : Z * list Z) (i : Z) : out (Z * list Z) :=
  let '(weight, weights) := st in
  let* g := unwrap (index tail_gamma i) in
  let* product := i64 (weight * g) in
  let* _ := assert (negb (tail_modulus =? 0)) in
  let weight := Z.rem product tail_modulus in
  let* negated := i64 (- weight) in
  let* w := rem_euclid_i64 negated tail_modulus in
  let* weights := store weights i w in
  Ok (weight, weights).

Definition new (wide tail : CrtNttParamSet) : out I16TailParams :=
  let* tail_prime := unwrap (index (primes tail) 0) in
  let tail_modulus := p tail_prime in
  let* tail_gamma := omapM (tail_inverse tail_modulus) (primes wide) in
  let* (weight, weights) := ofold (weight_step tail_modulus tail_gamma) (rev (range (len (primes wide))))
                              (1, replicate (length (primes wide)) 0) in
  Ok {| wide := wide; tail := tail; tail_residue_weight := weight; tail_digit_weights := weights |}.

Section reconstruct.
Context {F : Type} `{Field F, FromI64 F, FromI128 F}.

(** The products of the moduli before each prime, and of all of them. *)
Definition field_weights (ps : list NttPrime) : list F * F :=
  foldl (fun '(weights, field_product) prime => (weights ++ [field_product], fmul field_product (from_i64 (p prime))))
    ([], fone) ps.

Definition tail_digit (params : I16TailParams) (tail_modulus tail_residue : Z) (digits : list Z) : out Z :=
  let* first := i128 (tail_residue * tail_residue_weight params) in
  let* sum := ofold (fun sum '(digit, weight) => let* term := i128 (digit * weight) in i128 (sum + term))
                (zip digits (tail_digit_weights params)) 0 in
  let* tail_digit := i128 (first + sum) in
  let* tail_digit := rem_euclid_i128 tail_digit tail_modulus in
  if Z.quot tail_modulus 2 <? tail_digit then i128 (tail_digit - tail_modulus) else Ok tail_digit.

Definition mixed_coefficient (wide_limbs tail_limbs : list (list Z)) (params : I16TailParams) (d : Z) : out F :=
  let ps := primes (wide params) in
  let* tail_prime := unwrap (index (primes (tail params)) 0) in
  let '(weights, tail_field_weight) := field_weights ps in
  let moduli := map (fun prime => uwrap 64 (p prime)) ps in
  let* residues := column wide_limbs d in
  let* digits := GarnerData.centered_mixed_radix (garner (wide params)) residues moduli in
  let* tail_limb := unwrap (index tail_limbs 0) in
  let* tail_residue := unwrap (index tail_limb d) in
  let* tail_digit := tail_digit params (p tail_prime) tail_residue digits in
  let result := foldl (fun result '(digit, weight) => fadd result (fmul (from_i128 digit) weight)) fzero (zip digits weights) in
  Ok (fadd result (fmul (from_i128 tail_digit) tail_field_weight)).

Definition mixed_coefficients_to_ring (wide_limbs tail_limbs : list (list Z)) (params : I16TailParams)
    : out (CyclotomicRing F) :=
  let* coefficients := omapM (mixed_coefficient wide_limbs tail_limbs params) (range D) in
  Ok (CyclotomicRing.from_coefficients coefficients).

Definition ntt_with_i16_tail_to_ring (wide_ntt tail_ntt : CyclotomicCrtNtt) (params : I16TailParams) : out (CyclotomicRing F) :=
  let* wide_limbs := centered_coefficients_with_params WIDE D wide_ntt (wide params) in
  let* tail_limbs := centered_coefficients_with_params TAIL D tail_ntt (tail params) in
  mixed_coefficients_to_ring wide_limbs tail_limbs params.

Definition cyclic_ntt_with_i16_tail_to_ring (wide_ntt tail_ntt : CyclotomicCrtNtt) (params : I16TailParams)
    : out (CyclotomicRing F) :=
  let* wide_limbs := centered_cyclic_coefficients_with_params WIDE D wide_ntt (wide params) in
  let* tail_limbs := centered_cyclic_coefficients_with_params TAIL D tail_ntt (tail params) in
  mixed_coefficients_to_ring wide_limbs tail_limbs params.
End reconstruct.
End operations.

Definition mat_vec_i16_with_tail `{BuildMode} {F} `{Field F, CanonicalEncoding F, FromI64 F, FromI128 F} (D : Z)
    (wide_matrix tail_matrix : list CyclotomicCrtNtt) (num_rows num_cols : Z) (rhs : list (list Z)) (params : I16TailParams)
    : result (list (CyclotomicRing F)) :=
  let* wide_accumulators := mat_vec_i16_ntt WIDE D wide_matrix num_rows num_cols rhs (wide params) in
  let* tail_accumulators := mat_vec_i16_ntt TAIL D tail_matrix num_rows num_cols rhs (tail params) in
  omapM (fun '(wide, tail) => ntt_with_i16_tail_to_ring D wide tail params) (zip wide_accumulators tail_accumulators).

(** * The weights of the tail digit *)

Lemma i64_exact {Er} `{BuildMode} z : in_s 64 z -> i64 (Er := Er) z = Ok z.
Proof.
  intros [Hl Hh]. unfold i64. destruct (Z.leb_spec (- 2 ^ 63) z), (Z.ltb_spec z (2 ^ 63)); [done|lia..].
Qed.

Section weights.
Variable m : Z.
Hypothesis m_range : 1 < m < 2 ^ 14.

(** The product of the inverses, and the negated products of their suffixes. *)
Fixpoint suffix_weight (gs : list Z) : Z := match gs with [] => 1 | g :: gs => (suffix_weight gs * g) mod m end.
Fixpoint suffix_weights (gs : list Z) : list Z :=
  match gs with [] => [] | g :: gs' => (- suffix_weight gs) mod m :: suffix_weights gs' end.

Lemma suffix_range gs : 0 <= suffix_weight gs < m.
Proof. destruct gs as [|g gs]; cbn [suffix_weight]; [lia|]. apply Z.mod_pos_bound. lia. Qed.

Lemma weights_range gs : Forall (fun w => 0 <= w < m) (suffix_weights gs) /\ length (suffix_weights gs) = length gs.
Proof.
  induction gs as [|g gs [IH1 IH2]]; cbn [suffix_weights length]; [by split; [constructor|]|]. split; [|by f_equal].
  constructor; [|done]. apply Z.mod_pos_bound. lia.
Qed.

(** [gs] are the inverses of [ms]. *)
Definition inverses (ms gs : list Z) : Prop := Forall2 (fun q g => cong m (q * g) 1) ms gs.

Lemma suffix_inverse ms gs : inverses ms gs -> cong m (suffix_weight gs * checked.Zprod ms) 1.
Proof.
  induction 1 as [|q g ms gs Hq _ IH]; [done|]. cbn [suffix_weight checked.Zprod foldr]. fold (checked.Zprod ms).
  rewrite mod_cong by lia. replace (suffix_weight gs * g * (q * checked.Zprod ms)) with (q * g * (suffix_weight gs * checked.Zprod ms)) by ring.
  by rewrite Hq, IH.
Qed.

Lemma weights_mixed ms gs ds : inverses ms gs -> length ds = length ms ->
  cong m (foldr Z.add 0 (zip_with Z.mul ds (suffix_weights gs))) (- suffix_weight gs * mixed ms ds).
Proof.
  intros Hinv. revert ds; induction Hinv as [|q g ms gs Hq _ IH]; intros [|d ds] Hl; try done.
  cbn [suffix_weights zip_with foldr mixed]. rewrite IH by (by injection Hl). rewrite mod_cong by lia.
  set (s := suffix_weight (g :: gs)). assert (Hs : cong m (suffix_weight gs) (s * q)).
  { unfold s. cbn [suffix_weight]. rewrite mod_cong by lia.
    replace (suffix_weight gs * g * q) with (suffix_weight gs * (q * g)) by ring. rewrite Hq. by rewrite Z.mul_1_r. }
  rewrite Hs. replace (d * - s + - (s * q) * mixed ms ds) with (- s * (d + q * mixed ms ds)) by ring. done.
Qed.

(** ** The loop *)

Section loop.
Context {Er : Type} `{BuildMode}.
Variable gs : list Z.
Hypothesis gs_range : Forall (fun g => 0 <= g < m) gs.

Lemma weight_step_spec j g :
  gs !! j = Some g ->
  weight_step (Er := Er) m gs (suffix_weight (drop (S j) gs), replicate (S j) 0 ++ suffix_weights (drop (S j) gs)) (Z.of_nat j)
  = Ok (suffix_weight (drop j gs), replicate j 0 ++ suffix_weights (drop j gs)).
Proof.
  intros Hg. pose proof (list.Forall_lookup_1 _ _ _ _ gs_range Hg) as Bg. cbn beta in Bg.
  rewrite (drop_S _ _ _ Hg). cbn [suffix_weight suffix_weights]. set (s := suffix_weight (drop (S j) gs)).
  assert (Bs : 0 <= s < m) by apply suffix_range. unfold weight_step. rewrite index_nat, Hg. cbn [unwrap obind].
  rewrite i64_exact by (unfold in_s; nia). cbn [obind]. destruct (Z.eqb_spec m 0); [lia|]. cbn [negb assert obind].
  rewrite Z.rem_mod_nonneg by nia. pose proof (Z.mod_pos_bound (s * g) m ltac:(lia)).
  rewrite i64_exact by (unfold in_s; lia). cbn [obind]. unfold rem_euclid_i64. destruct (Z.eqb_spec m 0); [lia|].
  cbn [negb assert obind]. rewrite Z.abs_eq by lia.
  replace (S j) with (j + 1)%nat by lia. rewrite replicate_add, <-app_assoc. cbn [replicate app].
  rewrite store_middle by (unfold len; rewrite length_replicate; lia). done.
Qed.

Lemma weight_loop j : (j <= length gs)%nat ->
  ofold (weight_step (Er := Er) m gs) (rev (range (Z.of_nat j)))
    (suffix_weight (drop j gs), replicate j 0 ++ suffix_weights (drop j gs)) = Ok (suffix_weight gs, suffix_weights gs).
Proof.
  induction j as [|j IH]; intros Hj; [done|]. rewrite Nat2Z.inj_succ, <-Z.add_1_r, range_S, rev_unit by lia. cbn [ofold].
  destruct (lookup_lt_is_Some_2 gs j) as [g Hg]; [lia|]. rewrite (weight_step_spec j g Hg). cbn [obind]. apply IH. lia.
Qed.
End loop.
End weights.

(** * Reconstruction *)

Section tail.
Context {Er : Type} `{BuildMode}.
Variables (K : nat) (wp tp : CrtNttParamSet) (T : NttPrime).
Hypothesis wide_prep : prepared WIDE K wp.
Hypothesis tail_prep : prepared TAIL K tp.
Hypothesis tail_primes : primes tp = [T].
Abbreviation m := (p T).
Abbreviation ms := (map p (primes wp)).
Abbreviation D := (Z.of_nat (2 ^ K)).
Hypothesis tail_coprime : Forall (fun q => Z.gcd q (p T) = 1) ms.
Hypothesis prime_count : len (primes wp) <= USIZE_MAX.

Lemma tail_wf : well_formed TAIL T.
Proof. pose proof (moduli_wf TAIL K tp tail_prep) as Hw. rewrite tail_primes in Hw. by apply list.Forall_cons in Hw as [? _]. Qed.

Lemma tail_range : 1 < m < 2 ^ 14 /\ m = 2 * (m / 2) + 1.
Proof. split; [apply (wf_range _ _ tail_wf)|apply (wf_odd _ _ tail_wf)]. Qed.

Lemma tail_inverse_spec P : In P (primes wp) ->
  exists g, tail_inverse (Er := Er) m P = Ok g /\ 0 <= g < m /\ cong m (p P * g) 1.
Proof.
  intros HP. pose proof tail_range as [Hm _]. unfold tail_inverse, rem_euclid_i64.
  destruct (Z.eqb_spec m 0); [lia|]. cbn [negb assert obind]. rewrite Z.abs_eq by lia.
  pose proof (Z.mod_pos_bound (p P) m ltac:(lia)) as Hr. rewrite !uwrap_id by (unfold in_u; lia).
  assert (Hg : Z.gcd (p P mod m) m = 1).
  { rewrite Z.gcd_mod by lia. rewrite Z.gcd_comm. apply (proj1 (Forall_forall _ _) tail_coprime). by apply in_map. }
  pose proof (modular_inverse_spec m (p P mod m) ltac:(lia) ltac:(lia)) as Hi. rewrite Hg, Z.eqb_refl in Hi.
  destruct Hi as (x & -> & Hx & Cx). rewrite swrap_id by (unfold in_s; lia). exists x. split; [done|]. split; [done|].
  by rewrite mod_cong in Cx by lia.
Qed.

(** The parameters are built, with the products of the inverses. *)
Lemma tail_new_spec : exists params gs, new (Er := Er) wp tp = Ok params /\ wide params = wp /\ tail params = tp /\
  tail_residue_weight params = suffix_weight m gs /\ tail_digit_weights params = suffix_weights m gs /\ inverses m ms gs.
Proof.
  assert (Hgs : exists gs, omapM (tail_inverse (Er := Er) m) (primes wp) = Ok gs /\ Forall (fun g => 0 <= g < m) gs /\
    inverses m ms gs).
  { assert (Hall : forall P, In P (primes wp) -> In P (primes wp)) by done. revert Hall.
    generalize (primes wp) at 1 3 4. intros ps. induction ps as [|P ps IH]; intros Hall; [exists []; by repeat constructor|].
    destruct IH as (gs & Hgs & Hr & Hi); [intros; apply Hall; by right|].
    destruct (tail_inverse_spec P) as (g & Hg & Bg & Cg); [apply Hall; by left|].
    exists (g :: gs). cbn [omapM map]. rewrite Hg, Hgs. split; [done|]. split; by constructor. }
  destruct Hgs as (gs & Hgs & Hr & Hi). pose proof (omapM_length _ _ _ Hgs) as Hl.
  unfold new. rewrite tail_primes. change (index [T] 0) with (Some T). cbn [unwrap obind]. rewrite Hgs. cbn [obind]. unfold len. rewrite <-Hl.
  pose proof (weight_loop m (proj1 tail_range) (Er := Er) gs Hr (length gs) ltac:(lia)) as Hloop.
  rewrite drop_all in Hloop. cbn [suffix_weight suffix_weights] in Hloop. rewrite app_nil_r in Hloop. rewrite Hloop. cbn [obind].
  eexists _, gs. by repeat split.
Qed.

Lemma digit_sum ds ws acc :
  Forall (fun d => Z.abs d <= 2 ^ 30) ds -> Forall (fun w => 0 <= w < m) ws -> Z.abs acc + len ds * 2 ^ 44 < 2 ^ 126 ->
  ofold (fun sum '(digit, weight) => let* term := i128 (Er := Er) (digit * weight) in i128 (sum + term)) (zip ds ws) acc
  = Ok (acc + foldr Z.add 0 (zip_with Z.mul ds ws)) /\ Z.abs (acc + foldr Z.add 0 (zip_with Z.mul ds ws)) <= Z.abs acc + len ds * 2 ^ 44.
Proof.
  intros Hd. pose proof tail_range as [Hm _].
  revert ws acc; induction Hd as [|d ds Hd _ IH]; intros ws acc Hw Hb.
  { cbn [zip_with ofold foldr]. rewrite Z.add_0_r. split; [done|]. change (len []) with 0. lia. }
  destruct Hw as [|w ws Hw Hws]; cbn [zip_with ofold foldr].
  { rewrite Z.add_0_r. split; [done|]. pose proof (len_nonneg (d :: ds)). lia. }
  rewrite len_cons in *. pose proof (len_nonneg ds). assert (Hdw : Z.abs (d * w) <= 2 ^ 44).
  { rewrite Z.abs_mul, (Z.abs_eq w) by lia. change (2 ^ 44) with (2 ^ 30 * 2 ^ 14). nia. }
  rewrite i128_fits_ok by lia. cbn [obind]. rewrite i128_fits_ok by lia. cbn [obind].
  destruct (IH ws (acc + d * w) Hws ltac:(lia)) as [-> Hb']. rewrite <-!Z.add_assoc in *. split; [done|]. lia.
Qed.

(** The tail digit completes the mixed-radix digits. *)
Lemma tail_digit_spec params gs ds r :
  tail_residue_weight params = suffix_weight m gs -> tail_digit_weights params = suffix_weights m gs -> inverses m ms gs ->
  Forall2 balanced_digit ms ds -> - (m / 2) <= r <= m / 2 ->
  exists t, tail_digit (Er := Er) params m r ds = Ok t /\ balanced_digit m t /\
    cong m (mixed ms ds + checked.Zprod ms * t) r.
Proof.
  intros Hw Hws Hi Hb Hr. pose proof tail_range as [Hm Hodd]. pose proof (suffix_range m Hm gs) as Bw.
  destruct (weights_range m Hm gs) as [Bws _]. pose proof (Forall2_length Hb) as Hl. rewrite length_map in Hl.
  assert (Bd : Forall (fun d => Z.abs d <= 2 ^ 30) ds).
  { destruct (moduli_ok WIDE (primes wp) (moduli_wf WIDE K wp wide_prep)) as [_ _].
    assert (Hq : Forall (fun q => 1 < q < 2 ^ 30) ms).
    { apply Forall_map. eapply list.Forall_impl; [apply (moduli_wf WIDE K wp wide_prep)|]. intros P HP.
      pose proof (q_bounds WIDE P HP). lia. }
    clear -Hb Hq. induction Hb as [|q d qs ds Hd _ IH]; [constructor|]. apply list.Forall_cons in Hq as [Hq Hqs].
    constructor; [|by apply IH]. unfold balanced_digit in Hd. pose proof (Z.div_le_upper_bound q 2 q). lia. }
  unfold tail_digit. rewrite Hw, Hws. assert (Hf : Z.abs (r * suffix_weight m gs) <= 2 ^ 28).
  { rewrite Z.abs_mul. change (2 ^ 28) with (2 ^ 14 * 2 ^ 14). nia. }
  rewrite i128_fits_ok by lia. cbn [obind]. unfold USIZE_MAX in prime_count. change USIZE_BITS with 64 in prime_count.
  destruct (digit_sum ds (suffix_weights m gs) 0 Bd Bws) as [-> Hs]; [unfold len in *; lia|]. cbn [obind].
  rewrite Z.add_0_l in *. set (sum := foldr Z.add 0 (zip_with Z.mul ds (suffix_weights m gs))) in *.
  rewrite i128_fits_ok by (unfold len in *; lia). cbn [obind]. rewrite rem_euclid_Ok by lia. cbn [obind].
  assert (Hc : cong m (checked.Zprod ms * (r * suffix_weight m gs + sum)) (r - mixed ms ds)).
  { unfold sum. rewrite (weights_mixed m Hm ms gs ds Hi) by (by rewrite length_map).
    replace (checked.Zprod ms * (r * suffix_weight m gs + - suffix_weight m gs * mixed ms ds))
      with (suffix_weight m gs * checked.Zprod ms * (r - mixed ms ds)) by ring.
    rewrite (suffix_inverse m Hm ms gs Hi). by rewrite Z.mul_1_l. }
  pose proof (Z.mod_pos_bound (r * suffix_weight m gs + sum) m ltac:(lia)) as Hv.
  pose proof (mod_cong m (r * suffix_weight m gs + sum) ltac:(lia)) as Hmc.
  set (v := (r * suffix_weight m gs + sum) mod m) in *. rewrite Z.quot_div_nonneg by lia.
  assert (Ht : exists t, (if m / 2 <? v then i128 (Er := Er) (v - m) else Ok v) = Ok t /\ balanced_digit m t /\ cong m t v).
  { unfold balanced_digit. destruct (Z.ltb_spec (m / 2) v).
    - rewrite i128_fits_ok by lia. eexists. split; [done|]. split; [lia|]. exists (-1). ring.
    - exists v. split; [done|]. split; [lia|done]. }
  destruct Ht as (t & Ht & Bt & Ct). exists t. split; [done|]. split; [done|].
  rewrite Ct, Hmc, Hc. replace (mixed ms ds + (r - mixed ms ds)) with r by ring. done.
Qed.

(** The digits over all primes determine every integer of half the capacity. *)
Lemma tail_unique ds t r x rs :
  Forall2 balanced_digit ms ds -> balanced_digit m t -> length rs = length ms ->
  (forall i q v, index ms i = Some q -> index rs i = Some v -> cong q (mixed ms ds) v /\ cong q x v) ->
  cong m (mixed ms ds + checked.Zprod ms * t) r -> cong m x r -> 2 * Z.abs x < checked.Zprod ms * m ->
  mixed ms ds + checked.Zprod ms * t = x.
Proof.
  intros Hb Bt Hl Hres Hr Hx Hs. pose proof tail_range as [Hm Hodd].
  destruct (moduli_ok WIDE (primes wp) (moduli_wf WIDE K wp wide_prep)) as [Hrange Hmodd].
  destruct (mixed_bound ms ds) as [HP HM]; [|done|].
  { apply list.Forall_forall. intros q Hin. pose proof (proj1 (list.Forall_forall _ _) Hrange q Hin).
    pose proof (proj1 (list.Forall_forall _ _) Hmodd q Hin). cbn beta in *. split; [lia|done]. }
  assert (Hc : cong (checked.Zprod ms) x (mixed ms ds)).
  { apply (coprime_product ms rs (garner wp) Hl (prep_garner _ _ _ wide_prep)). intros i q Hi.
    destruct (index_same_len ms rs i q) as (v & Hv); [unfold len; by rewrite Hl|done|].
    destruct (Hres i q v Hi Hv) as [H1 H2]. by rewrite H1. }
  destruct Hc as [k Hk]. assert (Hkt : cong m k t).
  { apply (cong_cancel m (checked.Zprod ms)).
    - clear -tail_coprime. induction ms as [|q qs IH]; [apply Z.gcd_1_l|]. cbn [checked.Zprod foldr]. fold (checked.Zprod qs).
      apply list.Forall_cons in tail_coprime as [Hq Hqs]. apply Z.coprime_mul_l; [done|by apply IH].
    - replace (checked.Zprod ms * k) with (x - mixed ms ds) by lia. rewrite Hx, <-Hr.
      replace (mixed ms ds + checked.Zprod ms * t - mixed ms ds) with (checked.Zprod ms * t) by ring. done. }
  assert (k = t) as ->; [|lia]. apply (cong_eq m); [done|]. unfold balanced_digit in Bt.
  assert (Z.abs k <= m / 2); [|lia].
  assert (2 * (checked.Zprod ms * Z.abs k) < checked.Zprod ms * (m + 1)).
  { rewrite <-(Z.abs_eq (checked.Zprod ms)) at 1 by lia. rewrite <-Z.abs_mul. lia. }
  nia.
Qed.

(** ** Back to the ring *)

Section field.
Context {F : Type} `{FieldLaws F, CanonicalEncoding F, !CanonicalFieldLaws F}.
Context `{FromI64 F, !FromI64Laws F, FromI128 F, !FromI128Laws F}.
Abbreviation ring := (CyclotomicRing F).
Abbreviation ring_of := (ring_of (F := F) K).
Add Ring Fring_tail : (field_ring (E := F)).

Lemma field_weights_spec ps ds :
  Forall (well_formed WIDE) ps -> Forall2 balanced_digit (map p ps) ds ->
  length (field_weights (F := F) ps).1 = length ps /\
  (field_weights (F := F) ps).2 = of_int (checked.Zprod (map p ps)) /\
  foldl (fun result '(digit, weight) => fadd result (fmul (from_i128 digit) weight)) fzero (zip ds (field_weights (F := F) ps).1)
  = of_int (mixed (map p ps) ds).
Proof.
  intros Hps. revert ds. induction ps as [|P ps IH] using rev_ind; intros ds Hb.
  - inversion Hb; subst. split; [done|]. split; [symmetry; apply (hom_1 (phi := of_int))|symmetry; apply (hom_0 of_int)].
  - rewrite map_app in Hb. apply Forall2_app_inv_l in Hb as (ds' & d' & Hb & Hd & ->). inversion Hd as [|? d ? ? Bd Hnil]; subst.
    inversion Hnil; subst. apply Forall_app in Hps as [Hps HP]. apply Forall_cons_iff in HP as [HP _].
    destruct (IH Hps ds' Hb) as (Hl & Hw & Hf). pose proof (q_bounds WIDE P HP) as (Bq & _ & _).
    unfold balanced_digit in Bd. pose proof (Z.div_le_upper_bound (p P) 2 (p P)).
    unfold field_weights in *. rewrite foldl_app. destruct (foldl _ ([], fone) ps) as [ws fp] eqn:Hfw. cbn [foldl fst snd] in *.
    subst fp. split; [rewrite !length_app; by rewrite Hl|]. rewrite map_app, Zprod_app. cbn [map checked.Zprod foldr].
    split; [rewrite Z.mul_1_r, from_i64_int by (unfold in_s; lia); symmetry; apply (hom_mul (phi := of_int))|].
    pose proof (Forall2_length Hb) as Hlb. rewrite length_map in Hlb.
    rewrite zip_with_app by lia. cbn [zip_with]. rewrite foldl_app, Hf. cbn [foldl].
    rewrite mixed_snoc by (by rewrite length_map). rewrite from_i128_int by (unfold in_s; lia).
    rewrite (hom_add (phi := of_int)), (hom_mul (phi := of_int)). ring.
Qed.

Lemma mixed_coefficient_spec params gs f wide_limbs tail_limbs d :
  wide params = wp -> tail params = tp ->
  tail_residue_weight params = suffix_weight m gs -> tail_digit_weights params = suffix_weights m gs -> inverses m ms gs ->
  canonical_of K wp f wide_limbs -> canonical_of K tp f tail_limbs -> 0 <= d < D ->
  2 * Z.abs (f d) < checked.Zprod ms * m ->
  mixed_coefficient (Er := Er) wide_limbs tail_limbs params d = Ok (of_int (f d) : F).
Proof.
  intros Hwp Htp Hw Hws Hi Hcw Hct Hd Hf. unfold mixed_coefficient. rewrite Hwp, Htp, tail_primes.
  change (index [T] 0) with (Some T). cbn [unwrap obind].
  pose proof (moduli_wf WIDE K wp wide_prep) as Hok. destruct (moduli_ok WIDE (primes wp) Hok) as [Hrange Hmodd].
  destruct (column_spec (Er := Er) K wp f wide_limbs d Hcw Hd) as (rs & Hrs & Hlr & Hres).
  assert (Hlr' : length rs = length ms) by (rewrite length_map; unfold len in Hlr; lia).
  destruct (centered_mixed_radix_spec (Er := Er) ms rs (garner wp) Hrange Hmodd Hlr' (prep_garner _ _ _ wide_prep)) as (ds & Hds & Hb & Hv);
    [pose proof (prep_nonempty _ _ _ wide_prep); by destruct (primes wp)|].
  destruct (field_weights_spec (primes wp) ds Hok Hb) as (_ & Hfp & Hsum).
  destruct (field_weights (primes wp)) as [weights fp]. cbn [fst snd] in *. subst fp.
  rewrite (moduli_u64 WIDE _ Hok), Hrs. cbn [obind]. rewrite Hds. cbn [obind].
  destruct Hct as [Hlt Hct]. destruct (Hct 0 T) as (tl & -> & Hltl & Htl); [by rewrite tail_primes|]. cbn [unwrap obind].
  destruct (index_is_Some tl d) as [r Hr]; [unfold len; lia|]. rewrite Hr. cbn [unwrap obind]. destruct (Htl d r Hr) as [Cr Br].
  destruct (tail_digit_spec params gs ds r Hw Hws Hi Hb Br) as (t & -> & Bt & Ct). cbn [obind]. rewrite Hsum.
  rewrite from_i128_int by (unfold balanced_digit, in_s in *; pose proof tail_range; lia).
  rewrite <-(tail_unique ds t r (f d) rs Hb Bt Hlr'); [|..|by symmetry|done]; [|intros i q v Hq Hvv|done].
  - f_equal. rewrite (hom_add (phi := of_int)), (hom_mul (phi := of_int)). ring.
  - split; [by apply (Hv i)|]. rewrite index_map in Hq. apply fmap_Some in Hq as (P & HP & ->).
    destruct (Hres i P HP) as (v' & Hv' & Cv & _). rewrite Hvv in Hv'. injection Hv' as <-. by symmetry.
Qed.

(** Leaving both representations, in either domain. *)
Lemma tail_to_ring_spec (cyc : bool) params gs f we te :
  wide params = wp -> tail params = tp ->
  tail_residue_weight params = suffix_weight m gs -> tail_digit_weights params = suffix_weights m gs -> inverses m ms gs ->
  elem_is WIDE K wp cyc f we -> elem_is TAIL K tp cyc f te ->
  (forall i, 0 <= i < D -> 2 * Z.abs (f i) < checked.Zprod ms * m) ->
  (if cyc then cyclic_ntt_with_i16_tail_to_ring (Er := Er) D we te params else ntt_with_i16_tail_to_ring D we te params)
  = Ok (ring_of f).
Proof.
  intros Hwp Htp Hw Hws Hi Hwe Hte Hf.
  destruct (centered_coefficients_with_params_spec (Er := Er) WIDE K wp wide_prep cyc f we Hwe) as (wl & Hwl & Cw).
  destruct (centered_coefficients_with_params_spec (Er := Er) TAIL K tp tail_prep cyc f te Hte) as (tl & Htl & Ct).
  assert (Hm : mixed_coefficients_to_ring (Er := Er) D wl tl params = Ok (ring_of f)).
  { unfold mixed_coefficients_to_ring, CrtExact.ring_of.
    assert (Hall : omapM (mixed_coefficient (Er := Er) wl tl params) (range D) = Ok (map (fun i => of_int (f i)) (range D))).
    { apply omapM_Forall2, Forall2_fmap_r, Forall_Forall2_diag, list.Forall_forall. intros d Hd%elem_of_range.
      by apply (mixed_coefficient_spec params gs f wl tl d); auto. }
    by rewrite Hall. }
  destruct cyc; unfold ntt_with_i16_tail_to_ring, cyclic_ntt_with_i16_tail_to_ring; rewrite Hwp, Htp, Hwl; cbn [obind];
    rewrite Htl; exact Hm.
Qed.
End field.
End tail.

(** * The product with a tail prime *)

Section product.
Context `{BuildMode}.
Context {F : Type} `{FieldLaws F, CanonicalEncoding F, !CanonicalFieldLaws F}.
Context `{FromI64 F, !FromI64Laws F, FromI128 F, !FromI128Laws F}.
Variables (K : nat) (ms : list Z) (q : Z).
Abbreviation qm := (modulus F).
Abbreviation D := (Z.of_nat (2 ^ K)).
Abbreviation ring := (CyclotomicRing F).
Hypothesis q_small : qm < 2 ^ 128.
Hypothesis wide_good : good_moduli WIDE K ms.
Hypothesis tail_good : good_moduli TAIL K [q].
Hypothesis tail_new : ~ In q ms.
Hypothesis count : len ms <= USIZE_MAX.

Definition tail_setup : result I16TailParams :=
  let* wide := setup WIDE D ms in
  let* tail := setup TAIL D [q] in
  new wide tail.

(** The capacity of the profile, extended by the tail prime. *)
Definition tail_capacity (params : I16TailParams) : result CrtCapacity.t :=
  let* c := crt_capacity (wide params) in
  let* tail_prime := unwrap (index (primes (tail params)) 0) in
  CrtCapacity.with_prime_modulus c (uwrap 128 (p tail_prime)).

Lemma tail_prime_coprime : Forall (fun m => Z.gcd m q = 1) ms.
Proof.
  pose proof (good_primes _ _ _ wide_good) as Hw. pose proof (good_primes _ _ _ tail_good) as Ht.
  apply list.Forall_cons in Ht as [(Hq & _) _]. apply Forall_forall. intros m Hm.
  apply (proj1 (Forall_forall _ _) Hw) in Hm as Hmm. destruct Hmm as (Hp & _).
  apply Z.coprime_prime_l; [done|]. intros Hd. destruct Hq as [Hq1 Hqd]. destruct Hp as [Hp1 _].
  assert (m <> q) by (intros ->; done). pose proof (Z.divide_pos_le m q ltac:(lia) Hd). apply (Hqd m); [lia|done].
Qed.

(** Everything a tail product needs, from the moduli. *)
Lemma tail_setup_spec : exists params T gs,
  tail_setup = Ok params /\ prepared WIDE K (wide params) /\ prepared TAIL K (tail params) /\
  map p (primes (wide params)) = ms /\ primes (tail params) = [T] /\ p T = q /\
  tail_residue_weight params = suffix_weight q gs /\ tail_digit_weights params = suffix_weights q gs /\ inverses q ms gs.
Proof.
  destruct (setup_spec (Er := AkitaError) WIDE K ms wide_good) as (wp & Hws & Wp & Hwm).
  destruct (setup_spec (Er := AkitaError) TAIL K [q] tail_good) as (tp & Hts & Tp & Htm).
  destruct (primes tp) as [|T [|]] eqn:Htp; try done. injection Htm as HT.
  destruct (tail_new_spec (Er := AkitaError) K wp tp T Tp Htp) as (params & gs & Hnew & Hwd & Htl & Hw & Hd & Hi).
  - rewrite Hwm, HT. exact tail_prime_coprime.
  - unfold tail_setup. rewrite Hws. cbn [obind]. rewrite Hts. cbn [obind]. exists params, T, gs.
    rewrite Hwd, Htl, Htp, Hwm, HT in *. done.
Qed.

Lemma tail_capacity_value params T : map p (primes (wide params)) = ms -> primes (tail params) = [T] -> p T = q ->
  exists c, tail_capacity params = Ok c /\ capacity c (checked.Zprod ms * q).
Proof.
  intros Hms Htp HT. destruct (crt_capacity_value K WIDE ms wide_good (wide params) Hms) as (c & Hc & Cc).
  unfold tail_capacity. rewrite Hc, Htp. cbn [obind]. change (index [T] 0) with (Some T). cbn [unwrap obind]. rewrite HT.
  pose proof (good_modulus K TAIL [q] tail_good q ltac:(by left)) as Hq.
  assert (Hu : in_u 128 q) by (unfold in_u; lia). rewrite uwrap_id by done. by apply with_prime_modulus_spec.
Qed.

Lemma tail_product_value params T gs matrix wm tm rows cols b rhs :
  prepared WIDE K (wide params) -> prepared TAIL K (tail params) ->
  map p (primes (wide params)) = ms -> primes (tail params) = [T] -> p T = q ->
  tail_residue_weight params = suffix_weight q gs -> tail_digit_weights params = suffix_weights q gs -> inverses q ms gs ->
  0 <= rows -> 0 <= cols -> 0 <= b -> rows * cols <= USIZE_MAX -> rows * cols <= len matrix -> len rhs = cols ->
  Forall (wf D) matrix -> input_digits K b rhs -> len wm = len matrix -> len tm = len matrix ->
  matrix_is WIDE K (wide params) rows cols (row_entries K matrix cols) wm ->
  matrix_is TAIL K (tail params) rows cols (row_entries K matrix cols) tm ->
  2 * cols * D * (qm / 2) * b < checked.Zprod ms * q ->
  mat_vec_i16_with_tail D wm tm rows cols rhs params = ring_mat_vec K matrix rows cols rhs.
Proof.
  intros Wp Tp Hms Htp HT Hw Hws Hi Hr Hc Hb Ho Hl Hrl Hm Hd Hlw Hlt HW HTl Hcap.
  rewrite (ring_mat_vec_value K matrix rows cols b) by done. pose proof (input_digits_lengths K b rhs Hd) as Hdl.
  unfold mat_vec_i16_with_tail.
  destruct (mat_vec_i16_ntt_spec WIDE K (wide params) Wp rows cols (row_entries K matrix cols) wm rhs) as (wa & -> & Hwl & Hwa);
    try done; [by rewrite Hlw|]. cbn [obind].
  destruct (mat_vec_i16_ntt_spec TAIL K (tail params) Tp rows cols (row_entries K matrix cols) tm rhs) as (ta & -> & Htl & Hta);
    try done; [by rewrite Hlt|]. cbn [obind].
  apply omapM_Forall2, Forall2_fmap_r, Forall2_same_length_lookup_2.
  { unfold len in *. rewrite length_zip_with, length_range. lia. }
  intros i [we te] k Hwt Hk. apply lookup_zip_Some in Hwt as [Hwi Hti].
  unfold range in Hk. apply lookup_seqZ in Hk as [-> Hk]. rewrite Z.add_0_l.
  apply (tail_to_ring_spec K (wide params) (tail params) T Wp Tp Htp) with (cyc := false) (gs := gs);
    rewrite ?Hms, ?HT; try done; [exact tail_prime_coprime| |by apply Hwa|by apply Hta|].
  - unfold len in *. rewrite <-(length_map p), Hms. exact count.
  - intros c Hcc. by apply (row_sum_small K matrix cols b).
Qed.

(** The matrix-vector product over a profile extended by a tail prime is
    exact.  For distinct odd 30-bit primes and another odd prime below
    [2^14], all with [2 D | p - 1], the parameters are built, every ring
    element of the matrix is transformed at both widths, and if the
    capacity of the primes and the tail prime supports the width, the field
    modulus and the bound on the digits, then the product returns the
    schoolbook products modulo [X^D + 1] of the prefix of the matrix, and
    otherwise the error of the first failed check.  No input panics. *)
Theorem mat_vec_i16_with_tail_exact matrix rows cols b rhs :
  in_u 64 rows -> in_u 64 cols -> in_u 64 b -> Forall (wf D) matrix -> input_digits K b rhs ->
  exists params capacity wm tm,
    tail_setup = Ok params /\ tail_capacity params = Ok capacity /\
    omapM (fun r => from_ring (Er := AkitaError) WIDE D r (wide params)) matrix = Ok wm /\
    omapM (fun r => from_ring (Er := AkitaError) TAIL D r (tail params)) matrix = Ok tm /\
    (CrtCapacity.supports_modulus (Er := AkitaError) capacity cols D qm b = Ok true ->
     mat_vec_i16_with_tail D wm tm rows cols rhs params =
       if negb (len rhs =? cols) || (USIZE_MAX <? rows * cols) then Err InvalidProof
       else if len matrix <? rows * cols then Err (InvalidSetup "prepared NTT matrix prefix is undersized")
       else ring_mat_vec K matrix rows cols rhs).
Proof.
  intros Hr Hc Hb Hm Hd. destruct tail_setup_spec as (params & T & gs & Hset & Wp & Tp & Hms & Htp & HT & Hw & Hws & Hi).
  destruct (tail_capacity_value params T Hms Htp HT) as (capacity & Hcap & Hcv).
  destruct (prepare_matrix K q_small WIDE (wide params) matrix Wp Hm) as (wm & Hwm & Hlw & HW).
  destruct (prepare_matrix K q_small TAIL (tail params) matrix Tp Hm) as (tm & Htm & Hlt & HTl).
  exists params, capacity, wm, tm. do 4 (split; [done|]).
  rewrite (supports_width K q_small WIDE ms wide_good capacity _ cols b Hcv Hc Hb). intros [= Hlt'%Z.ltb_lt].
  unfold in_u in *.
  destruct (mat_vec_i16_ntt_err WIDE K (wide params) wm rows cols rhs ltac:(lia) ltac:(lia)) as [Herr Hshort].
  unfold mat_vec_i16_with_tail. 
  destruct (Z.eqb_spec (len rhs) cols) as [Hl|Hne]; cbn [negb orb]; [|by rewrite Herr by auto].
  destruct (Z.ltb_spec USIZE_MAX (rows * cols)); [by rewrite Herr by auto|].
  destruct (Z.ltb_spec (len matrix) (rows * cols)); [by rewrite Hshort by (done || lia)|].
  apply (tail_product_value params T gs matrix wm tm rows cols b rhs); try done; try lia; [apply HW|apply HTl]; lia.
Qed.
End product.

(** * Witnesses *)

Module F97_tail.
Definition wide_moduli : list Z := [193; 97].
Lemma wide_good : good_moduli WIDE 2 wide_moduli.
Proof.
  split; [by right|done|apply (bool_decide_unpack _); by vm_compute|].
  repeat constructor; try (by apply prime_by_trial); try done; [by exists 24|by exists 12].
Qed.
Lemma tail_good : good_moduli TAIL 2 [41].
Proof.
  split; [by left|done|apply (bool_decide_unpack _); by vm_compute|].
  repeat constructor; try (by apply prime_by_trial); try done. by exists 5.
Qed.
End F97_tail.

Section witnesses.
Import F97_slices F97_gadget F97_crt F97_tail.

Lemma mat_vec_i16_with_tail_exact_witness :
  exists params capacity wm tm,
    tail_setup 2 wide_moduli 41 = Ok params /\ tail_capacity params = Ok capacity /\
    omapM (fun r => from_ring (Er := AkitaError) WIDE 4 r (wide params)) [a; b; b; a] = Ok wm /\
    omapM (fun r => from_ring (Er := AkitaError) TAIL 4 r (tail params)) [a; b; b; a] = Ok tm /\
    (CrtCapacity.supports_modulus (Er := AkitaError) capacity 2 4 97 300 = Ok true ->
     mat_vec_i16_with_tail (F := F97.t) 4 wm tm 2 2 [[5; -300; 0; 299]; [0; 0; 0; 1]] params =
       if negb (len [[5; -300; 0; 299]; [0; 0; 0; 1]] =? 2) || (USIZE_MAX <? 2 * 2) then Err InvalidProof
       else if len [a; b; b; a] <? 2 * 2 then Err (InvalidSetup "prepared NTT matrix prefix is undersized")
       else ring_mat_vec 2 [a; b; b; a] 2 2 [[5; -300; 0; 299]; [0; 0; 0; 1]]).
Proof.
  apply (mat_vec_i16_with_tail_exact (F := F97.t) 2 wide_moduli 41 ltac:(done) wide_good tail_good
    ltac:(cbn; lia) ltac:(done) [a; b; b; a] 2 2 300); [done..|repeat constructor|repeat constructor; done].
Defined.

(** The run itself; without the tail prime the capacity is too small. *)
Example mat_vec_i16_with_tail_runs :
  (let* params := tail_setup 2 wide_moduli 41 in
   let* capacity := tail_capacity params in
   let* wide_only := crt_capacity (wide params) in
   let* enough := CrtCapacity.supports_modulus capacity 2 4 97 300 in
   let* short := CrtCapacity.supports_modulus wide_only 2 4 97 300 in
   let* wm := omapM (fun r => from_ring WIDE 4 r (wide params)) [a; b; b; a] in
   let* tm := omapM (fun r => from_ring TAIL 4 r (tail params)) [a; b; b; a] in
   let* rows := mat_vec_i16_with_tail (F := F97.t) 4 wm tm 2 2 [[5; -300; 0; 299]; [0; 0; 0; 1]] params in
   Ok (enough, short, map (fun r => map F97.val (ring_coeffs r)) rows))
  = Ok (true, false, [[57; 77; 5; 45]; [85; 95; 0; 23]]).
Proof. vm_compute. reflexivity. Qed.
End witnesses.
