(* ===== verification/Transcript.v ===== *)
(** [akita-transcript]: the transcript interface of the protocol code, its
    spongefish-backed implementation, the framing of absorbed bytes and the
    proof-of-work transition.

    The sponge itself ([spongefish]) and the byte encodings of the field
    ([jolt_field]) are external: class parameters, with the documented
    behaviour the code relies on as laws. *)

From S2P Require Import Prelude Checked Field Serialization.

(** Byte strings of the source's literals. *)
Definition bytes (s : string) : list Z :=
  map (fun c => Z.of_N (Ascii.N_of_ascii c)) (list_ascii_of_string s).

Definition label : Type := list Z.

Module labels.
Definition DOMAIN_AKITA_PROTOCOL : label := bytes "ak/p".
Definition ABSORB_COMMITMENT : label := bytes "ak/a/cm".
Definition ABSORB_EVALUATION_CLAIMS : label := bytes "ak/a/ec".
Definition ABSORB_BATCH_SHAPE : label := bytes "ak/a/bs".
Definition CHALLENGE_LINEAR_RELATION : label := bytes "ak/c/lr".
Definition ABSORB_RING_SWITCH_MESSAGE : label := bytes "ak/a/rs".
Definition CHALLENGE_RING_SWITCH : label := bytes "ak/c/rs".
Definition ABSORB_SPARSE_CHALLENGE : label := bytes "ak/a/sp".
Definition CHALLENGE_SPARSE_CHALLENGE : label := bytes "ak/c/sp".
Definition ABSORB_SUMCHECK_CLAIM : label := bytes "ak/a/sc".
Definition ABSORB_SETUP_PREFIX_SLOT : label := bytes "ak/a/sps".
Definition ABSORB_SUMCHECK_ROUND : label := bytes "ak/a/scr".
Definition CHALLENGE_SUMCHECK_ROUND : label := bytes "ak/c/scr".
Definition ABSORB_RANGE_IMAGE_EVALUATION : label := bytes "ak/a/scs".
Definition ABSORB_L2_NORM_INTEGER : label := bytes "ak/a/l2n".
Definition ABSORB_L2_NORM_SUBCLAIM : label := bytes "ak/a/l2s".
Definition ABSORB_L2_VIRTUAL_EVALUATION : label := bytes "ak/a/l2v".
Definition ABSORB_STAGE2_NEXT_W_EVAL : label := bytes "ak/a/s2w".
Definition ABSORB_SUMCHECK_INTERSTAGE_CLAIM : label := bytes "ak/a/sci".
Definition CHALLENGE_SUMCHECK_BATCH : label := bytes "ak/c/scb".
Definition CHALLENGE_EOR_CLAIM_BATCH : label := bytes "ak/c/ecb".
Definition ABSORB_EOR_FINAL_CLAIM : label := bytes "ak/a/efc".
Definition CHALLENGE_L2_NORM_BATCH : label := bytes "ak/c/l2b".
Definition CHALLENGE_L2_NORM_MERGE : label := bytes "ak/c/l2m".
Definition CHALLENGE_L2_VIRTUAL_BATCH : label := bytes "ak/c/l2v".
Definition CHALLENGE_COMPRESSION_BINARY : label := bytes "ak/c/cb".
Definition CHALLENGE_SUMCHECK_INTERSTAGE_BATCH : label := bytes "ak/c/scib".
Definition ABSORB_STOP_CONDITION : label := bytes "ak/a/st".
Definition CHALLENGE_STOP_CONDITION : label := bytes "ak/c/st".
Definition ABSORB_OPENING_PAYLOAD : label := bytes "ak/a/v".
Definition CHALLENGE_WITNESS_FOLD : label := bytes "ak/c/wf".
Definition ABSORB_EVAL_OPENINGS_FIELD : label := bytes "ak/a/eof".
Definition CHALLENGE_EVAL_BATCH : label := bytes "ak/c/eb".
Definition ABSORB_TRANSCRIPT_GRINDING : label := bytes "ak/a/g".
Definition CHALLENGE_GRINDING_PREDICATE : label := bytes "ak/c/g".
Definition ABSORB_NEXT_LEVEL_WITNESS_BINDING : label := bytes "ak/a/w".
Definition ABSORB_TERMINAL_E_HAT : label := bytes "ak/a/twh".
Definition ABSORB_TERMINAL_W_REMAINDER : label := bytes "ak/a/twr".
Definition CHALLENGE_TAU0 : label := bytes "ak/c/t0".
Definition CHALLENGE_TAU1 : label := bytes "ak/c/t1".

Definition ALL_LABELS : list label :=
  [DOMAIN_AKITA_PROTOCOL; ABSORB_COMMITMENT; ABSORB_EVALUATION_CLAIMS;
   ABSORB_BATCH_SHAPE; CHALLENGE_LINEAR_RELATION; ABSORB_RING_SWITCH_MESSAGE;
   CHALLENGE_RING_SWITCH; ABSORB_SPARSE_CHALLENGE; CHALLENGE_SPARSE_CHALLENGE;
   ABSORB_SUMCHECK_CLAIM; ABSORB_SETUP_PREFIX_SLOT; ABSORB_SUMCHECK_ROUND;
   CHALLENGE_SUMCHECK_ROUND; ABSORB_RANGE_IMAGE_EVALUATION; ABSORB_L2_NORM_INTEGER;
   ABSORB_L2_NORM_SUBCLAIM; ABSORB_L2_VIRTUAL_EVALUATION; ABSORB_STAGE2_NEXT_W_EVAL;
   ABSORB_SUMCHECK_INTERSTAGE_CLAIM; CHALLENGE_SUMCHECK_BATCH; CHALLENGE_EOR_CLAIM_BATCH;
   ABSORB_EOR_FINAL_CLAIM; CHALLENGE_L2_NORM_BATCH; CHALLENGE_L2_NORM_MERGE;
   CHALLENGE_L2_VIRTUAL_BATCH; CHALLENGE_COMPRESSION_BINARY; CHALLENGE_SUMCHECK_INTERSTAGE_BATCH;
   ABSORB_STOP_CONDITION; CHALLENGE_STOP_CONDITION; ABSORB_OPENING_PAYLOAD;
   CHALLENGE_WITNESS_FOLD; ABSORB_EVAL_OPENINGS_FIELD; CHALLENGE_EVAL_BATCH;
   ABSORB_TRANSCRIPT_GRINDING; CHALLENGE_GRINDING_PREDICATE; ABSORB_NEXT_LEVEL_WITNESS_BINDING;
   ABSORB_TERMINAL_E_HAT; ABSORB_TERMINAL_W_REMAINDER; CHALLENGE_TAU0;
   CHALLENGE_TAU1].
Definition all_labels : list label := ALL_LABELS.
End labels.

Definition TRANSCRIPT_CHALLENGE_BLOCK_LEN : Z := 32.

(** The diagnostic labels are pairwise distinct. *)
Lemma all_labels_distinct : NoDup labels.all_labels.
Proof. apply (bool_decide_unpack _). vm_compute. exact I. Qed.

(** * The interface *)

(** [Transcript<F>] on a state [T]; every operation may panic. *)
Class Transcript (F T : Type) := {
  bind_instance_bytes : T -> list Z -> result T;
  append_bytes : T -> label -> list Z -> result T;
  append_field : T -> label -> F -> result T;
  append_serde : forall {A : Type} `{AkitaSerialize A}, T -> label -> A -> result T;
  challenge_scalar : T -> label -> result (F * T);
  challenge_bytes : T -> label -> Z -> result (list Z * T);
  challenge_block : T -> label -> result (list Z * T);
}.

(** * Grinding: payload, predicate and nonce search *)

Definition GRINDING_NONCE_SLACK_BITS : Z := 7.
Definition MAX_GRINDING_BITS : Z := 25.
Definition GRINDING_PREDICATE_LEN : Z := TRANSCRIPT_CHALLENGE_BLOCK_LEN.
Definition GRINDING_PAYLOAD_DOMAIN : list Z := bytes "akita/transcript-grinding/v1".

(** The fixed-width payload: domain, target, nonce width, little-endian
    counter. *)
Definition grinding_payload (grind_bits nonce_bits counter : Z) : list Z :=
  GRINDING_PAYLOAD_DOMAIN ++ [grind_bits; nonce_bits] ++ to_le_bytes 4 counter.

(** The array has 32 bytes and [whole_bytes <= 31], so the index is in range. *)
Definition grinding_predicate_accepts (predicate : list Z) (grind_bits : Z) : bool :=
  let whole_bytes := Z.to_nat (grind_bits / 8) in
  let remaining_bits := grind_bits mod 8 in
  forallb (fun byte => byte =? 0) (take whole_bytes predicate) &&
  ((remaining_bits =? 0) ||
   (Z.land (nth whole_bytes predicate 0) (Z.shiftl 1 remaining_bits - 1) =? 0)).

(** [TranscriptChallengePreview]: one method on a borrowed transcript. *)
Definition preview_fn : Type := list (list Z) -> result (list Z).

Definition preview_grinding_predicate (preview : preview_fn) (grind_bits nonce_bits counter : Z)
  : result (option (list Z)) :=
  if grind_bits =? 0 then Ok None
  else
    let* block := preview [grinding_payload grind_bits nonce_bits counter] in
    Ok (Some block).

(** [(0..attempts).find_map(..)]; counters are below [2^32], so the conversion
    to [u32] succeeds. *)
Fixpoint find_nonce (preview : preview_fn) (grind_bits nonce_bits : Z) (fuel : nat)
    (candidate : Z) : result (option Z) :=
  match fuel with
  | O => Ok None
  | S fuel =>
      match checked_u 32 candidate with
      | None => find_nonce preview grind_bits nonce_bits fuel (candidate + 1)
      | Some counter =>
          let* predicate := preview_grinding_predicate preview grind_bits nonce_bits counter in
          match predicate with
          | Some p =>
              if grinding_predicate_accepts p grind_bits then Ok (Some counter)
              else find_nonce preview grind_bits nonce_bits fuel (candidate + 1)
          | None => find_nonce preview grind_bits nonce_bits fuel (candidate + 1)
          end
      end
  end.

Definition search_grinding_nonce (preview : preview_fn) (grind_bits nonce_bits : Z)
  : result (option Z) :=
  if grind_bits =? 0 then Ok (if nonce_bits =? 0 then Some 0 else None)
  else
    match checked_u 8 (grind_bits + GRINDING_NONCE_SLACK_BITS) with
    | None => Ok None
    | Some width =>
        if (MAX_GRINDING_BITS <? grind_bits) || negb (nonce_bits =? width) || (32 <? nonce_bits)
        then Ok None
        else find_nonce preview grind_bits nonce_bits (Z.to_nat (2 ^ nonce_bits)) 0
    end.

Section provided.
Context {F T : Type} `{Transcript F T}.

(** The provided method [grinding_predicate]. *)
Definition grinding_predicate (t : T) (grind_bits nonce_bits counter : Z)
  : result (option (list Z) * T) :=
  if grind_bits =? 0 then Ok (None, t)
  else
    let payload := grinding_payload grind_bits nonce_bits counter in
    let* t := append_bytes (F := F) t labels.ABSORB_TRANSCRIPT_GRINDING payload in
    let* (block, t) := challenge_block (F := F) t labels.CHALLENGE_GRINDING_PREDICATE in
    Ok (Some block, t).
End provided.

(** * Extension-field limbs *)

Definition EXT_LIMB_LABEL_SUFFIX_LEN : Z := 12.

Definition ext_limb_label (label : list Z) (limb : Z) : list Z :=
  label ++ [255] ++ to_le_bytes 8 limb ++ bytes "ext".

Definition ext_limb_base_label (label : list Z) : option (list Z) :=
  match checked_sub (len label) EXT_LIMB_LABEL_SUFFIX_LEN with
  | None => None
  | Some suffix_start =>
      match drop (Z.to_nat suffix_start) label with
      | [] => None
      | marker :: rest =>
          if (marker =? 255) && (len rest =? 11) && bool_decide (drop 8 rest = bytes "ext")
          then Some (take (Z.to_nat suffix_start) label) else None
      end
  end.

Definition is_ext_limb_label (candidate base : list Z) : bool :=
  match ext_limb_base_label candidate with
  | Some candidate_base => bool_decide (candidate_base = base)
  | None => false
  end.

(** [jolt_field::ExtField<F>]: base-field coordinates of an extension. *)
Class ExtField (F E : Type) := {
  DEGREE : Z;
  to_base_vec : E -> list F;
  from_base_slice : list F -> E;
}.
Arguments DEGREE F E {_}.

Section ext.
Context {F E T : Type} `{ExtField F E, Transcript F T}.

Definition append_ext_field (t : T) (label : list Z) (x : E) : result T :=
  let coeffs := to_base_vec (F := F) x in
  if DEGREE F E =? 1 then
    ofold (fun t coeff => append_field t label coeff) (take 1 coeffs) t
  else
    ofold (fun t '(limb, coeff) => append_field t (ext_limb_label label limb) coeff)
      (zip (range (len coeffs)) coeffs) t.

Definition sample_ext_challenge (t : T) (label : list Z) : result (E * T) :=
  if DEGREE F E =? 1 then
    let* (coeff, t) := challenge_scalar (F := F) t label in
    Ok (from_base_slice [coeff], t)
  else
    let* (coeffs, t) :=
      ofold (fun '(coeffs, t) limb =>
               let* (c, t) := challenge_scalar (F := F) t (ext_limb_label label limb) in
               Ok (coeffs ++ [c], t)) (range (DEGREE F E)) ([], t) in
    Ok (from_base_slice coeffs, t).
End ext.

(** * The spongefish-backed implementation *)

Class CanonicalBytes (F : Type) := {
  NUM_BYTES : Z;
  to_bytes_le : F -> list Z;
  from_challenge_bytes : list Z -> F;
}.
Arguments NUM_BYTES F {_}.

(** [spongefish]: prover and verifier states over a duplex sponge [S]. *)
Class Spongefish (S P V : Type) := {
  sponge_absorb : S -> list Z -> S;
  sponge_squeeze : S -> nat -> list Z * S;
  to_prover : list Z -> list Z -> list Z -> P;
  to_verifier : list Z -> list Z -> list Z -> V;
  prover_public_message : P -> list Z -> P;
  prover_verifier_message : P -> list Z * P;
  verifier_public_message : V -> list Z -> V;
  verifier_verifier_message : V -> list Z * V;
  duplex_sponge_state : P -> S;
  verifier_sponge_state : V -> S;
}.

(** Documented behaviour: public messages are absorbed into the duplex sponge,
    verifier messages squeeze 32 bytes from it, and both sides start from the
    same sponge for the same domain separator. *)
Class SpongefishLaws (S P V : Type) `{Spongefish S P V} := {
  squeeze_len s n : length (fst (sponge_squeeze s n)) = n;
  prover_public_sponge p m :
    duplex_sponge_state (prover_public_message p m) = sponge_absorb (duplex_sponge_state p) m;
  prover_message_sponge p :
    let '(b, p') := prover_verifier_message p in
    sponge_squeeze (duplex_sponge_state p) 32 = (b, duplex_sponge_state p');
  verifier_public_sponge v m :
    verifier_sponge_state (verifier_public_message v m)
    = sponge_absorb (verifier_sponge_state v) m;
  verifier_message_sponge v :
    let '(b, v') := verifier_verifier_message v in
    sponge_squeeze (verifier_sponge_state v) 32 = (b, verifier_sponge_state v');
  same_start tag session inst :
    duplex_sponge_state (to_prover tag session inst)
    = verifier_sponge_state (to_verifier tag session inst);
}.

Inductive TranscriptState (P V : Type) :=
  | ProverSt (state : P)
  | VerifierSt (state : V).
Arguments ProverSt {P V}. Arguments VerifierSt {P V}.

Inductive TranscriptSide := Prover | Verifier.

Record AkitaTranscript (P V : Type) := {
  session_label : list Z;
  side : TranscriptSide;
  state : option (TranscriptState P V);
}.
Arguments session_label {P V}. Arguments side {P V}. Arguments state {P V}.

(** [FramedBytes::encode] and [SessionBoundInstance::encode]. *)
Definition framed_encode (b : list Z) : list Z := to_le_bytes 8 (len b) ++ b.
Definition session_bound_encode (session_label instance_bytes : list Z) : list Z :=
  to_le_bytes 8 (len session_label) ++ session_label ++
  to_le_bytes 8 (len instance_bytes) ++ instance_bytes.

Definition zero_padded (s : string) : list Z :=
  bytes s ++ replicate (64 - length (bytes s)) 0.

(** The tag of the [transcript-blake2b] backend. *)
Definition PROTOCOL_TAG : list Z := zero_padded "akita-pcs/transcript/v1/blake2b".
Definition SESSION_DOMAIN_TAG : list Z := zero_padded "akita-pcs/session-label/v1".

Module AkitaTranscript.

Section ops.
Context {F S P V : Type} `{CanonicalBytes F, Spongefish S P V}.
Abbreviation transcript := (AkitaTranscript P V).

Definition unbound (session_label : list Z) (side : TranscriptSide) : transcript :=
  {| session_label := session_label; side := side; state := None |}.

Definition bind_instance (t : transcript) (instance_bytes : list Z) : transcript :=
  let inst := session_bound_encode (session_label t) instance_bytes in
  {| session_label := session_label t; side := side t;
     state := Some match side t with
                   | Prover => ProverSt (to_prover PROTOCOL_TAG SESSION_DOMAIN_TAG inst)
                   | Verifier => VerifierSt (to_verifier PROTOCOL_TAG SESSION_DOMAIN_TAG inst)
                   end |}.

Definition new_prover (session_label instance_bytes : list Z) : transcript :=
  bind_instance (unbound session_label Prover) instance_bytes.
Definition new_verifier (session_label instance_bytes : list Z) : transcript :=
  bind_instance (unbound session_label Verifier) instance_bytes.
Definition new (session_label : list Z) : transcript :=
  new_prover session_label (bytes "akita/default-instance").

(** [state_mut]: panics on an unbound transcript. *)
Definition state_mut (t : transcript) : result (TranscriptState P V) := unwrap (state t).
Definition with_state (t : transcript) (s : TranscriptState P V) : transcript :=
  {| session_label := session_label t; side := side t; state := Some s |}.

Definition absorb_bytes (t : transcript) (b : list Z) : result transcript :=
  let framed := framed_encode b in
  let* s := state_mut t in
  Ok (with_state t match s with
                   | ProverSt p => ProverSt (prover_public_message p framed)
                   | VerifierSt v => VerifierSt (verifier_public_message v framed)
                   end).

Definition absorb_field (t : transcript) (value : F) : result transcript :=
  absorb_bytes t (to_bytes_le value).

Definition absorb_serde {A : Type} `{AkitaSerialize A} (t : transcript) (value : A)
  : result transcript :=
  match serialize_compressed value with
  | Ok b => absorb_bytes t b
  | _ => Panic
  end.

Definition squeeze_block (t : transcript) : result (list Z * transcript) :=
  let* s := state_mut t in
  match s with
  | ProverSt p =>
      let '(b, p) := prover_verifier_message p in Ok (b, with_state t (ProverSt p))
  | VerifierSt v =>
      let '(b, v) := verifier_verifier_message v in Ok (b, with_state t (VerifierSt v))
  end.

(** [while out.len() < len]; every chunk makes progress, so [len] rounds of
    fuel are enough. *)
Fixpoint squeeze_loop (fuel : nat) (n : Z) (out : list Z) (t : transcript)
  : result (list Z * transcript) :=
  if len out <? n then
    match fuel with
    | O => Panic
    | Datatypes.S fuel =>
        let* (chunk, t) := squeeze_block t in
        let k := Z.min (n - len out) (len chunk) in
        squeeze_loop fuel n (out ++ take (Z.to_nat k) chunk) t
    end
  else Ok (out, t).

Definition squeeze_bytes (t : transcript) (n : Z) : result (list Z * transcript) :=
  squeeze_loop (Z.to_nat n) n [] t.

Definition squeeze_scalar (t : transcript) : result (F * transcript) :=
  let* (b, t) := squeeze_bytes t (2 * NUM_BYTES F) in
  Ok (from_challenge_bytes b, t).

Definition preview_challenge_block (t : transcript) : preview_fn := fun absorb_payloads =>
  let* s := unwrap (state t) in
  match s with
  | VerifierSt _ => Panic
  | ProverSt p =>
      let '(out, _) :=
        foldl (fun '(out, sponge) absorb =>
                 sponge_squeeze (sponge_absorb sponge (framed_encode absorb)) 32)
          (replicate 32 0, duplex_sponge_state p) absorb_payloads in
      Ok out
  end.
End ops.

End AkitaTranscript.

#[export] Instance AkitaTranscript_Transcript {F S P V} `{CanonicalBytes F, Spongefish S P V}
  : Transcript F (AkitaTranscript P V) := {
  bind_instance_bytes t b := Ok (AkitaTranscript.bind_instance t b);
  append_bytes t _ b := AkitaTranscript.absorb_bytes t b;
  append_field t _ x := AkitaTranscript.absorb_field t x;
  append_serde _ _ t _ x := AkitaTranscript.absorb_serde t x;
  challenge_scalar t _ := AkitaTranscript.squeeze_scalar t;
  challenge_bytes t _ n := AkitaTranscript.squeeze_bytes t n;
  challenge_block t _ := AkitaTranscript.squeeze_block t;
}.

(** * Framing *)

Lemma to_le_bytes_inj n a b :
  in_u (8 * Z.of_nat n) a -> in_u (8 * Z.of_nat n) b ->
  to_le_bytes n a = to_le_bytes n b -> a = b.
Proof.
  intros Ha Hb He. apply (f_equal from_le_bytes) in He. rewrite !from_to_le_bytes in He.
  rewrite !Z.mod_small in He by done. done.
Qed.

(** An in-memory payload: its length fits a [u64]. *)
Definition payload_ok (b : list Z) : Prop := len b < 2 ^ 64.

Lemma length_prefix_inj a b x y :
  payload_ok a -> payload_ok b ->
  to_le_bytes 8 (len a) ++ a ++ x = to_le_bytes 8 (len b) ++ b ++ y -> a = b /\ x = y.
Proof.
  intros Ha Hb He. unfold payload_ok in *. pose proof (len_nonneg a). pose proof (len_nonneg b).
  apply app_inj_1 in He as [Hl He]; [|by rewrite !length_to_le_bytes].
  apply to_le_bytes_inj in Hl; [|by split..]. apply app_inj_1 in He; [done|].
  unfold len in Hl. lia.
Qed.

(** C33: what the sponge absorbs determines the payloads: framed payloads are
    prefix-free, so a sequence of absorbed payloads can be read back from the
    concatenation of its frames in one way only, and the encoding of the
    session label with the instance bytes is injective. *)
Theorem framing_injective :
  (forall l1 l2, Forall payload_ok l1 -> Forall payload_ok l2 ->
     concat (map framed_encode l1) = concat (map framed_encode l2) -> l1 = l2) /\
  (forall s1 i1 s2 i2, payload_ok s1 -> payload_ok s2 -> payload_ok i1 -> payload_ok i2 ->
     session_bound_encode s1 i1 = session_bound_encode s2 i2 -> s1 = s2 /\ i1 = i2).
Proof.
  split.
  - induction l1 as [|a l1 IH]; intros [|b l2] H1 H2 He; [done|discriminate He..|].
    apply Forall_cons_iff in H1 as [Ha H1], H2 as [Hb H2]. cbn [map concat] in He.
    unfold framed_encode in He at 1 3. rewrite <-!app_assoc in He.
    apply length_prefix_inj in He as [-> He]; [|done..]. f_equal. by apply IH.
  - intros s1 i1 s2 i2 Hs1 Hs2 Hi1 Hi2 He. unfold session_bound_encode in He.
    apply length_prefix_inj in He as [-> He]; [|done..].
    rewrite <-(app_nil_r i1), <-(app_nil_r i2) in He.
    rewrite !len_app in He. change (len []) with 0 in He. rewrite !Z.add_0_r in He.
    by apply length_prefix_inj in He as [-> _].
Qed.

(** * Simulation between two transcripts *)

Definition rel_state {T1 T2} (R : T1 -> T2 -> Prop) (m1 : result T1) (m2 : result T2) : Prop :=
  match m1, m2 with
  | Ok t1, Ok t2 => R t1 t2
  | Err e1, Err e2 => e1 = e2
  | Panic, Panic => True
  | _, _ => False
  end.

Definition rel_out {A T1 T2} (R : T1 -> T2 -> Prop) (m1 : result (A * T1)) (m2 : result (A * T2))
  : Prop :=
  match m1, m2 with
  | Ok (a1, t1), Ok (a2, t2) => a1 = a2 /\ R t1 t2
  | Err e1, Err e2 => e1 = e2
  | Panic, Panic => True
  | _, _ => False
  end.

(** What the protocol code needs from a pair of transcripts: related states
    stay related and give the same challenges. *)
Class TranscriptSim (F T1 T2 : Type) `{Transcript F T1, Transcript F T2}
    (R : T1 -> T2 -> Prop) : Prop := {
  sim_append_bytes t1 t2 l b :
    R t1 t2 -> rel_state R (append_bytes (F := F) t1 l b) (append_bytes (F := F) t2 l b);
  sim_append_field t1 t2 l (x : F) :
    R t1 t2 -> rel_state R (append_field t1 l x) (append_field t2 l x);
  sim_append_serde {A} `{AkitaSerialize A} t1 t2 l (x : A) :
    R t1 t2 -> rel_state R (append_serde (F := F) t1 l x) (append_serde (F := F) t2 l x);
  sim_challenge_scalar t1 t2 l :
    R t1 t2 -> rel_out R (challenge_scalar (F := F) t1 l) (challenge_scalar (F := F) t2 l);
  sim_challenge_bytes t1 t2 l n :
    R t1 t2 -> rel_out R (challenge_bytes (F := F) t1 l n) (challenge_bytes (F := F) t2 l n);
  sim_challenge_block t1 t2 l :
    R t1 t2 -> rel_out R (challenge_block (F := F) t1 l) (challenge_block (F := F) t2 l);
}.

Lemma rel_out_bind {A B T1 T2} (R : T1 -> T2 -> Prop) (m1 : result (A * T1)) m2
    (k1 : A * T1 -> result (B * T1)) (k2 : A * T2 -> result (B * T2)) :
  rel_out R m1 m2 -> (forall a t1 t2, R t1 t2 -> rel_out R (k1 (a, t1)) (k2 (a, t2))) ->
  rel_out R (obind m1 k1) (obind m2 k2).
Proof.
  intros Hm Hk. destruct m1 as [[a1 t1]|e1|], m2 as [[a2 t2]|e2|]; try done.
  destruct Hm as [-> Hr]. by apply Hk.
Qed.

Lemma rel_state_bind {B T1 T2} (R : T1 -> T2 -> Prop) (m1 : result T1) m2
    (k1 : T1 -> result (B * T1)) (k2 : T2 -> result (B * T2)) :
  rel_state R m1 m2 -> (forall t1 t2, R t1 t2 -> rel_out R (k1 t1) (k2 t2)) ->
  rel_out R (obind m1 k1) (obind m2 k2).
Proof.
  intros Hm Hk. destruct m1, m2; try done. by apply Hk.
Qed.

(** * The implementation simulates itself across sides *)

Section implementation.
Context {F S P V : Type} `{CanonicalBytes F, !Spongefish S P V, !SpongefishLaws S P V}.
Abbreviation transcript := (AkitaTranscript P V).
Import AkitaTranscript.

(** The sponge inside a transcript, [None] before it is bound. *)
Definition sponge_of (t : transcript) : option S :=
  match state t with
  | None => None
  | Some (ProverSt p) => Some (duplex_sponge_state p)
  | Some (VerifierSt v) => Some (verifier_sponge_state v)
  end.

Definition same_sponge (t1 t2 : transcript) : Prop := sponge_of t1 = sponge_of t2.

Lemma absorb_sponge t b :
  match sponge_of t with
  | None => absorb_bytes t b = Panic
  | Some s => exists t', absorb_bytes t b = Ok t' /\ side t' = side t /\
                sponge_of t' = Some (sponge_absorb s (framed_encode b))
  end.
Proof.
  destruct t as [l sd [[p|v]|]]; cbn; [| |done]; eexists; (split; [done|]); split; cbn;
    [done|by rewrite prover_public_sponge|done|by rewrite verifier_public_sponge].
Qed.

Lemma block_sponge t :
  match sponge_of t with
  | None => squeeze_block t = Panic
  | Some s => exists t', squeeze_block t = Ok (fst (sponge_squeeze s 32), t') /\
                sponge_of t' = Some (snd (sponge_squeeze s 32))
  end.
Proof.
  destruct t as [l sd [[p|v]|]]; [| |done].
  - unfold sponge_of, squeeze_block. cbn [state state_mut unwrap obind].
    pose proof (prover_message_sponge p) as Hm.
    destruct (prover_verifier_message p) as [b p'] eqn:Hp. rewrite Hm.
    by eexists.
  - unfold sponge_of, squeeze_block. cbn [state state_mut unwrap obind].
    pose proof (verifier_message_sponge v) as Hm.
    destruct (verifier_verifier_message v) as [b v'] eqn:Hv. rewrite Hm.
    by eexists.
Qed.

Lemma sim_absorb t1 t2 b :
  same_sponge t1 t2 -> rel_state same_sponge (absorb_bytes t1 b) (absorb_bytes t2 b).
Proof.
  unfold same_sponge. intros Hs. pose proof (absorb_sponge t1 b) as H1.
  pose proof (absorb_sponge t2 b) as H2. rewrite Hs in H1.
  destruct (sponge_of t2); [|by rewrite H1, H2].
  destruct H1 as (t1' & -> & _ & H1), H2 as (t2' & -> & _ & H2). cbn. congruence.
Qed.

Lemma sim_block t1 t2 :
  same_sponge t1 t2 -> rel_out same_sponge (squeeze_block t1) (squeeze_block t2).
Proof.
  unfold same_sponge. intros Hs. pose proof (block_sponge t1) as H1.
  pose proof (block_sponge t2) as H2. rewrite Hs in H1.
  destruct (sponge_of t2); [|by rewrite H1, H2].
  destruct H1 as (t1' & -> & H1), H2 as (t2' & -> & H2). cbn. split; congruence.
Qed.

Lemma sim_squeeze_loop fuel n out t1 t2 :
  same_sponge t1 t2 ->
  rel_out same_sponge (squeeze_loop fuel n out t1) (squeeze_loop fuel n out t2).
Proof.
  revert out t1 t2; induction fuel as [|fuel IH]; intros out t1 t2 Hs; cbn [squeeze_loop];
    destruct (len out <? n); try done.
  apply rel_out_bind with (R := same_sponge); [by apply sim_block|]. intros; by apply IH.
Qed.

#[export] Instance AkitaTranscript_sim : TranscriptSim F transcript transcript same_sponge.
Proof.
  constructor; cbn; intros; try by apply sim_absorb.
  - unfold absorb_serde. destruct (serialize_compressed x); [|done..]. by apply sim_absorb.
  - apply rel_out_bind with (R := same_sponge); [by apply sim_squeeze_loop|]. done.
  - by apply sim_squeeze_loop.
  - by apply sim_block.
Qed.

Lemma both_sides_start label instance_bytes :
  same_sponge (new_prover label instance_bytes) (new_verifier label instance_bytes).
Proof. unfold same_sponge. cbn. by rewrite same_start. Qed.

(** ** Successive blocks *)

(** The first [m] blocks of 32 bytes that a sponge yields, and the sponge after them. *)
Fixpoint squeezes (s : S) (m : nat) : list (list Z) * S :=
  match m with
  | O => ([], s)
  | Datatypes.S m =>
      let '(block, s) := sponge_squeeze s 32 in
      let '(rest, s) := squeezes s m in (block :: rest, s)
  end.

Definition blocks_for (n : Z) : nat := Z.to_nat ((n + 31) / 32).

Lemma squeezes_len s m : Forall (fun b => length b = 32%nat) (fst (squeezes s m)) /\ length (fst (squeezes s m)) = m.
Proof.
  revert s; induction m as [|m IH]; intros s; cbn [squeezes]; [by split; [constructor|]|].
  pose proof (squeeze_len s 32) as Hl. destruct (sponge_squeeze s 32) as [block s'].
  specialize (IH s') as [IH1 IH2]. destruct (squeezes s' m) as [rest s'']. cbn [fst] in *. split; [by constructor|cbn; by f_equal].
Qed.

Lemma squeezes_bytes s n : 0 <= n -> len (take (Z.to_nat n) (concat (fst (squeezes s (blocks_for n))))) = n.
Proof.
  intros Hn. destruct (squeezes_len s (blocks_for n)) as [Hf Hl]. unfold len. rewrite length_take.
  assert (Hc : length (concat (fst (squeezes s (blocks_for n)))) = (blocks_for n * 32)%nat).
  { rewrite <-Hl at 2. clear Hl. induction Hf as [|b l Hb _ IH]; [done|]. cbn [concat length]. rewrite length_app, Hb, IH. lia. }
  rewrite Hc. unfold blocks_for. Z.to_euclidean_division_equations. lia.
Qed.

(** The loop appends the successive blocks, the last one cut to size; it makes
    progress, so its fuel is never exhausted. *)
Lemma squeeze_loop_blocks fuel n out t s :
  sponge_of t = Some s -> len out <= n -> n - len out <= Z.of_nat fuel ->
  let m := blocks_for (n - len out) in
  exists t', squeeze_loop fuel n out t = Ok (out ++ take (Z.to_nat (n - len out)) (concat (fst (squeezes s m))), t') /\
    sponge_of t' = Some (snd (squeezes s m)).
Proof.
  revert out t s; induction fuel as [|fuel IH]; intros out t s Ht Hlo Hf m; cbn [squeeze_loop];
    (destruct (Z.ltb_spec (len out) n);
     [|exists t; unfold m; replace (n - len out) with 0 by lia; cbn; by rewrite app_nil_r]); [lia|].
  pose proof (block_sponge t) as Hb. rewrite Ht in Hb. destruct Hb as (t1 & -> & Hs1). cbn [obind].
  pose proof (squeeze_len s 32) as Hl.
  assert (Hm : m = Datatypes.S (blocks_for (n - len out - 32))).
  { unfold m, blocks_for. Z.to_euclidean_division_equations. lia. }
  rewrite Hm. cbn [squeezes]. destruct (sponge_squeeze s 32) as [block s1]. cbn [fst snd] in *.
  assert (Hlb : len block = 32) by (unfold len; lia). rewrite Hlb. set (k := Z.min (n - len out) 32).
  assert (Hlk : len (take (Z.to_nat k) block) = k) by (unfold len at 1; rewrite length_take, Hl; unfold k; lia).
  destruct (IH (out ++ take (Z.to_nat k) block) t1 s1 Hs1) as (t2 & -> & Hs2); [rewrite len_app; lia..|].
  exists t2. rewrite len_app, Hlk in *. replace (n - (len out + k)) with (Z.max 0 (n - len out - 32)) in * by lia.
  assert (Hc : blocks_for (Z.max 0 (n - len out - 32)) = blocks_for (n - len out - 32)).
  { unfold blocks_for. Z.to_euclidean_division_equations. lia. }
  rewrite Hc in *. destruct (squeezes s1 (blocks_for (n - len out - 32))) as [rest s2] eqn:Hr. cbn [fst snd concat] in *.
  split; [|done]. do 2 f_equal. rewrite <-app_assoc. f_equal. unfold k. destruct (Z.le_gt_cases (n - len out) 32).
  - rewrite Z.max_l, Z.min_l by lia. change (Z.to_nat 0) with 0%nat. rewrite take_0, app_nil_r, take_app_le by lia. done.
  - rewrite Z.max_r, Z.min_r by lia. rewrite (take_ge block) by lia. rewrite take_app_ge by lia. do 2 f_equal. lia.
Qed.

(** Absorbing payloads and squeezing a block after each one; the last block. *)
Definition live_blocks (t : transcript) (queries : list (list Z)) : result (list Z * transcript) :=
  ofold (fun '(_, t) query => let* t := absorb_bytes t query in squeeze_block t) queries (replicate 32 0, t).

Definition sponge_blocks (out : list Z) (s : S) (queries : list (list Z)) : list Z * S :=
  foldl (fun '(out, sponge) absorb => sponge_squeeze (sponge_absorb sponge (framed_encode absorb)) 32) (out, s) queries.

Lemma live_blocks_sponge queries t out s : sponge_of t = Some s ->
  exists t', ofold (fun '(_, t) query => let* t := absorb_bytes t query in squeeze_block t) queries (out, t)
    = Ok (fst (sponge_blocks out s queries), t') /\ sponge_of t' = Some (snd (sponge_blocks out s queries)).
Proof.
  revert t out s; induction queries as [|query queries IH]; intros t out s Ht; [by exists t|]. cbn [ofold].
  pose proof (absorb_sponge t query) as Ha. rewrite Ht in Ha. destruct Ha as (t1 & -> & _ & Hs1). cbn [obind].
  pose proof (block_sponge t1) as Hb. rewrite Hs1 in Hb. destruct Hb as (t2 & -> & Hs2). cbn [obind].
  destruct (IH t2 (fst (sponge_squeeze (sponge_absorb s (framed_encode query)) 32)) _ Hs2) as (t3 & -> & Hs3).
  exists t3. unfold sponge_blocks in *. cbn [foldl]. by destruct (sponge_squeeze (sponge_absorb s (framed_encode query)) 32).
Qed.

Lemma absorb_payloads payloads t s : sponge_of t = Some s ->
  exists t', ofold absorb_bytes payloads t = Ok t' /\ side t' = side t /\
    sponge_of t' = Some (foldl (fun s b => sponge_absorb s (framed_encode b)) s payloads).
Proof.
  revert t s; induction payloads as [|b payloads IH]; intros t s Ht; [by exists t|]. cbn [ofold foldl].
  pose proof (absorb_sponge t b) as Ha. rewrite Ht in Ha. destruct Ha as (t1 & -> & Hd & Hs1). cbn [obind].
  destruct (IH t1 _ Hs1) as (t2 & -> & Hd2 & Hs2). exists t2. by rewrite Hd2.
Qed.

Lemma preview_sponge t s queries : sponge_of t = Some s -> (forall v, state t <> Some (VerifierSt v)) ->
  preview_challenge_block t queries = Ok (fst (sponge_blocks (replicate 32 0) s queries)).
Proof.
  intros Ht Hv. unfold preview_challenge_block, sponge_blocks. unfold sponge_of in Ht.
  destruct (state t) as [[p|v]|]; [|by destruct (Hv v)|done]. injection Ht as <-. cbn [unwrap obind].
  by destruct (foldl _ _ queries).
Qed.

(** A prover transcript keeps a prover state. *)
Lemma absorb_prover payloads t t' : (forall v, state t <> Some (VerifierSt v)) ->
  ofold absorb_bytes payloads t = Ok t' -> forall v, state t' <> Some (VerifierSt v).
Proof.
  revert t; induction payloads as [|b payloads IH]; intros t Ht Ho; cbn [ofold] in Ho; [by injection Ho as <-|].
  obind_inv Ho. apply (IH a); [|done]. unfold absorb_bytes, state_mut in E.
  destruct (state t) as [[p|v]|] eqn:Hs; cbn [unwrap obind] in E; [by injection E as <-|by destruct (Ht v)|done].
Qed.

(** C34: byte squeezes, replay and previews.  A prover's and a verifier's
    transcript built from the same session label and instance bytes absorb
    any payloads without a panic and hold the same sponge, the initial one
    after the framed payloads in order.  From there [squeeze_bytes] returns
    on both sides the first [n] bytes of the successive 32-byte blocks of
    that sponge, [ceil(n / 32)] of them and no more, and leaves the sponge
    after them; and the preview of any queries on the prover's side is the
    last of the blocks that absorbing and squeezing them live yields, on
    either side. *)
Theorem squeeze_and_replay label instance_bytes payloads n queries :
  0 <= n ->
  let start := duplex_sponge_state (to_prover PROTOCOL_TAG SESSION_DOMAIN_TAG (session_bound_encode label instance_bytes)) in
  let s := foldl (fun s b => sponge_absorb s (framed_encode b)) start payloads in
  let '(blocks, after) := squeezes s (blocks_for n) in
  let b := take (Z.to_nat n) (concat blocks) in
  exists tp tv,
    ofold absorb_bytes payloads (new_prover label instance_bytes) = Ok tp /\
    ofold absorb_bytes payloads (new_verifier label instance_bytes) = Ok tv /\
    sponge_of tp = Some s /\ sponge_of tv = Some s /\ len b = n /\
    (exists tp' tv', squeeze_bytes tp n = Ok (b, tp') /\ squeeze_bytes tv n = Ok (b, tv') /\
       sponge_of tp' = Some after /\ sponge_of tv' = Some after) /\
    exists block tp' tv', preview_challenge_block tp queries = Ok block /\
      live_blocks tp queries = Ok (block, tp') /\ live_blocks tv queries = Ok (block, tv') /\ same_sponge tp' tv'.
Proof.
  intros Hn start s. destruct (squeezes s (blocks_for n)) as [blocks after] eqn:Hsq. intros b.
  destruct (absorb_payloads payloads (new_prover label instance_bytes) start eq_refl) as (tp & Hp & _ & Sp).
  destruct (absorb_payloads payloads (new_verifier label instance_bytes) start) as (tv & Hv & _ & Sv).
  { rewrite <-both_sides_start. done. }
  exists tp, tv. do 4 (split; [done|]). fold s in Sp, Sv.
  split; [pose proof (squeezes_bytes s n Hn) as Hb; by rewrite Hsq in Hb|]. split.
  - destruct (squeeze_loop_blocks (Z.to_nat n) n [] tp s Sp) as (tp' & Hqp & Sp'); [change (len []) with 0; lia..|].
    destruct (squeeze_loop_blocks (Z.to_nat n) n [] tv s Sv) as (tv' & Hqv & Sv'); [change (len []) with 0; lia..|].
    change (len []) with 0 in *. rewrite Z.sub_0_r, Hsq in *. by exists tp', tv'.
  - destruct (live_blocks_sponge queries tp (replicate 32 0) s Sp) as (tp' & Hlp & Sp').
    destruct (live_blocks_sponge queries tv (replicate 32 0) s Sv) as (tv' & Hlv & Sv').
    exists (fst (sponge_blocks (replicate 32 0) s queries)), tp', tv'. split; [|split; [exact Hlp|]; split; [exact Hlv|]].
    + apply preview_sponge; [done|]. apply (absorb_prover payloads (new_prover label instance_bytes)); [|done].
      by intros v [=].
    + unfold same_sponge. by rewrite Sp', Sv'.
Qed.
End implementation.

(** * Grinding *)

Lemma from_le_bytes_app a b :
  from_le_bytes (a ++ b) = from_le_bytes a + 2 ^ (8 * len a) * from_le_bytes b.
Proof.
  induction a as [|x a IH]; [unfold len; cbn [app from_le_bytes length]; lia|].
  cbn [app from_le_bytes]. rewrite IH, len_cons.
  replace (8 * (len a + 1)) with (8 + 8 * len a) by lia.
  rewrite Z.pow_add_r by (pose proof (len_nonneg a); lia). lia.
Qed.

Lemma from_le_bytes_zero bs :
  Forall is_byte bs -> from_le_bytes bs = 0 <-> forallb (fun b => b =? 0) bs = true.
Proof.
  induction 1 as [|b bs Hb Hbs IH]; [done|]. cbn [from_le_bytes forallb].
  rewrite andb_true_iff, <-IH, Z.eqb_eq. unfold is_byte in Hb.
  pose proof (from_le_bytes_bound bs Hbs). lia.
Qed.

(** the predicate is accepted exactly when its low [grind_bits] bits, in
    little-endian order, are zero. *)
Theorem grinding_predicate_low_bits predicate g :
  length predicate = 32%nat -> Forall is_byte predicate -> 1 <= g <= 255 ->
  grinding_predicate_accepts predicate g = true <-> from_le_bytes predicate mod 2 ^ g = 0.
Proof.
  intros Hlen Hb Hg. unfold grinding_predicate_accepts.
  set (w := Z.to_nat (g / 8)). assert (Hw : (w < 32)%nat) by (subst w; div_lia).
  assert (Hgw : g = 8 * Z.of_nat w + g mod 8) by (subst w; div_lia).
  pose proof (Z.mod_pos_bound g 8 ltac:(lia)) as Hr. set (r := g mod 8) in *.
  destruct (lookup_lt_is_Some_2 predicate w) as [x Hx]; [lia|].
  rewrite (nth_lookup_Some _ _ _ _ Hx).
  assert (Hsplit : predicate = take w predicate ++ x :: drop (S w) predicate)
    by (symmetry; by apply take_drop_middle).
  pose proof Hb as Hb'. rewrite Hsplit in Hb'.
  apply Forall_app in Hb' as [Hlo Hhi]. apply Forall_cons_iff in Hhi as [Hxb Hhi].
  assert (Htl : len (take w predicate) = Z.of_nat w) by (unfold len; rewrite length_take; lia).
  set (L := from_le_bytes (take w predicate)). set (R := from_le_bytes (drop (S w) predicate)).
  assert (HL : 0 <= L < 2 ^ (8 * Z.of_nat w)).
  { subst L. pose proof (from_le_bytes_bound _ Hlo) as Hbd. by rewrite Htl in Hbd. }
  assert (Hval : from_le_bytes predicate = L + (x + 256 * R) * 2 ^ (8 * Z.of_nat w)).
  { rewrite Hsplit at 1. rewrite from_le_bytes_app, Htl. cbn [from_le_bytes].
    fold L R. lia. }
  assert (Hmod : from_le_bytes predicate mod 2 ^ g
                 = L + 2 ^ (8 * Z.of_nat w) * ((x + 256 * R) mod 2 ^ r)).
  { assert (HA : 0 < 2 ^ (8 * Z.of_nat w)) by (apply pow2_pos; lia).
    assert (HB : 0 < 2 ^ r) by (apply pow2_pos; lia).
    rewrite Hval, Hgw. rewrite Z.pow_add_r by lia. rewrite Z.rem_mul_r by lia.
    rewrite Z.mod_add, Z.div_add by lia.
    by rewrite (Z.mod_small L), (Z.div_small L), Z.add_0_l by exact HL. }
  rewrite Hmod.
  assert (Hm : (x + 256 * R) mod 2 ^ r = x mod 2 ^ r).
  { replace 256 with (2 ^ (8 - r) * 2 ^ r) by (rewrite <-Z.pow_add_r by lia; by replace (8 - r + r) with 8 by lia).
    replace (x + 2 ^ (8 - r) * 2 ^ r * R) with (x + 2 ^ (8 - r) * R * 2 ^ r) by lia.
    apply Z.mod_add. lia. }
  rewrite Hm, Z.shiftl_1_l. replace (2 ^ r - 1) with (Z.ones r) by (rewrite Z.ones_equiv; lia).
  rewrite Z.land_ones by lia.
  assert (Hxr : (r =? 0) || (x mod 2 ^ r =? 0) = (x mod 2 ^ r =? 0)).
  { destruct (Z.eqb_spec r 0) as [->|]; [|done]. by rewrite Z.pow_0_r, Z.mod_1_r. }
  rewrite Hxr, andb_true_iff, Z.eqb_eq, <-(from_le_bytes_zero _ Hlo). fold L.
  pose proof (Z.mod_pos_bound x (2 ^ r) ltac:(lia)). nia.
Qed.

Section search.
Context {F S P V : Type} `{CanonicalBytes F, !Spongefish S P V, !SpongefishLaws S P V}.
Abbreviation transcript := (AkitaTranscript P V).
Import AkitaTranscript.

(** The predicate block that the live transition would produce. *)
Definition live_block (s : S) (g nb c : Z) : list Z :=
  fst (sponge_squeeze (sponge_absorb s (framed_encode (grinding_payload g nb c))) 32).

Lemma preview_is_live (t : transcript) p g nb c :
  state t = Some (ProverSt p) -> g <> 0 ->
  preview_grinding_predicate (preview_challenge_block t) g nb c
    = Ok (Some (live_block (duplex_sponge_state p) g nb c)) /\
  exists t', grinding_predicate (F := F) t g nb c
               = Ok (Some (live_block (duplex_sponge_state p) g nb c), t').
Proof.
  intros Ht Hg. unfold preview_grinding_predicate, grinding_predicate.
  destruct (Z.eqb_spec g 0) as [->|_]; [done|]. split.
  - unfold preview_challenge_block. rewrite Ht. cbn [unwrap obind foldl].
    unfold live_block. by destruct (sponge_squeeze _ 32).
  - cbn [append_bytes challenge_block AkitaTranscript_Transcript].
    pose proof (absorb_sponge t (grinding_payload g nb c)) as Ha.
    unfold sponge_of in Ha. rewrite Ht in Ha. destruct Ha as (t1 & -> & _ & Hs1). cbn [obind].
    pose proof (block_sponge t1) as Hb. fold (sponge_of t1) in Hs1. rewrite Hs1 in Hb.
    destruct Hb as (t2 & -> & _). cbn [obind]. by eexists.
Qed.

Lemma find_nonce_spec (t : transcript) p g nb fuel c0 :
  state t = Some (ProverSt p) -> g <> 0 -> 0 <= c0 -> c0 + Z.of_nat fuel <= 2 ^ 32 ->
  let acc c := grinding_predicate_accepts (live_block (duplex_sponge_state p) g nb c) g in
  match find_nonce (preview_challenge_block t) g nb fuel c0 with
  | Ok (Some c) => c0 <= c < c0 + Z.of_nat fuel /\ acc c = true /\
                   forall m, c0 <= m < c -> acc m = false
  | Ok None => forall m, c0 <= m < c0 + Z.of_nat fuel -> acc m = false
  | _ => False
  end.
Proof.
  intros Ht Hg Hc0 Hb acc. revert c0 Hc0 Hb.
  induction fuel as [|fuel IH]; intros c0 Hc0 Hb; cbn [find_nonce]; [lia|].
  rewrite checked_u_in by (unfold in_u; lia).
  destruct (preview_is_live t p g nb c0 Ht Hg) as [-> _]. cbn [obind]. fold (acc c0).
  destruct (acc c0) eqn:Ha; [split; [lia|]; split; [done|lia]|].
  specialize (IH (c0 + 1) ltac:(lia) ltac:(lia)).
  destruct (find_nonce _ g nb fuel (c0 + 1)) as [[c|]|e|]; try done.
  - destruct IH as (Hc & Hac & Hm). split; [lia|]. split; [done|]. intros m Hmm.
    destruct (decide (m = c0)) as [->|]; [done|]. apply Hm. lia.
  - intros m Hmm. destruct (decide (m = c0)) as [->|]; [done|]. apply IH. lia.
Qed.

(** the nonce search against the preview of a bound prover transcript
    never panics.  The nonce it returns is in the canonical range, makes the
    live transition on that same transcript accept, and every smaller nonce
    makes it reject; it returns nothing only for a non-canonical width or when
    every nonce of the range is rejected. *)
Theorem grinding_search_correct (t : transcript) p g nb :
  state t = Some (ProverSt p) -> 1 <= g <= 255 ->
  let live c ok := exists block t',
    grinding_predicate (F := F) t g nb c = Ok (Some block, t') /\
    grinding_predicate_accepts block g = ok in
  match search_grinding_nonce (preview_challenge_block t) g nb with
  | Ok (Some c) => g <= MAX_GRINDING_BITS /\ nb = g + GRINDING_NONCE_SLACK_BITS /\
                   0 <= c < 2 ^ nb /\ live c true /\ forall m, 0 <= m < c -> live m false
  | Ok None => MAX_GRINDING_BITS < g \/ nb <> g + GRINDING_NONCE_SLACK_BITS \/
               forall m, 0 <= m < 2 ^ nb -> live m false
  | _ => False
  end.
Proof.
  intros Ht Hg live. unfold search_grinding_nonce, MAX_GRINDING_BITS, GRINDING_NONCE_SLACK_BITS.
  destruct (Z.eqb_spec g 0); [lia|]. unfold checked_u.
  destruct (_ && _)%bool eqn:Hu; [|left; bool_prop; lia].
  destruct (Z.ltb_spec 25 g); cbn [orb]; [by left|].
  destruct (Z.eqb_spec nb (g + 7)) as [->|]; cbn [negb orb]; [|by right; left].
  destruct (Z.ltb_spec 32 (g + 7)); cbn [orb]; [lia|].
  assert (Hp : 2 ^ (g + 7) <= 2 ^ 32) by (apply Z.pow_le_mono_r; lia).
  pose proof (find_nonce_spec t p g (g + 7) (Z.to_nat (2 ^ (g + 7))) 0 Ht ltac:(lia) ltac:(lia)
                ltac:(lia)) as Hf.
  assert (Hlive : forall c ok, grinding_predicate_accepts
             (live_block (duplex_sponge_state p) g (g + 7) c) g = ok -> live c ok).
  { intros c ok Hok. destruct (preview_is_live t p g (g + 7) c Ht ltac:(lia)) as [_ (t' & Hl)].
    by exists (live_block (duplex_sponge_state p) g (g + 7) c), t'. }
  destruct (find_nonce _ g (g + 7) _ 0) as [[c|]|e|]; try done.
  - destruct Hf as (Hc & Hac & Hm). rewrite Z2Nat.id in Hc by lia.
    split; [lia|]. split; [done|]. split; [lia|]. split; [by apply Hlive|].
    intros m Hmm. by apply Hlive, Hm.
  - right; right. intros m Hmm. apply Hlive, Hf. lia.
Qed.
End search.

(** Limb labels are injective in the base label and the limb index and
    are recognised by [is_ext_limb_label] for their base and no other. *)
Theorem ext_limb_labels base limb base' limb' :
  in_u 64 limb -> in_u 64 limb' -> len base + 12 < 2 ^ 64 ->
  (ext_limb_label base limb = ext_limb_label base' limb' -> base = base' /\ limb = limb') /\
  ext_limb_base_label (ext_limb_label base limb) = Some base /\
  (is_ext_limb_label (ext_limb_label base limb) base' = true <-> base = base').
Proof.
  intros Hl Hl' Hb. set (suffix i := [255] ++ to_le_bytes 8 i ++ bytes "ext").
  assert (Hs : forall i, length (suffix i) = 12%nat).
  { intros i. subst suffix. cbn beta. rewrite !length_app, length_to_le_bytes. done. }
  assert (Hbase : ext_limb_base_label (ext_limb_label base limb) = Some base).
  { unfold ext_limb_base_label, ext_limb_label. fold (suffix limb).
    rewrite len_app. unfold len at 2. rewrite Hs. unfold checked_sub, EXT_LIMB_LABEL_SUFFIX_LEN.
    replace (len base + Z.of_nat 12 - 12) with (len base) by lia.
    pose proof (len_nonneg base). unfold usize.
    rewrite checked_u_in by (unfold in_u, USIZE_BITS; lia).
    replace (Z.to_nat (len base)) with (length base) by (unfold len; lia).
    rewrite drop_app_length, take_app_length. subst suffix. cbn [app].
    rewrite Z.eqb_refl, len_app. unfold len. rewrite length_to_le_bytes.
    change (Z.of_nat 8 + Z.of_nat (length (bytes "ext")) =? 11) with true. cbn [andb].
    rewrite drop_app_length' by (by rewrite length_to_le_bytes).
    by rewrite bool_decide_eq_true_2. }
  split; [|split; [done|]].
  - intros He. unfold ext_limb_label in He. fold (suffix limb) (suffix limb') in He.
    apply app_inj_2 in He as [-> He]; [|by rewrite !Hs]. split; [done|].
    subst suffix. cbn beta in He. apply app_inj_1 in He as [_ He]; [|done]. apply app_inj_1 in He as [He _];
      [|by rewrite !length_to_le_bytes]. by apply to_le_bytes_inj in He.
  - unfold is_ext_limb_label. rewrite Hbase. apply bool_decide_eq_true.
Qed.

(** * Evaluation at concrete inputs *)

(** A toy sponge: the state is the absorbed bytes, a squeeze repeats their sum. *)
Module toy.
Definition squeeze (s : list Z) (n : nat) : list Z * list Z :=
  (replicate n (foldr Z.add 0 s mod 256), s ++ [1]).
#[export] Instance fish : Spongefish (list Z) (list Z) (list Z) := {|
  sponge_absorb := fun s m => s ++ m;
  sponge_squeeze := squeeze;
  to_prover := fun tag session inst => tag ++ session ++ inst;
  to_verifier := fun tag session inst => tag ++ session ++ inst;
  prover_public_message := fun s m => s ++ m;
  prover_verifier_message := fun s => squeeze s 32;
  verifier_public_message := fun s m => s ++ m;
  verifier_verifier_message := fun s => squeeze s 32;
  duplex_sponge_state := fun s => s;
  verifier_sponge_state := fun s => s;
|}.
#[export] Instance fish_laws : SpongefishLaws (list Z) (list Z) (list Z).
Proof. constructor; try done. intros s n. apply length_replicate. Qed.
#[export] Instance canonical_bytes : CanonicalBytes F97.t := {|
  NUM_BYTES := 1;
  to_bytes_le := fun x => [F97.val x];
  from_challenge_bytes := fun b => F97.of_Z (from_le_bytes b);
|}.
End toy.
Import toy.

Lemma framing_injective_witness :
  session_bound_encode [1; 2] [3] <> session_bound_encode [1] [2; 3].
Proof.
  intros He. destruct framing_injective as [_ Hi].
  apply Hi in He as [He _]; [discriminate He|reflexivity..].
Defined.

Lemma squeeze_and_replay_witness :
  exists tp tp' blocks, ofold AkitaTranscript.absorb_bytes [[7; 8]; [9]] (AkitaTranscript.new_prover [1] [2; 3]) = Ok tp /\
    AkitaTranscript.squeeze_bytes tp 40 = Ok (take 40 (concat blocks), tp') /\ length blocks = 2%nat.
Proof.
  pose proof (squeeze_and_replay (S := list Z) (P := list Z) (V := list Z) [1] [2; 3] [[7; 8]; [9]] 40 [[4]; [5]] ltac:(lia)) as Hw.
  cbv zeta in Hw. match type of Hw with context [squeezes ?s ?m] => pose proof (squeezes_len (P := list Z) (V := list Z) s m) as [_ Hl]; destruct (squeezes s m) as [blocks after] end.
  destruct Hw as (tp & tv & Hp & _ & _ & _ & _ & (tp' & tv' & Hb & _) & _).
  exists tp, tp', blocks. split; [exact Hp|]. split; [exact Hb|exact Hl].
Defined.

Lemma grinding_predicate_low_bits_witness :
  grinding_predicate_accepts ([0; 16] ++ replicate 30 5) 12 = true.
Proof.
  apply (grinding_predicate_low_bits ([0; 16] ++ replicate 30 5) 12);
    [reflexivity| |lia|reflexivity].
  repeat constructor; lia.
Defined.

Lemma grinding_search_correct_witness :
  exists c, search_grinding_nonce
    (AkitaTranscript.preview_challenge_block (AkitaTranscript.new_prover [1] [2; 3])) 3 10 = Ok (Some c).
Proof.
  pose proof (grinding_search_correct (F := F97.t) (AkitaTranscript.new_prover [1] [2; 3])
    (PROTOCOL_TAG ++ SESSION_DOMAIN_TAG ++ session_bound_encode [1] [2; 3]) 3 10 eq_refl
    ltac:(lia)) as Hw.
  destruct (search_grinding_nonce
    (AkitaTranscript.preview_challenge_block (AkitaTranscript.new_prover [1] [2; 3])) 3 10)
    as [[c|]|e|] eqn:Hs; [by exists c| |done..].
  vm_compute in Hs. discriminate Hs.
Defined.

Lemma ext_limb_labels_witness :
  ext_limb_base_label (ext_limb_label (bytes "ak/c/scr") 3) = Some (bytes "ak/c/scr").
Proof.
  apply (ext_limb_labels (bytes "ak/c/scr") 3 [] 0); [by split..|reflexivity].
Defined.
