(* ===== verification/Grinding.v ===== *)
(** [akita-types/src/transcript_grinding.rs]: the public grinding policy, the
    logical query sites with their canonical encoding, priced runs and the
    validated plan. *)

From S2P Require Import Prelude Checked Serialization Transcript.

Definition TRANSCRIPT_SECURITY_BITS : Z := 128.
Definition FOLD_RESPONSE_NONCE_BITS : Z := 12.
Definition FOLD_RESPONSE_ATTEMPTS : Z := Z.shiftl 1 FOLD_RESPONSE_NONCE_BITS.
Definition GRINDING_ENCODING_VERSION : Z := 1.
Definition GRINDING_QUERY_POLICY_REVISION : Z := 1.
Definition FOLD_COORDINATE_ORACLE_REVISION : Z := 1.
Definition GRINDING_PREDICATE_BYTES : Z := GRINDING_PREDICATE_LEN.
Definition GRINDING_LITTLE_ENDIAN_BIT_ORDER : Z := 0.
Definition GRINDING_PLAN_DOMAIN : list Z := bytes "akita/grinding-plan/v1".
Definition U32_MAX : Z := 2 ^ 32 - 1.

(** The array is filled slice by slice, all of it. *)
Definition active_grinding_policy_bytes : list Z :=
  to_le_bytes 2 GRINDING_ENCODING_VERSION ++ to_le_bytes 2 TRANSCRIPT_SECURITY_BITS ++
  [GRINDING_NONCE_SLACK_BITS; MAX_GRINDING_BITS; GRINDING_PREDICATE_BYTES;
   GRINDING_LITTLE_ENDIAN_BIT_ORDER; FOLD_RESPONSE_NONCE_BITS] ++
  to_le_bytes 4 FOLD_RESPONSE_ATTEMPTS ++ to_le_bytes 2 GRINDING_QUERY_POLICY_REVISION ++
  to_le_bytes 2 FOLD_COORDINATE_ORACLE_REVISION.

Inductive GrindingQueryKind :=
  | ProofOfWork
  | KFoldResponse
  | KFoldChallengeGroup.

#[export] Instance GrindingQueryKind_eq_dec : EqDecision GrindingQueryKind.
Proof. solve_decision. Defined.

Inductive SumcheckProtocol :=
  | ExtensionOpeningReduction
  | Stage1
  | PhysicalL2
  | Stage2
  | Stage3.

#[export] Instance SumcheckProtocol_eq_dec : EqDecision SumcheckProtocol.
Proof. solve_decision. Defined.

Definition tag (p : SumcheckProtocol) : Z :=
  match p with
  | ExtensionOpeningReduction => 0
  | Stage1 => 1
  | PhysicalL2 => 2
  | Stage2 => 3
  | Stage3 => 4
  end.

Inductive GrindingSite :=
  | EvaluationBatch (level : Z)
  | ExtensionOpeningPoint (level : Z)
  | ExtensionOpeningClaimBatch (level : Z)
  | SumcheckRound (protocol : SumcheckProtocol) (level stage round : Z)
  | FoldResponse (level : Z)
  | FoldChallengeGroup (level group : Z)
  | RingSwitchAlpha (level : Z)
  | Tau0Point (level : Z)
  | Tau1Point (level : Z)
  | Stage1InterstageBatch (level stage : Z)
  | L2SubclaimBatch (level : Z)
  | L2NormMerge (level : Z)
  | L2VirtualBatch (level : Z)
  | CompressionBinary (level : Z)
  | Stage2Batch (level : Z).

#[export] Instance GrindingSite_eq_dec : EqDecision GrindingSite.
Proof. solve_decision. Defined.

Definition push_u32 (out : list Z) (value : Z) : list Z := out ++ to_le_bytes 4 value.

Module Site.

Definition kind (s : GrindingSite) : GrindingQueryKind :=
  match s with
  | FoldResponse _ => KFoldResponse
  | FoldChallengeGroup _ _ => KFoldChallengeGroup
  | _ => ProofOfWork
  end.

Definition level (s : GrindingSite) : Z :=
  match s with
  | EvaluationBatch level | ExtensionOpeningPoint level | ExtensionOpeningClaimBatch level
  | SumcheckRound _ level _ _ | FoldResponse level | FoldChallengeGroup level _
  | RingSwitchAlpha level | Tau0Point level | Tau1Point level | Stage1InterstageBatch level _
  | L2SubclaimBatch level | L2NormMerge level | L2VirtualBatch level | CompressionBinary level
  | Stage2Batch level => level
  end.

Definition proof_of_work_label (s : GrindingSite) : option label :=
  match s with
  | EvaluationBatch _ => Some labels.CHALLENGE_EVAL_BATCH
  | ExtensionOpeningPoint _ | Stage2Batch _ => Some labels.CHALLENGE_SUMCHECK_BATCH
  | ExtensionOpeningClaimBatch _ => Some labels.CHALLENGE_EOR_CLAIM_BATCH
  | SumcheckRound _ _ _ _ => Some labels.CHALLENGE_SUMCHECK_ROUND
  | RingSwitchAlpha _ => Some labels.CHALLENGE_RING_SWITCH
  | Tau0Point _ => Some labels.CHALLENGE_TAU0
  | Tau1Point _ => Some labels.CHALLENGE_TAU1
  | Stage1InterstageBatch _ _ => Some labels.CHALLENGE_SUMCHECK_INTERSTAGE_BATCH
  | L2SubclaimBatch _ => Some labels.CHALLENGE_L2_NORM_BATCH
  | L2NormMerge _ => Some labels.CHALLENGE_L2_NORM_MERGE
  | L2VirtualBatch _ => Some labels.CHALLENGE_L2_VIRTUAL_BATCH
  | CompressionBinary _ => Some labels.CHALLENGE_COMPRESSION_BINARY
  | FoldResponse _ | FoldChallengeGroup _ _ => None
  end.

Definition validate (s : GrindingSite) : result unit :=
  let invalid :=
    match s with
    | SumcheckRound _ level stage round =>
        (level =? U32_MAX) || (stage =? U32_MAX) || (round =? U32_MAX)
    | EvaluationBatch level | ExtensionOpeningPoint level | ExtensionOpeningClaimBatch level
    | FoldResponse level | RingSwitchAlpha level | Tau0Point level | Tau1Point level
    | L2SubclaimBatch level | L2NormMerge level | L2VirtualBatch level | CompressionBinary level
    | Stage2Batch level => level =? U32_MAX
    | FoldChallengeGroup level group => (level =? U32_MAX) || (group =? U32_MAX)
    | Stage1InterstageBatch level stage => (level =? U32_MAX) || (stage =? U32_MAX)
    end in
  if invalid then Err (InvalidSetup "grinding site uses a reserved u32 sentinel") else Ok tt.

Definition append_canonical_bytes (s : GrindingSite) (out : list Z) : list Z :=
  match s with
  | EvaluationBatch level => push_u32 (out ++ [0]) level
  | ExtensionOpeningPoint level => push_u32 (out ++ [1]) level
  | ExtensionOpeningClaimBatch level => push_u32 (out ++ [2]) level
  | SumcheckRound protocol level stage round =>
      push_u32 (push_u32 (push_u32 (push_u32 (out ++ [3]) (tag protocol)) level) stage) round
  | FoldResponse level => push_u32 (out ++ [4]) level
  | FoldChallengeGroup level group => push_u32 (push_u32 (out ++ [5]) level) group
  | RingSwitchAlpha level => push_u32 (out ++ [6]) level
  | Tau0Point level => push_u32 (out ++ [7]) level
  | Tau1Point level => push_u32 (out ++ [8]) level
  | Stage1InterstageBatch level stage => push_u32 (push_u32 (out ++ [9]) level) stage
  | L2SubclaimBatch level => push_u32 (out ++ [10]) level
  | L2NormMerge level => push_u32 (out ++ [11]) level
  | L2VirtualBatch level => push_u32 (out ++ [12]) level
  | CompressionBinary level => push_u32 (out ++ [13]) level
  | Stage2Batch level => push_u32 (out ++ [14]) level
  end.

Definition canonical_bytes (s : GrindingSite) : list Z := append_canonical_bytes s [].

(** The [u32] fields. *)
Definition fields (s : GrindingSite) : list Z :=
  match s with
  | SumcheckRound protocol level stage round => [tag protocol; level; stage; round]
  | FoldChallengeGroup level group => [level; group]
  | Stage1InterstageBatch level stage => [level; stage]
  | s => [level s]
  end.
Definition typed (s : GrindingSite) : Prop := Forall (in_u 32) (fields s).
End Site.

(** * Loss factors *)

Definition nominal_challenge_capacity_bits (modulus_bits extension_degree : Z) : result Z :=
  let* extension_degree := ok_or (checked_u 32 extension_degree)
    (InvalidSetup "challenge extension degree exceeds u32") in
  ok_or (checked_u 32 (modulus_bits * extension_degree)) (InvalidSetup "nominal challenge capacity overflow").

(** [u64::BITS - x.leading_zeros()] *)
Definition bit_length (x : Z) : Z := if x =? 0 then 0 else Z.log2 x + 1.

Definition grind_bits_for_loss (loss_factor nominal_capacity_bits : Z) : result Z :=
  if loss_factor =? 0 then Err (InvalidSetup "proof-of-work loss factor must be nonzero")
  else
    let loss_bits := bit_length (saturating_sub loss_factor 1) in
    let* required := ok_or (checked_u 32 (TRANSCRIPT_SECURITY_BITS + loss_bits))
      (InvalidSetup "grinding target overflow") in
    let target := saturating_sub required nominal_capacity_bits in
    let* target := ok_or (checked_u 8 target) (InvalidSetup "grinding target exceeds u8") in
    if MAX_GRINDING_BITS <? target then Err (InvalidSetup "grinding target exceeds supported maximum")
    else Ok target.

(** [usize] and [u64] have the same range. *)
Definition polynomial_identity_loss_factor (degree : Z) : result Z :=
  ok_or (checked_u 64 (Z.max degree 1)) (InvalidSetup "polynomial degree exceeds u64").
Definition multilinear_point_loss_factor (coordinates : Z) : result Z :=
  ok_or (checked_u 64 (Z.max coordinates 1)) (InvalidSetup "multilinear point width exceeds u64").
Definition powers_batch_loss_factor (values : Z) : result Z :=
  ok_or (checked_u 64 (Z.max (saturating_sub values 1) 1)) (InvalidSetup "powers batch length exceeds u64").

Inductive OpeningMethod :=
  | EvaluationTrace
  | SubringCoefficientPacking (challenge_subring_dimension : Z).

#[export] Instance OpeningMethod_eq_dec : EqDecision OpeningMethod.
Proof. solve_decision. Defined.

Definition twice_less_one (n : Z) : option Z :=
  match checked_mul n 2 with Some v => checked_sub v 1 | None => None end.

Definition ring_switch_alpha_loss_factor (opening_method : OpeningMethod) (inner_ring_dimension : Z) : result Z :=
  let* degree_bound := ok_or
    match opening_method with
    | EvaluationTrace => twice_less_one inner_ring_dimension
    | SubringCoefficientPacking challenge_subring_dimension => twice_less_one challenge_subring_dimension
    end (InvalidSetup "ring-switch alpha degree overflow") in
  polynomial_identity_loss_factor degree_bound.

(** * Runs *)

Record GrindingRun := {
  site : GrindingSite;
  loss_factor : Z;
  grind_bits : Z;
  nonce_bits : Z;
  multiplicity : Z;
}.

Definition invalid_setup {A} (msg : string) : result A := Err (InvalidSetup msg).

(** [grind_bits.checked_add(GRINDING_NONCE_SLACK_BITS)] for a nonzero target. *)
Definition pow_nonce_bits (grind_bits : Z) : result Z :=
  if grind_bits =? 0 then Ok 0
  else ok_or (checked_u 8 (grind_bits + GRINDING_NONCE_SLACK_BITS)) (InvalidSetup "grinding nonce width overflow").

Module Run.

Definition kind (r : GrindingRun) : GrindingQueryKind := Site.kind (site r).

Definition proof_of_work (site : GrindingSite) (loss_factor nominal_capacity_bits : Z) : result GrindingRun :=
  guard* bool_decide (Site.kind site = ProofOfWork)
    else InvalidSetup "special grinding sites cannot be proof-of-work runs" in
  let* grind_bits := grind_bits_for_loss loss_factor nominal_capacity_bits in
  let* nonce_bits := pow_nonce_bits grind_bits in
  Ok {| site := site; loss_factor := loss_factor; grind_bits := grind_bits; nonce_bits := nonce_bits;
        multiplicity := 1 |}.

Definition fold_response (level : Z) : GrindingRun :=
  {| site := FoldResponse level; loss_factor := 0; grind_bits := 0;
     nonce_bits := FOLD_RESPONSE_NONCE_BITS; multiplicity := 1 |}.

Definition fold_challenge_group (level group coordinate_count : Z) : result GrindingRun :=
  let* multiplicity := ok_or (checked_u 64 (coordinate_count + 1))
    (InvalidSetup "fold challenge query count overflow") in
  Ok {| site := FoldChallengeGroup level group; loss_factor := 0; grind_bits := 0; nonce_bits := 0;
        multiplicity := multiplicity |}.

Definition fold_coordinate_count (r : GrindingRun) : option Z :=
  match kind r with
  | KFoldChallengeGroup => checked_u 64 (multiplicity r - 1)
  | _ => None
  end.

Definition validate (r : GrindingRun) : result unit :=
  let* _ := Site.validate (site r) in
  match kind r with
  | ProofOfWork =>
      if (loss_factor r =? 0) || negb (multiplicity r =? 1)
      then invalid_setup "proof-of-work run has invalid loss or multiplicity"
      else
        let* expected_nonce_bits := pow_nonce_bits (grind_bits r) in
        if (MAX_GRINDING_BITS <? grind_bits r) || negb (nonce_bits r =? expected_nonce_bits)
        then invalid_setup "proof-of-work run has invalid target or nonce width"
        else Ok tt
  | KFoldResponse =>
      if (loss_factor r =? 0) && (grind_bits r =? 0) && (nonce_bits r =? FOLD_RESPONSE_NONCE_BITS) &&
         (multiplicity r =? 1)
      then Ok tt else invalid_setup "grinding run kind and site do not match"
  | KFoldChallengeGroup =>
      if (loss_factor r =? 0) && (grind_bits r =? 0) && (nonce_bits r =? 0) && (1 <? multiplicity r)
      then Ok tt else invalid_setup "grinding run kind and site do not match"
  end.

Definition append_canonical_bytes (r : GrindingRun) (out : list Z) : list Z :=
  Site.append_canonical_bytes (site r) out ++ to_le_bytes 8 (loss_factor r) ++ [grind_bits r; nonce_bits r] ++
  to_le_bytes 8 (multiplicity r).

(** The machine types of the fields. *)
Record typed (r : GrindingRun) : Prop := {
  typed_site : Site.typed (site r);
  typed_loss : in_u 64 (loss_factor r);
  typed_grind : in_u 8 (grind_bits r);
  typed_nonce : in_u 8 (nonce_bits r);
  typed_mult : in_u 64 (multiplicity r);
}.
End Run.

(** * Plans *)

Record GrindingPlan := {
  runs : list GrindingRun;
  nominal_capacity_bits : Z;
  total_nonce_bits : Z;
  expanded_query_count : Z;
}.

Module Accumulator.

Record t := {
  acc_nominal_capacity_bits : Z;
  acc_run_count : Z;
  acc_total_nonce_bits : Z;
  acc_expanded_query_count : Z;
}.

Definition new (nominal_capacity_bits : Z) : result t :=
  if nominal_capacity_bits =? 0 then invalid_setup "grinding nominal capacity must be nonzero"
  else Ok {| acc_nominal_capacity_bits := nominal_capacity_bits; acc_run_count := 0;
             acc_total_nonce_bits := 0; acc_expanded_query_count := 0 |}.

(** The target of a proof-of-work run is the one its loss and the capacity
    prescribe. *)
Definition check_target (run : GrindingRun) (capacity : Z) : result unit :=
  if bool_decide (Run.kind run = ProofOfWork) then
    let* expected := grind_bits_for_loss (loss_factor run) capacity in
    if grind_bits run =? expected then Ok tt
    else invalid_setup "proof-of-work run target does not match its loss and capacity"
  else Ok tt.

Definition push (a : t) (run : GrindingRun) : result t :=
  let* run_count := ok_or (checked_u 32 (acc_run_count a + 1)) (InvalidSetup "grinding plan run count exceeds u32") in
  let* _ := Run.validate run in
  let* _ := check_target run (acc_nominal_capacity_bits a) in
  let* multiplicity' := ok_or (usize (multiplicity run)) (InvalidSetup "grinding run multiplicity exceeds usize") in
  let* run_bits := ok_or (checked_mul (nonce_bits run) multiplicity')
    (InvalidSetup "grinding run bit count overflow") in
  let* total := ok_or (checked_add (acc_total_nonce_bits a) run_bits)
    (InvalidSetup "grinding plan bit count overflow") in
  let* count := ok_or (checked_u 64 (acc_expanded_query_count a + multiplicity run))
    (InvalidSetup "grinding query count overflow") in
  if U32_MAX <=? count then invalid_setup "grinding plan query count must be less than 2^32"
  else Ok {| acc_nominal_capacity_bits := acc_nominal_capacity_bits a; acc_run_count := run_count;
             acc_total_nonce_bits := total; acc_expanded_query_count := count |}.
End Accumulator.

Module Plan.
Import Accumulator.

Definition new (runs : list GrindingRun) (nominal_capacity_bits : Z) : result GrindingPlan :=
  let* accumulator := Accumulator.new nominal_capacity_bits in
  let* accumulator := ofold push runs accumulator in
  Ok {| runs := runs; nominal_capacity_bits := nominal_capacity_bits;
        total_nonce_bits := acc_total_nonce_bits accumulator;
        expanded_query_count := acc_expanded_query_count accumulator |}.

Definition canonical_bytes (p : GrindingPlan) : result (list Z) :=
  let* run_count := ok_or (checked_u 32 (len (runs p))) (InvalidSetup "grinding plan run count exceeds u32") in
  Ok (foldl (fun out run => Run.append_canonical_bytes run out)
        (push_u32 (GRINDING_PLAN_DOMAIN ++ active_grinding_policy_bytes) run_count) (runs p)).

(** [digest_descriptor_bytes] is Blake2b-256, external. *)
Definition digest (digest_descriptor_bytes : list Z -> list Z) (p : GrindingPlan) : result (list Z) :=
  let* b := canonical_bytes p in
  Ok (digest_descriptor_bytes b).
End Plan.

(** * The price of a query *)

Lemma bit_length_pred l :
  1 <= l -> let k := bit_length (l - 1) in 0 <= k /\ l <= 2 ^ k /\ (0 < k -> 2 ^ (k - 1) < l).
Proof.
  intros Hl. unfold bit_length. destruct (Z.eqb_spec (l - 1) 0) as [Hz|Hz]; [cbn; lia|].
  pose proof (Z.log2_spec (l - 1) ltac:(lia)) as [H1 H2]. pose proof (Z.log2_nonneg (l - 1)).
  rewrite Z.add_simpl_r. replace (Z.succ (Z.log2 (l - 1))) with (Z.log2 (l - 1) + 1) in H2 by lia. lia.
Qed.

Lemma bit_length_u64 l : 1 <= l < 2 ^ 64 -> bit_length (l - 1) <= 64.
Proof.
  intros Hl. unfold bit_length. destruct (Z.eqb_spec (l - 1) 0); [lia|].
  pose proof (Z.log2_lt_pow2 (l - 1) 64). lia.
Qed.

Lemma grind_bits_value l c :
  1 <= l < 2 ^ 64 -> in_u 32 c ->
  let target := Z.max 0 (128 + bit_length (l - 1) - c) in
  (target <= 25 -> grind_bits_for_loss l c = Ok target) /\
  (25 < target -> exists msg, grind_bits_for_loss l c = invalid_setup msg).
Proof.
  intros Hl Hc target. pose proof (bit_length_u64 l Hl). destruct (bit_length_pred l) as (Hk & _ & _); [lia|].
  unfold grind_bits_for_loss, saturating_sub, TRANSCRIPT_SECURITY_BITS, MAX_GRINDING_BITS, in_u in *.
  destruct (Z.eqb_spec l 0); [lia|]. replace (Z.max (l - 1) 0) with (l - 1) by lia.
  rewrite checked_u_in by (unfold in_u; lia). cbn [ok_or obind].
  replace (Z.max (128 + bit_length (l - 1) - c) 0) with target by lia.
  rewrite checked_u_in by (unfold in_u; lia). cbn [ok_or obind].
  destruct (Z.ltb_spec 25 target); split; intros; try lia; eauto.
Qed.

(** The proof-of-work target of a query is the least number of bits that
    brings its soundness loss to [2^-128]: with [loss / 2^capacity] the
    probability of a bad challenge, [loss * 2^128 <= 2^(capacity + bits)] and no
    smaller target would do; the function fails exactly when more than
    [MAX_GRINDING_BITS] would be needed. *)
Theorem grinding_target_least l c :
  1 <= l < 2 ^ 64 -> in_u 32 c ->
  match grind_bits_for_loss l c with
  | Ok g => 0 <= g <= MAX_GRINDING_BITS /\ l * 2 ^ 128 <= 2 ^ (c + g) /\
            forall g', 0 <= g' < g -> 2 ^ (c + g') < l * 2 ^ 128
  | Err _ => forall g', 0 <= g' <= MAX_GRINDING_BITS -> 2 ^ (c + g') < l * 2 ^ 128
  | Panic => False
  end.
Proof.
  intros Hl Hc. destruct (grind_bits_value l c Hl Hc) as [Hok Herr]. unfold MAX_GRINDING_BITS, in_u in *.
  destruct (bit_length_pred l) as (Hk & Hup & Hlow); [lia|]. set (k := bit_length (l - 1)) in *.
  assert (Hpow : forall n, 0 <= n -> l * 2 ^ n <= 2 ^ (k + n)).
  { intros n Hn. rewrite Z.pow_add_r by lia. apply Z.mul_le_mono_nonneg_r; [lia|done]. }
  assert (Hmin : forall g', 0 <= g' -> g' < 128 + k - c -> 2 ^ (c + g') < l * 2 ^ 128).
  { intros g' Hg Hlt. destruct (Z.eq_dec k 0) as [Hk0|Hk0].
    - assert (2 ^ (c + g') < 2 ^ 128) by (apply Z.pow_lt_mono_r; lia). lia.
    - assert (H : 2 ^ (c + g') <= 2 ^ ((k - 1) + 128)) by (apply Z.pow_le_mono_r; lia).
      rewrite (Z.pow_add_r 2 (k - 1) 128) in H by lia. specialize (Hlow ltac:(lia)).
      eapply Z.le_lt_trans; [exact H|]. by apply Z.mul_lt_mono_pos_r. }
  destruct (Z.le_gt_cases (Z.max 0 (128 + k - c)) 25) as [Ht|Ht].
  - rewrite Hok by done. split; [lia|]. split; [|intros g' Hg; apply Hmin; lia].
    etransitivity; [apply Hpow; lia|]. apply Z.pow_le_mono_r; lia.
  - destruct Herr as [msg ->]; [lia|]. intros g' Hg. apply Hmin; lia.
Qed.

(** * What a plan accepts *)

(** The indices that must differ from the reserved value. *)
Definition site_indices (s : GrindingSite) : list Z :=
  match s with
  | SumcheckRound _ level stage round => [level; stage; round]
  | s => Site.fields s
  end.

(** The runs a plan for capacity [c] admits. *)
Definition run_ok (c : Z) (r : GrindingRun) : Prop :=
  Forall (fun x => x <> U32_MAX)
    (site_indices (site r)) /\
  match Run.kind r with
  | ProofOfWork =>
      loss_factor r <> 0 /\ multiplicity r = 1 /\ grind_bits_for_loss (loss_factor r) c = Ok (grind_bits r) /\
      nonce_bits r = (if grind_bits r =? 0 then 0 else grind_bits r + GRINDING_NONCE_SLACK_BITS)
  | KFoldResponse =>
      loss_factor r = 0 /\ grind_bits r = 0 /\ nonce_bits r = FOLD_RESPONSE_NONCE_BITS /\ multiplicity r = 1
  | KFoldChallengeGroup => loss_factor r = 0 /\ grind_bits r = 0 /\ nonce_bits r = 0 /\ 1 < multiplicity r
  end.

Lemma forall_not_max l : forallb (fun x => negb (x =? U32_MAX)) l = true <-> Forall (fun x => x <> U32_MAX) l.
Proof.
  rewrite forallb_forall, Forall_forall. split; intros H x Hx.
  - apply H in Hx. by apply negb_true_iff, Z.eqb_neq in Hx.
  - by apply negb_true_iff, Z.eqb_neq, H.
Qed.

Lemma site_validate_spec s :
  Site.validate s =
  if forallb (fun x => negb (x =? U32_MAX)) (site_indices s)
  then Ok tt else invalid_setup "grinding site uses a reserved u32 sentinel".
Proof.
  unfold Site.validate. destruct s; cbn;
    repeat match goal with |- context [?a =? U32_MAX] => destruct (Z.eqb_spec a U32_MAX) end; done.
Qed.

Lemma grind_bits_cases l c :
  in_u 64 l -> in_u 32 c ->
  (exists g, grind_bits_for_loss l c = Ok g /\ 1 <= l /\ 0 <= g <= 25) \/
  exists msg, grind_bits_for_loss l c = invalid_setup msg.
Proof.
  intros Hl Hc. unfold in_u in Hl. destruct (Z.eq_dec l 0) as [->|Hl0]; [right; by eexists|].
  destruct (grind_bits_value l c ltac:(lia) Hc) as [Hok Herr].
  set (t := Z.max 0 _) in *. destruct (Z.le_gt_cases t 25) as [Ht|Ht]; [left|right; apply Herr; lia].
  exists t. split; [by apply Hok|lia].
Qed.

Lemma pow_nonce_bits_cases g :
  0 <= g -> (exists n, pow_nonce_bits g = Ok n /\ n = (if g =? 0 then 0 else g + GRINDING_NONCE_SLACK_BITS)) \/
  (exists msg, pow_nonce_bits g = invalid_setup msg) /\ 25 < g.
Proof.
  intros Hg. unfold pow_nonce_bits, GRINDING_NONCE_SLACK_BITS. destruct (Z.eqb_spec g 0); [left; by eexists|].
  destruct (Z.lt_ge_cases (g + 7) 256).
  - left. exists (g + 7). rewrite checked_u_in by (unfold in_u; lia). done.
  - right. assert (Hu : checked_u 8 (g + 7) = None) by (apply checked_u_None; unfold in_u; lia).
    rewrite Hu. split; [by eexists|lia].
Qed.

(** Whether validation and the target check pass. *)
Lemma run_checks c r :
  in_u 32 c -> Run.typed r ->
  (run_ok c r -> Run.validate r = Ok tt /\ Accumulator.check_target r c = Ok tt) /\
  (~ run_ok c r -> exists msg, (let* _ := Run.validate r in Accumulator.check_target r c) = invalid_setup msg).
Proof.
  intros Hc [Hs Hl Hg Hn Hm]. unfold Run.validate, Accumulator.check_target, run_ok.
  rewrite site_validate_spec, <-forall_not_max.
  destruct (forallb _ _); cbn [obind]; [|split; [by intros [? _]|eauto]].
  unfold MAX_GRINDING_BITS, in_u in *.
  destruct (Run.kind r).
  2: { split; [by intros (_ & -> & -> & -> & ->)|]. intros Hno.
       destruct (_ && _)%bool eqn:He; cbn [obind]; [|eauto]. bool_prop. by destruct Hno. }
  2: { split; [intros (_ & -> & -> & -> & Hlt); apply Z.ltb_lt in Hlt; by rewrite Hlt|]. intros Hno.
       destruct (_ && _)%bool eqn:He; cbn [obind]; [|eauto]. bool_prop. by destruct Hno. }
  rewrite bool_decide_eq_true_2 by done.
  destruct (Z.eqb_spec (loss_factor r) 0); cbn [orb obind]; [split; [intros (_ & ? & _); done|eauto]|].
  destruct (Z.eqb_spec (multiplicity r) 1); cbn [negb orb obind]; [|split; [intros (_ & _ & ? & _); done|eauto]].
  destruct (pow_nonce_bits_cases (grind_bits r)) as [(n' & -> & Hn')|[[msg ->] Hbig]]; [lia| |];
    (destruct (grind_bits_cases (loss_factor r) c Hl Hc) as [(g & Hgb & _ & Hr)|[msg' Hgb]]; rewrite Hgb); cbn [obind].
  - rewrite <-Hn'. destruct (Z.ltb_spec 25 (grind_bits r)); cbn [orb obind].
    + split; [intros (_ & _ & _ & [= ->] & _); lia|eauto].
    + destruct (Z.eqb_spec (nonce_bits r) n'); cbn [negb obind]; [|split; [intros (_ & _ & _ & _ & ?); done|eauto]].
      destruct (Z.eqb_spec (grind_bits r) g) as [->|Hne].
      * split; [done|]. intros []. done.
      * split; [intros (_ & _ & _ & [= ->] & _); done|eauto].
  - split; [intros (_ & _ & _ & ? & _); done|]. intros _. destruct (_ || _)%bool; cbn [obind]; eauto.
  - split; [intros (_ & _ & _ & [= ->] & _); lia|eauto].
  - split; [intros (_ & _ & _ & ? & _); done|eauto].
Qed.

#[local] Instance outcome_eq_dec {E A} `{EqDecision E, EqDecision A} : EqDecision (outcome E A).
Proof. solve_decision. Defined.
#[local] Instance message_eq_dec : EqDecision string := string_dec.
#[local] Instance AkitaError_eq_dec : EqDecision AkitaError.
Proof. solve_decision. Defined.
#[export] Instance run_ok_dec c r : Decision (run_ok c r).
Proof. unfold run_ok. apply and_dec; [apply _|]. destruct (Run.kind r). all: repeat apply and_dec; apply _. Defined.

Lemma run_ok_widths c r :
  in_u 32 c -> Run.typed r -> run_ok c r -> 0 <= nonce_bits r <= 32 /\ 1 <= multiplicity r /\ 0 <= grind_bits r <= 25.
Proof.
  intros Hc [_ Hl Hg Hn Hm] [_ Hk]. unfold FOLD_RESPONSE_NONCE_BITS, GRINDING_NONCE_SLACK_BITS, in_u in *.
  destruct (Run.kind r); [|lia..]. destruct Hk as (Hl0 & -> & Hgb & ->).
  destruct (grind_bits_cases (loss_factor r) c Hl Hc) as [(g & Hg' & _ & Hr)|[msg Hm']]; [|by rewrite Hm' in Hgb].
  rewrite Hgb in Hg'. injection Hg' as <-. case_Z.
Qed.

Definition query_count (l : list GrindingRun) : Z := checked.Zsum (map multiplicity l).
Definition stream_bits (l : list GrindingRun) : Z := checked.Zsum (map (fun r => nonce_bits r * multiplicity r) l).

Lemma Zsum_app a b : checked.Zsum (a ++ b) = checked.Zsum a + checked.Zsum b.
Proof.
  induction a as [|x a IH]; [done|]. unfold checked.Zsum in *. cbn. rewrite IH. lia.
Qed.

Lemma query_count_app a b : query_count (a ++ b) = query_count a + query_count b.
Proof. unfold query_count. by rewrite map_app, Zsum_app. Qed.
Lemma query_count_snoc l r : query_count (l ++ [r]) = query_count l + multiplicity r.
Proof. rewrite query_count_app. unfold query_count, checked.Zsum. cbn. lia. Qed.
Lemma query_count_nonneg l : Forall Run.typed l -> 0 <= query_count l.
Proof.
  induction 1 as [|x l [_ _ _ _ Hx] _ IH]; [done|]. change (x :: l) with ([x] ++ l).
  rewrite query_count_app. unfold query_count at 1, checked.Zsum. cbn. unfold in_u in Hx. lia.
Qed.
Lemma stream_bits_snoc l r : stream_bits (l ++ [r]) = stream_bits l + nonce_bits r * multiplicity r.
Proof. unfold stream_bits. rewrite map_app, Zsum_app. unfold checked.Zsum at 2. cbn. lia. Qed.

Lemma counts_bounds c l :
  in_u 32 c -> Forall Run.typed l -> Forall (run_ok c) l ->
  len l <= query_count l /\ 0 <= stream_bits l <= 32 * query_count l.
Proof.
  intros Hc. induction l as [|r l IH]; [unfold len, query_count, stream_bits; cbn; lia|].
  intros [Ht Hl]%Forall_cons_1 [Ho Hlo]%Forall_cons_1. destruct (run_ok_widths c r Hc Ht Ho) as (Hw & Hm & _).
  destruct (IH Hl Hlo) as [H1 H2]. rewrite len_cons. unfold query_count, stream_bits in *. cbn.
  fold (checked.Zsum (map multiplicity l)).
  fold (checked.Zsum (map (fun r => nonce_bits r * multiplicity r) l)). nia.
Qed.

Section accumulate.
Variable c : Z.
Hypothesis c_u32 : in_u 32 c.
Import Accumulator.

Definition acc_of (l : list GrindingRun) : Accumulator.t :=
  {| acc_nominal_capacity_bits := c; acc_run_count := len l;
     acc_total_nonce_bits := stream_bits l; acc_expanded_query_count := query_count l |}.

Lemma push_spec l r :
  Forall Run.typed l -> Forall (run_ok c) l -> query_count l < U32_MAX -> Run.typed r ->
  (run_ok c r /\ query_count (l ++ [r]) < U32_MAX -> push (acc_of l) r = Ok (acc_of (l ++ [r]))) /\
  (~ (run_ok c r /\ query_count (l ++ [r]) < U32_MAX) -> exists msg, push (acc_of l) r = invalid_setup msg).
Proof.
  intros Hl Ho Hq Ht. destruct (counts_bounds c l c_u32 Hl Ho) as [H1 H2].
  pose proof (len_nonneg l). unfold push. cbn [acc_of acc_run_count acc_nominal_capacity_bits acc_total_nonce_bits acc_expanded_query_count].
  unfold U32_MAX in *. rewrite (checked_u_in 32) by (unfold in_u; lia). cbn [ok_or obind].
  destruct (run_checks c r c_u32 Ht) as [Hok Herr]. destruct (decide (run_ok c r)) as [Hr|Hr].
  2: { destruct (Herr Hr) as [msg Hm]. split; [tauto|]. intros _. exists msg.
       destruct (Run.validate r) as [[]|e|]; cbn [obind] in *; unfold invalid_setup in *; [by rewrite Hm|congruence|done]. }
  destruct (Hok Hr) as [-> ->]. destruct (run_ok_widths c r c_u32 Ht Hr) as (Hw & Hm & _).
  destruct Ht as [_ _ _ _ Hm64]. unfold in_u in Hm64. cbn [obind].
  unfold usize, USIZE_BITS. rewrite checked_u_in by (unfold in_u; lia). cbn [ok_or obind].
  rewrite query_count_snoc. destruct (Z.lt_ge_cases (query_count l + multiplicity r) (2 ^ 32 - 1)) as [Hlt|Hge].
  - split; [|tauto]. intros _. unfold checked_mul, checked_add, usize, USIZE_BITS.
    rewrite !checked_u_in by (unfold in_u; nia). cbn [ok_or obind].
    rewrite !checked_u_in by (unfold in_u; nia). cbn [ok_or obind].
    destruct (Z.leb_spec (2 ^ 32 - 1) (query_count l + multiplicity r)); [lia|].
    unfold acc_of. by rewrite len_app, query_count_snoc, stream_bits_snoc.
  - split; [lia|]. intros _. destruct (checked_mul _ _) as [b|]; cbn [ok_or obind]; [|by eexists].
    destruct (checked_add _ _) as [b'|]; cbn [ok_or obind]; [|by eexists].
    unfold checked_u. destruct (_ && _)%bool; cbn [ok_or obind]; [|by eexists].
    destruct (Z.leb_spec (2 ^ 32 - 1) (query_count l + multiplicity r)); [by eexists|lia].
Qed.

Lemma pushes_spec l rs :
  Forall Run.typed (l ++ rs) -> Forall (run_ok c) l -> query_count l < U32_MAX ->
  (Forall (run_ok c) rs /\ query_count (l ++ rs) < U32_MAX /\ ofold push rs (acc_of l) = Ok (acc_of (l ++ rs))) \/
  (~ (Forall (run_ok c) rs /\ query_count (l ++ rs) < U32_MAX) /\
   exists msg, ofold push rs (acc_of l) = invalid_setup msg).
Proof.
  revert l; induction rs as [|r rs IH]; intros l Ht Ho Hq; [left; rewrite app_nil_r; auto|].
  pose proof Ht as Ht'. apply Forall_app in Ht' as [Htl [Htr Hts]%Forall_cons_1].
  assert (Hsplit : l ++ r :: rs = (l ++ [r]) ++ rs) by (by rewrite <-app_assoc). cbn [ofold].
  destruct (push_spec l r Htl Ho Hq Htr) as [Hok Herr].
  destruct (decide (run_ok c r /\ query_count (l ++ [r]) < U32_MAX)) as [Hyes|Hno].
  - rewrite (Hok Hyes). cbn [obind]. rewrite Hsplit.
    destruct (IH (l ++ [r])) as [(Hf & Hc & ->)|(Hf & msg & ->)].
    + by rewrite <-Hsplit.
    + apply Forall_app; split; [done|]. constructor; [by apply Hyes|constructor].
    + by apply Hyes.
    + left. split; [constructor; [by apply Hyes|done]|done].
    + right. split; [|by exists msg]. intros [Hfa Hqa]. apply Hf. split; [by apply Forall_cons_1 in Hfa as [_ ?]|done].
  - destruct (Herr Hno) as [msg ->]. right. split; [|by exists msg]. intros [Hfa Hqa]. apply Hno.
    apply Forall_cons_1 in Hfa as [Hfr Hfs]. split; [done|]. rewrite Hsplit in Hqa.
    rewrite query_count_app in Hqa. pose proof (query_count_nonneg rs Hts). lia.
Qed.
End accumulate.

Lemma plan_new_spec_aux c rs :
  in_u 32 c -> Forall Run.typed rs ->
  match Plan.new rs c with
  | Ok p => c <> 0 /\ Forall (run_ok c) rs /\ query_count rs < U32_MAX /\
            p = {| runs := rs; nominal_capacity_bits := c; total_nonce_bits := stream_bits rs;
                   expanded_query_count := query_count rs |} /\
            0 <= stream_bits rs <= 32 * query_count rs
  | Err e => (exists msg, e = InvalidSetup msg) /\
             (c = 0 \/ ~ (Forall (run_ok c) rs /\ query_count rs < U32_MAX))
  | Panic => False
  end.
Proof.
  intros Hc Ht. unfold Plan.new, Accumulator.new. destruct (Z.eqb_spec c 0) as [->|Hc0]; [split; [by eexists|by left]|].
  cbn [obind].
  destruct (pushes_spec c Hc [] rs Ht ltac:(constructor) ltac:(done)) as [(Hf & Hq & Hp)|(Hf & msg & Hp)];
    unfold acc_of at 1 in Hp; change (len []) with 0 in Hp; change (stream_bits []) with 0 in Hp;
    change (query_count []) with 0 in Hp; rewrite Hp; cbn [obind invalid_setup].
  - cbn [app acc_of Accumulator.acc_total_nonce_bits Accumulator.acc_expanded_query_count].
    split; [done|]. split; [done|]. split; [done|]. split; [done|]. by apply (counts_bounds c).
  - split; [by eexists|by right].
Qed.

(** C28: [GrindingPlan::new] accepts a list of runs exactly when the capacity is
    nonzero, every run is well priced, well formed and off the reserved
    indices, and fewer than [2^32 - 1] queries are scheduled; the plan then
    holds the runs with their exact bit and query counts.  Every other input is
    an [InvalidSetup] error, and no input overflows or panics. *)
Theorem plan_new_spec c rs :
  in_u 32 c -> Forall Run.typed rs ->
  match Plan.new rs c with
  | Ok p => c <> 0 /\ Forall (run_ok c) rs /\ query_count rs < U32_MAX /\
            p = {| runs := rs; nominal_capacity_bits := c; total_nonce_bits := stream_bits rs;
                   expanded_query_count := query_count rs |} /\
            0 <= stream_bits rs <= 32 * query_count rs
  | Err e => (exists msg, e = InvalidSetup msg) /\
             (c = 0 \/ ~ (Forall (run_ok c) rs /\ query_count rs < U32_MAX))
  | Panic => False
  end.
Proof. apply plan_new_spec_aux. Qed.

(** * The canonical bytes *)

Definition disc (s : GrindingSite) : Z :=
  match s with
  | EvaluationBatch _ => 0 | ExtensionOpeningPoint _ => 1 | ExtensionOpeningClaimBatch _ => 2
  | SumcheckRound _ _ _ _ => 3 | FoldResponse _ => 4 | FoldChallengeGroup _ _ => 5 | RingSwitchAlpha _ => 6
  | Tau0Point _ => 7 | Tau1Point _ => 8 | Stage1InterstageBatch _ _ => 9 | L2SubclaimBatch _ => 10
  | L2NormMerge _ => 11 | L2VirtualBatch _ => 12 | CompressionBinary _ => 13 | Stage2Batch _ => 14
  end.

Definition u32s (l : list Z) : list Z := concat (map (to_le_bytes 4) l).

Lemma site_bytes s out : Site.append_canonical_bytes s out = out ++ [disc s] ++ u32s (Site.fields s).
Proof.
  unfold u32s, push_u32. destruct s; cbn [Site.append_canonical_bytes disc Site.fields Site.level map concat];
    unfold push_u32; rewrite ?app_nil_r, <-!app_assoc; done.
Qed.

Lemma u32s_inj l1 l2 x y :
  length l1 = length l2 -> Forall (in_u 32) l1 -> Forall (in_u 32) l2 ->
  u32s l1 ++ x = u32s l2 ++ y -> l1 = l2 /\ x = y.
Proof.
  revert l2; induction l1 as [|a l1 IH]; intros [|b l2] Hl H1 H2 He; try done. injection Hl as Hl.
  apply Forall_cons_1 in H1 as [Ha H1]. apply Forall_cons_1 in H2 as [Hb H2].
  cbn [u32s map concat] in He. rewrite <-!app_assoc in He.
  apply app_inj_1 in He as [Hh He]; [|by rewrite !length_to_le_bytes].
  apply to_le_bytes_inj in Hh as ->; [|done..]. by destruct (IH l2 Hl H1 H2 He) as [-> ->].
Qed.

Lemma tag_inj p1 p2 : tag p1 = tag p2 -> p1 = p2.
Proof. by destruct p1, p2. Qed.

Lemma fields_inj s1 s2 : disc s1 = disc s2 -> Site.fields s1 = Site.fields s2 -> s1 = s2.
Proof.
  intros Hd Hf. destruct s1, s2; try discriminate; cbn in Hf; injection Hf; intros; subst; try done.
  by rewrite (tag_inj protocol protocol0).
Qed.

Lemma fields_length s1 s2 : disc s1 = disc s2 -> length (Site.fields s1) = length (Site.fields s2).
Proof. intros Hd. by destruct s1, s2. Qed.

Lemma site_bytes_inj s1 s2 x y :
  Site.typed s1 -> Site.typed s2 ->
  ([disc s1] ++ u32s (Site.fields s1)) ++ x = ([disc s2] ++ u32s (Site.fields s2)) ++ y -> s1 = s2 /\ x = y.
Proof.
  intros T1 T2 He. cbn [app] in He. injection He as Hd He.
  apply u32s_inj in He as [Hf ->]; [|by apply fields_length|done..]. split; [by apply fields_inj|done].
Qed.

Definition run_code (r : GrindingRun) : list Z :=
  ([disc (site r)] ++ u32s (Site.fields (site r))) ++ to_le_bytes 8 (loss_factor r) ++ [grind_bits r; nonce_bits r] ++
  to_le_bytes 8 (multiplicity r).

Lemma run_bytes r out : Run.append_canonical_bytes r out = out ++ run_code r.
Proof. unfold Run.append_canonical_bytes, run_code. by rewrite site_bytes, <-!app_assoc. Qed.

Lemma run_code_inj r1 r2 x y :
  Run.typed r1 -> Run.typed r2 -> run_code r1 ++ x = run_code r2 ++ y -> r1 = r2 /\ x = y.
Proof.
  intros [S1 L1 _ _ M1] [S2 L2 _ _ M2] He. unfold run_code in He. rewrite <-!(app_assoc (_ ++ u32s _)) in He.
  apply site_bytes_inj in He as [Hs He]; [|done..]. rewrite <-!app_assoc in He.
  apply app_inj_1 in He as [Hl He]; [|by rewrite !length_to_le_bytes].
  apply to_le_bytes_inj in Hl; [|done..]. apply app_inj_1 in He as [Hgn He]; [|done].
  injection Hgn as Hg Hn.
  apply app_inj_1 in He as [Hm ->]; [|by rewrite !length_to_le_bytes].
  apply to_le_bytes_inj in Hm; [|done..]. destruct r1, r2; cbn in *; by subst.
Qed.

Lemma runs_code_inj l1 l2 :
  Forall Run.typed l1 -> Forall Run.typed l2 -> length l1 = length l2 ->
  concat (map run_code l1) = concat (map run_code l2) -> l1 = l2.
Proof.
  revert l2; induction l1 as [|r1 l1 IH]; intros [|r2 l2] H1 H2 Hl He; try done. injection Hl as Hl.
  apply Forall_cons_1 in H1 as [T1 H1]. apply Forall_cons_1 in H2 as [T2 H2]. cbn [map concat] in He.
  apply run_code_inj in He as [-> He]; [|done..]. by rewrite (IH l2 H1 H2 Hl He).
Qed.

Lemma plan_bytes_fold l out :
  foldl (fun out run => Run.append_canonical_bytes run out) out l = out ++ concat (map run_code l).
Proof.
  revert out; induction l as [|r l IH]; intros out; cbn; [by rewrite app_nil_r|].
  by rewrite IH, run_bytes, <-app_assoc.
Qed.

(** C29: The bytes a plan is hashed from determine its runs: site encodings are
    prefix-free, so two plans with the same digest input schedule the same
    queries, at the same targets and nonce widths, in the same order; and every
    plan that [GrindingPlan::new] accepts has such bytes. *)
Theorem plan_bytes_injective c1 c2 l1 l2 p1 p2 :
  in_u 32 c1 -> in_u 32 c2 -> Forall Run.typed l1 -> Forall Run.typed l2 ->
  Plan.new l1 c1 = Ok p1 -> Plan.new l2 c2 = Ok p2 ->
  (exists b, Plan.canonical_bytes p1 = Ok b) /\
  (Plan.canonical_bytes p1 = Plan.canonical_bytes p2 -> runs p1 = runs p2).
Proof.
  intros C1 C2 T1 T2 N1 N2.
  assert (Hcb : forall c l p, in_u 32 c -> Forall Run.typed l -> Plan.new l c = Ok p ->
            runs p = l /\ in_u 32 (len l) /\
            Plan.canonical_bytes p = Ok ((GRINDING_PLAN_DOMAIN ++ active_grinding_policy_bytes) ++
                                         to_le_bytes 4 (len l) ++ concat (map run_code l))).
  { intros c l p C T N. pose proof (plan_new_spec_aux c l C T) as Hs. rewrite N in Hs.
    destruct Hs as (_ & Ho & Hq & -> & _). destruct (counts_bounds c l C T Ho) as [Hl _].
    pose proof (len_nonneg l). unfold U32_MAX in Hq. split; [done|]. split; [unfold in_u; lia|].
    unfold Plan.canonical_bytes. cbn [runs]. rewrite checked_u_in by (unfold in_u; lia). cbn [ok_or obind].
    by rewrite plan_bytes_fold; unfold push_u32; rewrite <-app_assoc. }
  destruct (Hcb _ _ _ C1 T1 N1) as (R1 & U1 & ->). destruct (Hcb _ _ _ C2 T2 N2) as (R2 & U2 & ->).
  split; [by eexists|]. rewrite R1, R2. intros He.
  apply (f_equal (fun o => match o with Ok b => b | _ => [] end)) in He. cbn beta iota in He. apply app_inv_head in He.
  apply app_inj_1 in He as [Hn He]; [|by rewrite !length_to_le_bytes].
  apply to_le_bytes_inj in Hn; [|done..]. apply runs_code_inj; [done..| |done]. unfold len in Hn. lia.
Qed.

(** ** Witnesses *)

Definition example_runs : list GrindingRun :=
  [ {| site := SumcheckRound Stage2 1 0 2; loss_factor := 3; grind_bits := 6; nonce_bits := 13; multiplicity := 1 |};
    Run.fold_response 1;
    {| site := FoldChallengeGroup 1 0; loss_factor := 0; grind_bits := 0; nonce_bits := 0; multiplicity := 5 |} ].

Ltac typed_run :=
  constructor; [unfold Site.typed; cbn; repeat (apply Forall_cons_2; [split; lia|]); try apply Forall_nil_2 | cbn; unfold FOLD_RESPONSE_NONCE_BITS; split; lia ..].

Lemma example_typed : Forall Run.typed example_runs.
Proof. constructor; [typed_run|]. constructor; [typed_run|]. constructor; [typed_run|]. constructor. Qed.

Lemma grinding_target_least_witness :
  match grind_bits_for_loss 3 124 with
  | Ok g => 0 <= g <= MAX_GRINDING_BITS /\ 3 * 2 ^ 128 <= 2 ^ (124 + g) /\
            forall g', 0 <= g' < g -> 2 ^ (124 + g') < 3 * 2 ^ 128
  | Err _ => forall g', 0 <= g' <= MAX_GRINDING_BITS -> 2 ^ (124 + g') < 3 * 2 ^ 128
  | Panic => False
  end.
Proof. apply (grinding_target_least 3 124); [lia|split; lia]. Defined.

Lemma plan_new_spec_witness :
  (exists p, Plan.new example_runs 124 = Ok p /\ total_nonce_bits p = 25 /\ expanded_query_count p = 7) /\
  match Plan.new example_runs 124 with
  | Ok p => 124 <> 0 /\ Forall (run_ok 124) example_runs /\ query_count example_runs < U32_MAX /\
            p = {| runs := example_runs; nominal_capacity_bits := 124; total_nonce_bits := stream_bits example_runs;
                   expanded_query_count := query_count example_runs |} /\
            0 <= stream_bits example_runs <= 32 * query_count example_runs
  | Err e => (exists msg, e = InvalidSetup msg) /\
             (124 = 0 \/ ~ (Forall (run_ok 124) example_runs /\ query_count example_runs < U32_MAX))
  | Panic => False
  end.
Proof.
  split; [eexists; repeat split; vm_compute; reflexivity|].
  apply (plan_new_spec 124 example_runs); [split; lia|exact example_typed].
Defined.

Lemma plan_bytes_injective_witness :
  exists p1 p2, Plan.new example_runs 124 = Ok p1 /\ Plan.new [Run.fold_response 1] 124 = Ok p2 /\
    Plan.canonical_bytes p1 <> Plan.canonical_bytes p2.
Proof.
  eexists _, _. split; [vm_compute; reflexivity|]. split; [vm_compute; reflexivity|]. intros He.
  assert (T1 : Forall Run.typed [Run.fold_response 1]) by (constructor; [typed_run|constructor]).
  destruct (plan_bytes_injective 124 124 example_runs [Run.fold_response 1] _ _ ltac:(split; lia) ltac:(split; lia)
    example_typed T1 eq_refl eq_refl) as [_ Hi].
  specialize (Hi He). discriminate Hi.
Defined.
