(* ===== verification/GrindingReplay.v ===== *)
(** [akita-types/src/transcript_grinding/replay.rs]: the cursors over a
    validated plan, the packed nonce stream with its writer and reader, and the
    transcript adapter both sides run the protocol on.  A method on [&mut self]
    takes the state and returns the new one; after an error the caller drops the
    adapter, so no state is returned with it.  The challenge audit of the
    logging feature is not compiled in. *)

From S2P Require Import Prelude Checked Field Serialization Transcript Grinding.

(** * Cursors *)

Record GrindingPlanEntry := {
  e_site : GrindingSite;
  e_grind_bits : Z;
  e_nonce_bits : Z;
}.

Module PlanCursor.

Record t := {
  plan : GrindingPlan;
  run_index : Z;
  run_offset : Z;
}.

Definition new (p : GrindingPlan) : t := {| plan := p; run_index := 0; run_offset := 0 |}.

(** [run_offset] stays below the [u64] multiplicity of its run. *)
Definition next (c : t) : option (GrindingPlanEntry * t) :=
  match index (runs (plan c)) (run_index c) with
  | None => None
  | Some run =>
      let entry := {| e_site := site run; e_grind_bits := grind_bits run; e_nonce_bits := nonce_bits run |} in
      let run_offset := run_offset c + 1 in
      Some (entry,
            if run_offset =? multiplicity run
            then {| plan := plan c; run_index := run_index c + 1; run_offset := 0 |}
            else {| plan := plan c; run_index := run_index c; run_offset := run_offset |})
  end.

Definition consume_run (c : t) (s : GrindingSite) (m : Z) : result t :=
  let* run := ok_or (index (runs (plan c)) (run_index c)) InvalidProof in
  if negb (run_offset c =? 0) || negb (bool_decide (site run = s)) || negb (grind_bits run =? 0) ||
     negb (nonce_bits run =? 0) || negb (bool_decide (usize (multiplicity run) = Some m))
  then Err InvalidProof
  else
    let* run_index := ok_or (checked_add (run_index c) 1) InvalidProof in
    Ok {| plan := plan c; run_index := run_index; run_offset := run_offset c |}.

Definition is_finished (c : t) : bool := (run_index c =? len (runs (plan c))) && (run_offset c =? 0).
End PlanCursor.

Module StreamCursor.

Record t := {
  cursor_plan : PlanCursor.t;
  bit_offset : Z;
}.

Definition new (p : GrindingPlan) : t := {| cursor_plan := PlanCursor.new p; bit_offset := 0 |}.

Definition next (c : t) (s : GrindingSite) : result (GrindingPlanEntry * t) :=
  let* (entry, p) := ok_or (PlanCursor.next (cursor_plan c)) InvalidProof in
  if bool_decide (e_site entry = s)
  then Ok (entry, {| cursor_plan := p; bit_offset := bit_offset c |})
  else Err (InvalidInput "grinding replay expected another site").

Definition next_kind (c : t) (s : GrindingSite) (k : GrindingQueryKind) : result (GrindingPlanEntry * t) :=
  if bool_decide (Site.kind s = k) then next c s
  else Err (InvalidInput "grinding replay site has the wrong query kind").

Definition consume_zero_run (c : t) (s : GrindingSite) (m : Z) : result t :=
  let* p := PlanCursor.consume_run (cursor_plan c) s m in
  Ok {| cursor_plan := p; bit_offset := bit_offset c |}.

Definition consume_fold_group (c : t) (level group coordinate_count : Z) : result t :=
  let* m := ok_or (checked_add coordinate_count 1) InvalidProof in
  consume_zero_run c (FoldChallengeGroup level group) m.

Definition advance_bits (c : t) (width : Z) : result t :=
  let* off := ok_or (checked_add (bit_offset c) width) InvalidProof in
  Ok {| cursor_plan := cursor_plan c; bit_offset := off |}.

Definition is_finished (c : t) (expected_bits : Z) : bool :=
  PlanCursor.is_finished (cursor_plan c) && (bit_offset c =? expected_bits).
End StreamCursor.

(** * Packed bits *)

Section bits.
Context `{BuildMode}.

(** [x << k] and [x >> k] on [w] bits; the amount is checked or masked. *)
Definition shift_amount (w k : Z) : result Z :=
  if k <? w then Ok k else if debug_assertions then Panic else Ok (k mod w).
Definition shl (w x k : Z) : result Z := let* k := shift_amount w k in Ok (uwrap w (Z.shiftl x k)).
Definition shr (w x k : Z) : result Z := let* k := shift_amount w k in Ok (Z.shiftr x k).

Definition nonce_byte_len (bit_len : Z) : sresult Z :=
  ok_or (checked.div_ceil bit_len 8) (InvalidData "invalid nonce stream byte width").

Definition value_fits (value width : Z) : result bool :=
  if width =? 32 then Ok true else let* m := shl 32 1 width in Ok (value <? m).

(** [(bit_shift + width).div_ceil(8)] *)
Definition byte_count (bit_shift width : Z) : Z := (bit_shift + width + 7) / 8.

Definition write_bits (b : list Z) (offset width value : Z) : result (list Z) :=
  let bit_shift := offset mod 8 in
  let byte_offset := offset / 8 in
  let* word := shl 64 value bit_shift in
  ofold (fun b byte_index =>
           let* d := ok_or (index b (byte_offset + byte_index)) InvalidProof in
           let* x := shr 64 word (byte_index * 8) in
           store b (byte_offset + byte_index) (Z.lor d (uwrap 8 x)))
    (range (byte_count bit_shift width)) b.

Definition read_bits (b : list Z) (offset width : Z) : result Z :=
  let bit_shift := offset mod 8 in
  let byte_offset := offset / 8 in
  let* word :=
    ofold (fun word byte_index =>
             let* byte := ok_or (index b (byte_offset + byte_index)) InvalidProof in
             let* x := shl 64 byte (byte_index * 8) in
             Ok (Z.lor word x)) (range (byte_count bit_shift width)) 0 in
  let* mask := if width =? 32 then Ok U32_MAX else let* m := shl 64 1 width in Ok (m - 1) in
  let* x := shr 64 word bit_shift in
  Ok (uwrap 32 (Z.land x mask)).

(** * The stream, its writer and its reader *)

Record TranscriptNonceStream := {
  stream_bytes : list Z;
  bit_len : Z;
}.

(** [slice::last] *)
Definition last_byte (b : list Z) : option Z := index b (len b - 1).

Definition from_bytes (b : list Z) (bit_len : Z) : sresult TranscriptNonceStream :=
  let* expected_bytes := nonce_byte_len bit_len in
  if negb (len b =? expected_bytes)
  then Err (InvalidData "nonce stream byte length does not match its bit width")
  else
    let used_bits := bit_len mod 8 in
    match last_byte b with
    | Some last =>
        if negb (used_bits =? 0) && negb (Z.shiftr last used_bits =? 0)
        then Err (InvalidData "nonce stream has nonzero high padding bits")
        else Ok {| stream_bytes := b; bit_len := bit_len |}
    | None => Ok {| stream_bytes := b; bit_len := bit_len |}
    end.

Definition as_bytes (s : TranscriptNonceStream) : list Z := stream_bytes s.
End bits.

(** [TranscriptChallengePreview]: the prover's transcripts can be previewed. *)
Class TranscriptChallengePreview (T : Type) := preview : T -> preview_fn.

(** [matches!((NonZeroU8::new(bits), predicate), (None, None) | accepted)] *)
Definition predicate_ok (grind_bits : Z) (predicate : option (list Z)) : bool :=
  match predicate with
  | None => grind_bits =? 0
  | Some p => negb (grind_bits =? 0) && grinding_predicate_accepts p grind_bits
  end.

Module Writer.

Record t := {
  w_bytes : list Z;
  w_cursor : StreamCursor.t;
}.

Section ops.
Context `{BuildMode}.

(** The reservation of the buffer succeeds. *)
Definition new (p : GrindingPlan) : result t :=
  let* byte_len := omap_err (fun _ => InvalidSetup "nonce stream byte width overflow")
    (nonce_byte_len (total_nonce_bits p)) in
  Ok {| w_bytes := replicate (Z.to_nat byte_len) 0; w_cursor := StreamCursor.new p |}.

Definition write_entry (w : t) (entry : GrindingPlanEntry) (value : Z) : result t :=
  let* fits := value_fits value (e_nonce_bits entry) in
  if negb fits then Err InvalidProof
  else
    let* b := write_bits (w_bytes w) (StreamCursor.bit_offset (w_cursor w)) (e_nonce_bits entry) value in
    let* c := StreamCursor.advance_bits (w_cursor w) (e_nonce_bits entry) in
    Ok {| w_bytes := b; w_cursor := c |}.

Definition write (w : t) (s : GrindingSite) (value : Z) : result t :=
  let* (entry, c) := StreamCursor.next (w_cursor w) s in
  write_entry {| w_bytes := w_bytes w; w_cursor := c |} entry value.

Definition grind {F T} `{Transcript F T, TranscriptChallengePreview T} (w : t) (tr : T) (s : GrindingSite)
  : result (t * T) :=
  let* (entry, c) := StreamCursor.next_kind (w_cursor w) s ProofOfWork in
  let* found := search_grinding_nonce (preview tr) (e_grind_bits entry) (e_nonce_bits entry) in
  let* nonce := ok_or found (InvalidInput "transcript grinding exhausted") in
  let* _ := ok_or (Site.proof_of_work_label s) InvalidProof in
  let* (predicate, tr) := grinding_predicate (F := F) tr (e_grind_bits entry) (e_nonce_bits entry) nonce in
  if predicate_ok (e_grind_bits entry) predicate then
    let* w := write_entry {| w_bytes := w_bytes w; w_cursor := c |} entry nonce in
    Ok (w, tr)
  else Err (InvalidInput "transcript grinding preview/live mismatch").

Definition write_fold_response (w : t) (s : GrindingSite) (counter : Z) : result t :=
  let* (entry, c) := StreamCursor.next_kind (w_cursor w) s KFoldResponse in
  write_entry {| w_bytes := w_bytes w; w_cursor := c |} entry counter.

Definition finish (w : t) : result TranscriptNonceStream :=
  let bit_len := StreamCursor.bit_offset (w_cursor w) in
  let plan := PlanCursor.plan (StreamCursor.cursor_plan (w_cursor w)) in
  if StreamCursor.is_finished (w_cursor w) (total_nonce_bits plan)
  then Ok {| stream_bytes := w_bytes w; bit_len := bit_len |}
  else Err InvalidProof.
End ops.
End Writer.

Module Reader.

Record t := {
  r_stream : TranscriptNonceStream;
  r_cursor : StreamCursor.t;
}.

Section ops.
Context `{BuildMode}.

(** [TranscriptNonceStream::reader] *)
Definition reader (s : TranscriptNonceStream) (p : GrindingPlan) : result t :=
  if bit_len s =? total_nonce_bits p then Ok {| r_stream := s; r_cursor := StreamCursor.new p |}
  else Err InvalidProof.

Definition read_entry (r : t) (entry : GrindingPlanEntry) : result (Z * t) :=
  let* value := read_bits (as_bytes (r_stream r)) (StreamCursor.bit_offset (r_cursor r)) (e_nonce_bits entry) in
  let* c := StreamCursor.advance_bits (r_cursor r) (e_nonce_bits entry) in
  Ok (value, {| r_stream := r_stream r; r_cursor := c |}).

Definition read (r : t) (s : GrindingSite) : result (Z * t) :=
  let* (entry, c) := StreamCursor.next (r_cursor r) s in
  read_entry {| r_stream := r_stream r; r_cursor := c |} entry.

Definition grind {F T} `{Transcript F T} (r : t) (tr : T) (s : GrindingSite) : result (t * T) :=
  let* (entry, c) := StreamCursor.next_kind (r_cursor r) s ProofOfWork in
  let* (nonce, r) := read_entry {| r_stream := r_stream r; r_cursor := c |} entry in
  let* _ := ok_or (Site.proof_of_work_label s) InvalidProof in
  let* (predicate, tr) := grinding_predicate (F := F) tr (e_grind_bits entry) (e_nonce_bits entry) nonce in
  if predicate_ok (e_grind_bits entry) predicate then Ok (r, tr) else Err InvalidProof.

Definition read_fold_response (r : t) (s : GrindingSite) : result (Z * t) :=
  let* (entry, c) := StreamCursor.next_kind (r_cursor r) s KFoldResponse in
  read_entry {| r_stream := r_stream r; r_cursor := c |} entry.

Definition finish (r : t) : result unit :=
  if StreamCursor.is_finished (r_cursor r) (bit_len (r_stream r)) then Ok tt else Err InvalidProof.
End ops.
End Reader.

(** * The transcript adapter *)

(** [NonceCursor<F, T>] *)
Class NonceCursor (F T C : Type) := {
  nc_grind_query : C -> T -> GrindingSite -> result (C * T);
  nc_record_fold_challenges : C -> Z -> Z -> Z -> result C;
}.

#[export] Instance Writer_NonceCursor {F T} `{BuildMode, Transcript F T, TranscriptChallengePreview T}
  : NonceCursor F T Writer.t := {
  nc_grind_query w tr s := Writer.grind (F := F) w tr s;
  nc_record_fold_challenges w level group n :=
    let* c := StreamCursor.consume_fold_group (Writer.w_cursor w) level group n in
    Ok {| Writer.w_bytes := Writer.w_bytes w; Writer.w_cursor := c |};
}.

#[export] Instance Reader_NonceCursor {F T} `{BuildMode, Transcript F T} : NonceCursor F T Reader.t := {
  nc_grind_query r tr s := Reader.grind (F := F) r tr s;
  nc_record_fold_challenges r level group n :=
    let* c := StreamCursor.consume_fold_group (Reader.r_cursor r) level group n in
    Ok {| Reader.r_stream := Reader.r_stream r; Reader.r_cursor := c |};
}.

Record GrindingTranscript (T C : Type) := {
  transcript : T;
  cursor : C;
}.
#[global] Arguments transcript {T C}. #[global] Arguments cursor {T C}.
#[global] Arguments Build_GrindingTranscript {T C}.

Definition with_transcript {T C} (g : GrindingTranscript T C) (m : result T) : result (GrindingTranscript T C) :=
  let* tr := m in Ok {| transcript := tr; cursor := cursor g |}.
Definition with_challenge {T C A} (g : GrindingTranscript T C) (m : result (A * T))
  : result (A * GrindingTranscript T C) :=
  let* (a, tr) := m in Ok (a, {| transcript := tr; cursor := cursor g |}).

(** [impl Transcript<F> for GrindingTranscript]: every method is passed on. *)
#[export] Instance GrindingTranscript_Transcript {F T C} `{Transcript F T} : Transcript F (GrindingTranscript T C) := {
  bind_instance_bytes g b := with_transcript g (bind_instance_bytes (F := F) (transcript g) b);
  append_bytes g l b := with_transcript g (append_bytes (F := F) (transcript g) l b);
  append_field g l x := with_transcript g (append_field (transcript g) l x);
  append_serde _ _ g l x := with_transcript g (append_serde (F := F) (transcript g) l x);
  challenge_scalar g l := with_challenge g (challenge_scalar (F := F) (transcript g) l);
  challenge_bytes g l n := with_challenge g (challenge_bytes (F := F) (transcript g) l n);
  challenge_block g l := with_challenge g (challenge_block (F := F) (transcript g) l);
}.

#[export] Instance GrindingTranscript_Preview {T} `{TranscriptChallengePreview T}
  : TranscriptChallengePreview (GrindingTranscript T Writer.t) := fun g => preview (transcript g).

(** [TranscriptGrinding<F>] *)
Class TranscriptGrinding (F T : Type) := {
  grind_query : T -> GrindingSite -> result T;
  record_fold_challenges : T -> Z -> Z -> Z -> result T;
}.

#[export] Instance GrindingTranscript_Grinding {F T C} `{NonceCursor F T C}
  : TranscriptGrinding F (GrindingTranscript T C) := {
  grind_query g s :=
    let* (c, tr) := nc_grind_query (F := F) (cursor g) (transcript g) s in
    Ok {| transcript := tr; cursor := c |};
  record_fold_challenges g level group n :=
    let* c := nc_record_fold_challenges (F := F) (T := T) (cursor g) level group n in
    Ok {| transcript := transcript g; cursor := c |};
}.

Section adapters.
Context {F T : Type} `{BuildMode, Transcript F T}.

Definition prover_new (tr : T) (p : GrindingPlan) : result (GrindingTranscript T Writer.t) :=
  let* w := Writer.new p in Ok {| transcript := tr; cursor := w |}.
Definition prover_finish (g : GrindingTranscript T Writer.t) : result TranscriptNonceStream :=
  Writer.finish (cursor g).
Definition verifier_new (tr : T) (s : TranscriptNonceStream) (p : GrindingPlan)
  : result (GrindingTranscript T Reader.t) :=
  let* r := Reader.reader s p in Ok {| transcript := tr; cursor := r |}.
Definition verifier_finish (g : GrindingTranscript T Reader.t) : result unit := Reader.finish (cursor g).

Definition commit_fold_response (g : GrindingTranscript T Writer.t) (s : GrindingSite) (counter : Z)
  : result (GrindingTranscript T Writer.t) :=
  let* w := Writer.write_fold_response (cursor g) s counter in
  Ok {| transcript := transcript g; cursor := w |}.
Definition read_fold_response (g : GrindingTranscript T Reader.t) (s : GrindingSite)
  : result (Z * GrindingTranscript T Reader.t) :=
  let* (nonce, r) := Reader.read_fold_response (cursor g) s in
  Ok (nonce, {| transcript := transcript g; cursor := r |}).
End adapters.

(** [sample_grinded_sumcheck_challenge] of [transcript_grinding.rs] *)
Definition sample_grinded_sumcheck_challenge {F E T} `{ExtField F E, Transcript F T, TranscriptGrinding F T}
    (tr : T) (protocol : SumcheckProtocol) (level stage round : Z) : result (E * T) :=
  let* tr := grind_query (F := F) tr (SumcheckRound protocol level stage round) in
  sample_ext_challenge (F := F) tr labels.CHALLENGE_SUMCHECK_ROUND.

(** * The packed bits as one integer *)

Lemma lor_disjoint a x k : 0 <= k -> 0 <= a < 2 ^ k -> Z.lor a (Z.shiftl x k) = a + x * 2 ^ k.
Proof.
  intros Hk Ha. rewrite Z.shiftl_mul_pow2 by done.
  pose proof (Z.add_lor_land a (x * 2 ^ k)) as Hal.
  assert (Hl : Z.land a (x * 2 ^ k) = 0).
  { apply Z.bits_inj'. intros i Hi. rewrite Z.land_spec, Z.bits_0.
    destruct (Z.lt_ge_cases i k) as [Hlt|Hge].
    - rewrite <-Z.shiftl_mul_pow2, Z.shiftl_spec_low by done. apply andb_false_r.
    - replace a with (a mod 2 ^ k) by (by apply Z.mod_small). by rewrite Z.mod_pow2_bits_high by done. }
  lia.
Qed.

Lemma from_le_lor d b : is_byte d -> from_le_bytes (d :: b) = Z.lor d (Z.shiftl (from_le_bytes b) 8).
Proof. intros Hd. cbn [from_le_bytes]. rewrite lor_disjoint; unfold is_byte in *; lia. Qed.

Lemma from_le_insert b j d x :
  Forall is_byte b -> b !! j = Some d -> is_byte x ->
  from_le_bytes (<[j := Z.lor d x]> b) = Z.lor (from_le_bytes b) (Z.shiftl x (8 * Z.of_nat j)) /\
  Forall is_byte (<[j := Z.lor d x]> b).
Proof.
  intros Hb Hj Hx. assert (Hbx : is_byte (Z.lor d x)).
  { apply (lor_in_u 8); [lia| |done]. by apply (proj1 (Forall_lookup _ _) Hb _ _ Hj). }
  split; [|by apply Forall_insert]. revert j Hj; induction Hb as [|c b Hc Hb IH]; intros [|j] Hj; try done.
  - injection Hj as ->. cbn [insert list_insert]. rewrite !from_le_lor by done.
    change (8 * Z.of_nat 0) with 0. rewrite Z.shiftl_0_r, <-!Z.lor_assoc. f_equal. apply Z.lor_comm.
  - change (<[S j := Z.lor d x]> (c :: b)) with (c :: <[j := Z.lor d x]> b). rewrite !from_le_lor by done. rewrite (IH j Hj).
    rewrite Z.shiftl_lor, Z.shiftl_shiftl, Z.lor_assoc by lia. do 2 f_equal. lia.
Qed.

Lemma bytes_split w k :
  0 <= w -> 0 <= k -> w mod 2 ^ (8 * (k + 1)) = Z.lor (w mod 2 ^ (8 * k)) (Z.shiftl (uwrap 8 (Z.shiftr w (8 * k))) (8 * k)).
Proof.
  intros Hw Hk. unfold uwrap. rewrite lor_disjoint by (lia || apply Z.mod_pos_bound; lia).
  rewrite Z.shiftr_div_pow2 by lia. replace (8 * (k + 1)) with (8 * k + 8) by lia.
  rewrite Z.pow_add_r, Z.rem_mul_r by lia. lia.
Qed.

Section bit_lemmas.
Context `{BuildMode}.

Lemma shift_amount_in w k : k < w -> shift_amount w k = Ok k.
Proof. intros Hk. unfold shift_amount. by rewrite (proj2 (Z.ltb_lt k w) Hk). Qed.

Lemma byte_count_bounds shift width :
  0 <= shift < 8 -> 0 <= width <= 32 ->
  let n := byte_count shift width in 0 <= n <= 5 /\ shift + width <= 8 * n < shift + width + 8.
Proof. intros Hs Hw. unfold byte_count. cbv zeta. div_lia. Qed.

Lemma index_byte b j : Forall is_byte b -> 0 <= j < len b -> exists d, index b j = Some d /\ b !! Z.to_nat j = Some d /\ is_byte d.
Proof.
  intros Hb Hj. destruct (index_is_Some b j Hj) as [d Hd]. exists d. split; [done|].
  unfold index in Hd. destruct (Z.leb_spec 0 j); [|done]. split; [done|]. by apply (proj1 (Forall_lookup _ _) Hb _ _ Hd).
Qed.

(** Writing ors the value into the stream. *)
Lemma write_bits_lor b off width value :
  Forall is_byte b -> 0 <= off -> 0 <= width <= 32 -> 0 <= value < 2 ^ width -> off + width <= 8 * len b ->
  exists b', write_bits b off width value = Ok b' /\ length b' = length b /\ Forall is_byte b' /\
    from_le_bytes b' = Z.lor (from_le_bytes b) (Z.shiftl value off).
Proof.
  intros Hb Hoff Hw Hv Hfit. unfold write_bits.
  set (s := off mod 8). set (bo := off / 8). assert (Hsb : off = 8 * bo + s /\ 0 <= s < 8 /\ 0 <= bo) by (subst s bo; div_lia).
  destruct (byte_count_bounds s width) as [Hn Hnb]; [lia..|]. set (n := byte_count s width) in *.
  assert (Hv32 : 2 ^ width <= 2 ^ 32) by (apply Z.pow_le_mono_r; lia).
  assert (Hword : 0 <= Z.shiftl value s < 2 ^ (8 * n)).
  { rewrite Z.shiftl_mul_pow2 by lia. split; [nia|]. apply Z.lt_le_trans with (2 ^ width * 2 ^ s); [nia|].
    rewrite <-Z.pow_add_r by lia. apply Z.pow_le_mono_r; lia. }
  assert (H40 : 2 ^ (8 * n) <= 2 ^ 40) by (apply Z.pow_le_mono_r; lia).
  unfold shl. rewrite shift_amount_in by lia. cbn [obind]. unfold uwrap at 1. rewrite Z.mod_small by lia.
  set (word := Z.shiftl value s) in *. unfold len in Hfit.
  match goal with |- context [ofold ?f ?r ?st] =>
    destruct (ofold_range (E := AkitaError) (fun k b' => length b' = length b /\ Forall is_byte b' /\
      from_le_bytes b' = Z.lor (from_le_bytes b) (Z.shiftl (word mod 2 ^ (8 * k)) (8 * bo))) f n st)
      as (b' & -> & Hl & Hby & Hval) end.
  - lia.
  - change (2 ^ (8 * 0)) with 1. rewrite Z.mod_1_r, Z.shiftl_0_l, Z.lor_0_r. done.
  - intros k b1 Hk (Hl & Hby & Hval). destruct (index_byte b1 (bo + k) Hby) as (d & -> & Hd & Hbd); [unfold len; lia|].
    cbn [ok_or obind]. unfold shr. rewrite shift_amount_in by lia. cbn [obind]. unfold store.
    destruct (Z.leb_spec 0 (bo + k)); [|lia]. destruct (Z.ltb_spec (bo + k) (len b1)); [|unfold len in *; lia]. cbn [andb].
    eexists. split; [done|].
    assert (Hx : is_byte (uwrap 8 (Z.shiftr word (k * 8)))) by (apply Z.mod_pos_bound; lia).
    destruct (from_le_insert b1 _ d _ Hby Hd Hx) as [-> Hby']. split; [by rewrite length_insert|]. split; [done|].
    rewrite Hval, (bytes_split word k) by lia. rewrite Z.shiftl_lor, Z.lor_assoc, Z.shiftl_shiftl by lia.
    rewrite Z2Nat.id by lia. f_equal. rewrite (Z.mul_comm k 8). f_equal. lia.
  - exists b'. split; [done|]. split; [done|]. split; [done|]. rewrite Hval, Z.mod_small by lia. f_equal.
    subst word. rewrite Z.shiftl_shiftl by lia. f_equal. lia.
Qed.

Lemma nonce_write_bits_spec b off width value :
  Forall is_byte b -> 0 <= off -> 0 <= width <= 32 -> 0 <= value < 2 ^ width -> off + width <= 8 * len b ->
  from_le_bytes b < 2 ^ off ->
  exists b', write_bits b off width value = Ok b' /\ length b' = length b /\ Forall is_byte b' /\
    from_le_bytes b' = from_le_bytes b + value * 2 ^ off.
Proof.
  intros Hb Hoff Hw Hv Hfit Hlt. destruct (write_bits_lor b off width value) as (b' & H1 & H2 & H3 & H4); try done.
  exists b'. repeat split; try done. rewrite H4. apply lor_disjoint; [done|]. pose proof (from_le_bytes_bound b Hb). lia.
Qed.

Lemma from_le_take_S l k d :
  Forall is_byte l -> l !! k = Some d ->
  from_le_bytes (take (S k) l) = Z.lor (from_le_bytes (take k l)) (Z.shiftl d (8 * Z.of_nat k)).
Proof.
  intros Hl Hd. assert (Hlen : length (take k l) = k) by (rewrite length_take; apply lookup_lt_Some in Hd; lia).
  rewrite (take_S_r l k d Hd), from_le_bytes_app. cbn [from_le_bytes]. unfold len. rewrite Hlen.
  rewrite lor_disjoint; [lia|lia|]. pose proof (from_le_bytes_bound (take k l)) as Hb.
  unfold len in Hb. rewrite Hlen in Hb. apply Hb. by apply Forall_take.
Qed.

(** Reading takes a window of the stream. *)
Lemma nonce_read_bits_spec b off width :
  Forall is_byte b -> 0 <= off -> 0 <= width <= 32 -> off + width <= 8 * len b ->
  read_bits b off width = Ok ((from_le_bytes b / 2 ^ off) mod 2 ^ width).
Proof.
  intros Hb Hoff Hw Hfit. unfold read_bits.
  set (s := off mod 8). set (bo := off / 8). assert (Hsb : off = 8 * bo + s /\ 0 <= s < 8 /\ 0 <= bo) by (subst s bo; div_lia).
  destruct (byte_count_bounds s width) as [Hn Hnb]; [lia..|]. set (n := byte_count s width) in *.
  set (l := drop (Z.to_nat bo) b). assert (Hl : Forall is_byte l) by (by apply Forall_drop).
  match goal with |- context [ofold ?f ?r ?st] =>
    destruct (ofold_range (E := AkitaError) (fun k word => word = from_le_bytes (take (Z.to_nat k) l)) f n st)
      as (word & -> & Hword) end.
  - lia.
  - done.
  - intros k word Hk ->. destruct (index_byte b (bo + k) Hb) as (d & -> & Hd & Hbd); [unfold len in *; lia|].
    cbn [ok_or obind]. unfold shl. rewrite shift_amount_in by lia. cbn [obind]. eexists. split; [done|].
    replace (Z.to_nat (k + 1)) with (S (Z.to_nat k)) by lia.
    rewrite (from_le_take_S l (Z.to_nat k) d Hl); [|subst l; rewrite lookup_drop, <-Hd; f_equal; lia].
    f_equal. rewrite Z2Nat.id, (Z.mul_comm k 8) by lia. unfold uwrap. apply Z.mod_small.
    rewrite Z.shiftl_mul_pow2 by lia. unfold is_byte in Hbd.
    assert (2 ^ (8 * k) <= 2 ^ 32) by (apply Z.pow_le_mono_r; lia). nia.
  - cbn [obind].
    assert (Hmask : (if width =? 32 then Ok U32_MAX else let* m := shl 64 1 width in Ok (m - 1)) =
                    Ok (E := AkitaError) (Z.ones width)).
    { destruct (Z.eqb_spec width 32) as [->|]; [done|]. unfold shl. rewrite shift_amount_in by lia. cbn [obind].
      unfold uwrap. rewrite Z.shiftl_1_l, Z.ones_equiv.
      assert (2 ^ width <= 2 ^ 32) by (apply Z.pow_le_mono_r; lia). by rewrite Z.mod_small by lia. }
    rewrite Hmask. cbn [obind]. unfold shr. rewrite shift_amount_in by lia. cbn [obind]. f_equal.
    rewrite Z.land_ones, Z.shiftr_div_pow2 by lia. unfold uwrap.
    assert (Hp32 : 2 ^ width <= 2 ^ 32) by (apply Z.pow_le_mono_r; lia).
    rewrite (Z.mod_small (_ mod _) (2 ^ 32)) by (pose proof (Z.mod_pos_bound (word / 2 ^ s) (2 ^ width)); lia).
    assert (Hdrop : from_le_bytes b / 2 ^ (8 * bo) = from_le_bytes l).
    { rewrite <-(take_drop (Z.to_nat bo) b) at 1. fold l. rewrite from_le_bytes_app.
      assert (Hlt : len (take (Z.to_nat bo) b) = bo) by (unfold len in *; rewrite length_take; lia).
      pose proof (from_le_bytes_bound (take (Z.to_nat bo) b) (Forall_take _ _ _ Hb)) as Hbd. rewrite Hlt in *.
      rewrite Z.mul_comm, Z.div_add by lia. rewrite Z.div_small by done. lia. }
    destruct Hsb as (Ho & Hs & Hbo). rewrite Ho at 1. rewrite Z.pow_add_r, <-Z.div_div, Hdrop by lia.
    rewrite <-(take_drop (Z.to_nat n) l), from_le_bytes_app. rewrite <-Hword.
    assert (Hlt : len (take (Z.to_nat n) l) = n) by (subst l; unfold len in *; rewrite length_take, length_drop; lia).
    rewrite Hlt. replace (8 * n) with (s + (8 * n - s - width + width)) by lia.
    rewrite Z.pow_add_r, (Z.pow_add_r _ (8 * n - s - width)) by lia.
    set (R := from_le_bytes (drop _ l)).
    replace (word + 2 ^ s * (2 ^ (8 * n - s - width) * 2 ^ width) * R)
      with (word + (2 ^ (8 * n - s - width) * R * 2 ^ width) * 2 ^ s) by ring.
    rewrite Z.div_add, Z.mod_add by lia. done.
Qed.
End bit_lemmas.

(** * What a cursor still has to deliver *)

Definition entry_of (r : GrindingRun) : GrindingPlanEntry :=
  {| e_site := site r; e_grind_bits := grind_bits r; e_nonce_bits := nonce_bits r |}.

(** The logical queries of a list of runs, in replay order. *)
Definition expand (l : list GrindingRun) : list GrindingPlanEntry :=
  concat (map (fun r => replicate (Z.to_nat (multiplicity r)) (entry_of r)) l).

Definition widths (es : list GrindingPlanEntry) : Z := checked.Zsum (map e_nonce_bits es).

Definition valid_plan (p : GrindingPlan) : Prop :=
  exists rs c, in_u 32 c /\ Forall Run.typed rs /\ Plan.new rs c = Ok p.

Lemma widths_cons e es : widths (e :: es) = e_nonce_bits e + widths es.
Proof. done. Qed.

Lemma widths_app a b : widths (a ++ b) = widths a + widths b.
Proof. unfold widths. by rewrite map_app, Zsum_app. Qed.

Lemma widths_replicate n e : widths (replicate n e) = Z.of_nat n * e_nonce_bits e.
Proof. induction n as [|n IH]; [done|]. cbn [replicate]. rewrite widths_cons, IH. lia. Qed.

Definition narrow (e : GrindingPlanEntry) : Prop := 0 <= e_nonce_bits e <= 32.

Lemma widths_nonneg es : Forall narrow es -> 0 <= widths es.
Proof. induction 1 as [|e es He _ IH]; [done|]. rewrite widths_cons. unfold narrow in He. lia. Qed.

Lemma expand_cons r l : expand (r :: l) = replicate (Z.to_nat (multiplicity r)) (entry_of r) ++ expand l.
Proof. done. Qed.

Lemma valid_plan_facts p :
  valid_plan p ->
  Forall (fun r => 1 <= multiplicity r < 2 ^ 64) (runs p) /\ Forall narrow (expand (runs p)) /\
  widths (expand (runs p)) = total_nonce_bits p /\ 0 <= total_nonce_bits p < 2 ^ 40.
Proof.
  intros (rs & c & Hc & Ht & Hn). pose proof (plan_new_spec_aux c rs Hc Ht) as Hs. rewrite Hn in Hs.
  destruct Hs as (_ & Ho & Hq & -> & Hb). cbn [runs total_nonce_bits]. unfold U32_MAX in Hq.
  assert (Hw : Forall (fun r => 0 <= nonce_bits r <= 32 /\ 1 <= multiplicity r < 2 ^ 64) rs).
  { clear Hq Hb Hn. induction Ht as [|r rs Hr Ht IH]; [constructor|].
    apply Forall_cons_1 in Ho as [Hor Ho]. constructor; [|by apply IH].
    destruct (run_ok_widths c r Hc Hr Hor) as (H1 & H2 & _). destruct Hr as [_ _ _ _ Hm]. unfold in_u in Hm. lia. }
  split; [eapply Forall_impl; [|exact Hw]; cbn; lia|]. split; [|split; [|lia]].
  - clear -Hw. induction Hw as [|r rs Hr _ IH]; [constructor|]. rewrite expand_cons.
    apply Forall_app; split; [|done]. apply Forall_replicate. unfold narrow. cbn. lia.
  - clear -Hw. induction Hw as [|r rs Hr _ IH]; [done|]. rewrite expand_cons, widths_app, widths_replicate, IH.
    unfold stream_bits. cbn [map]. unfold checked.Zsum. cbn [foldr entry_of e_nonce_bits]. lia.
Qed.

(** The entries after a position. *)
Definition remaining (c : PlanCursor.t) : list GrindingPlanEntry :=
  drop (Z.to_nat (PlanCursor.run_offset c))
    (expand (drop (Z.to_nat (PlanCursor.run_index c)) (runs (PlanCursor.plan c)))).

Record position_ok (c : PlanCursor.t) : Prop := {
  pos_mult : Forall (fun r => 1 <= multiplicity r < 2 ^ 64) (runs (PlanCursor.plan c));
  pos_index : 0 <= PlanCursor.run_index c;
  pos_offset : 0 <= PlanCursor.run_offset c;
  pos_inside : forall r, index (runs (PlanCursor.plan c)) (PlanCursor.run_index c) = Some r ->
    PlanCursor.run_offset c < multiplicity r;
}.

Lemma index_Some_lookup {A} (l : list A) i x : index l i = Some x -> 0 <= i /\ l !! Z.to_nat i = Some x.
Proof. unfold index. destruct (Z.leb_spec 0 i); [|done]. by intros. Qed.

Lemma next_spec c e c' :
  position_ok c -> PlanCursor.next c = Some (e, c') ->
  remaining c = e :: remaining c' /\ position_ok c' /\ PlanCursor.plan c' = PlanCursor.plan c.
Proof.
  intros [Hm Hi Ho Hin] Hn. unfold PlanCursor.next in Hn.
  destruct (index _ _) as [r|] eqn:Hr; [|done]. specialize (Hin r eq_refl).
  pose proof Hr as Hr'. apply index_Some_lookup in Hr' as [_ Hl].
  pose proof (proj1 (Forall_lookup _ _) Hm _ _ Hl) as Hmr. cbn beta in Hmr.
  injection Hn as <- Hc. unfold remaining at 1. rewrite (drop_S _ _ _ Hl), expand_cons.
  assert (Hdrop : drop (Z.to_nat (PlanCursor.run_offset c)) (replicate (Z.to_nat (multiplicity r)) (entry_of r)) =
    entry_of r :: replicate (Z.to_nat (multiplicity r - PlanCursor.run_offset c - 1)) (entry_of r)).
  { rewrite drop_replicate.
    replace (Z.to_nat (multiplicity r) - Z.to_nat (PlanCursor.run_offset c))%nat
      with (S (Z.to_nat (multiplicity r - PlanCursor.run_offset c - 1))) by lia. done. }
  rewrite drop_app_le, Hdrop by (rewrite length_replicate; lia). cbn [app].
  destruct (Z.eqb_spec (PlanCursor.run_offset c + 1) (multiplicity r)) as [He|Hne]; subst c'; (split; [|split; [|done]]).
  - f_equal. unfold remaining. cbn. replace (multiplicity r - PlanCursor.run_offset c - 1) with 0 by lia.
    change (Z.to_nat 0) with 0%nat. cbn [replicate app]. rewrite drop_0.
    replace (Z.to_nat (PlanCursor.run_index c + 1)) with (S (Z.to_nat (PlanCursor.run_index c))) by lia. done.
  - constructor; cbn; [done|lia|lia|]. intros r' Hr'. apply index_Some_lookup in Hr' as [_ Hl'].
    pose proof (proj1 (Forall_lookup _ _) Hm _ _ Hl') as Hb. cbn in Hb. lia.
  - f_equal. unfold remaining. cbn. rewrite (drop_S _ _ _ Hl), expand_cons.
    rewrite drop_app_le by (rewrite length_replicate; lia). rewrite drop_replicate.
    replace (Z.to_nat (multiplicity r) - Z.to_nat (PlanCursor.run_offset c + 1))%nat
      with (Z.to_nat (multiplicity r - PlanCursor.run_offset c - 1)) by lia. done.
  - constructor; cbn; [done..|lia|]. intros r' Hr'. rewrite Hr' in Hr. injection Hr as ->. lia.
Qed.

Lemma consume_run_spec c s m c' :
  position_ok c -> PlanCursor.consume_run c s m = Ok c' ->
  exists e, remaining c = replicate (Z.to_nat m) e ++ remaining c' /\ e_site e = s /\ e_grind_bits e = 0 /\
    e_nonce_bits e = 0 /\ position_ok c' /\ PlanCursor.plan c' = PlanCursor.plan c.
Proof.
  intros [Hm Hi Ho Hin] Hn. unfold PlanCursor.consume_run in Hn.
  destruct (index _ _) as [r|] eqn:Hr; [|done]. cbn [ok_or obind] in Hn.
  pose proof Hr as Hr'. apply index_Some_lookup in Hr' as [_ Hl].
  destruct (_ || _)%bool eqn:Hg; [done|]. bool_prop.
  match goal with H : bool_decide (site r = s) = true |- _ => apply bool_decide_eq_true in H; rename H into Hs end.
  match goal with H : bool_decide (usize _ = Some m) = true |- _ => apply bool_decide_eq_true in H; rename H into Hu end.
  apply checked_u_Some in Hu as [_ ->]. destruct (checked_add _ _) as [j|] eqn:Hj; [|done].
  apply checked_u_Some in Hj as [_ ->]. cbn [ok_or obind] in Hn. injection Hn as <-.
  exists (entry_of r). unfold remaining. cbn. rewrite (drop_S _ _ _ Hl), expand_cons.
  replace (PlanCursor.run_offset c) with 0 by lia. rewrite !drop_0.
  replace (Z.to_nat (PlanCursor.run_index c + 1)) with (S (Z.to_nat (PlanCursor.run_index c))) by lia.
  repeat split; try done; cbn; try lia. intros r' Hr''. apply index_Some_lookup in Hr'' as [_ Hl'].
  pose proof (proj1 (Forall_lookup _ _) Hm _ _ Hl') as Hb. cbn in Hb. lia.
Qed.

Lemma finished_spec c : PlanCursor.is_finished c = true -> remaining c = [].
Proof.
  intros Hf. unfold PlanCursor.is_finished in Hf. bool_prop. unfold remaining.
  rewrite (drop_ge (runs _)) by (unfold len in *; lia). apply drop_nil.
Qed.

(** A stream cursor with [es] ahead. *)
Record ahead (p : GrindingPlan) (c : StreamCursor.t) (es : list GrindingPlanEntry) : Prop := {
  ah_plan : PlanCursor.plan (StreamCursor.cursor_plan c) = p;
  ah_pos : position_ok (StreamCursor.cursor_plan c);
  ah_rest : remaining (StreamCursor.cursor_plan c) = es;
  ah_narrow : Forall narrow es;
  ah_off : 0 <= StreamCursor.bit_offset c;
  ah_bits : StreamCursor.bit_offset c + widths es = total_nonce_bits p;
}.

Lemma ahead_new p : valid_plan p -> ahead p (StreamCursor.new p) (expand (runs p)).
Proof.
  intros Hp. destruct (valid_plan_facts p Hp) as (Hm & Hn & Hw & Ht).
  constructor; cbn; try done. constructor; cbn; try done.
  intros r Hr. pose proof (proj1 (Forall_lookup _ _) Hm _ _ Hr) as Hb. cbn in Hb. lia.
Qed.

Lemma ahead_next p c es s e c1 :
  ahead p c es -> StreamCursor.next c s = Ok (e, c1) ->
  exists es1, es = e :: es1 /\ e_site e = s /\ narrow e /\
    StreamCursor.bit_offset c1 = StreamCursor.bit_offset c /\
    StreamCursor.bit_offset c + e_nonce_bits e <= total_nonce_bits p /\
    forall c2, StreamCursor.advance_bits c1 (e_nonce_bits e) = Ok c2 ->
      ahead p c2 es1 /\ StreamCursor.bit_offset c2 = StreamCursor.bit_offset c + e_nonce_bits e.
Proof.
  intros [Hp Hpos Hr Hnar Hoff Hbits] Hn. unfold StreamCursor.next in Hn.
  destruct (PlanCursor.next _) as [[e' pc]|] eqn:Hnext; [|done]. cbn [ok_or obind] in Hn.
  destruct (bool_decide _) eqn:Hs; [|done]. apply bool_decide_eq_true in Hs. injection Hn as <- <-.
  destruct (next_spec _ _ _ Hpos Hnext) as (Hrem & Hpos' & Hplan). rewrite Hrem in Hr. subst es.
  apply Forall_cons_1 in Hnar as [Hne Hnar]. rewrite widths_cons in Hbits.
  pose proof (widths_nonneg _ Hnar). exists (remaining pc). do 4 (split; [done|]). split; [cbn; lia|].
  intros c2 Hadv. unfold StreamCursor.advance_bits in Hadv. cbn in Hadv.
  destruct (checked_add _ _) as [off|] eqn:Ha; [|done]. apply checked_u_Some in Ha as [_ ->].
  injection Hadv as <-. split; [|done]. unfold narrow in Hne. constructor; cbn; try done; congruence || lia.
Qed.

Lemma ahead_next_kind p c es s k e c1 :
  ahead p c es -> StreamCursor.next_kind c s k = Ok (e, c1) -> StreamCursor.next c s = Ok (e, c1) /\ Site.kind s = k.
Proof.
  intros _ Hn. unfold StreamCursor.next_kind in Hn. destruct (bool_decide _) eqn:Hk; [|done].
  by apply bool_decide_eq_true in Hk.
Qed.

Lemma ahead_fold p c es level group n c' :
  ahead p c es -> 0 <= n -> StreamCursor.consume_fold_group c level group n = Ok c' ->
  exists e es', es = replicate (Z.to_nat (n + 1)) e ++ es' /\ e_site e = FoldChallengeGroup level group /\
    e_grind_bits e = 0 /\ e_nonce_bits e = 0 /\ ahead p c' es' /\
    StreamCursor.bit_offset c' = StreamCursor.bit_offset c.
Proof.
  intros [Hp Hpos Hr Hnar Hoff Hbits] Hn Hc. unfold StreamCursor.consume_fold_group in Hc.
  destruct (checked_add n 1) as [m|] eqn:Hm; [|done]. apply checked_u_Some in Hm as [_ ->].
  cbn [ok_or obind] in Hc. unfold StreamCursor.consume_zero_run in Hc.
  destruct (PlanCursor.consume_run _ _ _) as [pc|e|] eqn:Hcr; [|done..]. injection Hc as <-.
  destruct (consume_run_spec _ _ _ _ Hpos Hcr) as (e & Hrem & Hs & Hg & Hnb & Hpos' & Hplan).
  rewrite Hrem in Hr. subst es. apply Forall_app in Hnar as [_ Hnar].
  rewrite widths_app, widths_replicate, Hnb in Hbits. exists e, (remaining pc).
  do 4 (split; [done|]). split; [|done]. constructor; cbn; try done; congruence || lia.
Qed.

Lemma ahead_finished p c es n :
  ahead p c es -> StreamCursor.is_finished c n = true -> es = [] /\ StreamCursor.bit_offset c = n.
Proof.
  intros [Hp Hpos Hr Hnar Hoff Hbits] Hf. unfold StreamCursor.is_finished in Hf. bool_prop.
  rewrite finished_spec in Hr by done. done.
Qed.

(** * A session: the calls the protocol makes on an adapter *)

Inductive op (F : Type) :=
  | OGrind (s : GrindingSite)
  | OResponse (s : GrindingSite) (counter : Z)
  | OFold (level group coordinate_count : Z)
  | OBytes (l : label) (b : list Z)
  | OField (l : label) (x : F)
  | OScalar (l : label)
  | OChallengeBytes (l : label) (n : Z)
  | OBlock (l : label).
Arguments OGrind {F}. Arguments OResponse {F}. Arguments OFold {F}. Arguments OBytes {F}. Arguments OField {F}.
Arguments OScalar {F}. Arguments OChallengeBytes {F}. Arguments OBlock {F}.

(** What a call lets the protocol see. *)
Inductive obs (F : Type) :=
  | NoObs
  | ObsScalar (x : F)
  | ObsBytes (b : list Z)
  | ObsCounter (c : Z).
Arguments NoObs {F}. Arguments ObsScalar {F}. Arguments ObsBytes {F}. Arguments ObsCounter {F}.

Definition grinding_op {F} (o : op F) : bool :=
  match o with OGrind _ | OResponse _ _ | OFold _ _ _ => true | _ => false end.

Definition op_typed {F} (o : op F) : Prop :=
  match o with OResponse _ counter => in_u 32 counter | OFold _ _ n => 0 <= n | _ => True end.

Section session.
Context {F : Type} `{BuildMode}.

Definition plain {T} `{Transcript F T} (t : T) (o : op F) : result (obs F * T) :=
  match o with
  | OBytes l b => let* t := append_bytes (F := F) t l b in Ok (NoObs, t)
  | OField l x => let* t := append_field t l x in Ok (NoObs, t)
  | OScalar l => let* (x, t) := challenge_scalar t l in Ok (ObsScalar x, t)
  | OChallengeBytes l n => let* (b, t) := challenge_bytes (F := F) t l n in Ok (ObsBytes b, t)
  | OBlock l => let* (b, t) := challenge_block (F := F) t l in Ok (ObsBytes b, t)
  | _ => Panic
  end.

Section sides.
Context {T : Type} `{Transcript F T}.

Definition prover_step `{TranscriptChallengePreview T} (g : GrindingTranscript T Writer.t) (o : op F)
  : result (obs F * GrindingTranscript T Writer.t) :=
  match o with
  | OGrind s => let* g := grind_query (F := F) g s in Ok (NoObs, g)
  | OResponse s counter => let* g := commit_fold_response g s counter in Ok (ObsCounter counter, g)
  | OFold level group n => let* g := record_fold_challenges (F := F) g level group n in Ok (NoObs, g)
  | _ => plain g o
  end.

(** The verifier does not know the counters. *)
Definition verifier_step (g : GrindingTranscript T Reader.t) (o : op F)
  : result (obs F * GrindingTranscript T Reader.t) :=
  match o with
  | OGrind s => let* g := grind_query (F := F) g s in Ok (NoObs, g)
  | OResponse s _ => let* (counter, g) := read_fold_response g s in Ok (ObsCounter counter, g)
  | OFold level group n => let* g := record_fold_challenges (F := F) g level group n in Ok (NoObs, g)
  | _ => plain g o
  end.
End sides.

Fixpoint steps {G} (step : G -> op F -> result (obs F * G)) (g : G) (ops : list (op F)) : result (list (obs F) * G) :=
  match ops with
  | [] => Ok ([], g)
  | o :: ops =>
      let* (b, g) := step g o in
      let* (bs, g) := steps step g ops in
      Ok (b :: bs, g)
  end.

Definition prover_run {T} `{Transcript F T, TranscriptChallengePreview T} (p : GrindingPlan) (t : T) (ops : list (op F))
  : result (list (obs F) * TranscriptNonceStream * T) :=
  let* g := prover_new t p in
  let* (bs, g) := steps prover_step g ops in
  let* s := prover_finish g in
  Ok (bs, s, transcript g).

Definition verifier_run {T} `{Transcript F T} (p : GrindingPlan) (s : TranscriptNonceStream) (t : T) (ops : list (op F))
  : result (list (obs F) * T) :=
  let* g := verifier_new t s p in
  let* (bs, g) := steps verifier_step g ops in
  let* _ := verifier_finish g in
  Ok (bs, transcript g).

(** The nonces of a list of entries, packed in an integer low bits first. *)
Fixpoint unpack (es : list GrindingPlanEntry) (x : Z) : list (GrindingPlanEntry * Z) :=
  match es with
  | [] => []
  | e :: es => (e, x mod 2 ^ e_nonce_bits e) :: unpack es (x / 2 ^ e_nonce_bits e)
  end.

(** The specification of a replay: the calls consume the scheduled queries in
    order, each with its nonce, and every proof of work is accepted on the live
    transcript. *)
Inductive accepts {T} `{Transcript F T} : list (GrindingPlanEntry * Z) -> T -> list (op F) -> list (obs F) -> T -> Prop :=
  | acc_done t : accepts [] t [] [] t
  | acc_grind e v q t s pr t1 ops bs t' :
      e_site e = s -> Site.kind s = ProofOfWork ->
      grinding_predicate (F := F) t (e_grind_bits e) (e_nonce_bits e) v = Ok (pr, t1) ->
      predicate_ok (e_grind_bits e) pr = true ->
      accepts q t1 ops bs t' -> accepts ((e, v) :: q) t (OGrind s :: ops) (NoObs :: bs) t'
  | acc_response e v q t s c ops bs t' :
      e_site e = s -> Site.kind s = KFoldResponse ->
      accepts q t ops bs t' -> accepts ((e, v) :: q) t (OResponse s c :: ops) (ObsCounter v :: bs) t'
  | acc_fold e vs q t level group n ops bs t' :
      e_site e = FoldChallengeGroup level group -> e_grind_bits e = 0 -> e_nonce_bits e = 0 -> len vs = n + 1 ->
      accepts q t ops bs t' -> accepts (map (pair e) vs ++ q) t (OFold level group n :: ops) (NoObs :: bs) t'
  | acc_plain q t o b t1 ops bs t' :
      grinding_op o = false -> plain t o = Ok (b, t1) ->
      accepts q t1 ops bs t' -> accepts q t (o :: ops) (b :: bs) t'.
End session.

(** ** The writer *)

Section sides_proofs.
Context `{BuildMode}.
Variable p : GrindingPlan.
Hypothesis p_valid : valid_plan p.

Record writer_ok (w : Writer.t) (es : list GrindingPlanEntry) : Prop := {
  wo_ahead : ahead p (Writer.w_cursor w) es;
  wo_bytes : Forall is_byte (Writer.w_bytes w);
  wo_room : total_nonce_bits p <= 8 * len (Writer.w_bytes w);
  wo_low : from_le_bytes (Writer.w_bytes w) < 2 ^ StreamCursor.bit_offset (Writer.w_cursor w);
}.

Abbreviation offset w := (StreamCursor.bit_offset (Writer.w_cursor w)).
Abbreviation packed w := (from_le_bytes (Writer.w_bytes w)).

Lemma value_fits_spec v width : 0 <= v < 2 ^ 32 -> 0 <= width <= 32 -> value_fits v width = Ok true -> v < 2 ^ width.
Proof.
  intros Hv Hw Hf. unfold value_fits in Hf. destruct (Z.eqb_spec width 32) as [->|]; [lia|].
  unfold shl in Hf. rewrite shift_amount_in in Hf by lia. cbn [obind] in Hf. injection Hf as Hf. bool_prop.
  unfold uwrap in Hf. rewrite Z.shiftl_1_l in Hf.
  assert (2 ^ width < 2 ^ 32) by (apply Z.pow_lt_mono_r; lia). by rewrite Z.mod_small in Hf by lia.
Qed.

Lemma writer_entry w es s e c1 v w' :
  writer_ok w es -> StreamCursor.next (Writer.w_cursor w) s = Ok (e, c1) -> in_u 32 v ->
  Writer.write_entry {| Writer.w_bytes := Writer.w_bytes w; Writer.w_cursor := c1 |} e v = Ok w' ->
  exists es1, es = e :: es1 /\ writer_ok w' es1 /\ 0 <= v < 2 ^ e_nonce_bits e /\
    offset w' = offset w + e_nonce_bits e /\ packed w' = packed w + v * 2 ^ offset w /\
    length (Writer.w_bytes w') = length (Writer.w_bytes w) /\
    StreamCursor.advance_bits c1 (e_nonce_bits e) = Ok (Writer.w_cursor w') /\ narrow e /\
    e_site e = s /\ StreamCursor.bit_offset c1 = offset w.
Proof.
  intros [Hah Hby Hroom Hlow] Hn Hv Hw. unfold in_u in Hv.
  destruct (ahead_next _ _ _ _ _ _ Hah Hn) as (es1 & -> & Hs & Hnar & Hoff & Hfit & Hadv).
  pose proof (ah_off _ _ _ Hah) as Ho. unfold narrow in Hnar. unfold Writer.write_entry in Hw.
  destruct (value_fits _ _) as [[]|er|] eqn:Hvf; cbn [obind negb] in Hw; try done.
  apply value_fits_spec in Hvf; [|lia..]. cbn [Writer.w_bytes Writer.w_cursor] in Hw. rewrite Hoff in Hw.
  destruct (nonce_write_bits_spec (Writer.w_bytes w) (offset w) (e_nonce_bits e) v Hby Ho Hnar ltac:(lia) ltac:(lia) Hlow)
    as (b' & Hb' & Hl & Hby' & Hval). rewrite Hb' in Hw. cbn [obind] in Hw.
  destruct (StreamCursor.advance_bits c1 _) as [c2|er|] eqn:Hc2; [|done..]. injection Hw as <-.
  destruct (Hadv c2 eq_refl) as [Hah2 Hoff2]. exists es1. cbn [Writer.w_bytes Writer.w_cursor].
  split; [done|]. split; [|split; [lia|]; split; [done|]; split; [done|]; done].
  constructor; cbn [Writer.w_bytes Writer.w_cursor]; [done|done|unfold len in *; lia|].
  rewrite Hval, Hoff2, Z.pow_add_r by lia. pose proof (from_le_bytes_bound _ Hby). nia.
Qed.

(** What later writes preserve. *)
Record extends (w w' : Writer.t) : Prop := {
  ex_off : 0 <= offset w <= offset w';
  ex_low : packed w' mod 2 ^ offset w = packed w;
  ex_len : length (Writer.w_bytes w') = length (Writer.w_bytes w);
}.

Lemma extends_refl w es : writer_ok w es -> extends w w.
Proof.
  intros [Hah Hby _ Hlow]. pose proof (ah_off _ _ _ Hah). constructor; [lia| |done].
  apply Z.mod_small. pose proof (from_le_bytes_bound _ Hby). lia.
Qed.

Lemma extends_trans w1 w2 w3 : extends w1 w2 -> extends w2 w3 -> extends w1 w3.
Proof.
  intros [O1 L1 N1] [O2 L2 N2]. constructor; [lia| |lia]. rewrite <-L1, <-L2.
  symmetry. apply Z.mod_mod_divide. exists (2 ^ (offset w2 - offset w1)).
  rewrite <-Z.pow_add_r by lia. f_equal. lia.
Qed.

Lemma extends_entry w w' v width :
  0 <= offset w -> Forall is_byte (Writer.w_bytes w) -> packed w < 2 ^ offset w -> 0 <= width ->
  offset w' = offset w + width -> packed w' = packed w + v * 2 ^ offset w ->
  length (Writer.w_bytes w') = length (Writer.w_bytes w) -> extends w w'.
Proof.
  intros Ho Hby Hlow Hw Hoff Hp Hl. constructor; [lia| |done]. rewrite Hp, Z.mod_add by lia.
  apply Z.mod_small. pose proof (from_le_bytes_bound _ Hby). lia.
Qed.

(** ** The reader *)

(** Reading back what the writer wrote, in any stream that extends it. *)
Lemma read_back w w' s e c1 v es stream f :
  writer_ok w es -> StreamCursor.next (Writer.w_cursor w) s = Ok (e, c1) -> in_u 32 v ->
  Writer.write_entry {| Writer.w_bytes := Writer.w_bytes w; Writer.w_cursor := c1 |} e v = Ok w' ->
  extends w' f -> Forall is_byte (Writer.w_bytes f) -> as_bytes stream = Writer.w_bytes f ->
  Reader.read_entry {| Reader.r_stream := stream; Reader.r_cursor := c1 |} e =
    Ok (v, {| Reader.r_stream := stream; Reader.r_cursor := Writer.w_cursor w' |}).
Proof.
  intros Hw Hn Hv Hwr Hex Hbf Hst.
  destruct (writer_entry _ _ _ _ _ _ _ Hw Hn Hv Hwr) as (es1 & -> & Hw1 & Hvr & Hoff & Hp & Hl & Hadv & Hnar & _ & Hc1).
  pose proof (ah_off _ _ _ (wo_ahead _ _ Hw)) as Ho.
  destruct Hex as [He1 He2 He3]. pose proof (widths_nonneg _ (ah_narrow _ _ _ (wo_ahead _ _ Hw1))).
  pose proof (wo_room _ _ Hw1) as Hroom. pose proof (ah_bits _ _ _ (wo_ahead _ _ Hw1)) as Hb1.
  unfold Reader.read_entry. cbn [Reader.r_stream Reader.r_cursor]. rewrite Hst, Hc1.
  unfold narrow in Hnar. rewrite nonce_read_bits_spec; [|done|done|done|unfold len in *; lia]. cbn [obind]. rewrite Hadv. cbn [obind].
  do 2 f_equal. rewrite Hoff, Hp, Z.pow_add_r, Z.rem_mul_r in He2 by lia.
  pose proof (Z.mod_pos_bound (packed f) (2 ^ offset w) ltac:(lia)) as Hm.
  pose proof (from_le_bytes_bound _ (wo_bytes _ _ Hw)) as [Hpos _]. pose proof (wo_low _ _ Hw) as Hlow.
  assert (Hcan : packed f mod 2 ^ offset w = packed w).
  { apply (f_equal (fun z => z mod 2 ^ offset w)) in He2. rewrite (Z.mul_comm (2 ^ offset w)), !Z.mod_add in He2 by lia.
    rewrite Z.mod_mod in He2 by lia. rewrite He2. apply Z.mod_small. lia. }
  rewrite Hcan in He2. nia.
Qed.
End sides_proofs.

(** ** The two sides in lockstep *)

Lemma find_nonce_range pv g nb fuel c0 c :
  find_nonce pv g nb fuel c0 = Ok (Some c) -> in_u 32 c.
Proof.
  revert c0; induction fuel as [|fuel IH]; intros c0 Hf; cbn [find_nonce] in Hf; [done|].
  destruct (checked_u 32 c0) as [x|] eqn:Hc; [|by eapply IH].
  apply checked_u_Some in Hc as [Hin ->]. destruct (preview_grinding_predicate _ _ _ _) as [[pr|]|e|]; cbn [obind] in Hf;
    [|by eapply IH|done..]. destruct (grinding_predicate_accepts _ _); [|by eapply IH]. by injection Hf as <-.
Qed.

Lemma search_range pv g nb c : search_grinding_nonce pv g nb = Ok (Some c) -> in_u 32 c.
Proof.
  unfold search_grinding_nonce. destruct (g =? 0).
  - destruct (nb =? 0); intros [= <-]. split; lia.
  - destruct (checked_u _ _); [|done]. destruct (_ || _)%bool; [done|]. apply find_nonce_range.
Qed.

Section lockstep.
Context {F Tp Tv : Type} `{BuildMode}.
Context `{Transcript F Tp, Transcript F Tv, TranscriptChallengePreview Tp}.
Context (R : Tp -> Tv -> Prop) {sim : TranscriptSim F Tp Tv R}.
Variable p : GrindingPlan.
Hypothesis p_valid : valid_plan p.

Abbreviation writer g := (cursor (C := Writer.t) g).

Lemma sim_grinding_predicate tp tv g nb c :
  R tp tv -> rel_out R (grinding_predicate (F := F) tp g nb c) (grinding_predicate (F := F) tv g nb c).
Proof.
  intros Hr. unfold grinding_predicate. destruct (g =? 0); [done|].
  apply rel_state_bind with (R := R); [by apply sim_append_bytes|]. intros t1 t2 Hr'.
  apply rel_out_bind with (R := R); [by apply sim_challenge_block|]. done.
Qed.

Lemma sim_plain tp tv (o : op F) : R tp tv -> rel_out R (plain tp o) (plain tv o).
Proof.
  intros Hr. destruct o; cbn [plain]; try done.
  - apply rel_state_bind with (R := R); [by apply sim_append_bytes|done].
  - apply rel_state_bind with (R := R); [by apply sim_append_field|done].
  - apply rel_out_bind with (R := R); [by apply sim_challenge_scalar|done].
  - apply rel_out_bind with (R := R); [by apply sim_challenge_bytes|done].
  - apply rel_out_bind with (R := R); [by apply sim_challenge_block|done].
Qed.

(** The adapter passes the other calls on. *)
Lemma plain_adapter {T C} `{Transcript F T} (g : GrindingTranscript T C) (o : op F) :
  plain g o = let* (b, t) := plain (transcript g) o in Ok (b, {| transcript := t; cursor := cursor g |}).
Proof.
  destruct o; cbn [plain]; try done; cbn [append_bytes append_field challenge_scalar challenge_bytes challenge_block
    GrindingTranscript_Transcript]; unfold with_transcript, with_challenge.
  - by destruct (append_bytes (F := F) (transcript g) l b).
  - by destruct (append_field (transcript g) l x).
  - by destruct (challenge_scalar (F := F) (transcript g) l) as [[]| |].
  - by destruct (challenge_bytes (F := F) (transcript g) l n) as [[]| |].
  - by destruct (challenge_block (F := F) (transcript g) l) as [[]| |].
Qed.

(** The verifier's adapter at the position of the prover's. *)
Definition reading (stream : TranscriptNonceStream) (tv : Tv) (w : Writer.t) : GrindingTranscript Tv Reader.t :=
  {| transcript := tv; cursor := {| Reader.r_stream := stream; Reader.r_cursor := Writer.w_cursor w |} |}.

(** What a step of the prover leaves, and how the verifier follows it with any
    stream that extends what was written. *)
Definition followed (g : GrindingTranscript Tp Writer.t) (tv : Tv) (o : op F) (b : obs F)
    (g' : GrindingTranscript Tp Writer.t) : Prop :=
  exists es', writer_ok p (writer g') es' /\ extends (writer g) (writer g') /\
    forall f stream, extends (writer g') f -> Forall is_byte (Writer.w_bytes f) -> as_bytes stream = Writer.w_bytes f ->
      exists tv', verifier_step (reading stream tv (writer g)) o = Ok (b, reading stream tv' (writer g')) /\
        R (transcript g') tv'.

Lemma follow_plain g tv (o : op F) b g' es :
  grinding_op o = false -> prover_step g o = Ok (b, g') -> writer_ok p (writer g) es -> R (transcript g) tv ->
  followed g tv o b g'.
Proof.
  intros Hop Hs Hw Hr.
  assert (Hpl : plain g o = Ok (b, g')) by (destruct o; done).
  rewrite plain_adapter in Hpl. pose proof (sim_plain (transcript g) tv o Hr) as Hsim.
  destruct (plain (transcript g) o) as [[b1 tp1]|e|] eqn:Hp1; cbn [obind] in Hpl; [|done..]. injection Hpl as <- <-.
  exists es. split; [done|]. split; [by eapply extends_refl|]. intros f stream _ _ _. cbn in Hsim.
  destruct (plain tv o) as [[b2 tv1]|e|] eqn:Hp2; [|done..]. destruct Hsim as [<- Hr1]. exists tv1. split; [|done].
  assert (Hv : forall r : GrindingTranscript Tv Reader.t, verifier_step r o = plain r o) by (intros; destruct o; done).
  rewrite Hv, plain_adapter. unfold reading. cbn [transcript cursor]. rewrite Hp2. done.
Qed.

Lemma follow_grind g tv s b g' es :
  prover_step (F := F) g (OGrind s) = Ok (b, g') -> writer_ok p (writer g) es -> R (transcript g) tv ->
  followed g tv (OGrind s) b g'.
Proof.
  intros Hs Hw Hr. destruct g as [tp w]. cbn [transcript cursor] in *.
  pose proof (ah_off _ _ _ (wo_ahead _ _ _ Hw)) as Ho.
  cbn [prover_step grind_query GrindingTranscript_Grinding nc_grind_query Writer_NonceCursor] in Hs.
  unfold Writer.grind in Hs. cbn [transcript cursor] in Hs.
  destruct (StreamCursor.next_kind _ _ _) as [[e c1]|er|] eqn:Hn; cbn [obind] in Hs; [|done..].
  destruct (search_grinding_nonce _ _ _) as [[v|]|er|] eqn:Hse; cbn [obind ok_or] in Hs; [|done..].
  destruct (Site.proof_of_work_label s) as [l|] eqn:Hl; cbn [obind ok_or] in Hs; [|done].
  pose proof (sim_grinding_predicate tp tv (e_grind_bits e) (e_nonce_bits e) v Hr) as Hsim.
  destruct (grinding_predicate tp _ _ _) as [[pr tp1]|er|] eqn:Hpr; cbn [obind] in Hs; [|done..].
  destruct (predicate_ok _ _) eqn:Hok; cbn [obind] in Hs; [|done].
  destruct (Writer.write_entry _ _ _) as [w1|er|] eqn:Hwe; cbn [obind] in Hs; [|done..]. injection Hs as <- <-.
  destruct (ahead_next_kind _ _ _ _ _ _ _ (wo_ahead _ _ _ Hw) Hn) as [Hnext _]. pose proof (search_range _ _ _ _ Hse) as Hv.
  destruct (writer_entry _ _ _ _ _ _ _ _ Hw Hnext Hv Hwe) as (es1 & -> & Hw1 & Hvr & Hoff & Hp & Hlen & Hadv & Hnar & _ & _).
  exists es1. split; [done|]. split.
  { apply (extends_entry w w1 v (e_nonce_bits e)); [done|apply (wo_bytes _ _ _ Hw)|apply (wo_low _ _ _ Hw)|apply Hnar|done..]. }
  intros f stream Hex Hbf Hst. cbn in Hsim. destruct (grinding_predicate tv _ _ _) as [[pr2 tv1]|er|] eqn:Hpr2; [|done..].
  destruct Hsim as [<- Hr1]. exists tv1. split; [|done].
  unfold reading. cbn [verifier_step grind_query GrindingTranscript_Grinding nc_grind_query Reader_NonceCursor].
  unfold Reader.grind. cbn [transcript cursor Reader.r_cursor Reader.r_stream]. rewrite Hn. cbn [obind].
  rewrite (read_back p w w1 s e c1 v (e :: es1) stream f Hw Hnext Hv Hwe Hex Hbf Hst). cbn [obind]. rewrite Hl. cbn [ok_or obind].
  rewrite Hpr2. cbn [obind]. rewrite Hok. done.
Qed.

Lemma follow_response g tv s counter b g' es :
  prover_step (F := F) g (OResponse s counter) = Ok (b, g') -> in_u 32 counter -> writer_ok p (writer g) es ->
  R (transcript g) tv -> followed g tv (OResponse s counter) b g'.
Proof.
  intros Hs Hty Hw Hr. destruct g as [tp w]. cbn [transcript cursor] in *.
  pose proof (ah_off _ _ _ (wo_ahead _ _ _ Hw)) as Ho.
  cbn [prover_step commit_fold_response] in Hs. unfold commit_fold_response, Writer.write_fold_response in Hs.
  cbn [transcript cursor] in Hs.
  destruct (StreamCursor.next_kind _ _ _) as [[e c1]|er|] eqn:Hn; cbn [obind] in Hs; [|done..].
  destruct (Writer.write_entry _ _ _) as [w1|er|] eqn:Hwe; cbn [obind] in Hs; [|done..]. injection Hs as <- <-.
  destruct (ahead_next_kind _ _ _ _ _ _ _ (wo_ahead _ _ _ Hw) Hn) as [Hnext _].
  destruct (writer_entry _ _ _ _ _ _ _ _ Hw Hnext Hty Hwe) as (es1 & -> & Hw1 & Hvr & Hoff & Hp & Hlen & Hadv & Hnar & _ & _).
  exists es1. split; [done|]. split.
  { apply (extends_entry w w1 counter (e_nonce_bits e)); [done|apply (wo_bytes _ _ _ Hw)|apply (wo_low _ _ _ Hw)|apply Hnar|done..]. }
  intros f stream Hex Hbf Hst. exists tv. split; [|done]. unfold reading. cbn [verifier_step].
  unfold read_fold_response, Reader.read_fold_response. cbn [transcript cursor Reader.r_cursor Reader.r_stream]. rewrite Hn. cbn [obind].
  rewrite (read_back p w w1 s e c1 counter (e :: es1) stream f Hw Hnext Hty Hwe Hex Hbf Hst). done.
Qed.

Lemma follow_fold g tv level group n b g' es :
  prover_step (F := F) g (OFold level group n) = Ok (b, g') -> 0 <= n -> writer_ok p (writer g) es ->
  R (transcript g) tv -> followed g tv (OFold level group n) b g'.
Proof.
  intros Hs Hty Hw Hr. destruct g as [tp w]. cbn [transcript cursor] in *.
  pose proof (ah_off _ _ _ (wo_ahead _ _ _ Hw)) as Ho.
  cbn [prover_step record_fold_challenges GrindingTranscript_Grinding nc_record_fold_challenges Writer_NonceCursor] in Hs.
  cbn [transcript cursor] in Hs.
  destruct (StreamCursor.consume_fold_group _ _ _ _) as [c1|er|] eqn:Hc; cbn [obind] in Hs; [|done..]. injection Hs as <- <-.
  destruct (ahead_fold _ _ _ _ _ _ _ (wo_ahead _ _ _ Hw) Hty Hc) as (e & es1 & -> & _ & _ & _ & Hah & Hoff).
  destruct Hw as [Hah0 Hby Hroom Hlow]. exists es1. cbn [transcript cursor Writer.w_bytes Writer.w_cursor].
  split; [constructor; cbn; try done; by rewrite Hoff|]. split.
  - constructor; cbn [cursor Writer.w_bytes Writer.w_cursor]; [lia| |done]. apply Z.mod_small.
    pose proof (from_le_bytes_bound _ Hby). lia.
  - intros f stream _ _ _. exists tv. split; [|done].
    unfold reading. cbn [verifier_step record_fold_challenges GrindingTranscript_Grinding nc_record_fold_challenges Reader_NonceCursor].
    cbn [transcript cursor Reader.r_cursor Reader.r_stream]. rewrite Hc. done.
Qed.

Lemma follow_step g tv (o : op F) b g' es :
  prover_step g o = Ok (b, g') -> op_typed o -> writer_ok p (writer g) es -> R (transcript g) tv ->
  followed g tv o b g'.
Proof.
  intros Hs Hty Hw Hr. destruct o; cbn [op_typed] in Hty;
    [by eapply follow_grind|by eapply follow_response|by eapply follow_fold|by eapply follow_plain..].
Qed.

Lemma prover_steps_extend g tv (ops : list (op F)) bs g' es :
  steps prover_step g ops = Ok (bs, g') -> Forall op_typed ops -> writer_ok p (writer g) es -> R (transcript g) tv ->
  exists es', writer_ok p (writer g') es' /\ extends (writer g) (writer g') /\
    forall stream, as_bytes stream = Writer.w_bytes (writer g') ->
      exists tv', steps verifier_step (reading stream tv (writer g)) ops = Ok (bs, reading stream tv' (writer g')) /\
        R (transcript g') tv'.
Proof.
  revert g tv bs es; induction ops as [|o ops IH]; intros g tv bs es Hs Hty Hw Hr; cbn [steps] in Hs.
  - injection Hs as <- <-. exists es. split; [done|]. split; [by eapply extends_refl|]. intros stream _. by exists tv.
  - apply Forall_cons_1 in Hty as [Ht Hty]. destruct (prover_step g o) as [[b g1]|e|] eqn:Ho; cbn [obind] in Hs; [|done..].
    destruct (steps prover_step g1 ops) as [[bs1 g2]|e|] eqn:Hss; cbn [obind] in Hs; [|done..]. injection Hs as <- <-.
    destruct (follow_step g tv o b g1 es Ho Ht Hw Hr) as (es1 & Hw1 & Hex1 & _).
    destruct (follow_step g tv o b g1 es Ho Ht Hw Hr) as (_ & _ & _ & Hstep).
    assert (Hany : exists tv1, R (transcript g1) tv1).
    { destruct (Hstep (writer g1) {| stream_bytes := Writer.w_bytes (writer g1); bit_len := 0 |}) as (tv1 & _ & Hr1);
        [by eapply extends_refl|apply (wo_bytes _ _ _ Hw1)|done|]. by exists tv1. }
    destruct Hany as [tv0 Hr0]. destruct (IH g1 tv0 bs1 es1 Hss Hty Hw1 Hr0) as (es2 & Hw2 & Hex2 & _).
    exists es2. split; [done|]. split; [by eapply extends_trans|]. intros stream Hst.
    destruct (Hstep (writer g2) stream) as (tv1 & Hv1 & Hr1); [done|apply (wo_bytes _ _ _ Hw2)|done|].
    destruct (IH g1 tv1 bs1 es1 Hss Hty Hw1 Hr1) as (_ & _ & _ & Hrest).
    destruct (Hrest stream Hst) as (tv2 & Hv2 & Hr2). exists tv2. split; [|done].
    cbn [steps]. rewrite Hv1. cbn [obind]. rewrite Hv2. done.
Qed.
End lockstep.

(** ** Sessions *)

Lemma byte_len_spec n : 0 <= n < 2 ^ 40 ->
  exists k, nonce_byte_len n = Ok k /\ 0 <= k /\ n <= 8 * k < n + 8.
Proof.
  intros Hn. unfold nonce_byte_len, checked.div_ceil, checked.checked_div, checked.is_multiple_of. cbn [Z.eqb].
  unfold checked_add, usize, USIZE_BITS. rewrite checked_u_in.
  - cbn [ok_or]. eexists. split; [done|]. destruct (Z.eqb_spec (n mod 8) 0); div_lia.
  - unfold in_u. destruct (Z.eqb_spec (n mod 8) 0); div_lia.
Qed.

Lemma writer_new p : valid_plan p ->
  exists w, Writer.new p = Ok w /\ writer_ok p w (expand (runs p)) /\ Writer.w_cursor w = StreamCursor.new p /\
    nonce_byte_len (total_nonce_bits p) = Ok (len (Writer.w_bytes w)).
Proof.
  intros Hp. destruct (valid_plan_facts p Hp) as (_ & _ & _ & Ht). destruct (byte_len_spec _ Ht) as (k & Hk & Hk0 & Hb).
  unfold Writer.new. rewrite Hk. cbn [omap_err obind]. eexists. split; [done|].
  assert (Hz : forall n, from_le_bytes (replicate n 0) = 0).
  { induction n as [|n IH]; [done|]. cbn [replicate from_le_bytes]. by rewrite IH. }
  split; [|split; [done|]]; cbn [Writer.w_bytes Writer.w_cursor].
  - constructor; cbn [Writer.w_bytes Writer.w_cursor].
    + by apply ahead_new.
    + apply Forall_replicate. split; lia.
    + rewrite len_replicate by done. lia.
    + rewrite Hz. cbn. lia.
  - by rewrite len_replicate.
Qed.

(** Counters are the prover's alone. *)
Definition erase {F} (o : op F) : op F := match o with OResponse s _ => OResponse s 0 | o => o end.

Lemma steps_erase {F T} `{BuildMode} `{Transcript F T} (g : GrindingTranscript T Reader.t) (ops : list (op F)) :
  steps verifier_step g (map erase ops) = steps verifier_step g ops.
Proof.
  revert g; induction ops as [|o ops IH]; intros g; [done|]. cbn [map steps].
  assert (Ho : verifier_step g (erase o) = verifier_step g o) by (by destruct o). rewrite Ho.
  destruct (verifier_step g o) as [[b g1]| |]; cbn [obind]; [|done..]. by rewrite IH.
Qed.

(** A finished stream is canonical. *)
Lemma canonical_stream b n :
  Forall is_byte b -> 0 <= n -> nonce_byte_len n = Ok (len b) -> from_le_bytes b < 2 ^ n -> 8 * len b < n + 8 ->
  from_bytes b n = Ok {| stream_bytes := b; bit_len := n |}.
Proof.
  intros Hb Hn Hlen Hlt Hfit. unfold from_bytes. rewrite Hlen. cbn [obind]. rewrite Z.eqb_refl. cbn [negb].
  destruct (last_byte b) as [x|] eqn:Hx; [|done]. destruct (Z.eqb_spec (n mod 8) 0); cbn [negb andb]; [done|].
  assert (Hs : Z.shiftr x (n mod 8) = 0).
  2: { by rewrite Hs. }
  unfold last_byte in Hx. pose proof (index_Some_len _ _ _ Hx) as Hpos. apply index_Some_lookup in Hx as [_ Hx].
  rewrite Z.shiftr_div_pow2 by div_lia. pose proof (proj1 (Forall_lookup _ _) Hb _ _ Hx) as Hbx. unfold is_byte in Hbx.
  apply Z.div_small. split; [lia|]. rewrite <-(take_drop_middle b _ x Hx), from_le_bytes_app in Hlt.
  cbn [from_le_bytes] in Hlt. assert (Hl : len (take (Z.to_nat (len b - 1)) b) = len b - 1)
    by (unfold len in *; rewrite length_take; lia).
  pose proof (from_le_bytes_bound (take (Z.to_nat (len b - 1)) b) (Forall_take _ _ _ Hb)) as [H1 _].
  assert (Hd : Forall is_byte (drop (S (Z.to_nat (len b - 1))) b)) by (by apply Forall_drop).
  pose proof (from_le_bytes_bound _ Hd) as [H2 _]. rewrite Hl in Hlt.
  assert (Hn8 : n = 8 * (len b - 1) + n mod 8).
  { unfold nonce_byte_len, checked.div_ceil, checked.checked_div, checked.is_multiple_of in Hlen. cbn [Z.eqb] in Hlen.
    destruct (checked_add _ _) as [k|] eqn:Hk; [|done]. apply checked_u_Some in Hk as [_ ->]. injection Hlen as Hlen.
    destruct (Z.eqb_spec (n mod 8) 0); [done|]. div_lia. }
  rewrite Hn8 in Hlt at 1. rewrite Z.pow_add_r in Hlt by div_lia. nia.
Qed.

(** C22: Whatever the prover's run writes, the verifier's replay reads: for
    every validated plan and every sequence of calls the prover completes, the
    verifier's adapter over the finished stream accepts the same calls (without
    the prover's counters), gets the same challenges and the same fold-response
    counters, exhausts the plan, and leaves its transcript in the state related
    to the prover's; and the stream passes the canonical-form check from its raw
    bytes. *)
Theorem grinding_replay_complete {F Tp Tv} `{BuildMode} `{Transcript F Tp, Transcript F Tv, TranscriptChallengePreview Tp}
    (R : Tp -> Tv -> Prop) {sim : TranscriptSim F Tp Tv R} p tp tv (ops : list (op F)) bs s tp' :
  valid_plan p -> Forall op_typed ops -> R tp tv ->
  prover_run p tp ops = Ok (bs, s, tp') ->
  (exists tv', verifier_run p s tv (map erase ops) = Ok (bs, tv') /\ R tp' tv') /\
  from_bytes (as_bytes s) (bit_len s) = Ok s.
Proof.
  intros Hp Hty Hr Hrun. destruct (writer_new p Hp) as (w & Hw & Hok & Hcur & Hblen).
  unfold prover_run, prover_new in Hrun. rewrite Hw in Hrun. cbn [obind] in Hrun.
  destruct (steps prover_step _ ops) as [[bs1 g]|e|] eqn:Hst; cbn [obind] in Hrun; [|done..].
  destruct (prover_finish g) as [s1|e|] eqn:Hf; cbn [obind] in Hrun; [|done..]. injection Hrun as <- <- <-.
  destruct (prover_steps_extend R p _ tv ops bs1 g _ Hst Hty Hok Hr) as (es & Hok' & Hex & Hfollow).
  unfold prover_finish, Writer.finish in Hf. destruct (StreamCursor.is_finished _ _) eqn:Hfin; [|done]. injection Hf as <-.
  rewrite (ah_plan _ _ _ (wo_ahead _ _ _ Hok')) in Hfin.
  destruct (ahead_finished _ _ _ _ (wo_ahead _ _ _ Hok') Hfin) as [_ Hoff].
  destruct (valid_plan_facts p Hp) as (_ & _ & _ & Ht). destruct (byte_len_spec _ Ht) as (k & Hk & _ & Hfit).
  rewrite Hk in Hblen. injection Hblen as Hblen.
  assert (Hlen : len (Writer.w_bytes (cursor g)) = k) by (rewrite Hblen; unfold len; by rewrite (ex_len _ _ Hex)).
  split.
  - destruct (Hfollow {| stream_bytes := Writer.w_bytes (cursor g); bit_len := StreamCursor.bit_offset (Writer.w_cursor (cursor g)) |} eq_refl)
      as (tv' & Hv & Hr').
    exists tv'. split; [|done]. unfold verifier_run, verifier_new, Reader.reader. cbn [bit_len].
    rewrite Hoff, Z.eqb_refl. cbn [obind]. rewrite steps_erase. unfold reading in Hv. cbn [cursor] in Hv.
    rewrite Hcur, Hoff in Hv. rewrite Hv. cbn [obind]. unfold verifier_finish, Reader.finish.
    cbn [cursor Reader.r_cursor Reader.r_stream bit_len]. by rewrite Hfin.
  - cbn [as_bytes stream_bytes bit_len]. unfold as_bytes. cbn [stream_bytes]. rewrite Hoff.
    apply canonical_stream; [apply (wo_bytes _ _ _ Hok')|lia|by rewrite Hlen|rewrite <-Hoff; apply (wo_low _ _ _ Hok')|lia].
Qed.

(** ** What an accepted replay proves *)

Section soundness.
Context {F T : Type} `{BuildMode} `{Transcript F T}.
Variable p : GrindingPlan.

Record reader_ok (r : Reader.t) (es : list GrindingPlanEntry) : Prop := {
  ro_ahead : ahead p (Reader.r_cursor r) es;
  ro_bytes : Forall is_byte (stream_bytes (Reader.r_stream r));
  ro_room : total_nonce_bits p <= 8 * len (stream_bytes (Reader.r_stream r));
}.

(** The part of the stream that is still to be read. *)
Definition rest (r : Reader.t) : Z :=
  from_le_bytes (stream_bytes (Reader.r_stream r)) / 2 ^ StreamCursor.bit_offset (Reader.r_cursor r).

Lemma reader_entry r es s e c1 v r' :
  reader_ok r es -> StreamCursor.next (Reader.r_cursor r) s = Ok (e, c1) ->
  Reader.read_entry {| Reader.r_stream := Reader.r_stream r; Reader.r_cursor := c1 |} e = Ok (v, r') ->
  exists es1, es = e :: es1 /\ e_site e = s /\ reader_ok r' es1 /\
    unpack es (rest r) = (e, v) :: unpack es1 (rest r') /\ Reader.r_stream r' = Reader.r_stream r.
Proof.
  intros [Hah Hby Hroom] Hn Hr. destruct (ahead_next _ _ _ _ _ _ Hah Hn) as (es1 & -> & Hs & Hnar & Hoff & Hfit & Hadv).
  pose proof (ah_off _ _ _ Hah) as Ho. unfold narrow in Hnar. unfold Reader.read_entry in Hr.
  cbn [Reader.r_stream Reader.r_cursor] in Hr. rewrite Hoff in Hr. unfold as_bytes in Hr.
  rewrite nonce_read_bits_spec in Hr by (done || lia). cbn [obind] in Hr.
  destruct (StreamCursor.advance_bits _ _) as [c2|er|] eqn:Hc2; cbn [obind] in Hr; [|done..]. injection Hr as <- <-.
  destruct (Hadv c2 eq_refl) as [Hah2 Hoff2]. exists es1. split; [done|]. split; [done|]. split; [by constructor|].
  split; [|done]. cbn [unpack]. unfold rest. cbn [Reader.r_stream Reader.r_cursor]. rewrite Hoff2.
  do 2 f_equal. rewrite Z.pow_add_r, Z.div_div by lia. done.
Qed.

Lemma unpack_zero n e es x :
  e_nonce_bits e = 0 -> unpack (replicate n e ++ es) x = map (pair e) (replicate n 0) ++ unpack es x.
Proof.
  intros He. induction n as [|n IH]; [done|]. cbn [replicate app unpack map]. rewrite He. change (2 ^ 0) with 1.
  by rewrite Z.mod_1_r, Z.div_1_r, IH.
Qed.

(** A step of the verifier reads the entries its call stands for. *)
Definition consumes (g : GrindingTranscript T Reader.t) (es : list GrindingPlanEntry) (o : op F) (b : obs F)
    (g1 : GrindingTranscript T Reader.t) : Prop :=
  exists es1, reader_ok (cursor g1) es1 /\ Reader.r_stream (cursor g1) = Reader.r_stream (cursor g) /\
    forall ops bs t', accepts (unpack es1 (rest (cursor g1))) (transcript g1) ops bs t' ->
      accepts (unpack es (rest (cursor g))) (transcript g) (o :: ops) (b :: bs) t'.

Lemma consume_plain g es (o : op F) b g1 :
  grinding_op o = false -> verifier_step g o = Ok (b, g1) -> reader_ok (cursor g) es -> consumes g es o b g1.
Proof.
  intros Hop Ho Hr. assert (Hpl : plain g o = Ok (b, g1)) by (destruct o; done).
  rewrite plain_adapter in Hpl. destruct (plain (transcript g) o) as [[b1 t1]|e|] eqn:Hp1; cbn [obind] in Hpl; [|done..].
  injection Hpl as <- <-. exists es. split; [done|]. split; [done|]. intros ops bs t' Ha. by eapply acc_plain.
Qed.

Lemma consume_grind g es s b g1 :
  verifier_step (F := F) g (OGrind s) = Ok (b, g1) -> reader_ok (cursor g) es -> consumes g es (OGrind s) b g1.
Proof.
  intros Ho Hr. destruct g as [t r]. cbn [transcript cursor] in *.
  cbn [verifier_step grind_query GrindingTranscript_Grinding nc_grind_query Reader_NonceCursor] in Ho.
  unfold Reader.grind in Ho. cbn [transcript cursor] in Ho.
  destruct (StreamCursor.next_kind _ _ _) as [[e c1]|er|] eqn:Hn; cbn [obind] in Ho; [|done..].
  destruct (Reader.read_entry _ _) as [[v r1]|er|] eqn:Hre; cbn [obind] in Ho; [|done..].
  destruct (ok_or _ _) as [l|er|]; cbn [obind] in Ho; [|done..].
  destruct (grinding_predicate t _ _ _) as [[pr t1]|er|] eqn:Hpr; cbn [obind] in Ho; [|done..].
  destruct (predicate_ok _ _) eqn:Hok; cbn [obind] in Ho; [|done]. injection Ho as <- <-.
  destruct (ahead_next_kind _ _ _ _ _ _ _ (ro_ahead _ _ Hr) Hn) as [Hnext Hk].
  destruct (reader_entry _ _ _ _ _ _ _ Hr Hnext Hre) as (es1 & -> & Hs & Hr1 & Hu & Hst).
  exists es1. cbn [cursor transcript]. split; [done|]. split; [done|]. intros ops bs t' Ha. rewrite Hu. by eapply acc_grind.
Qed.

Lemma consume_response g es s counter b g1 :
  verifier_step (F := F) g (OResponse s counter) = Ok (b, g1) -> reader_ok (cursor g) es ->
  consumes g es (OResponse s counter) b g1.
Proof.
  intros Ho Hr. destruct g as [t r]. cbn [transcript cursor] in *.
  cbn [verifier_step] in Ho. unfold read_fold_response, Reader.read_fold_response in Ho. cbn [transcript cursor] in Ho.
  destruct (StreamCursor.next_kind _ _ _) as [[e c1]|er|] eqn:Hn; cbn [obind] in Ho; [|done..].
  destruct (Reader.read_entry _ _) as [[v r1]|er|] eqn:Hre; cbn [obind] in Ho; [|done..]. injection Ho as <- <-.
  destruct (ahead_next_kind _ _ _ _ _ _ _ (ro_ahead _ _ Hr) Hn) as [Hnext Hk].
  destruct (reader_entry _ _ _ _ _ _ _ Hr Hnext Hre) as (es1 & -> & Hs & Hr1 & Hu & Hst).
  exists es1. cbn [cursor transcript]. split; [done|]. split; [done|]. intros ops bs t' Ha. rewrite Hu. by eapply acc_response.
Qed.

Lemma consume_fold g es level group n b g1 :
  verifier_step (F := F) g (OFold level group n) = Ok (b, g1) -> 0 <= n -> reader_ok (cursor g) es ->
  consumes g es (OFold level group n) b g1.
Proof.
  intros Ho Ht Hr. destruct g as [t r]. cbn [transcript cursor] in *.
  cbn [verifier_step record_fold_challenges GrindingTranscript_Grinding nc_record_fold_challenges Reader_NonceCursor] in Ho.
  cbn [transcript cursor] in Ho.
  destruct (StreamCursor.consume_fold_group _ _ _ _) as [c1|er|] eqn:Hc; cbn [obind] in Ho; [|done..]. injection Ho as <- <-.
  destruct (ahead_fold _ _ _ _ _ _ _ (ro_ahead _ _ Hr) Ht Hc) as (e & es1 & -> & Hs & Hg & Hnb & Hah & Hoff).
  destruct Hr as [_ Hby Hroom]. exists es1. cbn [cursor transcript]. split; [by constructor|]. split; [done|].
  intros ops bs t' Ha. rewrite unpack_zero by done.
  eapply acc_fold; [done..| |]; [unfold len; rewrite length_replicate; lia|].
  unfold rest in *. cbn [Reader.r_stream Reader.r_cursor] in Ha. by rewrite Hoff in Ha.
Qed.

Lemma verifier_steps_accept g (ops : list (op F)) bs g' es :
  steps verifier_step g ops = Ok (bs, g') -> Forall op_typed ops -> reader_ok (cursor g) es ->
  exists es', reader_ok (cursor g') es' /\ Reader.r_stream (cursor g') = Reader.r_stream (cursor g) /\
    (es' = [] -> accepts (unpack es (rest (cursor g))) (transcript g) ops bs (transcript g')).
Proof.
  revert g bs es; induction ops as [|o ops IH]; intros g bs es Hs Hty Hr; cbn [steps] in Hs.
  { injection Hs as <- <-. exists es. split; [done|]. split; [done|]. intros ->. constructor. }
  apply Forall_cons_1 in Hty as [Ht Hty]. destruct (verifier_step g o) as [[b g1]|e|] eqn:Ho; cbn [obind] in Hs; [|done..].
  destruct (steps verifier_step g1 ops) as [[bs1 g2]|e|] eqn:Hss; cbn [obind] in Hs; [|done..]. injection Hs as <- <-.
  assert (Hc : consumes g es o b g1).
  { destruct o; cbn [op_typed] in Ht;
      [by apply consume_grind|by apply consume_response|by apply consume_fold|by apply consume_plain..]. }
  destruct Hc as (es1 & Hr1 & Hst & Hacc). destruct (IH g1 bs1 es1 Hss Hty Hr1) as (es' & Hr' & Hst' & Hrest).
  exists es'. split; [done|]. split; [congruence|]. intros He. by apply Hacc, Hrest.
Qed.
End soundness.

(** C23: A replay the verifier accepts is a replay of the plan: with the nonces
    unpacked from the proof's bytes, low bits first, every logical query of the
    plan is consumed exactly once and in plan order, each proof-of-work query
    absorbs its nonce into the live transcript and meets its target there before
    the challenge that follows is drawn, the fold responses are the unpacked
    nonces, and nothing is left over. *)
Theorem grinding_replay_sound {F T} `{BuildMode} `{Transcript F T} p b n s (t : T) (ops : list (op F)) bs t' :
  valid_plan p -> Forall op_typed ops -> Forall is_byte b -> 0 <= n -> from_bytes b n = Ok s ->
  verifier_run p s t ops = Ok (bs, t') ->
  accepts (unpack (expand (runs p)) (from_le_bytes b)) t ops bs t' /\ n = total_nonce_bits p.
Proof.
  intros Hp Hty Hb Hn Hs Hrun. destruct (valid_plan_facts p Hp) as (_ & _ & _ & Ht).
  unfold verifier_run, verifier_new, Reader.reader in Hrun.
  destruct (Z.eqb_spec (bit_len s) (total_nonce_bits p)) as [Hbl|]; cbn [obind] in Hrun; [|done].
  assert (Hsb : stream_bytes s = b /\ bit_len s = n /\ nonce_byte_len n = Ok (len b)).
  { unfold from_bytes in Hs. destruct (nonce_byte_len n) as [k|er|]; cbn [obind] in Hs; [|done..].
    destruct (Z.eqb_spec (len b) k) as [Hk0|]; cbn [negb] in Hs; [|done]. rewrite Hk0.
    destruct (last_byte b); [destruct (_ && _)%bool; [done|]|]; injection Hs as <-; done. }
  destruct Hsb as (Hsb & Hsn & Hbn). rewrite <-Hsn, Hbl in Hbn. destruct (byte_len_spec _ Ht) as (k & Hk & _ & Hfit).
  rewrite Hk in Hbn. injection Hbn as ->.
  destruct (steps verifier_step _ ops) as [[bs1 g]|e|] eqn:Hst; cbn [obind] in Hrun; [|done..].
  destruct (verifier_finish g) as [[]|e|] eqn:Hf; cbn [obind] in Hrun; [|done..]. injection Hrun as <- <-.
  destruct (verifier_steps_accept p _ ops bs1 g (expand (runs p)) Hst Hty) as (es & Hr & Hstr & Hacc).
  { constructor; cbn [cursor Reader.r_cursor Reader.r_stream]; [by apply ahead_new|by rewrite Hsb|rewrite Hsb; lia]. }
  unfold verifier_finish, Reader.finish in Hf. destruct (StreamCursor.is_finished _ _) eqn:Hfin; [|done].
  destruct (ahead_finished _ _ _ _ (ro_ahead _ _ _ Hr) Hfin) as [-> _]. split; [|congruence].
  specialize (Hacc eq_refl). cbn [cursor transcript] in Hacc. unfold rest in Hacc.
  cbn [Reader.r_stream Reader.r_cursor StreamCursor.new StreamCursor.bit_offset] in Hacc.
  by rewrite Z.pow_0_r, Z.div_1_r, Hsb in Hacc.
Qed.

(** ** Progress of the prover's search *)

#[export] Instance AkitaTranscript_Preview {S P V} `{Spongefish S P V} : TranscriptChallengePreview (AkitaTranscript P V) :=
  AkitaTranscript.preview_challenge_block.

Lemma pow_entry p e :
  valid_plan p -> e ∈ expand (runs p) -> Site.kind (e_site e) = ProofOfWork ->
  0 <= e_grind_bits e <= 25 /\
  e_nonce_bits e = (if e_grind_bits e =? 0 then 0 else e_grind_bits e + GRINDING_NONCE_SLACK_BITS).
Proof.
  intros (rs & c & Hc & Ht & Hn) He Hk. pose proof (plan_new_spec_aux c rs Hc Ht) as Hs. rewrite Hn in Hs.
  destruct Hs as (_ & Ho & _ & -> & _). cbn [runs] in He. clear Hn.
  induction Ht as [|r rs Hr Ht IH]; [by apply elem_of_nil in He|].
  apply Forall_cons_1 in Ho as [Hor Ho]. rewrite expand_cons in He. apply elem_of_app in He as [He|He]; [|by apply IH].
  apply elem_of_replicate in He as [-> _]. cbn [entry_of e_site e_grind_bits e_nonce_bits] in *.
  destruct (run_ok_widths c r Hc Hr Hor) as (_ & _ & Hg). split; [lia|]. destruct Hor as [_ Hor].
  unfold Run.kind in Hor. rewrite Hk in Hor. apply Hor.
Qed.

Lemma next_complete c e es :
  position_ok c -> remaining c = e :: es -> exists c', PlanCursor.next c = Some (e, c').
Proof.
  intros Hp Hr. destruct (PlanCursor.next c) as [[e' c']|] eqn:Hn.
  - destruct (next_spec _ _ _ Hp Hn) as [Hr' _]. rewrite Hr in Hr'. injection Hr' as -> _. by exists c'.
  - exfalso. unfold PlanCursor.next in Hn. destruct (index _ _) as [r|] eqn:Hi; [by destruct (_ =? _)|].
    unfold remaining in Hr. rewrite (drop_ge (runs _)) in Hr; [change (expand []) with (@nil GrindingPlanEntry) in Hr; by rewrite drop_nil in Hr|].
    unfold index in Hi. pose proof (pos_index _ Hp). destruct (Z.leb_spec 0 (PlanCursor.run_index c)); [|lia].
    by apply lookup_ge_None_1 in Hi.
Qed.

Lemma writer_progress `{BuildMode} p w e es :
  valid_plan p -> writer_ok p w (e :: es) ->
  exists c1, StreamCursor.next (Writer.w_cursor w) (e_site e) = Ok (e, c1) /\
    forall v, 0 <= v < 2 ^ e_nonce_bits e -> exists w',
      Writer.write_entry {| Writer.w_bytes := Writer.w_bytes w; Writer.w_cursor := c1 |} e v = Ok w'.
Proof.
  intros Hp [Hah Hby Hroom Hlow]. destruct (valid_plan_facts p Hp) as (_ & _ & _ & Ht).
  destruct (next_complete _ e es (ah_pos _ _ _ Hah) (ah_rest _ _ _ Hah)) as [pc Hn].
  assert (Hnext : StreamCursor.next (Writer.w_cursor w) (e_site e) = Ok (e, StreamCursor.Build_t pc (StreamCursor.bit_offset (Writer.w_cursor w)))).
  { unfold StreamCursor.next. rewrite Hn. cbn [ok_or obind]. by rewrite bool_decide_eq_true_2. }
  eexists. split; [exact Hnext|]. intros v Hv.
  destruct (ahead_next _ _ _ _ _ _ Hah Hnext) as (es1 & _ & _ & Hnar & Hoff & Hfit & _).
  pose proof (ah_off _ _ _ Hah) as Ho. unfold narrow in Hnar. unfold Writer.write_entry.
  assert (Hvf : value_fits v (e_nonce_bits e) = Ok true).
  { unfold value_fits. destruct (Z.eqb_spec (e_nonce_bits e) 32); [done|]. unfold shl. rewrite shift_amount_in by lia.
    cbn [obind]. unfold uwrap. rewrite Z.shiftl_1_l. assert (2 ^ e_nonce_bits e < 2 ^ 32) by (apply Z.pow_lt_mono_r; lia).
    rewrite Z.mod_small by lia. by rewrite (proj2 (Z.ltb_lt v _)) by lia. }
  rewrite Hvf. cbn [obind negb Writer.w_bytes Writer.w_cursor StreamCursor.bit_offset].
  destruct (nonce_write_bits_spec (Writer.w_bytes w) _ (e_nonce_bits e) v Hby Ho Hnar Hv ltac:(lia) Hlow) as (b' & -> & _).
  cbn [obind]. unfold StreamCursor.advance_bits. cbn [StreamCursor.bit_offset]. unfold checked_add, usize, USIZE_BITS.
  rewrite checked_u_in by (unfold in_u; lia). cbn [ok_or obind]. by eexists.
Qed.

Section progress.
Context {F S P V : Type} `{BuildMode} `{CanonicalBytes F, !Spongefish S P V, !SpongefishLaws S P V}.

(** The live transition with nonce [c] accepts, or rejects. *)
Definition live_accepts (t : AkitaTranscript P V) (e : GrindingPlanEntry) (c : Z) (ok : bool) : Prop :=
  exists pr t', grinding_predicate (F := F) t (e_grind_bits e) (e_nonce_bits e) c = Ok (pr, t') /\
    predicate_ok (e_grind_bits e) pr = ok.

(** The search finds the least accepted nonce of the range, or none is. *)
Lemma search_cases (t : AkitaTranscript P V) ps e :
  state t = Some (ProverSt ps) -> 0 <= e_grind_bits e <= 25 ->
  e_nonce_bits e = (if e_grind_bits e =? 0 then 0 else e_grind_bits e + GRINDING_NONCE_SLACK_BITS) ->
  (exists c, search_grinding_nonce (preview t) (e_grind_bits e) (e_nonce_bits e) = Ok (Some c) /\
     0 <= c < 2 ^ e_nonce_bits e /\ live_accepts t e c true) \/
  (search_grinding_nonce (preview t) (e_grind_bits e) (e_nonce_bits e) = Ok None /\
     forall c, 0 <= c < 2 ^ e_nonce_bits e -> live_accepts t e c false).
Proof.
  intros Ht Hg Hnb. unfold search_grinding_nonce, live_accepts. rewrite Hnb. clear Hnb. unfold GRINDING_NONCE_SLACK_BITS, MAX_GRINDING_BITS.
  destruct (Z.eqb_spec (e_grind_bits e) 0) as [->|Hg0].
  { left. exists 0. split; [done|]. split; [lia|]. by exists None, t. }
  rewrite checked_u_in by (unfold in_u; lia). rewrite Z.eqb_refl.
  destruct (Z.ltb_spec 25 (e_grind_bits e)); [lia|]. destruct (Z.ltb_spec 32 (e_grind_bits e + 7)); [lia|]. cbn [orb negb].
  assert (Hlive : forall c, exists t', grinding_predicate (F := F) t (e_grind_bits e) (e_grind_bits e + 7) c
            = Ok (Some (live_block (duplex_sponge_state ps) (e_grind_bits e) (e_grind_bits e + 7) c), t')).
  { intros c. destruct (preview_is_live (F := F) t ps (e_grind_bits e) (e_grind_bits e + 7) c Ht Hg0) as [_ Hl]. exact Hl. }
  assert (Hp : 2 ^ (e_grind_bits e + 7) <= 2 ^ 32) by (apply Z.pow_le_mono_r; lia).
  pose proof (find_nonce_spec (F := F) t ps (e_grind_bits e) (e_grind_bits e + 7) (Z.to_nat (2 ^ (e_grind_bits e + 7))) 0 Ht Hg0
    ltac:(lia) ltac:(lia)) as Hf. cbv zeta in Hf. unfold preview, AkitaTranscript_Preview.
  assert (Hok : forall b, predicate_ok (e_grind_bits e) (Some b) = grinding_predicate_accepts b (e_grind_bits e)).
  { intros b. unfold predicate_ok. by rewrite (proj2 (Z.eqb_neq _ _) Hg0). }
  destruct (find_nonce _ _ _ _ 0) as [[c|]|er|]; try done.
  - left. destruct Hf as (Hc & Hacc & _). exists c. split; [done|]. split; [lia|].
    destruct (Hlive c) as [t' Ht']. eexists _, t'. split; [exact Ht'|]. by rewrite Hok.
  - right. split; [done|]. intros c Hc. destruct (Hlive c) as [t' Ht']. eexists _, t'. split; [exact Ht'|].
    rewrite Hok. apply Hf. lia.
Qed.
End progress.

(** C24: The prover's grinding makes progress: on a bound prover transcript, at
    any scheduled proof-of-work query, the call commits an accepted nonce,
    unless all [2^(bits+7)] nonces of the range are rejected; it never panics,
    never sees preview and live transition disagree, and never runs out of
    stream. *)
Theorem prover_grind_progress {F S P V} `{BuildMode} `{CanonicalBytes F, !Spongefish S P V, !SpongefishLaws S P V}
    p w e es (t : AkitaTranscript P V) ps :
  valid_plan p -> writer_ok p w (e :: es) -> e ∈ expand (runs p) -> Site.kind (e_site e) = ProofOfWork ->
  state t = Some (ProverSt ps) ->
  match Writer.grind (F := F) w t (e_site e) with
  | Ok (w', t') => writer_ok p w' es /\ exists c pr, 0 <= c < 2 ^ e_nonce_bits e /\
      grinding_predicate (F := F) t (e_grind_bits e) (e_nonce_bits e) c = Ok (pr, t') /\
      predicate_ok (e_grind_bits e) pr = true /\
      from_le_bytes (Writer.w_bytes w') =
        from_le_bytes (Writer.w_bytes w) + c * 2 ^ StreamCursor.bit_offset (Writer.w_cursor w)
  | Err er => er = InvalidInput "transcript grinding exhausted" /\
      forall c, 0 <= c < 2 ^ e_nonce_bits e -> live_accepts (F := F) t e c false
  | Panic => False
  end.
Proof.
  intros Hp Hw He Hk Ht. destruct (pow_entry p e Hp He Hk) as [Hg Hnb].
  destruct (writer_progress p w e es Hp Hw) as (c1 & Hnext & Hwrite). unfold Writer.grind, StreamCursor.next_kind.
  rewrite bool_decide_eq_true_2 by done. rewrite Hnext. cbn [obind].
  assert (Hnar : e_nonce_bits e <= 32).
  { unfold GRINDING_NONCE_SLACK_BITS in Hnb. destruct (_ =? 0); lia. }
  destruct (search_cases (F := F) t ps e Ht Hg Hnb) as [(c & -> & Hc & pr & t' & Hpr & Hok)|[-> Hno]]; cbn [obind ok_or]; [|done].
  assert (Hl : exists l, Site.proof_of_work_label (e_site e) = Some l) by (destruct (e_site e); try done; by eexists).
  destruct Hl as [l ->]. cbn [ok_or obind]. rewrite Hpr. cbn [obind]. rewrite Hok.
  destruct (Hwrite c Hc) as [w' Hw']. rewrite Hw'. cbn [obind].
  assert (Hc32 : in_u 32 c) by (split; [lia|]; assert (2 ^ e_nonce_bits e <= 2 ^ 32) by (apply Z.pow_le_mono_r; lia); lia).
  destruct (writer_entry _ _ _ _ _ _ _ _ Hw Hnext Hc32 Hw') as (es1 & [= <-] & Hw1 & _ & _ & Hval & _).
  split; [done|]. by exists c, pr.
Qed.

(** ** Witnesses *)

Section witnesses.
#[local] Instance mode : BuildMode := true.
Import toy.

Definition example_plan : GrindingPlan :=
  {| runs := example_runs; nominal_capacity_bits := 124; total_nonce_bits := 25; expanded_query_count := 7 |}.

Lemma example_valid : valid_plan example_plan.
Proof. exists example_runs, 124. split; [split; lia|]. split; [exact example_typed|]. vm_compute. reflexivity. Qed.

Definition example_ops : list (op F97.t) :=
  [OBytes [1] [5; 6]; OGrind (SumcheckRound Stage2 1 0 2); OScalar [2]; OResponse (FoldResponse 1) 77; OFold 1 0 4;
   OBlock [3]].

Definition example_prover : AkitaTranscript (list Z) (list Z) := AkitaTranscript.new_prover [1; 2] [3].
Definition example_verifier : AkitaTranscript (list Z) (list Z) := AkitaTranscript.new_verifier [1; 2] [3].

Lemma grinding_replay_complete_witness :
  match prover_run example_plan example_prover example_ops with
  | Ok (bs, s, tp') =>
      (exists tv', verifier_run example_plan s example_verifier (map erase example_ops) = Ok (bs, tv') /\ same_sponge tp' tv') /\
      from_bytes (as_bytes s) (bit_len s) = Ok s
  | _ => False
  end.
Proof.
  destruct (prover_run example_plan example_prover example_ops) as [[[bs s] tp']|e|] eqn:Hrun;
    [|vm_compute in Hrun; discriminate Hrun..].
  eapply (grinding_replay_complete (F := F97.t) same_sponge example_plan example_prover example_verifier example_ops);
    [exact example_valid|repeat (constructor; [cbn; try split; lia || exact I|]); constructor|reflexivity|exact Hrun].
Defined.

Lemma grinding_replay_sound_witness :
  match verifier_run example_plan {| stream_bytes := [28; 160; 9; 0]; bit_len := 25 |} example_verifier example_ops with
  | Ok (bs, t') =>
      accepts (unpack (expand example_runs) (from_le_bytes [28; 160; 9; 0])) example_verifier example_ops bs t' /\
      25 = total_nonce_bits example_plan
  | _ => False
  end.
Proof.
  destruct (verifier_run example_plan {| stream_bytes := [28; 160; 9; 0]; bit_len := 25 |} example_verifier example_ops)
    as [[bs t']|e|] eqn:Hrun; [|vm_compute in Hrun; discriminate Hrun..].
  eapply (grinding_replay_sound (F := F97.t) example_plan [28; 160; 9; 0] 25 _ example_verifier example_ops);
    [exact example_valid|repeat (constructor; [cbn; try split; lia || exact I|]); constructor|
     repeat (constructor; [split; lia|]); constructor|lia|reflexivity|exact Hrun].
Defined.

Definition example_entry : GrindingPlanEntry :=
  {| e_site := SumcheckRound Stage2 1 0 2; e_grind_bits := 6; e_nonce_bits := 13 |}.

Lemma prover_grind_progress_witness :
  match Writer.new example_plan with
  | Ok w =>
      match Writer.grind (F := F97.t) w example_prover (SumcheckRound Stage2 1 0 2) with
      | Ok (w', t') => writer_ok example_plan w' (tail (expand example_runs)) /\ exists c pr, 0 <= c < 2 ^ 13 /\
          grinding_predicate (F := F97.t) example_prover 6 13 c = Ok (pr, t') /\ predicate_ok 6 pr = true /\
          from_le_bytes (Writer.w_bytes w') =
            from_le_bytes (Writer.w_bytes w) + c * 2 ^ StreamCursor.bit_offset (Writer.w_cursor w)
      | Err er => er = InvalidInput "transcript grinding exhausted" /\
          forall c, 0 <= c < 2 ^ 13 -> live_accepts (F := F97.t) example_prover example_entry c false
      | Panic => False
      end
  | _ => False
  end.
Proof.
  destruct (writer_new example_plan example_valid) as (w & Hw & Hok & _). rewrite Hw.
  eapply (prover_grind_progress (F := F97.t) example_plan w example_entry (tail (expand example_runs)) example_prover);
    [exact example_valid|exact Hok|left|reflexivity|reflexivity].
Defined.
End witnesses.
