(* ===== verification/Sumcheck.v ===== *)
(** [akita-sumcheck]: round messages and proof containers with their codecs,
    the standard and equality-factored transcript drivers, and batching.

    The instance traits are type classes; state-changing methods may panic.
    [sample] is the caller's challenge sampler.  Rayon fan-out over the
    instances of a batch only chooses a schedule for disjoint mutable
    instances, so it is the sequential map here. *)

From S2P Require Import Prelude Checked Field Serialization UniPoly Transcript.
Local Open Scope field_scope.

(** * Round messages *)

Record EqFactoredUniPoly (E : Type) := { coeffs_except_constant_term : list E }.
Arguments coeffs_except_constant_term {E}. Arguments Build_EqFactoredUniPoly {E}.

Module EqFactoredUniPoly.

Section ops.
Context {E : Type} `{Field E}.

Definition from_q_coeffs (q_coeffs : list E) : EqFactoredUniPoly E :=
  {| coeffs_except_constant_term := drop 1 q_coeffs |}.

Definition degree (p : EqFactoredUniPoly E) : Z := len (coeffs_except_constant_term p).

Definition nonconstant_term_sum_at_one (p : EqFactoredUniPoly E) : E :=
  foldl (fun acc coeff => acc + coeff) 0 (coeffs_except_constant_term p).

Definition eval_nonconstant_terms (p : EqFactoredUniPoly E) (x : E) : E :=
  fst (foldl (fun '(acc, pow) coeff => (acc + coeff * pow, pow * x))
         (0, x) (coeffs_except_constant_term p)).
End ops.

End EqFactoredUniPoly.

(** * Proof containers *)

Record SumcheckProof (E : Type) := { round_polys : list (CompressedUniPoly E) }.
Arguments round_polys {E}. Arguments Build_SumcheckProof {E}.
Record EqFactoredSumcheckProof (E : Type) := { eq_round_polys : list (EqFactoredUniPoly E) }.
Arguments eq_round_polys {E}. Arguments Build_EqFactoredSumcheckProof {E}.

(** Coefficients per round; rounds and degree of [q]. *)
Definition SumcheckProofShape : Type := list Z.
Definition EqFactoredSumcheckProofShape : Type := Z * Z.

Definition uniform_sumcheck_shape (num_rounds degree : Z) : SumcheckProofShape :=
  replicate (Z.to_nat num_rounds) degree.

Section codecs.
Context {E : Type} `{Valid E, AkitaSerialize E, AkitaDeserialize E unit, Allocator}.

#[export] Instance EqFactoredUniPoly_Valid : Valid (EqFactoredUniPoly E) :=
  fun p => check (coeffs_except_constant_term p).
#[export] Instance EqFactoredUniPoly_Serialize : AkitaSerialize (EqFactoredUniPoly E) := {
  serialize_with_mode p c := write_items (coeffs_except_constant_term p) c;
  serialized_size p c := items_size (coeffs_except_constant_term p) c;
}.
#[export] Instance EqFactoredUniPoly_Deserialize : AkitaDeserialize (EqFactoredUniPoly E) Z :=
  fun input c v degree =>
    if negb (reserve_exact degree)
    then Err (InvalidData "eq-factored polynomial allocation failed")
    else
      let* (cs, rest) := read_items c v (replicate (Z.to_nat degree) tt) input in
      let* out := checked_out v {| coeffs_except_constant_term := cs |} in
      Ok (out, rest).

#[export] Instance SumcheckProof_Valid : Valid (SumcheckProof E) := fun p => check (round_polys p).
#[export] Instance SumcheckProof_Serialize : AkitaSerialize (SumcheckProof E) := {
  serialize_with_mode p c := write_items (round_polys p) c;
  serialized_size p c := items_size (round_polys p) c;
}.
#[export] Instance SumcheckProof_Deserialize
  : AkitaDeserialize (SumcheckProof E) SumcheckProofShape :=
  fun input c v ctx =>
    if negb (reserve_exact (len ctx))
    then Err (InvalidData "sumcheck proof allocation failed")
    else
      let* (ps, rest) := read_items (A := CompressedUniPoly E) c v ctx input in
      let* out := checked_out v {| round_polys := ps |} in
      Ok (out, rest).

#[export] Instance EqFactoredSumcheckProof_Valid : Valid (EqFactoredSumcheckProof E) :=
  fun p => check (eq_round_polys p).
#[export] Instance EqFactoredSumcheckProof_Serialize
  : AkitaSerialize (EqFactoredSumcheckProof E) := {
  serialize_with_mode p c := write_items (eq_round_polys p) c;
  serialized_size p c := items_size (eq_round_polys p) c;
}.
#[export] Instance EqFactoredSumcheckProof_Deserialize
  : AkitaDeserialize (EqFactoredSumcheckProof E) EqFactoredSumcheckProofShape :=
  fun input c v '(num_rounds, degree) =>
    if negb (reserve_exact num_rounds)
    then Err (InvalidData "eq-factored sumcheck proof allocation failed")
    else
      let* (ps, rest) := read_items (A := EqFactoredUniPoly E) c v
                           (replicate (Z.to_nat num_rounds) degree) input in
      let* out := checked_out v {| eq_round_polys := ps |} in
      Ok (out, rest).
End codecs.

(** * Instance traits *)

Class SumcheckInstanceProver (E P : Type) := {
  p_num_rounds : P -> Z;
  p_degree_bound : P -> Z;
  p_input_claim : P -> E;
  compute_round_univariate : P -> Z -> E -> result (UniPoly E * P);
  p_ingest_challenge : P -> Z -> E -> result P;
  p_finalize : P -> P;
}.

Class SumcheckInstanceVerifier (E V : Type) := {
  v_num_rounds : V -> Z;
  v_degree_bound : V -> Z;
  v_input_claim : V -> E;
  expected_output_claim : V -> list E -> result E;
}.

Class EqFactoredSumcheckInstanceProver (E P : Type) := {
  qp_num_rounds : P -> Z;
  qp_degree_bound : P -> Z;
  qp_input_claim : P -> E;
  qp_current_tau : P -> result E;
  compute_round_eq_factored : P -> Z -> result (EqFactoredUniPoly E * P);
  qp_ingest_challenge : P -> Z -> E -> result P;
  qp_finalize : P -> P;
}.

Class EqFactoredSumcheckRoundState (E RS : Type) := {
  rs_current_tau : RS -> result E;
  rs_ingest_challenge : RS -> Z -> E -> result RS;
}.

Class EqFactoredSumcheckInstanceVerifier (E V RS : Type) := {
  qv_num_rounds : V -> Z;
  qv_degree_bound : V -> Z;
  qv_input_claim : V -> E;
  start_round_state : V -> result RS;
  qv_expected_output_claim : V -> RS -> list E -> result E;
}.

Definition degree_msg : string := "sumcheck round poly degree exceeds bound".

(** * Drivers *)

Section drivers.
Context {F E T : Type} `{Field E, AkitaSerialize E, Transcript F T}.
Variable sample : T -> result (E * T).

(** One verifier round: degree check, absorb, sample, claim update. *)
Definition verify_round (degree_bound : Z) : E * list E * T -> CompressedUniPoly E ->
    result (E * list E * T) := fun '(claim, r, t) poly =>
  if (degree_bound <? CompressedUniPoly.degree poly)%Z then Err (InvalidInput degree_msg)
  else
    let* t := append_serde (F := F) t labels.ABSORB_SUMCHECK_ROUND poly in
    let* (r_i, t) := sample t in
    Ok (CompressedUniPoly.eval_from_hint poly claim r_i, r ++ [r_i], t).

(** [SumcheckProof::verify] *)
Definition SumcheckProof_verify (proof : SumcheckProof E) (claim : E)
    (num_rounds degree_bound : Z) (t : T) : result (E * list E * T) :=
  if negb (len (round_polys proof) =? num_rounds)%Z
  then Err (InvalidSize num_rounds (len (round_polys proof)))
  else ofold (verify_round degree_bound) (round_polys proof) (claim, [], t).

(** ** Standard prover and verifier *)

Definition prove_round {P} `{SumcheckInstanceProver E P, BuildMode} (degree_bound : Z)
  : P * T * E * list (CompressedUniPoly E) * list E -> Z ->
    result (P * T * E * list (CompressedUniPoly E) * list E) :=
  fun '(inst, t, claim, polys, r) round =>
    let* (g, inst) := compute_round_univariate inst round claim in
    let round_sum := UniPoly.evaluate g 0 + UniPoly.evaluate g 1 in
    let* _ := debug_assert (feqb round_sum claim) in
    let compressed := UniPoly.compress g in
    if (degree_bound <? CompressedUniPoly.degree compressed)%Z then Err (InvalidInput degree_msg)
    else
      let* t := append_serde (F := F) t labels.ABSORB_SUMCHECK_ROUND compressed in
      let* (r_i, t) := sample t in
      let claim := CompressedUniPoly.eval_from_hint compressed claim r_i in
      let* inst := p_ingest_challenge inst round r_i in
      Ok (inst, t, claim, polys ++ [compressed], r ++ [r_i]).

Definition prove {P} `{SumcheckInstanceProver E P, BuildMode} (inst : P) (t : T)
  : result (SumcheckProof E * list E * E * P * T) :=
  let num_rounds := p_num_rounds inst in
  let claim := p_input_claim inst in
  let* t := append_serde (F := F) t labels.ABSORB_SUMCHECK_CLAIM claim in
  let degree_bound := p_degree_bound inst in
  let* (inst, t, claim, polys, r) :=
    ofold (prove_round degree_bound) (range num_rounds) (inst, t, claim, [], []) in
  Ok ({| round_polys := polys |}, r, claim, p_finalize inst, t).

Definition check_sumcheck_output_claim {V} `{SumcheckInstanceVerifier E V}
    (final_claim : E) (verifier : V) (challenges : list E) : result unit :=
  let* expected := expected_output_claim verifier challenges in
  if negb (feqb final_claim expected) then Err InvalidProof else Ok tt.

Definition verify {V} `{SumcheckInstanceVerifier E V} (v : V) (proof : SumcheckProof E) (t : T)
  : result (list E * T) :=
  let num_rounds := v_num_rounds v in
  if negb (len (round_polys proof) =? num_rounds)%Z
  then Err (InvalidSize num_rounds (len (round_polys proof)))
  else
    let claim := v_input_claim v in
    let* t := append_serde (F := F) t labels.ABSORB_SUMCHECK_CLAIM claim in
    let* (claim, challenges, t) :=
      ofold (verify_round (v_degree_bound v)) (round_polys proof) (claim, [], t) in
    let* _ := check_sumcheck_output_claim claim v challenges in
    Ok (challenges, t).

(** ** Equality-factored prover and verifier *)

Definition advance_eq_factored_claim (claim tau : E) (poly : EqFactoredUniPoly E) (r_round : E) : E :=
  let q_0 := claim - tau * EqFactoredUniPoly.nonconstant_term_sum_at_one poly in
  q_0 + EqFactoredUniPoly.eval_nonconstant_terms poly r_round.

Definition eq_prove_round {P} `{EqFactoredSumcheckInstanceProver E P} (degree_bound : Z)
  : P * T * E * list (EqFactoredUniPoly E) * list E -> Z ->
    result (P * T * E * list (EqFactoredUniPoly E) * list E) :=
  fun '(inst, t, claim, polys, r) round =>
    let* (poly, inst) := compute_round_eq_factored inst round in
    if (degree_bound <? EqFactoredUniPoly.degree poly)%Z then Err (InvalidInput degree_msg)
    else
      let* t := append_serde (F := F) t labels.ABSORB_SUMCHECK_ROUND poly in
      let* (r_i, t) := sample t in
      let* tau := qp_current_tau inst in
      let claim := advance_eq_factored_claim claim tau poly r_i in
      let* inst := qp_ingest_challenge inst round r_i in
      Ok (inst, t, claim, polys ++ [poly], r ++ [r_i]).

Definition eq_prove {P} `{EqFactoredSumcheckInstanceProver E P} (inst : P) (t : T)
  : result (EqFactoredSumcheckProof E * list E * E * P * T) :=
  let num_rounds := qp_num_rounds inst in
  let degree_bound := qp_degree_bound inst in
  let claim := qp_input_claim inst in
  let* t := append_serde (F := F) t labels.ABSORB_SUMCHECK_CLAIM claim in
  let* (inst, t, claim, polys, r) :=
    ofold (eq_prove_round degree_bound) (range num_rounds) (inst, t, claim, [], []) in
  Ok ({| eq_round_polys := polys |}, r, claim, qp_finalize inst, t).

Definition eq_verify_round {RS} `{EqFactoredSumcheckRoundState E RS} (degree_bound : Z)
  : E * list E * RS * T -> Z * EqFactoredUniPoly E -> result (E * list E * RS * T) :=
  fun '(claim, r, rs, t) '(round, poly) =>
    if (degree_bound <? EqFactoredUniPoly.degree poly)%Z then Err (InvalidInput degree_msg)
    else
      let* t := append_serde (F := F) t labels.ABSORB_SUMCHECK_ROUND poly in
      let* (r_i, t) := sample t in
      let* tau := rs_current_tau rs in
      let claim := advance_eq_factored_claim claim tau poly r_i in
      let* rs := rs_ingest_challenge rs round r_i in
      Ok (claim, r ++ [r_i], rs, t).

Definition eq_verify {V RS} `{EqFactoredSumcheckInstanceVerifier E V RS,
    EqFactoredSumcheckRoundState E RS} (v : V) (proof : EqFactoredSumcheckProof E) (t : T)
  : result (list E * T) :=
  let polys := eq_round_polys proof in
  let num_rounds := qv_num_rounds v in
  if negb (len polys =? num_rounds)%Z then Err (InvalidSize num_rounds (len polys))
  else
    let claim := qv_input_claim v in
    let* rs := start_round_state v in
    let* t := append_serde (F := F) t labels.ABSORB_SUMCHECK_CLAIM claim in
    let* (claim, challenges, rs, t) :=
      ofold (eq_verify_round (qv_degree_bound v)) (zip (range (len polys)) polys)
        (claim, [], rs, t) in
    let* expected := qv_expected_output_claim v rs challenges in
    if negb (feqb claim expected) then Err InvalidProof else Ok (challenges, t).
End drivers.

(** * Lawful codecs of the proof containers *)

Section lawful.
Context {E : Type} `{LawfulCodec E unit, Allocator}.

#[export, refine] Instance EqFactoredUniPoly_Lawful : LawfulCodec (EqFactoredUniPoly E) Z := {
  codec_wf v degree p :=
    reserve_exact degree = true /\
    length (coeffs_except_constant_term p) = Z.to_nat degree /\
    Forall (codec_wf v tt) (coeffs_except_constant_term p) /\
    (v = ValidateYes -> check p = Ok tt);
}.
Proof.
  - intros v n [l] c (_ & Hl & Hi & _). cbn [coeffs_except_constant_term] in *.
    apply (write_items_total v (replicate (length l) tt)). by apply Forall2_unit_replicate.
  - intros v n [l] c bs rest (Ha & Hl & Hi & Hc) Hs.
    unfold deserialize_with_mode, EqFactoredUniPoly_Deserialize. rewrite Ha. cbn [negb].
    apply (headerless_roundtrip Build_EqFactoredUniPoly);
      [by apply Forall2_replicate_l|done..].
  - intros n a c input rest Hb Hd.
    unfold deserialize_with_mode, EqFactoredUniPoly_Deserialize in Hd.
    destruct (reserve_exact n) eqn:Ha; cbn [negb] in Hd; [|done].
    apply (headerless_canonical Build_EqFactoredUniPoly) in Hd as (l & -> & Hw & Hc & Hbs);
      [|done].
    by apply Forall2_replicate_l in Hw as [Hl Hw].
Defined.

#[export, refine] Instance SumcheckProof_Lawful
  : LawfulCodec (SumcheckProof E) SumcheckProofShape := {
  codec_wf v ctx p :=
    reserve_exact (len ctx) = true /\ Forall2 (codec_wf v) ctx (round_polys p) /\
    (v = ValidateYes -> check p = Ok tt);
}.
Proof.
  - intros v ctx [l] c (_ & Hi & _). by apply (write_items_total v ctx).
  - intros v ctx [l] c bs rest (Ha & Hi & Hc) Hs.
    unfold deserialize_with_mode, SumcheckProof_Deserialize. rewrite Ha. cbn [negb].
    by apply (headerless_roundtrip Build_SumcheckProof).
  - intros ctx a c input rest Hb Hd.
    unfold deserialize_with_mode, SumcheckProof_Deserialize in Hd.
    destruct (reserve_exact (len ctx)) eqn:Ha; cbn [negb] in Hd; [|done].
    by apply (headerless_canonical Build_SumcheckProof) in Hd as (l & -> & Hw & Hc & Hbs).
Defined.

#[export, refine] Instance EqFactoredSumcheckProof_Lawful
  : LawfulCodec (EqFactoredSumcheckProof E) EqFactoredSumcheckProofShape := {
  codec_wf v ctx p :=
    reserve_exact (fst ctx) = true /\ length (eq_round_polys p) = Z.to_nat (fst ctx) /\
    Forall (codec_wf v (snd ctx)) (eq_round_polys p) /\
    (v = ValidateYes -> check p = Ok tt);
}.
Proof.
  - intros v [n d] [l] c (_ & Hl & Hi & _).
    apply (write_items_total v (replicate (Z.to_nat n) d)). by apply Forall2_replicate_l.
  - intros v [n d] [l] c bs rest (Ha & Hl & Hi & Hc) Hs. cbn [fst snd] in *.
    unfold deserialize_with_mode, EqFactoredSumcheckProof_Deserialize. rewrite Ha. cbn [negb].
    apply (headerless_roundtrip Build_EqFactoredSumcheckProof);
      [by apply Forall2_replicate_l|done..].
  - intros [n d] a c input rest Hb Hd.
    unfold deserialize_with_mode, EqFactoredSumcheckProof_Deserialize in Hd.
    destruct (reserve_exact n) eqn:Ha; cbn [negb] in Hd; [|done].
    apply (headerless_canonical Build_EqFactoredSumcheckProof) in Hd as (l & -> & Hw & Hc & Hbs);
      [|done].
    by apply Forall2_replicate_l in Hw as [Hl Hw].
Defined.

(** both proof containers are headerless on the wire; decoding under the
    shape the proof was built with returns the proof and leaves the following
    bytes, and every accepted byte string is the encoding of its proof.  A
    proof fits a shape when it has one round polynomial per entry with that
    many coefficients. *)
Theorem sumcheck_proof_codecs (proof : SumcheckProof E) shape (eq_proof : EqFactoredSumcheckProof E)
    eq_shape bytes eq_bytes rest :
  codec_wf ValidateYes shape proof -> codec_wf ValidateYes eq_shape eq_proof ->
  serialize_compressed proof = Ok bytes -> serialize_compressed eq_proof = Ok eq_bytes ->
  deserialize_with_mode (bytes ++ rest) CompressYes ValidateYes shape = Ok (proof, rest) /\
  deserialize_with_mode (eq_bytes ++ rest) CompressYes ValidateYes eq_shape
    = Ok (eq_proof, rest) /\
  (forall input rest' (proof' : SumcheckProof E), Forall is_byte input ->
     deserialize_with_mode input CompressYes ValidateYes shape = Ok (proof', rest') ->
     map (fun p => len (coeffs_except_linear_term p)) (round_polys proof')
       = map (fun n => Z.of_nat (Z.to_nat n)) shape /\
     exists bytes', serialize_compressed proof' = Ok bytes' /\ input = bytes' ++ rest').
Proof.
  intros Hw Hqw Hs Hqs. split; [by apply (codec_roundtrip ValidateYes)|].
  split; [by apply (codec_roundtrip ValidateYes)|].
  intros input rest' proof' Hb Hd.
  apply codec_canonical in Hd as ((_ & Hsh & _) & _ & Hx); [|done]. split; [|done].
  clear Hw Hx. induction Hsh as [|n p ctx ps Hp _ IH]; [done|]. cbn [map]. rewrite IH.
  f_equal. destruct Hp as (_ & Hl & _). unfold len. by rewrite Hl.
Qed.
End lawful.

(** * Completeness: the verifier follows the prover *)

Section completeness.
Context {F E T1 T2 : Type} `{Field E, AkitaSerialize E, Transcript F T1, !Transcript F T2}.
Context (R : T1 -> T2 -> Prop) `{!TranscriptSim F T1 T2 R}.
Variable sample1 : T1 -> result (E * T1).
Variable sample2 : T2 -> result (E * T2).
Hypothesis sample_sim : forall t1 t2, R t1 t2 -> rel_out R (sample1 t1) (sample2 t2).

Lemma sim_serde_Ok {A} `{AkitaSerialize A} t1 t2 l (x : A) t1' :
  R t1 t2 -> append_serde (F := F) t1 l x = Ok t1' ->
  exists t2', append_serde (F := F) t2 l x = Ok t2' /\ R t1' t2'.
Proof.
  intros Hr Ha. pose proof (sim_append_serde (F := F) t1 t2 l x Hr) as Hs. rewrite Ha in Hs.
  destruct (append_serde t2 l x) as [t2'|e|]; try done. by exists t2'.
Qed.

Lemma sample_Ok t1 t2 r t1' :
  R t1 t2 -> sample1 t1 = Ok (r, t1') -> exists t2', sample2 t2 = Ok (r, t2') /\ R t1' t2'.
Proof.
  intros Hr Ha. pose proof (sample_sim t1 t2 Hr) as Hs. rewrite Ha in Hs.
  destruct (sample2 t2) as [[r2 t2']|e|]; try done. destruct Hs as [<- Hs]. by exists t2'.
Qed.

(** One prover round is followed by one verifier round on the message sent. *)
Lemma round_follows {P} `{SumcheckInstanceProver E P, BuildMode} bound inst t1 claim polys r
    round inst' t1' claim' polys' r' t2 :
  prove_round (F := F) sample1 bound (inst, t1, claim, polys, r) round
    = Ok (inst', t1', claim', polys', r') -> R t1 t2 ->
  exists poly t2', polys' = polys ++ [poly] /\ R t1' t2' /\
    verify_round (F := F) sample2 bound (claim, r, t2) poly = Ok (claim', r', t2').
Proof.
  intros Hp Hr. unfold prove_round in Hp. obind_inv Hp. destruct a as [g inst1].
  cbn [obind] in Hp. obind_inv Hp.
  destruct (bound <? CompressedUniPoly.degree (UniPoly.compress g))%Z eqn:Hdeg; [done|].
  obind_inv Hp. obind_inv Hp. destruct a1 as [r_i t1'']. cbn [obind] in Hp.
  obind_inv Hp. injection Hp as -> -> <- <- <-.
  destruct (sim_serde_Ok _ t2 _ _ _ Hr E2) as (t2a & Ha & Hra).
  destruct (sample_Ok _ _ _ _ Hra E3) as (t2b & Hb & Hrb).
  exists (UniPoly.compress g), t2b. split; [done|]. split; [done|].
  unfold verify_round. rewrite Hdeg, Ha. cbn [obind]. rewrite Hb. done.
Qed.

Lemma rounds_follow {P} `{SumcheckInstanceProver E P, BuildMode} bound rounds inst t1 claim polys r
    inst' t1' claim' polys' r' t2 :
  ofold (prove_round (F := F) sample1 bound) rounds (inst, t1, claim, polys, r)
    = Ok (inst', t1', claim', polys', r') -> R t1 t2 ->
  exists sent t2', polys' = polys ++ sent /\ length sent = length rounds /\ R t1' t2' /\
    ofold (verify_round (F := F) sample2 bound) sent (claim, r, t2) = Ok (claim', r', t2').
Proof.
  revert inst t1 claim polys r t2; induction rounds as [|round rounds IH];
    intros inst t1 claim polys r t2 Hp Hr; cbn [ofold] in Hp.
  - injection Hp as <- <- <- <- <-. exists [], t2. by rewrite app_nil_r.
  - obind_inv Hp. destruct a as [[[[inst1 t1a] claim1] polys1] r1].
    destruct (round_follows _ _ _ _ _ _ _ _ _ _ _ _ t2 E0 Hr) as (poly & t2a & -> & Hra & Hv).
    destruct (IH _ _ _ _ _ t2a Hp Hra) as (sent & t2' & -> & Hl & Hrb & Hv').
    exists (poly :: sent), t2'. rewrite <-app_assoc. split; [done|].
    split; [cbn [length]; by rewrite Hl|]. split; [done|]. cbn [ofold]. by rewrite Hv.
Qed.

(** C5: completeness of the standard sumcheck: whenever the prover produces a
    proof, the verifier with the same rounds, degree bound and claim, running
    on a transcript in step with the prover's, replays exactly the prover's
    challenges and final claim; it returns those challenges when the oracle
    evaluation equals the final claim and [InvalidProof] when it does not. *)
Theorem sumcheck_completeness {P V} `{SumcheckInstanceProver E P, BuildMode,
    SumcheckInstanceVerifier E V} `{!FieldLaws E} (inst : P) (v : V) t1 t2 proof r claim inst' t1' :
  prove (F := F) sample1 inst t1 = Ok (proof, r, claim, inst', t1') -> R t1 t2 ->
  v_num_rounds v = p_num_rounds inst -> v_degree_bound v = p_degree_bound inst ->
  v_input_claim v = p_input_claim inst -> (0 <= p_num_rounds inst)%Z ->
  exists t2', R t1' t2' /\
    verify (F := F) sample2 v proof t2 =
      (let* expected := expected_output_claim v r in
       if bool_decide (claim = expected) then Ok (r, t2') else Err InvalidProof).
Proof.
  intros Hp Hr Hn Hd Hc Hpos. unfold prove in Hp. obind_inv Hp. obind_inv Hp.
  destruct a0 as [[[[inst1 t1a] claim1] polys] r1]. cbn [obind] in Hp.
  injection Hp as <- <- <- <- <-.
  destruct (sim_serde_Ok _ t2 _ _ _ Hr E0) as (t2a & Ha & Hra).
  destruct (rounds_follow _ _ _ _ _ _ _ _ _ _ _ _ t2a E1 Hra)
    as (sent & t2' & -> & Hl & Hrb & Hv).
  exists t2'. split; [done|]. unfold verify. cbn [round_polys app].
  rewrite length_range in Hl.
  replace (len sent =? v_num_rounds v)%Z with true
    by (symmetry; apply Z.eqb_eq; unfold len; lia).
  cbn [negb]. rewrite Hc, Ha, Hd. cbn [obind]. rewrite Hv. cbn [obind].
  unfold check_sumcheck_output_claim.
  destruct (expected_output_claim v r1) as [expected|e|]; cbn [obind]; [|done..].
  destruct (feqb claim1 expected) eqn:He; cbn [negb obind].
  - apply feqb_spec in He. by rewrite bool_decide_eq_true_2.
  - apply feqb_neq in He. by rewrite bool_decide_eq_false_2.
Qed.

(** ** Equality-factored *)

(** The prover's and the verifier's round states agree on the current
    equality coordinate and stay in agreement. *)
Class EqStatesAgree {P RS} `{EqFactoredSumcheckInstanceProver E P, EqFactoredSumcheckRoundState E RS}
    (Q : P -> RS -> Prop) : Prop := {
  agree_tau p rs : Q p rs -> qp_current_tau p = rs_current_tau rs;
  agree_compute p rs round poly p' :
    Q p rs -> compute_round_eq_factored p round = Ok (poly, p') -> Q p' rs;
  agree_ingest p rs round r p' :
    Q p rs -> qp_ingest_challenge p round r = Ok p' ->
    exists rs', rs_ingest_challenge rs round r = Ok rs' /\ Q p' rs';
}.

Lemma eq_rounds_follow {P RS} `{EqFactoredSumcheckInstanceProver E P,
    EqFactoredSumcheckRoundState E RS} (Q : P -> RS -> Prop) `{!EqStatesAgree Q}
    bound k m inst t1 claim polys r inst' t1' claim' polys' r' t2 rs :
  ofold (eq_prove_round (F := F) sample1 bound) (seqZ k (Z.of_nat m)) (inst, t1, claim, polys, r)
    = Ok (inst', t1', claim', polys', r') -> R t1 t2 -> Q inst rs ->
  exists sent t2' rs', polys' = polys ++ sent /\ length sent = m /\ R t1' t2' /\ Q inst' rs' /\
    ofold (eq_verify_round (F := F) sample2 bound) (zip (seqZ k (Z.of_nat m)) sent)
      (claim, r, rs, t2) = Ok (claim', r', rs', t2').
Proof.
  revert k inst t1 claim polys r t2 rs; induction m as [|m IH];
    intros k inst t1 claim polys r t2 rs Hp Hr Hq.
  - cbn in Hp. injection Hp as <- <- <- <- <-. exists [], t2, rs. by rewrite app_nil_r.
  - rewrite Nat2Z.inj_succ in *. rewrite seqZ_cons in Hp |- * by lia. rewrite Z.pred_succ in *.
    cbn [ofold] in Hp. obind_inv Hp. unfold eq_prove_round in E0. obind_inv E0.
    destruct a0 as [poly inst1]. cbn [obind] in E0.
    destruct (bound <? EqFactoredUniPoly.degree poly)%Z eqn:Hdeg; [done|].
    obind_inv E0. obind_inv E0. destruct a1 as [r_i t1b]. cbn [obind] in E0.
    obind_inv E0. obind_inv E0. injection E0 as <-.
    pose proof (agree_compute _ _ _ _ _ Hq E1) as Hq1.
    rewrite (agree_tau _ _ Hq1) in E4.
    destruct (agree_ingest _ _ _ _ _ Hq1 E5) as (rs1 & Hi & Hq2).
    destruct (sim_serde_Ok _ t2 _ _ _ Hr E2) as (t2a & Ha & Hra).
    destruct (sample_Ok _ _ _ _ Hra E3) as (t2b & Hb & Hrb).
    destruct (IH _ _ _ _ _ _ _ _ Hp Hrb Hq2) as (sent & t2' & rs' & -> & Hl & Hrc & Hq' & Hv).
    exists (poly :: sent), t2', rs'. rewrite <-app_assoc. split; [done|].
    split; [cbn [length]; by rewrite Hl|]. split; [done|]. split; [done|].
    cbn [zip zip_with ofold]. unfold eq_verify_round at 1. rewrite Hdeg, Ha. cbn [obind].
    rewrite Hb. cbn [obind]. rewrite E4. cbn [obind]. rewrite Hi. cbn [obind]. exact Hv.
Qed.

(** C7: completeness of the equality-factored sumcheck, for prover and
    verifier round states that agree on the equality coordinates: the
    verifier replays the prover's challenges and normalized claim without any
    division, and decides on the final oracle value alone. *)
Theorem eq_factored_completeness {P V RS} `{EqFactoredSumcheckInstanceProver E P,
    EqFactoredSumcheckInstanceVerifier E V RS, !EqFactoredSumcheckRoundState E RS}
    (Q : P -> RS -> Prop) `{!EqStatesAgree Q, !FieldLaws E}
    (inst : P) (v : V) rs0 t1 t2 proof r claim inst' t1' :
  eq_prove (F := F) sample1 inst t1 = Ok (proof, r, claim, inst', t1') -> R t1 t2 ->
  start_round_state v = Ok rs0 -> Q inst rs0 ->
  qv_num_rounds v = qp_num_rounds inst -> qv_degree_bound v = qp_degree_bound inst ->
  qv_input_claim v = qp_input_claim inst -> (0 <= qp_num_rounds inst)%Z ->
  exists rs t2', R t1' t2' /\
    eq_verify (F := F) sample2 v proof t2 =
      (let* expected := qv_expected_output_claim v rs r in
       if bool_decide (claim = expected) then Ok (r, t2') else Err InvalidProof).
Proof.
  intros Hp Hr Hs0 Hq Hn Hd Hc Hpos. unfold eq_prove in Hp. obind_inv Hp. obind_inv Hp.
  destruct a0 as [[[[inst1 t1a] claim1] polys] r1]. cbn [obind] in Hp.
  injection Hp as <- <- <- <- <-.
  destruct (sim_serde_Ok _ t2 _ _ _ Hr E0) as (t2a & Ha & Hra).
  unfold range in E1. rewrite <-(Z2Nat.id (qp_num_rounds inst)) in E1 by done.
  destruct (eq_rounds_follow Q _ _ _ _ _ _ _ _ _ _ _ _ _ t2a rs0 E1 Hra Hq)
    as (sent & t2' & rs & -> & Hl & Hrb & _ & Hv).
  exists rs, t2'. split; [done|]. unfold eq_verify. cbn [eq_round_polys app].
  assert (Hls : len sent = qp_num_rounds inst) by (unfold len; lia).
  rewrite Hls, Hn, Z.eqb_refl. cbn [negb]. rewrite Hs0. cbn [obind].
  rewrite Hc, Ha, Hd. cbn [obind]. unfold range.
  rewrite <-(Z2Nat.id (qp_num_rounds inst)) at 1 by done. rewrite Hv. cbn [obind].
  destruct (qv_expected_output_claim v rs r1) as [expected|e|]; cbn [obind]; [|done..].
  destruct (feqb claim1 expected) eqn:He; cbn [negb obind].
  - apply feqb_spec in He. by rewrite bool_decide_eq_true_2.
  - apply feqb_neq in He. by rewrite bool_decide_eq_false_2.
Qed.
End completeness.

(** * Soundness: a wrong claim needs a lucky challenge *)

Section soundness.
Context {E : Type} `{FieldLaws E}.
Add Ring Ering : (field_ring (E := E)).

(** The weighted sum over the remaining rounds of the final oracle [f]:
    [sum_x prod_i w_i(x_i) * f(prefix, x)] with [w_i] a pair of weights for
    [x_i = 0, 1]. *)
Fixpoint wsum (ws : list (E * E)) (f : list E -> E) (prefix : list E) : E :=
  match ws with
  | [] => f prefix
  | (a, b) :: ws => a * wsum ws f (prefix ++ [0]) + b * wsum ws f (prefix ++ [1])
  end.

(** A run of round functions with their challenges and claims. *)
Fixpoint chain (ws : list (E * E)) (gs : list (E -> E)) (rs : list E) (claim final : E) : Prop :=
  match ws, gs, rs with
  | [], [], [] => claim = final
  | (a, b) :: ws, g :: gs, r :: rs => claim = a * g 0 + b * g 1 /\ chain ws gs rs (g r) final
  | _, _, _ => False
  end.

(** Some round function differs from the true one (at 0 or 1) and yet agrees
    with it at the challenge of that round. *)
Definition lucky (ws : list (E * E)) (f : list E -> E) (prefix : list E) (gs : list (E -> E))
    (rs : list E) (i : nat) : Prop :=
  exists g r, gs !! i = Some g /\ rs !! i = Some r /\
    let true_round x := wsum (drop (S i) ws) f (prefix ++ take i rs ++ [x]) in
    (g 0 <> true_round 0 \/ g 1 <> true_round 1) /\ g r = true_round r.

Lemma chain_soundness ws f gs rs prefix claim final :
  chain ws gs rs claim final -> final = f (prefix ++ rs) -> claim <> wsum ws f prefix ->
  exists i, (i < length gs)%nat /\ lucky ws f prefix gs rs i.
Proof.
  revert gs rs prefix claim; induction ws as [|[a b] ws IH];
    intros [|g gs] [|r rs] prefix claim Hc Hf Hne; try done; cbn [chain] in Hc.
  - exfalso. apply Hne. cbn. by rewrite Hc, Hf, app_nil_r.
  - destruct Hc as [Hsum Hc].
    set (h := fun x => wsum ws f (prefix ++ [x])).
    assert (Hdiff : g 0 <> h 0 \/ g 1 <> h 1).
    { destruct (decide (g 0 = h 0)) as [H0'|]; [|by left].
      destruct (decide (g 1 = h 1)) as [H1'|]; [|by right].
      exfalso. apply Hne. cbn [wsum]. rewrite Hsum, H0', H1'. done. }
    destruct (decide (g r = h r)) as [Heq|Hneq].
    + exists 0%nat. split; [cbn; lia|]. by exists g, r.
    + destruct (IH gs rs (prefix ++ [r]) (g r) Hc) as (i & Hi & Hl).
      { by rewrite Hf, <-app_assoc. }
      { done. }
      exists (S i). split; [cbn; lia|]. destruct Hl as (g' & r' & Hg & Hr & Hd & He).
      exists g', r'. split; [done|]. split; [done|]. cbn [drop take].
      rewrite <-app_assoc in Hd, He. cbn [app] in Hd, He.
      split; [|exact He]. rewrite <-!app_assoc in Hd. exact Hd.
Qed.

(** At most [d] challenges make two different polynomials of degree [d] agree. *)
Lemma few_agreements l1 l2 d points x :
  (length l1 <= S d)%nat -> (length l2 <= S d)%nat -> peval l1 x <> peval l2 x ->
  NoDup points -> (forall a, a ∈ points -> peval l1 a = peval l2 a) -> (length points <= d)%nat.
Proof.
  intros H1 H2 Hx Hnd Hp. destruct (decide (length points <= d)%nat); [done|].
  exfalso. apply Hx. apply (agreement_bound _ _ points); auto; lia.
Qed.
End soundness.

Section verifier_soundness.
Context {F E T : Type} `{FieldLaws E, AkitaSerialize E, Transcript F T}.
Add Ring Ering2 : (field_ring (E := E)).
Variable sample : T -> result (E * T).

(** The polynomials the verifier reconstructs, round by round. *)
Fixpoint reconstructed (polys : list (CompressedUniPoly E)) (rs : list E) (claim : E)
  : list (UniPoly E) :=
  match polys, rs with
  | p :: polys, r :: rs =>
      let g := CompressedUniPoly.decompress p claim in
      g :: reconstructed polys rs (UniPoly.evaluate g r)
  | _, _ => []
  end.

Definition plain_weights (n : nat) : list (E * E) := replicate n (1, 1).

Definition eval_fn (g : UniPoly E) : E -> E := UniPoly.evaluate g.

(** The claims the verifier holds before each round. *)
Fixpoint running_claims (polys : list (CompressedUniPoly E)) (rs : list E) (claim : E) : list E :=
  match polys, rs with
  | p :: polys, r :: rs =>
      claim :: running_claims polys rs (UniPoly.evaluate (CompressedUniPoly.decompress p claim) r)
  | _, _ => []
  end.

(** An empty round message replaced a nonzero claim by zero. *)
Definition dropped_claim (polys : list (CompressedUniPoly E)) (claim : E) (rs : list E) : Prop :=
  exists i p c, polys !! i = Some p /\ coeffs_except_linear_term p = [] /\
    running_claims polys rs claim !! i = Some c /\ c <> 0.

Lemma nonempty_keeps_claim polys claim rs :
  Forall (fun p => coeffs_except_linear_term p <> []) polys -> ~ dropped_claim polys claim rs.
Proof. intros Hne (i & p & c & Hp & He & _). by apply (Forall_lookup_1 _ _ _ _ Hne Hp). Qed.

Lemma decompress_claim (p : CompressedUniPoly E) claim :
  (coeffs_except_linear_term p = [] -> claim = 0) ->
  peval (coeffs (CompressedUniPoly.decompress p claim)) 0 + peval (coeffs (CompressedUniPoly.decompress p claim)) 1 = claim.
Proof.
  intros Hc. destruct (decide (coeffs_except_linear_term p = [])) as [He|He]; [|by apply decompress_sum].
  rewrite (Hc He). unfold CompressedUniPoly.decompress. rewrite He. change ((0 : E) + 0 = 0). ring.
Qed.

Lemma decompress_degree (p : CompressedUniPoly E) claim bound :
  (bound <? CompressedUniPoly.degree p)%Z = false ->
  (Z.of_nat (length (coeffs (CompressedUniPoly.decompress p claim))) <= Z.max 1 bound + 1)%Z.
Proof.
  intros Hdeg. apply Z.ltb_ge in Hdeg. unfold CompressedUniPoly.degree in Hdeg. destruct p as [[|c0 rest]]; [cbn; lia|].
  cbn [CompressedUniPoly.decompress coeffs_except_linear_term UniPoly.from_coeffs coeffs length] in *.
  unfold len in Hdeg. cbn [length] in Hdeg. destruct (Z.leb_spec (Z.of_nat (S (length rest))) 1); lia.
Qed.

Lemma verify_rounds_length bound polys claim r t claim' r' t' :
  ofold (verify_round (F := F) sample bound) polys (claim, r, t) = Ok (claim', r', t') ->
  exists rs, r' = r ++ rs /\ length rs = length polys.
Proof.
  revert claim r t; induction polys as [|p polys IH]; intros claim r t Hv; cbn [ofold] in Hv.
  - injection Hv as _ <- _. exists []. by rewrite app_nil_r.
  - obind_inv Hv. destruct a as [[claim1 r1] t1]. unfold verify_round in E0.
    destruct (bound <? _)%Z; [done|]. obind_inv E0. obind_inv E0. destruct a0 as [r_i t2]. cbn [obind] in E0.
    injection E0 as <- <- <-. destruct (IH _ _ _ Hv) as (rs & -> & Hl). exists (r_i :: rs).
    rewrite <-app_assoc. split; [done|]. cbn. by rewrite Hl.
Qed.

Lemma verify_rounds_chain bound polys claim r rs t claim' t' :
  ofold (verify_round (F := F) sample bound) polys (claim, r, t) = Ok (claim', r ++ rs, t') ->
  ~ dropped_claim polys claim rs ->
  chain (plain_weights (length polys)) (map eval_fn (reconstructed polys rs claim)) rs claim claim' /\
  Forall (fun g => (Z.of_nat (length (coeffs g)) <= Z.max 1 bound + 1)%Z) (reconstructed polys rs claim).
Proof.
  revert claim r rs t; induction polys as [|p polys IH]; intros claim r rs t Hv Hne; cbn [ofold] in Hv.
  - injection Hv as <- Hr <-. rewrite <-(app_nil_r r) in Hr at 1. apply app_inv_head in Hr as <-. by repeat split.
  - obind_inv Hv. destruct a as [[claim1 r1] t1]. unfold verify_round in E0.
    destruct (bound <? CompressedUniPoly.degree p)%Z eqn:Hdeg; [done|].
    obind_inv E0. obind_inv E0. destruct a0 as [r_i t2]. cbn [obind] in E0. injection E0 as <- <- <-.
    destruct (verify_rounds_length _ _ _ _ _ _ _ _ Hv) as (rs' & Hrs & _).
    rewrite <-app_assoc in Hrs. apply app_inv_head in Hrs as ->. cbn [app] in *.
    assert (Hev : eval_fn (CompressedUniPoly.decompress p claim) r_i
                  = CompressedUniPoly.eval_from_hint p claim r_i)
      by (unfold eval_fn; by rewrite evaluate_peval, eval_from_hint_decompress).
    change (r ++ r_i :: rs') with (r ++ [r_i] ++ rs') in Hv. rewrite app_assoc, <-Hev in Hv.
    destruct (IH _ _ _ _ Hv) as [Hch Hds].
    { intros (i & q & c & Hq & He & Hc & Hcz). apply Hne. by exists (S i), q, c. }
    cbn [length reconstructed map plain_weights replicate chain]. split; [split; [|exact Hch]|].
    + unfold eval_fn. rewrite !evaluate_peval. rewrite <-(decompress_claim p claim) at 1; [ring|].
      intros He. destruct (decide (claim = 0)) as [|Hcz]; [done|]. destruct Hne. by exists 0%nat, p, claim.
    + constructor; [by apply decompress_degree|exact Hds].
Qed.

(** Some reconstructed round polynomial differs from the true one for the
    oracle [f] and agrees with it at that round's challenge; two such
    polynomials agree at no more than [max 1 bound] points. *)
Definition lucky_round (bound : Z) (polys : list (CompressedUniPoly E)) (claim : E)
    (rs : list E) (f : list E -> E) : Prop :=
  exists i g r,
    reconstructed polys rs claim !! i = Some g /\ rs !! i = Some r /\
    let true_round x := wsum (plain_weights (length polys - S i)) f (take i rs ++ [x]) in
    (exists x, UniPoly.evaluate g x <> true_round x) /\
    UniPoly.evaluate g r = true_round r /\
    forall l points, (forall x, peval l x = true_round x) ->
      (Z.of_nat (length l) <= Z.max 1 bound + 1)%Z -> NoDup points ->
      (forall a, a ∈ points -> UniPoly.evaluate g a = true_round a) ->
      (Z.of_nat (length points) <= Z.max 1 bound)%Z.

Lemma decide_dropped polys claim rs : dropped_claim polys claim rs \/ ~ dropped_claim polys claim rs.
Proof.
  revert claim rs; induction polys as [|p polys IH]; intros claim [|r rs]; try (right; intros (i & q & c & _ & _ & Hc & _); by destruct i).
  destruct (IH (UniPoly.evaluate (CompressedUniPoly.decompress p claim) r) rs) as [(i & q & c & Hd)|Hn]; [left; by exists (S i), q, c|].
  destruct (decide (coeffs_except_linear_term p = [])) as [He|He];
    [destruct (decide (claim = 0)) as [Hz|Hz]; [|left; by exists 0%nat, p, claim]|];
    (right; intros ([|i] & q & c & Hq & Hqe & Hc & Hc0); [injection Hq as <-; injection Hc as <-; done|]; apply Hn; by exists i, q, c).
Qed.

Lemma rounds_soundness bound polys claim t claim' rs t' f :
  ofold (verify_round (F := F) sample bound) polys (claim, [], t) = Ok (claim', rs, t') ->
  claim' = f rs -> claim <> wsum (plain_weights (length polys)) f [] ->
  dropped_claim polys claim rs \/ lucky_round bound polys claim rs f.
Proof.
  intros Hv He Hclaim. destruct (decide_dropped polys claim rs) as [Hd|Hne]; [by left|right].
  destruct (verify_rounds_chain _ _ _ [] _ _ _ _ Hv Hne) as [Hch Hds].
  destruct (chain_soundness _ f _ _ [] _ _ Hch He Hclaim) as (i & Hi & g & r & Hg & Hr & Hd & Ha).
  rewrite length_map in Hi. destruct (lookup_lt_is_Some_2 _ _ Hi) as [gp Hgp].
  change (@map (UniPoly E)) with (@fmap list _ (UniPoly E)) in Hg.
  rewrite list_lookup_fmap, Hgp in Hg. injection Hg as <-.
  exists i, gp, r. split; [done|]. split; [done|].
  unfold plain_weights in Hd, Ha. rewrite drop_replicate in Hd, Ha. cbn [app] in Hd, Ha.
  fold (plain_weights (length polys - S i)) in Hd, Ha.
  unfold eval_fn in Hd, Ha. cbv zeta.
  assert (Hex : exists x, UniPoly.evaluate gp x <>
             wsum (plain_weights (length polys - S i)) f (take i rs ++ [x]))
    by (destruct Hd as [Hd|Hd]; eexists; exact Hd).
  split; [exact Hex|]. split; [exact Ha|].
  intros l points Hl' Hlen Hnd Hp. destruct Hex as [x Hx].
  pose proof (Forall_lookup_1 _ _ _ _ Hds Hgp) as Hdeg. cbn beta in Hdeg.
  rewrite evaluate_peval, <-Hl' in Hx.
  pose proof (few_agreements (coeffs gp) l (Z.to_nat (Z.max 1 bound)) points x
                ltac:(lia) ltac:(lia) Hx Hnd) as Hfew.
  assert (length points <= Z.to_nat (Z.max 1 bound))%nat; [|lia].
  apply Hfew. intros b Hb. rewrite Hl', <-evaluate_peval. by apply Hp.
Qed.

(** C6: round-by-round soundness of the standard sumcheck, for every proof.
    Let the oracle be any function [f] of the challenges and the claim differ
    from the sum of [f] over the hypercube.  If the verifier nevertheless
    accepts, then either some round message was empty while the running claim
    was not zero (the verifier goes on with the claim zero), or in some round
    the polynomial it reconstructed differs from the true round polynomial but
    agrees with it at that round's challenge; and two such polynomials agree
    at no more than [max 1 degree_bound] points. *)
Theorem sumcheck_soundness {V} `{SumcheckInstanceVerifier E V} (v : V) f proof t rs t' :
  verify (F := F) sample v proof t = Ok (rs, t') ->
  (forall rs, expected_output_claim v rs = Ok (f rs)) ->
  v_input_claim v <> wsum (plain_weights (length (round_polys proof))) f [] ->
  dropped_claim (round_polys proof) (v_input_claim v) rs \/
  lucky_round (v_degree_bound v) (round_polys proof) (v_input_claim v) rs f.
Proof.
  intros Hv Hf Hclaim. unfold verify in Hv. destruct (negb _); [done|].
  obind_inv Hv. obind_inv Hv. destruct a0 as [[claim1 rs1] t1]. cbn [obind] in Hv.
  obind_inv Hv. injection Hv as -> ->.
  unfold check_sumcheck_output_claim in E2. rewrite Hf in E2. cbn [obind] in E2.
  destruct (feqb claim1 (f rs)) eqn:He; [|done]. apply feqb_spec in He.
  by apply (rounds_soundness _ _ _ _ _ _ _ _ E1).
Qed.

(** ** Equality-factored rounds *)

(** The weights of [eq(tau_i, 0)] and [eq(tau_i, 1)]. *)
Definition eq_weights (taus : list E) : list (E * E) := map (fun tau => (1 - tau, tau)) taus.

(** The inner polynomial with its recovered constant term. *)
Definition eq_inner (p : EqFactoredUniPoly E) (tau claim : E) : list E :=
  claim - tau * fsum (coeffs_except_constant_term p) :: coeffs_except_constant_term p.

Lemma eval_nonconstant_value p x :
  EqFactoredUniPoly.eval_nonconstant_terms p x = x * peval (coeffs_except_constant_term p) x.
Proof.
  unfold EqFactoredUniPoly.eval_nonconstant_terms. rewrite pow_loop. cbn [fst]. ring.
Qed.

Lemma advance_is_inner claim tau p r :
  advance_eq_factored_claim claim tau p r = peval (eq_inner p tau claim) r.
Proof.
  unfold advance_eq_factored_claim, EqFactoredUniPoly.nonconstant_term_sum_at_one, eq_inner.
  rewrite eval_nonconstant_value, fold_add_fsum. cbn [peval]. ring.
Qed.

Lemma eq_inner_claim claim tau p :
  (1 - tau) * peval (eq_inner p tau claim) 0 + tau * peval (eq_inner p tau claim) 1 = claim.
Proof.
  unfold eq_inner. rewrite peval_at_0, peval_at_1, fsum_cons. ring.
Qed.

Fixpoint eq_reconstructed (polys : list (EqFactoredUniPoly E)) (taus rs : list E) (claim : E)
  : list (list E) :=
  match polys, taus, rs with
  | p :: polys, tau :: taus, r :: rs =>
      let q := eq_inner p tau claim in q :: eq_reconstructed polys taus rs (peval q r)
  | _, _, _ => []
  end.

Lemma eq_reconstructed_nonempty polys taus rs claim i :
  eq_reconstructed polys taus rs claim !! i <> Some [].
Proof.
  revert taus rs claim i; induction polys as [|p polys IH]; intros [|tau taus] [|r rs] claim [|i];
    try done. apply IH.
Qed.

(** The coordinates the verifier's round state shows for the given challenges. *)
Fixpoint taus_of {RS} `{EqFactoredSumcheckRoundState E RS} (k : Z) (rs : RS) (challenges : list E)
  : list E :=
  match challenges with
  | [] => []
  | r :: challenges =>
      match rs_current_tau rs, rs_ingest_challenge rs k r with
      | Ok tau, Ok rs' => tau :: taus_of (k + 1) rs' challenges
      | _, _ => []
      end
  end.

Lemma eq_verify_rounds_chain {RS} `{EqFactoredSumcheckRoundState E RS} bound k polys claim r rs t
    claim' r' rs' t' :
  ofold (eq_verify_round (F := F) sample bound) (zip (seqZ k (Z.of_nat (length polys))) polys)
    (claim, r, rs, t) = Ok (claim', r', rs', t') ->
  exists cs, r' = r ++ cs /\ length cs = length polys /\
    let taus := taus_of k rs cs in
    length taus = length polys /\
    chain (eq_weights taus) (map peval (eq_reconstructed polys taus cs claim)) cs claim claim' /\
    Forall (fun q => (Z.of_nat (length q) <= bound + 1)%Z) (eq_reconstructed polys taus cs claim).
Proof.
  revert k claim r rs t; induction polys as [|p polys IH]; intros k claim r rs t Hv.
  - cbn in Hv. injection Hv as <- <- <- <-. exists []. rewrite app_nil_r. by repeat split.
  - cbn [length] in Hv. rewrite Nat2Z.inj_succ in Hv. rewrite seqZ_cons in Hv by lia.
    rewrite Z.pred_succ in Hv. cbn [zip zip_with ofold] in Hv. obind_inv Hv.
    unfold eq_verify_round in E0.
    destruct (bound <? EqFactoredUniPoly.degree p)%Z eqn:Hdeg; [done|].
    obind_inv E0. obind_inv E0. destruct a1 as [r_i t2]. cbn [obind] in E0.
    obind_inv E0. obind_inv E0. injection E0 as <-. rename a1 into tau. rename a2 into rs1.
    destruct (IH (k + 1)%Z _ _ _ _ Hv) as (cs & -> & Hl & Hlt & Hch & Hds).
    exists (r_i :: cs). rewrite <-app_assoc. split; [done|]. split; [cbn; by rewrite Hl|].
    cbn [taus_of]. rewrite E3, E4. cbn zeta in Hlt, Hch, Hds |- *.
    cbn [length]. split; [by rewrite Hlt|].
    cbn [eq_weights map eq_reconstructed chain].
    rewrite advance_is_inner in Hch, Hds. split; [split; [by rewrite eq_inner_claim|exact Hch]|].
    constructor; [|exact Hds]. apply Z.ltb_ge in Hdeg. unfold EqFactoredUniPoly.degree, len in Hdeg.
    unfold eq_inner. cbn [length]. lia.
Qed.

(** An accepting run is a chain of the reconstructed inner polynomials. *)
Lemma eq_verify_chain {V RS} `{EqFactoredSumcheckInstanceVerifier E V RS,
    !EqFactoredSumcheckRoundState E RS} (v : V) rs0 proof t cs t' :
  eq_verify (F := F) sample v proof t = Ok (cs, t') -> start_round_state v = Ok rs0 ->
  let taus := taus_of 0 rs0 cs in
  let qs := eq_reconstructed (eq_round_polys proof) taus cs (qv_input_claim v) in
  len cs = qv_num_rounds v /\ length taus = length cs /\
  (exists rs final, qv_expected_output_claim v rs cs = Ok final /\
     chain (eq_weights taus) (map peval qs) cs (qv_input_claim v) final) /\
  Forall (fun q => (Z.of_nat (length q) <= qv_degree_bound v + 1)%Z) qs.
Proof.
  intros Hv Hs0. unfold eq_verify in Hv. destruct (negb _) eqn:Hn; [done|].
  apply negb_false_iff, Z.eqb_eq in Hn. rewrite Hs0 in Hv. cbn [obind] in Hv. obind_inv Hv. obind_inv Hv.
  destruct a0 as [[[claim1 cs1] rs1] t1]. cbn [obind] in Hv. obind_inv Hv.
  destruct (feqb claim1 a0) eqn:He; [|done]. apply feqb_spec in He. cbn [negb] in Hv. injection Hv as <- <-.
  destruct (eq_verify_rounds_chain _ _ _ _ _ _ _ _ _ _ _ E1) as (cs' & Hcs & Hl & Hlt & Hch & Hds).
  cbn [app] in Hcs. subst cs'. cbv zeta in *. split; [unfold len in *; lia|]. split; [congruence|].
  split; [|done]. exists rs1, a0. split; [done|]. by rewrite <-He.
Qed.

(** C8: round-by-round soundness of the equality-factored sumcheck.  When the
    verifier accepts although the claim differs from the equality-weighted
    sum of the oracle, some reconstructed inner polynomial differs from the
    true one and agrees with it at that round's challenge, which happens for
    at most [degree_bound] challenges; unlike the standard form this holds for
    empty round messages too, since the constant term is recovered without
    division from any message. *)
Theorem eq_factored_soundness {V RS} `{EqFactoredSumcheckInstanceVerifier E V RS,
    !EqFactoredSumcheckRoundState E RS} (v : V) rs0 f proof t cs t' :
  eq_verify (F := F) sample v proof t = Ok (cs, t') ->
  start_round_state v = Ok rs0 ->
  (forall rs cs, qv_expected_output_claim v rs cs = Ok (f cs)) ->
  qv_input_claim v <> wsum (eq_weights (taus_of 0 rs0 cs)) f [] ->
  exists i q r,
    eq_reconstructed (eq_round_polys proof) (taus_of 0 rs0 cs) cs (qv_input_claim v) !! i = Some q /\
    cs !! i = Some r /\
    let true_round x :=
      wsum (drop (S i) (eq_weights (taus_of 0 rs0 cs))) f (take i cs ++ [x]) in
    (exists x, peval q x <> true_round x) /\ peval q r = true_round r /\
    forall l points, (forall x, peval l x = true_round x) ->
      (Z.of_nat (length l) <= qv_degree_bound v + 1)%Z -> NoDup points ->
      (forall a, a ∈ points -> peval q a = true_round a) ->
      (Z.of_nat (length points) <= qv_degree_bound v)%Z.
Proof.
  intros Hv Hs0 Hf Hclaim.
  destruct (eq_verify_chain v rs0 proof t cs t' Hv Hs0) as (_ & _ & (rs1 & final & Hfin & Hch) & Hds).
  rewrite Hf in Hfin. injection Hfin as <-. rename cs into cs1.
  destruct (chain_soundness _ f _ _ [] _ _ Hch eq_refl Hclaim) as (i & Hi & g & r & Hg & Hr & Hd & Ha).
  rewrite length_map in Hi. destruct (lookup_lt_is_Some_2 _ _ Hi) as [q Hq].
  change (@map (list E)) with (@fmap list _ (list E)) in Hg.
  rewrite list_lookup_fmap, Hq in Hg. injection Hg as <-.
  exists i, q, r. split; [done|]. split; [done|]. cbn [app] in Hd, Ha. cbv zeta.
  assert (Hex : exists x, peval q x <>
             wsum (drop (S i) (eq_weights (taus_of 0 rs0 cs1))) f (take i cs1 ++ [x]))
    by (destruct Hd as [Hd|Hd]; eexists; exact Hd).
  split; [exact Hex|]. split; [exact Ha|].
  intros l points Hl' Hlen Hnd Hp. destruct Hex as [x Hx].
  pose proof (Forall_lookup_1 _ _ _ _ Hds Hq) as Hdeg. cbn beta in Hdeg.
  rewrite <-Hl' in Hx.
  assert (Hb : (0 <= qv_degree_bound v)%Z).
  { destruct q as [|c q]; [|cbn [length] in Hdeg; lia].
    by apply eq_reconstructed_nonempty in Hq. }
  pose proof (few_agreements q l (Z.to_nat (qv_degree_bound v)) points x
                ltac:(lia) ltac:(lia) Hx Hnd) as Hfew.
  assert (length points <= Z.to_nat (qv_degree_bound v))%nat; [|lia].
  apply Hfew. intros b Hbp. rewrite Hl'. by apply Hp.
Qed.
End verifier_soundness.

(** * Evaluation at concrete inputs *)

(** A prover and a verifier for the sum of a small multilinear table, and
    their equality-weighted versions (one variable). *)
Module toy_sumcheck.
Abbreviation K := F97.t.

#[export] Instance serialize : AkitaSerialize K := {
  serialize_with_mode x _ := Ok [F97.val x]; serialized_size _ _ := 1%Z }.
#[export] Instance mode : BuildMode := true.
#[export] Instance alloc : Allocator := fun _ => true.

Fixpoint bind_first (r : K) (l : list K) : list K :=
  match l with a :: b :: l => a + r * (b - a) :: bind_first r l | _ => [] end.
Fixpoint evens (l : list K) : K := match l with a :: _ :: l => a + evens l | _ => 0 end.
Fixpoint odds (l : list K) : K := match l with _ :: b :: l => b + odds l | _ => 0 end.

(** Table and, for the verifier, the claim it is given. *)
#[export] Instance prover : SumcheckInstanceProver K (list K) := {
  p_num_rounds l := Z.log2 (len l);
  p_degree_bound _ := 1%Z;
  p_input_claim l := fsum l;
  compute_round_univariate l _ _ := Ok (UniPoly.from_coeffs [evens l; odds l - evens l], l);
  p_ingest_challenge l _ r := Ok (bind_first r l);
  p_finalize l := l;
}.

Definition oracle (l : list K) (rs : list K) : K := hd 0 (foldl (fun l r => bind_first r l) l rs).

#[export] Instance verifier : SumcheckInstanceVerifier K (list K * K) := {
  v_num_rounds v := Z.log2 (len (fst v));
  v_degree_bound _ := 1%Z;
  v_input_claim v := snd v;
  expected_output_claim v rs := Ok (oracle (fst v) rs);
}.

#[export] Instance eq_prover : EqFactoredSumcheckInstanceProver K (list K * list K) := {
  qp_num_rounds s := len (fst s);
  qp_degree_bound _ := 1%Z;
  qp_input_claim s := wsum (eq_weights (fst s)) (oracle (snd s)) [];
  qp_current_tau s := unwrap (head (fst s));
  compute_round_eq_factored s _ :=
    Ok ({| coeffs_except_constant_term := [odds (snd s) - evens (snd s)] |}, s);
  qp_ingest_challenge s _ r := Ok (tail (fst s), bind_first r (snd s));
  qp_finalize s := s;
}.
#[export] Instance eq_round : EqFactoredSumcheckRoundState K (list K) := {
  rs_current_tau s := unwrap (head s);
  rs_ingest_challenge s _ _ := Ok (tail s);
}.
#[export] Instance eq_verifier
  : EqFactoredSumcheckInstanceVerifier K (list K * list K * K) (list K) := {
  qv_num_rounds v := len (fst (fst v));
  qv_degree_bound _ := 1%Z;
  qv_input_claim v := snd v;
  start_round_state v := Ok (fst (fst v));
  qv_expected_output_claim v _ rs := Ok (oracle (snd (fst v)) rs);
}.

Definition agree (p : list K * list K) (rs : list K) : Prop := fst p = rs.
#[export] Instance agrees : EqStatesAgree agree.
Proof.
  constructor.
  - by intros [ts l] rs <-.
  - by intros [ts l] rs round poly p' <- [= <- <-].
  - intros [ts l] rs round r p' <- [= <-]. by eexists.
Qed.

Import toy.
Abbreviation T := (AkitaTranscript (list Z) (list Z)).
Definition sample (t : T) : result (K * T) := AkitaTranscript.squeeze_scalar t.
Lemma sample_in_step (t1 t2 : T) :
  same_sponge t1 t2 -> rel_out same_sponge (sample t1) (sample t2).
Proof. intros Hs. exact (sim_challenge_scalar (F := K) t1 t2 [] Hs). Qed.
Definition zero_sample (t : T) : result (K * T) := Ok (0, t).
Definition start_p : T := AkitaTranscript.new_prover [1%Z] [2%Z].
Definition start_v : T := AkitaTranscript.new_verifier [1%Z] [2%Z].
Definition table : list K := map F97.of_Z [3; 5; 7; 11]%Z.
End toy_sumcheck.
Import toy toy_sumcheck.

Lemma sumcheck_completeness_witness :
  exists proof r claim inst t1' t2',
    prove (F := F97.t) sample table start_p = Ok (proof, r, claim, inst, t1') /\
    verify (F := F97.t) sample (table, fsum table) proof start_v = Ok (r, t2').
Proof.
  destruct (prove (F := F97.t) sample table start_p) as [[[[[proof r] claim] inst] t1']|e|] eqn:Hp;
    [|vm_compute in Hp; discriminate Hp..].
  destruct (sumcheck_completeness (F := F97.t) same_sponge sample sample
              sample_in_step
              table (table, fsum table) start_p start_v proof r claim inst t1' Hp
              (both_sides_start _ _)) as (t2' & _ & Hv);
    [reflexivity|reflexivity|reflexivity|vm_compute; discriminate|].
  exists proof, r, claim, inst, t1', t2'. split; [reflexivity|]. rewrite Hv.
  vm_compute in Hp. injection Hp as <- <- <- <- <-.
  cbn [obind expected_output_claim verifier].
  rewrite bool_decide_eq_true_2; [done|vm_compute; reflexivity].
Defined.

Lemma eq_factored_completeness_witness :
  let taus := [F97.of_Z 4] in
  let table := map F97.of_Z [3; 5]%Z in
  exists proof r claim inst t1' t2',
    eq_prove (F := F97.t) sample (taus, table) start_p = Ok (proof, r, claim, inst, t1') /\
    eq_verify (F := F97.t) sample (taus, table, qp_input_claim (taus, table)) proof start_v
      = Ok (r, t2').
Proof.
  intros taus table.
  destruct (eq_prove (F := F97.t) sample (taus, table) start_p)
    as [[[[[proof r] claim] inst] t1']|e|] eqn:Hp; [|vm_compute in Hp; discriminate Hp..].
  destruct (eq_factored_completeness (F := F97.t) same_sponge sample sample
              sample_in_step agree
              (taus, table) (taus, table, qp_input_claim (taus, table)) taus
              start_p start_v proof r claim inst t1' Hp
              (both_sides_start _ _)) as (rs & t2' & _ & Hv);
    [reflexivity|reflexivity|reflexivity|reflexivity|reflexivity|vm_compute; discriminate|].
  exists proof, r, claim, inst, t1', t2'. split; [reflexivity|]. rewrite Hv.
  vm_compute in Hp. injection Hp as <- <- <- <- <-.
  cbn [obind qv_expected_output_claim eq_verifier].
  rewrite bool_decide_eq_true_2; [done|vm_compute; reflexivity].
Defined.

(** A lucky run: with challenge 0 the wrong claim 10 for a table of sum 8 passes. *)
Lemma sumcheck_soundness_witness :
  let l := map F97.of_Z [3; 5]%Z in
  let proof := {| round_polys := [{| coeffs_except_linear_term := [F97.of_Z 3] |}] |} in
  exists i g r, reconstructed (round_polys proof) [0] (F97.of_Z 10) !! i = Some g /\
    [0 : F97.t] !! i = Some r.
Proof.
  intros l proof.
  destruct (verify (F := F97.t) zero_sample (l, F97.of_Z 10) proof start_v) as [[rs t']|e|] eqn:Hv;
    [|vm_compute in Hv; discriminate Hv..].
  assert (Hrs : rs = [0]) by (vm_compute in Hv; by injection Hv as <- _).
  destruct (sumcheck_soundness (F := F97.t) zero_sample (l, F97.of_Z 10) (oracle l) proof start_v
              rs t' Hv (fun _ => eq_refl)) as [Hd|(i & g & r & Hg & Hr & _)].
  - vm_compute. discriminate.
  - exfalso. apply (nonempty_keeps_claim _ _ _) in Hd; [done|]. repeat constructor. discriminate.
  - exists i, g, r. rewrite Hrs in Hg, Hr. split; [exact Hg|exact Hr].
Defined.

(** The other event: the empty message passes with the wrong claim 10 for a
    table of sum 5. *)
Example empty_message_accepted :
  let proof := {| round_polys := [{| coeffs_except_linear_term := [] |}] |} in
  (exists t', verify (F := F97.t) zero_sample (map F97.of_Z [0; 5]%Z, F97.of_Z 10) proof start_v = Ok ([0 : F97.t], t')) /\
  dropped_claim (round_polys proof) (F97.of_Z 10) [0 : F97.t].
Proof.
  split; [eexists; vm_compute; reflexivity|]. exists 0%nat, {| coeffs_except_linear_term := [] |}, (F97.of_Z 10).
  repeat split. vm_compute. discriminate.
Qed.

Lemma eq_factored_soundness_witness :
  let l := map F97.of_Z [3; 5]%Z in
  let proof := {| eq_round_polys := [{| coeffs_except_constant_term := [F97.of_Z 7] |}] |} in
  exists i q r, eq_reconstructed (eq_round_polys proof) [1] [0] (F97.of_Z 10) !! i = Some q /\
    [0 : F97.t] !! i = Some r.
Proof.
  intros l proof.
  destruct (eq_verify (F := F97.t) zero_sample ([1 : F97.t], l, F97.of_Z 10) proof start_v)
    as [[cs t']|e|] eqn:Hv; [|vm_compute in Hv; discriminate Hv..].
  assert (Hcs : cs = [0]) by (vm_compute in Hv; by injection Hv as <- _). subst cs.
  destruct (eq_factored_soundness (F := F97.t) zero_sample ([1 : F97.t], l, F97.of_Z 10) [1]
              (oracle l) proof start_v [0] t' Hv eq_refl (fun _ _ => eq_refl))
    as (i & q & r & Hq & Hr & _).
  - vm_compute. discriminate.
  - exists i, q, r. split; [exact Hq|exact Hr].
Defined.

Lemma sumcheck_proof_codecs_witness :
  let poly := {| coeffs_except_linear_term := [Fp (n := 1) (F97.of_Z 3)] |} in
  let q := {| coeffs_except_constant_term := [Fp (n := 1) (F97.of_Z 7)] |} in
  deserialize_with_mode [3; 3; 9]%Z CompressYes ValidateYes [1; 1]%Z
    = Ok ({| round_polys := [poly; poly] |}, [9%Z]) /\
  deserialize_with_mode [7; 9]%Z CompressYes ValidateYes (1, 1)%Z
    = Ok ({| eq_round_polys := [q] |}, [9%Z]).
Proof.
  intros poly q.
  assert (Hm : (modulus F97.t <= 2 ^ (8 * Z.of_nat 1))%Z) by (vm_compute; discriminate).
  pose (codec := fp_Lawful (E := F97.t) 1 Hm).
  assert (Hf : forall x : fp 1 F97.t, codec_wf (LawfulCodec := codec) ValidateYes tt x)
    by (intros; exact I).
  assert (Hpoly : codec_wf (LawfulCodec := CompressedUniPoly_Lawful (H2 := codec)) ValidateYes 1%Z poly)
    by (split; [done|]; split; [done|]; split; [by repeat constructor|done]).
  assert (Hw : codec_wf (LawfulCodec := SumcheckProof_Lawful (H2 := codec)) ValidateYes [1; 1]%Z
                 {| round_polys := [poly; poly] |})
    by (split; [done|]; split; [by repeat constructor|done]).
  assert (Hq : codec_wf (LawfulCodec := EqFactoredUniPoly_Lawful (H2 := codec)) ValidateYes 1%Z q)
    by (split; [done|]; split; [done|]; split; [by repeat constructor|done]).
  assert (Hqw : codec_wf (LawfulCodec := EqFactoredSumcheckProof_Lawful (H2 := codec)) ValidateYes
                  (1, 1)%Z {| eq_round_polys := [q] |})
    by (split; [done|]; split; [done|]; split; [by repeat constructor|done]).
  destruct (sumcheck_proof_codecs (H2 := codec) {| round_polys := [poly; poly] |} [1; 1]%Z
              {| eq_round_polys := [q] |} (1, 1)%Z [3; 3]%Z [7]%Z [9]%Z Hw Hqw eq_refl eq_refl)
    as (Hd & Hqd & _).
  split; [exact Hd|exact Hqd].
Defined.
