(* ===== verification/Mle.v ===== *)
(** Multilinear extensions of functions on the Boolean cube, in the form the
    sumcheck theorems use: the extension of [g] at [r] is the equality-weighted
    sum of [g].  A product of extensions is, in each variable, a polynomial of
    the number of its factors; so is a polynomial of an extension. *)

From S2P Require Import Prelude Checked Field Serialization UniPoly Transcript Sumcheck.
Local Open Scope field_scope.

Section mle.
Context {E : Type} `{FieldLaws E}.
Add Ring Ering : (field_ring (E := E)).

(** The Boolean points with [n] coordinates. *)
Definition bit (b : E) : Prop := b = 0 \/ b = 1.
Definition cube (n : nat) (xs : list E) : Prop := length xs = n /\ Forall bit xs.

Lemma cube_cons n b xs : bit b -> cube n xs -> cube (S n) (b :: xs).
Proof. intros Hb [Hl Hx]. split; [cbn; by rewrite Hl|by constructor]. Qed.

Lemma cube_length n xs : cube n xs -> length xs = n.
Proof. by intros [? _]. Qed.

Definition mle (g : list E -> E) (r : list E) : E := wsum (eq_weights r) g [].

Lemma length_eq_weights (r : list E) : length (eq_weights r) = length r.
Proof. unfold eq_weights. apply length_map. Qed.

(** ** Weighted sums *)

Lemma wsum_cube_ext ws (f g : list E -> E) p :
  (forall xs, cube (length ws) xs -> f (p ++ xs) = g (p ++ xs)) -> wsum ws f p = wsum ws g p.
Proof.
  revert p; induction ws as [|[a b] ws IH]; intros p Hfg; cbn [wsum].
  - pose proof (Hfg [] ltac:(by split)) as Hp. by rewrite app_nil_r in Hp.
  - rewrite (IH (p ++ [0])), (IH (p ++ [1])); [done|..];
      (intros xs Hx; rewrite <-!app_assoc; apply Hfg; cbn [length app]; apply cube_cons; [|done]); [by right|by left].
Qed.

Lemma wsum_add ws (f g : list E -> E) p : wsum ws (fun x => f x + g x) p = wsum ws f p + wsum ws g p.
Proof. revert p; induction ws as [|[a b] ws IH]; intros p; cbn [wsum]; [done|]. rewrite !IH. ring. Qed.

Lemma wsum_mul ws c (f : list E -> E) p : wsum ws (fun x => c * f x) p = c * wsum ws f p.
Proof. revert p; induction ws as [|[a b] ws IH]; intros p; cbn [wsum]; [done|]. rewrite !IH. ring. Qed.

Lemma wsum_const0 ws p : wsum ws (fun _ => 0 : E) p = 0.
Proof. revert p; induction ws as [|[a b] ws IH]; intros p; cbn [wsum]; [done|]. rewrite !IH. ring. Qed.

(** [sum_i w_i v_i] *)
Definition weighted (ws vs : list E) : E := fsum (zip_with fmul ws vs).

Lemma weighted_cons w ws v vs : weighted (w :: ws) (v :: vs) = w * v + weighted ws vs.
Proof. done. Qed.

Lemma wsum_weighted ws cs (fs : list (list E -> E)) p :
  wsum ws (fun x => weighted cs (map (fun f => f x) fs)) p = weighted cs (map (fun f => wsum ws f p) fs).
Proof.
  revert cs; induction fs as [|f fs IH]; intros [|c cs]; cbn [map];
    try (change (weighted _ _) with (0 : E); apply wsum_const0).
  rewrite weighted_cons, <-IH, <-wsum_mul, <-wsum_add. done.
Qed.

(** The extension agrees with the function on the cube. *)
Lemma wsum_cube (g : list E -> E) b p : Forall bit b -> wsum (eq_weights b) g p = g (p ++ b).
Proof.
  intros Hb. revert p; induction Hb as [|x b Hx _ IH]; intros p; cbn [eq_weights map wsum]; [by rewrite app_nil_r|].
  fold (eq_weights b). rewrite !IH, <-!app_assoc. cbn [app]. destruct Hx as [-> | ->]; ring.
Qed.

Lemma mle_cube n (g : list E -> E) b : cube n b -> mle g b = g b.
Proof. intros [_ Hb]. unfold mle. by rewrite wsum_cube. Qed.

(** A polynomial with the given values. *)
Lemma peval_powers cs x : peval cs x = weighted (map (fpow x) (seq 0 (length cs))) cs.
Proof.
  assert (Hgen : forall k, fpow x k * peval cs x = weighted (map (fpow x) (seq k (length cs))) cs).
  { induction cs as [|c cs IH]; intros k; cbn [length seq map peval]; [change (weighted [] []) with (0 : E); ring|].
    rewrite weighted_cons, <-IH. cbn [fpow]. ring. }
  rewrite <-Hgen. cbn [fpow]. ring.
Qed.

(** ** Degrees *)

(** [h] is a polynomial of degree at most [d]. *)
Definition poly_in (d : nat) (h : E -> E) : Prop :=
  exists l, (length l <= S d)%nat /\ forall x, peval l x = h x.

Fixpoint padd (l1 l2 : list E) : list E :=
  match l1, l2 with
  | a :: l1, b :: l2 => (a + b) :: padd l1 l2
  | [], l | l, [] => l
  end.

Lemma padd_eval l1 l2 x : peval (padd l1 l2) x = peval l1 x + peval l2 x.
Proof. revert l2; induction l1 as [|a l1 IH]; intros [|b l2]; cbn [padd peval]; try ring. rewrite IH. ring. Qed.

Lemma padd_length l1 l2 : length (padd l1 l2) = Nat.max (length l1) (length l2).
Proof. revert l2; induction l1 as [|a l1 IH]; intros [|b l2]; cbn [padd length]; try lia. rewrite IH. lia. Qed.

Lemma pscale_eval c l x : peval (map (fmul c) l) x = c * peval l x.
Proof. induction l as [|a l IH]; cbn [map peval]; [ring|]. rewrite IH. ring. Qed.

Lemma poly_in_ext d f g : (forall x, f x = g x) -> poly_in d f -> poly_in d g.
Proof. intros Hfg (l & Hl & Hp). exists l. split; [done|]. intros x. by rewrite Hp. Qed.

Lemma poly_in_mono d d' f : (d <= d')%nat -> poly_in d f -> poly_in d' f.
Proof. intros Hd (l & Hl & Hp). exists l. split; [lia|done]. Qed.

Lemma poly_in_const d c : poly_in d (fun _ => c).
Proof. exists [c]. split; [cbn; lia|]. intros x. cbn. ring. Qed.

Lemma poly_in_add d f g : poly_in d f -> poly_in d g -> poly_in d (fun x => f x + g x).
Proof.
  intros (l1 & H1 & P1) (l2 & H2 & P2). exists (padd l1 l2). split; [rewrite padd_length; lia|].
  intros x. by rewrite padd_eval, P1, P2.
Qed.

Lemma poly_in_scale d c f : poly_in d f -> poly_in d (fun x => c * f x).
Proof.
  intros (l & Hl & Hp). exists (map (fmul c) l). split; [by rewrite length_map|]. intros x. by rewrite pscale_eval, Hp.
Qed.

Lemma poly_in_linear d a b f : poly_in d f -> poly_in (S d) (fun x => (a + x * b) * f x).
Proof.
  intros (l & Hl & Hp). exists (padd (map (fmul a) l) (0 :: map (fmul b) l)). split.
  - rewrite padd_length. cbn [length]. rewrite !length_map. lia.
  - intros x. rewrite padd_eval. cbn [peval]. rewrite !pscale_eval, Hp. ring.
Qed.

(** [h] is affine. *)
Definition affine (h : E -> E) : Prop := exists a b, forall x, h x = a + x * b.

Lemma affine_prod d fs : (length fs <= d)%nat -> Forall affine fs -> poly_in d (fun x => fprod (map (fun f => f x) fs)).
Proof.
  intros Hl Hf. apply (poly_in_mono (length fs)); [done|]. clear Hl. induction Hf as [|f fs (a & b & Hab) _ IH].
  - eapply poly_in_ext; [|apply (poly_in_const 0 1)]. done.
  - cbn [length map]. eapply poly_in_ext; [|exact (poly_in_linear _ a b _ IH)].
    intros x. cbn beta. by rewrite fprod_cons, Hab.
Qed.

Lemma affine_peval cs f : affine f -> poly_in (length cs - 1) (fun x => peval cs (f x)).
Proof.
  intros (a & b & Hab). destruct cs as [|c cs]; [eapply poly_in_ext; [|apply (poly_in_const _ 0)]; done|]. cbn [length]. rewrite Nat.sub_succ, Nat.sub_0_r.
  revert c; induction cs as [|c' cs IH]; intros c.
  - eapply poly_in_ext; [|apply (poly_in_const 0 c)]. intros x. cbn. ring.
  - cbn [length]. eapply poly_in_ext; [|apply (poly_in_add _ _ _ (poly_in_const _ c) (poly_in_linear _ a b _ (IH c')))].
    intros x. cbn beta. change (peval (c :: c' :: cs) (f x)) with (c + f x * peval (c' :: cs) (f x)). by rewrite Hab.
Qed.

Lemma poly_in_weighted d cs (fs : list (E -> E)) : Forall (poly_in d) fs ->
  poly_in d (fun x => weighted cs (map (fun f => f x) fs)).
Proof.
  intros Hf. revert cs; induction Hf as [|f fs Hp _ IH]; intros [|c cs]; cbn [map];
    try (eapply poly_in_ext; [|apply (poly_in_const _ 0)]; done).
  eapply poly_in_ext; [|apply (poly_in_add _ _ _ (poly_in_scale _ c _ Hp) (IH cs))]. done.
Qed.

(** A sum over the later variables keeps the degree. *)
Lemma wsum_poly_in d ws (f : list E -> E) p :
  (forall xs, poly_in d (fun x => f (p ++ x :: xs))) -> poly_in d (fun x => wsum ws f (p ++ [x])).
Proof.
  intros Hf. assert (Hgen : forall ys, poly_in d (fun x => wsum ws f (p ++ x :: ys))); [|apply Hgen].
  induction ws as [|[a b] ws IH]; intros ys; cbn [wsum]; [apply Hf|].
  assert (Hy : forall y, poly_in d (fun x => wsum ws f ((p ++ x :: ys) ++ [y]))).
  { intros y. eapply poly_in_ext; [|apply (IH (ys ++ [y]))]. intros x. cbn beta. by rewrite <-app_assoc. }
  apply poly_in_add; apply poly_in_scale; apply Hy.
Qed.

(** The extension is affine in every variable. *)
Lemma mle_affine (g : list E -> E) p s : affine (fun x => mle g (p ++ x :: s)).
Proof.
  unfold mle. generalize (@nil E). induction p as [|y p IH]; intros q; cbn [app eq_weights map wsum]; fold (eq_weights s).
  - exists (wsum (eq_weights s) g (q ++ [0])), (wsum (eq_weights s) g (q ++ [1]) - wsum (eq_weights s) g (q ++ [0])).
    intros x. ring.
  - destruct (IH (q ++ [0])) as (a0 & b0 & H0'). destruct (IH (q ++ [1])) as (a1 & b1 & H1').
    exists ((1 - y) * a0 + y * a1), ((1 - y) * b0 + y * b1). intros x. unfold eq_weights in H0', H1'. rewrite H0', H1'. ring.
Qed.
End mle.
