(* ===== verification/Hypercube.v ===== *)
(** Sums over the Boolean cube and over the indices of a table.  A point of the
    cube is the little-endian bit vector of an index, so a weighted sum over the
    cube is a sum over [0 .. 2^n], and the multilinear extension of a table that
    is indexed by integers is an equality-weighted sum of its entries. *)

From S2P Require Import Prelude Checked Field Serialization UniPoly EqPoly Transcript Sumcheck Mle.
Local Open Scope field_scope.

Section sums.
Context {E : Type} `{FieldLaws E}.
Add Ring Ering : (field_ring (E := E)).

Definition sum_of {A} (f : A -> E) (l : list A) : E := fsum (map f l).

Lemma sum_of_cons {A} (f : A -> E) a l : sum_of f (a :: l) = f a + sum_of f l.
Proof. done. Qed.

Lemma sum_of_app {A} (f : A -> E) l1 l2 : sum_of f (l1 ++ l2) = sum_of f l1 + sum_of f l2.
Proof. unfold sum_of. by rewrite map_app, fsum_app. Qed.

Lemma sum_of_ext {A} (f g : A -> E) l : (forall a, a ∈ l -> f a = g a) -> sum_of f l = sum_of g l.
Proof. intros Hfg. unfold sum_of. f_equal. apply map_ext_in. intros a Ha. apply Hfg. by apply list_elem_of_In. Qed.

Lemma sum_of_add {A} (f g : A -> E) l : sum_of (fun a => f a + g a) l = sum_of f l + sum_of g l.
Proof.
  induction l as [|a l IH]; [change (0 = 0 + 0 :> E); ring|]. rewrite !sum_of_cons, IH. ring.
Qed.

Lemma sum_of_scale {A} c (f : A -> E) l : sum_of (fun a => c * f a) l = c * sum_of f l.
Proof. induction l as [|a l IH]; [change (0 = c * 0 :> E); ring|]. rewrite !sum_of_cons, IH. ring. Qed.

Lemma sum_of_zero {A} (l : list A) : sum_of (fun _ => 0) l = 0.
Proof. induction l as [|a l IH]; [done|]. rewrite sum_of_cons, IH. ring. Qed.

Lemma sum_of_swap {A B} (f : A -> B -> E) l m :
  sum_of (fun a => sum_of (f a) m) l = sum_of (fun b => sum_of (fun a => f a b) l) m.
Proof.
  induction l as [|a l IH].
  - change (0 = sum_of (fun _ : B => 0) m :> E). by rewrite sum_of_zero.
  - rewrite sum_of_cons, IH, <-sum_of_add. done.
Qed.

Lemma sum_of_map {A B} (h : A -> B) (f : B -> E) l : sum_of f (map h l) = sum_of (fun a => f (h a)) l.
Proof. unfold sum_of. by rewrite map_map. Qed.

Lemma sum_of_flat_map {A B} (h : A -> list B) (f : B -> E) l :
  sum_of f (flat_map h l) = sum_of (fun a => sum_of f (h a)) l.
Proof. induction l as [|a l IH]; [done|]. cbn [flat_map]. by rewrite sum_of_app, sum_of_cons, IH. Qed.

(** A sum over a longer range of a function that vanishes past [n]. *)
Lemma sum_of_range_cut f n m : (0 <= n <= m)%Z ->
  sum_of (fun i => if (i <? n)%Z then f i else 0) (range m) = sum_of f (range n).
Proof.
  intros Hn. unfold range. replace m with (n + (m - n))%Z by lia. rewrite seqZ_app, sum_of_app by lia.
  rewrite (sum_of_ext _ f), (sum_of_ext _ (fun _ => 0) (seqZ (0 + n) _)), sum_of_zero; [ring|..].
  - intros i Hi%elem_of_seqZ. rewrite (proj2 (Z.ltb_ge i n)) by lia. done.
  - intros i Hi%elem_of_seqZ. rewrite (proj2 (Z.ltb_lt i n)) by lia. done.
Qed.

Lemma sum_of_even_odd (g : Z -> E) m : (0 <= m)%Z ->
  sum_of g (range (2 * m)) = sum_of (fun j => g (2 * j)%Z + g (2 * j + 1)%Z) (range m).
Proof.
  intros Hm. pattern m. apply natlike_ind; [done| |done]. intros x Hx IH.
  replace (2 * Z.succ x)%Z with (2 * x + 1 + 1)%Z by lia. unfold Z.succ. rewrite !range_S, !sum_of_app, IH by lia.
  unfold sum_of. cbn [map]. rewrite !fsum_cons. change (fsum []) with (0 : E). ring.
Qed.
End sums.

(** * The cube and the indices *)

Section cube.
Context {E : Type} `{FieldLaws E}.
Add Ring Ering2 : (field_ring (E := E)).

(** The product of the weights an index selects. *)
Fixpoint weight_at (ws : list (E * E)) (i : Z) : E :=
  match ws with [] => 1 | (a, b) :: ws => (if Z.odd i then b else a) * weight_at ws (i / 2) end.

Lemma wsum_index ws (f : list E -> E) p :
  wsum ws f p = sum_of (fun i => weight_at ws i * f (p ++ bits_of (length ws) i)) (range (2 ^ len ws)).
Proof.
  revert p; induction ws as [|[a b] ws IH]; intros p; cbn [wsum].
  - change (range (2 ^ len [])) with [0%Z]. unfold sum_of. cbn [map weight_at]. rewrite fsum_cons.
    change (bits_of (length []) 0) with (@nil E). rewrite app_nil_r. change (fsum []) with (0 : E). ring.
  - rewrite len_cons, Z.pow_add_r, Z.pow_1_r, Z.mul_comm by (pose proof (len_nonneg ws); lia).
    rewrite sum_of_even_odd by (apply Z.pow_nonneg; lia). rewrite !IH, <-!sum_of_scale, <-sum_of_add.
    apply sum_of_ext. intros j _. cbn [weight_at length]. rewrite !bits_of_S.
    replace (Z.odd (2 * j)) with false by (rewrite Z.odd_mul; done).
    replace (Z.odd (2 * j + 1)) with true by (rewrite Z.odd_add, Z.odd_mul; done).
    replace (2 * j / 2)%Z with j by div_lia. replace ((2 * j + 1) / 2)%Z with j by div_lia.
    rewrite <-!app_assoc. cbn [app]. ring.
Qed.

Lemma weight_at_eq r i : weight_at (eq_weights r) i = eq_at r i.
Proof. revert i; induction r as [|c r IH]; intros i; cbn [eq_weights map weight_at eq_at]; [done|]. fold (eq_weights r). by rewrite IH. Qed.

Lemma weight_at_plain n i : weight_at (plain_weights n) i = 1.
Proof.
  revert i; induction n as [|n IH]; intros i; cbn [plain_weights replicate weight_at]; [done|].
  fold (plain_weights n). rewrite IH. destruct (Z.odd i); ring.
Qed.

(** The index of a point of the cube. *)
Fixpoint index_of (x : list E) : Z :=
  match x with [] => 0%Z | b :: x => ((if feqb b (0 : E)%F then 0 else 1) + 2 * index_of x)%Z end.

Lemma index_of_bits n i : (0 <= i < 2 ^ Z.of_nat n)%Z -> index_of (bits_of n i) = i.
Proof.
  revert i; induction n as [|n IH]; intros i Hi; [change (0 = i)%Z; change (2 ^ Z.of_nat 0)%Z with 1%Z in Hi; lia|].
  rewrite Nat2Z.inj_succ, Z.pow_succ_r in Hi by lia. rewrite bits_of_S. cbn [index_of]. rewrite IH by div_lia.
  pose proof (Z_div_mod_eq_full i 2) as Hd. rewrite Zmod_odd in Hd.
  destruct (Z.odd i).
  - rewrite (proj2 (feqb_neq (1 : E) 0)) by apply fone_neq_zero. lia.
  - rewrite (proj2 (feqb_spec (0 : E) 0)) by done. lia.
Qed.

(** The extension of an integer-indexed table. *)
Definition table_mle (g : Z -> E) (r : list E) : E := mle (fun x => g (index_of x)) r.

Lemma table_mle_sum g r : table_mle g r = sum_of (fun i => eq_at r i * g i) (range (2 ^ len r)).
Proof.
  unfold table_mle, mle. rewrite wsum_index.
  replace (len (eq_weights r)) with (len r) by (unfold len; by rewrite length_eq_weights).
  apply sum_of_ext. intros i Hi%elem_of_range. rewrite weight_at_eq, length_eq_weights. cbn [app].
  by rewrite index_of_bits.
Qed.

(** The sum of a function that depends on the index over the whole cube. *)
Lemma plain_sum n (f : list E -> E) (g : Z -> E) :
  (forall x, cube n x -> f x = g (index_of x)) ->
  wsum (plain_weights n) f [] = sum_of g (range (2 ^ Z.of_nat n)).
Proof.
  intros Hfg. assert (Hlen : length (plain_weights (E := E) n) = n) by apply length_replicate.
  rewrite (wsum_cube_ext _ f (fun x => g (index_of x))) by (intros xs; rewrite Hlen; apply Hfg).
  rewrite wsum_index. unfold len. rewrite Hlen. apply sum_of_ext. intros i Hi%elem_of_range.
  rewrite weight_at_plain. cbn [app]. rewrite index_of_bits by done. ring.
Qed.

(** [prefix_sum] is the extension of the indicator of the prefix. *)
Definition below (k : Z) (i : Z) : E := if (i <? k)%Z then 1 else 0.

Lemma prefix_sum_mle r k v : (0 <= k)%Z -> EqPolynomial.prefix_sum r k = Ok v ->
  (k <= 2 ^ len r)%Z /\ v = table_mle (below k) r.
Proof.
  intros Hk. rewrite prefix_sum_spec by done. destruct (Z.ltb_spec (len r) 64); [|done].
  destruct (Z.leb_spec k (2 ^ len r)) as [Hle|]; [|done]. intros [= <-]. split; [done|].
  rewrite <-take_eqt by lia. rewrite table_mle_sum.
  change (fsum (map (eq_at r) (range k))) with (sum_of (eq_at r) (range k)).
  rewrite <-(sum_of_range_cut (eq_at r) k (2 ^ len r)) by lia. apply sum_of_ext. intros i _.
  unfold below. destruct (i <? k)%Z; ring.
Qed.

(** ** The equality polynomial as a factor *)

Fixpoint eq_value (tau x : list E) : E :=
  match tau, x with
  | t :: tau, b :: x => (t * b + (1 - t) * (1 - b)) * eq_value tau x
  | _, _ => 1
  end.

Lemma eq_mle_value tau x : length tau = length x -> EqPolynomial.mle tau x = Ok (eq_value tau x).
Proof.
  intros Hl. unfold EqPolynomial.mle, len. rewrite Hl, Z.eqb_refl. cbn [negb]. f_equal. rewrite fold_mul_fprod.
  assert (Hg : fprod (map (fun '(x_i, y_i) => x_i * y_i + (1 - x_i) * (1 - y_i)) (zip tau x)) = eq_value tau x); [|rewrite Hg; ring].
  revert x Hl. induction tau as [|t tau IH]; intros [|b x] Hl; try done. cbn [zip zip_with map eq_value].
  rewrite fprod_cons, IH by (cbn in Hl; lia). done.
Qed.

(** Summing with the factor is summing with the weights. *)
Lemma wsum_eq_factor tau (g : list E -> E) p :
  wsum (plain_weights (length tau)) (fun x => eq_value tau (drop (length p) x) * g x) p = wsum (eq_weights tau) g p.
Proof.
  revert p; induction tau as [|t tau IH]; intros p.
  - cbn [length plain_weights replicate eq_weights map wsum]. rewrite drop_all. cbn [eq_value]. ring.
  - cbn [length plain_weights replicate eq_weights map wsum]. fold (plain_weights (E := E) (length tau)). fold (eq_weights tau).
    assert (Hb : forall b, wsum (plain_weights (length tau)) (fun x => eq_value (t :: tau) (drop (length p) x) * g x) (p ++ [b])
      = (t * b + (1 - t) * (1 - b)) * wsum (eq_weights tau) g (p ++ [b])).
    { intros b. rewrite <-IH, <-wsum_mul. apply wsum_cube_ext. intros xs _. rewrite <-app_assoc. cbn [app].
      rewrite drop_app_length, length_app. cbn [length eq_value].
      replace (drop (length p + 1) (p ++ b :: xs)) with xs; [ring|].
      replace (p ++ b :: xs) with ((p ++ [b]) ++ xs) by (by rewrite <-app_assoc).
      rewrite drop_app_length'; [done|]. by rewrite length_app. }
    rewrite !Hb. ring.
Qed.

Lemma eq_value_affine tau p xs : affine (fun x => eq_value tau (p ++ x :: xs)).
Proof.
  revert tau; induction p as [|y p IH]; intros [|t tau]; cbn [app eq_value]; try (exists 1, 0; intros x; ring).
  - exists ((1 - t) * eq_value tau xs), ((t - (1 - t)) * eq_value tau xs). intros x. ring.
  - destruct (IH tau) as (a & b & Hab). exists ((t * y + (1 - t) * (1 - y)) * a), ((t * y + (1 - t) * (1 - y)) * b).
    intros x. rewrite Hab. ring.
Qed.

(** ** Affine functions *)

Lemma affine_const c : affine (fun _ : E => c).
Proof. exists c, 0. intros x. ring. Qed.

Lemma affine_sum {A} (f : A -> E -> E) l : (forall a, affine (f a)) -> affine (fun x => sum_of (fun a => f a x) l).
Proof.
  intros Hf. induction l as [|a l (u & v & IH)]; [exact (affine_const 0)|]. destruct (Hf a) as (u' & v' & Ha).
  exists (u' + u), (v' + v). intros x. rewrite sum_of_cons, Ha, IH. ring.
Qed.

Lemma affine_combine a b f g : affine f -> affine g -> affine (fun x => a * f x + b * g x).
Proof.
  intros (u & v & Hf) (u' & v' & Hg). exists (a * u + b * u'), (a * v + b * v'). intros x. rewrite Hf, Hg. ring.
Qed.

Lemma poly_in_times d f g : affine f -> poly_in d g -> poly_in (S d) (fun x => f x * g x).
Proof.
  intros (u & v & Hf) Hg. eapply poly_in_ext; [|exact (poly_in_linear d u v g Hg)]. intros x. cbn beta. by rewrite Hf.
Qed.

Lemma poly_in_sum {A} d (f : A -> E -> E) l : (forall a, poly_in d (f a)) -> poly_in d (fun x => sum_of (fun a => f a x) l).
Proof.
  intros Hf. induction l as [|a l IH].
  - eapply poly_in_ext; [|apply (poly_in_const d 0)]. done.
  - eapply poly_in_ext; [|exact (poly_in_add d _ _ (Hf a) IH)]. done.
Qed.
End cube.
