(* ===== verification/PhysicalL2.v ===== *)
(** [akita-types/src/sis/physical_l2.rs] with the modulus profiles of
    [sis/ajtai_key/table.rs] and the reconstruction of
    [proof/relation_range_image.rs]: the geometry of the integer norm proof, the
    bounds that rule out wrap-around in the field, and the exact square sum a
    list of limb inner products stands for. *)

From S2P Require Import Prelude Checked.

(** * Modulus profiles *)

Inductive SisModulusProfileId := Q32Offset99 | Q64Offset59 | Q128OffsetA7F7.

#[export] Instance SisModulusProfileId_eq : EqDecision SisModulusProfileId.
Proof. solve_decision. Defined.

Module SisModulusProfileId.
Definition modulus (self : SisModulusProfileId) : Z :=
  match self with
  | Q32Offset99 => 4294967197
  | Q64Offset59 => 18446744073709551557
  | Q128OffsetA7F7 => 340282366920938463463374607427473266697
  end.

(** [128 - (modulus - 1).leading_zeros()] *)
Definition field_bits (self : SisModulusProfileId) : Z := Z.log2 (modulus self - 1) + 1.

Definition tag (self : SisModulusProfileId) : Z :=
  match self with Q32Offset99 => 1 | Q64Offset59 => 2 | Q128OffsetA7F7 => 3 end.

Definition from_tag (tag : Z) : option SisModulusProfileId :=
  if tag =? 1 then Some Q32Offset99
  else if tag =? 2 then Some Q64Offset59
  else if tag =? 3 then Some Q128OffsetA7F7
  else None.
End SisModulusProfileId.

(** * Layout of the limb inner products *)

Definition MAX_LIMB_GRAM_BLOCK_LEN : Z := Z.shiftl 1 12.

Record LimbGramLayout := {
  lg_response_len : Z;
  lg_block_len : Z;
  lg_limb_count : Z;
  block_count : Z;
  pair_count : Z;
}.

(** [usize] operations after which a caller turns [None] into an error. *)
Definition saturating_add (a b : Z) : Z := Z.min USIZE_MAX (a + b).

Module LimbGramLayout.

Definition new (physical_response_len block_len limb_count : Z) : result LimbGramLayout :=
  if (physical_response_len =? 0) || (block_len =? 0) || (limb_count =? 0) ||
     (physical_response_len <? block_len)
  then Err (InvalidSetup "L2 limb-Gram shape has invalid response, block, or limb count")
  else
    let block_count := (physical_response_len + block_len - 1) / block_len in
    let* succ := ok_or (checked_add limb_count 1) (InvalidSetup "L2 limb-pair count overflow") in
    let* twice := ok_or (checked_mul limb_count succ) (InvalidSetup "L2 limb-pair count overflow") in
    let pair_count := twice / 2 in
    let* _ := ok_or (checked_mul block_count pair_count)
                (InvalidSetup "L2 limb-Gram subclaim count overflow") in
    Ok {| lg_response_len := physical_response_len; lg_block_len := block_len;
          lg_limb_count := limb_count; block_count := block_count; pair_count := pair_count |}.

(** A value of [new]: the product does not overflow. *)
Definition subclaim_count (self : LimbGramLayout) : Z := block_count self * pair_count self.

Definition block_range (self : LimbGramLayout) (block_index : Z) : Z * Z :=
  let start := block_index * lg_block_len self in
  (start, Z.min (saturating_add start (lg_block_len self)) (lg_response_len self)).
Definition block_ranges (self : LimbGramLayout) : list (Z * Z) :=
  map (block_range self) (range (block_count self)).

Definition limb_pairs (self : LimbGramLayout) : list (Z * Z) :=
  flat_map (fun left => map (fun right => (left, right)) (seqZ left (lg_limb_count self - left)))
    (range (lg_limb_count self)).

Definition subclaim_index (self : LimbGramLayout) (block_index left_limb right_limb : Z) : option Z :=
  if (block_count self <=? block_index) || (right_limb <? left_limb) ||
     (lg_limb_count self <=? right_limb)
  then None
  else
    rows ← checked_mul left_limb (lg_limb_count self);
    half ← checked_mul left_limb (saturating_sub left_limb 1);
    preceding_rows ← checked_sub rows (half / 2);
    offset ← checked_sub right_limb left_limb;
    pair_index ← checked_add preceding_rows offset;
    base ← checked_mul block_index (pair_count self);
    checked_add base pair_index.
End LimbGramLayout.

(** * Proof shape *)

Inductive PhysicalL2NormProofShape :=
  | Direct (physical_response_len : Z)
  | LimbGram (physical_response_len block_len limb_count : Z).

#[export] Instance PhysicalL2NormProofShape_eq : EqDecision PhysicalL2NormProofShape.
Proof. solve_decision. Defined.

(** [u128] checked operations. *)
Definition mul_u128 (a b : Z) : option Z := checked_u 128 (a * b).
Definition add_u128 (a b : Z) : option Z := checked_u 128 (a + b).

Module PhysicalL2NormProofShape.

Definition physical_response_len (self : PhysicalL2NormProofShape) : Z :=
  match self with Direct n | LimbGram n _ _ => n end.

Definition limb_gram_layout (self : PhysicalL2NormProofShape) : result (option LimbGramLayout) :=
  match self with
  | Direct _ => Ok None
  | LimbGram n block_len limb_count =>
      let* l := LimbGramLayout.new n block_len limb_count in Ok (Some l)
  end.

Definition subclaim_count (self : PhysicalL2NormProofShape) : option Z :=
  match limb_gram_layout self with
  | Ok None => Some 0
  | Ok (Some layout) => Some (LimbGramLayout.subclaim_count layout)
  | _ => None
  end.

Definition virtual_evaluation_count (self : PhysicalL2NormProofShape) : Z :=
  match self with Direct _ => 1 | LimbGram _ _ limb_count => limb_count end.

Definition validate (self : PhysicalL2NormProofShape) : result unit :=
  if physical_response_len self =? 0
  then Err (InvalidSetup "L2 norm proof requires a nonempty physical response")
  else
    match self with
    | LimbGram n block_len limb_count =>
        let* _ := LimbGramLayout.new n block_len limb_count in Ok tt
    | Direct _ => Ok tt
    end.

(** [for _ in 0..fold_digit_count]: the largest response and the basis power. *)
Definition response_bound (digit_abs fold_basis fold_digit_count : Z) : result Z :=
  let overflow := InvalidSetup "direct norm response bound overflow" in
  let* (max_response, _) :=
    ofold (fun '(max_response, power) _ =>
             let* term := ok_or (mul_u128 digit_abs power) overflow in
             let* max_response := ok_or (add_u128 max_response term) overflow in
             let* power := ok_or (mul_u128 power fold_basis)
                             (InvalidSetup "direct norm basis power overflow") in
             Ok (max_response, power)) (range fold_digit_count) (0, 1) in
  Ok max_response.

Definition validate_integer_soundness (self : PhysicalL2NormProofShape)
    (modulus_profile : SisModulusProfileId) (fold_basis fold_digit_count : Z) : result unit :=
  let* _ := validate self in
  if (fold_digit_count =? 0) || (fold_basis <? 2) || negb (checked.is_power_of_two fold_basis)
  then Err (InvalidSetup "L2 norm shape has an invalid balanced digit decomposition")
  else
    let modulus := SisModulusProfileId.modulus modulus_profile in
    let digit_abs := fold_basis / 2 in
    match self with
    | Direct n =>
        let overflow := InvalidSetup "direct norm worst-case overflow" in
        let* max_response := response_bound digit_abs fold_basis fold_digit_count in
        let* sq := ok_or (mul_u128 max_response max_response) overflow in
        let* worst := ok_or (mul_u128 n sq) overflow in
        if modulus <=? worst
        then Err (InvalidSetup "direct norm shape does not rule out field wraparound")
        else Ok tt
    | LimbGram _ block_len limb_count =>
        if negb (limb_count =? fold_digit_count) || (2 ^ 127 - 1 <? modulus)
        then Err (InvalidSetup "L2 limb-Gram shape disagrees with its field or digit count")
        else
          let overflow := InvalidSetup "L2 limb bound overflow" in
          let* sq := ok_or (mul_u128 digit_abs digit_abs) overflow in
          let* claim_abs_bound := ok_or (mul_u128 block_len sq) overflow in
          if modulus / 2 <=? claim_abs_bound
          then Err (InvalidSetup "L2 limb block does not rule out centered-lift ambiguity")
          else Ok tt
    end.

Definition derive (modulus_profile : SisModulusProfileId)
    (physical_response_len fold_basis fold_digit_count : Z) : result PhysicalL2NormProofShape :=
  if (physical_response_len =? 0) || (fold_digit_count =? 0) || (fold_basis <? 2) ||
     negb (checked.is_power_of_two fold_basis)
  then Err (InvalidSetup "L2 norm shape requires a nonempty response and balanced power-of-two digits")
  else
    let direct := Direct physical_response_len in
    match validate_integer_soundness direct modulus_profile fold_basis fold_digit_count with
    | Ok _ => Ok direct
    | Panic => Panic
    | Err _ =>
        let modulus := SisModulusProfileId.modulus modulus_profile in
        let digit_abs := fold_basis / 2 in
        if 2 ^ 127 - 1 <? modulus
        then Err (InvalidSetup "L2 response is too wide for direct proof and its modulus has no centered-limb path")
        else
          let* digit_square := ok_or (mul_u128 digit_abs digit_abs)
                                 (InvalidSetup "L2 limb digit square overflow") in
          let* limit := ok_or (checked_u 128 (modulus / 2 - 1))
                          (InvalidSetup "L2 limb alphabet cannot fit a centered block") in
          let* max_block := ok_or (checked.checked_div limit digit_square)
                              (InvalidSetup "L2 limb alphabet cannot fit a centered block") in
          let block_len :=
            Z.min (Z.min (default USIZE_MAX (usize max_block)) MAX_LIMB_GRAM_BLOCK_LEN) physical_response_len in
          let shape := LimbGram physical_response_len block_len fold_digit_count in
          let* _ := validate_integer_soundness shape modulus_profile fold_basis fold_digit_count in
          Ok shape
    end.

Definition append_descriptor_bytes (self : PhysicalL2NormProofShape) (bytes : list Z) : list Z :=
  let push_usize bytes v := bytes ++ to_le_bytes 8 v in
  match self with
  | Direct n => push_usize (bytes ++ [1]) n
  | LimbGram n block_len limb_count =>
      push_usize (push_usize (push_usize (bytes ++ [2]) n) block_len) limb_count
  end.
End PhysicalL2NormProofShape.

(** * Reconstruction *)

Definition mul_i128 (a b : Z) : option Z := checked_s 128 (a * b).
Definition add_i128 (a b : Z) : option Z := checked_s 128 (a + b).

(** [for _ in 0..power_count] *)
Definition gram_powers (basis power_count : Z) : result (list Z) :=
  let* (powers, _) :=
    ofold (fun '(powers, power) _ =>
             let powers := powers ++ [power] in
             let* power := ok_or (mul_i128 power basis) (InvalidSetup "L2 basis power overflow") in
             Ok (powers, power)) (range power_count) ([], 1) in
  Ok powers.

Definition add_claim (layout : LimbGramLayout) (powers claims : list Z) (block_index : Z)
    (total : Z) (pair : Z * Z) : result Z :=
  let '(lhs, rhs) := pair in
  let* claim_index := ok_or (LimbGramLayout.subclaim_index layout block_index lhs rhs) InvalidProof in
  let* claim := ok_or (index claims claim_index) InvalidProof in
  let* exponent := ok_or (checked_add lhs rhs) (InvalidSetup "L2 exponent overflow") in
  let* power := ok_or (index powers exponent) InvalidProof in
  let* scale := ok_or (mul_i128 power (if lhs =? rhs then 1 else 2))
                  (InvalidSetup "L2 Gram scale overflow") in
  let* product := ok_or (mul_i128 claim scale) (InvalidSetup "L2 Gram product overflow") in
  ok_or (add_i128 total product) (InvalidSetup "L2 Gram sum overflow").

Definition reconstruct_l2_sq_from_gram (shape : PhysicalL2NormProofShape) (fold_basis : Z)
    (claims : list Z) : result Z :=
  let* layout := PhysicalL2NormProofShape.limb_gram_layout shape in
  let* layout := ok_or layout (InvalidInput "direct L2 shape has no limb-Gram reconstruction") in
  let expected := LimbGramLayout.subclaim_count layout in
  if negb (len claims =? expected) then Err (InvalidSize expected (len claims))
  else
    let* basis := ok_or (checked_s 128 fold_basis) (InvalidSetup "L2 fold basis exceeds i128") in
    let* power_count := ok_or (checked_mul (lg_limb_count layout) 2)
                          (InvalidSetup "L2 power count overflow") in
    let* powers := gram_powers basis power_count in
    let* total :=
      ofold (fun total block_index =>
               ofold (add_claim layout powers claims block_index) (LimbGramLayout.limb_pairs layout) total)
        (range (block_count layout)) 0 in
    ok_or (checked_u 128 total) InvalidProof.
