(* ===== verification/LimbGram.v ===== *)
(** The arithmetic of the physical L2 norm proof: the canonical order of the
    limb inner products, their recombination into the exact square sum, and the
    absence of wrap-around for the shapes the validation accepts. *)

From S2P Require Import Prelude Checked Decomposition PhysicalL2.

(** * Sums of integers *)

Definition zsum {A} (f : A -> Z) (l : list A) : Z := foldr (fun a s => f a + s) 0 l.

Section sums.
Context {A : Type}.
Implicit Types (f g : A -> Z) (l : list A).

Lemma zsum_app f l1 l2 : zsum f (l1 ++ l2) = zsum f l1 + zsum f l2.
Proof. induction l1 as [|a l1 IH]; cbn [app zsum foldr]; [done|]. fold (zsum f (l1 ++ l2)) (zsum f l1). lia. Qed.

Lemma zsum_ext f g l : (forall a, a ∈ l -> f a = g a) -> zsum f l = zsum g l.
Proof.
  induction l as [|a l IH]; intros Hfg; [done|]. cbn [zsum foldr]. fold (zsum f l) (zsum g l).
  rewrite (Hfg a) by left. rewrite IH; [done|]. intros b Hb. apply Hfg. by right.
Qed.

Lemma zsum_mul c f l : zsum (fun a => c * f a) l = c * zsum f l.
Proof. induction l as [|a l IH]; cbn [zsum foldr]; [lia|]. fold (zsum (fun a => c * f a) l) (zsum f l). lia. Qed.

Lemma zsum_add f g l : zsum (fun a => f a + g a) l = zsum f l + zsum g l.
Proof.
  induction l as [|a l IH]; cbn [zsum foldr]; [lia|]. fold (zsum (fun a => f a + g a) l) (zsum f l) (zsum g l). lia.
Qed.

Lemma zsum_le f g l : (forall a, a ∈ l -> f a <= g a) -> zsum f l <= zsum g l.
Proof.
  induction l as [|a l IH]; intros Hfg; [done|]. cbn [zsum foldr]. fold (zsum f l) (zsum g l).
  pose proof (Hfg a ltac:(left)). enough (zsum f l <= zsum g l) by lia. apply IH. intros b Hb. apply Hfg. by right.
Qed.

Lemma zsum_abs f l : Z.abs (zsum f l) <= zsum (fun a => Z.abs (f a)) l.
Proof. induction l as [|a l IH]; cbn [zsum foldr]; [done|]. fold (zsum f l) (zsum (fun a => Z.abs (f a)) l). lia. Qed.

Lemma zsum_nonneg f l : (forall a, a ∈ l -> 0 <= f a) -> 0 <= zsum f l.
Proof.
  intros Hf. transitivity (zsum (fun _ => 0) l); [|by apply zsum_le].
  clear Hf. induction l as [|a l IH]; cbn [zsum foldr]; [done|]. fold (zsum (fun _ : A => 0) l). lia.
Qed.

Lemma zsum_const c l : zsum (fun _ => c) l = c * len l.
Proof. induction l as [|a l IH]; cbn [zsum foldr]; [unfold len; cbn; lia|]. fold (zsum (fun _ : A => c) l). rewrite IH, len_cons. lia. Qed.

Lemma zsum_map {B} (h : B -> A) f (l : list B) : zsum f (map h l) = zsum (fun b => f (h b)) l.
Proof. induction l as [|b l IH]; cbn [map zsum foldr]; [done|]. fold (zsum f (map h l)). by rewrite IH. Qed.

Lemma zsum_flat_map {B} (h : B -> list A) f (l : list B) :
  zsum f (flat_map h l) = zsum (fun b => zsum f (h b)) l.
Proof. induction l as [|b l IH]; [done|]. cbn [flat_map]. rewrite zsum_app, IH. done. Qed.
End sums.

Lemma zsum_swap {A B} (f : A -> B -> Z) (l : list A) (m : list B) :
  zsum (fun a => zsum (f a) m) l = zsum (fun b => zsum (fun a => f a b) l) m.
Proof.
  induction l as [|a l IH]; cbn [zsum foldr].
  - symmetry. transitivity (zsum (fun _ : B => 0) m); [by apply zsum_ext|]. rewrite zsum_const. lia.
  - fold (zsum (fun a => zsum (f a) m) l). rewrite IH, <-zsum_add. done.
Qed.

(** * Pairs of limbs *)

(** The upper triangle of a list. *)
Fixpoint tri (l : list Z) : list (Z * Z) :=
  match l with [] => [] | x :: xs => (x, x) :: map (fun y => (x, y)) xs ++ tri xs end.

Lemma zsum_square u (l : list Z) : NoDup l ->
  zsum (fun '(x, y) => (if x =? y then 1 else 2) * (u x * u y)) (tri l) = zsum u l * zsum u l.
Proof.
  induction 1 as [|x l Hx Hnd IH]; [done|]. cbn [tri].
  change ((x, x) :: map (fun y => (x, y)) l ++ tri l) with ([(x, x)] ++ map (fun y => (x, y)) l ++ tri l).
  rewrite !zsum_app, IH, zsum_map. cbn [zsum foldr]. fold (zsum u l). rewrite Z.eqb_refl.
  rewrite (zsum_ext _ (fun y => 2 * u x * u y)).
  - rewrite zsum_mul. lia.
  - intros y Hy. assert (x <> y) by (intros ->; done). rewrite (proj2 (Z.eqb_neq x y)) by done. lia.
Qed.

Lemma tri_range s n : 0 <= n -> flat_map (fun x => map (fun y => (x, y)) (seqZ x (s + n - x))) (seqZ s n) = tri (seqZ s n).
Proof.
  intros Hn. revert s. pattern n. apply natlike_ind; [done|clear n Hn|done].
  intros n Hn IH s. rewrite (seqZ_cons s) by lia. replace (Z.pred (Z.succ n)) with n by lia. cbn [flat_map tri].
  replace (s + Z.succ n - s) with (Z.succ n) by lia. rewrite (seqZ_cons s) by lia. cbn [map app].
  replace (Z.pred (Z.succ n)) with n by lia. f_equal. f_equal. rewrite <-IH. apply flat_map_ext.
  intros x. by replace (s + Z.succ n - x) with (Z.succ s + n - x) by lia.
Qed.

Lemma limb_pairs_tri L : 0 <= lg_limb_count L -> LimbGramLayout.limb_pairs L = tri (range (lg_limb_count L)).
Proof. intros HK. unfold LimbGramLayout.limb_pairs, range. rewrite <-(tri_range 0) by done. done. Qed.

Lemma tri_bounds l x y : (x, y) ∈ tri l -> x ∈ l /\ y ∈ l.
Proof.
  induction l as [|z l IH]; cbn [tri]; [by intros ?%not_elem_of_nil|].
  rewrite elem_of_cons, elem_of_app, list_elem_of_fmap. intros [[= -> ->]|[(w & [= -> ->] & Hw)|Hxy]].
  - split; left.
  - split; [left|by right].
  - destruct (IH Hxy). split; by right.
Qed.

(** * Layouts *)

Record layout_ok (n bl K : Z) (L : LimbGramLayout) : Prop := {
  lo_len : lg_response_len L = n;
  lo_block : lg_block_len L = bl;
  lo_limbs : lg_limb_count L = K;
  lo_bl : 0 < bl <= n;
  lo_n : n <= USIZE_MAX;
  lo_K : 0 < K;
  lo_count : block_count L = (n + bl - 1) / bl;
  lo_pairs : 2 * pair_count L = K * (K + 1);
  lo_pairs_max : K * (K + 1) <= USIZE_MAX;
  lo_claims_max : block_count L * pair_count L <= USIZE_MAX;
}.

Lemma layout_new n bl K L : in_u USIZE_BITS n -> in_u USIZE_BITS bl -> in_u USIZE_BITS K ->
  LimbGramLayout.new n bl K = Ok L -> layout_ok n bl K L.
Proof.
  unfold LimbGramLayout.new. intros Hn Hbl HK. destruct (_ || _) eqn:G; [done|]. bool_prop.
  unfold in_u in *. intros Hnew.
  destruct (checked_add K 1) as [s|] eqn:Hs; [|done]. apply checked_u_Some in Hs as [_ ->]. cbn [ok_or obind] in Hnew.
  destruct (checked_mul K (K + 1)) as [t|] eqn:Ht; [|done]. apply checked_u_Some in Ht as [Ht ->]. cbn [ok_or obind] in Hnew.
  destruct (checked_mul ((n + bl - 1) / bl) _) as [u|] eqn:Hu; [|done]. apply checked_u_Some in Hu as [Hu _].
  cbn [ok_or obind] in Hnew. injection Hnew as <-. unfold in_u, USIZE_MAX in *.
  constructor; cbn [lg_response_len lg_block_len lg_limb_count block_count pair_count]; try done; try (unfold USIZE_MAX; lia).
  pose proof (Z_div_mod_eq_full (K * (K + 1)) 2) as Hd.
  assert (He : (K * (K + 1)) mod 2 = 0); [|lia].
  rewrite Zmult_mod, Zplus_mod. destruct (Z.mod_pos_bound K 2 ltac:(done)).
  assert (K mod 2 = 0 \/ K mod 2 = 1) as [->| ->] by lia; done.
Qed.

Section layout.
Variables (n bl K : Z) (L : LimbGramLayout).
Context (HL : layout_ok n bl K L).

Lemma block_count_pos : 0 < block_count L.
Proof. destruct HL. rewrite lo_count0. apply Z.div_str_pos. lia. Qed.

(** [block_len * (block_count - 1) < n <= block_len * block_count] *)
Lemma block_count_bounds : bl * (block_count L - 1) < n <= bl * block_count L.
Proof. destruct HL. rewrite lo_count0. pose proof (Z_div_mod_eq_full (n + bl - 1) bl). pose proof (Z.mod_pos_bound (n + bl - 1) bl ltac:(lia)). nia. Qed.

Lemma block_range_value b : 0 <= b < block_count L ->
  LimbGramLayout.block_range L b = (b * bl, Z.min (b * bl + bl) n) /\ b * bl <= n.
Proof.
  intros Hb. pose proof block_count_bounds as Hc. destruct HL. unfold LimbGramLayout.block_range, saturating_add.
  rewrite lo_len0, lo_block0. split; [|nia]. f_equal. lia.
Qed.

(** The positions of a block. *)
Definition block_positions (b : Z) : list Z := seqZ (b * bl) (Z.min (b * bl + bl) n - b * bl).

Lemma blocks_partition : flat_map block_positions (range (block_count L)) = range n.
Proof.
  pose proof block_count_bounds as Hc. pose proof block_count_pos as Hp. assert (Hbl : 0 < bl) by (destruct HL; lia).
  assert (Hgen : forall m, 0 <= m -> m <= block_count L ->
    flat_map block_positions (range m) = range (Z.min (m * bl) n)).
  { intros m Hm. pattern m. apply natlike_ind; [|clear m Hm|done].
    - intros _. rewrite Z.mul_0_l. destruct HL. by rewrite Z.min_l by lia.
    - intros m Hm IH Hle. rewrite <-Z.add_1_r, range_S, flat_map_app, IH by lia. cbn [flat_map]. rewrite app_nil_r.
      unfold block_positions, range. rewrite (Z.min_l (m * bl)) by nia.
      rewrite <-(Z.add_0_l (m * bl)) at 2. rewrite <-seqZ_app by nia. f_equal. nia. }
  rewrite Hgen by lia. f_equal. nia.
Qed.

(** Every index of the triangle is the position in the canonical order. *)
Definition row_offset (l : Z) : Z := l * K - l * (l - 1) / 2.

Lemma row_offset_S l : row_offset (l + 1) = row_offset l + (K - l).
Proof.
  unfold row_offset. replace ((l + 1) * (l + 1 - 1)) with (l * (l - 1) + l * 2) by ring. rewrite Z.div_add by done. ring.
Qed.

Lemma row_offset_K : row_offset K = pair_count L.
Proof.
  destruct HL. unfold row_offset. apply Z.mul_reg_l with 2; [done|]. rewrite lo_pairs0.
  assert (He : (K * (K - 1)) mod 2 = 0).
  { rewrite Zmult_mod, Zminus_mod. assert (K mod 2 = 0 \/ K mod 2 = 1) as [->| ->] by (pose proof (Z.mod_pos_bound K 2); lia); done. }
  pose proof (Z_div_mod_eq_full (K * (K - 1)) 2). lia.
Qed.

Lemma row_offset_le l : 0 <= l <= K -> 0 <= row_offset l /\ row_offset l <= K * K /\ row_offset l + (K - l) <= K * K.
Proof.
  intros Hl. unfold row_offset. assert (Hh : 0 <= l * (l - 1) / 2) by (apply Z.div_pos; nia).
  assert (Hd : 2 * (l * (l - 1) / 2) <= l * (l - 1)) by (apply Z.mul_div_le; lia). nia.
Qed.

Lemma row_offset_mono l d : 0 <= d -> 0 <= l -> l + d <= K -> row_offset l <= row_offset (l + d).
Proof.
  intros Hd. pattern d. apply natlike_ind; [..|done].
  - rewrite Z.add_0_r. done.
  - intros x Hx IH Hl Hle. unfold Z.succ in *. rewrite Z.add_assoc, (row_offset_S (l + x)).
    specialize (IH Hl ltac:(lia)). lia.
Qed.

Lemma pair_position l r : 0 <= l <= r -> r < K -> 0 <= row_offset l + (r - l) < pair_count L.
Proof.
  intros Hl Hr. pose proof (row_offset_mono (l + 1) (K - (l + 1)) ltac:(lia) ltac:(lia) ltac:(lia)) as Hm.
  replace (l + 1 + (K - (l + 1))) with K in Hm by lia. rewrite row_offset_K, row_offset_S in Hm.
  pose proof (row_offset_le l ltac:(lia)). lia.
Qed.

Lemma subclaim_index_value b l r : 0 <= b < block_count L -> 0 <= l <= r -> r < K ->
  LimbGramLayout.subclaim_index L b l r = Some (b * pair_count L + (row_offset l + (r - l))).
Proof.
  intros Hb Hl Hr. pose proof (pair_position l r Hl Hr) as Hpos. pose proof (row_offset_le l ltac:(lia)) as (O1 & O2 & O3).
  assert (Hbase : 0 <= b * pair_count L /\ b * pair_count L + pair_count L <= block_count L * pair_count L) by nia.
  assert (HlK : 0 <= l * K <= K * K /\ 0 <= l * (l - 1) <= K * K) by nia.
  assert (HU : forall z, 0 <= z <= K * K -> usize z = Some z).
  { intros z Hz. apply checked_u_in. pose proof (lo_pairs_max _ _ _ _ HL). unfold in_u, USIZE_MAX in *. nia. }
  assert (HB : forall z, 0 <= z <= block_count L * pair_count L -> usize z = Some z).
  { intros z Hz. apply checked_u_in. pose proof (lo_claims_max _ _ _ _ HL). unfold in_u, USIZE_MAX in *. lia. }
  unfold LimbGramLayout.subclaim_index, checked_mul, checked_sub, checked_add. rewrite (lo_limbs _ _ _ _ HL).
  case_Z. replace (saturating_sub l 1) with (Z.max 0 (l - 1)) by (unfold saturating_sub; lia).
  replace (l * Z.max 0 (l - 1)) with (l * (l - 1)) by nia.
  rewrite (HU (l * K)), (HU (l * (l - 1))) by lia. cbn [mbind option_bind]. change (l * K - l * (l - 1) / 2) with (row_offset l).
  rewrite (HU (row_offset l)) by lia. cbn [mbind option_bind]. rewrite (HU (r - l)) by nia. cbn [mbind option_bind].
  rewrite (HU (row_offset l + (r - l))) by lia. cbn [mbind option_bind].
  rewrite (HB (b * pair_count L)) by lia. cbn [mbind option_bind]. by rewrite HB by lia.
Qed.
End layout.

(** * Flattened grids *)

Section flat.
Context {A : Type} (f : Z -> list A) (off : Z -> Z) (N : Z).
Hypothesis Hoff0 : off 0 = 0.
Hypothesis HoffS : forall m, 0 <= m < N -> off (m + 1) = off m + len (f m).

Lemma len_flat m : 0 <= m <= N -> len (flat_map f (range m)) = off m.
Proof.
  intros [Hm Hle]. revert Hle. pattern m. apply natlike_ind; [..|done].
  - intros _. rewrite Hoff0. done.
  - intros x Hx IH Hle. unfold Z.succ. rewrite range_S, flat_map_app, len_app, IH, HoffS by lia.
    cbn [flat_map]. by rewrite app_nil_r.
Qed.

Lemma index_flat m j : 0 <= m < N -> 0 <= j < len (f m) ->
  index (flat_map f (range N)) (off m + j) = index (f m) j.
Proof.
  intros Hm Hj. assert (Hs : range N = range m ++ m :: seqZ (m + 1) (N - m - 1)).
  { unfold range. replace N with (m + (N - m)) at 1 by lia. rewrite seqZ_app, Z.add_0_l, (seqZ_cons m) by lia.
    do 3 f_equal; lia. }
  rewrite Hs, flat_map_app. cbn [flat_map]. pose proof (len_flat m ltac:(lia)) as Hl. unfold len in Hl.
  unfold len in Hj. unfold index. pose proof (Zle_0_nat (length (flat_map f (range m)))).
  rewrite (proj2 (Z.leb_le 0 (off m + j))), (proj2 (Z.leb_le 0 j)) by lia.
  rewrite lookup_app_r, lookup_app_l by lia. f_equal. lia.
Qed.
End flat.

(** * The true claims *)

Section gram.
Variables (n bl K : Z) (L : LimbGramLayout).
Context (HL : layout_ok n bl K L).
Variable limb : Z -> Z -> Z.

(** The inner product of two limbs over a block, and all of them in order. *)
Definition block_gram (b : Z) (pair : Z * Z) : Z :=
  zsum (fun i => limb (fst pair) i * limb (snd pair) i) (block_positions n bl b).
Definition gram_claims : list Z :=
  flat_map (fun b => map (block_gram b) (LimbGramLayout.limb_pairs L)) (range (block_count L)).

Lemma pair_bounds l r : (l, r) ∈ LimbGramLayout.limb_pairs L -> 0 <= l <= r /\ r < K.
Proof.
  unfold LimbGramLayout.limb_pairs. rewrite (lo_limbs _ _ _ _ HL). intros Hp.
  apply list_elem_of_In, in_flat_map in Hp as (x & Hx & Hp). apply in_map_iff in Hp as (y & [= -> ->] & Hy).
  apply list_elem_of_In, elem_of_range in Hx. apply list_elem_of_In, elem_of_seqZ in Hy. lia.
Qed.

Lemma row_offset_0 : row_offset K 0 = 0.
Proof. done. Qed.

Lemma row_len g m : 0 <= m < K -> row_offset K (m + 1) = row_offset K m + len (map (g : Z -> Z * Z) (seqZ m (K - m))).
Proof. intros Hm. rewrite row_offset_S. unfold len. rewrite length_map, length_seqZ. lia. Qed.

Lemma len_limb_pairs : len (LimbGramLayout.limb_pairs L) = pair_count L.
Proof.
  unfold LimbGramLayout.limb_pairs. rewrite (lo_limbs _ _ _ _ HL), <-(row_offset_K n bl K L HL).
  apply (len_flat _ (row_offset K) K row_offset_0); [|pose proof (lo_K _ _ _ _ HL); lia].
  intros m Hm. by apply row_len.
Qed.

Lemma index_limb_pairs l r : (l, r) ∈ LimbGramLayout.limb_pairs L ->
  index (LimbGramLayout.limb_pairs L) (row_offset K l + (r - l)) = Some (l, r).
Proof.
  intros Hp. destruct (pair_bounds l r Hp) as [Hl Hr]. unfold LimbGramLayout.limb_pairs. rewrite (lo_limbs _ _ _ _ HL).
  rewrite (index_flat _ (row_offset K) K row_offset_0); [|intros m Hm; by apply row_len|lia|
    unfold len; rewrite length_map, length_seqZ; lia].
  rewrite index_map. unfold index. rewrite (proj2 (Z.leb_le 0 (r - l))) by lia.
  rewrite (lookup_seqZ_lt) by lia. cbn. do 2 f_equal. lia.
Qed.

Lemma len_gram_claims : len gram_claims = LimbGramLayout.subclaim_count L.
Proof.
  unfold gram_claims, LimbGramLayout.subclaim_count. pose proof (block_count_pos n bl K L HL).
  apply (len_flat _ (fun b => b * pair_count L) (block_count L)); [done| |lia].
  intros m Hm. unfold len at 1. rewrite length_map. fold (len (LimbGramLayout.limb_pairs L)). rewrite len_limb_pairs. lia.
Qed.

(** The flat index of a block and pair holds its inner product. *)
Lemma claim_at b l r : 0 <= b < block_count L -> (l, r) ∈ LimbGramLayout.limb_pairs L ->
  exists k, LimbGramLayout.subclaim_index L b l r = Some k /\ index gram_claims k = Some (block_gram b (l, r)).
Proof.
  intros Hb Hp. destruct (pair_bounds l r Hp) as [Hl Hr]. eexists.
  split; [by apply (subclaim_index_value n bl K L HL)|]. unfold gram_claims.
  pose proof (pair_position n bl K L HL l r Hl Hr) as Hpos.
  assert (Hlen : forall m, len (map (block_gram m) (LimbGramLayout.limb_pairs L)) = pair_count L)
    by (intros m; unfold len; rewrite length_map; apply len_limb_pairs).
  rewrite (index_flat _ (fun b => b * pair_count L) (block_count L)); [|done|intros m _; rewrite Hlen; lia|done|by rewrite Hlen].
  by rewrite index_map, index_limb_pairs.
Qed.
End gram.

(** * Reconstruction *)

Lemma ofold_sum {A} (step : Z -> A -> result Z) (f g : A -> Z) B l t :
  (forall x, x ∈ l -> Z.abs (f x) <= g x) ->
  (forall x t, x ∈ l -> Z.abs t + g x < B -> step t x = Ok (t + f x)) ->
  Z.abs t + zsum g l < B -> ofold step l t = Ok (t + zsum f l).
Proof.
  revert t; induction l as [|x l IH]; intros t Hfg Hstep Hb; cbn [ofold zsum foldr] in *; [f_equal; lia|].
  fold (zsum f l). fold (zsum g l) in Hb.
  assert (Hg : 0 <= zsum g l).
  { apply zsum_nonneg. intros y Hy. pose proof (Hfg y ltac:(by right)). lia. }
  pose proof (Hfg x ltac:(left)). rewrite Hstep by (left || lia). cbn [obind].
  rewrite IH; [f_equal; lia|intros y Hy; apply Hfg; by right|intros y t' Hy; apply Hstep; by right|lia].
Qed.

Lemma i128_fits z : Z.abs z < 2 ^ 127 -> checked_s 128 z = Some z.
Proof. intros Hz. unfold checked_s. change (128 - 1) with 127. case_Z. done. Qed.

Section reconstruct.
Variables (n bl K : Z) (L : LimbGramLayout).
Context (HL : layout_ok n bl K L).
Variables (basis : Z) (limb : Z -> Z -> Z).
Hypothesis Hbasis : 2 <= basis.

(** The response at a position, from its limbs. *)
Definition response (i : Z) : Z := zsum (fun l => basis ^ l * limb l i) (range K).

Definition gram_term (b : Z) (pair : Z * Z) : Z :=
  block_gram n bl limb b pair * (basis ^ (fst pair + snd pair) * (if fst pair =? snd pair then 1 else 2)).

Lemma gram_terms_sum : zsum (fun b => zsum (gram_term b) (LimbGramLayout.limb_pairs L)) (range (block_count L))
  = zsum (fun i => response i * response i) (range n).
Proof.
  rewrite <-(blocks_partition n bl K L HL), zsum_flat_map. apply zsum_ext. intros b _.
  transitivity (zsum (fun pair => zsum (fun i =>
    (if fst pair =? snd pair then 1 else 2) * ((basis ^ fst pair * limb (fst pair) i) * (basis ^ snd pair * limb (snd pair) i)))
      (block_positions n bl b)) (LimbGramLayout.limb_pairs L)).
  - apply zsum_ext. intros [l r] Hp. destruct (pair_bounds n bl K L HL l r Hp).
    unfold gram_term, block_gram. cbn [fst snd]. rewrite Z.pow_add_r, Z.mul_comm, <-zsum_mul by lia. apply zsum_ext. intros i _. ring.
  - rewrite zsum_swap. apply zsum_ext. intros i _. pose proof (lo_K _ _ _ _ HL).
    rewrite limb_pairs_tri, (lo_limbs _ _ _ _ HL) by (rewrite (lo_limbs _ _ _ _ HL); lia).
    unfold response. rewrite <-(zsum_square (fun l => basis ^ l * limb l i)) by apply NoDup_seqZ.
    apply zsum_ext. by intros [l r] _.
Qed.
End reconstruct.

Section bounded.
Variables (n bl K : Z) (L : LimbGramLayout).
Context (HL : layout_ok n bl K L).
Variables (basis : Z) (limb : Z -> Z -> Z).
Hypothesis Hbasis : 2 <= basis.
Hypothesis Hlimb : forall l i, 0 <= l < K -> 0 <= i < n -> Z.abs (limb l i) <= basis / 2.

Abbreviation abs_limb := (fun l i => Z.abs (limb l i)).

Lemma block_positions_in b i : 0 <= b < block_count L -> i ∈ block_positions n bl b -> 0 <= i < n.
Proof.
  unfold block_positions. intros Hb Hi. apply elem_of_seqZ in Hi. pose proof (lo_bl _ _ _ _ HL). nia.
Qed.

Lemma gram_term_abs b pair : Z.abs (gram_term n bl basis limb b pair) <= gram_term n bl basis abs_limb b pair.
Proof.
  unfold gram_term, block_gram. rewrite Z.abs_mul.
  assert (Hp : 0 <= basis ^ (fst pair + snd pair) * (if fst pair =? snd pair then 1 else 2)).
  { apply Z.mul_nonneg_nonneg; [apply Z.pow_nonneg; lia|]. by destruct (_ =? _). }
  rewrite (Z.abs_eq (basis ^ _ * _)) by done. apply Z.mul_le_mono_nonneg_r; [done|].
  etransitivity; [apply zsum_abs|]. apply zsum_le. intros i _. rewrite Z.abs_mul. lia.
Qed.

(** A response is at most the largest one with [K] digits. *)
Lemma response_abs (a : Z -> Z -> Z) i m : 0 <= m <= K ->
  (forall l, 0 <= l < K -> 0 <= a l i <= basis / 2) -> 0 <= response m basis a i <= basis ^ m.
Proof.
  intros [Hm Hle] Ha. revert Hle. pattern m. apply natlike_ind; [..|done].
  - intros _. change (0 <= 0 <= 1). lia.
  - intros x Hx IH Hle. unfold response, Z.succ in *. rewrite range_S, zsum_app, Z.pow_add_r, Z.pow_1_r by lia.
    specialize (IH ltac:(lia)). pose proof (Ha x ltac:(lia)) as Hax. cbn [zsum foldr].
    assert (Hpow : 0 < basis ^ x) by (apply Z.pow_pos_nonneg; lia).
    assert (Hh : basis / 2 <= basis - 1) by (apply Z.lt_le_pred, Z.div_lt; lia). nia.
Qed.

Lemma gram_terms_bound :
  zsum (fun b => zsum (gram_term n bl basis abs_limb b) (LimbGramLayout.limb_pairs L)) (range (block_count L))
  <= n * basis ^ (2 * K).
Proof.
  pose proof (lo_K _ _ _ _ HL). pose proof (lo_bl _ _ _ _ HL).
  rewrite (gram_terms_sum n bl K L HL basis abs_limb).
  transitivity (zsum (fun _ => basis ^ (2 * K)) (range n)).
  - apply zsum_le. intros i Hi. apply elem_of_range in Hi.
    destruct (response_abs abs_limb i K ltac:(lia)) as [R1 R2].
    { intros l Hl. pose proof (Hlimb l i Hl Hi). lia. }
    replace (2 * K) with (K + K) by lia. rewrite Z.pow_add_r by lia. by apply Z.mul_le_mono_nonneg.
  - rewrite zsum_const, len_range by lia. lia.
Qed.

Hypothesis Hfits : n * basis ^ (2 * K) < 2 ^ 127.

Lemma pow_fits e : 0 <= e <= 2 * K -> 0 < basis ^ e < 2 ^ 127.
Proof.
  intros He. pose proof (lo_bl _ _ _ _ HL). split; [apply Z.pow_pos_nonneg; lia|].
  assert (basis ^ e <= basis ^ (2 * K)) by (apply Z.pow_le_mono_r; lia).
  assert (0 < basis ^ (2 * K)) by (apply Z.pow_pos_nonneg; lia). nia.
Qed.

Lemma gram_powers_value : gram_powers basis (2 * K) = Ok (map (fun e => basis ^ e) (range (2 * K))).
Proof.
  unfold gram_powers. pose proof (lo_K _ _ _ _ HL).
  match goal with |- obind (ofold ?f _ _) _ = _ =>
    destruct (ofold_range (fun i st => st = (map (fun e => basis ^ e) (range i), basis ^ i)) f (2 * K) ([], 1))
      as ([ps p] & -> & [= -> ->]) end; [lia|done|..|done].
  intros i st Hi ->. pose proof (pow_fits (i + 1) ltac:(lia)). unfold mul_i128.
  assert (Hm : basis ^ i * basis = basis ^ (i + 1)) by (rewrite Z.pow_add_r, Z.pow_1_r by lia; done).
  rewrite i128_fits by (rewrite Hm; lia). eexists. split; [done|]. rewrite range_S, map_app, Hm by lia. done.
Qed.

Lemma add_claim_value b total l r : 0 <= b < block_count L -> (l, r) ∈ LimbGramLayout.limb_pairs L ->
  Z.abs total + gram_term n bl basis abs_limb b (l, r) < 2 ^ 127 ->
  add_claim L (map (fun e => basis ^ e) (range (2 * K))) (gram_claims n bl L limb) b total (l, r)
  = Ok (total + gram_term n bl basis limb b (l, r)).
Proof.
  intros Hb Hp Hsum. destruct (pair_bounds n bl K L HL l r Hp) as [Hl Hr].
  destruct (claim_at n bl K L HL limb b l r Hb Hp) as (k & Hk & Hc). pose proof (gram_term_abs b (l, r)) as Habs.
  unfold add_claim. rewrite Hk. cbn [ok_or obind]. rewrite Hc. cbn [ok_or obind].
  pose proof (lo_pairs_max _ _ _ _ HL) as Hmax. unfold checked_add, usize. rewrite checked_u_in; cycle 1.
  { unfold in_u, USIZE_MAX in *. nia. }
  cbn [ok_or obind]. rewrite index_map. unfold index at 1. rewrite (proj2 (Z.leb_le 0 (l + r))) by lia.
  unfold range. rewrite lookup_seqZ_lt by lia. cbn [fmap option_fmap option_map ok_or obind].
  rewrite Z2Nat.id, Z.add_0_l by lia. unfold mul_i128, add_i128.
  assert (Hsc : 0 < basis ^ (l + r) * (if l =? r then 1 else 2) <= basis ^ (l + r + 1)).
  { assert (0 < basis ^ (l + r)) by (apply Z.pow_pos_nonneg; lia). rewrite (Z.pow_add_r basis (l + r) 1), Z.pow_1_r by lia.
    destruct (l =? r); nia. }
  pose proof (pow_fits (l + r + 1) ltac:(lia)). rewrite i128_fits by lia. cbn [ok_or obind].
  change (block_gram n bl limb b (l, r) * (basis ^ (l + r) * (if l =? r then 1 else 2)))
    with (gram_term n bl basis limb b (l, r)).
  rewrite i128_fits by lia. cbn [ok_or obind]. by rewrite i128_fits by lia.
Qed.

Lemma inner_sum_value b total : 0 <= b < block_count L ->
  Z.abs total + zsum (gram_term n bl basis abs_limb b) (LimbGramLayout.limb_pairs L) < 2 ^ 127 ->
  ofold (add_claim L (map (fun e => basis ^ e) (range (2 * K))) (gram_claims n bl L limb) b)
    (LimbGramLayout.limb_pairs L) total
  = Ok (total + zsum (gram_term n bl basis limb b) (LimbGramLayout.limb_pairs L)).
Proof.
  intros Hb Hsum. apply (ofold_sum _ _ (gram_term n bl basis abs_limb b) (2 ^ 127)); [|..|done].
  - intros p _. apply gram_term_abs.
  - intros [l r] t Hp Ht. by apply add_claim_value.
Qed.

Lemma terms_nonneg b : 0 <= zsum (gram_term n bl basis abs_limb b) (LimbGramLayout.limb_pairs L).
Proof. apply zsum_nonneg. intros p _. pose proof (gram_term_abs b p). lia. Qed.

Lemma total_sum_value :
  ofold (fun total b => ofold (add_claim L (map (fun e => basis ^ e) (range (2 * K))) (gram_claims n bl L limb) b)
      (LimbGramLayout.limb_pairs L) total) (range (block_count L)) 0
  = Ok (zsum (fun i => response K basis limb i * response K basis limb i) (range n)).
Proof.
  rewrite <-(gram_terms_sum n bl K L HL basis limb).
  rewrite <-(Z.add_0_l (zsum _ _)).
  apply (ofold_sum _ _ (fun b => zsum (gram_term n bl basis abs_limb b) (LimbGramLayout.limb_pairs L)) (2 ^ 127)).
  - intros b _. etransitivity; [apply zsum_abs|]. apply zsum_le. intros p _. apply gram_term_abs.
  - intros b t Hb%elem_of_range Ht. by apply inner_sum_value.
  - pose proof gram_terms_bound. lia.
Qed.
End bounded.

(** Recombining the limb inner products gives the exact square sum.  If
    the claims are, in the canonical block-major and upper-triangular order,
    the integer inner products of limbs of at most half the basis, the
    reconstruction returns the sum over all positions of the square of the
    response recomposed from its limbs; nothing overflows as long as
    [n * basis^(2 * limbs)] fits a signed 128-bit integer. *)
Theorem gram_reconstruction n bl K basis L limb :
  in_u USIZE_BITS n -> in_u USIZE_BITS bl -> in_u USIZE_BITS K ->
  LimbGramLayout.new n bl K = Ok L -> 2 <= basis ->
  (forall l i, 0 <= l < K -> 0 <= i < n -> Z.abs (limb l i) <= basis / 2) ->
  n * basis ^ (2 * K) < 2 ^ 127 ->
  reconstruct_l2_sq_from_gram (LimbGram n bl K) basis (gram_claims n bl L limb)
  = Ok (zsum (fun i => response K basis limb i * response K basis limb i) (range n)).
Proof.
  intros Hn Hbl HK Hnew Hbasis Hlimb Hfits. pose proof (layout_new n bl K L Hn Hbl HK Hnew) as HL.
  unfold reconstruct_l2_sq_from_gram. cbn [PhysicalL2NormProofShape.limb_gram_layout]. rewrite Hnew. cbn [obind ok_or].
  rewrite (len_gram_claims n bl K L HL), Z.eqb_refl. cbn [negb].
  pose proof (lo_K _ _ _ _ HL). pose proof (lo_bl _ _ _ _ HL).
  destruct (pow_fits n bl K L HL basis Hbasis Hfits 1 ltac:(lia)) as [_ Hb1]. rewrite Z.pow_1_r in Hb1.
  rewrite i128_fits by lia. cbn [ok_or obind]. rewrite (lo_limbs _ _ _ _ HL).
  pose proof (lo_pairs_max _ _ _ _ HL). unfold checked_mul, usize. rewrite checked_u_in; cycle 1.
  { unfold in_u, USIZE_MAX in *. nia. }
  cbn [ok_or obind]. rewrite (Z.mul_comm K 2), (gram_powers_value n bl K L HL basis Hbasis Hfits). cbn [obind].
  rewrite (total_sum_value n bl K L HL basis limb Hbasis Hlimb Hfits). cbn [obind].
  rewrite checked_u_in; [done|]. split.
  - apply zsum_nonneg. intros i _. apply Z.square_nonneg.
  - rewrite <-(gram_terms_sum n bl K L HL basis limb).
    pose proof (gram_terms_bound n bl K L HL basis limb Hbasis Hlimb) as Hb.
    assert (zsum (fun b => zsum (gram_term n bl basis limb b) (LimbGramLayout.limb_pairs L)) (range (block_count L))
      <= zsum (fun b => zsum (gram_term n bl basis (fun l i => Z.abs (limb l i)) b) (LimbGramLayout.limb_pairs L))
           (range (block_count L))); [|lia].
    apply zsum_le. intros b _. apply zsum_le. intros p _. pose proof (gram_term_abs n bl basis limb Hbasis b p). lia.
Qed.

(** * No wrap-around *)

(** A loop over [0..n] that returns keeps an indexed invariant. *)
Lemma ofold_range_inv {S} (I : Z -> S -> Prop) (f : S -> Z -> result S) n s s' :
  0 <= n -> I 0 s -> (forall i s s', 0 <= i < n -> I i s -> f s i = Ok s' -> I (i + 1) s') ->
  ofold f (range n) s = Ok s' -> I n s'.
Proof.
  intros Hn H0. revert s'. pattern n. apply natlike_ind; [|clear n Hn|done].
  - by intros s' _ [= <-].
  - intros n Hn IH s' Hf. unfold Z.succ. rewrite range_S, ofold_app by done. intros Ho. obind_inv Ho. cbn [ofold] in Ho.
    obind_inv Ho. injection Ho as <-. apply (Hf n a); [lia| |done]. apply IH; [|done].
    intros i t t' Hi. apply Hf. lia.
Qed.

(** ** Partial correctness: the checked operations make every returned value exact *)

Lemma checked_s_value w z x : checked_s w z = Some x -> x = z.
Proof. unfold checked_s. destruct (_ && _); [|done]. by intros [= ->]. Qed.

Lemma ok_or_Ok {E A} (o : option A) (e : E) x : ok_or o e = Ok x -> o = Some x.
Proof. destruct o; [|done]. by intros [= ->]. Qed.

Lemma ofold_sum_sound {A} (f : Z -> A -> result Z) (g : A -> Z) l t v :
  (forall x t v, x ∈ l -> f t x = Ok v -> v = t + g x) -> ofold f l t = Ok v -> v = t + zsum g l.
Proof.
  revert t; induction l as [|x l IH]; intros t Hf Hv; cbn [ofold] in Hv.
  - injection Hv as <-. change (zsum g []) with 0. lia.
  - obind_inv Hv. apply Hf in E; [|by left]. apply IH in Hv; [|intros; apply Hf; [by right|done]].
    change (zsum g (x :: l)) with (g x + zsum g l). lia.
Qed.

Lemma gram_powers_sound basis m ps : 0 <= m -> gram_powers basis m = Ok ps -> ps = map (fun e => basis ^ e) (range m).
Proof.
  intros Hm. unfold gram_powers. intros Hp. obind_inv Hp. destruct a as [ps' p]. injection Hp as ->.
  assert (Hinv : ps = map (fun e => basis ^ e) (range m) /\ p = basis ^ m); [|by destruct Hinv].
  revert E. apply (ofold_range_inv (fun i st => fst st = map (fun e => basis ^ e) (range i) /\ snd st = basis ^ i)
    _ m ([], 1) (ps, p) Hm); [done|].
  intros i [qs q] st Hi [Hqs Hq] Hs. cbn [fst snd] in Hqs, Hq. subst qs q. obind_inv Hs. injection Hs as <-.
  apply ok_or_Ok, checked_s_value in E as ->. cbn [fst snd]. rewrite range_S, map_app, Z.pow_add_r, Z.pow_1_r by lia. done.
Qed.

Section partial.
Variables (n bl K : Z) (L : LimbGramLayout).
Context (HL : layout_ok n bl K L).
Variables (basis : Z) (limb : Z -> Z -> Z).

Lemma add_claim_sound b total l r v : 0 <= b < block_count L -> (l, r) ∈ LimbGramLayout.limb_pairs L ->
  add_claim L (map (fun e => basis ^ e) (range (2 * K))) (gram_claims n bl L limb) b total (l, r) = Ok v ->
  v = total + gram_term n bl basis limb b (l, r).
Proof.
  intros Hb Hp Hv. destruct (pair_bounds n bl K L HL l r Hp) as [Hl Hr].
  destruct (claim_at n bl K L HL limb b l r Hb Hp) as (k & Hk & Hc). unfold add_claim in Hv.
  rewrite Hk in Hv. cbn [ok_or obind] in Hv. rewrite Hc in Hv. cbn [ok_or obind] in Hv.
  obind_inv Hv. apply ok_or_Ok, checked_u_Some in E as [_ ->]. obind_inv Hv. apply ok_or_Ok in E.
  rewrite index_map in E. unfold index at 1 in E. rewrite (proj2 (Z.leb_le 0 (l + r))) in E by lia.
  unfold range in E. rewrite lookup_seqZ_lt in E by lia. cbn [fmap option_fmap option_map] in E. injection E as <-.
  rewrite Z2Nat.id, Z.add_0_l in Hv by lia. obind_inv Hv. apply ok_or_Ok, checked_s_value in E as ->.
  obind_inv Hv. apply ok_or_Ok, checked_s_value in E as ->. apply ok_or_Ok, checked_s_value in Hv as ->. done.
Qed.

(** Whatever the sizes, a reconstruction of true claims that returns is the
    exact square sum. *)
Lemma reconstruct_sound v : in_u USIZE_BITS K ->
  PhysicalL2NormProofShape.limb_gram_layout (LimbGram n bl K) = Ok (Some L) ->
  reconstruct_l2_sq_from_gram (LimbGram n bl K) basis (gram_claims n bl L limb) = Ok v ->
  v = zsum (fun i => response K basis limb i * response K basis limb i) (range n).
Proof.
  intros HK Hlay. unfold reconstruct_l2_sq_from_gram. rewrite Hlay. cbn [obind ok_or]. intros Hv.
  destruct (negb _); [done|]. obind_inv Hv. apply ok_or_Ok, checked_s_value in E as ->.
  rewrite (lo_limbs _ _ _ _ HL) in Hv. obind_inv Hv. apply ok_or_Ok, checked_u_Some in E as [_ ->].
  obind_inv Hv. rewrite Z.mul_comm in E. apply gram_powers_sound in E as ->; [|unfold in_u in HK; lia].
  obind_inv Hv. apply ok_or_Ok, checked_u_Some in Hv as [_ ->].
  apply (ofold_sum_sound _ (fun b => zsum (gram_term n bl basis limb b) (LimbGramLayout.limb_pairs L))) in E.
  - rewrite E, Z.add_0_l. apply (gram_terms_sum n bl K L HL).
  - intros b t w Hb%elem_of_range. apply ofold_sum_sound. intros [l r] t' w' Hp. by apply add_claim_sound.
Qed.
End partial.

Ltac u128_inv H :=
  match type of H with
  | context [ok_or (checked_u 128 ?z) _] =>
      let Hin := fresh "Hin" in
      destruct (checked_u 128 z) eqn:Hin; [|discriminate H]; apply checked_u_Some in Hin as [Hin ->];
      cbn [ok_or obind] in H
  end.

(** The loop of the direct bound computes the largest response. *)
Lemma response_bound_value digit_abs basis K m : 0 <= K ->
  PhysicalL2NormProofShape.response_bound digit_abs basis K = Ok m ->
  m = response K basis (fun _ _ => digit_abs) 0.
Proof.
  intros HK. unfold PhysicalL2NormProofShape.response_bound. intros Hm. obind_inv Hm. destruct a as [m' p]. injection Hm as ->.
  assert (Hinv : m = response K basis (fun _ _ => digit_abs) 0 /\ p = basis ^ K); [|by destruct Hinv].
  revert E. apply (ofold_range_inv (fun i st => fst st = response i basis (fun _ _ => digit_abs) 0 /\ snd st = basis ^ i)
    _ K (0, 1) (m, p) HK); [done|].
  intros i [m1 p1] st Hi [Hm1 Hp1] Hs. cbn [fst snd] in Hm1, Hp1. subst m1 p1. unfold mul_u128, add_u128 in Hs.
  u128_inv Hs. u128_inv Hs. u128_inv Hs. injection Hs as <-. cbn [fst snd]. unfold response.
  rewrite range_S, zsum_app, Z.pow_add_r, Z.pow_1_r by lia. cbn [zsum foldr]. lia.
Qed.

Lemma response_le basis K limb i : 0 <= basis -> 0 <= K ->
  (forall l, 0 <= l < K -> Z.abs (limb l i) <= basis / 2) ->
  Z.abs (response K basis limb i) <= Z.abs (response K basis (fun _ _ => basis / 2) 0).
Proof.
  intros Hb HK Hl. etransitivity; [apply zsum_abs|]. rewrite (Z.abs_eq (response _ _ _ _)).
  - apply zsum_le. intros l Hr%elem_of_range. rewrite Z.abs_mul. pose proof (Hl l Hr).
    rewrite Z.abs_eq by (apply Z.pow_nonneg; lia). apply Z.mul_le_mono_nonneg_l; [apply Z.pow_nonneg; lia|done].
  - apply zsum_nonneg. intros l _. apply Z.mul_nonneg_nonneg; [apply Z.pow_nonneg; lia|apply Z.div_pos; lia].
Qed.

Lemma block_gram_le n bl K h limb b pair : 0 <= b -> b * bl < n -> 0 <= bl -> 0 <= h ->
  0 <= fst pair < K -> 0 <= snd pair < K ->
  (forall l i, 0 <= l < K -> 0 <= i < n -> Z.abs (limb l i) <= h) ->
  Z.abs (block_gram n bl limb b pair) <= bl * (h * h).
Proof.
  intros Hb Hbn Hbl Hh Hp1 Hp2 Hl. etransitivity; [apply zsum_abs|].
  transitivity (zsum (fun _ => h * h) (block_positions n bl b)).
  - apply zsum_le. intros i Hi%elem_of_seqZ. rewrite Z.abs_mul.
    apply Z.mul_le_mono_nonneg; [apply Z.abs_nonneg|apply Hl; nia|apply Z.abs_nonneg|apply Hl; nia].
  - rewrite zsum_const. unfold block_positions, len. rewrite length_seqZ. nia.
Qed.

Definition shape_typed (shape : PhysicalL2NormProofShape) : Prop :=
  match shape with
  | Direct n => in_u USIZE_BITS n
  | LimbGram n bl K => in_u USIZE_BITS n /\ in_u USIZE_BITS bl /\ in_u USIZE_BITS K
  end.

(** The shapes that validation accepts rule out wrap-around in the field.
    For a direct shape the square sum of every response with balanced digits
    is smaller than the modulus; for limb inner products every claim of
    balanced limbs over a block stays below half the modulus, so its centered
    lift is the integer itself. *)
Theorem integer_soundness shape profile basis K limb :
  in_u USIZE_BITS basis -> in_u USIZE_BITS K ->
  shape_typed shape ->
  PhysicalL2NormProofShape.validate_integer_soundness shape profile basis K = Ok tt ->
  (forall l i, 0 <= l < K -> 0 <= i < PhysicalL2NormProofShape.physical_response_len shape ->
     Z.abs (limb l i) <= basis / 2) ->
  match shape with
  | Direct n => 0 <= zsum (fun i => response K basis limb i * response K basis limb i) (range n)
                < SisModulusProfileId.modulus profile
  | LimbGram n bl K' => K' = K /\ SisModulusProfileId.modulus profile < 2 ^ 127 /\
      forall b pair, 0 <= b -> b * bl < n -> 0 <= fst pair < K -> 0 <= snd pair < K ->
        Z.abs (block_gram n bl limb b pair) <= bl * (basis / 2 * (basis / 2)) < SisModulusProfileId.modulus profile / 2
  end.
Proof.
  intros Hb HK Hn Hv Hlimb. unfold PhysicalL2NormProofShape.validate_integer_soundness in Hv. obind_inv Hv.
  destruct (_ || _ || _) eqn:G; [done|]. apply orb_false_iff in G as [G _]. apply orb_false_iff in G as [G1 G2].
  apply Z.eqb_neq in G1. apply Z.ltb_ge in G2. assert (Hh : 0 <= basis / 2) by (apply Z.div_pos; lia).
  destruct shape as [n|n bl K']; cbn [PhysicalL2NormProofShape.physical_response_len shape_typed] in *.
  - obind_inv Hv. apply response_bound_value in E0; [|unfold in_u in *; lia]. unfold mul_u128 in Hv. u128_inv Hv. u128_inv Hv.
    destruct (Z.leb_spec (SisModulusProfileId.modulus profile) (n * (a0 * a0))) as [|Hlt]; [done|].
    split; [apply zsum_nonneg; intros; apply Z.square_nonneg|]. eapply Z.le_lt_trans; [|exact Hlt]. subst a0.
    transitivity (zsum (fun _ => response K basis (fun _ _ => basis / 2) 0 * response K basis (fun _ _ => basis / 2) 0) (range n)).
    + apply zsum_le. intros i Hi%elem_of_range. rewrite <-(Z.abs_square (response _ _ limb i)), <-(Z.abs_square (response _ _ (fun _ _ => _) 0)).
      apply Z.square_le_mono_nonneg; [apply Z.abs_nonneg|]. apply response_le; [unfold in_u in *; lia..|].
      intros l Hl. by apply Hlimb.
    + rewrite zsum_const, len_range by (unfold in_u in *; lia). lia.
  - destruct (Z.eqb_spec K' K) as [->|]; [|done]. cbn [negb orb] in Hv.
    destruct (Z.ltb_spec (2 ^ 127 - 1) (SisModulusProfileId.modulus profile)); [done|]. unfold mul_u128 in Hv. u128_inv Hv. u128_inv Hv.
    destruct (Z.leb_spec (SisModulusProfileId.modulus profile / 2) (bl * (basis / 2 * (basis / 2)))); [done|].
    split; [done|]. split; [lia|]. intros b pair Hb0 Hbn Hp1 Hp2. split; [|done].
    apply (block_gram_le n bl K); try (unfold in_u in *; lia). exact Hlimb.
Qed.

(** * Evaluation at concrete inputs *)

Definition example_limb (l i : Z) : Z := (3 * l + 2 * i) mod 5 - 2.
Definition example_layout : LimbGramLayout :=
  {| lg_response_len := 3; lg_block_len := 2; lg_limb_count := 2; block_count := 2; pair_count := 3 |}.

Lemma example_limb_small h l i : 2 <= h -> Z.abs (example_limb l i) <= h.
Proof. intros Hh. unfold example_limb. pose proof (Z.mod_pos_bound (3 * l + 2 * i) 5 ltac:(lia)). lia. Qed.

Lemma gram_reconstruction_witness :
  reconstruct_l2_sq_from_gram (LimbGram 3 2 2) 4 (gram_claims 3 2 example_layout example_limb)
  = Ok (zsum (fun i => response 2 4 example_limb i * response 2 4 example_limb i) (range 3)) /\
  gram_claims 3 2 example_layout example_limb = [4; -2; 5; 4; 0; 0].
Proof.
  split; [|vm_compute; reflexivity].
  apply (gram_reconstruction 3 2 2 4 example_layout example_limb); try (split; [lia|reflexivity]); [reflexivity|lia| |reflexivity].
  intros l i _ _. apply example_limb_small. reflexivity || (vm_compute; discriminate).
Defined.

Lemma integer_soundness_witness :
  (0 <= zsum (fun i => response 2 16 example_limb i * response 2 16 example_limb i) (range 8) < 4294967197) /\
  Z.abs (block_gram 4096 64 example_limb 3 (0, 7)) <= 64 * (8 * 8) < 2147483598.
Proof.
  split.
  - apply (integer_soundness (Direct 8) Q32Offset99 16 2 example_limb); try (split; [lia|reflexivity]); [reflexivity|].
    intros l i _ _. apply example_limb_small. vm_compute. discriminate.
  - destruct (integer_soundness (LimbGram 4096 64 8) Q32Offset99 16 8 example_limb) as (_ & _ & Hb);
      [split; [lia|reflexivity]..|repeat split; lia || reflexivity|reflexivity| |].
    + intros l i _ _. apply example_limb_small. vm_compute. discriminate.
    + apply (Hb 3 (0, 7)); cbn; lia.
Defined.
