(* ===== verification/DigitRange.v ===== *)
(** [akita-types/src/proof/stage1.rs]: the topology of the balanced-digit range
    proof.  A digit [w] enters as its range image [S = w (w + 1)], so that
    [w] and [-w - 1] share an image and the balanced digits of basis [b] are
    the [b / 2] roots [k (k + 1)].  The root list is cut into leaves of at most
    four roots, and the leaves are combined by product stages. *)

From S2P Require Import Prelude Checked Field Serialization UniPoly EqPoly MultiPoly Transcript Sumcheck Mle PhysicalL2.
Local Open Scope field_scope.

(** * Proof data *)

Record AkitaStage1StageProof (E : Type) := {
  sumcheck_proof : EqFactoredSumcheckProof E;
  child_claims : list E;
}.
Arguments sumcheck_proof {E}. Arguments child_claims {E}. Arguments Build_AkitaStage1StageProof {E}.

Record PhysicalL2NormProof (E : Type) := {
  response_l2_sq : Z;
  subclaims : list E;
  virtual_evaluations : list E;
  norm_sumcheck : SumcheckProof E;
}.
Arguments response_l2_sq {E}. Arguments subclaims {E}. Arguments virtual_evaluations {E}.
Arguments norm_sumcheck {E}. Arguments Build_PhysicalL2NormProof {E}.

Record AkitaStage1Proof (E : Type) := {
  stages : list (AkitaStage1StageProof E);
  range_image_evaluation : E;
  norm_proof : option (PhysicalL2NormProof E);
}.
Arguments stages {E}. Arguments range_image_evaluation {E}. Arguments norm_proof {E}.
Arguments Build_AkitaStage1Proof {E}.

Record AkitaStage1StageShape := {
  shape_sumcheck_proof : EqFactoredSumcheckProofShape;
  shape_child_claims : Z;
}.

Record PhysicalL2NormProofWireShape := {
  wire_subclaims : Z;
  wire_virtual_evaluations : Z;
  wire_sumcheck : SumcheckProofShape;
}.

(** The route without the keys of its security tables. *)
Inductive InnerCommitSecurityRoute (K L : Type) :=
  | Linf (table_key : K)
  | L2 (l2_table_key : L) (response_l2_sq_cap : Z) (norm_proof_shape : PhysicalL2NormProofShape).
Arguments Linf {K L}. Arguments L2 {K L}.

(** * Domain and equality point *)

Record FlatBooleanDomain := {
  live_len : Z;
  num_vars : Z;
}.

Module FlatBooleanDomain.

(** [1usize.checked_shl(shift)] *)
Definition new (live_len num_vars : Z) : result FlatBooleanDomain :=
  let overflow := InvalidInput "Boolean domain width overflow" in
  let* shift := ok_or (checked_u 32 num_vars) overflow in
  let* domain_len := ok_or (if (shift <? USIZE_BITS)%Z then Some (Z.shiftl 1 shift) else None) overflow in
  if (live_len =? 0)%Z || (domain_len <? live_len)%Z then Err (InvalidSize domain_len live_len)
  else Ok {| live_len := live_len; num_vars := num_vars |}.

(** A value of [new]: the shift is in range. *)
Definition domain_len (self : FlatBooleanDomain) : Z := Z.shiftl 1 (num_vars self).

Definition live_block_count (self : FlatBooleanDomain) (block_variable_count : Z) : result Z :=
  if (num_vars self <? block_variable_count)%Z
  then Err (InvalidSize (num_vars self) block_variable_count)
  else
    let block_len := Z.shiftl 1 block_variable_count in
    if negb (checked.is_multiple_of (live_len self) block_len)
    then Err (InvalidInput "live digit prefix is not aligned to block length")
    else Ok (live_len self / block_len)%Z.
End FlatBooleanDomain.

Record DigitRangeEqualityPoint (E : Type) := {
  coordinates : list E;
  low_variable_count : Z;
}.
Arguments coordinates {E}. Arguments low_variable_count {E}. Arguments Build_DigitRangeEqualityPoint {E}.

Module DigitRangeEqualityPoint.
Section ops.
Context {E : Type}.

Definition from_column_then_ring_challenges (challenges : list E)
    (column_variable_count ring_variable_count : Z) : result (DigitRangeEqualityPoint E) :=
  let* expected := ok_or (checked_add column_variable_count ring_variable_count)
                     (InvalidInput "digit-range point width overflow") in
  if negb (len challenges =? expected)%Z then Err (InvalidSize expected (len challenges))
  else
    let* ring := unwrap (slice challenges column_variable_count (len challenges)) in
    let* column := unwrap (slice challenges 0 column_variable_count) in
    Ok {| coordinates := ring ++ column; low_variable_count := ring_variable_count |}.

Definition validate_domain (self : DigitRangeEqualityPoint E) (domain : FlatBooleanDomain) : result unit :=
  if negb (len (coordinates self) =? num_vars domain)%Z
  then Err (InvalidSize (num_vars domain) (len (coordinates self)))
  else Ok tt.
End ops.
End DigitRangeEqualityPoint.

(** * The plan *)

Record DigitRangePlan := { log_basis : Z }.

Section roots.
Context {E : Type} `{Field E, RingI64 E}.

Definition stage1_root_values (b : Z) : list E :=
  map (fun k => from_i64 (k * (k + 1))%Z) (range (b / 2)).

(** One factor [x - root]: [next[idx] -= coeff * root; next[idx + 1] += coeff]
    for increasing [idx]; [carry] is what [next[idx]] already holds. *)
Fixpoint times_linear (root carry : E) (cs : list E) : list E :=
  match cs with
  | [] => [carry]
  | c :: cs => (carry - c * root) :: times_linear root (0 + c) cs
  end.
Definition poly_coeffs_from_roots (roots : list E) : list E :=
  foldl (fun coeffs root => times_linear root 0 coeffs) [1] roots.
End roots.

Module DigitRangePlan.

Definition new (basis : Z) : result DigitRangePlan :=
  if existsb (Z.eqb basis) [4; 8; 16; 32; 64]%Z
  then Ok {| log_basis := Z.log2 basis |}
  else Err (InvalidInput "digit range basis must be one of 4, 8, 16, 32, 64").

Definition basis (self : DigitRangePlan) : Z := Z.shiftl 1 (log_basis self).

(** [unreachable!] panics. *)
Definition product_stage_arities (self : DigitRangePlan) : result (list Z) :=
  match log_basis self with
  | 2 | 3 => Ok []
  | 4 => Ok [2]
  | 5 => Ok [4]
  | 6 => Ok [2; 4]
  | _ => Panic
  end%Z.

(** [Option] results; [product] of the arities is exact. *)
Definition product_stage_lane_count (self : DigitRangePlan) (stage_index : Z) : result (option Z) :=
  let* arities := product_stage_arities self in
  match index arities stage_index with
  | None => Ok None
  | Some arity =>
      let parent_count := foldl Z.mul 1%Z (take (Z.to_nat stage_index) arities) in
      Ok (checked_mul parent_count arity)
  end.

Definition leaf_factor_count (self : DigitRangePlan) : result Z :=
  match log_basis self with
  | 2 | 3 => Ok 1
  | 4 => Ok 2
  | 5 => Ok 4
  | 6 => Ok 8
  | _ => Panic
  end%Z.

Definition leaf_degree (self : DigitRangePlan) : Z := if (log_basis self =? 2)%Z then 2 else 4.

Definition stage_count (self : DigitRangePlan) : result Z :=
  let* arities := product_stage_arities self in Ok (len arities + 1)%Z.

Definition stage_shape (self : DigitRangePlan) (rounds stage_index : Z) : result (option AkitaStage1StageShape) :=
  let* arities := product_stage_arities self in
  if (stage_index <? len arities)%Z then
    let* arity := unwrap (index arities stage_index) in
    let* lanes := product_stage_lane_count self stage_index in
    Ok (lanes ← lanes; Some {| shape_sumcheck_proof := (rounds, arity); shape_child_claims := lanes |})
  else
    Ok (if (stage_index =? len arities)%Z
        then Some {| shape_sumcheck_proof := (rounds, leaf_degree self); shape_child_claims := 0 |}
        else None).

Definition stage_shapes (self : DigitRangePlan) (rounds : Z) : result (list AkitaStage1StageShape) :=
  let* count := stage_count self in
  let* shapes := omapM (stage_shape self rounds) (range count) in
  Ok (omap id shapes).

Definition proof_shapes_for_route {K L} (self : DigitRangePlan) (rounds : Z)
    (route : InnerCommitSecurityRoute K L)
  : result (list AkitaStage1StageShape * option PhysicalL2NormProofWireShape) :=
  match route with
  | Linf _ => let* shapes := stage_shapes self rounds in Ok (shapes, None)
  | L2 _ _ norm_proof_shape =>
      let* _ := PhysicalL2NormProofShape.validate norm_proof_shape in
      let* shapes := stage_shapes self rounds in
      let* arities := product_stage_arities self in
      let* subclaims := ok_or (PhysicalL2NormProofShape.subclaim_count norm_proof_shape)
                          (InvalidSetup "L2 norm subclaim count overflow") in
      Ok (take (length arities) shapes,
          Some {| wire_subclaims := subclaims;
                  wire_virtual_evaluations := PhysicalL2NormProofShape.virtual_evaluation_count norm_proof_shape;
                  wire_sumcheck := replicate (Z.to_nat rounds) (leaf_degree self + 1)%Z |})
  end.

Section field.
Context {E : Type} `{Field E, RingI64 E}.

Definition check_stage (self : DigitRangePlan) (rounds stage_index : Z) (stage : AkitaStage1StageProof E)
  : result unit :=
  let* shape := stage_shape self rounds stage_index in
  let* expected := ok_or shape InvalidProof in
  let '(count, degree) := shape_sumcheck_proof expected in
  let polys := eq_round_polys (sumcheck_proof stage) in
  if negb (len polys =? count)%Z then Err (InvalidSize count (len polys))
  else
    let* _ :=
      ofold (fun _ round_poly =>
               let actual := len (coeffs_except_constant_term round_poly) in
               if negb (actual =? degree)%Z then Err (InvalidSize degree actual) else Ok tt) polys tt in
    if negb (len (child_claims stage) =? shape_child_claims expected)%Z
    then Err (InvalidSize (shape_child_claims expected) (len (child_claims stage)))
    else Ok tt.

Definition validate_proof_shape (self : DigitRangePlan) (proof : AkitaStage1Proof E) (rounds : Z) : result unit :=
  let* count := stage_count self in
  if negb (len (stages proof) =? count)%Z then Err (InvalidSize count (len (stages proof)))
  else
    ofold (fun _ '(stage_index, stage) => check_stage self rounds stage_index stage)
      (zip (range (len (stages proof))) (stages proof)) tt.

Definition leaf_coeffs (self : DigitRangePlan) : list (list E) :=
  map poly_coeffs_from_roots (chunks_of 4 (stage1_root_values (basis self))).

Definition evaluate_range_polynomial (self : DigitRangePlan) (range_image : E) : E :=
  foldl (fun value root => value * (range_image - root)) 1 (stage1_root_values (basis self)).

Definition evaluate_leaf_polynomial (self : DigitRangePlan) (coeffs : list E) (range_image : E) : E :=
  foldl (fun acc coeff => acc * range_image + coeff) 0 (rev coeffs).

Definition interstage_batch_weights (self : DigitRangePlan) (gamma : E) (count : Z) : list E :=
  fst (foldl (fun '(weights, weight) _ => (weights ++ [weight], weight * gamma)) ([], 1) (range count)).

Definition batch_claims (self : DigitRangePlan) (weights claims : list E) : result E :=
  if negb (len weights =? len claims)%Z then Err (InvalidSize (len weights) (len claims))
  else Ok (foldl (fun acc '(weight, claim) => acc + weight * claim) 0 (zip weights claims)).

Definition batch_leaf_polynomials (self : DigitRangePlan) (weights : list E) (leaf_polynomials : list (list E))
  : result (list E) :=
  if negb (len weights =? len leaf_polynomials)%Z
  then Err (InvalidSize (len weights) (len leaf_polynomials))
  else
    let max_len := foldl Z.max 0%Z (map len leaf_polynomials) in
    Ok (foldl (fun batched '(weight, polynomial) =>
                 zip_update (fun coefficient term => coefficient + weight * term) batched polynomial)
          (replicate (Z.to_nat max_len) 0) (zip weights leaf_polynomials)).
End field.
End DigitRangePlan.

(** [for claim in claims { append_ext_field(..) }] *)
Definition append_digit_range_child_claims {F E T} `{ExtField F E, Transcript F T} (claims : list E) (transcript : T)
  : result T :=
  ofold (fun t claim => append_ext_field (F := F) t labels.ABSORB_SUMCHECK_INTERSTAGE_CLAIM claim) claims transcript.

(** * The range polynomial *)

(** A plan that [new] returns. *)
Definition plan_ok (self : DigitRangePlan) : Prop := (2 <= log_basis self <= 6)%Z.

Lemma plan_new_ok b self : DigitRangePlan.new b = Ok self -> plan_ok self /\ DigitRangePlan.basis self = b.
Proof.
  unfold DigitRangePlan.new. destruct (existsb _ _) eqn:G; [|done]. intros [= <-].
  cbn [existsb] in G. rewrite !orb_true_iff, !Z.eqb_eq in G. unfold plan_ok, DigitRangePlan.basis. cbn [log_basis].
  destruct G as [->|[->|[->|[->|[->|]]]]]; (done || (split; [vm_compute; split; discriminate|reflexivity])).
Qed.

(** A statement about every plan. *)
Lemma plan_cases (P : DigitRangePlan -> Prop) :
  P {| log_basis := 2 |} -> P {| log_basis := 3 |} -> P {| log_basis := 4 |} -> P {| log_basis := 5 |} ->
  P {| log_basis := 6 |} -> forall self, plan_ok self -> P self.
Proof.
  intros P2 P3 P4 P5 P6 [lb] Hok. unfold plan_ok in Hok. cbn [log_basis] in Hok.
  assert (lb = 2 \/ lb = 3 \/ lb = 4 \/ lb = 5 \/ lb = 6)%Z as [->|[->|[->|[->| ->]]]] by lia; done.
Qed.

Section polynomials.
Context {E : Type} `{FieldLaws E, RingI64 E}.
Add Ring Ering : (field_ring (E := E)).

Lemma times_linear_eval root carry cs x :
  peval (times_linear root carry cs) x = carry + (x - root) * peval cs x.
Proof.
  revert carry; induction cs as [|c cs IH]; intros carry; cbn [times_linear peval]; [ring|]. rewrite IH. ring.
Qed.

Lemma poly_from_roots_eval roots x :
  peval (poly_coeffs_from_roots roots) x = fprod (map (fun r => x - r) roots).
Proof.
  unfold poly_coeffs_from_roots.
  assert (Hgen : forall cs, peval (foldl (fun coeffs root => times_linear root 0 coeffs) cs roots) x
                            = peval cs x * fprod (map (fun r => x - r) roots)).
  { induction roots as [|r roots IH]; intros cs; cbn [foldl map]; [change (fprod []) with (1 : E); ring|].
    rewrite IH, times_linear_eval, fprod_cons. ring. }
  rewrite Hgen. cbn [peval]. ring.
Qed.

Lemma length_times_linear root carry cs : length (times_linear root carry cs) = S (length cs).
Proof. revert carry; induction cs as [|c cs IH]; intros carry; cbn [times_linear length]; [done|]. by rewrite IH. Qed.

Lemma length_poly_from_roots roots : length (poly_coeffs_from_roots roots) = S (length roots).
Proof.
  unfold poly_coeffs_from_roots.
  assert (Hgen : forall cs, length (foldl (fun coeffs root => times_linear root 0 coeffs) cs roots)
                            = (length cs + length roots)%nat); [|by rewrite Hgen].
  induction roots as [|r roots IH]; intros cs; cbn [foldl length]; [lia|]. rewrite IH, length_times_linear. lia.
Qed.

Lemma range_polynomial_fprod self x :
  DigitRangePlan.evaluate_range_polynomial self x
  = fprod (map (fun r => x - r) (stage1_root_values (DigitRangePlan.basis self))).
Proof.
  unfold DigitRangePlan.evaluate_range_polynomial. generalize (stage1_root_values (E := E) (DigitRangePlan.basis self)).
  intros roots. assert (Hgen : forall a, foldl (fun value root => value * (x - root)) a roots
    = a * fprod (map (fun r => x - r) roots)).
  { induction roots as [|r roots IH]; intros a; cbn [foldl map]; [change (fprod []) with (1 : E); ring|].
    rewrite IH, fprod_cons. ring. }
  rewrite Hgen. ring.
Qed.

Lemma leaf_polynomial_peval self cs x : DigitRangePlan.evaluate_leaf_polynomial self cs x = peval cs x.
Proof.
  unfold DigitRangePlan.evaluate_leaf_polynomial. induction cs as [|c cs IH]; [done|].
  cbn [rev]. rewrite foldl_app. cbn [foldl peval]. rewrite IH. ring.
Qed.

(** The leaves multiply to the range polynomial. *)
Lemma leaves_product self x :
  fprod (map (fun cs => peval cs x) (DigitRangePlan.leaf_coeffs self))
  = DigitRangePlan.evaluate_range_polynomial self x.
Proof.
  rewrite range_polynomial_fprod. unfold DigitRangePlan.leaf_coeffs. rewrite map_map.
  rewrite (map_ext _ (fun l => fprod (map (fun r => x - r) l))) by (intros; apply poly_from_roots_eval).
  rewrite <-(chunks_of_concat 4 (stage1_root_values (DigitRangePlan.basis self))) at 2 by lia.
  generalize (chunks_of 4 (stage1_root_values (E := E) (DigitRangePlan.basis self))). intros ls.
  induction ls as [|l ls IH]; [done|]. cbn [map concat]. rewrite map_app, fprod_app, fprod_cons, IH. done.
Qed.

(** Batching coefficient vectors is batching their values. *)
Lemma axpy_eval w dst src x : (length src <= length dst)%nat ->
  peval (zip_update (fun coefficient term => coefficient + w * term) dst src) x = peval dst x + w * peval src x.
Proof.
  revert src; induction dst as [|a dst IH]; intros [|b src] Hl; cbn [zip_update peval length] in *; try lia; try ring.
  rewrite IH by lia. ring.
Qed.

Lemma peval_zeros n (x : E) : peval (replicate n 0) x = 0.
Proof. induction n as [|n IH]; cbn [replicate peval]; [done|]. rewrite IH. ring. Qed.

Lemma batch_claims_spec self ws vs : length ws = length vs ->
  DigitRangePlan.batch_claims self ws vs = Ok (weighted ws vs).
Proof.
  intros Hl. unfold DigitRangePlan.batch_claims, len. rewrite Hl, Z.eqb_refl. cbn [negb]. f_equal.
  assert (Hgen : forall a, foldl (fun acc '(weight, claim) => acc + weight * claim) a (zip ws vs) = a + weighted ws vs).
  { clear Hl. revert vs; induction ws as [|w ws IH]; intros [|v vs] a; try (change (weighted _ _) with (0 : E); cbn; ring).
    cbn [zip zip_with foldl]. rewrite IH, weighted_cons. ring. }
  rewrite Hgen. ring.
Qed.

Lemma batch_leaf_spec self ws ls : length ws = length ls ->
  exists cs, DigitRangePlan.batch_leaf_polynomials self ws ls = Ok cs /\
    (forall n, Forall (fun l => (length l <= n)%nat) ls -> (length cs <= n)%nat) /\
    forall x, peval cs x = weighted ws (map (fun l => peval l x) ls).
Proof.
  intros Hl. unfold DigitRangePlan.batch_leaf_polynomials. unfold len at 1 2. rewrite Hl, Z.eqb_refl. cbn [negb].
  eexists. split; [done|].
  set (m := Z.to_nat (foldl Z.max 0%Z (map len ls))).
  assert (Hm : Forall (fun l : list E => (length l <= m)%nat) ls /\
    forall n, Forall (fun l : list E => (length l <= n)%nat) ls -> (m <= n)%nat).
  { assert (Hgen : forall a, (0 <= a)%Z -> (a <= foldl Z.max a (map len ls))%Z /\
      Forall (fun l : list E => (len l <= foldl Z.max a (map len ls))%Z) ls /\
      forall n, (a <= n)%Z -> Forall (fun l : list E => (len l <= n)%Z) ls -> (foldl Z.max a (map len ls) <= n)%Z).
    { clear. induction ls as [|l ls IH]; intros a Ha; cbn [map foldl]; [by repeat split|].
      pose proof (len_nonneg l). destruct (IH (Z.max a (len l)) ltac:(lia)) as (I1 & I2 & I3).
      split; [lia|]. split; [constructor; [lia|done]|].
      intros n Hn Hf. apply list.Forall_cons in Hf as [Hl Hf]. apply I3; [lia|done]. }
    destruct (Hgen 0%Z ltac:(lia)) as (I1 & I2 & I3). split.
    - eapply list.Forall_impl; [exact I2|]. intros l Hl'. cbn in Hl'. unfold m, len in *. lia.
    - intros n Hf. assert (foldl Z.max 0%Z (map len ls) <= Z.of_nat n)%Z; [|unfold m; lia].
      apply I3; [lia|]. eapply list.Forall_impl; [exact Hf|]. intros l Hl'. cbn in Hl'. unfold len. lia. }
  destruct Hm as [Hm Hmin].
  assert (Hgen : forall batched, length batched = m ->
    let out := foldl (fun batched '(weight, polynomial) =>
        zip_update (fun coefficient term => coefficient + weight * term) batched polynomial) batched (zip ws ls) in
    length out = m /\ forall x, peval out x = peval batched x + weighted ws (map (fun l => peval l x) ls)).
  { clear Hmin. clearbody m. revert ls Hl Hm. induction ws as [|w ws IH]; intros [|l ls] Hl Hm batched Hb; try done.
    - split; [done|]. intros x. change (weighted [] (map (fun l => peval l x) [])) with (0 : E). cbn [zip zip_with foldl]. ring.
    - apply list.Forall_cons in Hm as [Hlm Hm]. cbn [zip zip_with foldl map].
      destruct (IH ls ltac:(cbn in Hl; lia) Hm (zip_update (fun coefficient term => coefficient + w * term) batched l))
        as [O1 O2]; [by rewrite length_zip_update|]. split; [done|]. intros x.
      rewrite O2, axpy_eval, weighted_cons by lia. ring. }
  destruct (Hgen (replicate m 0) (length_replicate _ _)) as [O1 O2]. split.
  - intros n Hf. fold m. rewrite O1. by apply Hmin.
  - intros x. fold m. rewrite O2, peval_zeros. ring.
Qed.

Lemma batch_weights_spec self gamma n :
  DigitRangePlan.interstage_batch_weights self gamma (Z.of_nat n) = map (fpow gamma) (seq 0 n).
Proof.
  unfold DigitRangePlan.interstage_batch_weights, range.
  assert (Hgen : foldl (fun '(weights, weight) (_ : Z) => (weights ++ [weight], weight * gamma)) ([], 1) (seqZ 0 (Z.of_nat n))
    = (map (fpow gamma) (seq 0 n), fpow gamma n)); [|by rewrite Hgen].
  induction n as [|n IH]; [done|]. rewrite Nat2Z.inj_succ, <-Z.add_1_r, seqZ_app by lia.
  rewrite foldl_app, IH. change (seqZ (0 + Z.of_nat n) 1) with [(0 + Z.of_nat n)%Z]. cbn [foldl].
  rewrite seq_S, map_app. cbn [map fpow Nat.add]. f_equal. ring.
Qed.
End polynomials.

Section balanced.
Context {E : Type} `{FieldLaws E, !RingI64 E, !RingI64Laws E}.
Add Ring Ering2 : (field_ring (E := E)).

(** Each root gives two digits. *)
Lemma root_factor w k : (0 <= k < 2 ^ 30)%Z ->
  w * (w + 1) - from_i64 (k * (k + 1))%Z = (w - from_i64 k) * (w - from_i64 (- (k + 1))%Z).
Proof.
  intros Hk. assert (Hm : (Z.abs k * (k + 1) < 2 ^ 61)%Z) by (rewrite Z.abs_eq by lia; nia).
  rewrite from_i64_mul_pos, from_i64_neg, from_i64_add_pos, from_i64_one by (unfold half_width; lia). ring.
Qed.

Lemma range_polynomial_zero self w : plan_ok self ->
  DigitRangePlan.evaluate_range_polynomial self (w * (w + 1)) = 0 <->
  exists k, (- (DigitRangePlan.basis self / 2) <= k < DigitRangePlan.basis self / 2)%Z /\ w = from_i64 k.
Proof.
  intros Hok. rewrite range_polynomial_fprod. unfold stage1_root_values. rewrite map_map.
  assert (Hb : (0 <= DigitRangePlan.basis self / 2 <= 32)%Z)
    by (revert self Hok; apply plan_cases; vm_compute; split; discriminate).
  set (h := (DigitRangePlan.basis self / 2)%Z) in *. split.
  - intros (x & Hz & ->)%fprod_zero. apply list_elem_of_In, in_map_iff in Hz as (k & Hk & Hin).
    apply list_elem_of_In, elem_of_range in Hin. rewrite root_factor in Hk by lia.
    apply fmul_eq_zero in Hk as [Hk|Hk].
    + exists k. split; [lia|]. transitivity (w - from_i64 k + from_i64 k); [ring|]. rewrite Hk. ring.
    + exists (- (k + 1))%Z. split; [lia|]. transitivity (w - from_i64 (- (k + 1))%Z + from_i64 (- (k + 1))%Z); [ring|].
      rewrite Hk. ring.
  - intros (k & Hk & ->). set (k0 := if (0 <=? k)%Z then k else (- k - 1)%Z).
    assert (Hk0 : (0 <= k0 < h)%Z) by (unfold k0; destruct (Z.leb_spec 0 k); lia).
    apply fprod_zero_in. apply list_elem_of_In, in_map_iff. exists k0. split.
    + rewrite root_factor by lia. unfold k0. destruct (Z.leb_spec 0 k); [ring|].
      replace (- (- k - 1 + 1))%Z with k by lia. ring.
    + apply list_elem_of_In, elem_of_range. lia.
Qed.
End balanced.
