(* ===== verification/Stage1.v ===== *)
(** [akita-verifier/src/stages/stage1.rs]: the verifier of the digit range
    proof.  Every product stage is an equality-factored sumcheck whose claimed
    child values, batched with a fresh challenge, become the claim of the next
    stage; the last stage evaluates the batched leaf polynomial at the range
    image. *)

From S2P Require Import Prelude Checked Field Serialization UniPoly EqPoly MultiPoly SplitEq Transcript.
From S2P Require Import Grinding GrindingReplay Sumcheck Mle PhysicalL2 DigitRange.
Local Open Scope field_scope.

(** [impl EqFactoredSumcheckRoundState for GruenSplitEq] *)
#[export] Instance GruenSplitEq_RoundState {E} `{Field E} : EqFactoredSumcheckRoundState E (GruenSplitEq E) := {
  rs_current_tau := GruenSplitEq.current_tau;
  rs_ingest_challenge g _ r_round := GruenSplitEq.bind g r_round;
}.

(** ** The sampling closure

    [|tr| { ..; round = round.checked_add(1)?; Ok(challenge) }] captures the
    round counter, which is carried next to the transcript. *)
Record Counted (T : Type) := { inner : T; round : Z }.
#[global] Arguments inner {T}. #[global] Arguments round {T}. #[global] Arguments Build_Counted {T}.

Definition on_inner {T} (c : Counted T) (m : result T) : result (Counted T) :=
  let* tr := m in Ok {| inner := tr; round := round c |}.
Definition on_challenge {T A} (c : Counted T) (m : result (A * T)) : result (A * Counted T) :=
  let* (a, tr) := m in Ok (a, {| inner := tr; round := round c |}).

#[export] Instance Counted_Transcript {F T} `{Transcript F T} : Transcript F (Counted T) := {
  bind_instance_bytes c b := on_inner c (bind_instance_bytes (F := F) (inner c) b);
  append_bytes c l b := on_inner c (append_bytes (F := F) (inner c) l b);
  append_field c l x := on_inner c (append_field (inner c) l x);
  append_serde _ _ c l x := on_inner c (append_serde (F := F) (inner c) l x);
  challenge_scalar c l := on_challenge c (challenge_scalar (F := F) (inner c) l);
  challenge_bytes c l n := on_challenge c (challenge_bytes (F := F) (inner c) l n);
  challenge_block c l := on_challenge c (challenge_block (F := F) (inner c) l);
}.

(** [chunks_exact] of a slice: a shorter remainder is left out; panics on
    chunks of length zero. *)
Definition chunks_exact {A} (k : Z) (l : list A) : result (list (list A)) :=
  if (k =? 0)%Z then Panic
  else Ok (map (fun i => take (Z.to_nat k) (drop (Z.to_nat (k * i)%Z) l)) (range (len l / k)%Z)).

(** ** The two instances *)

Record ProductSubcheckVerifier (E : Type) := {
  ps_equality_point : list E;
  ps_input_claim : E;
  ps_child_claims : list E;
  ps_batch_weights : list E;
  ps_arity : Z;
}.
#[global] Arguments ps_equality_point {E}. #[global] Arguments ps_input_claim {E}. #[global] Arguments ps_child_claims {E}.
#[global] Arguments ps_batch_weights {E}. #[global] Arguments ps_arity {E}. #[global] Arguments Build_ProductSubcheckVerifier {E}.

Record RangePolynomialLeafVerifier (E : Type) := {
  rl_plan : DigitRangePlan;
  rl_equality_point : list E;
  rl_input_claim : E;
  rl_poly_coeffs : list E;
  rl_range_image_evaluation : E;
}.
#[global] Arguments rl_plan {E}. #[global] Arguments rl_equality_point {E}. #[global] Arguments rl_input_claim {E}.
#[global] Arguments rl_poly_coeffs {E}. #[global] Arguments rl_range_image_evaluation {E}.
#[global] Arguments Build_RangePolynomialLeafVerifier {E}.

Section instances.
Context {E : Type} `{Field E, EqRuntime E, Allocator}.

Definition product_output (v : ProductSubcheckVerifier E) : result E :=
  let* chunks := chunks_exact (ps_arity v) (ps_child_claims v) in
  Ok (foldl (fun acc '(weight, child_claims) =>
               acc + weight * foldl (fun prod claim => prod * claim) 1 child_claims) 0
        (zip (ps_batch_weights v) chunks)).

#[export] Instance ProductSubcheck_Verifier
  : EqFactoredSumcheckInstanceVerifier E (ProductSubcheckVerifier E) (GruenSplitEq E) := {
  qv_num_rounds v := len (ps_equality_point v);
  qv_degree_bound v := ps_arity v;
  qv_input_claim v := ps_input_claim v;
  start_round_state v := GruenSplitEq.new (ps_equality_point v);
  qv_expected_output_claim v _ _ := product_output v;
}.

#[export] Instance RangePolynomialLeaf_Verifier
  : EqFactoredSumcheckInstanceVerifier E (RangePolynomialLeafVerifier E) (GruenSplitEq E) := {
  qv_num_rounds v := len (rl_equality_point v);
  qv_degree_bound v := saturating_sub (len (rl_poly_coeffs v)) 1;
  qv_input_claim v := rl_input_claim v;
  start_round_state v := GruenSplitEq.new (rl_equality_point v);
  qv_expected_output_claim v _ _ :=
    Ok (DigitRangePlan.evaluate_leaf_polynomial (rl_plan v) (rl_poly_coeffs v) (rl_range_image_evaluation v));
}.
End instances.

(** ** The stage-1 verifier *)

Record RangeLeafVerifierInput (E : Type) := {
  leaf_equality_point : list E;
  leaf_input_claim : E;
  leaf_polynomial_coefficients : list E;
}.
#[global] Arguments leaf_equality_point {E}. #[global] Arguments leaf_input_claim {E}.
#[global] Arguments leaf_polynomial_coefficients {E}. #[global] Arguments Build_RangeLeafVerifierInput {E}.

Record AkitaStage1Verifier (E : Type) := {
  s1_equality_point : DigitRangeEqualityPoint E;
  s1_plan : DigitRangePlan;
}.
#[global] Arguments s1_equality_point {E}. #[global] Arguments s1_plan {E}. #[global] Arguments Build_AkitaStage1Verifier {E}.

Module AkitaStage1Verifier.
Section ops.
Context {F E T : Type} `{ExtField F E, Field E, RingI64 E, AkitaSerialize E, EqRuntime E, Allocator, BuildMode,
  Transcript F T, TranscriptGrinding F T}.

Definition new (equality_point : DigitRangeEqualityPoint E) (plan : DigitRangePlan) : AkitaStage1Verifier E :=
  {| s1_equality_point := equality_point; s1_plan := plan |}.

Definition sample_round (protocol : SumcheckProtocol) (level stage : Z) (c : Counted T) : result (E * Counted T) :=
  let* (challenge, tr) :=
    sample_grinded_sumcheck_challenge (F := F) (inner c) protocol level stage (round c) in
  let* next := ok_or (checked_u 32 (round c + 1)%Z) InvalidProof in
  Ok (challenge, {| inner := tr; round := next |}).

(** [verify] of the sumcheck instance with a fresh round counter. *)
Definition verify_with_rounds {V} `{EqFactoredSumcheckInstanceVerifier E V (GruenSplitEq E)} (v : V)
    (proof : EqFactoredSumcheckProof E) (transcript : T) (level stage : Z) : result (list E * T) :=
  let* (challenges, c) :=
    eq_verify (F := F) (sample_round Stage1 level stage) v proof {| inner := transcript; round := 0 |} in
  Ok (challenges, inner c).

(** The shape loop of the prefix. *)
Definition check_prefix_stage (plan : DigitRangePlan) (rounds stage_index : Z) (stage : AkitaStage1StageProof E)
  : result unit :=
  let* shape := DigitRangePlan.stage_shape plan rounds stage_index in
  let* expected := ok_or shape InvalidProof in
  let polys := eq_round_polys (sumcheck_proof stage) in
  if negb (len polys =? fst (shape_sumcheck_proof expected))%Z ||
     negb (len (child_claims stage) =? shape_child_claims expected)%Z ||
     existsb (fun r => negb (len (coeffs_except_constant_term r) =? snd (shape_sumcheck_proof expected))%Z) polys
  then Err InvalidProof else Ok tt.

(** The body of the loop over the product stages: equality point, claim,
    weights and transcript. *)
Definition product_stage (self : AkitaStage1Verifier E) (level : Z) : list E * E * list E * T ->
    Z * (Z * AkitaStage1StageProof E) -> result (list E * E * list E * T) :=
  fun '(current_equality_point, current_claim, current_weights, transcript) '(stage_index, (arity, stage_proof)) =>
    let product_verifier :=
      {| ps_equality_point := current_equality_point; ps_input_claim := current_claim;
         ps_child_claims := child_claims stage_proof; ps_batch_weights := current_weights; ps_arity := arity |} in
    let* stage := ok_or (checked_u 32 stage_index) InvalidProof in
    let* (current_equality_point, transcript) :=
      verify_with_rounds product_verifier (sumcheck_proof stage_proof) transcript level stage in
    let* transcript := append_digit_range_child_claims (F := F) (child_claims stage_proof) transcript in
    let* transcript := grind_query (F := F) transcript (Stage1InterstageBatch level stage) in
    let* (gamma, transcript) :=
      sample_ext_challenge (F := F) (E := E) transcript labels.CHALLENGE_SUMCHECK_INTERSTAGE_BATCH in
    let current_weights :=
      DigitRangePlan.interstage_batch_weights (s1_plan self) gamma (len (child_claims stage_proof)) in
    let* current_claim := DigitRangePlan.batch_claims (s1_plan self) current_weights (child_claims stage_proof) in
    Ok (current_equality_point, current_claim, current_weights, transcript).

Definition verify_product_prefix (self : AkitaStage1Verifier E)
    (product_stage_proofs : list (AkitaStage1StageProof E)) (transcript : T) (level : Z)
  : result (RangeLeafVerifierInput E * T) :=
  let* product_stage_arities := DigitRangePlan.product_stage_arities (s1_plan self) in
  if negb (len product_stage_proofs =? len product_stage_arities)%Z
  then Err (InvalidSize (len product_stage_arities) (len product_stage_proofs))
  else
    let rounds := len (coordinates (s1_equality_point self)) in
    let* _ :=
      ofold (fun _ '(stage_index, stage) => check_prefix_stage (s1_plan self) rounds stage_index stage)
        (zip (range (len product_stage_proofs)) product_stage_proofs) tt in
    let leaf_coeffs := DigitRangePlan.leaf_coeffs (s1_plan self) in
    let stages := zip product_stage_arities product_stage_proofs in
    let* (current_equality_point, current_claim, current_weights, transcript) :=
      ofold (product_stage self level) (zip (range (len stages)) stages)
        (coordinates (s1_equality_point self), 0, [1], transcript) in
    let* coeffs := DigitRangePlan.batch_leaf_polynomials (s1_plan self) current_weights leaf_coeffs in
    Ok ({| leaf_equality_point := current_equality_point; leaf_input_claim := current_claim;
           leaf_polynomial_coefficients := coeffs |}, transcript).

(** The verifier returns the final point; the transcript is advanced. *)
Definition verify (self : AkitaStage1Verifier E) (proof : AkitaStage1Proof E) (transcript : T) (level : Z)
  : result (list E * T) :=
  let* _ := DigitRangePlan.validate_proof_shape (s1_plan self) proof
              (len (coordinates (s1_equality_point self))) in
  let* product_stage_arities := DigitRangePlan.product_stage_arities (s1_plan self) in
  let* leaf_stage_proof := ok_or (index (stages proof) (len (stages proof) - 1)%Z) InvalidProof in
  let product_stage_proofs := removelast (stages proof) in
  let* _ := debug_assert (len product_stage_proofs =? len product_stage_arities)%Z in
  let* (leaf, transcript) := verify_product_prefix self product_stage_proofs transcript level in
  let leaf_verifier :=
    {| rl_plan := s1_plan self; rl_equality_point := leaf_equality_point leaf;
       rl_input_claim := leaf_input_claim leaf; rl_poly_coeffs := leaf_polynomial_coefficients leaf;
       rl_range_image_evaluation := range_image_evaluation proof |} in
  let* stage := ok_or (checked_u 32 (len product_stage_proofs)) InvalidProof in
  verify_with_rounds leaf_verifier (sumcheck_proof leaf_stage_proof) transcript level stage.
End ops.
End AkitaStage1Verifier.

(** * The rounds of one stage *)

Section gruen.
Context {E : Type} `{FieldLaws E, EqRuntime E, Allocator}.

Lemma gruen_new_fields tau g : GruenSplitEq.new tau = Ok g -> SplitEq.tau g = tau /\ current_round g = 0%Z.
Proof.
  unfold GruenSplitEq.new, GruenSplitEq.with_initial_scalar. destruct (Nat.eqb _ _); [done|].
  intros Hn. obind_inv Hn. obind_inv Hn. by injection Hn as <-.
Qed.

(** The verifier's round state shows the coordinates of the point in order. *)
Lemma taus_gruen k g cs : (0 <= current_round g)%Z ->
  (current_round g + len cs <= len (SplitEq.tau g))%Z ->
  taus_of k g cs = take (length cs) (drop (Z.to_nat (current_round g)) (SplitEq.tau g)).
Proof.
  revert k g; induction cs as [|r cs IH]; intros k g Hpos Hl; cbn [taus_of length]; [done|].
  rewrite len_cons in Hl. pose proof (len_nonneg cs).
  destruct (index_is_Some (SplitEq.tau g) (current_round g)) as [x Hx]; [lia|].
  cbn [rs_current_tau rs_ingest_challenge GruenSplitEq_RoundState].
  unfold GruenSplitEq.current_tau, GruenSplitEq.bind. rewrite Hx. cbn [unwrap obind].
  unfold index in Hx. destruct (Z.leb_spec 0 (current_round g)); [|lia].
  rewrite (drop_S _ _ _ Hx). cbn [take]. f_equal.
  match goal with |- taus_of _ ?g' _ = _ => set (g1 := g') end.
  assert (Hg1 : SplitEq.tau g1 = SplitEq.tau g /\ current_round g1 = (current_round g + 1)%Z)
    by (unfold g1; destruct (1 <? len (E_first g))%Z, (1 <? len (E_second g))%Z; done).
  destruct Hg1 as [Ht Hr]. rewrite IH by (rewrite ?Ht, Hr; lia).
  rewrite Ht, Hr. do 2 f_equal. lia.
Qed.

Lemma taus_new tau g cs : GruenSplitEq.new tau = Ok g -> length cs = length tau -> taus_of 0 g cs = tau.
Proof.
  intros Hn Hl. destruct (gruen_new_fields tau g Hn) as [Ht Hr].
  rewrite taus_gruen by (rewrite ?Ht, ?Hr; unfold len; lia). rewrite Ht, Hr. change (Z.to_nat 0) with 0%nat.
  rewrite drop_0. apply take_ge. lia.
Qed.
End gruen.

Section soundness.
Context {F E T : Type} `{FieldLaws E, AkitaSerialize E, EqRuntime E, Allocator, Transcript F T}.
Add Ring Ering : (field_ring (E := E)).

(** In round [i] the reconstructed polynomial [q] differs from the true one,
    [l], and agrees with it at the challenge [r]; both have degree at most
    [bound], so at most [bound] challenges do that. *)
Definition lucky_round (bound : nat) (proof : EqFactoredSumcheckProof E) (taus cs : list E) (claim : E)
    (f : list E -> E) : Prop :=
  exists i q r l,
    eq_reconstructed (eq_round_polys proof) taus cs claim !! i = Some q /\ cs !! i = Some r /\
    (forall x, peval l x = wsum (drop (S i) (eq_weights taus)) f (take i cs ++ [x])) /\
    (exists x, peval q x <> peval l x) /\ peval q r = peval l r /\
    forall points, NoDup points -> (forall a, a ∈ points -> peval q a = peval l a) ->
      (length points <= bound)%nat.

Lemma stage_sound {V} `{EqFactoredSumcheckInstanceVerifier E V (GruenSplitEq E)} (sample : T -> result (E * T))
    (v : V) tau proof t cs t' f bound :
  eq_verify (F := F) sample v proof t = Ok (cs, t') ->
  start_round_state v = GruenSplitEq.new tau -> qv_num_rounds v = len tau ->
  (qv_degree_bound v <= Z.of_nat bound)%Z ->
  (forall p xs, poly_in bound (fun x => f (p ++ x :: xs))) ->
  length cs = length tau /\
  ((forall rs, qv_expected_output_claim v rs cs = Ok (f cs)) ->
   qv_input_claim v <> wsum (eq_weights tau) f [] ->
   lucky_round bound proof tau cs (qv_input_claim v) f).
Proof.
  intros Hv Hs Hn Hb Hpoly. assert (Hs0 : exists g, start_round_state v = Ok g).
  { unfold eq_verify in Hv. destruct (negb _); [done|]. destruct (start_round_state v); [by eexists|done..]. }
  destruct Hs0 as [g Hg]. pose proof Hg as Hnew. rewrite Hs in Hnew.
  destruct (eq_verify_chain sample v g proof t cs t' Hv Hg) as (Hl & _ & (rs & final & Hfin & Hch) & Hds).
  assert (Hlen : length cs = length tau) by (unfold len in *; lia).
  rewrite (taus_new tau g cs Hnew Hlen) in *. split; [done|]. intros Hf Hclaim.
  rewrite Hf in Hfin. injection Hfin as <-.
  destruct (chain_soundness _ f _ _ [] _ _ Hch eq_refl Hclaim) as (i & Hi & h & r & Hh & Hr & Hd & Ha).
  rewrite length_map in Hi. destruct (lookup_lt_is_Some_2 _ _ Hi) as [q Hq].
  change (@map (list E)) with (@fmap list _ (list E)) in Hh.
  rewrite list_lookup_fmap, Hq in Hh. injection Hh as <-. cbn [app] in Hd, Ha.
  destruct (wsum_poly_in bound (drop (S i) (eq_weights tau)) f (take i cs) (fun xs => Hpoly (take i cs) xs)) as (l & Hll & Hp).
  exists i, q, r, l. split; [done|]. split; [done|]. split; [done|]. rewrite <-!Hp in Hd. rewrite <-Hp in Ha.
  assert (Hex : exists x, peval q x <> peval l x) by (destruct Hd; by eexists).
  split; [done|]. split; [done|]. intros points Hnd Hpts. destruct Hex as [x Hx].
  pose proof (Forall_lookup_1 _ _ _ _ Hds Hq) as Hdeg. cbn beta in Hdeg.
  apply (few_agreements q l bound points x); (done || lia).
Qed.
End soundness.

(** * The tables of the tree *)

Section tree.
Context {E : Type} `{FieldLaws E}.
Add Ring Ering2 : (field_ring (E := E)).

Definition chunksZ {A} (k : Z) (l : list A) : list (list A) :=
  map (fun i => take (Z.to_nat k) (drop (Z.to_nat (k * i)%Z) l)) (range (len l / k)%Z).

Lemma chunks_exact_Ok {A} k (l : list A) : (0 < k)%Z -> chunks_exact k l = Ok (chunksZ k l).
Proof. intros Hk. unfold chunks_exact. by case_Z. Qed.

Lemma chunksZ_map {A B} (g : A -> B) k l : chunksZ k (map g l) = map (map g) (chunksZ k l).
Proof.
  unfold chunksZ, len. rewrite length_map, map_map. apply map_ext. intros i.
  by rewrite <-!firstn_map, <-!skipn_map.
Qed.

(** The node above [arity] children is their product. *)
Definition node (ch : list (list E -> E)) (x : list E) : E := fprod (map (fun T => T x) ch).
Definition parents (arity : Z) (Ts : list (list E -> E)) : list (list E -> E) := map node (chunksZ arity Ts).
Fixpoint node_tables (arities : list Z) (leaves : list (list E -> E)) : list (list E -> E) :=
  match arities with [] => leaves | a :: arities => parents a (node_tables arities leaves) end.

(** What a product stage sums: the batched products of the extensions. *)
Definition stage_oracle (ws : list E) (arity : Z) (Ts : list (list E -> E)) (x : list E) : E :=
  weighted ws (map (fun ch => fprod (map (fun T => mle T x) ch)) (chunksZ arity Ts)).

(** The values of the extensions at a point. *)
Definition values (Ts : list (list E -> E)) (x : list E) : list E := map (fun T => mle T x) Ts.

Lemma stage_oracle_sum ws arity Ts p :
  wsum (eq_weights p) (stage_oracle ws arity Ts) [] = weighted ws (values (parents arity Ts) p).
Proof.
  unfold stage_oracle, values, parents.
  etransitivity.
  { apply (wsum_cube_ext _ _ (fun x => weighted ws (map (fun f => f x) (map node (chunksZ arity Ts))))).
    intros xs Hx. cbn [app]. f_equal. rewrite !map_map. apply map_ext. intros ch. unfold node. f_equal.
    apply map_ext. intros t. by eapply mle_cube. }
  by rewrite wsum_weighted.
Qed.

Lemma chunksZ_length {A} k (l : list A) : (0 < k)%Z -> Forall (fun ch => (length ch <= Z.to_nat k)%nat) (chunksZ k l).
Proof.
  intros Hk. unfold chunksZ. rewrite Forall_map. apply list.Forall_forall. intros i _. cbn beta. rewrite length_take. lia.
Qed.

Lemma stage_oracle_degree ws arity Ts p xs : (0 < arity)%Z ->
  poly_in (Z.to_nat arity) (fun x => stage_oracle ws arity Ts (p ++ x :: xs)).
Proof.
  intros Ha. unfold stage_oracle.
  eapply poly_in_ext; [|apply (poly_in_weighted (Z.to_nat arity) ws
    (map (fun ch x => fprod (map (fun T => mle T (p ++ x :: xs)) ch)) (chunksZ arity Ts)))].
  - intros x. cbn beta. by rewrite map_map.
  - rewrite Forall_map. eapply list.Forall_impl; [by apply chunksZ_length|]. intros ch Hch. cbn beta in *.
    eapply poly_in_ext; [|apply (affine_prod (Z.to_nat arity) (map (fun T x => mle T (p ++ x :: xs)) ch))].
    + intros x. cbn beta. by rewrite map_map.
    + by rewrite length_map.
    + rewrite Forall_map. apply list.Forall_forall. intros t _. apply mle_affine.
Qed.

(** The product below a list of nodes does not change on the way up. *)
Lemma parents_product arity Ts x : (0 < arity)%Z -> (arity | len Ts)%Z ->
  fprod (map (fun T => T x) (parents arity Ts)) = fprod (map (fun T => T x) Ts).
Proof.
  intros Ha [n Hn]. unfold parents, chunksZ. rewrite map_map, Hn, Z.div_mul by lia.
  assert (Hn0 : (0 <= n)%Z) by (pose proof (len_nonneg Ts); nia). rewrite map_map. unfold node.
  assert (Hgen : forall m : nat, (Z.of_nat m <= n)%Z ->
    fprod (map (fun i => fprod (map (fun T => T x) (take (Z.to_nat arity) (drop (Z.to_nat (arity * i)%Z) Ts)))) (range (Z.of_nat m)))
    = fprod (map (fun T => T x) (take (Z.to_nat (arity * Z.of_nat m)%Z) Ts))).
  { induction m as [|m IH]; intros Hm.
    - rewrite Z.mul_0_r. done.
    - rewrite Nat2Z.inj_succ, <-Z.add_1_r. unfold range in *. rewrite seqZ_app by lia.
      rewrite map_app, fprod_app, IH by lia. change (seqZ (0 + Z.of_nat m) 1) with [Z.of_nat m]. cbn [map].
      rewrite fprod_cons. change (fprod []) with (1 : E).
      replace (Z.to_nat (arity * (Z.of_nat m + 1))) with (Z.to_nat (arity * Z.of_nat m) + Z.to_nat arity)%nat by nia.
      rewrite <-(take_take_drop Ts), map_app, fprod_app. ring. }
  specialize (Hgen (Z.to_nat n)). rewrite Z2Nat.id in Hgen by done. rewrite Hgen by lia.
  rewrite take_ge; [done|]. unfold len in Hn. nia.
Qed.

Lemma len_parents arity Ts : len (parents arity Ts) = Z.max 0 (len Ts / arity).
Proof. unfold parents, chunksZ, len, range. rewrite !length_map, length_seqZ. lia. Qed.
End tree.

(** * The product stages *)

Section prefix.
Context {F E T : Type} `{ExtField F E, FieldLaws E, RingI64 E, AkitaSerialize E, EqRuntime E, Allocator, BuildMode,
  Transcript F T, TranscriptGrinding F T}.
Add Ring Ering3 : (field_ring (E := E)).

Variable self : AkitaStage1Verifier E.
Variable level : Z.
Variable leaves : list (list E -> E).

(** Powers of the batching challenge. *)
Definition powers (gamma : E) (n : nat) : list E := map (fpow gamma) (seq 0 n).

(** The challenges of one product stage: of its rounds, and of the batching
    that follows. *)
Abbreviation stage_trace := (list E * E)%type.

(** The challenges the verifier draws in one product stage, which starts at the
    point [p], the claim [c] and the transcript [t]: those of the rounds and
    the batching challenge; [t4] is the transcript after the stage. *)
Definition stage_run (k arity : Z) (pr : AkitaStage1StageProof E) (p : list E) (c : E) (ws : list E) (t : T)
    (cs : list E) (gamma : E) (t4 : T) : Prop :=
  exists t1 t2 t3,
    AkitaStage1Verifier.verify_with_rounds (F := F)
      {| ps_equality_point := p; ps_input_claim := c; ps_child_claims := child_claims pr; ps_batch_weights := ws;
         ps_arity := arity |} (sumcheck_proof pr) t level k = Ok (cs, t1) /\
    append_digit_range_child_claims (F := F) (child_claims pr) t1 = Ok t2 /\
    grind_query (F := F) t2 (Stage1InterstageBatch level k) = Ok t3 /\
    sample_ext_challenge (F := F) t3 labels.CHALLENGE_SUMCHECK_INTERSTAGE_BATCH = Ok (gamma, t4).

(** All product stages from the [k]-th on, with the point, claim, weights and
    transcript they end in. *)
Fixpoint prefix_run (arities : list Z) (prs : list (AkitaStage1StageProof E)) (trace : list stage_trace) (k : Z)
    (p : list E) (c : E) (ws : list E) (t : T) (last : list E * E * list E * T) : Prop :=
  match arities, prs, trace with
  | arity :: arities, pr :: prs, (cs, gamma) :: trace =>
      exists t4, stage_run k arity pr p c ws t cs gamma t4 /\
        prefix_run arities prs trace (k + 1) cs (peval (child_claims pr) gamma)
          (powers gamma (length (child_claims pr))) t4 last
  | [], [], [] => last = (p, c, ws, t)
  | _, _, _ => False
  end.

(** Some product stage is lucky: in one of its rounds, or because the batching
    challenge hides a wrong vector of child claims. *)
Fixpoint lucky_prefix (arities : list Z) (prs : list (AkitaStage1StageProof E)) (trace : list stage_trace)
    (p : list E) (c : E) (ws : list E) : Prop :=
  match arities, prs, trace with
  | arity :: arities, pr :: prs, (cs, gamma) :: trace =>
      let Ts := node_tables arities leaves in
      lucky_round (Z.to_nat arity) (sumcheck_proof pr) p cs c (stage_oracle ws arity Ts) \/
      (child_claims pr <> values Ts cs /\ length (child_claims pr) = length (values Ts cs) /\
       peval (child_claims pr) gamma = peval (values Ts cs) gamma) \/
      lucky_prefix arities prs trace cs (peval (child_claims pr) gamma) (powers gamma (length (child_claims pr)))
  | _, _, _ => False
  end.

(** Every product stage brings one claim per child node. *)
Fixpoint lanes_match (arities : list Z) (prs : list (AkitaStage1StageProof E)) : Prop :=
  match arities, prs with
  | [], [] => True
  | arity :: arities, pr :: prs =>
      (0 < arity)%Z /\ length (child_claims pr) = length (node_tables arities leaves) /\ lanes_match arities prs
  | _, _ => False
  end.

Lemma product_output_spec p c ch ws arity : (0 < arity)%Z ->
  product_output {| ps_equality_point := p; ps_input_claim := c; ps_child_claims := ch; ps_batch_weights := ws;
                    ps_arity := arity |} = Ok (weighted ws (map fprod (chunksZ arity ch))).
Proof.
  intros Ha. unfold product_output. cbn [ps_arity ps_child_claims ps_batch_weights].
  rewrite chunks_exact_Ok by done. cbn [obind]. f_equal. generalize (chunksZ arity ch). intros chs.
  assert (Hgen : forall a, foldl (fun acc '(weight, child_claims) =>
      acc + weight * foldl (fun prod claim => prod * claim) 1 child_claims) a (zip ws chs)
    = a + weighted ws (map fprod chs)).
  { revert chs; induction ws as [|w ws IH]; intros [|l chs] a; cbn [zip zip_with foldl map];
      try (change (weighted _ _) with (0 : E); ring).
    rewrite IH, weighted_cons. rewrite (fold_mul_fprod l 1). ring. }
  rewrite Hgen. ring.
Qed.

(** One product stage. *)
Lemma product_stage_step k arity pr p c ws t p' c' ws' t' Ts : (0 < arity)%Z ->
  length (child_claims pr) = length Ts ->
  AkitaStage1Verifier.product_stage (F := F) self level (p, c, ws, t) (k, (arity, pr)) = Ok (p', c', ws', t') ->
  exists gamma, c' = peval (child_claims pr) gamma /\ ws' = powers gamma (length (child_claims pr)) /\
    stage_run k arity pr p c ws t p' gamma t' /\ length p' = length p /\
    (c <> weighted ws (values (parents arity Ts) p) -> child_claims pr = values Ts p' ->
     lucky_round (Z.to_nat arity) (sumcheck_proof pr) p p' c (stage_oracle ws arity Ts)).
Proof.
  intros Ha Hlen Hs. unfold AkitaStage1Verifier.product_stage in Hs. obind_inv Hs. obind_inv Hs.
  destruct a0 as [cs t1]. cbn [obind] in Hs. obind_inv Hs. obind_inv Hs. obind_inv Hs. destruct a2 as [gamma t4].
  cbn [obind] in Hs. obind_inv Hs. injection Hs as <- <- <- <-.
  assert (Hk : a = k) by (destruct (checked_u 32 k) eqn:Hk; [|done]; apply checked_u_Some in Hk as [_ ->]; by injection E0 as <-).
  subst a. assert (Hrun : stage_run k arity pr p c ws t cs gamma t4) by (by exists t1, a0, a1).
  unfold len in E5. rewrite batch_weights_spec in E5. fold (powers gamma (length (child_claims pr))) in E5.
  rewrite batch_claims_spec in E5 by (unfold powers; by rewrite length_map, length_seq). apply Ok_inj in E5 as <-.
  exists gamma. split; [unfold powers; by rewrite <-peval_powers|].
  split; [unfold len; by rewrite batch_weights_spec|]. split; [exact Hrun|].
  unfold AkitaStage1Verifier.verify_with_rounds in E1. obind_inv E1. destruct a as [cs' ct]. cbn [obind] in E1.
  injection E1 as -> <-.
  match type of E5 with eq_verify _ ?v _ _ = _ => set (ver := v) in * end.
  destruct (stage_sound _ ver p _ _ _ _ (stage_oracle ws arity Ts) (Z.to_nat arity) E5 eq_refl eq_refl)
    as [Hl Hluck]; [cbn; lia|intros q xs; by apply stage_oracle_degree|].
  split; [done|]. intros Hclaim Hch. apply Hluck.
  - intros rs. cbn [qv_expected_output_claim ProductSubcheck_Verifier]. unfold ver. rewrite product_output_spec by done.
    f_equal. rewrite Hch. unfold stage_oracle, values. rewrite chunksZ_map, map_map. done.
  - rewrite stage_oracle_sum. exact Hclaim.
Qed.

Lemma prefix_sound arities prs k p c ws t p' c' ws' t' :
  lanes_match arities prs ->
  ofold (AkitaStage1Verifier.product_stage (F := F) self level)
    (zip (seqZ k (len (zip arities prs))) (zip arities prs)) (p, c, ws, t) = Ok (p', c', ws', t') ->
  length ws = length (node_tables arities leaves) ->
  exists trace, prefix_run arities prs trace k p c ws t (p', c', ws', t') /\
    length p' = length p /\ length ws' = length leaves /\
    (c <> weighted ws (values (node_tables arities leaves) p) ->
     lucky_prefix arities prs trace p c ws \/ c' <> weighted ws' (values leaves p')).
Proof.
  revert prs k p c ws t; induction arities as [|arity arities IH]; intros [|pr prs] k p c ws t Hm Hf Hws; try done.
  - cbn in Hf. injection Hf as <- <- <- <-. exists []. do 3 (split; [done|]). intros Hc. by right.
  - destruct Hm as (Ha & Hlen & Hm). cbn [zip zip_with] in Hf. fold (zip arities prs) in Hf.
    rewrite len_cons in Hf. pose proof (len_nonneg (zip arities prs)).
    rewrite seqZ_cons in Hf by lia. cbn [zip zip_with ofold] in Hf. obind_inv Hf. destruct a as [[[p1 c1] ws1] t1].
    destruct (product_stage_step k arity pr p c ws t p1 c1 ws1 t1 (node_tables arities leaves) Ha Hlen E0)
      as (gamma & Hc1 & Hws1 & Hrun & Hp1 & Hstep).
    replace (Z.pred (len (zip arities prs) + 1)) with (len (zip arities prs)) in Hf by lia.
    destruct (IH prs (Z.succ k) p1 c1 ws1 t1 Hm Hf) as (trace & Htr & Hp' & Hws' & Hluck).
    { rewrite Hws1. unfold powers. by rewrite length_map, length_seq. }
    exists ((p1, gamma) :: trace). cbn [prefix_run lucky_prefix node_tables]. rewrite <-Hc1, <-Hws1.
    split; [exists t1; by split|]. split; [congruence|]. split; [done|]. intros Hclaim.
    destruct (decide (child_claims pr = values (node_tables arities leaves) p1)) as [Heq|Hne].
    { left. left. by apply Hstep. }
    destruct (decide (c1 = peval (values (node_tables arities leaves) p1) gamma)) as [Hg|Hg].
    { left. right. left. unfold values. rewrite length_map. split; [done|]. split; [done|]. exact Hg. }
    destruct Hluck as [Hluck|Hluck]; [|by left; right; right|by right].
    rewrite Hws1, Hlen. unfold powers.
    replace (length (node_tables arities leaves)) with (length (values (node_tables arities leaves) p1))
      by (unfold values; by rewrite length_map).
    by rewrite <-peval_powers.
Qed.
End prefix.

(** * The topology of every plan *)

Section topology.
Context {E : Type} `{FieldLaws E, !RingI64 E, !RingI64Laws E}.
Add Ring Ering4 : (field_ring (E := E)).

(** The leaf tables and the oracle of the leaf stage for a range image [s]. *)
Definition leaf_tables (plan : DigitRangePlan) (s : list E -> E) : list (list E -> E) :=
  map (fun cs x => peval cs (s x)) (DigitRangePlan.leaf_coeffs plan).
Definition leaf_oracle (plan : DigitRangePlan) (ws : list E) (s : list E -> E) (x : list E) : E :=
  weighted ws (map (fun cs => peval cs (mle s x)) (DigitRangePlan.leaf_coeffs plan)).

Lemma check_prefix_claims plan rounds i stage s :
  AkitaStage1Verifier.check_prefix_stage (E := E) plan rounds i stage = Ok tt ->
  DigitRangePlan.stage_shape plan rounds i = Ok (Some s) ->
  len (child_claims stage) = shape_child_claims s.
Proof.
  unfold AkitaStage1Verifier.check_prefix_stage. intros Hc Hs. rewrite Hs in Hc. cbn [obind ok_or] in Hc.
  destruct (_ || _) eqn:G; [done|]. apply orb_false_iff in G as [G _]. apply orb_false_iff in G as [_ G].
  by apply negb_false_iff, Z.eqb_eq in G.
Qed.

(** Number of leaves and the stages above them. *)
Record topology (plan : DigitRangePlan) (arities : list Z) (leaf_count : nat) : Prop := {
  top_arities : DigitRangePlan.product_stage_arities plan = Ok arities;
  top_leaves : length (DigitRangePlan.leaf_coeffs (E := E) plan) = leaf_count;
  top_degree : Forall (fun cs => length cs = S (Z.to_nat (DigitRangePlan.leaf_degree plan)))
                 (DigitRangePlan.leaf_coeffs (E := E) plan);
  top_root (leaves : list (list E -> E)) : length leaves = leaf_count ->
    length (node_tables arities leaves) = 1%nat /\
    forall x, fprod (map (fun T => T x) (node_tables arities leaves)) = fprod (map (fun T => T x) leaves);
  top_lanes (leaves : list (list E -> E)) rounds prs : length leaves = leaf_count -> length prs = length arities ->
    ofold (fun _ '(stage_index, stage) => AkitaStage1Verifier.check_prefix_stage (E := E) plan rounds stage_index stage)
      (zip (range (len prs)) prs) tt = Ok tt -> lanes_match leaves arities prs;
}.

Lemma leaf_degrees plan d : Forall (fun l => length l = d) (chunks_of 4 (stage1_root_values (E := E) (DigitRangePlan.basis plan))) ->
  Forall (fun cs => length cs = S d) (DigitRangePlan.leaf_coeffs (E := E) plan).
Proof.
  intros Hf. unfold DigitRangePlan.leaf_coeffs. rewrite Forall_map. eapply list.Forall_impl; [exact Hf|].
  intros l Hl. cbn beta in *. by rewrite length_poly_from_roots, Hl.
Qed.

Lemma parents_step (arity : Z) (Ts : list (list E -> E)) n : (0 < arity)%Z -> len Ts = (Z.of_nat n * arity)%Z ->
  length (parents arity Ts) = n /\
  forall x, fprod (map (fun T => T x) (parents arity Ts)) = fprod (map (fun T => T x) Ts).
Proof.
  intros Ha Hl. pose proof (len_parents arity Ts) as Hp. rewrite Hl, Z.div_mul in Hp by lia.
  split; [unfold len in Hp; lia|]. intros x. apply parents_product; [done|]. exists (Z.of_nat n). done.
Qed.

Lemma flat_topology plan n : DigitRangePlan.product_stage_arities plan = Ok [] ->
  length (DigitRangePlan.leaf_coeffs (E := E) plan) = n -> n = 1%nat ->
  Forall (fun cs => length cs = S (Z.to_nat (DigitRangePlan.leaf_degree plan))) (DigitRangePlan.leaf_coeffs (E := E) plan) ->
  topology plan [] 1.
Proof. intros Ha Hl -> Hd. constructor; try done. intros leaves rounds [|pr prs] _ Hprs; done. Qed.

Lemma one_stage_topology plan a n : DigitRangePlan.product_stage_arities plan = Ok [a] ->
  (0 < a)%Z -> Z.of_nat n = a -> length (DigitRangePlan.leaf_coeffs (E := E) plan) = n ->
  Forall (fun cs => length cs = S (Z.to_nat (DigitRangePlan.leaf_degree plan))) (DigitRangePlan.leaf_coeffs (E := E) plan) ->
  (forall rounds, DigitRangePlan.stage_shape plan rounds 0
    = Ok (Some {| shape_sumcheck_proof := (rounds, a); shape_child_claims := a |})) ->
  topology plan [a] n.
Proof.
  intros Ha Hpos Hn Hl Hd Hs. constructor; try done.
  - intros leaves Hlv. cbn [node_tables]. apply parents_step; [done|]. unfold len. lia.
  - intros leaves rounds [|pr [|pr' prs]] Hlv Hprs; try done.
    change (zip (range (len [pr])) [pr]) with [(0%Z, pr)]. cbn [ofold]. intros Hc. obind_inv Hc.
    match goal with u : unit |- _ => destruct u end.
    pose proof (check_prefix_claims _ _ _ _ _ E0 (Hs rounds)) as Hcl. cbn [shape_child_claims] in Hcl.
    cbn [lanes_match node_tables]. split; [done|]. split; [unfold len in Hcl; lia|done].
Qed.

Lemma plan_topology plan : plan_ok plan -> exists arities n, topology plan arities n.
Proof.
  revert plan. apply plan_cases.
  - exists [], 1%nat. apply (flat_topology _ 1); try reflexivity. apply leaf_degrees. vm_compute. by repeat constructor.
  - exists [], 1%nat. apply (flat_topology _ 1); try reflexivity. apply leaf_degrees. vm_compute. by repeat constructor.
  - exists [2%Z], 2%nat. apply one_stage_topology; try reflexivity. apply leaf_degrees. vm_compute. by repeat constructor.
  - exists [4%Z], 4%nat. apply one_stage_topology; try reflexivity. apply leaf_degrees. vm_compute. by repeat constructor.
  - exists [2; 4]%Z, 8%nat. constructor; try reflexivity.
    + apply leaf_degrees. vm_compute. by repeat constructor.
    + intros leaves Hl. cbn [node_tables]. destruct (parents_step 4 leaves 2) as [P1 P2]; [lia|unfold len; lia|].
      destruct (parents_step 2 (parents 4 leaves) 1) as [Q1 Q2]; [lia|unfold len; lia|].
      split; [done|]. intros x. by rewrite Q2, P2.
    + intros leaves rounds [|pr0 [|pr1 [|pr2 prs]]] Hlv Hprs; try done.
      change (zip (range (len [pr0; pr1])) [pr0; pr1]) with [(0%Z, pr0); (1%Z, pr1)]. cbn [ofold].
      intros Hc. obind_inv Hc. obind_inv Hc. destruct a, a0.
      destruct (parents_step 4 leaves 2) as [P1 _]; [lia|unfold len; lia|].
      pose proof (check_prefix_claims {| log_basis := 6 |} rounds 0 pr0 _ E0 eq_refl) as C0.
      pose proof (check_prefix_claims {| log_basis := 6 |} rounds 1 pr1 _ E1 eq_refl) as C1.
      change (shape_child_claims _) with 2%Z in C0. change (shape_child_claims _) with 8%Z in C1. cbn [lanes_match node_tables]. unfold len in C0, C1. repeat split; lia.
Qed.
End topology.

(** * The verifier accepts only balanced digits, up to lucky challenges *)

Section verify.
Context {F E T : Type} `{ExtField F E, FieldLaws E, !RingI64 E, !RingI64Laws E, AkitaSerialize E, EqRuntime E, Allocator, BuildMode,
  Transcript F T, TranscriptGrinding F T}.
Add Ring Ering5 : (field_ring (E := E)).

(** The range image of a digit, and the range polynomial of the image. *)
Definition range_image (w : list E -> E) (x : list E) : E := w x * (w x + 1).
Definition range_value (plan : DigitRangePlan) (w : list E -> E) (x : list E) : E :=
  DigitRangePlan.evaluate_range_polynomial plan (range_image w x).

Lemma leaf_oracle_sum plan ws s p :
  wsum (eq_weights p) (leaf_oracle plan ws s) [] = weighted ws (values (leaf_tables plan s) p).
Proof.
  unfold leaf_oracle, values. etransitivity.
  { apply (wsum_cube_ext _ _ (fun x => weighted ws (map (fun f => f x) (leaf_tables plan s)))).
    intros xs Hx. cbn [app]. unfold leaf_tables. rewrite map_map. f_equal. apply map_ext. intros cs.
    f_equal. eapply mle_cube. rewrite length_eq_weights in Hx. exact Hx. }
  by rewrite wsum_weighted.
Qed.

Lemma leaf_oracle_degree plan ws s n p xs :
  Forall (fun cs => length cs = S n) (DigitRangePlan.leaf_coeffs (E := E) plan) ->
  poly_in n (fun x => leaf_oracle plan ws s (p ++ x :: xs)).
Proof.
  intros Hd. unfold leaf_oracle.
  eapply poly_in_ext; [|apply (poly_in_weighted n ws
    (map (fun cs x => peval cs (mle s (p ++ x :: xs))) (DigitRangePlan.leaf_coeffs plan)))].
  - intros x. cbn beta. by rewrite map_map.
  - rewrite Forall_map. eapply list.Forall_impl; [exact Hd|]. intros cs Hcs. cbn beta in *.
    apply (poly_in_mono (length cs - 1)); [lia|]. apply affine_peval, mle_affine.
Qed.

Lemma verify_splits self (proof : AkitaStage1Proof E) (t : T) level r t' :
  AkitaStage1Verifier.verify (F := F) self proof t level = Ok (r, t') ->
  exists prs leaf_stage leaf t1 stage, stages proof = prs ++ [leaf_stage] /\
    AkitaStage1Verifier.verify_product_prefix (F := F) self prs t level = Ok (leaf, t1) /\
    AkitaStage1Verifier.verify_with_rounds (F := F)
      {| rl_plan := s1_plan self; rl_equality_point := leaf_equality_point leaf;
         rl_input_claim := leaf_input_claim leaf; rl_poly_coeffs := leaf_polynomial_coefficients leaf;
         rl_range_image_evaluation := range_image_evaluation proof |} (sumcheck_proof leaf_stage) t1 level stage
    = Ok (r, t').
Proof.
  unfold AkitaStage1Verifier.verify. intros Hv. obind_inv Hv. obind_inv Hv.
  destruct (index (stages proof) (len (stages proof) - 1)%Z) as [leaf_stage|] eqn:Hi; [|done]. cbn [ok_or obind] in Hv.
  obind_inv Hv. obind_inv Hv. destruct a2 as [leaf t1]. cbn [obind] in Hv. obind_inv Hv.
  exists (removelast (stages proof)), leaf_stage, leaf, t1, a2. split; [|by split].
  assert (Hnil : stages proof <> []) by (intros Hnil; by rewrite Hnil in Hi).
  rewrite (app_removelast_last leaf_stage Hnil) at 1. do 2 f_equal.
  destruct (exists_last Hnil) as (l & x & Hlx). rewrite Hlx in Hi |- *. rewrite last_last.
  unfold index, len in Hi. rewrite length_app in Hi. cbn [length] in Hi. destruct (Z.leb_spec 0 (Z.of_nat (length l + 1) - 1)); [|lia].
  rewrite list_lookup_middle in Hi by lia. by injection Hi.
Qed.

Lemma prefix_splits self (prs : list (AkitaStage1StageProof E)) (t : T) level leaf t1 arities :
  DigitRangePlan.product_stage_arities (s1_plan self) = Ok arities ->
  AkitaStage1Verifier.verify_product_prefix (F := F) self prs t level = Ok (leaf, t1) ->
  length prs = length arities /\
  ofold (fun _ '(stage_index, stage) => AkitaStage1Verifier.check_prefix_stage (E := E) (s1_plan self)
      (len (coordinates (s1_equality_point self))) stage_index stage) (zip (range (len prs)) prs) tt = Ok tt /\
  exists ws,
    ofold (AkitaStage1Verifier.product_stage (F := F) self level)
      (zip (seqZ 0 (len (zip arities prs))) (zip arities prs))
      (coordinates (s1_equality_point self), 0, [1], t)
    = Ok (leaf_equality_point leaf, leaf_input_claim leaf, ws, t1) /\
    DigitRangePlan.batch_leaf_polynomials (s1_plan self) ws (DigitRangePlan.leaf_coeffs (s1_plan self))
    = Ok (leaf_polynomial_coefficients leaf).
Proof.
  intros Ha Hp. unfold AkitaStage1Verifier.verify_product_prefix in Hp. rewrite Ha in Hp. cbn [obind] in Hp.
  destruct (Z.eqb_spec (len prs) (len arities)) as [Hl|]; [|done]. cbn [negb] in Hp.
  obind_inv Hp. destruct a. split; [unfold len in Hl; lia|]. split; [done|].
  obind_inv Hp. destruct a as [[[p c] ws] t2]. cbn [obind] in Hp. obind_inv Hp. injection Hp as <- <-.
  exists ws. by split.
Qed.

Lemma root_value plan arities n w tau : topology plan arities n ->
  weighted [1] (values (node_tables arities (leaf_tables plan (range_image w))) tau) = mle (range_value plan w) tau.
Proof.
  intros Ht. destruct (top_root _ _ _ Ht (leaf_tables plan (range_image w))) as [Hl Hp].
  { unfold leaf_tables. rewrite length_map. apply (top_leaves _ _ _ Ht). }
  destruct (node_tables _ _) as [|T0 [|]]; try done. cbn [values map]. rewrite weighted_cons.
  change (weighted [] []) with (0 : E).
  transitivity (mle T0 tau); [ring|]. apply wsum_cube_ext. intros xs _. cbn [app].
  specialize (Hp xs). cbn [map] in Hp. rewrite fprod_cons in Hp. change (fprod []) with (1 : E) in Hp.
  transitivity (T0 xs * 1); [ring|]. rewrite Hp. unfold leaf_tables. rewrite map_map.
  unfold range_value. by rewrite <-leaves_product.
Qed.

(** The leaf stage. *)
Lemma leaf_sound plan (v : RangePolynomialLeafVerifier E) (proof : EqFactoredSumcheckProof E) (t : T) level stage
    (r : list E) (t' : T) (ws : list E) (s : list E -> E) n :
  Forall (fun cs => length cs = S n) (DigitRangePlan.leaf_coeffs (E := E) plan) ->
  length ws = length (DigitRangePlan.leaf_coeffs (E := E) plan) ->
  DigitRangePlan.batch_leaf_polynomials plan ws (DigitRangePlan.leaf_coeffs plan) = Ok (rl_poly_coeffs v) ->
  AkitaStage1Verifier.verify_with_rounds (F := F) v proof t level stage = Ok (r, t') ->
  length r = length (rl_equality_point v) /\
  (rl_range_image_evaluation v = mle s r ->
   rl_input_claim v <> weighted ws (values (leaf_tables plan s) (rl_equality_point v)) ->
   lucky_round n proof (rl_equality_point v) r (rl_input_claim v) (leaf_oracle plan ws s)).
Proof.
  intros Hd Hws Hb Hv. unfold AkitaStage1Verifier.verify_with_rounds in Hv. obind_inv Hv.
  destruct a as [cs ct]. cbn [obind] in Hv. injection Hv as -> <-.
  destruct (batch_leaf_spec plan ws (DigitRangePlan.leaf_coeffs plan) Hws) as (coeffs & Hc & Hmax & Hval).
  rewrite Hb in Hc. injection Hc as <-.
  assert (Hlen : (length (rl_poly_coeffs v) <= S n)%nat).
  { apply Hmax. eapply list.Forall_impl; [exact Hd|]. cbn beta. intros cs ->. lia. }
  destruct (stage_sound _ v (rl_equality_point v) proof _ r ct (leaf_oracle plan ws s) n E0 eq_refl eq_refl)
    as [Hl Hluck].
  { cbn [qv_degree_bound RangePolynomialLeaf_Verifier]. unfold saturating_sub, len. lia. }
  { intros q xs. by apply leaf_oracle_degree. }
  split; [done|]. intros Himg Hclaim. apply Hluck.
  - intros rs. cbn [qv_expected_output_claim RangePolynomialLeaf_Verifier]. f_equal.
    by rewrite leaf_polynomial_peval, Hval, Himg.
  - rewrite leaf_oracle_sum. exact Hclaim.
Qed.

(** C3: When the digit-range verifier accepts and the claimed evaluation of the
    range image at the final point is that of [w (w + 1)], every entry of [w]
    is a balanced digit of the basis, unless some challenge it drew was lucky: the
    equality point is a zero of the extension of a non-zero range value, some
    product stage had a lucky round or a lucky batching challenge, or the leaf
    stage had a lucky round. *)
Theorem stage1_soundness plan point (proof : AkitaStage1Proof E) (t : T) level r t' w x :
  plan_ok plan ->
  AkitaStage1Verifier.verify (F := F) (AkitaStage1Verifier.new point plan) proof t level = Ok (r, t') ->
  range_image_evaluation proof = mle (range_image w) r ->
  cube (length (coordinates point)) x ->
  (forall k, (- (DigitRangePlan.basis plan / 2) <= k < DigitRangePlan.basis plan / 2)%Z -> w x <> from_i64 k) ->
  length r = length (coordinates point) /\
  exists arities prs leaf_stage trace p c ws t1,
    DigitRangePlan.product_stage_arities plan = Ok arities /\
    stages proof = prs ++ [leaf_stage] /\
    prefix_run (F := F) level arities prs trace 0 (coordinates point) 0 [1] t (p, c, ws, t1) /\
    (((exists y, cube (length (coordinates point)) y /\ range_value plan w y <> 0) /\
      mle (range_value plan w) (coordinates point) = 0) \/
     lucky_prefix (leaf_tables plan (range_image w)) arities prs trace (coordinates point) 0 [1] \/
     lucky_round (Z.to_nat (DigitRangePlan.leaf_degree plan)) (sumcheck_proof leaf_stage) p r c
       (leaf_oracle plan ws (range_image w))).
Proof.
  intros Hok Hv Himg Hx Hbad. destruct (plan_topology (E := E) plan Hok) as (arities & n & Htop).
  destruct (verify_splits _ _ _ _ _ _ Hv) as (prs & leaf_stage & leaf & t1 & stage & Hst & Hp & Hl).
  destruct (prefix_splits (AkitaStage1Verifier.new point plan) prs t level leaf t1 arities (top_arities _ _ _ Htop) Hp) as (Hprs & Hchk & ws & Hloop & Hb).
  cbn [s1_plan s1_equality_point AkitaStage1Verifier.new] in *.
  assert (Hlv : length (leaf_tables (E := E) plan (range_image w)) = n)
    by (unfold leaf_tables; rewrite length_map; apply (top_leaves _ _ _ Htop)).
  pose proof (top_lanes _ _ _ Htop _ _ _ Hlv Hprs Hchk) as Hlanes.
  destruct (top_root _ _ _ Htop _ Hlv) as [Hroot _].
  destruct (prefix_sound _ level _ arities prs 0 _ _ _ _ _ _ _ _ Hlanes Hloop) as (trace & Htr & Hlp & Hws & Hsound);
    [by rewrite Hroot|].
  match type of Hl with AkitaStage1Verifier.verify_with_rounds ?v _ _ _ _ = _ =>
    destruct (leaf_sound plan v _ _ _ _ _ _ ws (range_image w) _ (top_degree _ _ _ Htop)
      ltac:(by rewrite Hws; unfold leaf_tables; rewrite length_map) Hb Hl) as [Hlr Hleaf]
  end.
  cbn [rl_equality_point rl_input_claim rl_range_image_evaluation] in Hlr, Hleaf.
  split; [by rewrite Hlr|].
  exists arities, prs, leaf_stage, trace, (leaf_equality_point leaf), (leaf_input_claim leaf), ws, t1.
  split; [apply (top_arities _ _ _ Htop)|]. do 2 (split; [done|]).
  destruct (decide (mle (range_value plan w) (coordinates point) = 0)) as [Hz|Hnz].
  { left. split; [|done]. exists x. split; [done|]. intros Hz'. apply range_polynomial_zero in Hz' as (k & Hk & Hwk); [|done]. by apply (Hbad k). }
  right. destruct Hsound as [Hluck|Hc]; [|by left|right; by apply Hleaf].
  rewrite (root_value _ _ _ w _ Htop). by apply not_eq_sym.
Qed.
End verify.

(** * Evaluation at concrete inputs *)

Import toy toy_sumcheck F97_env F97_fold.

Module toy_stage1.
#[export] Instance base : ExtField F97.t F97.t :=
  {| DEGREE := 1; to_base_vec x := [x]; from_base_slice l := default 0 (l !! 0%nat) |}.
#[export] Instance no_grinding : TranscriptGrinding F97.t T :=
  {| grind_query t _ := Ok t; record_fold_challenges t _ _ _ := Ok t |}.
#[export] Instance release : BuildMode := false.

(** The digits 2 and 3 are out of range for basis 4; the equality point 24
    hides this. *)
Definition plan4 : DigitRangePlan := {| log_basis := 2 |}.
Definition digits (x : list F97.t) : F97.t := if decide (x = [0]) then F97.of_Z 2 else F97.of_Z 3.
Definition hiding_point : DigitRangeEqualityPoint F97.t :=
  {| coordinates := [F97.of_Z 24]; low_variable_count := 1 |}.
Definition hiding_proof : AkitaStage1Proof F97.t :=
  {| stages := [{| sumcheck_proof :=
                     {| eq_round_polys := [{| coeffs_except_constant_term := map F97.of_Z [60; 36]%Z |}] |};
                   child_claims := [] |}];
     range_image_evaluation := F97.of_Z 62; norm_proof := None |}.
End toy_stage1.
Import toy_stage1.

Lemma stage1_soundness_witness :
  exists r t', AkitaStage1Verifier.verify (F := F97.t) (AkitaStage1Verifier.new hiding_point plan4) hiding_proof start_v 0
               = Ok (r, t') /\ length r = 1%nat.
Proof.
  destruct (AkitaStage1Verifier.verify (F := F97.t) (AkitaStage1Verifier.new hiding_point plan4) hiding_proof start_v 0)
    as [[r t']|e|] eqn:Hv; [|vm_compute in Hv; discriminate Hv..].
  assert (Hr : r = [F97.of_Z 74]) by (vm_compute in Hv; by injection Hv as <- _).
  exists r, t'. split; [reflexivity|].
  destruct (stage1_soundness (F := F97.t) plan4 hiding_point hiding_proof start_v 0 r t' digits [0]) as [Hl _].
  - split; discriminate.
  - exact Hv.
  - rewrite Hr. vm_compute. reflexivity.
  - split; [reflexivity|]. constructor; [by left|constructor].
  - intros k Hk. change (-2 <= k < 2)%Z in Hk.
    assert (k = -2 \/ k = -1 \/ k = 0 \/ k = 1)%Z as [->|[->|[->| ->]]] by lia; vm_compute; discriminate.
  - exact Hl.
Defined.
