(* ===== verification/NormStage.v ===== *)
(** [akita-verifier/src/stages/physical_l2_norm.rs] with the response map of
    [akita-types/src/proof/relation_range_image.rs]: the verifier of the exact
    integer norm of the folded response.  The norm identity is fused into the
    last range stage; its claims are integers, checked to be below the wrap-around
    bound before they are used in the field. *)

From S2P Require Import Prelude Checked Field Serialization UniPoly EqPoly MultiPoly SplitEq RingEval Decomposition Gadget ModField.
From S2P Require Import Transcript Grinding GrindingReplay Sumcheck Mle Hypercube PhysicalL2 LimbGram DigitRange Stage1.
Local Open Scope field_scope.

(** [FpExtEncoding::ext_coords], the coordinates over the base field, and
    [Ring::from_u128]. *)
Class ExtCoords (F E : Type) := ext_coords : E -> list F.
Class RingU128 (E : Type) := from_u128 : Z -> E.

(** A [usize] sum or product outside a checked operation. *)
Definition usize_op `{BuildMode} (z : Z) : result Z :=
  match usize z with Some z => Ok z | None => if debug_assertions then Panic else Ok (uwrap USIZE_BITS z) end.

(** * The physical response *)

Record PhysicalResponseSegment := {
  physical_start : Z;
  physical_len : Z;
  witness_start : Z;
}.

Record PhysicalResponsePlan := {
  rp_domain : FlatBooleanDomain;
  rp_shape : PhysicalL2NormProofShape;
  rp_segments : list PhysicalResponseSegment;
  rp_ring_dimension : Z;
  rp_fold_digit_count : Z;
  rp_fold_basis : Z;
}.

Module PhysicalResponsePlan.

Definition virtual_table_count (self : PhysicalResponsePlan) : Z :=
  match rp_shape self with Direct _ => 1 | LimbGram _ _ limb_count => limb_count end.

(** [table.get_mut(start..start + width)]: the part before, the slice and the
    part after. *)
Definition get_mut `{BuildMode} (table : list Z) (start width : Z) : result (list Z * list Z * list Z) :=
  let* stop := usize_op (start + width)%Z in
  let* output := ok_or (slice table start stop) InvalidProof in
  Ok (take (Z.to_nat start) table, output, drop (Z.to_nat stop) table).

(** [output.iter_mut().zip(digits)] *)
Fixpoint update_row (f : Z -> Z -> result Z) (output digits : list Z) : result (list Z) :=
  match output, digits with
  | value :: output, digit :: digits =>
      let* value := f value digit in
      let* output := update_row f output digits in
      Ok (value :: output)
  | _, _ => Ok output
  end.

Section ops.
Context {D : Type} `{BuildMode}.
(** [decode_digits] fills the buffer with the digits that start at an address;
    a closure with state [D]. *)
Variable decode_digits : D -> Z -> list Z -> result (list Z * D).

(** [witness_row + limb * self.ring_dimension] *)
Definition digit_address (self : PhysicalResponsePlan) (witness_row limb : Z) : result Z :=
  let* offset := usize_op (limb * rp_ring_dimension self)%Z in
  usize_op (witness_row + offset)%Z.

Definition direct_limb (self : PhysicalResponsePlan) (witness_row : Z)
  : list Z * list Z * Z * D -> Z -> result (list Z * list Z * Z * D) :=
  fun '(output, digits, basis_power, d) limb =>
    let* addr := digit_address self witness_row limb in
    let* (digits, d) := decode_digits d addr digits in
    let* output :=
      update_row
        (fun value digit =>
           let* product := ok_or (mul_i128 digit basis_power) (InvalidSetup "L2 basis power overflow") in
           ok_or (add_i128 value product) (InvalidSetup "L2 response recomposition overflow")) output digits in
    let* basis_power := ok_or (mul_i128 basis_power (rp_fold_basis self)) (InvalidSetup "L2 basis power overflow") in
    Ok (output, digits, basis_power, d).

Definition limb_row (self : PhysicalResponsePlan) (witness_row physical_row : Z)
  : list (list Z) * list Z * D -> Z -> result (list (list Z) * list Z * D) :=
  fun '(tables, digits, d) limb =>
    let* addr := digit_address self witness_row limb in
    let* (digits, d) := decode_digits d addr digits in
    let* table := unwrap (index tables limb) in
    let* (before, output, after) := get_mut table physical_row (rp_ring_dimension self) in
    let* output := update_row (fun _ digit => Ok digit) output digits in
    let* tables := store tables limb (before ++ output ++ after) in
    Ok (tables, digits, d).

Definition segment_row (self : PhysicalResponsePlan) (digit_stride : Z) (segment : PhysicalResponseSegment)
  : list (list Z) * list Z * D -> Z -> result (list (list Z) * list Z * D) :=
  fun '(tables, digits, d) row =>
    let overflow := InvalidSetup "L2 witness row overflow" in
    let* offset := ok_or (checked_mul row digit_stride) overflow in
    let* witness_row := ok_or (checked_add (witness_start segment) offset) overflow in
    let overflow := InvalidSetup "L2 physical row overflow" in
    let* offset := ok_or (checked_mul row (rp_ring_dimension self)) overflow in
    let* physical_row := ok_or (checked_add (physical_start segment) offset) overflow in
    match rp_shape self with
    | Direct _ =>
        let* table := ok_or (index tables 0) InvalidProof in
        let* (before, output, after) := get_mut table physical_row (rp_ring_dimension self) in
        let* (output, digits, _, d) :=
          ofold (direct_limb self witness_row) (range (rp_fold_digit_count self)) (output, digits, 1%Z, d) in
        let* tables := store tables 0 (before ++ output ++ after) in
        Ok (tables, digits, d)
    | LimbGram _ _ limb_count =>
        ofold (limb_row self witness_row physical_row)
          (range (Z.min limb_count (len tables))) (tables, digits, d)
    end.

Definition materialize_virtual_integers (self : PhysicalResponsePlan) (compact_witness_len : Z) (d : D)
  : result (list (list Z) * D) :=
  if negb (compact_witness_len =? live_len (rp_domain self))%Z
  then Err (InvalidSize (live_len (rp_domain self)) compact_witness_len)
  else
    let tables :=
      replicate (Z.to_nat (virtual_table_count self))
        (replicate (Z.to_nat (PhysicalL2NormProofShape.physical_response_len (rp_shape self))) 0%Z) in
    let* digit_stride := ok_or (checked_mul (rp_fold_digit_count self) (rp_ring_dimension self))
                           (InvalidSetup "L2 response stride overflow") in
    let digits := replicate (Z.to_nat (rp_ring_dimension self)) 0%Z in
    let* (tables, _, d) :=
      ofold (fun st segment =>
               let* rows := unwrap (checked.checked_div (physical_len segment) (rp_ring_dimension self)) in
               ofold (segment_row self digit_stride segment) (range rows) st)
        (rp_segments self) (tables, digits, d) in
    Ok (tables, d).
End ops.
End PhysicalResponsePlan.

(** * The fused leaf instance *)

Record PhysicalL2RangeClaim (E : Type) := {
  range_equality_point : list E;
  range_input_claim : E;
  range_leaf_coefficients : list E;
  range_image_value : E;
}.
#[global] Arguments range_equality_point {E}. #[global] Arguments range_input_claim {E}.
#[global] Arguments range_leaf_coefficients {E}. #[global] Arguments range_image_value {E}.
#[global] Arguments Build_PhysicalL2RangeClaim {E}.

Record PhysicalL2NormVerifier (E : Type) := {
  nv_plan : PhysicalResponsePlan;
  nv_proof : PhysicalL2NormProof E;
  nv_range_equality_point : list E;
  nv_range_leaf_coefficients : list E;
  nv_range_image_evaluation : E;
  nv_subclaim_weights : list E;
  nv_input_claim : E;
  nv_norm_merge : E;
}.
#[global] Arguments nv_plan {E}. #[global] Arguments nv_proof {E}. #[global] Arguments nv_range_equality_point {E}.
#[global] Arguments nv_range_leaf_coefficients {E}. #[global] Arguments nv_range_image_evaluation {E}.
#[global] Arguments nv_subclaim_weights {E}. #[global] Arguments nv_input_claim {E}. #[global] Arguments nv_norm_merge {E}.
#[global] Arguments Build_PhysicalL2NormVerifier {E}.

Record PhysicalL2VerifierReplay (E : Type) := {
  replay_point : list E;
  replay_virtual_evaluations : list E;
}.
#[global] Arguments replay_point {E}. #[global] Arguments replay_virtual_evaluations {E}.
#[global] Arguments Build_PhysicalL2VerifierReplay {E}.

Section instance.
Context {E : Type} `{Field E}.

(** [limb_pairs().zip(pair_selectors.iter_mut())] of one block. *)
Fixpoint update_selectors (f : Z * Z -> result E) (pairs : list (Z * Z)) (selectors : list E) : result (list E) :=
  match pairs, selectors with
  | p :: pairs, selector :: selectors =>
      let* term := f p in
      let* selectors := update_selectors f pairs selectors in
      Ok (selector + term :: selectors)
  | _, _ => Ok selectors
  end.

Definition selector_term (layout : LimbGramLayout) (subclaim_weights : list E) (block_index : Z) (block_weight : E)
    (p : Z * Z) : result E :=
  let '(lhs, rhs) := p in
  let* idx := ok_or (LimbGramLayout.subclaim_index layout block_index lhs rhs)
                (InvalidSetup "L2 selector index overflow") in
  let* weight := ok_or (index subclaim_weights idx) InvalidProof in
  Ok (weight * block_weight).

Definition selector_block (layout : LimbGramLayout) (subclaim_weights point : list E)
  : list E * E -> Z * (Z * Z) -> result (list E * E) :=
  fun '(pair_selectors, block_start_sum) '(block_index, (_, block_end)) =>
    let* block_end_sum := EqPolynomial.prefix_sum point block_end in
    let block_weight := block_end_sum - block_start_sum in
    let* pair_selectors :=
      update_selectors (selector_term layout subclaim_weights block_index block_weight)
        (LimbGramLayout.limb_pairs layout) pair_selectors in
    Ok (pair_selectors, block_end_sum).

Definition pair_product (virtual_evaluations : list E) (sum : E) (item : Z * Z * E) : result E :=
  let '((lhs, rhs), selector) := item in
  let* left_value := ok_or (index virtual_evaluations lhs) InvalidProof in
  let* right_value := ok_or (index virtual_evaluations rhs) InvalidProof in
  Ok (sum + selector * left_value * right_value).

Definition norm_at (v : PhysicalL2NormVerifier E) (point : list E) : result E :=
  let evaluations := virtual_evaluations (nv_proof v) in
  match rp_shape (nv_plan v) with
  | Direct _ =>
      let* value := ok_or (index evaluations 0) InvalidProof in
      Ok (value * value)
  | shape =>
      let* layout := PhysicalL2NormProofShape.limb_gram_layout shape in
      let* layout := ok_or layout InvalidProof in
      let ranges := LimbGramLayout.block_ranges layout in
      let* (pair_selectors, _) :=
        ofold (selector_block layout (nv_subclaim_weights v) point)
          (zip (range (len ranges)) ranges)
          (replicate (Z.to_nat (pair_count layout)) 0, 0) in
      ofold (pair_product evaluations) (zip (LimbGramLayout.limb_pairs layout) pair_selectors) 0
  end.
End instance.

Section verifier.
Context {F E T : Type} `{ExtField F E, CanonicalEncoding F, Field F, Field E, AkitaSerialize E, EqRuntime E, Allocator,
  ExtCoords F E, RingU128 E, Transcript F T, TranscriptGrinding F T}.

#[export] Instance PhysicalL2Norm_Verifier : SumcheckInstanceVerifier E (PhysicalL2NormVerifier E) := {
  v_num_rounds v := num_vars (rp_domain (nv_plan v));
  v_degree_bound v := len (nv_range_leaf_coefficients v);
  v_input_claim := nv_input_claim;
  expected_output_claim v point :=
    let* range_equality := EqPolynomial.mle (nv_range_equality_point v) point in
    let range_leaf :=
      foldl (fun acc coefficient => acc * nv_range_image_evaluation v + coefficient) 0
        (rev (nv_range_leaf_coefficients v)) in
    let* norm := norm_at v point in
    Ok (range_equality * range_leaf + nv_norm_merge v * norm);
}.

Definition centered_lift (value : E) (profile : SisModulusProfileId) : result Z :=
  match ext_coords (F := F) value with
  | [] => Err InvalidProof
  | first :: tail =>
      if existsb (fun coordinate => negb (feqb coordinate 0)) tail then Err InvalidProof
      else
        let modulus := SisModulusProfileId.modulus profile in
        if (2 ^ 127 - 1 <? modulus)%Z
        then Err (InvalidSetup "centered limb lifting is only defined for small fields")
        else
          let* canonical := ok_or (checked_u 128 (to_canonical first)) InvalidProof in
          if (canonical <=? modulus / 2)%Z
          then ok_or (checked_s 128 canonical) InvalidProof
          else
            let* magnitude := ok_or (checked_s 128 (modulus - canonical)) InvalidProof in
            Ok (- magnitude)%Z
  end.

Definition validate_claims (plan : PhysicalResponsePlan) (proof : PhysicalL2NormProof E)
    (profile : SisModulusProfileId) : result unit :=
  match rp_shape plan with
  | Direct _ =>
      if negb (len (subclaims proof) =? 0)%Z || negb (len (virtual_evaluations proof) =? 1)%Z ||
         (SisModulusProfileId.modulus profile <=? response_l2_sq proof)%Z
      then Err InvalidProof else Ok tt
  | LimbGram _ block_len _ as shape =>
      let* layout := PhysicalL2NormProofShape.limb_gram_layout shape in
      let* layout := ok_or layout InvalidProof in
      if negb (len (subclaims proof) =? LimbGramLayout.subclaim_count layout)%Z ||
         negb (len (virtual_evaluations proof) =? lg_limb_count layout)%Z
      then Err InvalidProof
      else
        let overflow := InvalidSetup "L2 limb bound overflow" in
        let digit_abs := (rp_fold_basis plan / 2)%Z in
        let* sq := ok_or (mul_u128 digit_abs digit_abs) overflow in
        let* claim_abs_bound := ok_or (mul_u128 block_len sq) overflow in
        let* integers := omapM (fun claim => centered_lift claim profile) (subclaims proof) in
        if existsb (fun value => (claim_abs_bound <? Z.abs value)%Z) integers then Err InvalidProof
        else
          let* total := reconstruct_l2_sq_from_gram shape (rp_fold_basis plan) integers in
          if negb (total =? response_l2_sq proof)%Z then Err InvalidProof else Ok tt
  end.

Definition is_none {A} (o : option A) : bool := match o with None => true | Some _ => false end.

Definition validate_integer_claim (plan : PhysicalResponsePlan) (proof : PhysicalL2NormProof E)
    (profile : SisModulusProfileId) (cap : Z) : result unit :=
  let modulus := SisModulusProfileId.modulus profile in
  let* modulus_minus_one := ok_or (checked_u 128 (modulus - 1)%Z)
                              (InvalidSetup "L2 modulus profile has an empty field") in
  if is_none (from_u128_checked (E := F) modulus_minus_one) || negb (is_none (from_u128_checked (E := F) modulus))
  then Err (InvalidSetup "L2 modulus profile disagrees with the proof base field")
  else if (cap <? response_l2_sq proof)%Z then Err InvalidProof
  else
    let* _ := PhysicalL2NormProofShape.validate_integer_soundness (rp_shape plan) profile
                (rp_fold_basis plan) (rp_fold_digit_count plan) in
    validate_claims plan proof profile.

(** The powers of the batching challenge: [for _ in 0..count]. *)
Definition subclaim_powers (gamma : E) (count : Z) : list E :=
  fst (foldl (fun '(weights, power) _ => (weights ++ [power], power * gamma)) ([], 1) (range count)).

Definition norm_claim (plan : PhysicalResponsePlan) (proof : PhysicalL2NormProof E) (transcript : T) (level : Z)
  : result (list E * E * T) :=
  match rp_shape plan with
  | Direct _ => Ok ([], from_u128 (response_l2_sq proof), transcript)
  | LimbGram _ _ _ =>
      let* transcript := grind_query (F := F) transcript (L2SubclaimBatch level) in
      let* (gamma, transcript) :=
        sample_ext_challenge (F := F) (E := E) transcript labels.CHALLENGE_L2_NORM_BATCH in
      let subclaim_weights := subclaim_powers gamma (len (subclaims proof)) in
      Ok (subclaim_weights,
          foldl (fun sum '(claim, weight) => sum + claim * weight) 0 (zip (subclaims proof) subclaim_weights),
          transcript)
  end.

Definition verify_physical_l2_norm (plan : PhysicalResponsePlan) (proof : PhysicalL2NormProof E)
    (range_claim : PhysicalL2RangeClaim E) (profile : SisModulusProfileId) (cap : Z) (transcript : T) (level : Z)
  : result (PhysicalL2VerifierReplay E * T) :=
  if negb (len (range_equality_point range_claim) =? num_vars (rp_domain plan))%Z ||
     (len (range_leaf_coefficients range_claim) <? 3)%Z
  then Err (InvalidSetup "fused Stage-1 leaf has inconsistent range geometry")
  else
    let* _ := validate_integer_claim plan proof profile cap in
    let* transcript := append_serde (F := F) transcript labels.ABSORB_L2_NORM_INTEGER (U (n := 16) (response_l2_sq proof)) in
    let* transcript :=
      ofold (fun t claim => append_serde (F := F) t labels.ABSORB_L2_NORM_SUBCLAIM claim) (subclaims proof) transcript in
    let* (subclaim_weights, norm_input_claim, transcript) := norm_claim plan proof transcript level in
    let* transcript := grind_query (F := F) transcript (L2NormMerge level) in
    let* (norm_merge, transcript) :=
      sample_ext_challenge (F := F) (E := E) transcript labels.CHALLENGE_L2_NORM_MERGE in
    let verifier :=
      {| nv_plan := plan; nv_proof := proof; nv_range_equality_point := range_equality_point range_claim;
         nv_range_leaf_coefficients := range_leaf_coefficients range_claim;
         nv_range_image_evaluation := range_image_value range_claim; nv_subclaim_weights := subclaim_weights;
         nv_input_claim := range_input_claim range_claim + norm_merge * norm_input_claim;
         nv_norm_merge := norm_merge |} in
    let* (point, c) :=
      verify (F := F) (AkitaStage1Verifier.sample_round (F := F) PhysicalL2 level 0) verifier (norm_sumcheck proof)
        {| inner := transcript; round := 0 |} in
    let* transcript :=
      ofold (fun t evaluation => append_serde (F := F) t labels.ABSORB_L2_VIRTUAL_EVALUATION evaluation)
        (virtual_evaluations proof) (inner c) in
    Ok ({| replay_point := point; replay_virtual_evaluations := virtual_evaluations proof |}, transcript).
End verifier.
