(* ===== verification/NormValue.v ===== *)
(** What the norm verifier computes: integers as field elements and their centered
    lift, the canonical order of the limb claims, and the value of the fused
    leaf instance as the extension of a table whose sum over the cube is the
    batched squared norm. *)

From S2P Require Import Prelude Checked Field Serialization UniPoly EqPoly MultiPoly SplitEq RingEval Decomposition Gadget ModField.
From S2P Require Import Transcript Grinding GrindingReplay Sumcheck Mle Hypercube PhysicalL2 LimbGram DigitRange Stage1 NormStage.
Local Open Scope field_scope.

(** * Integers in the field *)

(** The laws of the external extension field: the coordinates of a base-field
    element, and [from_u128] as the canonical map. *)
Class ExtCoordsLaws (F E : Type) `{Field F, MulBase F E, ExtCoords F E} : Prop := {
  coords_embed (f : F) : exists zs, ext_coords (embed (E := E) f) = f :: zs /\ Forall (fun z => z = 0) zs;
  coords_base (e : E) (f : F) zs : ext_coords e = f :: zs -> Forall (fun z => z = 0) zs -> e = embed f;
}.
Class RingU128Laws (F E : Type) `{CanonicalEncoding F, MulBase F E, RingU128 E} : Prop :=
  from_u128_spec v : in_u 128 v -> from_u128 v = embed (E := E) (from_u128_reduced (E := F) v).

Section integers.
Context {F E : Type} `{FieldLaws F, CanonicalEncoding F, !CanonicalFieldLaws F, !Field E, !FieldLaws E,
  !MulBase F E, !MulBaseLaws F E, !ExtCoords F E, !ExtCoordsLaws F E}.
Add Ring Ering : (field_ring (E := E)).
Abbreviation q := (modulus F).

Definition int_base (z : Z) : F := from_u128_reduced (z mod q)%Z.
Definition int (z : Z) : E := embed (int_base z).

Lemma q_pos : (1 < q)%Z.
Proof. apply modulus_gt_1. Qed.

Lemma mod_q_range z : (0 <= z mod q < q)%Z.
Proof. pose proof q_pos. apply Z.mod_pos_bound. lia. Qed.

Lemma int_base_canonical z : to_canonical (int_base z) = (z mod q)%Z.
Proof.
  pose proof q_pos. pose proof (mod_q_range z). unfold int_base.
  rewrite from_reduced_spec by lia. by rewrite Z.mod_mod by lia.
Qed.

Lemma int_base_add a b : int_base (a + b) = int_base a + int_base b.
Proof. apply to_canonical_inj. rewrite to_canonical_add, !int_base_canonical. pose proof q_pos. by rewrite <-Zplus_mod. Qed.

Lemma int_base_mul a b : int_base (a * b) = int_base a * int_base b.
Proof. apply to_canonical_inj. rewrite to_canonical_mul, !int_base_canonical. pose proof q_pos. by rewrite <-Zmult_mod. Qed.

Lemma int_add a b : int (a + b) = int a + int b.
Proof. unfold int. by rewrite int_base_add, embed_add. Qed.

Lemma int_mul a b : int (a * b) = int a * int b.
Proof. unfold int. by rewrite int_base_mul, embed_mul. Qed.

Lemma int_zero : int 0 = 0.
Proof.
  pose proof (int_add 0 0) as Ha. change (0 + 0)%Z with 0%Z in Ha.
  transitivity (int 0 + int 0 - int 0); [ring|]. rewrite <-Ha. ring.
Qed.

Lemma int_sum {A} (f : A -> Z) l : int (zsum f l) = sum_of (fun a => int (f a)) l.
Proof.
  induction l as [|a l IH]; [exact int_zero|]. cbn [zsum foldr]. fold (zsum f l). by rewrite int_add, IH, sum_of_cons.
Qed.

Lemma embed_inj (f g : F) : embed (E := E) f = embed g -> f = g.
Proof.
  intros He. destruct (coords_embed (E := E) f) as (zf & Hf & _). destruct (coords_embed (E := E) g) as (zg & Hg & _).
  rewrite He, Hg in Hf. by injection Hf.
Qed.

Lemma int_eq a b : int a = int b -> (a mod q = b mod q)%Z.
Proof. intros He%embed_inj. by rewrite <-!int_base_canonical, He. Qed.

(** The centered lift recovers every integer of less than half the modulus. *)
Lemma centered_lift_int profile z : SisModulusProfileId.modulus profile = q -> (q < 2 ^ 127)%Z -> (Z.abs z < q / 2)%Z ->
  centered_lift (int z) profile = Ok z.
Proof.
  intros Hq Hsmall Hz. unfold centered_lift. destruct (coords_embed (E := E) (int_base z)) as (zs & Hc & Hzs).
  unfold int. rewrite Hc.
  assert (Hex : existsb (fun c => negb (feqb c 0)) zs = false).
  { clear Hc. induction Hzs as [|c zs -> _ IH]; [done|]. cbn [existsb]. rewrite IH. by rewrite (proj2 (feqb_spec (0 : F) 0)). }
  rewrite Hex, Hq, int_base_canonical. pose proof q_pos. destruct (Z.ltb_spec (2 ^ 127 - 1) q); [lia|].
  pose proof (mod_q_range z). pose proof (Z.mul_div_le q 2) as Hhalf.
  rewrite checked_u_in by (unfold in_u; lia). cbn [ok_or obind].
  assert (Hcase : (0 <= z -> z mod q = z)%Z /\ (z < 0 -> z mod q = z + q)%Z).
  { split; intros Hs; [apply Z.mod_small; lia|]. rewrite <-(Z.mod_add z 1 q), Z.mul_1_l by lia. apply Z.mod_small. lia. }
  destruct (Z.leb_spec (z mod q) (q / 2)) as [Hle|Hgt].
  - rewrite i128_fits by lia. cbn [ok_or]. f_equal. destruct (Z.le_gt_cases 0 z); [by apply Hcase|].
    destruct Hcase as [_ Hneg]. rewrite Hneg in Hle by lia. lia.
  - rewrite i128_fits by lia. cbn [ok_or obind]. f_equal. destruct (Z.le_gt_cases 0 z).
    + destruct Hcase as [Hpos _]. rewrite Hpos in Hgt by lia. lia.
    + destruct Hcase as [_ Hneg]. rewrite Hneg by lia. lia.
Qed.
End integers.

(** * Canonical slots *)

Section canonical_slots.
Local Open Scope Z_scope.

Lemma flat_seqZ (off : Z -> Z) N : 0 <= N -> (forall m, 0 <= m < N -> off m <= off (m + 1)) ->
  flat_map (fun m => seqZ (off m) (off (m + 1) - off m)) (range N) = seqZ (off 0) (off N - off 0) /\ off 0 <= off N.
Proof.
  intros HN. pattern N. apply natlike_ind; [|clear N HN|done].
  - intros _. rewrite Z.sub_diag. split; [done|lia].
  - intros N HN IH Hoff. unfold Z.succ in *. destruct IH as [IH Hle]; [intros; apply Hoff; lia|].
    rewrite range_S, flat_map_app, IH by done. cbn [flat_map]. rewrite app_nil_r. pose proof (Hoff N ltac:(lia)).
    replace (off (N + 1) - off 0) with ((off N - off 0) + (off (N + 1) - off N)) by lia.
    rewrite seqZ_app by lia. split; [|lia]. do 2 f_equal. lia.
Qed.

Section slots.
Variables (n bl K : Z) (L : LimbGramLayout).
Context (HL : layout_ok n bl K L).

Definition pair_pos (p : Z * Z) : Z := row_offset K (fst p) + (snd p - fst p).
Definition slots : list (Z * (Z * Z)) :=
  flat_map (fun b => map (fun p => (b, p)) (LimbGramLayout.limb_pairs L)) (range (block_count L)).
Definition slot_index (s : Z * (Z * Z)) : Z := fst s * pair_count L + pair_pos (snd s).

Lemma map_flat_map {A B C} (h : B -> C) (f : A -> list B) l : map h (flat_map f l) = flat_map (fun a => map h (f a)) l.
Proof. induction l as [|a l IH]; [done|]. cbn [flat_map]. by rewrite map_app, IH. Qed.

Lemma pair_positions : map pair_pos (LimbGramLayout.limb_pairs L) = range (pair_count L).
Proof.
  unfold LimbGramLayout.limb_pairs. rewrite (lo_limbs _ _ _ _ HL), map_flat_map. pose proof (lo_K _ _ _ _ HL).
  destruct (flat_seqZ (row_offset K) K ltac:(lia)) as [Hf _].
  { intros m Hm. rewrite row_offset_S. lia. }
  rewrite (row_offset_K n bl K L HL) in Hf. change (row_offset K 0) with 0 in Hf. rewrite Z.sub_0_r in Hf.
  change (range (pair_count L)) with (seqZ 0 (pair_count L)). rewrite <-Hf. apply flat_map_ext. intros l. rewrite map_map, row_offset_S. unfold pair_pos. cbn [fst snd].
  replace (row_offset K l + (K - l) - row_offset K l) with (K - l) by lia.
  replace (seqZ (row_offset K l) (K - l)) with (seqZ (row_offset K l - l + l) (K - l)) by (f_equal; lia).
  rewrite <-fmap_add_seqZ.
  apply map_ext. intros r. lia.
Qed.

Lemma slot_positions : map slot_index slots = range (block_count L * pair_count L).
Proof.
  unfold slots. rewrite map_flat_map. pose proof (block_count_pos n bl K L HL).
  assert (Hpc : 0 <= pair_count L) by (pose proof (lo_pairs _ _ _ _ HL); pose proof (lo_K _ _ _ _ HL); nia).
  destruct (flat_seqZ (fun b => b * pair_count L) (block_count L) ltac:(lia)) as [Hf _]; [intros; nia|].
  rewrite Z.mul_0_l, Z.sub_0_r in Hf. unfold range at 2. rewrite <-Hf. apply flat_map_ext. intros b.
  rewrite map_map. unfold slot_index. cbn [fst snd].
  replace ((b + 1) * pair_count L - b * pair_count L) with (pair_count L) by lia.
  transitivity (map (Z.add (b * pair_count L)) (map pair_pos (LimbGramLayout.limb_pairs L))); [by rewrite map_map|].
  rewrite pair_positions. unfold range. change (map (Z.add (b * pair_count L))) with (fmap (M := list) (Z.add (b * pair_count L))).
  rewrite fmap_add_seqZ. f_equal. lia.
Qed.

Lemma gram_claims_slots limb : gram_claims n bl L limb = map (fun '(b, p) => block_gram n bl limb b p) slots.
Proof. unfold gram_claims, slots. rewrite map_flat_map. apply flat_map_ext. intros b. by rewrite map_map. Qed.
End slots.
End canonical_slots.

(** * The norm the instance evaluates *)

Section norm.
Context {F E : Type} `{FieldLaws F, CanonicalEncoding F, !CanonicalFieldLaws F, !Field E, !FieldLaws E,
  !MulBase F E, !MulBaseLaws F E, !ExtCoords F E, !ExtCoordsLaws F E}.
Add Ring Ering2 : (field_ring (E := E)).

(** The extension of an integer table of [n] entries, zero past its end. *)
Definition padded (n : Z) (h : Z -> Z) (i : Z) : E := if (i <? n)%Z then int (F := F) (h i) else 0.
Definition virtual (n : Z) (h : Z -> Z) (x : list E) : E := table_mle (padded n h) x.

(** ** Limb inner products *)

Section gram.
Variables (n bl K : Z) (L : LimbGramLayout).
Context (HL : layout_ok n bl K L).
Variables (limb : Z -> Z -> Z) (weights : list E).

Definition weight (b : Z) (p : Z * Z) : E := default 0 (index weights (slot_index K L (b, p))).
Definition block_end (b : Z) : Z := Z.min (b * bl) n.
Definition selector (m : Z) (p : Z * Z) (x : list E) : E :=
  sum_of (fun b => weight b p * (table_mle (below (block_end (b + 1))) x - table_mle (below (block_end b)) x)) (range m).
Definition gram_norm (x : list E) : E :=
  sum_of (fun p => selector (block_count L) p x * virtual n (limb (fst p)) x * virtual n (limb (snd p)) x)
    (LimbGramLayout.limb_pairs L).

Lemma update_selectors_value f t (pairs : list (Z * Z)) (s : Z * Z -> E) out :
  (forall p v, p ∈ pairs -> f p = Ok v -> v = t p) ->
  update_selectors f pairs (map s pairs) = Ok out -> out = map (fun p => s p + t p) pairs.
Proof.
  revert out; induction pairs as [|p pairs IH]; intros out Hf Hu; cbn [map update_selectors] in *; [by injection Hu as <-|].
  obind_inv Hu. obind_inv Hu. injection Hu as <-. apply Hf in E0; [|by left]. subst a.
  f_equal. apply IH; [|done]. intros p' v Hp'. apply Hf. by right.
Qed.

Lemma selector_term_value b w p v : (0 <= b < block_count L)%Z -> p ∈ LimbGramLayout.limb_pairs L ->
  selector_term L weights b w p = Ok v -> v = weight b p * w.
Proof.
  intros Hb Hp. destruct p as [l r]. destruct (pair_bounds n bl K L HL l r Hp) as [Hl Hr].
  unfold selector_term. rewrite (subclaim_index_value n bl K L HL) by done. cbn [ok_or obind].
  unfold weight, slot_index, pair_pos. cbn [fst snd]. destruct (index weights _); [|done]. cbn [ok_or obind default]. by intros [= <-].
Qed.

Lemma below_zero x : table_mle (below 0) x = 0.
Proof.
  rewrite table_mle_sum. rewrite (sum_of_ext _ (fun _ => 0)); [apply sum_of_zero|]. intros i Hi%elem_of_range. unfold below.
  rewrite (proj2 (Z.ltb_ge i 0)) by lia. ring.
Qed.

Lemma selectors_value point sel last :
  ofold (selector_block L weights point)
    (zip (range (len (LimbGramLayout.block_ranges L))) (LimbGramLayout.block_ranges L))
    (replicate (Z.to_nat (pair_count L)) 0, 0) = Ok (sel, last) ->
  sel = map (fun p => selector (block_count L) p point) (LimbGramLayout.limb_pairs L).
Proof.
  pose proof (block_count_pos n bl K L HL) as Hbc. unfold LimbGramLayout.block_ranges.
  assert (Hz : zip (range (len (map (LimbGramLayout.block_range L) (range (block_count L)))))
                   (map (LimbGramLayout.block_range L) (range (block_count L)))
    = map (fun b => (b, LimbGramLayout.block_range L b)) (range (block_count L))).
  { unfold len. rewrite length_map, length_range, Z2Nat.id by lia. generalize (range (block_count L)). intros l.
    induction l as [|b l IH]; [done|]. cbn [map zip zip_with]. by rewrite <-IH. }
  rewrite Hz. clear Hz. intros Hf.
  assert (Hmap : forall l (st : list E * E), ofold (selector_block L weights point) (map (fun b => (b, LimbGramLayout.block_range L b)) l) st
    = ofold (fun st b => selector_block L weights point st (b, LimbGramLayout.block_range L b)) l st).
  { intros l. induction l as [|b l IH]; intros st; [done|]. cbn [map ofold]. destruct (selector_block _ _ _ _ _); [apply IH|done..]. }
  rewrite Hmap in Hf.
  apply (ofold_range_inv (fun b st => fst st = map (fun p => selector b p point) (LimbGramLayout.limb_pairs L) /\
    snd st = table_mle (below (block_end b)) point)) in Hf; [by destruct Hf|lia|..].
  - cbn [fst snd]. unfold block_end. rewrite Z.mul_0_l, Z.min_l by (pose proof (lo_bl _ _ _ _ HL); lia). split; [|by rewrite below_zero].
    rewrite <-(len_limb_pairs n bl K L HL). unfold len. rewrite Nat2Z.id.
    induction (LimbGramLayout.limb_pairs L) as [|p l IH]; [done|]. cbn [length replicate map]. by rewrite IH.
  - intros b [s st] [s' st'] Hb [Hs1 Hs2] Hs. cbn [fst snd] in *. subst s st. unfold selector_block in Hs.
    destruct (block_range_value n bl K L HL b Hb) as [Hbr Hle]. rewrite Hbr in Hs. obind_inv Hs. obind_inv Hs. injection Hs as <- <-.
    pose proof (lo_bl _ _ _ _ HL) as Hbl.
    apply prefix_sum_mle in E0 as [_ ->]; [|lia].
    assert (He : Z.min (b * bl + bl) n = block_end (b + 1)) by (unfold block_end; lia). rewrite He in *. split; [|done].
    apply (update_selectors_value _ (fun p => weight b p * (table_mle (below (block_end (b + 1))) point - table_mle (below (block_end b)) point))) in E1.
    + rewrite E1. apply map_ext. intros p. unfold selector. rewrite range_S, sum_of_app by lia. f_equal.
      unfold sum_of. cbn [map]. rewrite fsum_cons. change (fsum []) with (0 : E). ring.
    + intros p v Hp Hv. by apply (selector_term_value b _ p v Hb Hp Hv).
Qed.

Lemma pair_products_value (s : Z * Z -> E) ve (V : Z -> E) (pairs : list (Z * Z)) a v :
  (forall l r, (l, r) ∈ pairs -> index ve l = Some (V l) /\ index ve r = Some (V r)) ->
  ofold (pair_product ve) (zip pairs (map s pairs)) a = Ok v ->
  v = a + sum_of (fun p => s p * V (fst p) * V (snd p)) pairs.
Proof.
  revert a; induction pairs as [|[l r] pairs IH]; intros a Hve Hf; cbn [map zip zip_with ofold] in Hf.
  - injection Hf as <-. unfold sum_of. cbn [map]. change (fsum []) with (0 : E). ring.
  - obind_inv Hf. unfold pair_product in E0. destruct (Hve l r ltac:(by left)) as [Hl Hr]. rewrite Hl, Hr in E0.
    cbn [ok_or obind] in E0. injection E0 as <-. rewrite sum_of_cons. cbn [fst snd].
    rewrite (IH _ (fun l' r' Hp => Hve l' r' (list_elem_of_further _ _ _ Hp)) Hf). ring.
Qed.

Lemma index_virtual h x (k l : Z) : (0 <= l < k)%Z ->
  index (map (fun l => virtual n (h l) x) (range k)) l = Some (virtual n (h l) x).
Proof.
  intros Hl. rewrite index_map. unfold index. rewrite (proj2 (Z.leb_le 0 l)) by lia. unfold range.
  rewrite lookup_seqZ_lt by lia. cbn [fmap option_fmap option_map]. by rewrite Z2Nat.id, Z.add_0_l by lia.
Qed.

(** ** The sum over the cube *)

Lemma below_difference f g s e M : (0 <= s <= e)%Z -> (e <= n)%Z -> (n <= M)%Z ->
  sum_of (fun i => (below e i - below s i) * (padded n f i * padded n g i)) (range M)
  = int (F := F) (zsum (fun i => f i * g i)%Z (seqZ s (e - s))).
Proof.
  intros Hs He HM. set (t := fun i => int (F := F) (E := E) (f i * g i)).
  transitivity (sum_of (fun i => if (i <? e)%Z then t i else 0) (range M)
                + sum_of (fun i => - (1) * (if (i <? s)%Z then t i else 0)) (range M)).
  { rewrite <-sum_of_add. apply sum_of_ext. intros i Hi%elem_of_range. unfold below, padded, t.
    destruct (Z.ltb_spec i s), (Z.ltb_spec i e), (Z.ltb_spec i n); try lia; rewrite ?int_mul; ring. }
  rewrite sum_of_scale, !sum_of_range_cut by lia. rewrite int_sum. fold t.
  assert (Hsplit : range e = range s ++ seqZ s (e - s)).
  { unfold range. replace e with (s + (e - s))%Z at 1 by lia. rewrite seqZ_app by lia. by rewrite Z.add_0_l. }
  rewrite Hsplit, sum_of_app. ring.
Qed.

Lemma gram_norm_sum m : (n <= 2 ^ Z.of_nat m)%Z ->
  wsum (plain_weights m) gram_norm []
  = sum_of (fun '(b, p) => weight b p * int (F := F) (block_gram n bl limb b p)) (slots L).
Proof.
  intros Hm. pose proof (lo_bl _ _ _ _ HL) as Hbl. pose proof (block_count_bounds n bl K L HL) as Hbc.
  rewrite (plain_sum m gram_norm (fun i => sum_of (fun p => sum_of (fun b =>
    weight b p * ((below (block_end (b + 1)) i - below (block_end b) i) * (padded n (limb (fst p)) i * padded n (limb (snd p)) i)))
      (range (block_count L))) (LimbGramLayout.limb_pairs L))); cycle 1.
  { intros x Hx. unfold gram_norm. apply sum_of_ext. intros p _. unfold selector, virtual, table_mle.
    rewrite !(mle_cube m) by done.
    set (u := padded n (limb (fst p)) (index_of x)). set (w := padded n (limb (snd p)) (index_of x)).
    transitivity ((u * w) * sum_of (fun b => weight b p * (mle (fun y => below (block_end (b + 1)) (index_of y)) x -
      mle (fun y => below (block_end b) (index_of y)) x)) (range (block_count L))); [ring|].
    rewrite <-sum_of_scale. apply sum_of_ext. intros b _. rewrite !(mle_cube m) by done. ring. }
  rewrite sum_of_swap. rewrite (sum_of_ext _ (fun p => sum_of (fun b => weight b p * int (F := F) (block_gram n bl limb b p)) (range (block_count L)))).
  - rewrite sum_of_swap. unfold slots. rewrite sum_of_flat_map. apply sum_of_ext. intros b _. by rewrite sum_of_map.
  - intros p _. rewrite sum_of_swap. apply sum_of_ext. intros b Hb%elem_of_range. rewrite sum_of_scale. f_equal.
    unfold block_gram, block_positions. rewrite below_difference; [|unfold block_end; nia..|done].
    unfold block_end. replace ((b + 1) * bl)%Z with (b * bl + bl)%Z by ring. by rewrite (Z.min_l (b * bl) n) by nia.
Qed.

(** ** Its degree *)

Lemma virtual_affine h p xs : affine (fun x => virtual n h (p ++ x :: xs)).
Proof. apply mle_affine. Qed.

Lemma selector_affine k pr p xs : affine (fun x => selector k pr (p ++ x :: xs)).
Proof.
  unfold selector. apply (affine_sum (fun b x => weight b pr * (table_mle (below (block_end (b + 1))) (p ++ x :: xs) -
    table_mle (below (block_end b)) (p ++ x :: xs)))). intros b.
  destruct (affine_combine (weight b pr) (- weight b pr) _ _ (mle_affine (fun y => below (block_end (b + 1)) (index_of y)) p xs)
    (mle_affine (fun y => below (block_end b) (index_of y)) p xs)) as (u & v & Huv).
  exists u, v. intros x. rewrite <-Huv. unfold table_mle. ring.
Qed.

Lemma gram_norm_degree p xs : poly_in 3 (fun x => gram_norm (p ++ x :: xs)).
Proof.
  unfold gram_norm. apply (poly_in_sum 3 (fun pr x => selector (block_count L) pr (p ++ x :: xs) *
    virtual n (limb (fst pr)) (p ++ x :: xs) * virtual n (limb (snd pr)) (p ++ x :: xs))). intros pr.
  eapply poly_in_ext; [|apply (poly_in_times 2 _ _ (selector_affine (block_count L) pr p xs)
    (poly_in_times 1 _ _ (virtual_affine (limb (fst pr)) p xs) (poly_in_times 0 _ _ (virtual_affine (limb (snd pr)) p xs)
      (poly_in_const 0 1))))]. intros x. cbn beta. ring.
Qed.
End gram.

(** ** The direct square *)

Lemma square_norm_sum n h m : (0 <= n <= 2 ^ Z.of_nat m)%Z ->
  wsum (plain_weights m) (fun x => virtual n h x * virtual n h x) []
  = int (F := F) (zsum (fun i => h i * h i)%Z (range n)).
Proof.
  intros Hm. rewrite (plain_sum m _ (fun i => if (i <? n)%Z then int (F := F) (h i * h i) else 0)).
  - rewrite sum_of_range_cut by lia. by rewrite int_sum.
  - intros x Hx. unfold virtual, table_mle. rewrite !(mle_cube m) by done. unfold padded.
    destruct (_ <? n)%Z; [by rewrite int_mul|ring].
Qed.

Lemma square_norm_degree n h p xs : poly_in 3 (fun x => virtual n h (p ++ x :: xs) * virtual n h (p ++ x :: xs)).
Proof.
  apply (poly_in_mono 2); [lia|].
  eapply poly_in_ext; [|apply (poly_in_times 1 _ _ (virtual_affine n h p xs) (poly_in_times 0 _ _ (virtual_affine n h p xs)
    (poly_in_const 0 1)))]. intros x. cbn beta. ring.
Qed.
End norm.

(** * Soundness *)

Section soundness.
Context {F E T : Type} `{FieldLaws F, CanonicalEncoding F, !CanonicalFieldLaws F, !Field E, !FieldLaws E,
  !MulBase F E, !MulBaseLaws F E, !ExtField F E, !ExtCoords F E, !ExtCoordsLaws F E, !RingU128 E, !RingU128Laws F E,
  AkitaSerialize E, EqRuntime E, Allocator, Transcript F T, TranscriptGrinding F T}.
Add Ring Ering3 : (field_ring (E := E)).

Variable plan : PhysicalResponsePlan.
(** The integer digits of the response: [limb l i] is digit [l] of position [i]. *)
Variable limb : Z -> Z -> Z.

Abbreviation shape := (rp_shape plan).
Abbreviation n := (PhysicalL2NormProofShape.physical_response_len shape).
Abbreviation K := (rp_fold_digit_count plan).
Abbreviation basis := (rp_fold_basis plan).
Definition rounds : nat := Z.to_nat (num_vars (rp_domain plan)).
Definition responses : Z -> Z := response K basis limb.

(** The squared norm, the tables whose extensions are claimed, and the limb
    claims. *)
Definition true_norm : Z := zsum (fun i => responses i * responses i)%Z (range n).
Definition virtual_values (x : list E) : list E :=
  match shape with
  | Direct n => [virtual (F := F) n responses x]
  | LimbGram n _ limb_count => map (fun l => virtual (F := F) n (limb l) x) (range limb_count)
  end.
Definition true_claims : list Z :=
  match shape with
  | Direct _ => []
  | LimbGram n bl _ =>
      match PhysicalL2NormProofShape.limb_gram_layout shape with Ok (Some L) => gram_claims n bl L limb | _ => [] end
  end.

(** The norm part of the oracle, for given batching weights. *)
Definition norm_oracle (weights : list E) (x : list E) : E :=
  match shape with
  | Direct n => virtual (F := F) n responses x * virtual (F := F) n responses x
  | LimbGram n bl limb_count =>
      match PhysicalL2NormProofShape.limb_gram_layout shape with
      | Ok (Some L) => gram_norm (F := F) n bl limb_count L limb weights x
      | _ => 0
      end
  end.
(** The batched norm claim of the proof and of the true integers. *)
Definition claimed_norm (proof : PhysicalL2NormProof E) (gamma : E) : E :=
  match shape with Direct _ => from_u128 (response_l2_sq proof) | _ => peval (subclaims proof) gamma end.
Definition batched_norm (gamma : E) : E :=
  match shape with Direct _ => int (F := F) true_norm | _ => peval (map (int (F := F)) true_claims) gamma end.
Definition norm_weights (proof : PhysicalL2NormProof E) (gamma : E) : list E :=
  match shape with Direct _ => [] | _ => powers gamma (length (subclaims proof)) end.

(** The dimensions of a plan: the widths of its integers, and the response
    table fits the Boolean domain, which [PhysicalResponsePlan::new] checks. *)
Record plan_fits : Prop := {
  pf_typed : shape_typed shape;
  pf_basis : in_u USIZE_BITS basis;
  pf_count : in_u USIZE_BITS K;
  pf_vars : (0 <= num_vars (rp_domain plan))%Z;
  pf_domain : (n <= 2 ^ num_vars (rp_domain plan))%Z;
}.
(** Balanced digits are at most half the basis. *)
Definition limbs_small : Prop :=
  forall l i, (0 <= l < K)%Z -> (0 <= i < n)%Z -> (Z.abs (limb l i) <= basis / 2)%Z.

Lemma norm_oracle_degree weights p xs : poly_in 3 (fun x => norm_oracle weights (p ++ x :: xs)).
Proof.
  unfold norm_oracle. destruct shape as [n'|n' bl K']; [apply square_norm_degree|].
  destruct (PhysicalL2NormProofShape.limb_gram_layout _) as [[L|]| |]; try (apply (poly_in_const 3 0)).
  apply gram_norm_degree.
Qed.

Lemma shape_layout n' bl K' L : shape_typed (LimbGram n' bl K') ->
  PhysicalL2NormProofShape.limb_gram_layout (LimbGram n' bl K') = Ok (Some L) -> layout_ok n' bl K' L.
Proof.
  intros (Hn & Hbl & HK) Hl. cbn [PhysicalL2NormProofShape.limb_gram_layout] in Hl. obind_inv Hl. injection Hl as ->.
  by apply layout_new.
Qed.

(** The value the instance computes from correct evaluations. *)
Lemma norm_at_value (v : PhysicalL2NormVerifier E) point value :
  plan_fits -> nv_plan v = plan -> virtual_evaluations (nv_proof v) = virtual_values point ->
  norm_at v point = Ok value -> value = norm_oracle (nv_subclaim_weights v) point.
Proof.
  intros Hfits Hplan Hve Hv. unfold norm_at in Hv. rewrite Hplan, Hve in Hv. unfold virtual_values, norm_oracle in *.
  pose proof (pf_typed Hfits) as Ht. destruct shape as [n'|n' bl K'].
  - rewrite index_head in Hv. cbn [ok_or obind] in Hv. by injection Hv as <-.
  - obind_inv Hv. destruct a as [L|]; [|done]. cbn [ok_or obind] in Hv. pose proof (shape_layout _ _ _ _ Ht E0) as HL.
    obind_inv Hv. destruct a as [sel last]. cbn [obind] in Hv.
    apply (selectors_value n' bl K' L HL) in E1. rewrite E1 in Hv.
    apply (pair_products_value _ _ (fun l => virtual (F := F) n' (limb l) point)) in Hv.
    + rewrite Hv. unfold gram_norm. ring.
    + intros l r Hp. destruct (pair_bounds n' bl K' L HL l r Hp). split; apply index_virtual; lia.
Qed.

(** Batching the integer claims by their slots. *)
Lemma batched_claims n' bl K' L (ws : list E) : layout_ok n' bl K' L -> len ws = LimbGramLayout.subclaim_count L ->
  sum_of (fun '(b, p) => weight K' L ws b p * int (F := F) (block_gram n' bl limb b p)) (slots L)
  = weighted ws (map (int (F := F)) (gram_claims n' bl L limb)).
Proof.
  intros HL Hws. rewrite (gram_claims_slots n' bl L limb), map_map.
  assert (Hw : ws = map (fun s => weight K' L ws (fst s) (snd s)) (slots L)).
  { transitivity (map (fun k => default 0 (index ws k)) (map (slot_index K' L) (slots L))).
    - rewrite (slot_positions n' bl K' L HL). change (block_count L * pair_count L)%Z with (LimbGramLayout.subclaim_count L).
      rewrite <-Hws. clear Hws. apply list_eq. intros k. change (map (fun k => default 0 (index ws k))) with (fmap (M := list) (fun k => default 0 (index ws k))).
      rewrite list_lookup_fmap. unfold range. destruct (decide (k < length ws)%nat) as [Hk|Hk].
      + rewrite lookup_seqZ_lt by (unfold len; lia). cbn [fmap option_fmap option_map]. rewrite Z.add_0_l, index_nat.
        destruct (lookup_lt_is_Some_2 _ _ Hk) as [x ->]. done.
      + rewrite (lookup_ge_None_2 ws) by lia. rewrite lookup_seqZ_ge by (unfold len; lia). done.
    - rewrite map_map. apply map_ext. intros [b p]. done. }
  match goal with |- _ = weighted ws ?cs =>
    transitivity (weighted (map (fun s => weight K' L ws (fst s) (snd s)) (slots L)) cs); [|by rewrite <-Hw] end.
  generalize (slots L). intros l. induction l as [|[b p] l IH]; [done|].
  cbn [map]. rewrite sum_of_cons, weighted_cons, IH. done.
Qed.

Lemma norm_oracle_sum proof gamma : plan_fits ->
  len (subclaims proof) = len true_claims ->
  wsum (plain_weights rounds) (norm_oracle (norm_weights proof gamma)) [] = batched_norm gamma.
Proof.
  intros Hfits Hlen. pose proof (pf_typed Hfits) as Ht. pose proof (pf_domain Hfits) as Hd. pose proof (pf_vars Hfits).
  rewrite <-(Z2Nat.id (num_vars (rp_domain plan))) in Hd by done. fold rounds in Hd.
  unfold norm_oracle, norm_weights, batched_norm, true_norm, true_claims, shape_typed in *. destruct shape as [n'|n' bl K'] eqn:Hs.
  - cbn [PhysicalL2NormProofShape.physical_response_len] in *. rewrite square_norm_sum by (unfold in_u in *; lia). done.
  - destruct (PhysicalL2NormProofShape.limb_gram_layout _) as [[L|]| |] eqn:Hl.
    + pose proof (shape_layout _ _ _ _ Ht Hl) as HL. cbn [PhysicalL2NormProofShape.physical_response_len] in Hd.
      rewrite (len_gram_claims n' bl K' L HL) in Hlen.
      rewrite (gram_norm_sum n' bl K' L HL) by done. rewrite batched_claims; [|done|].
      * rewrite peval_powers. unfold powers. rewrite length_map. f_equal. f_equal. f_equal.
        pose proof (len_gram_claims n' bl K' L HL limb). unfold len in *. lia.
      * unfold powers, len. rewrite length_map, length_seq. exact Hlen.
    + apply wsum_const0.
    + apply wsum_const0.
    + apply wsum_const0.
Qed.
End soundness.
