(* ===== verification/NormCert.v ===== *)
(** Soundness of the physical L2 norm proof: an accepted proof certifies the
    exact squared norm of the response, unless a challenge was lucky. *)

From Stdlib Require Import Zmod.
From S2P Require Import Prelude Checked Field Serialization UniPoly EqPoly MultiPoly SplitEq RingEval Decomposition Gadget ModField.
From S2P Require Import Transcript Grinding GrindingReplay Sumcheck Mle Hypercube PhysicalL2 LimbGram DigitRange Stage1 NormStage NormValue.
Local Open Scope field_scope.

(** * The certificate *)

(** A lucky round of the fused leaf: some reconstructed polynomial differs from
    the true one and agrees with it at the challenge; at most [bound] challenges
    do that. *)
Definition lucky_leaf_round {E} `{Field E} (bound : nat) (polys : list (CompressedUniPoly E)) (claim : E) (rs : list E)
    (f : list E -> E) : Prop :=
  exists i g r l, reconstructed polys rs claim !! i = Some g /\ rs !! i = Some r /\
    (forall x, peval l x = wsum (plain_weights (length polys - S i)) f (take i rs ++ [x])) /\
    (exists x, UniPoly.evaluate g x <> peval l x) /\ UniPoly.evaluate g r = peval l r /\
    forall points, NoDup points -> (forall a, a ∈ points -> UniPoly.evaluate g a = peval l a) ->
      (length points <= bound)%nat.

Section plain.
Context {F E T : Type} `{FieldLaws E, AkitaSerialize E, Transcript F T}.

Lemma verify_facts {V} `{SumcheckInstanceVerifier E V} (sample : T -> result (E * T)) (v : V) proof t rs t' :
  verify (F := F) sample v proof t = Ok (rs, t') ->
  len (round_polys proof) = v_num_rounds v /\
  exists claim1 t0 t1, ofold (verify_round (F := F) sample (v_degree_bound v)) (round_polys proof) (v_input_claim v, [], t0)
      = Ok (claim1, rs, t1) /\ expected_output_claim v rs = Ok claim1.
Proof.
  unfold verify. intros Hv. destruct (Z.eqb_spec (len (round_polys proof)) (v_num_rounds v)); [|done]. cbn [negb] in Hv.
  obind_inv Hv. obind_inv Hv. destruct a0 as [[claim1 rs1] t1]. cbn [obind] in Hv. obind_inv Hv. injection Hv as -> ->.
  split; [done|]. exists claim1, a, t'. split; [done|]. unfold check_sumcheck_output_claim in E2.
  obind_inv E2. destruct (feqb claim1 a1) eqn:He; [|done]. apply feqb_spec in He. by rewrite He.
Qed.

Lemma plain_sound {V} `{SumcheckInstanceVerifier E V} (sample : T -> result (E * T)) (v : V) proof t rs t' f bound :
  verify (F := F) sample v proof t = Ok (rs, t') ->
  (Z.max 1 (v_degree_bound v) <= Z.of_nat bound)%Z ->
  (forall p xs, poly_in (Z.to_nat (Z.max 1 (v_degree_bound v))) (fun x => f (p ++ x :: xs))) ->
  len rs = v_num_rounds v /\
  (expected_output_claim v rs = Ok (f rs) ->
   v_input_claim v <> wsum (plain_weights (Z.to_nat (v_num_rounds v))) f [] ->
   dropped_claim (round_polys proof) (v_input_claim v) rs \/ lucky_leaf_round bound (round_polys proof) (v_input_claim v) rs f).
Proof.
  intros Hv Hb Hpoly. destruct (verify_facts _ _ _ _ _ _ Hv) as (Hlen & claim1 & t0 & t1 & Hrun & Hout).
  destruct (verify_rounds_length _ _ _ _ _ _ _ _ _ Hrun) as (rs' & Hrs & Hl). cbn [app] in Hrs. subst rs'.
  split; [unfold len in *; lia|]. intros Hf Hclaim. rewrite Hf in Hout. injection Hout as <-.
  assert (Hr : Z.to_nat (v_num_rounds v) = length (round_polys proof)) by (unfold len in Hlen; lia). rewrite Hr in Hclaim.
  destruct (rounds_soundness _ _ _ _ _ _ _ _ f Hrun eq_refl Hclaim) as [Hd|(i & g & r & Hg & Hri & Hex & Hag & Hfew)]; [by left|right].
  destruct (wsum_poly_in _ (plain_weights (length (round_polys proof) - S i)) f (take i rs) (fun xs => Hpoly (take i rs) xs))
    as (l & Hll & Hpl).
  exists i, g, r, l. split; [done|]. split; [done|]. split; [done|]. rewrite Hpl.
  split; [destruct Hex as [x Hx]; exists x; by rewrite Hpl|]. split; [done|].
  intros points Hnd Hpts. specialize (Hfew l points Hpl).
  assert ((Z.of_nat (length points) <= Z.max 1 (v_degree_bound v))%Z); [|lia].
  apply Hfew; [lia|done|]. intros a Ha. rewrite <-Hpl. by apply Hpts.
Qed.
End plain.

Section certificate.
Context {F E T : Type} `{FieldLaws F, CanonicalEncoding F, !CanonicalFieldLaws F, !Field E, !FieldLaws E,
  !MulBase F E, !MulBaseLaws F E, !ExtField F E, !ExtCoords F E, !ExtCoordsLaws F E, !RingU128 E, !RingU128Laws F E,
  AkitaSerialize E, EqRuntime E, Allocator, Transcript F T, TranscriptGrinding F T}.
Add Ring Ering4 : (field_ring (E := E)).

(** The range part: the claim it should have, and the fused oracle. *)
Definition range_sum (tau leaf : list E) (s : list E -> E) : E :=
  wsum (eq_weights tau) (fun x => peval leaf (mle s x)) [].
Definition fused_oracle (plan : PhysicalResponsePlan) (limb : Z -> Z -> Z) (tau leaf : list E) (s : list E -> E)
    (merge : E) (ws : list E) (x : list E) : E :=
  eq_value tau x * peval leaf (mle s x) + merge * norm_oracle (F := F) plan limb ws x.

Lemma fused_degree plan limb tau leaf s merge ws p xs : (3 <= len leaf)%Z ->
  poly_in (Z.to_nat (Z.max 1 (len leaf))) (fun x => fused_oracle plan limb tau leaf s merge ws (p ++ x :: xs)).
Proof.
  intros Hl. unfold fused_oracle. replace (Z.to_nat (Z.max 1 (len leaf))) with (S (length leaf - 1)) by (unfold len in *; lia).
  apply poly_in_add; [apply poly_in_times; [apply eq_value_affine|apply affine_peval, mle_affine]|].
  apply poly_in_scale. apply (poly_in_mono 3); [unfold len in Hl; lia|]. apply norm_oracle_degree.
Qed.

Lemma fused_sum plan limb tau leaf s merge proof gamma : plan_fits plan ->
  len tau = num_vars (rp_domain plan) -> len (subclaims proof) = len (true_claims plan limb) ->
  wsum (plain_weights (rounds plan)) (fused_oracle plan limb tau leaf s merge (norm_weights plan proof gamma)) []
  = range_sum tau leaf s + merge * batched_norm (F := F) plan limb gamma.
Proof.
  intros Hfits Htau Hlen. unfold fused_oracle. rewrite wsum_add, wsum_mul, norm_oracle_sum by done. f_equal.
  unfold range_sum. rewrite <-wsum_eq_factor. cbn [length].
  assert (Hr : rounds plan = length tau) by (unfold rounds, len in *; lia). rewrite Hr. apply wsum_cube_ext. intros xs _.
  cbn [app]. by rewrite drop_0.
Qed.

Lemma subclaim_powers_value (gamma : E) m : subclaim_powers gamma (Z.of_nat m) = powers gamma m.
Proof. apply (batch_weights_spec {| log_basis := 2 |}). Qed.

Lemma claims_fold (gamma : E) cs :
  foldl (fun sum '(claim, weight) => sum + claim * weight) 0 (zip cs (powers gamma (length cs))) = peval cs gamma.
Proof.
  rewrite peval_powers. unfold powers. generalize (map (fpow gamma) (seq 0 (length cs))). intros ws.
  assert (Hgen : forall a, foldl (fun sum '(claim, weight) => sum + claim * weight) a (zip cs ws) = a + weighted ws cs).
  { revert ws; induction cs as [|c cs IH]; intros [|w ws] a; try (change (weighted _ _) with (0 : E); cbn; ring).
    cbn [zip zip_with foldl]. rewrite IH, weighted_cons. ring. }
  rewrite Hgen. ring.
Qed.

(** The batching challenge the verifier draws; [0] for a direct shape, which
    draws none. *)
Definition batch_challenge (plan : PhysicalResponsePlan) (level : Z) (t : T) (gamma : E) (t' : T) : Prop :=
  match rp_shape plan with
  | Direct _ => gamma = 0 /\ t' = t
  | _ => exists t1, grind_query (F := F) t (L2SubclaimBatch level) = Ok t1 /\
           sample_ext_challenge (F := F) t1 labels.CHALLENGE_L2_NORM_BATCH = Ok (gamma, t')
  end.

(** Both challenges, drawn after the integer and the limb claims are absorbed. *)
Definition norm_challenges (plan : PhysicalResponsePlan) (proof : PhysicalL2NormProof E) (level : Z) (t : T)
    (gamma merge : E) : Prop :=
  exists t1 t2 t3 t4 t5,
    append_serde (F := F) t labels.ABSORB_L2_NORM_INTEGER (U (n := 16) (response_l2_sq proof)) = Ok t1 /\
    ofold (fun t claim => append_serde (F := F) t labels.ABSORB_L2_NORM_SUBCLAIM claim) (subclaims proof) t1 = Ok t2 /\
    batch_challenge plan level t2 gamma t3 /\
    grind_query (F := F) t3 (L2NormMerge level) = Ok t4 /\
    sample_ext_challenge (F := F) t4 labels.CHALLENGE_L2_NORM_MERGE = Ok (merge, t5).

Lemma norm_claim_value plan proof (t : T) level ws c t' :
  norm_claim (F := F) plan proof t level = Ok (ws, c, t') ->
  exists gamma, ws = norm_weights plan proof gamma /\ c = claimed_norm plan proof gamma /\ batch_challenge plan level t gamma t'.
Proof.
  unfold norm_claim, norm_weights, claimed_norm, batch_challenge. destruct (rp_shape plan) as [n|n bl K]; intros Hc.
  - exists 0. by injection Hc as <- <- <-.
  - obind_inv Hc. obind_inv Hc. destruct a0 as [gamma t1]. cbn [obind] in Hc. exists gamma. injection Hc as <- <- <-.
    unfold len. rewrite subclaim_powers_value. split; [done|]. split; [apply claims_fold|]. by exists a.
Qed.

(** What the validation of the integers establishes. *)
Lemma validated plan (proof : PhysicalL2NormProof E) profile cap :
  validate_integer_claim (F := F) plan proof profile cap = Ok tt ->
  SisModulusProfileId.modulus profile = modulus F /\ (response_l2_sq proof <= cap)%Z /\
  PhysicalL2NormProofShape.validate_integer_soundness (rp_shape plan) profile (rp_fold_basis plan) (rp_fold_digit_count plan) = Ok tt /\
  validate_claims (F := F) plan proof profile = Ok tt.
Proof.
  unfold validate_integer_claim. intros Hv. obind_inv Hv.
  destruct (checked_u 128 _) eqn:Hm; [|done]. apply checked_u_Some in Hm as [Hin ->]. injection E0 as <-.
  destruct (_ || _) eqn:G; [done|]. apply orb_false_iff in G as [G1 G2]. apply negb_false_iff in G2.
  destruct (cap <? response_l2_sq proof)%Z eqn:G3; [done|]. apply Z.ltb_ge in G3.
  obind_inv Hv. destruct a. split; [|done]. unfold is_none in *.
  assert (H0m : (0 <= SisModulusProfileId.modulus profile)%Z) by (by destruct profile).
  destruct (from_u128_checked _) as [e|] eqn:He in G1; [|done]. destruct (from_u128_checked _) eqn:Hn in G2; [done|].
  apply from_checked_spec in He as [He _]; [|unfold in_u in Hin; lia]. apply from_checked_None in Hn; [|done]. lia.
Qed.
End certificate.

Section certified.
Context {F E T : Type} `{FieldLaws F, CanonicalEncoding F, !CanonicalFieldLaws F, !Field E, !FieldLaws E,
  !MulBase F E, !MulBaseLaws F E, !ExtField F E, !ExtCoords F E, !ExtCoordsLaws F E, !RingU128 E, !RingU128Laws F E,
  AkitaSerialize E, EqRuntime E, Allocator, Transcript F T, TranscriptGrinding F T}.
Add Ring Ering5 : (field_ring (E := E)).

Lemma lift_claims profile cs : SisModulusProfileId.modulus profile = modulus F -> (modulus F < 2 ^ 127)%Z ->
  (forall c, c ∈ cs -> (Z.abs c < modulus F / 2)%Z) ->
  omapM (fun claim => centered_lift (F := F) claim profile) (map (int (F := F) (E := E)) cs) = Ok cs.
Proof.
  intros Hq Hs Hc. induction cs as [|c cs IH]; [done|]. cbn [map omapM].
  rewrite centered_lift_int by (done || apply Hc; by left). cbn [obind]. rewrite IH; [done|].
  intros c' Hc'. apply Hc. by right.
Qed.

Lemma gram_claims_in n bl K L limb c : layout_ok n bl K L -> c ∈ gram_claims n bl L limb ->
  exists b p, c = block_gram n bl limb b p /\ (0 <= b)%Z /\ (b * bl < n)%Z /\ (0 <= fst p < K)%Z /\ (0 <= snd p < K)%Z.
Proof.
  intros HL Hc. unfold gram_claims in Hc. apply list_elem_of_In, in_flat_map in Hc as (b & Hb & Hc).
  apply in_map_iff in Hc as ([l r] & <- & Hp). apply list_elem_of_In, elem_of_range in Hb. apply list_elem_of_In in Hp.
  destruct (pair_bounds n bl K L HL l r Hp). pose proof (block_count_bounds n bl K L HL). pose proof (lo_bl _ _ _ _ HL).
  exists b, (l, r). cbn [fst snd]. repeat split; (lia || nia).
Qed.

Lemma soundness_basis shape profile basis K :
  PhysicalL2NormProofShape.validate_integer_soundness shape profile basis K = Ok tt -> (2 <= basis)%Z.
Proof.
  unfold PhysicalL2NormProofShape.validate_integer_soundness. intros Hv. obind_inv Hv.
  destruct (_ || _ || _) eqn:G; [done|]. apply orb_false_iff in G as [G _]. apply orb_false_iff in G as [_ G]. by apply Z.ltb_ge in G.
Qed.

(** The claims of true limbs are recovered by the lift and recombine to the
    squared norm; a direct claim is the squared norm itself. *)
Lemma claims_exact plan limb (proof : PhysicalL2NormProof E) profile cap gamma :
  plan_fits plan -> limbs_small plan limb -> in_u 128 (response_l2_sq proof) ->
  validate_integer_claim (F := F) plan proof profile cap = Ok tt ->
  claimed_norm plan proof gamma = batched_norm (F := F) plan limb gamma ->
  (match rp_shape plan with Direct _ => True | _ => subclaims proof = map (int (F := F)) (true_claims plan limb) end) ->
  response_l2_sq proof = true_norm plan limb.
Proof.
  intros Hfits Hsmall Hu Hval Heq Hcl. destruct (validated _ _ _ _ Hval) as (Hq & _ & Hsound & Hvc).
  pose proof (pf_typed _ Hfits) as Ht.
  pose proof (integer_soundness _ _ _ _ limb (pf_basis _ Hfits) (pf_count _ Hfits) Ht Hsound Hsmall) as Hint.
  unfold claimed_norm, batched_norm, true_norm, true_claims, validate_claims, responses in *.
  unfold limbs_small in Hsmall.
  destruct (rp_shape plan) as [n|n bl K'] eqn:Hs; cbn [PhysicalL2NormProofShape.physical_response_len] in *.
  - destruct (_ || _) eqn:G; [done|]. apply orb_false_iff in G as [_ G]. apply Z.leb_gt in G.
    rewrite (from_u128_spec (F := F)) in Heq by done. unfold int in Heq. apply embed_inj in Heq.
    apply (f_equal to_canonical) in Heq. rewrite int_base_canonical, from_reduced_spec in Heq by (unfold in_u in Hu; lia).
    rewrite !Z.mod_small in Heq by (unfold in_u in Hu; lia). exact Heq.
  - destruct Hint as (-> & Hprof & Hclaims). destruct Ht as (Hn & Hbl & _).
    obind_inv Hvc. destruct a as [L|]; [|done]. cbn [ok_or obind] in Hvc. destruct (_ || _) eqn:G; [done|].
    obind_inv Hvc. obind_inv Hvc. obind_inv Hvc. destruct (existsb _ _); [done|]. obind_inv Hvc.
    destruct (Z.eqb_spec a2 (response_l2_sq proof)) as [<-|]; [|done]. clear Hvc.
    pose proof (shape_layout n bl (rp_fold_digit_count plan) L ltac:(by repeat split; try apply Hn; try apply Hbl; apply (pf_count _ Hfits)) E0) as HL.
    assert (Hcs : forall c, c ∈ gram_claims n bl L limb -> (Z.abs c < modulus F / 2)%Z).
    { intros c Hc. destruct (gram_claims_in _ _ _ _ _ _ HL Hc) as (b & p & -> & ? & ? & ? & ?). rewrite <-Hq.
      pose proof (Hclaims b p). lia. }
    rewrite Hcl, lift_claims in E3 by (done || lia). injection E3 as <-.
    by apply (reconstruct_sound n bl (rp_fold_digit_count plan) L HL) in E4; [|apply (pf_count _ Hfits)|].
Qed.

Lemma claims_length plan limb (proof : PhysicalL2NormProof E) profile : plan_fits plan ->
  validate_claims (F := F) plan proof profile = Ok tt -> len (subclaims proof) = len (true_claims plan limb).
Proof.
  intros Hfits Hvc. unfold validate_claims, true_claims in *. pose proof (pf_typed _ Hfits) as Ht.
  destruct (rp_shape plan) as [n|n bl K].
  - destruct (_ || _) eqn:G; [done|]. apply orb_false_iff in G as [G _]. apply orb_false_iff in G as [G _].
    apply negb_false_iff, Z.eqb_eq in G. exact G.
  - obind_inv Hvc. destruct a as [L|]; [|done]. pose proof (shape_layout _ _ _ _ Ht E0) as HL. cbn [ok_or obind] in Hvc.
    destruct (_ || _) eqn:G; [done|]. apply orb_false_iff in G as [G _]. apply negb_false_iff, Z.eqb_eq in G.
    rewrite (len_gram_claims n bl K L HL). exact G.
Qed.

(** The instance evaluates the fused oracle. *)
Lemma expected_fused plan limb (v : PhysicalL2NormVerifier E) s point value :
  plan_fits plan -> nv_plan v = plan -> length (nv_range_equality_point v) = length point ->
  virtual_evaluations (nv_proof v) = virtual_values (F := F) plan limb point ->
  nv_range_image_evaluation v = mle s point ->
  expected_output_claim v point = Ok value ->
  value = fused_oracle (F := F) plan limb (nv_range_equality_point v) (nv_range_leaf_coefficients v) s (nv_norm_merge v)
            (nv_subclaim_weights v) point.
Proof.
  intros Hfits Hplan Hlen Hve Himg. cbn [expected_output_claim PhysicalL2Norm_Verifier].
  rewrite eq_mle_value by done. cbn [obind]. intros Hv. obind_inv Hv. injection Hv as <-.
  apply (norm_at_value plan limb v point _ Hfits Hplan Hve) in E0. rewrite E0. unfold fused_oracle. do 2 f_equal.
  rewrite <-Himg. apply (leaf_polynomial_peval {| log_basis := 2 |}).
Qed.

(** The steps of an accepting run. *)
Lemma norm_run plan (proof : PhysicalL2NormProof E) rc profile cap (t : T) level replay t' :
  verify_physical_l2_norm (F := F) plan proof rc profile cap t level = Ok (replay, t') ->
  len (range_equality_point rc) = num_vars (rp_domain plan) /\ (3 <= len (range_leaf_coefficients rc))%Z /\
  validate_integer_claim (F := F) plan proof profile cap = Ok tt /\
  exists gamma merge c1 c2, norm_challenges (F := F) plan proof level t gamma merge /\
    verify (F := F) (AkitaStage1Verifier.sample_round (F := F) PhysicalL2 level 0)
      {| nv_plan := plan; nv_proof := proof; nv_range_equality_point := range_equality_point rc;
         nv_range_leaf_coefficients := range_leaf_coefficients rc;
         nv_range_image_evaluation := range_image_value rc; nv_subclaim_weights := norm_weights plan proof gamma;
         nv_input_claim := range_input_claim rc + merge * claimed_norm plan proof gamma;
         nv_norm_merge := merge |} (norm_sumcheck proof) c1 = Ok (replay_point replay, c2).
Proof.
  unfold verify_physical_l2_norm. intros Hv. destruct (_ || _) eqn:G; [done|]. apply orb_false_iff in G as [G1 G2].
  apply negb_false_iff, Z.eqb_eq in G1. apply Z.ltb_ge in G2. obind_inv Hv. destruct a. obind_inv Hv. obind_inv Hv.
  obind_inv Hv. destruct a1 as [[ws c] t2]. cbn [obind] in Hv. obind_inv Hv. obind_inv Hv. destruct a2 as [merge t4].
  cbn [obind] in Hv. obind_inv Hv. destruct a2 as [point c2]. cbn [obind] in Hv. obind_inv Hv. injection Hv as <- <-.
  apply norm_claim_value in E3 as (gamma & -> & -> & Hb). do 3 (split; [done|]).
  exists gamma, merge, {| inner := t4; round := 0 |}, c2. split; [|done]. by exists a, a0, t2, a1, t4.
Qed.

(** C4: An accepted norm proof certifies the squared norm of the response.
    Let the plan have the dimensions its constructor checks, let the digits of the
    response be balanced, that is at most half the fold basis, let the final
    evaluations be those of the response (or of its limbs), and the claimed
    range image that of [s].  Then the announced 128-bit integer is at most the cap,
    and it is the exact squared norm of the response and the range claim was
    correct, unless a challenge it drew was lucky or a claim was dropped: the
    batching challenge hides wrong limb claims, the merge challenge hides two
    wrong claims, the fused leaf sumcheck had a lucky round, or an empty
    message of that sumcheck replaced a nonzero running claim by zero. *)
Theorem physical_norm_certified plan limb (proof : PhysicalL2NormProof E) (rc : PhysicalL2RangeClaim E) s profile cap
    (t : T) level replay t' :
  plan_fits plan -> limbs_small plan limb -> in_u 128 (response_l2_sq proof) ->
  verify_physical_l2_norm (F := F) plan proof rc profile cap t level = Ok (replay, t') ->
  virtual_evaluations proof = virtual_values (F := F) plan limb (replay_point replay) ->
  range_image_value rc = mle s (replay_point replay) ->
  len (replay_point replay) = num_vars (rp_domain plan) /\ (response_l2_sq proof <= cap)%Z /\
  let tau := range_equality_point rc in
  let leaf := range_leaf_coefficients rc in
  let true_range := range_sum tau leaf s in
  ((response_l2_sq proof = true_norm plan limb /\ range_input_claim rc = true_range) \/
   exists gamma merge, norm_challenges (F := F) plan proof level t gamma merge /\
     let claimed := claimed_norm plan proof gamma in
     let batched := batched_norm (F := F) plan limb gamma in
     ((subclaims proof <> map (int (F := F)) (true_claims plan limb) /\
      len (subclaims proof) = len (true_claims plan limb) /\ claimed = batched) \/
     ((range_input_claim rc <> true_range \/ claimed <> batched) /\
      range_input_claim rc + merge * claimed = true_range + merge * batched) \/
     dropped_claim (round_polys (norm_sumcheck proof)) (range_input_claim rc + merge * claimed) (replay_point replay) \/
     lucky_leaf_round (length leaf) (round_polys (norm_sumcheck proof)) (range_input_claim rc + merge * claimed)
       (replay_point replay)
       (fused_oracle (F := F) plan limb tau leaf s merge (norm_weights plan proof gamma)))).
Proof.
  intros Hfits Hsmall Hu Hv Hve Himg. destruct (norm_run _ _ _ _ _ _ _ _ _ Hv) as (Htau & Hleaf & Hval & gamma & merge & c1 & c2 & Hch & Hrun).
  destruct (validated _ _ _ _ Hval) as (_ & Hcap & _ & Hvc). pose proof (claims_length plan limb proof profile Hfits Hvc) as Hlen.
  match type of Hrun with verify _ ?v _ _ = _ => set (v0 := v) in * end.
  set (f := fused_oracle (F := F) plan limb (range_equality_point rc) (range_leaf_coefficients rc) s merge (norm_weights plan proof gamma)).
  destruct (plain_sound _ v0 _ _ _ _ f (length (range_leaf_coefficients rc)) Hrun) as [Hpt Hluck].
  { cbn. unfold len in *. lia. }
  { intros p xs. by apply fused_degree. }
  cbn [v_num_rounds PhysicalL2Norm_Verifier v0 nv_plan] in Hpt, Hluck. split; [done|]. split; [done|]. intros tau leaf true_range.
  destruct (verify_facts _ _ _ _ _ _ Hrun) as (_ & out & _ & _ & _ & Hout).
  assert (Hlp : length (range_equality_point rc) = length (replay_point replay)) by (unfold len in *; lia).
  pose proof (expected_fused plan limb v0 s _ _ Hfits eq_refl Hlp Hve Himg Hout) as Heq.
  rewrite Hout in Hluck. specialize (Hluck (f_equal Ok Heq)).
  fold (rounds plan) in Hluck. unfold f in Hluck. rewrite (fused_sum plan limb _ _ _ _ _ _ Hfits Htau Hlen) in Hluck.
  cbn [v_input_claim PhysicalL2Norm_Verifier v0 nv_input_claim] in Hluck. fold tau leaf true_range in Hluck.
  set (claimed := claimed_norm plan proof gamma) in *. set (batched := batched_norm plan limb gamma) in *.
  destruct (decide (range_input_claim rc + merge * claimed = true_range + merge * batched)) as [Hsum|Hsum];
    [|right; exists gamma, merge; split; [done|]; right; right; by apply Hluck].
  destruct (decide (range_input_claim rc = true_range)) as [Hr|Hr]; [|right; exists gamma, merge; split; [done|]; right; left; split; [by left|done]].
  destruct (decide (claimed = batched)) as [Hc|Hc]; [|right; exists gamma, merge; split; [done|]; right; left; split; [by right|done]].
  destruct (decide (subclaims proof = map (int (F := F)) (true_claims plan limb))) as [Hs|Hs];
    [|right; exists gamma, merge; split; [done|]; by left].
  left. split; [|done]. apply (claims_exact plan limb proof profile cap gamma); try done. by destruct (rp_shape plan).
Qed.
End certified.

(** * Evaluation at concrete inputs *)

Module q32.
Local Open Scope Z_scope.
Abbreviation q := 4294967197.

(** Trial division by [d, d + 1, ..]. *)
Fixpoint no_divisor (fuel : nat) (d p : Z) : bool :=
  match fuel with O => true | S fuel => negb (p mod d =? 0) && no_divisor fuel (d + 1) p end.

Lemma no_divisor_spec fuel d p e : no_divisor fuel d p = true -> d <= e < d + Z.of_nat fuel -> p mod e <> 0.
Proof.
  revert d; induction fuel as [|fuel IH]; intros d Hd He; [lia|]. cbn [no_divisor] in Hd.
  apply andb_true_iff in Hd as [Hd Hr]. apply negb_true_iff, Z.eqb_neq in Hd.
  destruct (Z.eq_dec e d) as [->|]; [done|]. apply (IH (d + 1) Hr). lia.
Qed.

Lemma prime_by_roots p fuel : 1 < p -> p < (2 + Z.of_nat fuel) * (2 + Z.of_nat fuel) -> 2 + Z.of_nat fuel <= p ->
  no_divisor fuel 2 p = true -> Z.prime p.
Proof.
  intros Hp Hm Hle Ht. split; [done|]. intros d Hd [c Hc]. pose proof (no_divisor_spec fuel 2 p) as Hs.
  destruct (Z.lt_ge_cases d (2 + Z.of_nat fuel)) as [Hdm|Hdm].
  - apply (Hs d Ht); [lia|]. rewrite Hc. apply Z.mod_mul. lia.
  - apply (Hs c Ht); [nia|]. rewrite Hc, Z.mul_comm. apply Z.mod_mul. nia.
Qed.

#[export] Instance prime : OddPrime q.
Proof.
  assert (Hf : Z.of_nat (Z.to_nat 65535) = 65535) by (apply Z2Nat.id; lia).
  split; [|done]. apply (prime_by_roots q (Z.to_nat 65535)); [done|rewrite Hf; lia|rewrite Hf; lia|]. vm_compute. reflexivity.
Qed.
End q32.

Module norm_example.
Import toy q32.
Abbreviation K32 := (Zmod.Zmod 4294967197).
Abbreviation T := (AkitaTranscript (list Z) (list Z)).
#[export] Instance bytes32 : CanonicalBytes K32 :=
  {| NUM_BYTES := 4; to_bytes_le x := to_le_bytes 4 (Zmod.to_Z x); from_challenge_bytes b := Zmod.of_Z _ (from_le_bytes b) |}.
#[export] Instance serialize32 : AkitaSerialize K32 :=
  {| serialize_with_mode x _ := Ok (to_le_bytes 4 (Zmod.to_Z x)); serialized_size _ _ := 4%Z |}.
#[export] Instance ext32 : ExtField K32 K32 :=
  {| DEGREE := 1; to_base_vec x := [x]; from_base_slice l := default 0 (l !! 0%nat) |}.
#[export] Instance embed32 : MulBase K32 K32 := {| mul_base e f := e * f; embed f := f |}.
#[export] Instance embed32_laws : MulBaseLaws K32 K32.
Proof. by constructor. Qed.
#[export] Instance coords32 : ExtCoords K32 K32 := fun x => [x].
#[export] Instance coords32_laws : ExtCoordsLaws K32 K32.
Proof. split; [intros f; exists []; by split|]. by intros e f zs [= -> <-] _. Qed.
#[export] Instance u128_32 : RingU128 K32 := fun v => Zmod.of_Z _ v.
#[export] Instance u128_32_laws : RingU128Laws K32 K32.
Proof. by intros v _. Qed.
#[export] Instance runtime32 : EqRuntime K32 := {| size_of := 4; parallel := false; current_num_threads := 1 |}.
#[export] Instance mode32 : BuildMode := true.
#[export] Instance alloc32 : Allocator := fun _ => true.
#[export] Instance no_grinding : TranscriptGrinding K32 T :=
  {| grind_query t _ := Ok t; record_fold_challenges t _ _ _ := Ok t |}.

(** Two responses, 1 and -2, as one-digit integers in basis 4. *)
Definition plan : PhysicalResponsePlan :=
  {| rp_domain := {| live_len := 2; num_vars := 1 |}; rp_shape := Direct 2; rp_segments := [];
     rp_ring_dimension := 1; rp_fold_digit_count := 1; rp_fold_basis := 4 |}.
Definition limb (_ i : Z) : Z := if (i =? 0)%Z then 1 else -2.
Definition claim : PhysicalL2RangeClaim K32 :=
  {| range_equality_point := [Zmod.of_Z _ 7]; range_input_claim := 0;
     range_leaf_coefficients := map (Zmod.of_Z _) [0; -2; 1]%Z; range_image_value := Zmod.of_Z _ 2 |}.
Definition start : T := AkitaTranscript.new_verifier [1%Z] [2%Z].
Definition proof_for (merge evaluation : Z) : PhysicalL2NormProof K32 :=
  {| response_l2_sq := 5; subclaims := []; virtual_evaluations := [Zmod.of_Z _ evaluation];
     norm_sumcheck := {| round_polys := [{| coeffs_except_linear_term := map (Zmod.of_Z _) [merge; 9 * merge]%Z |}] |} |}.
End norm_example.
Import toy q32 norm_example.

Lemma physical_norm_certified_witness :
  exists replay t', verify_physical_l2_norm (F := K32) plan (proof_for 2947530005 2273782990) claim Q32Offset99 8 start 0
                    = Ok (replay, t') /\ len (replay_point replay) = 1%Z /\ (5 <= 8)%Z.
Proof.
  assert (Hp : match verify_physical_l2_norm (F := K32) plan (proof_for 2947530005 2273782990) claim Q32Offset99 8 start 0 with
               | Ok (replay, _) => map Zmod.to_Z (replay_point replay) | _ => [] end = [3537039534%Z])
    by (vm_compute; reflexivity).
  destruct (verify_physical_l2_norm (F := K32) plan (proof_for 2947530005 2273782990) claim Q32Offset99 8 start 0)
    as [[replay t']|e|] eqn:Hv; [|discriminate Hp..].
  destruct (replay_point replay) as [|r [|]] eqn:Hr; [done| |done]. cbn [map] in Hp. injection Hp as Hp.
  assert (Hr' : r = Zmod.of_Z _ 3537039534) by (apply Zmod.to_Z_inj; rewrite Hp; vm_compute; reflexivity). subst r.
  exists replay, t'. split; [reflexivity|].
  destruct (physical_norm_certified (F := K32) plan limb (proof_for 2947530005 2273782990) claim (fun _ => Zmod.of_Z _ 2)
    Q32Offset99 8 start 0 replay t') as (Hl & Hc & _).
  - clear. constructor; vm_compute; done || (split; done).
  - clear. intros l i _ _. unfold limb. destruct (i =? 0)%Z; vm_compute; discriminate.
  - clear. split; vm_compute; done.
  - exact Hv.
  - rewrite Hr. unfold virtual_values. cbn [rp_shape plan].
    apply (f_equal (fun x => [x])). clear. apply Zmod.to_Z_inj. vm_compute. reflexivity.
  - rewrite Hr. clear. apply Zmod.to_Z_inj. vm_compute. reflexivity.
  - split; [exact Hl|exact Hc].
Defined.
