(* ===== verification/BatchedSumcheck.v ===== *)
(** [akita-sumcheck/src/batched_sumcheck.rs]: front-loaded batching of
    sumcheck instances of different sizes. *)

From S2P Require Import Prelude Checked Field Serialization UniPoly Transcript Sumcheck.
Local Open Scope field_scope.

Section helpers.
Context {E : Type} `{Field E}.

Definition mul_pow_2 (x : E) (k : Z) : E :=
  foldl (fun result _ => result + result) x (range k).

(** [result[i] += c * coeff] for the coefficients of one polynomial. *)
Fixpoint add_scaled (result cs : list E) (coeff : E) : list E :=
  match result, cs with
  | r :: result, c :: cs => (r + c * coeff) :: add_scaled result cs coeff
  | _, _ => result
  end.

Definition linear_combination (polys : list (UniPoly E)) (coeffs : list E) : UniPoly E :=
  let max_len := foldr Nat.max O (map (fun p => length (UniPoly.coeffs p)) polys) in
  let result := replicate max_len 0 in
  UniPoly.from_coeffs
    (foldl (fun result '(poly, coeff) => add_scaled result (UniPoly.coeffs poly) coeff)
       result (zip polys coeffs)).
End helpers.

(** [iter().max().unwrap()] of a nonempty list of [usize]s. *)
Definition max_of (l : list Z) : Z := foldr Z.max 0%Z l.

Record BatchedSumcheckRoundResult (E : Type) := {
  output_claim : E;
  r_sumcheck : list E;
  batching_coeffs : list E;
  max_num_rounds : Z;
}.
Arguments output_claim {E}. Arguments r_sumcheck {E}.
Arguments batching_coeffs {E}. Arguments max_num_rounds {E}.

Definition no_instances {A} : result A := Err (InvalidInput "no sumcheck instances provided").

Section batched.
Context {F E T : Type} `{Field E, AkitaSerialize E, Transcript F T}.
Variable sample : T -> result (E * T).

(** Absorb each input claim, then draw one coefficient per instance. *)
Definition absorb_claims (claims : list E) (t : T) : result T :=
  ofold (fun t claim => append_serde (F := F) t labels.ABSORB_SUMCHECK_CLAIM claim) claims t.

Definition push_coeff : list E * T -> Z -> result (list E * T) :=
  fun '(coeffs, t) _ => let* (c, t) := sample t in Ok (coeffs ++ [c], t).

Definition sample_coeffs (n : nat) (t : T) : result (list E * T) :=
  ofold push_coeff (range (Z.of_nat n)) ([], t).

(** [max_num_rounds - n] *)
Definition front_offset (max_rounds n : Z) : result Z := unwrap (checked_sub max_rounds n).

(** The round polynomial of one instance: a constant before its first active
    round. *)
Definition compute_univariate {P} `{SumcheckInstanceProver E P} (max_rounds round : Z)
    (inst : P) (previous_claim : E) : result (UniPoly E * P) :=
  let n := p_num_rounds inst in
  let* offset := front_offset max_rounds n in
  if ((offset <=? round) && (round <? offset + n))%Z
  then compute_round_univariate inst (round - offset) previous_claim
  else Ok (UniPoly.from_coeffs [fhalf previous_claim], inst).

Definition ingest {P} `{SumcheckInstanceProver E P} (max_rounds round : Z) (r_j : E) (inst : P)
  : result P :=
  let n := p_num_rounds inst in
  let* offset := front_offset max_rounds n in
  if ((offset <=? round) && (round <? offset + n))%Z
  then p_ingest_challenge inst (round - offset) r_j
  else Ok inst.

Definition batched_prove_round {P} `{SumcheckInstanceProver E P, BuildMode}
    (max_rounds : Z) (coeffs : list E)
  : list P * list E * T * list (CompressedUniPoly E) * list E -> Z ->
    result (list P * list E * T * list (CompressedUniPoly E) * list E) :=
  fun '(insts, claims, t, polys, challenges) round =>
    let* outs := omapM (fun '(inst, claim) => compute_univariate max_rounds round inst claim)
                   (zip insts claims) in
    let univariate_polys := map fst outs in
    let insts := map snd outs in
    let batched_poly := linear_combination univariate_polys coeffs in
    let g0 := UniPoly.evaluate batched_poly 0 in
    let g1 := UniPoly.evaluate batched_poly 1 in
    let batched_claim := foldl (fun a v => a + v) 0 (zip_with fmul claims coeffs) in
    let* _ := debug_assert (feqb (g0 + g1) batched_claim) in
    let compressed := UniPoly.compress batched_poly in
    let* t := append_serde (F := F) t labels.ABSORB_SUMCHECK_ROUND compressed in
    let* (r_j, t) := sample t in
    let claims := map (fun poly => UniPoly.evaluate poly r_j) univariate_polys in
    let* insts := omapM (ingest max_rounds round r_j) insts in
    Ok (insts, claims, t, polys ++ [compressed], challenges ++ [r_j]).

(** Everything up to the last round: instances, their final claims,
    transcript, messages, challenges and batching coefficients. *)
Definition prove_batched_run {P} `{SumcheckInstanceProver E P, BuildMode}
    (instances : list P) (t : T)
  : result (list P * list E * T * list (CompressedUniPoly E) * list E * list E) :=
  match instances with
  | [] => no_instances
  | _ =>
      let max_num_rounds := max_of (map p_num_rounds instances) in
      let* t := absorb_claims (map p_input_claim instances) t in
      let* (batching_coeffs, t) := sample_coeffs (length instances) t in
      let* individual_claims :=
        omapM (fun inst =>
                 let* offset := front_offset max_num_rounds (p_num_rounds inst) in
                 Ok (mul_pow_2 (p_input_claim inst) offset)) instances in
      let* (insts, claims, t, polys, challenges) :=
        ofold (batched_prove_round max_num_rounds batching_coeffs) (range max_num_rounds)
          (instances, individual_claims, t, [], []) in
      Ok (insts, claims, t, polys, challenges, batching_coeffs)
  end.

Definition prove_batched_sumcheck {P} `{SumcheckInstanceProver E P, BuildMode}
    (instances : list P) (t : T) : result (SumcheckProof E * list E * list P * T) :=
  let* (insts, _, t, polys, challenges, _) := prove_batched_run instances t in
  Ok ({| round_polys := polys |}, challenges, map p_finalize insts, t).

Definition verify_batched_sumcheck_rounds {V} `{SumcheckInstanceVerifier E V}
    (proof : SumcheckProof E) (verifiers : list V) (t : T)
  : result (BatchedSumcheckRoundResult E * T) :=
  match verifiers with
  | [] => no_instances
  | _ =>
      let max_degree := max_of (map v_degree_bound verifiers) in
      let max_num_rounds := max_of (map v_num_rounds verifiers) in
      let* t := absorb_claims (map v_input_claim verifiers) t in
      let* (batching_coeffs, t) := sample_coeffs (length verifiers) t in
      let* scaled :=
        omapM (fun '(v, coeff) =>
                 let* offset := front_offset max_num_rounds (v_num_rounds v) in
                 Ok (mul_pow_2 (v_input_claim v) offset * coeff)) (zip verifiers batching_coeffs) in
      let batched_claim := foldl (fun a v => a + v) 0 scaled in
      let* (output_claim, r_sumcheck, t) :=
        SumcheckProof_verify (F := F) sample proof batched_claim max_num_rounds max_degree t in
      Ok ({| output_claim := output_claim; r_sumcheck := r_sumcheck;
             batching_coeffs := batching_coeffs; max_num_rounds := max_num_rounds |}, t)
  end.

Definition compute_batched_expected_output_claim {V} `{SumcheckInstanceVerifier E V}
    (verifiers : list V) (batching_coeffs : list E) (max_num_rounds : Z) (r_sumcheck : list E)
  : result E :=
  if negb (len batching_coeffs =? len verifiers)%Z
  then Err (InvalidSize (len verifiers) (len batching_coeffs))
  else if negb (len r_sumcheck =? max_num_rounds)%Z
  then Err (InvalidSize max_num_rounds (len r_sumcheck))
  else
    ofold (fun a '(v, coeff) =>
             let verifier_rounds := v_num_rounds v in
             if (max_num_rounds <? verifier_rounds)%Z
             then Err (InvalidSize max_num_rounds verifier_rounds)
             else
               let offset := (max_num_rounds - verifier_rounds)%Z in
               let* r_slice := unwrap (slice r_sumcheck offset (offset + verifier_rounds)) in
               let* val := expected_output_claim v r_slice in
               Ok (a + val * coeff)) (zip verifiers batching_coeffs) 0.

Definition check_batched_output_claim (output_claim expected_output_claim : E) : result unit :=
  if negb (feqb output_claim expected_output_claim) then Err InvalidProof else Ok tt.

Definition verify_batched_sumcheck {V} `{SumcheckInstanceVerifier E V}
    (proof : SumcheckProof E) (verifiers : list V) (t : T) : result (list E * T) :=
  let* (round_result, t) := verify_batched_sumcheck_rounds proof verifiers t in
  let* expected_output_claim :=
    compute_batched_expected_output_claim verifiers (batching_coeffs round_result)
      (max_num_rounds round_result) (r_sumcheck round_result) in
  let* _ := check_batched_output_claim (output_claim round_result) expected_output_claim in
  Ok (r_sumcheck round_result, t).
End batched.

(** * Linear combinations *)

Section algebra.
Context {E : Type} `{FieldLaws E}.
Add Ring Ering : (field_ring (E := E)).

(** [sum_i claims_i * coeffs_i] *)
Definition combine (claims coeffs : list E) : E := fsum (zip_with fmul claims coeffs).

Lemma add_scaled_length result cs c : length (add_scaled result cs c) = length result.
Proof.
  revert cs; induction result as [|r result IH]; intros [|x cs]; cbn; auto.
Qed.

Lemma add_scaled_value result cs c x :
  (length cs <= length result)%nat ->
  peval (add_scaled result cs c) x = peval result x + peval cs x * c.
Proof.
  revert cs; induction result as [|r result IH]; intros [|y cs] Hl; cbn [add_scaled peval].
  - ring.
  - cbn in Hl. lia.
  - ring.
  - cbn in Hl. rewrite IH by lia. ring.
Qed.

Lemma linear_combination_loop polys coeffs result x :
  Forall (fun p => (length (UniPoly.coeffs p) <= length result)%nat) polys ->
  length coeffs = length polys ->
  let out := foldl (fun result '(poly, coeff) => add_scaled result (UniPoly.coeffs poly) coeff)
               result (zip polys coeffs) in
  length out = length result /\
  peval out x = peval result x + combine (map (fun p => peval (UniPoly.coeffs p) x) polys) coeffs.
Proof.
  revert coeffs result; induction polys as [|p polys IH]; intros [|c coeffs] result Hl Hlen;
    try discriminate Hlen.
  - cbn. split; [done|]. unfold combine. change (fsum (zip_with fmul [] [])) with (0 : E). ring.
  - apply Forall_cons_iff in Hl as [Hp Hl]. cbn [zip zip_with foldl map].
    destruct (IH coeffs (add_scaled result (UniPoly.coeffs p) c)) as [Hl' Hv'].
    { eapply Forall_impl; [|exact Hl]. intros q Hq. by rewrite add_scaled_length. }
    { by injection Hlen. }
    split; [by rewrite Hl', add_scaled_length|]. rewrite Hv', add_scaled_value by done.
    unfold combine. cbn [zip_with]. rewrite fsum_cons. ring.
Qed.

Lemma max_len_bound {A} (f : A -> nat) l :
  Forall (fun a => (f a <= foldr Nat.max 0 (map f l))%nat) l.
Proof.
  induction l as [|a l IH]; [done|]. cbn [map foldr]. constructor; [lia|].
  eapply Forall_impl; [|exact IH]. cbn beta. intros; lia.
Qed.

Lemma linear_combination_spec polys coeffs :
  length coeffs = length polys ->
  (forall x, UniPoly.evaluate (linear_combination polys coeffs) x
             = combine (map (fun p => UniPoly.evaluate p x) polys) coeffs) /\
  length (UniPoly.coeffs (linear_combination polys coeffs))
    = foldr Nat.max 0%nat (map (fun p => length (UniPoly.coeffs p)) polys).
Proof.
  intros Hlen. unfold linear_combination.
  set (m := foldr Nat.max 0%nat _).
  assert (Hb : Forall (fun p => (length (UniPoly.coeffs p) <= length (replicate m (fzero : E)))%nat) polys).
  { rewrite length_replicate. apply (max_len_bound (fun p => length (UniPoly.coeffs p))). }
  split.
  - intros x. destruct (linear_combination_loop polys coeffs _ x Hb Hlen) as [_ Hv].
    rewrite evaluate_peval. cbn [UniPoly.from_coeffs UniPoly.coeffs]. rewrite Hv.
    assert (Hz : forall n, peval (replicate n 0) x = 0).
    { induction n as [|n IH]; [done|]. cbn [replicate peval]. rewrite IH. ring. }
    rewrite Hz. transitivity (combine (map (fun p => peval (UniPoly.coeffs p) x) polys) coeffs);
      [ring|]. f_equal. apply map_ext. intros p. by rewrite evaluate_peval.
  - destruct (linear_combination_loop polys coeffs _ 0 Hb Hlen) as [Hl _].
    cbn [UniPoly.from_coeffs UniPoly.coeffs]. by rewrite Hl, length_replicate.
Qed.

Lemma mul_pow_2_S x k : (0 <= k)%Z -> mul_pow_2 x (k + 1) = mul_pow_2 x k + mul_pow_2 x k.
Proof. intros Hk. unfold mul_pow_2. by rewrite range_S, foldl_app by done. Qed.

Lemma max_of_ge l x : x ∈ l -> (x <= max_of l)%Z.
Proof.
  induction l as [|y l IH]; [by intros ?%elem_of_nil|]. cbn [max_of foldr].
  intros [->|Hx]%elem_of_cons; [lia|]. apply IH in Hx. unfold max_of in Hx. lia.
Qed.

Lemma max_of_nonneg l : (0 <= max_of l)%Z.
Proof. induction l as [|y l IH]; cbn [max_of foldr]; [lia|]. unfold max_of in IH. lia. Qed.

(** ** Sums of padded instances *)

Lemma wsum_zero ws prefix : wsum ws (fun _ => 0 : E) prefix = 0.
Proof.
  revert prefix; induction ws as [|[a b] ws IH]; intros prefix; cbn [wsum]; [done|].
  rewrite !IH. ring.
Qed.

Lemma wsum_linear ws f g c prefix :
  wsum ws (fun rs => f rs * c + g rs) prefix = wsum ws f prefix * c + wsum ws g prefix.
Proof.
  revert prefix; induction ws as [|[a b] ws IH]; intros prefix; cbn [wsum]; [done|].
  rewrite !IH. ring.
Qed.

Lemma wsum_ext ws f g prefix :
  (forall rs, length rs = (length prefix + length ws)%nat -> f rs = g rs) ->
  wsum ws f prefix = wsum ws g prefix.
Proof.
  revert prefix; induction ws as [|[a b] ws IH]; intros prefix Hfg; cbn [wsum].
  - apply Hfg. cbn. lia.
  - rewrite !IH; [done|..]; intros rs Hrs; apply Hfg; rewrite Hrs, length_app; cbn; lia.
Qed.

(** Rounds after the offset sum the instance itself. *)
Lemma wsum_active off f m prefix :
  (off <= length prefix)%nat ->
  wsum (plain_weights m) (fun rs => f (drop off rs)) prefix
  = wsum (plain_weights m) f (drop off prefix).
Proof.
  revert prefix; induction m as [|m IH]; intros prefix Hl; [done|].
  cbn [plain_weights replicate wsum]. fold (plain_weights m).
  rewrite !IH by (rewrite length_app; lia). by rewrite !drop_app_le.
Qed.

(** Rounds before it double the sum. *)
Lemma wsum_padded k f n prefix :
  wsum (plain_weights (k + n)) (fun rs => f (drop (length prefix + k) rs)) prefix
  = mul_pow_2 (wsum (plain_weights n) f []) (Z.of_nat k).
Proof.
  revert prefix; induction k as [|k IH]; intros prefix.
  - cbn [Nat.add]. rewrite Nat.add_0_r, wsum_active, drop_all by lia. done.
  - cbn [Nat.add plain_weights replicate wsum]. fold (plain_weights (k + n)).
    rewrite Nat2Z.inj_succ. unfold Z.succ. rewrite mul_pow_2_S by lia.
    assert (Hx : forall x, wsum (plain_weights (k + n))
               (fun rs => f (drop (length prefix + S k) rs)) (prefix ++ [x])
               = mul_pow_2 (wsum (plain_weights n) f []) (Z.of_nat k)).
    { intros x. rewrite <-(IH (prefix ++ [x])). apply wsum_ext. intros rs _. do 2 f_equal.
      rewrite length_app. cbn [length]. lia. }
    rewrite !Hx. ring.
Qed.
End algebra.

(** * Offsets and output claims *)

Section outputs.
Context {E V : Type} `{FieldLaws E, SumcheckInstanceVerifier E V}.
Add Ring Ering2 : (field_ring (E := E)).

(** The challenges of the rounds in which an instance is active. *)
Definition active_part (max_rounds n : Z) (rs : list E) : list E :=
  drop (Z.to_nat (max_rounds - n)) rs.

Lemma front_offset_Ok max_rounds n off :
  front_offset max_rounds n = Ok off -> off = (max_rounds - n)%Z /\ (0 <= off)%Z.
Proof.
  unfold front_offset, checked_sub, usize, checked_u. destruct (_ && _)%bool eqn:E0; [|done].
  intros [= <-]. bool_prop. lia.
Qed.

Lemma active_slice (rs : list E) max_rounds n :
  len rs = max_rounds -> (0 <= n <= max_rounds)%Z ->
  slice rs (max_rounds - n) (max_rounds - n + n) = Some (active_part max_rounds n rs).
Proof.
  intros Hl Hn. unfold slice. case_Z. f_equal. unfold active_part.
  apply take_ge. rewrite length_drop. unfold len in Hl. lia.
Qed.

Lemma expected_output_value (vs : list V) cs max_rounds rs vals :
  length cs = length vs -> len rs = max_rounds ->
  Forall2 (fun v val => (0 <= v_num_rounds v <= max_rounds)%Z /\
             expected_output_claim v (active_part max_rounds (v_num_rounds v) rs) = Ok val) vs vals ->
  compute_batched_expected_output_claim vs cs max_rounds rs = Ok (combine vals cs).
Proof.
  intros Hl Hr Hv. unfold compute_batched_expected_output_claim.
  replace (len cs =? len vs)%Z with true by (symmetry; apply Z.eqb_eq; unfold len; lia).
  rewrite Hr, Z.eqb_refl. cbn [negb].
  transitivity (Ok (E := AkitaError) (0 + combine vals cs)); [|f_equal; ring].
  generalize (0 : E). revert cs Hl. induction Hv as [|v val vs vals [Hn Ho] Hv IH];
    intros [|c cs] Hl a; try discriminate Hl.
  - cbn. f_equal. unfold combine. change (a = a + 0). ring.
  - cbn [zip zip_with ofold]. destruct (Z.ltb_spec max_rounds (v_num_rounds v)); [lia|].
    rewrite active_slice by done. cbn [unwrap obind]. rewrite Ho. cbn [obind].
    rewrite IH by (by injection Hl). unfold combine. cbn [zip_with]. rewrite fsum_cons.
    f_equal. ring.
Qed.

Lemma scaled_values (vs : list V) cs max_rounds scaled :
  length cs = length vs ->
  omapM (fun '(v, coeff) => let* offset := front_offset max_rounds (v_num_rounds v) in
                  Ok (mul_pow_2 (v_input_claim v) offset * coeff)) (zip vs cs) = Ok scaled ->
  scaled = zip_with fmul (map (fun v => mul_pow_2 (v_input_claim v) (max_rounds - v_num_rounds v)) vs) cs /\
  Forall (fun v => (v_num_rounds v <= max_rounds)%Z) vs.
Proof.
  intros Hl Hs. apply omapM_Forall2 in Hs. revert cs scaled Hl Hs.
  induction vs as [|v vs IH]; intros [|c cs] scaled Hl Hs; try discriminate Hl.
  - by inversion Hs.
  - cbn [zip zip_with] in Hs. inversion Hs as [|? s ? scaled' Hc Hs']; subst.
    obind_inv Hc. apply front_offset_Ok in E0 as [-> Hn]. injection Hc as <-.
    injection Hl as Hl. destruct (IH _ _ Hl Hs') as [-> Hf]. split; [done|].
    constructor; [lia|done].
Qed.
End outputs.

Lemma verify_rounds_challenges {F E T} `{Field E, AkitaSerialize E, Transcript F T}
    (sample : T -> result (E * T)) bound polys claim r (t : T) claim' r' t' :
  ofold (verify_round (F := F) sample bound) polys (claim, r, t) = Ok (claim', r', t') ->
  length r' = (length r + length polys)%nat.
Proof.
  revert claim r t; induction polys as [|p polys IH]; intros claim r t Hv; cbn [ofold] in Hv.
  - injection Hv as _ <- _. cbn. lia.
  - obind_inv Hv. destruct a as [[claim1 r1] t1]. apply IH in Hv. unfold verify_round in E0.
    destruct (_ <? _)%Z; [done|]. obind_inv E0. obind_inv E0. destruct a0 as [r_i t2].
    cbn [obind] in E0. injection E0 as _ <- _. rewrite length_app in Hv. cbn [length] in *. lia.
Qed.

Lemma sample_loop_length {E T} (sample : T -> result (E * T)) (l : list Z) acc t cs t' :
  ofold (push_coeff sample) l (acc, t) = Ok (cs, t') -> length cs = (length acc + length l)%nat.
Proof.
  revert acc t; induction l as [|k l IH]; intros acc t Hs; cbn [ofold length] in *.
  - injection Hs as <- _. lia.
  - obind_inv Hs. unfold push_coeff in E0. obind_inv E0. destruct a0 as [c t1]. cbn [obind] in E0. injection E0 as <-.
    rewrite (IH _ _ Hs), length_app. cbn. lia.
Qed.

Lemma sample_coeffs_length {E T} (sample : T -> result (E * T)) n t cs t' :
  sample_coeffs sample n t = Ok (cs, t') -> length cs = n.
Proof.
  intros Hs. apply sample_loop_length in Hs. rewrite Hs, length_range. cbn. lia.
Qed.

(** * Completeness of the batch *)

(** What the driver relies on: an instance keeps its degree bound while it is
    driven and respects it. *)
Class ProverKeepsShape {E P} `{SumcheckInstanceProver E P} : Prop := {
  compute_shape inst round claim g (inst' : P) :
    compute_round_univariate inst round claim = Ok (g, inst') ->
    p_degree_bound inst' = p_degree_bound inst /\
    (len (coeffs g) <= p_degree_bound inst + 1)%Z;
  ingest_shape inst round r (inst' : P) :
    p_ingest_challenge inst round r = Ok inst' -> p_degree_bound inst' = p_degree_bound inst;
}.

Lemma compress_degree {E} `{Field E} (g : UniPoly E) d :
  (0 <= d)%Z -> (len (coeffs g) <= d + 1)%Z ->
  (CompressedUniPoly.degree (UniPoly.compress g) <= d)%Z.
Proof.
  intros Hd Hl. unfold CompressedUniPoly.degree. unfold len in *.
  destruct g as [[|c0 [|c1 rest]]]; cbn [UniPoly.compress coeffs coeffs_except_linear_term length] in *;
    case_Z.
Qed.

Section completeness.
Context {F E T1 T2 : Type} `{FieldLaws E, AkitaSerialize E, Transcript F T1, !Transcript F T2}.
Context (R : T1 -> T2 -> Prop) `{!TranscriptSim F T1 T2 R}.
Variable sample1 : T1 -> result (E * T1).
Variable sample2 : T2 -> result (E * T2).
Hypothesis sample_sim : forall t1 t2, R t1 t2 -> rel_out R (sample1 t1) (sample2 t2).
Context {P V : Type} `{SumcheckInstanceProver E P, !ProverKeepsShape, SumcheckInstanceVerifier E V}.
Add Ring Ering3 : (field_ring (E := E)).

Definition within (d : Z) (insts : list P) : Prop :=
  Forall (fun inst => (p_degree_bound inst <= d)%Z) insts.

Lemma compute_all_shape max_rounds round insts (claims : list E) outs d :
  omapM (fun '(inst, claim) => compute_univariate max_rounds round inst claim) (zip insts claims)
    = Ok outs ->
  (0 <= d)%Z -> within d insts ->
  within d (map snd outs) /\ Forall (fun g => (len (coeffs g) <= d + 1)%Z) (map fst outs).
Proof.
  intros Hm Hd Hw. apply omapM_Forall2 in Hm. revert claims outs Hm.
  induction Hw as [|inst insts Hi Hw IH]; intros [|claim claims] outs Hm;
    try by inversion Hm; subst; repeat constructor.
  cbn [zip zip_with] in Hm. inversion Hm as [|? [g inst'] ? outs' Hc Hm']; subst.
  destruct (IH _ _ Hm') as [Hw' Hg']. cbn [map fst snd].
  cut ((p_degree_bound inst' <= d)%Z /\ (len (coeffs g) <= d + 1)%Z).
  { intros [? ?]. split; by constructor. }
  unfold compute_univariate in Hc. obind_inv Hc. destruct (_ && _)%bool.
  - apply compute_shape in Hc as [-> ?]. lia.
  - injection Hc as <- <-. split; [done|]. unfold len. cbn [UniPoly.from_coeffs coeffs length]. lia.
Qed.

Lemma ingest_all_shape max_rounds round r insts insts' d :
  omapM (ingest max_rounds round r) insts = Ok insts' -> within d insts -> within d insts'.
Proof.
  intros Hm Hw. apply omapM_Forall2 in Hm. induction Hm as [|inst inst' insts insts' Hi Hm IH];
    [done|]. apply Forall_cons_iff in Hw as [Hd Hw]. constructor; [|by apply IH].
  unfold ingest in Hi. obind_inv Hi. destruct (_ && _)%bool.
  - apply ingest_shape in Hi. lia.
  - by injection Hi as <-.
Qed.

Lemma linear_combination_len polys (cs : list E) d :
  (0 <= d)%Z -> length cs = length polys ->
  Forall (fun g => (len (coeffs g) <= d + 1)%Z) polys ->
  (len (coeffs (linear_combination polys cs)) <= d + 1)%Z.
Proof.
  intros Hd Hl Hg. unfold len at 1. rewrite (proj2 (linear_combination_spec polys cs Hl)).
  clear Hl. induction Hg as [|g polys Hg _ IH]; cbn [map foldr]; [lia|]. unfold len in Hg. lia.
Qed.

(** The state of the prover's loop. *)
Abbreviation state := (list P * list E * T1 * list (CompressedUniPoly E) * list E)%type.

Definition well_formed (d : Z) (cs : list E) (insts : list P) (claims : list E) : Prop :=
  within d insts /\ length claims = length insts /\ length cs = length insts.

Lemma batched_round_follows d max_rounds round cs insts claims t1 polys r
    insts' claims' t1' polys' r' t2 :
  batched_prove_round (F := F) (H3 := true) sample1 max_rounds cs (insts, claims, t1, polys, r) round
    = Ok (insts', claims', t1', polys', r') ->
  R t1 t2 -> (0 <= d)%Z -> well_formed d cs insts claims ->
  well_formed d cs insts' claims' /\
  exists poly t2', polys' = polys ++ [poly] /\ R t1' t2' /\
    verify_round (F := F) sample2 d (combine claims cs, r, t2) poly
      = Ok (combine claims' cs, r', t2').
Proof.

  intros Hp Hr Hd (Hw & Hlc & Hls). unfold batched_prove_round in Hp.
  obind_inv Hp. rename a into outs. destruct (compute_all_shape _ _ _ _ _ _ E0 Hd Hw) as [Hw1 Hg1].
  apply omapM_length in E0. rewrite length_zip, Hlc, Nat.min_id in E0.
  assert (Hcs : length cs = length (map fst outs)) by (rewrite length_map; congruence).
  obind_inv Hp. obind_inv Hp. obind_inv Hp. destruct a1 as [r_j t1b]. cbn [obind] in Hp.
  obind_inv Hp. injection Hp as -> <- -> <- <-.
  pose proof (ingest_all_shape _ _ _ _ _ _ E4 Hw1) as Hw2.
  pose proof (omapM_length _ _ _ E4) as Hl2. rewrite length_map in Hl2.
  split. { split; [done|]. rewrite !length_map. split; congruence. }
  destruct (sim_serde_Ok (F := F) R t1 t2 _ _ _ Hr E2) as (t2a & Ha & Hra).
  destruct (sample_Ok R sample1 sample2 sample_sim _ _ _ _ Hra E3) as (t2b & Hb & Hrb).
  exists (UniPoly.compress (linear_combination (map fst outs) cs)), t2b.
  split; [done|]. split; [done|]. unfold verify_round.
  pose proof (compress_degree _ d Hd (linear_combination_len _ _ _ Hd Hcs Hg1)) as Hdeg.
  destruct (Z.ltb_spec d (CompressedUniPoly.degree
              (UniPoly.compress (linear_combination (map fst outs) cs)))); [lia|].
  rewrite Ha. cbn [obind]. rewrite Hb. cbn [obind]. do 3 f_equal.
  unfold debug_assert in E1. cbn [debug_assertions andb] in E1.
  destruct (feqb _ _) eqn:He; [|done]. apply feqb_spec in He.
  rewrite fold_add_fsum in He. fold (combine claims cs) in He.
  replace (combine claims cs) with (UniPoly.evaluate (linear_combination (map fst outs) cs) 0
    + UniPoly.evaluate (linear_combination (map fst outs) cs) 1) by (rewrite He; ring).
  by rewrite eval_from_hint_decompress, compress_value, (proj1 (linear_combination_spec _ _ Hcs)).
Qed.

Lemma batched_rounds_follow d max_rounds rounds cs insts claims t1 polys r
    insts' claims' t1' polys' r' t2 :
  ofold (batched_prove_round (F := F) (H3 := true) sample1 max_rounds cs) rounds
    (insts, claims, t1, polys, r) = Ok (insts', claims', t1', polys', r') ->
  R t1 t2 -> (0 <= d)%Z -> well_formed d cs insts claims ->
  exists sent t2', polys' = polys ++ sent /\ length sent = length rounds /\ R t1' t2' /\
    length claims' = length cs /\
    ofold (verify_round (F := F) sample2 d) sent (combine claims cs, r, t2)
      = Ok (combine claims' cs, r', t2').
Proof.
  revert insts claims t1 polys r t2; induction rounds as [|round rounds IH];
    intros insts claims t1 polys r t2 Hp Hr Hd Hw; cbn [ofold] in Hp.
  - injection Hp as <- <- <- <- <-. exists [], t2. rewrite app_nil_r.
    destruct Hw as (_ & ? & ?). repeat split; congruence.
  - obind_inv Hp. destruct a as [[[[insts1 claims1] t1a] polys1] r1].
    destruct (batched_round_follows _ _ _ _ _ _ _ _ _ _ _ _ _ _ t2 E0 Hr Hd Hw)
      as (Hw1 & poly & t2a & -> & Hra & Hv).
    destruct (IH _ _ _ _ _ t2a Hp Hra Hd Hw1) as (sent & t2' & -> & Hl & Hrb & Hc & Hv').
    exists (poly :: sent), t2'. rewrite <-app_assoc. split; [done|].
    split; [cbn [length]; by rewrite Hl|]. split; [done|]. split; [done|].
    cbn [ofold]. by rewrite Hv.
Qed.

Lemma absorb_follows (claims : list E) t1 t1' t2 :
  absorb_claims (F := F) claims t1 = Ok t1' -> R t1 t2 ->
  exists t2', absorb_claims (F := F) claims t2 = Ok t2' /\ R t1' t2'.
Proof.
  unfold absorb_claims. revert t1 t2; induction claims as [|c claims IH]; intros t1 t2 Ha Hr;
    cbn [ofold] in Ha.
  - injection Ha as <-. by exists t2.
  - obind_inv Ha. destruct (sim_serde_Ok (F := F) R t1 t2 _ _ _ Hr E0) as (t2a & Hb & Hra).
    destruct (IH _ _ Ha Hra) as (t2' & Hc & Hrb). exists t2'. cbn [ofold]. by rewrite Hb.
Qed.

Lemma sample_coeffs_follow n t1 cs t1' t2 :
  sample_coeffs sample1 n t1 = Ok (cs, t1') -> R t1 t2 ->
  exists t2', sample_coeffs sample2 n t2 = Ok (cs, t2') /\ R t1' t2'.
Proof.
  unfold sample_coeffs. generalize (range (Z.of_nat n)) as l. intros l. generalize (@nil E).
  revert t1 t2. induction l as [|k l IH]; intros t1 t2 acc Hs Hr; cbn [ofold] in *.
  - injection Hs as <- <-. by exists t2.
  - obind_inv Hs. unfold push_coeff in E0. obind_inv E0. destruct a0 as [c t1a]. cbn [obind] in E0. injection E0 as <-.
    destruct (sample_Ok R sample1 sample2 sample_sim _ _ _ _ Hr E1) as (t2a & Hb & Hra).
    unfold push_coeff at 1. rewrite Hb. cbn [obind]. exact (IH _ _ _ Hs Hra).
Qed.

(** An instance and its verifier state the same sumcheck. *)
Definition same_instance (inst : P) (v : V) : Prop :=
  v_num_rounds v = p_num_rounds inst /\ v_degree_bound v = p_degree_bound inst /\
  v_input_claim v = p_input_claim inst /\ (0 <= p_num_rounds inst)%Z.

Lemma same_instances_maps insts vs :
  Forall2 same_instance insts vs ->
  map v_num_rounds vs = map p_num_rounds insts /\
  map v_degree_bound vs = map p_degree_bound insts /\
  map v_input_claim vs = map p_input_claim insts /\ length vs = length insts.
Proof.
  induction 1 as [|inst v insts vs (Hn & Hd & Hc & _) _ (IHn & IHd & IHc & IHl)]; [done|].
  cbn [map length]. by rewrite Hn, Hd, Hc, IHn, IHd, IHc, IHl.
Qed.

Lemma scaled_follow insts vs cs claims max_rounds :
  Forall2 same_instance insts vs -> length cs = length vs ->
  omapM (fun inst => let* offset := front_offset max_rounds (p_num_rounds inst) in
                     Ok (mul_pow_2 (p_input_claim inst) offset)) insts = Ok claims ->
  omapM (fun '(v, coeff) => let* offset := front_offset max_rounds (v_num_rounds v) in
                  Ok (mul_pow_2 (v_input_claim v) offset * coeff)) (zip vs cs)
    = Ok (zip_with fmul claims cs).
Proof.
  intros Hf. revert cs claims.
  induction Hf as [|inst v insts vs (Hn & _ & Hc & _) _ IH]; intros [|c cs] claims Hl Hm;
    try discriminate Hl; cbn [omapM] in Hm.
  - by injection Hm as <-.
  - obind_inv Hm. obind_inv Hm. rename E1 into Hrest. injection Hm as <-. obind_inv E0. injection E0 as <-.
    cbn [zip zip_with omapM]. rewrite Hn, E1, Hc. cbn [obind].
    by rewrite (IH cs a0) by (done || by injection Hl).
Qed.

Lemma within_max (insts : list P) : within (max_of (map p_degree_bound insts)) insts.
Proof.
  apply Forall_forall. intros inst Hi. apply max_of_ge. by apply list_elem_of_In, in_map.
Qed.

(** The round replay of the verifier after a successful debug run. *)
Lemma batched_rounds_replayed insts vs t1 t2 insts' finals t1' polys challenges cs :
  prove_batched_run (F := F) (H3 := true) sample1 insts t1
    = Ok (insts', finals, t1', polys, challenges, cs) ->
  R t1 t2 -> Forall2 same_instance insts vs ->
  length finals = length cs /\ length cs = length vs /\
  len challenges = max_of (map v_num_rounds vs) /\
  exists t2', R t1' t2' /\
    verify_batched_sumcheck_rounds (F := F) sample2 {| round_polys := polys |} vs t2 =
      Ok ({| output_claim := combine finals cs; r_sumcheck := challenges;
             batching_coeffs := cs; max_num_rounds := max_of (map v_num_rounds vs) |}, t2').
Proof.
  intros Hp Hr Hf. unfold prove_batched_run in Hp.
  destruct insts as [|inst insts]; [done|].
  destruct vs as [|v vs]; [by inversion Hf|].
  set (is_ := inst :: insts) in *. set (vs_ := v :: vs) in *.
  destruct (same_instances_maps _ _ Hf) as (Hn & Hd & Hc & Hl).
  obind_inv Hp. obind_inv Hp. destruct a0 as [cs0 t1b]. cbn [obind] in Hp.
  obind_inv Hp. obind_inv Hp. destruct a1 as [[[[insts1 finals1] t1c] polys1] ch1].
  cbn [obind] in Hp. injection Hp as -> -> -> -> -> ->.
  destruct (absorb_follows _ _ _ _ E0 Hr) as (t2a & Ha & Hra).
  destruct (sample_coeffs_follow _ _ _ _ _ E1 Hra) as (t2b & Hb & Hrb).
  pose proof (sample_coeffs_length _ _ _ _ _ E1) as Hcl.
  pose proof (omapM_length _ _ _ E2) as Hlc.
  destruct (batched_rounds_follow (max_of (map p_degree_bound is_)) _ _ _ _ _ _ _ _ _ _ _ _ _ _
              E3 Hrb (max_of_nonneg _)) as (sent & t2' & Hsent & Hls & Hrc & Hfl & Hv).
  { split; [apply within_max|]. split; [done|]. done. }
  cbn [app] in Hsent. subst sent. rewrite length_range in Hls.
  pose proof (max_of_nonneg (map p_num_rounds is_)) as Hpos.
  split; [done|]. split; [congruence|].
  pose proof (verify_rounds_challenges _ _ _ _ _ _ _ _ _ Hv) as Hch. cbn [length] in Hch.
  split; [rewrite Hn; unfold len; lia|].
  exists t2'. split; [done|]. unfold verify_batched_sumcheck_rounds. subst vs_.
  cbv beta iota. set (vs_ := v :: vs) in *. rewrite Hc, Ha, Hl. cbn [obind].
  rewrite Hb. cbn [obind]. rewrite Hn, Hd.
  rewrite (scaled_follow _ _ _ _ _ Hf (eq_trans Hcl (eq_sym Hl)) E2). cbn [obind].
  unfold SumcheckProof_verify. cbn [round_polys].
  replace (len polys =? max_of (map p_num_rounds is_))%Z with true
    by (symmetry; apply Z.eqb_eq; unfold len; lia).
  cbn [negb]. rewrite fold_add_fsum.
  replace (0 + fsum (zip_with fmul a0 cs)) with (combine a0 cs) by (unfold combine; ring).
  by rewrite Hv.
Qed.

(** What a debug build computes without a failed assertion, every build
    computes. *)
Lemma any_build_round (mode : BuildMode) max_rounds cs s round s' :
  batched_prove_round (F := F) (H3 := true) sample1 max_rounds cs s round = Ok s' ->
  batched_prove_round (F := F) (H3 := mode) sample1 max_rounds cs s round = Ok s'.
Proof.
  destruct s as [[[[insts claims] t] polys] r]. unfold batched_prove_round.
  destruct (omapM _ (zip insts claims)) as [outs|e|]; cbn [obind]; [|done..].
  unfold debug_assert, debug_assertions. cbn [andb].
  destruct (feqb _ _); cbn [negb]; [|done]. by rewrite andb_false_r.
Qed.

Lemma any_build (mode : BuildMode) insts t1 out :
  prove_batched_run (F := F) (H3 := true) sample1 insts t1 = Ok out ->
  prove_batched_run (F := F) (H3 := mode) sample1 insts t1 = Ok out.
Proof.
  unfold prove_batched_run. destruct insts as [|inst insts]; [done|].
  set (is_ := inst :: insts). intros Hp.
  obind_inv Hp. cbn [obind]. obind_inv Hp. destruct a0 as [cs t1b]. cbn [obind] in Hp |- *.
  obind_inv Hp. cbn [obind]. obind_inv Hp.
  assert (Hloop : forall rounds s s',
            ofold (batched_prove_round (F := F) (H3 := true) sample1 (max_of (map p_num_rounds is_)) cs)
              rounds s = Ok s' ->
            ofold (batched_prove_round (F := F) (H3 := mode) sample1 (max_of (map p_num_rounds is_)) cs)
              rounds s = Ok s').
  { induction rounds as [|round rounds IH]; intros s s' Hs; [done|]. cbn [ofold] in *.
    obind_inv Hs. apply (any_build_round mode) in E4. rewrite E4. by apply IH. }
  apply Hloop in E3. rewrite E3. exact Hp.
Qed.

(** C1: completeness of the batched sumcheck.  When the per-round assertion
    [H(0) + H(1) = batched claim] of a debug build holds throughout a run of
    the prover, every build sends the same messages, and the verifier,
    running on a transcript in step with the prover's, draws the same
    batching coefficients and challenges, accepts every round within the
    largest degree bound, and ends with the coefficient-weighted combination
    of the instances' final claims; if each instance's oracle value at its own
    active challenges equals its final claim, verification succeeds. *)
Theorem batched_sumcheck_completeness (mode : BuildMode) insts vs t1 t2 insts' finals t1' polys
    challenges cs :
  prove_batched_run (F := F) (H3 := true) sample1 insts t1
    = Ok (insts', finals, t1', polys, challenges, cs) ->
  R t1 t2 -> Forall2 same_instance insts vs ->
  let proof := {| round_polys := polys |} in
  let max_rounds := max_of (map v_num_rounds vs) in
  prove_batched_sumcheck (F := F) (H3 := mode) sample1 insts t1
    = Ok (proof, challenges, map p_finalize insts', t1') /\
  exists t2', R t1' t2' /\
    verify_batched_sumcheck_rounds (F := F) sample2 proof vs t2 =
      Ok ({| output_claim := combine finals cs; r_sumcheck := challenges;
             batching_coeffs := cs; max_num_rounds := max_rounds |}, t2') /\
    (Forall2 (fun v final => expected_output_claim v
                (active_part max_rounds (v_num_rounds v) challenges) = Ok final) vs finals ->
     verify_batched_sumcheck (F := F) sample2 proof vs t2 = Ok (challenges, t2')).
Proof.
  intros Hp Hr Hf proof max_rounds.
  destruct (batched_rounds_replayed _ _ _ _ _ _ _ _ _ _ Hp Hr Hf)
    as (Hlf & Hlc & Hlr & t2' & Hr' & Hv).
  split. { unfold prove_batched_sumcheck. by rewrite (any_build mode _ _ _ Hp). }
  exists t2'. split; [done|]. split; [exact Hv|]. intros Ho.
  unfold verify_batched_sumcheck. subst proof. rewrite Hv.
  cbn [obind output_claim r_sumcheck batching_coeffs max_num_rounds].
  rewrite (expected_output_value vs cs max_rounds challenges finals Hlc Hlr).
  - cbn [obind]. unfold check_batched_output_claim. by rewrite feqb_refl.
  - apply Forall2_same_length_lookup_2; [exact (Forall2_length Ho)|].
    intros i v final Hiv Hif. split; [|exact (Forall2_lookup_lr _ _ _ _ _ _ Ho Hiv Hif)].
    destruct (Forall2_lookup_r _ _ _ _ _ Hf Hiv) as (inst & Hii & Hn & _ & _ & Hpos).
    split; [lia|]. apply max_of_ge. apply list_elem_of_In, in_map, list_elem_of_In.
    by eapply list_elem_of_lookup_2.
Qed.
End completeness.

(** * Soundness of the batch *)

Section soundness.
Context {F E T V : Type} `{FieldLaws E, AkitaSerialize E, Transcript F T, SumcheckInstanceVerifier E V}.
Add Ring Ering4 : (field_ring (E := E)).
Variable sample : T -> result (E * T).
(** The oracle of each instance. *)
Variable f : V -> list E -> E.

(** The true sum of an instance over its own variables. *)
Definition true_sum (v : V) : E := wsum (plain_weights (Z.to_nat (v_num_rounds v))) (f v) [].

(** How far each claim, scaled as the driver scales it, is from the truth. *)
Definition claim_errors (max_rounds : Z) (vs : list V) : list E :=
  map (fun v => mul_pow_2 (v_input_claim v - true_sum v) (max_rounds - v_num_rounds v)) vs.

(** The oracle of the batch over all rounds. *)
Definition batched_oracle (max_rounds : Z) (vs : list V) (cs rs : list E) : E :=
  combine (map (fun v => f v (active_part max_rounds (v_num_rounds v) rs)) vs) cs.

Lemma mul_pow_2_sub x y k : mul_pow_2 (x - y) k = mul_pow_2 x k - mul_pow_2 y k.
Proof.
  unfold mul_pow_2. generalize (range k). intros l. revert x y.
  induction l as [|i l IH]; intros x y; cbn [foldl]; [done|].
  rewrite <-IH. f_equal. ring.
Qed.

Lemma mul_pow_2_zero x k : mul_pow_2 x k = 0 -> x = 0.
Proof.
  unfold mul_pow_2. generalize (range k). intros l. revert x.
  induction l as [|i l IH]; intros x Hx; cbn [foldl] in Hx; [done|].
  apply IH in Hx. pose proof (fhalf_spec (1 : E)) as Hh.
  transitivity (fhalf 1 * (x + x)); [|rewrite Hx; ring].
  transitivity ((fhalf 1 + fhalf 1) * x); [rewrite Hh|]; ring.
Qed.

(** The sum of the batched oracle is the combination of the scaled sums. *)
Lemma batched_sum max_rounds vs cs :
  Forall (fun v => (0 <= v_num_rounds v <= max_rounds)%Z) vs ->
  wsum (plain_weights (Z.to_nat max_rounds)) (batched_oracle max_rounds vs cs) []
  = combine (map (fun v => mul_pow_2 (true_sum v) (max_rounds - v_num_rounds v)) vs) cs.
Proof.
  intros Hv. revert cs; induction Hv as [|v vs Hn Hv IH]; intros cs.
  - apply wsum_zero.
  - destruct cs as [|c cs]; [apply wsum_zero|].
    unfold batched_oracle, combine. cbn [map zip_with]. rewrite fsum_cons.
    change (fsum (zip_with fmul (map (fun v => mul_pow_2 (true_sum v) (max_rounds - v_num_rounds v)) vs) cs))
      with (combine (map (fun v => mul_pow_2 (true_sum v) (max_rounds - v_num_rounds v)) vs) cs).
    rewrite <-IH. unfold true_sum at 1.
    rewrite <-(Z2Nat.id (max_rounds - v_num_rounds v)) by lia.
    rewrite <-(wsum_padded (Z.to_nat (max_rounds - v_num_rounds v)) (f v) _ []). cbn [length Nat.add].
    rewrite <-Z2Nat.inj_add by lia. rewrite Z.sub_add. apply wsum_linear.
Qed.

Lemma combine_sub (xs ys : list E) cs :
  length xs = length ys -> combine (zip_with fsub xs ys) cs = combine xs cs - combine ys cs.
Proof.
  unfold combine. revert ys cs; induction xs as [|x xs IH]; intros [|y ys] [|c cs] Hl;
    try discriminate Hl; cbn [zip_with]; try (change (fsum []) with (0 : E); ring).
  rewrite !fsum_cons, IH by (by injection Hl). ring.
Qed.

Lemma claim_errors_eq max_rounds vs cs :
  combine (claim_errors max_rounds vs) cs
  = combine (map (fun v => mul_pow_2 (v_input_claim v) (max_rounds - v_num_rounds v)) vs) cs
    - combine (map (fun v => mul_pow_2 (true_sum v) (max_rounds - v_num_rounds v)) vs) cs.
Proof.
  rewrite <-combine_sub by (by rewrite !length_map). f_equal. unfold claim_errors.
  induction vs as [|v vs IH]; [done|]. cbn [map zip_with]. by rewrite IH, mul_pow_2_sub.
Qed.

Lemma claim_errors_zero max_rounds vs :
  Forall (fun e => e = 0) (claim_errors max_rounds vs) <->
  Forall (fun v => v_input_claim v = true_sum v) vs.
Proof.
  unfold claim_errors. rewrite Forall_map. apply Forall_iff. intros v. split.
  - intros Hz%mul_pow_2_zero. transitivity (v_input_claim v - true_sum v + true_sum v); [ring|].
    rewrite Hz. ring.
  - intros ->. rewrite mul_pow_2_sub. ring.
Qed.

(** C2: soundness of the batched sumcheck, for every proof.  Let every
    instance have some oracle [f v] as its expected output.  If the verifier
    accepts, then, for the coefficients it drew after the claims were
    absorbed, either an empty round message replaced a nonzero running claim
    by zero, or some round had a lucky challenge for the batched oracle, or
    the scaled claim errors satisfy the linear equation given by the
    coefficients.  That equation is trivial only when every claim is true. *)
Theorem batched_sumcheck_soundness vs proof t rs t' :
  verify_batched_sumcheck (F := F) sample proof vs t = Ok (rs, t') ->
  (forall v rs, expected_output_claim v rs = Ok (f v rs)) ->
  Forall (fun v => (0 <= v_num_rounds v)%Z) vs ->
  let max_rounds := max_of (map v_num_rounds vs) in
  exists cs t1 t2,
    absorb_claims (F := F) (map v_input_claim vs) t = Ok t1 /\
    sample_coeffs sample (length vs) t1 = Ok (cs, t2) /\
    (let claim := combine (map (fun v => mul_pow_2 (v_input_claim v) (max_rounds - v_num_rounds v)) vs) cs in
     dropped_claim (round_polys proof) claim rs \/
     lucky_round (max_of (map v_degree_bound vs)) (round_polys proof) claim rs (batched_oracle max_rounds vs cs) \/
     combine (claim_errors max_rounds vs) cs = 0) /\
    (Forall (fun e => e = 0) (claim_errors max_rounds vs) <->
     Forall (fun v => v_input_claim v = true_sum v) vs).
Proof.
  intros Hv Hf Hpos max_rounds. unfold verify_batched_sumcheck in Hv. obind_inv Hv.
  destruct a as [res t3]. cbn [obind] in Hv. obind_inv Hv. obind_inv Hv. injection Hv as <- <-.
  unfold check_batched_output_claim in E2. destruct (feqb _ a) eqn:He; [|done].
  apply feqb_spec in He. unfold verify_batched_sumcheck_rounds in E0.
  destruct vs as [|v vs]; [done|]. set (vs_ := v :: vs) in *.
  obind_inv E0. obind_inv E0. destruct a2 as [cs t2]. cbn [obind] in E0. obind_inv E0. obind_inv E0.
  destruct a3 as [[claim1 rs1] t4]. cbn [obind] in E0. injection E0 as <- <-.
  cbn [output_claim r_sumcheck batching_coeffs BatchedSumcheck.max_num_rounds] in *.
  change (compute_batched_expected_output_claim vs_ cs max_rounds rs1 = Ok a) in E1. fold max_rounds in E5, E6.
  exists cs, a1, t2. split; [done|]. split; [done|].
  pose proof (sample_coeffs_length _ _ _ _ _ E4) as Hcl.
  destruct (scaled_values vs_ cs _ _ Hcl E5) as [-> Hle].
  unfold SumcheckProof_verify in E6. destruct (len (round_polys proof) =? max_rounds)%Z eqn:Hlen;
    [|done]. cbn [negb] in E6. apply Z.eqb_eq in Hlen.
  pose proof (verify_rounds_challenges _ _ _ _ _ _ _ _ _ E6) as Hch. cbn [length] in Hch.
  assert (Hn : Forall (fun v => (0 <= v_num_rounds v <= max_rounds)%Z) vs_)
    by (rewrite Forall_forall in Hpos, Hle |- *; intros u Hu; split; [by apply Hpos|by apply Hle]).
  assert (Ha : a = batched_oracle max_rounds vs_ cs rs1).
  { rewrite (expected_output_value vs_ cs max_rounds rs1
               (map (fun v => f v (active_part max_rounds (v_num_rounds v) rs1)) vs_)) in E1.
    - by injection E1 as <-.
    - done.
    - unfold len in *. lia.
    - clearbody max_rounds. clear - Hn Hf. induction Hn as [|u us Hu _ IH]; constructor; [|exact IH]. by split. }
  rewrite Ha in He. split; [|apply claim_errors_zero].
  rewrite fold_add_fsum in E6.
  set (claim := combine (map (fun v => mul_pow_2 (v_input_claim v) (max_rounds - v_num_rounds v)) vs_) cs).
  replace (0 + fsum _) with claim in E6 by (unfold claim, combine; ring).
  destruct (decide (claim = wsum (plain_weights (length (round_polys proof)))
                              (batched_oracle max_rounds vs_ cs) [])) as [Heq|Hneq].
  - do 2 right. rewrite claim_errors_eq. fold claim. rewrite <-batched_sum by done.
    replace (Z.to_nat max_rounds) with (length (round_polys proof)) by (unfold len in Hlen; lia).
    rewrite <-Heq. ring.
  - destruct (rounds_soundness sample _ _ _ _ _ _ _ _ E6 He Hneq); auto.
Qed.

End soundness.

(** * Evaluation at concrete inputs *)

Module toy_batch.
Import toy toy_sumcheck.

#[export] Instance keeps_shape : ProverKeepsShape (P := list K).
Proof.
  constructor.
  - intros inst round claim g inst' [= <- <-]. split; [done|]. unfold len. cbn. lia.
  - by intros.
Qed.

Definition small : list K := map F97.of_Z [2; 9]%Z.
Definition provers : list (list K) := [table; small].
Definition verifiers : list (list K * K) := [(table, fsum table); (small, fsum small)].
Lemma same : Forall2 same_instance provers verifiers.
Proof. repeat constructor; vm_compute; discriminate. Qed.
End toy_batch.
Import toy toy_sumcheck toy_batch.

Lemma batched_sumcheck_completeness_witness :
  exists proof challenges insts t1' t2',
    prove_batched_sumcheck (F := F97.t) (H3 := false) sample provers start_p
      = Ok (proof, challenges, insts, t1') /\
    verify_batched_sumcheck (F := F97.t) sample proof verifiers start_v = Ok (challenges, t2').
Proof.
  destruct (prove_batched_run (F := F97.t) (H3 := true) sample provers start_p)
    as [[[[[[insts finals] t1'] polys] challenges] cs]|e|] eqn:Hp; [|vm_compute in Hp; discriminate Hp..].
  destruct (batched_sumcheck_completeness (F := F97.t) same_sponge sample sample sample_in_step false
              provers verifiers start_p start_v insts finals t1' polys challenges cs Hp
              (both_sides_start _ _) same) as (Hm & t2' & _ & _ & Hv).
  exists {| round_polys := polys |}, challenges, (map p_finalize insts), t1', t2'.
  split; [exact Hm|]. apply Hv.
  vm_compute in Hp. injection Hp as <- <- <- <- <- <-.
  repeat constructor.
Defined.

(** With all coefficients 0 a wrong claim passes: the equation on the claim
    errors holds. *)
Lemma batched_sumcheck_soundness_witness :
  let vs := [(small, F97.of_Z 20)] in
  let proof := {| round_polys := [{| coeffs_except_linear_term := [F97.of_Z 0] |}] |} in
  exists rs t' cs,
    verify_batched_sumcheck (F := F97.t) zero_sample proof vs start_v = Ok (rs, t') /\
    length cs = 1%nat /\
    (lucky_round 1 (round_polys proof) (combine [F97.of_Z 20] cs) rs
       (batched_oracle (fun v => oracle (fst v)) 1 vs cs) \/
     combine (claim_errors (fun v => oracle (fst v)) 1 vs) cs = 0).
Proof.
  intros vs proof.
  destruct (verify_batched_sumcheck (F := F97.t) zero_sample proof vs start_v) as [[rs t']|e|] eqn:Hv;
    [|vm_compute in Hv; discriminate Hv..].
  destruct (batched_sumcheck_soundness (F := F97.t) zero_sample (fun v => oracle (fst v)) vs proof
              start_v rs t' Hv (fun _ _ => eq_refl)) as (cs & t1 & t2 & _ & Hcs & Hor & _).
  - repeat constructor; vm_compute; discriminate.
  - exists rs, t', cs. split; [reflexivity|]. split; [exact (sample_coeffs_length _ _ _ _ _ Hcs)|].
    destruct Hor as [Hd|Hor]; [|exact Hor]. exfalso. apply (nonempty_keeps_claim _ _ _) in Hd; [done|].
    repeat constructor. discriminate.
Defined.
