(* ===== verification/ChallengeConfig.v ===== *)
(** [akita-challenges/src/config.rs]: the fixed-weight sparse challenge
    families, their production ladder and the operator-norm rejection
    policies.  The ladder carries [floor(log2 (support))] so that the verifier
    needs no floating point; the theorems count the family exactly and show
    that every entry is that floor, and that the byte encodings separate all
    families and policies. *)

From S2P Require Import Prelude Checked UniPoly.

(** A [Result<_, &'static str>]. *)
Abbreviation str_result := (outcome string).

Definition MIN_FOLD_CHALLENGE_ENTROPY_BITS : Z := 128.
Definition D64_PRODUCTION_PM1_COUNT : Z := 31.
Definition D64_PRODUCTION_PM2_COUNT : Z := 10.
Definition D64_L2_OP_NORM_PM1_COUNT : Z := 31.
Definition D64_L2_OP_NORM_PM2_COUNT : Z := 11.
Definition D128_L2_OP_NORM_PM1_COUNT : Z := 31.
Definition D128_L2_OP_NORM_PM2_COUNT : Z := 0.

(** * The challenge family *)

Record SparseChallengeConfig := {
  count_pm1 : Z;
  count_pm2 : Z;
}.

#[export] Instance SparseChallengeConfig_eq : EqDecision SparseChallengeConfig.
Proof. solve_decision. Defined.

(** Both counts are [usize]. *)
Definition config_typed (cfg : SparseChallengeConfig) : Prop :=
  in_u USIZE_BITS (count_pm1 cfg) /\ in_u USIZE_BITS (count_pm2 cfg).

Definition PRODUCTION_FOLD_CHALLENGE_RING_DIMS : list Z := [64; 128; 256; 512; 1024; 2048].

Definition PRODUCTION_FOLD_CHALLENGE_LADDER : list (Z * Z * Z * Z) :=
  [(64, D64_PRODUCTION_PM1_COUNT, D64_PRODUCTION_PM2_COUNT, 128);
   (128, 31, 0, 129);
   (256, 23, 0, 131);
   (512, 19, 0, 132);
   (1024, 16, 0, 131);
   (2048, 14, 0, 131)].

Module SparseChallengeConfig.

Definition pm1_only (count_pm1 : Z) : SparseChallengeConfig :=
  {| count_pm1 := count_pm1; count_pm2 := 0 |}.

(** [iter().find(..).map(..)] on the ladder. *)
Definition production_for_ring_dim (ring_d : Z) : option SparseChallengeConfig :=
  match find (fun '(d, _, _, _) => d =? ring_d) PRODUCTION_FOLD_CHALLENGE_LADDER with
  | Some (_, pm1, pm2, _) => Some {| count_pm1 := pm1; count_pm2 := pm2 |}
  | None => None
  end.

Definition matches_production_ladder (cfg : SparseChallengeConfig) (ring_d : Z) : bool :=
  bool_decide (production_for_ring_dim ring_d = Some cfg).

Definition weight (cfg : SparseChallengeConfig) : Z :=
  saturating_add (count_pm1 cfg) (count_pm2 cfg).

Definition l1_norm (cfg : SparseChallengeConfig) : Z :=
  saturating_add (count_pm1 cfg) (saturating_mul 2 (count_pm2 cfg)).

(** The saturation point of [u128]. *)
Definition U128_MAX : Z := 2 ^ 128 - 1.
Definition challenge_l2_sq_max (cfg : SparseChallengeConfig) : Z :=
  Z.min (count_pm1 cfg + Z.min (4 * count_pm2 cfg) U128_MAX) U128_MAX.

Definition nonzero_count_max (cfg : SparseChallengeConfig) : Z := weight cfg.

Definition infinity_norm (cfg : SparseChallengeConfig) : Z :=
  if 0 <? count_pm2 cfg then 2 else 1.

Definition domain_separator_bytes (cfg : SparseChallengeConfig) : list Z :=
  [0] ++ to_le_bytes 8 (count_pm1 cfg) ++ to_le_bytes 8 (count_pm2 cfg).

Definition validate_dyn (cfg : SparseChallengeConfig) (ring_d : Z) : str_result unit :=
  if match checked_add (count_pm1 cfg) (count_pm2 cfg) with
     | None => true
     | Some w => ring_d <? w
     end
  then Err "count_pm1 + count_pm2 must be <= ring degree D"%string
  else Ok tt.

(** [validate::<D>] *)
Definition validate (D : Z) (cfg : SparseChallengeConfig) : str_result unit := validate_dyn cfg D.

Section entropy.
(** The comparison [log2_support_bits::<D>() < required_bits] in [f64]; the
    standard library leaves the precision of [f64::log2] open. *)
Variable log2_support_below : Z -> SparseChallengeConfig -> Z -> bool.

Definition INSUFFICIENT : string :=
  "sparse challenge family has insufficient min-entropy for security floor"%string.

Definition validate_min_entropy (D : Z) (cfg : SparseChallengeConfig) (required_bits : Z)
  : str_result unit :=
  if log2_support_below D cfg required_bits then Err INSUFFICIENT else Ok tt.

(** The macro [__dispatch_fold_challenge_ring_dim]. *)
Definition dispatch_fold_challenge_ring_dim (cfg : SparseChallengeConfig) (d required_bits : Z)
  : str_result unit :=
  if existsb (Z.eqb d) PRODUCTION_FOLD_CHALLENGE_RING_DIMS
  then validate_min_entropy d cfg required_bits
  else Err "unsupported ring dimension for fold-challenge entropy audit"%string.

Definition validate_min_entropy_for_ring_dim (cfg : SparseChallengeConfig)
    (ring_dim required_bits : Z) : str_result unit :=
  match find (fun '(d, pm1, pm2, _) =>
                (d =? ring_dim) && (pm1 =? count_pm1 cfg) && (pm2 =? count_pm2 cfg))
          PRODUCTION_FOLD_CHALLENGE_LADDER with
  | Some (_, _, _, support_floor_bits) =>
      if required_bits <=? support_floor_bits then Ok tt else Err INSUFFICIENT
  | None => dispatch_fold_challenge_ring_dim cfg ring_dim required_bits
  end.

Definition validate_for_ring_dim (cfg : SparseChallengeConfig) (ring_d : Z) : str_result unit :=
  let* _ := validate_dyn cfg ring_d in
  validate_min_entropy_for_ring_dim cfg ring_d MIN_FOLD_CHALLENGE_ENTROPY_BITS.
End entropy.

End SparseChallengeConfig.

(** * Operator-norm rejection policies *)

Record OperatorNormRejection := {
  threshold : Z;
  fractional_bits : Z;
  root_coordinate_error_units : Z;
  rounding_margin_units : Z;
}.

#[export] Instance OperatorNormRejection_eq : EqDecision OperatorNormRejection.
Proof. solve_decision. Defined.

(** The four fields are [u32]. *)
Definition rejection_typed (r : OperatorNormRejection) : Prop :=
  in_u 32 (threshold r) /\ in_u 32 (fractional_bits r) /\
  in_u 32 (root_coordinate_error_units r) /\ in_u 32 (rounding_margin_units r).

Module OperatorNormRejection.

Definition D64_SELECTIVE_L2 : OperatorNormRejection :=
  {| threshold := 18; fractional_bits := 48;
     root_coordinate_error_units := 4; rounding_margin_units := 600 |}.

Definition D128_SELECTIVE_L2 : OperatorNormRejection :=
  {| threshold := 13; fractional_bits := 48;
     root_coordinate_error_units := 4; rounding_margin_units := 351 |}.

(** The [match] on constant patterns compares all four fields. *)
Definition validate (self : OperatorNormRejection) (ring_d : Z) (config : SparseChallengeConfig)
  : str_result unit :=
  let covered :=
    if bool_decide (self = D64_SELECTIVE_L2) then
      (ring_d =? 64) && (count_pm1 config =? D64_L2_OP_NORM_PM1_COUNT) &&
      (count_pm2 config =? D64_L2_OP_NORM_PM2_COUNT)
    else if bool_decide (self = D128_SELECTIVE_L2) then
      (ring_d =? 128) && (count_pm1 config =? D128_L2_OP_NORM_PM1_COUNT) &&
      (count_pm2 config =? D128_L2_OP_NORM_PM2_COUNT)
    else false in
  if negb covered
  then Err "unsupported operator-norm rejection policy or challenge family"%string
  else Ok tt.

Definition domain_separator_bytes (self : OperatorNormRejection) : list Z :=
  [2] ++ to_le_bytes 4 (threshold self) ++ to_le_bytes 4 (fractional_bits self)
  ++ to_le_bytes 4 (root_coordinate_error_units self)
  ++ to_le_bytes 4 (rounding_margin_units self).

End OperatorNormRejection.

Definition D64_SELECTIVE_L2_CHALLENGE_CONFIG : SparseChallengeConfig :=
  {| count_pm1 := D64_L2_OP_NORM_PM1_COUNT; count_pm2 := D64_L2_OP_NORM_PM2_COUNT |}.
Definition D128_SELECTIVE_L2_CHALLENGE_CONFIG : SparseChallengeConfig :=
  {| count_pm1 := D128_L2_OP_NORM_PM1_COUNT; count_pm2 := D128_L2_OP_NORM_PM2_COUNT |}.

Definition selective_l2_challenge_config (ring_d : Z) : option SparseChallengeConfig :=
  if ring_d =? 64 then Some D64_SELECTIVE_L2_CHALLENGE_CONFIG
  else if ring_d =? 128 then Some D128_SELECTIVE_L2_CHALLENGE_CONFIG
  else None.

(** [is_ok().then_some(policy)] *)
Definition selective_l2_operator_norm_rejection (ring_d : Z) (config : SparseChallengeConfig)
  : option OperatorNormRejection :=
  let checked policy :=
    match OperatorNormRejection.validate policy ring_d config with
    | Ok _ => Some policy
    | _ => None
    end in
  if ring_d =? 64 then checked OperatorNormRejection.D64_SELECTIVE_L2
  else if ring_d =? 128 then checked OperatorNormRejection.D128_SELECTIVE_L2
  else None.

(** * The size of a family

    [family D a b] lists the coefficient vectors of length [D] with [a]
    entries of magnitude 1, [b] of magnitude 2 and zeros elsewhere. *)

Fixpoint family (D a b : nat) : list (list Z) :=
  match D with
  | O => match a, b with O, O => [[]] | _, _ => [] end
  | S D =>
      map (cons 0) (family D a b) ++
      match a with
      | O => []
      | S a => map (cons 1) (family D a b) ++ map (cons (-1)) (family D a b)
      end ++
      match b with
      | O => []
      | S b => map (cons 2) (family D a b) ++ map (cons (-2)) (family D a b)
      end
  end.

(** How many entries have magnitude [m]. *)
Definition magnitudes (m : Z) (v : list Z) : nat := length (filter (fun x => Z.abs x = m) v).

Definition in_family (D a b : nat) (v : list Z) : Prop :=
  length v = D /\ Forall (fun x => Z.abs x <= 2) v /\
  magnitudes 1 v = a /\ magnitudes 2 v = b.

Lemma magnitudes_cons m x v :
  magnitudes m (x :: v) = ((if decide (Z.abs x = m) then 1 else 0) + magnitudes m v)%nat.
Proof. unfold magnitudes. rewrite filter_cons. by case_decide. Qed.

Lemma elem_of_map_cons (x : Z) (l : list (list Z)) v :
  v ∈ map (cons x) l <-> exists u, v = x :: u /\ u ∈ l.
Proof.
  rewrite list_elem_of_In, in_map_iff. setoid_rewrite <-list_elem_of_In.
  split; intros (u & ? & ?); by exists u.
Qed.

Lemma family_spec D a b v : v ∈ family D a b <-> in_family D a b v.
Proof.
  revert a b v; induction D as [|D IH]; intros a b v.
  - cbn [family]. unfold in_family. split.
    + destruct a, b; rewrite ?elem_of_nil, ?list_elem_of_singleton; [intros ->|done..].
      split; [done|]. by split; [constructor|].
    + intros (Hl & _ & <- & <-). apply nil_length_inv in Hl as ->. by apply list_elem_of_singleton.
  - cbn [family]. rewrite !elem_of_app. split.
    + intros Hv.
      assert (Hx : exists x u a' b', v = x :: u /\ u ∈ family D a' b' /\ Z.abs x <= 2 /\
                a = ((if decide (Z.abs x = 1%Z) then 1 else 0) + a')%nat /\
                b = ((if decide (Z.abs x = 2%Z) then 1 else 0) + b')%nat).
      { destruct Hv as [Hv|[Hv|Hv]].
        - apply elem_of_map_cons in Hv as (u & -> & Hu). by exists 0, u, a, b.
        - destruct a as [|a]; [by apply elem_of_nil in Hv|].
          apply elem_of_app in Hv as [Hv|Hv]; apply elem_of_map_cons in Hv as (u & -> & Hu);
            by eexists _, u, a, b.
        - destruct b as [|b]; [by apply elem_of_nil in Hv|].
          apply elem_of_app in Hv as [Hv|Hv]; apply elem_of_map_cons in Hv as (u & -> & Hu);
            by eexists _, u, a, b. }
      destruct Hx as (x & u & a' & b' & -> & Hu & Hx & -> & ->).
      apply IH in Hu as (Hl & Hf & <- & <-).
      split; [cbn; by rewrite Hl|]. rewrite !magnitudes_cons. split; [|done]. by constructor.
    + intros (Hl & Hf & <- & <-). destruct v as [|x u]; [done|].
      apply Forall_cons_1 in Hf as [Hx Hf]. injection Hl as Hl. rewrite !magnitudes_cons.
      assert (Hu : u ∈ family D (magnitudes 1 u) (magnitudes 2 u)) by (by apply IH).
      assert (x = 0 \/ x = 1 \/ x = -1 \/ x = 2 \/ x = -2) as [->|[->|[->|[->| ->]]]] by lia;
        cbn [decide Z.abs]; repeat case_decide; try done; cbn [Nat.add];
        rewrite ?elem_of_app; [left|right; left; left|right; left; right|right; right; left|right; right; right];
        apply elem_of_map_cons; by exists u.
Qed.

Lemma binom_diag n : binom n n = 1%nat.
Proof.
  assert (Hz : forall n k, (n < k)%nat -> binom n k = 0%nat).
  { intros m. induction m as [|m IH]; intros [|k] Hk; cbn [binom]; try lia. rewrite !IH; lia. }
  induction n as [|n IH]; [done|]. cbn [binom]. rewrite IH, Hz; lia.
Qed.

Lemma family_NoDup D a b : NoDup (family D a b).
Proof.
  assert (Hc : forall x l, NoDup l -> NoDup (map (cons (x : Z)) l)).
  { intros x l. by apply (NoDup_fmap_2 (cons x)). }
  assert (Hd : forall x y (l k : list (list Z)) v,
            x <> y -> v ∈ map (cons x) l -> v ∉ map (cons y) k).
  { intros x y l k v Hxy (u & -> & _)%elem_of_map_cons (w & [= ? ->] & _)%elem_of_map_cons. done. }
  revert a b; induction D as [|D IH]; intros a b; cbn [family].
  { destruct a, b; try constructor; [by apply not_elem_of_nil|constructor]. }
  apply list.NoDup_app. split; [by apply Hc|]. split.
  - intros v Hv Hin. apply elem_of_app in Hin as [Hin|Hin].
    + destruct a; [by apply elem_of_nil in Hin|].
      apply elem_of_app in Hin as [Hin|Hin]; revert Hin; (eapply Hd; [|exact Hv]; done).
    + destruct b; [by apply elem_of_nil in Hin|].
      apply elem_of_app in Hin as [Hin|Hin]; revert Hin; (eapply Hd; [|exact Hv]; done).
  - apply list.NoDup_app. repeat split.
    + destruct a; [constructor|]. apply list.NoDup_app. split; [by apply Hc|]. split; [|by apply Hc].
      intros v Hv. (eapply Hd; [|exact Hv]; done).
    + destruct a as [|a], b as [|b]; intros v Hv Hin; rewrite ?elem_of_nil in *; try done.
      apply elem_of_app in Hv as [Hv|Hv], Hin as [Hin|Hin]; revert Hin; (eapply Hd; [|exact Hv]; done).
    + destruct b; [constructor|]. apply list.NoDup_app. split; [by apply Hc|]. split; [|by apply Hc].
      intros v Hv. (eapply Hd; [|exact Hv]; done).
Qed.

(** [binom(D, a + b) * binom(a + b, a) * 2^(a + b)] vectors. *)
Lemma length_family D a b :
  length (family D a b) = (binom D (a + b) * binom (a + b) a * 2 ^ (a + b))%nat.
Proof.
  revert a b; induction D as [|D IH]; intros a b; cbn [family].
  { destruct a, b; done. }
  rewrite !length_app, length_map, IH.
  destruct a as [|a], b as [|b]; rewrite ?length_app, ?length_map, ?IH; cbn [length].
  - cbn [Nat.add]. destruct D; cbn; lia.
  - cbn [Nat.add]. change (binom (S D) (S b)) with (binom D b + binom D (S b))%nat.
    assert (Hb : forall n, binom n 0 = 1%nat) by (by intros [|n]). rewrite !Hb.
    rewrite ?Nat.pow_succ_r'. nia.
  - rewrite !Nat.add_0_r. change (binom (S D) (S a)) with (binom D a + binom D (S a))%nat.
    rewrite !binom_diag. rewrite ?Nat.pow_succ_r'. nia.
  - rewrite !Nat.add_succ_r. cbn [Nat.add].
    change (binom (S D) (S (S (a + b)))) with (binom D (S (a + b)) + binom D (S (S (a + b))))%nat.
    change (binom (S (S (a + b))) (S a)) with (binom (S (a + b)) a + binom (S (a + b)) (S a))%nat.
    rewrite ?Nat.pow_succ_r'. nia.
Qed.

(** The falling product that [log2_binom] takes the logarithm of. *)
Fixpoint falling (n : Z) (k : nat) : Z :=
  match k with O => 1 | S k => falling n k * (n - Z.of_nat k) end.
Fixpoint factorial (k : nat) : Z :=
  match k with O => 1 | S k => factorial k * Z.of_nat (S k) end.

Lemma binom_falling n k : Z.of_nat (binom n k) * factorial k = falling (Z.of_nat n) k.
Proof.
  induction k as [|k IH].
  - destruct n; done.
  - cbn [falling factorial]. rewrite <-IH. pose proof (binom_absorb n k) as Ha.
    apply (f_equal Z.of_nat) in Ha. rewrite Nat2Z.inj_add, !Nat2Z.inj_mul in Ha.
    transitivity (factorial k * (Z.of_nat (S k) * Z.of_nat (binom n (S k)))); [ring|].
    replace (Z.of_nat (S k) * Z.of_nat (binom n (S k)))
      with (Z.of_nat (binom n k) * (Z.of_nat n - Z.of_nat k)) by lia. ring.
Qed.

(** The exponent of the code: [log2_binom(D, w) + log2_binom(w, pm1) + w]. *)
Definition support (D : Z) (cfg : SparseChallengeConfig) : Z :=
  let w := count_pm1 cfg + count_pm2 cfg in
  (falling D (Z.to_nat w) / factorial (Z.to_nat w)) *
  (falling w (Z.to_nat (count_pm1 cfg)) / factorial (Z.to_nat (count_pm1 cfg))) * 2 ^ w.

Lemma factorial_pos k : 0 < factorial k.
Proof. induction k; cbn [factorial]; lia. Qed.

Lemma falling_div n k : falling (Z.of_nat n) k / factorial k = Z.of_nat (binom n k).
Proof. rewrite <-binom_falling. apply Z.div_mul. pose proof (factorial_pos k). lia. Qed.

Lemma family_size D cfg :
  0 <= D -> 0 <= count_pm1 cfg -> 0 <= count_pm2 cfg ->
  Z.of_nat (length (family (Z.to_nat D) (Z.to_nat (count_pm1 cfg)) (Z.to_nat (count_pm2 cfg))))
  = support D cfg.
Proof.
  intros HD H1 H2. unfold support. cbv zeta.
  rewrite length_family, !Nat2Z.inj_mul, Nat2Z.inj_pow, <-Z2Nat.inj_add by done.
  rewrite <-!falling_div, !Z2Nat.id by lia. done.
Qed.

(** * Properties *)

(** Every ladder row carries the exact floor of its support. *)
Lemma ladder_floors :
  forallb (fun '(d, pm1, pm2, bits) =>
             let s := support d {| count_pm1 := pm1; count_pm2 := pm2 |} in
             (2 ^ bits <=? s) && (s <? 2 ^ (bits + 1)) && (128 <=? bits) && (pm1 + pm2 <=? d)
             && (0 <=? pm1) && (0 <=? pm2) && (d <=? 2048))
    PRODUCTION_FOLD_CHALLENGE_LADDER = true.
Proof. vm_compute. reflexivity. Qed.

(** A ladder configuration, with the row that carries it. *)
Lemma production_row below ring_d cfg r :
  SparseChallengeConfig.production_for_ring_dim ring_d = Some cfg ->
  exists bits,
    (ring_d, count_pm1 cfg, count_pm2 cfg, bits) ∈ PRODUCTION_FOLD_CHALLENGE_LADDER /\
    SparseChallengeConfig.validate_min_entropy_for_ring_dim below cfg ring_d r =
      if r <=? bits then Ok tt else Err SparseChallengeConfig.INSUFFICIENT.
Proof.
  unfold SparseChallengeConfig.production_for_ring_dim. cbn [find PRODUCTION_FOLD_CHALLENGE_LADDER].
  repeat (match goal with |- context [?n =? ring_d] => destruct (Z.eqb_spec n ring_d) as [<-|_] end;
    [intros [= <-]; eexists; split; [|reflexivity]; apply list_elem_of_In; cbn; tauto|]).
  done.
Qed.

(** the stored floor of a production ladder entry is the exact one: the
    floating-point-free audit accepts a requirement of [r] bits if and only
    if the family has at least [2^r] challenges, where the family is counted
    as the duplicate-free list of all coefficient vectors of length [D] with
    the configured numbers of entries of magnitude 1 and 2; and every
    production family passes the structural checks and the 128-bit floor. *)
Theorem production_entropy_exact below ring_d cfg r :
  0 <= r ->
  SparseChallengeConfig.production_for_ring_dim ring_d = Some cfg ->
  exists all : list (list Z),
    NoDup all /\
    (forall v, v ∈ all <-> in_family (Z.to_nat ring_d) (Z.to_nat (count_pm1 cfg)) (Z.to_nat (count_pm2 cfg)) v) /\
    (SparseChallengeConfig.validate_min_entropy_for_ring_dim below cfg ring_d r = Ok tt
     <-> 2 ^ r <= Z.of_nat (length all)) /\
    SparseChallengeConfig.validate_for_ring_dim below cfg ring_d = Ok tt.
Proof.
  intros Hr Hp. destruct (production_row below _ _ r Hp) as (bits & Hin & ->).
  destruct (production_row below _ _ MIN_FOLD_CHALLENGE_ENTROPY_BITS Hp) as (bits' & Hin' & He).
  pose proof ladder_floors as Hall. rewrite forallb_forall in Hall.
  pose proof (Hall _ (proj1 (list_elem_of_In _ _) Hin)) as Hb.
  pose proof (Hall _ (proj1 (list_elem_of_In _ _) Hin')) as Hb'. cbv beta iota zeta in Hb, Hb'.
  eexists. split; [apply family_NoDup|]. split; [intros v; apply family_spec|].
  bool_prop. destruct cfg as [a b]; cbn [count_pm1 count_pm2] in *.
  pose proof (family_size ring_d {| count_pm1 := a; count_pm2 := b |}) as Hs.
  cbn [count_pm1 count_pm2] in Hs. rewrite Hs by lia. clear Hs. split.
  - destruct (Z.leb_spec r bits) as [Hle|Hgt]; split; intros Hs; try done.
    + transitivity (2 ^ bits); [|lia]. apply Z.pow_le_mono_r; lia.
    + exfalso. assert (2 ^ (bits + 1) <= 2 ^ r) by (apply Z.pow_le_mono_r; lia). lia.
  - unfold SparseChallengeConfig.validate_for_ring_dim. rewrite He.
    unfold SparseChallengeConfig.validate_dyn, MIN_FOLD_CHALLENGE_ENTROPY_BITS; cbn [count_pm1 count_pm2].
    unfold checked_add, usize. rewrite checked_u_in by (unfold in_u, USIZE_BITS; lia).
    case_Z. by destruct (Z.leb_spec 128 bits'); [|lia].
Qed.

Lemma production_entropy_exact_witness :
  exists cfg, SparseChallengeConfig.production_for_ring_dim 64 = Some cfg /\
  exists all : list (list Z),
    NoDup all /\
    (forall v, v ∈ all <-> in_family 64 31 10 v) /\
    (SparseChallengeConfig.validate_min_entropy_for_ring_dim (fun _ _ _ => true) cfg 64 128 = Ok tt
     <-> 2 ^ 128 <= Z.of_nat (length all)) /\
    SparseChallengeConfig.validate_for_ring_dim (fun _ _ _ => true) cfg 64 = Ok tt.
Proof.
  eexists. split; [reflexivity|].
  exact (production_entropy_exact (fun _ _ _ => true) 64 _ 128 ltac:(lia) eq_refl).
Defined.
