(* ===== verification/SparseChallenge.v ===== *)
(** [akita-challenges/src/challenge.rs] and [challenges.rs]: sparse fold
    challenges, their validation and evaluation, and the claim-major batch of
    one folding round with selection, evaluation and the embedding of subring
    challenges into the ambient ring. *)

From S2P Require Import Prelude Checked Field Serialization EqPoly MultiPoly Cyclotomic RingEval ChallengeConfig.
Local Open Scope field_scope.

(** The cargo feature [parallel]. *)
Class CargoFeatures := feature_parallel : bool.

Definition INLINE_SPARSE_WEIGHT : Z := (D64_PRODUCTION_PM1_COUNT + D64_PRODUCTION_PM2_COUNT)%Z.

(** Positions are [u32], coefficients [i8]. *)
Record SparseChallenge := {
  positions : list Z;
  coeffs : list Z;
}.

#[export] Instance SparseChallenge_eq : EqDecision SparseChallenge.
Proof. solve_decision. Defined.

Definition challenge_typed (c : SparseChallenge) : Prop :=
  Forall (in_u 32) (positions c) /\ Forall (in_s 8) (coeffs c).

(** [zip(..)] of the two term vectors, as the loops traverse it. *)
Definition terms (c : SparseChallenge) : list (Z * Z) := zip (positions c) (coeffs c).

Definition length_mismatch (c : SparseChallenge) : bool :=
  negb (len (positions c) =? len (coeffs c))%Z.

Module SparseChallenge.

Definition INLINE_WORDS : Z := 32.

(** One term of [validate_dyn]: the range and zero tests, then the bitmap
    word of the position is tested and marked. *)
Definition check_term (ring_d : Z) (seen : list Z) (term : Z * Z) : result (list Z) :=
  let (pos, coeff) := term in
  if (ring_d <=? pos)%Z then Err (InvalidInput "sparse challenge position out of range")
  else if (coeff =? 0)%Z then Err (InvalidInput "sparse challenge coefficients must be non-zero")
  else
    let* word := ok_or (index seen (pos / 64)%Z) InvalidProof in
    let mask := Z.shiftl 1 (pos mod 64) in
    if negb (Z.land word mask =? 0)%Z
    then Err (InvalidInput "sparse challenge positions must be unique")
    else store seen (pos / 64)%Z (Z.lor word mask).

Definition validate_dyn `{Allocator} (ring_d : Z) (c : SparseChallenge) : result unit :=
  if length_mismatch c
  then Err (InvalidInput "sparse challenge positions/coeffs length mismatch")
  else
    let word_count := ((ring_d + 63) / 64)%Z in
    let* seen :=
      if (word_count <=? INLINE_WORDS)%Z then Ok (replicate (Z.to_nat word_count) 0%Z)
      else if reserve_exact word_count then Ok (replicate (Z.to_nat word_count) 0%Z)
      else Err (InvalidInput "challenge dimension is too large") in
    let* _ := ofold (check_term ring_d) (terms c) seen in
    Ok tt.

(** [validate::<D>] *)
Definition validate `{Allocator} (D : Z) (c : SparseChallenge) : result unit := validate_dyn D c.

Section eval.
Context {F E : Type} `{RingI64 F, Field E, MulBase F E}.

Definition accumulate_small_signed (acc value : E) (coeff : Z) : E :=
  if (coeff =? 1)%Z then acc + value
  else if (coeff =? -1)%Z then acc - value
  else if (coeff =? 2)%Z then acc + value + value
  else if (coeff =? -2)%Z then acc - value - value
  else acc + mul_base value (from_i64 coeff : F).

Definition eval_at_pows (c : SparseChallenge) (alpha_pows : list E) : result E :=
  let ring_d := len alpha_pows in
  if length_mismatch c
  then Err (InvalidInput "sparse challenge positions/coeffs length mismatch")
  else
    ofold (fun acc '(pos, coeff) =>
             if (ring_d <=? pos)%Z then Err (InvalidInput "sparse challenge position out of range")
             else if (coeff =? 0)%Z
             then Err (InvalidInput "sparse challenge coefficients must be non-zero")
             else
               let* value := unwrap (index alpha_pows pos) in
               Ok (accumulate_small_signed acc value coeff))
      (terms c) 0.
End eval.

End SparseChallenge.

(** * A folding round's challenges, claim-major *)

Record Challenges := {
  challenges : list SparseChallenge;
  num_live_blocks_per_claim : Z;
  num_claims : Z;
}.

Definition PARALLEL_COARSE_LEAF_TERMS : Z := Z.shiftl 1 15.
Definition PARALLEL_FINE_LEAF_TERMS : Z := Z.shiftl 1 13.
Definition PARALLEL_FINE_TOTAL_TERMS : Z := Z.shiftl 1 17.

Module Challenges.

Definition from_sparse (cs : list SparseChallenge) (live_blocks claims : Z) : result Challenges :=
  let* expected := ok_or (checked_mul live_blocks claims) (InvalidSetup "challenge count overflow") in
  if negb (len cs =? expected)%Z then Err (InvalidSize expected (len cs))
  else Ok {| challenges := cs; num_live_blocks_per_claim := live_blocks; num_claims := claims |}.

Definition as_slice (c : Challenges) : list SparseChallenge := challenges c.
Definition is_empty (c : Challenges) : bool := (len (challenges c) =? 0)%Z.

Section eval.
Context {F E : Type} `{RingI64 F, Field E, MulBase F E, Allocator, CargoFeatures}.

Definition eval_at_pows (c : Challenges) (i : Z) (alpha_pows : list E) : result E :=
  let* challenge := ok_or (index (challenges c) i) (InvalidInput "challenge index out of range") in
  SparseChallenge.eval_at_pows (F := F) challenge alpha_pows.

(** The sum of the term counts, [None] on overflow. *)
Definition sparse_terms (c : Challenges) : option Z :=
  checked.sum (map (fun challenge => len (positions challenge)) (challenges c)).

Definition MIN_PARALLEL_CHALLENGES : Z := Z.shiftl 1 9.

(** Every leaf overwrites its chunk of the zeroed buffer; when several leaves
    fail the first error is taken. *)
Definition evals_at_pows (c : Challenges) (alpha_pows : list E) : result (list E) :=
  let evaluate challenge := SparseChallenge.eval_at_pows (F := F) challenge alpha_pows in
  if feature_parallel && (MIN_PARALLEL_CHALLENGES <=? len (challenges c))%Z then
    let* sparse_terms :=
      ok_or (sparse_terms c) (InvalidInput "sparse challenge term count overflow") in
    if (sparse_terms <=? PARALLEL_COARSE_LEAF_TERMS)%Z then omapM evaluate (challenges c)
    else
      let leaf_terms := if (PARALLEL_FINE_TOTAL_TERMS <? sparse_terms)%Z
                        then PARALLEL_FINE_LEAF_TERMS else PARALLEL_COARSE_LEAF_TERMS in
      let average_terms := ((sparse_terms + len (challenges c) - 1) / len (challenges c))%Z in
      let leaf_challenges := Z.max (leaf_terms / average_terms) 1 in
      if reserve_exact (len (challenges c)) then
        let* leaves := omapM (omapM evaluate) (chunks_of (Z.to_nat leaf_challenges) (challenges c)) in
        Ok (concat leaves)
      else Err (InvalidInput "challenge evaluation allocation failed")
  else omapM evaluate (challenges c).
End eval.

Definition select_claims (c : Challenges) (claim_indices : list Z) : result Challenges :=
  let blocks := num_live_blocks_per_claim c in
  let* _ := ok_or (checked_mul (len claim_indices) blocks) (InvalidSetup "challenge count overflow") in
  let* selected :=
    ofold (fun selected claim_index =>
             let* start := ok_or (checked_mul claim_index blocks) (InvalidSetup "challenge offset overflow") in
             let* stop := ok_or (checked_add start blocks) (InvalidSetup "challenge offset overflow") in
             let* part := ok_or (slice (challenges c) start stop) (InvalidSize stop (len (challenges c))) in
             Ok (selected ++ part)) claim_indices [] in
  from_sparse selected blocks (len claim_indices).

Section embed.
Context `{Allocator, CargoFeatures}.

Definition embed_position (embedding_stride ambient_ring_dimension position : Z) : result Z :=
  ok_or
    match checked_mul position embedding_stride with
    | Some p => if (p <? ambient_ring_dimension)%Z then checked_u 32 p else None
    | None => None
    end (InvalidInput "subring challenge embedded position overflow").

Definition embed_challenge (challenge_subring_dimension embedding_stride ambient_ring_dimension : Z)
    (challenge : SparseChallenge) : result SparseChallenge :=
  let* _ := SparseChallenge.validate_dyn challenge_subring_dimension challenge in
  guard* reserve_exact (len (positions challenge))
    else InvalidInput "subring challenge position allocation failed" in
  let* ps := omapM (embed_position embedding_stride ambient_ring_dimension) (positions challenge) in
  Ok {| positions := ps; coeffs := coeffs challenge |}.

Definition embed_subring_positions (c : Challenges)
    (challenge_subring_dimension embedding_stride ambient_ring_dimension : Z) : result Challenges :=
  if (challenge_subring_dimension =? 0)%Z || (embedding_stride =? 0)%Z ||
     match checked_mul challenge_subring_dimension embedding_stride with
     | Some dimension => negb (dimension =? ambient_ring_dimension)%Z
     | None => true
     end
  then Err (InvalidInput "subring challenge embedding dimensions are inconsistent")
  else
    let embed := embed_challenge challenge_subring_dimension embedding_stride ambient_ring_dimension in
    let* _ :=
      if feature_parallel then
        let first_terms := match challenges c with [] => 0%Z | ch :: _ => len (positions ch) end in
        ok_or (checked_mul (len (challenges c)) first_terms)
          (InvalidInput "subring challenge embedding work overflow")
      else Ok 0%Z in
    let* embedded := omapM embed (challenges c) in
    from_sparse embedded (num_live_blocks_per_claim c) (num_claims c).
End embed.

End Challenges.

(** * Validation decides well-formedness *)

(** The sampler invariants of the type's documentation. *)
Record well_formed (ring_d : Z) (c : SparseChallenge) : Prop := {
  wf_lengths : length (positions c) = length (coeffs c);
  wf_positions : Forall (fun p => 0 <= p < ring_d)%Z (positions c);
  wf_nonzero : Forall (fun x => x <> 0%Z) (coeffs c);
  wf_distinct : NoDup (positions c);
}.

Lemma mismatch_spec c : length_mismatch c = false <-> length (positions c) = length (coeffs c).
Proof.
  unfold length_mismatch, len. destruct (Z.eqb_spec (Z.of_nat (length (positions c))) (Z.of_nat (length (coeffs c))));
    cbn; split; (done || lia).
Qed.

Lemma terms_fst c : length (positions c) = length (coeffs c) -> map fst (terms c) = positions c.
Proof. intros Hl. apply (fst_zip (positions c) (coeffs c)). lia. Qed.
Lemma terms_snd c : length (positions c) = length (coeffs c) -> map snd (terms c) = coeffs c.
Proof. intros Hl. apply (snd_zip (positions c) (coeffs c)). lia. Qed.

Section validate.
Local Open Scope Z_scope.
Variable ring_d : Z.

(** The bitmap marks exactly the positions [ps]. *)
Definition marked (seen ps : list Z) : Prop :=
  forall p, 0 <= p < ring_d ->
    exists w, index seen (p / 64) = Some w /\ Z.testbit w (p mod 64) = bool_decide (p ∈ ps).

Lemma land_bit w k : 0 <= k -> (Z.land w (Z.shiftl 1 k) =? 0) = negb (Z.testbit w k).
Proof.
  intros Hk. rewrite Z.shiftl_1_l. destruct (Z.testbit w k) eqn:Hb.
  - apply Z.eqb_neq. intros H0. apply (f_equal (fun x => Z.testbit x k)) in H0.
    rewrite Z.land_spec, Z.pow2_bits_true, Hb, Z.bits_0 in H0 by done. done.
  - apply Z.eqb_eq, Z.bits_inj'. intros i Hi. rewrite Z.land_spec, Z.bits_0.
    destruct (decide (i = k)) as [->|Hne]; [by rewrite Hb|].
    rewrite (Z.pow2_bits_false k i) by lia. apply andb_false_r.
Qed.

(** Positions with the same word and the same bit are equal. *)
Lemma same_slot p q : p / 64 = q / 64 -> p mod 64 = q mod 64 -> p = q.
Proof. intros. rewrite (Z.div_mod p 64), (Z.div_mod q 64) by lia. lia. Qed.

Lemma marked_empty : 0 <= ring_d -> marked (replicate (Z.to_nat ((ring_d + 63) / 64)) 0) [].
Proof.
  intros Hd p Hp. exists 0. rewrite Z.bits_0, bool_decide_false by apply not_elem_of_nil.
  split; [|done]. unfold index. assert (0 <= p / 64) by (apply Z.div_pos; lia).
  destruct (Z.leb_spec 0 (p / 64)); [|lia]. apply lookup_replicate. split; [done|].
  assert (p / 64 < (ring_d + 63) / 64); [|lia].
  assert (p / 64 <= (ring_d - 1) / 64) by (apply Z.div_le_mono; lia).
  replace (ring_d + 63) with (ring_d - 1 + 1 * 64) by lia. rewrite Z.div_add by lia. lia.
Qed.

Lemma check_term_spec seen ps p x :
  marked seen ps -> 0 <= p ->
  if bool_decide (p < ring_d /\ x <> 0 /\ p ∉ ps)
  then exists seen', SparseChallenge.check_term ring_d seen (p, x) = Ok seen' /\ marked seen' (ps ++ [p])
  else exists e, SparseChallenge.check_term ring_d seen (p, x) = Err e.
Proof.
  intros Hm Hp. unfold SparseChallenge.check_term.
  destruct (Z.leb_spec ring_d p); [rewrite bool_decide_false by lia; by eexists|].
  destruct (Z.eqb_spec x 0); [rewrite bool_decide_false by tauto; by eexists|].
  destruct (Hm p ltac:(lia)) as (w & Hw & Hb). rewrite Hw. cbn [ok_or obind].
  assert (0 <= p mod 64 < 64) by (apply Z.mod_pos_bound; lia).
  rewrite land_bit, negb_involutive, Hb by lia.
  destruct (bool_decide_reflect (p ∈ ps)) as [Hin|Hin].
  { rewrite bool_decide_false by tauto. by eexists. }
  rewrite bool_decide_true by (split; [lia|done]).
  apply index_Some_len in Hw as Hi. unfold store.
  destruct (Z.leb_spec 0 (p / 64)); [|lia]. destruct (Z.ltb_spec (p / 64) (len seen)); [|lia].
  eexists. split; [done|]. intros q Hq. destruct (Hm q Hq) as (wq & Hwq & Hbq).
  apply index_Some_len in Hwq as Hiq. unfold index in *.
  destruct (Z.leb_spec 0 (q / 64)); [|lia]. destruct (Z.leb_spec 0 (p / 64)); [|lia].
  destruct (decide (q / 64 = p / 64)) as [He|He].
  - rewrite He in Hwq |- *. rewrite list_lookup_insert_eq by (unfold len in *; lia).
    rewrite Hw in Hwq. injection Hwq as <-. eexists; split; [done|].
    rewrite Z.lor_spec, Hbq, Z.shiftl_1_l. destruct (decide (q mod 64 = p mod 64)) as [Hs|Hs].
    + rewrite <-Hs, Z.pow2_bits_true by (rewrite Hs; lia). rewrite orb_true_r. symmetry.
      apply bool_decide_true. rewrite (same_slot q p He Hs). apply elem_of_app. right. by left.
    + rewrite Z.pow2_bits_false by congruence. rewrite orb_false_r. apply bool_decide_ext.
      rewrite elem_of_app, list_elem_of_singleton. split; [by left|]. intros [?| ->]; done.
  - rewrite list_lookup_insert_ne by (intros Hc; apply He; lia). exists wq. split; [done|].
    rewrite Hbq. apply bool_decide_ext. rewrite elem_of_app, list_elem_of_singleton.
    split; [by left|]. intros [?| ->]; done.
Qed.

Lemma check_loop ts seen ps :
  marked seen ps -> NoDup ps -> Forall (fun t => 0 <= fst t) ts ->
  let good := Forall (fun t => fst t < ring_d /\ snd t <> 0) ts /\ NoDup (ps ++ map fst ts) in
  (good /\ exists seen', ofold (SparseChallenge.check_term ring_d) ts seen = Ok seen') \/
  (~ good /\ exists e, ofold (SparseChallenge.check_term ring_d) ts seen = Err e).
Proof.
  cbv zeta. revert seen ps; induction ts as [|[p x] ts IH]; intros seen ps Hm Hnd Hpos.
  { left. cbn. rewrite app_nil_r. by split; [|eexists]. }
  apply Forall_cons_1 in Hpos as [Hp Hpos]. cbn [fst] in Hp.
  pose proof (check_term_spec seen ps p x Hm Hp) as Hc. cbn [ofold map fst].
  case_bool_decide as Hok.
  - destruct Hc as (seen' & -> & Hm'). cbn [obind]. destruct Hok as (Hlt & Hx & Hin).
    assert (Hnd' : NoDup (ps ++ [p])).
    { apply list.NoDup_app. split; [done|]. split; [|apply NoDup_singleton].
      intros q Hq ->%list_elem_of_singleton. done. }
    destruct (IH seen' (ps ++ [p]) Hm' Hnd' Hpos) as [[[Hf Hd] Hr]|[Hbad Hr]].
    + left. split; [|done]. rewrite <-app_assoc in Hd. split; [by constructor|done].
    + right. split; [|done]. intros [Hf Hd]. apply Hbad. apply Forall_cons_1 in Hf as [_ Hf].
      by rewrite <-app_assoc.
  - destruct Hc as (e & ->). right. split; [|by eexists]. intros [Hf Hd]. apply Hok.
    apply Forall_cons_1 in Hf as [[? ?] _]. split; [done|]. split; [done|]. intros Hin.
    apply list.NoDup_app in Hd as (_ & Hd & _). apply (Hd p Hin). by left.
Qed.

Lemma validate_spec `{Allocator} c :
  0 <= ring_d -> Forall (in_u 32) (positions c) ->
  ring_d <= 2048 \/ reserve_exact ((ring_d + 63) / 64) = true ->
  (well_formed ring_d c /\ SparseChallenge.validate_dyn ring_d c = Ok tt) \/
  (~ well_formed ring_d c /\ exists e, SparseChallenge.validate_dyn ring_d c = Err e).
Proof.
  intros Hd Ht Hr. unfold SparseChallenge.validate_dyn.
  destruct (length_mismatch c) eqn:El.
  { right. split; [|by eexists]. intros [Hl _ _ _]. by rewrite (proj2 (mismatch_spec c) Hl) in El. }
  apply mismatch_spec in El.
  assert (Hseen : (if (ring_d + 63) / 64 <=? SparseChallenge.INLINE_WORDS
                   then Ok (replicate (Z.to_nat ((ring_d + 63) / 64)) 0)
                   else if reserve_exact ((ring_d + 63) / 64)
                        then Ok (replicate (Z.to_nat ((ring_d + 63) / 64)) 0)
                        else Err (InvalidInput "challenge dimension is too large"))
                  = Ok (E := AkitaError) (replicate (Z.to_nat ((ring_d + 63) / 64)) 0)).
  { unfold SparseChallenge.INLINE_WORDS. destruct Hr as [Hr| ->]; [|by case_match].
    assert ((ring_d + 63) / 64 < 33) by (apply Z.div_lt_upper_bound; lia). case_Z. done. }
  rewrite Hseen. cbn [obind].
  destruct (check_loop (terms c) _ [] (marked_empty Hd)) as [[[Hf Hn] [s ->]]|[Hbad [e ->]]];
    [constructor| |left|right].
  - rewrite <-(terms_fst c El) in Ht. rewrite Forall_map in Ht.
    eapply Forall_impl; [|exact Ht]. intros t [? _]. done.
  - split; [|done]. cbn [app] in Hn. rewrite terms_fst in Hn by done. constructor; [done| | |done].
    + rewrite <-(terms_fst c El). rewrite <-(terms_fst c El) in Ht. rewrite Forall_map in *.
      apply Forall_forall. intros t Hin. rewrite Forall_forall in *. pose proof (Hf t Hin).
      pose proof (Ht t Hin) as [? _]. lia.
    + rewrite <-(terms_snd c El). rewrite Forall_map. eapply Forall_impl; [|exact Hf]. cbn. tauto.
  - split; [|by eexists]. intros [_ Hp Hx Hn]. apply Hbad. split; [|by rewrite terms_fst].
    rewrite <-(terms_fst c El) in Hp. rewrite <-(terms_snd c El) in Hx. rewrite Forall_map in *.
    rewrite Forall_forall in *. intros t Hin. specialize (Hp t Hin). specialize (Hx t Hin). cbn in *. lia.
Qed.
End validate.

(** * Evaluation *)

Section evaluation.
Context {F E : Type} `{FieldLaws F, !RingI64 F, !RingI64Laws F, !Field E, !FieldLaws E, !MulBase F E, !MulBaseLaws F E}.
Add Ring Fring3 : (field_ring (E := F)).
Add Ring Ering3 : (field_ring (E := E)).

Lemma small_constants :
  embed (from_i64 1%Z : F) = (1 : E) /\ embed (from_i64 2%Z : F) = (1 + 1 : E) /\
  embed (from_i64 (-1)%Z : F) = (- (1) : E) /\ embed (from_i64 (-2)%Z : F) = (- (1) - 1 : E).
Proof.
  assert (H1 : from_i64 1%Z = (1 : F)).
  { change 1%Z with (0 + 1)%Z. rewrite from_i64_succ, from_i64_0 by lia. ring. }
  assert (Hm1 : from_i64 (-1)%Z = (- (1) : F)).
  { pose proof (from_i64_succ (F := F) (-1)%Z ltac:(lia) ltac:(lia)) as Hs.
    change (-1 + 1)%Z with 0%Z in Hs. rewrite from_i64_0 in Hs. transitivity (from_i64 (-1)%Z + 1 - 1 : F); [ring|].
    rewrite <-Hs. ring. }
  assert (H2 : from_i64 2%Z = (1 + 1 : F)).
  { change 2%Z with (1 + 1)%Z. by rewrite from_i64_succ, H1 by lia. }
  assert (Hm2 : from_i64 (-2)%Z = (- (1) - 1 : F)).
  { pose proof (from_i64_succ (F := F) (-2)%Z ltac:(lia) ltac:(lia)) as Hs.
    change (-2 + 1)%Z with (-1)%Z in Hs. rewrite Hm1 in Hs. transitivity (from_i64 (-2)%Z + 1 - 1 : F); [ring|]. rewrite <-Hs. ring. }
  rewrite H1, H2, Hm1, Hm2. replace (- (1) - 1 : F) with (- (1) + - (1) : F) by ring.
  rewrite !embed_add, !embed_neg, embed_one. repeat split; ring.
Qed.

Lemma accumulate_spec (acc value : E) x :
  SparseChallenge.accumulate_small_signed (F := F) acc value x = acc + embed (from_i64 x : F) * value.
Proof.
  destruct small_constants as (E1 & E2 & E3 & E4). unfold SparseChallenge.accumulate_small_signed.
  destruct (Z.eqb_spec x 1) as [->|]; [rewrite E1; ring|].
  destruct (Z.eqb_spec x (-1)) as [->|]; [rewrite E3; ring|].
  destruct (Z.eqb_spec x 2) as [->|]; [rewrite E2; ring|].
  destruct (Z.eqb_spec x (-2)) as [->|]; [rewrite E4; ring|].
  rewrite mul_base_spec. ring.
Qed.

(** The value of a challenge at a table of powers: the sum over its terms. *)
Definition value_at (c : SparseChallenge) (pow : Z -> E) : E :=
  fsum (map (fun '(p, x) => embed (from_i64 x : F) * pow p) (terms c)).

Lemma eval_terms pows ts acc :
  Forall (fun '(p, x) => (0 <= p < len pows)%Z /\ x <> 0%Z) ts ->
  ofold (fun acc '(pos, coeff) =>
           if (len pows <=? pos)%Z then Err (InvalidInput "sparse challenge position out of range")
           else if (coeff =? 0)%Z
           then Err (InvalidInput "sparse challenge coefficients must be non-zero")
           else
             let* value := unwrap (index pows pos) in
             Ok (SparseChallenge.accumulate_small_signed (F := F) acc value coeff)) ts acc
  = Ok (acc + fsum (map (fun '(p, x) => embed (from_i64 x : F) * get pows p) ts)).
Proof.
  revert acc; induction ts as [|[p x] ts IH]; intros acc Hf; cbn [ofold map].
  { f_equal. change (acc = acc + 0). ring. }
  apply Forall_cons_1 in Hf as [[Hp Hx] Hf]. cbv beta iota.
  destruct (Z.leb_spec (len pows) p); [lia|]. destruct (Z.eqb_spec x 0); [done|].
  rewrite index_get by done. cbn [unwrap obind]. rewrite IH by done. f_equal.
  rewrite accumulate_spec, fsum_cons. ring.
Qed.

Lemma well_formed_terms D c :
  well_formed D c -> Forall (fun '(p, x) => (0 <= p < D)%Z /\ x <> 0%Z) (terms c).
Proof.
  intros [Hl Hp Hx _]. rewrite <-(terms_fst c Hl) in Hp. rewrite <-(terms_snd c Hl) in Hx.
  rewrite Forall_map in Hp, Hx. rewrite Forall_forall in *. intros [p x] Hin.
  split; [exact (Hp _ Hin) | exact (Hx _ Hin)].
Qed.

Lemma eval_value c pows :
  well_formed (len pows) c ->
  SparseChallenge.eval_at_pows (F := F) c pows = Ok (value_at c (get pows)).
Proof.
  intros Hw. unfold SparseChallenge.eval_at_pows.
  rewrite (proj2 (mismatch_spec c) (wf_lengths _ _ Hw)).
  rewrite eval_terms by (by apply well_formed_terms). f_equal. unfold value_at.
  change (0 + fsum (map (fun '(p, x) => embed (from_i64 x : F) * get pows p) (terms c))
          = fsum (map (fun '(p, x) => embed (from_i64 x : F) * get pows p) (terms c))). ring.
Qed.

Lemma value_at_ext D c f g :
  well_formed D c -> (forall p, (0 <= p < D)%Z -> f p = g p) -> value_at c f = value_at c g.
Proof.
  intros Hw Hfg. unfold value_at. f_equal. apply map_ext_in. intros [p x] Hin.
  pose proof (well_formed_terms D c Hw) as Ht. rewrite Forall_forall in Ht.
  destruct (Ht (p, x) Hin) as [Hp _]. by rewrite Hfg.
Qed.

(** The coefficients of the challenge as a ring element. *)
Definition dense (c : SparseChallenge) (k : Z) : F :=
  fsum (map (fun '(p, x) => if (p =? k)%Z then from_i64 x else 0) (terms c)).

Lemma value_dense D c alpha :
  well_formed D c -> value_at c (powZ alpha) = ev D alpha (dense c).
Proof.
  intros Hw. pose proof (well_formed_terms D c Hw) as Ht. unfold value_at, ev, dense. clear Hw.
  induction (terms c) as [|[p x] ts IH]; cbn [map].
  - transitivity (sumZ D (fun _ => 0 : E)); [by rewrite sumZ_zero|].
    apply sumZ_ext. intros k _. change (0 = embed (0 : F) * powZ alpha k). rewrite embed_zero. ring.
  - apply Forall_cons_1 in Ht as [[Hp _] Ht]. rewrite fsum_cons, IH by done.
    transitivity (sumZ D (fun k => embed (if (p =? k)%Z then from_i64 x else 0 : F) * powZ alpha k)
                  + sumZ D (fun k => embed (dense {| positions := map fst ts; coeffs := map snd ts |} k) * powZ alpha k)).
    + f_equal.
      * rewrite (sumZ_single D p) by (first [lia | intros k _ Hk; destruct (Z.eqb_spec p k); [lia|];
          rewrite embed_zero; ring]). by rewrite Z.eqb_refl.
      * apply sumZ_ext. intros k _. unfold dense, terms; cbn [positions coeffs].
        by rewrite zip_fst_snd.
    + rewrite <-sumZ_add. apply sumZ_ext. intros k _. rewrite fsum_cons, embed_add.
      unfold dense, terms; cbn [positions coeffs]. rewrite zip_fst_snd. ring.
Qed.
End evaluation.

(** * Subring embedding *)

Section embedding.
Context `{Allocator, CargoFeatures}.
Local Open Scope Z_scope.
Variables D s : Z.
Hypotheses (D_pos : 0 < D) (s_pos : 0 < s) (ambient_u32 : D * s <= 2 ^ 32).
Hypothesis granted : forall n, reserve_exact n = true.

Definition spread (c : SparseChallenge) : SparseChallenge :=
  {| positions := map (fun p => p * s) (positions c); coeffs := coeffs c |}.

Lemma spread_well_formed c : well_formed D c -> well_formed (D * s) (spread c).
Proof.
  intros [Hl Hp Hx Hn]. constructor; cbn [spread positions coeffs]; [by rewrite length_map| |done|].
  - rewrite Forall_map. eapply Forall_impl; [|exact Hp]. cbn. intros p Hb. nia.
  - change (map (fun p => p * s) (positions c)) with ((fun p => p * s) <$> positions c).
    apply NoDup_fmap_2; [|done]. intros p q Hpq. nia.
Qed.

Lemma embed_position_spec p : 0 <= p < D -> Challenges.embed_position s (D * s) p = Ok (p * s).
Proof.
  intros Hp. unfold Challenges.embed_position, checked_mul, usize.
  rewrite checked_u_in by (unfold in_u, USIZE_BITS; nia).
  destruct (Z.ltb_spec (p * s) (D * s)); [|nia]. by rewrite checked_u_in by (unfold in_u; nia).
Qed.

Lemma wf_u32 c : well_formed D c -> Forall (in_u 32) (positions c).
Proof. intros [_ Hp _ _]. eapply Forall_impl; [|exact Hp]. unfold in_u. cbn. nia. Qed.

Lemma embed_challenge_spec c :
  well_formed D c -> Challenges.embed_challenge D s (D * s) c = Ok (spread c).
Proof.
  intros Hw. unfold Challenges.embed_challenge.
  destruct (validate_spec D c) as [[_ ->]|[Hn _]]; [lia|by apply wf_u32|by right| |done].
  cbn [obind]. rewrite granted. cbn [spread]. destruct Hw as [_ Hp _ _].
  assert (Hps : omapM (Challenges.embed_position s (D * s)) (positions c) = Ok (map (fun p => p * s) (positions c))).
  { induction Hp as [|p ps Hp Hps IH]; cbn [omapM map]; [done|].
    by rewrite embed_position_spec, IH. }
  by rewrite Hps.
Qed.
End embedding.

(** * Batches *)

Lemma omapM_concat {Er A B} (f : A -> outcome Er B) (ls : list (list A)) :
  obind (omapM (omapM f) ls) (fun bs => Ok (concat bs)) = omapM f (concat ls).
Proof.
  assert (Happ : forall l1 l2, omapM f (l1 ++ l2) =
            let* a := omapM f l1 in let* b := omapM f l2 in Ok (a ++ b)).
  { intros l1 l2. induction l1 as [|x l1 IH]; cbn; [by destruct (omapM f l2)|].
    destruct (f x); cbn; [|done|done]. rewrite IH. destruct (omapM f l1); cbn; [|done|done].
    by destruct (omapM f l2). }
  induction ls as [|l ls IH]; [done|]. cbn [concat omapM]. rewrite Happ.
  destruct (omapM f l); cbn [obind]; [|done|done]. rewrite <-IH.
  by destruct (omapM (omapM f) ls).
Qed.

(** The number of challenges agrees with the layout. *)
Definition laid_out (c : Challenges) : Prop :=
  len (challenges c) = (num_live_blocks_per_claim c * num_claims c)%Z /\
  in_u USIZE_BITS (len (challenges c)).

Lemma from_sparse_spec cs blocks claims :
  in_u USIZE_BITS (len cs) -> len cs = (blocks * claims)%Z ->
  Challenges.from_sparse cs blocks claims =
    Ok {| challenges := cs; num_live_blocks_per_claim := blocks; num_claims := claims |}.
Proof.
  intros Hu Hl. unfold Challenges.from_sparse, checked_mul, usize.
  rewrite checked_u_in by (by rewrite <-Hl). cbn [ok_or obind]. by rewrite Hl, Z.eqb_refl.
Qed.

Lemma sum_terms (ls : list (list Z)) :
  in_u USIZE_BITS (checked.Zsum (map len ls)) ->
  checked.sum_from 0%Z (map len ls) = Some (checked.Zsum (map len ls)).
Proof.
  intros Hs.
  assert (Hall : (0 <= checked.Zsum (map len ls) /\
                 Forall (fun n => 0 <= n <= checked.Zsum (map len ls)) (map len ls))%Z).
  { clear Hs. induction ls as [|l ls [IH0 IH]]; cbn [map checked.Zsum foldr]; [by split|].
    fold (checked.Zsum (map len ls)). pose proof (len_nonneg l). split; [lia|].
    constructor; [lia|]. eapply Forall_impl; [|exact IH]. cbn. lia. }
  rewrite checked.sum_from_spec, Z.add_0_l.
  - unfold usize. by rewrite checked_u_in.
  - done.
  - eapply Forall_impl; [|exact (proj2 Hall)]. unfold in_u in *. cbn. lia.
Qed.

Section batch.
Context {F E : Type} `{FieldLaws F, !RingI64 F, !RingI64Laws F, !Field E, !FieldLaws E, !MulBase F E, !MulBaseLaws F E}.
Context `{Allocator, CargoFeatures}.
Hypothesis granted : forall n, reserve_exact n = true.
Add Ring Fring4 : (field_ring (E := F)).
Add Ring Ering4 : (field_ring (E := E)).

(** Every path computes the sequential result. *)
Lemma evals_sequential c (pows : list E) :
  in_u USIZE_BITS (checked.Zsum (map (fun ch => len (positions ch)) (challenges c))) ->
  Challenges.evals_at_pows (F := F) c pows =
    omapM (fun ch => SparseChallenge.eval_at_pows (F := F) ch pows) (challenges c).
Proof.
  intros Hs. unfold Challenges.evals_at_pows.
  destruct (feature_parallel && _)%bool; [|done].
  unfold Challenges.sparse_terms, checked.sum. rewrite <-(map_map positions len) in *.
  rewrite sum_terms by done. cbn [ok_or obind].
  destruct (_ <=? PARALLEL_COARSE_LEAF_TERMS)%Z; [done|]. rewrite granted, omapM_concat. f_equal.
  apply chunks_of_concat. lia.
Qed.
End batch.

Section batch_theorems.
Context {F E : Type} `{FieldLaws F, !RingI64 F, !RingI64Laws F, !Field E, !FieldLaws E, !MulBase F E, !MulBaseLaws F E}.
Context `{Allocator, CargoFeatures}.
Add Ring Fring5 : (field_ring (E := F)).
Add Ring Ering5 : (field_ring (E := E)).

Lemma value_spread D s c (alpha : E) :
  (0 < s)%Z -> well_formed D c ->
  value_at (F := F) (spread s c) (powZ alpha) = value_at (F := F) c (powZ (powZ alpha s)).
Proof.
  intros Hs Hw. pose proof (well_formed_terms D c Hw) as Ht. unfold value_at, terms, spread in *.
  cbn [positions coeffs] in *. revert Ht. generalize (coeffs c).
  induction (positions c) as [|p ps IH]; intros [|x xs] Ht; cbn [map zip zip_with]; try done.
  apply Forall_cons_1 in Ht as [[Hp _] Ht]. rewrite !fsum_cons, IH by done.
  rewrite powZ_mul by lia. by rewrite (Z.mul_comm s p).
Qed.

(** The table of strided powers. *)
Lemma strided_table (alpha : E) s D :
  (0 <= s < 2 ^ 64)%Z -> (0 < D)%Z ->
  exists table, scalar_powers_with_stride alpha s D = Ok table /\ len table = D /\
    forall p, (0 <= p < D)%Z -> get table p = powZ (powZ alpha s) p.
Proof.
  intros Hs HD. unfold scalar_powers_with_stride. destruct (Z.leb_spec D 1) as [HD1|HD1].
  - exists (scalar_powers alpha D). split; [done|]. split; [apply scalar_powers_len; lia|].
    intros p Hp. rewrite scalar_powers_get by lia. replace p with 0%Z by lia. done.
  - rewrite checked_u_in by done. cbn [ok_or obind]. eexists. split; [done|].
    split; [apply scalar_powers_len; lia|]. intros p Hp. rewrite scalar_powers_get by lia.
    unfold field_pow. rewrite field_pow_loop_spec by done.
    replace (1 * powZ alpha s) with (powZ alpha s) by ring. done.
Qed.

Lemma omapM_forall {Er A B} (f : A -> outcome Er B) (g : A -> B) (P : A -> Prop) l :
  (forall a, P a -> f a = Ok (g a)) -> Forall P l -> omapM f l = Ok (map g l).
Proof.
  intros Hf. induction 1 as [|a l Ha _ IH]; cbn [omapM map]; [done|]. by rewrite Hf, IH.
Qed.

(** Sums over well-formed challenges are bounded by [len * D]. *)
Lemma terms_bound D cs :
  Forall (well_formed D) cs -> (0 <= D)%Z ->
  (0 <= checked.Zsum (map (fun ch => len (positions ch)) cs) <= len cs * D)%Z.
Proof.
  intros Hw HD. induction Hw as [|c cs Hc _ IH]; cbn [map checked.Zsum foldr]; [unfold len; cbn; lia|].
  fold (checked.Zsum (map (fun ch => len (positions ch)) cs)). rewrite len_cons.
  pose proof (len_nonneg (positions c)). assert (len (positions c) <= D)%Z; [|lia].
  destruct Hc as [_ Hp _ Hn].
  assert (Hsub : (length (positions c) <= length (seqZ 0 D))%nat).
  { apply (submseteq_length (positions c)), NoDup_submseteq; [done|].
    intros p Hin. apply elem_of_seqZ. rewrite Forall_forall in Hp.
    apply list_elem_of_In in Hin. specialize (Hp p Hin). lia. }
  rewrite length_seqZ in Hsub. unfold len. lia.
Qed.

Lemma spread_all D s cs :
  (0 < s)%Z -> Forall (well_formed D) cs -> Forall (well_formed (D * s)) (map (spread s) cs).
Proof.
  intros Hs Hw. rewrite Forall_map. eapply Forall_impl; [|exact Hw]. intros. by apply spread_well_formed.
Qed.

Lemma positions_bound D c : well_formed D c -> (0 <= D)%Z -> (len (positions c) <= D)%Z.
Proof.
  intros Hw HD. pose proof (terms_bound D [c]) as Hb.
  cbn [map checked.Zsum foldr] in Hb. change (len [c]) with 1%Z in Hb.
  specialize (Hb ltac:(constructor; [exact Hw|constructor]) HD). lia.
Qed.

Lemma embed_batch D s c :
  (0 < D)%Z -> (0 < s)%Z -> (D * s <= 2 ^ 32)%Z ->
  (forall n, reserve_exact n = true) ->
  laid_out c -> Forall (well_formed D) (challenges c) ->
  (len (challenges c) * D < 2 ^ 64)%Z ->
  Challenges.embed_subring_positions c D s (D * s) =
    Ok {| challenges := map (spread s) (challenges c);
          num_live_blocks_per_claim := num_live_blocks_per_claim c; num_claims := num_claims c |}.
Proof.
  intros HD Hs Ha Hg [Hlay Hlen] Hw Hfit. unfold Challenges.embed_subring_positions.
  destruct (Z.eqb_spec D 0); [lia|]. destruct (Z.eqb_spec s 0); [lia|]. cbn [orb].
  unfold checked_mul at 1, usize. rewrite checked_u_in by (unfold in_u, USIZE_BITS; lia).
  rewrite Z.eqb_refl. cbn [negb].
  assert (Hwork : exists w, (if feature_parallel
      then ok_or (checked_mul (len (challenges c))
             match challenges c with [] => 0%Z | ch :: _ => len (positions ch) end)
             (InvalidInput "subring challenge embedding work overflow")
      else Ok 0%Z) = Ok w).
  { destruct feature_parallel; [|by eexists]. unfold checked_mul, usize.
    rewrite checked_u_in; [by eexists|]. destruct (challenges c) as [|ch cs] eqn:Ec; [by cbn|].
    apply Forall_cons_1 in Hw as [Hch _]. pose proof (positions_bound D ch Hch ltac:(lia)).
    pose proof (len_nonneg (positions ch)). pose proof (len_nonneg (ch :: cs)).
    unfold in_u, USIZE_BITS. nia. }
  destruct Hwork as [w ->]. cbn [obind].
  rewrite (omapM_forall _ (spread s) (well_formed D)) by
    (first [done | intros ch Hch; by apply embed_challenge_spec]).
  cbn [obind]. apply from_sparse_spec; unfold len in *; by rewrite length_map.
Qed.

Lemma evals_well_formed D c (table : list E) :
  (forall n, reserve_exact n = true) -> len table = D -> (0 <= D)%Z ->
  Forall (well_formed D) (challenges c) -> (len (challenges c) * D < 2 ^ 64)%Z ->
  Challenges.evals_at_pows (F := F) c table
    = Ok (map (fun ch => value_at (F := F) ch (get table)) (challenges c)).
Proof.
  intros Hg Hl HD Hw Hfit. pose proof (terms_bound D _ Hw HD).
  rewrite evals_sequential by (first [done | unfold in_u, USIZE_BITS; lia]).
  apply (omapM_forall _ _ (well_formed D)); [|done]. intros ch Hch.
  apply eval_value. by rewrite Hl.
Qed.

(** C40: embedding a batch of well-formed subring challenges of dimension [D]
    with stride [s] into the ring of dimension [D * s] succeeds in every build
    and keeps claims, blocks and their order; the embedded challenges are well
    formed there; and evaluating the embedded batch at the powers of [alpha]
    gives, challenge by challenge, what evaluating the original batch at the
    strided powers gives: the value at [alpha^s] of the ring element with the
    challenge's coefficients, whether or not the evaluation runs in parallel. *)
Theorem embed_subring_spec D s c :
  (0 < D)%Z -> (0 < s)%Z -> (D * s <= 2 ^ 32)%Z ->
  (forall n, reserve_exact n = true) ->
  laid_out c -> Forall (well_formed D) (challenges c) ->
  (len (challenges c) * (D * s) < 2 ^ 64)%Z ->
  exists c', Challenges.embed_subring_positions c D s (D * s) = Ok c' /\
    num_claims c' = num_claims c /\
    num_live_blocks_per_claim c' = num_live_blocks_per_claim c /\ laid_out c' /\
    Forall (well_formed (D * s)) (challenges c') /\
    forall alpha : E, exists table, scalar_powers_with_stride alpha s D = Ok table /\
      Challenges.evals_at_pows (F := F) c' (scalar_powers alpha (D * s))
        = Challenges.evals_at_pows (F := F) c table /\
      Challenges.evals_at_pows (F := F) c table
        = Ok (map (fun ch => ev D (powZ alpha s) (dense ch)) (challenges c)).
Proof.
  intros HD Hs Ha Hg Hlay Hw Hfit. pose proof (len_nonneg (challenges c)).
  eexists. split; [apply embed_batch; try done; nia|]. do 2 (split; [done|]). cbn [challenges].
  split; [destruct Hlay as [Hl1 Hl2]; split; unfold len in *; cbn; by rewrite length_map|].
  split; [by apply spread_all|]. intros alpha.
  destruct (strided_table alpha s D) as (table & Ht & Hl & Hget); [nia|done|]. exists table.
  split; [done|]. rewrite (evals_well_formed D c) by (done || lia || nia).
  assert (Hv : forall ch, ch ∈ challenges c ->
            value_at (F := F) ch (get table) = ev D (powZ alpha s) (dense ch)).
  { intros ch Hin. rewrite Forall_forall in Hw. apply list_elem_of_In in Hin.
    rewrite <-value_dense by auto. apply (value_at_ext D); auto. }
  assert (Hm : map (fun ch => value_at (F := F) ch (get table)) (challenges c)
               = map (fun ch => ev D (powZ alpha s) (dense ch)) (challenges c)).
  { apply map_ext_in. intros ch Hin. by apply Hv, list_elem_of_In. }
  rewrite Hm. split; [|done].
  rewrite (evals_well_formed (D * s)); cbn [challenges]; [|done|apply scalar_powers_len; lia|lia|by apply spread_all|].
  2:{ unfold len in *. by rewrite length_map. }
  f_equal. rewrite map_map. apply map_ext_in. intros ch Hin. rewrite Forall_forall in Hw.
  rewrite (value_at_ext (D * s) _ _ (powZ alpha)) by
    (first [by apply spread_well_formed, Hw | intros p Hp; by apply scalar_powers_get]).
  rewrite (value_spread D) by auto. apply value_dense. auto.
Qed.
End batch_theorems.

(** The blocks of one claim. *)
Definition claim_blocks (c : Challenges) (i : Z) : list SparseChallenge :=
  take (Z.to_nat (num_live_blocks_per_claim c))
    (drop (Z.to_nat (i * num_live_blocks_per_claim c)) (challenges c)).

Lemma claim_slice c i :
  laid_out c -> (0 <= i < num_claims c)%Z -> (0 <= num_live_blocks_per_claim c)%Z ->
  checked_mul i (num_live_blocks_per_claim c) = Some (i * num_live_blocks_per_claim c)%Z /\
  checked_add (i * num_live_blocks_per_claim c) (num_live_blocks_per_claim c)
    = Some (i * num_live_blocks_per_claim c + num_live_blocks_per_claim c)%Z /\
  slice (challenges c) (i * num_live_blocks_per_claim c)
    (i * num_live_blocks_per_claim c + num_live_blocks_per_claim c) = Some (claim_blocks c i) /\
  len (claim_blocks c i) = num_live_blocks_per_claim c.
Proof.
  intros [Hl Hu] Hi Hb. unfold in_u, USIZE_BITS in Hu. rewrite Hl in Hu.
  assert (i * num_live_blocks_per_claim c + num_live_blocks_per_claim c
          <= num_live_blocks_per_claim c * num_claims c)%Z by nia.
  assert (0 <= i * num_live_blocks_per_claim c)%Z by nia.
  unfold checked_mul, checked_add, usize. rewrite !checked_u_in by (unfold in_u, USIZE_BITS; lia).
  do 2 (split; [done|]). unfold slice. rewrite <-Hl in *. case_Z. split.
  - f_equal. unfold claim_blocks. f_equal. lia.
  - unfold claim_blocks, len in *. rewrite length_take, length_drop. lia.
Qed.

(** [select_claims] returns the blocks of the requested claims, in the
    requested order and with repetitions, laid out as that many claims. *)
Lemma select_claims_spec c indices :
  laid_out c -> (0 <= num_live_blocks_per_claim c)%Z ->
  Forall (fun i => 0 <= i < num_claims c)%Z indices ->
  in_u USIZE_BITS (num_live_blocks_per_claim c * len indices) ->
  Challenges.select_claims c indices =
    Ok {| challenges := concat (map (claim_blocks c) indices);
          num_live_blocks_per_claim := num_live_blocks_per_claim c; num_claims := len indices |}.
Proof.
  intros Hlay Hb Hi Hu. unfold Challenges.select_claims, checked_mul at 1, usize.
  rewrite checked_u_in by (by rewrite Z.mul_comm). cbn [ok_or obind].
  assert (Hloop : forall acc,
    ofold (fun selected claim_index =>
             let* start := ok_or (checked_mul claim_index (num_live_blocks_per_claim c)) (InvalidSetup "challenge offset overflow") in
             let* stop := ok_or (checked_add start (num_live_blocks_per_claim c)) (InvalidSetup "challenge offset overflow") in
             let* part := ok_or (slice (challenges c) start stop) (InvalidSize stop (len (challenges c))) in
             Ok (selected ++ part)) indices acc
    = Ok (acc ++ concat (map (claim_blocks c) indices)) /\
    len (concat (map (claim_blocks c) indices)) = (num_live_blocks_per_claim c * len indices)%Z).
  { clear Hu. induction Hi as [|i indices Hi _ IH]; intros acc; cbn [ofold map concat].
    - rewrite app_nil_r. split; [done|]. unfold len. cbn. lia.
    - destruct (claim_slice c i Hlay Hi Hb) as (E1 & E2 & E3 & E4). rewrite E1. cbn [ok_or obind].
      rewrite E2. cbn [ok_or obind]. rewrite E3. cbn [ok_or obind].
      destruct (IH (acc ++ claim_blocks c i)) as [-> Hlen]. rewrite <-app_assoc. split; [done|].
      rewrite len_app, len_cons, Hlen, E4. lia. }
  destruct (Hloop []) as [-> Hlen]. cbn [app obind]. apply from_sparse_spec; by rewrite Hlen.
Qed.

(** C39: validation decides the sampler invariants exactly: for [u32]
    positions and any ring dimension whose bitmap can be allocated,
    [validate_dyn] never panics and accepts a challenge if and only if the two
    term vectors have one length, every position is below the dimension, no
    coefficient is zero and no position repeats; every other challenge is
    rejected with an error. *)
Theorem validate_dyn_exact `{Allocator} ring_d c :
  (0 <= ring_d)%Z -> challenge_typed c ->
  (ring_d <= 2048)%Z \/ reserve_exact ((ring_d + 63) / 64) = true ->
  (well_formed ring_d c /\ SparseChallenge.validate_dyn ring_d c = Ok tt) \/
  (~ well_formed ring_d c /\ exists e, SparseChallenge.validate_dyn ring_d c = Err e).
Proof. intros Hd [Ht _] Hr. by apply validate_spec. Qed.

(** * Evaluation at concrete inputs *)

Import F97_fold.

Definition example_challenge : SparseChallenge := {| positions := [3; 0]%Z; coeffs := [-2; 1]%Z |}.
Definition example_batch : Challenges :=
  {| challenges := [example_challenge; {| positions := [2]%Z; coeffs := [5]%Z |}];
     num_live_blocks_per_claim := 1; num_claims := 2 |}.

Lemma example_well_formed : Forall (well_formed 4) (challenges example_batch).
Proof.
  repeat (apply Forall_cons_2; [constructor; cbn [positions coeffs example_challenge];
    [done | repeat constructor; lia | repeat constructor; lia | apply (bool_decide_unpack _); exact I]|]).
  constructor.
Qed.

Lemma validate_dyn_exact_witness :
  (well_formed 4 example_challenge /\
   SparseChallenge.validate_dyn (H := fun _ => true) 4 example_challenge = Ok tt) \/
  (~ well_formed 4 example_challenge /\
   exists e, SparseChallenge.validate_dyn (H := fun _ => true) 4 example_challenge = Err e).
Proof.
  apply (validate_dyn_exact (H := fun _ => true) 4 example_challenge); [lia| |by right].
  split; repeat constructor; unfold in_u, in_s; lia.
Defined.

Lemma embed_subring_spec_witness :
  exists c', Challenges.embed_subring_positions (H := fun _ => true) (H0 := true) example_batch 4 2 8 = Ok c' /\
    num_claims c' = 2%Z /\ num_live_blocks_per_claim c' = 1%Z /\ laid_out c' /\
    Forall (well_formed 8) (challenges c') /\
    forall alpha : F97.t, exists table, scalar_powers_with_stride alpha 2 4 = Ok table /\
      Challenges.evals_at_pows (F := F97.t) (H2 := fun _ => true) (H3 := true) c' (scalar_powers alpha 8)
        = Challenges.evals_at_pows (F := F97.t) (H2 := fun _ => true) (H3 := true) example_batch table /\
      Challenges.evals_at_pows (F := F97.t) (H2 := fun _ => true) (H3 := true) example_batch table
        = Ok (map (fun ch => ev 4 (powZ alpha 2) (dense ch)) (challenges example_batch)).
Proof.
  apply (embed_subring_spec (F := F97.t) (E := F97.t) (H1 := fun _ => true) (H2 := true) 4 2 example_batch);
    [lia|lia|lia|done|by split|apply example_well_formed|unfold len; cbn; lia].
Defined.
