(* ===== verification/Xof.v ===== *)
(** [akita-challenges/src/sampler/xof.rs]: the SHAKE256 stream of one fold
    coordinate and the buffered cursor that the sampler draws from.  The
    permutation [keccak::f1600] is external; the stream is compared with the
    SHAKE256 sponge over it. *)

From S2P Require Import Prelude Checked.

Definition SHAKE256_RATE : Z := 136.
Definition SHAKE_DOMAIN_SUFFIX : Z := 31.
Definition GROUP_ROOT_LEN : Z := 32.
Definition COORDINATE_INPUT_LEN : Z := GROUP_ROOT_LEN + 8.
Definition XOF_BUFFER_SIZE : Z := 128.

(** [keccak::f1600] on 25 lanes of 64 bits. *)
Class Keccak := f1600 : list Z -> list Z.
Definition lanes_ok (state : list Z) : Prop := len state = 25 /\ Forall (in_u 64) state.
Class KeccakLaws `{Keccak} := f1600_lanes state : lanes_ok state -> lanes_ok (f1600 state).

(** * The absorbed prefix *)

Definition xor_state_byte {Er} (state : list Z) (i byte : Z) : outcome Er (list Z) :=
  update state (i / 8) (fun lane => Z.lxor lane (Z.shiftl byte (8 * (i mod 8)))).

Definition absorb_bytes {Er} (state : list Z) (offset : Z) (bytes : list Z) : outcome Er (list Z) :=
  ofold (fun state '(i, byte) => xor_state_byte state (offset + i) byte)
    (zip (range (len bytes)) bytes) state.

Record IndexedXofPrefix := { prefix_state : list Z }.
Record IndexedShakeReader := { reader_state : list Z; reader_pos : Z }.

Module IndexedXofPrefix.

Definition new (seed : list Z) : outcome string IndexedXofPrefix :=
  if negb (len seed =? GROUP_ROOT_LEN)
  then Err "indexed sparse challenge group root must be exactly 32 bytes"%string
  else
    let* state := absorb_bytes (replicate 25 0) 0 seed in
    Ok {| prefix_state := state |}.

Definition reader `{Keccak} {Er} (p : IndexedXofPrefix) (coordinate_index : Z)
  : outcome Er IndexedShakeReader :=
  let* state := absorb_bytes (prefix_state p) GROUP_ROOT_LEN (to_le_bytes 8 coordinate_index) in
  let* state := xor_state_byte state COORDINATE_INPUT_LEN SHAKE_DOMAIN_SUFFIX in
  let* state := xor_state_byte state (SHAKE256_RATE - 1) 128 in
  Ok {| reader_state := f1600 state; reader_pos := 0 |}.

End IndexedXofPrefix.

Module IndexedShakeReader.
Section reader.
Context `{Keccak} {Er : Type}.

(** [while self.pos < end]: one lane, or the part of it before [stop], per
    round.  The bytes written so far are [out]; every round advances, so the
    distance to [stop] is enough fuel. *)
Fixpoint copy_lanes (fuel : nat) (state : list Z) (pos stop : Z) (out : list Z)
  : outcome Er (list Z) :=
  if pos <? stop then
    match fuel with
    | O => Panic
    | S fuel =>
        let* lane := unwrap (index state (pos / 8)) in
        let lane_offset := pos mod 8 in
        let lane_take := Z.min (8 - lane_offset) (stop - pos) in
        let* part := unwrap (slice (to_le_bytes 8 lane) lane_offset (lane_offset + lane_take)) in
        copy_lanes fuel state (pos + lane_take) stop (out ++ part)
    end
  else Ok out.

(** [while written < out.len()]; every round writes at least one byte. *)
Fixpoint read_loop (fuel : nat) (n : Z) (r : IndexedShakeReader) (out : list Z)
  : outcome Er (list Z * IndexedShakeReader) :=
  if len out <? n then
    match fuel with
    | O => Panic
    | S fuel =>
        let r := if reader_pos r =? SHAKE256_RATE
                 then {| reader_state := f1600 (reader_state r); reader_pos := 0 |} else r in
        let available := SHAKE256_RATE - reader_pos r in
        let take := Z.min available (n - len out) in
        let stop := reader_pos r + take in
        let* out := copy_lanes (Z.to_nat take) (reader_state r) (reader_pos r) stop out in
        read_loop fuel n {| reader_state := reader_state r; reader_pos := stop |} out
    end
  else Ok (out, r).

(** [read(&mut out)] for a buffer of [n] bytes, which it overwrites. *)
Definition read (r : IndexedShakeReader) (n : Z) : outcome Er (list Z * IndexedShakeReader) :=
  read_loop (Z.to_nat n) n r [].
End reader.
End IndexedShakeReader.

(** * The buffered cursor *)

Record XofCursor := {
  cursor_reader : IndexedShakeReader;
  cursor_buf : list Z;
  cursor_pos : Z;
  cursor_len : Z;
}.

Module XofCursor.
Section cursor.
Context `{Keccak} {Er : Type}.

Definition new : XofCursor :=
  {| cursor_reader := {| reader_state := replicate 25 0; reader_pos := SHAKE256_RATE |};
     cursor_buf := replicate (Z.to_nat XOF_BUFFER_SIZE) 0; cursor_pos := 0; cursor_len := 0 |}.

Definition refill (c : XofCursor) : outcome Er XofCursor :=
  let* (buf, r) := IndexedShakeReader.read (cursor_reader c) (len (cursor_buf c)) in
  Ok {| cursor_reader := r; cursor_buf := buf; cursor_pos := 0; cursor_len := XOF_BUFFER_SIZE |}.

Definition reset_indexed_prefix (c : XofCursor) (p : IndexedXofPrefix) (coordinate_index : Z)
  : outcome Er XofCursor :=
  let* r := IndexedXofPrefix.reader p coordinate_index in
  refill {| cursor_reader := r; cursor_buf := cursor_buf c; cursor_pos := 0; cursor_len := 0 |}.

Definition with_pos (c : XofCursor) (pos : Z) : XofCursor :=
  {| cursor_reader := cursor_reader c; cursor_buf := cursor_buf c;
     cursor_pos := pos; cursor_len := cursor_len c |}.

Definition next_u8 (c : XofCursor) : outcome Er (Z * XofCursor) :=
  let* c := if cursor_len c <=? cursor_pos c then refill c else Ok c in
  let* b := unwrap (index (cursor_buf c) (cursor_pos c)) in
  Ok (b, with_pos c (cursor_pos c + 1)).

(** [while off < out.len()] *)
Fixpoint fill_loop (fuel : nat) (n : Z) (c : XofCursor) (out : list Z)
  : outcome Er (list Z * XofCursor) :=
  if len out <? n then
    match fuel with
    | O => Panic
    | S fuel =>
        let* c := if cursor_len c <=? cursor_pos c then refill c else Ok c in
        let avail := cursor_len c - cursor_pos c in
        let take := Z.min avail (n - len out) in
        let* part := unwrap (slice (cursor_buf c) (cursor_pos c) (cursor_pos c + take)) in
        fill_loop fuel n (with_pos c (cursor_pos c + take)) (out ++ part)
    end
  else Ok (out, c).
Definition fill_bytes (c : XofCursor) (n : Z) : outcome Er (list Z * XofCursor) :=
  fill_loop (Z.to_nat n) n c [].

(** [for b in &mut tmp] *)
Definition next_bytes (n : Z) (c : XofCursor) : outcome Er (list Z * XofCursor) :=
  ofold (fun '(out, c) _ => let* (b, c) := next_u8 c in Ok (out ++ [b], c)) (range n) ([], c).

Definition next_u32 (c : XofCursor) : outcome Er (Z * XofCursor) :=
  if cursor_pos c + 4 <=? cursor_len c then
    let* part := unwrap (slice (cursor_buf c) (cursor_pos c) (cursor_pos c + 4)) in
    Ok (from_le_bytes part, with_pos c (cursor_pos c + 4))
  else
    let* (tmp, c) := next_bytes 4 c in
    Ok (from_le_bytes tmp, c).

(** One candidate of a rejection loop: a masked read of one, two or four
    bytes. *)
Definition candidate (bits : Z) (c : XofCursor) : outcome Er (Z * XofCursor) :=
  let mask := Z.shiftl 1 bits - 1 in
  if bits <=? 8 then
    let* (b, c) := next_u8 c in
    Ok (Z.land b mask, c)
  else if bits <=? 16 then
    let* (lo, c) := next_u8 c in
    let* (hi, c) := next_u8 c in
    Ok (Z.land (Z.lor lo (Z.shiftl hi 8)) mask, c)
  else
    let* (x, c) := next_u32 c in
    Ok (Z.land x mask, c).

(** The three [loop]s.  The number of attempts has no bound in the code; a
    draw that still rejects after [fuel] attempts is [Panic] here. *)
Fixpoint rejection (fuel : nat) (bits modulus : Z) (c : XofCursor) : outcome Er (Z * XofCursor) :=
  match fuel with
  | O => Panic
  | S fuel =>
      let* (val, c) := candidate bits c in
      if val <? modulus then Ok (val, c) else rejection fuel bits modulus c
  end.

(** [usize::BITS - (modulus - 1).leading_zeros()] *)
Definition draw_bits (modulus : Z) : Z := Z.log2 (modulus - 1) + 1.

Definition next_usize_mod (fuel : nat) (c : XofCursor) (modulus : Z) : outcome Er (Z * XofCursor) :=
  if modulus =? 1 then Ok (0, c) else rejection fuel (draw_bits modulus) modulus c.
End cursor.
End XofCursor.

(** * The byte stream of a sponge state *)

Definition lane_bytes (state : list Z) : list Z := concat (map (to_le_bytes 8) state).

Lemma length_lane_bytes state : length (lane_bytes state) = (8 * length state)%nat.
Proof.
  induction state as [|a state IH]; [done|]. unfold lane_bytes in *. cbn [map concat length].
  rewrite length_app, length_to_le_bytes, IH. lia.
Qed.

(** The part of one lane is the part of the byte view at its position. *)
Lemma lane_part state pos lane t :
  0 <= pos -> index state (pos / 8) = Some lane -> 0 <= t -> pos mod 8 + t <= 8 ->
  slice (to_le_bytes 8 lane) (pos mod 8) (pos mod 8 + t)
    = Some (take (Z.to_nat t) (drop (Z.to_nat pos) (lane_bytes state))).
Proof.
  intros Hp Hi Ht Hle. assert (0 <= pos mod 8 < 8) by (apply Z.mod_pos_bound; lia).
  assert (0 <= pos / 8) by (apply Z.div_pos; lia).
  unfold slice, len. rewrite length_to_le_bytes. case_Z. f_equal.
  unfold index in Hi. destruct (Z.leb_spec 0 (pos / 8)); [|lia].
  apply list_elem_of_split_length in Hi as (l1 & l2 & -> & Hl).
  unfold lane_bytes. rewrite map_app, concat_app. cbn [map concat].
  replace (Z.to_nat pos) with (length (concat (map (to_le_bytes 8) l1)) + Z.to_nat (pos mod 8))%nat.
  2:{ fold (lane_bytes l1). rewrite length_lane_bytes, <-Hl. pose proof (Z.div_mod pos 8). lia. }
  rewrite <-drop_drop, drop_app_length, drop_app_le by (rewrite length_to_le_bytes; lia).
  rewrite take_app_le by (rewrite length_drop, length_to_le_bytes; lia). f_equal. lia.
Qed.

Section stream.
Context `{KeccakLaws}.

Lemma copy_lanes_spec {Er} fuel state pos stop out :
  0 <= pos -> stop <= 8 * len state -> stop - pos <= Z.of_nat fuel ->
  IndexedShakeReader.copy_lanes (Er := Er) fuel state pos stop out
    = Ok (out ++ take (Z.to_nat (stop - pos)) (drop (Z.to_nat pos) (lane_bytes state))).
Proof.
  revert pos out; induction fuel as [|fuel IH]; intros pos out Hp Hs Hf; cbn [IndexedShakeReader.copy_lanes].
  - destruct (Z.ltb_spec pos stop); [lia|]. replace (Z.to_nat (stop - pos)) with O by lia.
    by rewrite take_0, app_nil_r.
  - destruct (Z.ltb_spec pos stop) as [Hlt|Hge].
    2:{ replace (Z.to_nat (stop - pos)) with O by lia. by rewrite take_0, app_nil_r. }
    assert (0 <= pos mod 8 < 8) by (apply Z.mod_pos_bound; lia).
    destruct (index_is_Some state (pos / 8)) as [lane Hl].
    { split; [apply Z.div_pos; lia|]. apply Z.div_lt_upper_bound; lia. }
    rewrite Hl. cbn [unwrap obind].
    rewrite (lane_part state) by (done || lia). cbn [unwrap obind]. rewrite IH by lia.
    set (t := Z.min (8 - pos mod 8) (stop - pos)). assert (0 < t <= stop - pos) by lia.
    rewrite <-app_assoc. do 2 f_equal.
    replace (Z.to_nat (stop - pos)) with (Z.to_nat t + Z.to_nat (stop - (pos + t)))%nat by lia.
    rewrite <-take_take_drop, drop_drop. do 3 f_equal. lia.
Qed.

(** Byte [n] of the stream whose first block is that of [st0]. *)
Definition stream (st0 : list Z) (n : Z) : Z :=
  nth (Z.to_nat (n mod SHAKE256_RATE)) (lane_bytes (Nat.iter (Z.to_nat (n / SHAKE256_RATE)) f1600 st0)) 0.

(** The [k] bytes from byte [n] on. *)
Definition segment (st0 : list Z) (n k : Z) : list Z := map (stream st0) (seqZ n k).

Lemma segment_app st0 n k1 k2 :
  0 <= k1 -> 0 <= k2 -> segment st0 n (k1 + k2) = segment st0 n k1 ++ segment st0 (n + k1) k2.
Proof. intros. unfold segment. by rewrite seqZ_app, map_app. Qed.

Lemma len_segment st0 n k : 0 <= k -> len (segment st0 n k) = k.
Proof. intros. unfold segment, len. rewrite length_map, length_seqZ. lia. Qed.

Lemma iter_lanes st0 n : lanes_ok st0 -> lanes_ok (Nat.iter n f1600 st0).
Proof. intros Hs. induction n as [|n IH]; [done|]. cbn. by apply f1600_lanes. Qed.

(** A part of one block. *)
Lemma block_segment st0 q r t :
  lanes_ok st0 -> 0 <= q -> 0 <= r -> 0 <= t -> r + t <= SHAKE256_RATE ->
  take (Z.to_nat t) (drop (Z.to_nat r) (lane_bytes (Nat.iter (Z.to_nat q) f1600 st0)))
  = segment st0 (SHAKE256_RATE * q + r) t.
Proof.
  unfold SHAKE256_RATE. intros Hs Hq Hr Ht Hle. destruct (iter_lanes st0 (Z.to_nat q) Hs) as [Hl _].
  apply list_eq_same_length with (Z.to_nat t); [unfold segment; rewrite length_map, length_seqZ; lia| |].
  { rewrite length_take, length_drop, length_lane_bytes. unfold len in Hl. lia. }
  intros i x y Hi Hx Hy. unfold segment in Hy.
  change (map ?f ?l) with (f <$> l) in Hy. apply list_lookup_fmap_Some in Hy as (m & -> & Hm).
  apply lookup_seqZ in Hm as [-> Hm]. rewrite lookup_take_lt, lookup_drop in Hx by lia.
  unfold stream, SHAKE256_RATE.
  replace (136 * q + r + Z.of_nat i) with (r + Z.of_nat i + q * 136) by lia.
  rewrite Z.mod_add, Z.div_add, Z.mod_small, Z.div_small, Z.add_0_l by lia.
  replace (Z.to_nat (r + Z.of_nat i)) with (Z.to_nat r + i)%nat by lia.
  by erewrite nth_lookup_Some by exact Hx.
Qed.
End stream.

(** * The reader and the cursor follow the stream *)

Section follow.
Context `{KeccakLaws}.
Variable st0 : list Z.
Hypothesis st0_ok : lanes_ok st0.

(** The reader has delivered [n] bytes; at the end of a block the permutation
    is still to come. *)
Definition reader_at (n : Z) (r : IndexedShakeReader) : Prop :=
  exists q, 0 <= q /\ reader_state r = Nat.iter (Z.to_nat q) f1600 st0 /\
    0 <= reader_pos r <= SHAKE256_RATE /\ n = SHAKE256_RATE * q + reader_pos r.

Lemma reader_step n r : reader_at n r ->
  exists q, 0 <= q /\
  let r' := if reader_pos r =? SHAKE256_RATE
            then {| reader_state := f1600 (reader_state r); reader_pos := 0 |} else r in
  reader_state r' = Nat.iter (Z.to_nat q) f1600 st0 /\
  0 <= reader_pos r' < SHAKE256_RATE /\ n = SHAKE256_RATE * q + reader_pos r'.
Proof.
  intros (q & Hq & Hs & Hp & Hn). unfold SHAKE256_RATE in *. destruct (Z.eqb_spec (reader_pos r) 136) as [He|He].
  - exists (q + 1). split; [lia|]. cbv zeta. cbn [reader_state reader_pos]. rewrite Hs.
    rewrite Z2Nat.inj_add, Nat.add_1_r by lia. split; [done|]. lia.
  - exists q. split; [done|]. split; [done|]. lia.
Qed.

Lemma read_loop_spec {Er} fuel n m r out :
  reader_at m r -> n - len out <= Z.of_nat fuel -> len out <= n ->
  exists r', IndexedShakeReader.read_loop (Er := Er) fuel n r out
      = Ok (out ++ segment st0 m (n - len out), r') /\ reader_at (m + (n - len out)) r'.
Proof.
  revert m r out; induction fuel as [|fuel IH]; intros m r out Hr Hf Hle;
    cbn [IndexedShakeReader.read_loop].
  - destruct (Z.ltb_spec (len out) n); [lia|]. replace (n - len out) with 0 by lia.
    exists r. unfold segment. by rewrite app_nil_r, Z.add_0_r.
  - destruct (Z.ltb_spec (len out) n) as [Hlt|Hge].
    2:{ replace (n - len out) with 0 by lia. exists r. unfold segment. by rewrite app_nil_r, Z.add_0_r. }
    destruct (reader_step m r Hr) as (q & Hq & Hs & Hp & Hm). cbv zeta in *.
    set (r1 := if reader_pos r =? SHAKE256_RATE then _ else r) in *.
    set (t := Z.min (SHAKE256_RATE - reader_pos r1) (n - len out)).
    assert (0 < t <= n - len out /\ reader_pos r1 + t <= SHAKE256_RATE) as [Ht Hle'] by lia.
    destruct (iter_lanes st0 (Z.to_nat q) st0_ok) as [Hl25 _]. rewrite <-Hs in Hl25.
    rewrite copy_lanes_spec by (unfold SHAKE256_RATE in *; lia). cbn [obind].
    replace (reader_pos r1 + t - reader_pos r1) with t by lia.
    rewrite Hs, block_segment, <-Hm by (done || lia).
    destruct (IH (m + t) {| reader_state := Nat.iter (Z.to_nat q) f1600 st0; reader_pos := reader_pos r1 + t |}
                (out ++ segment st0 m t)) as (r' & -> & Hr').
    + exists q. cbn [reader_state reader_pos]. repeat split; try done; lia.
    + rewrite len_app, len_segment; lia.
    + rewrite len_app, len_segment; lia.
    + rewrite len_app, len_segment in * by lia. exists r'. split.
      * rewrite <-app_assoc. do 3 f_equal.
        replace (n - len out) with (t + (n - (len out + t))) by lia. rewrite segment_app by lia. done.
      * replace (m + (n - len out)) with (m + t + (n - (len out + t))) by lia. done.
Qed.

Lemma read_spec {Er} n m r :
  reader_at m r -> 0 <= n ->
  exists r', IndexedShakeReader.read (Er := Er) r n = Ok (segment st0 m n, r') /\ reader_at (m + n) r'.
Proof.
  intros Hr Hn. unfold IndexedShakeReader.read.
  destruct (read_loop_spec (Er := Er) (Z.to_nat n) n m r [] Hr) as (r' & He & Hr'); [change (len []) with 0; lia..|].
  exists r'. change (len []) with 0 in *. by rewrite Z.sub_0_r in *.
Qed.

(** The cursor delivers byte [n] next. *)
Definition cursor_at (n : Z) (c : XofCursor) : Prop :=
  exists m, reader_at m (cursor_reader c) /\ 0 <= m - XOF_BUFFER_SIZE /\
    cursor_buf c = segment st0 (m - XOF_BUFFER_SIZE) XOF_BUFFER_SIZE /\
    cursor_len c = XOF_BUFFER_SIZE /\ 0 <= cursor_pos c <= XOF_BUFFER_SIZE /\
    n = m - XOF_BUFFER_SIZE + cursor_pos c.

Lemma refill_spec {Er} m c :
  reader_at m (cursor_reader c) -> len (cursor_buf c) = XOF_BUFFER_SIZE -> 0 <= m ->
  exists c', XofCursor.refill (Er := Er) c = Ok c' /\ cursor_at m c' /\ cursor_pos c' = 0.
Proof.
  intros Hr Hl Hm. unfold XofCursor.refill. rewrite Hl.
  destruct (read_spec (Er := Er) XOF_BUFFER_SIZE m _ Hr) as (r' & -> & Hr'); [done|].
  eexists. split; [done|]. split; [|done]. exists (m + XOF_BUFFER_SIZE).
  cbn [cursor_reader cursor_buf cursor_pos cursor_len]. unfold XOF_BUFFER_SIZE in *.
  replace (m + 128 - 128) with m by lia. repeat split; try done; lia.
Qed.

(** After the refill test the next byte is in the buffer. *)
Lemma ready {Er} n c : cursor_at n c ->
  exists c', (if cursor_len c <=? cursor_pos c then XofCursor.refill (Er := Er) c else Ok c) = Ok c' /\
    cursor_at n c' /\ cursor_pos c' < XOF_BUFFER_SIZE.
Proof.
  intros (m & Hr & Hm & Hb & Hl & Hp & Hn). rewrite Hl. unfold XOF_BUFFER_SIZE in *.
  destruct (Z.leb_spec 128 (cursor_pos c)).
  - destruct (refill_spec (Er := Er) m c Hr) as (c' & Hc & Hat & Hp'); [|lia|].
    + rewrite Hb. apply len_segment. done.
    + exists c'. split; [done|]. replace n with m by lia. split; [done|]. rewrite Hp'. lia.
  - exists c. split; [done|]. split; [|lia]. by exists m.
Qed.

(** The unread part of the buffer. *)
Lemma buffer_part n c t :
  cursor_at n c -> 0 <= t -> cursor_pos c + t <= XOF_BUFFER_SIZE ->
  slice (cursor_buf c) (cursor_pos c) (cursor_pos c + t) = Some (segment st0 n t) /\
  cursor_at (n + t) (XofCursor.with_pos c (cursor_pos c + t)).
Proof.
  intros (m & Hr & Hm & Hb & Hl & Hp & Hn) Ht Hle. split.
  - unfold slice. rewrite Hb, len_segment by done. case_Z. f_equal.
    replace XOF_BUFFER_SIZE with (cursor_pos c + (t + (XOF_BUFFER_SIZE - cursor_pos c - t))) at 2 by lia.
    rewrite !segment_app by lia. rewrite drop_app_length'.
    + rewrite take_app_length'; [by f_equal; lia|]. unfold segment. rewrite length_map, length_seqZ. lia.
    + unfold segment. rewrite length_map, length_seqZ. lia.
  - exists m. cbn [XofCursor.with_pos cursor_reader cursor_buf cursor_pos cursor_len].
    repeat split; try done; lia.
Qed.

Lemma next_u8_spec {Er} n c : cursor_at n c ->
  exists c', XofCursor.next_u8 (Er := Er) c = Ok (stream st0 n, c') /\ cursor_at (n + 1) c'.
Proof.
  intros Hc. unfold XofCursor.next_u8. destruct (ready (Er := Er) n c Hc) as (c1 & -> & Hat & Hp).
  cbn [obind]. destruct (buffer_part n c1 1 Hat) as [Hs Hat']; [lia|lia|].
  assert (Hi : index (cursor_buf c1) (cursor_pos c1) = Some (stream st0 n)).
  { unfold slice in Hs. destruct ((_ && _)%bool); [|done]. injection Hs as Hs.
    replace (cursor_pos c1 + 1 - cursor_pos c1) with 1 in Hs by lia.
    destruct Hat as (m & _ & _ & _ & _ & Hpos & _). unfold index. destruct (Z.leb_spec 0 (cursor_pos c1)); [|lia].
    destruct (drop (Z.to_nat (cursor_pos c1)) (cursor_buf c1)) as [|x rest] eqn:Ed; [done|].
    cbn in Hs. injection Hs as ->. rewrite <-(Nat.add_0_r (Z.to_nat (cursor_pos c1))), <-lookup_drop.
    by rewrite Ed. }
  rewrite Hi. by eexists.
Qed.

Lemma fill_loop_spec {Er} fuel k n c out :
  cursor_at n c -> k - len out <= Z.of_nat fuel -> len out <= k ->
  exists c', XofCursor.fill_loop (Er := Er) fuel k c out
      = Ok (out ++ segment st0 n (k - len out), c') /\ cursor_at (n + (k - len out)) c'.
Proof.
  revert n c out; induction fuel as [|fuel IH]; intros n c out Hc Hf Hle; cbn [XofCursor.fill_loop].
  - destruct (Z.ltb_spec (len out) k); [lia|]. replace (k - len out) with 0 by lia.
    exists c. unfold segment. by rewrite app_nil_r, Z.add_0_r.
  - destruct (Z.ltb_spec (len out) k) as [Hlt|Hge].
    2:{ replace (k - len out) with 0 by lia. exists c. unfold segment. by rewrite app_nil_r, Z.add_0_r. }
    destruct (ready (Er := Er) n c Hc) as (c1 & -> & Hat & Hp). cbn [obind].
    assert (Hl : cursor_len c1 = XOF_BUFFER_SIZE) by (by destruct Hat as (? & ? & ? & ? & ? & ?)).
    rewrite Hl. set (t := Z.min (XOF_BUFFER_SIZE - cursor_pos c1) (k - len out)).
    destruct (buffer_part n c1 t Hat) as [-> Hat']; [lia|lia|]. cbn [unwrap obind].
    destruct (IH (n + t) _ (out ++ segment st0 n t) Hat') as (c' & -> & Hc').
    + rewrite len_app, len_segment; lia.
    + rewrite len_app, len_segment; lia.
    + rewrite len_app, len_segment in * by lia. exists c'. split.
      * rewrite <-app_assoc. do 3 f_equal.
        replace (k - len out) with (t + (k - (len out + t))) by lia. rewrite segment_app by lia. done.
      * replace (n + (k - len out)) with (n + t + (k - (len out + t))) by lia. done.
Qed.

Lemma fill_bytes_spec {Er} k n c : cursor_at n c -> 0 <= k ->
  exists c', XofCursor.fill_bytes (Er := Er) c k = Ok (segment st0 n k, c') /\ cursor_at (n + k) c'.
Proof.
  intros Hc Hk. unfold XofCursor.fill_bytes.
  destruct (fill_loop_spec (Er := Er) (Z.to_nat k) k n c [] Hc) as (c' & He & Hc'); [change (len []) with 0; lia..|].
  exists c'. change (len []) with 0 in *. by rewrite Z.sub_0_r in *.
Qed.

Lemma next_bytes_spec {Er} k n c : cursor_at n c -> 0 <= k ->
  exists c', XofCursor.next_bytes (Er := Er) k c = Ok (segment st0 n k, c') /\ cursor_at (n + k) c'.
Proof.
  intros Hc Hk. unfold XofCursor.next_bytes.
  destruct (ofold_range (fun i '(out, c') => out = segment st0 n i /\ cursor_at (n + i) c')
    (fun '(out, c) (_ : Z) => let* (b, c) := XofCursor.next_u8 (Er := Er) c in Ok (out ++ [b], c)) k ([], c))
    as ([out c'] & He & -> & Hat); [done|by rewrite Z.add_0_r| |by exists c'].
  intros i [out c1] Hi [-> Hat]. destruct (next_u8_spec (Er := Er) _ _ Hat) as (c2 & -> & Hat2).
  cbn [obind]. eexists. split; [done|]. rewrite segment_app by lia. by rewrite Z.add_assoc.
Qed.

Lemma next_u32_spec {Er} n c : cursor_at n c ->
  exists c', XofCursor.next_u32 (Er := Er) c = Ok (from_le_bytes (segment st0 n 4), c') /\
    cursor_at (n + 4) c'.
Proof.
  intros Hc. unfold XofCursor.next_u32.
  assert (Hl : cursor_len c = XOF_BUFFER_SIZE) by (by destruct Hc as (? & ? & ? & ? & ? & ?)).
  rewrite Hl. destruct (Z.leb_spec (cursor_pos c + 4) XOF_BUFFER_SIZE).
  - destruct (buffer_part n c 4 Hc) as [-> Hat]; [lia|lia|]. by eexists.
  - destruct (next_bytes_spec (Er := Er) 4 n c Hc) as (c' & -> & Hat); [lia|]. by eexists.
Qed.
End follow.

(** * SHAKE256 *)

(** The padding: the domain suffix, zeros up to a multiple of the rate, and
    the top bit of the last byte. *)
Definition shake_pad (msg : list Z) : list Z :=
  let padded := msg ++ [SHAKE_DOMAIN_SUFFIX]
                ++ replicate (Z.to_nat ((SHAKE256_RATE - 1 - len msg) mod SHAKE256_RATE)) 0 in
  alter (fun b => Z.lxor b 128) (length padded - 1)%nat padded.

(** One block xored into the rate part of the state. *)
Definition lanes_of (bytes : list Z) : list Z := map from_le_bytes (chunks_of 8 bytes).
Definition xor_block (state block : list Z) : list Z :=
  zip_with Z.lxor state (lanes_of (block ++ replicate 64 0)).

Definition shake256_state `{Keccak} (msg : list Z) : list Z :=
  foldl (fun state block => f1600 (xor_block state block)) (replicate 25 0)
    (chunks_of 136 (shake_pad msg)).

(** Squeezing [k] bytes, a block of the rate at a time. *)
Fixpoint squeeze_blocks `{Keccak} (blocks : nat) (state : list Z) : list Z :=
  match blocks with
  | O => []
  | S blocks => take 136 (lane_bytes state) ++ squeeze_blocks blocks (f1600 state)
  end.
Definition shake256 `{Keccak} (msg : list Z) (k : Z) : list Z :=
  take (Z.to_nat k) (squeeze_blocks (Z.to_nat (k / SHAKE256_RATE + 1)) (shake256_state msg)).

Section shake.
Context `{KeccakLaws}.

Lemma segment_blocks st0 n : lanes_ok st0 ->
  forall q, 0 <= q -> segment st0 (SHAKE256_RATE * q) (SHAKE256_RATE * Z.of_nat n)
    = squeeze_blocks n (Nat.iter (Z.to_nat q) f1600 st0).
Proof.
  intros Hs. induction n as [|n IH]; intros q Hq; [done|].
  replace (SHAKE256_RATE * Z.of_nat (S n)) with (SHAKE256_RATE + SHAKE256_RATE * Z.of_nat n) by lia.
  rewrite segment_app by (unfold SHAKE256_RATE; lia). cbn [squeeze_blocks]. f_equal.
  - pose proof (block_segment st0 q 0 SHAKE256_RATE Hs Hq) as Hb. rewrite Z.add_0_r in Hb.
    rewrite <-Hb by (unfold SHAKE256_RATE; lia). done.
  - replace (SHAKE256_RATE * q + SHAKE256_RATE) with (SHAKE256_RATE * (q + 1)) by lia.
    rewrite IH by lia. by rewrite Z2Nat.inj_add, Nat.add_1_r by lia.
Qed.

Lemma segment_shake msg k : lanes_ok (shake256_state msg) -> 0 <= k ->
  segment (shake256_state msg) 0 k = shake256 msg k.
Proof.
  intros Hs Hk. unfold shake256.
  assert (0 <= k / SHAKE256_RATE) by (apply Z.div_pos; unfold SHAKE256_RATE; lia).
  pose proof (Z.div_mod k SHAKE256_RATE ltac:(unfold SHAKE256_RATE; lia)).
  pose proof (Z.mod_pos_bound k SHAKE256_RATE ltac:(unfold SHAKE256_RATE; lia)).
  pose proof (segment_blocks _ (Z.to_nat (k / SHAKE256_RATE + 1)) Hs 0 ltac:(lia)) as Hb.
  rewrite Z.mul_0_r in Hb. change (Nat.iter (Z.to_nat 0) f1600 (shake256_state msg)) with (shake256_state msg) in Hb.
  rewrite <-Hb. set (total := SHAKE256_RATE * Z.of_nat (Z.to_nat (k / SHAKE256_RATE + 1))).
  replace total with (k + (total - k)) by lia. rewrite segment_app by (unfold total, SHAKE256_RATE in *; lia).
  rewrite take_app_length'; [done|]. unfold segment. rewrite length_map, length_seqZ. lia.
Qed.

(** ** Absorbing one short message *)

Lemma to_le_lookup n z k :
  (k < n)%nat -> to_le_bytes n z !! k = Some (Z.land (Z.shiftr z (8 * Z.of_nat k)) 255).
Proof.
  revert z k; induction n as [|n IH]; intros z k Hk; [lia|]. cbn [to_le_bytes].
  change 255 with (Z.ones 8). rewrite Z.land_ones, Z.shiftr_div_pow2 by lia.
  destruct k as [|k]; [cbn [lookup list_lookup]; f_equal; by rewrite Z.div_1_r|].
  change ((z mod 256 :: to_le_bytes n (z / 256)) !! S k) with (to_le_bytes n (z / 256) !! k).
  rewrite IH by lia. change 255 with (Z.ones 8). rewrite Z.land_ones, Z.shiftr_div_pow2 by lia.
  rewrite Z.div_div by lia. do 3 f_equal. change 256 with (2 ^ 8). rewrite <-Z.pow_add_r by lia. f_equal. lia.
Qed.

Lemma land_lxor a b m : Z.land (Z.lxor a b) m = Z.lxor (Z.land a m) (Z.land b m).
Proof.
  apply Z.bits_inj'. intros i _. rewrite Z.land_spec, !Z.lxor_spec, !Z.land_spec.
  by destruct (Z.testbit a i), (Z.testbit b i), (Z.testbit m i).
Qed.

Lemma byte_of_shift b j k :
  is_byte b -> Z.land (Z.shiftr (Z.shiftl b (8 * Z.of_nat k)) (8 * Z.of_nat j)) 255
    = if decide (j = k) then b else 0.
Proof.
  intros Hb. change 255 with (Z.ones 8). case_decide as Hjk.
  - subst. rewrite Z.shiftr_shiftl_l, Z.sub_diag, Z.shiftl_0_r by lia.
    rewrite Z.land_ones by lia. by apply Z.mod_small.
  - apply Z.bits_inj'. intros i Hi. rewrite Z.bits_0, Z.land_spec, Z.shiftr_spec by done.
    destruct (Z.ltb_spec i 8).
    + destruct (decide (j < k)%nat).
      * rewrite Z.shiftl_spec_low by lia. done.
      * rewrite Z.shiftl_spec by lia. rewrite (Z.bits_above_log2 b); [done|unfold is_byte in Hb; lia|].
        destruct (decide (b = 0)) as [->|]; [cbn; lia|]. apply Z.log2_lt_pow2; [unfold is_byte in Hb; lia|].
        apply Z.lt_le_trans with (2 ^ 8); [exact (proj2 Hb)|]. apply Z.pow_le_mono_r; lia.
    + rewrite (Z.ones_spec_high 8 i) by lia. apply andb_false_r.
Qed.

Lemma xor_lane_bytes lane b k :
  is_byte b -> (k < 8)%nat ->
  to_le_bytes 8 (Z.lxor lane (Z.shiftl b (8 * Z.of_nat k)))
    = alter (fun x => Z.lxor x b) k (to_le_bytes 8 lane).
Proof.
  intros Hb Hk. apply list_eq. intros j. destruct (decide (j < 8)%nat) as [Hj|Hj].
  - rewrite to_le_lookup, Z.shiftr_lxor by done. destruct (decide (k = j)) as [->|Hne].
    + rewrite list_lookup_alter_eq, to_le_lookup by done. cbn [fmap option_fmap option_map]. f_equal.
      rewrite land_lxor, byte_of_shift by done. by destruct (decide (j = j)).
    + rewrite list_lookup_alter_ne, to_le_lookup by done. f_equal.
      rewrite land_lxor, byte_of_shift by done. destruct (decide (j = k)); [by subst|].
      apply Z.lxor_0_r.
  - rewrite !lookup_ge_None_2; [done| |]; rewrite ?length_alter, length_to_le_bytes; lia.
Qed.
End shake.

Section absorb.
Context `{KeccakLaws}.

Lemma lane_bytes_app s1 s2 : lane_bytes (s1 ++ s2) = lane_bytes s1 ++ lane_bytes s2.
Proof. unfold lane_bytes. by rewrite map_app, concat_app. Qed.

Lemma lane_bytes_cons lane s : lane_bytes (lane :: s) = to_le_bytes 8 lane ++ lane_bytes s.
Proof. done. Qed.

Lemma lxor_in_u w a b : 0 <= w -> in_u w a -> in_u w b -> in_u w (Z.lxor a b).
Proof.
  intros Hw Ha Hb. destruct (decide (a = 0)) as [->|Ha0]; [by rewrite Z.lxor_0_l|].
  destruct (decide (b = 0)) as [->|Hb0]; [by rewrite Z.lxor_0_r|]. unfold in_u in *.
  assert (0 <= Z.lxor a b) by (apply Z.lxor_nonneg; lia). split; [done|].
  destruct (decide (Z.lxor a b = 0)) as [->|Hne]; [lia|].
  apply Z.log2_lt_pow2; [lia|]. eapply Z.le_lt_trans; [apply Z.log2_lxor; lia|].
  apply Z.max_lub_lt; apply Z.log2_lt_pow2; lia.
Qed.

(** One byte of the state is xored. *)
Lemma xor_state_byte_spec {Er} state i b :
  lanes_ok state -> 0 <= i < 200 -> is_byte b ->
  exists state', xor_state_byte (Er := Er) state i b = Ok state' /\ lanes_ok state' /\
    lane_bytes state' = alter (fun x => Z.lxor x b) (Z.to_nat i) (lane_bytes state).
Proof.
  intros [Hl Hw] Hi Hb. unfold xor_state_byte, update.
  assert (0 <= i mod 8 < 8) by (apply Z.mod_pos_bound; lia). pose proof (Z.div_mod i 8 ltac:(lia)).
  assert (0 <= i / 8 < 25) by (split; [apply Z.div_pos; lia | apply Z.div_lt_upper_bound; lia]).
  destruct (index_is_Some state (i / 8)) as [lane Hlane]; [lia|]. rewrite Hlane. cbn [unwrap obind].
  unfold index in Hlane. destruct (Z.leb_spec 0 (i / 8)); [|lia].
  apply list_elem_of_split_length in Hlane as (s1 & s2 & -> & Hs1).
  rewrite store_middle by (unfold len; lia). eexists. split; [done|].
  assert (Hlane : in_u 64 lane).
  { apply list.Forall_app in Hw as [_ Hw]. by apply Forall_cons_1 in Hw as [? _]. }
  split; [split|].
  - rewrite len_app, len_cons in *. lia.
  - apply list.Forall_app in Hw as [Hw1 Hw2]. apply list.Forall_app. split; [done|].
    apply Forall_cons_1 in Hw2 as [_ Hw2]. constructor; [|done]. apply lxor_in_u; [lia|done|].
    rewrite Z.shiftl_mul_pow2 by lia. unfold is_byte in Hb. split; [nia|].
    apply Z.lt_le_trans with (2 ^ 8 * 2 ^ (8 * (i mod 8))).
    + apply Z.mul_lt_mono_pos_r; lia.
    + rewrite <-Z.pow_add_r by lia. apply Z.pow_le_mono_r; lia.
  - rewrite !lane_bytes_app, !lane_bytes_cons.
    replace (i mod 8) with (Z.of_nat (Z.to_nat (i mod 8))) by lia.
    rewrite xor_lane_bytes by (done || lia).
    replace (Z.to_nat i) with (length (lane_bytes s1) + Z.to_nat (i mod 8))%nat
      by (rewrite length_lane_bytes; lia).
    rewrite list.alter_app_r. f_equal. by rewrite list.alter_app_l by (rewrite length_to_le_bytes; lia).
Qed.

(** Absorbing into zero bytes writes them. *)
Lemma absorb_loop {Er} bs : forall state offset i pre k post,
  lanes_ok state -> Forall is_byte bs -> offset + i = len pre -> (length bs <= k)%nat ->
  lane_bytes state = pre ++ replicate k 0 ++ post ->
  exists state',
    ofold (fun state '(i, byte) => xor_state_byte (Er := Er) state (offset + i) byte)
      (zip (seqZ i (len bs)) bs) state = Ok state' /\ lanes_ok state' /\
    lane_bytes state' = (pre ++ bs) ++ replicate (k - length bs) 0 ++ post.
Proof.
  induction bs as [|b bs IH]; intros state offset i pre k post Hs Hb Ho Hk Hl.
  - exists state. cbn [seqZ zip]. rewrite app_nil_r, Nat.sub_0_r. split; [|done].
    unfold len. cbn. done.
  - apply Forall_cons_1 in Hb as [Hb Hbs]. destruct k as [|k]; [cbn in Hk; lia|].
    pose proof (len_nonneg pre). rewrite len_cons. pose proof (len_nonneg bs).
    rewrite seqZ_cons by lia. cbn [zip zip_with ofold].
    assert (Hlen : length (lane_bytes state) = 200%nat).
    { rewrite length_lane_bytes. destruct Hs as [Hs _]. unfold len in Hs. lia. }
    rewrite Hl in Hlen. rewrite !length_app, length_replicate in Hlen.
    destruct (xor_state_byte_spec (Er := Er) state (offset + i) b Hs) as (s1 & -> & Hs1 & Hl1);
      [unfold len in *; lia|done|].
    cbn [obind]. rewrite Hl in Hl1.
    replace (Z.to_nat (offset + i)) with (length pre + 0)%nat in Hl1 by (unfold len in *; lia).
    rewrite list.alter_app_r in Hl1. cbn [replicate app alter list_alter] in Hl1.
    rewrite Z.lxor_0_l in Hl1.
    replace (Z.pred (len bs + 1)) with (len bs) by lia.
    destruct (IH s1 offset (Z.succ i) (pre ++ [b]) k post Hs1 Hbs) as (s2 & -> & Hs2 & Hl2).
    + rewrite len_app. change (len [b]) with 1. lia.
    + cbn in Hk. lia.
    + rewrite Hl1, <-app_assoc. done.
    + exists s2. split; [done|]. split; [done|]. rewrite Hl2, <-!app_assoc. done.
Qed.
End absorb.

Lemma lane_bytes_inj s1 s2 :
  Forall (in_u 64) s1 -> Forall (in_u 64) s2 -> lane_bytes s1 = lane_bytes s2 -> s1 = s2.
Proof.
  intros H1. revert s2. induction H1 as [|a s1 Ha _ IH]; intros s2 H2 He; destruct H2 as [|b s2 Hb H2].
  - done.
  - apply (f_equal length) in He. rewrite !length_lane_bytes in He. done.
  - apply (f_equal length) in He. rewrite !length_lane_bytes in He. done.
  - rewrite !lane_bytes_cons in He. apply app_inj_1 in He as [Hab He]; [|by rewrite !length_to_le_bytes].
    rewrite (IH s2) by done. f_equal. apply (f_equal from_le_bytes) in Hab.
    rewrite !from_to_le_bytes in Hab. by rewrite !Z.mod_small in Hab.
Qed.

Lemma lane_bytes_of bytes m :
  length bytes = (m * 8)%nat -> Forall is_byte bytes ->
  lane_bytes (lanes_of bytes) = bytes /\ len (lanes_of bytes) = Z.of_nat m /\
  Forall (in_u 64) (lanes_of bytes).
Proof.
  intros Hl Hb. unfold lanes_of, lane_bytes.
  pose proof (chunks_fuel_full (length bytes) 8 bytes m Hl) as Hf. fold (chunks_of 8 bytes) in Hf.
  pose proof (chunks_of_concat 8 bytes ltac:(lia)) as Hc.
  assert (Hbs : Forall (Forall is_byte) (chunks_of 8 bytes)) by (apply Forall_concat; by rewrite Hc).
  assert (Hn : (length (chunks_of 8 bytes) * 8)%nat = length bytes).
  { rewrite <-Hc at 2. clear -Hf. induction Hf as [|c cs Hc _ IH]; [done|].
    cbn [concat length]. rewrite length_app, Hc, <-IH. lia. }
  split; [|split].
  - rewrite <-Hc at 2. f_equal. rewrite map_map. transitivity (map id (chunks_of 8 bytes)); [|apply map_id].
    apply map_ext_in. intros c Hin. rewrite Forall_forall in Hf, Hbs.
    rewrite <-(Hf c Hin). apply to_from_le_bytes. by apply Hbs.
  - unfold len. rewrite length_map. lia.
  - rewrite Forall_map, Forall_forall. intros c Hin. rewrite Forall_forall in Hf, Hbs.
    pose proof (from_le_bytes_bound c (Hbs c Hin)) as Hbd. unfold len in Hbd. by rewrite (Hf c Hin) in Hbd.
Qed.

Section reset.
Context `{KeccakLaws}.

(** The padding of a coordinate input. *)
Lemma coordinate_pad msg :
  len msg = COORDINATE_INPUT_LEN ->
  shake_pad msg = msg ++ [SHAKE_DOMAIN_SUFFIX] ++ replicate 94 0 ++ [128].
Proof.
  unfold COORDINATE_INPUT_LEN, GROUP_ROOT_LEN. intros Hl. unfold shake_pad. cbv zeta. rewrite Hl.
  change (Z.to_nat ((SHAKE256_RATE - 1 - (32 + 8)) mod SHAKE256_RATE)) with 95%nat.
  assert (length msg = 40%nat) as Hn by (unfold len in Hl; lia).
  rewrite !length_app, Hn.
  match goal with |- alter _ ?i _ = _ => replace i with (length msg + 95)%nat by (rewrite Hn; done) end.
  rewrite list.alter_app_r. done.
Qed.

Lemma zero_lanes : lanes_ok (replicate 25 0) /\ lane_bytes (replicate 25 0) = replicate 200 0.
Proof. split; [split; [done|]; by apply Forall_replicate|done]. Qed.

Lemma coordinate_state msg :
  len msg = COORDINATE_INPUT_LEN -> Forall is_byte msg ->
  exists state, lanes_ok state /\ shake256_state msg = f1600 state /\
    lane_bytes state = msg ++ [SHAKE_DOMAIN_SUFFIX] ++ replicate 94 0 ++ [128] ++ replicate 64 0.
Proof.
  intros Hl Hb. set (block := msg ++ [SHAKE_DOMAIN_SUFFIX] ++ replicate 94 0 ++ [128]).
  assert (Hlen : length block = 136%nat).
  { unfold block, COORDINATE_INPUT_LEN, GROUP_ROOT_LEN, len in *. rewrite !length_app, !length_replicate.
    cbn [length]. lia. }
  destruct (lane_bytes_of (block ++ replicate 64 0) 25) as (E1 & E2 & E3).
  - rewrite length_app, Hlen, length_replicate. done.
  - unfold block. rewrite !list.Forall_app. repeat split; try done;
      try (apply Forall_replicate; done); repeat constructor; done.
  - exists (xor_block (replicate 25 0) block).
    assert (Hx : xor_block (replicate 25 0) block = lanes_of (block ++ replicate 64 0)).
    { unfold xor_block. rewrite zip_with_replicate_l by (unfold len in E2; lia).
      transitivity (id <$> lanes_of (block ++ replicate 64 0)); [by apply list_fmap_ext|].
      apply list_fmap_id. }
    rewrite Hx. split; [by split|]. split.
    + unfold shake256_state. rewrite coordinate_pad by done. fold block. unfold chunks_of. rewrite Hlen.
      destruct block as [|x bl] eqn:Ebl; [done|]. rewrite <-Ebl in *.
      replace (chunks_fuel 136 136 block) with [block]; [cbn [foldl]; by rewrite Hx|].
      rewrite Ebl. cbn [chunks_fuel]. rewrite <-Ebl.
      rewrite (take_ge block), (drop_ge block) by lia. done.
    + rewrite E1. unfold block. by rewrite <-!app_assoc.
Qed.

(** What the prefix and the reader absorb is the padded coordinate input. *)
Lemma reader_spec {Er2} seed index :
  len seed = GROUP_ROOT_LEN -> Forall is_byte seed -> in_u 64 index ->
  exists p r, IndexedXofPrefix.new seed = Ok p /\
    IndexedXofPrefix.reader (Er := Er2) p index = Ok r /\
    let msg := seed ++ to_le_bytes 8 index in
    lanes_ok (shake256_state msg) /\ reader_at (shake256_state msg) 0 r.
Proof.
  unfold GROUP_ROOT_LEN. intros Hl Hb Hi. destruct zero_lanes as [Hz Hzb].
  unfold IndexedXofPrefix.new, GROUP_ROOT_LEN. rewrite Hl. cbn [Z.eqb negb Pos.eqb].
  destruct (absorb_loop (Er := string) seed (replicate 25 0) 0 0 [] 200 [] Hz Hb) as (s1 & He1 & Hs1 & Hb1);
    [done|unfold len in Hl; lia|by rewrite app_nil_r|].
  assert (length seed = 32%nat) as Hsl by (unfold len in Hl; lia). rewrite Hsl in Hb1.
  destruct (absorb_loop (Er := Er2) (to_le_bytes 8 index) s1 32 0 seed 168 [] Hs1 (to_le_bytes_bytes _ _))
    as (s2 & He2 & Hs2 & Hb2); [lia|rewrite length_to_le_bytes; lia|exact Hb1|].
  rewrite length_to_le_bytes in Hb2. set (msg := seed ++ to_le_bytes 8 index) in *.
  assert (Hml : length msg = 40%nat) by (unfold msg; rewrite length_app, length_to_le_bytes; lia).
  destruct (xor_state_byte_spec (Er := Er2) s2 COORDINATE_INPUT_LEN SHAKE_DOMAIN_SUFFIX Hs2)
    as (s3 & He3 & Hs3 & Hb3); [done|done|].
  destruct (xor_state_byte_spec (Er := Er2) s3 (SHAKE256_RATE - 1) 128 Hs3)
    as (s4 & He4 & Hs4 & Hb4); [done|done|].
  exists {| prefix_state := s1 |}, {| reader_state := f1600 s4; reader_pos := 0 |}.
  split; [unfold absorb_bytes, range; by rewrite He1|]. split.
  { unfold IndexedXofPrefix.reader, absorb_bytes, GROUP_ROOT_LEN, range. cbn [prefix_state].
    rewrite He2. cbn [obind]. rewrite He3. cbn [obind]. by rewrite He4. }
  assert (Hmsg : Forall is_byte msg) by (apply list.Forall_app; split; [done|apply to_le_bytes_bytes]).
  destruct (coordinate_state msg) as (st & Hst & Hf & Hbs); [unfold len; by rewrite Hml|done|].
  assert (s4 = st) as ->.
  { apply lane_bytes_inj; [exact (proj2 Hs4)|exact (proj2 Hst)|]. rewrite Hbs, Hb4, Hb3, Hb2.
    replace (Z.to_nat COORDINATE_INPUT_LEN) with (length msg + 0)%nat by (rewrite Hml; done).
    replace (Z.to_nat (SHAKE256_RATE - 1)) with (length msg + 95)%nat by (rewrite Hml; done).
    rewrite list.alter_app_r.
    rewrite list.alter_app_r. reflexivity. }
  cbv zeta. rewrite Hf. split; [by apply f1600_lanes|]. exists 0. cbn [reader_state reader_pos].
  repeat split; done.
Qed.
End reset.

(** * The rejection loop *)

(** Bytes read per attempt. *)
Definition draw_width (bits : Z) : Z := if bits <=? 8 then 1 else if bits <=? 16 then 2 else 4.

(** How many [w]-byte strings a mask of [bits] bits sends to [v]. *)
Definition preimages (bits v : Z) : list Z :=
  filter (fun x => Z.land x (Z.shiftl 1 bits - 1) = v) (seqZ 0 (2 ^ (8 * draw_width bits))).

Lemma mask_mod x bits : 0 <= bits -> Z.land x (Z.shiftl 1 bits - 1) = x mod 2 ^ bits.
Proof.
  intros Hb. rewrite Z.shiftl_1_l. replace (2 ^ bits - 1) with (Z.ones bits) by (rewrite Z.ones_equiv; lia).
  by apply Z.land_ones.
Qed.

Lemma filter_ext_list {A} (P Q : A -> Prop) `{!forall x, Decision (P x), !forall x, Decision (Q x)} (l : list A) :
  (forall x, x ∈ l -> P x <-> Q x) -> filter P l = filter Q l.
Proof.
  induction l as [|a l IH]; intros Hpq; [done|]. rewrite !filter_cons, IH by (intros; apply Hpq; by right).
  pose proof (Hpq a ltac:(by left)). repeat case_decide; tauto.
Qed.

(** Exactly one residue in every interval of [m] integers. *)
Lemma one_residue m v a : 0 <= v < m ->
  length (filter (fun x => x mod m = v) (seqZ (m * a) m)) = 1%nat.
Proof.
  intros Hv. rewrite (filter_ext_list _ (fun x => x = m * a + v)).
  2:{ intros x Hx%elem_of_seqZ. rewrite (Z.div_mod x m) at 2 by lia. split.
      - intros Hm. rewrite Hm. assert (x / m = a); [|by subst].
        symmetry. apply (Z.div_unique x m a (x - m * a)); [left; lia|lia].
      - rewrite <-Z.div_mod by lia. intros ->. rewrite Z.mul_comm, Z.add_comm, Z.mod_add by lia.
        by apply Z.mod_small. }
  replace m with (v + (1 + (m - v - 1))) at 2 by lia. rewrite !seqZ_app by lia.
  rewrite !list.filter_app, !length_app.
  assert (Hnil : forall s n, (forall x, s <= x < s + n -> x <> m * a + v) ->
            length (filter (fun x => x = m * a + v) (seqZ s n)) = 0%nat).
  { intros s n Hne. rewrite (filter_ext_list _ (fun _ => False)).
    - induction (seqZ s n) as [|y l IH]; [done|]. rewrite filter_cons. by case_decide.
    - intros x Hx%elem_of_seqZ. split; [by apply Hne|done]. }
  rewrite Hnil by lia. change (seqZ (m * a + v) 1) with [m * a + v].
  rewrite filter_cons, decide_True by done. rewrite Hnil by lia. done.
Qed.

Lemma residues m v k : 0 <= v < m ->
  length (filter (fun x => x mod m = v) (seqZ 0 (m * Z.of_nat k))) = k.
Proof.
  intros Hv. induction k as [|k IH]; [by rewrite Z.mul_0_r|].
  replace (m * Z.of_nat (S k)) with (m * Z.of_nat k + m) by lia.
  rewrite seqZ_app by nia. rewrite list.filter_app, length_app, IH, Z.add_0_l, one_residue by done. lia.
Qed.

Lemma preimages_count bits v :
  0 <= bits <= 32 -> 0 <= v < 2 ^ bits ->
  Z.of_nat (length (preimages bits v)) = 2 ^ (8 * draw_width bits - bits).
Proof.
  intros Hb Hv. unfold preimages.
  assert (Hw : bits <= 8 * draw_width bits) by (unfold draw_width; case_Z).
  rewrite (filter_ext_list _ (fun x => x mod 2 ^ bits = v)) by (intros; rewrite mask_mod by lia; done).
  replace (2 ^ (8 * draw_width bits)) with (2 ^ bits * Z.of_nat (Z.to_nat (2 ^ (8 * draw_width bits - bits)))).
  - rewrite residues by done. rewrite Z2Nat.id by lia. done.
  - rewrite Z2Nat.id by lia. rewrite <-Z.pow_add_r by lia. f_equal. lia.
Qed.

Lemma draw_bits_spec modulus :
  2 <= modulus -> 1 <= XofCursor.draw_bits modulus /\ 2 ^ (XofCursor.draw_bits modulus - 1) < modulus <= 2 ^ XofCursor.draw_bits modulus.
Proof.
  intros Hm. unfold XofCursor.draw_bits. pose proof (Z.log2_nonneg (modulus - 1)).
  pose proof (Z.log2_spec (modulus - 1) ltac:(lia)) as [H1 H2].
  replace (Z.log2 (modulus - 1) + 1 - 1) with (Z.log2 (modulus - 1)) by lia. lia.
Qed.

Section rejection.
Context `{KeccakLaws}.
Variable st0 : list Z.
Hypothesis st0_ok : lanes_ok st0.

Lemma stream_byte n : is_byte (stream st0 n).
Proof.
  unfold stream. assert (Hb : forall s, Forall is_byte (lane_bytes s)).
  { intros s. unfold lane_bytes. induction s; cbn [map concat]; [constructor|].
    apply list.Forall_app. split; [apply to_le_bytes_bytes|done]. }
  destruct (nth_in_or_default (Z.to_nat (n mod SHAKE256_RATE))
    (lane_bytes (Nat.iter (Z.to_nat (n / SHAKE256_RATE)) f1600 st0)) 0) as [Hin|E]; [|by rewrite E].
  specialize (Hb (Nat.iter (Z.to_nat (n / SHAKE256_RATE)) f1600 st0)). rewrite Forall_forall in Hb. by apply Hb.
Qed.

(** The candidate at stream position [n]. *)
Definition draw_value (bits n : Z) : Z :=
  Z.land (from_le_bytes (segment st0 n (draw_width bits))) (Z.shiftl 1 bits - 1).

Lemma candidate_spec {Er} bits n c : cursor_at st0 n c ->
  exists c', XofCursor.candidate (Er := Er) bits c = Ok (draw_value bits n, c') /\
    cursor_at st0 (n + draw_width bits) c'.
Proof.
  intros Hc. unfold XofCursor.candidate, draw_value, draw_width. destruct (Z.leb_spec bits 8).
  - destruct (next_u8_spec st0 st0_ok (Er := Er) n c Hc) as (c' & -> & Hat). cbn [obind].
    exists c'. split; [|done]. do 3 f_equal. unfold segment. change (seqZ n 1) with [n].
    cbn [map from_le_bytes]. lia.
  - destruct (Z.leb_spec bits 16).
    + destruct (next_u8_spec st0 st0_ok (Er := Er) n c Hc) as (c1 & -> & Hat). cbn [obind].
      destruct (next_u8_spec st0 st0_ok (Er := Er) (n + 1) c1 Hat) as (c' & -> & Hat'). cbn [obind].
      exists c'. split; [|by replace (n + 2) with (n + 1 + 1) by lia]. do 3 f_equal.
      unfold segment. rewrite seqZ_cons by lia. change (seqZ (Z.succ n) (Z.pred 2)) with [Z.succ n].
      cbn [map from_le_bytes]. replace (Z.succ n) with (n + 1) by lia.
      pose proof (stream_byte n) as Hb. unfold is_byte in Hb.
      rewrite Z.shiftl_mul_pow2 by lia. change (2 ^ 8) with 256.
      pose proof (Z.add_lor_land (stream st0 n) (stream st0 (n + 1) * 256)) as Ha.
      assert (Z.land (stream st0 n) (stream st0 (n + 1) * 256) = 0) as Hz; [|lia].
      apply Z.bits_inj'. intros i Hi. rewrite Z.land_spec, Z.bits_0.
      destruct (Z.ltb_spec i 8).
      * change 256 with (2 ^ 8). rewrite Z.mul_pow2_bits_low by lia. apply andb_false_r.
      * destruct (decide (stream st0 n = 0)) as [->|]; [by rewrite Z.bits_0|].
        rewrite Z.bits_above_log2; [done|lia|]. apply Z.log2_lt_pow2; [lia|].
        apply Z.lt_le_trans with (2 ^ 8); [lia|]. apply Z.pow_le_mono_r; lia.
    + destruct (next_u32_spec st0 st0_ok (Er := Er) n c Hc) as (c' & -> & Hat). cbn [obind]. by exists c'.
Qed.

(** Attempt [k] is the first to be accepted. *)
Definition first_accepted (bits modulus n : Z) (k : nat) : Prop :=
  draw_value bits (n + draw_width bits * Z.of_nat k) < modulus /\
  forall j, (j < k)%nat -> modulus <= draw_value bits (n + draw_width bits * Z.of_nat j).

Lemma rejection_spec {Er} fuel bits modulus n c k :
  cursor_at st0 n c -> first_accepted bits modulus n k -> (k < fuel)%nat ->
  exists c', XofCursor.rejection (Er := Er) fuel bits modulus c
      = Ok (draw_value bits (n + draw_width bits * Z.of_nat k), c') /\
    cursor_at st0 (n + draw_width bits * (Z.of_nat k + 1)) c'.
Proof.
  revert n c k; induction fuel as [|fuel IH]; intros n c k Hc [Hlt Hge] Hk; [lia|].
  cbn [XofCursor.rejection]. destruct (candidate_spec (Er := Er) bits n c Hc) as (c1 & -> & Hat).
  cbn [obind]. destruct k as [|k].
  - rewrite Z.mul_0_r, Z.add_0_r in *. destruct (Z.ltb_spec (draw_value bits n) modulus); [|lia].
    exists c1. by rewrite Z.add_0_l, Z.mul_1_r.
  - pose proof (Hge O ltac:(lia)) as H0'. rewrite Z.mul_0_r, Z.add_0_r in H0'.
    destruct (Z.ltb_spec (draw_value bits n) modulus); [lia|].
    assert (Hshift : forall j, n + draw_width bits + draw_width bits * Z.of_nat j
                               = n + draw_width bits * Z.of_nat (S j)) by lia.
    destruct (IH (n + draw_width bits) c1 k Hat) as (c' & -> & Hat').
    + split; [by rewrite Hshift|]. intros j Hj. rewrite Hshift. apply Hge. lia.
    + lia.
    + exists c'. rewrite Hshift. split; [done|].
      by replace (n + draw_width bits * (Z.of_nat (S k) + 1))
        with (n + draw_width bits + draw_width bits * (Z.of_nat k + 1)) by lia.
Qed.
End rejection.

(** * Properties *)

Section properties.
Context `{KeccakLaws}.

Lemma reset_spec {Er} seed index c :
  len seed = GROUP_ROOT_LEN -> Forall is_byte seed -> in_u 64 index ->
  len (cursor_buf c) = XOF_BUFFER_SIZE ->
  exists p c', IndexedXofPrefix.new seed = Ok p /\
    XofCursor.reset_indexed_prefix (Er := Er) c p index = Ok c' /\
    let st := shake256_state (seed ++ to_le_bytes 8 index) in lanes_ok st /\ cursor_at st 0 c'.
Proof.
  intros Hl Hb Hi Hbuf. destruct (reader_spec (Er2 := Er) seed index Hl Hb Hi) as (p & r & Hp & Hr & Hs & Hat).
  exists p. unfold XofCursor.reset_indexed_prefix. rewrite Hr. cbn [obind].
  destruct (refill_spec _ Hs (Er := Er) 0
    {| cursor_reader := r; cursor_buf := cursor_buf c; cursor_pos := 0; cursor_len := 0 |}) as (c' & -> & Hc' & _);
    [done|done|lia|]. by exists c'.
Qed.

Definition read_all {Er} (ns : list Z) (c : XofCursor) : outcome Er (list Z * XofCursor) :=
  ofold (fun '(out, c) n => let* (bs, c) := XofCursor.fill_bytes c n in Ok (out ++ bs, c)) ns ([], c).

Lemma read_all_spec {Er} st0 ns c : lanes_ok st0 -> cursor_at st0 0 c -> Forall (fun n => 0 <= n) ns ->
  exists c', read_all (Er := Er) ns c = Ok (segment st0 0 (checked.Zsum ns), c') /\
    cursor_at st0 (checked.Zsum ns) c'.
Proof.
  intros Hs. unfold read_all.
  assert (Hgen : forall ns n c, 0 <= n -> cursor_at st0 n c -> Forall (fun n => 0 <= n) ns ->
    exists c', ofold (fun '(out, c) n => let* (bs, c) := XofCursor.fill_bytes (Er := Er) c n in Ok (out ++ bs, c))
        ns (segment st0 0 n, c) = Ok (segment st0 0 (n + checked.Zsum ns), c') /\
      cursor_at st0 (n + checked.Zsum ns) c' /\ 0 <= checked.Zsum ns).
  { clear ns c. intros ns. induction ns as [|k ns IH]; intros n c Hn Hc Hf; cbn [ofold checked.Zsum foldr].
    - exists c. by rewrite Z.add_0_r.
    - fold (checked.Zsum ns). apply Forall_cons_1 in Hf as [Hk Hf].
      destruct (fill_bytes_spec st0 Hs (Er := Er) k n c Hc Hk) as (c1 & -> & Hc1). cbn [obind].
      replace (segment st0 0 n ++ segment st0 n k) with (segment st0 0 (n + k))
        by (rewrite segment_app by lia; by rewrite Z.add_0_l).
      destruct (IH (n + k) c1 ltac:(lia) Hc1 Hf) as (c' & He & Hc' & Hz). rewrite He.
      exists c'. rewrite !Z.add_assoc. split; [done|]. split; [done|lia]. }
  intros Hc Hf. destruct (Hgen ns 0 c ltac:(lia) Hc Hf) as (c' & He & Hc' & _). by exists c'.
Qed.

(** C37: the stream of a fold coordinate is SHAKE256 of the 32-byte group root
    followed by the little-endian coordinate index, whatever the cursor was
    used for before: after a reset, reads of any sizes return consecutive
    bytes of it across the buffer and block boundaries, and so do the one-byte
    and four-byte reads that follow.  SHAKE256 is the padded sponge over the
    external permutation; nothing panics. *)
Theorem indexed_stream_is_shake256 {Er} seed index c ns :
  len seed = GROUP_ROOT_LEN -> Forall is_byte seed -> in_u 64 index ->
  len (cursor_buf c) = XOF_BUFFER_SIZE -> Forall (fun n => 0 <= n) ns ->
  let msg := seed ++ to_le_bytes 8 index in
  let total := checked.Zsum ns in
  exists p c1 c2, IndexedXofPrefix.new seed = Ok p /\
    XofCursor.reset_indexed_prefix (Er := Er) c p index = Ok c1 /\
    read_all (Er := Er) ns c1 = Ok (shake256 msg total, c2) /\
    (exists b c3, XofCursor.next_u8 (Er := Er) c2 = Ok (b, c3) /\
       shake256 msg (total + 1) = shake256 msg total ++ [b]) /\
    (exists bs c4, XofCursor.next_u32 (Er := Er) c2 = Ok (from_le_bytes bs, c4) /\
       shake256 msg (total + 4) = shake256 msg total ++ bs).
Proof.
  intros Hl Hb Hi Hbuf Hns msg total.
  destruct (reset_spec (Er := Er) seed index c Hl Hb Hi Hbuf) as (p & c1 & Hp & Hc1 & Hs & Hat).
  destruct (read_all_spec (Er := Er) _ ns c1 Hs Hat Hns) as (c2 & Hc2 & Hat2).
  assert (Ht : 0 <= total).
  { unfold total. clear -Hns. induction Hns as [|n ns Hn _ IH]; cbn; [lia|]. fold (checked.Zsum ns). lia. }
  exists p, c1, c2. split; [done|]. split; [done|]. rewrite <-!segment_shake by (done || lia).
  split; [exact Hc2|]. split.
  - destruct (next_u8_spec _ Hs (Er := Er) _ _ Hat2) as (c3 & Hc3 & _). eexists _, c3.
    split; [exact Hc3|]. by rewrite segment_app by lia.
  - destruct (next_u32_spec _ Hs (Er := Er) _ _ Hat2) as (c4 & Hc4 & _). eexists _, c4.
    split; [exact Hc4|]. by rewrite segment_app by lia.
Qed.

(** C38: rejection sampling is unbiased: for a modulus up to [2^32] the draw is
    the first candidate of the stream below the modulus and the cursor stops
    right after it; every value below the modulus is hit by the same number of
    byte strings, [2^(8 w - bits)] of the [256^w], and more than half of the
    strings are accepted, so no value is preferred and no attempt is more
    likely to fail than to succeed. *)
Theorem next_usize_mod_uniform {Er} st0 fuel n c modulus k :
  lanes_ok st0 -> cursor_at st0 n c -> 2 <= modulus <= 2 ^ 32 ->
  first_accepted st0 (XofCursor.draw_bits modulus) modulus n k -> (k < fuel)%nat ->
  let bits := XofCursor.draw_bits modulus in
  let w := draw_width bits in
  exists c', XofCursor.next_usize_mod (Er := Er) fuel c modulus
      = Ok (draw_value st0 bits (n + w * Z.of_nat k), c') /\
    cursor_at st0 (n + w * (Z.of_nat k + 1)) c' /\
    0 <= draw_value st0 bits (n + w * Z.of_nat k) < modulus /\
    (forall v, 0 <= v < modulus -> Z.of_nat (length (preimages bits v)) = 2 ^ (8 * w - bits)) /\
    2 ^ bits < 2 * modulus.
Proof.
  intros Hs Hc Hm Hk Hfuel bits w. destruct (draw_bits_spec modulus ltac:(lia)) as [Hb1 [Hb2 Hb3]].
  fold bits in Hb1, Hb2, Hb3, Hk. unfold XofCursor.next_usize_mod. destruct (Z.eqb_spec modulus 1); [lia|].
  fold bits. destruct (rejection_spec st0 Hs (Er := Er) fuel bits modulus n c k Hc Hk Hfuel) as (c' & -> & Hat).
  exists c'. split; [done|]. split; [done|].
  assert (Hd : 2 ^ bits = 2 * 2 ^ (bits - 1)) by (rewrite <-Z.pow_succ_r by lia; f_equal; lia).
  assert (bits <= 32).
  { destruct (Z.le_gt_cases bits 32); [done|]. assert (2 ^ 32 <= 2 ^ (bits - 1)) by (apply Z.pow_le_mono_r; lia). lia. }
  split; [|split; [|lia]].
  - split; [|exact (proj1 Hk)]. unfold draw_value. rewrite mask_mod by lia. apply Z.mod_pos_bound. lia.
  - intros v Hv. apply preimages_count; lia.
Qed.
End properties.

(** * Evaluation with a toy permutation: the lanes rotate *)

#[export] Instance toy_keccak : Keccak := fun s => drop 1 s ++ take 1 s.
#[export] Instance toy_keccak_laws : KeccakLaws.
Proof.
  intros s [Hl Hu]. unfold f1600, toy_keccak. split.
  - rewrite len_app. unfold len in *. rewrite length_drop, length_take. lia.
  - apply list.Forall_app. split; [by apply Forall_drop|by apply Forall_take].
Qed.

Definition toy_seed : list Z := seqZ 1 32.

Lemma indexed_stream_is_shake256_witness :
  let msg := toy_seed ++ to_le_bytes 8 7 in
  exists p c1 c2, IndexedXofPrefix.new toy_seed = Ok p /\
    XofCursor.reset_indexed_prefix (Er := unit) XofCursor.new p 7 = Ok c1 /\
    read_all (Er := unit) [100; 40] c1 = Ok (shake256 msg 140, c2) /\
    (exists b c3, XofCursor.next_u8 (Er := unit) c2 = Ok (b, c3) /\
       shake256 msg 141 = shake256 msg 140 ++ [b]) /\
    (exists bs c4, XofCursor.next_u32 (Er := unit) c2 = Ok (from_le_bytes bs, c4) /\
       shake256 msg 144 = shake256 msg 140 ++ bs).
Proof.
  apply (indexed_stream_is_shake256 (Er := unit) toy_seed 7 XofCursor.new [100; 40]); try done;
    repeat constructor; lia.
Defined.

(** The first candidate of this stream is accepted. *)
Lemma next_usize_mod_uniform_witness :
  exists st0 c c' v, lanes_ok st0 /\ cursor_at st0 0 c /\
    XofCursor.next_usize_mod (Er := unit) 4 c 100 = Ok (v, c') /\ 0 <= v < 100.
Proof.
  destruct (reset_spec (Er := unit) toy_seed 7 XofCursor.new) as (p & c & _ & _ & Hs & Hat);
    [done|repeat constructor; lia|done|done|].
  destruct (next_usize_mod_uniform (Er := unit) _ 4 0 c 100 0 Hs Hat) as (c' & He & _ & Hv & _);
    [lia| |lia|].
  { split; [vm_compute; reflexivity|]. intros j Hj. lia. }
  eexists _, c, c', _. split; [exact Hs|]. split; [exact Hat|]. split; [exact He|exact Hv].
Defined.
