(* ===== verification/PositionSample.v ===== *)
(** [akita-challenges/src/sampler/position_sample.rs]: partial Fisher-Yates
    sampling of distinct positions, over a flat permutation for dense
    challenges and over an open-addressing table of the swapped entries for
    sparse ones.  The two samplers agree draw by draw, and every ordered choice
    of positions is the result of exactly one sequence of draws. *)

From S2P Require Import Prelude Checked Serialization Xof.

Definition MAX_STACK_RING_DIM : Z := 2048.
Definition MAX_STACK_TIER_RING_DIM : Z := 2048.

(** * The table of swapped entries *)

Record DistinctPositionScratch := {
  keys : list Z;
  values : list Z;
  generations : list Z;
  generation : Z;
}.

Module DistinctPositionScratch.

Definition new : DistinctPositionScratch :=
  {| keys := []; values := []; generations := []; generation := 0 |}.

(** [Vec::resize(capacity, 0)] on a shorter vector. *)
Definition grow (l : list Z) (capacity : Z) : list Z :=
  l ++ replicate (Z.to_nat (capacity - len l)) 0.

Definition prepare `{Allocator} (s : DistinctPositionScratch) (weight : Z)
  : result DistinctPositionScratch :=
  let* capacity :=
    ok_or match checked_mul weight 4 with
          | Some n => checked.checked_next_power_of_two n
          | None => None
          end (InvalidInput "sparse permutation size overflow") in
  let capacity := Z.max capacity 4 in
  if capacity <=? len (keys s) then Ok s
  else
    let* additional := ok_or (checked_sub capacity (len (keys s))) InvalidProof in
    guard* reserve_exact additional else InvalidInput "sparse permutation allocation failed" in
    Ok {| keys := grow (keys s) capacity; values := grow (values s) capacity;
          generations := grow (generations s) capacity; generation := generation s |}.

Definition clear (s : DistinctPositionScratch) : DistinctPositionScratch :=
  let g := uwrap 32 (generation s + 1) in
  if g =? 0
  then {| keys := keys s; values := values s;
          generations := replicate (length (generations s)) 0; generation := 1 |}
  else {| keys := keys s; values := values s; generations := generations s; generation := g |}.

(** [for _ in 0..self.keys.len()] of [find_slot]. *)
Fixpoint probe (n : nat) (s : DistinctPositionScratch) (mask key slot : Z) : result (Z * bool) :=
  match n with
  | O => Err (InvalidSetup "sparse permutation scratch capacity exhausted")
  | S n =>
      let* g := ok_or (index (generations s) slot) InvalidProof in
      if negb (g =? generation s) then Ok (slot, false)
      else if match index (keys s) slot with Some k => k =? key | None => false end
      then Ok (slot, true)
      else probe n s mask key (Z.land (uwrap 64 (slot + 1)) mask)
  end.

Definition find_slot (s : DistinctPositionScratch) (key : Z) : result (Z * bool) :=
  let* mask := ok_or (checked_sub (len (keys s)) 1)
                 (InvalidSetup "sparse permutation scratch is empty") in
  probe (length (keys s)) s mask key (Z.land key mask).

Definition get (s : DistinctPositionScratch) (key : Z) : result Z :=
  let* (slot, occupied) := find_slot s key in
  if occupied then ok_or (index (values s) slot) InvalidProof else Ok key.

(** [*v.get_mut(slot).ok_or(InvalidProof)? = x] *)
Definition set_slot (l : list Z) (slot x : Z) : result (list Z) :=
  if (0 <=? slot) && (slot <? len l) then Ok (<[Z.to_nat slot := x]> l) else Err InvalidProof.

Definition insert (s : DistinctPositionScratch) (key value : Z) : result DistinctPositionScratch :=
  let* (slot, _) := find_slot s key in
  let* ks := set_slot (keys s) slot key in
  let* vs := set_slot (values s) slot value in
  let* gs := set_slot (generations s) slot (generation s) in
  Ok {| keys := ks; values := vs; generations := gs; generation := generation s |}.

End DistinctPositionScratch.

(** * The samplers *)

Section samplers.
Context `{Keccak, Allocator}.
(** Attempts per draw before the model gives up. *)
Variable fuel : nat.

(** [i + cursor.next_usize_mod(universe - i)] *)
Definition draw_index (c : XofCursor) (universe i : Z) : result (Z * XofCursor) :=
  let* rest := unwrap (checked_sub universe i) in
  let* (d, c) := XofCursor.next_usize_mod fuel c rest in
  Ok (i + d, c).

(** The slots of [out] are written in order; [n] is [out.len()]. *)
Definition sample_distinct_positions_into_sparse (c : XofCursor) (universe n : Z)
    (scratch : DistinctPositionScratch) : result (list Z * XofCursor * DistinctPositionScratch) :=
  let* scratch := DistinctPositionScratch.prepare scratch n in
  let scratch := DistinctPositionScratch.clear scratch in
  ofold (fun '(out, c, scratch) i =>
           let* (j, c) := draw_index c universe i in
           let* left_value := DistinctPositionScratch.get scratch i in
           let* right_value := DistinctPositionScratch.get scratch j in
           let* scratch := DistinctPositionScratch.insert scratch i right_value in
           let* scratch := DistinctPositionScratch.insert scratch j left_value in
           let* p := ok_or (checked_u 32 right_value) InvalidProof in
           Ok (out ++ [p], c, scratch))
    (range n) ([], c, scratch).

(** [slice::swap] *)
Definition swap (l : list Z) (i j : Z) : result (list Z) :=
  let* x := unwrap (index l i) in
  let* y := unwrap (index l j) in
  let* l := store l i y in
  store l j x.

(** The tier [<T, N>], with [T] of [tbits] bits. *)
Definition sample_distinct_positions_into_stack (tbits N : Z) (c : XofCursor) (universe n : Z)
  : result (list Z * XofCursor) :=
  if (universe <? n) || (N <? universe) || (MAX_STACK_TIER_RING_DIM <? N)
  then Err (InvalidInput "permutation tier has invalid dimensions")
  else
    let* perm :=
      ofold (fun perm i => let* v := ok_or (checked_u tbits i) InvalidProof in store perm i v)
        (range universe) (replicate (Z.to_nat N) 0) in
    let* (out, c, _) :=
      ofold (fun '(out, c, perm) i =>
               let* (j, c) := draw_index c universe i in
               let* perm := swap perm i j in
               let* p := unwrap (index perm i) in
               Ok (out ++ [p], c, perm))
        (range n) ([], c, perm) in
    Ok (out, c).

(** The [match] on the universe. *)
Definition tier (universe : Z) : option (Z * Z) :=
  if universe <=? 8 then Some (8, 8)
  else if universe <=? 16 then Some (8, 16)
  else if universe <=? 32 then Some (8, 32)
  else if universe <=? 64 then Some (8, 64)
  else if universe <=? 128 then Some (8, 128)
  else if universe <=? 256 then Some (8, 256)
  else if universe <=? 512 then Some (16, 512)
  else if universe <=? 1024 then Some (16, 1024)
  else if universe <=? MAX_STACK_TIER_RING_DIM then Some (16, MAX_STACK_TIER_RING_DIM)
  else None.

Definition sample_distinct_positions_into `{BuildMode} (c : XofCursor) (universe n : Z)
    (scratch : DistinctPositionScratch) : result (list Z * XofCursor * DistinctPositionScratch) :=
  let* _ := debug_assert (n <=? universe) in
  let* _ := debug_assert (universe <=? MAX_STACK_RING_DIM) in
  if saturating_mul n 64 <? universe
  then sample_distinct_positions_into_sparse c universe n scratch
  else
    match tier universe with
    | Some (tbits, N) =>
        let* (out, c) := sample_distinct_positions_into_stack tbits N c universe n in
        Ok (out, c, scratch)
    | None => Err (InvalidInput "ring dimension must be <= MAX_STACK_RING_DIM")
    end.
End samplers.

(** * The open-addressing table *)

Section table.
Implicit Types s : DistinctPositionScratch.

(** A slot is in use when it carries the current generation. *)
Definition occupied s (slot : Z) : Prop := index (generations s) slot = Some (generation s).
Definition size s : Z := len (keys s).

(** Slot [slot] is where probing for [key] stops after [i] steps. *)
Definition passes s (key i : Z) : Prop :=
  forall j, 0 <= j < i -> occupied s ((key + j) mod size s) /\
    index (keys s) ((key + j) mod size s) <> Some key.

Record table_inv s : Prop := {
  inv_size : exists K, 0 <= K < 64 /\ size s = 2 ^ K;
  inv_values : len (values s) = size s;
  inv_gens : len (generations s) = size s;
  inv_homed : forall slot key, occupied s slot -> index (keys s) slot = Some key ->
    exists i, 0 <= i < size s /\ slot = (key + i) mod size s /\ passes s key i;
}.

(** The table maps [key] to [v]. *)
Definition holds s (key v : Z) : Prop :=
  exists slot, occupied s slot /\ index (keys s) slot = Some key /\ index (values s) slot = Some v.

Definition used s : nat := length (filter (fun g => g = generation s) (generations s)).

Lemma size_pos s : table_inv s -> 0 < size s.
Proof. intros [(K & HK & ->) _ _ _]. lia. Qed.

Lemma mask_is_mod s K key : size s = 2 ^ K -> 0 <= K -> Z.land key (size s - 1) = key mod size s.
Proof.
  intros -> HK. replace (2 ^ K - 1) with (Z.ones K) by (rewrite Z.ones_equiv; lia). by apply Z.land_ones.
Qed.

Lemma next_slot s key i : table_inv s -> 0 <= key ->
  Z.land (uwrap 64 ((key + i) mod size s + 1)) (size s - 1) = (key + (i + 1)) mod size s.
Proof.
  intros Hs Hk. pose proof (size_pos s Hs). destruct (inv_size s Hs) as (K & HK & Hsz).
  pose proof (Z.mod_pos_bound (key + i) (size s) ltac:(lia)).
  rewrite (mask_is_mod s K) by (done || lia). rewrite uwrap_id.
  - rewrite Z.add_mod_idemp_l by lia. f_equal. lia.
  - split; [lia|]. assert (size s <= 2 ^ 63) by (rewrite Hsz; apply Z.pow_le_mono_r; lia). lia.
Qed.

Lemma occupied_dec s slot : 0 <= slot < size s -> table_inv s ->
  exists g, index (generations s) slot = Some g /\ ((g =? generation s) = true <-> occupied s slot).
Proof.
  intros Hs Hi. destruct (index_is_Some (generations s) slot) as [g Hg]; [by rewrite (inv_gens s Hi)|].
  exists g. split; [done|]. unfold occupied. rewrite Hg, Z.eqb_eq. split; [by intros ->|by intros [= ->]].
Qed.

(** Probing from step [i] on stops at the first slot that is free or holds
    the key. *)
Lemma probe_spec s key n i : table_inv s -> 0 <= key -> 0 <= i -> passes s key i ->
  (exists m, i <= m < i + Z.of_nat n /\ ~ occupied s ((key + m) mod size s)) ->
  exists m b, i <= m < i + Z.of_nat n /\
    DistinctPositionScratch.probe n s (size s - 1) key ((key + i) mod size s)
      = Ok ((key + m) mod size s, b) /\ passes s key m /\
    if b then occupied s ((key + m) mod size s) /\ index (keys s) ((key + m) mod size s) = Some key
    else ~ occupied s ((key + m) mod size s).
Proof.
  intros Hs Hk. pose proof (size_pos s Hs) as Hpos. revert i; induction n as [|n IH]; intros i Hi Hp (f & Hf & Hfree);
    [lia|]. cbn [DistinctPositionScratch.probe].
  pose proof (Z.mod_pos_bound (key + i) (size s) Hpos) as Hb.
  destruct (occupied_dec s ((key + i) mod size s) Hb Hs) as (g & Hg & Ho). rewrite Hg. cbn [ok_or obind].
  destruct (g =? generation s) eqn:Eg; cbn [negb].
  2:{ exists i, false. split; [lia|]. split; [done|]. split; [done|]. intros Hc%Ho. done. }
  assert (Hocc : occupied s ((key + i) mod size s)) by (by apply Ho).
  destruct (index_is_Some (keys s) ((key + i) mod size s)) as [k Hkey]; [done|]. rewrite Hkey.
  destruct (Z.eqb_spec k key) as [->|Hne].
  { exists i, true. split; [lia|]. by split. }
  rewrite next_slot by done. destruct (IH (i + 1)) as (m & b & Hm & Hpr & Hpass & Hres).
  - lia.
  - intros j Hj. destruct (decide (j = i)) as [->|]; [|apply Hp; lia]. split; [done|].
    rewrite Hkey. by intros [= ->].
  - exists f. split; [|done]. destruct (decide (f = i)) as [->|]; [done|lia].
  - exists m, b. split; [lia|]. by rewrite Hpr.
Qed.

Lemma free_slot s : table_inv s -> (used s < length (keys s))%nat ->
  exists slot, 0 <= slot < size s /\ ~ occupied s slot.
Proof.
  intros Hs Hu.
  assert (Hl : length (generations s) = length (keys s)) by (pose proof (inv_gens s Hs); unfold size, len in *; lia).
  assert (Hex : exists i g, generations s !! i = Some g /\ g <> generation s).
  { unfold used in Hu. rewrite <-Hl in Hu. clear Hl. revert Hu. generalize (generation s).
    induction (generations s) as [|g gs IH]; intros G Hu; [cbn in Hu; lia|].
    destruct (decide (g = G)) as [->|Hne]; [|by exists O, g].
    rewrite filter_cons, decide_True in Hu by done. cbn [length] in Hu.
    destruct (IH G) as (i & g' & Hi & Hg); [lia|]. by exists (S i), g'. }
  destruct Hex as (i & g & Hi & Hg). exists (Z.of_nat i). apply lookup_lt_Some in Hi as Hlt.
  split; [unfold size, len; lia|]. unfold occupied. rewrite index_nat, Hi. by intros [= ->].
Qed.

Lemma find_slot_spec s key : table_inv s -> (used s < length (keys s))%nat -> 0 <= key ->
  exists i b, 0 <= i < size s /\
    DistinctPositionScratch.find_slot s key = Ok ((key + i) mod size s, b) /\ passes s key i /\
    if b then occupied s ((key + i) mod size s) /\ index (keys s) ((key + i) mod size s) = Some key
    else ~ occupied s ((key + i) mod size s).
Proof.
  intros Hs Hu Hk. pose proof (size_pos s Hs) as Hpos. destruct (inv_size s Hs) as (K & HK & Hsz).
  destruct (free_slot s Hs Hu) as (f & Hf & Hfree).
  destruct (probe_spec s key (length (keys s)) 0 Hs Hk) as (m & b & Hm & Hp & Hpass & Hres).
  - lia.
  - intros j Hj. lia.
  - exists ((f - key) mod size s). pose proof (Z.mod_pos_bound (f - key) (size s) Hpos).
    split; [unfold size, len in *; lia|]. rewrite Z.add_mod_idemp_r by lia.
    replace (key + (f - key)) with f by lia. by rewrite Z.mod_small.
  - exists m, b. split; [unfold size, len in *; lia|]. split; [|done].
    unfold DistinctPositionScratch.find_slot, checked_sub, usize. fold (size s).
    assert (size s <= 2 ^ 63) by (rewrite Hsz; apply Z.pow_le_mono_r; lia).
    rewrite checked_u_in by (unfold in_u, USIZE_BITS; lia). cbn [ok_or obind].
    rewrite (mask_is_mod s K) by (done || lia). by rewrite Z.add_0_r in Hp.
Qed.

(** A key has one slot. *)
Lemma holds_slot s key slot i b : table_inv s -> 0 <= i < size s -> passes s key i ->
  (if b : bool then occupied s ((key + i) mod size s) /\ index (keys s) ((key + i) mod size s) = Some key
   else ~ occupied s ((key + i) mod size s)) ->
  occupied s slot -> index (keys s) slot = Some key -> b = true /\ slot = (key + i) mod size s.
Proof.
  intros Hs Hi Hp Hb Ho Hk. destruct (inv_homed s Hs slot key Ho Hk) as (i' & Hi' & -> & Hp').
  destruct (Z.lt_trichotomy i i') as [Hlt|[->|Hgt]].
  - destruct (Hp' i ltac:(lia)) as [Ho' Hne]. destruct b; [by destruct Hb|done].
  - by destruct b.
  - destruct (Hp i' ltac:(lia)) as [_ Hne]. done.
Qed.

Lemma get_spec s key : table_inv s -> (used s < length (keys s))%nat -> 0 <= key ->
  (forall v, holds s key v -> DistinctPositionScratch.get s key = Ok v) /\
  ((forall v, ~ holds s key v) -> DistinctPositionScratch.get s key = Ok key).
Proof.
  intros Hs Hu Hk. unfold DistinctPositionScratch.get.
  destruct (find_slot_spec s key Hs Hu Hk) as (i & b & Hi & -> & Hp & Hb). cbn [obind].
  pose proof (Z.mod_pos_bound (key + i) (size s) ltac:(lia)) as Hslot.
  destruct (index_is_Some (values s) ((key + i) mod size s)) as [v Hv]; [by rewrite (inv_values s Hs)|].
  split.
  - intros w (slot & Ho & Hkey & Hw). destruct (holds_slot s key slot i b Hs Hi Hp Hb Ho Hkey) as [-> ->].
    rewrite Hw. done.
  - intros Hno. destruct b; [|done]. exfalso. apply (Hno v). exists ((key + i) mod size s). tauto.
Qed.

Lemma set_slot_spec l slot x : 0 <= slot < len l ->
  DistinctPositionScratch.set_slot l slot x = Ok (<[Z.to_nat slot := x]> l).
Proof. intros. unfold DistinctPositionScratch.set_slot. by case_Z. Qed.

Lemma count_insert (l : list Z) i G :
  (length (filter (fun g => g = G) (<[i := G]> l)) <= S (length (filter (fun g => g = G) l)))%nat.
Proof.
  revert i; induction l as [|g l IH]; intros i; [apply Nat.le_0_l|]. destruct i as [|i].
  - change (<[O := G]> (g :: l)) with (G :: l). rewrite !filter_cons. repeat case_decide; cbn [length]; lia.
  - change (<[S i := G]> (g :: l)) with (g :: <[i := G]> l). rewrite !filter_cons.
    pose proof (IH i). case_decide; cbn [length]; lia.
Qed.

(** The table after writing one slot. *)
Definition write s slot key v : DistinctPositionScratch :=
  {| keys := <[Z.to_nat slot := key]> (keys s); values := <[Z.to_nat slot := v]> (values s);
     generations := <[Z.to_nat slot := generation s]> (generations s); generation := generation s |}.

Section write.
Variables (s : DistinctPositionScratch) (key v i : Z).
Hypotheses (Hs : table_inv s) (Hk : 0 <= key) (Hi : 0 <= i < size s) (Hp : passes s key i).
Let slot := (key + i) mod size s.
(** The slot is free or already the key's. *)
Hypothesis Hslot : occupied s slot -> index (keys s) slot = Some key.

Lemma slot_range : 0 <= slot < size s.
Proof. clear -Hi. apply Z.mod_pos_bound. lia. Qed.

Lemma write_size : size (write s slot key v) = size s.
Proof. unfold size, write, len; cbn [keys]. by rewrite length_insert. Qed.

Lemma write_occupied j : 0 <= j ->
  occupied (write s slot key v) j <-> j = slot \/ occupied s j.
Proof.
  intros Hj. pose proof slot_range. unfold occupied, write; cbn [generations generation].
  rewrite index_insert by (rewrite ?(inv_gens s Hs); lia). destruct (Z.eqb_spec j slot); [tauto|].
  split; [by right|]. by intros [?|?].
Qed.

Lemma write_key j : 0 <= j ->
  index (keys (write s slot key v)) j = if j =? slot then Some key else index (keys s) j.
Proof. intros Hj. apply index_insert, slot_range. Qed.

Lemma write_passes k n : passes s k n ->
  (forall j, 0 <= j < n -> (k + j) mod size s = slot -> k <> key) ->
  passes (write s slot key v) k n.
Proof.
  intros Hpk Hne j Hj. rewrite write_size. destruct (Hpk j Hj) as [Ho Hkey].
  pose proof (Z.mod_pos_bound (k + j) (size s) ltac:(lia)).
  rewrite write_occupied, write_key by lia. split; [by right|].
  destruct (Z.eqb_spec ((k + j) mod size s) slot) as [He|]; [|done].
  intros [= ->]. by eapply Hne.
Qed.

Lemma write_inv : table_inv (write s slot key v).
Proof.
  pose proof slot_range as Hr. destruct Hs as [HK Hv Hg Hh]. constructor.
  - by rewrite write_size.
  - rewrite write_size. unfold write, len in *; cbn [values]. by rewrite length_insert.
  - rewrite write_size. unfold write, len in *; cbn [generations]. by rewrite length_insert.
  - intros sl k Hos Hks. rewrite write_size.
    assert (0 <= sl) by (apply index_Some_len in Hks; lia).
    rewrite write_key in Hks by done. destruct (Z.eqb_spec sl slot) as [->|Hne].
    + injection Hks as <-. exists i. split; [done|]. split; [done|].
      apply write_passes; [done|]. intros j Hj He _. destruct (Hp j Hj) as [Ho Hkey].
      rewrite He in Ho, Hkey. by apply Hkey, Hslot.
    + apply write_occupied in Hos as [?|Hos]; [done| |done].
      destruct (Hh sl k Hos Hks) as (n & Hn & -> & Hpn). exists n. split; [done|]. split; [done|].
      apply write_passes; [done|]. intros j Hj He ->.
      destruct (Hpn j Hj) as [Ho Hkey]. rewrite He in Ho, Hkey. by apply Hkey, Hslot.
Qed.

Lemma write_holds k w : 0 <= k ->
  holds (write s slot key v) k w <-> if k =? key then w = v else holds s k w.
Proof.
  intros Hk0. pose proof slot_range as Hr. unfold holds. split.
  - intros (sl & Ho & Hkey & Hval). assert (0 <= sl) by (apply index_Some_len in Hkey; lia).
    rewrite write_key in Hkey by done.
    assert (Hv : index (values (write s slot key v)) sl = if sl =? slot then Some v else index (values s) sl)
      by (apply index_insert; by rewrite (inv_values s Hs)).
    rewrite Hv in Hval. destruct (Z.eqb_spec sl slot) as [->|Hne].
    + injection Hkey as <-. injection Hval as <-. by rewrite Z.eqb_refl.
    + apply write_occupied in Ho as [?|Ho]; [done| |done]. destruct (Z.eqb_spec k key) as [->|].
      * exfalso. apply Hne.
        assert (Hb : exists b : bool, if b then occupied s slot /\ index (keys s) slot = Some key else ~ occupied s slot).
        { destruct (occupied_dec s slot Hr Hs) as (g & _ & Hg). destruct (g =? generation s).
          - exists true. split; [by apply Hg|by apply Hslot, Hg].
          - exists false. intros Hc%Hg. done. }
        destruct Hb as [b Hb]. by destruct (holds_slot s key sl i b Hs Hi Hp Hb Ho Hkey).
      * by exists sl.
  - assert (Hv : forall sl, 0 <= sl -> index (values (write s slot key v)) sl = if sl =? slot then Some v else index (values s) sl)
      by (intros; apply index_insert; by rewrite (inv_values s Hs)).
    destruct (Z.eqb_spec k key) as [->|Hne].
    + intros ->. exists slot. rewrite write_occupied, write_key, Hv, Z.eqb_refl by lia. tauto.
    + intros (sl & Ho & Hkey & Hval). assert (0 <= sl) by (apply index_Some_len in Hkey; lia).
      exists sl. rewrite write_occupied, write_key, Hv by lia. destruct (Z.eqb_spec sl slot) as [->|]; [|tauto].
      exfalso. rewrite (Hslot Ho) in Hkey. by injection Hkey.
Qed.
End write.

Lemma insert_spec s key v : table_inv s -> (used s < length (keys s))%nat -> 0 <= key ->
  exists s', DistinctPositionScratch.insert s key v = Ok s' /\ table_inv s' /\
    size s' = size s /\ generation s' = generation s /\ (used s' <= S (used s))%nat /\
    (Forall (fun g => 0 <= g <= generation s) (generations s) -> 0 <= generation s ->
     Forall (fun g => 0 <= g <= generation s') (generations s')) /\
    forall k w, 0 <= k -> holds s' k w <-> if k =? key then w = v else holds s k w.
Proof.
  intros Hs Hu Hk. unfold DistinctPositionScratch.insert.
  destruct (find_slot_spec s key Hs Hu Hk) as (i & b & Hi & -> & Hp & Hb). cbn [obind].
  pose proof (slot_range s key i Hi) as Hr.
  rewrite !set_slot_spec by (rewrite ?(inv_values s Hs), ?(inv_gens s Hs); done). cbn [obind].
  assert (Hslot : occupied s ((key + i) mod size s) -> index (keys s) ((key + i) mod size s) = Some key).
  { intros Ho. destruct b; [by destruct Hb|done]. }
  exists (write s ((key + i) mod size s) key v). split; [done|].
  split; [by apply write_inv|]. split; [by apply write_size|]. split; [done|].
  split; [apply count_insert|]. split; [|intros k w Hk0; by apply write_holds].
  intros Hg Hg0. cbn [write generations generation]. apply Forall_insert; [done|]. lia.
Qed.
End table.

(** * Reuse of the table *)

(** What every draw leaves behind: equal power-of-two lengths, or an unused
    table, and no entry from a later generation. *)
Record reusable (s : DistinctPositionScratch) : Prop := {
  ru_size : size s = 0 \/ exists K, 2 <= K < 64 /\ size s = 2 ^ K;
  ru_values : len (values s) = size s;
  ru_gens : len (generations s) = size s;
  ru_generation : in_u 32 (generation s);
  ru_old : Forall (fun g => 0 <= g <= generation s) (generations s);
}.

Lemma reusable_new : reusable DistinctPositionScratch.new.
Proof. constructor; [by left|done|done|done|constructor]. Qed.

Lemma next_power n : 0 <= n <= 2 ^ 62 ->
  exists K, 0 <= K < 63 /\ checked.checked_next_power_of_two n = Some (2 ^ K) /\ n <= 2 ^ K.
Proof.
  intros Hn. unfold checked.checked_next_power_of_two. destruct (Z.leb_spec n 1).
  - exists 0. split; [lia|]. split; [done|lia].
  - pose proof (Z.log2_up_spec n ltac:(lia)) as [H1 H2].
    assert (Z.log2_up n <= 62) by (apply Z.log2_up_le_pow2; lia).
    pose proof (Z.log2_up_nonneg n). exists (Z.log2_up n). split; [lia|]. split; [|done].
    unfold usize. apply checked_u_in. unfold in_u, USIZE_BITS.
    assert (2 ^ Z.log2_up n <= 2 ^ 62) by (apply Z.pow_le_mono_r; lia). lia.
Qed.

Lemma prepare_spec `{Allocator} s weight : (forall n, reserve_exact n = true) ->
  reusable s -> 0 <= weight <= MAX_STACK_RING_DIM ->
  exists s', DistinctPositionScratch.prepare s weight = Ok s' /\ reusable s' /\
    2 * weight + 1 < size s' /\ exists K, 2 <= K < 64 /\ size s' = 2 ^ K.
Proof.
  unfold MAX_STACK_RING_DIM. intros Hg Hs Hw. unfold DistinctPositionScratch.prepare, checked_mul, usize.
  rewrite checked_u_in by (unfold in_u, USIZE_BITS; lia).
  destruct (next_power (weight * 4)) as (K & HK & -> & Hle); [lia|]. cbn [ok_or obind].
  assert (Hc : exists K', 2 <= K' < 63 /\ Z.max (2 ^ K) 4 = 2 ^ K').
  { destruct (Z.le_gt_cases 2 K).
    - exists K. split; [lia|]. apply Z.max_l. change 4 with (2 ^ 2). apply Z.pow_le_mono_r; lia.
    - exists 2. split; [lia|]. apply Z.max_r. change 4 with (2 ^ 2). apply Z.pow_le_mono_r; lia. }
  destruct Hc as (K' & HK' & HcK). rewrite HcK. assert (weight * 4 <= 2 ^ K' /\ 4 <= 2 ^ K') by lia.
  fold (size s). destruct (Z.leb_spec (2 ^ K') (size s)) as [Hbig|Hsmall].
  - exists s. split; [done|]. split; [done|]. split; [lia|].
    destruct (ru_size s Hs) as [Hz|(k & Hk & Hsz)]; [lia|]. exists k. split; [lia|done].
  - pose proof (len_nonneg (keys s)). unfold checked_sub, usize.
    assert (2 ^ K' <= 2 ^ 62) by (apply Z.pow_le_mono_r; lia).
    rewrite checked_u_in by (unfold in_u, USIZE_BITS, size in *; lia). cbn [ok_or obind]. rewrite Hg.
    assert (Hgrow : forall l, len l = size s -> len (DistinctPositionScratch.grow l (2 ^ K')) = 2 ^ K').
    { intros l Hl. unfold DistinctPositionScratch.grow. rewrite len_app, len_replicate; lia. }
    eexists. split; [done|]. unfold size in *; cbn [keys]. rewrite Hgrow by done. split; [|split; [lia|]].
    + destruct Hs as [_ Hv Hge Hu Hold]. constructor; cbn [keys values generations generation].
      * right. exists K'. split; [lia|]. unfold size; cbn [keys]. by apply Hgrow.
      * unfold size; cbn [keys]. by rewrite !Hgrow.
      * unfold size; cbn [keys]. by rewrite !Hgrow.
      * done.
      * unfold DistinctPositionScratch.grow. apply list.Forall_app. split; [done|].
        apply Forall_replicate. unfold in_u in Hu. lia.
    + exists K'. split; [lia|done].
Qed.

(** Starting a draw empties the table whatever it holds, also when the
    generation counter wraps around. *)
Lemma clear_spec s K : reusable s -> 2 <= K < 64 -> size s = 2 ^ K ->
  let s' := DistinctPositionScratch.clear s in
  reusable s' /\ table_inv s' /\ size s' = size s /\ used s' = O /\ forall k v, ~ holds s' k v.
Proof.
  intros Hs HK Hsz. cbv zeta. set (s' := DistinctPositionScratch.clear s).
  assert (Hshape : keys s' = keys s /\ values s' = values s /\ len (generations s') = len (generations s) /\
            in_u 32 (generation s') /\ Forall (fun g => 0 <= g < generation s') (generations s')).
  { destruct Hs as [_ _ _ [Hu1 Hu2] Hold]. unfold s', DistinctPositionScratch.clear.
    destruct (Z.eqb_spec (uwrap 32 (generation s + 1)) 0) as [E|E]; cbn [keys values generations generation].
    - do 2 (split; [done|]). unfold len. rewrite length_replicate. split; [done|]. split; [done|].
      apply Forall_replicate. lia.
    - assert (Hg : uwrap 32 (generation s + 1) = generation s + 1).
      { apply uwrap_id. split; [lia|]. destruct (Z.eq_dec (generation s + 1) (2 ^ 32)) as [Hw|]; [|lia].
        unfold uwrap in E. rewrite Hw, Z.mod_same in E by lia. done. }
      rewrite Hg. do 3 (split; [done|]). split.
      + rewrite <-Hg. apply uwrap_in. lia.
      + eapply Forall_impl; [|exact Hold]. cbn. lia. }
  destruct Hshape as (Hk & Hv & Hgl & Hu & Hold).
  assert (Hno : forall slot, ~ occupied s' slot).
  { intros slot Ho. unfold occupied, index in Ho. destruct (0 <=? slot); [|done].
    apply list_elem_of_lookup_2 in Ho. rewrite Forall_forall in Hold.
    apply list_elem_of_In in Ho. apply Hold in Ho. lia. }
  assert (Hsize : size s' = size s) by (unfold size; by rewrite Hk).
  split; [|split; [|split; [done|split]]].
  - destruct Hs as [H1 H2 H3 _ _]. constructor; rewrite ?Hsize; try done.
    + by rewrite Hv.
    + by rewrite Hgl.
    + eapply Forall_impl; [|exact Hold]. cbn. lia.
  - destruct Hs as [H1 H2 H3 _ _]. constructor; rewrite ?Hsize.
    + exists K. split; [lia|done].
    + by rewrite Hv.
    + by rewrite Hgl.
    + intros slot key Ho. by apply Hno in Ho.
  - unfold used. clear -Hold. induction Hold as [|g gs Hg _ IH]; [done|].
    rewrite filter_cons, decide_False by lia. done.
  - intros k v (slot & Ho & _). by apply Hno in Ho.
Qed.

(** * Partial Fisher-Yates *)

Section fisher_yates.
Context `{Keccak, Allocator}.
Variable fuel : nat.

(** The table stands for the permutation [perm] of [0..universe]. *)
Definition mirrors (s : DistinctPositionScratch) (perm : list Z) : Prop :=
  forall k, 0 <= k < len perm ->
    (forall v, holds s k v -> index perm k = Some v) /\
    ((forall v, ~ holds s k v) -> index perm k = Some k).

Lemma mirrors_get s perm k : mirrors s perm -> table_inv s -> (used s < length (keys s))%nat ->
  0 <= k < len perm -> exists v, index perm k = Some v /\ DistinctPositionScratch.get s k = Ok v.
Proof.
  intros Hm Hs Hu Hk. destruct (Hm k Hk) as [H1 H2].
  destruct (get_spec s k Hs Hu ltac:(lia)) as [G1 G2].
  assert (Hdec : (exists v, holds s k v) \/ forall v, ~ holds s k v).
  { destruct (find_slot_spec s k Hs Hu ltac:(lia)) as (i & b & Hi & _ & Hp & Hb).
    pose proof (Z.mod_pos_bound (k + i) (size s) ltac:(lia)) as Hslot. destruct b.
    - left. destruct (index_is_Some (values s) ((k + i) mod size s)) as [v Hv]; [by rewrite (inv_values s Hs)|].
      exists v, ((k + i) mod size s). tauto.
    - right. intros v (slot & Ho & Hkey & _). by destruct (holds_slot s k slot i false Hs Hi Hp Hb Ho Hkey). }
  destruct Hdec as [[v Hv]|Hno].
  - exists v. split; [by apply H1|by apply G1].
  - exists k. split; [by apply H2|by apply G2].
Qed.

Lemma mirrors_insert s perm k v : mirrors s perm -> table_inv s -> (used s < length (keys s))%nat ->
  0 <= k < len perm ->
  exists s', DistinctPositionScratch.insert s k v = Ok s' /\ table_inv s' /\ size s' = size s /\
    (used s' <= S (used s))%nat /\ (reusable s -> reusable s') /\ mirrors s' (<[Z.to_nat k := v]> perm).
Proof.
  intros Hm Hs Hu Hk. destruct (insert_spec s k v Hs Hu ltac:(lia)) as (s' & He & Hs' & Hsz & Hgen & Hu' & Hold & Hh).
  exists s'. split; [done|]. do 3 (split; [done|]). split.
  - intros [R1 R2 R3 R4 R5]. destruct Hs' as [_ V' G' _]. constructor; rewrite ?Hsz in *; try done.
    + by rewrite Hgen.
    + apply Hold; [done|]. by destruct R4.
  - intros j Hj. unfold len in Hj. rewrite length_insert in Hj. fold (len perm) in Hj.
    rewrite index_insert by lia. destruct (Hm j Hj) as [H1 H2]. split.
    + intros w Hw%Hh; [|lia]. destruct (Z.eqb_spec j k); [by subst|by apply H1].
    + intros Hno. destruct (Z.eqb_spec j k) as [->|Hne].
      * exfalso. apply (Hno v), Hh; [lia|]. by rewrite Z.eqb_refl.
      * apply H2. intros w Hw. apply (Hno w), Hh; [lia|]. by destruct (Z.eqb_spec j k).
Qed.

(** The draws of one sample: index [i] draws a position of [i..universe]. *)
Fixpoint draws (universe : Z) (indices : list Z) (c : XofCursor) : result (list Z * XofCursor) :=
  match indices with
  | [] => Ok ([], c)
  | i :: indices =>
      let* (j, c) := draw_index fuel c universe i in
      let* (js, c) := draws universe indices c in
      Ok (j :: js, c)
  end.

Definition swapped (perm : list Z) (i j : Z) : list Z :=
  let x := nth (Z.to_nat i) perm 0 in
  let y := nth (Z.to_nat j) perm 0 in
  <[Z.to_nat j := x]> (<[Z.to_nat i := y]> perm).

(** The positions selected by the draws [js], starting at index [i]. *)
Fixpoint select (perm : list Z) (i : Z) (js : list Z) : list Z :=
  match js with
  | [] => []
  | j :: js => nth (Z.to_nat j) perm 0 :: select (swapped perm i j) (i + 1) js
  end.

(** A cursor that is somewhere in a stream. *)
Definition follows `{!KeccakLaws} (c : XofCursor) : Prop :=
  exists st0 n, lanes_ok st0 /\ cursor_at st0 n c.

Context `{!KeccakLaws}.

Lemma next_usize_mod_range {Er} c modulus v c' : follows c -> 1 <= modulus ->
  XofCursor.next_usize_mod (Er := Er) fuel c modulus = Ok (v, c') -> 0 <= v < modulus /\ follows c'.
Proof.
  intros (st0 & n & Hs & Hc) Hm. unfold XofCursor.next_usize_mod.
  destruct (Z.eqb_spec modulus 1) as [->|].
  { intros [= <- <-]. split; [lia|]. by exists st0, n. }
  destruct (draw_bits_spec modulus ltac:(lia)) as [Hb _]. revert n c Hc.
  induction fuel as [|f IH]; intros n c Hc; [done|]. cbn [XofCursor.rejection].
  destruct (candidate_spec st0 Hs (Er := Er) (XofCursor.draw_bits modulus) n c Hc) as (c1 & -> & Hat).
  cbn [obind]. destruct (Z.ltb_spec (draw_value st0 (XofCursor.draw_bits modulus) n) modulus).
  - intros [= <- <-]. split; [|by eexists _, _]. split; [|done]. unfold draw_value.
    rewrite mask_mod by lia. by apply Z.mod_pos_bound, pow2_pos; lia.
  - by eapply IH.
Qed.

Lemma draw_index_range c universe i j c' : follows c -> 0 <= i < universe -> universe <= MAX_STACK_RING_DIM ->
  draw_index fuel c universe i = Ok (j, c') -> i <= j < universe /\ follows c'.
Proof.
  unfold MAX_STACK_RING_DIM. intros Hf Hi Hu. unfold draw_index, checked_sub, usize.
  rewrite checked_u_in by (unfold in_u, USIZE_BITS; lia). cbn [unwrap obind]. intros Hd.
  obind_inv Hd. destruct a as [d c1]. injection Hd as <- <-.
  apply next_usize_mod_range in E as [Hr Hf2]; [|done|lia]. split; [lia|done].
Qed.

Lemma length_swapped perm i j : length (swapped perm i j) = length perm.
Proof. unfold swapped. by rewrite !length_insert. Qed.

Lemma index_nth (l : list Z) i : 0 <= i < len l -> index l i = Some (nth (Z.to_nat i) l 0).
Proof.
  intros Hi. destruct (index_is_Some l i Hi) as [x Hx]. rewrite Hx. f_equal.
  unfold index in Hx. destruct (0 <=? i); [|done]. by erewrite nth_lookup_Some by exact Hx.
Qed.

Lemma nth_swapped perm i j : 0 <= i < len perm -> 0 <= j < len perm ->
  nth (Z.to_nat i) (swapped perm i j) 0 = nth (Z.to_nat j) perm 0.
Proof.
  intros Hi Hj. unfold swapped. apply nth_lookup_Some. unfold len in *.
  destruct (decide (i = j)) as [->|Hne].
  - rewrite list_lookup_insert_eq by (rewrite length_insert; lia). done.
  - rewrite list_lookup_insert_ne by lia. by apply list_lookup_insert_eq; lia.
Qed.

(** The dense loop. *)
Definition stack_body (universe : Z) :=
  fun '(out, c, perm) i =>
    let* (j, c) := draw_index fuel c universe i in
    let* perm := swap perm i j in
    let* p := unwrap (index perm i) in
    Ok (E := AkitaError) (out ++ [p], c, perm).

Lemma swap_spec perm i j : 0 <= i < len perm -> 0 <= j < len perm ->
  swap perm i j = Ok (swapped perm i j).
Proof.
  intros Hi Hj. unfold swap. rewrite !index_nth by done. cbn [unwrap obind].
  unfold store at 1. case_Z. cbn [obind]. unfold store, len. rewrite length_insert. fold (len perm). case_Z.
  done.
Qed.

Lemma stack_loop universe m i out c perm :
  follows c -> 0 <= i -> i + Z.of_nat m <= universe -> universe <= MAX_STACK_RING_DIM -> universe <= len perm ->
  match draws universe (seqZ i (Z.of_nat m)) c with
  | Ok (js, c') => exists perm',
      ofold (stack_body universe) (seqZ i (Z.of_nat m)) (out, c, perm) = Ok (out ++ select perm i js, c', perm')
  | Err e => ofold (stack_body universe) (seqZ i (Z.of_nat m)) (out, c, perm) = Err e
  | Panic => ofold (stack_body universe) (seqZ i (Z.of_nat m)) (out, c, perm) = Panic
  end.
Proof.
  revert i out c perm; induction m as [|m IH]; intros i out c perm Hf Hi Hm Hu Hl.
  - cbn [seqZ draws ofold select]. exists perm. cbn. by rewrite app_nil_r.
  - rewrite seqZ_cons by lia. replace (Z.pred (Z.of_nat (S m))) with (Z.of_nat m) by lia.
    cbn [draws ofold]. unfold stack_body at 1 3 5.
    destruct (draw_index fuel c universe i) as [[j c1]| |] eqn:Ed; cbn [obind]; [|done|done].
    destruct (draw_index_range c universe i j c1 Hf ltac:(lia) Hu Ed) as [Hj Hf1].
    rewrite swap_spec by lia. cbn [obind].
    rewrite index_nth by (unfold len; rewrite length_swapped; fold (len perm); lia).
    rewrite nth_swapped by lia. cbn [unwrap obind].
    specialize (IH (i + 1) (out ++ [nth (Z.to_nat j) perm 0]) c1 (swapped perm i j) Hf1 ltac:(lia) ltac:(lia) Hu
                  ltac:(unfold len; rewrite length_swapped; done)).
    change (Z.succ i) with (i + 1).
    destruct (draws universe (seqZ (i + 1) (Z.of_nat m)) c1) as [[js c2]| |]; cbn [obind]; [|done|done].
    destruct IH as [perm' ->]. exists perm'. cbn [select]. by rewrite <-app_assoc.
Qed.

(** The sparse loop. *)
Definition sparse_body (universe : Z) :=
  fun '(out, c, scratch) i =>
    let* (j, c) := draw_index fuel c universe i in
    let* left_value := DistinctPositionScratch.get scratch i in
    let* right_value := DistinctPositionScratch.get scratch j in
    let* scratch := DistinctPositionScratch.insert scratch i right_value in
    let* scratch := DistinctPositionScratch.insert scratch j left_value in
    let* p := ok_or (checked_u 32 right_value) InvalidProof in
    Ok (E := AkitaError) (out ++ [p], c, scratch).

Lemma sparse_loop universe m i out c s perm :
  follows c -> 0 <= i -> i + Z.of_nat m <= universe -> universe <= MAX_STACK_RING_DIM -> universe = len perm ->
  Forall (fun v => 0 <= v < universe) perm ->
  mirrors s perm -> table_inv s -> reusable s -> (used s + 2 * m < length (keys s))%nat ->
  match draws universe (seqZ i (Z.of_nat m)) c with
  | Ok (js, c') => exists s', reusable s' /\
      ofold (sparse_body universe) (seqZ i (Z.of_nat m)) (out, c, s) = Ok (out ++ select perm i js, c', s')
  | Err e => ofold (sparse_body universe) (seqZ i (Z.of_nat m)) (out, c, s) = Err e
  | Panic => ofold (sparse_body universe) (seqZ i (Z.of_nat m)) (out, c, s) = Panic
  end.
Proof.
  revert i out c s perm; induction m as [|m IH]; intros i out c s perm Hf Hi Hm Hu Hl Hv Hmir Hs Hr Hused.
  - cbn [seqZ draws ofold select]. exists s. cbn. by rewrite app_nil_r.
  - rewrite seqZ_cons by lia. replace (Z.pred (Z.of_nat (S m))) with (Z.of_nat m) by lia.
    cbn [draws ofold]. unfold sparse_body at 1 3 5.
    destruct (draw_index fuel c universe i) as [[j c1]| |] eqn:Ed; cbn [obind]; [|done|done].
    destruct (draw_index_range c universe i j c1 Hf ltac:(lia) Hu Ed) as [Hj Hf1].
    destruct (mirrors_get s perm i Hmir Hs ltac:(lia) ltac:(lia)) as (x & Hx & ->). cbn [obind].
    destruct (mirrors_get s perm j Hmir Hs ltac:(lia) ltac:(lia)) as (y & Hy & ->). cbn [obind].
    destruct (mirrors_insert s perm i y Hmir Hs ltac:(lia) ltac:(lia)) as (s1 & -> & Hs1 & Hz1 & Hu1 & Hr1 & Hm1).
    cbn [obind]. assert (Hk1 : length (keys s1) = length (keys s)) by (unfold size, len in Hz1; lia).
    destruct (mirrors_insert s1 _ j x Hm1 Hs1) as (s2 & -> & Hs2 & Hz2 & Hu2 & Hr2 & Hm2);
      [lia|unfold len; rewrite length_insert; fold (len perm); lia|].
    cbn [obind]. assert (Hk2 : length (keys s2) = length (keys s)) by (unfold size, len in Hz2; lia).
    rewrite index_nth in Hx, Hy by lia. injection Hx as Hx. injection Hy as Hy.
    assert (Hyr : 0 <= y < universe).
    { rewrite Forall_forall in Hv. apply Hv. rewrite <-Hy. apply nth_In. unfold len in Hl. lia. }
    rewrite checked_u_in by (unfold in_u, MAX_STACK_RING_DIM in *; lia). cbn [ok_or obind].
    replace (<[Z.to_nat j:=x]> (<[Z.to_nat i:=y]> perm)) with (swapped perm i j) in Hm2
      by (unfold swapped; by rewrite Hx, Hy).
    assert (Hxr : 0 <= x < universe).
    { rewrite Forall_forall in Hv. apply Hv. rewrite <-Hx. apply nth_In. unfold len in Hl. lia. }
    assert (Hperm : Forall (fun v => 0 <= v < universe) (swapped perm i j)).
    { unfold swapped. rewrite Hx, Hy. by repeat apply Forall_insert. }
    specialize (IH (i + 1) (out ++ [y]) c1 s2 (swapped perm i j) Hf1 ltac:(lia) ltac:(lia) Hu
      ltac:(unfold len; rewrite length_swapped; exact Hl) Hperm Hm2 Hs2 ltac:(auto) ltac:(lia)).
    change (Z.succ i) with (i + 1).
    destruct (draws universe (seqZ (i + 1) (Z.of_nat m)) c1) as [[js c2]| |]; cbn [obind]; [|done|done].
    destruct IH as (s' & Hr' & ->). exists s'. split; [done|]. cbn [select]. by rewrite Hy, <-app_assoc.
Qed.

(** Entries past the universe are never touched. *)
Lemma select_tail perm tail i js :
  0 <= i -> i + len js <= len perm ->
  Forall (fun j => 0 <= j < len perm) js -> select (perm ++ tail) i js = select perm i js.
Proof.
  revert perm i; induction js as [|j js IH]; intros perm i Hi Hl Hj; [done|].
  apply Forall_cons_1 in Hj as [Hj Hjs]. rewrite len_cons in Hl. pose proof (len_nonneg js).
  cbn [select]. assert (Hn : forall k, 0 <= k < len perm -> nth (Z.to_nat k) (perm ++ tail) 0 = nth (Z.to_nat k) perm 0).
  { intros k Hk. apply app_nth1. unfold len in Hk. lia. }
  rewrite Hn by lia. f_equal.
  assert (Hs : swapped (perm ++ tail) i j = swapped perm i j ++ tail).
  { unfold swapped. rewrite !Hn by lia.
    rewrite (list.insert_app_l perm) by (unfold len in *; lia).
    rewrite list.insert_app_l by (rewrite length_insert; unfold len in *; lia). done. }
  rewrite Hs. apply IH; unfold len in *; rewrite ?length_swapped; try done; lia.
Qed.

(** The initial permutation of a tier. *)
Lemma identity_loop tbits universe N :
  0 <= universe <= 2 ^ tbits -> universe <= N ->
  ofold (fun perm i => let* v := ok_or (checked_u tbits i) InvalidProof in store perm i v)
    (range universe) (replicate (Z.to_nat N) 0)
  = Ok (E := AkitaError) (range universe ++ replicate (Z.to_nat (N - universe)) 0).
Proof.
  intros Hu HN.
  destruct (ofold_range (fun i perm => perm = range i ++ replicate (Z.to_nat (N - i)) 0)
    (fun perm i => let* v := ok_or (checked_u tbits i) InvalidProof in store (E := AkitaError) perm i v) universe
    (replicate (Z.to_nat N) 0)) as (perm & -> & ->); [lia|by rewrite Z.sub_0_r| |done].
  intros i perm Hi ->. rewrite checked_u_in by (unfold in_u; lia). cbn [ok_or obind].
  replace (Z.to_nat (N - i)) with (S (Z.to_nat (N - (i + 1)))) by lia. cbn [replicate].
  rewrite store_middle by (rewrite len_range; lia). eexists. split; [done|].
  rewrite range_S, <-app_assoc by lia. done.
Qed.

Lemma tier_spec universe : universe <= MAX_STACK_RING_DIM ->
  exists tbits N, tier universe = Some (tbits, N) /\ universe <= N <= MAX_STACK_TIER_RING_DIM /\
    universe <= 2 ^ tbits.
Proof.
  unfold MAX_STACK_RING_DIM. intros Hu. unfold tier, MAX_STACK_TIER_RING_DIM.
  repeat match goal with |- context [universe <=? ?b] => destruct (Z.leb_spec universe b) end;
    try lia; eexists _, _; (split; [done|lia]).
Qed.

Lemma draws_range universe m i c js c' :
  follows c -> 0 <= i -> i + Z.of_nat m <= universe -> universe <= MAX_STACK_RING_DIM ->
  draws universe (seqZ i (Z.of_nat m)) c = Ok (js, c') ->
  Forall2 (fun k j => k <= j < universe) (seqZ i (Z.of_nat m)) js /\ follows c'.
Proof.
  revert i c js; induction m as [|m IH]; intros i c js Hf Hi Hm Hu.
  - cbn. intros [= <- <-]. by split; [constructor|].
  - rewrite seqZ_cons by lia. replace (Z.pred (Z.of_nat (S m))) with (Z.of_nat m) by lia.
    cbn [draws]. intros He. obind_inv He. destruct a as [j c1]. obind_inv He. destruct a as [js1 c2].
    injection He as <- <-. destruct (draw_index_range c universe i j c1 Hf ltac:(lia) Hu E) as [Hj Hf1].
    change (Z.succ i) with (i + 1) in *. apply IH in E0 as [Hfor Hf2]; try done; try lia.
    split; [by constructor|done].
Qed.

Lemma stack_spec c universe n tbits N :
  follows c -> 0 <= n <= universe -> universe <= N <= MAX_STACK_TIER_RING_DIM -> universe <= 2 ^ tbits ->
  sample_distinct_positions_into_stack fuel tbits N c universe n
  = let* (js, c') := draws universe (range n) c in Ok (select (range universe) 0 js, c').
Proof.
  intros Hf Hn HN Hb. unfold sample_distinct_positions_into_stack.
  destruct (Z.ltb_spec universe n); [lia|]. destruct (Z.ltb_spec N universe); [lia|].
  destruct (Z.ltb_spec MAX_STACK_TIER_RING_DIM N); [lia|]. cbn [orb].
  rewrite identity_loop by lia. cbn [obind]. fold (stack_body universe).
  pose proof (stack_loop universe (Z.to_nat n) 0 [] c (range universe ++ replicate (Z.to_nat (N - universe)) 0)
    Hf ltac:(lia) ltac:(lia) ltac:(unfold MAX_STACK_RING_DIM, MAX_STACK_TIER_RING_DIM in *; lia)) as Hloop.
  pose proof (draws_range universe (Z.to_nat n) 0 c) as Hr. rewrite Z2Nat.id in Hloop, Hr by lia.
  fold (range n) in Hloop, Hr. rewrite len_app, len_range, len_replicate in Hloop by lia. specialize (Hloop ltac:(lia)).
  destruct (draws universe (range n) c) as [[js c']| |]; cbn [obind]; [|by rewrite Hloop..].
  destruct Hloop as [perm' ->]. cbn [obind app]. do 2 f_equal.
  destruct (Hr js c' Hf) as [Hfor _]; [lia|lia|unfold MAX_STACK_RING_DIM, MAX_STACK_TIER_RING_DIM in *; lia|done|].
  apply select_tail; [lia| |].
  - apply Forall2_length in Hfor. rewrite length_range in Hfor. unfold len. rewrite <-Hfor, length_range. lia.
  - rewrite len_range by lia. clear -Hfor. unfold range in Hfor. remember (seqZ 0 n) as l eqn:El.
    assert (Hl : Forall (fun k => 0 <= k) l) by (subst; apply Forall_forall; intros k Hk%list_elem_of_In%elem_of_seqZ; lia).
    clear El. induction Hfor as [|k j l js Hj _ IH]; [constructor|]. apply Forall_cons_1 in Hl as [Hk Hl].
    constructor; [lia|auto].
Qed.

Lemma mirrors_identity s universe : 0 <= universe -> (forall k v, ~ holds s k v) -> mirrors s (range universe).
Proof.
  intros Hu Hno k Hk. rewrite len_range in Hk by done. split.
  - intros v Hv. by apply Hno in Hv.
  - intros _. unfold index. destruct (Z.leb_spec 0 k); [|lia]. unfold range.
    rewrite lookup_seqZ_lt by lia. f_equal. lia.
Qed.

Lemma sparse_spec c universe n s : (forall k, reserve_exact k = true) -> reusable s ->
  follows c -> 0 <= n <= universe -> universe <= MAX_STACK_RING_DIM ->
  match draws universe (range n) c with
  | Ok (js, c') => exists s', reusable s' /\
      sample_distinct_positions_into_sparse fuel c universe n s = Ok (select (range universe) 0 js, c', s')
  | Err e => sample_distinct_positions_into_sparse fuel c universe n s = Err e
  | Panic => sample_distinct_positions_into_sparse fuel c universe n s = Panic
  end.
Proof.
  intros Hg Hs Hf Hn Hu. unfold sample_distinct_positions_into_sparse.
  destruct (prepare_spec s n Hg Hs ltac:(lia)) as (s1 & -> & Hs1 & Hbig & K & HK & Hsz). cbn [obind].
  destruct (clear_spec s1 K Hs1 HK Hsz) as (Hr & Hinv & Hsize & Hused & Hno).
  set (s2 := DistinctPositionScratch.clear s1) in *. fold (sparse_body universe).
  pose proof (sparse_loop universe (Z.to_nat n) 0 [] c s2 (range universe)) as Hloop.
  rewrite Z2Nat.id in Hloop by lia. apply Hloop; try done; try lia.
  - rewrite len_range; lia.
  - apply Forall_forall. intros v Hv%list_elem_of_In%elem_of_range. done.
  - apply mirrors_identity; [lia|done].
  - unfold size, len in *. lia.
Qed.
End fisher_yates.

(** * Every ordered choice of positions is one sequence of draws *)

Section selection.
Local Open Scope nat_scope.

(** Draw number [k] lies in [[i + k, universe)]. *)
Fixpoint valid_draws (universe i : Z) (js : list Z) : Prop :=
  match js with
  | [] => True
  | j :: js => (i <= j < universe)%Z /\ valid_draws universe (i + 1) js
  end.

Lemma swapped_lookup perm i j k : (0 <= i < len perm)%Z -> (0 <= j < len perm)%Z ->
  swapped perm i j !! k =
    if decide (k = Z.to_nat j) then perm !! Z.to_nat i
    else if decide (k = Z.to_nat i) then perm !! Z.to_nat j else perm !! k.
Proof.
  intros Hi Hj. unfold swapped, len in *.
  destruct (lookup_lt_is_Some_2 perm (Z.to_nat i)) as [x Hx]; [lia|].
  destruct (lookup_lt_is_Some_2 perm (Z.to_nat j)) as [y Hy]; [lia|].
  rewrite (nth_lookup_Some perm (Z.to_nat i) 0%Z x Hx), (nth_lookup_Some perm (Z.to_nat j) 0%Z y Hy).
  case_decide as E1; [subst; rewrite list_lookup_insert_eq by (rewrite length_insert; lia); done|].
  rewrite list_lookup_insert_ne by done.
  case_decide as E2; [subst; rewrite list_lookup_insert_eq by lia; done|].
  by rewrite list_lookup_insert_ne.
Qed.

Lemma swapped_NoDup perm i j : (0 <= i < len perm)%Z -> (0 <= j < len perm)%Z ->
  NoDup perm -> NoDup (swapped perm i j).
Proof.
  intros Hi Hj Hn. rewrite NoDup_alt in *. intros a b x. rewrite !swapped_lookup by done.
  repeat case_decide; intros Ha Hb; pose proof (Hn _ _ x Ha Hb); lia.
Qed.

(** After a step the remaining choices are those of the shorter suffix. *)
Lemma swapped_suffix perm i j x : (0 <= i <= j)%Z -> (j < len perm)%Z -> NoDup perm ->
  (exists k, Z.to_nat (i + 1) <= k /\ swapped perm i j !! k = Some x) <->
  (exists k, Z.to_nat i <= k /\ perm !! k = Some x) /\ perm !! Z.to_nat j <> Some x.
Proof.
  intros Hi Hj Hn. rewrite NoDup_alt in Hn. split.
  - intros (k & Hk & Hx). rewrite swapped_lookup in Hx by lia. repeat case_decide; try lia.
    + split; [exists (Z.to_nat i); split; [lia|done]|]. intros Hy. pose proof (Hn _ _ x Hx Hy). lia.
    + split; [exists k; split; [lia|done]|]. intros Hy. by pose proof (Hn _ _ x Hx Hy).
  - intros [(k & Hk & Hx) Hne]. destruct (decide (k = Z.to_nat i)) as [->|Hki].
    + exists (Z.to_nat j). assert (i <> j) by (intros ->; done). split; [lia|].
      rewrite swapped_lookup by lia. by rewrite decide_True.
    + exists k. split; [lia|]. rewrite swapped_lookup by lia.
      rewrite decide_False by (intros ->; done). by rewrite decide_False.
Qed.

Lemma nth_some (perm : list Z) j : (0 <= j < len perm)%Z -> perm !! Z.to_nat j = Some (nth (Z.to_nat j) perm 0%Z).
Proof.
  intros Hj. destruct (lookup_lt_is_Some_2 perm (Z.to_nat j)) as [y Hy]; [unfold len in Hj; lia|].
  rewrite Hy. f_equal. symmetry. by apply nth_lookup_Some.
Qed.

Lemma select_distinct js : forall perm i, NoDup perm -> (0 <= i)%Z -> valid_draws (len perm) i js ->
  NoDup (select perm i js) /\ length (select perm i js) = length js /\
  forall x, x ∈ select perm i js -> exists k, Z.to_nat i <= k /\ perm !! k = Some x.
Proof.
  induction js as [|j js IH]; intros perm i Hn Hi Hv; cbn [select valid_draws] in *.
  - split; [constructor|]. split; [done|]. intros x Hx. by apply elem_of_nil in Hx.
  - destruct Hv as [Hj Hv]. pose proof (nth_some perm j ltac:(lia)) as Hy.
    assert (Hls : len (swapped perm i j) = len perm) by (unfold len; by rewrite length_swapped).
    destruct (IH (swapped perm i j) (i + 1)%Z) as (H1 & H2 & H3);
      [apply swapped_NoDup; (done || lia)|lia|by rewrite Hls|].
    split; [|split; [cbn; by rewrite H2|]].
    + constructor; [|done]. intros Hin. apply H3 in Hin.
      apply swapped_suffix in Hin as [_ Hne]; [by apply Hne|lia|lia|done].
    + intros x [->|Hin]%elem_of_cons; [exists (Z.to_nat j); split; [lia|done]|].
      apply H3, swapped_suffix in Hin as [Hx _]; [done|lia|lia|done].
Qed.

Lemma select_injective js : forall js' perm i, NoDup perm -> (0 <= i)%Z ->
  valid_draws (len perm) i js -> valid_draws (len perm) i js' ->
  select perm i js = select perm i js' -> js = js'.
Proof.
  induction js as [|j js IH]; intros [|j' js'] perm i Hn Hi Hv Hv' He; try done.
  cbn [select valid_draws] in *. destruct Hv as [Hj Hv], Hv' as [Hj' Hv']. injection He as Hx Hrest.
  assert (j = j') as <-.
  { rewrite NoDup_alt in Hn. pose proof (nth_some perm j ltac:(lia)) as Hy.
    pose proof (nth_some perm j' ltac:(lia)) as Hy'. rewrite <-Hx in Hy'. pose proof (Hn _ _ _ Hy Hy'). lia. }
  f_equal. apply (IH js' (swapped perm i j) (i + 1)%Z); try lia; try done.
  - apply swapped_NoDup; (done || lia).
  - unfold len. by rewrite length_swapped.
  - unfold len. by rewrite length_swapped.
Qed.

Lemma select_surjective out : forall perm i, NoDup perm -> (0 <= i)%Z -> NoDup out ->
  (forall x, x ∈ out -> exists k, Z.to_nat i <= k /\ perm !! k = Some x) ->
  exists js, valid_draws (len perm) i js /\ length js = length out /\ select perm i js = out.
Proof.
  induction out as [|x out IH]; intros perm i Hn Hi Ho Hin; [by exists []|].
  apply list.NoDup_cons in Ho as [Hx Ho]. destruct (Hin x ltac:(by left)) as (k & Hk & Hkx).
  apply lookup_lt_Some in Hkx as Hlt. set (j := Z.of_nat k).
  assert (Hj : (i <= j < len perm)%Z) by (unfold j, len; lia).
  assert (Hjx : perm !! Z.to_nat j = Some x) by (unfold j; by rewrite Nat2Z.id).
  destruct (IH (swapped perm i j) (i + 1)%Z) as (js & Hv & Hl & Hs).
  - apply swapped_NoDup; (done || lia).
  - lia.
  - done.
  - intros y Hy. apply swapped_suffix; [lia|lia|done|]. split; [apply Hin; by right|].
    rewrite Hjx. intros [= ->]. done.
  - exists (j :: js). cbn [valid_draws select length]. unfold len in Hv. rewrite length_swapped in Hv.
    split; [by split|]. split; [by rewrite Hl|]. rewrite Hs. f_equal.
    by apply nth_lookup_Some.
Qed.
End selection.

(** * Properties *)

Section properties.
Context `{KeccakLaws, Allocator}.
Variable fuel : nat.

Lemma rejection_no_err {Er} bits modulus c e : follows c ->
  XofCursor.rejection (Er := Er) fuel bits modulus c <> Err e.
Proof.
  intros (st0 & n & Hs & Hc). revert n c Hc. induction fuel as [|f IH]; intros n c Hc; [done|].
  cbn [XofCursor.rejection]. destruct (candidate_spec st0 Hs (Er := Er) bits n c Hc) as (c1 & -> & Hat).
  cbn [obind]. destruct (_ <? modulus); [done|]. by eapply IH.
Qed.

Lemma draws_no_err universe m i c e :
  follows c -> 0 <= i -> i + Z.of_nat m <= universe -> universe <= MAX_STACK_RING_DIM ->
  draws fuel universe (seqZ i (Z.of_nat m)) c <> Err e.
Proof.
  revert i c; induction m as [|m IH]; intros i c Hf Hi Hm Hu; [done|].
  rewrite seqZ_cons by lia. replace (Z.pred (Z.of_nat (S m))) with (Z.of_nat m) by lia. cbn [draws].
  assert (Hd : draw_index fuel c universe i <> Err e).
  { unfold draw_index, checked_sub, usize, MAX_STACK_RING_DIM in *.
    rewrite checked_u_in by (unfold in_u, USIZE_BITS; lia). cbn [unwrap obind].
    unfold XofCursor.next_usize_mod. destruct (universe - i =? 1); [done|].
    pose proof (rejection_no_err (Er := AkitaError) (XofCursor.draw_bits (universe - i)) (universe - i) c e Hf).
    by destruct (XofCursor.rejection _ _ _ _) as [[]| |]. }
  destruct (draw_index fuel c universe i) as [[j c1]| |] eqn:Ed; cbn [obind]; [|congruence|done].
  destruct (draw_index_range fuel c universe i j c1 Hf ltac:(lia) Hu Ed) as [_ Hf1].
  change (Z.succ i) with (i + 1). pose proof (IH (i + 1) c1 Hf1 ltac:(lia) ltac:(lia) Hu).
  by destruct (draws fuel universe (seqZ (i + 1) (Z.of_nat m)) c1) as [[]| |].
Qed.

(** What both samplers and the dispatcher return. *)
Lemma samplers_outcome `{BuildMode} c universe n s :
  (forall k, reserve_exact k = true) -> reusable s -> follows c ->
  0 <= n <= universe -> universe <= MAX_STACK_RING_DIM ->
  match draws fuel universe (range n) c with
  | Ok (js, c') =>
      (exists s', reusable s' /\ sample_distinct_positions_into_sparse fuel c universe n s
         = Ok (select (range universe) 0 js, c', s')) /\
      (exists s', reusable s' /\ sample_distinct_positions_into fuel c universe n s
         = Ok (select (range universe) 0 js, c', s')) /\
      valid_draws universe 0 js /\ length js = Z.to_nat n /\ follows c'
  | Err _ => False
  | Panic => sample_distinct_positions_into_sparse fuel c universe n s = Panic /\
             sample_distinct_positions_into fuel c universe n s = Panic
  end.
Proof.
  intros Hg Hs Hf Hn Hu. pose proof (sparse_spec fuel c universe n s Hg Hs Hf Hn Hu) as Hsp.
  destruct (tier_spec universe Hu) as (tbits & N & Ht & HN & Hb).
  pose proof (stack_spec fuel c universe n tbits N Hf Hn HN Hb) as Hst.
  pose proof (draws_range fuel universe (Z.to_nat n) 0 c) as Hr.
  pose proof (draws_no_err universe (Z.to_nat n) 0 c) as Hne.
  rewrite Z2Nat.id in Hr, Hne by lia. fold (range n) in Hr, Hne.
  unfold sample_distinct_positions_into, debug_assert.
  destruct (Z.leb_spec n universe); [|lia]. destruct (Z.leb_spec universe MAX_STACK_RING_DIM); [|lia].
  cbn [negb]. rewrite !andb_false_r. cbn [obind]. rewrite Ht, Hst.
  destruct (draws fuel universe (range n) c) as [[js c']|e|]; cbn [obind].
  - split; [done|]. split; [destruct (_ <? universe); [done|by exists s]|].
    destruct (Hr js c' Hf ltac:(lia) ltac:(lia) Hu eq_refl) as [Hfor Hf'].
    split; [|split; [apply Forall2_length in Hfor; by rewrite length_range in Hfor|done]].
    clear -Hfor. unfold range in Hfor. remember 0 as i eqn:Ei in Hfor |- *. clear Ei.
    revert i n Hfor. induction js as [|j js IH]; intros i n Hfor; [done|].
    destruct (Z.le_gt_cases n 0); [rewrite seqZ_nil in Hfor by done; by inversion Hfor|].
    rewrite seqZ_cons in Hfor by done. apply Forall2_cons_1 in Hfor as [Hj Hfor]. split; [done|].
    by apply (IH _ (Z.pred n)).
  - by apply (Hne e Hf ltac:(lia) ltac:(lia) Hu).
  - split; [done|]. by destruct (_ <? universe).
Qed.

(** C15: the open-addressing sampler is the dense one: from any scratch state
    that earlier draws can leave behind and any cursor position, the sparse
    partial Fisher-Yates over the hash table of swapped entries, the flat
    permutation tier of that ring dimension and the dispatcher between them
    return the same positions and stop at the same point of the stream, or all
    keep drawing; the table never overflows, no error arises, and the scratch
    can be used again. *)
Theorem sparse_matches_dense `{BuildMode} c universe n s :
  (forall k, reserve_exact k = true) -> reusable s -> follows c ->
  0 <= n <= universe -> universe <= MAX_STACK_RING_DIM ->
  exists tbits N, tier universe = Some (tbits, N) /\
  match sample_distinct_positions_into_stack fuel tbits N c universe n with
  | Ok (out, c') =>
      (exists s', reusable s' /\
         sample_distinct_positions_into_sparse fuel c universe n s = Ok (out, c', s')) /\
      (exists s', reusable s' /\
         sample_distinct_positions_into fuel c universe n s = Ok (out, c', s'))
  | Err _ => False
  | Panic => sample_distinct_positions_into_sparse fuel c universe n s = Panic /\
             sample_distinct_positions_into fuel c universe n s = Panic
  end.
Proof.
  intros Hg Hs Hf Hn Hu. destruct (tier_spec universe Hu) as (tbits & N & Ht & HN & Hb).
  exists tbits, N. split; [done|]. rewrite (stack_spec fuel c universe n tbits N Hf Hn HN Hb).
  pose proof (samplers_outcome c universe n s Hg Hs Hf Hn Hu) as Ho.
  destruct (draws fuel universe (range n) c) as [[js c']|e|]; cbn [obind]; [|done..].
  destruct Ho as (H1' & H2' & _). by split.
Qed.

Lemma range_NoDup n : NoDup (range n).
Proof. apply NoDup_seqZ. Qed.

(** C16: no position choice is preferred: whatever the sampler returns is a
    duplicate-free list of [n] positions below the ring dimension, determined
    by the independent draws [j_k] in [[k, universe)], and every
    duplicate-free list of [n] positions is the result of exactly one such
    sequence of draws. *)
Theorem positions_bijective `{BuildMode} c universe n s out c' s' :
  (forall k, reserve_exact k = true) -> reusable s -> follows c ->
  0 <= n <= universe -> universe <= MAX_STACK_RING_DIM ->
  sample_distinct_positions_into fuel c universe n s = Ok (out, c', s') ->
  (NoDup out /\ len out = n /\ Forall (fun p => 0 <= p < universe) out /\
   exists js, draws fuel universe (range n) c = Ok (js, c') /\ valid_draws universe 0 js /\
     out = select (range universe) 0 js) /\
  forall choice, NoDup choice -> len choice = n -> Forall (fun p => 0 <= p < universe) choice ->
    exists js, (valid_draws universe 0 js /\ len js = n /\ select (range universe) 0 js = choice) /\
      forall js', valid_draws universe 0 js' /\ len js' = n /\ select (range universe) 0 js' = choice ->
        js' = js.
Proof.
  intros Hg Hs Hf Hn Hu He. assert (Hlen : len (range universe) = universe) by (apply len_range; lia).
  pose proof (range_NoDup universe) as Hnd.
  assert (Hin : forall p, 0 <= p < universe <-> exists k, (Z.to_nat 0 <= k)%nat /\ range universe !! k = Some p).
  { intros p. unfold range. split.
    - intros Hp. exists (Z.to_nat p). split; [lia|]. apply lookup_seqZ. lia.
    - intros (k & _ & Hk%lookup_seqZ). lia. }
  split.
  - pose proof (samplers_outcome c universe n s Hg Hs Hf Hn Hu) as Ho.
    destruct (draws fuel universe (range n) c) as [[js c1]|e|]; [|done|].
    2:{ destruct Ho as [_ Ho]. by rewrite Ho in He. }
    destruct Ho as (_ & (s2 & _ & He') & Hv & Hl & _). rewrite He' in He. injection He as <- <- <-.
    destruct (select_distinct js (range universe) 0 Hnd ltac:(lia)) as (D1 & D2 & D3); [by rewrite Hlen|].
    split; [done|]. split; [unfold len; rewrite D2, Hl; lia|]. split.
    + apply Forall_forall. intros p Hp%list_elem_of_In%D3. by apply Hin.
    + by exists js.
  - intros choice Hc Hcl Hcr.
    destruct (select_surjective choice (range universe) 0 Hnd ltac:(lia) Hc) as (js & Hv & Hl & Hsel).
    { intros x Hx. apply Hin. rewrite Forall_forall in Hcr. by apply Hcr, list_elem_of_In. }
    rewrite Hlen in Hv. exists js. split; [split; [done|split; [unfold len in *; lia|done]]|].
    intros js' (Hv' & _ & Hsel'). apply (select_injective js' js (range universe) 0); rewrite ?Hlen; try done.
    by rewrite Hsel.
Qed.
End properties.

(** * Evaluation *)

#[local] Instance grant_all : Allocator := fun _ => true.

(** A cursor at the start of the toy stream. *)
Lemma toy_cursor : exists p c, IndexedXofPrefix.new toy_seed = Ok p /\
  XofCursor.reset_indexed_prefix (Er := AkitaError) XofCursor.new p 7 = Ok c /\ follows c.
Proof.
  destruct (reset_spec (Er := AkitaError) toy_seed 7 XofCursor.new) as (p & c & Hp & Hc & Hs & Hat);
    [done|repeat constructor; lia|done|done|].
  exists p, c. split; [done|]. split; [done|]. by eexists _, _.
Qed.

Definition toy_c : XofCursor :=
  match IndexedXofPrefix.new toy_seed with
  | Ok p => match XofCursor.reset_indexed_prefix (Er := AkitaError) XofCursor.new p 7 with
            | Ok c => c
            | _ => XofCursor.new
            end
  | _ => XofCursor.new
  end.

Lemma toy_follows : follows toy_c.
Proof. destruct toy_cursor as (p & c & Hp & Hc & Hf). unfold toy_c. by rewrite Hp, Hc. Qed.

(** Weight 2 of 200 positions takes the sparse path, weight 6 of 16 the dense
    one. *)
Lemma sparse_matches_dense_witness :
  exists tbits N out c', tier 200 = Some (tbits, N) /\
    sample_distinct_positions_into_stack 64 tbits N toy_c 200 2 = Ok (out, c') /\
    exists s', sample_distinct_positions_into_sparse 64 toy_c 200 2 DistinctPositionScratch.new = Ok (out, c', s').
Proof.
  destruct (sparse_matches_dense (H2 := true) 64 toy_c 200 2 DistinctPositionScratch.new
    ltac:(done) reusable_new toy_follows ltac:(lia) ltac:(unfold MAX_STACK_RING_DIM; lia))
    as (tbits & N & Ht & Hm).
  assert (tbits = 8 /\ N = 256) as [-> ->] 
    by (clear Hm; vm_compute in Ht; injection Ht as <- <-; split; reflexivity).
  exists 8, 256. destruct (sample_distinct_positions_into_stack 64 8 256 toy_c 200 2) as [[out c']|e|] eqn:E.
  - exists out, c'. split; [done|]. split; [done|]. destruct Hm as ((s' & _ & He) & _). by exists s'.
  - vm_compute in E. discriminate E.
  - vm_compute in E. discriminate E.
Defined.

Lemma positions_bijective_witness :
  exists out c' s',
    sample_distinct_positions_into (H1 := true) 64 toy_c 16 6 DistinctPositionScratch.new = Ok (out, c', s') /\
    NoDup out /\ len out = 6.
Proof.
  destruct (sample_distinct_positions_into (H1 := true) 64 toy_c 16 6 DistinctPositionScratch.new)
    as [[[out c'] s']|e|] eqn:E.
  - exists out, c', s'. split; [done|].
    destruct (positions_bijective (H2 := true) 64 toy_c 16 6 DistinctPositionScratch.new out c' s'
      ltac:(done) reusable_new toy_follows ltac:(lia) ltac:(unfold MAX_STACK_RING_DIM; lia) E)
      as ((Hn & Hl & _) & _). exact (conj Hn Hl).
  - vm_compute in E. discriminate E.
  - vm_compute in E. discriminate E.
Defined.
