(* ===== verification/OpNorm.v ===== *)
(** [akita-challenges/src/sampler/op_norm.rs] and [op_norm_accumulate.rs]: the
    operator-norm acceptance predicate of fold challenges, in integers only.
    Certified fixed-point enclosures of [cos(pi t / D)] and [sin(pi t / D)]
    are built from a Machin enclosure of pi by interval Taylor evaluation; the
    predicate compares an upper and a lower bound of every squared spectral
    value with the squared threshold.

    [i128] and [i64] operations are at their width: an overflow panics in a
    build with overflow checks and wraps otherwise. *)

From S2P Require Import Prelude Checked Decomposition.

Definition TRIG_SCALE : Z := 61.
Definition TRIG_ONE : Z := Z.shiftl 1 TRIG_SCALE.
Definition NTERMS : Z := 12.
Definition FUSED_CHUNK_FREQS : Z := 4.
Definition I64_MAX : Z := 2 ^ 63 - 1.

Inductive Decision := Accept | Reject | Indeterminate.
#[export] Instance Decision_eq : EqDecision Decision.
Proof. solve_decision. Defined.

Abbreviation interval := (Z * Z)%type.

Section arithmetic.
Context `{BuildMode}.

(** The result of an [i64] operation. *)
Definition i64 (z : Z) : result Z :=
  if (- 2 ^ 63 <=? z) && (z <? 2 ^ 63) then Ok z
  else if debug_assertions then Panic else Ok (swrap 64 z).

Abbreviation i128 := (i128 (Er := AkitaError)).

(** [div_euclid] by a positive divisor is the floor division. *)
Definition fdiv (a b : Z) : result Z := i128 (a / b).
Definition cdiv (a b : Z) : result Z :=
  let* n := i128 (- a) in
  i128 (- (n / b)).
Definition fshr (x sh : Z) : Z := Z.shiftr x sh.
Definition cshr (x sh : Z) : result Z :=
  let* n := i128 (- x) in
  i128 (- Z.shiftr n sh).

Definition imul (a b : interval) : result interval :=
  let* _ := debug_assert ((0 <=? fst a) && (0 <=? fst b)) in
  let* lo := i128 (fst a * fst b) in
  let* hi := i128 (snd a * snd b) in
  let* hi := cshr hi TRIG_SCALE in
  Ok (fshr lo TRIG_SCALE, hi).
Definition iadd (a b : interval) : result interval :=
  let* lo := i128 (fst a + fst b) in
  let* hi := i128 (snd a + snd b) in
  Ok (lo, hi).
Definition isub (a b : interval) : result interval :=
  let* lo := i128 (fst a - snd b) in
  let* hi := i128 (snd a - fst b) in
  Ok (lo, hi).

Definition apply_sign (v : interval) (sign : Z) : result interval :=
  if sign <? 0 then
    let* lo := i128 (- snd v) in
    let* hi := i128 (- fst v) in
    Ok (lo, hi)
  else Ok v.

(** ** The enclosure of pi *)

(** [i128::checked_mul] and the like *)
Definition checked_i128 (z : Z) : option Z :=
  if (- 2 ^ 127 <=? z) && (z <? 2 ^ 127) then Some z else None.

(** [while let Some(denom) = (2n+1).checked_mul(x_pow)]; the term is zero after
    at most 61 rounds because [x_pow] at least doubles. *)
Fixpoint arctan_loop (fuel : nat) (x2 sum x_pow count n : Z) : result (Z * Z) :=
  match fuel with
  | O => Panic
  | S fuel =>
      let* odd := i128 (2 * n + 1) in
      match checked_i128 (odd * x_pow) with
      | None => Ok (sum, count)
      | Some denom =>
          let term := TRIG_ONE / denom in
          if term =? 0 then Ok (sum, count)
          else
            let* sum := if n mod 2 =? 0 then i128 (sum + term) else i128 (sum - term) in
            let* count := i128 (count + 1) in
            let* n := i128 (n + 1) in
            match checked_i128 (x_pow * x2) with
            | Some v => arctan_loop fuel x2 sum v count n
            | None => Ok (sum, count)
            end
      end
  end.

Definition arctan_inv (x : Z) : result interval :=
  let* x2 := i128 (x * x) in
  let* (sum, count) := arctan_loop 64 x2 0 x 0 0 in
  let* slack := i128 (count + 1) in
  let* lo := i128 (sum - slack) in
  let* hi := i128 (sum + slack) in
  Ok (lo, hi).

Definition pi_enclosure : result interval :=
  let* a5 := arctan_inv 5 in
  let* a239 := arctan_inv 239 in
  let* x := i128 (16 * fst a5) in
  let* y := i128 (4 * snd a239) in
  let* lo := i128 (x - y) in
  let* x := i128 (16 * snd a5) in
  let* y := i128 (4 * fst a239) in
  let* hi := i128 (x - y) in
  Ok (lo, hi).

(** ** Taylor enclosures on [[0, pi/4]] *)

(** One term: the state is the partial sum, the power and the factorial. *)
Definition taylor_step (phi2 : interval) (f1 f2 : Z -> Z) (st : interval * interval * Z) (n : Z)
  : result (interval * interval * Z) :=
  let '(sum, pow, fact) := st in
  let* pow := imul pow phi2 in
  let* two_n := i128 (2 * n) in
  let* g1 := i128 (f1 two_n) in
  let* fact := i128 (fact * g1) in
  let* g2 := i128 (f2 two_n) in
  let* fact := i128 (fact * g2) in
  let* lo := fdiv (fst pow) fact in
  let* hi := cdiv (snd pow) fact in
  let* sum := if n mod 2 =? 1 then isub sum (lo, hi) else iadd sum (lo, hi) in
  Ok (sum, pow, fact).

Definition add_remainder (sum phi2 pow : interval) (fact next_factor : Z) : result interval :=
  let* next_pow := imul pow phi2 in
  let* next_fact := i128 (fact * next_factor) in
  let* nf1 := i128 (next_factor + 1) in
  let* next_fact := i128 (next_fact * nf1) in
  let* rem := cdiv (snd next_pow) next_fact in
  let* lo := i128 (fst sum - rem) in
  let* hi := i128 (snd sum + rem) in
  Ok (lo, hi).

(** [for n in 1..=NTERMS], with [fact * (2n - 1) * 2n]. *)
Definition taylor_cos (phi : interval) : result interval :=
  let* phi2 := imul phi phi in
  let* (sum, pow, fact) :=
    ofold (taylor_step phi2 (fun two_n => two_n - 1) (fun two_n => two_n)) (seqZ 1 NTERMS)
      ((TRIG_ONE, TRIG_ONE), (TRIG_ONE, TRIG_ONE), 1) in
  add_remainder sum phi2 pow fact (2 * NTERMS + 1).

(** With [fact * 2n * (2n + 1)]. *)
Definition taylor_sin (phi : interval) : result interval :=
  let* phi2 := imul phi phi in
  let* (sum, pow, fact) :=
    ofold (taylor_step phi2 (fun two_n => two_n) (fun two_n => two_n + 1)) (seqZ 1 NTERMS)
      (phi, phi, 1) in
  add_remainder sum phi2 pow fact (2 * NTERMS + 2).

Definition downscale_round (v : interval) (shift : Z) : result (Z * Z) :=
  let lo := fshr (fst v) shift in
  let* hi := cshr (snd v) shift in
  let* s := i128 (lo + hi) in
  let* entry := fdiv s 2 in
  let* e1 := i128 (entry - lo) in
  let* e2 := i128 (hi - entry) in
  Ok (entry, Z.max e1 e2).

(** ** The tables *)

Definition octant_reduce (t d : Z) : Z * bool * Z * Z :=
  let t := t mod (2 * d) in
  let '(t, sin_sign) := if d <? t then (2 * d - t, -1) else (t, 1) in
  let '(t, cos_sign) := if d / 2 <? t then (d - t, -1) else (t, 1) in
  let '(t, swap) := if d / 4 <? t then (d / 2 - t, true) else (t, false) in
  (t, swap, cos_sign, sin_sign).

(** One entry of the two tables with its error bounds. *)
Definition table_entry (pi : interval) (d shift t : Z) : result ((Z * Z) * (Z * Z)) :=
  let '(r, swap, cos_sign, sin_sign) := octant_reduce t d in
  let* x := i128 (fst pi * r) in
  let* phi_lo := fdiv x d in
  let* y := i128 (snd pi * r) in
  let* phi_hi := cdiv y d in
  let* cos_phi := taylor_cos (phi_lo, phi_hi) in
  let* sin_phi := taylor_sin (phi_lo, phi_hi) in
  let '(cos_a, sin_a) := if swap : bool then (sin_phi, cos_phi) else (cos_phi, sin_phi) in
  let* cos_a := apply_sign cos_a cos_sign in
  let* sin_a := apply_sign sin_a sin_sign in
  let* c := downscale_round cos_a shift in
  let* s := downscale_round sin_a shift in
  Ok (c, s).

(** [usize] arithmetic on indices and sizes. *)
Definition usize_ok (z : Z) : result Z :=
  if (0 <=? z) && (z <? 2 ^ 64) then Ok z
  else if debug_assertions then Panic else Ok (uwrap 64 z).

(** [for t in 0..two_d]: [base_cos[t]], [base_sin[t]] and the running maximum
    of the error bounds. *)
Definition build_tables (d q : Z) : result (list Z * list Z * Z) :=
  let* two_d := usize_ok (2 * d) in
  let* pi := pi_enclosure in
  let shift := TRIG_SCALE - q in
  let zeros := replicate (Z.to_nat two_d) 0 in
  ofold (fun '(base_cos, base_sin, eps_root) t =>
           let* (c, s) := table_entry pi d shift t in
           let* base_cos := store base_cos t (fst c) in
           let* base_sin := store base_sin t (fst s) in
           Ok (base_cos, base_sin, Z.max (Z.max eps_root (snd c)) (snd s)))
    (range two_d) (zeros, zeros, 0).

(** [freq[pos * half_d + k] = base[((2k + 1) % 2d * pos) % 2d]] *)
Definition build_freq_at_tables (d : Z) (base_cos base_sin : list Z) : result (list Z * list Z) :=
  let half_d := d / 2 in
  let* two_d := usize_ok (2 * d) in
  let* size := usize_ok (d * half_d) in
  let zeros := replicate (Z.to_nat size) 0 in
  ofold (fun freq pos =>
           let* row := usize_ok (pos * half_d) in
           ofold (fun '(freq_cos, freq_sin) k =>
                    let mult := (2 * k + 1) mod two_d in
                    let* prod := usize_ok (mult * pos) in
                    let idx := prod mod two_d in
                    let* c := unwrap (index base_cos idx) in
                    let* s := unwrap (index base_sin idx) in
                    let* freq_cos := store freq_cos (row + k) c in
                    let* freq_sin := store freq_sin (row + k) s in
                    Ok (freq_cos, freq_sin)) (range half_d) freq)
    (range d) (zeros, zeros).
End arithmetic.

Record OpNormTable := {
  table_d : Z;
  table_q : Z;
  eps_root : Z;
  max_l1 : Z;
  max_t : Z;
  freq_cos_at : list Z;
  freq_sin_at : list Z;
}.

(** ** Overflow validation *)

Definition bind_option {A B} (m : option A) (f : A -> option B) : option B :=
  match m with Some a => f a | None => None end.

(** [1i128.checked_shl(q)]: [None] from 128 on, and the value wraps otherwise. *)
Definition checked_shl (x s : Z) : option Z :=
  if (0 <=? s) && (s <? 128) then Some (swrap 128 (Z.shiftl x s)) else None.

Definition validate_i64_accumulators (q max_l1 : Z) : result unit :=
  let overflow := InvalidSetup "OpNormTable: worst-case i64 accumulator does not fit i64" in
  let* scale := ok_or (checked_shl 1 q) overflow in
  let* max_acc := ok_or (checked_i128 (max_l1 * scale)) overflow in
  if I64_MAX <? max_acc then Err overflow else Ok tt.

Definition validate_no_overflow (q eps_root max_l1 max_t : Z) : result unit :=
  let overflow := InvalidSetup "OpNormTable: worst-case accumulator does not fit i128" in
  let chk z := ok_or (checked_i128 z) overflow in
  let* scale := ok_or (checked_shl 1 q) overflow in
  let* max_acc := chk (max_l1 * scale) in
  let* r := chk (max_l1 * eps_root) in
  let* center := chk (max_acc * max_acc) in
  let* center2 := chk (center * 2) in
  let* c4 := chk (max_acc * 4) in
  let* cross := chk (c4 * r) in
  let* rr := chk (r * r) in
  let* slack := chk (rr * 2) in
  let* u1 := chk (center2 + cross) in
  let* upper := chk (u1 + slack) in
  let* tt' := chk (max_t * max_t) in
  let* threshold := ok_or (checked_shl tt' (2 * q)) overflow in
  let* _ := chk (upper + threshold) in
  Ok tt.

Module OpNormTable.
Section ops.
Context `{BuildMode}.
Abbreviation i128 := (i128 (Er := AkitaError)).

(** [i64::try_from] of every entry. *)
Definition downcast (table : list Z) : result (list Z) :=
  omapM (fun v => if (- 2 ^ 63 <=? v) && (v <? 2 ^ 63) then Ok v
                  else Err (InvalidSetup "OpNormTable: entry does not fit i64 accumulator path")) table.

Definition new (d q max_l1 max_t : Z) : result OpNormTable :=
  if (d <? 4) || negb (d mod 4 =? 0)
  then Err (InvalidSetup "OpNormTable: ring degree must be a positive multiple of 4")
  else if negb ((1 <=? q) && (q <=? 56))
  then Err (InvalidSetup "OpNormTable: scale q out of supported range 1..=56")
  else
    let* (base_cos, base_sin, eps_root) := build_tables d q in
    let* _ := validate_no_overflow q eps_root max_l1 max_t in
    let* _ := validate_i64_accumulators q max_l1 in
    let* base_cos := downcast base_cos in
    let* base_sin := downcast base_sin in
    let* (freq_cos, freq_sin) := build_freq_at_tables d base_cos base_sin in
    Ok {| table_d := d; table_q := q; eps_root := eps_root; max_l1 := max_l1; max_t := max_t;
          freq_cos_at := freq_cos; freq_sin_at := freq_sin |}.

(** [freq_row(pos, half_d)]: the two row slices. *)
Definition freq_row (table : OpNormTable) (pos half_d : Z) : result (list Z * list Z) :=
  let* row := usize_ok (pos * half_d) in
  let* stop := usize_ok (row + half_d) in
  let* c := unwrap (slice (freq_cos_at table) row stop) in
  let* s := unwrap (slice (freq_sin_at table) row stop) in
  Ok (c, s).

(** The scalar accumulation of [chunk_len] frequencies from [start_k]. *)
Definition accumulate_transposed_chunk_scalar (table : OpNormTable) (positions coeffs : list Z)
    (start_k chunk_len half_d : Z) : result (list Z * list Z) :=
  let zeros := replicate (Z.to_nat FUSED_CHUNK_FREQS) 0 in
  ofold (fun acc '(pos, coeff) =>
           let* (cos_row, sin_row) := freq_row table pos half_d in
           ofold (fun '(acc_re, acc_im) lane =>
                    let k := start_k + lane in
                    let* c := unwrap (index cos_row k) in
                    let* p := i64 (coeff * c) in
                    let* a := unwrap (index acc_re lane) in
                    let* a := i64 (a + p) in
                    let* acc_re := store acc_re lane a in
                    let* s := unwrap (index sin_row k) in
                    let* p := i64 (coeff * s) in
                    let* b := unwrap (index acc_im lane) in
                    let* b := i64 (b + p) in
                    let* acc_im := store acc_im lane b in
                    Ok (acc_re, acc_im)) (range chunk_len) acc)
    (zip positions coeffs) (zeros, zeros).

(** The AVX2 and NEON rows compute the same sums. *)
Definition accumulate_transposed_chunk (table : OpNormTable) (positions coeffs : list Z)
    (start_k chunk_len half_d : Z) : result (list Z * list Z) :=
  let* _ := debug_assert (chunk_len <=? FUSED_CHUNK_FREQS) in
  let* _ := debug_assert (start_k + chunk_len <=? half_d) in
  accumulate_transposed_chunk_scalar table positions coeffs start_k chunk_len half_d.

Definition frequency_accepts_upper (abs_re abs_im re im two_r two_r_sq threshold : Z) : result bool :=
  let* re2 := i128 (re * re) in
  let* im2 := i128 (im * im) in
  let* center := i128 (re2 + im2) in
  let* s := i128 (abs_re + abs_im) in
  let* x := i128 (two_r * s) in
  let* u := i128 (center + x) in
  let* upper := i128 (u + two_r_sq) in
  Ok (upper <=? threshold).

Definition decide_frequency (abs_re abs_im re im r two_r two_r_sq threshold : Z) : result bool :=
  let* ok := frequency_accepts_upper abs_re abs_im re im two_r two_r_sq threshold in
  if ok then Ok false
  else
    let* x := i128 (abs_re - r) in
    let* y := i128 (abs_im - r) in
    let low_re := Z.max x 0 in
    let low_im := Z.max y 0 in
    let* x2 := i128 (low_re * low_re) in
    let* y2 := i128 (low_im * low_im) in
    let* lower := i128 (x2 + y2) in
    Ok (threshold <? lower).

(** One lane: [Some Reject] leaves the scan, otherwise the flag is updated. *)
Definition decide_lane (acc_re acc_im : list Z) (r two_r two_r_sq threshold : Z)
    (indeterminate : bool) (lane : Z) : result (option bool) :=
  let* re := unwrap (index acc_re lane) in
  let* im := unwrap (index acc_im lane) in
  let abs_re := Z.abs re in
  let abs_im := Z.abs im in
  let* reject := decide_frequency abs_re abs_im re im r two_r two_r_sq threshold in
  if reject : bool then Ok None
  else
    let* ok := frequency_accepts_upper abs_re abs_im re im two_r two_r_sq threshold in
    Ok (Some (if ok : bool then indeterminate else true)).

(** [for lane in 0..len], [None] once a frequency rejects. *)
Definition decide_lanes (acc_re acc_im : list Z) (r two_r two_r_sq threshold chunk_len : Z)
    (indeterminate : bool) : result (option bool) :=
  ofold (fun st lane => match st with
                        | None => Ok None
                        | Some ind => decide_lane acc_re acc_im r two_r two_r_sq threshold ind lane
                        end) (range chunk_len) (Some indeterminate).

(** [while start_k < num_freqs]; every round handles at least one frequency. *)
Fixpoint decide_loop (fuel : nat) (table : OpNormTable) (positions coeffs : list Z)
    (r two_r two_r_sq threshold num_freqs start_k : Z) (indeterminate : bool) : result Decision :=
  if start_k <? num_freqs then
    match fuel with
    | O => Panic
    | S fuel =>
        let chunk_len := Z.min (num_freqs - start_k) FUSED_CHUNK_FREQS in
        let* (acc_re, acc_im) :=
          accumulate_transposed_chunk table positions coeffs start_k chunk_len num_freqs in
        let* st := decide_lanes acc_re acc_im r two_r two_r_sq threshold chunk_len indeterminate in
        match st with
        | None => Ok Reject
        | Some ind =>
            decide_loop fuel table positions coeffs r two_r two_r_sq threshold num_freqs
              (start_k + chunk_len) ind
        end
    end
  else Ok (if indeterminate then Indeterminate else Accept).

Definition decide_transposed_fused (table : OpNormTable) (positions coeffs : list Z)
    (r two_r two_r_sq threshold : Z) : result Decision :=
  let num_freqs := table_d table / 2 in
  decide_loop (Z.to_nat num_freqs) table positions coeffs r two_r two_r_sq threshold num_freqs 0 false.

Definition decide_parts (self : OpNormTable) (positions coeffs : list Z) (t : Z) : result Decision :=
  if negb (len positions =? len coeffs)
  then Err (InvalidInput "operator-norm predicate: positions/coeffs length mismatch")
  else
    let* l1 :=
      ofold (fun l1 '(pos, coeff) =>
               if table_d self <=? pos
               then Err (InvalidInput "operator-norm predicate: position out of range")
               else i128 (l1 + Z.abs coeff)) (zip positions coeffs) 0 in
    if max_l1 self <? l1
    then Err (InvalidInput "operator-norm predicate: l1 norm exceeds validated max_l1")
    else if max_t self <? t
    then Err (InvalidInput "operator-norm predicate: threshold exceeds validated max_t")
    else
      let* r := i128 (l1 * eps_root self) in
      let* two_r := i128 (2 * r) in
      let* two_r_sq := i128 (two_r * r) in
      let* t2 := i128 (t * t) in
      let threshold := swrap 128 (Z.shiftl t2 (2 * table_q self)) in
      decide_transposed_fused self positions coeffs r two_r two_r_sq threshold.

Definition accept_strict_parts (self : OpNormTable) (positions coeffs : list Z) (t : Z) : result bool :=
  let* decision := decide_parts self positions coeffs t in
  Ok (bool_decide (decision = Accept)).

Definition strict_threshold_contains_shrunken_subset (self : OpNormTable)
    (fractional_bits root_coordinate_error_units strict_t rounding_margin_units : Z) : bool :=
  if negb (table_q self =? fractional_bits) || (root_coordinate_error_units <? eps_root self) ||
     (max_t self <? strict_t)
  then false
  else
    match checked_i128 (max_l1 self * root_coordinate_error_units) with
    | None => false
    | Some r =>
        let margin := rounding_margin_units in
        match checked_shl strict_t (table_q self) with
        | None => false
        | Some strict_fixed =>
            if (margin =? 0) || (strict_fixed <=? margin) then false
            else
              match bind_option (checked_i128 (8 * r)) (fun value => checked_i128 (value * r)),
                    checked_i128 (margin * margin) with
              | Some lhs, Some rhs => lhs <? rhs
              | _, _ => false
              end
        end
    end.
End ops.
End OpNormTable.
