(* ===== verification/Sampler.v ===== *)
(** [akita-challenges/src/sampler/signed_sparse.rs] and [sampler/mod.rs]: the
    signed sparse draw, the worker that draws the challenge of one coordinate
    (with or without operator-norm rejection), and the indexed batch draws,
    sequential and parallel.  Every coordinate has its own stream: a challenge
    is a function of the seed and its index, whatever the worker drew before
    and however the batch was split. *)

From S2P Require Import Prelude Checked Field Serialization Transcript.
From S2P Require Import ChallengeConfig SparseChallenge Xof PositionSample OpNorm.

(** * The signed sparse draw *)

Definition SIGN_BYTE_CHUNK : Z := 64.

Record SignedSparseScratch := {
  scratch_positions : list Z;
  scratch_coeffs : list Z;
  position_scratch : DistinctPositionScratch;
  total : Z;
}.

(** [Vec::resize(n, 0)] *)
Definition resize (l : list Z) (n : Z) : list Z :=
  take (Z.to_nat n) l ++ replicate (Z.to_nat (n - len l)) 0.

(** The coefficient of index [i] with sign byte [b]. *)
Definition signed_coeff (count_pm1 i b : Z) : Z :=
  let magnitude := if i <? count_pm1 then 1 else 2 in
  if Z.land b 1 =? 0 then magnitude else - magnitude.

Module SignedSparseScratch.
Section sample.
Context `{Keccak, Allocator, BuildMode}.
Variable fuel : nat.

Definition new (count_pm1 count_pm2 : Z) : result SignedSparseScratch :=
  let* total := usize_ok (count_pm1 + count_pm2) in
  Ok {| scratch_positions := replicate (Z.to_nat total) 0; scratch_coeffs := [];
        position_scratch := DistinctPositionScratch.new; total := total |}.

(** [while written < self.total]; a chunk holds at least one sign byte. *)
Fixpoint sign_loop (rounds : nat) (total count_pm1 written : Z) (coeffs : list Z) (c : XofCursor)
  : result (list Z * XofCursor) :=
  if written <? total then
    match rounds with
    | O => Panic
    | S rounds =>
        let take := Z.min (total - written) SIGN_BYTE_CHUNK in
        let* (sign_bytes, c) := XofCursor.fill_bytes c take in
        let* coeffs :=
          ofold (fun coeffs '(offset, b) =>
                   let i := written + offset in store coeffs i (signed_coeff count_pm1 i b))
            (zip (range take) sign_bytes) coeffs in
        sign_loop rounds total count_pm1 (written + take) coeffs c
    end
  else Ok (coeffs, c).

Definition sample (s : SignedSparseScratch) (c : XofCursor) (d count_pm1 count_pm2 : Z)
  : result (SignedSparseScratch * XofCursor) :=
  let* _ := debug_assert (total s =? count_pm1 + count_pm2) in
  let* (ps, c, scratch) :=
    sample_distinct_positions_into fuel c d (len (scratch_positions s)) (position_scratch s) in
  let coeffs := resize (scratch_coeffs s) (total s) in
  let* (coeffs, c) := sign_loop (Z.to_nat (total s)) (total s) count_pm1 0 coeffs c in
  Ok ({| scratch_positions := ps; scratch_coeffs := coeffs; position_scratch := scratch;
         total := total s |}, c).

Definition take_challenge (s : SignedSparseScratch) : SparseChallenge :=
  {| positions := scratch_positions s; coeffs := scratch_coeffs s |}.
End sample.
End SignedSparseScratch.

(** * Sampling policies *)

Definition OP_NORM_PREDICATE_SCALE : Z := 48.
Definition MAX_OP_NORM_ATTEMPTS : Z := 4096.
Definition PARALLEL_SAMPLING_WORK_THRESHOLD : Z := Z.shiftl 1 14.

Inductive IndexedSamplingPolicy :=
  | Unrestricted
  | OperatorNorm (threshold : Z) (table : OpNormTable).

(** The initializer of the two [LazyLock] tables. *)
Definition op_norm_table_init `{BuildMode} (ring_d : Z) (config : SparseChallengeConfig)
    (policy : OperatorNormRejection) (failed uncertified : string) : outcome string OpNormTable :=
  let* table :=
    omap_err (fun _ => failed)
      (OpNormTable.new ring_d OP_NORM_PREDICATE_SCALE (SparseChallengeConfig.l1_norm config)
         (threshold policy)) in
  if negb (OpNormTable.strict_threshold_contains_shrunken_subset table (fractional_bits policy)
             (root_coordinate_error_units policy) (threshold policy) (rounding_margin_units policy))
  then Err uncertified
  else Ok table.

Definition D64_SELECTIVE_L2_OP_NORM_TABLE `{BuildMode} : outcome string OpNormTable :=
  op_norm_table_init 64 D64_SELECTIVE_L2_CHALLENGE_CONFIG OperatorNormRejection.D64_SELECTIVE_L2
    "failed to initialize the D64 selective-L2 operator-norm table"
    "the D64 operator-norm table does not contain its certified subset".
Definition D128_SELECTIVE_L2_OP_NORM_TABLE `{BuildMode} : outcome string OpNormTable :=
  op_norm_table_init 128 D128_SELECTIVE_L2_CHALLENGE_CONFIG OperatorNormRejection.D128_SELECTIVE_L2
    "failed to initialize the D128 selective-L2 operator-norm table"
    "the D128 operator-norm table does not contain its certified subset".

Module IndexedSamplingPolicy.
Definition new `{BuildMode} (ring_d : Z) (cfg : SparseChallengeConfig)
    (rejection : option OperatorNormRejection) : result IndexedSamplingPolicy :=
  match rejection with
  | None => Ok Unrestricted
  | Some rejection =>
      let* _ := omap_err InvalidSetup (OperatorNormRejection.validate rejection ring_d cfg) in
      let* table :=
        if bool_decide (rejection = OperatorNormRejection.D64_SELECTIVE_L2)
        then omap_err InvalidSetup D64_SELECTIVE_L2_OP_NORM_TABLE
        else if bool_decide (rejection = OperatorNormRejection.D128_SELECTIVE_L2)
        then omap_err InvalidSetup D128_SELECTIVE_L2_OP_NORM_TABLE
        else Err (InvalidSetup "unsupported operator-norm rejection policy") in
      Ok (OperatorNorm (threshold rejection) table)
  end.
End IndexedSamplingPolicy.

(** * The worker *)

Record IndexedChallengeWorker := {
  prefix : IndexedXofPrefix;
  cursor : XofCursor;
  scratch : SignedSparseScratch;
  policy : IndexedSamplingPolicy;
}.

Module IndexedChallengeWorker.
Section ops.
Context `{Keccak, Allocator, BuildMode}.
Variable fuel : nat.

Definition new (prefix : IndexedXofPrefix) (cfg : SparseChallengeConfig)
    (policy : IndexedSamplingPolicy) : result IndexedChallengeWorker :=
  let* scratch := SignedSparseScratch.new (count_pm1 cfg) (count_pm2 cfg) in
  Ok {| prefix := prefix; cursor := XofCursor.new; scratch := scratch; policy := policy |}.

Definition with_draw (w : IndexedChallengeWorker) (s : SignedSparseScratch) (c : XofCursor)
  : IndexedChallengeWorker :=
  {| prefix := prefix w; cursor := c; scratch := s; policy := policy w |}.

(** [for _ in 0..MAX_OP_NORM_ATTEMPTS] *)
Fixpoint attempt_loop (attempts : nat) (threshold : Z) (table : OpNormTable) (ring_d : Z)
    (cfg : SparseChallengeConfig) (s : SignedSparseScratch) (c : XofCursor)
  : result (SparseChallenge * (SignedSparseScratch * XofCursor)) :=
  match attempts with
  | O => Err (InvalidInput "operator-norm rejection exceeded its attempts")
  | S attempts =>
      let* (s, c) := SignedSparseScratch.sample fuel s c ring_d (count_pm1 cfg) (count_pm2 cfg) in
      let* ok := OpNormTable.accept_strict_parts table (scratch_positions s) (scratch_coeffs s) threshold in
      if ok : bool then Ok (SignedSparseScratch.take_challenge s, (s, c))
      else attempt_loop attempts threshold table ring_d cfg s c
  end.

Definition sample (w : IndexedChallengeWorker) (coordinate_index ring_d : Z)
    (cfg : SparseChallengeConfig) : result (SparseChallenge * IndexedChallengeWorker) :=
  let* c := XofCursor.reset_indexed_prefix (cursor w) (prefix w) coordinate_index in
  let* (challenge, (s, c)) :=
    match policy w with
    | Unrestricted =>
        let* (s, c) :=
          SignedSparseScratch.sample fuel (scratch w) c ring_d (count_pm1 cfg) (count_pm2 cfg) in
        Ok (SignedSparseScratch.take_challenge s, (s, c))
    | OperatorNorm threshold table =>
        attempt_loop (Z.to_nat MAX_OP_NORM_ATTEMPTS) threshold table ring_d cfg (scratch w) c
    end in
  Ok (challenge, with_draw w s c).
End ops.
End IndexedChallengeWorker.

(** * Batches *)

(** How the thread pool splits [0..n] into consecutive runs of indices, each
    handled by one fresh worker. *)
Class ThreadPool := { split : Z -> list (list Z); split_concat n : concat (split n) = range n }.

Section batches.
Context `{Keccak, Allocator, BuildMode, CargoFeatures, ThreadPool}.
Variable fuel : nat.

(** The loop body of both drivers over one worker's indices. *)
Definition sample_run (prefix : IndexedXofPrefix) (cfg : SparseChallengeConfig)
    (policy : IndexedSamplingPolicy)
    (sample : IndexedChallengeWorker -> Z -> result (SparseChallenge * IndexedChallengeWorker))
    (indices : list Z) : result (list SparseChallenge) :=
  let* worker := IndexedChallengeWorker.new prefix cfg policy in
  let* (cs, _) :=
    ofold (fun '(cs, worker) index =>
             let* coordinate_index :=
               ok_or (checked_u 64 index)
                 (InvalidSetup "sparse challenge coordinate index exceeds u64") in
             let* (c, worker) := sample worker coordinate_index in
             Ok (cs ++ [c], worker)) indices ([], worker) in
  Ok cs.

Definition sample_indexed_challenges_sequential_with (prefix : IndexedXofPrefix) (n : Z)
    (cfg : SparseChallengeConfig) (policy : IndexedSamplingPolicy)
    (sample : IndexedChallengeWorker -> Z -> result (SparseChallenge * IndexedChallengeWorker))
  : result (list SparseChallenge) :=
  sample_run prefix cfg policy sample (range n).

Definition sample_indexed_challenges_sequential (prefix : IndexedXofPrefix) (ring_d n : Z)
    (cfg : SparseChallengeConfig) (policy : IndexedSamplingPolicy) : result (list SparseChallenge) :=
  sample_indexed_challenges_sequential_with prefix n cfg policy
    (fun worker index => IndexedChallengeWorker.sample fuel worker index ring_d cfg).

(** [into_par_iter().map_init(..).collect()]: one worker per run. *)
Definition sample_indexed_challenges_parallel (prefix : IndexedXofPrefix) (ring_d n : Z)
    (cfg : SparseChallengeConfig) (policy : IndexedSamplingPolicy) : result (list SparseChallenge) :=
  let* runs :=
    omapM (sample_run prefix cfg policy
             (fun worker index => IndexedChallengeWorker.sample fuel worker index ring_d cfg))
      (split n) in
  Ok (concat runs).

Definition sample_indexed_challenges_from_seed (seed : list Z) (ring_d n : Z)
    (cfg : SparseChallengeConfig) (rejection : option OperatorNormRejection)
  : result (list SparseChallenge) :=
  if n =? 0 then Ok []
  else
    let* _ := ok_or (checked_u 64 (n - 1))
                (InvalidSetup "sparse challenge coordinate index exceeds u64") in
    let* policy := IndexedSamplingPolicy.new ring_d cfg rejection in
    let* prefix := omap_err InvalidSetup (IndexedXofPrefix.new seed) in
    if feature_parallel then
      let* work := ok_or (checked_mul n (SparseChallengeConfig.weight cfg))
                     (InvalidSetup "sparse challenge work overflow") in
      if PARALLEL_SAMPLING_WORK_THRESHOLD <=? work
      then sample_indexed_challenges_parallel prefix ring_d n cfg policy
      else sample_indexed_challenges_sequential prefix ring_d n cfg policy
    else sample_indexed_challenges_sequential prefix ring_d n cfg policy.

(** [sample_sparse_challenges]; the error strings carry no arguments here. *)
Definition sparse_challenge_payload (label : list Z) (ring_d n : Z) (cfg : SparseChallengeConfig)
    (grind_nonce : Z) : list Z :=
  label ++ to_le_bytes 8 n ++ to_le_bytes 8 ring_d ++
  SparseChallengeConfig.domain_separator_bytes cfg ++ to_le_bytes 4 grind_nonce.

Definition sample_sparse_challenges {F T} `{Transcript F T} (transcript : T) (label : list Z)
    (ring_d n : Z) (cfg : SparseChallengeConfig) (grind_nonce : Z)
  : result (list SparseChallenge * T) :=
  if MAX_STACK_RING_DIM <? ring_d
  then Err (InvalidInput "ring dimension exceeds supported stack sampler limit")
  else
    let* _ := omap_err (fun _ => InvalidInput "invalid sparse challenge config")
                (SparseChallengeConfig.validate_dyn cfg ring_d) in
    let* transcript :=
      append_bytes (F := F) transcript labels.ABSORB_SPARSE_CHALLENGE
        (sparse_challenge_payload label ring_d n cfg grind_nonce) in
    let* (seed, transcript) :=
      challenge_block (F := F) transcript labels.CHALLENGE_SPARSE_CHALLENGE in
    let* cs := sample_indexed_challenges_from_seed seed ring_d n cfg None in
    Ok (cs, transcript).
End batches.

(** * The sign bytes *)

Section signs.
Context `{KeccakLaws}.
Variable st0 : list Z.
Hypothesis st0_ok : lanes_ok st0.

(** Coefficients [w..w+m] from the stream bytes [n..n+m]. *)
Definition signs_from (count_pm1 n w m : Z) : list Z :=
  map (fun i => signed_coeff count_pm1 i (stream st0 (n + (i - w)))) (seqZ w m).

Lemma signs_app count_pm1 n w m1 m2 : 0 <= m1 -> 0 <= m2 ->
  signs_from count_pm1 n w (m1 + m2)
  = signs_from count_pm1 n w m1 ++ signs_from count_pm1 (n + m1) (w + m1) m2.
Proof.
  intros. unfold signs_from. rewrite seqZ_app, map_app by done. f_equal. apply map_ext. intros i.
  do 2 f_equal. lia.
Qed.

Lemma len_signs count_pm1 n w m : 0 <= m -> len (signs_from count_pm1 n w m) = m.
Proof. intros. unfold signs_from, len. rewrite length_map, length_seqZ. lia. Qed.

(** One chunk overwrites its entries. *)
Lemma sign_chunk {Er} count_pm1 n w m : forall a pre mid post,
  len pre = w + a -> length mid = m ->
  ofold (E := Er) (fun coeffs '(offset, b) =>
      let i := w + offset in store coeffs i (signed_coeff count_pm1 i b))
    (zip (seqZ a (Z.of_nat m)) (segment st0 (n + a) (Z.of_nat m))) (pre ++ mid ++ post)
  = Ok (pre ++ signs_from count_pm1 (n + a) (w + a) (Z.of_nat m) ++ post).
Proof.
  induction m as [|m IH]; intros a pre mid post Hp Hm; [by destruct mid|].
  destruct mid as [|x mid]; [done|]. injection Hm as Hm. unfold segment, signs_from in *.
  rewrite !(seqZ_cons _ (Z.of_nat (S m))) by lia. cbn [map zip zip_with ofold].
  rewrite <-app_comm_cons, store_middle by done. cbn [obind].
  replace (Z.pred (Z.of_nat (S m))) with (Z.of_nat m) by lia.
  specialize (IH (a + 1) (pre ++ [signed_coeff count_pm1 (w + a) (stream st0 (n + a))]) mid post).
  rewrite <-!app_assoc in IH. cbn [app] in IH.
  replace (Z.succ (n + a)) with (n + (a + 1)) by lia. change (Z.succ a) with (a + 1).
  rewrite IH by (rewrite ?len_app; unfold len in *; cbn [length] in *; lia).
  do 2 f_equal. rewrite <-app_comm_cons. f_equal.
  - do 2 f_equal. lia.
  - f_equal. replace (w + (a + 1)) with (Z.succ (w + a)) by lia. apply map_ext. intros i. do 2 f_equal. lia.
Qed.

(** The loop replaces everything from [written] on, whatever was there. *)
Lemma sign_loop_spec rounds total count_pm1 : forall n written c,
  cursor_at st0 n c -> 0 <= written <= total -> total - written <= Z.of_nat rounds ->
  exists c', cursor_at st0 (n + (total - written)) c' /\ forall coeffs, len coeffs = total ->
    SignedSparseScratch.sign_loop rounds total count_pm1 written coeffs c
    = Ok (take (Z.to_nat written) coeffs ++ signs_from count_pm1 n written (total - written), c').
Proof.
  induction rounds as [|rounds IH]; intros n written c Hc Hw Hr; cbn [SignedSparseScratch.sign_loop].
  - replace (total - written) with 0 by lia. exists c. rewrite Z.add_0_r. split; [done|].
    intros coeffs Hl. destruct (Z.ltb_spec written total); [lia|].
    rewrite take_ge by (unfold len in *; lia). by rewrite app_nil_r.
  - destruct (Z.ltb_spec written total) as [Hlt|Hge].
    2:{ replace (total - written) with 0 by lia. exists c. rewrite Z.add_0_r. split; [done|].
        intros coeffs Hl. rewrite take_ge by (unfold len in *; lia). by rewrite app_nil_r. }
    set (t := Z.min (total - written) SIGN_BYTE_CHUNK). unfold SIGN_BYTE_CHUNK in t.
    destruct (fill_bytes_spec st0 st0_ok (Er := AkitaError) t n c Hc) as (c1 & -> & Hc1); [lia|].
    destruct (IH (n + t) (written + t) c1 Hc1) as (c' & Hc' & He); [lia|lia|]. exists c'.
    split; [by replace (n + (total - written)) with (n + t + (total - (written + t))) by lia|].
    intros coeffs Hl. cbn [obind].
    assert (Hsplit : exists pre mid post, coeffs = pre ++ mid ++ post /\ len pre = written /\ length mid = Z.to_nat t).
    { exists (take (Z.to_nat written) coeffs), (take (Z.to_nat t) (drop (Z.to_nat written) coeffs)),
        (drop (Z.to_nat t) (drop (Z.to_nat written) coeffs)).
      unfold len in *. rewrite take_drop, take_drop, !length_take, length_drop. split; [done|]. lia. }
    destruct Hsplit as (pre & mid & post & -> & Hpre & Hmid).
    pose proof (sign_chunk (Er := AkitaError) count_pm1 n written (Z.to_nat t) 0 pre mid post) as Hch.
    rewrite !Z.add_0_r, Z2Nat.id in Hch by lia. fold (range t) in Hch. cbv zeta in Hch |- *. rewrite Hch by done. cbn [obind].
    rewrite !len_app in Hl. assert (len mid = t) by (unfold len; lia).
    rewrite He by (rewrite !len_app, len_signs; lia). do 2 f_equal.
    replace (total - written) with (t + (total - (written + t))) by lia. rewrite signs_app by lia.
    pose proof (len_signs count_pm1 n written t).
    rewrite (take_app_length' pre (mid ++ post)) by (unfold len in *; lia).
    rewrite !app_assoc. f_equal. apply take_app_length'. rewrite length_app. unfold len in *. lia.
Qed.
End signs.

(** * One attempt *)

(** A challenge of the configured family. *)
Record in_challenge_family (d : Z) (cfg : SparseChallengeConfig) (c : SparseChallenge) : Prop := {
  fam_well_formed : well_formed d c;
  fam_short : Forall (fun x => Z.abs x <= 2) (coeffs c);
  fam_pm1 : Z.of_nat (magnitudes 1 (coeffs c)) = count_pm1 cfg;
  fam_pm2 : Z.of_nat (magnitudes 2 (coeffs c)) = count_pm2 cfg;
}.

Lemma debug_assert_true {E} `{BuildMode} : debug_assert (E := E) true = Ok tt.
Proof. unfold debug_assert. by rewrite andb_false_r. Qed.

Lemma abs_signed_coeff k i b : Z.abs (signed_coeff k i b) = if i <? k then 1 else 2.
Proof. unfold signed_coeff. by destruct (i <? k), (Z.land b 1 =? 0). Qed.

Lemma magnitudes_app m v w : magnitudes m (v ++ w) = (magnitudes m v + magnitudes m w)%nat.
Proof. unfold magnitudes. by rewrite list.filter_app, length_app. Qed.

(** Entries that all have magnitude [j]. *)
Lemma magnitudes_const m j v : Forall (fun x => Z.abs x = j) v ->
  magnitudes m v = if decide (j = m) then length v else 0%nat.
Proof.
  induction 1 as [|x v Hx _ IH]; [by case_decide|]. rewrite magnitudes_cons, IH, Hx.
  by repeat case_decide.
Qed.

Section attempt.
Context `{KeccakLaws, Allocator, BuildMode}.
Variable fuel : nat.
Hypothesis granted : forall n, reserve_exact n = true.

Section family.
Variable st0 : list Z.
Hypothesis st0_ok : lanes_ok st0.

Lemma signs_abs k n w m (j : Z) :
  (forall i, w <= i < w + m -> (if i <? k then 1 else 2) = j) ->
  Forall (fun x => Z.abs x = j) (signs_from st0 k n w m).
Proof.
  intros Hj. unfold signs_from. rewrite Forall_map. apply Forall_forall. intros i Hi.
  apply list_elem_of_In, elem_of_seqZ in Hi. rewrite abs_signed_coeff. by apply Hj.
Qed.

Lemma signs_family n a b : 0 <= a -> 0 <= b ->
  let cs := signs_from st0 a n 0 (a + b) in
  Forall (fun x => x <> 0 /\ Z.abs x <= 2) cs /\ len cs = a + b /\
  Z.of_nat (magnitudes 1 cs) = a /\ Z.of_nat (magnitudes 2 cs) = b.
Proof.
  intros Ha Hb. cbv zeta. rewrite signs_app by done. rewrite Z.add_0_l.
  assert (M1 : Forall (fun x => Z.abs x = 1) (signs_from st0 a n 0 a))
    by (apply signs_abs; intros; case_Z).
  assert (M2 : Forall (fun x => Z.abs x = 2) (signs_from st0 a (n + a) a b))
    by (apply signs_abs; intros; case_Z).
  pose proof (len_signs st0 a n 0 a Ha). pose proof (len_signs st0 a (n + a) a b Hb).
  rewrite len_app, !magnitudes_app, !(magnitudes_const _ _ _ M1), !(magnitudes_const _ _ _ M2).
  cbn [decide]. repeat case_decide; try lia. unfold len in *. split; [|lia].
  apply list.Forall_app. split; (eapply list.Forall_impl; [eassumption|intros x Hx; cbn in *; lia]).
Qed.
End family.

(** The draw of one candidate, without the buffers. *)
Definition attempt (d : Z) (cfg : SparseChallengeConfig) (c : XofCursor)
  : result (SparseChallenge * XofCursor) :=
  let n := count_pm1 cfg + count_pm2 cfg in
  let* (js, c) := draws fuel d (range n) c in
  let* (cs, c) :=
    SignedSparseScratch.sign_loop (Z.to_nat n) n (count_pm1 cfg) 0 (replicate (Z.to_nat n) 0) c in
  Ok ({| positions := select (range d) 0 js; coeffs := cs |}, c).

(** What [new] and every draw leave behind. *)
Record scratch_ok (cfg : SparseChallengeConfig) (s : SignedSparseScratch) : Prop := {
  so_total : total s = count_pm1 cfg + count_pm2 cfg;
  so_positions : len (scratch_positions s) = count_pm1 cfg + count_pm2 cfg;
  so_reusable : reusable (position_scratch s);
}.

(** The configuration passed [validate_dyn] in a supported dimension. *)
Record config_ok (d : Z) (cfg : SparseChallengeConfig) : Prop := {
  co_pm1 : 0 <= count_pm1 cfg;
  co_pm2 : 0 <= count_pm2 cfg;
  co_fits : count_pm1 cfg + count_pm2 cfg <= d;
  co_dim : d <= MAX_STACK_RING_DIM;
}.

Lemma len_resize (l : list Z) n : 0 <= n -> len (resize l n) = n.
Proof.
  intros. unfold resize, len. rewrite length_app, length_take, length_replicate. lia.
Qed.

Lemma draws_outcome d cfg c : config_ok d cfg -> follows c ->
  match attempt d cfg c with
  | Ok (ch, c') => in_challenge_family d cfg ch /\ follows c'
  | Err _ => False
  | Panic => True
  end.
Proof.
  intros [Ha Hb Hfit Hdim] Hf. unfold attempt. cbv zeta.
  pose proof (samplers_outcome fuel c d (count_pm1 cfg + count_pm2 cfg) DistinctPositionScratch.new
    granted reusable_new Hf ltac:(lia) Hdim) as Ho.
  destruct (draws fuel d (range _) c) as [[js c1]|e|]; cbn [obind]; [|done..].
  destruct Ho as (_ & _ & Hv & Hl & (st0 & n & Hs & Hat)).
  destruct (sign_loop_spec st0 Hs (Z.to_nat (count_pm1 cfg + count_pm2 cfg)) (count_pm1 cfg + count_pm2 cfg)
    (count_pm1 cfg) n 0 c1 Hat ltac:(lia) ltac:(lia)) as (c2 & Hat2 & He).
  rewrite He by (apply len_replicate; lia). cbn [obind]. rewrite Z.sub_0_r. change (take (Z.to_nat 0) ?l) with (@nil Z).
  cbn [app]. split; [|by eexists _, _].
  destruct (signs_family st0 n _ _ Ha Hb) as (F1 & F2 & F3 & F4).
  assert (Hlen : len (range d) = d) by (apply len_range; lia).
  destruct (select_distinct js (range d) 0 (range_NoDup d) ltac:(lia)) as (D1 & D2 & D3); [by rewrite Hlen|].
  constructor; cbn [positions coeffs]; try done.
  - constructor; cbn [positions coeffs]; try done.
    + rewrite D2, Hl. unfold len in F2. lia.
    + apply Forall_forall. intros p Hp%list_elem_of_In%D3. destruct Hp as (k & _ & Hk).
      unfold range in Hk. apply lookup_seqZ in Hk. lia.
    + eapply list.Forall_impl; [exact F1|]. by intros x [].
  - eapply list.Forall_impl; [exact F1|]. by intros x [].
Qed.

(** The buffered draw is that draw. *)
Lemma sample_attempt d cfg s c : config_ok d cfg -> scratch_ok cfg s -> follows c ->
  match attempt d cfg c with
  | Ok (ch, c') => exists s', scratch_ok cfg s' /\ SignedSparseScratch.take_challenge s' = ch /\
      SignedSparseScratch.sample fuel s c d (count_pm1 cfg) (count_pm2 cfg) = Ok (s', c')
  | Err _ => False
  | Panic => SignedSparseScratch.sample fuel s c d (count_pm1 cfg) (count_pm2 cfg) = Panic
  end.
Proof.
  intros Hc [St Sp Sr] Hf. pose proof (draws_outcome d cfg c Hc Hf) as Hout. destruct Hc as [Ha Hb Hfit Hdim].
  unfold attempt, SignedSparseScratch.sample in *. cbv zeta in *. rewrite St, Sp.
  rewrite Z.eqb_refl, debug_assert_true. cbn [obind].
  pose proof (samplers_outcome fuel c d (count_pm1 cfg + count_pm2 cfg) (position_scratch s)
    granted Sr Hf ltac:(lia) Hdim) as Ho.
  destruct (draws fuel d (range _) c) as [[js c1]|e|]; cbn [obind] in *; [|done|].
  2:{ destruct Ho as [_ ->]. done. }
  destruct Ho as (_ & (s2 & Hs2 & ->) & Hv & Hl & (st0 & n & Hs & Hat)). cbn [obind].
  destruct (sign_loop_spec st0 Hs (Z.to_nat (count_pm1 cfg + count_pm2 cfg)) (count_pm1 cfg + count_pm2 cfg)
    (count_pm1 cfg) n 0 c1 Hat ltac:(lia) ltac:(lia)) as (c2 & Hat2 & He).
  rewrite !He in * by (apply len_replicate || apply len_resize; lia). cbn [obind] in *.
  eexists. split; [|split; [|reflexivity]]; [|done]. destruct Hout as [[[Hwl Hwp _ _] _ F1 F2] _].
  constructor; cbn [total scratch_positions position_scratch positions coeffs] in *; try done.
  unfold len. rewrite Hwl.
  pose proof (len_signs st0 (count_pm1 cfg) n 0 (count_pm1 cfg + count_pm2 cfg) ltac:(lia)) as Hls.
  rewrite Z.sub_0_r. exact Hls.
Qed.
End attempt.

(** * The challenge of one coordinate

    The reference: a new cursor at the start of the coordinate's stream, one
    attempt or attempts until the predicate accepts; no buffers. *)

Section coordinate.
Context `{KeccakLaws, Allocator, BuildMode}.
Variable fuel : nat.

Fixpoint first_accepted_attempt (attempts : nat) (threshold : Z) (table : OpNormTable) (d : Z)
    (cfg : SparseChallengeConfig) (c : XofCursor) : result (SparseChallenge * XofCursor) :=
  match attempts with
  | O => Err (InvalidInput "operator-norm rejection exceeded its attempts")
  | S attempts =>
      let* (ch, c) := attempt fuel d cfg c in
      let* ok := OpNormTable.accept_strict_parts table (positions ch) (coeffs ch) threshold in
      if ok : bool then Ok (ch, c) else first_accepted_attempt attempts threshold table d cfg c
  end.

Definition coordinate_challenge (d : Z) (cfg : SparseChallengeConfig) (pol : IndexedSamplingPolicy)
    (p : IndexedXofPrefix) (index : Z) : result SparseChallenge :=
  let* c := XofCursor.reset_indexed_prefix XofCursor.new p index in
  let* (ch, _) :=
    match pol with
    | Unrestricted => attempt fuel d cfg c
    | OperatorNorm threshold table =>
        first_accepted_attempt (Z.to_nat MAX_OP_NORM_ATTEMPTS) threshold table d cfg c
    end in
  Ok ch.

(** The policy accepts the challenge. *)
Definition policy_accepts (pol : IndexedSamplingPolicy) (ch : SparseChallenge) : Prop :=
  match pol with
  | Unrestricted => True
  | OperatorNorm threshold table =>
      OpNormTable.accept_strict_parts table (positions ch) (coeffs ch) threshold = Ok true
  end.

Hypothesis granted : forall n, reserve_exact n = true.
Variable d : Z.
Variable cfg : SparseChallengeConfig.
Hypothesis cfg_ok : config_ok d cfg.

Lemma attempt_loop_spec attempts threshold table : forall s c,
  scratch_ok cfg s -> follows c ->
  match first_accepted_attempt attempts threshold table d cfg c with
  | Ok (ch, c') =>
      (exists s', scratch_ok cfg s' /\
         IndexedChallengeWorker.attempt_loop fuel attempts threshold table d cfg s c = Ok (ch, (s', c'))) /\
      in_challenge_family d cfg ch /\ policy_accepts (OperatorNorm threshold table) ch /\ follows c'
  | Err e => IndexedChallengeWorker.attempt_loop fuel attempts threshold table d cfg s c = Err e
  | Panic => IndexedChallengeWorker.attempt_loop fuel attempts threshold table d cfg s c = Panic
  end.
Proof.
  induction attempts as [|attempts IH]; intros s c Hs Hf; [done|].
  cbn [first_accepted_attempt IndexedChallengeWorker.attempt_loop].
  pose proof (sample_attempt fuel granted d cfg s c cfg_ok Hs Hf) as Hsa.
  pose proof (draws_outcome fuel granted d cfg c cfg_ok Hf) as Hd.
  destruct (attempt fuel d cfg c) as [[ch c']|e|]; cbn [obind]; [|done|by rewrite Hsa].
  destruct Hsa as (s' & Hs' & <- & ->), Hd as [Hfam Hf']. cbn [obind SignedSparseScratch.take_challenge positions coeffs].
  destruct (OpNormTable.accept_strict_parts _ _ _ _) as [[]|e|] eqn:Ea; cbn [obind]; [|by apply IH|done..].
  split; [by exists s'|]. done.
Qed.

Variable seed : list Z.
Hypothesis seed_len : len seed = GROUP_ROOT_LEN.
Hypothesis seed_bytes : Forall is_byte seed.
Variable p : IndexedXofPrefix.
Hypothesis p_seed : IndexedXofPrefix.new seed = Ok p.
Variable pol : IndexedSamplingPolicy.

Lemma reset_follows index c : in_u 64 index -> len (cursor_buf c) = XOF_BUFFER_SIZE ->
  exists c', XofCursor.reset_indexed_prefix (Er := AkitaError) c p index = Ok c' /\
    XofCursor.reset_indexed_prefix (Er := AkitaError) XofCursor.new p index = Ok c' /\ follows c'.
Proof.
  intros Hi Hc. destruct (reset_spec (Er := AkitaError) seed index c seed_len seed_bytes Hi Hc)
    as (p' & c' & Hp & He & Hs & Hat). rewrite Hp in p_seed. injection p_seed as ->.
  exists c'. split; [done|]. split; [|by eexists _, _]. rewrite <-He.
  unfold XofCursor.reset_indexed_prefix. destruct (IndexedXofPrefix.reader p index); cbn [obind]; [|done..].
  unfold XofCursor.refill. cbn [cursor_buf cursor_reader]. by rewrite Hc.
Qed.

Lemma follows_buf c : follows c -> len (cursor_buf c) = XOF_BUFFER_SIZE.
Proof. intros (st0 & n & Hs & (m & _ & _ & -> & _)). by apply len_segment. Qed.

Record worker_ok (w : IndexedChallengeWorker) : Prop := {
  wo_prefix : prefix w = p;
  wo_policy : policy w = pol;
  wo_buf : len (cursor_buf (cursor w)) = XOF_BUFFER_SIZE;
  wo_scratch : scratch_ok cfg (scratch w);
}.

Lemma worker_new : exists w, IndexedChallengeWorker.new p cfg pol = Ok w /\ worker_ok w.
Proof.
  destruct cfg_ok as [Ha Hb Hfit Hdim]. unfold MAX_STACK_RING_DIM in Hdim.
  unfold IndexedChallengeWorker.new, SignedSparseScratch.new, usize_ok.
  assert (Hw : (0 <=? count_pm1 cfg + count_pm2 cfg) && (count_pm1 cfg + count_pm2 cfg <? 2 ^ 64) = true)
    by (apply andb_true_iff; lia).
  rewrite Hw. cbn [obind]. eexists. split; [done|]. constructor; try done.
  constructor; [done| |apply reusable_new]. cbn [scratch scratch_positions]. apply len_replicate. lia.
Qed.

(** A worker draws the coordinate's challenge whatever it drew before. *)
Lemma worker_sample w index : worker_ok w -> in_u 64 index ->
  match coordinate_challenge d cfg pol p index with
  | Ok ch => (exists w', worker_ok w' /\ IndexedChallengeWorker.sample fuel w index d cfg = Ok (ch, w')) /\
      in_challenge_family d cfg ch /\ policy_accepts pol ch
  | Err e => IndexedChallengeWorker.sample fuel w index d cfg = Err e
  | Panic => IndexedChallengeWorker.sample fuel w index d cfg = Panic
  end.
Proof.
  intros [Wp Wl Wb Ws] Hi. unfold coordinate_challenge, IndexedChallengeWorker.sample. rewrite Wp, Wl.
  destruct (reset_follows index (cursor w) Hi Wb) as (c & -> & -> & Hf). cbn [obind].
  assert (Hdone : forall s' c', scratch_ok cfg s' -> follows c' -> worker_ok (IndexedChallengeWorker.with_draw w s' c')).
  { intros s' c' Hs' Hf'. constructor; try done. by apply follows_buf. }
  destruct pol as [|threshold table].
  - pose proof (sample_attempt fuel granted d cfg (scratch w) c cfg_ok Ws Hf) as Hsa.
    pose proof (draws_outcome fuel granted d cfg c cfg_ok Hf) as Hd.
    destruct (attempt fuel d cfg c) as [[ch c']|e|]; cbn [obind]; [|done|by rewrite Hsa].
    destruct Hsa as (s' & Hs' & <- & ->), Hd as [Hfam Hf']. cbn [obind]. split; [|done].
    eexists. split; [|done]. by apply Hdone.
  - pose proof (attempt_loop_spec (Z.to_nat MAX_OP_NORM_ATTEMPTS) threshold table (scratch w) c Ws Hf) as Hl.
    destruct (first_accepted_attempt _ _ _ _ _ _) as [[ch c']|e|]; cbn [obind]; [|by rewrite Hl..].
    destruct Hl as ((s' & Hs' & ->) & Hfam & Hacc & Hf'). cbn [obind]. split; [|done].
    eexists. split; [|done]. by apply Hdone.
Qed.

Lemma sample_run_spec indices : Forall (in_u 64) indices ->
  sample_run p cfg pol (fun w i => IndexedChallengeWorker.sample fuel w i d cfg) indices
  = omapM (coordinate_challenge d cfg pol p) indices.
Proof.
  intros Hi. unfold sample_run. destruct worker_new as (w & -> & Hw). cbn [obind].
  set (f := fun '(cs, worker) index => _).
  assert (Hloop : forall cs w, worker_ok w ->
    match omapM (coordinate_challenge d cfg pol p) indices with
    | Ok cs' => exists w', ofold f indices (cs, w) = Ok (cs ++ cs', w')
    | Err e => ofold f indices (cs, w) = Err e
    | Panic => ofold f indices (cs, w) = Panic
    end).
  { clear w Hw. induction Hi as [|i is' Hi _ IH]; intros cs w Hw; cbn [omapM ofold].
    { exists w. by rewrite app_nil_r. }
    unfold f at 1 3 5. rewrite checked_u_in by done. cbn [ok_or obind].
    pose proof (worker_sample w i Hw Hi) as Hs.
    destruct (coordinate_challenge d cfg pol p i) as [ch|e|]; cbn [obind]; [|by rewrite Hs..].
    destruct Hs as ((w' & Hw' & ->) & _). cbn [obind]. specialize (IH (cs ++ [ch]) w' Hw').
    destruct (omapM _ is') as [cs'|e|]; cbn [obind]; [|done..].
    destruct IH as [w2 ->]. exists w2. by rewrite <-app_assoc. }
  specialize (Hloop [] w Hw). destruct (omapM _ indices) as [cs'|e|].
  - by destruct Hloop as [w' ->].
  - by rewrite Hloop.
  - by rewrite Hloop.
Qed.

Lemma indices_u64 n : n <= 2 ^ 64 -> Forall (in_u 64) (range n).
Proof.
  intros Hn. apply Forall_forall. intros i Hi%list_elem_of_In%elem_of_range. unfold in_u. lia.
Qed.

Lemma parallel_spec `{ThreadPool} n : n <= 2 ^ 64 ->
  sample_indexed_challenges_parallel fuel p d n cfg pol
  = omapM (coordinate_challenge d cfg pol p) (range n).
Proof.
  intros Hn. unfold sample_indexed_challenges_parallel. rewrite <-split_concat, <-omapM_concat.
  pose proof (indices_u64 n Hn) as Hi. rewrite <-split_concat in Hi. revert Hi.
  assert (He : forall ls, Forall (in_u 64) (concat ls) ->
    omapM (sample_run p cfg pol (fun w i => IndexedChallengeWorker.sample fuel w i d cfg)) ls
    = omapM (omapM (coordinate_challenge d cfg pol p)) ls).
  { induction ls as [|l ls IH]; [done|]. cbn [concat omapM]. intros [H1' H2']%list.Forall_app.
    by rewrite sample_run_spec, IH. }
  intros Hi. by rewrite He.
Qed.
End coordinate.

(** * Properties *)

Section properties.
Context `{KeccakLaws, Allocator, BuildMode, CargoFeatures, ThreadPool}.
Variable fuel : nat.

Lemma validated_config d cfg : config_typed cfg -> d <= MAX_STACK_RING_DIM ->
  SparseChallengeConfig.validate_dyn cfg d = Ok tt -> config_ok d cfg.
Proof.
  unfold config_typed, in_u. intros [Ha Hb] Hd. unfold SparseChallengeConfig.validate_dyn, checked_add, usize.
  destruct (checked_u USIZE_BITS (count_pm1 cfg + count_pm2 cfg)) as [w|] eqn:Ew; [|done].
  apply checked_u_Some in Ew as [_ ->]. destruct (Z.ltb_spec d (count_pm1 cfg + count_pm2 cfg)); [done|].
  intros _. constructor; lia.
Qed.

Lemma from_seed_spec seed d n cfg rejection :
  (forall k, reserve_exact k = true) -> len seed = GROUP_ROOT_LEN -> Forall is_byte seed ->
  config_typed cfg -> d <= MAX_STACK_RING_DIM -> SparseChallengeConfig.validate_dyn cfg d = Ok tt ->
  0 <= n < 2 ^ 64 -> n * SparseChallengeConfig.weight cfg < 2 ^ 64 ->
  sample_indexed_challenges_from_seed fuel seed d n cfg rejection =
    if n =? 0 then Ok []
    else
      let* pol := IndexedSamplingPolicy.new d cfg rejection in
      let* p := omap_err InvalidSetup (IndexedXofPrefix.new seed) in
      omapM (coordinate_challenge fuel d cfg pol p) (range n).
Proof.
  intros Hg Hl Hb Ht Hd Hv Hn Hw. pose proof (validated_config d cfg Ht Hd Hv) as Hc.
  unfold sample_indexed_challenges_from_seed. destruct (Z.eqb_spec n 0) as [|Hnz]; [done|].
  rewrite checked_u_in by (unfold in_u; lia). cbn [ok_or obind].
  destruct (IndexedSamplingPolicy.new d cfg rejection) as [pol|e|]; cbn [obind]; [|done..].
  destruct (IndexedXofPrefix.new seed) as [p|e|] eqn:Ep; cbn [omap_err obind]; [|done..].
  assert (Hseq : sample_indexed_challenges_sequential fuel p d n cfg pol
                 = omapM (coordinate_challenge fuel d cfg pol p) (range n))
    by (apply (sample_run_spec fuel Hg d cfg Hc seed Hl Hb p Ep), indices_u64; lia).
  destruct feature_parallel; [|done]. unfold checked_mul, usize.
  assert (0 <= SparseChallengeConfig.weight cfg).
  { destruct Hc. unfold SparseChallengeConfig.weight, saturating_add, USIZE_MAX, USIZE_BITS. lia. }
  rewrite checked_u_in by (unfold in_u, USIZE_BITS; nia). cbn [ok_or obind].
  destruct (PARALLEL_SAMPLING_WORK_THRESHOLD <=? _); [|done].
  apply (parallel_spec fuel Hg d cfg Hc seed Hl Hb p Ep). lia.
Qed.

(** C14: every challenge of a batch is a function of the seed and its own
    index: for every split of the batch over workers, with and without the
    thread pool, the draw returns what drawing each coordinate alone returns,
    from a new cursor at the start of SHAKE256(seed, index) and without the
    reused buffers; policies, errors and exhausted attempts included. *)
Theorem indexed_draw_is_coordinatewise seed d n cfg rejection :
  (forall k, reserve_exact k = true) -> len seed = GROUP_ROOT_LEN -> Forall is_byte seed ->
  config_typed cfg -> d <= MAX_STACK_RING_DIM -> SparseChallengeConfig.validate_dyn cfg d = Ok tt ->
  0 <= n < 2 ^ 64 -> n * SparseChallengeConfig.weight cfg < 2 ^ 64 ->
  sample_indexed_challenges_from_seed fuel seed d n cfg rejection =
    if n =? 0 then Ok []
    else
      let* pol := IndexedSamplingPolicy.new d cfg rejection in
      let* p := omap_err InvalidSetup (IndexedXofPrefix.new seed) in
      omapM (coordinate_challenge fuel d cfg pol p) (range n).
Proof. apply from_seed_spec. Qed.

(** Every challenge a draw returns is well formed (distinct positions
    below the ring dimension, no zero coefficient), has exactly [count_pm1]
    coefficients of magnitude 1 and [count_pm2] of magnitude 2 and no other,
    passes [validate_dyn], and, under rejection, is one the operator-norm
    predicate of the policy's table accepts. *)
Lemma from_seed_family seed d n cfg rejection cs :
  (forall k, reserve_exact k = true) -> len seed = GROUP_ROOT_LEN -> Forall is_byte seed ->
  config_typed cfg -> d <= MAX_STACK_RING_DIM -> SparseChallengeConfig.validate_dyn cfg d = Ok tt ->
  0 < n < 2 ^ 64 -> n * SparseChallengeConfig.weight cfg < 2 ^ 64 ->
  sample_indexed_challenges_from_seed fuel seed d n cfg rejection = Ok cs ->
  len cs = n /\
  exists pol, IndexedSamplingPolicy.new d cfg rejection = Ok pol /\
    Forall (fun ch => in_challenge_family d cfg ch /\ SparseChallenge.validate_dyn d ch = Ok tt /\
                      policy_accepts pol ch) cs.
Proof.
  intros Hg Hl Hb Ht Hd Hv Hn Hw. pose proof (validated_config d cfg Ht Hd Hv) as Hc.
  rewrite from_seed_spec by (done || lia). destruct (Z.eqb_spec n 0) as [|_]; [lia|].
  destruct (IndexedSamplingPolicy.new d cfg rejection) as [pol|e|]; cbn [obind]; [|done..].
  destruct (IndexedXofPrefix.new seed) as [p|e|] eqn:Ep; cbn [omap_err obind]; [|done..].
  intros Hcs. apply omapM_length in Hcs as Hlen. split.
  { unfold len. rewrite Hlen, length_range. lia. }
  exists pol. split; [done|]. apply omapM_Forall2 in Hcs.
  pose proof (indices_u64 n ltac:(lia)) as Hi. clear Hlen Hw Hn.
  induction Hcs as [|i ch is' cs Hch _ IH]; [constructor|].
  apply Forall_cons_1 in Hi as [Hi His]. constructor; [|by apply IH].
  destruct (worker_new d cfg Hc p pol) as (w & _ & Hwk).
  pose proof (worker_sample fuel Hg d cfg Hc seed Hl Hb p Ep pol w i Hwk Hi) as Hs.
  rewrite Hch in Hs. destruct Hs as (_ & Hfam & Hacc). split; [done|]. split; [|done].
  destruct Hfam as [Hwf _ _ _], Hc as [? ? ? Hdim]. unfold MAX_STACK_RING_DIM in Hdim.
  destruct (validate_spec d ch ltac:(lia)) as [[_ Hok]|[Hbad _]]; [|by left|done|by destruct (Hbad Hwf)].
  destruct Hwf as [_ Hp _ _]. eapply list.Forall_impl; [exact Hp|]. intros x Hx. cbn in Hx. unfold in_u. lia.
Qed.
End properties.

(** * Evaluation *)

#[local] Instance grant_every : Allocator := fun _ => true.
#[local] Instance pairs : ThreadPool :=
  {| split n := chunks_of 2 (range n); split_concat n := chunks_of_concat 2 (range n) ltac:(lia) |}.

Definition toy_config : SparseChallengeConfig := {| count_pm1 := 3; count_pm2 := 2 |}.

Lemma indexed_draw_is_coordinatewise_witness :
  exists p, IndexedXofPrefix.new toy_seed = Ok p /\
  sample_indexed_challenges_from_seed (H1 := true) (H2 := true) 64 toy_seed 16 4000 toy_config None
  = omapM (coordinate_challenge (H2 := true) 64 16 toy_config Unrestricted p) (range 4000).
Proof.
  assert (Hp : exists p, IndexedXofPrefix.new toy_seed = Ok p) by (eexists; vm_compute; reflexivity).
  destruct Hp as (p & Hp). exists p. split; [exact Hp|].
  pose proof (indexed_draw_is_coordinatewise (H2 := true) (H3 := true) 64 toy_seed 16 4000 toy_config None
    ltac:(done) eq_refl ltac:(repeat constructor; lia) ltac:(split; unfold in_u, USIZE_BITS; cbn; lia)
    ltac:(unfold MAX_STACK_RING_DIM; lia) eq_refl ltac:(lia) ltac:(reflexivity)) as He.
  rewrite Hp in He. exact He.
Defined.
