(* ===== verification/FoldDraw.v ===== *)
(** [akita-challenges/src/fold_draw.rs]: the challenges of one folding round,
    drawn from the live transcript or, while the prover grinds, from a preview
    of it.  The preview is exact: any sequence of draws returns on it what the
    prover's and the verifier's transcripts return later. *)

From S2P Require Import Prelude Checked Field Serialization Transcript.
From S2P Require Import ChallengeConfig SparseChallenge Xof PositionSample OpNorm Sampler.

Definition FOLD_CHALLENGE_ROUND_DOMAIN : list Z := bytes "akita/fold-challenge-round/v1".
Definition SUBRING_COEFFICIENT_PACKING_DRAW_DOMAIN : list Z :=
  bytes "akita/subring-coefficient-packing-fold-challenge/v1".

Inductive FoldChallengeDrawDomain :=
  | EvaluationTrace
  | SubringCoefficientPacking (challenge_subring_dimension : Z).

#[export] Instance FoldChallengeDrawDomain_eq : EqDecision FoldChallengeDrawDomain.
Proof. solve_decision. Defined.

Definition fold_challenge_sample_label (group_index num_live_blocks num_claims : Z)
  : result (list Z) :=
  let* group_index := ok_or (checked_u 64 group_index) (InvalidSetup "fold group index exceeds u64") in
  let* num_live_blocks := ok_or (checked_u 64 num_live_blocks) (InvalidSetup "num_live_blocks exceeds u64") in
  let* num_claims := ok_or (checked_u 64 num_claims) (InvalidSetup "fold claim count exceeds u64") in
  Ok (FOLD_CHALLENGE_ROUND_DOMAIN ++ to_le_bytes 8 group_index ++ to_le_bytes 8 num_live_blocks ++
      to_le_bytes 8 num_claims ++ labels.CHALLENGE_WITNESS_FOLD).

(** The trait; the diagnostic [record_challenge_range] is left out. *)
Class FoldDraw (D : Type) := absorb_and_squeeze : D -> label -> list Z -> result (list Z * D).

(** The checks before anything is absorbed. *)
Definition check_domain (domain : FoldChallengeDrawDomain) (ring_d : Z)
    (rejection : option OperatorNormRejection) : result unit :=
  match domain with
  | EvaluationTrace => Ok tt
  | SubringCoefficientPacking challenge_subring_dimension =>
      if negb (ring_d =? challenge_subring_dimension)
      then Err (InvalidInput "coefficient-packing draw dimension mismatch")
      else if bool_decide (rejection <> None)
      then Err (InvalidInput "coefficient-packing draws require the L-infinity security route")
      else Ok tt
  end.

(** [absorb_buf] *)
Definition fold_payload (domain : FoldChallengeDrawDomain) (sample_label : list Z) (total ring_d : Z)
    (cfg : SparseChallengeConfig) (grind_nonce : Z) (rejection : option OperatorNormRejection) : list Z :=
  sample_label ++ to_le_bytes 8 total ++ to_le_bytes 8 ring_d ++
  SparseChallengeConfig.domain_separator_bytes cfg ++ to_le_bytes 4 grind_nonce ++
  match domain with
  | SubringCoefficientPacking _ => SUBRING_COEFFICIENT_PACKING_DRAW_DOMAIN
  | EvaluationTrace => []
  end ++
  match rejection with
  | Some r => OperatorNormRejection.domain_separator_bytes r
  | None => []
  end.

Section draw.
Context `{Keccak, Allocator, BuildMode, CargoFeatures, ThreadPool}.
Variable fuel : nat.
Context {D : Type} `{FoldDraw D}.

Definition draw_folding_challenges_with_rejection (self : D) (domain : FoldChallengeDrawDomain)
    (ring_d group_index num_live_blocks num_claims : Z) (cfg : SparseChallengeConfig)
    (grind_nonce : Z) (rejection : option OperatorNormRejection) : result (Challenges * D) :=
  let* _ := check_domain domain ring_d rejection in
  if MAX_STACK_RING_DIM <? ring_d
  then Err (InvalidInput "ring dimension exceeds supported stack sampler limit")
  else
    let* _ := omap_err (fun _ => InvalidInput "invalid sparse challenge config")
                (SparseChallengeConfig.validate_dyn cfg ring_d) in
    let* _ :=
      match rejection with
      | Some rejection => omap_err InvalidInput (OperatorNormRejection.validate rejection ring_d cfg)
      | None => Ok tt
      end in
    if (num_live_blocks =? 0) || (num_claims =? 0)
    then Err (InvalidInput "fold challenges require positive num_live_blocks and claims")
    else
      let* total := ok_or (checked_mul num_live_blocks num_claims)
                      (InvalidSetup "sparse challenge count overflow") in
      let* sample_label := fold_challenge_sample_label group_index num_live_blocks num_claims in
      let absorb_buf := fold_payload domain sample_label total ring_d cfg grind_nonce rejection in
      let* (seed, self) := absorb_and_squeeze self labels.ABSORB_SPARSE_CHALLENGE absorb_buf in
      let* challenges := sample_indexed_challenges_from_seed fuel seed ring_d total cfg rejection in
      let* challenges := Challenges.from_sparse challenges num_live_blocks num_claims in
      Ok (challenges, self).

Definition draw_folding_challenges (self : D) (ring_d group_index num_live_blocks num_claims : Z)
    (cfg : SparseChallengeConfig) (grind_nonce : Z) : result (Challenges * D) :=
  draw_folding_challenges_with_rejection self EvaluationTrace ring_d group_index num_live_blocks
    num_claims cfg grind_nonce None.
End draw.

(** * The two implementations *)

Record PreviewFoldDraw := {
  preview : preview_fn;
  absorbs : list (list Z);
}.

Module PreviewFoldDraw.
Definition new (preview : preview_fn) : PreviewFoldDraw := {| preview := preview; absorbs := [] |}.
Definition absorb_and_squeeze (self : PreviewFoldDraw) (_ : label) (payload : list Z)
  : result (list Z * PreviewFoldDraw) :=
  let absorbs := absorbs self ++ [payload] in
  let* seed := preview self absorbs in
  Ok (seed, {| preview := preview self; absorbs := absorbs |}).
End PreviewFoldDraw.

#[export] Instance PreviewFoldDraw_FoldDraw : FoldDraw PreviewFoldDraw := PreviewFoldDraw.absorb_and_squeeze.

(** [LiveFoldDraw<F, T>] borrows the transcript. *)
Record LiveFoldDraw (F T : Type) := { transcript : T }.
Arguments transcript {F T}.

Module LiveFoldDraw.
Section live.
Context {F T : Type} `{Transcript F T}.
Definition new (t : T) : LiveFoldDraw F T := {| transcript := t |}.
Definition absorb_and_squeeze (self : LiveFoldDraw F T) (l : label) (payload : list Z)
  : result (list Z * LiveFoldDraw F T) :=
  let* t := append_bytes (F := F) (transcript self) l payload in
  let* (seed, t) := challenge_block (F := F) t labels.CHALLENGE_SPARSE_CHALLENGE in
  Ok (seed, new t).
End live.
End LiveFoldDraw.

#[export] Instance LiveFoldDraw_FoldDraw {F T} `{Transcript F T} : FoldDraw (LiveFoldDraw F T) :=
  LiveFoldDraw.absorb_and_squeeze.

(** * Sequences of draws *)

(** The arguments of one draw. *)
Record draw_request := {
  req_domain : FoldChallengeDrawDomain;
  req_ring_d : Z;
  req_group : Z;
  req_blocks : Z;
  req_claims : Z;
  req_cfg : SparseChallengeConfig;
  req_nonce : Z;
  req_rejection : option OperatorNormRejection;
}.

Section sequences.
Context `{Keccak, Allocator, BuildMode, CargoFeatures, ThreadPool}.
Variable fuel : nat.

Definition draw {D} `{FoldDraw D} (self : D) (q : draw_request) : result (Challenges * D) :=
  draw_folding_challenges_with_rejection fuel self (req_domain q) (req_ring_d q) (req_group q)
    (req_blocks q) (req_claims q) (req_cfg q) (req_nonce q) (req_rejection q).

(** The groups of a round in order, up to the first error. *)
Fixpoint draw_all {D} `{FoldDraw D} (self : D) (qs : list draw_request) : result (list Challenges * D) :=
  match qs with
  | [] => Ok ([], self)
  | q :: qs =>
      let* (c, self) := draw self q in
      let* (cs, self) := draw_all self qs in
      Ok (c :: cs, self)
  end.

Section simulation.
Context {D1 D2 : Type} `{FoldDraw D1, FoldDraw D2}.
Variable R : D1 -> D2 -> Prop.
Hypothesis step : forall d1 d2 payload, R d1 d2 ->
  rel_out R (absorb_and_squeeze d1 labels.ABSORB_SPARSE_CHALLENGE payload)
    (absorb_and_squeeze d2 labels.ABSORB_SPARSE_CHALLENGE payload).

Lemma rel_out_pure {A B} (m : result A) (k1 : A -> result (B * D1)) (k2 : A -> result (B * D2)) :
  (forall a, rel_out R (k1 a) (k2 a)) -> rel_out R (obind m k1) (obind m k2).
Proof. intros Hk. destruct m; cbn [obind]; [apply Hk|done|done]. Qed.

Lemma draw_sim d1 d2 q : R d1 d2 -> rel_out R (draw d1 q) (draw d2 q).
Proof.
  intros Hr. unfold draw, draw_folding_challenges_with_rejection.
  apply rel_out_pure. intros _. destruct (_ <? _); [done|].
  apply rel_out_pure. intros _. apply rel_out_pure. intros _. destruct (_ || _); [done|].
  apply rel_out_pure. intros total. apply rel_out_pure. intros l.
  apply rel_out_bind with (R := R); [by apply step|]. intros seed e1 e2 He.
  apply rel_out_pure. intros cs. apply rel_out_pure. by intros c.
Qed.

Lemma draw_all_sim qs : forall d1 d2, R d1 d2 -> rel_out R (draw_all d1 qs) (draw_all d2 qs).
Proof.
  induction qs as [|q qs IH]; intros d1 d2 Hr; [done|]. cbn [draw_all].
  apply rel_out_bind with (R := R); [by apply draw_sim|]. intros c e1 e2 He.
  apply rel_out_bind with (R := R); [by apply IH|]. by intros cs f1 f2 Hf.
Qed.
End simulation.

Section transcripts.
Context {F S P V : Type} `{CanonicalBytes F, !Spongefish S P V, !SpongefishLaws S P V}.
Abbreviation transcript := (AkitaTranscript P V).
Abbreviation live t := (LiveFoldDraw.new (F := F) (T := transcript) t).

(** The sponge after the preview's absorptions. *)
Definition replayed (s : S) (absorbs : list (list Z)) : list Z * S :=
  foldl (fun '(_, sponge) absorb => sponge_squeeze (sponge_absorb sponge (framed_encode absorb)) 32)
    (replicate 32 0, s) absorbs.

(** A preview of [t] against the live transcript, after the same draws. *)
Definition previews (t : transcript) (d1 : PreviewFoldDraw) (d2 : LiveFoldDraw F transcript) : Prop :=
  preview d1 = AkitaTranscript.preview_challenge_block t /\
  exists p, state t = Some (ProverSt p) /\
    sponge_of (FoldDraw.transcript d2) = Some (snd (replayed (duplex_sponge_state p) (absorbs d1))).

Lemma preview_step t d1 d2 payload : previews t d1 d2 ->
  rel_out (previews t) (absorb_and_squeeze d1 labels.ABSORB_SPARSE_CHALLENGE payload)
    (absorb_and_squeeze d2 labels.ABSORB_SPARSE_CHALLENGE payload).
Proof.
  intros [Hp (p & Ht & Hs)]. unfold absorb_and_squeeze, PreviewFoldDraw_FoldDraw, LiveFoldDraw_FoldDraw,
    PreviewFoldDraw.absorb_and_squeeze, LiveFoldDraw.absorb_and_squeeze.
  rewrite Hp. unfold AkitaTranscript.preview_challenge_block at 1. rewrite Ht. cbn [unwrap obind].
  fold (replayed (duplex_sponge_state p) (absorbs d1 ++ [payload])).
  assert (Hr : replayed (duplex_sponge_state p) (absorbs d1 ++ [payload])
    = sponge_squeeze (sponge_absorb (snd (replayed (duplex_sponge_state p) (absorbs d1))) (framed_encode payload)) 32).
  { unfold replayed. rewrite foldl_app. cbn [foldl]. by destruct (foldl _ _ _). }
  cbn [append_bytes challenge_block AkitaTranscript_Transcript].
  pose proof (absorb_sponge (FoldDraw.transcript d2) payload) as Ha. rewrite Hs in Ha.
  destruct Ha as (t1 & -> & _ & Hs1). cbn [obind].
  pose proof (block_sponge t1) as Hb. rewrite Hs1 in Hb. destruct Hb as (t2 & -> & Hs2). cbn [obind].
  destruct (replayed _ (absorbs d1 ++ [payload])) as [out sp] eqn:Eo. cbn [obind rel_out].
  rewrite <-Hr. split; [done|]. split; [done|]. exists p. split; [done|].
  cbn [absorbs LiveFoldDraw.new FoldDraw.transcript]. by rewrite Eo, Hs2, <-Hr.
Qed.

Lemma live_step (d1 d2 : LiveFoldDraw F transcript) payload :
  same_sponge (FoldDraw.transcript d1) (FoldDraw.transcript d2) ->
  rel_out (fun d1 d2 => same_sponge (FoldDraw.transcript d1) (FoldDraw.transcript d2))
    (absorb_and_squeeze d1 labels.ABSORB_SPARSE_CHALLENGE payload)
    (absorb_and_squeeze d2 labels.ABSORB_SPARSE_CHALLENGE payload).
Proof.
  intros Hs. unfold absorb_and_squeeze, LiveFoldDraw_FoldDraw, LiveFoldDraw.absorb_and_squeeze.
  pose proof (sim_append_bytes (F := F) (FoldDraw.transcript d1) (FoldDraw.transcript d2)
    labels.ABSORB_SPARSE_CHALLENGE payload Hs) as Ha.
  destruct (append_bytes (F := F) (FoldDraw.transcript d1) _ _), (append_bytes (F := F) (FoldDraw.transcript d2) _ _);
    try done. cbn [obind]. cbn [rel_state] in Ha.
  pose proof (sim_challenge_block (F := F) a a0 labels.CHALLENGE_SPARSE_CHALLENGE Ha) as Hb.
  destruct (challenge_block (F := F) a _) as [[b1 u1]|e1|], (challenge_block (F := F) a0 _) as [[b2 u2]|e2|];
    done.
Qed.

(** C12: grinding sees the real challenges: a sequence of draws on a preview of
    the prover's transcript returns what the same draws on that transcript
    return, errors included, and a verifier transcript in step with the
    prover's returns the same challenges and stays in step. *)
Theorem preview_draws_are_live (t tv : transcript) p qs :
  state t = Some (ProverSt p) -> same_sponge t tv ->
  match draw_all (PreviewFoldDraw.new (AkitaTranscript.preview_challenge_block t)) qs,
        draw_all (live t) qs, draw_all (live tv) qs with
  | Ok (c, _), Ok (c1, d1), Ok (c2, d2) =>
      c1 = c /\ c2 = c /\ same_sponge (FoldDraw.transcript d1) (FoldDraw.transcript d2)
  | Err e, Err e1, Err e2 => e1 = e /\ e2 = e
  | Panic, Panic, Panic => True
  | _, _, _ => False
  end.
Proof.
  intros Ht Hs.
  pose proof (draw_all_sim (previews t) (preview_step t) qs
    (PreviewFoldDraw.new (AkitaTranscript.preview_challenge_block t)) (live t)) as H1'.
  pose proof (draw_all_sim _ live_step qs (live t) (live tv) Hs) as H2'.
  assert (Hp : previews t (PreviewFoldDraw.new (AkitaTranscript.preview_challenge_block t)) (live t)).
  { split; [done|]. exists p. split; [done|]. cbn. unfold sponge_of. by rewrite Ht. }
  specialize (H1' Hp).
  destruct (draw_all (PreviewFoldDraw.new _) qs) as [[c d0]|e|], (draw_all (live t) qs) as [[c1 d1]|e1|],
    (draw_all (live tv) qs) as [[c2 d2]|e2|]; cbn [rel_out] in *; try done; intuition congruence.
Qed.
End transcripts.
End sequences.

(** * The payload *)

(** The arguments of a draw at their widths. *)
Record request_typed (q : draw_request) : Prop := {
  rt_ring : in_u 64 (req_ring_d q);
  rt_group : in_u 64 (req_group q);
  rt_blocks : in_u 64 (req_blocks q);
  rt_claims : in_u 64 (req_claims q);
  rt_cfg : config_typed (req_cfg q);
  rt_nonce : in_u 32 (req_nonce q);
  rt_rejection : forall r, req_rejection q = Some r -> rejection_typed r;
}.

(** The payload of a request that passes the checks. *)
Definition request_payload (q : draw_request) : result (list Z) :=
  let* _ := check_domain (req_domain q) (req_ring_d q) (req_rejection q) in
  let* total := ok_or (checked_mul (req_blocks q) (req_claims q))
                  (InvalidSetup "sparse challenge count overflow") in
  let* l := fold_challenge_sample_label (req_group q) (req_blocks q) (req_claims q) in
  Ok (fold_payload (req_domain q) l total (req_ring_d q) (req_cfg q) (req_nonce q) (req_rejection q)).

Lemma sample_label_ok q : request_typed q ->
  fold_challenge_sample_label (req_group q) (req_blocks q) (req_claims q)
  = Ok (FOLD_CHALLENGE_ROUND_DOMAIN ++ to_le_bytes 8 (req_group q) ++ to_le_bytes 8 (req_blocks q) ++
        to_le_bytes 8 (req_claims q) ++ labels.CHALLENGE_WITNESS_FOLD).
Proof. intros [? ? ? ? ? ? ?]. unfold fold_challenge_sample_label. by rewrite !checked_u_in. Qed.

(** Equal lists of parts of equal fixed lengths. *)
Lemma le_app_inj n a b x y :
  in_u (8 * Z.of_nat n) a -> in_u (8 * Z.of_nat n) b ->
  to_le_bytes n a ++ x = to_le_bytes n b ++ y -> a = b /\ x = y.
Proof.
  intros Ha Hb He. apply app_inj_1 in He as [Hl ->]; [|by rewrite !length_to_le_bytes].
  split; [by eapply to_le_bytes_inj|done].
Qed.

Lemma rejection_bytes_inj r1 r2 : rejection_typed r1 -> rejection_typed r2 ->
  OperatorNormRejection.domain_separator_bytes r1 = OperatorNormRejection.domain_separator_bytes r2 -> r1 = r2.
Proof.
  destruct r1 as [a1 a2 a3 a4], r2 as [b1 b2 b3 b4]. unfold rejection_typed.
  intros (A1 & A2 & A3 & A4) (B1 & B2 & B3 & B4) He.
  unfold OperatorNormRejection.domain_separator_bytes in He.
  cbn [threshold fractional_bits root_coordinate_error_units rounding_margin_units] in *.
  apply app_inj_1 in He as [_ He]; [|done].
  apply (le_app_inj 4) in He as [<- He]; [|done..]. apply (le_app_inj 4) in He as [<- He]; [|done..].
  apply (le_app_inj 4) in He as [<- He]; [|done..]. apply (to_le_bytes_inj 4) in He as <-; done.
Qed.

(** The bytes after the nonce determine the method and the policy. *)
Definition payload_suffix (domain : FoldChallengeDrawDomain) (rejection : option OperatorNormRejection)
  : list Z :=
  match domain with
  | SubringCoefficientPacking _ => SUBRING_COEFFICIENT_PACKING_DRAW_DOMAIN
  | EvaluationTrace => []
  end ++
  match rejection with
  | Some r => OperatorNormRejection.domain_separator_bytes r
  | None => []
  end.

Lemma rejection_bytes_length r : length (OperatorNormRejection.domain_separator_bytes r) = 17%nat.
Proof.
  unfold OperatorNormRejection.domain_separator_bytes. by rewrite !length_app, !length_to_le_bytes.
Qed.

Lemma suffix_inj q1 q2 : request_typed q1 -> request_typed q2 ->
  check_domain (req_domain q1) (req_ring_d q1) (req_rejection q1) = Ok tt ->
  check_domain (req_domain q2) (req_ring_d q2) (req_rejection q2) = Ok tt ->
  req_ring_d q1 = req_ring_d q2 ->
  payload_suffix (req_domain q1) (req_rejection q1) = payload_suffix (req_domain q2) (req_rejection q2) ->
  req_domain q1 = req_domain q2 /\ req_rejection q1 = req_rejection q2.
Proof.
  intros [_ _ _ _ _ _ T1] [_ _ _ _ _ _ T2] C1 C2 Hd He. unfold payload_suffix, check_domain in *.
  assert (Hp : length SUBRING_COEFFICIENT_PACKING_DRAW_DOMAIN = 51%nat) by done.
  apply (f_equal length) in He as Hl. rewrite !length_app in Hl.
  destruct (req_domain q1) as [|s1], (req_domain q2) as [|s2], (req_rejection q1) as [r1|],
    (req_rejection q2) as [r2|]; cbn [app length] in *;
    rewrite ?bool_decide_true in C1, C2 by done;
    rewrite ?Hp, ?rejection_bytes_length in Hl; try lia; try done;
    repeat match goal with H : context [negb (?a =? ?b)] |- _ => destruct (Z.eqb_spec a b); cbn [negb] in H end;
    try done.
  - split; [done|]. f_equal. apply rejection_bytes_inj; auto.
  - split; [congruence|done].
Qed.

(** C13: the absorbed bytes bind the whole draw: two accepted requests with the
    same payload agree in method, ring dimension, group, block and claim
    counts, challenge family, nonce and rejection policy. *)
Theorem fold_payload_injective q1 q2 payload :
  request_typed q1 -> request_typed q2 ->
  request_payload q1 = Ok payload -> request_payload q2 = Ok payload -> q1 = q2.
Proof.
  intros T1 T2 P1 P2. unfold request_payload in *. rewrite sample_label_ok in P1, P2 by done.
  destruct (check_domain (req_domain q1) _ _) as [[]|e|] eqn:C1; [|done..].
  destruct (check_domain (req_domain q2) _ _) as [[]|e|] eqn:C2; [|done..]. cbn [obind] in *.
  destruct (checked_mul (req_blocks q1) _) as [t1|] eqn:M1; [|done].
  destruct (checked_mul (req_blocks q2) _) as [t2|] eqn:M2; [|done]. cbn [ok_or obind] in *.
  apply Ok_inj in P1, P2. rewrite <-P2 in P1. clear P2 payload. unfold fold_payload in P1.
  apply checked_u_Some in M1 as [U1 ->]. apply checked_u_Some in M2 as [U2 ->].
  pose proof (suffix_inj q1 q2 T1 T2 C1 C2) as Hsuf. unfold payload_suffix in Hsuf.
  destruct T1 as [R1 G1 B1 K1 [F1 F1'] N1 _], T2 as [R2 G2 B2 K2 [F2 F2'] N2 _].
  unfold SparseChallengeConfig.domain_separator_bytes in P1. rewrite <-!app_assoc in P1.
  apply (app_inj_1 FOLD_CHALLENGE_ROUND_DOMAIN FOLD_CHALLENGE_ROUND_DOMAIN) in P1 as [_ P1]; [|done].
  apply (le_app_inj 8) in P1 as [HG P1]; [|done..]. apply (le_app_inj 8) in P1 as [HB P1]; [|done..].
  apply (le_app_inj 8) in P1 as [HK P1]; [|done..]. apply app_inj_1 in P1 as [_ P1]; [|done].
  apply (le_app_inj 8) in P1 as [_ P1]; [|done..]. apply (le_app_inj 8) in P1 as [HR P1]; [|done..].
  apply app_inj_1 in P1 as [_ P1]; [|done].
  apply (le_app_inj 8) in P1 as [HF P1]; [|done..]. apply (le_app_inj 8) in P1 as [HF' P1]; [|done..].
  apply (le_app_inj 4) in P1 as [HN P1]; [|done..].
  destruct (Hsuf HR P1) as [HD HJ].
  destruct q1 as [a1 a2 a3 a4 a5 [u1 v1] a6 a7], q2 as [b1 b2 b3 b4 b5 [u2 v2] b6 b7].
  cbn [req_domain req_ring_d req_group req_blocks req_claims req_cfg req_nonce req_rejection count_pm1 count_pm2] in *.
  congruence.
Qed.

(** * The draw *)

Section draw_spec.
Context `{KeccakLaws, Allocator, BuildMode, CargoFeatures, ThreadPool}.
Context {D : Type} `{FoldDraw D}.
Variable fuel : nat.

(** a draw that succeeds absorbed exactly the request's payload, squeezed
    one seed, and returns one challenge per live block and claim in
    claim-major layout; each is well formed, has exactly the configured numbers
    of coefficients of magnitude 1 and 2 and no other, passes validation and,
    under rejection, is accepted by the policy's operator-norm table. *)
Theorem fold_draw_spec (self : D) q cs self' :
  (forall k, reserve_exact k = true) -> request_typed q ->
  (forall payload seed s, absorb_and_squeeze self labels.ABSORB_SPARSE_CHALLENGE payload = Ok (seed, s) ->
     len seed = GROUP_ROOT_LEN /\ Forall is_byte seed) ->
  req_blocks q * req_claims q * SparseChallengeConfig.weight (req_cfg q) < 2 ^ 64 ->
  draw fuel self q = Ok (cs, self') ->
  exists payload seed pol,
    request_payload q = Ok payload /\
    absorb_and_squeeze self labels.ABSORB_SPARSE_CHALLENGE payload = Ok (seed, self') /\
    IndexedSamplingPolicy.new (req_ring_d q) (req_cfg q) (req_rejection q) = Ok pol /\
    laid_out cs /\ num_live_blocks_per_claim cs = req_blocks q /\ num_claims cs = req_claims q /\
    0 < len (challenges cs) /\
    Forall (fun ch => in_challenge_family (req_ring_d q) (req_cfg q) ch /\
                      SparseChallenge.validate_dyn (req_ring_d q) ch = Ok tt /\ policy_accepts pol ch)
      (challenges cs).
Proof.
  intros Hg Ht Hseed Hw Hd. unfold draw, draw_folding_challenges_with_rejection in Hd.
  unfold request_payload. obind_inv Hd. destruct a. cbn [obind].
  destruct (Z.ltb_spec MAX_STACK_RING_DIM (req_ring_d q)) as [|Hdim]; [done|].
  obind_inv Hd. destruct (SparseChallengeConfig.validate_dyn (req_cfg q) (req_ring_d q)) as [[]| |] eqn:Ev; [|done..].
  obind_inv Hd. destruct (Z.eqb_spec (req_blocks q) 0); [done|]. destruct (Z.eqb_spec (req_claims q) 0); [done|].
  cbn [orb] in Hd. obind_inv Hd. destruct (checked_mul (req_blocks q) (req_claims q)) as [total|] eqn:Em; [|done].
  injection E2 as <-. cbn [ok_or obind]. obind_inv Hd. cbn [obind]. obind_inv Hd. destruct a2 as [seed s].
  obind_inv Hd. obind_inv Hd. injection Hd as <- <-.
  apply checked_u_Some in Em as [Hu Etot]. subst total.
  destruct (Hseed _ _ _ E3) as [Hsl Hsb]. destruct Ht as [_ _ [Hb _] [Hc _] Hcfg _ _].
  unfold Challenges.from_sparse, checked_mul, usize in E5. rewrite checked_u_in in E5 by done.
  cbn [ok_or obind] in E5. destruct (Z.eqb_spec (len a2) (req_blocks q * req_claims q)) as [Hl|]; [|done].
  injection E5 as <-. cbn [num_live_blocks_per_claim num_claims challenges].
  assert (Hn : 0 < req_blocks q * req_claims q < 2 ^ 64) by (unfold in_u, USIZE_BITS in Hu; nia).
  destruct (from_seed_family fuel seed (req_ring_d q) _ (req_cfg q) (req_rejection q) a2 Hg Hsl Hsb Hcfg Hdim Ev
    Hn Hw E4) as (_ & pol & Hpol & Hfam).
  eexists _, seed, pol. split; [done|]. split; [done|]. split; [done|]. split; [|rewrite Hl; split; [done|split; [done|]]; split; [lia|done]].
  split; cbn [num_live_blocks_per_claim num_claims challenges]; rewrite Hl; [done|]. unfold in_u, USIZE_BITS. lia.
Qed.
End draw_spec.

(** * Evaluation *)

Import Transcript.toy.
#[local] Instance grant_each : Allocator := fun _ => true.
#[local] Instance one_run : ThreadPool := {| split n := [range n]; split_concat n := app_nil_r (range n) |}.

Definition toy_request (group : Z) : draw_request :=
  {| req_domain := EvaluationTrace; req_ring_d := 16; req_group := group; req_blocks := 2; req_claims := 3;
     req_cfg := toy_config; req_nonce := 5; req_rejection := None |}.

Lemma toy_typed group : in_u 64 group -> request_typed (toy_request group).
Proof. intros Hg. constructor; cbn; try done; unfold in_u, config_typed, in_u; cbn; lia. Qed.

Definition toy_transcript : AkitaTranscript (list Z) (list Z) := AkitaTranscript.new_prover [1] [2; 3].
Definition toy_verifier : AkitaTranscript (list Z) (list Z) := AkitaTranscript.new_verifier [1] [2; 3].

Definition toy_draws {D} `{FoldDraw D} (d : D) : result (list Challenges * D) :=
  draw_all (H1 := true) (H2 := true) 64 d [toy_request 0; toy_request 1].

Lemma preview_draws_are_live_witness :
  exists c d1 d2,
    toy_draws (PreviewFoldDraw.new (AkitaTranscript.preview_challenge_block toy_transcript)) = Ok (c, d1) /\
    toy_draws (LiveFoldDraw.new (F := F97.t) toy_transcript) = Ok (c, d2).
Proof.
  pose proof (preview_draws_are_live (F := F97.t) (H1 := true) (H2 := true) 64 toy_transcript toy_verifier _
    [toy_request 0; toy_request 1] eq_refl eq_refl) as Hm.
  fold (toy_draws (PreviewFoldDraw.new (AkitaTranscript.preview_challenge_block toy_transcript))) in Hm.
  fold (toy_draws (LiveFoldDraw.new (F := F97.t) toy_transcript)) in Hm.
  fold (toy_draws (LiveFoldDraw.new (F := F97.t) toy_verifier)) in Hm.
  assert (Hok : match toy_draws (PreviewFoldDraw.new (AkitaTranscript.preview_challenge_block toy_transcript)) with
                | Ok _ => true | _ => false end = true) by (vm_compute; reflexivity).
  destruct (toy_draws (PreviewFoldDraw.new (AkitaTranscript.preview_challenge_block toy_transcript)))
    as [[c d]|e|]; [|discriminate Hok|discriminate Hok].
  destruct (toy_draws (LiveFoldDraw.new (F := F97.t) toy_transcript)) as [[c1 d1]|e|]; [|destruct Hm|destruct Hm].
  destruct (toy_draws (LiveFoldDraw.new (F := F97.t) toy_verifier)) as [[c2 d2]|e|]; [|destruct Hm|destruct Hm].
  destruct Hm as (Hc & _ & _). rewrite Hc. exists c, d, d1. exact (conj eq_refl eq_refl).
Defined.

Lemma fold_payload_injective_witness :
  request_payload (toy_request 0) <> request_payload (toy_request 1).
Proof.
  intros He. destruct (request_payload (toy_request 1)) as [p|e|] eqn:E; try (vm_compute in E; discriminate E).
  assert (Hq : toy_request 0 = toy_request 1)
    by (apply (fold_payload_injective (toy_request 0) (toy_request 1) p); try exact He; try exact E;
        apply toy_typed; unfold in_u; lia).
  discriminate Hq.
Defined.

Lemma toy_seed_bytes (d : LiveFoldDraw F97.t (AkitaTranscript (list Z) (list Z))) l payload seed s :
  absorb_and_squeeze d l payload = Ok (seed, s) -> len seed = GROUP_ROOT_LEN /\ Forall is_byte seed.
Proof.
  unfold absorb_and_squeeze, LiveFoldDraw_FoldDraw, LiveFoldDraw.absorb_and_squeeze. intros Hs.
  obind_inv Hs. obind_inv Hs. destruct a0 as [seed' t']. injection Hs as <- _.
  unfold challenge_block, AkitaTranscript_Transcript, AkitaTranscript.squeeze_block, AkitaTranscript.state_mut in E0.
  assert (Hsq : forall st n, Forall is_byte (fst (squeeze st n)) /\ length (fst (squeeze st n)) = n).
  { intros st n. unfold squeeze. cbn [fst]. rewrite length_replicate. split; [|done].
    apply Forall_replicate. apply Z.mod_pos_bound. lia. }
  destruct (state a) as [[p|v]|]; [..|done]; cbn [unwrap obind prover_verifier_message verifier_verifier_message fish] in E0.
  - destruct (Hsq p 32%nat) as [Hb Hl]. destruct (squeeze p 32) as [b p']. injection E0 as <- _. cbn [fst] in *. unfold len. by rewrite Hl.
  - destruct (Hsq v 32%nat) as [Hb Hl]. destruct (squeeze v 32) as [b v']. injection E0 as <- _. cbn [fst] in *. unfold len. by rewrite Hl.
Qed.
