(* ===== verification/Spectrum.v ===== *)
(** Real-number facts behind the operator-norm predicate: the odd-frequency
    spectrum of a real negacyclic polynomial, its symmetry, the convolution
    theorem and Parseval's identity; the operator norm of multiplication in
    [R[X]/(X^D + 1)] is the largest spectral magnitude. *)

From Stdlib Require Import Reals Lra.
From S2P Require Import Prelude.
Local Open Scope R_scope.

(** * Finite sums *)

Fixpoint rsum (n : nat) (f : nat -> R) : R :=
  match n with O => 0 | S n => rsum n f + f n end.

Lemma rsum_ext n f g : (forall i, (i < n)%nat -> f i = g i) -> rsum n f = rsum n g.
Proof.
  induction n as [|n IH]; intros H; [done|]. cbn [rsum].
  rewrite IH by (intros; apply H; lia). by rewrite H by lia.
Qed.

Lemma rsum_plus n f g : rsum n (fun i => f i + g i) = rsum n f + rsum n g.
Proof. induction n as [|n IH]; cbn [rsum]; [lra|]. rewrite IH. lra. Qed.

Lemma rsum_scale n a f : rsum n (fun i => a * f i) = a * rsum n f.
Proof. induction n as [|n IH]; cbn [rsum]; [lra|]. rewrite IH. lra. Qed.

Lemma rsum_scale_r n a f : rsum n (fun i => f i * a) = rsum n f * a.
Proof. induction n as [|n IH]; cbn [rsum]; [lra|]. rewrite IH. lra. Qed.

Lemma rsum_minus n f g : rsum n (fun i => f i - g i) = rsum n f - rsum n g.
Proof. induction n as [|n IH]; cbn [rsum]; [lra|]. rewrite IH. lra. Qed.

Lemma rsum_zero n : rsum n (fun _ => 0) = 0.
Proof. induction n as [|n IH]; cbn [rsum]; [lra|]. rewrite IH. lra. Qed.

Lemma rsum_one n : rsum n (fun _ => 1) = INR n.
Proof. induction n as [|n IH]; [done|]. cbn [rsum]. rewrite IH, S_INR. lra. Qed.

Lemma rsum_swap n m f : rsum n (fun i => rsum m (fun j => f i j)) = rsum m (fun j => rsum n (fun i => f i j)).
Proof.
  induction n as [|n IH]; cbn [rsum]; [by rewrite rsum_zero|]. by rewrite IH, rsum_plus.
Qed.

Lemma rsum_split a b f : rsum (a + b) f = rsum a f + rsum b (fun i => f (a + i)%nat).
Proof.
  induction b as [|b IH]; [rewrite Nat.add_0_r; cbn; lra|].
  rewrite Nat.add_succ_r. cbn [rsum]. rewrite IH. lra.
Qed.

Lemma rsum_le n f g : (forall i, (i < n)%nat -> f i <= g i) -> rsum n f <= rsum n g.
Proof.
  induction n as [|n IH]; intros H; cbn [rsum]; [lra|].
  pose proof (H n ltac:(lia)). assert (rsum n f <= rsum n g) by (apply IH; intros; apply H; lia). lra.
Qed.

Lemma rsum_mult n m f g : rsum n f * rsum m g = rsum n (fun i => rsum m (fun j => f i * g j)).
Proof. rewrite <-rsum_scale_r. apply rsum_ext. intros i _. by rewrite rsum_scale. Qed.

(** A sum with one nonzero term. *)
Lemma rsum_single n f k : (k < n)%nat -> (forall i, (i < n)%nat -> i <> k -> f i = 0) -> rsum n f = f k.
Proof.
  revert k; induction n as [|n IH]; intros k Hk H; [lia|]. cbn [rsum].
  destruct (decide (k = n)) as [->|Hne].
  - rewrite (rsum_ext n f (fun _ => 0)) by (intros i Hi; apply H; lia). rewrite rsum_zero. lra.
  - rewrite (IH k), (H n) by (try lia; intros i Hi; apply H; lia). lra.
Qed.

(** * The spectrum *)

Section spectrum.
Variable D : nat.
Hypothesis D_pos : (0 < D)%nat.

(** The angle of the [k]-th root of [X^D + 1]. *)
Definition theta (k : nat) : R := (2 * INR k + 1) * PI / INR D.

Definition spec_re (c : nat -> R) (k : nat) : R := rsum D (fun j => c j * cos (INR j * theta k)).
Definition spec_im (c : nat -> R) (k : nat) : R := rsum D (fun j => c j * sin (INR j * theta k)).
(** [|c_hat(k)|^2] *)
Definition spec_sq (c : nat -> R) (k : nat) : R := spec_re c k * spec_re c k + spec_im c k * spec_im c k.

(** Multiplication modulo [X^D + 1]. *)
Definition wrapped (u : nat -> R) (i j : nat) : R :=
  if (j <=? i)%nat then u (i - j)%nat else - u (D + i - j)%nat.
Definition negacyclic (c u : nat -> R) (i : nat) : R := rsum D (fun j => c j * wrapped u i j).

Lemma INR_D : INR D <> 0.
Proof. apply not_0_INR. lia. Qed.

Lemma theta_turn k : INR D * theta k = PI + 2 * INR k * PI.
Proof. unfold theta. pose proof INR_D. field. done. Qed.

Lemma cos_half_turn k x : cos (x + INR D * theta k) = - cos x.
Proof.
  rewrite theta_turn. replace (x + (PI + 2 * INR k * PI)) with ((x + PI) + 2 * INR k * PI) by lra.
  by rewrite cos_period, neg_cos.
Qed.

Lemma sin_half_turn k x : sin (x + INR D * theta k) = - sin x.
Proof.
  rewrite theta_turn. replace (x + (PI + 2 * INR k * PI)) with ((x + PI) + 2 * INR k * PI) by lra.
  by rewrite sin_period, neg_sin.
Qed.

(** Shifting by [X^j] multiplies the spectrum by the [j]-th power. *)
Lemma wrapped_sum (g : R -> R) u k j : (j <= D)%nat ->
  (forall x, g (x + INR D * theta k) = - g x) ->
  rsum D (fun i => wrapped u i j * g (INR i * theta k))
  = rsum D (fun m => u m * g ((INR m + INR j) * theta k)).
Proof.
  intros Hj Hg.
  pose proof (rsum_split j (D - j) (fun i => wrapped u i j * g (INR i * theta k))) as E1.
  pose proof (rsum_split (D - j) j (fun m => u m * g ((INR m + INR j) * theta k))) as E2.
  replace (j + (D - j))%nat with D in E1 by lia. replace (D - j + j)%nat with D in E2 by lia.
  rewrite E1, E2, Rplus_comm. f_equal; apply rsum_ext; intros i Hi.
  - unfold wrapped. replace (j <=? j + i)%nat with true by (symmetry; apply Nat.leb_le; lia).
    replace (j + i - j)%nat with i by lia. rewrite plus_INR. do 2 f_equal. lra.
  - unfold wrapped. replace (j <=? i)%nat with false by (symmetry; apply Nat.leb_gt; lia).
    replace (D + i - j)%nat with (D - j + i)%nat by lia. rewrite <-plus_INR.
    replace (D - j + i + j)%nat with (i + D)%nat by lia. rewrite plus_INR, Rmult_plus_distr_r, Hg. lra.
Qed.

Lemma spec_mul c u k :
  spec_re (negacyclic c u) k = spec_re c k * spec_re u k - spec_im c k * spec_im u k /\
  spec_im (negacyclic c u) k = spec_re c k * spec_im u k + spec_im c k * spec_re u k.
Proof.
  assert (Hgen : forall g, (forall x, g (x + INR D * theta k) = - g x) ->
    rsum D (fun i => negacyclic c u i * g (INR i * theta k))
    = rsum D (fun j => c j * rsum D (fun m => u m * g ((INR m + INR j) * theta k)))).
  { intros g Hg. unfold negacyclic.
    rewrite (rsum_ext D _ (fun i => rsum D (fun j => c j * wrapped u i j * g (INR i * theta k))))
      by (intros i _; by rewrite <-rsum_scale_r).
    rewrite rsum_swap. apply rsum_ext. intros j Hj. rewrite <-(wrapped_sum g u k j) by (lia || done).
    rewrite <-rsum_scale. apply rsum_ext. intros i _. lra. }
  unfold spec_re, spec_im. split.
  - rewrite (Hgen cos (cos_half_turn k)), !rsum_mult, <-rsum_minus. apply rsum_ext. intros j _.
    rewrite <-rsum_scale, <-rsum_minus. apply rsum_ext. intros m _.
    rewrite Rmult_plus_distr_r, cos_plus. lra.
  - rewrite (Hgen sin (sin_half_turn k)), !rsum_mult, <-rsum_plus. apply rsum_ext. intros j _.
    rewrite <-rsum_scale, <-rsum_plus. apply rsum_ext. intros m _.
    rewrite Rmult_plus_distr_r, sin_plus. lra.
Qed.

Lemma spec_sq_mul c u k : spec_sq (negacyclic c u) k = spec_sq c k * spec_sq u k.
Proof. unfold spec_sq. destruct (spec_mul c u k) as [-> ->]. lra. Qed.

(** ** Parseval *)

Lemma telescope x n :
  2 * sin x * rsum n (fun k => cos ((2 * INR k + 1) * x)) = sin (2 * INR n * x).
Proof.
  induction n as [|n IH]; cbn [rsum].
  - cbn [INR]. replace (2 * 0 * x) with 0 by lra. rewrite sin_0. lra.
  - rewrite Rmult_plus_distr_l, IH, S_INR.
    replace (2 * (INR n + 1) * x) with ((2 * INR n + 1) * x + x) by lra.
    replace (2 * INR n * x) with ((2 * INR n + 1) * x - x) by lra.
    rewrite sin_plus, sin_minus. lra.
Qed.

Lemma orthogonal m : (0 < m < D)%nat -> rsum D (fun k => cos (INR m * theta k)) = 0.
Proof.
  intros Hm. pose proof INR_D as HD. set (x := INR m * PI / INR D).
  assert (Hx : 0 < x < PI).
  { pose proof PI_RGT_0. assert (0 < INR m < INR D) by (split; [apply lt_0_INR|apply lt_INR]; lia).
    assert (Hq : x = PI * (INR m / INR D)) by (unfold x; field; done). rewrite Hq.
    assert (0 < INR m / INR D < 1).
    { split; [apply Rdiv_lt_0_compat; lra|]. apply Rmult_lt_reg_r with (INR D); [lra|].
      unfold Rdiv. rewrite Rmult_assoc, Rinv_l by done. lra. }
    split; nra. }
  pose proof (telescope x D) as Ht. pose proof (sin_gt_0 x ltac:(lra) ltac:(lra)) as Hs.
  replace (2 * INR D * x) with (0 + 2 * INR m * PI) in Ht by (unfold x; field; done).
  rewrite sin_period, sin_0 in Ht.
  rewrite (rsum_ext D _ (fun k => cos ((2 * INR k + 1) * x))).
  - nra.
  - intros k _. f_equal. unfold theta, x. field. done.
Qed.

Lemma cos_diff j l k : cos (INR j * theta k) * cos (INR l * theta k) + sin (INR j * theta k) * sin (INR l * theta k)
  = cos (INR (if (l <=? j)%nat then j - l else l - j) * theta k).
Proof.
  rewrite <-cos_minus. destruct (Nat.leb_spec l j) as [H|H].
  - rewrite minus_INR by done. f_equal. lra.
  - rewrite minus_INR by lia. rewrite <-cos_neg. f_equal. lra.
Qed.

Lemma parseval u : rsum D (spec_sq u) = INR D * rsum D (fun j => u j * u j).
Proof.
  rewrite (rsum_ext D _ (fun k => rsum D (fun j => rsum D (fun l => u j * u l *
     cos (INR (if (l <=? j)%nat then j - l else l - j) * theta k))))).
  2:{ intros k _. unfold spec_sq, spec_re, spec_im. rewrite !rsum_mult, <-rsum_plus. apply rsum_ext. intros j _.
      rewrite <-rsum_plus. apply rsum_ext. intros l _. rewrite <-cos_diff. lra. }
  rewrite rsum_swap, <-rsum_scale. apply rsum_ext. intros j Hj. rewrite rsum_swap.
  rewrite (rsum_single D _ j Hj).
  - rewrite Nat.leb_refl, Nat.sub_diag, rsum_scale. cbn [INR].
    rewrite (rsum_ext D _ (fun _ => 1)) by (intros; by rewrite Rmult_0_l, cos_0).
    rewrite rsum_one. lra.
  - intros l Hl Hne. rewrite rsum_scale, orthogonal; [lra|]. destruct (Nat.leb_spec l j); lia.
Qed.

(** ** The operator norm *)

(** Multiplication by [c] stretches no vector by more than [T]. *)
Definition op_norm_le (c : nat -> R) (T : R) : Prop :=
  forall u, rsum D (fun i => negacyclic c u i * negacyclic c u i) <= T * T * rsum D (fun i => u i * u i).

Lemma spec_bounds_norm c T : (forall k, (k < D)%nat -> spec_sq c k <= T * T) -> op_norm_le c T.
Proof.
  intros Hk u. pose proof (parseval (negacyclic c u)) as P1. pose proof (parseval u) as P2.
  assert (Hle : rsum D (spec_sq (negacyclic c u)) <= T * T * rsum D (spec_sq u)).
  { rewrite <-rsum_scale. apply rsum_le. intros k Hlt. rewrite spec_sq_mul.
    apply Rmult_le_compat_r; [|by apply Hk]. unfold spec_sq. nra. }
  assert (0 < INR D) by (by apply lt_0_INR). rewrite P1, P2 in Hle. nra.
Qed.

(** [exp(-i n theta)] is an eigenvector with eigenvalue [c_hat]. *)
Lemma eigenvector c k i : (i < D)%nat ->
  negacyclic c (fun n => cos (INR n * theta k)) i
    = spec_re c k * cos (INR i * theta k) + spec_im c k * sin (INR i * theta k) /\
  negacyclic c (fun n => sin (INR n * theta k)) i
    = spec_re c k * sin (INR i * theta k) - spec_im c k * cos (INR i * theta k).
Proof.
  intros Hi. assert (Hw : forall g, (forall x, g (x + INR D * theta k) = - g x) -> forall j, (j < D)%nat ->
    wrapped (fun n => g (INR n * theta k)) i j = g (INR i * theta k - INR j * theta k)).
  { intros g Hg j Hj. unfold wrapped. destruct (Nat.leb_spec j i).
    - rewrite minus_INR by done. f_equal. lra.
    - rewrite minus_INR by lia. rewrite plus_INR.
      replace ((INR D + INR i - INR j) * theta k) with ((INR i * theta k - INR j * theta k) + INR D * theta k) by lra.
      rewrite Hg. lra. }
  unfold negacyclic, spec_re, spec_im. split.
  - rewrite <-!rsum_scale_r, <-rsum_plus. apply rsum_ext. intros j Hj.
    rewrite (Hw cos (cos_half_turn k) j Hj), cos_minus. lra.
  - rewrite <-!rsum_scale_r, <-rsum_minus. apply rsum_ext. intros j Hj.
    rewrite (Hw sin (sin_half_turn k) j Hj), sin_minus. lra.
Qed.

Lemma norm_bounds_spec c T k : op_norm_le c T -> spec_sq c k <= T * T.
Proof.
  intros Hn. pose proof (Hn (fun n => cos (INR n * theta k))) as H1.
  pose proof (Hn (fun n => sin (INR n * theta k))) as H2.
  assert (Hsum : rsum D (fun i => cos (INR i * theta k) * cos (INR i * theta k))
               + rsum D (fun i => sin (INR i * theta k) * sin (INR i * theta k)) = INR D).
  { rewrite <-rsum_plus. rewrite (rsum_ext D _ (fun _ => 1)).
    - apply rsum_one.
    - intros i _. pose proof (sin2_cos2 (INR i * theta k)). unfold Rsqr in *. lra. }
  assert (Heq : rsum D (fun i => negacyclic c (fun n => cos (INR n * theta k)) i * negacyclic c (fun n => cos (INR n * theta k)) i)
    + rsum D (fun i => negacyclic c (fun n => sin (INR n * theta k)) i * negacyclic c (fun n => sin (INR n * theta k)) i)
    = spec_sq c k * INR D).
  { rewrite <-Hsum, <-rsum_plus, <-rsum_plus, <-rsum_scale. apply rsum_ext. intros i Hi.
    destruct (eigenvector c k i Hi) as [-> ->]. unfold spec_sq. ring. }
  assert (0 < INR D) by (by apply lt_0_INR). nra.
Qed.

(** ** Symmetry *)

Lemma spec_sq_conj c k : (k < D)%nat -> spec_sq c (D - 1 - k) = spec_sq c k.
Proof.
  intros Hk. pose proof INR_D as HD.
  assert (Ht : forall j, INR j * theta (D - 1 - k) = - (INR j * theta k) + 2 * INR j * PI).
  { intros j. unfold theta. rewrite minus_INR, minus_INR by lia. cbn [INR]. field. done. }
  assert (Hre : spec_re c (D - 1 - k) = spec_re c k).
  { apply rsum_ext. intros j _. by rewrite Ht, cos_period, cos_neg. }
  assert (Him : spec_im c (D - 1 - k) = - spec_im c k).
  { unfold spec_im. replace (- rsum D _) with (-1 * rsum D (fun j => c j * sin (INR j * theta k))) by lra.
    rewrite <-rsum_scale. apply rsum_ext. intros j _. rewrite Ht, sin_period, sin_neg. lra. }
  unfold spec_sq. rewrite Hre, Him. lra.
Qed.

(** In an even dimension the first half of the frequencies is enough. *)
Lemma half_spectrum c T : Nat.Even D ->
  op_norm_le c T <-> forall k, (k < D / 2)%nat -> spec_sq c k <= T * T.
Proof.
  intros [h Hh]. assert (Hd : (D / 2 = h)%nat) by (rewrite Hh, Nat.mul_comm; apply Nat.div_mul; lia). rewrite Hd.
  split; [intros Hn k _; by apply norm_bounds_spec|]. intros Hk. apply spec_bounds_norm. intros k Hlt.
  destruct (decide (k < h)%nat); [by apply Hk|]. rewrite <-spec_sq_conj by done. apply Hk. lia.
Qed.
End spectrum.
