(* ===== verification/TrigBounds.v ===== *)
(** Certified enclosures used by the operator-norm tables: pi between the two
    integers the Machin series yields, and the Taylor sums of cosine and sine
    with the first omitted term as error bound. *)

From Stdlib Require Import Reals Lra Qreals Machin Ratan.
From S2P Require Import Prelude Checked Decomposition OpNorm.
Local Open Scope R_scope.

(** * Arctangent by its alternating series *)

Lemma atan_ineq x N : 0 < x < 1 ->
  sum_f_R0 (tg_alt (Ratan_seq x)) (S (2 * N)) <= atan x <= sum_f_R0 (tg_alt (Ratan_seq x)) (2 * N).
Proof.
  intros Hx. assert (Hx' : 0 <= x <= 1) by lra.
  pose proof (Ratan_seq_decreasing x Hx') as Hd. pose proof (Ratan_seq_converging x Hx') as Hc.
  rewrite atan_eq_ps_atan by done. unfold ps_atan. destruct (Ratan.in_int x) as [Hi|Hi]; [|exfalso; apply Hi; lra].
  destruct (ps_atan_exists_1 x Hi) as [v Hv]. by apply alternated_series_ineq.
Qed.

(** The same partial sums over the rationals, at [1/x]. *)
Definition atan_term (x : Z) (n : nat) : Q :=
  Qmake (if Nat.even n then 1 else -1) (Z.to_pos (Z.of_nat (2 * n + 1) * x ^ Z.of_nat (2 * n + 1))).
Fixpoint atan_sum (x : Z) (n : nat) : Q :=
  match n with O => atan_term x 0 | S n => Qplus (atan_sum x n) (atan_term x (S n)) end.

Lemma atan_term_spec x n : (0 < x)%Z -> tg_alt (Ratan_seq (/ IZR x)) n = Q2R (atan_term x n).
Proof.
  intros Hx. unfold tg_alt, Ratan_seq, Q2R, atan_term. cbn [Qnum Qden].
  assert (Hp : (0 < x ^ Z.of_nat (2 * n + 1))%Z) by lia.
  rewrite Z2Pos.id by (apply Z.mul_pos_pos; [lia|done]). rewrite mult_IZR, <-pow_IZR, <-INR_IZR_INZ.
  assert (IZR x <> 0) by (apply not_0_IZR; lia).
  assert (INR (2 * n + 1) <> 0) by (apply not_0_INR; lia). assert (IZR x ^ (2 * n + 1) <> 0) by (by apply pow_nonzero).
  rewrite pow_inv. replace ((-1) ^ n) with (IZR (if Nat.even n then 1 else -1)).
  - by field.
  - clear. induction n as [|n IH]; [done|]. rewrite Nat.even_succ, <-Nat.negb_even.
    cbn [pow]. rewrite <-IH. destruct (Nat.even n); cbn; lra.
Qed.

Lemma atan_sum_spec x n : (0 < x)%Z -> sum_f_R0 (tg_alt (Ratan_seq (/ IZR x))) n = Q2R (atan_sum x n).
Proof.
  intros Hx. induction n as [|n IH]; cbn [sum_f_R0 atan_sum]; [by apply atan_term_spec|].
  by rewrite Q2R_plus, <-IH, <-atan_term_spec.
Qed.

Lemma atan_rational x N : (1 < x)%Z -> Q2R (atan_sum x (S (2 * N))) <= atan (/ IZR x) <= Q2R (atan_sum x (2 * N)).
Proof.
  intros Hx. rewrite <-!atan_sum_spec by lia. apply atan_ineq. apply IZR_lt in Hx.
  split; [apply Rinv_0_lt_compat; lra|]. rewrite <-Rinv_1. apply Rinv_lt_contravar; lra.
Qed.

(** * Pi *)

Definition PI_LO : Z := 7244019458077122644.
Definition PI_HI : Z := 7244019458077123100.

Lemma pi_enclosure_value `{BuildMode} : pi_enclosure = Ok (PI_LO, PI_HI).
Proof. destruct H; vm_compute; reflexivity. Qed.

(** Both bounds by rational arithmetic on twelve terms. *)
Lemma machin_bounds :
  Qle_bool (Qmake PI_LO (2 ^ 61))
    (Qminus (Qmult (16 # 1) (atan_sum 5 13)) (Qmult (4 # 1) (atan_sum 239 4))) = true /\
  Qle_bool (Qminus (Qmult (16 # 1) (atan_sum 5 12)) (Qmult (4 # 1) (atan_sum 239 5)))
    (Qmake PI_HI (2 ^ 61)) = true.
Proof. split; vm_compute; reflexivity. Qed.

Lemma pi_between : IZR PI_LO <= PI * IZR (2 ^ 61) <= IZR PI_HI.
Proof.
  destruct machin_bounds as [Hlo Hhi].
  apply Qle_bool_imp_le, Qle_Rle in Hlo. apply Qle_bool_imp_le, Qle_Rle in Hhi.
  rewrite Q2R_minus, !Q2R_mult in Hlo. rewrite Q2R_minus, !Q2R_mult in Hhi.
  pose proof (atan_rational 5 6 ltac:(lia)) as [A1 A2]. pose proof (atan_rational 239 2 ltac:(lia)) as [B1 B2].
  cbn [Nat.mul Nat.add] in A1, A2, B1, B2. pose proof Machin_4_5_239 as Hm.
  change (/ IZR 5) with (/ 5) in *. change (/ IZR 239) with (/ 239) in *.
  assert (E16 : Q2R (16 # 1) = 16) by (unfold Q2R; cbn; lra).
  assert (E4 : Q2R (4 # 1) = 4) by (unfold Q2R; cbn; lra). rewrite E16, E4 in *.
  assert (Hq : forall z, Q2R (Qmake z (2 ^ 61)) = IZR z / IZR (2 ^ 61)) by (intros; reflexivity).
  rewrite Hq in Hlo, Hhi. assert (Hs : 0 < IZR (2 ^ 61)) by (apply IZR_lt; lia).
  split; apply Rmult_le_reg_r with (/ IZR (2 ^ 61)); try (by apply Rinv_0_lt_compat);
    rewrite Rmult_assoc, Rinv_r, Rmult_1_r by lra; unfold Rdiv in *; lra.
Qed.

(** * Interval arithmetic *)

Definition S61 : R := IZR (2 ^ 61).

(** [v] holds [x] at scale [2^61]. *)
Definition encloses (v : Z * Z) (x : R) : Prop := IZR (fst v) <= x * S61 <= IZR (snd v).

(** An enclosure of a number of the unit interval. *)
Record unit_enclosure (v : Z * Z) (x : R) : Prop := {
  ue_encloses : encloses v x;
  ue_low : (0 <= fst v)%Z;
  ue_high : (snd v <= 2 ^ 61)%Z;
}.

(** Both ends are within [k] units. *)
Definition within (k : Z) (v : Z * Z) : Prop := (- (k * 2 ^ 61) <= fst v)%Z /\ (snd v <= k * 2 ^ 61)%Z.

Lemma S61_pos : 0 < S61.
Proof. apply IZR_lt. lia. Qed.

Lemma encloses_order v x : encloses v x -> (fst v <= snd v)%Z.
Proof. intros [H1 H2]. apply le_IZR. lra. Qed.

Lemma unit_range v x : unit_enclosure v x -> 0 <= x <= 1.
Proof.
  intros [[H1 H2] Hl Hh]. apply IZR_le in Hl, Hh. pose proof S61_pos. fold S61 in Hh. split.
  - apply Rmult_le_reg_r with S61; [done|lra].
  - apply Rmult_le_reg_r with S61; [done|lra].
Qed.

Lemma i128_Ok `{BuildMode} {Er} z : (- 2 ^ 127 <= z < 2 ^ 127)%Z -> i128 (Er := Er) z = Ok z.
Proof.
  intros Hz. unfold i128.
  replace ((- 2 ^ 127 <=? z)%Z && (z <? 2 ^ 127)%Z) with true; [done|].
  symmetry. apply andb_true_iff. rewrite Z.leb_le, Z.ltb_lt. done.
Qed.

Lemma floor_div a b : (0 < b)%Z -> IZR (a / b) <= IZR a / IZR b.
Proof.
  intros Hb. pose proof (Z.mul_div_le a b Hb) as Hd. apply IZR_le in Hd. rewrite mult_IZR in Hd.
  apply IZR_lt in Hb. apply Rmult_le_reg_l with (IZR b); [done|]. unfold Rdiv.
  rewrite (Rmult_comm (IZR a)), <-Rmult_assoc, Rinv_r, Rmult_1_l by lra. done.
Qed.

Lemma ceil_div a b : (0 < b)%Z -> IZR a / IZR b <= IZR (- (- a / b)).
Proof.
  intros Hb. pose proof (floor_div (- a) b Hb) as H. rewrite opp_IZR in *.
  apply IZR_lt in Hb. unfold Rdiv in *. lra.
Qed.

Lemma ceil_range a b k : (0 < b)%Z -> (0 <= a <= k * b)%Z -> (0 <= - (- a / b) <= k)%Z.
Proof.
  intros Hb [H0 Hk]. split.
  - assert (- a / b <= 0)%Z; [|lia]. apply Z.div_le_upper_bound; lia.
  - assert (- k <= - a / b)%Z; [|lia]. apply Z.div_le_lower_bound; lia.
Qed.

Section ops.
Context `{BuildMode}.

Lemma fdiv_Ok a b : (0 < b)%Z -> (0 <= a < 2 ^ 127)%Z -> fdiv a b = Ok (a / b)%Z /\ (0 <= a / b <= a)%Z.
Proof.
  intros Hb Ha. assert (0 <= a / b)%Z by (apply Z.div_pos; lia).
  assert (a / b <= a)%Z by (apply Z.div_le_upper_bound; nia).
  split; [|lia]. unfold fdiv. rewrite i128_Ok; [done|lia].
Qed.

Lemma cdiv_Ok a b : (0 < b)%Z -> (0 <= a < 2 ^ 127)%Z -> cdiv a b = Ok (- (- a / b))%Z /\ (0 <= - (- a / b) <= a)%Z.
Proof.
  intros Hb Ha. pose proof (ceil_range a b a Hb ltac:(nia)) as Hr. split; [|done].
  unfold cdiv. rewrite i128_Ok by lia. cbn [obind]. rewrite i128_Ok; [done|lia].
Qed.

Lemma imul_spec a b x y : unit_enclosure a x -> unit_enclosure b y ->
  exists v, imul a b = Ok v /\ unit_enclosure v (x * y).
Proof.
  intros Ha Hb. pose proof (unit_range a x Ha) as Rx. pose proof (unit_range b y Hb) as Ry.
  destruct Ha as [Ea La Ua], Hb as [Eb Lb Ub].
  pose proof (encloses_order a x Ea). pose proof (encloses_order b y Eb). unfold imul, cshr, fshr, TRIG_SCALE.
  unfold debug_assert. rewrite (proj2 (Z.leb_le _ _) La), (proj2 (Z.leb_le _ _) Lb). cbn [andb negb].
  rewrite andb_false_r. cbn [obind].
  rewrite i128_Ok by nia. cbn [obind]. rewrite i128_Ok by nia. cbn [obind]. rewrite i128_Ok by nia. cbn [obind].
  rewrite !Z.shiftr_div_pow2 by lia. pose proof (ceil_range (snd a * snd b) (2 ^ 61) (2 ^ 61) ltac:(lia) ltac:(nia)) as Hc.
  rewrite i128_Ok by lia. cbn [obind]. eexists. split; [done|]. constructor; cbn [fst snd].
  - pose proof (floor_div (fst a * fst b) (2 ^ 61) ltac:(lia)) as Hf.
    pose proof (ceil_div (snd a * snd b) (2 ^ 61) ltac:(lia)) as Hg. fold S61 in Hf, Hg.
    rewrite mult_IZR in Hf, Hg. destruct Ea as [A1 A2], Eb as [B1 B2]. pose proof S61_pos as Hs.
    apply IZR_le in La, Lb. unfold encloses. cbn [fst snd].
    assert (P1 : IZR (fst a) * IZR (fst b) <= (x * S61) * (y * S61)) by (apply Rmult_le_compat; lra).
    assert (P2 : (x * S61) * (y * S61) <= IZR (snd a) * IZR (snd b)) by (apply Rmult_le_compat; nra).
    assert (Hxy : x * y * S61 = (x * S61) * (y * S61) / S61) by (field; lra). rewrite Hxy.
    assert (Hi : 0 <= / S61) by (left; by apply Rinv_0_lt_compat). unfold Rdiv in *. split.
    + eapply Rle_trans; [exact Hf|]. by apply Rmult_le_compat_r.
    + eapply Rle_trans; [|exact Hg]. by apply Rmult_le_compat_r.
  - apply Z.div_pos; [nia|lia].
  - lia.
Qed.

(** [iadd] and [isub] with a unit interval widen the bound by one. *)
Lemma iadd_spec a b x y k : encloses a x -> within k a -> (0 <= k <= 2 ^ 50)%Z -> unit_enclosure b y ->
  exists v, iadd a b = Ok v /\ encloses v (x + y) /\ within (k + 1) v.
Proof.
  intros Ea [Wl Wh] Hk [Eb Lb Ub]. pose proof (encloses_order a x Ea). pose proof (encloses_order b y Eb).
  unfold iadd. rewrite i128_Ok by lia. cbn [obind]. rewrite i128_Ok by lia. cbn [obind].
  eexists. split; [done|]. split; [|split; cbn [fst snd]; lia].
  unfold encloses in *. cbn [fst snd]. rewrite !plus_IZR. lra.
Qed.

Lemma isub_spec a b x y k : encloses a x -> within k a -> (0 <= k <= 2 ^ 50)%Z -> unit_enclosure b y ->
  exists v, isub a b = Ok v /\ encloses v (x - y) /\ within (k + 1) v.
Proof.
  intros Ea [Wl Wh] Hk [Eb Lb Ub]. pose proof (encloses_order a x Ea). pose proof (encloses_order b y Eb).
  unfold isub. rewrite i128_Ok by lia. cbn [obind]. rewrite i128_Ok by lia. cbn [obind].
  eexists. split; [done|]. split; [|split; cbn [fst snd]; lia].
  unfold encloses in *. cbn [fst snd]. rewrite !minus_IZR. lra.
Qed.

(** Division of both ends by a positive integer. *)
Lemma div_spec v x f : unit_enclosure v x -> (0 < f)%Z ->
  exists lo hi, fdiv (fst v) f = Ok lo /\ cdiv (snd v) f = Ok hi /\ unit_enclosure (lo, hi) (x / IZR f).
Proof.
  intros [E L U] Hf. pose proof (encloses_order v x E).
  destruct (fdiv_Ok (fst v) f Hf ltac:(lia)) as [F1 F2]. destruct (cdiv_Ok (snd v) f Hf ltac:(lia)) as [C1 C2].
  eexists _, _. split; [exact F1|]. split; [exact C1|]. constructor; cbn [fst snd]; [|lia|lia].
  pose proof (floor_div (fst v) f Hf) as P1. pose proof (ceil_div (snd v) f Hf) as P2.
  destruct E as [E1 E2]. apply IZR_lt in Hf. assert (0 < / IZR f) by (by apply Rinv_0_lt_compat).
  unfold encloses, Rdiv in *. cbn [fst snd]. split.
  - eapply Rle_trans; [exact P1|]. nra.
  - eapply Rle_trans; [|exact P2]. nra.
Qed.
End ops.

(** * Taylor enclosures *)

Fixpoint zfact (n : nat) : Z :=
  match n with O => 1 | S n => Z.of_nat (S n) * zfact n end%Z.

Lemma zfact_INR n : IZR (zfact n) = INR (Factorial.fact n).
Proof.
  induction n as [|n IH]; [done|]. cbn [zfact]. rewrite mult_IZR, IH, <-INR_IZR_INZ.
  change (Factorial.fact (S n)) with (S n * Factorial.fact n)%nat. by rewrite mult_INR.
Qed.

Lemma zfact_pos n : (0 < zfact n)%Z.
Proof. induction n; cbn [zfact]; lia. Qed.

Lemma zfact_le n m : (n <= m)%nat -> (zfact n <= zfact m)%Z.
Proof.
  induction 1 as [|m _ IH]; [lia|]. cbn [zfact]. pose proof (zfact_pos m). nia.
Qed.

Lemma zfact_small n : (n <= 27)%nat -> (zfact n < 2 ^ 94)%Z.
Proof. intros Hn%zfact_le. eapply Z.le_lt_trans; [exact Hn|]. vm_compute. reflexivity. Qed.

Section taylor.
Context `{BuildMode}.
Variables (phi : Z * Z) (x : R).
Hypothesis phi_x : unit_enclosure phi x.

(** One series: the term [n] is [(-1)^n x^(2n + e) / (2n + e)!], and the step
    from term [n - 1] multiplies the factorial by [f1 (2n)] and [f2 (2n)]. *)
Variables (e : nat) (f1 f2 : Z -> Z) (term : nat -> R).
Hypothesis e_le : (e <= 1)%nat.
Hypothesis term_eq : forall n, term n = (-1) ^ n * (x ^ (2 * n + e) / INR (Factorial.fact (2 * n + e))).
Hypothesis f1_eq : forall n, f1 (2 * Z.of_nat (S n))%Z = Z.of_nat (2 * n + e + 1).
Hypothesis f2_eq : forall n, f2 (2 * Z.of_nat (S n))%Z = Z.of_nat (2 * n + e + 2).

Lemma series_step phi2 n sum pw : (n < 12)%nat ->
  unit_enclosure phi2 (x * x) -> unit_enclosure pw (x ^ (2 * n + e)) ->
  encloses sum (sum_f_R0 term n) -> within (Z.of_nat n + 1) sum ->
  exists sum' pw', taylor_step phi2 f1 f2 (sum, pw, zfact (2 * n + e)) (Z.of_nat (S n))
      = Ok (sum', pw', zfact (2 * S n + e)) /\
    unit_enclosure pw' (x ^ (2 * S n + e)) /\
    encloses sum' (sum_f_R0 term (S n)) /\ within (Z.of_nat (S n) + 1) sum'.
Proof.
  intros Hn Hphi2 Hpow Hsum Hw. unfold taylor_step.
  destruct (imul_spec pw phi2 _ _ Hpow Hphi2) as (pw' & -> & Hp). cbn [obind].
  replace (x ^ (2 * n + e) * (x * x)) with (x ^ (2 * S n + e)) in Hp
    by (replace (2 * S n + e)%nat with (S (S (2 * n + e))) by lia; cbn [pow]; ring).
  assert (Hfz : zfact (2 * S n + e) = (zfact (2 * n + e) * Z.of_nat (2 * n + e + 1) * Z.of_nat (2 * n + e + 2))%Z).
  { replace (2 * S n + e)%nat with (S (S (2 * n + e))) by lia. cbn [zfact].
    rewrite Z.mul_assoc, (Z.mul_comm _ (zfact _)), <-!Z.mul_assoc. f_equal.
    rewrite Z.mul_comm. do 2 f_equal; lia. }
  pose proof (zfact_pos (2 * n + e)). pose proof (zfact_pos (2 * S n + e)).
  pose proof (zfact_small (2 * S n + e) ltac:(lia)). pose proof (zfact_small (2 * n + e) ltac:(lia)).
  rewrite i128_Ok by lia. cbn [obind]. rewrite f1_eq, i128_Ok by lia. cbn [obind].
  rewrite i128_Ok by nia. cbn [obind]. rewrite f2_eq, i128_Ok by lia. cbn [obind].
  rewrite <-Hfz, i128_Ok by lia. cbn [obind].
  destruct (div_spec pw' _ (zfact (2 * S n + e)) Hp ltac:(lia)) as (lo & hi & -> & -> & Hd). cbn [obind].
  rewrite zfact_INR in Hd.
  assert (Hpar : (Z.of_nat (S n) mod 2 =? 1)%Z = negb (Nat.even (S n)) /\
                 (-1) ^ S n = if Nat.even (S n) then 1 else -1).
  { clear. generalize (S n). intros m. split.
    - destruct (Nat.Even_or_Odd m) as [[h ->]|[h ->]].
      + rewrite (proj2 (Nat.even_spec (2 * h))) by (by exists h). rewrite Nat2Z.inj_mul, Z.mul_comm, Z.mod_mul by lia. done.
      + replace (Nat.even (2 * h + 1)) with false
          by (symmetry; rewrite <-Nat.negb_odd; by rewrite (proj2 (Nat.odd_spec (2 * h + 1))) by (by exists h)).
        rewrite Nat2Z.inj_add, Nat2Z.inj_mul. change (Z.of_nat 2) with 2%Z. change (Z.of_nat 1) with 1%Z.
        rewrite Z.add_comm, Z.mul_comm, Z.mod_add by lia. done.
    - induction m as [|m IH]; [done|]. rewrite Nat.even_succ, <-Nat.negb_even. cbn [pow]. rewrite IH.
      destruct (Nat.even m); cbn; lra. }
  destruct Hpar as [-> Hs]. cbn [sum_f_R0]. rewrite term_eq, Hs. destruct (Nat.even (S n)); cbn [negb].
  - destruct (iadd_spec sum (lo, hi) _ _ (Z.of_nat n + 1) Hsum Hw ltac:(lia) Hd) as (v & -> & Hv & Hwv).
    cbn [obind]. exists v, pw'. split; [done|]. split; [done|].
    replace (Z.of_nat (S n) + 1)%Z with (Z.of_nat n + 1 + 1)%Z by lia. by rewrite Rmult_1_l.
  - destruct (isub_spec sum (lo, hi) _ _ (Z.of_nat n + 1) Hsum Hw ltac:(lia) Hd) as (v & -> & Hv & Hwv).
    cbn [obind]. exists v, pw'. split; [done|]. split; [done|].
    replace (Z.of_nat (S n) + 1)%Z with (Z.of_nat n + 1 + 1)%Z by lia.
    replace (sum_f_R0 term n + _) with (sum_f_R0 term n - x ^ (2 * S n + e) / INR (Factorial.fact (2 * S n + e))); [done|].
    lra.
Qed.

Lemma series_loop phi2 sum0 pw0 n : (n <= 12)%nat ->
  unit_enclosure phi2 (x * x) -> unit_enclosure pw0 (x ^ e) -> encloses sum0 (term 0) -> within 1 sum0 ->
  exists sum pw, ofold (taylor_step phi2 f1 f2) (seqZ 1 (Z.of_nat n)) (sum0, pw0, zfact e)
      = Ok (sum, pw, zfact (2 * n + e)) /\
    unit_enclosure pw (x ^ (2 * n + e)) /\
    encloses sum (sum_f_R0 term n) /\ within (Z.of_nat n + 1) sum.
Proof.
  intros Hn Hphi2 Hp Hs Hw. induction n as [|n IH].
  - exists sum0, pw0. split; [done|]. split; [done|]. split; [done|]. exact Hw.
  - destruct IH as (sum & pw & Hf & Hpow & Hsum & Hws); [lia|].
    rewrite seqZ_S, ofold_app, Hf. cbn [obind ofold].
    replace (1 + Z.of_nat n)%Z with (Z.of_nat (S n)) by lia.
    destruct (series_step phi2 n sum pw ltac:(lia) Hphi2 Hpow Hsum Hws) as (sum' & pw' & -> & H1 & H2 & H3).
    cbn [obind]. by exists sum', pw'.
Qed.

(** The remainder covers any value between the last partial sum and the next. *)
Lemma remainder_spec phi2 sum pw y :
  unit_enclosure phi2 (x * x) -> unit_enclosure pw (x ^ (24 + e)) ->
  encloses sum (sum_f_R0 term 12) -> within 13 sum ->
  Rabs (y - sum_f_R0 term 12) <= x ^ (26 + e) / INR (Factorial.fact (26 + e)) ->
  exists v, add_remainder sum phi2 pw (zfact (24 + e)) (25 + Z.of_nat e) = Ok v /\
    encloses v y /\ within 14 v.
Proof.
  intros Hphi2 Hpow Hs [Wl Wh] Hy. unfold add_remainder.
  destruct (imul_spec pw phi2 _ _ Hpow Hphi2) as (np & -> & Hp). cbn [obind].
  replace (x ^ (24 + e) * (x * x)) with (x ^ (26 + e)) in Hp
    by (replace (26 + e)%nat with (S (S (24 + e))) by lia; cbn [pow]; ring).
  assert (Hfz : zfact (26 + e) = (zfact (24 + e) * (25 + Z.of_nat e) * (25 + Z.of_nat e + 1))%Z).
  { replace (26 + e)%nat with (S (S (24 + e))) by lia.
    change (zfact (S (S (24 + e)))) with (Z.of_nat (S (S (24 + e))) * (Z.of_nat (S (24 + e)) * zfact (24 + e)))%Z.
    rewrite Z.mul_assoc, (Z.mul_comm _ (zfact _)), <-!Z.mul_assoc. f_equal.
    rewrite Z.mul_comm. f_equal; lia. }
  pose proof (zfact_pos (24 + e)). pose proof (zfact_small (24 + e) ltac:(lia)).
  pose proof (zfact_pos (26 + e)). pose proof (zfact_small (26 + e) ltac:(lia)).
  pose proof (encloses_order sum _ Hs).
  rewrite i128_Ok by nia. cbn [obind]. rewrite i128_Ok by lia. cbn [obind].
  rewrite <-Hfz, i128_Ok by lia. cbn [obind].
  destruct (div_spec np _ (zfact (26 + e)) Hp ltac:(lia)) as (lo & hi & _ & -> & [[_ Eh] Lh Uh]). cbn [obind fst snd] in *.
  assert (0 <= hi)%Z.
  { apply le_IZR. eapply Rle_trans; [|exact Eh]. rewrite zfact_INR. pose proof (Rabs_pos (y - sum_f_R0 term 12)).
    pose proof S61_pos. nra. }
  rewrite i128_Ok by lia. cbn [obind]. rewrite i128_Ok by lia. cbn [obind].
  eexists. split; [done|]. split; [|split; cbn [fst snd]; lia].
  rewrite zfact_INR in Eh. unfold encloses in *. cbn [fst snd]. rewrite minus_IZR, plus_IZR.
  assert (Hr : Rabs (y - sum_f_R0 term 12) * S61 <= IZR hi).
  { eapply Rle_trans; [|exact Eh]. apply Rmult_le_compat_r; [left; apply S61_pos|done]. }
  pose proof S61_pos. pose proof (Rle_abs (y - sum_f_R0 term 12)). pose proof (Rle_abs (- (y - sum_f_R0 term 12))) as Hn.
  rewrite Rabs_Ropp in Hn. split; nra.
Qed.
End taylor.

Section trig.
Context `{BuildMode}.

Lemma small_square phi x : unit_enclosure phi x ->
  exists v, imul phi phi = Ok v /\ unit_enclosure v (x * x).
Proof. intros Hp. by apply imul_spec. Qed.

Lemma within_one v x : unit_enclosure v x -> within 1 v.
Proof. intros [E L U]. pose proof (encloses_order v x E). split; lia. Qed.

Lemma one_enclosure : unit_enclosure (TRIG_ONE, TRIG_ONE) 1.
Proof.
  constructor; cbn [fst snd]; [|done|done]. unfold encloses. cbn [fst snd].
  change TRIG_ONE with (2 ^ 61)%Z. fold S61. lra.
Qed.

Lemma taylor_cos_spec phi x : unit_enclosure phi x ->
  exists v, taylor_cos phi = Ok v /\ encloses v (cos x) /\ within 14 v.
Proof.
  intros Hp. pose proof (unit_range phi x Hp) as Hx. unfold taylor_cos.
  destruct (small_square phi x Hp) as (phi2 & -> & H2). cbn [obind].
  assert (Hterm : forall n, cos_term x n = (-1) ^ n * (x ^ (2 * n + 0) / INR (Factorial.fact (2 * n + 0)))).
  { intros n. unfold cos_term. by rewrite Nat.add_0_r. }
  destruct (series_loop x 0 (fun two_n => two_n - 1)%Z (fun two_n => two_n) (cos_term x) ltac:(lia) Hterm
    ltac:(cbv beta; intros; lia) ltac:(cbv beta; intros; lia) phi2 (TRIG_ONE, TRIG_ONE) (TRIG_ONE, TRIG_ONE) 12 ltac:(lia) H2
    one_enclosure) as (sum & pw & Hf & Hpw & Hs & Hw).
  { rewrite Hterm. cbn [pow Nat.mul Nat.add Factorial.fact INR]. replace (1 * (1 / 1)) with 1 by lra. apply one_enclosure. }
  { eapply within_one, one_enclosure. }
  change (Z.of_nat 12) with NTERMS in Hf. change (zfact 0) with 1%Z in Hf. rewrite Hf. cbn [obind].
  apply (remainder_spec x 0 (cos_term x) ltac:(lia) phi2 sum pw (cos x) H2 Hpw Hs Hw).
  pose proof (pre_cos_bound x 5 ltac:(lra) ltac:(lra)) as [_ C5].
  pose proof (pre_cos_bound x 6 ltac:(lra) ltac:(lra)) as [C6 _]. unfold cos_approx in *.
  cbn [Nat.mul Nat.add] in *. change (sum_f_R0 (cos_term x) 13) with (sum_f_R0 (cos_term x) 12 + cos_term x 13) in C6.
  rewrite (Hterm 13%nat) in C6. replace ((-1) ^ 13) with (-1) in C6 by (cbn [pow]; lra).
  cbn [Nat.mul Nat.add] in C6. apply Rabs_le. lra.
Qed.

Lemma taylor_sin_spec phi x : unit_enclosure phi x ->
  exists v, taylor_sin phi = Ok v /\ encloses v (sin x) /\ within 14 v.
Proof.
  intros Hp. pose proof (unit_range phi x Hp) as Hx. unfold taylor_sin.
  destruct (small_square phi x Hp) as (phi2 & -> & H2). cbn [obind].
  assert (Hterm : forall n, sin_term x n = (-1) ^ n * (x ^ (2 * n + 1) / INR (Factorial.fact (2 * n + 1)))) by done.
  assert (H1 : x ^ 1 = x) by (cbn [pow]; lra).
  destruct (series_loop x 1 (fun two_n => two_n)%Z (fun two_n => two_n + 1)%Z (sin_term x) ltac:(lia) Hterm
    ltac:(cbv beta; intros; lia) ltac:(cbv beta; intros; lia) phi2 phi phi 12 ltac:(lia) H2) as (sum & pw & Hf & Hpw & Hs & Hw).
  { by rewrite H1. }
  { rewrite Hterm. cbn [Nat.mul Nat.add Factorial.fact INR]. rewrite H1.
    replace ((-1) ^ 0 * (x / 1)) with x by (cbn [pow]; lra). by destruct Hp. }
  { by eapply within_one. }
  change (Z.of_nat 12) with NTERMS in Hf. change (zfact 1) with 1%Z in Hf. rewrite Hf. cbn [obind].
  apply (remainder_spec x 1 (sin_term x) ltac:(lia) phi2 sum pw (sin x) H2 Hpw Hs Hw).
  pose proof (pre_sin_bound x 5 ltac:(lra) ltac:(lra)) as [_ C5].
  pose proof (pre_sin_bound x 6 ltac:(lra) ltac:(lra)) as [C6 _]. unfold sin_approx in *.
  cbn [Nat.mul Nat.add] in *. change (sum_f_R0 (sin_term x) 13) with (sum_f_R0 (sin_term x) 12 + sin_term x 13) in C6.
  rewrite (Hterm 13%nat) in C6. replace ((-1) ^ 13) with (-1) in C6 by (cbn [pow]; lra).
  cbn [Nat.mul Nat.add] in C6. apply Rabs_le. lra.
Qed.

(** * Table entries *)

(** [entry] is [x] at scale [2^q] up to [err]. *)
Definition approximates (q entry err : Z) (x : R) : Prop :=
  Rabs (IZR entry - x * IZR (2 ^ q)) <= IZR err.

Lemma apply_sign_spec v x sign : encloses v x -> within 14 v -> sign = 1%Z \/ sign = (-1)%Z ->
  exists w, apply_sign v sign = Ok w /\ encloses w (IZR sign * x) /\ within 14 w.
Proof.
  intros [E1 E2] [Wl Wh] Hs. unfold apply_sign. assert (Ho : encloses v x) by done.
  apply encloses_order in Ho. destruct Hs as [->| ->]; cbn [Z.ltb Z.compare].
  - exists v. split; [done|]. split; [|done]. unfold encloses. rewrite Rmult_1_l. lra.
  - rewrite i128_Ok by lia. cbn [obind]. rewrite i128_Ok by lia. cbn [obind].
    eexists. split; [done|]. split; [|split; cbn [fst snd]; lia].
    unfold encloses. cbn [fst snd]. rewrite !opp_IZR. lra.
Qed.

Lemma downscale_spec v x q : encloses v x -> within 14 v -> (1 <= q <= 56)%Z ->
  exists entry err, downscale_round v (61 - q) = Ok (entry, err) /\ approximates q entry err x /\ (0 <= err)%Z.
Proof.
  intros E [Wl Wh] Hq. pose proof (encloses_order v x E) as Ho. unfold downscale_round, fshr, cshr.
  rewrite !Z.shiftr_div_pow2 by lia. set (b := (2 ^ (61 - q))%Z). assert (Hb : (0 < b)%Z) by (subst b; lia).
  assert (Hbq : (b * 2 ^ q = 2 ^ 61)%Z) by (subst b; rewrite <-Z.pow_add_r by lia; f_equal; lia).
  set (lo := (fst v / b)%Z). set (hi := (- (- snd v / b))%Z).
  assert (Bl : (- 2 ^ 66 <= lo <= 2 ^ 66)%Z).
  { subst lo. split; [apply Z.div_le_lower_bound|apply Z.div_le_upper_bound]; nia. }
  assert (Bh : (- 2 ^ 66 <= hi <= 2 ^ 66)%Z).
  { subst hi. assert (- 2 ^ 66 <= - snd v / b <= 2 ^ 66)%Z; [|lia].
    split; [apply Z.div_le_lower_bound|apply Z.div_le_upper_bound]; nia. }
  assert (Hlohi : (lo <= hi)%Z).
  { subst lo hi. assert (fst v / b <= - (- snd v / b))%Z; [|done].
    pose proof (Z.mul_div_le (fst v) b Hb). pose proof (Z.mul_div_le (- snd v) b Hb). nia. }
  rewrite i128_Ok by lia. cbn [obind]. rewrite Z.shiftr_div_pow2 by lia. fold b hi. rewrite i128_Ok by lia. cbn [obind].
  rewrite i128_Ok by lia. cbn [obind]. unfold fdiv.
  assert (He : (lo <= (lo + hi) / 2 <= hi)%Z).
  { split; [apply Z.div_le_lower_bound; lia|]. apply Z.div_le_upper_bound; lia. }
  set (entry := ((lo + hi) / 2)%Z) in *.
  rewrite i128_Ok by lia. cbn [obind]. rewrite i128_Ok by lia. cbn [obind]. rewrite i128_Ok by lia. cbn [obind].
  eexists _, _. split; [done|]. split; [|lia].
  pose proof (floor_div (fst v) b Hb) as F. pose proof (ceil_div (snd v) b Hb) as C. fold lo in F. fold hi in C.
  destruct E as [E1 E2]. assert (HbR : 0 < IZR b) by (by apply IZR_lt).
  assert (Hscale : S61 = IZR b * IZR (2 ^ q)) by (unfold S61; by rewrite <-mult_IZR, Hbq).
  rewrite Hscale in E1, E2. assert (Hi : 0 < / IZR b) by (by apply Rinv_0_lt_compat).
  assert (Hcancel : forall z, z * / IZR b * IZR b = z) by (intros; field; lra).
  assert (L1 : IZR lo <= x * IZR (2 ^ q)).
  { eapply Rle_trans; [exact F|]. unfold Rdiv. apply Rmult_le_reg_r with (IZR b); [done|].
    rewrite Hcancel. lra. }
  assert (L2 : x * IZR (2 ^ q) <= IZR hi).
  { eapply Rle_trans; [|exact C]. unfold Rdiv. apply Rmult_le_reg_r with (IZR b); [done|].
    rewrite Hcancel. lra. }
  unfold approximates. apply Rabs_le.
  assert (M1 : (entry - lo <= Z.max (entry - lo) (hi - entry))%Z) by lia.
  assert (M2 : (hi - entry <= Z.max (entry - lo) (hi - entry))%Z) by lia.
  apply IZR_le in M1, M2. rewrite minus_IZR in M1, M2. lra.
Qed.

(** The angle [pi t / d]. *)
Definition angle (d t : Z) : R := IZR t * PI / IZR d.

Lemma reflect_two_pi d t : (0 < d)%Z -> (0 <= t < 2 * d)%Z ->
  let '(u, s) := if (d <? t)%Z then (2 * d - t, -1)%Z else (t, 1%Z) in
  (0 <= u <= d)%Z /\ (s = 1 \/ s = -1)%Z /\
  cos (angle d t) = cos (angle d u) /\ sin (angle d t) = IZR s * sin (angle d u).
Proof.
  intros Hd Ht. assert (HD : IZR d <> 0) by (apply not_0_IZR; lia).
  destruct (Z.ltb_spec d t).
  - split; [lia|]. split; [by right|].
    assert (He : angle d (2 * d - t) = - angle d t + 2 * INR 1 * PI).
    { unfold angle. rewrite minus_IZR, mult_IZR. cbn [INR]. field. done. }
    rewrite He, cos_period, sin_period, cos_neg, sin_neg. split; lra.
  - split; [lia|]. split; [by left|]. split; lra.
Qed.

Lemma reflect_pi d t : (0 < d)%Z -> (0 <= t <= d)%Z -> (d mod 2 = 0)%Z ->
  let '(u, s) := if (d / 2 <? t)%Z then (d - t, -1)%Z else (t, 1%Z) in
  (0 <= u <= d / 2)%Z /\ (s = 1 \/ s = -1)%Z /\
  cos (angle d t) = IZR s * cos (angle d u) /\ sin (angle d t) = sin (angle d u).
Proof.
  intros Hd Ht Hm. assert (HD : IZR d <> 0) by (apply not_0_IZR; lia).
  destruct (Z.ltb_spec (d / 2) t).
  - split; [div_lia|]. split; [by right|].
    assert (He : angle d (d - t) = PI - angle d t).
    { unfold angle. rewrite minus_IZR. field. done. }
    rewrite He, cos_minus, sin_minus, cos_PI, sin_PI. split; lra.
  - split; [lia|]. split; [by left|]. split; lra.
Qed.

Lemma reflect_half_pi d t : (0 < d)%Z -> (0 <= t <= d / 2)%Z -> (d mod 4 = 0)%Z ->
  let '(u, swap) := if (d / 4 <? t)%Z then (d / 2 - t, true)%Z else (t, false) in
  (0 <= u)%Z /\ (4 * u <= d)%Z /\
  cos (angle d t) = (if swap : bool then sin (angle d u) else cos (angle d u)) /\
  sin (angle d t) = (if swap : bool then cos (angle d u) else sin (angle d u)).
Proof.
  intros Hd Ht Hm. assert (HD : IZR d <> 0) by (apply not_0_IZR; lia).
  destruct (Z.ltb_spec (d / 4) t).
  - split; [lia|]. split; [div_lia|].
    assert (He : angle d (d / 2 - t) = PI / 2 - angle d t).
    { unfold angle. rewrite minus_IZR. replace (IZR (d / 2)) with (IZR d / 2); [field; done|].
      replace d with (2 * (d / 2))%Z at 1 by div_lia. rewrite mult_IZR. field. }
    by rewrite He, cos_shift, sin_shift.
  - split; [lia|]. split; [div_lia|]. done.
Qed.

(** The reduction recovers the angle's cosine and sine from the octant. *)
Lemma octant_spec t d : (4 <= d)%Z -> (d mod 4 = 0)%Z -> (0 <= t < 2 * d)%Z ->
  let '(r, swap, cos_sign, sin_sign) := octant_reduce t d in
  (0 <= r)%Z /\ (4 * r <= d)%Z /\
  (cos_sign = 1 \/ cos_sign = -1)%Z /\ (sin_sign = 1 \/ sin_sign = -1)%Z /\
  cos (angle d t) = IZR cos_sign * (if swap : bool then sin (angle d r) else cos (angle d r)) /\
  sin (angle d t) = IZR sin_sign * (if swap : bool then cos (angle d r) else sin (angle d r)).
Proof.
  intros Hd Hm Ht. unfold octant_reduce. rewrite Z.mod_small by lia.
  pose proof (reflect_two_pi d t ltac:(lia) Ht) as H1.
  destruct (if (d <? t)%Z then _ else _) as [t1 s1]. destruct H1 as (B1 & S1 & -> & ->).
  pose proof (reflect_pi d t1 ltac:(lia) B1 ltac:(div_lia)) as H2.
  destruct (if (d / 2 <? t1)%Z then _ else _) as [t2 s2]. destruct H2 as (B2 & S2 & -> & ->).
  pose proof (reflect_half_pi d t2 ltac:(lia) B2 Hm) as H3.
  destruct (if (d / 4 <? t2)%Z then _ else _) as [t3 sw]. destruct H3 as (B3 & B4 & -> & ->). done.
Qed.

(** The enclosure of an octant angle. *)
Lemma phi_spec d r : (4 <= d < 2 ^ 63)%Z -> (0 <= r)%Z -> (4 * r <= d)%Z ->
  exists lo hi, (let* x := i128 (PI_LO * r) in fdiv x d) = Ok lo /\
    (let* y := i128 (PI_HI * r) in cdiv y d) = Ok hi /\ unit_enclosure (lo, hi) (angle d r).
Proof.
  intros Hd Hr H4. assert (Hd0 : (0 < d)%Z) by lia. unfold PI_LO, PI_HI in *.
  rewrite !i128_Ok by lia. cbn [obind].
  destruct (fdiv_Ok (7244019458077122644 * r) d Hd0 ltac:(lia)) as [F1 F2].
  destruct (cdiv_Ok (7244019458077123100 * r) d Hd0 ltac:(lia)) as [C1 C2].
  eexists _, _. split; [exact F1|]. split; [exact C1|].
  pose proof (floor_div (7244019458077122644 * r) d Hd0) as L1.
  pose proof (ceil_div (7244019458077123100 * r) d Hd0) as L2.
  pose proof pi_between as [P1 P2]. unfold PI_LO, PI_HI in P1, P2. fold S61 in P1, P2.
  rewrite mult_IZR in L1, L2. apply IZR_le in Hr as HrR. assert (HdR : 0 < IZR d) by (by apply IZR_lt).
  assert (Hi : 0 < / IZR d) by (by apply Rinv_0_lt_compat).
  constructor; cbn [fst snd].
  - unfold encloses, angle, Rdiv in *. cbn [fst snd].
    assert (Hx : IZR r * PI * / IZR d * S61 = PI * S61 * IZR r * / IZR d) by ring. rewrite Hx. split.
    + eapply Rle_trans; [exact L1|]. apply Rmult_le_compat_r; [lra|]. by apply Rmult_le_compat_r.
    + eapply Rle_trans; [|exact L2]. apply Rmult_le_compat_r; [lra|]. by apply Rmult_le_compat_r.
  - lia.
  - pose proof (ceil_range (7244019458077123100 * r) d (2 ^ 61) Hd0 ltac:(nia)). lia.
Qed.

Lemma table_entry_spec d q t : (4 <= d < 2 ^ 63)%Z -> (d mod 4 = 0)%Z -> (1 <= q <= 56)%Z -> (0 <= t < 2 * d)%Z ->
  exists c ce s se, table_entry (PI_LO, PI_HI) d (TRIG_SCALE - q) t = Ok ((c, ce), (s, se)) /\
    approximates q c ce (cos (angle d t)) /\ approximates q s se (sin (angle d t)) /\ (0 <= ce)%Z /\ (0 <= se)%Z.
Proof.
  intros Hd Hm Hq Ht. unfold table_entry. pose proof (octant_spec t d ltac:(lia) Hm Ht) as Ho.
  destruct (octant_reduce t d) as [[[r sw] cs] ss]. destruct Ho as (Hr & H4 & Hcs & Hss & -> & ->).
  destruct (phi_spec d r Hd Hr H4) as (lo & hi & Hlo & Hhi & Hphi). cbn [fst snd].
  obind_inv Hlo. obind_inv Hhi. cbn [obind]. rewrite Hlo, Hhi. cbn [obind].
  destruct (taylor_cos_spec _ _ Hphi) as (cv & -> & Ecv & Wcv). cbn [obind].
  destruct (taylor_sin_spec _ _ Hphi) as (sv & -> & Esv & Wsv). cbn [obind].
  set (x := angle d r) in *. unfold TRIG_SCALE.
  assert (Hfin : forall (a b : Z * Z) y z, encloses a y -> within 14 a -> encloses b z -> within 14 b ->
    exists c ce s se,
      (let* cos_a := apply_sign a cs in
       let* sin_a := apply_sign b ss in
       let* c := downscale_round cos_a (61 - q) in
       let* s := downscale_round sin_a (61 - q) in Ok (c, s)) = Ok ((c, ce), (s, se)) /\
      approximates q c ce (IZR cs * y) /\ approximates q s se (IZR ss * z) /\ (0 <= ce)%Z /\ (0 <= se)%Z).
  { intros v w y z Ea Wa Eb Wb.
    destruct (apply_sign_spec v y cs Ea Wa Hcs) as (a' & -> & Ea' & Wa'). cbn [obind].
    destruct (apply_sign_spec w z ss Eb Wb Hss) as (b' & -> & Eb' & Wb'). cbn [obind].
    destruct (downscale_spec a' _ q Ea' Wa' Hq) as (c & ce & -> & Hc & Hce). cbn [obind].
    destruct (downscale_spec b' _ q Eb' Wb' Hq) as (s & se & -> & Hs & Hse). cbn [obind].
    by exists c, ce, s, se. }
  destruct sw; by apply Hfin.
Qed.
End trig.
