(* ===== verification/OpNormSound.v ===== *)
(** The operator-norm predicate over the reals: the tables hold certified
    roots of unity, the integer accumulators are the spectrum up to a known
    radius, [Accept] bounds the operator norm of the challenge in
    [R[X]/(X^D + 1)] by the threshold, [Reject] exceeds it, and the certified
    subset is always accepted. *)

From Stdlib Require Import Reals Lra.
From S2P Require Import Prelude Checked Decomposition OpNorm Spectrum TrigBounds.

(** * Updating and reading lists *)

Lemma store_Ok {E A} (l : list A) i (x : A) : 0 <= i < len l ->
  store (E := E) l i x = Ok (<[Z.to_nat i := x]> l).
Proof. intros Hi. unfold store. by case_Z. Qed.

Lemma len_insert {A} (l : list A) n (x : A) : len (<[n := x]> l) = len l.
Proof. unfold len. by rewrite length_insert. Qed.

Lemma index_upd {A} (l : list A) i j (x : A) : 0 <= i < len l -> 0 <= j ->
  index (<[Z.to_nat i := x]> l) j = if decide (j = i) then Some x else index l j.
Proof.
  intros Hi Hj. unfold index. destruct (Z.leb_spec 0 j); [|lia]. case_decide as He.
  - subst j. apply list_lookup_insert_eq. unfold len in Hi. lia.
  - apply list_lookup_insert_ne. lia.
Qed.

(** * The base tables *)

Lemma approximates_mono q c e e' x : approximates q c e x -> e <= e' -> approximates q c e' x.
Proof. unfold approximates. intros Ha He. apply IZR_le in He. lra. Qed.

(** Entry [t] holds the function at the angle [pi t / d]. *)
Definition entries_below (q eps d n : Z) (g : R -> R) (l : list Z) : Prop :=
  forall t, 0 <= t < n -> exists c, index l t = Some c /\ approximates q c eps (g (angle d t)).

Lemma entries_step q eps eps' d n g l c :
  entries_below q eps d n g l -> eps <= eps' -> 0 <= n < len l -> approximates q c eps' (g (angle d n)) ->
  entries_below q eps' d (n + 1) g (<[Z.to_nat n := c]> l).
Proof.
  intros He Hle Hn Hc t Ht. rewrite index_upd by lia. case_decide as Hd; [by subst t; exists c|].
  destruct (He t ltac:(lia)) as (c' & Hc' & Ha). exists c'. split; [done|]. by eapply approximates_mono.
Qed.

Section tables.
Context `{BuildMode}.
Variables d q : Z.
Hypothesis d_range : 4 <= d <= 2 ^ 31.
Hypothesis d_four : d mod 4 = 0.
Hypothesis q_range : 1 <= q <= 56.

Lemma usize_Ok z : 0 <= z < 2 ^ 64 -> usize_ok z = Ok z.
Proof.
  intros Hz. unfold usize_ok. replace ((0 <=? z) && (z <? 2 ^ 64)) with true; [done|].
  symmetry. apply andb_true_iff. lia.
Qed.

Lemma build_tables_spec : exists bc bs eps, build_tables d q = Ok (bc, bs, eps) /\
  len bc = 2 * d /\ len bs = 2 * d /\ 0 <= eps /\
  entries_below q eps d (2 * d) cos bc /\ entries_below q eps d (2 * d) sin bs.
Proof.
  unfold build_tables. rewrite usize_Ok by lia. cbn [obind]. rewrite pi_enclosure_value. cbn [obind].
  set (I := fun (i : Z) (st : list Z * list Z * Z) => let '(bc, bs, eps) := st in
    len bc = 2 * d /\ len bs = 2 * d /\ 0 <= eps /\
    entries_below q eps d i cos bc /\ entries_below q eps d i sin bs).
  match goal with |- context [ofold ?f _ ?s] => destruct (ofold_range I f (2 * d) s) as ([[bc bs] eps] & He & Hi) end.
  - lia.
  - unfold I. rewrite len_replicate by lia. do 2 (split; [done|]). split; [done|].
    split; intros t Ht; lia.
  - intros i [[bc bs] eps] Hi (L1 & L2 & He & Hc & Hs).
    destruct (table_entry_spec d q i ltac:(lia) d_four q_range Hi) as (c & ce & s & se & -> & Ac & As & Pc & Ps).
    cbn [obind fst snd]. rewrite !store_Ok by lia. cbn [obind]. eexists. split; [done|]. unfold I.
    rewrite !len_insert. do 2 (split; [done|]). split; [lia|].
    split; eapply entries_step; try eassumption; try lia; (eapply approximates_mono; [eassumption|lia]).
  - exists bc, bs, eps. split; [done|]. exact Hi.
Qed.

(** * The frequency tables *)

Definition half : Z := d / 2.

Lemma half_range : d = 2 * half /\ 2 <= half.
Proof. unfold half. div_lia. Qed.

(** The base index of frequency [k] at position [pos]. *)
Definition base_index (pos k : Z) : Z := ((2 * k + 1) mod (2 * d) * pos) mod (2 * d).

Definition rows_below (pos k : Z) (base freq : list Z) : Prop :=
  forall p j, 0 <= p -> 0 <= j < half -> p < pos \/ (p = pos /\ j < k) ->
    index freq (p * half + j) = index base (base_index p j).

Lemma rows_step pos k base freq c :
  rows_below pos k base freq -> 0 <= pos < d -> 0 <= k < half -> len freq = d * half ->
  index base (base_index pos k) = Some c ->
  rows_below pos (k + 1) base (<[Z.to_nat (pos * half + k) := c]> freq).
Proof.
  intros Hr Hp Hk Hl Hc p j Hp0 Hj Hpj. destruct half_range as [_ Hh].
  assert (Hrange : 0 <= pos * half + k < len freq) by (rewrite Hl; nia).
  rewrite index_upd by (nia || done). case_decide as He.
  - assert (p = pos /\ j = k) as [-> ->]; [|done].
    assert (p = pos); [|lia]. apply (Z.mul_reg_r _ _ half); nia.
  - apply Hr; [done..|]. destruct Hpj as [|[-> Hjk]]; [by left|]. right. split; [done|]. lia.
Qed.

Lemma build_freq_spec bc bs : len bc = 2 * d -> len bs = 2 * d ->
  exists fc fs, build_freq_at_tables d bc bs = Ok (fc, fs) /\ len fc = d * half /\ len fs = d * half /\
    rows_below d 0 bc fc /\ rows_below d 0 bs fs.
Proof.
  intros L1 L2. destruct half_range as [Hd2 Hh]. unfold build_freq_at_tables. fold half.
  rewrite usize_Ok by lia. cbn [obind]. rewrite usize_Ok by nia. cbn [obind].
  set (I := fun pos k (st : list Z * list Z) => len (fst st) = d * half /\ len (snd st) = d * half /\
    rows_below pos k bc (fst st) /\ rows_below pos k bs (snd st)).
  match goal with |- context [ofold ?f _ ?s] => destruct (ofold_range (fun pos => I pos 0) f d s) as ([fc fs] & He & Hi) end.
  - lia.
  - unfold I. cbn [fst snd]. rewrite len_replicate by nia. do 2 (split; [done|]). split; intros p j; lia.
  - intros pos st Hpos Hst. cbv beta. rewrite usize_Ok by nia. cbn [obind].
    match goal with |- exists s', ofold ?f _ ?s = _ /\ _ => destruct (ofold_range (I pos) f half s) as (st' & He & Hi) end.
    + lia.
    + exact Hst.
    + intros k [fc fs] Hk (F1 & F2 & R1 & R2). cbn [fst snd] in *.
      assert (Hm : 0 <= (2 * k + 1) mod (2 * d) < 2 * d) by (apply Z.mod_pos_bound; lia).
      rewrite usize_Ok by nia. cbn [obind]. fold (base_index pos k).
      assert (Hb : 0 <= base_index pos k < 2 * d) by (apply Z.mod_pos_bound; lia).
      destruct (index_is_Some bc (base_index pos k)) as [c Hc]; [lia|].
      destruct (index_is_Some bs (base_index pos k)) as [s Hs]; [lia|].
      rewrite Hc, Hs. cbn [unwrap obind]. rewrite !store_Ok by nia. cbn [obind].
      eexists. split; [done|]. unfold I. cbn [fst snd]. rewrite !len_insert. do 2 (split; [done|]).
      split; by apply rows_step.
    + exists st'. split; [done|]. destruct Hi as (F1 & F2 & R1 & R2). split; [done|]. split; [done|].
      split; intros p j Hp Hj Hpj; [apply R1|apply R2]; try done; lia.
  - exists fc, fs. split; [done|]. exact Hi.
Qed.

(** Reducing the index keeps the angle. *)
Lemma angle_period (g : R -> R) pos k : (g = cos \/ g = sin) -> 0 <= pos -> 0 <= k < half ->
  g (angle d (base_index pos k)) = g (angle d ((2 * k + 1) * pos)).
Proof.
  intros Hg Hp Hk. destruct half_range as [Hd2 Hh]. unfold base_index. rewrite (Z.mod_small (2 * k + 1)) by lia.
  set (n := (2 * k + 1) * pos). assert (Hn : 0 <= n) by nia.
  assert (Hq : 0 <= n / (2 * d)) by (apply Z.div_pos; lia).
  assert (He : angle d n = (angle d (n mod (2 * d)) + 2 * INR (Z.to_nat (n / (2 * d))) * PI)%R).
  { unfold angle. rewrite INR_IZR_INZ, Z2Nat.id by done.
    rewrite (Z.div_mod n (2 * d)) at 1 by lia. rewrite plus_IZR, !mult_IZR.
    field. apply not_0_IZR. lia. }
  rewrite He. destruct Hg as [-> | ->]; [by rewrite cos_period|by rewrite sin_period].
Qed.
End tables.

(** * A constructed table *)

(** What [new] promises of the table. *)
Record table_sound (T : OpNormTable) : Prop := {
  ts_d : 4 <= table_d T <= 2 ^ 31;
  ts_four : table_d T mod 4 = 0;
  ts_q : 1 <= table_q T <= 56;
  ts_eps : 0 <= eps_root T;
  ts_len_cos : len (freq_cos_at T) = table_d T * half (table_d T);
  ts_len_sin : len (freq_sin_at T) = table_d T * half (table_d T);
  ts_cos : forall p k, 0 <= p < table_d T -> 0 <= k < half (table_d T) ->
    exists c, index (freq_cos_at T) (p * half (table_d T) + k) = Some c /\
      approximates (table_q T) c (eps_root T) (cos (angle (table_d T) ((2 * k + 1) * p)));
  ts_sin : forall p k, 0 <= p < table_d T -> 0 <= k < half (table_d T) ->
    exists s, index (freq_sin_at T) (p * half (table_d T) + k) = Some s /\
      approximates (table_q T) s (eps_root T) (sin (angle (table_d T) ((2 * k + 1) * p)));
}.

Lemma downcast_same l l' : OpNormTable.downcast l = Ok l' -> l' = l.
Proof.
  unfold OpNormTable.downcast. revert l'; induction l as [|v l IH]; intros l' Hl; cbn [omapM] in Hl; [by injection Hl as <-|].
  destruct (_ && _)%bool; cbn [obind] in Hl; [|done].
  obind_inv Hl. injection Hl as <-. f_equal. by apply IH.
Qed.

Lemma new_sound `{BuildMode} d q max_l1 max_t T : d <= 2 ^ 31 ->
  OpNormTable.new d q max_l1 max_t = Ok T ->
  table_sound T /\ table_d T = d /\ table_q T = q /\ OpNorm.max_l1 T = max_l1 /\ OpNorm.max_t T = max_t.
Proof.
  intros Hd. unfold OpNormTable.new. destruct ((d <? 4) || negb (d mod 4 =? 0)) eqn:G1; [done|].
  destruct (negb ((1 <=? q) && (q <=? 56))) eqn:G2; [done|]. bool_prop.
  assert (R1 : 4 <= d <= 2 ^ 31) by lia. assert (R2 : 1 <= q <= 56) by lia. assert (R3 : d mod 4 = 0) by done.
  destruct (build_tables_spec d q R1 R3 R2) as (bc & bs & eps & -> & L1 & L2 & He & Hc & Hs). cbn [obind].
  intros Hn. obind_inv Hn. obind_inv Hn. obind_inv Hn. obind_inv Hn.
  apply downcast_same in E1 as ->. apply downcast_same in E2 as ->.
  destruct (build_freq_spec d R1 R3 bc bs L1 L2) as (fc & fs & Hf & F1 & F2 & W1 & W2).
  rewrite Hf in Hn. cbn [obind] in Hn. injection Hn as <-.
  split; [|done]. destruct (half_range d R1 R3) as [Hd2 Hh].
  constructor; cbn [table_d table_q eps_root freq_cos_at freq_sin_at]; try done.
  - intros p k Hp Hk. rewrite W1 by (lia || by left). rewrite <-(angle_period d R1 R3 cos p k) by (lia || by left).
    apply Hc. apply Z.mod_pos_bound. lia.
  - intros p k Hp Hk. rewrite W2 by (lia || by left). rewrite <-(angle_period d R1 R3 sin p k) by (lia || by right).
    apply Hs. apply Z.mod_pos_bound. lia.
Qed.

(** * The accumulators *)

(** The terms of a challenge. *)
Fixpoint term_l1 (ts : list (Z * Z)) : Z :=
  match ts with [] => 0 | (_, c) :: ts => Z.abs c + term_l1 ts end.
Fixpoint term_sum (f : Z -> Z) (ts : list (Z * Z)) : Z :=
  match ts with [] => 0 | (p, c) :: ts => c * f p + term_sum f ts end.

Lemma term_l1_nonneg ts : 0 <= term_l1 ts.
Proof. induction ts as [|[p c] ts IH]; cbn [term_l1]; lia. Qed.

Lemma term_sum_bound f ts M : 0 <= M -> Forall (fun t => Z.abs (f (fst t)) <= M) ts ->
  Z.abs (term_sum f ts) <= term_l1 ts * M.
Proof.
  intros HM. induction 1 as [|[p c] ts Hp _ IH]; cbn [term_sum term_l1 fst] in *; [lia|].
  assert (Z.abs (c * f p) <= Z.abs c * M) by (rewrite Z.abs_mul; nia). lia.
Qed.

Lemma slice_index {A} (l s : list A) a b i : slice l a b = Some s -> 0 <= i < b - a ->
  index s i = index l (a + i).
Proof.
  unfold slice. destruct ((0 <=? a) && (a <=? b) && (b <=? len l)) eqn:E; [|done]. intros [= <-] Hi.
  bool_prop. unfold index. destruct (Z.leb_spec 0 i); [|lia]. destruct (Z.leb_spec 0 (a + i)); [|lia].
  rewrite lookup_take_lt, lookup_drop by lia. f_equal. lia.
Qed.

Section accumulate.
Context `{BuildMode}.
Variable T : OpNormTable.
Hypothesis Ts : table_sound T.

Let d := table_d T.
Let h := half (table_d T).

(** The rows as functions. *)
Definition row_cos (k p : Z) : Z := default 0 (index (freq_cos_at T) (p * h + k)).
Definition row_sin (k p : Z) : Z := default 0 (index (freq_sin_at T) (p * h + k)).
(** The largest magnitude of an entry. *)
Definition entry_max : Z := 2 ^ table_q T + eps_root T.

Lemma approx_bound c (x : R) : (-1 <= x <= 1)%R -> approximates (table_q T) c (eps_root T) x -> Z.abs c <= entry_max.
Proof.
  intros Hx Ha. unfold approximates in Ha. apply le_IZR. rewrite abs_IZR.
  unfold entry_max. rewrite plus_IZR. assert (0 < IZR (2 ^ table_q T))%R by (apply IZR_lt; destruct Ts; lia).
  pose proof (Rabs_triang (IZR c - x * IZR (2 ^ table_q T)) (x * IZR (2 ^ table_q T))) as Ht.
  replace (IZR c - x * IZR (2 ^ table_q T) + x * IZR (2 ^ table_q T))%R with (IZR c) in Ht by lra.
  assert (Rabs (x * IZR (2 ^ table_q T)) <= IZR (2 ^ table_q T))%R by (apply Rabs_le; nra). lra.
Qed.

Lemma dims : d = 2 * h /\ 2 <= h /\ d <= 2 ^ 31.
Proof. destruct Ts as [? ? ? ? ? ? ? ?]. pose proof (half_range d) as Hs. unfold d, h in *. destruct Hs; [done..|]. lia. Qed.

Lemma row_entry p k : 0 <= p < d -> 0 <= k < h ->
  index (freq_cos_at T) (p * h + k) = Some (row_cos k p) /\
  index (freq_sin_at T) (p * h + k) = Some (row_sin k p) /\
  approximates (table_q T) (row_cos k p) (eps_root T) (cos (angle d ((2 * k + 1) * p))) /\
  approximates (table_q T) (row_sin k p) (eps_root T) (sin (angle d ((2 * k + 1) * p))) /\
  Z.abs (row_cos k p) <= entry_max /\ Z.abs (row_sin k p) <= entry_max.
Proof.
  intros Hp Hk. destruct Ts as [_ _ _ _ _ _ C S]. destruct (C p k Hp Hk) as (c & Hc & Ac).
  destruct (S p k Hp Hk) as (s & Hs & As). unfold row_cos, row_sin. fold h in Hc, Hs |- *. rewrite Hc, Hs. cbn [default].
  do 4 (split; [done|]). split; eapply approx_bound; try eassumption; [apply COS_bound|apply SIN_bound].
Qed.

Lemma freq_row_spec p : 0 <= p < d -> exists c s, OpNormTable.freq_row T p h = Ok (c, s) /\
  forall k, 0 <= k < h -> index c k = Some (row_cos k p) /\ index s k = Some (row_sin k p).
Proof.
  intros Hp. destruct dims as (Hd & Hh & Hb). unfold OpNormTable.freq_row.
  rewrite usize_Ok by nia. cbn [obind]. rewrite usize_Ok by nia. cbn [obind].
  assert (Hs : forall l : list Z, len l = d * h -> exists s, slice l (p * h) (p * h + h) = Some s).
  { intros l Hl. unfold slice. replace ((0 <=? p * h) && (p * h <=? p * h + h) && (p * h + h <=? len l)) with true; [by eexists|].
    symmetry. rewrite !andb_true_iff, !Z.leb_le. nia. }
  destruct (Hs (freq_cos_at T)) as [c Hc]; [by destruct Ts|]. destruct (Hs (freq_sin_at T)) as [s Hsn]; [by destruct Ts|].
  rewrite Hc, Hsn. cbn [unwrap obind]. exists c, s. split; [done|]. intros k Hk.
  rewrite (slice_index _ _ _ _ k Hc), (slice_index _ _ _ _ k Hsn) by lia.
  destruct (row_entry p k Hp Hk) as (-> & -> & _). done.
Qed.

Lemma i64_Ok z : - 2 ^ 63 <= z < 2 ^ 63 -> i64 z = Ok z.
Proof.
  intros Hz. unfold i64. replace ((- 2 ^ 63 <=? z) && (z <? 2 ^ 63)) with true; [done|].
  symmetry. apply andb_true_iff. lia.
Qed.

(** The accumulators of a chunk: lane [j] holds [f j] in the real part and
    [g j] in the imaginary one. *)
Definition lanes (n : Z) (f g : Z -> Z) (st : list Z * list Z) : Prop :=
  len (fst st) = FUSED_CHUNK_FREQS /\ len (snd st) = FUSED_CHUNK_FREQS /\
  forall j, 0 <= j < n -> index (fst st) j = Some (f j) /\ index (snd st) j = Some (g j).

Variables start n : Z.
Hypothesis n_range : 0 <= n <= FUSED_CHUNK_FREQS.
Hypothesis start_range : 0 <= start /\ start + n <= h.

(** The body of the loop over the terms. *)
Definition add_term (acc : list Z * list Z) (t : Z * Z) : result (list Z * list Z) :=
  let '(pos, coeff) := t in
  let* (cos_row, sin_row) := OpNormTable.freq_row T pos h in
  ofold (fun '(acc_re, acc_im) lane =>
           let k := start + lane in
           let* c := unwrap (index cos_row k) in
           let* p := i64 (coeff * c) in
           let* a := unwrap (index acc_re lane) in
           let* a := i64 (a + p) in
           let* acc_re := store acc_re lane a in
           let* s := unwrap (index sin_row k) in
           let* p := i64 (coeff * s) in
           let* b := unwrap (index acc_im lane) in
           let* b := i64 (b + p) in
           let* acc_im := store acc_im lane b in
           Ok (acc_re, acc_im)) (range n) acc.

(** One term adds [coeff] times its row entries. *)
Lemma term_step p coeff f g B st : 0 <= p < d ->
  (forall j, 0 <= j < n -> Z.abs (f j) <= B /\ Z.abs (g j) <= B) -> 0 <= B ->
  B + Z.abs coeff * entry_max < 2 ^ 63 -> lanes n f g st ->
  exists st', add_term st (p, coeff) = Ok st' /\
    lanes n (fun j => f j + coeff * row_cos (start + j) p) (fun j => g j + coeff * row_sin (start + j) p) st'.
Proof.
  intros Hp Hb HB0 HB (L1 & L2 & Hst). unfold add_term. destruct (freq_row_spec p Hp) as (cr & sr & -> & Hrow). cbn [obind].
  set (I := fun (i : Z) (st : list Z * list Z) => len (fst st) = FUSED_CHUNK_FREQS /\ len (snd st) = FUSED_CHUNK_FREQS /\
    forall j, 0 <= j < n ->
      index (fst st) j = Some (if j <? i then f j + coeff * row_cos (start + j) p else f j) /\
      index (snd st) j = Some (if j <? i then g j + coeff * row_sin (start + j) p else g j)).
  match goal with |- exists s', ofold ?b _ _ = _ /\ _ => destruct (ofold_range I b n st) as (st' & He & Hi) end.
  - lia.
  - do 2 (split; [done|]). intros j Hj. destruct (Z.ltb_spec j 0); [lia|]. by apply Hst.
  - intros i [re im] Hi (F1 & F2 & Hj). cbn [fst snd] in *. destruct (Hj i Hi) as [J1 J2].
    destruct (Z.ltb_spec i i); [lia|]. destruct (Hrow (start + i) ltac:(lia)) as [-> ->].
    destruct (row_entry p (start + i) Hp ltac:(lia)) as (_ & _ & _ & _ & Bc & Bs).
    destruct (Hb i Hi) as [Bf Bg].
    assert (Pc : Z.abs (coeff * row_cos (start + i) p) <= Z.abs coeff * entry_max) by (rewrite Z.abs_mul; nia).
    assert (Ps : Z.abs (coeff * row_sin (start + i) p) <= Z.abs coeff * entry_max) by (rewrite Z.abs_mul; nia).
    cbn [unwrap obind]. rewrite i64_Ok by lia. cbn [obind]. rewrite J1. cbn [unwrap obind].
    rewrite i64_Ok by lia. cbn [obind]. rewrite store_Ok by lia. cbn [obind].
    rewrite i64_Ok by lia. cbn [obind]. rewrite J2. cbn [unwrap obind].
    rewrite i64_Ok by lia. cbn [obind]. rewrite store_Ok by lia. cbn [obind].
    eexists. split; [done|]. unfold I. cbn [fst snd]. rewrite !len_insert. do 2 (split; [done|]).
    intros j Hjr. rewrite !index_upd by lia. destruct (Hj j Hjr) as [-> ->].
    case_decide as Hd; [subst j; destruct (Z.ltb_spec i (i + 1)); [done|lia]|].
    destruct (Z.ltb_spec j i), (Z.ltb_spec j (i + 1)); (done || lia).
  - exists st'. split; [done|]. destruct Hi as (F1 & F2 & Hj). do 2 (split; [done|]). intros j Hjr.
    destruct (Hj j Hjr) as [-> ->]. destruct (Z.ltb_spec j n); [done|lia].
Qed.

Lemma entry_max_pos : 0 <= entry_max.
Proof. unfold entry_max. destruct Ts. lia. Qed.

Lemma accumulate_lanes ps cs : Forall (fun t => 0 <= fst t < d) (zip ps cs) ->
  term_l1 (zip ps cs) * entry_max < 2 ^ 63 ->
  exists st, OpNormTable.accumulate_transposed_chunk T ps cs start n h = Ok st /\
    lanes n (fun j => term_sum (row_cos (start + j)) (zip ps cs)) (fun j => term_sum (row_sin (start + j)) (zip ps cs)) st.
Proof.
  intros Hpos Hb. unfold OpNormTable.accumulate_transposed_chunk, OpNormTable.accumulate_transposed_chunk_scalar, debug_assert.
  destruct (Z.leb_spec n FUSED_CHUNK_FREQS); [|lia]. destruct (Z.leb_spec (start + n) h); [|lia].
  cbn [negb]. rewrite !andb_false_r. cbn [obind]. generalize (zip ps cs) Hpos Hb. clear Hpos Hb ps cs. intros ts Hpos Hb.
  assert (Hgen : forall f g B st, 0 <= B -> (forall j, 0 <= j < n -> Z.abs (f j) <= B /\ Z.abs (g j) <= B) ->
    B + term_l1 ts * entry_max < 2 ^ 63 -> lanes n f g st ->
    exists st', ofold add_term ts st = Ok st' /\
      lanes n (fun j => f j + term_sum (row_cos (start + j)) ts) (fun j => g j + term_sum (row_sin (start + j)) ts) st').
  { clear Hb. induction Hpos as [|[p c] ts Hp _ IH]; intros f g B st HB Hfg Hb Hst; cbn [ofold term_sum term_l1 fst] in *.
    - exists st. split; [done|]. destruct Hst as (A1 & A2 & A3). do 2 (split; [done|]). intros j Hj.
      rewrite !Z.add_0_r. by apply A3.
    - pose proof (term_l1_nonneg ts). pose proof entry_max_pos.
      destruct (term_step p c f g B st Hp Hfg HB ltac:(nia) Hst) as (st1 & -> & Hst1). cbn [obind].
      destruct (IH (fun j => f j + c * row_cos (start + j) p) (fun j => g j + c * row_sin (start + j) p)
        (B + Z.abs c * entry_max) st1) as (st' & -> & Hl); [nia| | |exact Hst1|].
      + intros j Hj. destruct (Hfg j Hj). destruct (row_entry p (start + j) Hp ltac:(lia)) as (_ & _ & _ & _ & Bc & Bs).
        assert (Z.abs (c * row_cos (start + j) p) <= Z.abs c * entry_max) by (rewrite Z.abs_mul; nia).
        assert (Z.abs (c * row_sin (start + j) p) <= Z.abs c * entry_max) by (rewrite Z.abs_mul; nia). lia.
      + nia.
      + exists st'. split; [done|]. destruct Hl as (A1 & A2 & A3). do 2 (split; [done|]). intros j Hj.
        destruct (A3 j Hj) as [-> ->]. by rewrite !Z.add_assoc. }
  destruct (Hgen (fun _ => 0) (fun _ => 0) 0
    (replicate (Z.to_nat FUSED_CHUNK_FREQS) 0, replicate (Z.to_nat FUSED_CHUNK_FREQS) 0)) as (st & He & Hl);
    [lia|by intros| lia| |].
  - do 2 (split; [done|]). intros j Hj. unfold FUSED_CHUNK_FREQS in *. cbn [fst snd].
    assert (Hi : index (replicate (Z.to_nat 4) 0) j = Some 0); [|done].
    unfold index. destruct (Z.leb_spec 0 j); [|lia]. apply lookup_replicate. split; [done|lia].
  - exists st. split; [exact He|]. exact Hl.
Qed.
End accumulate.

(** * The decision *)

(** The headroom of the scan: the accumulators, the radius and the threshold
    fit their widths. *)
Definition headroom (T : OpNormTable) : Prop :=
  0 <= max_l1 T /\ max_l1 T * (2 ^ table_q T + 2 * eps_root T) < 2 ^ 63 /\
  0 <= max_t T /\ max_t T * max_t T * 2 ^ (2 * table_q T) < 2 ^ 127.

(** A challenge the predicate takes. *)
Definition valid_terms (T : OpNormTable) (ps cs : list Z) : Prop :=
  len ps = len cs /\ Forall (fun t => 0 <= fst t < table_d T) (zip ps cs) /\ term_l1 (zip ps cs) <= max_l1 T.

(** The squared enclosure of a value of accumulators [re], [im] and radius [r]. *)
Definition upper_sq (re im r : Z) : Z := (Z.abs re + r) * (Z.abs re + r) + (Z.abs im + r) * (Z.abs im + r).
Definition lower_sq (re im r : Z) : Z :=
  Z.max (Z.abs re - r) 0 * Z.max (Z.abs re - r) 0 + Z.max (Z.abs im - r) 0 * Z.max (Z.abs im - r) 0.

Lemma lower_upper re im r : 0 <= r -> lower_sq re im r <= upper_sq re im r.
Proof.
  intros Hr. unfold lower_sq, upper_sq. apply Z.add_le_mono; apply Z.mul_le_mono_nonneg; lia.
Qed.

Section frequency.
Context `{BuildMode}.
Variables re im r thr : Z.
Hypothesis r_nonneg : 0 <= r.
Hypothesis re_room : Z.abs re + r < 2 ^ 63.
Hypothesis im_room : Z.abs im + r < 2 ^ 63.

Lemma accepts_upper_spec :
  OpNormTable.frequency_accepts_upper (Z.abs re) (Z.abs im) re im (2 * r) (2 * r * r) thr
    = Ok (upper_sq re im r <=? thr).
Proof.
  assert (B1 : re * re <= (Z.abs re) * (Z.abs re)) by nia. assert (B2 : im * im <= (Z.abs im) * (Z.abs im)) by nia.
  assert (U : upper_sq re im r = re * re + im * im + 2 * r * (Z.abs re + Z.abs im) + 2 * r * r).
  { unfold upper_sq. rewrite <-(Z.abs_square re), <-(Z.abs_square im). ring. }
  assert (UB : upper_sq re im r < 2 ^ 127).
  { unfold upper_sq. assert ((Z.abs re + r) * (Z.abs re + r) < 2 ^ 63 * 2 ^ 63) by nia.
    assert ((Z.abs im + r) * (Z.abs im + r) < 2 ^ 63 * 2 ^ 63) by nia. lia. }
  assert (0 <= re * re) by nia. assert (0 <= im * im) by nia.
  assert (0 <= 2 * r * (Z.abs re + Z.abs im)) by nia. assert (0 <= 2 * r * r) by nia.
  unfold OpNormTable.frequency_accepts_upper. repeat (rewrite i128_Ok by lia; cbn [obind]).
  by rewrite U.
Qed.

Lemma decide_frequency_spec :
  OpNormTable.decide_frequency (Z.abs re) (Z.abs im) re im r (2 * r) (2 * r * r) thr
    = Ok (thr <? lower_sq re im r).
Proof.
  unfold OpNormTable.decide_frequency. rewrite accepts_upper_spec. cbn [obind].
  pose proof (lower_upper re im r r_nonneg) as Hlu.
  destruct (Z.leb_spec (upper_sq re im r) thr); [by destruct (Z.ltb_spec thr (lower_sq re im r)); [lia|]|].
  set (x := Z.max (Z.abs re - r) 0) in *. set (y := Z.max (Z.abs im - r) 0) in *.
  assert (0 <= x < 2 ^ 63) by lia. assert (0 <= y < 2 ^ 63) by lia.
  assert (0 <= x * x <= (2 ^ 63 - 1) * (2 ^ 63 - 1)) by (split; [nia|apply Z.mul_le_mono_nonneg; lia]).
  assert (0 <= y * y <= (2 ^ 63 - 1) * (2 ^ 63 - 1)) by (split; [nia|apply Z.mul_le_mono_nonneg; lia]).
  do 2 (rewrite i128_Ok by lia; cbn [obind]). fold x y.
  repeat (rewrite i128_Ok by lia; cbn [obind]). done.
Qed.
End frequency.

(** ** The scan *)

Section scan.
Context `{BuildMode}.
Variable T : OpNormTable.
Hypothesis Ts : table_sound T.
Hypothesis Room : headroom T.
Variables ps cs : list Z.
Hypothesis Valid : valid_terms T ps cs.
Variable thr : Z.

Let h := half (table_d T).
Let ts := zip ps cs.
Let r := term_l1 ts * eps_root T.

(** The accumulators of frequency [k] and its squared bounds. *)
Definition acc_re (k : Z) : Z := term_sum (row_cos T k) ts.
Definition acc_im (k : Z) : Z := term_sum (row_sin T k) ts.
Definition upper (k : Z) : Z := upper_sq (acc_re k) (acc_im k) r.
Definition lower (k : Z) : Z := lower_sq (acc_re k) (acc_im k) r.

(** What a scan of the first [n] frequencies has seen. *)
Definition scanned (n : Z) (st : option bool) : Prop :=
  match st with
  | None => exists k, 0 <= k < h /\ thr < lower k
  | Some ind => (forall k, 0 <= k < n -> lower k <= thr) /\
      if ind : bool then exists k, 0 <= k < h /\ thr < upper k
      else forall k, 0 <= k < n -> upper k <= thr
  end.

Lemma radius_room : 0 <= r /\ term_l1 ts * entry_max T + r < 2 ^ 63.
Proof.
  destruct Room as (H1 & H2 & _). destruct Valid as (_ & _ & H3). pose proof (term_l1_nonneg ts).
  unfold r, entry_max. fold ts in H3. destruct Ts. assert (0 < 2 ^ table_q T) by lia. nia.
Qed.

Lemma acc_room k : 0 <= k < h -> Z.abs (acc_re k) + r < 2 ^ 63 /\ Z.abs (acc_im k) + r < 2 ^ 63.
Proof.
  intros Hk. destruct radius_room as [Hr Hb]. destruct Valid as (_ & Hpos & _). fold ts in Hpos.
  assert (Hre : Z.abs (acc_re k) <= term_l1 ts * entry_max T /\ Z.abs (acc_im k) <= term_l1 ts * entry_max T); [|lia].
  split; apply term_sum_bound; try (by apply entry_max_pos);
    (eapply list.Forall_impl; [exact Hpos|]; intros t Ht; cbn in Ht; by apply row_entry).
Qed.

Lemma decide_lane_spec start n st ind j : lanes n (fun j => acc_re (start + j)) (fun j => acc_im (start + j)) st ->
  0 <= start -> 0 <= j < n -> start + n <= h ->
  OpNormTable.decide_lane (fst st) (snd st) r (2 * r) (2 * r * r) thr ind j
    = Ok (if thr <? lower (start + j) then None else Some (if upper (start + j) <=? thr then ind else true)).
Proof.
  intros (_ & _ & Hl) Hs Hj Hn. destruct (Hl j Hj) as [I1 I2]. destruct radius_room as [Hr _].
  destruct (acc_room (start + j)) as [R1 R2]; [lia|]. unfold OpNormTable.decide_lane.
  rewrite I1, I2. cbn [unwrap obind]. rewrite decide_frequency_spec by done. cbn [obind].
  fold (lower (start + j)). destruct (Z.ltb_spec thr (lower (start + j))); [done|].
  rewrite accepts_upper_spec by done. done.
Qed.

Lemma scanned_none n m : scanned n None -> scanned m None.
Proof. done. Qed.

Lemma scanned_step n ind : 0 <= n < h -> scanned n (Some ind) ->
  scanned (n + 1) (if thr <? lower n then None else Some (if upper n <=? thr then ind else true)).
Proof.
  intros Hn (Hl & Hi). destruct (Z.ltb_spec thr (lower n)); [by exists n|].
  split; [intros k Hk; destruct (decide (k = n)) as [->|]; [done|apply Hl; lia]|].
  destruct (Z.leb_spec (upper n) thr); [|by exists n].
  destruct ind; [done|]. intros k Hk. destruct (decide (k = n)) as [->|]; [done|apply Hi; lia].
Qed.

Lemma decide_lanes_spec start n st ind : lanes n (fun j => acc_re (start + j)) (fun j => acc_im (start + j)) st ->
  0 <= start -> 0 <= n -> start + n <= h -> scanned start (Some ind) ->
  exists st', OpNormTable.decide_lanes (fst st) (snd st) r (2 * r) (2 * r * r) thr n ind = Ok st' /\
    scanned (start + n) st'.
Proof.
  intros Hl Hs Hn Hh Hi. unfold OpNormTable.decide_lanes.
  apply (ofold_range (fun j st' => scanned (start + j) st')); [done|by rewrite Z.add_0_r|].
  intros j [ind'|] Hj Hsc; [|by eexists].
  rewrite (decide_lane_spec start n) by done. eexists. split; [done|].
  rewrite Z.add_assoc. apply scanned_step; [lia|done].
Qed.

(** What a decision tells of the bounds. *)
Definition verdict (v : Decision) : Prop :=
  match v with
  | Accept => forall k, 0 <= k < h -> upper k <= thr
  | Reject => exists k, 0 <= k < h /\ thr < lower k
  | Indeterminate => (forall k, 0 <= k < h -> lower k <= thr) /\ exists k, 0 <= k < h /\ thr < upper k
  end.

Lemma decide_loop_spec fuel start ind : 0 <= start <= h -> h - start <= Z.of_nat fuel -> scanned start (Some ind) ->
  exists v, OpNormTable.decide_loop fuel T ps cs r (2 * r) (2 * r * r) thr h start ind = Ok v /\ verdict v.
Proof.
  revert start ind; induction fuel as [|fuel IH]; intros start ind Hs Hf Hsc; cbn [OpNormTable.decide_loop];
    destruct (Z.ltb_spec start h); try lia.
  1, 3: (assert (start = h) as -> by lia; exists (if ind then Indeterminate else Accept); split; [done|];
    destruct Hsc as [Hl Hi]; destruct ind; cbn; done).
  set (n := Z.min (h - start) FUSED_CHUNK_FREQS). assert (Hn : 0 < n <= FUSED_CHUNK_FREQS /\ start + n <= h).
  { unfold n, FUSED_CHUNK_FREQS. lia. }
  destruct radius_room as [Hr Hb]. destruct Valid as (_ & Hpos & _).
  destruct (accumulate_lanes T Ts start n ltac:(lia) ltac:(fold h; lia) ps cs Hpos) as ([re im] & He & Hl); [fold ts; lia|].
  fold h in He. rewrite He. cbn [obind].
  destruct (decide_lanes_spec start n (re, im) ind Hl ltac:(lia) ltac:(lia) ltac:(lia) Hsc) as (st' & Hst & Hsc').
  cbn [fst snd] in Hst. rewrite Hst. cbn [obind]. destruct st' as [ind'|]; [|by exists Reject].
  apply IH; [lia..|done].
Qed.

Lemma decide_fused_spec : exists v,
  OpNormTable.decide_transposed_fused T ps cs r (2 * r) (2 * r * r) thr = Ok v /\ verdict v.
Proof.
  unfold OpNormTable.decide_transposed_fused. fold (half (table_d T)). fold h.
  assert (0 <= h) by (unfold h; destruct (dims T Ts); lia).
  apply decide_loop_spec; [lia|lia|]. split; [intros k; lia|]. intros k; lia.
Qed.
End scan.

Lemma shiftl_threshold t q : 0 <= q -> 0 <= t -> t * t * 2 ^ (2 * q) < 2 ^ 127 ->
  swrap 128 (Z.shiftl (t * t) (2 * q)) = t * t * 2 ^ (2 * q).
Proof. intros Hq Ht Hb. rewrite Z.shiftl_mul_pow2 by lia. apply swrap_id; [lia|]. assert (0 < 2 ^ (2 * q)) by lia. split; nia. Qed.

Lemma l1_fold `{BuildMode} d ts acc : Forall (fun t => 0 <= fst t < d) ts -> 0 <= acc -> acc + term_l1 ts < 2 ^ 127 ->
  ofold (fun l1 '(pos, coeff) =>
           if d <=? pos
           then Err (InvalidInput "operator-norm predicate: position out of range")
           else i128 (l1 + Z.abs coeff)) ts acc = Ok (acc + term_l1 ts).
Proof.
  intros Hp. revert acc; induction Hp as [|[p c] ts Hp _ IH]; intros acc Ha Hb; cbn [ofold term_l1 fst] in *; [f_equal; lia|].
  pose proof (term_l1_nonneg ts). destruct (Z.leb_spec d p); [lia|]. rewrite i128_Ok by lia. cbn [obind].
  rewrite IH by lia. f_equal. lia.
Qed.

(** Inside the headroom the predicate decides every valid challenge. *)
Lemma decide_parts_spec `{BuildMode} T ps cs t : table_sound T -> headroom T -> valid_terms T ps cs -> 0 <= t <= max_t T ->
  exists v, OpNormTable.decide_parts T ps cs t = Ok v /\ verdict T ps cs (t * t * 2 ^ (2 * table_q T)) v.
Proof.
  intros Ts Room Valid Ht. pose proof (radius_room T Ts Room ps cs Valid) as [Hr Hb].
  pose proof Room as (M1 & M2 & M3 & M4). pose proof Valid as (Hl & Hpos & Hle). pose proof (ts_q T Ts) as Hq.
  pose proof (ts_eps T Ts) as Heps. unfold OpNormTable.decide_parts. rewrite Hl, Z.eqb_refl. cbn [negb].
  assert (0 < 2 ^ table_q T) by lia. assert (max_l1 T < 2 ^ 63) by nia.
  rewrite l1_fold by (done || lia). cbn [obind]. rewrite Z.add_0_l.
  destruct (Z.ltb_spec (max_l1 T) (term_l1 (zip ps cs))); [lia|]. destruct (Z.ltb_spec (max_t T) t); [lia|].
  assert (0 < 2 ^ (2 * table_q T)) by lia. assert (t * t <= max_t T * max_t T) by nia.
  assert (t * t * 2 ^ (2 * table_q T) < 2 ^ 127) by nia. assert (t * t < 2 ^ 127) by nia.
  pose proof (entry_max_pos T Ts). pose proof (term_l1_nonneg (zip ps cs)).
  assert (0 <= term_l1 (zip ps cs) * entry_max T) by nia.
  set (r := term_l1 (zip ps cs) * eps_root T) in *.
  assert (2 * r * r < 2 ^ 127) by nia.
  repeat (rewrite i128_Ok by nia; cbn [obind]). rewrite shiftl_threshold by lia.
  by apply decide_fused_spec.
Qed.

(** * The spectrum of a challenge *)

(** The dense coefficient of index [j]. *)
Fixpoint coeff_at (ts : list (Z * Z)) (j : Z) : Z :=
  match ts with [] => 0 | (p, c) :: ts => (if p =? j then c else 0) + coeff_at ts j end.
Definition dense (ts : list (Z * Z)) (j : nat) : R := IZR (coeff_at ts (Z.of_nat j)).

(** A sum over the terms, in the reals. *)
Fixpoint real_sum (g : Z -> R) (ts : list (Z * Z)) : R :=
  match ts with [] => 0%R | (p, c) :: ts => (IZR c * g p + real_sum g ts)%R end.

Lemma dense_sum D ts (g : Z -> R) : Forall (fun t => 0 <= fst t < Z.of_nat D) ts ->
  rsum D (fun j => dense ts j * g (Z.of_nat j))%R = real_sum g ts.
Proof.
  induction 1 as [|[p c] ts Hp _ IH]; cbn [real_sum fst] in *.
  - rewrite (rsum_ext D _ (fun _ => 0%R)); [apply rsum_zero|]. intros j _. unfold dense. cbn. lra.
  - rewrite <-IH. rewrite (rsum_ext D _ (fun j => (if decide (p = Z.of_nat j) then IZR c else 0) * g (Z.of_nat j)
      + dense ts j * g (Z.of_nat j))%R).
    + rewrite rsum_plus. f_equal. rewrite (rsum_single D _ (Z.to_nat p)).
      * rewrite Z2Nat.id by lia. by rewrite decide_True.
      * lia.
      * intros i _ Hi. rewrite decide_False by lia. lra.
    + intros j _. unfold dense. cbn [coeff_at]. rewrite plus_IZR. case_decide as Hd; destruct (Z.eqb_spec p (Z.of_nat j)); try done; lra.
Qed.

Lemma term_sum_close q eps (f : Z -> Z) (g : Z -> R) ts :
  Forall (fun t => approximates q (f (fst t)) eps (g (fst t))) ts ->
  (Rabs (IZR (term_sum f ts) - real_sum g ts * IZR (2 ^ q)) <= IZR (term_l1 ts * eps))%R.
Proof.
  induction 1 as [|[p c] ts Hp _ IH]; cbn [term_sum real_sum term_l1 fst] in *.
  - rewrite Rmult_0_l, Rminus_0_r, Rabs_R0. apply Rle_refl.
  - rewrite Z.mul_add_distr_r, !plus_IZR, mult_IZR. unfold approximates in Hp.
    replace (_ - _)%R with (IZR c * (IZR (f p) - g p * IZR (2 ^ q)) + (IZR (term_sum f ts) - real_sum g ts * IZR (2 ^ q)))%R by ring.
    eapply Rle_trans; [apply Rabs_triang|]. apply Rplus_le_compat; [|done].
    rewrite Rabs_mult, mult_IZR, abs_IZR. apply Rmult_le_compat_l; [apply Rabs_pos|done].
Qed.

(** ** Squared bounds *)

Section squares.
Variables re im r : Z.
Variables x y : R.
Hypothesis r_nonneg : 0 <= r.
Hypothesis close_re : (Rabs (IZR re - x) <= IZR r)%R.
Hypothesis close_im : (Rabs (IZR im - y) <= IZR r)%R.

Lemma abs_window (a : Z) (z : R) : (Rabs (IZR a - z) <= IZR r -> Rabs z <= IZR (Z.abs a) + IZR r /\ IZR (Z.abs a) <= Rabs z + IZR r)%R.
Proof. intros Ha. rewrite abs_IZR. revert Ha. unfold Rabs. repeat destruct (Rcase_abs _); lra. Qed.

Lemma sq_abs (z : R) : (z * z = Rabs z * Rabs z)%R.
Proof. unfold Rabs. destruct (Rcase_abs z); ring. Qed.

Lemma below_upper : (x * x + y * y <= IZR (upper_sq re im r))%R.
Proof.
  destruct (abs_window re x close_re) as [X _]. destruct (abs_window im y close_im) as [Y _].
  unfold upper_sq. rewrite plus_IZR, !mult_IZR, !plus_IZR, (sq_abs x), (sq_abs y).
  pose proof (Rabs_pos x). pose proof (Rabs_pos y). apply Rplus_le_compat; apply Rmult_le_compat; lra.
Qed.

Lemma above_lower : (IZR (lower_sq re im r) <= x * x + y * y)%R.
Proof.
  assert (Hw : forall a z, (Rabs (IZR a - z) <= IZR r)%R -> (0 <= IZR (Z.max (Z.abs a - r) 0) <= Rabs z)%R).
  { intros a z Ha. destruct (abs_window a z Ha) as [_ Hz]. split; [apply IZR_le; lia|].
    destruct (Z.max_spec (Z.abs a - r) 0) as [[_ ->]|[_ ->]]; [apply Rabs_pos|]. rewrite minus_IZR. lra. }
  destruct (Hw re x close_re), (Hw im y close_im).
  unfold lower_sq. rewrite plus_IZR, !mult_IZR, (sq_abs x), (sq_abs y). apply Rplus_le_compat; apply Rmult_le_compat; lra.
Qed.

(** The upper bound of a value of modulus at most [B] is at most [(B + m)^2]
    when [8 r^2 <= m^2]. *)
Lemma upper_slack (B m : R) : (0 <= B)%R -> (0 <= m)%R -> (x * x + y * y <= B * B)%R ->
  (8 * IZR r * IZR r <= m * m)%R -> (IZR (upper_sq re im r) <= (B + m) * (B + m))%R.
Proof.
  intros HB Hm Hxy Hr. destruct (abs_window re x close_re) as [_ X]. destruct (abs_window im y close_im) as [_ Y].
  apply IZR_le in r_nonneg as R0. rewrite (sq_abs x), (sq_abs y) in Hxy.
  set (a := Rabs x) in *. set (b := Rabs y) in *. set (s := IZR r) in *.
  assert (Ha : (0 <= a)%R) by apply Rabs_pos. assert (Hb : (0 <= b)%R) by apply Rabs_pos.
  assert (Hu : (IZR (upper_sq re im r) <= (a + 2 * s) * (a + 2 * s) + (b + 2 * s) * (b + 2 * s))%R).
  { unfold upper_sq. rewrite plus_IZR, !mult_IZR, !plus_IZR. fold s.
    apply IZR_le in r_nonneg as Q. assert (0 <= IZR (Z.abs re))%R by (apply IZR_le; lia).
    assert (0 <= IZR (Z.abs im))%R by (apply IZR_le; lia). apply Rplus_le_compat; apply Rmult_le_compat; lra. }
  assert (Hsq : ((4 * s * (a + b)) * (4 * s * (a + b)) <= (2 * B * m) * (2 * B * m))%R).
  { assert (((a + b) * (a + b) <= 2 * (B * B))%R) by (pose proof (Rle_0_sqr (a - b)) as Hab; unfold Rsqr in Hab; lra). assert (0 <= s * s)%R by (apply Rle_0_sqr). assert (0 <= B * B)%R by (apply Rle_0_sqr).
    replace (4 * s * (a + b) * (4 * s * (a + b)))%R with (16 * (s * s) * ((a + b) * (a + b)))%R by ring.
    replace (2 * B * m * (2 * B * m))%R with (4 * (B * B) * (m * m))%R by ring.
    apply Rle_trans with (16 * (s * s) * (2 * (B * B)))%R; [apply Rmult_le_compat_l; lra|].
    apply Rle_trans with (4 * (B * B) * (8 * (s * s)))%R; [lra|apply Rmult_le_compat_l; lra]. }
  assert ((4 * s * (a + b) <= 2 * B * m)%R) by (apply Rsqr_incr_0_var; [exact Hsq|nra]). nra.
Qed.
End squares.

(** * The predicate over the reals *)

Section link.
Variable T : OpNormTable.
Hypothesis Ts : table_sound T.
Variable ts : list (Z * Z).
Hypothesis Pos : Forall (fun t => 0 <= fst t < table_d T) ts.

Let D := Z.to_nat (table_d T).
Let S : R := IZR (2 ^ table_q T).

Lemma D_pos : (0 < D)%nat.
Proof. unfold D. destruct Ts. lia. Qed.

Lemma D_even : Nat.Even D /\ Z.of_nat (D / 2) = half (table_d T).
Proof.
  destruct (dims T Ts) as (Hd & Hh & _). assert (HD : D = (2 * Z.to_nat (half (table_d T)))%nat) by (unfold D; lia).
  split; [by exists (Z.to_nat (half (table_d T)))|]. rewrite HD, Nat.mul_comm, Nat.div_mul by lia. lia.
Qed.

Lemma theta_angle j k : (INR j * theta D k = angle (table_d T) ((2 * Z.of_nat k + 1) * Z.of_nat j))%R.
Proof.
  unfold theta, angle. rewrite mult_IZR, plus_IZR, mult_IZR, !INR_IZR_INZ.
  replace (Z.of_nat D) with (table_d T) by (unfold D; destruct Ts; lia).
  field. apply not_0_IZR. destruct Ts. lia.
Qed.

(** Multiplying by the scale turns a spectral sum into a sum over the terms. *)
Lemma spec_close k (Hk : Z.of_nat k < half (table_d T)) :
  (Rabs (IZR (term_sum (row_cos T (Z.of_nat k)) ts) - spec_re D (dense ts) k * S) <= IZR (term_l1 ts * eps_root T))%R /\
  (Rabs (IZR (term_sum (row_sin T (Z.of_nat k)) ts) - spec_im D (dense ts) k * S) <= IZR (term_l1 ts * eps_root T))%R.
Proof.
  assert (HD : Z.of_nat D = table_d T) by (unfold D; destruct Ts; lia).
  assert (He : spec_re D (dense ts) k = real_sum (fun p => cos (angle (table_d T) ((2 * Z.of_nat k + 1) * p))) ts /\
    spec_im D (dense ts) k = real_sum (fun p => sin (angle (table_d T) ((2 * Z.of_nat k + 1) * p))) ts).
  { rewrite <-!(dense_sum D) by (by rewrite HD). split; apply rsum_ext; intros j _; by rewrite theta_angle. }
  destruct He as [-> ->]. split; apply term_sum_close; (eapply list.Forall_impl; [exact Pos|]);
    intros t Ht; cbn in Ht; destruct (row_entry T Ts (fst t) (Z.of_nat k) Ht ltac:(lia)) as (_ & _ & A & B & _); done.
Qed.

(** The bounds of frequency [k] enclose its scaled square. *)
Lemma bounds_enclose k : Z.of_nat k < half (table_d T) ->
  let r := term_l1 ts * eps_root T in
  let re := term_sum (row_cos T (Z.of_nat k)) ts in
  let im := term_sum (row_sin T (Z.of_nat k)) ts in
  (IZR (lower_sq re im r) <= spec_sq D (dense ts) k * (S * S) <= IZR (upper_sq re im r))%R.
Proof.
  intros Hk r re im. destruct (spec_close k Hk) as [C1 C2].
  replace (spec_sq D (dense ts) k * (S * S))%R
    with (spec_re D (dense ts) k * S * (spec_re D (dense ts) k * S) + spec_im D (dense ts) k * S * (spec_im D (dense ts) k * S))%R
    by (unfold spec_sq; ring).
  split; [by apply above_lower|by apply below_upper].
Qed.

Lemma S_pos : (0 < S)%R.
Proof. apply IZR_lt. destruct Ts. lia. Qed.

Lemma threshold_real t : IZR (t * t * 2 ^ (2 * table_q T)) = (IZR t * IZR t * (S * S))%R.
Proof. unfold S. destruct Ts. rewrite <-!mult_IZR. f_equal. rewrite <-Z.pow_add_r by lia. f_equal. f_equal. lia. Qed.

(** A verdict in terms of the operator norm. *)
Definition norm_verdict (d : Z) (c : nat -> R) (t : R) (v : Decision) : Prop :=
  match v with
  | Accept => op_norm_le (Z.to_nat d) c t
  | Reject => ~ op_norm_le (Z.to_nat d) c t
  | Indeterminate => True
  end.
End link.

Lemma verdict_norm T ps cs t v : table_sound T -> Forall (fun t => 0 <= fst t < table_d T) (zip ps cs) ->
  verdict T ps cs (t * t * 2 ^ (2 * table_q T)) v -> norm_verdict (table_d T) (dense (zip ps cs)) (IZR t) v.
Proof.
  intros Ts Pos Hv. destruct (D_even T Ts) as [He Hh]. pose proof (S_pos T Ts) as HS.
  assert (HSS : (0 < IZR (2 ^ table_q T) * IZR (2 ^ table_q T))%R) by nra.
  destruct v; cbn [norm_verdict verdict] in *; [| |done].
  - apply half_spectrum; [by apply D_pos|done|]. intros k Hk.
    destruct (bounds_enclose T Ts _ Pos k ltac:(lia)) as [_ Hu]. specialize (Hv (Z.of_nat k) ltac:(lia)).
    apply IZR_le in Hv. rewrite threshold_real in Hv by done. unfold upper, acc_re, acc_im in Hv.
    apply Rmult_le_reg_r with (1 := HSS). lra.
  - intros Hn. destruct Hv as (k & Hk & Hv). apply half_spectrum with (k := Z.to_nat k) in Hn; [|by apply D_pos|done|lia].
    destruct (bounds_enclose T Ts _ Pos (Z.to_nat k) ltac:(lia)) as [Hl _]. rewrite Z2Nat.id in Hl by lia.
    apply IZR_lt in Hv. rewrite threshold_real in Hv by done. unfold lower, acc_re, acc_im in Hv.
    apply Rmult_le_compat_r with (r := (IZR (2 ^ table_q T) * IZR (2 ^ table_q T))%R) in Hn; lra.
Qed.

(** C10: inside the headroom of a constructed table the integer predicate
    decides every valid challenge without overflow, [Accept] certifies that the
    operator norm of multiplication by the challenge modulo [X^d + 1] is at most
    the threshold, and [Reject] that it exceeds it. *)
Theorem decide_parts_certifies `{BuildMode} d q max_l1 max_t T ps cs t :
  d <= 2 ^ 31 -> OpNormTable.new d q max_l1 max_t = Ok T -> headroom T ->
  valid_terms T ps cs -> 0 <= t <= max_t ->
  exists v, OpNormTable.decide_parts T ps cs t = Ok v /\
    norm_verdict d (dense (zip ps cs)) (IZR t) v.
Proof.
  intros Hd Hn Room Valid Ht. destruct (new_sound d q max_l1 max_t T Hd Hn) as (Ts & <- & _ & _ & <-).
  destruct (decide_parts_spec T ps cs t Ts Room Valid Ht) as (v & Hv & Hs). exists v. split; [done|].
  apply verdict_norm; [done|by destruct Valid as (_ & ? & _)|done].
Qed.

Definition small_table : OpNormTable :=
  match OpNormTable.new (H := true) 4 10 8 8 with Ok T => T
  | _ => {| table_d := 0; table_q := 0; eps_root := 0; max_l1 := 0; max_t := 0; freq_cos_at := []; freq_sin_at := [] |} end.

Lemma decide_parts_certifies_witness :
  let B : BuildMode := true in
  OpNormTable.decide_parts small_table [0; 1] [1; 1] 2 = Ok Accept /\
  OpNormTable.decide_parts small_table [0; 1] [1; 1] 1 = Ok Reject /\
  exists v, OpNormTable.decide_parts small_table [0; 1] [1; 1] 2 = Ok v /\
    norm_verdict 4 (dense (zip [0; 1] [1; 1])) (IZR 2) v.
Proof.
  split; [vm_compute; reflexivity|]. split; [vm_compute; reflexivity|].
  apply (decide_parts_certifies (H := true) 4 10 8 8 small_table).
  - lia.
  - vm_compute. reflexivity.
  - unfold headroom. vm_compute. repeat split; discriminate.
  - unfold valid_terms. split; [reflexivity|]. split; [|vm_compute; discriminate].
    repeat constructor; cbn; lia.
  - lia.
Defined.

(** What the configuration check establishes. *)
Lemma subset_check_inv T bits units margin t : 1 <= table_q T <= 56 -> 0 <= t < 2 ^ 64 -> 0 <= margin ->
  OpNormTable.strict_threshold_contains_shrunken_subset T bits units t margin = true ->
  table_q T = bits /\ eps_root T <= units /\ t <= max_t T /\ 0 < margin < t * 2 ^ table_q T /\
  8 * (max_l1 T * units) * (max_l1 T * units) < margin * margin.
Proof.
  intros Hq Ht Hm. unfold OpNormTable.strict_threshold_contains_shrunken_subset.
  destruct (negb _ || _ || _) eqn:G; [done|]. bool_prop. unfold checked_i128 at 1. case_match; [|done].
  assert (0 < 2 ^ table_q T <= 2 ^ 56) by (split; [lia|apply Z.pow_le_mono_r; lia]).
  unfold checked_shl. replace ((0 <=? table_q T) && (table_q T <? 128)) with true by (symmetry; apply andb_true_iff; lia).
  rewrite Z.shiftl_mul_pow2 by lia. rewrite swrap_id by (lia || split; nia).
  destruct ((margin =? 0) || _) eqn:G2; [done|]. bool_prop. unfold bind_option, checked_i128.
  repeat (case_match; try done). intros Hlt. bool_prop. repeat split; try lia.
  repeat match goal with E : Some _ = Some _ |- _ => injection E as <- end. lia.
Qed.

(** When the radius leaves room in the margin, no frequency of the certified
    subset is above the threshold. *)
Lemma subset_upper T ps cs t margin k : table_sound T -> valid_terms T ps cs ->
  Forall (fun t => 0 <= fst t < table_d T) (zip ps cs) ->
  0 < margin < t * 2 ^ table_q T ->
  8 * (max_l1 T * eps_root T) * (max_l1 T * eps_root T) < margin * margin ->
  op_norm_le (Z.to_nat (table_d T)) (dense (zip ps cs)) (IZR t - IZR margin / IZR (2 ^ table_q T)) ->
  0 <= k < half (table_d T) -> upper T ps cs k <= t * t * 2 ^ (2 * table_q T).
Proof.
  intros Ts (_ & _ & Hl1) Pos Hm H8 Hn Hk. destruct (D_even T Ts) as [He Hh]. pose proof (S_pos T Ts) as HS.
  assert (Hspec := norm_bounds_spec _ (D_pos T Ts) _ _ (Z.to_nat k) Hn). set (S := IZR (2 ^ table_q T)) in *.
  destruct (spec_close T Ts _ Pos (Z.to_nat k) ltac:(lia)) as [C1 C2]. rewrite Z2Nat.id in C1, C2 by lia. fold S in C1, C2.
  apply le_IZR. rewrite threshold_real by done. fold S. unfold upper, acc_re, acc_im.
  pose proof (term_l1_nonneg (zip ps cs)). pose proof (ts_eps T Ts).
  destruct Hm as [M1 M2]. apply IZR_lt in M1 as R1. apply IZR_lt in M2. rewrite mult_IZR in M2. fold S in M2.
  replace (IZR t * IZR t * (S * S))%R with ((IZR t * S - IZR margin + IZR margin) * (IZR t * S - IZR margin + IZR margin))%R by ring.
  eapply upper_slack; try eassumption; try lra; [nia| |].
  - apply Rmult_le_compat_r with (r := (S * S)%R) in Hspec; [|nra]. unfold spec_sq in Hspec.
    replace ((IZR t - IZR margin / S) * (IZR t - IZR margin / S) * (S * S))%R
      with ((IZR t * S - IZR margin) * (IZR t * S - IZR margin))%R in Hspec by (field; lra). lra.
  - rewrite <-!mult_IZR. apply IZR_le. assert (Hr : 0 <= term_l1 (zip ps cs) * eps_root T <= max_l1 T * eps_root T) by nia.
    apply Z.le_trans with (8 * (max_l1 T * eps_root T) * (max_l1 T * eps_root T)); [|lia].
    apply Z.mul_le_mono_nonneg; nia.
Qed.

(** C11: when the configuration check passes, the certified subset is contained
    in the accepted set, inside the headroom of the scan.  For a constructed
    table of dimension at most [2^31] whose accumulators, radius and threshold
    fit their widths ([headroom]), a threshold below [2^64] and nonnegative
    budgets, every valid challenge (positions in range, [l1] norm at most
    [max_l1]) whose operator norm is at most the threshold less the rounding
    margin is accepted.  The construction does not imply the headroom:
    [threshold_wraps] below. *)
Theorem shrunken_subset_accepted `{BuildMode} d q max_l1 max_t T bits units margin ps cs t :
  d <= 2 ^ 31 -> OpNormTable.new d q max_l1 max_t = Ok T -> headroom T -> valid_terms T ps cs -> 0 <= t < 2 ^ 64 ->
  0 <= units -> 0 <= margin ->
  OpNormTable.strict_threshold_contains_shrunken_subset T bits units t margin = true ->
  op_norm_le (Z.to_nat d) (dense (zip ps cs)) (IZR t - IZR margin / IZR (2 ^ bits)) ->
  OpNormTable.accept_strict_parts T ps cs t = Ok true.
Proof.
  intros Hd Hn Room Valid Ht Hu Hm Hc Hop. destruct (new_sound d q max_l1 max_t T Hd Hn) as (Ts & <- & _ & <- & _).
  destruct (subset_check_inv T bits units margin t (ts_q T Ts) Ht Hm Hc) as (<- & Heps & Hmt & Hmr & H8).
  destruct (decide_parts_spec T ps cs t Ts Room Valid ltac:(lia)) as (v & Hv & Hs).
  assert (Hup : forall k, 0 <= k < half (table_d T) -> upper T ps cs k <= t * t * 2 ^ (2 * table_q T)).
  { intros k Hk. eapply subset_upper; try eassumption; [by destruct Valid as (_ & ? & _)|].
    destruct Room as (Hml & _). pose proof (ts_eps T Ts) as He0.
    assert (Hle : 0 <= OpNorm.max_l1 T * eps_root T <= OpNorm.max_l1 T * units) by (split; [by apply Z.mul_nonneg_nonneg|by apply Z.mul_le_mono_nonneg_l]).
    eapply Z.le_lt_trans; [|exact H8]. revert Hle. generalize (OpNorm.max_l1 T * eps_root T) (OpNorm.max_l1 T * units).
    clear. intros a b Hle. nia. }
  unfold OpNormTable.accept_strict_parts. rewrite Hv. cbn [obind]. destruct v; [done| |]; exfalso.
  - destruct Hs as (k & Hk & Hlow). specialize (Hup k Hk). pose proof (radius_room T Ts Room ps cs Valid) as [Hr _].
    pose proof (lower_upper (acc_re T ps cs k) (acc_im T ps cs k) _ Hr). unfold lower, upper in *. lia.
  - destruct Hs as (_ & k & Hk & Habove). specialize (Hup k Hk). lia.
Qed.

Lemma shrunken_subset_accepted_witness :
  OpNormTable.accept_strict_parts (H := true) small_table [2] [1] 2 = Ok true.
Proof.
  apply (shrunken_subset_accepted (H := true) 4 10 8 8 small_table 10 4 100 [2] [1] 2).
  - lia.
  - vm_compute. reflexivity.
  - unfold headroom. vm_compute. repeat split; discriminate.
  - unfold valid_terms. split; [reflexivity|]. split; [|vm_compute; discriminate].
    repeat constructor; cbn; lia.
  - lia.
  - lia.
  - lia.
  - vm_compute. reflexivity.
  - intros u. cbv beta iota zeta delta [rsum negacyclic wrapped dense Z.to_nat Pos.to_nat Pos.iter_op Nat.leb Nat.sub Nat.add coeff_at zip zip_with Z.of_nat Z.eqb Z.add Z.pow Z.pow_pos Pos.iter Z.mul Pos.mul Pos.eqb Pos.of_succ_nat Pos.succ].
    generalize (u 0%nat) (u 1%nat) (u 2%nat) (u 3%nat). intros a b c e.
    pose proof (Rle_0_sqr a). pose proof (Rle_0_sqr b). pose proof (Rle_0_sqr c). pose proof (Rle_0_sqr e). unfold Rsqr in *. lra.
Defined.

(** The headroom hypothesis is not implied by the construction: the check of
    the threshold only validates the shift amount, so at scale 48 a threshold of
    [2^16] is accepted, wraps to zero, and the unit challenge is rejected. *)
Lemma threshold_wraps :
  exists T, OpNormTable.new (H := true) 4 48 1 65536 = Ok T /\
    OpNormTable.decide_parts (H := true) T [0] [1] 65536 = Ok Reject.
Proof.
  destruct (OpNormTable.new (H := true) 4 48 1 65536) as [T|e|] eqn:E; [|vm_compute in E; discriminate E..].
  exists T. split; [reflexivity|]. vm_compute in E. injection E as <-. vm_compute. reflexivity.
Qed.
