(* ===== verification/FoldNorm.v ===== *)
(** The operator norm of drawn fold challenges: the production policies of
    [akita-challenges/src/sampler/mod.rs] have the headroom the predicate needs,
    so a draw under rejection returns challenges whose multiplication stretches
    no ring element by more than the policy's threshold. *)

From Stdlib Require Import Reals.
From S2P Require Import Prelude Checked Field Serialization Transcript.
From S2P Require Import ChallengeConfig SparseChallenge Xof PositionSample OpNorm Sampler FoldDraw.
From S2P Require Import Spectrum TrigBounds OpNormSound.

(** The terms of a challenge. *)
Definition terms (ch : SparseChallenge) : list (Z * Z) := zip (positions ch) (coeffs ch).

(** Multiplication by the challenge modulo [X^d + 1] stretches by at most [t]. *)
Definition challenge_norm_le (d : Z) (ch : SparseChallenge) (t : R) : Prop :=
  op_norm_le (Z.to_nat d) (dense (terms ch)) t.

(** Coefficients of magnitude at most two. *)
Lemma term_l1_magnitudes ps cs : length ps = length cs -> Forall (fun x => Z.abs x <= 2) cs ->
  term_l1 (zip ps cs) = Z.of_nat (magnitudes 1 cs) + 2 * Z.of_nat (magnitudes 2 cs).
Proof.
  revert ps; induction cs as [|x cs IH]; intros [|p ps] Hl Hs; try done.
  apply list.Forall_cons in Hs as [Hx Hs]. cbn [zip zip_with term_l1]. rewrite !magnitudes_cons, IH by (done || cbn in Hl; lia).
  repeat case_decide; lia.
Qed.

Lemma family_terms T d cfg ch : in_challenge_family d cfg ch -> table_d T = d ->
  count_pm1 cfg + 2 * count_pm2 cfg <= max_l1 T -> valid_terms T (positions ch) (coeffs ch).
Proof.
  intros [[Hl Hp _ _] Hs H1 H2] <- Hb. split; [unfold len; by rewrite Hl|]. split.
  - apply list.Forall_forall. intros [p c] Hin. apply elem_of_zip_l in Hin.
    rewrite list.Forall_forall in Hp. by apply Hp.
  - rewrite term_l1_magnitudes by done. lia.
Qed.

Section policy.
Context `{BuildMode}.

Lemma table_init_spec d cfg r failed uncertified T : d <= 2 ^ 31 ->
  op_norm_table_init d cfg r failed uncertified = Ok T ->
  OpNormTable.new d OP_NORM_PREDICATE_SCALE (SparseChallengeConfig.l1_norm cfg) (threshold r) = Ok T /\
  table_d T = d /\ table_q T = OP_NORM_PREDICATE_SCALE /\
  max_l1 T = SparseChallengeConfig.l1_norm cfg /\ max_t T = threshold r /\
  OpNormTable.strict_threshold_contains_shrunken_subset T (fractional_bits r)
    (root_coordinate_error_units r) (threshold r) (rounding_margin_units r) = true.
Proof.
  intros Hd Hi. unfold op_norm_table_init in Hi. obind_inv Hi.
  destruct (OpNormTable.new _ _ _ _) as [T0|e|] eqn:E0; [|done..]. cbn [omap_err] in E. apply Ok_inj in E as ->.
  destruct (negb _) eqn:G; [done|]. apply Ok_inj in Hi as ->.
  destruct (new_sound d OP_NORM_PREDICATE_SCALE _ _ T Hd E0) as (_ & ? & ? & ? & ?).
  apply negb_false_iff in G. done.
Qed.

Lemma init_choice (b1 b2 : bool) (m1 m2 : outcome string OpNormTable) T :
  (if b1 then omap_err InvalidSetup m1 else if b2 then omap_err InvalidSetup m2
   else Err (InvalidSetup "unsupported operator-norm rejection policy")) = Ok T ->
  b1 = true /\ m1 = Ok T \/ b1 = false /\ b2 = true /\ m2 = Ok T.
Proof. destruct b1, b2, m1, m2; cbn; intros Hm; try done; apply Ok_inj in Hm as ->; auto. Qed.

(** A production policy has a certified table with headroom. *)
Lemma policy_table d cfg r pol : IndexedSamplingPolicy.new d cfg (Some r) = Ok pol ->
  exists T, pol = OperatorNorm (threshold r) T /\ d <= 2 ^ 31 /\ 0 <= threshold r < 2 ^ 64 /\
    OpNormTable.new d OP_NORM_PREDICATE_SCALE (SparseChallengeConfig.l1_norm cfg) (threshold r) = Ok T /\
    headroom T /\ table_d T = d /\ max_t T = threshold r /\ count_pm1 cfg + 2 * count_pm2 cfg <= max_l1 T.
Proof.
  unfold IndexedSamplingPolicy.new. intros Hn. obind_inv Hn. obind_inv Hn. apply Ok_inj in Hn as <-.
  apply init_choice in E0.
  destruct (OperatorNormRejection.validate r d cfg) eqn:Ev; [|done..].
  unfold OperatorNormRejection.validate in Ev. destruct (negb _) eqn:G; [done|]. clear Ev E. apply negb_false_iff in G.
  assert (Hcases : exists d0 cfg0 f u, op_norm_table_init d0 cfg0 r f u = Ok a0 /\
    ((d0 = 64 /\ cfg0 = D64_SELECTIVE_L2_CHALLENGE_CONFIG /\ r = OperatorNormRejection.D64_SELECTIVE_L2) \/
     (d0 = 128 /\ cfg0 = D128_SELECTIVE_L2_CHALLENGE_CONFIG /\ r = OperatorNormRejection.D128_SELECTIVE_L2)) /\
    d = d0 /\ cfg = cfg0).
  { destruct cfg as [c1 c2]. cbn [count_pm1 count_pm2] in *. destruct E0 as [[B E0]|(B & B' & E0)].
    - rewrite B in G. apply bool_decide_eq_true in B as ->. bool_prop. subst.
      unfold D64_SELECTIVE_L2_OP_NORM_TABLE in E0. eexists _, _, _, _. split; [exact E0|]. clear E0. split; [by left|done].
    - rewrite B, B' in G. apply bool_decide_eq_true in B' as ->. bool_prop. subst.
      unfold D128_SELECTIVE_L2_OP_NORM_TABLE in E0. eexists _, _, _, _. split; [exact E0|]. clear E0. split; [by right|done]. }
  destruct Hcases as (d0 & cfg0 & f & u & Hi & Hc & -> & ->). exists a0. split; [reflexivity|].
  assert (Hd : d0 <= 2 ^ 31) by (clear - Hc; destruct Hc as [(-> & _)|(-> & _)]; lia). split; [exact Hd|].
  destruct (table_init_spec d0 cfg0 r f u a0 Hd Hi) as (Hn & Td & Tq & Tl & Tt & Tc).
  destruct (new_sound _ _ _ _ a0 Hd Hn) as (Ts & _).
  assert (Ht : 0 <= threshold r < 2 ^ 64) by (clear - Hc; destruct Hc as [(_ & _ & ->)|(_ & _ & ->)]; cbn; lia). split; [exact Ht|].
  assert (Hm : 0 <= rounding_margin_units r) by (clear - Hc; destruct Hc as [(_ & _ & ->)|(_ & _ & ->)]; cbn; lia).
  destruct (subset_check_inv a0 _ _ _ _ (ts_q _ Ts) Ht Hm Tc) as (_ & Heps & _). pose proof (ts_eps _ Ts) as He0.
  split; [exact Hn|]. clear Hn Hi Tc. unfold headroom. rewrite Tl, Tt, Tq.
  clear - Hc Heps He0 Td. destruct Hc as [(-> & -> & ->)|(-> & -> & ->)].
  - change (SparseChallengeConfig.l1_norm D64_SELECTIVE_L2_CHALLENGE_CONFIG) with 53. cbn in Heps |- *. 
    unfold OP_NORM_PREDICATE_SCALE, D64_L2_OP_NORM_PM1_COUNT, D64_L2_OP_NORM_PM2_COUNT, D128_L2_OP_NORM_PM1_COUNT, D128_L2_OP_NORM_PM2_COUNT.
    repeat split; lia.
  - change (SparseChallengeConfig.l1_norm D128_SELECTIVE_L2_CHALLENGE_CONFIG) with 31. cbn in Heps |- *. 
    unfold OP_NORM_PREDICATE_SCALE, D64_L2_OP_NORM_PM1_COUNT, D64_L2_OP_NORM_PM2_COUNT, D128_L2_OP_NORM_PM1_COUNT, D128_L2_OP_NORM_PM2_COUNT.
    repeat split; lia.
Qed.

(** Acceptance bounds the norm, and the certified subset is accepted. *)
Lemma policy_norm d cfg r pol ch : IndexedSamplingPolicy.new d cfg (Some r) = Ok pol ->
  in_challenge_family d cfg ch -> policy_accepts pol ch -> challenge_norm_le d ch (IZR (threshold r)).
Proof.
  intros Hp Hf Ha. destruct (policy_table d cfg r pol Hp) as (T & -> & Hd & Ht & Hn & Room & Td & Tt & Tl).
  destruct (new_sound _ _ _ _ T Hd Hn) as (Ts & _). pose proof (family_terms T d cfg ch Hf Td Tl) as Hv.
  destruct (decide_parts_spec T _ _ (threshold r) Ts Room Hv ltac:(lia)) as (v & Hdec & Hver).
  cbn [policy_accepts] in Ha. unfold OpNormTable.accept_strict_parts in Ha. rewrite Hdec in Ha. cbn [obind] in Ha.
  apply Ok_inj, bool_decide_eq_true in Ha as ->. rewrite <-Td.
  apply (verdict_norm T _ _ _ Accept Ts); [by destruct Hv as (_ & ? & _)|done].
Qed.
End policy.

(** * The draw *)

Section draw.
Context `{KeccakLaws, Allocator, BuildMode, CargoFeatures, ThreadPool}.
Context {D : Type} `{FoldDraw D}.
Variable fuel : nat.

(** C9: a draw that succeeds absorbed exactly the request's payload, squeezed
    one seed, and returns one challenge per live block and claim in
    claim-major layout; each is well formed, has exactly the configured numbers
    of coefficients of magnitude 1 and 2 and no other, and passes validation.
    Under rejection multiplication by each of them in [R[X]/(X^d + 1)] has
    operator norm at most the policy's threshold. *)
Theorem fold_draw_certified (self : D) q cs self' :
  (forall k, reserve_exact k = true) -> request_typed q ->
  (forall payload seed s, absorb_and_squeeze self labels.ABSORB_SPARSE_CHALLENGE payload = Ok (seed, s) ->
     len seed = GROUP_ROOT_LEN /\ Forall is_byte seed) ->
  req_blocks q * req_claims q * SparseChallengeConfig.weight (req_cfg q) < 2 ^ 64 ->
  draw fuel self q = Ok (cs, self') ->
  exists payload seed,
    request_payload q = Ok payload /\
    absorb_and_squeeze self labels.ABSORB_SPARSE_CHALLENGE payload = Ok (seed, self') /\
    laid_out cs /\ num_live_blocks_per_claim cs = req_blocks q /\ num_claims cs = req_claims q /\
    0 < len (challenges cs) /\
    Forall (fun ch =>
      in_challenge_family (req_ring_d q) (req_cfg q) ch /\
      SparseChallenge.validate_dyn (req_ring_d q) ch = Ok tt /\
      forall r, req_rejection q = Some r -> challenge_norm_le (req_ring_d q) ch (IZR (threshold r)))
      (challenges cs).
Proof.
  intros Hg Ht Hs Hw Hd.
  destruct (fold_draw_spec fuel self q cs self' Hg Ht Hs Hw Hd)
    as (payload & seed & pol & P1 & P2 & Hpol & P3 & P4 & P5 & P6 & Hf).
  exists payload, seed. do 6 (split; [done|]). eapply list.Forall_impl; [exact Hf|].
  intros ch (Hfam & Hval & Hacc). split; [done|]. split; [done|]. intros r Hr. rewrite Hr in Hpol.
  by eapply policy_norm.
Qed.
End draw.

(** * Evaluation *)

Import Transcript.toy.
#[local] Existing Instances grant_each one_run.

(** A permutation that mixes enough for a sample to be accepted. *)
Definition mix_lane (i x y : Z) : Z :=
  let z := ((x + y) * 11400714819323198485 + (i + 1) * 1442695040888963407) mod 2 ^ 64 in
  Z.lxor z (Z.shiftr z 29).
Definition mix_round (s : list Z) : list Z :=
  map (fun '(i, (x, y)) => mix_lane i x y) (zip (range 25) (zip s (drop 1 s ++ take 1 s))).
#[local] Instance mix_keccak : Keccak := fun s => Nat.iter 6 mix_round s.

Lemma mix_lane_range i x y : in_u 64 (mix_lane i x y).
Proof.
  unfold mix_lane. set (z := _ mod 2 ^ 64). assert (Hz : 0 <= z < 2 ^ 64) by (apply Z.mod_pos_bound; lia).
  assert (Hs : 0 <= Z.shiftr z 29 < 2 ^ 64) by (rewrite Z.shiftr_div_pow2 by lia; div_lia).
  apply lxor_in_u; [lia|exact Hz|exact Hs].
Qed.

Lemma mix_round_lanes s : lanes_ok s -> lanes_ok (mix_round s).
Proof.
  intros [Hl _]. split.
  - unfold mix_round, range, len in *. rewrite length_map, !length_zip_with, length_app, length_drop, length_take, length_seqZ. lia.
  - unfold mix_round. rewrite Forall_map. apply list.Forall_forall. intros [i [x y]] _. apply mix_lane_range.
Qed.

#[local] Instance mix_keccak_laws : KeccakLaws.
Proof. intros s Hs. unfold f1600, mix_keccak. cbn [Nat.iter nat_rect]. by do 6 apply mix_round_lanes. Qed.

(** A draw under the production policy of dimension 64. *)
Definition certified_request : draw_request :=
  {| req_domain := EvaluationTrace; req_ring_d := 64; req_group := 0; req_blocks := 1; req_claims := 1;
     req_cfg := D64_SELECTIVE_L2_CHALLENGE_CONFIG; req_nonce := 5;
     req_rejection := Some OperatorNormRejection.D64_SELECTIVE_L2 |}.

Lemma certified_typed : request_typed certified_request.
Proof.
  assert (Hu : forall w n, 0 < w -> (0 <=? n) && (n <? 2 ^ w) = true -> in_u w n) by (intros w n _ Hn; bool_prop; done).
  constructor; [..|intros r Hr; injection Hr as <-]; 
    unfold config_typed, rejection_typed; repeat match goal with |- _ /\ _ => split end; apply Hu; reflexivity.
Qed.

Abbreviation certified_draw :=
  (draw (H1 := true) (H2 := true) 64 (LiveFoldDraw.new (F := F97.t) toy_transcript) certified_request).

Lemma fold_draw_certified_witness :
  exists cs d ch, certified_draw = Ok (cs, d) /\ challenges cs = [ch] /\
    challenge_norm_le 64 ch 18.
Proof.
  assert (Hok : match certified_draw with Ok _ => true | _ => false end = true) by (vm_compute; reflexivity).
  destruct certified_draw as [[cs d]|e|] eqn:E; [|discriminate Hok|discriminate Hok].
  destruct (fold_draw_certified (H2 := true) (H3 := true) 64 (LiveFoldDraw.new (F := F97.t) toy_transcript) certified_request
    cs d ltac:(done) certified_typed
    (fun payload seed s => toy_seed_bytes _ _ payload seed s) ltac:(vm_compute; reflexivity) E)
    as (payload & seed & _ & _ & [Hl _] & Hb & Hc & _ & Hf).
  rewrite Hb, Hc in Hl. destruct (challenges cs) as [|ch [|ch' l]] eqn:Hch; [discriminate Hl| |].
  - exists cs, d, ch. refine (conj eq_refl (conj Hch _)). apply list.Forall_cons in Hf as [(_ & _ & Hr) _].
    exact (Hr _ eq_refl).
  - exfalso. unfold len in Hl. cbn in Hl. lia.
Defined.
